(* ===== verification/_CoqProject ===== *)
-Q . S2P
Prelude.v
Utf8.v
Results.v
Text.v
Json.v
Config.v
BTree.v
Liveness.v
Multiplexer.v
Channels.v
Plugin.v
ResourceLedger.v
EntityLive.v
Budget.v
AsyncLimits.v
TimerHeap.v
TimerQueue.v
Interfaces.v
InterfaceTeardown.v
TopoOrder.v
Contracts.v
Loader.v
Fold.v
Cookies.v
Interop.v
InteropCalls.v
LoaderRead.v
ConfigBaselines.v
WorkerQueue.v
SdkHooks.v
SharedSwitch.v
Dispatch.v
SurfaceLeases.v
LeaseRegistry.v
LeaseInvariant.v
LeaseSteps.v
LeaseProperties.v
EngineContract.v
EngineInstance.v
EngineOverrides.v
EngineCopies.v
EngineProjection.v
EngineRegistry.v
RegistryInvariant.v
FunctionAdapter.v
FunctionDispatch.v
AdapterInvariant.v
AdapterSteps.v
AdapterProperties.v
DispatchInvariant.v
DispatchProperties.v
RepairSnapshot.v
PackageManifest.v
ServerLock.v
ServerUpdate.v
UpdateProperties.v
UpdateGate.v
ServerConsole.v
JsNumber.v
GamedataCalls.v
GamedataHooks.v
GamedataProperties.v
HookDispatch.v
CallInvoke.v
