(* ===== verification/Prelude.v ===== *)
(** * The core state machines of s2script

    s2script runs TypeScript plugins inside a Source 2 game server. A C++ shim (shim/src) receives the
    engine's callbacks; a Rust core (core/src) embeds V8, loads plugins, and owns every piece of state
    that outlives one callback. This development models the parts of that core whose correctness is a
    matter of logic: the tables that decide who is alive, who is called, in which order, within which
    limits, and what is given back when a plugin goes away; the readers of what comes from outside; and
    the update that replaces plugins on disk. Definitions are executable and keep the code's names; each
    file says which source file it follows.

    ** How the parts interact

    The engine tells the core about entities: EntityLive keeps the books that every field access and
    every entity argument is checked against. Hooks and named events are dispatched to subscribers:
    Multiplexer is one subscriber list with its collapse rules, Channels a store of such lists by name,
    Dispatch the walk over a snapshot of subscribers, SdkHooks the hooks of one entity with the detours
    they install. A plugin is a row of the registry of Plugin, with a slot, a generation and a ledger of
    what it acquired; unloading runs the ledger backwards and sweeps every owner-keyed store.
    ResourceLedger states what the registry promises to the stores that hold resources: the entity
    switches of SharedSwitch, the surface leases of SurfaceLeases, the function bindings of EngineRegistry.

    Plugins publish and import interfaces through Interfaces; a change there bumps the interop epoch of
    Plugin that cached bindings compare. Interop is the contract of an interface, read from the manifest,
    and InteropCalls the calls and events that cross it. LoaderRead reads archives from disk on the worker
    thread of WorkerQueue; Loader, TopoOrder and Contracts decide which archives of a batch may load, in
    which order, and how much of that work one frame does; Config merges an operator's file into what the
    manifest declares and ConfigBaselines detects what changed in it. Asynchronous work is admitted by
    Budget and AsyncLimits, timers by TimerQueue. Fold merges the restrictions several plugins put on the
    same key, and Cookies queues the writes a database plugin performs later.

    An archive may bring engine functions: EngineContract admits the bundle, EngineInstance lowers it (and
    the packages a game ships), EngineOverrides applies an operator's corrections, EngineRegistry binds the
    functions to their owner, FunctionAdapter keeps the adapters and subscriptions over these bindings, and
    FunctionDispatch runs the hooks; EngineProjection and EngineCopies carry the values, within a budget.
    PackageManifest and RepairSnapshot read what a game package is made of. Plugins and game packages also
    declare single functions of the engine: GamedataCalls admits those to call, GamedataHooks those to
    detour and gives each a slot, CallInvoke makes a call for JavaScript, HookDispatch runs the
    subscribers of a detour on the frame of its arguments. Before the loader's first scan
    the update of ServerUpdate may replace archives, under the gate of UpdateGate, from the documents of
    ServerLock; ServerConsole is the same update asked for at the console.

    ** Files

    Shared:

    - [Prelude]: machine integers ([wrap64] and its relatives for release-mode arithmetic, [sat_add]
      and [sat_sub] for saturating, [checked_add]), list operations of the Rust library ([position],
      [vec_insert], [vec_remove], [filterb] for [retain] and [filter]), sorted strings, walks in finite
      graphs. [BTree]: the ordered map and set operations of the Rust library that iterate in key order.
      [Results]: fallible code. [Utf8], [Text]: encodings and string functions. [Json]: JSON values.
    - [Budget], [AsyncLimits] (async_limits.rs, the policy of loader_worker.rs): gauges and leases; the
      policies and their validation; the job domain, a socket's outbound queue, the frame budget.
    - [Liveness] (liveness.rs): [LiveTable], ids minted per key; used by Plugin, EntityLive and the leases.

    Entities, dispatch and plugins:

    - [Multiplexer] (multiplexer.rs): [Descriptor], [subscribe], [unsubscribe], [remove_by_owner],
      [apply_errors], [run_chain]; and the frame descriptor of the host with the detour that
      [refresh_detour] of v8host.rs keeps for it. [Channels] (channels.rs): the store of descriptors by name, against a
      table of (channel, row). [Dispatch] (dispatch.rs): the fan-out. [SdkHooks] (sdkhooks.rs): the hook
      store of entities against a plain list, with the engine's detours.
    - [Plugin] (interop_slots.rs, plugin.rs): [InteropSlots.bump_epoch], [PluginLedger], [Registry].
      [ResourceLedger] (plugin.rs behind v8host.rs): the class [Ledger] with its laws, and the registry as
      an instance.
    - [EntityLive] (entity_live.rs): host ids, the flat mirror, map transitions, the repair sweep.
    - [SharedSwitch] (shared_entity_switch.rs): switches held by several owners across engine calls that
      may re-enter. [SurfaceLeases] (surface_leases.rs): the lease machine; [LeaseRegistry],
      [LeaseInvariant], [LeaseSteps], [LeaseProperties]: its lemmas, invariant, preservation, theorems.
    - [Fold] (fold.rs, the voice and transmit natives of v8host.rs, their tables in the shim): a class
      [MaskFold] states what a value of the table promises; the table's theorems are proved against it
      and both adapters instantiate it.
    - [TimerHeap], [TimerQueue] (async_rt.rs): the indexed binary heap, and the queue with its six
      indexes against a map from insertion sequence to (id, kind).
    - [Cookies] (cookies.rs): the outbox and the caches over it; its policy comes from [AsyncLimits].

    Loading and interfaces:

    - [Interfaces] (interfaces.rs): version ranges ([Semver]) and the interface registry;
      [InterfaceTeardown] (v8host/lifecycle.rs): what unloading a plugin does to it. [Interop]
      (interop.rs): the wire schemas, their digest, the validation of a manifest. [InteropCalls]
      (v8host.rs, v8host/interop_wire.rs): the native that makes a call across an interface by name, and
      forwarded events.
    - [TopoOrder], [Contracts], [Loader] (loader.rs): load order; contract drift; command intents,
      parked loads, plugin list, the retained-bytes ledger and the drain budget.
    - [LoaderRead], [ConfigBaselines], [WorkerQueue] (loader_worker.rs): bounded reads and archive members;
      what config watchers have seen; the worker's queue, turns and controls. [Config] (config.rs).

    Engine functions (engine_functions/, v8host/function_adapter.rs) and game packages:

    - [EngineContract] (contract.rs, abi.generated.rs), [EngineInstance] (instance.rs, policy.rs, trusted.rs,
      provenance.rs, package_adapter.rs), [EngineOverrides] (overrides.rs), [EngineCopies] (copied.rs),
      [EngineProjection] (projection.rs, runtime.rs), [EngineRegistry] with [RegistryInvariant]
      (registry.rs).
    - [FunctionAdapter], [FunctionDispatch] (function_adapter.rs up to dispatch, and dispatch);
      [AdapterInvariant], [AdapterSteps], [AdapterProperties] and [DispatchInvariant],
      [DispatchProperties]: what always holds of each, and the theorems.
    - [RepairSnapshot], [PackageManifest] (game_packages/).

    Declared calls and hooks: [GamedataCalls] (gamedata_calls.rs), [GamedataHooks] (gamedata_hooks.rs, with
    what loading, unloading and the commit of a game package do to both) and [GamedataProperties];
    [HookDispatch] (v8host.rs): the views of a frame, the dispatch, and a machine in which JavaScript uses
    any view it ever got. [CallInvoke] (v8host.rs, schema.rs, nest.rs; latches and frame checks of the
    shim): the native that makes a call. [JsNumber] (v8host.rs, memory.rs): numbers that cross to JavaScript.

    Updates (server_update.rs): [ServerLock], [ServerUpdate] with [UpdateProperties], [UpdateGate],
    [ServerConsole].

    The files that state theorems end with a module of examples: evaluated runs, and a concrete instance
    of every theorem that has a hypothesis.

    ** Conventions

    A thread-local or a mutexed global is a record passed and returned. A [HashMap] is a [gmap] iterated
    in [map_to_list] order, and theorems about code that iterates one hold for the result whatever the
    order unless the code sorts. A [BTreeMap] is a [gmap] read in key order, or, where its strings are
    printed, a list in key order ([OrderedMap]). [unwrap], [expect], indexing and slicing that can panic
    return [None] or an explicit [Panic]; the theorems state that the panic is unreachable, or exactly when
    it is reached. [Result] is a sum, the error first, with [let*] for [?]; where the
    code also changes a state, ServerUpdate and GamedataCalls for instance, the state is passed through the
    monad [effect] with the notation [do] ([Results]). The release build has
    no overflow checks, so [+=] on a u64 wraps; where a counter is shown not to wrap the bound is part of
    the invariant. Identities the process never reuses (plugin generations, entity ids, timer sequences)
    come from 64-bit counters, and theorems say so when they assume that a counter is not exhausted.
    Strings are byte strings; lengths are byte lengths.

    Code that calls out and may be called back is modelled in one of two ways. Where the engine or V8 may
    do anything the program's entry points allow (SharedSwitch, SurfaceLeases, HookDispatch), an operation that waits is
    a frame on a stack and a run is any sequence of steps, so the theorems quantify over every
    interleaving. Where only the answers matter (SdkHooks, Dispatch, InteropCalls, FunctionDispatch, CallInvoke), the
    callbacks are programs, or arguments that transform the state. What the engine is asked is a trace in
    the state; ghost fields ([engine_on], [shown]) that no operation reads record what it was last told.

    Code outside src/ is a parameter: a class names the functions the core calls, and a second class, where
    one is needed, their documented laws. [Digest] is SHA-256; [JsonNumber] the numbers of the JSON crate,
    [Readers] and [Documents] its parser and printer; [Files] the file system as the package loader sees it,
    [Disk] the failures of the file system in an update, [Registry] the answers of the plugin registry and
    of the download hosts; [Printing] the parser and printer of declarations, [Ops] what the shim resolves
    and patches, [Frames] its accessors of a detour's arguments, [Engine] its call
    function, [CallInvoke.V8] the conversions of JavaScript values. The wall clock and the engine's answers are arguments.

    ** Fuel

    Loops that are not structural carry fuel and return [None] (or [OutOfFuel]) without it; the theorems
    show the fuel is enough: sifting a heap takes at most its length, draining due timers one round per
    entry, the unload and load orders one round per plugin (each removes one), the contract search
    2 ^ (n + 1) rounds for n eligible providers (a set of providers seen again removes one of them). The
    dispatch of function hooks nests at most as deep as its fuel, which stands for V8's call stack: its
    theorems hold for every fuel, and a dispatch without fuel answers with an error.

    ** The theorems

    - Identity: a stale plugin generation or entity id is never accepted again ([live_dead_id_stays_dead],
      [books_stale_id_stays_dead]), the fast tables agree with the books ([books_flat_agrees],
      [registry_slots_agree]), retirement and repair are exact ([books_retire_exact],
      [books_repair_reconcile]).
    - Dispatch: order, collapse, error accounting and cache keys, the frame detour is in exactly while an
      active subscriber is left ([mux_*]), the channel store refines its
      table ([channels_refine]), the fan-out is the chain over live subscribers ([fan_out_*]), the entity
      hooks refine a list and the engine's detours match it ([sdk_store_refines],
      [sdk_engine_hooks_exact]).
    - Shared resources: the engine is on exactly while someone holds the switch ([switch_agrees],
      [switch_answers_exact], [switch_unload_final]); what a surface shows belongs to a lease the machine
      still knows, within its limits ([lease_*]).
    - Teardown: [ledger_teardown_order], [iface_teardown_complete] (no trace of the plugin is left and no
      one else loses anything but the subscriptions on its interfaces), [iface_unload_order].
    - Loading: [topo_order_reference], [topo_producers_first], [contracts_verify_exact],
      [contracts_resolved], [loader_*], [retained_accounting], [drain_bounded], [folder_spec_roundtrip];
      the worker loses no request, answers with the latest read and drains ([worker_*],
      [stable_read_consistent]); configuration is typed and its watchers see each change once
      ([config_*], [baselines_*]).
    - Interfaces: [iface_call_target_ok], [iface_single_producer], [iface_epoch_covers_bindings]; what
      crosses one has the type of its contract ([schema_*], [manifest_validated_exact],
      [iface_call_typed], [iface_forward_typed], [iface_plain_no_refs], [iface_depth_balanced]).
    - Limits: [budget_accounting], [domain_accounting], [out_channel_fifo], [frame_bounded].
    - Time: [timers_refine], [timers_bounded_drain].
    - Policies: [fold_most_restrictive], [voice_agrees], [transmit_agrees] (which says for which owners the
      merged mask stands when the engine hands out an (index, serial) pair again).
    - Persistence: [outbox_fence_exact], [outbox_written_in_order], [outbox_bounded],
      [cookies_read_your_writes], [cookies_account_write_everywhere].
    - Engine functions: what is admitted is well formed, bound to its hash and grants no right it should
      not ([contract_*], [record_layout_sound], [from_public_exact], [trusted_*]); overrides change only
      targets, each as the entry that stands for its function says ([overrides_contained], [jsonc_strips], [plugin_directory_injective], [checked_exact]);
      values keep their type and budget ([projection_*], [compatible_positions], [copy_budget_exact]);
      bindings, adapters and subscriptions stay backed, exclusive and are given back ([function_*],
      [activation_all_or_nothing]); a dispatch calls only who is admitted, decides by the strongest answer
      and writes only what it checked ([hook_dispatch_admitted], [refused_callback_keeps_nothing],
      [generic_decision_strongest], [commit_checked_and_ordered], [post_without_pre_is_silent],
      [adapter_pre_strongest]).
    - Declared calls and hooks: slots are distinct, bounded and never re-pointed ([hook_slots_exact],
      [hook_slot_frozen]); only validated targets are patched ([hook_install_validated]); a call fits its
      frame and skips just its owner's hooks ([call_plans_fit], [call_frame_sound], [hook_bypass_exact]); a view reaches only
      the frame it was built for ([hook_view_confined]); [flatten_idempotent].
    - Game packages: [repair_snapshot_exact], [selection_verified].
    - Updates: [server_lock_roundtrip], [update_changes_owned], [update_in_place],
      [update_token_confined], [update_gate_exact], [console_op_contained]. What a commit writes or prunes
      is always a file that the plan or the old lock names ([contained_change]); that each file also ends up
      with its own plugin's bytes needs that no move and download swap places ([no_swap]).

    ** Not modelled

    The JavaScript facades through which most calls of an interface go (interop_facade.rs,
    interop_lifetime.rs): they are functions V8 calls directly; [iface_call_typed] is about the native.
    The batch coordinator of loader.rs. V8 isolates, promises and the conversion of JavaScript values (v8host.rs, v8host/ and jsmux.rs beyond
    the functions named above): their behaviour is V8's. Engine memory and calls through function pointers
    (entity.rs, memory.rs, ffi.rs, native.rs): what matters there is the layout of
    another program's memory. Asynchronous services built on tokio, SQLite and sockets (only their
    admission is modelled). The zip and JSON readers, which are crates. What the commit of a game
    package does beyond its declared calls and hooks, and trusted_source.rs. Crash reporting, profiling, native extensions,
    and the C++ shim beyond the tables named above. *)
From stdpp Require Export base numbers list strings gmap sorting fin_maps.

Declare Scope s2_scope.
Delimit Scope s2_scope with s2.
Open Scope Z_scope.

(** * Machine integers

    The repository is built without overflow checks (no profile of Cargo.toml sets them), so [+=] and
    [-=] on [u64]/[usize] wrap modulo [2^64], and on [i32] modulo [2^32] in two's complement. *)
Definition u64_modulus : Z := 2 ^ 64.
Definition u64_max : Z := u64_modulus - 1.
Definition wrap64 (z : Z) : Z := z mod u64_modulus.
Definition u64_succ (n : Z) : Z := wrap64 (n + 1).
Definition u64_pred (n : Z) : Z := wrap64 (n - 1).
Definition u64_add (a b : Z) : Z := wrap64 (a + b).
Definition u64_sub (a b : Z) : Z := wrap64 (a - b).
Definition sat_add (a b : Z) : Z := Z.min (a + b) u64_max.
Definition sat_sub (a b : Z) : Z := Z.max (a - b) 0.
Definition checked_add (a b : Z) : option Z := if a + b <=? u64_max then Some (a + b) else None.
Definition u32_wrap (z : Z) : Z := z mod 2 ^ 32.
Definition i32_wrap (z : Z) : Z := (z + 2 ^ 31) mod 2 ^ 32 - 2 ^ 31.

Notation "n +%u64 m" := (u64_add n m) (at level 50, left associativity) : s2_scope.
Notation "n -%u64 m" := (u64_sub n m) (at level 50, left associativity) : s2_scope.

(** * Vectors

    [Iterator::position], [Vec::insert] and [Vec::remove] (the last two panic out of range; here an
    out-of-range index appends, respectively removes nothing, and every use is within range). *)
Fixpoint position {A} (f : A -> bool) (l : list A) : option nat :=
  match l with
  | [] => None
  | x :: l' => if f x then Some O else S <$> position f l'
  end.

Definition vec_insert {A} (i : nat) (x : A) (l : list A) : list A := take i l ++ x :: drop i l.
Definition vec_remove {A} (i : nat) (l : list A) : list A := take i l ++ drop (S i) l.

(** Boolean filter and count, so that models read [Iterator::filter(p).count()]. *)
Fixpoint filterb {A} (f : A -> bool) (l : list A) : list A :=
  match l with
  | [] => []
  | x :: l' => if f x then x :: filterb f l' else filterb f l'
  end.

Definition countb {A} (f : A -> bool) (l : list A) : Z := Z.of_nat (length (filterb f l)).

(** * Automation *)

(** Destruct the innermost scrutinee of a [match] or [if] in the goal or in a hypothesis. *)
Ltac case_split :=
  match goal with
  | |- context [match ?x with _ => _ end] =>
      lazymatch x with context [match _ with _ => _ end] => fail | _ => destruct x eqn:? end
  | H : context [match ?x with _ => _ end] |- _ =>
      lazymatch x with context [match _ with _ => _ end] => fail | _ => destruct x eqn:? end
  end.

(** Turn boolean tests on integers into propositions. *)
Ltac bool_to_prop :=
  repeat match goal with
  | H : (_ =? _) = true |- _ => apply Z.eqb_eq in H
  | H : (_ =? _) = false |- _ => apply Z.eqb_neq in H
  | H : (_ <=? _) = true |- _ => apply Z.leb_le in H
  | H : (_ <=? _) = false |- _ => apply Z.leb_gt in H
  | H : (_ <? _) = true |- _ => apply Z.ltb_lt in H
  | H : (_ <? _) = false |- _ => apply Z.ltb_ge in H
  | H : andb _ _ = true |- _ => apply andb_true_iff in H as [? ?]
  | H : orb _ _ = false |- _ => apply orb_false_iff in H as [? ?]
  | H : negb _ = true |- _ => apply negb_true_iff in H
  | H : negb _ = false |- _ => apply negb_false_iff in H
  | H : bool_decide _ = true |- _ => apply bool_decide_eq_true in H
  | H : bool_decide _ = false |- _ => apply bool_decide_eq_false in H
  end.

(** Membership of a list built with [::] and [++], from memberships in the context. *)
Ltac in_list := rewrite ?elem_of_app, ?elem_of_cons, ?elem_of_app, ?elem_of_cons in *; first [done | tauto | naive_solver].

Create HintDb s2 discriminated.

(** * Lemmas on machine integers *)

Lemma u64_modulus_pos : 0 < u64_modulus.
Proof. reflexivity. Qed.

Lemma wrap64_range z : 0 <= wrap64 z < u64_modulus.
Proof. apply Z.mod_pos_bound, u64_modulus_pos. Qed.

Lemma wrap64_small z : 0 <= z < u64_modulus -> wrap64 z = z.
Proof. apply Z.mod_small. Qed.

Lemma u64_succ_small n : 0 <= n < u64_max -> u64_succ n = n + 1.
Proof. intros. apply wrap64_small. unfold u64_max in *. lia. Qed.

Lemma u64_pred_small n : 0 < n <= u64_max -> u64_pred n = n - 1.
Proof. intros. apply wrap64_small. unfold u64_max in *. lia. Qed.

Lemma u64_add_small a b : 0 <= a + b < u64_modulus -> u64_add a b = a + b.
Proof. apply wrap64_small. Qed.

Lemma u64_sub_small a b : 0 <= a - b < u64_modulus -> u64_sub a b = a - b.
Proof. apply wrap64_small. Qed.

(** * Lemmas on boolean filters and counts *)
Section Filterb.
Context {A : Type}.
Implicit Types (f g : A -> bool) (l : list A).

Lemma filterb_app f l1 l2 : filterb f (l1 ++ l2) = filterb f l1 ++ filterb f l2.
Proof. induction l1 as [|x l1 IH]; simpl; [done|]. rewrite IH. by destruct (f x). Qed.

Lemma elem_of_filterb f l x : x ∈ filterb f l <-> f x = true /\ x ∈ l.
Proof.
  induction l as [|y l IH]; simpl; [rewrite elem_of_nil; tauto|].
  destruct (f y) eqn:E; rewrite !elem_of_cons, IH || rewrite elem_of_cons, IH;
    split; [|intros [? [->|?]]|intros [? ?]|intros [? [->|?]]]; intuition congruence.
Qed.

Lemma filterb_ext f g l : (forall x, x ∈ l -> f x = g x) -> filterb f l = filterb g l.
Proof.
  induction l as [|x l IH]; intros H; simpl; [done|].
  rewrite (H x) by in_list. rewrite IH; [done|]. intros y Hy. apply H. in_list.
Qed.

Lemma filterb_filterb f g l : filterb f (filterb g l) = filterb (fun x => g x && f x) l.
Proof.
  induction l as [|x l IH]; simpl; [done|].
  destruct (g x); simpl; [|done]. by destruct (f x); rewrite IH.
Qed.

Lemma filterb_comm f g l : filterb f (filterb g l) = filterb g (filterb f l).
Proof. rewrite !filterb_filterb. apply filterb_ext. intros. apply andb_comm. Qed.

Lemma filterb_true f l : (forall x, x ∈ l -> f x = true) -> filterb f l = l.
Proof.
  induction l as [|x l IH]; intros H; simpl; [done|].
  rewrite (H x) by in_list. rewrite IH; [done|]. intros y Hy. apply H. in_list.
Qed.

Lemma filterb_nil_iff f l : filterb f l = [] <-> forall x, x ∈ l -> f x = false.
Proof.
  split.
  - intros H x Hx. destruct (f x) eqn:E; [|done].
    assert (x ∈ filterb f l) as Hin by by apply elem_of_filterb.
    rewrite H in Hin. by apply elem_of_nil in Hin.
  - induction l as [|x l IH]; intros H; simpl; [done|].
    rewrite (H x) by in_list. apply IH. intros y Hy. apply H. in_list.
Qed.

Lemma filterb_sublist f l : sublist (filterb f l) l.
Proof. induction l as [|x l IH]; simpl; [constructor|]. by destruct (f x); constructor. Qed.

Lemma filterb_length_le f l : (length (filterb f l) <= length l)%nat.
Proof. apply sublist_length, filterb_sublist. Qed.

Lemma filterb_NoDup f l : NoDup l -> NoDup (filterb f l).
Proof. intros. by eapply sublist_NoDup, filterb_sublist. Qed.

Lemma filterb_fmap {B} (h : B -> A) f (l : list B) :
  filterb f (h <$> l) = h <$> filterb (fun x => f (h x)) l.
Proof. induction l as [|x l IH]; csimpl; [done|]. destruct (f (h x)); csimpl; by rewrite IH. Qed.

Lemma filterb_fmap_NoDup {B} (h : A -> B) f l : NoDup (h <$> l) -> NoDup (h <$> filterb f l).
Proof. intros. eapply sublist_NoDup; [done|]. apply fmap_sublist, filterb_sublist. Qed.

Lemma countb_app f l1 l2 : countb f (l1 ++ l2) = countb f l1 + countb f l2.
Proof. unfold countb. rewrite filterb_app, length_app. lia. Qed.

Lemma countb_cons f x l : countb f (x :: l) = (if f x then 1 else 0) + countb f l.
Proof. unfold countb; simpl. destruct (f x); simpl; lia. Qed.

Lemma countb_nonneg f l : 0 <= countb f l.
Proof. unfold countb. lia. Qed.

Lemma countb_le_length f l : countb f l <= Z.of_nat (length l).
Proof. unfold countb. pose proof (filterb_length_le f l). lia. Qed.

Lemma filterb_perm f l l' : l ≡ₚ l' -> filterb f l ≡ₚ filterb f l'.
Proof.
  induction 1 as [|x l l' _ IH|x y l|l1 l2 l3 _ IH1 _ IH2]; simpl; [done|..].
  - by destruct (f x); rewrite IH.
  - destruct (f x), (f y); try done. apply Permutation_swap.
  - by rewrite IH1.
Qed.

Lemma countb_perm f l l' : l ≡ₚ l' -> countb f l = countb f l'.
Proof. intros Hp. unfold countb. by rewrite (Permutation_length (filterb_perm f _ _ Hp)). Qed.

Lemma countb_sublist f l1 l2 : sublist l1 l2 -> countb f l1 <= countb f l2.
Proof.
  induction 1 as [|x l1 l2 _ IH|x l1 l2 _ IH]; [done|..]; rewrite ?countb_cons; destruct (f x); lia.
Qed.

Lemma countb_0_iff f l : countb f l = 0 <-> forall x, x ∈ l -> f x = false.
Proof. unfold countb. rewrite <- filterb_nil_iff. destruct (filterb f l); simpl; split; intros; done || lia. Qed.

Lemma countb_pos f l : 0 < countb f l <-> exists x, x ∈ l /\ f x = true.
Proof.
  split.
  - intros Hpos. destruct (filterb f l) as [|x r] eqn:E; [unfold countb in Hpos; rewrite E in Hpos; simpl in Hpos; lia|].
    exists x. apply and_comm, elem_of_filterb. rewrite E. by left.
  - intros (x & Hin & Hx). pose proof (countb_nonneg f l). assert (countb f l <> 0); [|lia].
    intros E0. rewrite countb_0_iff in E0. specialize (E0 x Hin). congruence.
Qed.
Lemma countb_ext f g l : (forall x, x ∈ l -> f x = g x) -> countb f l = countb g l.
Proof. intros. unfold countb. by rewrite (filterb_ext f g). Qed.
End Filterb.

(** [Iterator::all] and [Iterator::any]. *)
Lemma forallb_elem {A} (f : A -> bool) (l : list A) : forallb f l = true <-> forall x, x ∈ l -> f x = true.
Proof. rewrite List.forallb_forall. by setoid_rewrite list_elem_of_In. Qed.

Lemma existsb_elem {A} (f : A -> bool) (l : list A) : existsb f l = true <-> exists x, x ∈ l /\ f x = true.
Proof. rewrite List.existsb_exists. by setoid_rewrite list_elem_of_In. Qed.

Lemma existsb_none {A} (f : A -> bool) (l : list A) : existsb f l = false <-> forall x, x ∈ l -> f x = false.
Proof.
  rewrite <- not_true_iff_false, existsb_elem. split.
  - intros H x Hx. apply not_true_iff_false. intros Hf. apply H. eauto.
  - intros H (x & Hx & Hf). rewrite H in Hf; done.
Qed.

(** * Lemmas on vectors *)
Section Vec.
Context {A : Type}.
Implicit Types (f : A -> bool) (l : list A).

Lemma position_Some f l i :
  position f l = Some i ->
  exists l1 x l2, l = l1 ++ x :: l2 /\ length l1 = i /\ f x = true /\ Forall (fun y => f y = false) l1.
Proof.
  revert i. induction l as [|y l IH]; intros i; simpl; [done|].
  destruct (f y) eqn:E; intros Hi.
  - simplify_eq. exists [], y, l. auto.
  - destruct (position f l) as [j|] eqn:Hj; simplify_eq/=.
    destruct (IH j eq_refl) as (l1 & x & l2 & -> & <- & Hx & Hl1).
    exists (y :: l1), x, l2. repeat split; auto.
Qed.

Lemma position_None f l : position f l = None <-> Forall (fun y => f y = false) l.
Proof.
  induction l as [|y l IH]; simpl; [split; auto|].
  rewrite Forall_cons. destruct (f y) eqn:E; simpl.
  - split; [done|]. naive_solver.
  - destruct (position f l); simpl; naive_solver.
Qed.

Lemma position_app_found f l1 x l2 :
  Forall (fun y => f y = false) l1 -> f x = true -> position f (l1 ++ x :: l2) = Some (length l1).
Proof. induction 1 as [|y l1 Hy _ IH]; intros Hx; simpl; [by rewrite Hx|]. by rewrite Hy, IH. Qed.

Lemma vec_insert_app l1 x l2 : vec_insert (length l1) x (l1 ++ l2) = l1 ++ x :: l2.
Proof. unfold vec_insert. by rewrite take_app_length, drop_app_length. Qed.

Lemma vec_remove_app l1 x l2 : vec_remove (length l1) (l1 ++ x :: l2) = l1 ++ l2.
Proof.
  unfold vec_remove. rewrite take_app_length. f_equal.
  rewrite cons_middle, app_assoc. replace (S (length l1)) with (length (l1 ++ [x])).
  - apply drop_app_length.
  - rewrite length_app. simpl. lia.
Qed.

Lemma insert_middle l1 x y l2 : <[length l1 := y]> (l1 ++ x :: l2) = l1 ++ y :: l2.
Proof. by rewrite insert_app_r_alt, Nat.sub_diag. Qed.

Lemma Forall_sublist (P : A -> Prop) l1 l2 : sublist l1 l2 -> Forall P l2 -> Forall P l1.
Proof.
  rewrite !Forall_forall. intros Hs HP x Hx. apply HP. by eapply elem_of_submseteq, sublist_submseteq.
Qed.

Lemma sublist_drop_one l1 x l2 : sublist (l1 ++ l2) (l1 ++ x :: l2).
Proof. apply sublist_app; [done|]. by constructor. Qed.

Lemma fmap_id_on (h : A -> A) l : (forall x, x ∈ l -> h x = x) -> h <$> l = l.
Proof. induction l as [|x l IH]; intros H; csimpl; [done|]. rewrite H by in_list. rewrite IH; [done|]. intros y Hy. apply H. in_list. Qed.
End Vec.

Lemma NoDup_omap_inj {A B} (f : A -> option B) (l : list A) :
  NoDup l -> (forall x y b, x ∈ l -> y ∈ l -> f x = Some b -> f y = Some b -> x = y) -> NoDup (omap f l).
Proof.
  induction 1 as [|x l Hx _ IH]; intros Hf; cbn; [constructor|]. assert (NoDup (omap f l)) as Hl.
  { apply IH. intros y z b Hy Hz. apply Hf; in_list. }
  destruct (f x) as [b|] eqn:E; [|done]. constructor; [|done]. intros (y & Hy & Hfy)%list_elem_of_omap.
  apply Hx. by rewrite (Hf x y b) by in_list.
Qed.

(** * Sums over a map

    [kvsum f m] adds [f k a] over the entries of [m]; the models use it for byte accounting. *)
Section KvSum.
Context {K : Type} `{Countable K} {A : Type}.
Implicit Types (f : K -> A -> Z) (m : gmap K A).

Definition lsum f (l : list (K * A)) : Z := foldr (fun kv n => f kv.1 kv.2 + n) 0 l.
Definition kvsum f m : Z := lsum f (map_to_list m).
Definition kv_at f (k : K) (o : option A) : Z := match o with Some a => f k a | None => 0 end.

Lemma kvsum_empty f : kvsum f ∅ = 0.
Proof. unfold kvsum. by rewrite map_to_list_empty. Qed.

Lemma lsum_perm f l l' : l ≡ₚ l' -> lsum f l = lsum f l'.
Proof. unfold lsum. induction 1; simpl; lia. Qed.

Lemma kvsum_insert_new f m k a : m !! k = None -> kvsum f (<[k := a]> m) = f k a + kvsum f m.
Proof. intros E. unfold kvsum. by rewrite (lsum_perm _ _ _ (map_to_list_insert m k a E)). Qed.

Lemma kvsum_delete f m k : kvsum f (delete k m) = kvsum f m - kv_at f k (m !! k).
Proof.
  destruct (m !! k) as [a|] eqn:E; cbn; [|rewrite delete_id by done; lia].
  rewrite <- (insert_delete_id m k a E) at 2. rewrite kvsum_insert_new by apply lookup_delete_eq. lia.
Qed.

Lemma kvsum_insert f m k a : kvsum f (<[k := a]> m) = kvsum f m - kv_at f k (m !! k) + f k a.
Proof. rewrite <- insert_delete_eq, kvsum_insert_new by apply lookup_delete_eq. rewrite kvsum_delete. lia. Qed.

Lemma kvsum_nonneg f m : (forall k a, m !! k = Some a -> 0 <= f k a) -> 0 <= kvsum f m.
Proof.
  intros Hf. unfold kvsum. assert (forall kv : K * A, kv ∈ map_to_list m -> 0 <= f kv.1 kv.2) as Hl.
  { intros [k a] Hin%elem_of_map_to_list. by apply Hf. }
  induction (map_to_list m) as [|kv l IH]; simpl; [lia|].
  pose proof (Hl kv (list_elem_of_here _ _)). assert (0 <= lsum f l); [|lia]. apply IH. intros x Hx. apply Hl. by right.
Qed.

Lemma kvsum_ge f m k : (forall j a, m !! j = Some a -> 0 <= f j a) -> kv_at f k (m !! k) <= kvsum f m.
Proof.
  intros Hf. pose proof (kvsum_delete f m k) as Hd. assert (0 <= kvsum f (delete k m)); [|lia].
  apply kvsum_nonneg. intros j a Hj. apply lookup_delete_Some in Hj as [_ Hj]. by apply Hf.
Qed.

Lemma kvsum_ext f g m : (forall k a, m !! k = Some a -> f k a = g k a) -> kvsum f m = kvsum g m.
Proof.
  intros Hf. unfold kvsum. assert (forall kv : K * A, kv ∈ map_to_list m -> f kv.1 kv.2 = g kv.1 kv.2) as Hl.
  { intros [k a] Hin%elem_of_map_to_list. by apply Hf. }
  induction (map_to_list m) as [|kv l IH]; simpl; [done|]. rewrite (Hl kv) by apply list_elem_of_here.
  f_equal. apply IH. intros x Hx. apply Hl. by right.
Qed.

(** A saturating fold of sizes is the sum when the sum is within the range of a [usize]. *)
Lemma lsum_saturating f l :
  (forall kv, kv ∈ l -> 0 <= f kv.1 kv.2) ->
  foldr (fun kv n => sat_add n (f kv.1 kv.2)) 0 l = Z.min (lsum f l) u64_max.
Proof.
  induction l as [|kv l IH]; intros Hl; simpl; [done|].
  pose proof (Hl kv (list_elem_of_here _ _)). rewrite IH by (intros x Hx; apply Hl; by right).
  unfold sat_add. assert (0 <= lsum f l); [|lia]. clear IH.
  induction l as [|x l IH]; simpl; [lia|]. assert (0 <= f x.1 x.2) by (apply Hl; by right; left).
  assert (0 <= lsum f l); [|lia]. apply IH. intros y Hy. apply Hl. inversion Hy; subst; [left|right; by right].
Qed.
End KvSum.

(** * Sorted strings

    [str] is ordered by its bytes, which is stdpp's [String.le]; [sort] and [sort_unstable] agree on
    strings, since equal strings cannot be told apart. *)
Definition sort_strings (l : list string) : list string := merge_sort String.le l.

Lemma sort_strings_perm l : sort_strings l ≡ₚ l.
Proof. apply merge_sort_Permutation. Qed.

Lemma sort_strings_sorted l : StronglySorted String.le (sort_strings l).
Proof. apply (StronglySorted_merge_sort _). Qed.

Lemma sort_strings_unique l l' : l ≡ₚ l' -> StronglySorted String.le l' -> sort_strings l = l'.
Proof.
  intros Hp Hs. apply (StronglySorted_unique String.le); [apply sort_strings_sorted|done|]. by rewrite sort_strings_perm.
Qed.

(** * Finite walks

    In a finite set where everyone has a predecessor there is a cycle. *)
Section Walks.
Context {A : Type} (E : A -> A -> Prop).

Lemma walk_exists (l : list A) n :
  l <> [] -> (forall p, p ∈ l -> exists q, q ∈ l /\ E q p) ->
  exists w, length w = S n /\ Forall (fun p => p ∈ l) w /\ StronglySorted (tc E) w.
Proof.
  intros Hne Hall. induction n as [|n (w & Hlen & Hin & Hs)].
  - destruct l as [|p rest]; [done|]. exists [p]. split; [done|]. split; repeat constructor.
  - destruct w as [|p w]; [done|]. apply Forall_cons in Hin as [Hp Hin]. destruct (Hall p Hp) as (q & Hq & Hqp).
    exists (q :: p :: w). split; [simpl in *; lia|]. split; [by repeat constructor|].
    inversion Hs as [|? ? Hs' Hf]; subst. constructor; [done|]. constructor; [by apply tc_once|].
    eapply Forall_impl; [exact Hf|]. intros z Hz. by eapply tc_l.
Qed.

Lemma walk_NoDup w : (forall p, ~ tc E p p) -> StronglySorted (tc E) w -> NoDup w.
Proof.
  intros Hac. induction 1 as [|p w _ IH Hf]; [constructor|]. constructor; [|done].
  intros Hp. rewrite Forall_forall in Hf. by apply (Hac p), Hf.
Qed.

Lemma acyclic_has_source (l : list A) :
  (forall p, ~ tc E p p) -> (forall p, p ∈ l -> exists q, q ∈ l /\ E q p) -> l = [].
Proof.
  intros Hac Hall. destruct l as [|x l'] eqn:El; [done|]. rewrite <- El in *. exfalso.
  destruct (walk_exists l (length l)) as (w & Hlen & Hin & Hs); [by subst|done|].
  apply walk_NoDup in Hs; [|done]. rewrite Forall_forall in Hin.
  pose proof (submseteq_length _ _ (NoDup_submseteq _ _ Hs Hin)). lia.
Qed.
End Walks.

#[export] Hint Rewrite @filterb_app @countb_app @countb_cons @elem_of_filterb : s2.
#[export] Hint Resolve filterb_NoDup filterb_sublist countb_nonneg wrap64_range : s2.
