(* ===== verification/Utf8.v ===== *)
(** The text encodings of the Rust library: [String::from_utf8_lossy], [String::from_utf8],
    [str::encode_utf16] and the lexicographic comparison of the units. *)
From S2P Require Import Prelude.
From Stdlib Require Import Ascii.
Local Open Scope nat_scope.

Module Utf8.

Definition byte (c : ascii) : nat := nat_of_ascii c.
Definition within (lo hi n : nat) : bool := (lo <=? n) && (n <=? hi).
Definition is_cont (c : ascii) : bool := within 128 191 (byte c).

(** The bytes a character may continue with after its first byte: the range of its second byte and the
    number of bytes after that. [None] is a byte that starts no character. *)
Definition continuation (b : nat) : option (nat * nat * nat) :=
  if within 194 223 b then Some (128, 191, 0)
  else if b =? 224 then Some (160, 191, 1)
  else if within 225 236 b then Some (128, 191, 1)
  else if b =? 237 then Some (128, 159, 1)
  else if within 238 239 b then Some (128, 191, 1)
  else if b =? 240 then Some (144, 191, 2)
  else if within 241 243 b then Some (128, 191, 2)
  else if b =? 244 then Some (128, 143, 2)
  else None.

(** Up to [n] continuation bytes: how many there are, and what follows them. *)
Fixpoint conts (n : nat) (s : string) : nat * string :=
  match n, s with
  | S m, String c s' => if is_cont c then (S (conts m s').1, (conts m s').2) else (0, s)
  | _, _ => (0, s)
  end.

(** The first character of a non-empty string, or the longest broken prefix of one: whether it is
    valid, its bytes, the rest. *)
Definition chunk (c : ascii) (s : string) : bool * string * string :=
  if byte c <? 128 then (true, String c "", s)
  else
    match continuation (byte c) with
    | None => (false, String c "", s)
    | Some (lo, hi, more) =>
        match s with
        | String c2 s2 =>
            if within lo hi (byte c2) then
              let '(n, rest) := conts more s2 in
              (n =? more, String c (String c2 (String.substring 0 n s2)), rest)
            else (false, String c "", s)
        | EmptyString => (false, String c "", s)
        end
    end.

(** U+FFFD, three bytes. *)
Definition replacement : string := String (ascii_of_nat 239) (String (ascii_of_nat 191) (String (ascii_of_nat 189) "")).

Fixpoint lossy_fuel (fuel : nat) (s : string) : string :=
  match fuel, s with
  | S f, String c s' =>
      let '(ok, ch, rest) := chunk c s' in
      ((if ok then ch else replacement) ++ lossy_fuel f rest)%string
  | _, _ => ""
  end.

Fixpoint valid_fuel (fuel : nat) (s : string) : bool :=
  match fuel, s with
  | S f, String c s' => let '(ok, _, rest) := chunk c s' in ok && valid_fuel f rest
  | O, String _ _ => false
  | _, EmptyString => true
  end.

(** [String::from_utf8_lossy], [String::from_utf8]. *)
Definition from_utf8_lossy (s : string) : string := lossy_fuel (String.length s) s.
Definition from_utf8 (s : string) : option string := if valid_fuel (String.length s) s then Some s else None.

(** The scalar value of the bytes of one character. *)
Definition scalar (ch : string) : Z :=
  match (fun c => Z.of_nat (byte c)) <$> String.list_ascii_of_string ch with
  | [a] => a
  | [a; b] => Z.lor (Z.shiftl (Z.land a 31) 6) (Z.land b 63)
  | [a; b; c] => Z.lor (Z.lor (Z.shiftl (Z.land a 15) 12) (Z.shiftl (Z.land b 63) 6)) (Z.land c 63)
  | [a; b; c; d] =>
      Z.lor (Z.lor (Z.lor (Z.shiftl (Z.land a 7) 18) (Z.shiftl (Z.land b 63) 12)) (Z.shiftl (Z.land c 63) 6)) (Z.land d 63)
  | _ => 65533%Z
  end.

(** The one or two UTF-16 units of a scalar value. *)
Definition units (c : Z) : list Z :=
  if (c <? 65536)%Z then [c]
  else [(55296 + Z.shiftr (c - 65536) 10)%Z; (56320 + Z.land (c - 65536) 1023)%Z].

Fixpoint utf16_fuel (fuel : nat) (s : string) : list Z :=
  match fuel, s with
  | S f, String c s' => let '(_, ch, rest) := chunk c s' in units (scalar ch) ++ utf16_fuel f rest
  | _, _ => []
  end.
Definition encode_utf16 (s : string) : list Z := utf16_fuel (String.length s) s.

(** [Iterator::cmp(..).is_lt()]. *)
Fixpoint units_lt (a b : list Z) : bool :=
  match a, b with
  | [], [] => false
  | [], _ :: _ => true
  | _ :: _, [] => false
  | x :: a, y :: b => (x <? y)%Z || ((x =? y)%Z && units_lt a b)
  end.

Lemma length_sapp a b : String.length (a ++ b)%string = String.length a + String.length b.
Proof. induction a as [|c a IH]; simpl; [done|]. by rewrite IH. Qed.

Lemma utf8_conts n s :
  let '(k, rest) := conts n s in k <= n /\ (String.substring 0 k s ++ rest)%string = s /\ String.length (String.substring 0 k s) = k.
Proof.
  revert s. induction n as [|n IH]; intros [|c s]; simpl; try (split_and!; done || lia).
  destruct (is_cont c); simpl; [|split_and!; done || lia]. specialize (IH s). destruct (conts n s) as [k rest]. simpl.
  destruct IH as (? & H1 & H2). split_and!; [lia| |lia]. change (String c (String.substring 0 k s +:+ rest) = String c s). by rewrite H1.
Qed.

(** A chunk is a non-empty prefix of the string. *)
Lemma utf8_chunk c s : let '(_, ch, rest) := chunk c s in (ch ++ rest)%string = String c s /\ (1 <= String.length ch)%nat.
Proof.
  unfold chunk. destruct (byte c <? 128); [done|]. destruct (continuation _) as [[[lo hi] more]|]; [|done].
  destruct s as [|c2 s2]; [done|]. destruct (within lo hi (byte c2)); [|done].
  pose proof (utf8_conts more s2) as Hc. destruct (conts more s2) as [n rest]. destruct Hc as (_ & Heq & _).
  split; [|simpl; lia]. change (String c (String c2 (String.substring 0 n s2 +:+ rest)) = String c (String c2 s2)). by rewrite Heq.
Qed.

(** Replacing broken byte sequences by U+FFFD grows the text at most threefold. *)
Lemma utf8_lossy_length s : String.length (from_utf8_lossy s) <= 3 * String.length s.
Proof.
  unfold from_utf8_lossy. enough (H : forall f t, String.length (lossy_fuel f t) <= 3 * String.length t) by apply H.
  clear s. induction f as [|f IH]; intros [|c t]; simpl; try lia.
  pose proof (utf8_chunk c t) as Hc. destruct (chunk c t) as [[ok ch] rest]. destruct Hc as [Heq Hch].
  apply (f_equal String.length) in Heq. rewrite length_sapp in *. specialize (IH rest).
  destruct ok; simpl in *; lia.
Qed.

(** Valid text is unchanged. *)
Lemma utf8_valid_lossy s t : from_utf8 s = Some t -> t = s /\ from_utf8_lossy s = s.
Proof.
  unfold from_utf8, from_utf8_lossy. destruct (valid_fuel _ s) eqn:Hv; [|done]. intros [= <-]. split; [done|].
  assert (H : forall f t, String.length t <= f -> valid_fuel f t = true -> lossy_fuel f t = t); [|by apply H].
  clear s Hv. induction f as [|f IH]; intros [|c t]; simpl; intros Hf Hv; try done; try lia.
  pose proof (utf8_chunk c t) as Hc. destruct (chunk c t) as [[ok ch] rest]. destruct Hc as [Heq Hch].
  apply andb_true_iff in Hv as [-> Hv]. rewrite IH; [done| |done].
  apply (f_equal String.length) in Heq. rewrite length_sapp in Heq. simpl in Heq. lia.
Qed.
End Utf8.
