(* ===== verification/Results.v ===== *)
(** Fallible code: [Result<A, E>] is [E + A], [?] is a bind, a loop with [?] in its body a fold; [effect] is
    the same with a state. *)
From S2P Require Import Prelude.

Definition rbind {E A B} (r : E + A) (k : A -> E + B) : E + B :=
  match r with inl e => inl e | inr a => k a end.
Notation "'let*' x ':=' r 'in' k" := (rbind r (fun x => k)) (at level 200, x pattern, right associativity) : s2_scope.
Open Scope s2_scope.

Definition require {E} (ok : bool) (why : E) : E + unit := if ok then inr tt else inl why.
Definition ok_or {E A} (o : option A) (why : E) : E + A := match o with Some a => inr a | None => inl why end.
Definition map_err {E F A} (f : E -> F) (r : E + A) : F + A := match r with inl e => inl (f e) | inr a => inr a end.

(** Fallible code that also changes a state. *)
Definition effect (S E A : Type) : Type := S -> (E + A) * S.
Definition bind {S E A B} (m : effect S E A) (k : A -> effect S E B) : effect S E B :=
  fun w => match m w with (inl e, w) => (inl e, w) | (inr a, w) => k a w end.
Definition lift {S E A} (r : E + A) : effect S E A := fun w => (r, w).
Notation "'do' x ':=' m 'in' k" := (bind m (fun x => k)) (at level 200, x pattern, right associativity) : s2_scope.
Fixpoint mfold {St E A S} (f : S -> A -> effect St E S) (s : S) (l : list A) : effect St E S :=
  match l with [] => lift (inr s) | x :: l => do s := f s x in mfold f s l end.

(** [for x in l { s = f(s, x)?; }] *)
Fixpoint rfold {E A S} (f : S -> A -> E + S) (s : S) (l : list A) : E + S :=
  match l with
  | [] => inr s
  | x :: l => let* s := f s x in rfold f s l
  end.
(** [iter.map(f).collect::<Result<Vec<_>, _>>()] *)
Fixpoint rmap {E A B} (f : A -> E + B) (l : list A) : E + list B :=
  match l with
  | [] => inr []
  | x :: l => let* y := f x in let* ys := rmap f l in inr (y :: ys)
  end.
Definition reach {E A} (f : A -> E + unit) (l : list A) : E + unit := rfold (fun _ => f) tt l.

Lemma rbind_inr {E A B} (r : E + A) (k : A -> E + B) b : rbind r k = inr b <-> exists a, r = inr a /\ k a = inr b.
Proof. destruct r as [e|a]; cbn; [split; [done|by intros (? & ? & _)]|]. split; [by exists a|by intros (? & [= ->] & ?)]. Qed.

Lemma require_inr {E} (ok : bool) (why : E) u : require ok why = inr u <-> ok = true.
Proof. destruct ok, u; cbn; by split. Qed.

Lemma ok_or_inr {E A} (o : option A) (why : E) a : ok_or o why = inr a <-> o = Some a.
Proof. destruct o; cbn; split; congruence. Qed.

Lemma map_err_inr {E F A} (f : E -> F) (r : E + A) a : map_err f r = inr a <-> r = inr a.
Proof. destruct r; cbn; split; congruence. Qed.

Lemma reach_inr {E A} (f : A -> E + unit) l u : reach f l = inr u <-> forall x, x ∈ l -> f x = inr tt.
Proof.
  unfold reach. destruct u. induction l as [|x l IH]; cbn; [split; [intros _ x Hx; by apply not_elem_of_nil in Hx|done]|].
  rewrite rbind_inr. setoid_rewrite elem_of_cons. split.
  - intros ([] & Hx & Hl) y [->|Hy]; [done|]. by apply IH.
  - intros Hall. exists tt. split; [apply Hall; by left|]. apply IH. intros y Hy. apply Hall. by right.
Qed.

Lemma rfold_app {E A S} (f : S -> A -> E + S) s l1 l2 : rfold f s (l1 ++ l2) = let* s := rfold f s l1 in rfold f s l2.
Proof. revert s. induction l1 as [|x l1 IH]; intros s; cbn; [done|]. destruct (f s x); cbn; [done|]. apply IH. Qed.

(** What a fold establishes after each prefix. *)
Lemma rfold_ind {E A S} (f : S -> A -> E + S) (P : list A -> S -> Prop) s l s' :
  P [] s -> (forall l1 x l2 a b, l = l1 ++ x :: l2 -> P l1 a -> f a x = inr b -> P (l1 ++ [x]) b) ->
  rfold f s l = inr s' -> P l s'.
Proof.
  revert s' . induction l as [|x l IH] using rev_ind; intros s' H0 Hs; cbn; [by intros [= <-]|].
  rewrite rfold_app, rbind_inr. intros (a & Ha & Hx). cbn in Hx. apply rbind_inr in Hx as (b & Hx & [= <-]).
  eapply Hs; [reflexivity| |done]. apply IH; [done| |done]. intros l1 y l2 c d -> . apply (Hs l1 y (l2 ++ [x])). by rewrite <- app_assoc.
Qed.

Lemma rmap_Forall2 {E A B} (f : A -> E + B) l ys : rmap f l = inr ys <-> Forall2 (fun x y => f x = inr y) l ys.
Proof.
  revert ys. induction l as [|x l IH]; intros ys; cbn.
  - split; [intros [= <-]; constructor|by intros ->%Forall2_nil_inv_l].
  - rewrite rbind_inr. setoid_rewrite rbind_inr. split.
    + intros (y & Hy & zs & Hzs & [= <-]). constructor; [done|]. by apply IH.
    + intros (y & zs & Hy & Hzs & ->)%Forall2_cons_inv_l. exists y. split; [done|]. exists zs. split; [by apply IH|done].
Qed.

Lemma rmap_length {E A B} (f : A -> E + B) l ys : rmap f l = inr ys -> length ys = length l.
Proof. intros Hl%rmap_Forall2%Forall2_length. done. Qed.

Lemma bind_case {S E A B} (m : effect S E A) (k : A -> effect S E B) w : bind m k w = match m w with (inl e, w1) => (inl e, w1) | (inr a, w1) => k a w1 end.
Proof. reflexivity. Qed.
Lemma bind_inr {S E A B} (m : effect S E A) (k : A -> effect S E B) w b w' : bind m k w = (inr b, w') -> exists a w1, m w = (inr a, w1) /\ k a w1 = (inr b, w').
Proof. unfold bind. destruct (m w) as [[e|a] w1]; [done|]. intros E'. by exists a, w1. Qed.
Lemma lift_eq {S E A} (r : E + A) (w : S) x : lift r w = x -> x = (r, w).
Proof. by intros <-. Qed.

(** Invert the success of a chain of binds. *)
Ltac succeeds :=
  repeat match goal with
  | H : rbind _ _ = inr _ |- _ => let a := fresh "a" in let Ha := fresh "Ok" in apply rbind_inr in H as (a & Ha & H)
  | H : require _ _ = inr ?u |- _ => apply require_inr in H; try (clear u)
  | H : ok_or _ _ = inr _ |- _ => apply ok_or_inr in H
  | H : map_err _ _ = inr _ |- _ => apply map_err_inr in H
  | H : inr _ = inr _ |- _ => injection H as H
  | H : inl _ = inr _ |- _ => discriminate H
  end.
(** Run an effect that succeeded. *)
Ltac runs := repeat match goal with
  | H : bind _ _ _ = (inr _, _) |- _ => let a := fresh "a" in let w := fresh "w" in let Hm := fresh "Hm" in apply bind_inr in H as (a & w & Hm & H)
  | H : lift _ _ = (inr _, _) |- _ => apply lift_eq in H; injection H as H; subst
  end.
Lemma mfold_ind {St E A S} (f : S -> A -> effect St E S) (P : list A -> S -> Prop) l s w s' w' :
  P [] s -> (forall l1 x l2 a b w1 w2, l = l1 ++ x :: l2 -> P l1 a -> f a x w1 = (inr b, w2) -> P (l1 ++ [x]) b) ->
  mfold f s l w = (inr s', w') -> P l s'.
Proof.
  intros H0 Hs. enough (Hgen : forall l2 l1 s w, l = l1 ++ l2 -> P l1 s -> mfold f s l2 w = (inr s', w') -> P l s') by by apply (Hgen l []).
  induction l2 as [|x l2 IH]; intros l1 s1 w1 El Hp Hm; [apply lift_eq in Hm as [= -> ->]; by rewrite app_nil_r in El; subst|].
  cbn in Hm. apply bind_inr in Hm as (s2 & w2 & E1 & E2). eapply (IH (l1 ++ [x])); [by rewrite <- app_assoc|by eapply Hs|exact E2].
Qed.
