(* ===== verification/Text.v ===== *)
(** The string functions of the language the components share, on strings of bytes. *)
From S2P Require Import Prelude.
From Stdlib Require Import Ascii.
From Stdlib Require String.

Module Text.
Definition chars (s : string) : list ascii := Stdlib.Strings.String.list_ascii_of_string s.
Definition of_chars (l : list ascii) : string := Stdlib.Strings.String.string_of_list_ascii l.
Definition blen (s : string) : Z := Z.of_nat (String.length s).
Definition is_empty (s : string) : bool := String.eqb s "".
(** [str::contains] of a character. *)
Definition contains (c : ascii) (s : string) : bool := existsb (Ascii.eqb c) (chars s).
Fixpoint strip_prefix (p s : string) : option string :=
  match p, s with
  | EmptyString, _ => Some s
  | String a p, String b s => if Ascii.eqb a b then strip_prefix p s else None
  | String _ _, EmptyString => None
  end.
Definition starts_with (p s : string) : bool := match strip_prefix p s with Some _ => true | None => false end.
(** [str::contains] of a string. *)
Fixpoint has (p s : string) : bool := starts_with p s || match s with EmptyString => false | String _ s => has p s end.
Definition ends_with (suffix s : string) : bool :=
  (String.length suffix <=? String.length s)%nat
  && String.eqb (Stdlib.Strings.String.substring (String.length s - String.length suffix) (String.length suffix) s) suffix.
Fixpoint dropwhile (f : ascii -> bool) (l : list ascii) : list ascii :=
  match l with [] => [] | c :: l' => if f c then dropwhile f l' else l end.
(** What comes before the first of some characters. *)
Fixpoint until (f : ascii -> bool) (s : string) : string :=
  match s with EmptyString => "" | String d s' => if f d then "" else String d (until f s') end.
(** [str::trim_end_matches] of a character. *)
Definition trim_end_matches (c : ascii) (s : string) : string := of_chars (rev (dropwhile (Ascii.eqb c) (rev (chars s)))).
Definition between (lo hi c : ascii) : bool := (nat_of_ascii lo <=? nat_of_ascii c)%nat && (nat_of_ascii c <=? nat_of_ascii hi)%nat.
Definition is_ascii_digit (c : ascii) : bool := between "0"%char "9"%char c.
Definition is_ascii_alphanumeric (c : ascii) : bool := is_ascii_digit c || between "A"%char "Z"%char c || between "a"%char "z"%char c.
(** [slice::join] *)
Definition join (sep : string) (l : list string) : string := Stdlib.Strings.String.concat sep l.

(** ** Lemmas *)
Lemma app_assoc_s (a b c : string) : (a +:+ b) +:+ c = a +:+ (b +:+ c).
Proof. induction a as [|x a IH]; [done|]. exact (f_equal (String x) IH). Qed.
Lemma app_nil_s (a : string) : a +:+ "" = a.
Proof. induction a as [|x a IH]; [done|]. exact (f_equal (String x) IH). Qed.
Lemma length_app_s (a b : string) : String.length (a +:+ b) = (String.length a + String.length b)%nat.
Proof. induction a as [|x a IH]; [done|]. exact (f_equal Datatypes.S IH). Qed.
Lemma blen_app a b : blen (a +:+ b) = blen a + blen b.
Proof. unfold blen. rewrite length_app_s. lia. Qed.
Lemma blen_nonneg s : 0 <= blen s.
Proof. unfold blen. lia. Qed.
Lemma app_inj_s (a b c d : string) : String.length a = String.length b -> a +:+ c = b +:+ d -> a = b /\ c = d.
Proof.
  revert b. induction a as [|x a IH]; intros [|y b] Hl E; cbn in *; [done|done|done|]. injection E as -> E. destruct (IH b) as [-> ->]; [lia|done|done].
Qed.
Lemma is_empty_true s : is_empty s = true <-> s = "".
Proof. unfold is_empty. apply String.eqb_eq. Qed.
Lemma chars_of_chars l : chars (of_chars l) = l.
Proof. apply Stdlib.Strings.String.list_ascii_of_string_of_list_ascii. Qed.
Lemma of_chars_chars s : of_chars (chars s) = s.
Proof. apply Stdlib.Strings.String.string_of_list_ascii_of_string. Qed.
Lemma chars_app_s a b : chars (a +:+ b) = chars a ++ chars b.
Proof. induction a as [|x a IH]; [done|]. exact (f_equal (cons x) IH). Qed.
Lemma strip_prefix_Some p s r : strip_prefix p s = Some r <-> s = p +:+ r.
Proof.
  revert s. induction p as [|a p IH]; intros s; [cbn; split; [by intros [= ->]|by intros ->]|]. destruct s as [|b s]; [by split|].
  cbn [strip_prefix]. change (String a p +:+ r) with (String a (p +:+ r)). destruct (Ascii.eqb_spec a b) as [->|Hne].
  - rewrite IH. split; [by intros ->|by intros [= ->]].
  - split; [done|]. by intros [= -> _].
Qed.
#[global] Arguments strip_prefix _ _ : simpl never.
Lemma strip_prefix_app p r : strip_prefix p (p +:+ r) = Some r.
Proof. by apply strip_prefix_Some. Qed.
Lemma app_cancel_l (a b c : string) : a +:+ b = a +:+ c -> b = c.
Proof. intros E. by apply (app_inj_s a a b c) in E as [_ ?]. Qed.
Lemma app_cancel_r (a b c : string) : a +:+ c = b +:+ c -> a = b.
Proof. intros E. apply (app_inj_s a b c c) in E as [? _]; [done|]. apply (f_equal String.length) in E. rewrite !length_app_s in E. lia. Qed.
Lemma contains_app c a b : contains c (a +:+ b) = contains c a || contains c b.
Proof. unfold contains. rewrite chars_app_s. apply existsb_app. Qed.
End Text.
