(* ===== verification/Json.v ===== *)
(** JSON values as the core handles them ([serde_json::Value]).

    The enum and its accessors are the crate's documented interface. A number is opaque: the class
    [JsonNumber] names the accessors the core uses and the documented laws that relate them. A map
    is the list of its entries, in key order with each key once; [Map] of the crate is a [BTreeMap]
    here, since the feature that keeps insertion order is off. *)
From S2P Require Import Prelude.
From Stdlib Require Import SpecFloat.

(** [f64], with the comparisons of the language. *)
Definition f64 : Type := spec_float.
Definition f64_of_Z (z : Z) : f64 := binary_normalize 53 1024 z 0 false.
Definition f64_eqb : f64 -> f64 -> bool := SFeqb.
Definition f64_ltb : f64 -> f64 -> bool := SFltb.

(** What the core asks of a JSON number. *)
Class JsonNumber (num : Type) := {
  num_eqb : num -> num -> bool;
  num_as_f64 : num -> option f64;
  num_as_u64 : num -> option Z;
  num_as_i64 : num -> option Z;
  num_is_f64 : num -> bool;
  num_zero : num;
}.

(** The documented facts: the three accessors exclude floats, and the literal 0 is an integer. *)
Class JsonNumberLaws (num : Type) `{JsonNumber num} := {
  u64_not_float n z : num_as_u64 n = Some z -> num_is_f64 n = false;
  i64_not_float n z : num_as_i64 n = Some z -> num_is_f64 n = false;
  u64_range n z : num_as_u64 n = Some z -> 0 <= z <= u64_max;
  zero_i64 : num_as_i64 num_zero = Some 0;
}.

Module Json.

Section Value.
Context {num : Type}.

Inductive Value :=
| Null
| Bool (b : bool)
| Number (n : num)
| String_ (s : string)
| Array (l : list Value)
| Object (m : list (string * Value)).

Notation Map := (list (string * Value)).

(** Induction through the nested lists. *)
Section Induction.
Variable P : Value -> Prop.
Hypothesis HNull : P Null.
Hypothesis HBool : forall b, P (Bool b).
Hypothesis HNumber : forall n, P (Number n).
Hypothesis HString : forall s, P (String_ s).
Hypothesis HArray : forall l, Forall P l -> P (Array l).
Hypothesis HObject : forall m, Forall (fun kv => P kv.2) m -> P (Object m).

Fixpoint Value_nested_ind (v : Value) : P v :=
  match v with
  | Null => HNull
  | Bool b => HBool b
  | Number n => HNumber n
  | String_ s => HString s
  | Array l => HArray l ((fix go l := match l return Forall P l with
                          | [] => Forall_nil_2 P
                          | x :: l => Forall_cons_2 P x l (Value_nested_ind x) (go l) end) l)
  | Object m => HObject m ((fix go m := match m return Forall (fun kv => P kv.2) m with
                            | [] => Forall_nil_2 _
                            | kv :: m => Forall_cons_2 _ kv m (Value_nested_ind kv.2) (go m) end) m)
  end.
End Induction.

(** ** Maps *)
Fixpoint get {A} (m : list (string * A)) (k : string) : option A :=
  match m with
  | [] => None
  | (k', a) :: m' => if String.eqb k k' then Some a else get m' k
  end.
Definition contains_key {A} (m : list (string * A)) (k : string) : bool := match get m k with Some _ => true | None => false end.

Fixpoint insert {A} (k : string) (a : A) (m : list (string * A)) : list (string * A) :=
  match m with
  | [] => [(k, a)]
  | (k', a') :: m' =>
      if String.eqb k k' then (k, a) :: m'
      else if bool_decide (String.le k k') then (k, a) :: m
      else (k', a') :: insert k a m'
  end.

(** [Map::extend]. *)
Definition extend {A} (m : list (string * A)) (l : list (string * A)) : list (string * A) :=
  foldl (fun m kv => insert kv.1 kv.2 m) m l.

(** Every object has each key once, which the map type guarantees. *)
Fixpoint distinct_keys (v : Value) : bool :=
  match v with
  | Array l => forallb distinct_keys l
  | Object m => bool_decide (NoDup m.*1) && forallb (fun kv => distinct_keys kv.2) m
  | _ => true
  end.

(** ** Accessors *)
Definition is_null (v : Value) : bool := match v with Null => true | _ => false end.
Definition is_boolean (v : Value) : bool := match v with Bool _ => true | _ => false end.
Definition is_number (v : Value) : bool := match v with Number _ => true | _ => false end.
Definition is_string (v : Value) : bool := match v with String_ _ => true | _ => false end.
Definition as_array (v : Value) : option (list Value) := match v with Array l => Some l | _ => None end.
Definition as_object (v : Value) : option Map := match v with Object m => Some m | _ => None end.

(** [Value::get] of a key, [Value::as_str], [Value::as_bool]. *)
Definition field (v : Value) (k : string) : option Value := m ← as_object v; get m k.
Definition as_str (v : Value) : option string := match v with String_ s => Some s | _ => None end.
Definition as_bool (v : Value) : option bool := match v with Bool b => Some b | _ => None end.
Definition str_field (v : Value) (k : string) : option string := x ← field v k; as_str x.

Section Numbers.
Context `{JsonNumber num}.

Definition as_f64 (v : Value) : option f64 := match v with Number n => num_as_f64 n | _ => None end.
Definition as_u64 (v : Value) : option Z := match v with Number n => num_as_u64 n | _ => None end.
Definition as_i64 (v : Value) : option Z := match v with Number n => num_as_i64 n | _ => None end.
Definition is_i64 (v : Value) : bool := match as_i64 v with Some _ => true | None => false end.
Definition is_u64 (v : Value) : bool := match as_u64 v with Some _ => true | None => false end.
Definition is_f64 (v : Value) : bool := match v with Number n => num_is_f64 n | _ => false end.

(** [==] on values. *)
Fixpoint value_eqb (a b : Value) : bool :=
  match a, b with
  | Null, Null => true
  | Bool x, Bool y => Bool.eqb x y
  | Number x, Number y => num_eqb x y
  | String_ x, String_ y => String.eqb x y
  | Array x, Array y =>
      (fix go x y := match x, y with
       | [], [] => true
       | v :: x, w :: y => value_eqb v w && go x y
       | _, _ => false end) x y
  | Object x, Object y =>
      (fix go x y := match x, y with
       | [], [] => true
       | (k, v) :: x, (k', w) :: y => String.eqb k k' && value_eqb v w && go x y
       | _, _ => false end) x y
  | _, _ => false
  end.
End Numbers.
End Value.
Arguments Value : clear implicits.
Notation Map num := (list (string * Value num)).

(** ** Lemmas *)
Lemma json_get_In {A} (m : list (string * A)) k a : get m k = Some a -> (k, a) ∈ m.
Proof.
  induction m as [|[k' a'] m IH]; simpl; [done|]. destruct (String.eqb_spec k k') as [->|]; [|intros; right; auto].
  intros. simplify_eq. left.
Qed.

Lemma json_get_None {A} (m : list (string * A)) k : get m k = None <-> k ∉ m.*1.
Proof.
  induction m as [|[k' a'] m IH]; csimpl; [split; [intros _; apply not_elem_of_nil|done]|].
  rewrite not_elem_of_cons. destruct (String.eqb_spec k k') as [->|]; [split; [done|tauto]|]. rewrite IH. tauto.
Qed.

Lemma json_contains_key {A} (m : list (string * A)) k : contains_key m k = true <-> k ∈ m.*1.
Proof.
  unfold contains_key. pose proof (json_get_None m k) as HN. destruct (get m k) as [a|] eqn:E; [|split; [done|]; tauto].
  split; [intros _|done]. apply json_get_In in E. apply list_elem_of_fmap. by exists (k, a).
Qed.

Lemma json_get_NoDup {A} (m : list (string * A)) k a : NoDup m.*1 -> (k, a) ∈ m -> get m k = Some a.
Proof.
  induction m as [|[k' a'] m IH]; csimpl; intros Hnd Hin; [by apply elem_of_nil in Hin|]. apply NoDup_cons in Hnd as [Hni Hnd].
  apply elem_of_cons in Hin as [Heq|Hin]; [simplify_eq; by rewrite String.eqb_refl|].
  destruct (String.eqb_spec k k') as [->|]; [|auto]. destruct Hni. apply list_elem_of_fmap. by exists (k', a).
Qed.

Lemma json_get_insert {A} (m : list (string * A)) k a k' :
  get (insert k a m) k' = if String.eqb k' k then Some a else get m k'.
Proof.
  induction m as [|[k1 a1] m IH]; simpl; [done|]. destruct (String.eqb_spec k k1) as [->|Hne]; simpl.
  - by destruct (String.eqb k' k1).
  - case_bool_decide; simpl; [done|]. rewrite IH. destruct (String.eqb_spec k' k1) as [->|]; [|done].
    by destruct (String.eqb_spec k1 k) as [->|].
Qed.

(** The later entry of [l] wins over the earlier and over [m]. *)
Lemma json_get_extend {A} (m l : list (string * A)) k :
  NoDup l.*1 -> get (extend m l) k = match get l k with Some a => Some a | None => get m k end.
Proof.
  unfold extend. revert m. induction l as [|[k1 a1] l IH]; intros m; csimpl; [done|]. intros [Hni Hnd]%NoDup_cons.
  rewrite IH, json_get_insert by done. destruct (String.eqb_spec k k1) as [->|]; [|done].
  apply json_get_None in Hni. by rewrite Hni.
Qed.

Lemma json_keys_extend {A} (m l : list (string * A)) k :
  NoDup l.*1 -> k ∈ (extend m l).*1 <-> k ∈ l.*1 \/ k ∈ m.*1.
Proof.
  intros Hnd. rewrite <- !json_contains_key. unfold contains_key. rewrite json_get_extend by done.
  destruct (get l k), (get m k); naive_solver.
Qed.
End Json.

Module JsonExamples.
Import Json.

(** A concrete number type: integers kept exactly, floats as [f64]. *)
Inductive num := Int (z : Z) | Float (f : f64).

#[export] Instance num_ops : JsonNumber num := {
  num_eqb a b := match a, b with Int x, Int y => x =? y | Float x, Float y => f64_eqb x y | _, _ => false end;
  num_as_f64 n := match n with Int z => Some (f64_of_Z z) | Float f => Some f end;
  num_as_u64 n := match n with Int z => if (0 <=? z) && (z <=? u64_max) then Some z else None | Float _ => None end;
  num_as_i64 n := match n with Int z => if (- 2 ^ 63 <=? z) && (z <? 2 ^ 63) then Some z else None | Float _ => None end;
  num_is_f64 n := match n with Int _ => false | Float _ => true end;
  num_zero := Int 0;
}.

#[export] Instance num_laws : JsonNumberLaws num.
Proof.
  split; cbn.
  - by intros [].
  - by intros [].
  - intros [z0|] z; [|done]. destruct (_ && _) eqn:E; [|done]. intros [= <-]. apply andb_true_iff in E as [E1 E2].
    apply Z.leb_le in E1, E2. done.
  - done.
Qed.

Example json_extend : extend [("a", Null); ("c", Bool true)] [("b", Number (Int 2)); ("c", Null)]
  = [("a", Null); ("b", Number (Int 2)); ("c", Null)].
Proof. reflexivity. Qed.
Example json_eq : value_eqb (Array [Number (Int 1); String_ "x"]) (Array [Number (Int 1); String_ "x"]) = true.
Proof. reflexivity. Qed.
End JsonExamples.
