(* ===== verification/Config.v ===== *)
(** Plugin configuration (core/src/config.rs).

    A manifest declares a tree of typed values; the operator's file overrides them. [materialize_config]
    merges the two without ever failing; [strip_line_comments] prepares the operator's text for the JSON
    reader; [generate_default_jsonc] writes the first version of that file. The JSON reader and printer
    are parameters. A [HashMap] of entries is the list of them in the order it is iterated. *)
From S2P Require Import Prelude.
From S2P Require Import Json.
From Stdlib Require Import Ascii SpecFloat.
Import Json.

Module Config.
Section Config.
Context {num : Type} `{JsonNumber num}.
Notation Value := (Json.Value num).

Record ConfigDecl := mkDecl {
  type : string;
  default_ : Value;
  description : option string;
  min : option f64;
  max : option f64;
  enum : option (list Value);
  group : option string;
  label : option string;
  sensitive : bool;
}.

Inductive ConfigEntry := Decl (d : ConfigDecl) | Section_ (children : list (string * ConfigEntry)).

Section Induction.
Variable P : ConfigEntry -> Prop.
Hypothesis HDecl : forall d, P (Decl d).
Hypothesis HSection : forall cs, Forall (fun ke => P ke.2) cs -> P (Section_ cs).
Fixpoint ConfigEntry_nested_ind (e : ConfigEntry) : P e :=
  match e with
  | Decl d => HDecl d
  | Section_ cs => HSection cs ((fix go cs := match cs return Forall (fun ke => P ke.2) cs with
                                 | [] => Forall_nil_2 _
                                 | ke :: cs => Forall_cons_2 _ ke cs (ConfigEntry_nested_ind ke.2) (go cs) end) cs)
  end.
End Induction.

(** ** Types and constraints *)
Definition value_matches_type (v : Value) (ty : string) : bool :=
  match ty with
  | "string" => is_string v
  | "int" => match as_i64 v with Some _ => is_i64 v || is_u64 v | None => false end && negb (is_f64 v)
  | "float" => is_number v
  | "bool" => is_boolean v
  | _ => false
  end.

Definition zero_value (ty : string) : Value :=
  match ty with
  | "string" => String_ ""
  | "int" | "float" => Number num_zero
  | "bool" => Bool false
  | _ => Null
  end.

Definition satisfies_constraints (v : Value) (decl : ConfigDecl) : bool :=
  match enum decl with
  | Some allowed => existsb (fun a => value_eqb a v) allowed
  | None =>
      match min decl, max decl with
      | None, None => true
      | mn, mx =>
          match as_f64 v with
          | Some n =>
              if (match mn with Some mn => f64_ltb n mn | None => false end) then false
              else if (match mx with Some mx => f64_ltb mx n | None => false end) then false
              else true
          | None => true
          end
      end
  end.

(** ** The operator's text *)

(** One line up to its first [//] outside a string literal. *)
Fixpoint strip_line (in_string escaped : bool) (l : list ascii) : list ascii :=
  match l with
  | [] => []
  | c :: rest =>
      if in_string then
        if escaped then c :: strip_line true false rest
        else if (nat_of_ascii c =? 92)%nat then c :: strip_line true true rest
        else if (nat_of_ascii c =? 34)%nat then c :: strip_line false false rest
        else c :: strip_line true false rest
      else if (nat_of_ascii c =? 34)%nat then c :: strip_line true escaped rest
      else if (c =? "/")%char && (match rest with d :: _ => (d =? "/")%char | [] => false end) then []
      else c :: strip_line false escaped rest
  end.

Definition newline : ascii := ascii_of_nat 10.
Definition carriage : ascii := ascii_of_nat 13.

(** [str::lines]: [cur] is the current line, reversed. *)
Definition end_line (cur : list ascii) : list ascii :=
  reverse (match cur with c :: cur' => if (c =? carriage)%char then cur' else cur | [] => [] end).
Fixpoint lines_from (cur l : list ascii) : list (list ascii) :=
  match l with
  | [] => match cur with [] => [] | _ => [reverse cur] end
  | c :: rest => if (c =? newline)%char then end_line cur :: lines_from [] rest else lines_from (c :: cur) rest
  end.
Definition lines (s : list ascii) : list (list ascii) := lines_from [] s.

Fixpoint join_lines (ls : list (list ascii)) : list ascii :=
  match ls with
  | [] => []
  | [l] => l
  | l :: ls => l ++ newline :: join_lines ls
  end.

Definition strip_line_comments (s : string) : string :=
  String.string_of_list_ascii (join_lines (strip_line false false <$> lines (String.list_ascii_of_string s))).

(** ** Materialization *)

(** The four warnings, each about a full key. *)
Inductive Warning := DottedKey (key : string) | BadDefault (key ty : string) | OutOfRange (key : string) (ov : Value) | WrongType (key : string).

Definition has_dot (key : string) : bool := existsb (fun c => (c =? ".")%char) (String.list_ascii_of_string key).
Definition full_key (prefix key : string) : string :=
  if bool_decide (prefix = "") then key else (prefix ++ "." ++ key)%string.

(** A declared value: what is stored, and its warnings. *)
Definition default_of (fullkey : string) (decl : ConfigDecl) : Value * list Warning :=
  if value_matches_type (default_ decl) (type decl) then (default_ decl, [])
  else (zero_value (type decl), [BadDefault fullkey (type decl)]).

Definition materialize_decl (fullkey : string) (decl : ConfigDecl) (ov : option Value) : Value * list Warning :=
  let '(default_val, ws) := default_of fullkey decl in
  match ov with
  | Some ov =>
      if value_matches_type ov (type decl) && satisfies_constraints ov decl then (ov, ws)
      else if value_matches_type ov (type decl) then (default_val, ws ++ [OutOfRange fullkey ov])
      else (default_val, ws ++ [WrongType fullkey])
  | None => (default_val, ws)
  end.

Fixpoint materialize_entry (e : ConfigEntry) (prefix key : string) (overrides : Map num) : Value * list Warning :=
  let fullkey := full_key prefix key in
  match e with
  | Section_ children =>
      let child_over := default [] (ov ← get overrides key; as_object ov) in
      let '(child_values, ws) :=
        (fix go (entries : list (string * ConfigEntry)) (acc : Map num * list Warning) :=
           match entries with
           | [] => acc
           | (k, e) :: entries =>
               if has_dot k then go entries (acc.1, acc.2 ++ [DottedKey (full_key fullkey k)])
               else
                 let '(v, ws) := materialize_entry e fullkey k child_over in
                 go entries (insert k v acc.1, acc.2 ++ ws)
           end) children ([], []) in
      (Object child_values, ws)
  | Decl decl => materialize_decl fullkey decl (get overrides key)
  end.

(** The loop over the entries of one level. *)
Fixpoint materialize_entries (entries : list (string * ConfigEntry)) (overrides : Map num) (prefix : string)
    (acc : Map num * list Warning) : Map num * list Warning :=
  match entries with
  | [] => acc
  | (k, e) :: entries =>
      if has_dot k then materialize_entries entries overrides prefix (acc.1, acc.2 ++ [DottedKey (full_key prefix k)])
      else
        let '(v, ws) := materialize_entry e prefix k overrides in
        materialize_entries entries overrides prefix (insert k v acc.1, acc.2 ++ ws)
  end.

(** [serde_json::from_str], [serde_json::to_string] of a value and of a key. *)
Variable from_str : string -> option Value.
Variable to_string : Value -> string.
Variable key_to_string : string -> string.

Definition materialize_config (entries : list (string * ConfigEntry)) (override_json : option string) : Map num * list Warning :=
  let overrides := default [] (s ← override_json; v ← from_str (strip_line_comments s); as_object v) in
  materialize_entries entries overrides "" ([], []).

(** ** The generated file *)
Definition pad (indent : nat) : string := String.concat "" (replicate indent "  ").

Definition comment_of (decl : ConfigDecl) : string :=
  let desc := default "" (description decl) in
  type decl +:+ (if bool_decide (desc = "") then "" else " — " +:+ desc).

Definition by_key (a b : string * ConfigEntry) : Prop := String.le a.1 b.1.
#[export] Instance by_key_dec a b : Decision (by_key a b).
Proof. unfold by_key. apply _. Defined.

Definition nl : string := String newline "".

(** One entry; [comma] follows it unless it is the last of its level. *)
Fixpoint gen_entry (key : string) (e : ConfigEntry) (comma : bool) (indent : nat) : string :=
  let c := if comma then "," else "" in
  match e with
  | Decl decl =>
      pad indent +:+ "// " +:+ comment_of decl +:+ nl +:+
      pad indent +:+ key_to_string key +:+ ": " +:+ to_string (default_ decl) +:+ c +:+ nl
  | Section_ children =>
      let sub := (fix go (l : list (string * ConfigEntry)) : list (string * (bool -> string)) :=
                    match l with [] => [] | (k, e) :: l => (k, fun b => gen_entry k e b (S indent)) :: go l end) children in
      let sub := merge_sort (fun a b => String.le a.1 b.1) (filterb (fun kf => negb (has_dot kf.1)) sub) in
      pad indent +:+ key_to_string key +:+ ": {" +:+ nl +:+
      (fix emit (l : list (string * (bool -> string))) : string :=
         match l with [] => "" | kf :: l => kf.2 (match l with [] => false | _ => true end) +:+ emit l end) sub
      +:+ pad indent +:+ "}" +:+ c +:+ nl
  end.

Fixpoint gen_entries (sorted : list (string * ConfigEntry)) (indent : nat) : string :=
  match sorted with
  | [] => ""
  | (k, e) :: rest => gen_entry k e (match rest with [] => false | _ => true end) indent +:+ gen_entries rest indent
  end.

Definition generate_default_jsonc (entries : list (string * ConfigEntry)) : string :=
  "{" +:+ nl +:+ gen_entries (merge_sort by_key (filterb (fun ke => negb (has_dot ke.1)) entries)) 1 +:+ "}" +:+ nl.

(** ** What materialization yields *)

(** The value of an entry does not depend on the loop around it. *)
Definition value_of (e : ConfigEntry) (prefix key : string) (overrides : Map num) : Value := (materialize_entry e prefix key overrides).1.

Lemma config_section_loop children fullkey over acc :
  (fix go (entries : list (string * ConfigEntry)) (acc : Map num * list Warning) :=
     match entries with
     | [] => acc
     | (k, e) :: entries =>
         if has_dot k then go entries (acc.1, acc.2 ++ [DottedKey (full_key fullkey k)])
         else let '(v, ws) := materialize_entry e fullkey k over in go entries (insert k v acc.1, acc.2 ++ ws)
     end) children acc = materialize_entries children over fullkey acc.
Proof.
  revert acc. induction children as [|[k e] children IH]; intros acc; [done|]. cbn [materialize_entries].
  destruct (has_dot k); [apply IH|]. destruct (materialize_entry e fullkey k over). apply IH.
Qed.

Lemma config_value_section children prefix key over :
  value_of (Section_ children) prefix key over =
  Object (materialize_entries children (default [] (ov ← get over key; as_object ov)) (full_key prefix key) ([], [])).1.
Proof.
  unfold value_of. cbn [materialize_entry]. rewrite config_section_loop. by destruct (materialize_entries _ _ _ _).
Qed.

Lemma config_entries_cons k e entries over prefix acc :
  (materialize_entries ((k, e) :: entries) over prefix acc).1 =
  (materialize_entries entries over prefix (if has_dot k then acc.1 else insert k (value_of e prefix k over) acc.1, [])).1.
Proof.
  assert (forall es a b, a.1 = b.1 -> (materialize_entries es over prefix a).1 = (materialize_entries es over prefix b).1) as Hacc.
  { induction es as [|[k' e'] es IH]; intros a b Hab; [done|]. cbn [materialize_entries]. destruct (has_dot k'); [by apply IH|].
    destruct (materialize_entry e' prefix k' over). apply IH. cbn. by rewrite Hab. }
  cbn [materialize_entries]. destruct (has_dot k); [by apply Hacc|]. unfold value_of. destruct (materialize_entry e prefix k over). by apply Hacc.
Qed.

(** Each declared key without a dot has its value, whatever the order of the declarations; no other key
    appears. *)
Lemma config_materialize_get entries over prefix acc k :
  NoDup entries.*1 ->
  get (materialize_entries entries over prefix acc).1 k =
  match get entries k with
  | Some e => if has_dot k then get acc.1 k else Some (value_of e prefix k over)
  | None => get acc.1 k
  end.
Proof.
  revert acc. induction entries as [|[k1 e1] entries IH]; intros acc; [done|]. intros [Hni Hnd]%NoDup_cons.
  rewrite config_entries_cons, IH by done. cbn [get fst]. destruct (String.eqb_spec k k1) as [->|Hne].
  - rewrite (proj2 (json_get_None entries k1)) by done. destruct (has_dot k1); [done|]. by rewrite json_get_insert, String.eqb_refl.
  - assert (get (if has_dot k1 then acc.1 else insert k1 (value_of e1 prefix k1 over) acc.1) k = get acc.1 k) as ->; [|done].
    destruct (has_dot k1); [done|]. rewrite json_get_insert. by destruct (String.eqb_spec k k1).
Qed.

(** ** Types *)

(** The types a declaration may name. *)
Definition known_type (ty : string) : Prop := ty ∈ ["string"; "int"; "float"; "bool"].

(** What the types say of a JSON value: an integer is a number that is exactly one of 64 bits. *)
Definition has_type (v : Value) (ty : string) : Prop :=
  ty = "string" /\ (exists s, v = String_ s) \/
  ty = "int" /\ (exists n z, v = Number n /\ num_as_i64 n = Some z) \/
  ty = "float" /\ (exists n, v = Number n) \/
  ty = "bool" /\ (exists b, v = Bool b).
(** What a declaration allows: one of its listed values, or, without a list, what is neither below its
    minimum nor above its maximum in the order of the floats. *)
Definition allowed (d : ConfigDecl) (v : Value) : Prop :=
  match enum d with
  | Some l => exists a, a ∈ l /\ value_eqb a v = true
  | None =>
      forall n f, v = Number n -> num_as_f64 n = Some f ->
        (forall mn, min d = Some mn -> SFcompare f mn <> Some Lt) /\ (forall mx, max d = Some mx -> SFcompare mx f <> Some Lt)
  end.
Definition empty_of (ty : string) (v : Value) : Prop :=
  (ty = "string" -> v = String_ "") /\ (ty = "int" \/ ty = "float" -> v = Number num_zero) /\ (ty = "bool" -> v = Bool false) /\ (~ known_type ty -> v = Null).
(** Without an accepted override: the default if it has the declared type, else the empty value of the type. *)
Definition falls_back (d : ConfigDecl) (v : Value) : Prop :=
  (has_type (default_ d) (type d) -> v = default_ d) /\ (~ has_type (default_ d) (type d) -> empty_of (type d) v).
Definition settles (d : ConfigDecl) (ov : option Value) (v : Value) : Prop :=
  match ov with
  | Some x => (has_type x (type d) /\ allowed d x -> v = x) /\ (~ (has_type x (type d) /\ allowed d x) -> falls_back d v)
  | None => falls_back d v
  end.
(** The tree a declaration and the operator's value [ov] at its place yield. *)
Inductive conforms : ConfigEntry -> option Value -> Value -> Prop :=
| conforms_decl d ov v : settles d ov v -> (known_type (type d) -> has_type v (type d)) -> conforms (Decl d) ov v
| conforms_section cs ov m :
    (forall k, k ∈ m.*1 <-> k ∈ cs.*1 /\ has_dot k = false) ->
    (forall k e v, (k, e) ∈ cs -> get m k = Some v -> conforms e (x ← ov; field x k) v) ->
    conforms (Section_ cs) ov (Object m).

(** Every level declares each key once. *)
Fixpoint distinct_entries (e : ConfigEntry) : bool :=
  match e with
  | Decl _ => true
  | Section_ cs => bool_decide (NoDup cs.*1) && forallb (fun ke => distinct_entries ke.2) cs
  end.

Context `{!JsonNumberLaws num}.

Lemma config_type_spec v ty : value_matches_type v ty = true <-> has_type v ty.
Proof.
  split.
  - unfold value_matches_type, has_type. intros E. repeat (case_match; [|done] || case_match; [done|] || case_match); try done; destruct v; try done; eauto 10.
  - intros [[-> (s & ->)]|[[-> (n & z & -> & En)]|[[-> (n & ->)]|[-> (b & ->)]]]]; try done. cbn. rewrite En. unfold is_i64. cbn. rewrite En. cbn.
    by rewrite (i64_not_float n z En).
Qed.
Lemma config_allowed_spec v d : satisfies_constraints v d = true <-> allowed d v.
Proof.
  unfold satisfies_constraints, allowed. destruct (enum d) as [l|].
  - rewrite existsb_exists. setoid_rewrite list_elem_of_In. done.
  - assert (forall a b, f64_ltb a b = true <-> SFcompare a b = Some Lt) as Hlt by (intros a b; unfold f64_ltb, SFltb; destruct (SFcompare a b) as [[]|]; done).
    assert (forall a b, f64_ltb a b = false <-> SFcompare a b <> Some Lt) as Hge by (intros a b; rewrite <- Hlt; by destruct (f64_ltb a b)).
    destruct (as_f64 v) as [f|] eqn:Ef.
    + destruct v as [| |n| | |]; try done. cbn in Ef. transitivity ((forall mn, min d = Some mn -> SFcompare f mn <> Some Lt) /\ (forall mx, max d = Some mx -> SFcompare mx f <> Some Lt)).
      * setoid_rewrite <- Hge. destruct (min d) as [mn|], (max d) as [mx|]; try (destruct (f64_ltb f mn) eqn:?); try (destruct (f64_ltb mx f) eqn:?); naive_solver.
      * split; [by intros ? ? ? [= <-] E; simplify_eq|]. intros Hall. by apply (Hall n f).
    + split; [|by destruct (min d), (max d)]. intros _ n f -> E. cbn in Ef. congruence.
Qed.
Lemma config_zero_empty ty : empty_of ty (zero_value ty).
Proof.
  unfold empty_of, known_type. split_and!; [by intros ->|by intros [-> | ->]|by intros ->|]. intros Hk. unfold zero_value.
  repeat (case_match; try done); exfalso; apply Hk; set_solver.
Qed.
Lemma config_zero_typed ty : known_type ty -> has_type (zero_value ty) ty.
Proof.
  unfold known_type. rewrite !elem_of_cons, elem_of_nil. intros [->|[->|[->|[->|[]]]]]; unfold has_type; cbn; eauto 10.
  right; left. split; [done|]. exists num_zero, 0. split; [done|]. apply zero_i64.
Qed.
Lemma config_fallback fullkey d : falls_back d (default_of fullkey d).1 /\ (known_type (type d) -> has_type (default_of fullkey d).1 (type d)).
Proof.
  unfold default_of, falls_back. rewrite <- config_type_spec. destruct (value_matches_type (default_ d) (type d)) eqn:E; cbn; split_and!; try done.
  - intros _. by apply config_type_spec.
  - intros _. apply config_zero_empty.
  - apply config_zero_typed.
Qed.
Lemma config_decl_conforms fullkey d ov : conforms (Decl d) ov (materialize_decl fullkey d ov).1.
Proof.
  destruct (config_fallback fullkey d) as [Hf Ht]. unfold materialize_decl. destruct (default_of fullkey d) as [dv ws]. cbn [fst] in *. destruct ov as [x|]; [|by constructor].
  destruct (value_matches_type x (type d)) eqn:E1; [destruct (satisfies_constraints x d) eqn:E2|]; cbn [andb fst]; constructor; cbn [settles]; try done; try (intros _; by apply config_type_spec);
    rewrite <- config_type_spec, <- config_allowed_spec, E1, ?E2; (split; [by intros [? ?]|done]) || (split; [done|by intros []]).
Qed.

Lemma config_keys (m : Map num) k : k ∈ m.*1 <-> is_Some (get m k).
Proof. rewrite <- json_contains_key. unfold contains_key. destruct (get m k); split; done || (by intros [? ?]) || eauto. Qed.

Lemma config_entries_conform cs ov prefix :
  NoDup cs.*1 -> (forall k e over, (k, e) ∈ cs -> conforms e (get over k) (value_of e prefix k over)) ->
  conforms (Section_ cs) ov (Object (materialize_entries cs (default [] (x ← ov; as_object x)) prefix ([], [])).1).
Proof.
  intros Hnd Hall. constructor.
  - intros k. rewrite config_keys, config_materialize_get by done. cbn [get fst]. destruct (get cs k) as [e|] eqn:E.
    + apply json_get_In, list_elem_of_fmap_2 with (f := fst) in E. destruct (has_dot k); split; try done. by intros [? ?].
    + apply json_get_None in E. split; [by intros [? ?]|by intros [? _]].
  - intros k e v Hin. rewrite config_materialize_get by done. rewrite (json_get_NoDup _ _ _ Hnd Hin). destruct (has_dot k); [done|].
    intros [= <-]. pose proof (Hall k e (default [] (x ← ov; as_object x)) Hin) as Hc. unfold field. destruct ov as [x|]; [|exact Hc]. cbn in *. by destruct (as_object x).
Qed.
Lemma config_entry_conforms e prefix key over : distinct_entries e = true -> conforms e (get over key) (value_of e prefix key over).
Proof.
  revert prefix key over. induction e as [d|cs IH] using ConfigEntry_nested_ind; intros prefix key over Hd; [apply config_decl_conforms|].
  rewrite config_value_section. cbn in Hd. apply andb_true_iff in Hd as [Hnd Hd]. apply bool_decide_eq_true in Hnd. rewrite forallb_elem in Hd.
  rewrite Forall_forall in IH. apply config_entries_conform; [done|]. intros k e o Hin. apply (IH _ Hin). exact (Hd _ Hin).
Qed.

(** C38. Whatever the operator wrote, the plugin reads a tree of the shape it declared (with each key once at
    its level), and every value in it
    is settled by the declaration and the operator's value at that place alone: the operator's when it has
    the declared type, is exactly integral for an integer, and is one of the listed values or, without a
    list, neither below the minimum nor above the maximum; else the default when that has its type; else the
    empty value of the type. So every value has the type it was declared with. *)
Theorem config_materialized_typed entries override_json :
  distinct_entries (Section_ entries) = true ->
  conforms (Section_ entries) (s ← override_json; from_str (strip_line_comments s)) (Object (materialize_config entries override_json).1).
Proof.
  intros Hd. cbn in Hd. apply andb_true_iff in Hd as [Hnd Hd]. apply bool_decide_eq_true in Hnd. rewrite forallb_elem in Hd.
  assert (default [] (s ← override_json; v ← from_str (strip_line_comments s); as_object v) = default [] (x ← (s ← override_json; from_str (strip_line_comments s)); as_object x)) as E by (by destruct override_json).
  unfold materialize_config. cbv zeta. rewrite E. apply config_entries_conform; [done|]. intros k e over Hin. apply config_entry_conforms. exact (Hd _ Hin).
Qed.

(** ** Comments *)

(** The quote scanner's state after some text. *)
Definition scan_char (st : bool * bool) (c : ascii) : bool * bool :=
  let '(in_string, escaped) := st in
  if in_string then
    if escaped then (true, false)
    else if (nat_of_ascii c =? 92)%nat then (true, true)
    else if (nat_of_ascii c =? 34)%nat then (false, false)
    else (true, false)
  else if (nat_of_ascii c =? 34)%nat then (true, escaped) else (false, escaped).
Definition inside (st : bool * bool) (l : list ascii) : bool := (foldl scan_char st l).1.

Lemma config_strip_spec l s e :
  exists rest, l = strip_line s e l ++ rest /\
    (rest = [] \/ exists r, rest = "/"%char :: "/"%char :: r /\ inside (s, e) (strip_line s e l) = false) /\
    forall a b, strip_line s e l = a ++ "/"%char :: "/"%char :: b -> inside (s, e) a = true.
Proof.
  revert s e. induction l as [|c l IH]; intros s e; cbn [strip_line].
  { exists []. split_and!; [done|by left|]. by intros [] b. }
  assert (forall s' e', scan_char (s, e) c = (s', e') ->
    (s = false -> (c =? "/")%char && (match l with d :: _ => (d =? "/")%char | [] => false end) = false) ->
    exists rest, c :: l = (c :: strip_line s' e' l) ++ rest /\
    (rest = [] \/ exists r, rest = "/"%char :: "/"%char :: r /\ inside (s, e) (c :: strip_line s' e' l) = false) /\
    forall a b, c :: strip_line s' e' l = a ++ "/"%char :: "/"%char :: b -> inside (s, e) a = true) as Hstep.
  { intros s' e' Hsc Hno. destruct (IH s' e') as (rest & Heq & Hrest & Hin). exists rest. split_and!.
    - cbn. by rewrite <- Heq.
    - unfold inside. cbn [foldl]. rewrite Hsc. exact Hrest.
    - intros [|x a] b Hab; cbn in Hab.
      + injection Hab as -> Htl. destruct s; [done|]. exfalso. specialize (Hno eq_refl). rewrite Ascii.eqb_refl in Hno. cbn in Hno.
        rewrite Heq, Htl in Hno. cbn in Hno. done.
      + injection Hab as -> Htl. unfold inside. cbn [foldl]. rewrite Hsc. by eapply Hin. }
  destruct s; cbn [scan_char] in Hstep.
  - destruct e; [by apply Hstep|]. destruct (_ =? 92)%nat; [by apply Hstep|]. destruct (_ =? 34)%nat; by apply Hstep.
  - destruct (_ =? 34)%nat eqn:Eq.
    + apply Hstep; [done|]. intros _. apply andb_false_iff. left. destruct (Ascii.eqb_spec c "/"%char) as [->|]; [|done]. by vm_compute in Eq.
    + destruct (_ && _) eqn:Ec; [|by apply Hstep]. apply andb_true_iff in Ec as [Ec1 Ec2]. apply Ascii.eqb_eq in Ec1 as ->.
      destruct l as [|d l]; [done|]. apply Ascii.eqb_eq in Ec2 as ->. exists ("/"%char :: "/"%char :: l). split_and!; [done|right; eauto|].
      by intros [|? ?] ?.
Qed.

(** A line is cut at its first [//] outside a string literal and nowhere else: what is kept is a prefix in
    which every [//] is inside a string. *)
Theorem config_strip_line_exact l :
  exists rest, l = strip_line false false l ++ rest /\
    (rest = [] \/ exists r, rest = "/"%char :: "/"%char :: r /\ inside (false, false) (strip_line false false l) = false) /\
    forall a b, strip_line false false l = a ++ "/"%char :: "/"%char :: b -> inside (false, false) a = true.
Proof. apply config_strip_spec. Qed.
End Config.
Arguments ConfigDecl : clear implicits.
Arguments ConfigEntry : clear implicits.
Arguments Warning : clear implicits.
End Config.

Module ConfigExamples.
Import JsonExamples.
Import Config.

Definition port : ConfigDecl num :=
  mkDecl "int" (Number (Int 27015)) (Some "the port") (Some (f64_of_Z 1)) (Some (f64_of_Z 65535)) None None None false.
Definition tree : ConfigEntry num := Section_ [("net", Section_ [("port", Decl port); ("a.b", Decl port)]); ("url", Decl (mkDecl "string" (Number (Int 1)) None None None None None None false))].

Example overridden : value_of tree "" "root" [("root", Object [("net", Object [("port", Number (Int 80))])])]
  = Object [("net", Object [("port", Number (Int 80))]); ("url", String_ "")].
Proof. vm_compute. reflexivity. Qed.
Example out_of_range : (materialize_decl "net.port" port (Some (Number (Int 70000)))) = (Number (Int 27015), [OutOfRange "net.port" (Number (Int 70000))]).
Proof. vm_compute. reflexivity. Qed.
Example strip_keeps_urls : String.string_of_list_ascii (strip_line false false (String.list_ascii_of_string "'a' // b")) = "'a' ".
Proof. vm_compute. reflexivity. Qed.

(** A reader that knows two texts: a port in range and one that is not. *)
Definition ports (s : string) : option (Value num) :=
  if String.eqb s "in" then Some (Object [("net", Object [("port", Number (Int 80))])])
  else if String.eqb s "out" then Some (Object [("net", Object [("port", Number (Int 70000))])]) else None.
Definition entries : list (string * ConfigEntry num) := [("net", Section_ [("port", Decl port); ("a.b", Decl port)])].
Definition read_as (s : string) : Map num := (materialize_config ports entries (Some s)).1.
Lemma config_materialized_typed_witness :
  distinct_entries (Section_ entries) = true /\ read_as "in" = [("net", Object [("port", Number (Int 80))])] /\ read_as "out" = [("net", Object [("port", Number (Int 27015))])] /\
  conforms (Section_ entries) (Some (Object [("net", Object [("port", Number (Int 70000))])])) (Object (read_as "out")).
Proof.
  split; [vm_compute; reflexivity|]. split; [vm_compute; reflexivity|]. split; [vm_compute; reflexivity|].
  exact (config_materialized_typed ports entries (Some "out") eq_refl).
Defined.

(** The description goes into the comment as it is: one that holds a line break leaves its second line
    outside the comment. *)
Definition two_lines : ConfigDecl num := mkDecl "bool" (Bool true) (Some ("one" +:+ nl +:+ "two")) None None None None None false.
Example description_escapes_its_comment :
  strip_line_comments (generate_default_jsonc (fun _ => "true") (fun k => k) [("k", Decl two_lines)])
  = "{" +:+ nl +:+ "  " +:+ nl +:+ "two" +:+ nl +:+ "  k: true" +:+ nl +:+ "}".
Proof. vm_compute. reflexivity. Qed.
End ConfigExamples.
