(* ===== verification/BTree.v ===== *)
(** Ordered maps.

    [std::collections::BTreeMap<u64, V>] is used by the plugin ledger, the timer queue and the
    interface watches for its iteration order. A map is a [gmap Z V]; [btree_to_list] is the
    iteration of [BTreeMap::iter], in ascending key order, and the operations below are the ones the
    code uses on top of insertion, lookup and removal. *)
From S2P Require Import Prelude.

Section Defs.
Context {V : Type}.
Implicit Types (m : gmap Z V) (k : Z) (v : V).

Definition key_le (a b : Z * V) : Prop := a.1 <= b.1.
Definition key_lt (a b : Z * V) : Prop := a.1 < b.1.
#[global] Instance key_le_dec a b : Decision (key_le a b) := Z_le_dec a.1 b.1.

(** [BTreeMap::iter]. *)
Definition btree_to_list m : list (Z * V) := merge_sort key_le (map_to_list m).
(** [BTreeMap::values]. *)
Definition btree_values m : list V := (btree_to_list m).*2.
(** [BTreeMap::first_key_value] and [BTreeMap::last_key_value]. *)
Definition first_key_value m : option (Z * V) := head (btree_to_list m).
Definition last_key_value m : option (Z * V) := last (btree_to_list m).
(** [BTreeMap::pop_first]. *)
Definition pop_first m : option ((Z * V) * gmap Z V) :=
  match first_key_value m with
  | Some kv => Some (kv, delete kv.1 m)
  | None => None
  end.
(** Removing a list of keys. *)
Definition without_keys (ids : list Z) m : gmap Z V := foldl (fun m k => delete k m) m ids.
End Defs.

Section Lemmas.
Context {V : Type}.
Implicit Types (m : gmap Z V) (k : Z) (v : V) (l : list (Z * V)).

#[global] Instance key_le_trans : Transitive (@key_le V).
Proof. intros ???. unfold key_le. lia. Qed.
#[global] Instance key_le_total : Total (@key_le V).
Proof. intros ??. unfold key_le. lia. Qed.

Lemma btree_to_list_perm m : btree_to_list m ≡ₚ map_to_list m.
Proof. apply merge_sort_Permutation. Qed.

Lemma elem_of_btree_to_list m k v : (k, v) ∈ btree_to_list m <-> m !! k = Some v.
Proof. by rewrite btree_to_list_perm, elem_of_map_to_list. Qed.

Lemma length_btree_to_list m : length (btree_to_list m) = size m.
Proof. by rewrite btree_to_list_perm, length_map_to_list. Qed.

(** Distinct keys make the sorted traversal strictly ascending. *)
Lemma strictly_sorted_of_NoDup l :
  StronglySorted key_le l -> NoDup l.*1 -> StronglySorted key_lt l.
Proof.
  induction 1 as [|x l Hl IH Hx]; intros Hnd; [constructor|].
  rewrite fmap_cons, NoDup_cons in Hnd. destruct Hnd as [Hnotin Hnd].
  constructor; [by apply IH|]. rewrite Forall_forall in *. intros y Hy.
  specialize (Hx y Hy). unfold key_le, key_lt in *.
  assert (x.1 <> y.1); [|lia]. intros E. apply Hnotin. rewrite E.
  by apply list_elem_of_fmap_2.
Qed.

Lemma btree_sorted m : StronglySorted key_lt (btree_to_list m).
Proof.
  apply strictly_sorted_of_NoDup; [apply (StronglySorted_merge_sort _)|].
  rewrite btree_to_list_perm. apply NoDup_fst_map_to_list.
Qed.

(** A strictly ascending list is determined by its elements. *)
Lemma strictly_sorted_unique l1 l2 :
  StronglySorted key_lt l1 -> StronglySorted key_lt l2 ->
  (forall x, x ∈ l1 <-> x ∈ l2) -> l1 = l2.
Proof.
  intros H1. revert l2. induction H1 as [|x l1 Hl1 IH Hx]; intros l2 H2 Heq.
  - destruct l2 as [|y l2]; [done|]. exfalso. apply (not_elem_of_nil y), Heq. in_list.
  - destruct H2 as [|y l2 Hl2 Hy]; [exfalso; apply (not_elem_of_nil x), Heq; in_list|].
    rewrite Forall_forall in Hx, Hy. unfold key_lt in *.
    assert (x = y) as ->.
    { destruct (proj1 (elem_of_cons _ _ _) (proj1 (Heq x) ltac:(in_list))) as [?|Hin]; [done|].
      destruct (proj1 (elem_of_cons _ _ _) (proj2 (Heq y) ltac:(in_list))) as [?|Hin']; [done|].
      specialize (Hx y Hin'). specialize (Hy x Hin). lia. }
    f_equal. apply IH; [done|]. intros z. split; intros Hz.
    + destruct (proj1 (elem_of_cons _ _ _) (proj1 (Heq z) ltac:(in_list))) as [->|?]; [|done].
      specialize (Hx y Hz). lia.
    + destruct (proj1 (elem_of_cons _ _ _) (proj2 (Heq z) ltac:(in_list))) as [->|?]; [|done].
      specialize (Hy y Hz). lia.
Qed.

Lemma btree_to_list_unique m l :
  StronglySorted key_lt l -> (forall k v, (k, v) ∈ l <-> m !! k = Some v) -> btree_to_list m = l.
Proof.
  intros Hs Heq. apply strictly_sorted_unique; [apply btree_sorted|done|].
  intros [k v]. by rewrite elem_of_btree_to_list, Heq.
Qed.

Lemma strictly_sorted_filterb f l : StronglySorted key_lt l -> StronglySorted key_lt (filterb f l).
Proof.
  induction 1 as [|x l Hl IH Hx]; simpl; [constructor|].
  destruct (f x); [|done]. constructor; [done|]. rewrite Forall_forall in *.
  intros y [_ Hy]%elem_of_filterb. by apply Hx.
Qed.

Lemma strictly_sorted_drop l1 k v l2 :
  StronglySorted key_lt (l1 ++ (k, v) :: l2) ->
  filterb (fun p => negb (p.1 =? k)) (l1 ++ (k, v) :: l2) = l1 ++ l2.
Proof.
  intros Hs. apply StronglySorted_app in Hs as (Hx & _ & H2). apply StronglySorted_inv in H2 as [_ H2].
  rewrite Forall_forall in H2. rewrite filterb_app. simpl. rewrite Z.eqb_refl. simpl.
  f_equal; apply filterb_true; intros y Hy; apply negb_true_iff, Z.eqb_neq.
  - specialize (Hx y (k, v) Hy ltac:(in_list)). unfold key_lt in Hx. simpl in Hx. lia.
  - specialize (H2 y Hy). unfold key_lt in H2. simpl in H2. lia.
Qed.

Lemma strictly_sorted_snoc l k v :
  StronglySorted key_lt l -> (forall k' v', (k', v') ∈ l -> k' < k) ->
  StronglySorted key_lt (l ++ [(k, v)]).
Proof.
  intros Hl Hk. apply StronglySorted_app_2; [|done|by repeat constructor].
  intros [k1 v1] [k2 v2] H1 ->%list_elem_of_singleton. unfold key_lt; simpl. by eapply Hk.
Qed.

(** Inserting a key above every present key appends to the traversal. *)
Lemma btree_insert_last m k v :
  (forall k', is_Some (m !! k') -> k' < k) ->
  btree_to_list (<[k:=v]> m) = btree_to_list m ++ [(k, v)].
Proof.
  intros Hk. apply btree_to_list_unique.
  - apply strictly_sorted_snoc; [apply btree_sorted|].
    intros k' v' Hin%elem_of_btree_to_list. apply Hk. by exists v'.
  - intros k' v'. rewrite elem_of_app, elem_of_btree_to_list, list_elem_of_singleton, lookup_insert.
    case_decide as E; [subst|naive_solver]. assert (m !! k' = None) as Hn.
    { apply eq_None_not_Some. intros Hs%Hk. lia. }
    rewrite Hn. naive_solver.
Qed.

Lemma btree_delete m k :
  btree_to_list (delete k m) = filterb (fun p => negb (p.1 =? k)) (btree_to_list m).
Proof.
  apply btree_to_list_unique.
  - apply strictly_sorted_filterb, btree_sorted.
  - intros k' v'. rewrite elem_of_filterb, elem_of_btree_to_list, lookup_delete. simpl.
    case_decide as E; [subst; rewrite Z.eqb_refl; naive_solver|].
    assert ((k' =? k) = false) as -> by (apply Z.eqb_neq; congruence). naive_solver.
Qed.

Lemma btree_empty : btree_to_list (∅ : gmap Z V) = [].
Proof. by apply Permutation_nil_r; rewrite btree_to_list_perm, map_to_list_empty. Qed.

Lemma first_key_value_Some m k v :
  first_key_value m = Some (k, v) -> m !! k = Some v /\ forall k', is_Some (m !! k') -> k <= k'.
Proof.
  unfold first_key_value. pose proof (btree_sorted m) as Hs.
  destruct (btree_to_list m) as [|x l] eqn:E; [done|]. intros [=->].
  split; [apply elem_of_btree_to_list; rewrite E; in_list|].
  intros k' [v' Hv']. apply elem_of_btree_to_list in Hv'. rewrite E in Hv'.
  apply elem_of_cons in Hv' as [[=-> ->]|Hin]; [lia|].
  apply StronglySorted_inv in Hs as [_ Hf]. rewrite Forall_forall in Hf.
  specialize (Hf _ Hin). unfold key_lt in Hf. simpl in Hf. lia.
Qed.

Lemma first_key_value_None m : first_key_value m = None <-> m = ∅.
Proof.
  unfold first_key_value. rewrite head_None. split; [|intros ->; apply btree_empty].
  intros E. apply (map_to_list_empty_iff (M:=gmap Z)). apply Permutation_nil_r. by rewrite <- btree_to_list_perm, E.
Qed.

Lemma last_key_value_Some m k v :
  last_key_value m = Some (k, v) -> m !! k = Some v /\ forall k', is_Some (m !! k') -> k' <= k.
Proof.
  unfold last_key_value. intros Hl. apply last_Some in Hl as [l E].
  split; [apply elem_of_btree_to_list; rewrite E; in_list|].
  intros k' [v' Hv']. apply elem_of_btree_to_list in Hv'. rewrite E in Hv'.
  pose proof (btree_sorted m) as Hs. rewrite E in Hs.
  apply elem_of_app in Hv' as [Hin|[=-> ->]%list_elem_of_singleton]; [|lia].
  apply StronglySorted_app_1_elem_of with (x1 := (k', v')) (x2 := (k, v)) in Hs; [|done|by apply list_elem_of_singleton].
  unfold key_lt in Hs. simpl in Hs. lia.
Qed.

Lemma last_key_value_None m : last_key_value m = None <-> m = ∅.
Proof.
  unfold last_key_value. rewrite last_None, <- first_key_value_None.
  unfold first_key_value. by rewrite head_None.
Qed.

Lemma pop_first_cons m k v l :
  btree_to_list m = (k, v) :: l ->
  pop_first m = Some ((k, v), delete k m) /\ btree_to_list (delete k m) = l.
Proof.
  intros E. unfold pop_first, first_key_value. rewrite E. split; [done|].
  rewrite btree_delete, E. simpl. rewrite Z.eqb_refl. simpl. apply filterb_true.
  intros [k' v'] Hin. simpl. pose proof (btree_sorted m) as Hs. rewrite E in Hs.
  apply StronglySorted_inv in Hs as [_ Hf]. rewrite Forall_forall in Hf.
  specialize (Hf _ Hin). unfold key_lt in Hf. simpl in Hf.
  apply negb_true_iff, Z.eqb_neq. lia.
Qed.

Lemma pop_first_None m : pop_first m = None <-> m = ∅.
Proof.
  unfold pop_first. rewrite <- first_key_value_None. by destruct (first_key_value m).
Qed.

Lemma elem_of_btree_values m v : v ∈ btree_values m <-> exists k, m !! k = Some v.
Proof.
  unfold btree_values. rewrite list_elem_of_fmap. split.
  - intros ([k v'] & -> & Hk%elem_of_btree_to_list). by exists k.
  - intros [k Hk%elem_of_btree_to_list]. by exists (k, v).
Qed.

Lemma lookup_without_keys ids m k : without_keys ids m !! k = if decide (k ∈ ids) then None else m !! k.
Proof.
  revert m. unfold without_keys. induction ids as [|i ids IH]; intros m; cbn; [by rewrite decide_False by apply not_elem_of_nil|]. rewrite IH.
  destruct (decide (k ∈ ids)) as [Hin|Hni]; [by rewrite decide_True by (apply elem_of_cons; by right)|].
  destruct (decide (k = i)) as [->|Hne]; [by rewrite lookup_delete_eq, decide_True by (apply elem_of_cons; by left)|].
  rewrite lookup_delete_ne by done. by rewrite decide_False by (rewrite elem_of_cons; naive_solver).
Qed.

(** Taking away the keys of the values that satisfy [f] leaves the others. *)
Lemma without_keys_values (key : V -> Z) (f : V -> bool) m k v :
  (forall k v, m !! k = Some v -> key v = k) ->
  without_keys (key <$> filterb f (btree_values m)) m !! k = Some v -> f v = false.
Proof.
  intros Hkey. rewrite lookup_without_keys. case_decide as Hin; [done|]. intros Hk. destruct (f v) eqn:Hf; [|done]. exfalso. apply Hin. rewrite <- (Hkey k v Hk).
  apply list_elem_of_fmap_2, elem_of_filterb. split; [done|]. apply elem_of_btree_values. by exists k.
Qed.
End Lemmas.
