(* ===== verification/Liveness.v ===== *)
(** The shared liveness primitive (core/src/liveness.rs).

    [LiveTable K M] maps a key to the host-minted id of its current holder and some metadata. Ids
    come from a counter that is never reset, neither by [remove] nor by [clear]: that is what makes a
    captured [(key, id)] pair safe to keep. The theorems state that guarantee over arbitrary
    sequences of operations. Two instances use the table: plugins (Plugin.v) and entities
    (EntityLive.v). *)
From S2P Require Import Prelude.

Module LiveTable.
Section LiveTable.
Context {K : Type} `{Countable K} {M : Type}.

Record LiveTable := mkLiveTable { entries : gmap K (Z * M); next_id : Z }.

Definition new (first_id : Z) : LiveTable := {| entries := ∅; next_id := first_id |}.

Definition insert (t : LiveTable) (key : K) (meta : M) : LiveTable * Z :=
  let id := next_id t in
  ({| entries := <[key := (id, meta)]> (entries t); next_id := u64_succ (next_id t) |}, id).

Definition remove (t : LiveTable) (key : K) : LiveTable * option (Z * M) :=
  ({| entries := delete key (entries t); next_id := next_id t |}, entries t !! key).

Definition is_live (t : LiveTable) (key : K) (id : Z) : bool :=
  match entries t !! key with
  | Some (cur, _) => cur =? id
  | None => false
  end.

Definition get (t : LiveTable) (key : K) : option (Z * M) := entries t !! key.

(** [get_mut] hands out a mutable reference to the metadata; [get_mut t key f] is a caller that
    writes [f m] through it. *)
Definition get_mut (t : LiveTable) (key : K) (f : M -> M) : LiveTable * option Z :=
  match entries t !! key with
  | Some (id, m) =>
      ({| entries := <[key := (id, f m)]> (entries t); next_id := next_id t |}, Some id)
  | None => (t, None)
  end.

Definition keys (t : LiveTable) : list K := (map_to_list (entries t)).*1.

Definition clear (t : LiveTable) : LiveTable := {| entries := ∅; next_id := next_id t |}.

Definition len (t : LiveTable) : nat := size (entries t).
Definition is_empty (t : LiveTable) : bool := (len t =? 0)%nat.

(** The mutating operations as a step function, to quantify over any use of a table. *)
Inductive op :=
| Insert (key : K) (meta : M)
| Remove (key : K)
| GetMut (key : K) (f : M -> M)
| Clear.

Definition step (t : LiveTable) (o : op) : LiveTable :=
  match o with
  | Insert key meta => (insert t key meta).1
  | Remove key => (remove t key).1
  | GetMut key f => (get_mut t key f).1
  | Clear => clear t
  end.

Definition run (t : LiveTable) (os : list op) : LiveTable := foldl step t os.

(** ** Well-formedness: every stored id was minted, and no two keys share one. *)
Record wf (t : LiveTable) : Prop := {
  wf_next : 0 <= next_id t <= u64_max;
  wf_minted : forall k id m, entries t !! k = Some (id, m) -> 0 <= id < next_id t;
  wf_inj : forall k1 k2 id m1 m2,
    entries t !! k1 = Some (id, m1) -> entries t !! k2 = Some (id, m2) -> k1 = k2;
}.

Implicit Types (t : LiveTable) (k : K).

Lemma live_new_wf first : 0 <= first <= u64_max -> wf (new first).
Proof. intros. split; simpl; [done|..]; intros *; rewrite lookup_empty; done. Qed.

Lemma live_insert_wf t k m : wf t -> next_id t < u64_max -> wf (insert t k m).1.
Proof.
  intros [Hn Hm Hi] Hlt. assert (u64_succ (next_id t) = next_id t + 1) as E.
  { apply u64_succ_small. lia. }
  split; simpl; rewrite ?E; [lia|..].
  - intros k' id m'. rewrite lookup_insert. case_decide; intros ?; simplify_eq; [lia|].
    specialize (Hm _ _ _ H1). lia.
  - intros k1 k2 id m1 m2. rewrite !lookup_insert. do 2 case_decide; intros ??; simplify_eq; eauto.
    + specialize (Hm _ _ _ H3). lia.
    + specialize (Hm _ _ _ H2). lia.
Qed.

Lemma live_remove_wf t k : wf t -> wf (remove t k).1.
Proof.
  intros [Hn Hm Hi]. split; simpl; [done|..]; intros *; rewrite ?lookup_delete_Some; naive_solver.
Qed.

Lemma live_get_mut_wf t k f : wf t -> wf (get_mut t k f).1.
Proof.
  intros [Hn Hm Hi]. unfold get_mut. destruct (entries t !! k) as [[id m]|] eqn:E; [|done].
  split; simpl; [done|..].
  - intros k' id' m'. rewrite lookup_insert. case_decide; intros ?; simplify_eq; eauto.
  - intros k1 k2 id' m1 m2. rewrite !lookup_insert. do 2 case_decide; intros ??; simplify_eq; eauto.
Qed.

Lemma live_clear_wf t : wf t -> wf (clear t).
Proof. intros [Hn Hm Hi]. split; simpl; [done|..]; intros *; rewrite ?lookup_empty; done. Qed.

Lemma live_get_mut_next t k f : next_id (get_mut t k f).1 = next_id t.
Proof. unfold get_mut. repeat case_split; done. Qed.

Lemma live_step_wf t o : wf t -> next_id t < u64_max -> wf (step t o).
Proof.
  destruct o; simpl; intros; [by apply live_insert_wf|by apply live_remove_wf|by apply live_get_mut_wf|by apply live_clear_wf].
Qed.
Lemma live_is_live_true t k id :
  is_live t k id = true <-> exists m, entries t !! k = Some (id, m).
Proof.
  unfold is_live. destruct (entries t !! k) as [[cur m]|]; rewrite ?Z.eqb_eq; naive_solver.
Qed.

Lemma live_next_mono t o : wf t -> next_id t < u64_max -> next_id t <= next_id (step t o) <= next_id t + 1.
Proof.
  intros Hwf Hlt. destruct o; simpl; rewrite ?live_get_mut_next; try lia.
  rewrite u64_succ_small; [lia|]. destruct Hwf. lia.
Qed.

(** One step never revives an id that was already minted. *)
Lemma live_step_dead t o k id :
  id < next_id t -> is_live t k id = false -> is_live (step t o) k id = false.
Proof.
  intros Hid. rewrite <- !not_true_iff_false, !live_is_live_true. intros Hdead [m' Hm']. apply Hdead.
  destruct o as [key meta|key|key f|]; simpl in Hm'.
  - rewrite lookup_insert in Hm'. case_decide; simplify_eq; [lia|eauto].
  - rewrite lookup_delete_Some in Hm'. naive_solver.
  - unfold get_mut in Hm'. destruct (entries t !! key) as [[cur m]|] eqn:E; [|by eauto].
    simpl in Hm'. rewrite lookup_insert in Hm'. case_decide; simplify_eq; eauto.
  - by rewrite lookup_empty in Hm'.
Qed.

Lemma live_run_wf t os :
  wf t -> next_id t + Z.of_nat (length os) <= u64_max ->
  wf (run t os) /\ next_id t <= next_id (run t os) <= next_id t + Z.of_nat (length os).
Proof.
  revert t. induction os as [|o os IH]; intros t Hwf Hb; simpl in *; [split; [done|lia]|].
  pose proof (live_next_mono t o Hwf ltac:(lia)).
  destruct (IH (step t o)); [apply live_step_wf; [done|lia]|lia|]. split; [done|lia].
Qed.

(** The anti-aliasing guarantee of the liveness table: once a minted id is dead for a key, no
    sequence of inserts, removals, metadata writes and clears makes it live for that key again
    (as long as the 64-bit counter is not exhausted). *)
Theorem live_dead_id_stays_dead t os k id :
  wf t -> next_id t + Z.of_nat (length os) <= u64_max ->
  id < next_id t -> is_live t k id = false -> is_live (run t os) k id = false.
Proof.
  revert t. induction os as [|o os IH]; intros t Hwf Hb Hid Hdead; simpl in *; [done|].
  pose proof (live_next_mono t o Hwf ltac:(lia)).
  apply IH; [apply live_step_wf; [done|lia]|lia|lia|by apply live_step_dead].
Qed.

(** An insert mints an id that no key was ever live under, makes it live for its key, kills the
    id that key held before, and leaves every other key's id as it was. *)
Theorem live_insert_mints_fresh t k m :
  wf t -> next_id t < u64_max ->
  let '(t', id) := insert t k m in
  (forall k', is_live t k' id = false) /\ is_live t' k id = true /\
  (forall old, is_live t k old = true -> is_live t' k old = false) /\
  (forall k' id', k' <> k -> is_live t' k' id' = is_live t k' id').
Proof.
  intros Hwf Hlt. unfold insert. repeat split.
  - intros k'. apply not_true_iff_false. rewrite live_is_live_true. intros [m' Hm'].
    apply (wf_minted _ Hwf) in Hm'. lia.
  - apply live_is_live_true. exists m. apply lookup_insert_eq.
  - intros old [m' Hm']%live_is_live_true. unfold is_live. simpl. rewrite lookup_insert_eq.
    apply (wf_minted _ Hwf) in Hm'. apply Z.eqb_neq. lia.
  - intros k' id' Hne. unfold is_live. simpl. by rewrite lookup_insert_ne.
Qed.
End LiveTable.
Arguments LiveTable K {_ _} M.
Arguments op K M : clear implicits.
End LiveTable.

(** ** Concrete runs *)
Module LiveTableExamples.
Import LiveTable.
Definition t0 : LiveTable Z nat := (insert (new 1) 7 0%nat).1.
Definition script : list (op Z nat) := [Insert 7 5%nat; Clear; Insert 7 6%nat; Remove 8; GetMut 7 S].

Lemma t0_wf : wf (insert t0 7 1%nat).1.
Proof.
  apply live_insert_wf; [|by vm_compute]. apply live_insert_wf; [|by vm_compute].
  apply live_new_wf. vm_compute. split; discriminate.
Qed.

Lemma live_dead_id_stays_dead_witness : is_live (run (insert t0 7 1%nat).1 script) 7 1 = false.
Proof.
  apply live_dead_id_stays_dead;
    [exact t0_wf|by vm_compute; discriminate|by vm_compute|by vm_compute].
Defined.

Lemma live_insert_mints_fresh_witness :
  let '(t', id) := insert (insert t0 7 1%nat).1 7 9%nat in
  id = 3 /\ is_live t' 7 3 = true /\ is_live t' 7 2 = false.
Proof.
  pose proof (live_insert_mints_fresh (insert t0 7 1%nat).1 7 9%nat t0_wf ltac:(by vm_compute)) as H.
  destruct H as (_ & Hlive & Hold & _).
  split; [reflexivity|]. split; [exact Hlive|]. apply Hold. reflexivity.
Defined.
End LiveTableExamples.
