(* ===== verification/Multiplexer.v ===== *)
(** The hook multiplexer (core/src/multiplexer.rs).

    A [Descriptor H] is the priority-ordered subscriber list of one hook. The thread-local version
    counter [VERSIONS] is passed explicitly: every mutating operation takes its value and returns
    the new one. [run_chain] is the collapse loop; the handler callback is a state transformer, so
    it may log, mutate or fail. [FrameHost] is the host's frame descriptor with its detour, reconciled by
    [refresh_detour] (core/src/v8host.rs). Theorems: the representation invariant and the detour over
    any sequence of operations, dispatch order, the collapse rules, error accounting
    and auto-disable, and the soundness of the version as a cache key. *)
From S2P Require Import Prelude.

Module Multiplexer.

Inductive HookResult := Continue | Changed | Handled | HStop.
Inductive Priority := High | Normal | Low | Monitor.
Inductive Phase := Pre | Post.
Inductive DetourChange := DNone | Install | DRemove.
#[export] Instance HookResult_eq_dec : EqDecision HookResult. Proof. solve_decision. Defined.
#[export] Instance Priority_eq_dec : EqDecision Priority. Proof. solve_decision. Defined.
#[export] Instance Phase_eq_dec : EqDecision Phase. Proof. solve_decision. Defined.

(** The derived [Ord] instances: declaration order. *)
Definition result_rank (r : HookResult) : Z :=
  match r with Continue => 0 | Changed => 1 | Handled => 2 | HStop => 3 end.
Definition prio_rank (p : Priority) : Z :=
  match p with High => 0 | Normal => 1 | Low => 2 | Monitor => 3 end.
Definition prio_gt (p q : Priority) : bool := prio_rank q <? prio_rank p.
Definition result_gt (a b : HookResult) : bool := result_rank b <? result_rank a.

Definition MAX_HANDLER_ERRORS : Z := 10.

Record Subscription (H : Type) := mkSub {
  s_id : Z;
  s_priority : Priority;
  s_phase : Phase;
  s_owner : string;
  s_handler : H;
  s_enabled : bool;
  s_error_count : Z;
}.
Arguments mkSub {H}. Arguments s_id {H}. Arguments s_priority {H}. Arguments s_phase {H}.
Arguments s_owner {H}. Arguments s_handler {H}. Arguments s_enabled {H}. Arguments s_error_count {H}.

Record Descriptor (H : Type) := mkDesc {
  name : string;
  subs : list (Subscription H);
  next_id : Z;
  enabled_count : Z;
  version : Z;
}.
Arguments mkDesc {H}. Arguments name {H}. Arguments subs {H}. Arguments next_id {H}.
Arguments enabled_count {H}. Arguments version {H}.

(** [next_version]: the new counter value is also the version handed out. *)
Definition next_version (versions : Z) : Z * Z := let n := u64_succ versions in (n, n).

Record ChainOutcome := mkOutcome { result : HookResult; errored : list Z }.

Section Descriptor.
Context {H : Type}.
Implicit Types (d : Descriptor H) (s : Subscription H) (versions : Z).

(** The loop of [run_chain], with its locals [result], [stopped] and [errored]. *)
Fixpoint run_chain_loop {W} (snapshot : list (Z * Priority * H))
    (invoke : W -> H -> W * option HookResult) (w : W)
    (result : HookResult) (stopped : bool) (errored : list Z) : W * ChainOutcome :=
  match snapshot with
  | [] => (w, mkOutcome result errored)
  | (id, prio, h) :: rest =>
      let is_monitor := bool_decide (prio = Monitor) in
      if negb is_monitor && stopped then run_chain_loop rest invoke w result stopped errored
      else
        match invoke w h with
        | (w', Some r) =>
            if negb is_monitor then
              let result' := if result_gt r result then r else result in
              let stopped' := if bool_decide (r = HStop) then true else stopped in
              run_chain_loop rest invoke w' result' stopped' errored
            else run_chain_loop rest invoke w' result stopped errored
        | (w', None) => run_chain_loop rest invoke w' result stopped (errored ++ [id])
        end
  end.

Definition run_chain {W} (snapshot : list (Z * Priority * H))
    (invoke : W -> H -> W * option HookResult) (w : W) : W * ChainOutcome :=
  run_chain_loop snapshot invoke w Continue false [].

Definition new (versions : Z) (nm : string) : Z * Descriptor H :=
  let '(vs, v) := next_version versions in
  (vs, {| name := nm; subs := []; next_id := 1; enabled_count := 0; version := v |}).

Definition has_enabled d (ph : Phase) : bool :=
  existsb (fun s => s_enabled s && bool_decide (s_phase s = ph)) (subs d).

Definition subscribe versions d (priority : Priority) (phase : Phase) (owner : string) (handler : H)
    : Z * Descriptor H * (Z * DetourChange) :=
  let '(vs, v) := next_version versions in
  let id := next_id d in
  let pos := default (length (subs d)) (position (fun s => prio_gt (s_priority s) priority) (subs d)) in
  let change := if enabled_count d =? 0 then Install else DNone in
  (vs,
   {| name := name d;
      subs := vec_insert pos (mkSub id priority phase owner handler true 0) (subs d);
      next_id := u64_succ (next_id d);
      enabled_count := u64_succ (enabled_count d);
      version := v |},
   (id, change)).

Definition remove_by_owner versions d (owner : string) : Z * Descriptor H * DetourChange :=
  let '(vs, v) := next_version versions in
  let before_enabled := countb (fun s => s_enabled s && String.eqb (s_owner s) owner) (subs d) in
  let subs' := filterb (fun s => negb (String.eqb (s_owner s) owner)) (subs d) in
  let enabled' := countb s_enabled subs' in
  (vs,
   {| name := name d; subs := subs'; next_id := next_id d; enabled_count := enabled'; version := v |},
   if (0 <? before_enabled) && (enabled' =? 0) then DRemove else DNone).

(** [dec_enabled]: a [usize] decrement, which wraps at zero. *)
Definition dec_enabled d : Descriptor H * DetourChange :=
  let n := u64_pred (enabled_count d) in
  ({| name := name d; subs := subs d; next_id := next_id d; enabled_count := n; version := version d |},
   if n =? 0 then DRemove else DNone).

Definition unsubscribe versions d (id : Z) : Z * Descriptor H * DetourChange :=
  let '(vs, v) := next_version versions in
  let d1 := {| name := name d; subs := subs d; next_id := next_id d;
               enabled_count := enabled_count d; version := v |} in
  match position (fun s => s_id s =? id) (subs d1) with
  | Some pos =>
      match subs d1 !! pos with
      | Some s =>
          let d2 := {| name := name d1; subs := vec_remove pos (subs d1); next_id := next_id d1;
                       enabled_count := enabled_count d1; version := version d1 |} in
          if s_enabled s then let '(d3, c) := dec_enabled d2 in (vs, d3, c) else (vs, d2, DNone)
      | None => (vs, d1, DNone)
      end
  | None => (vs, d1, DNone)
  end.

(** One errored id: the first subscription with that id, if enabled, gets one more error and is
    disabled at the threshold. Returns the list and how many were disabled (0 or 1). *)
Fixpoint bump_error (id : Z) (l : list (Subscription H)) : list (Subscription H) * Z :=
  match l with
  | [] => ([], 0)
  | s :: rest =>
      if s_id s =? id then
        if negb (s_enabled s) then (l, 0)
        else
          let ec := u32_wrap (s_error_count s + 1) in
          if MAX_HANDLER_ERRORS <=? ec
          then (mkSub (s_id s) (s_priority s) (s_phase s) (s_owner s) (s_handler s) false ec :: rest, 1)
          else (mkSub (s_id s) (s_priority s) (s_phase s) (s_owner s) (s_handler s) true ec :: rest, 0)
      else let '(rest', n) := bump_error id rest in (s :: rest', n)
  end.

Fixpoint bump_errors (ids : list Z) (l : list (Subscription H)) (disabled : Z)
    : list (Subscription H) * Z :=
  match ids with
  | [] => (l, disabled)
  | id :: ids' => let '(l', n) := bump_error id l in bump_errors ids' l' (disabled + n)
  end.

(** [for _ in 0..disabled { if let Remove = self.dec_enabled() { detour = Remove } }] *)
Fixpoint dec_enabled_n (n : nat) d (detour : DetourChange) : Descriptor H * DetourChange :=
  match n with
  | O => (d, detour)
  | S n' =>
      let '(d', c) := dec_enabled d in
      dec_enabled_n n' d' (match c with DRemove => DRemove | _ => detour end)
  end.

Definition apply_errors versions d (ids : list Z) : Z * Descriptor H * DetourChange :=
  let '(subs', disabled) := bump_errors ids (subs d) 0 in
  let '(vs, v) := if 0 <? disabled then next_version versions else (versions, version d) in
  let d1 := {| name := name d; subs := subs'; next_id := next_id d;
               enabled_count := enabled_count d; version := v |} in
  let '(d2, detour) := dec_enabled_n (Z.to_nat disabled) d1 DNone in
  (vs, d2, detour).

Definition snapshot d (ph : Phase) : list (Z * Priority * string * H) :=
  (fun s => (s_id s, s_priority s, s_owner s, s_handler s)) <$>
    filterb (fun s => s_enabled s && bool_decide (s_phase s = ph)) (subs d).

(** [dispatch]: snapshot, [run_chain] on the owner-stripped rows, [apply_errors]. *)
Definition dispatch {W} versions d (ph : Phase) (invoke : W -> H -> W * option HookResult) (w : W)
    : Z * Descriptor H * W * (HookResult * DetourChange) :=
  let snap3 := (fun '(id, prio, _, h) => (id, prio, h)) <$> snapshot d ph in
  let '(w', out) := run_chain snap3 invoke w in
  let '(vs, d', detour) := apply_errors versions d (errored out) in
  (vs, d', w', (result out, detour)).

(** The mutating operations, to quantify over every descriptor the code can reach. *)
Inductive op :=
| Subscribe (priority : Priority) (phase : Phase) (owner : string) (handler : H)
| RemoveByOwner (owner : string)
| Unsubscribe (id : Z)
| ApplyErrors (ids : list Z).

Definition step versions d (o : op) : Z * Descriptor H * DetourChange :=
  match o with
  | Subscribe p ph ow h => let r := subscribe versions d p ph ow h in (r.1.1, r.1.2, r.2.2)
  | RemoveByOwner ow => remove_by_owner versions d ow
  | Unsubscribe id => unsubscribe versions d id
  | ApplyErrors ids => apply_errors versions d ids
  end.

(** The OnGameFrame descriptor of the host and its one detour ([FRAME], [VERSIONS], [DETOUR_INSTALLED]),
    with the requests sent to the registered embedder ([HOOK_REQUEST]). The host ignores the
    [DetourChange]s the descriptor returns and reconciles with [refresh_detour]. *)
Record FrameHost := mkFrame { versions : Z; frame : Descriptor H; installed : bool; requests : list bool }.

(** [async_pending()], [loader::is_watching()], [profiler::wants_frames()]. *)
Definition refresh_detour (async_pending : Z) (is_watching wants_frames : bool) (f : FrameHost) : FrameHost :=
  let desired := (0 <? enabled_count (frame f)) || (0 <? async_pending) || is_watching || wants_frames in
  if bool_decide (desired = installed f) then f else mkFrame (versions f) (frame f) desired (requests f ++ [desired]).

Inductive frame_op :=
| Mutate (o : op)
| Refresh (async_pending : Z) (is_watching wants_frames : bool).

Definition frame_step (f : FrameHost) (o : frame_op) : FrameHost :=
  match o with
  | Mutate o => let '(vs, d, _) := step (versions f) (frame f) o in mkFrame vs d (installed f) (requests f)
  | Refresh async_pending is_watching wants_frames => refresh_detour async_pending is_watching wants_frames f
  end.
Definition frame_new (vs : Z) (nm : string) : FrameHost := mkFrame (new vs nm).1 (new vs nm).2 false [].
Definition frame_run (vs : Z) (nm : string) (os : list frame_op) : FrameHost := foldl frame_step (frame_new vs nm) os.

(** The representation invariant. *)
Definition prio_le s1 s2 : Prop := prio_rank (s_priority s1) <= prio_rank (s_priority s2).

Record wf d : Prop := {
  wf_sorted : StronglySorted prio_le (subs d);
  wf_ids : NoDup (s_id <$> subs d);
  wf_id_bound : Forall (fun s => 1 <= s_id s < next_id d) (subs d);
  wf_next : 1 <= next_id d <= u64_max;
  wf_length : Z.of_nat (length (subs d)) < next_id d;
  wf_count : enabled_count d = countb s_enabled (subs d);
  wf_errors : Forall (fun s => 0 <= s_error_count s /\
                (s_enabled s = true <-> s_error_count s < MAX_HANDLER_ERRORS)) (subs d);
}.

(** ** The invariant is preserved *)

Lemma mux_subscribe_split d p :
  wf d -> exists l1 l2, subs d = l1 ++ l2 /\
    (forall s, s ∈ l1 -> prio_rank (s_priority s) <= prio_rank p) /\
    (forall s, s ∈ l2 -> prio_rank p < prio_rank (s_priority s)) /\
    default (length (subs d)) (position (fun s => prio_gt (s_priority s) p) (subs d)) = length l1.
Proof.
  intros [Hs _ _ _ _ _ _]. unfold prio_gt.
  destruct (position _ (subs d)) as [i|] eqn:E.
  - apply position_Some in E as (l1 & x & l2 & E & <- & Hx & Hl1).
    exists l1, (x :: l2). rewrite Forall_forall in Hl1. apply Z.ltb_lt in Hx.
    split; [done|]. split; [intros s Hin; apply Z.ltb_ge; by apply Hl1|]. split; [|done].
    rewrite E in Hs. apply StronglySorted_app in Hs as (_ & _ & Hs).
    apply StronglySorted_inv in Hs as [_ Hs]. rewrite Forall_forall in Hs.
    intros s [->|Hin]%elem_of_cons; [done|]. specialize (Hs s Hin). unfold prio_le in Hs. lia.
  - apply position_None in E. rewrite Forall_forall in E.
    exists (subs d), []. rewrite app_nil_r. split; [done|].
    split; [intros s Hin; apply Z.ltb_ge; by apply E|]. split; [|done].
    intros s Hin. by apply elem_of_nil in Hin.
Qed.

(** The subscriber list after a subscription. *)
Lemma mux_subscribe_subs versions d p ph ow h :
  wf d -> exists l1 l2, subs d = l1 ++ l2 /\
    subs (subscribe versions d p ph ow h).1.2 = l1 ++ mkSub (next_id d) p ph ow h true 0 :: l2 /\
    (forall s, s ∈ l1 -> prio_rank (s_priority s) <= prio_rank p) /\
    (forall s, s ∈ l2 -> prio_rank p < prio_rank (s_priority s)).
Proof.
  intros Hwf. destruct (mux_subscribe_split d p Hwf) as (l1 & l2 & E & H1 & H2 & Hpos).
  exists l1, l2. split; [done|]. split; [|done]. unfold subscribe; simpl.
  rewrite Hpos, E. apply vec_insert_app.
Qed.

Lemma mux_count_bound d : wf d -> 0 <= enabled_count d < next_id d.
Proof.
  intros Hwf. rewrite (wf_count _ Hwf). pose proof (countb_nonneg s_enabled (subs d)).
  pose proof (countb_le_length s_enabled (subs d)). pose proof (wf_length _ Hwf). lia.
Qed.

Lemma mux_new_wf versions nm : wf (new versions nm).2.
Proof. split; simpl; try constructor; try done; unfold u64_max, u64_modulus; simpl; lia. Qed.

Lemma mux_subscribe_wf versions d p ph ow h :
  wf d -> next_id d < u64_max -> wf (subscribe versions d p ph ow h).1.2.
Proof.
  intros Hwf Hlt. destruct (mux_subscribe_subs versions d p ph ow h Hwf) as (l1 & l2 & E & E' & H1 & H2).
  pose proof (mux_count_bound d Hwf) as Hc. destruct Hwf as [Hs Hi Hb Hn Hl Hcnt He].
  rewrite E in *. assert (Hnext : u64_succ (next_id d) = next_id d + 1) by (apply u64_succ_small; lia).
  assert (Hnotin : next_id d ∉ s_id <$> (l1 ++ l2)).
  { intros (s & Es & Hin)%list_elem_of_fmap. rewrite Forall_forall in Hb. specialize (Hb s Hin). lia. }
  rewrite fmap_app in *. rewrite elem_of_app in Hnotin.
  split; rewrite ?E'; unfold subscribe; simpl; rewrite ?Hnext.
  - apply StronglySorted_app in Hs as (Hx & Hs1 & Hs2).
    apply StronglySorted_app_2; [|done|constructor; [done|]].
    + intros x y Hx1 [->|Hy]%elem_of_cons; [by apply H1|by apply Hx].
    + rewrite Forall_forall. intros x Hin. unfold prio_le. simpl. specialize (H2 x Hin). lia.
  - rewrite fmap_app, fmap_cons. apply NoDup_app in Hi as (Hi1 & Hi & Hi2).
    apply NoDup_app. split; [done|]. split; [|constructor; [tauto|done]].
    intros x Hx [->|Hx']%elem_of_cons; [tauto|]. by apply (Hi x).
  - rewrite Forall_app, Forall_cons in *. destruct Hb as [Hb1 Hb2]. simpl.
    split; [|split; [lia|]]; eapply Forall_impl; eauto; simpl; intros; lia.
  - lia.
  - rewrite length_app in *. simpl. lia.
  - rewrite Hcnt in *. rewrite u64_succ_small by lia. rewrite !countb_app, countb_cons. simpl. lia.
  - rewrite Forall_app, Forall_cons in *. unfold MAX_HANDLER_ERRORS in *. simpl. naive_solver lia.
Qed.

(** Dropping subscribers (by owner, by id) keeps the invariant. *)
Lemma mux_sublist_wf d l v :
  wf d -> sublist l (subs d) ->
  wf {| name := name d; subs := l; next_id := next_id d; enabled_count := countb s_enabled l; version := v |}.
Proof.
  intros [Hs Hi Hb Hn Hl Hcnt He] Hsub. split; simpl; try done.
  - clear -Hs Hsub. revert Hs. induction Hsub as [|x l1 l2 Hsub IH|x l1 l2 Hsub IH]; intros Hs; [done|..].
    + apply StronglySorted_inv in Hs as [Hs Hx]. constructor; [by apply IH|].
      rewrite Forall_forall in *. intros y Hy. apply Hx. by eapply elem_of_submseteq, sublist_submseteq.
    + apply IH. by apply StronglySorted_inv in Hs as [Hs _].
  - eapply sublist_NoDup; [done|]. by apply fmap_sublist.
  - by eapply Forall_sublist.
  - pose proof (sublist_length _ _ Hsub). lia.
  - by eapply Forall_sublist.
Qed.

Lemma mux_remove_by_owner_wf versions d ow : wf d -> wf (remove_by_owner versions d ow).1.2.
Proof. intros Hwf. by apply mux_sublist_wf, filterb_sublist. Qed.

(** What [unsubscribe] does to the list and to the count. *)
Lemma mux_unsubscribe_cases versions d id :
  wf d ->
  let d' := (unsubscribe versions d id).1.2 in
  let c := (unsubscribe versions d id).2 in
  d' = {| name := name d; subs := subs d'; next_id := next_id d;
          enabled_count := countb s_enabled (subs d'); version := u64_succ versions |} /\
  subs d' = filterb (fun s => negb (s_id s =? id)) (subs d) /\
  c = (if (0 <? enabled_count d) && (enabled_count d' =? 0) then DRemove else DNone).
Proof.
  intros Hwf. pose proof (mux_count_bound d Hwf) as Hb. destruct Hwf as [_ Hi _ Hn _ Hc _].
  unfold unsubscribe; simpl. destruct (position _ (subs d)) as [pos|] eqn:Hp; simpl.
  - apply position_Some in Hp as (l1 & x & l2 & E & <- & Hx & Hl1). apply Z.eqb_eq in Hx.
    assert (Hf : filterb (fun s => negb (s_id s =? id)) (subs d) = l1 ++ l2).
    { rewrite E, filterb_app. simpl. rewrite Hx, Z.eqb_refl. simpl. f_equal; apply filterb_true.
      - intros y Hy. rewrite Forall_forall in Hl1. by rewrite Hl1.
      - intros y Hy. apply negb_true_iff, Z.eqb_neq. intros Ey. subst.
        rewrite E, fmap_app, fmap_cons in Hi. apply NoDup_app in Hi as (_ & _ & [Hni _]%NoDup_cons).
        apply Hni. rewrite <- Ey. by apply list_elem_of_fmap_2. }
    rewrite E, list_lookup_middle by done.
    rewrite E, countb_app, countb_cons in Hc.
    pose proof (countb_nonneg s_enabled l1). pose proof (countb_nonneg s_enabled l2).
    rewrite E in Hf. destruct (s_enabled x) eqn:Ex; simpl; rewrite vec_remove_app, ?Hf, countb_app.
    + rewrite u64_pred_small by (unfold u64_max in *; lia).
      replace (enabled_count d - 1) with (countb s_enabled l1 + countb s_enabled l2) by lia.
      repeat split. assert (0 <? enabled_count d = true) as -> by (apply Z.ltb_lt; lia). done.
    + replace (enabled_count d) with (countb s_enabled l1 + countb s_enabled l2) by lia.
      repeat split. destruct (0 <? _) eqn:E1; simpl; [|done]. destruct (_ =? 0) eqn:E2; [|done].
      bool_to_prop. lia.
  - apply position_None in Hp. rewrite Forall_forall in Hp.
    rewrite filterb_true; [|intros y Hy; by rewrite Hp].
    rewrite Hc. repeat split. destruct (0 <? _) eqn:E1; simpl; [|done]. destruct (_ =? 0) eqn:E2; [|done].
    bool_to_prop. lia.
Qed.

Lemma mux_unsubscribe_wf versions d id : wf d -> wf (unsubscribe versions d id).1.2.
Proof.
  intros Hwf. destruct (mux_unsubscribe_cases versions d id Hwf) as (E & Hs & _). rewrite E.
  apply mux_sublist_wf; [done|]. rewrite Hs. apply filterb_sublist.
Qed.

(** [bump_error] only changes [enabled] and [error_count]. *)
Definition same_row s s' : Prop :=
  s_id s' = s_id s /\ s_priority s' = s_priority s /\ s_phase s' = s_phase s /\
  s_owner s' = s_owner s /\ s_handler s' = s_handler s /\
  (s_enabled s' = true -> s_enabled s = true).

Definition errors_ok s : Prop :=
  0 <= s_error_count s /\ (s_enabled s = true <-> s_error_count s < MAX_HANDLER_ERRORS).

Lemma mux_same_rows_refl (l : list (Subscription H)) : Forall2 same_row l l.
Proof. induction l; constructor; auto. by repeat split. Qed.

Lemma mux_same_rows_trans (l1 l2 l3 : list (Subscription H)) :
  Forall2 same_row l1 l2 -> Forall2 same_row l2 l3 -> Forall2 same_row l1 l3.
Proof.
  intros H1. revert l3. induction H1 as [|x y l1 l2 Hxy H1 IH]; intros l3 H2;
    inversion H2; subst; constructor; auto.
  unfold same_row in *. intuition congruence.
Qed.

Lemma mux_bump_error_spec id (l : list (Subscription H)) :
  Forall errors_ok l ->
  let '(l', n) := bump_error id l in
  Forall2 same_row l l' /\ Forall errors_ok l' /\ 0 <= n <= 1 /\
  countb s_enabled l' + n = countb s_enabled l.
Proof.
  induction 1 as [|s l Hs Hl IH]; simpl; [repeat split; try constructor; lia|].
  unfold MAX_HANDLER_ERRORS, errors_ok in *. destruct Hs as [Hs1 Hs2].
  destruct (s_id s =? id) eqn:Eid.
  - destruct (s_enabled s) eqn:Een; simpl.
    + assert (u32_wrap (s_error_count s + 1) = s_error_count s + 1) as ->.
      { apply Z.mod_small. assert (s_error_count s < 10) by by apply Hs2. lia. }
      destruct (10 <=? s_error_count s + 1) eqn:Ec; bool_to_prop;
        (split; [constructor; [by repeat split|apply mux_same_rows_refl]|]);
        (split; [constructor; [simpl; unfold errors_ok, MAX_HANDLER_ERRORS; simpl; split; [lia|split; intros; first [done|lia|exfalso; lia]]|done]|]);
        rewrite !countb_cons, ?Een; simpl; lia.
    + split; [apply mux_same_rows_refl|]. split; [constructor; [|done]; by rewrite Een|]. lia.
  - destruct (bump_error id l) as [l' n]. destruct IH as (IH1 & IH2 & IH3 & IH4).
    split; [constructor; [by repeat split|done]|]. split; [by constructor|].
    rewrite !countb_cons. lia.
Qed.

Lemma mux_bump_errors_spec ids (l : list (Subscription H)) n0 :
  Forall errors_ok l ->
  let '(l', n) := bump_errors ids l n0 in
  Forall2 same_row l l' /\ Forall errors_ok l' /\ n0 <= n /\
  countb s_enabled l' + n = countb s_enabled l + n0.
Proof.
  revert l n0. induction ids as [|id ids IH]; intros l n0 Hl; simpl.
  - split; [apply mux_same_rows_refl|]. split; [done|]. lia.
  - pose proof (mux_bump_error_spec id l Hl) as Hspec. destruct (bump_error id l) as [l1 n1].
    destruct Hspec as (Hr & He & Hn & Hc). specialize (IH l1 (n0 + n1) He).
    destruct (bump_errors ids l1 (n0 + n1)) as [l2 n2]. destruct IH as (Hr' & He' & Hn' & Hc').
    split; [by eapply mux_same_rows_trans|]. split; [done|]. lia.
Qed.

Lemma mux_dec_enabled_n n d c :
  0 <= Z.of_nat n <= enabled_count d -> enabled_count d <= u64_max ->
  dec_enabled_n n d c =
    ({| name := name d; subs := subs d; next_id := next_id d;
        enabled_count := enabled_count d - Z.of_nat n; version := version d |},
     if (0 <? Z.of_nat n) && (enabled_count d - Z.of_nat n =? 0) then DRemove else c).
Proof.
  revert d c. induction n as [|n IH]; intros d c Hn Hm; [simpl; rewrite Z.sub_0_r; by destruct d|].
  rewrite Nat2Z.inj_succ in *. cbn [dec_enabled_n dec_enabled].
  rewrite u64_pred_small by lia. rewrite IH by (simpl; lia). simpl.
  replace (enabled_count d - Z.succ (Z.of_nat n)) with (enabled_count d - 1 - Z.of_nat n) by lia.
  f_equal. rewrite (proj2 (Z.ltb_lt 0 (Z.succ (Z.of_nat n)))) by lia.
  destruct (0 <? Z.of_nat n) eqn:E1, (enabled_count d - 1 =? 0) eqn:E2,
    (enabled_count d - 1 - Z.of_nat n =? 0) eqn:E3; simpl; try done; bool_to_prop; lia.
Qed.

(** What [apply_errors] does: same rows, recounted, [DRemove] exactly when the count drops to 0. *)
Lemma mux_apply_errors_cases versions d ids :
  wf d ->
  let d' := (apply_errors versions d ids).1.2 in
  let c := (apply_errors versions d ids).2 in
  Forall2 same_row (subs d) (subs d') /\ Forall errors_ok (subs d') /\
  next_id d' = next_id d /\ enabled_count d' = countb s_enabled (subs d') /\
  enabled_count d' <= enabled_count d /\
  subs d' = (bump_errors ids (subs d) 0).1 /\
  version d' = (if enabled_count d' <? enabled_count d then u64_succ versions else version d) /\
  c = (if (0 <? enabled_count d) && (enabled_count d' =? 0) then DRemove else DNone).
Proof.
  intros Hwf. pose proof (mux_count_bound d Hwf) as Hb. destruct Hwf as [_ _ _ Hn _ Hc He].
  unfold apply_errors. pose proof (mux_bump_errors_spec ids (subs d) 0 He) as Hspec.
  destruct (bump_errors ids (subs d) 0) as [l n]. destruct Hspec as (Hr & He' & Hn0 & Hcnt).
  pose proof (countb_nonneg s_enabled l).
  destruct (0 <? n) eqn:En; cbv zeta; simpl; (rewrite mux_dec_enabled_n; [|simpl; lia|simpl; lia]);
    simpl; rewrite Z2Nat.id by lia; bool_to_prop.
  - rewrite (proj2 (Z.ltb_lt 0 n)) by lia. rewrite (proj2 (Z.ltb_lt 0 (enabled_count d))) by lia.
    rewrite (proj2 (Z.ltb_lt _ (enabled_count d))) by lia. repeat split; try done; lia.
  - assert (n = 0) as -> by lia. rewrite Z.sub_0_r, Z.ltb_irrefl. simpl.
    repeat split; try done; try lia.
    destruct (0 <? enabled_count d) eqn:E1; simpl; [|done].
    destruct (_ =? 0) eqn:E2; [|done]. bool_to_prop. lia.
Qed.

Lemma mux_same_rows_fmap {B} (f : Subscription H -> B) l l' :
  (forall s s', same_row s s' -> f s' = f s) -> Forall2 same_row l l' -> f <$> l' = f <$> l.
Proof. intros Hf. induction 1 as [|x y l l' Hxy Hl IH]; csimpl; [done|]. by rewrite IH, (Hf x y). Qed.

Lemma mux_apply_errors_wf versions d ids : wf d -> wf (apply_errors versions d ids).1.2.
Proof.
  intros Hwf. destruct (mux_apply_errors_cases versions d ids Hwf) as (Hr & He & Hn & Hc & _).
  set (d' := (apply_errors versions d ids).1.2) in *. destruct Hwf as [Hs Hi Hb Hnx Hl _ _].
  split; rewrite ?Hn; try done.
  - clear -Hr Hs. revert Hs. induction Hr as [|x y l l' Hxy Hl IH]; intros Hs; [constructor|].
    apply StronglySorted_inv in Hs as [Hs Hx]. constructor; [by apply IH|].
    assert (Hp : s_priority <$> l' = s_priority <$> l).
    { apply mux_same_rows_fmap; [|done]. by intros ?? (?&?&?&?&?). }
    rewrite Forall_forall in *. intros z Hz. unfold prio_le in *.
    destruct Hxy as (_ & -> & _). apply (list_elem_of_fmap_2 s_priority) in Hz. rewrite Hp in Hz.
    apply list_elem_of_fmap in Hz as (w & -> & Hw). by apply Hx.
  - rewrite (mux_same_rows_fmap s_id (subs d)); [done| |done]. by intros ?? (?&_).
  - assert (Hid : s_id <$> subs d' = s_id <$> subs d).
    { apply mux_same_rows_fmap; [|done]. by intros ?? (?&_). }
    assert (Forall (fun i => 1 <= i < next_id d) (s_id <$> subs d')) as X.
    { by rewrite Hid, Forall_fmap. }
    by rewrite Forall_fmap in X.
  - by rewrite <- (Forall2_length _ _ _ Hr).
Qed.

Lemma mux_step_wf versions d o : wf d -> next_id d < u64_max -> wf (step versions d o).1.2.
Proof.
  intros Hwf Hlt. destruct o as [p ph ow h|ow|id|ids]; cbn [step fst snd].
  - by apply mux_subscribe_wf.
  - by apply mux_remove_by_owner_wf.
  - by apply mux_unsubscribe_wf.
  - by apply mux_apply_errors_wf.
Qed.

Lemma mux_step_next versions d o :
  wf d -> next_id d < u64_max -> next_id d <= next_id (step versions d o).1.2 <= next_id d + 1.
Proof.
  intros Hwf Hlt. pose proof (wf_next _ Hwf). destruct o as [p ph ow h|ow|id|ids]; cbn [step fst snd].
  - simpl. rewrite u64_succ_small by lia. lia.
  - simpl. lia.
  - destruct (mux_unsubscribe_cases versions d id Hwf) as (-> & _). simpl. lia.
  - destruct (mux_apply_errors_cases versions d ids Hwf) as (_ & _ & -> & _). lia.
Qed.

(** What a change of the enabled count from [a] to [b] is reported as. *)
Definition change_of (a b : Z) : DetourChange :=
  if 0 <? b then (if 0 <? a then DNone else Install) else (if 0 <? a then DRemove else DNone).

Lemma mux_change_by_count a b : 0 <= b <= a -> (if (0 <? a) && (b =? 0) then DRemove else DNone) = change_of a b.
Proof.
  intros. unfold change_of. destruct (Z.ltb_spec 0 a), (Z.eqb_spec b 0), (Z.ltb_spec 0 b); try done; lia.
Qed.

Lemma mux_step_change versions d o :
  wf d -> next_id d < u64_max ->
  (step versions d o).2 = change_of (enabled_count d) (enabled_count (step versions d o).1.2).
Proof.
  intros Hwf Hlt. pose proof (mux_count_bound d Hwf) as Hb.
  destruct o as [p ph ow h|ow|id|ids]; cbn [step fst snd].
  - simpl. rewrite u64_succ_small by lia. unfold change_of. rewrite (proj2 (Z.ltb_lt 0 (enabled_count d + 1))) by lia.
    destruct (Z.eqb_spec (enabled_count d) 0), (Z.ltb_spec 0 (enabled_count d)); try done; lia.
  - simpl. set (l' := filterb _ (subs d)).
    assert (Hc : enabled_count d = countb (fun s => s_enabled s && String.eqb (s_owner s) ow) (subs d)
                   + countb s_enabled l').
    { rewrite (wf_count _ Hwf). unfold l'. clear. induction (subs d) as [|s l IH]; [done|].
      simpl. rewrite !countb_cons. destruct (String.eqb (s_owner s) ow); simpl;
        rewrite ?andb_true_r, ?andb_false_r, ?countb_cons; lia. }
    pose proof (countb_nonneg s_enabled l').
    pose proof (countb_nonneg (fun s => s_enabled s && String.eqb (s_owner s) ow) (subs d)).
    set (n := countb (fun s => s_enabled s && String.eqb (s_owner s) ow) (subs d)) in *. unfold change_of.
    destruct (Z.ltb_spec 0 n), (Z.eqb_spec (countb s_enabled l') 0), (Z.ltb_spec 0 (countb s_enabled l')),
      (Z.ltb_spec 0 (enabled_count d)); simpl; try done; lia.
  - destruct (mux_unsubscribe_cases versions d id Hwf) as (E & _ & ->). rewrite E. simpl.
    pose proof (countb_nonneg s_enabled (subs (unsubscribe versions d id).1.2)) as Hge.
    assert (countb s_enabled (subs (unsubscribe versions d id).1.2) <= enabled_count d) as Hle.
    { rewrite (wf_count _ Hwf). apply countb_sublist.
      destruct (mux_unsubscribe_cases versions d id Hwf) as (_ & -> & _). apply filterb_sublist. }
    by apply mux_change_by_count.
  - destruct (mux_apply_errors_cases versions d ids Hwf) as (_ & _ & _ & Hc & Hle & _ & _ & ->).
    apply mux_change_by_count. rewrite Hc in *.
    split; [apply countb_nonneg|done].
Qed.

(** The requests alternate, beginning with an installation, and the last one is what is installed. *)
Fixpoint transitions (from : bool) (l : list bool) (to : bool) : Prop :=
  match l with [] => from = to | x :: l => x = negb from /\ transitions x l to end.

Lemma transitions_snoc l : forall a b, transitions a l b -> transitions a (l ++ [negb b]) (negb b).
Proof. induction l as [|x l IH]; intros a b; cbn; [by intros ->|]. intros [-> Ht]. split; [done|]. by apply IH. Qed.

Record frame_ok (f : FrameHost) (n : nat) : Prop := {
  fr_wf : wf (frame f);
  fr_next : next_id (frame f) <= 1 + Z.of_nat n;
  fr_requests : transitions false (requests f) (installed f);
}.

Lemma mux_frame_step f n o : frame_ok f n -> Z.of_nat (S n) < u64_max - 1 -> frame_ok (frame_step f o) (S n).
Proof.
  intros [Hwf Hn Hr] Hlt. destruct o as [o|pend watching wants]; cbn [frame_step].
  - pose proof (mux_step_wf (versions f) (frame f) o Hwf ltac:(lia)) as Hw.
    pose proof (mux_step_next (versions f) (frame f) o Hwf ltac:(lia)) as Hx.
    destruct (step (versions f) (frame f) o) as [[vs d] c]. cbn in *. split; cbn; [done|lia|done].
  - unfold refresh_detour. case_bool_decide as E; [split; cbn; [done|lia|done]|]. split; cbn; [done|lia|].
    assert (Hneg : (0 <? enabled_count (frame f)) || (0 <? pend) || watching || wants = negb (installed f))
      by (revert E; clear; destruct (_ || wants), (installed f); intros E; try done; by destruct E).
    rewrite Hneg. by apply transitions_snoc.
Qed.

Lemma mux_frame_run vs nm os : Z.of_nat (length os) < u64_max - 1 -> frame_ok (frame_run vs nm os) (length os).
Proof.
  unfold frame_run. induction os as [|o os IH] using rev_ind; intros Hn; [split; [apply mux_new_wf|done|done]|].
  rewrite length_app, Nat.add_comm in *. cbn [length Nat.add] in *. rewrite foldl_app. apply mux_frame_step; [apply IH; lia|done].
Qed.

(** C12. Whatever sequence (shorter than the 64-bit ids last) of subscribe, unsubscribe, remove-by-owner and error accounting the frame
    descriptor goes through, its subscribers stay priority-sorted with distinct ids and the enabled
    count is exactly the number of enabled subscribers (it never wraps); a reconciliation leaves the
    detour installed iff a subscriber is enabled, asynchronous work is pending, the loader watches or
    the profiler wants frames; what the embedder was asked alternates, ending with what is recorded as
    installed; and the change the next operation returns says exactly whether the first enabled
    subscriber comes or the last one goes. *)
Theorem mux_detour_iff_wanted vs nm os o async_pending is_watching wants_frames :
  Z.of_nat (length os) < u64_max - 2 ->
  let f := frame_run vs nm os in
  let d := frame f in
  let f' := refresh_detour async_pending is_watching wants_frames f in
  StronglySorted prio_le (subs d) /\ NoDup (s_id <$> subs d) /\
  enabled_count d = countb s_enabled (subs d) /\
  (installed f' = true <->
     (exists s, s ∈ subs d /\ s_enabled s = true) \/ 0 < async_pending \/ is_watching = true \/ wants_frames = true) /\
  transitions false (requests f') (installed f') /\
  (step (versions f) d o).2 = change_of (countb s_enabled (subs d)) (countb s_enabled (subs (step (versions f) d o).1.2)).
Proof.
  intros Hn. cbv zeta. destruct (mux_frame_run vs nm os ltac:(lia)) as [Hwf Hnx Hr].
  pose proof (mux_frame_step (frame_run vs nm os) (length os) (Refresh async_pending is_watching wants_frames)
    ltac:(by split) ltac:(lia)) as Hf. cbn [frame_step] in Hf. set (f := frame_run vs nm os) in *.
  pose proof (mux_step_change (versions f) (frame f) o Hwf ltac:(lia)) as Hc.
  pose proof (mux_step_wf (versions f) (frame f) o Hwf ltac:(lia)) as Hw'.
  rewrite (wf_count _ Hwf), (wf_count _ Hw') in Hc.
  split_and!; [apply Hwf|apply Hwf|apply Hwf| |apply Hf|done].
  assert (Hi : installed (refresh_detour async_pending is_watching wants_frames f)
             = (0 <? enabled_count (frame f)) || (0 <? async_pending) || is_watching || wants_frames).
  { unfold refresh_detour. by case_bool_decide. }
  rewrite Hi, !orb_true_iff, !Z.ltb_lt, (wf_count _ Hwf), countb_pos. tauto.
Qed.

(** ** Dispatch order *)

(** A new subscription is dispatched after every subscriber of its phase whose priority is at
    least as urgent and before every one of a later priority (so [Monitor] subscribers come last and
    equal priorities keep registration order); the other phase is untouched. *)
Theorem mux_subscribe_order versions d p ph ow h :
  wf d ->
  let '(_, d', (id, _)) := subscribe versions d p ph ow h in
  id = next_id d /\
  (exists l1 l2, snapshot d ph = l1 ++ l2 /\ snapshot d' ph = l1 ++ (id, p, ow, h) :: l2 /\
     (forall r, r ∈ l1 -> prio_rank r.1.1.2 <= prio_rank p) /\
     (forall r, r ∈ l2 -> prio_rank p < prio_rank r.1.1.2)) /\
  (forall ph', ph' <> ph -> snapshot d' ph' = snapshot d ph').
Proof.
  intros Hwf. pose proof (mux_subscribe_subs versions d p ph ow h Hwf) as (l1 & l2 & E & E' & H1 & H2).
  destruct (subscribe versions d p ph ow h) as [[vs d'] [id c]] eqn:Es. simpl in E'.
  unfold subscribe in Es. simpl in Es. injection Es as _ _ <- _. split; [done|].
  unfold snapshot. rewrite E, E'. setoid_rewrite filterb_app. setoid_rewrite fmap_app. simpl.
  split.
  - rewrite bool_decide_true by done. eexists _, _. split; [done|]. split; [done|].
    split; intros r (s & -> & [_ Hin]%elem_of_filterb)%list_elem_of_fmap; simpl; auto.
  - intros ph' Hne. by rewrite bool_decide_false by congruence.
Qed.

(** ** The collapse loop *)

Definition row : Type := Z * Priority * H.
Definition row_monitor (r : row) : bool := bool_decide (r.1.2 = Monitor).

(** The outcomes in a log are the ones [invoke] gives at the successive states. *)
Fixpoint log_run {W} (invoke : W -> H -> W * option HookResult) (w : W)
    (log : list (row * option HookResult)) : option W :=
  match log with
  | [] => Some w
  | ((_, _, h), r) :: log' =>
      let '(w', r') := invoke w h in
      if decide (r = r') then log_run invoke w' log' else None
  end.

Definition result_max (a b : HookResult) : HookResult := if result_gt b a then b else a.
Definition log_result (log : list (row * option HookResult)) (acc : HookResult) : HookResult :=
  foldl (fun acc e => match e with
                      | (r, Some x) => if row_monitor r then acc else result_max acc x
                      | (_, None) => acc
                      end) acc log.
Definition log_errored (log : list (row * option HookResult)) : list Z :=
  omap (fun e => match e with ((id, _, _), None) => Some id | _ => None end) log.
Definition is_stop (e : row * option HookResult) : bool :=
  negb (row_monitor e.1) && bool_decide (e.2 = Some HStop).

(** Which rows of the snapshot ran, given the log: all the monitors, and the others up to and
    including the first that returned [Stop]. *)
Definition ran_rows (stopped : bool) (snap : list row) (log : list (row * option HookResult)) : Prop :=
  if stopped then log.*1 = filterb row_monitor snap
  else (log.*1 = snap /\ existsb is_stop log = false) \/
       (exists snap1 r snap2 log1 log2, snap = snap1 ++ r :: snap2 /\
          log = log1 ++ (r, Some HStop) :: log2 /\ row_monitor r = false /\
          existsb is_stop log1 = false /\ log1.*1 = snap1 /\ log2.*1 = filterb row_monitor snap2).

Lemma mux_ran_rows_cons r o snap log :
  is_stop (r, o) = false -> ran_rows false snap log -> ran_rows false (r :: snap) ((r, o) :: log).
Proof.
  intros Hr [[E Hs]|(snap1 & r' & snap2 & log1 & log2 & -> & -> & Hm & Hs & E1 & E2)]; simpl.
  - left. rewrite Hr. split; [by f_equal|done].
  - right. exists (r :: snap1), r', snap2, ((r, o) :: log1), log2. subst snap1. simpl. by rewrite Hr.
Qed.

Lemma mux_run_chain_loop_spec {W} (invoke : W -> H -> W * option HookResult) snap :
  forall w res stopped errs,
  let '(w', out) := run_chain_loop snap invoke w res stopped errs in
  exists log, ran_rows stopped snap log /\ log_run invoke w log = Some w' /\
    result out = log_result log res /\ errored out = errs ++ log_errored log.
Proof.
  induction snap as [|[[id prio] h] snap IH]; intros w res stopped errs; cbn [run_chain_loop].
  { exists []. rewrite app_nil_r. destruct stopped; simpl; [done|]. repeat split. by left. }
  destruct (bool_decide (prio = Monitor)) eqn:Em; cbn [negb andb].
  - (* a monitor always runs and never affects the result *)
    assert (Hrm : row_monitor (id, prio, h) = true) by done.
    destruct (invoke w h) as [w1 [r|]] eqn:Ei;
      [specialize (IH w1 res stopped errs)|specialize (IH w1 res stopped (errs ++ [id]))];
      destruct (run_chain_loop _ _ _ _ _ _) as [w' out];
      destruct IH as (log & Hr & Hl & Hres & Herr).
    + exists (((id, prio, h), Some r) :: log). split; [|split; [|split]].
      * destruct stopped; [|by apply mux_ran_rows_cons; [unfold is_stop; simpl; rewrite Hrm|]].
        simpl in *. rewrite Hrm. by f_equal.
      * simpl. rewrite Ei. by rewrite decide_True.
      * rewrite Hres. unfold log_result. simpl. by rewrite Hrm.
      * by rewrite Herr.
    + exists (((id, prio, h), None) :: log). split; [|split; [|split]].
      * destruct stopped; [|by apply mux_ran_rows_cons; [unfold is_stop; simpl; rewrite Hrm|]].
        simpl in *. rewrite Hrm. by f_equal.
      * simpl. rewrite Ei. by rewrite decide_True.
      * by rewrite Hres.
      * rewrite Herr. simpl. by rewrite <- app_assoc.
  - assert (Hrm : row_monitor (id, prio, h) = false) by done.
    destruct stopped.
    + specialize (IH w res true errs). destruct (run_chain_loop _ _ _ _ _ _) as [w' out].
      destruct IH as (log & Hr & ?). exists log. split; [|done]. simpl in *. by rewrite Hrm.
    + destruct (invoke w h) as [w1 [r|]] eqn:Ei.
      * set (res' := if result_gt r res then r else res).
        specialize (IH w1 res' (if bool_decide (r = HStop) then true else false) errs).
        destruct (run_chain_loop _ _ _ _ _ _) as [w' out].
        destruct IH as (log & Hr & Hl & Hres & Herr).
        exists (((id, prio, h), Some r) :: log). split; [|split; [|split]].
        -- destruct (bool_decide (r = HStop)) eqn:Er; bool_to_prop.
           ++ subst r. right. exists [], (id, prio, h), snap, [], log. done.
           ++ apply mux_ran_rows_cons; [|done]. unfold is_stop. simpl. rewrite Hrm. simpl.
              apply bool_decide_eq_false. congruence.
        -- simpl. rewrite Ei. by rewrite decide_True.
        -- rewrite Hres. unfold log_result. simpl. by rewrite Hrm.
        -- by rewrite Herr.
      * specialize (IH w1 res false (errs ++ [id])).
        destruct (run_chain_loop _ _ _ _ _ _) as [w' out].
        destruct IH as (log & Hr & Hl & Hres & Herr).
        exists (((id, prio, h), None) :: log). split; [|split; [|split]].
        -- apply mux_ran_rows_cons; [|done]. unfold is_stop. simpl. by rewrite Hrm.
        -- simpl. rewrite Ei. by rewrite decide_True.
        -- by rewrite Hres.
        -- rewrite Herr. simpl. by rewrite <- app_assoc.
Qed.

(** The collapse rules, for handlers that may have any effect and any outcome: the handlers that
    run are all the snapshot's, or, when some non-monitor returns [Stop], those up to it plus every
    later monitor; they run in snapshot order, each on the state its predecessor left; the result
    is the maximum over the non-monitor results (an error counts as [Continue], a monitor's return
    is ignored); and [errored] lists, in order, the ids whose handler failed. *)
Theorem mux_run_chain_collapse {W} (invoke : W -> H -> W * option HookResult) snap w :
  let '(w', out) := run_chain snap invoke w in
  exists log, ran_rows false snap log /\ log_run invoke w log = Some w' /\
    result out = log_result log Continue /\ errored out = log_errored log.
Proof. apply (mux_run_chain_loop_spec invoke snap w Continue false []). Qed.

(** ** Error accounting *)

(** One failed run of [s]: one more error, disabled at the threshold. *)
Definition account_error s : Subscription H :=
  let ec := s_error_count s + 1 in
  mkSub (s_id s) (s_priority s) (s_phase s) (s_owner s) (s_handler s)
    (negb (MAX_HANDLER_ERRORS <=? ec)) ec.
Definition account (ids : list Z) s : Subscription H :=
  if bool_decide (s_id s ∈ ids) && s_enabled s then account_error s else s.

Lemma mux_bump_error_exact id (l : list (Subscription H)) :
  NoDup (s_id <$> l) -> Forall errors_ok l ->
  (bump_error id l).1 = (fun s => if (s_id s =? id) && s_enabled s then account_error s else s) <$> l.
Proof.
  induction l as [|s l IH]; intros Hnd Hok; [done|]. rewrite fmap_cons, NoDup_cons in Hnd.
  apply Forall_cons in Hok as [[Hok1 Hok2] Hok]. destruct Hnd as [Hni Hnd]. cbn [bump_error].
  rewrite fmap_cons. destruct (s_id s =? id) eqn:Eid.
  - assert (Hrest : (fun s => if (s_id s =? id) && s_enabled s then account_error s else s) <$> l = l).
    { apply fmap_id_on. intros x Hx. destruct (s_id x =? id) eqn:Ex; [|done].
      bool_to_prop. subst. exfalso. apply Hni. rewrite <- Ex. by apply list_elem_of_fmap_2. }
    rewrite Hrest. destruct (s_enabled s) eqn:Een; simpl; [|done].
    assert (u32_wrap (s_error_count s + 1) = s_error_count s + 1) as ->.
    { unfold MAX_HANDLER_ERRORS in *. apply Z.mod_small. assert (s_error_count s < 10) by by apply Hok2. lia. }
    unfold account_error. by destruct (MAX_HANDLER_ERRORS <=? s_error_count s + 1).
  - specialize (IH Hnd Hok). destruct (bump_error id l) as [l' n]. simpl in *. by f_equal.
Qed.

Lemma mux_account_cons id ids s :
  id ∉ ids ->
  account ids (if (s_id s =? id) && s_enabled s then account_error s else s) = account (id :: ids) s.
Proof.
  intros Hni. unfold account. destruct (s_id s =? id) eqn:Eid; bool_to_prop; simpl.
  - subst. destruct (s_enabled s) eqn:Een; simpl.
    + rewrite (bool_decide_false (s_id s ∈ ids)), (bool_decide_true (s_id s ∈ s_id s :: ids)) by (done || in_list).
      done.
    + by rewrite Een, !andb_false_r.
  - erewrite bool_decide_ext; [done|]. in_list.
Qed.

Lemma mux_bump_errors_exact ids (l : list (Subscription H)) n :
  NoDup ids -> NoDup (s_id <$> l) -> Forall errors_ok l ->
  (bump_errors ids l n).1 = account ids <$> l.
Proof.
  revert l n. induction ids as [|id ids IH]; intros l n Hids Hnd Hok; cbn [bump_errors].
  - symmetry. apply fmap_id_on. intros s _. unfold account. by rewrite bool_decide_false by apply not_elem_of_nil.
  - apply NoDup_cons in Hids as [Hni Hids].
    pose proof (mux_bump_error_exact id l Hnd Hok) as E1. pose proof (mux_bump_error_spec id l Hok) as E2.
    destruct (bump_error id l) as [l1 n1]. destruct E2 as (Hr & Hok' & _). simpl in E1.
    rewrite IH; [|done| |done].
    + rewrite E1, <- list_fmap_compose. apply list_fmap_ext. intros i s _. by apply mux_account_cons.
    + rewrite (mux_same_rows_fmap s_id l); [done| |done]. by intros ?? (?&_).
Qed.

(** Error accounting charges exactly the enabled subscribers whose id is reported (once each),
    auto-disables each at its tenth error, changes nothing else, and reports [DRemove] exactly
    when that leaves no enabled subscriber. *)
Theorem mux_apply_errors_exact versions d ids :
  wf d -> NoDup ids ->
  let '(_, d', c) := apply_errors versions d ids in
  subs d' = account ids <$> subs d /\
  enabled_count d' = countb s_enabled (account ids <$> subs d) /\
  (c = DRemove <-> 0 < enabled_count d /\ forall s, s ∈ subs d' -> s_enabled s = false).
Proof.
  intros Hwf Hids. destruct (mux_apply_errors_cases versions d ids Hwf) as (_&_&_&Hc&_&Hs&_&Hd).
  destruct (apply_errors versions d ids) as [[vs d'] c]. simpl in *.
  rewrite mux_bump_errors_exact in Hs by (done || apply Hwf). rewrite Hs in *. repeat split; [done|..].
  - destruct (0 <? enabled_count d) eqn:E; subst c; simpl in *; [|done]. by bool_to_prop.
  - rewrite <- countb_0_iff, <- Hc. destruct (0 <? _), (_ =? 0) eqn:E; subst c; simpl in *; try done.
    by bool_to_prop.
  - intros [Hpos Hall]. apply countb_0_iff in Hall. rewrite Hd, Hc, Hall, (proj2 (Z.ltb_lt _ _) Hpos). done.
Qed.

(** ** The version as a cache key *)

Lemma mux_same_rows_snapshot (l l' : list (Subscription H)) :
  Forall2 same_row l l' -> countb s_enabled l' = countb s_enabled l ->
  s_enabled <$> l' = s_enabled <$> l.
Proof.
  assert (Hle : forall l l' : list (Subscription H), Forall2 same_row l l' ->
            countb s_enabled l' <= countb s_enabled l).
  { clear. induction 1 as [|x y l l' Hxy _ IH]; [done|]. rewrite !countb_cons.
    destruct Hxy as (_&_&_&_&_&He). destruct (s_enabled y), (s_enabled x); lia || (exfalso; naive_solver). }
  induction 1 as [|x y l l' Hxy Hl IH]; [done|]. rewrite !countb_cons. intros Hc. csimpl.
  specialize (Hle l l' Hl). destruct Hxy as (_&_&_&_&_&He).
  destruct (s_enabled y) eqn:Ey, (s_enabled x) eqn:Ex; try (exfalso; naive_solver lia); f_equal; apply IH; lia.
Qed.

Lemma mux_snapshot_ext (l l' : list (Subscription H)) f :
  Forall2 same_row l l' -> s_enabled <$> l' = s_enabled <$> l ->
  (fun s => (s_id s, s_priority s, s_owner s, s_handler s)) <$>
    filterb (fun s => s_enabled s && bool_decide (s_phase s = f)) l' =
  (fun s => (s_id s, s_priority s, s_owner s, s_handler s)) <$>
    filterb (fun s => s_enabled s && bool_decide (s_phase s = f)) l.
Proof.
  induction 1 as [|x y l l' Hxy Hl IH]; [done|]. csimpl. intros [=He Heq].
  destruct Hxy as (?&?&Hph&?&?&_). rewrite He, Hph.
  destruct (s_enabled x && bool_decide (s_phase x = f)); csimpl; rewrite IH by done; congruence.
Qed.

(** The version is a sound cache key: if an operation leaves a descriptor's version where it
    was, the dispatch snapshot of either phase is unchanged (versions are drawn from one counter,
    which a live descriptor never outruns). *)
Theorem mux_version_sound versions d o ph :
  wf d -> 0 <= version d <= versions -> versions < u64_max ->
  let '(versions', d', _) := step versions d o in
  (version d' = version d -> snapshot d' ph = snapshot d ph) /\
  0 <= version d' <= versions' /\ version d <= version d'.
Proof.
  intros Hwf Hv Hlt. assert (Hvs : u64_succ versions = versions + 1) by (apply u64_succ_small; lia).
  destruct o as [p ph' ow h|ow|id|ids]; unfold step.
  - simpl. rewrite Hvs. repeat split; lia.
  - simpl. rewrite Hvs. repeat split; lia.
  - assert ((unsubscribe versions d id).1.1 = u64_succ versions) as Hfst.
    { unfold unsubscribe, dec_enabled; simpl. by repeat case_split. }
    destruct (mux_unsubscribe_cases versions d id Hwf) as (E & _ & _).
    destruct (unsubscribe versions d id) as [[vs d'] c]. simpl in *. rewrite E. simpl.
    rewrite Hfst, Hvs. repeat split; lia.
  - assert ((apply_errors versions d ids).1.1 = (if enabled_count (apply_errors versions d ids).1.2 <? enabled_count d
              then u64_succ versions else versions)) as Hfst.
    { pose proof (mux_count_bound d Hwf). pose proof (wf_next _ Hwf). pose proof (wf_count _ Hwf).
      unfold apply_errors. pose proof (mux_bump_errors_spec ids (subs d) 0 (wf_errors _ Hwf)) as Hspec.
      destruct (bump_errors ids (subs d) 0) as [l n]. destruct Hspec as (_ & _ & Hn0 & Hcnt).
      pose proof (countb_nonneg s_enabled l).
      destruct (0 <? n) eqn:En; cbv zeta; simpl; (rewrite mux_dec_enabled_n; [|simpl; lia|simpl; lia]);
        simpl; rewrite Z2Nat.id by lia; bool_to_prop.
      - by rewrite (proj2 (Z.ltb_lt _ _)) by lia.
      - by rewrite (proj2 (Z.ltb_ge _ _)) by lia. }
    destruct (mux_apply_errors_cases versions d ids Hwf) as (Hr & _ & _ & Hc & Hle & _ & Hver & _).
    destruct (apply_errors versions d ids) as [[vs d'] c]. simpl in *. rewrite Hfst, Hver.
    destruct (_ <? _) eqn:E; bool_to_prop; [rewrite Hvs; repeat split; lia|].
    repeat split; try lia. intros _. apply mux_snapshot_ext; [done|]. apply mux_same_rows_snapshot; [done|].
    rewrite <- Hc. rewrite <- (wf_count _ Hwf). lia.
Qed.
End Descriptor.
End Multiplexer.

(** ** Concrete runs *)
Module MultiplexerExamples.
Import Multiplexer.

Definition d0 : Descriptor nat := (new 0 "OnGameFrame").2.
Definition d1 : Descriptor nat := (subscribe 1 d0 Low Pre "a" 1%nat).1.2.
Definition d2 : Descriptor nat := (subscribe 2 d1 Monitor Pre "b" 2%nat).1.2.
Definition d3 : Descriptor nat := (subscribe 3 d2 High Pre "a" 3%nat).1.2.

(** Handlers scripted by number: 3 returns [Stop], 1 would return [Handled], 2 (the monitor) fails. *)
Definition scripted (log : list nat) (h : nat) : list nat * option HookResult :=
  (log ++ [h], match h with 3%nat => Some HStop | 1%nat => Some Handled | _ => None end).

Example run_chain_stop :
  run_chain ((fun '(i, p, _, h) => (i, p, h)) <$> snapshot d3 Pre) scripted [] =
    ([3%nat; 2%nat], mkOutcome HStop [2]).
Proof. reflexivity. Qed.

Lemma mux_d3_wf : wf d3.
Proof.
  unfold d3, d2, d1, d0. do 3 (apply mux_subscribe_wf; [|by vm_compute]). apply mux_new_wf.
Qed.

(** Two subscribers come, one goes and the other fails ten times; the loader watches at first. *)
Definition frame_life : list (frame_op (H := nat)) :=
  [Refresh 0 true false; Mutate (Subscribe Low Pre "a" 1%nat); Mutate (Subscribe High Post "b" 2%nat);
   Refresh 0 false false; Mutate (Unsubscribe 1)].

Lemma mux_detour_iff_wanted_witness :
  installed (refresh_detour 0 false false (frame_run 0 "OnGameFrame" frame_life)) = true /\
  (step 0 (frame (frame_run 0 "OnGameFrame" frame_life)) (ApplyErrors (replicate 10 2))).2 = DRemove.
Proof.
  pose proof (mux_detour_iff_wanted 0 "OnGameFrame" frame_life (ApplyErrors (replicate 10 2)) 0 false false) as H.
  cbv zeta in H. destruct H as (_ & _ & _ & Hi & _ & Hc); [vm_compute; reflexivity|]. split.
  - apply Hi. left. eexists. split; [vm_compute; left|reflexivity].
  - etransitivity; [exact Hc|vm_compute; reflexivity].
Defined.

Lemma mux_subscribe_order_witness :
  exists l1 l2, snapshot d3 Pre = l1 ++ l2 /\
    snapshot (subscribe 4 d3 Normal Pre "c" 4%nat).1.2 Pre = l1 ++ (4, Normal, "c", 4%nat) :: l2.
Proof.
  pose proof (mux_subscribe_order 4 d3 Normal Pre "c" 4%nat mux_d3_wf) as Hx.
  destruct Hx as (_ & (l1 & l2 & E1 & E2 & _) & _). exists l1, l2. split; [exact E1|exact E2].
Defined.

Lemma mux_apply_errors_exact_witness :
  subs (apply_errors 4 d3 [2]).1.2 = account [2] <$> subs d3.
Proof.
  apply (mux_apply_errors_exact 4 d3 [2] mux_d3_wf). apply NoDup_singleton.
Defined.

Lemma mux_version_sound_witness :
  version (apply_errors 4 d3 [2]).1.2 = version d3 /\
  snapshot (apply_errors 4 d3 [2]).1.2 Pre = snapshot d3 Pre.
Proof.
  pose proof (mux_version_sound 4 d3 (ApplyErrors [2]) Pre mux_d3_wf) as Hx.
  split; [reflexivity|]. apply Hx; [by vm_compute; split; discriminate|by vm_compute|reflexivity].
Defined.
End MultiplexerExamples.
