(* ===== verification/Channels.v ===== *)
(** Keyed subscription channels over the multiplexer (core/src/channels.rs).

    A [Channels H] maps a channel name to a [Descriptor] whose handler type carries the plugin
    generation, and a caller-allocated subscription id to its place. The abstract specification is a
    plain table: per channel, the list of [(id, owner, generation, handler)] rows in registration
    order. [channels_refine] is the refinement theorem: every operation, run on a store that
    represents a table, returns what the table says and yields a store representing the updated
    table. HashMap iteration ([remove_by_owner]) is [map_to_list]; no theorem depends on its order. *)
From S2P Require Import Prelude.
From S2P Require Import Multiplexer.
Import Multiplexer.

Module Channels.

Record Channels (H : Type) := mkChannels {
  by_name : gmap string (Descriptor (Z * H));
  ids : gmap Z (string * Z * string);
  version : Z;
}.
Arguments mkChannels {H}. Arguments by_name {H}. Arguments ids {H}. Arguments version {H}.

(** One row of the abstract table. *)
Record row (H : Type) := mkRow { r_id : Z; r_owner : string; r_generation : Z; r_handler : H }.
Arguments mkRow {H}. Arguments r_id {H}. Arguments r_owner {H}. Arguments r_generation {H}.
Arguments r_handler {H}.

Section Channels.
Context {H : Type}.
Notation desc := (Descriptor (Z * H)).
Implicit Types (c : Channels H) (versions : Z) (nm owner : string).

Definition new versions : Z * Channels H :=
  let '(vs, v) := next_version versions in
  (vs, {| by_name := ∅; ids := ∅; version := v |}).

Definition subscribe versions c nm (id : Z) owner (generation : Z) (handler : H) : Z * Channels H * bool :=
  let '(vs1, v) := next_version versions in
  let '(vs2, d) := match by_name c !! nm with
                   | Some d => (vs1, d)
                   | None => Multiplexer.new vs1 nm
                   end in
  let first := enabled_count d =? 0 in
  let '(vs3, d', (sub_id, _)) := Multiplexer.subscribe vs2 d Normal Pre owner (generation, handler) in
  (vs3,
   {| by_name := <[nm := d']> (by_name c);
      ids := <[id := (nm, sub_id, owner)]> (ids c);
      version := v |},
   first).

Definition snapshot c nm : list (string * Z * H) :=
  match by_name c !! nm with
  | None => []
  | Some d => (fun '(_, _, owner, (generation, h)) => (owner, generation, h)) <$> Multiplexer.snapshot d Pre
  end.

(** The [for (name, desc) in self.by_name.iter_mut()] loop of [remove_by_owner]. *)
Fixpoint remove_owner_loop versions (l : list (string * desc)) owner
    : Z * list (string * desc) * list string :=
  match l with
  | [] => (versions, [], [])
  | (nm, d) :: rest =>
      let before := enabled_count d in
      let '(vs, d', _) := Multiplexer.remove_by_owner versions d owner in
      let '(vs', rest', emptied) := remove_owner_loop vs rest owner in
      (vs', (nm, d') :: rest',
       if (0 <? before) && (enabled_count d' =? 0) then nm :: emptied else emptied)
  end.

Definition remove_names (m : gmap string desc) (names : list string) : gmap string desc :=
  foldl (fun m nm => delete nm m) m names.

Definition remove_by_owner versions c owner : Z * Channels H * list string :=
  let '(vs1, v) := next_version versions in
  let '(vs2, l, emptied) := remove_owner_loop vs1 (map_to_list (by_name c)) owner in
  (vs2,
   {| by_name := remove_names (list_to_map l) emptied;
      ids := filter (fun kv => kv.2.2 <> owner) (ids c);
      version := v |},
   emptied).

Fixpoint remove_ids_loop versions c (idl : list Z) : Z * Channels H * list string :=
  match idl with
  | [] => (versions, c, [])
  | id :: rest =>
      match ids c !! id with
      | None => remove_ids_loop versions c rest
      | Some (nm, sub_id, _) =>
          let ids' := delete id (ids c) in
          match by_name c !! nm with
          | None => remove_ids_loop versions {| by_name := by_name c; ids := ids'; version := version c |} rest
          | Some d =>
              let before := enabled_count d in
              let '(vs, d', _) := Multiplexer.unsubscribe versions d sub_id in
              if (0 <? before) && (enabled_count d' =? 0) then
                let '(vs', c', emptied) := remove_ids_loop vs
                     {| by_name := delete nm (<[nm := d']> (by_name c)); ids := ids'; version := version c |} rest in
                (vs', c', nm :: emptied)
              else remove_ids_loop vs
                     {| by_name := <[nm := d']> (by_name c); ids := ids'; version := version c |} rest
          end
      end
  end.

Definition remove_by_ids versions c (idl : list Z) : Z * Channels H * list string :=
  let '(vs, v) := next_version versions in
  remove_ids_loop vs {| by_name := by_name c; ids := ids c; version := v |} idl.

Definition remove_by_owner_on versions c nm owner : Z * Channels H * bool :=
  let '(vs1, v) := next_version versions in
  match by_name c !! nm with
  | None => (vs1, {| by_name := by_name c; ids := ids c; version := v |}, false)
  | Some d =>
      let before := enabled_count d in
      let '(vs2, d', _) := Multiplexer.remove_by_owner vs1 d owner in
      let now_empty := (0 <? before) && (enabled_count d' =? 0) in
      let m := <[nm := d']> (by_name c) in
      (vs2,
       {| by_name := if now_empty then delete nm m else m;
          ids := filter (fun kv => kv.2.1.1 <> nm \/ kv.2.2 <> owner) (ids c);
          version := v |},
       now_empty)
  end.

Definition remove_by_name versions c nm : Z * Channels H :=
  let '(vs, v) := next_version versions in
  (vs, {| by_name := delete nm (by_name c);
          ids := filter (fun kv => kv.2.1.1 <> nm) (ids c);
          version := v |}).

(** The loop of [rename] that moves a snapshot over, collecting the old-to-new id pairs. *)
Fixpoint move_loop versions (dest : desc) (rows : list (Z * Priority * string * (Z * H)))
    (remap : list (Z * Z)) : Z * desc * list (Z * Z) :=
  match rows with
  | [] => (versions, dest, remap)
  | (old_id, priority, owner, handler) :: rest =>
      let '(vs, dest', (new_id, _)) := Multiplexer.subscribe versions dest priority Pre owner handler in
      move_loop vs dest' rest (remap ++ [(old_id, new_id)])
  end.

Fixpoint find_remap (remap : list (Z * Z)) (sub_id : Z) : option Z :=
  match remap with
  | [] => None
  | (old, new_id) :: rest => if old =? sub_id then Some new_id else find_remap rest sub_id
  end.

Definition rekey (from to : string) (remap : list (Z * Z)) (e : string * Z * string) : string * Z * string :=
  let '(nm, sub_id, owner) := e in
  if negb (String.eqb nm from) then e
  else match find_remap remap sub_id with
       | Some new_id => (to, new_id, owner)
       | None => e
       end.

Definition rename versions c (from to : string) : Z * Channels H :=
  let '(vs1, v) := next_version versions in
  if String.eqb from to then (vs1, {| by_name := by_name c; ids := ids c; version := v |})
  else
    match by_name c !! from with
    | None => (vs1, {| by_name := by_name c; ids := ids c; version := v |})
    | Some src =>
        let m := delete from (by_name c) in
        let '(vs2, dest) := match m !! to with
                            | Some d => (vs1, d)
                            | None => Multiplexer.new vs1 to
                            end in
        let '(vs3, dest', remap) := move_loop vs2 dest (Multiplexer.snapshot src Pre) [] in
        (vs3,
         {| by_name := <[to := dest']> m;
            ids := filter (fun kv => kv.2.1.1 <> from) (rekey from to remap <$> ids c);
            version := v |})
    end.

Definition has_subscribers c nm : bool :=
  match by_name c !! nm with Some d => 0 <? enabled_count d | None => false end.

Definition is_empty c : bool := forallb (fun kv => enabled_count kv.2 =? 0) (map_to_list (by_name c)).

(** ** The abstract table and its operations *)
Definition table : Type := string -> list (row H).

Definition t_subscribe (a : table) nm (r : row H) : table :=
  fun n => if String.eqb n nm then a n ++ [r] else a n.
Definition t_filter (a : table) (keep : string -> row H -> bool) : table :=
  fun n => filterb (keep n) (a n).
Definition t_rename (a : table) (from to : string) : table :=
  if String.eqb from to then a
  else fun n => if String.eqb n from then [] else if String.eqb n to then a to ++ a from else a n.

Inductive op :=
| Subscribe (nm : string) (id : Z) (owner : string) (generation : Z) (handler : H)
| RemoveByOwner (owner : string)
| RemoveByIds (idl : list Z)
| RemoveByOwnerOn (nm owner : string)
| RemoveByName (nm : string)
| Rename (from to : string).

(** The result of an operation: a flag or the emptied channel names. *)
Inductive answer := AFlag (b : bool) | ANames (l : list string) | AUnit.

Definition step versions c (o : op) : Z * Channels H * answer :=
  match o with
  | Subscribe nm id ow g h => let r := subscribe versions c nm id ow g h in (r.1.1, r.1.2, AFlag r.2)
  | RemoveByOwner ow => let r := remove_by_owner versions c ow in (r.1.1, r.1.2, ANames r.2)
  | RemoveByIds idl => let r := remove_by_ids versions c idl in (r.1.1, r.1.2, ANames r.2)
  | RemoveByOwnerOn nm ow => let r := remove_by_owner_on versions c nm ow in (r.1.1, r.1.2, AFlag r.2)
  | RemoveByName nm => let r := remove_by_name versions c nm in (r.1, r.2, AUnit)
  | Rename f t => let r := rename versions c f t in (r.1, r.2, AUnit)
  end.

Definition t_step (a : table) (o : op) : table :=
  match o with
  | Subscribe nm id ow g h => t_subscribe a nm (mkRow id ow g h)
  | RemoveByOwner ow => t_filter a (fun _ r => negb (String.eqb (r_owner r) ow))
  | RemoveByIds idl => t_filter a (fun _ r => negb (bool_decide (r_id r ∈ idl)))
  | RemoveByOwnerOn nm ow => t_filter a (fun n r => negb (String.eqb n nm && String.eqb (r_owner r) ow))
  | RemoveByName nm => t_filter a (fun n _ => negb (String.eqb n nm))
  | Rename f t => t_rename a f t
  end.

(** A channel has just become empty. *)
Definition t_emptied (a a' : table) nm : Prop := a nm <> [] /\ a' nm = [].

Definition answer_ok (a a' : table) (o : op) (ans : answer) : Prop :=
  match o, ans with
  | Subscribe nm _ _ _ _, AFlag first => first = true <-> a nm = []
  | RemoveByOwner _, ANames l | RemoveByIds _, ANames l => forall nm, nm ∈ l <-> t_emptied a a' nm
  | RemoveByOwnerOn nm _, AFlag b => b = true <-> t_emptied a a' nm
  | RemoveByName _, AUnit | Rename _ _, AUnit => True
  | _, _ => False
  end.

(** ** The representation relation *)
Definition subs_of c nm : list (Subscription (Z * H)) :=
  match by_name c !! nm with Some d => subs d | None => [] end.

Definition row_ok (idm : gmap Z (string * Z * string)) nm (s : Subscription (Z * H)) (r : row H) : Prop :=
  idm !! r_id r = Some (nm, s_id s, s_owner s) /\ r_owner r = s_owner s /\
  s_handler s = (r_generation r, r_handler r) /\
  s_priority s = Normal /\ s_phase s = Pre /\ s_enabled s = true.

Record represents c (a : table) : Prop := {
  rep_desc : forall nm d, by_name c !! nm = Some d -> Multiplexer.wf d /\ subs d <> [];
  rep_rows : forall nm, Forall2 (row_ok (ids c) nm) (subs_of c nm) (a nm);
  rep_ids : forall id nm sid o, ids c !! id = Some (nm, sid, o) -> exists r, r ∈ a nm /\ r_id r = id;
}.

(** What an operation needs: a fresh caller id, and room in the channel's 64-bit id counter. *)
Definition next_of c nm : Z := match by_name c !! nm with Some d => Multiplexer.next_id d | None => 1 end.
Definition op_ok c (o : op) : Prop :=
  match o with
  | Subscribe nm id _ _ _ => ids c !! id = None /\ next_of c nm < u64_max
  | Rename f t => next_of c t + Z.of_nat (length (subs_of c f)) <= u64_max
  | _ => True
  end.
Lemma ch_represents_ext c a a' : (forall n, a n = a' n) -> represents c a -> represents c a'.
Proof.
  intros Ha [H1 H2 H3]. split; [done|..].
  - intros nm. rewrite <- Ha. apply H2.
  - intros id nm sid o E. rewrite <- Ha. by eapply H3.
Qed.

#[export] Instance represents_proper : Proper (eq ==> pointwise_relation _ eq ==> iff) represents.
Proof. intros c ? <- a a' Ha. split; apply ch_represents_ext; intros n; by rewrite Ha. Qed.

(** ** What the multiplexer does to a channel's descriptor *)
Definition plain (s : Subscription (Z * H)) : Prop :=
  s_priority s = Normal /\ s_phase s = Pre /\ s_enabled s = true.

Lemma ch_count (d : desc) : Multiplexer.wf d -> Forall plain (subs d) -> enabled_count d = Z.of_nat (length (subs d)).
Proof.
  intros Hwf Hp. rewrite (wf_count _ Hwf). unfold countb. rewrite filterb_true; [done|].
  rewrite Forall_forall in Hp. intros s Hs. by apply Hp.
Qed.

Lemma ch_count_0 (d : desc) : Multiplexer.wf d -> Forall plain (subs d) -> enabled_count d =? 0 = bool_decide (subs d = []).
Proof.
  intros Hwf Hp. rewrite ch_count by done. destruct (subs d); [done|].
  rewrite bool_decide_false by done. apply Z.eqb_neq. simpl. lia.
Qed.

Lemma ch_desc_subscribe vs (d : desc) ow h :
  Multiplexer.wf d -> Forall plain (subs d) -> next_id d < u64_max ->
  let r := Multiplexer.subscribe vs d Normal Pre ow h in
  subs r.1.2 = subs d ++ [mkSub (next_id d) Normal Pre ow h true 0] /\
  Multiplexer.wf r.1.2 /\ next_id r.1.2 = next_id d + 1 /\ r.2.1 = next_id d.
Proof.
  intros Hwf Hp Hn. destruct (mux_subscribe_subs vs d Normal Pre ow h Hwf) as (l1 & l2 & E & E' & _ & H2).
  assert (l2 = []) as ->.
  { destruct l2 as [|s l2]; [done|]. exfalso. specialize (H2 s ltac:(in_list)).
    rewrite Forall_forall in Hp. destruct (Hp s) as [Hs _]; [rewrite E; in_list|]. rewrite Hs in H2. lia. }
  rewrite app_nil_r in E. subst l1. split; [done|]. split; [by apply mux_subscribe_wf|].
  pose proof (wf_next _ Hwf). split; [|done]. simpl. rewrite u64_succ_small; lia.
Qed.

Lemma ch_desc_remove_owner vs (d : desc) ow :
  Multiplexer.wf d ->
  let r := Multiplexer.remove_by_owner vs d ow in
  subs r.1.2 = filterb (fun s => negb (String.eqb (s_owner s) ow)) (subs d) /\ Multiplexer.wf r.1.2.
Proof. intros Hwf. split; [done|]. by apply mux_remove_by_owner_wf. Qed.

Lemma ch_desc_unsubscribe vs (d : desc) id :
  Multiplexer.wf d ->
  let r := Multiplexer.unsubscribe vs d id in
  subs r.1.2 = filterb (fun s => negb (s_id s =? id)) (subs d) /\ Multiplexer.wf r.1.2.
Proof.
  intros Hwf. split; [|by apply mux_unsubscribe_wf]. by destruct (mux_unsubscribe_cases vs d id Hwf) as (_ & ? & _).
Qed.

(** The emptiness test of the three removal paths. *)
Lemma ch_emptied_test (d d' : desc) f :
  Multiplexer.wf d -> Multiplexer.wf d' -> Forall plain (subs d) -> subs d' = filterb f (subs d) ->
  ((0 <? enabled_count d) && (enabled_count d' =? 0)) = bool_decide (subs d <> [] /\ subs d' = []).
Proof.
  intros Hwf Hwf' Hp Hs. assert (Hp' : Forall plain (subs d')).
  { rewrite Hs. eapply Forall_sublist; [apply filterb_sublist|done]. }
  rewrite (ch_count_0 d') by done. rewrite ch_count by done.
  destruct (subs d) as [|x l] eqn:E; [done|].
  assert (0 <? Z.of_nat (length (x :: l)) = true) as -> by (apply Z.ltb_lt; simpl; lia).
  apply bool_decide_ext. split; [done|tauto].
Qed.

(** ** Consequences of the representation *)
Lemma ch_rows_plain c a nm : represents c a -> Forall plain (subs_of c nm).
Proof.
  intros [_ Hr _]. specialize (Hr nm). induction Hr as [|s r l k Hsr _ IH]; constructor; [|done].
  by destruct Hsr as (_ & _ & _ & ? & ? & ?).
Qed.

Lemma ch_desc_ok c a nm d :
  represents c a -> by_name c !! nm = Some d -> Multiplexer.wf d /\ Forall plain (subs d) /\ subs d <> [].
Proof.
  intros Hr E. destruct (rep_desc _ _ Hr nm d E) as [Hwf Hne]. pose proof (ch_rows_plain c a nm Hr) as Hp.
  unfold subs_of in Hp. by rewrite E in Hp.
Qed.

Lemma ch_row_sub c a nm r :
  represents c a -> r ∈ a nm -> exists s, s ∈ subs_of c nm /\ row_ok (ids c) nm s r.
Proof.
  intros [_ Hr _] Hin. specialize (Hr nm). apply list_elem_of_lookup in Hin as [i Hi].
  destruct (Forall2_lookup_r _ _ _ _ _ Hr Hi) as (s & Hs & Hok). exists s. split; [|done].
  by eapply list_elem_of_lookup_2.
Qed.

Lemma ch_sub_row c a nm s :
  represents c a -> s ∈ subs_of c nm -> exists r, r ∈ a nm /\ row_ok (ids c) nm s r.
Proof.
  intros [_ Hr _] Hin. specialize (Hr nm). apply list_elem_of_lookup in Hin as [i Hi].
  destruct (Forall2_lookup_l _ _ _ _ _ Hr Hi) as (r & Hs & Hok). exists r. split; [|done].
  by eapply list_elem_of_lookup_2.
Qed.

Lemma ch_row_name c a n1 n2 r1 r2 :
  represents c a -> r1 ∈ a n1 -> r2 ∈ a n2 -> r_id r1 = r_id r2 -> n1 = n2.
Proof.
  intros Hr H1 H2 E. destruct (ch_row_sub c a n1 r1 Hr H1) as (s1 & _ & Hs1 & _).
  destruct (ch_row_sub c a n2 r2 Hr H2) as (s2 & _ & Hs2 & _). rewrite E in Hs1. congruence.
Qed.

Lemma ch_rows_nil c a nm : represents c a -> a nm = [] <-> subs_of c nm = [].
Proof.
  intros [_ Hr _]. specialize (Hr nm). by destruct Hr.
Qed.

Lemma ch_id_row c a nm id sid o s :
  represents c a -> ids c !! id = Some (nm, sid, o) -> s ∈ subs_of c nm -> s_id s = sid ->
  exists r, r ∈ a nm /\ row_ok (ids c) nm s r /\ r_id r = id.
Proof.
  intros Hr Hid Hs Hsid. destruct (rep_ids _ _ Hr id nm sid o Hid) as (r & Hr1 & Hr2).
  destruct (ch_row_sub c a nm r Hr Hr1) as (s' & Hs' & Hok). exists r. split; [done|]. split; [|done].
  assert (s = s') as ->; [|done]. destruct Hok as (Hl & _). rewrite Hr2, Hid in Hl. injection Hl as El _.
  unfold subs_of in *. destruct (by_name c !! nm) as [d|] eqn:E; [|by apply elem_of_nil in Hs].
  destruct (rep_desc _ _ Hr nm d E) as [Hwf _]. pose proof (wf_ids _ Hwf) as Hnd.
  apply list_elem_of_lookup in Hs as [i Hi], Hs' as [j Hj].
  assert (i = j) as ->; [|congruence].
  eapply NoDup_lookup; [done|..]; rewrite list_lookup_fmap_Some.
  - by exists s.
  - exists s'. split; [|done]. congruence.
Qed.

Lemma ch_Forall2_filterb {A B} (R R' : A -> B -> Prop) f g (l : list A) (k : list B) :
  Forall2 R l k -> (forall x y, x ∈ l -> y ∈ k -> R x y -> f x = g y /\ (f x = true -> R' x y)) ->
  Forall2 R' (filterb f l) (filterb g k).
Proof.
  induction 1 as [|x y l k Hxy _ IH]; intros Hfg; simpl; [constructor|].
  destruct (Hfg x y) as [E HR]; [in_list|in_list|done|]. rewrite <- E.
  assert (Forall2 R' (filterb f l) (filterb g k)) by (apply IH; intros; apply Hfg; in_list).
  destruct (f x); [constructor; auto|done].
Qed.

(** Every removal path is a filter: if the descriptors are filtered by [f], the rows by [keep], and
    the id index keeps exactly the ids of kept rows, the filtered table is represented. *)
Lemma ch_filter_represents c c' a f keep :
  represents c a ->
  (forall nm d, by_name c' !! nm = Some d -> Multiplexer.wf d /\ subs d <> []) ->
  (forall nm, subs_of c' nm = filterb (f nm) (subs_of c nm)) ->
  (forall nm s r, s ∈ subs_of c nm -> r ∈ a nm -> row_ok (ids c) nm s r ->
     f nm s = keep nm r /\ (f nm s = true -> ids c' !! r_id r = ids c !! r_id r)) ->
  (forall id nm sid o r, ids c' !! id = Some (nm, sid, o) -> r ∈ a nm -> r_id r = id ->
     ids c !! id = Some (nm, sid, o) -> keep nm r = true) ->
  (forall id e, ids c' !! id = Some e -> ids c !! id = Some e) ->
  represents c' (t_filter a keep).
Proof.
  intros Hr Hd Hs Hf Hi Hsub. split; [done|..].
  - intros nm. rewrite Hs. unfold t_filter. eapply ch_Forall2_filterb; [apply (rep_rows _ _ Hr)|].
    intros s r Hin1 Hin2 Hok. destruct (Hf nm s r Hin1 Hin2 Hok) as [E Hl]. split; [done|].
    intros Hft. destruct Hok as (Hid & Hrest). split; [|done]. by rewrite Hl.
  - intros id nm sid o Hid. destruct (rep_ids _ _ Hr id nm sid o (Hsub _ _ Hid)) as (r & Hin & Er).
    exists r. split; [|done]. unfold t_filter. rewrite elem_of_filterb. split; [|done].
    by eapply Hi; eauto.
Qed.
(** ** Subscription *)
Lemma ch_subs_insert c nm (d : desc) v idm n :
  subs_of {| by_name := <[nm := d]> (by_name c); ids := idm; version := v |} n =
  if String.eqb n nm then subs d else subs_of c n.
Proof.
  unfold subs_of; simpl. destruct (String.eqb_spec n nm) as [->|Hn].
  - by rewrite lookup_insert_eq.
  - by rewrite lookup_insert_ne.
Qed.

Lemma ch_subs_delete c nm v idm n :
  subs_of {| by_name := delete nm (by_name c); ids := idm; version := v |} n =
  if String.eqb n nm then [] else subs_of c n.
Proof.
  unfold subs_of; simpl. destruct (String.eqb_spec n nm) as [->|Hn].
  - by rewrite lookup_delete_eq.
  - by rewrite lookup_delete_ne.
Qed.

(** The [entry(name).or_insert_with(..)] of [subscribe] and [rename]. *)
Lemma ch_entry c a vs nm :
  represents c a ->
  let d := match by_name c !! nm with Some d => (vs, d) | None => Multiplexer.new vs nm end in
  Multiplexer.wf d.2 /\ Forall plain (subs d.2) /\ subs d.2 = subs_of c nm /\ next_id d.2 = next_of c nm.
Proof.
  intros Hr. unfold subs_of, next_of. destruct (by_name c !! nm) as [d|] eqn:E; simpl.
  - destruct (ch_desc_ok c a nm d Hr E) as (? & ? & _). done.
  - split; [apply mux_new_wf|]. by repeat split; try constructor.
Qed.

Lemma ch_row_ok_fresh idm id e nm s r :
  idm !! id = None -> row_ok idm nm s r -> row_ok (<[id := e]> idm) nm s r.
Proof.
  intros Hid [Hl Hok]. split; [|done]. rewrite lookup_insert_ne; [done|]. intros ->. by rewrite Hid in Hl.
Qed.

Lemma ch_subscribe vs c a nm id ow g h :
  represents c a -> ids c !! id = None -> next_of c nm < u64_max ->
  let r := subscribe vs c nm id ow g h in
  represents r.1.2 (t_subscribe a nm (mkRow id ow g h)) /\ (r.2 = true <-> a nm = []).
Proof.
  intros Hr Hid Hn. pose proof (ch_entry c a (next_version vs).1 nm Hr) as He. unfold subscribe.
  cbn [next_version fst snd] in *.
  destruct (match by_name c !! nm with Some d => (u64_succ vs, d) | None => Multiplexer.new (u64_succ vs) nm end)
    as [vs2 d] eqn:Ed. cbn [fst snd] in *. destruct He as (Hwf & Hp & Hs & Hnx).
  destruct (ch_desc_subscribe vs2 d ow (g, h) Hwf Hp ltac:(lia)) as (Hs' & Hwf' & _ & Hid').
  destruct (Multiplexer.subscribe vs2 d Normal Pre ow (g, h)) as [[vs3 d'] [sid ch]]. cbn [fst snd] in *.
  split; [split; simpl|].
  - intros n d0. destruct (decide (n = nm)) as [->|Hne].
    + rewrite lookup_insert_eq. intros [= <-]. rewrite Hs'. split; [done|]. by destruct (subs d).
    + rewrite lookup_insert_ne by done. apply (rep_desc _ _ Hr).
  - intros n. rewrite ch_subs_insert. unfold t_subscribe. destruct (String.eqb_spec n nm) as [->|Hne].
    + rewrite Hs', Hs. apply Forall2_app.
      * eapply Forall2_impl; [apply (rep_rows _ _ Hr)|]. intros. by apply ch_row_ok_fresh.
      * repeat constructor; simpl; try done. rewrite lookup_insert_eq. by subst.
    + eapply Forall2_impl; [apply (rep_rows _ _ Hr)|]. intros. by apply ch_row_ok_fresh.
  - intros id0 nm0 sid0 o0. unfold t_subscribe. destruct (decide (id0 = id)) as [->|Hne].
    + rewrite lookup_insert_eq. intros [= <- <- <-]. exists (mkRow id ow g h). rewrite String.eqb_refl.
      split; [in_list|done].
    + rewrite lookup_insert_ne by done. intros E. destruct (rep_ids _ _ Hr id0 _ _ _ E) as (r & Hin & Er).
      exists r. split; [|done]. destruct (String.eqb nm0 nm); in_list.
  - rewrite ch_count_0 by done. rewrite (ch_rows_nil c a nm Hr), Hs. apply bool_decide_eq_true.
Qed.

(** ** The filter removals *)
Lemma ch_remove_owner_loop vs l ow :
  let r := remove_owner_loop vs l ow in
  Forall2 (fun x y => y.1 = x.1 /\ exists vs', y.2 = (Multiplexer.remove_by_owner vs' x.2 ow).1.2) l r.1.2 /\
  forall n, n ∈ r.2 <-> exists d d', (n, d) ∈ l /\ (exists vs', d' = (Multiplexer.remove_by_owner vs' d ow).1.2) /\
     (0 <? enabled_count d) && (enabled_count d' =? 0) = true.
Proof.
  revert vs. induction l as [|[nm d] l IH]; intros vs; [split; [constructor|]|].
  { intros n. split; [intros []%elem_of_nil|intros (? & ? & []%elem_of_nil & _)]. }
  cbn [remove_owner_loop]. destruct (Multiplexer.remove_by_owner vs d ow) as [[vs1 d1] c1] eqn:E1.
  specialize (IH vs1). destruct (remove_owner_loop vs1 l ow) as [[vs2 l2] em]. cbn [fst snd] in *.
  destruct IH as [IH1 IH2]. split.
  { constructor; [|done]. cbn [fst snd]. split; [done|]. exists vs. by rewrite E1. }
  assert (Hd1 : forall vs', enabled_count (Multiplexer.remove_by_owner vs' d ow).1.2 = enabled_count d1).
  { intros vs'. apply (f_equal (fun r => enabled_count r.1.2)) in E1. simpl in *. done. }
  intros n. assert (Htest : n ∈ (if (0 <? enabled_count d) && (enabled_count d1 =? 0) then nm :: em else em) <->
    ((0 <? enabled_count d) && (enabled_count d1 =? 0) = true /\ n = nm) \/ n ∈ em).
  { destruct ((0 <? enabled_count d) && (enabled_count d1 =? 0)); rewrite ?elem_of_cons; intuition congruence. }
  rewrite Htest, IH2. split.
  - intros [[Ht ->]|(d0 & d' & Hin & Hr & Ht)].
    + exists d, d1. split; [in_list|]. split; [|done]. exists vs. by rewrite E1.
    + exists d0, d'. split; [in_list|]. done.
  - intros (d0 & d' & [[= -> ->]|Hin]%elem_of_cons & (vs' & ->) & Ht).
    + left. rewrite Hd1 in Ht. done.
    + right. exists d0. eexists. split; [done|]. split; [by exists vs'|done].
Qed.

Lemma ch_remove_names_lookup (m : gmap string desc) names n :
  remove_names m names !! n = if bool_decide (n ∈ names) then None else m !! n.
Proof.
  unfold remove_names. revert m. induction names as [|x names IH]; intros m; simpl; [done|].
  rewrite IH. destruct (decide (n = x)) as [->|Hne].
  - rewrite lookup_delete_eq. rewrite (bool_decide_true (x ∈ x :: names)) by in_list. by case_bool_decide.
  - rewrite lookup_delete_ne by done. erewrite bool_decide_ext; [done|]. in_list.
Qed.
Lemma ch_owner_map vs (m : gmap string desc) ow n :
  let l' := (remove_owner_loop vs (map_to_list m) ow).1.2 in
  match m !! n with
  | Some d => exists vs', (list_to_map l' : gmap string desc) !! n = Some (Multiplexer.remove_by_owner vs' d ow).1.2
  | None => (list_to_map l' : gmap string desc) !! n = None
  end.
Proof.
  intros l'. destruct (ch_remove_owner_loop vs (map_to_list m) ow) as [Hl _]. fold l' in Hl.
  assert (Hk : l'.*1 = (map_to_list m).*1).
  { clearbody l'. induction Hl as [|x y l k [Hxy _] _ IH]; csimpl; [done|]. by rewrite Hxy, IH. }
  assert (Hnd : NoDup l'.*1) by (rewrite Hk; apply NoDup_fst_map_to_list).
  destruct (m !! n) as [d|] eqn:E.
  - apply elem_of_map_to_list, list_elem_of_lookup in E as [i Hi].
    destruct (Forall2_lookup_l _ _ _ _ _ Hl Hi) as ([n' d'] & Hi' & En & vs' & Ed). simpl in En, Ed.
    exists vs'. apply elem_of_list_to_map_1; [done|]. subst. by eapply list_elem_of_lookup_2.
  - apply not_elem_of_list_to_map_1. rewrite Hk. intros ([n' d] & -> & Hin)%list_elem_of_fmap.
    apply elem_of_map_to_list in Hin. simpl in E. congruence.
Qed.

Lemma ch_emptied_of_rep c c' a a' nm :
  represents c a -> represents c' a' -> t_emptied a a' nm <-> subs_of c nm <> [] /\ subs_of c' nm = [].
Proof. intros Hr Hr'. unfold t_emptied. by rewrite (ch_rows_nil c a nm Hr), (ch_rows_nil c' a' nm Hr'). Qed.

Lemma ch_remove_by_owner vs c a ow :
  represents c a ->
  let r := remove_by_owner vs c ow in
  let a' := t_filter a (fun _ r => negb (String.eqb (r_owner r) ow)) in
  represents r.1.2 a' /\ forall nm, nm ∈ r.2 <-> t_emptied a a' nm.
Proof.
  intros Hr. unfold remove_by_owner. cbn [next_version].
  pose proof (ch_remove_owner_loop (u64_succ vs) (map_to_list (by_name c)) ow) as [_ Hem].
  pose proof (ch_owner_map (u64_succ vs) (by_name c) ow) as Hm.
  destruct (remove_owner_loop (u64_succ vs) (map_to_list (by_name c)) ow) as [[vs2 l] em]. cbn [fst snd] in *.
  set (c' := mkChannels _ _ _).
  assert (Hin : forall nm, nm ∈ em <-> subs_of c nm <> [] /\ filterb (fun s => negb (String.eqb (s_owner s) ow)) (subs_of c nm) = []).
  { intros nm. rewrite Hem. unfold subs_of. setoid_rewrite elem_of_map_to_list. split.
    - intros (d & d' & E & (vs' & ->) & Ht). rewrite E. destruct (ch_desc_ok c a nm d Hr E) as (Hwf & Hp & _).
      destruct (ch_desc_remove_owner vs' d ow Hwf) as [Hs Hwf'].
      rewrite (ch_emptied_test _ _ _ Hwf Hwf' Hp Hs), bool_decide_eq_true in Ht. by rewrite Hs in Ht.
    - destruct (by_name c !! nm) as [d|] eqn:E; [|by intros []]. intros Ht.
      destruct (ch_desc_ok c a nm d Hr E) as (Hwf & Hp & _).
      destruct (ch_desc_remove_owner vs d ow Hwf) as [Hs Hwf'].
      exists d, (Multiplexer.remove_by_owner vs d ow).1.2. split; [done|]. split; [by exists vs|].
      by rewrite (ch_emptied_test _ _ _ Hwf Hwf' Hp Hs), bool_decide_eq_true, Hs. }
  assert (Hsubs : forall nm, subs_of c' nm = filterb (fun s => negb (String.eqb (s_owner s) ow)) (subs_of c nm)).
  { intros nm. unfold subs_of at 1. simpl. rewrite ch_remove_names_lookup. case_bool_decide as Hb.
    - by apply Hin in Hb as [_ ->].
    - specialize (Hm nm). unfold subs_of. destruct (by_name c !! nm) as [d|]; [|by rewrite Hm].
      destruct Hm as [vs' ->]. done. }
  assert (Hr' : represents c' (t_filter a (fun _ r => negb (String.eqb (r_owner r) ow)))).
  { eapply ch_filter_represents with (f := fun _ s => negb (String.eqb (s_owner s) ow)); [done|..].
    - intros nm d Hd. simpl in Hd. rewrite ch_remove_names_lookup in Hd. case_bool_decide as Hb; [done|].
      specialize (Hm nm). destruct (by_name c !! nm) as [d0|] eqn:E; [|by rewrite Hm in Hd].
      destruct Hm as [vs' Hm]. rewrite Hm in Hd. injection Hd as <-.
      destruct (ch_desc_ok c a nm d0 Hr E) as (Hwf & Hp & Hne).
      destruct (ch_desc_remove_owner vs' d0 ow Hwf) as [Hs Hwf']. split; [exact Hwf'|]. intros Hnil.
      apply Hb, Hin. unfold subs_of. rewrite E. split; [exact Hne|exact Hnil].
    - done.
    - intros nm s r Hs Hrow (Hid & How & _). rewrite How. split; [done|]. intros Hf. simpl.
      rewrite Hid. apply map_lookup_filter_Some. split; [done|]. simpl. by destruct (String.eqb_spec (s_owner s) ow).
    - intros id nm sid o r Hid Hrow Er Hid'. simpl in Hid. apply map_lookup_filter_Some in Hid as [_ Ho]. simpl in Ho.
      destruct (ch_row_sub c a nm r Hr Hrow) as (s & _ & Hl & How & _). rewrite Er, Hid' in Hl.
      injection Hl as -> ->. rewrite How. by destruct (String.eqb_spec (s_owner s) ow).
    - intros id e He. simpl in He. by apply map_lookup_filter_Some in He as [? _]. }
  split; [done|]. intros nm. rewrite (ch_emptied_of_rep c c' a _ nm Hr Hr'), Hsubs. apply Hin.
Qed.
(** Updating one channel's descriptor, dropping the channel when that empties it. *)
Lemma ch_put c a nm (d d' : desc) f idm v :
  represents c a -> by_name c !! nm = Some d -> Multiplexer.wf d' -> subs d' = filterb f (subs d) ->
  let t := (0 <? enabled_count d) && (enabled_count d' =? 0) in
  let c' := mkChannels (if t then delete nm (<[nm := d']> (by_name c)) else <[nm := d']> (by_name c)) idm v in
  (forall n d0, by_name c' !! n = Some d0 -> Multiplexer.wf d0 /\ subs d0 <> []) /\
  (forall n, subs_of c' n = filterb (fun s => negb (String.eqb n nm) || f s) (subs_of c n)) /\
  (t = true <-> subs_of c nm <> [] /\ subs_of c' nm = []).
Proof.
  intros Hr E Hwf' Hs t c'. destruct (ch_desc_ok c a nm d Hr E) as (Hwf & Hp & Hne).
  assert (Ht : t = bool_decide (subs d <> [] /\ subs d' = [])) by by apply ch_emptied_test with f.
  assert (Hl : forall n, by_name c' !! n = if String.eqb n nm then (if t then None else Some d') else by_name c !! n).
  { intros n. unfold c'; simpl. destruct (String.eqb_spec n nm) as [->|Hn]; destruct t;
      by rewrite ?lookup_delete_eq, ?lookup_delete_ne, ?lookup_insert_eq, ?lookup_insert_ne by done. }
  assert (Hsub : forall n, subs_of c' n = filterb (fun s => negb (String.eqb n nm) || f s) (subs_of c n)).
  { intros n. unfold subs_of. rewrite Hl. destruct (String.eqb_spec n nm) as [->|Hn]; simpl.
    - rewrite E. destruct t; [|exact Hs]. symmetry in Ht. apply bool_decide_eq_true in Ht as [_ Ht].
      transitivity (subs d'); [by rewrite Ht|exact Hs].
    - by rewrite filterb_true. }
  split; [|split; [done|]].
  - intros n d0. rewrite Hl. destruct (String.eqb n nm); [|apply (rep_desc _ _ Hr)].
    destruct t; [done|]. intros [= <-]. split; [done|]. symmetry in Ht. apply bool_decide_eq_false in Ht. tauto.
  - rewrite Ht, bool_decide_eq_true, Hsub, String.eqb_refl, Hs. unfold subs_of. by rewrite E.
Qed.

Lemma ch_remove_by_owner_on vs c a nm ow :
  represents c a ->
  let r := remove_by_owner_on vs c nm ow in
  let a' := t_filter a (fun n r => negb (String.eqb n nm && String.eqb (r_owner r) ow)) in
  represents r.1.2 a' /\ (r.2 = true <-> t_emptied a a' nm).
Proof.
  intros Hr. unfold remove_by_owner_on. cbn [next_version]. destruct (by_name c !! nm) as [d|] eqn:E.
  - destruct (ch_desc_ok c a nm d Hr E) as (Hwf & Hp & Hne).
    destruct (ch_desc_remove_owner (u64_succ vs) d ow Hwf) as [Hs Hwf'].
    destruct (Multiplexer.remove_by_owner (u64_succ vs) d ow) as [[vs2 d'] ch]. cbn [fst snd] in *.
    set (idm := filter _ _). pose proof (ch_put c a nm d d' _ idm (u64_succ vs) Hr E Hwf' Hs) as (Hd & Hsub & Ht).
    set (c' := mkChannels _ _ _) in *.
    assert (Hr' : represents c' (t_filter a (fun n r => negb (String.eqb n nm && String.eqb (r_owner r) ow)))).
    { eapply ch_filter_represents; [done|exact Hd|exact Hsub|..].
      - intros n s r Hin Hrow (Hid & How & _). rewrite How, negb_andb. split; [done|]. intros Hf. simpl.
        unfold idm. rewrite Hid. apply map_lookup_filter_Some. split; [done|]. simpl.
        destruct (String.eqb_spec n nm), (String.eqb_spec (s_owner s) ow); simpl in *; tauto || discriminate.
      - intros id n sid o r Hid Hrow Er Hid'. simpl in Hid. apply map_lookup_filter_Some in Hid as [_ Ho]. simpl in Ho.
        destruct (ch_row_sub c a n r Hr Hrow) as (s & _ & Hl & How & _). rewrite Er, Hid' in Hl.
        injection Hl as -> ->. rewrite How. destruct (String.eqb_spec n nm), (String.eqb_spec (s_owner s) ow); tauto.
      - intros id e He. simpl in He. by apply map_lookup_filter_Some in He as [? _]. }
    split; [done|]. by rewrite (ch_emptied_of_rep c c' a _ nm Hr Hr').
  - assert (Hnil : a nm = []) by (apply (ch_rows_nil c a nm Hr); unfold subs_of; by rewrite E).
    cbn [fst snd]. split; [|unfold t_emptied; split; [done|tauto]].
    eapply ch_represents_ext; [|destruct Hr as [? ? ?]; split; eassumption].
    intros n. unfold t_filter. destruct (String.eqb_spec n nm) as [->|]; simpl; [by rewrite Hnil|by rewrite filterb_true].
Qed.

Lemma ch_remove_by_name vs c a nm :
  represents c a ->
  represents (remove_by_name vs c nm).2 (t_filter a (fun n _ => negb (String.eqb n nm))).
Proof.
  intros Hr. unfold remove_by_name. cbn [next_version fst snd].
  eapply ch_filter_represents with (f := fun n _ => negb (String.eqb n nm)); [done|..]; simpl.
  - intros n d [_ Hl]%lookup_delete_Some. by apply (rep_desc _ _ Hr n).
  - intros n. rewrite ch_subs_delete. destruct (String.eqb n nm); simpl.
    + symmetry. by apply filterb_nil_iff.
    + by rewrite filterb_true.
  - intros n s r _ _ (Hid & _). split; [done|]. intros Hf. rewrite Hid. apply map_lookup_filter_Some.
    split; [done|]. simpl. by destruct (String.eqb_spec n nm).
  - intros id n sid o r Hid _ _ _. apply map_lookup_filter_Some in Hid as [_ Ho]. simpl in Ho.
    by destruct (String.eqb_spec n nm).
  - intros id e He. by apply map_lookup_filter_Some in He as [? _].
Qed.

Lemma ch_row_unique c a nm s r r' :
  represents c a -> r ∈ a nm -> r' ∈ a nm -> row_ok (ids c) nm s r -> row_ok (ids c) nm s r' -> r = r'.
Proof.
  intros Hr Hin Hin' (Hl & _) (Hl' & _). pose proof (rep_rows _ _ Hr nm) as Hrows.
  apply list_elem_of_lookup in Hin as [i Hi], Hin' as [j Hj].
  destruct (Forall2_lookup_r _ _ _ _ _ Hrows Hi) as (si & Hsi & (Hli & _)).
  destruct (Forall2_lookup_r _ _ _ _ _ Hrows Hj) as (sj & Hsj & (Hlj & _)).
  rewrite Hl in Hli. rewrite Hl' in Hlj. injection Hli as Ei _. injection Hlj as Ej _.
  assert (i = j) as ->; [|congruence]. unfold subs_of in *.
  destruct (by_name c !! nm) as [d|] eqn:E; [|done]. destruct (rep_desc _ _ Hr nm d E) as [Hwf _].
  eapply (NoDup_lookup _ _ _ _ (wf_ids _ Hwf)); rewrite list_lookup_fmap_Some; [by exists si|].
  exists sj. split; [congruence|done].
Qed.

(** One id of [remove_by_ids]. *)
Definition drop_id (a : table) (id : Z) : table := t_filter a (fun _ r => negb (r_id r =? id)).

Lemma ch_drop_id vs c a id nm sid o d :
  represents c a -> ids c !! id = Some (nm, sid, o) -> by_name c !! nm = Some d ->
  let d' := (Multiplexer.unsubscribe vs d sid).1.2 in
  let t := (0 <? enabled_count d) && (enabled_count d' =? 0) in
  let c' := mkChannels (if t then delete nm (<[nm := d']> (by_name c)) else <[nm := d']> (by_name c))
              (delete id (ids c)) (version c) in
  represents c' (drop_id a id) /\ forall n, t_emptied a (drop_id a id) n <-> t = true /\ n = nm.
Proof.
  intros Hr Hid E d' t c'. destruct (ch_desc_ok c a nm d Hr E) as (Hwf & Hp & Hne).
  destruct (ch_desc_unsubscribe vs d sid Hwf) as [Hs Hwf']. fold d' in Hs, Hwf'.
  destruct (ch_put c a nm d d' _ (delete id (ids c)) (version c) Hr E Hwf' Hs) as (Hd & Hsub & Ht). fold t c' in Hd, Hsub, Ht.
  assert (Hr' : represents c' (drop_id a id)).
  { eapply ch_filter_represents; [done|exact Hd|exact Hsub|..].
    - intros n s r Hin Hrow Hok. assert (Hkey : r_id r = id <-> n = nm /\ s_id s = sid).
      { split.
        - intros Er. destruct Hok as (Hl & _). rewrite Er, Hid in Hl. by injection Hl as -> -> _.
        - intros [-> Es]. destruct (ch_id_row c a nm id sid o s Hr Hid Hin Es) as (r' & Hrow' & Hok' & <-).
          by rewrite (ch_row_unique c a nm s r r' Hr Hrow Hrow' Hok Hok'). }
      split; [|intros Hf].
      + destruct (Z.eqb_spec (r_id r) id) as [Er|Er]; simpl.
        * apply Hkey in Er as [-> ->]. by rewrite String.eqb_refl, Z.eqb_refl.
        * destruct (String.eqb_spec n nm) as [->|]; [|done]. simpl. apply negb_true_iff, Z.eqb_neq. tauto.
      + simpl. rewrite lookup_delete_ne; [done|]. intros Er. symmetry in Er. apply Hkey in Er as [En Es].
        by rewrite En, Es, String.eqb_refl, Z.eqb_refl in Hf.
    - intros id0 n sid0 o0 r Hl _ Er _. simpl in Hl. apply lookup_delete_Some in Hl as [Hne0 _].
      apply negb_true_iff, Z.eqb_neq. congruence.
    - intros id0 e He. simpl in He. by apply lookup_delete_Some in He as [_ ?]. }
  split; [done|]. intros n. rewrite (ch_emptied_of_rep c c' a _ n Hr Hr'). split.
  - intros [H1 H2]. destruct (decide (n = nm)) as [->|Hn]; [split; [by apply Ht|done]|].
    exfalso. apply H1. rewrite Hsub in H2. rewrite filterb_true in H2; [done|]. intros s _.
    by destruct (String.eqb_spec n nm).
  - intros [Htt ->]. by apply Ht.
Qed.
Lemma ch_remove_ids_loop vs c a idl :
  represents c a ->
  let r := remove_ids_loop vs c idl in
  let a' := t_filter a (fun _ r => negb (bool_decide (r_id r ∈ idl))) in
  represents r.1.2 a' /\ forall nm, nm ∈ r.2 <-> t_emptied a a' nm.
Proof.
  revert vs c a. induction idl as [|id idl IH]; intros vs c a Hr; cbn [remove_ids_loop].
  { assert (Ha : forall n, a n = t_filter a (fun _ r => negb (bool_decide (r_id r ∈ []))) n).
    { intros n. unfold t_filter. symmetry. by apply filterb_true. }
    split; [by apply (ch_represents_ext _ _ _ Ha)|]. intros nm. unfold t_emptied. rewrite <- Ha.
    split; [intros []%elem_of_nil|tauto]. }
  set (a' := t_filter a (fun _ r => negb (bool_decide (r_id r ∈ id :: idl)))).
  assert (Hcomp : forall n, t_filter (drop_id a id) (fun _ r => negb (bool_decide (r_id r ∈ idl))) n = a' n).
  { intros n. unfold a', drop_id, t_filter. rewrite filterb_filterb. apply filterb_ext. intros r _.
    destruct (Z.eqb_spec (r_id r) id) as [->|Hne]; simpl.
    - by rewrite (bool_decide_true (id ∈ id :: idl)) by in_list.
    - f_equal. apply bool_decide_ext. in_list. }
  (* once [id] is dropped, the rest of the loop is the induction hypothesis *)
  assert (Hgo : forall vs1 c1, represents c1 (drop_id a id) ->
      let r := remove_ids_loop vs1 c1 idl in
      represents r.1.2 a' /\ forall nm, (nm ∈ r.2 \/ t_emptied a (drop_id a id) nm) <-> t_emptied a a' nm).
  { intros vs1 c1 Hr1. destruct (IH vs1 c1 (drop_id a id) Hr1) as [H1 H2].
    split; [by apply (ch_represents_ext _ _ _ Hcomp)|]. intros nm. rewrite H2. unfold t_emptied. rewrite Hcomp.
    assert (Hmono : a nm = [] -> drop_id a id nm = []) by (intros Hn; unfold drop_id, t_filter; by rewrite Hn).
    assert (Hmono' : drop_id a id nm = [] -> a' nm = []) by (intros Hn; rewrite <- Hcomp; unfold t_filter at 1; by rewrite Hn).
    destruct (drop_id a id nm) as [|x l]; [tauto|].
    split; [intros [[_ ?]|[? ?]]; split; [intros Hn; by specialize (Hmono Hn)|done..]|intros [? ?]; by left]. }
  destruct (ids c !! id) as [[[nm sid] o]|] eqn:Hid.
  - destruct (rep_ids _ _ Hr id nm sid o Hid) as (r0 & Hr0 & _).
    destruct (ch_row_sub c a nm r0 Hr Hr0) as (s0 & Hs0 & _). unfold subs_of in Hs0.
    destruct (by_name c !! nm) as [d|] eqn:E; [|by apply elem_of_nil in Hs0].
    pose proof (ch_drop_id vs c a id nm sid o d Hr Hid E) as [Hr1 Hem].
    destruct (Multiplexer.unsubscribe vs d sid) as [[vs1 d'] ch]. cbn [fst snd] in *.
    destruct ((0 <? enabled_count d) && (enabled_count d' =? 0)).
    + destruct (Hgo vs1 _ Hr1) as [H1 H2]. destruct (remove_ids_loop _ _ _) as [[vs2 c2] em]. cbn [fst snd] in *.
      split; [done|]. intros n. rewrite <- H2, Hem, elem_of_cons. tauto.
    + destruct (Hgo vs1 _ Hr1) as [H1 H2]. split; [done|]. intros n. rewrite <- H2, Hem. intuition discriminate.
  - assert (Hsame : forall n, drop_id a id n = a n).
    { intros n. apply filterb_true. intros r Hr1. apply negb_true_iff, Z.eqb_neq. intros Er.
      destruct (ch_row_sub c a n r Hr Hr1) as (s & _ & Hl & _). by rewrite Er, Hid in Hl. }
    destruct (Hgo vs c) as [H1 H2]; [by apply (ch_represents_ext _ a)|]. split; [done|].
    intros n. rewrite <- H2. unfold t_emptied at 1. rewrite Hsame. tauto.
Qed.

(** ** Renaming *)

Lemma Forall2_and_mem {A B} (R : A -> B -> Prop) l k :
  Forall2 R l k -> Forall2 (fun x y => x ∈ l /\ R x y) l k.
Proof.
  induction 1 as [|x y l k Hxy _ IH]; constructor; [split; [in_list|done]|].
  eapply Forall2_impl; [exact IH|]. intros x' y' [? ?]. split; [in_list|done].
Qed.


(** The subscriptions [move_loop] appends, and the id pairs it records. *)
Fixpoint moved (n : Z) (l : list (Subscription (Z * H))) : list (Subscription (Z * H)) :=
  match l with
  | [] => []
  | s :: rest => mkSub n Normal Pre (s_owner s) (s_handler s) true 0 :: moved (n + 1) rest
  end.
Fixpoint moved_ids (n : Z) (l : list (Subscription (Z * H))) : list (Z * Z) :=
  match l with [] => [] | s :: rest => (s_id s, n) :: moved_ids (n + 1) rest end.

Definition to_row (s : Subscription (Z * H)) : Z * Priority * string * (Z * H) :=
  (s_id s, s_priority s, s_owner s, s_handler s).

Lemma ch_move_loop vs (dest : desc) l remap :
  Multiplexer.wf dest -> Forall plain (subs dest) -> Forall plain l ->
  next_id dest + Z.of_nat (length l) <= u64_max ->
  let r := move_loop vs dest (to_row <$> l) remap in
  Multiplexer.wf r.1.2 /\ subs r.1.2 = subs dest ++ moved (next_id dest) l /\
  r.2 = remap ++ moved_ids (next_id dest) l.
Proof.
  revert vs dest remap. induction l as [|s l IH]; intros vs dest remap Hwf Hp Hl Hn.
  { simpl. by rewrite !app_nil_r. }
  rewrite fmap_cons. unfold to_row at 1. cbn [move_loop moved moved_ids].
  apply Forall_cons in Hl as [(Hpr & _) Hl]. rewrite Hpr. simpl in Hn.
  destruct (ch_desc_subscribe vs dest (s_owner s) (s_handler s) Hwf Hp ltac:(lia)) as (Hs & Hwf' & Hnx & Hid).
  destruct (Multiplexer.subscribe vs dest Normal Pre (s_owner s) (s_handler s)) as [[vs1 dest1] [nid ch]].
  cbn [fst snd] in *. destruct (IH vs1 dest1 (remap ++ [(s_id s, nid)])) as (H1 & H2 & H3); [done| |done|lia|].
  { rewrite Hs. apply Forall_app. split; [done|]. by repeat constructor. }
  subst nid. cbv zeta. split; [done|]. rewrite H2, H3, Hs, Hnx, <- !app_assoc. done.
Qed.

Lemma ch_find_remap n l s :
  NoDup (s_id <$> l) -> s ∈ l -> exists k, find_remap (moved_ids n l) (s_id s) = Some k.
Proof.
  revert n. induction l as [|x l IH]; intros n Hnd Hin; [by apply elem_of_nil in Hin|]. simpl.
  destruct (Z.eqb_spec (s_id x) (s_id s)); [by eexists|]. apply NoDup_cons in Hnd as [_ Hnd].
  apply elem_of_cons in Hin as [Hx|Hin]; [by subst|]. by apply IH.
Qed.

Lemma ch_moved_fmap n l :
  NoDup (s_id <$> l) ->
  moved n l = (fun s => mkSub (default 0 (find_remap (moved_ids n l) (s_id s))) Normal Pre (s_owner s) (s_handler s) true 0) <$> l.
Proof.
  revert n. induction l as [|x l IH]; intros n Hnd; [done|]. cbn [moved moved_ids]. rewrite fmap_cons. cbn [find_remap].
  rewrite Z.eqb_refl. apply NoDup_cons in Hnd as [Hni Hnd]. f_equal. rewrite IH by done.
  apply list_fmap_ext. intros i s Hs. destruct (Z.eqb_spec (s_id x) (s_id s)) as [E|]; [|done].
  exfalso. apply Hni. rewrite E. by eapply list_elem_of_fmap_2, list_elem_of_lookup_2.
Qed.

Lemma ch_snapshot_plain (d : desc) : Forall plain (subs d) -> Multiplexer.snapshot d Pre = to_row <$> subs d.
Proof.
  intros Hp. unfold Multiplexer.snapshot. rewrite filterb_true; [done|].
  rewrite Forall_forall in Hp. intros s Hs. destruct (Hp s Hs) as (_ & -> & ->). done.
Qed.

(** The id index after a rename. *)
Lemma ch_rekeyed (idm : gmap Z (string * Z * string)) from to remap id :
  from <> to ->
  (filter (fun kv : Z * (string * Z * string) => kv.2.1.1 <> from) (rekey from to remap <$> idm)) !! id =
  match idm !! id with
  | Some (nm, sid, o) =>
      if String.eqb nm from then (fun k => (to, k, o)) <$> find_remap remap sid else Some (nm, sid, o)
  | None => None
  end.
Proof.
  intros Hne. destruct (idm !! id) as [[[nm sid] o]|] eqn:E.
  - destruct (String.eqb_spec nm from) as [->|Hn]; [destruct (find_remap remap sid) as [k|] eqn:Ek; simpl|].
    + apply map_lookup_filter_Some. rewrite lookup_fmap, E. simpl. rewrite String.eqb_refl. simpl. rewrite Ek. by split.
    + apply map_lookup_filter_None. right. intros e. rewrite lookup_fmap, E. simpl. rewrite String.eqb_refl. simpl.
      rewrite Ek. intros [= <-]. simpl. tauto.
    + apply map_lookup_filter_Some. rewrite lookup_fmap, E. simpl.
      destruct (String.eqb_spec nm from); [done|]. by split.
  - apply map_lookup_filter_None. left. by rewrite lookup_fmap, E.
Qed.
Lemma ch_rename vs c a from to :
  represents c a -> next_of c to + Z.of_nat (length (subs_of c from)) <= u64_max ->
  represents (rename vs c from to).2 (t_rename a from to).
Proof.
  intros Hr Hn. unfold rename, t_rename. cbn [next_version].
  assert (Hsame : forall v, represents (mkChannels (by_name c) (ids c) v) a)
    by (intros v; destruct Hr as [? ? ?]; split; eassumption).
  destruct (String.eqb_spec from to) as [->|Hft]; [apply Hsame|].
  destruct (by_name c !! from) as [src|] eqn:E.
  2:{ assert (Hnil : a from = []) by (apply (ch_rows_nil c a from Hr); unfold subs_of; by rewrite E).
      eapply ch_represents_ext, Hsame. intros n. destruct (String.eqb_spec n from) as [->|]; [done|].
      destruct (String.eqb_spec n to) as [->|]; [by rewrite Hnil, app_nil_r|done]. }
  destruct (ch_desc_ok c a from src Hr E) as (Hwfs & Hps & _).
  assert (Es : subs_of c from = subs src) by (unfold subs_of; by rewrite E).
  rewrite lookup_delete_ne by done. pose proof (ch_entry c a (u64_succ vs) to Hr) as He. cbv zeta in He.
  destruct (match by_name c !! to with Some d => (u64_succ vs, d) | None => Multiplexer.new (u64_succ vs) to end)
    as [vs2 dest] eqn:Ed. cbn [fst snd] in *. destruct He as (Hwf & Hp & Hs & Hnx).
  rewrite (ch_snapshot_plain src Hps). rewrite Es in Hn.
  destruct (ch_move_loop vs2 dest (subs src) [] Hwf Hp Hps ltac:(lia)) as (Hwf' & Hs' & Hrm).
  destruct (move_loop vs2 dest (to_row <$> subs src) []) as [[vs3 dest'] remap]. cbn [fst snd app] in *.
  pose proof (wf_ids _ Hwfs) as Hnd. rewrite (ch_moved_fmap _ _ Hnd), <- Hrm, Hs in Hs'.
  assert (Hsub : forall n, subs_of {| by_name := <[to := dest']> (delete from (by_name c));
             ids := filter (fun kv => kv.2.1.1 <> from) (rekey from to remap <$> ids c); version := u64_succ vs |} n =
             if String.eqb n from then [] else if String.eqb n to then subs dest' else subs_of c n).
  { intros n. unfold subs_of; simpl. destruct (String.eqb_spec n from) as [->|]; [|destruct (String.eqb_spec n to) as [->|]];
      by rewrite ?lookup_insert_eq, ?lookup_insert_ne, ?lookup_delete_eq, ?lookup_delete_ne by done. }
  assert (Hother : forall n s r, n <> from -> row_ok (ids c) n s r ->
             row_ok (filter (fun kv => kv.2.1.1 <> from) (rekey from to remap <$> ids c)) n s r).
  { intros n s r Hne [Hl Hok]. split; [|done]. rewrite ch_rekeyed, Hl by done. by destruct (String.eqb_spec n from). }
  split.
  - simpl. intros n d. destruct (decide (n = to)) as [->|Hne].
    + rewrite lookup_insert_eq. intros [= <-]. split; [done|]. rewrite Hs'. intros [_ Hnil]%app_nil.
      apply fmap_nil_inv in Hnil. by destruct (ch_desc_ok c a from src Hr E) as (_ & _ & ?).
    + rewrite lookup_insert_ne by done. intros [_ Hl]%lookup_delete_Some. by apply (rep_desc _ _ Hr n).
  - intros n. rewrite Hsub. destruct (String.eqb_spec n from) as [->|Hnf]; [constructor|].
    pose proof (rep_rows _ _ Hr) as Hrows. destruct (String.eqb_spec n to) as [->|Hnt]; simpl.
    + rewrite Hs'. apply Forall2_app; [eapply Forall2_impl; [apply Hrows|]; intros; by apply Hother|].
      apply Forall2_fmap_l. specialize (Hrows from). rewrite Es in Hrows.
      eapply Forall2_impl; [eapply Forall2_and_mem; exact Hrows|]. simpl.
      intros s r (Hin & Hl & Ho & Hh & _). repeat split; try done. simpl.
      rewrite ch_rekeyed, Hl, String.eqb_refl by done.
      destruct (ch_find_remap (next_id dest) (subs src) s Hnd Hin) as [k Hk]. rewrite <- Hrm in Hk. by rewrite Hk.
    + eapply Forall2_impl; [apply Hrows|]. intros. by apply Hother.
  - intros id nm sid o. simpl. rewrite ch_rekeyed by done. destruct (ids c !! id) as [[[n0 s0] o0]|] eqn:Eid; [|done].
    destruct (rep_ids _ _ Hr id n0 s0 o0 Eid) as (r & Hin & Er). destruct (String.eqb_spec n0 from) as [->|Hne].
    + destruct (find_remap remap s0); [|done]. intros [= <- <- <-]. exists r. split; [|done].
      rewrite String.eqb_refl. destruct (String.eqb_spec to from); [by subst|]. in_list.
    + intros [= <- <- <-]. exists r. split; [|done]. destruct (String.eqb_spec n0 from); [done|].
      destruct (String.eqb_spec n0 to) as [->|]; in_list.
Qed.
(** ** The refinement *)
Lemma channels_new_represents vs : represents (new vs).2 (fun _ => []).
Proof.
  split; simpl.
  - intros nm d. by rewrite lookup_empty.
  - intros nm. unfold subs_of. simpl. rewrite lookup_empty. constructor.
  - intros id nm sid o. by rewrite lookup_empty.
Qed.

(** C11. Every operation of [Channels] refines the table: run on a store that represents a table it
    yields a store that represents the updated table, and its answer (first subscriber, emptied
    channels) is the one the table gives. Renaming appends the moved rows after the destination's
    own, in registration order, and re-keys their ids so that later removals still find them. *)
Theorem channels_refine vs c a o :
  represents c a -> op_ok c o ->
  let '(_, c', ans) := step vs c o in
  represents c' (t_step a o) /\ answer_ok a (t_step a o) o ans.
Proof.
  intros Hr Hok. destruct o as [nm id ow g h|ow|idl|nm ow|nm|from to]; cbn [step t_step answer_ok].
  - destruct Hok. by apply ch_subscribe.
  - by apply ch_remove_by_owner.
  - unfold remove_by_ids. cbn [next_version].
    pose proof (fun c' => ch_remove_ids_loop (u64_succ vs) c' a idl) as Hl. apply Hl.
    destruct Hr as [? ? ?]. split; eassumption.
  - by apply ch_remove_by_owner_on.
  - split; [by apply ch_remove_by_name|done].
  - split; [by apply ch_rename|done].
Qed.

(** The three queries read the table: [snapshot] lists a channel's rows in registration order,
    [has_subscribers] holds when it has any, and [is_empty] holds when no channel has. *)
Theorem channels_queries c a :
  represents c a ->
  (forall nm, snapshot c nm = (fun r => (r_owner r, r_generation r, r_handler r)) <$> a nm) /\
  (forall nm, has_subscribers c nm = true <-> a nm <> []) /\
  (is_empty c = true <-> forall nm, a nm = []).
Proof.
  intros Hr. assert (Hhas : forall nm, has_subscribers c nm = true <-> a nm <> []).
  { intros nm. rewrite (ch_rows_nil c a nm Hr). unfold has_subscribers, subs_of.
    destruct (by_name c !! nm) as [d|] eqn:E; [|split; [done|by intros []]].
    destruct (ch_desc_ok c a nm d Hr E) as (Hwf & Hp & Hne). rewrite (ch_count d Hwf Hp).
    split; [done|]. intros _. apply Z.ltb_lt. destruct (subs d); simpl; [done|lia]. }
  split; [|split; [done|]].
  - intros nm. pose proof (rep_rows _ _ Hr nm) as Hrows. unfold snapshot, subs_of in *.
    destruct (by_name c !! nm) as [d|] eqn:E; [|by inversion Hrows].
    destruct (ch_desc_ok c a nm d Hr E) as (Hwf & Hp & _). rewrite ch_snapshot_plain by done.
    rewrite <- list_fmap_compose. clear E Hp Hwf. induction Hrows as [|s r l k (Hl & Ho & Hh & _) _ IH]; [done|].
    csimpl. rewrite IH, Ho. unfold compose, to_row. by rewrite Hh.
  - unfold is_empty. rewrite forallb_forall. setoid_rewrite <- list_elem_of_In. split.
    + intros Hall nm. destruct (decide (a nm = [])) as [|Hne]; [done|]. apply Hhas in Hne.
      unfold has_subscribers in Hne. destruct (by_name c !! nm) as [d|] eqn:E; [|done].
      apply elem_of_map_to_list in E. specialize (Hall (nm, d) E). simpl in Hall.
      apply Z.eqb_eq in Hall. rewrite Hall in Hne. done.
    + intros Hnil [nm d] Hin%elem_of_map_to_list. simpl.
      destruct (ch_desc_ok c a nm d Hr Hin) as (_ & _ & Hne). exfalso. apply Hne.
      specialize (Hnil nm). apply (ch_rows_nil c a nm Hr) in Hnil. unfold subs_of in Hnil. by rewrite Hin in Hnil.
Qed.
End Channels.
End Channels.

(** ** Concrete runs *)
Module ChannelsExamples.
Import Channels.

Definition c0 : Channels nat := (new 0).2.
Definition s1 := subscribe 1 c0 "player_death" 7 "a" 1 10%nat.
Definition s2 := subscribe s1.1.1 s1.1.2 "provisional" 8 "b" 1 20%nat.
Definition s3 := rename s2.1.1 s2.1.2 "provisional" "player_death".

Example rename_snapshot : snapshot s3.2 "player_death" = [("a", 1, 10%nat); ("b", 1, 20%nat)].
Proof. vm_compute. reflexivity. Qed.
Example rename_then_dispose : (remove_by_ids s3.1 s3.2 [8; 7]).2 = ["player_death"].
Proof. vm_compute. reflexivity. Qed.

Lemma channels_refine_witness :
  represents s1.1.2 (t_step (fun _ => []) (Subscribe "player_death" 7 "a" 1 10%nat)) /\ s1.2 = true.
Proof.
  pose proof (channels_refine 1 c0 (fun _ => []) (Subscribe "player_death" 7 "a" 1 10%nat) (channels_new_represents 0)) as Hx.
  destruct Hx as [H1 H2]; [split; vm_compute; reflexivity|].
  split; [exact H1|]. apply H2. reflexivity.
Defined.

Lemma channels_queries_witness : is_empty c0 = true /\ snapshot c0 "x" = [].
Proof.
  destruct (channels_queries c0 (fun _ => []) (channels_new_represents 0)) as (H1 & _ & H3).
  split; [by apply H3|exact (H1 "x")].
Defined.
End ChannelsExamples.
