(* ===== verification/Plugin.v ===== *)
(** Plugin registry and per-plugin ledger (core/src/plugin.rs), and the interop epoch the registry
    bumps (core/src/interop_slots.rs).

    [PluginLedger]: the resources a plugin owns. The code keeps a [BTreeMap] from acquisition
    sequence to resource and a [HashMap] from resource to its sequences; the specification is the
    list of resources in acquisition order. [Registry]: plugin ids to their live generation and
    ledger over a [LiveTable], plus a slot table that the JS side indexes; indexing out of range
    panics, so [insert] and [remove] return an option and are proved never to be [None]. *)
From S2P Require Import Prelude.
From S2P Require Import BTree.
From S2P Require Import Liveness.

Module InteropSlots.
(** The epoch cell is an [i32]; [wrapping_add]. *)
Definition bump_epoch (epoch : Z) : Z := i32_wrap (epoch + 1).
End InteropSlots.

Module PluginLedger.

Inductive Phase := Loading | Active | Unloading | Failed.
#[export] Instance Phase_eq_dec : EqDecision Phase. Proof. solve_decision. Defined.

Inductive Resource :=
| Hook (id : Z)
| FunctionBinding (id : Z)
| FunctionSubscription (id : Z)
| FunctionAdapter (id : Z)
| Timer (id : Z)
| Job (id : Z)
| Interface (name : string)
| EventSub (id : Z)
| InterfaceWatch (id : Z)
| InterfaceAttachment (id : Z)
| Import (name : string)
| DbConn (id : Z)
| WsConn (id : Z)
| NetConn (id : Z)
| RemoteDbConn (id : Z).
#[export] Instance Resource_eq_dec : EqDecision Resource. Proof. solve_decision. Defined.

(** Hashing: a tag and the payload. *)
Definition resource_code (r : Resource) : Z * (Z + string) :=
  match r with
  | Hook i => (0, inl i) | FunctionBinding i => (1, inl i) | FunctionSubscription i => (2, inl i)
  | FunctionAdapter i => (3, inl i) | Timer i => (4, inl i) | Job i => (5, inl i)
  | Interface s => (6, inr s) | EventSub i => (7, inl i) | InterfaceWatch i => (8, inl i)
  | InterfaceAttachment i => (9, inl i) | Import s => (10, inr s) | DbConn i => (11, inl i)
  | WsConn i => (12, inl i) | NetConn i => (13, inl i) | RemoteDbConn i => (14, inl i)
  end.
Definition resource_decode (c : Z * (Z + string)) : option Resource :=
  match c with
  | (0, inl i) => Some (Hook i) | (1, inl i) => Some (FunctionBinding i)
  | (2, inl i) => Some (FunctionSubscription i) | (3, inl i) => Some (FunctionAdapter i)
  | (4, inl i) => Some (Timer i) | (5, inl i) => Some (Job i) | (6, inr s) => Some (Interface s)
  | (7, inl i) => Some (EventSub i) | (8, inl i) => Some (InterfaceWatch i)
  | (9, inl i) => Some (InterfaceAttachment i) | (10, inr s) => Some (Import s)
  | (11, inl i) => Some (DbConn i) | (12, inl i) => Some (WsConn i) | (13, inl i) => Some (NetConn i)
  | (14, inl i) => Some (RemoteDbConn i) | _ => None
  end.
#[export] Instance Resource_countable : Countable Resource.
Proof. apply (inj_countable resource_code resource_decode). by intros []. Defined.

Record PluginLedger := mkLedger {
  next_sequence : Z;
  active : gmap Z Resource;
  by_resource : gmap Resource (list Z);
}.

Definition new : PluginLedger := {| next_sequence := 0; active := ∅; by_resource := ∅ |}.

Definition record (l : PluginLedger) (r : Resource) : PluginLedger :=
  let sequence := next_sequence l in
  {| next_sequence := u64_succ (next_sequence l);
     active := <[sequence := r]> (active l);
     by_resource := <[r := default [] (by_resource l !! r) ++ [sequence]]> (by_resource l) |}.

Definition release (l : PluginLedger) (r : Resource) : PluginLedger * bool :=
  match by_resource l !! r with
  | None => (l, false)
  | Some sequences =>
      match last sequences with
      | None => (l, false)
      | Some sequence =>
          let sequences' := removelast sequences in
          let by_resource' := <[r := sequences']> (by_resource l) in
          ({| next_sequence := next_sequence l;
              active := delete sequence (active l);
              by_resource := if bool_decide (sequences' = []) then delete r by_resource' else by_resource' |},
           bool_decide (is_Some (active l !! sequence)))
      end
  end.

Definition len (l : PluginLedger) : Z := Z.of_nat (size (active l)).
Definition teardown_order (l : PluginLedger) : list Resource := reverse (btree_values (active l)).

Definition record_hook l id := record l (Hook id).
Definition record_timer l id := record l (Timer id).
Definition record_job l id := record l (Job id).
Definition record_interface l name := record l (Interface name).
Definition record_event_sub l id := record l (EventSub id).
Definition record_import l name := record l (Import name).
Definition record_db_conn l handle := record l (DbConn handle).
Definition record_ws_conn l id := record l (WsConn id).
Definition record_net_conn l id := record l (NetConn id).
Definition record_remote_db_conn l handle := record l (RemoteDbConn handle).

Inductive op := Record_ (r : Resource) | Release (r : Resource).
Definition step (l : PluginLedger) (o : op) : PluginLedger * bool :=
  match o with Record_ r => (record l r, true) | Release r => release l r end.
Fixpoint run (l : PluginLedger) (os : list op) : PluginLedger * list bool :=
  match os with
  | [] => (l, [])
  | o :: os' => let '(l1, b) := step l o in let '(l2, bs) := run l1 os' in (l2, b :: bs)
  end.

(** ** The specification: the list of acquisitions *)

(** Remove the most recent acquisition of [r]. *)
Fixpoint remove_last (r : Resource) (acq : list Resource) : list Resource :=
  match acq with
  | [] => []
  | x :: rest => if bool_decide (r ∈ rest) then x :: remove_last r rest
                 else if bool_decide (x = r) then rest else x :: rest
  end.
Definition s_step (acq : list Resource) (o : op) : list Resource * bool :=
  match o with
  | Record_ r => (acq ++ [r], true)
  | Release r => (remove_last r acq, bool_decide (r ∈ acq))
  end.
Fixpoint s_run (acq : list Resource) (os : list op) : list Resource * list bool :=
  match os with
  | [] => (acq, [])
  | o :: os' => let '(a1, b) := s_step acq o in let '(a2, bs) := s_run a1 os' in (a2, b :: bs)
  end.

Definition is_res (r : Resource) (kv : Z * Resource) : bool := bool_decide (kv.2 = r).

Record represents (l : PluginLedger) (acq : list Resource) : Prop := {
  rep_values : btree_values (active l) = acq;
  rep_keys : forall k, is_Some (active l !! k) -> k < next_sequence l;
  rep_next : 0 <= next_sequence l;
  rep_index : forall r, default [] (by_resource l !! r) = (filterb (is_res r) (btree_to_list (active l))).*1;
  rep_nonempty : forall r, by_resource l !! r <> Some [];
}.
(** ** Refinement *)
Lemma ledger_remove_last_app r a b : r ∉ b -> remove_last r (a ++ r :: b) = a ++ b.
Proof.
  intros Hni. induction a as [|x a IH]; simpl.
  - rewrite bool_decide_false by done. by rewrite bool_decide_true.
  - rewrite bool_decide_true by in_list. by rewrite IH.
Qed.

Lemma ledger_remove_last_not_in r a : r ∉ a -> remove_last r a = a.
Proof.
  induction a as [|x a IH]; simpl; [done|]. rewrite not_elem_of_cons. intros [Hne Hni].
  rewrite !bool_decide_false; [done|congruence|done].
Qed.

(** The last entry of an index vector is the last binding of the resource in sequence order. *)
Lemma ledger_last_split r (l : list (Z * Resource)) k :
  last (filterb (is_res r) l).*1 = Some k ->
  exists l1 l2, l = l1 ++ (k, r) :: l2 /\ filterb (is_res r) l2 = [].
Proof.
  induction l as [|[k' r'] l IH]; simpl; [done|]. unfold is_res at 1; simpl.
  case_bool_decide as E.
  - subst r'. rewrite fmap_cons. destruct (filterb (is_res r) l) as [|x rest] eqn:Ef; simpl.
    + intros [= <-]. by exists [], l.
    + rewrite fmap_cons in IH. intros Hl. destruct (IH Hl) as (l1 & l2 & -> & H2). by exists ((k', r) :: l1), l2.
  - intros Hl. destruct (IH Hl) as (l1 & l2 & -> & H2). by exists ((k', r') :: l1), l2.
Qed.

Lemma ledger_in_index r (l : list (Z * Resource)) : filterb (is_res r) l = [] <-> r ∉ l.*2.
Proof.
  rewrite filterb_nil_iff. split.
  - intros H ([k r'] & E & Hin)%list_elem_of_fmap. specialize (H _ Hin). unfold is_res in H. bool_to_prop. simpl in *. congruence.
  - intros Hni x Hx. apply bool_decide_eq_false. intros <-. apply Hni. by apply list_elem_of_fmap_2.
Qed.

Lemma ledger_new_represents : represents new [].
Proof.
  split; unfold new; cbn [active next_sequence by_resource].
  - unfold btree_values. by rewrite btree_empty.
  - intros k. rewrite lookup_empty. by intros [].
  - done.
  - intros r. by rewrite lookup_empty, btree_empty.
  - intros r. by rewrite lookup_empty.
Qed.

Lemma ledger_record l acq r :
  represents l acq -> next_sequence l < u64_max -> represents (record l r) (acq ++ [r]).
Proof.
  intros [Hv Hk Hn Hi Hne] Hlt. unfold record.
  assert (Hlist : btree_to_list (<[next_sequence l := r]> (active l)) = btree_to_list (active l) ++ [(next_sequence l, r)])
    by by apply btree_insert_last.
  split; cbn [active next_sequence by_resource]; rewrite ?u64_succ_small by lia; [..|lia|idtac|].
  - unfold btree_values in *. by rewrite Hlist, fmap_app, Hv.
  - intros k. rewrite lookup_insert. case_decide; [intros; lia|]. intros Hs. specialize (Hk k Hs). lia.
  - intros r'. rewrite Hlist, filterb_app, fmap_app, <- Hi. simpl. unfold is_res at 1. simpl.
    rewrite lookup_insert. case_decide as E; [subst; by rewrite bool_decide_true|].
    rewrite bool_decide_false by done. by rewrite app_nil_r.
  - intros r'. rewrite lookup_insert. case_decide; [|apply Hne]. intros [= E]. by destruct (default [] (by_resource l !! r)).
Qed.

Lemma ledger_release_miss l acq r :
  represents l acq -> r ∉ acq -> release l r = (l, false).
Proof.
  intros [Hv Hk Hn Hi Hne] Hni. unfold release. specialize (Hi r). specialize (Hne r).
  rewrite (proj2 (ledger_in_index r _)) in Hi by (unfold btree_values in Hv; by rewrite Hv).
  destruct (by_resource l !! r) as [sq|]; [|done]. simpl in Hi. by subst.
Qed.

Lemma ledger_release_hit l acq r :
  represents l acq -> r ∈ acq ->
  represents (release l r).1 (remove_last r acq) /\ (release l r).2 = true /\
  next_sequence (release l r).1 = next_sequence l.
Proof.
  intros [Hv Hk Hn Hi Hne] Hin. unfold release. pose proof (Hi r) as Hir.
  destruct (by_resource l !! r) as [sq|] eqn:Esq; simpl in Hir.
  2:{ exfalso. symmetry in Hir. apply fmap_nil_inv, ledger_in_index in Hir. unfold btree_values in Hv. by rewrite Hv in Hir. }
  destruct (last sq) as [s|] eqn:Es; [|apply last_None in Es; rewrite Es in Esq; by destruct (Hne r)].
  rewrite Hir in Es. apply ledger_last_split in Es as (l1 & l2 & El & E2).
  pose proof (btree_sorted (active l)) as Hsort. rewrite El in Hsort.
  assert (Hdel : btree_to_list (delete s (active l)) = l1 ++ l2).
  { rewrite btree_delete, El. by apply strictly_sorted_drop. }
  assert (Hact : active l !! s = Some r) by (apply elem_of_btree_to_list; rewrite El; in_list).
  assert (Hsq : removelast sq = (filterb (is_res r) l1).*1).
  { rewrite Hir, El, filterb_app. simpl. unfold is_res at 2. simpl. rewrite bool_decide_true by done.
    rewrite E2, fmap_app. simpl. apply removelast_last. }
  cbn [fst snd next_sequence]. split; [split; cbn [active next_sequence by_resource]|].
  - unfold btree_values in *. rewrite Hdel, <- Hv, El, !fmap_app, fmap_cons. simpl.
    rewrite ledger_remove_last_app; [done|]. by apply ledger_in_index.
  - intros k [v [_ Hv']%lookup_delete_Some]. apply Hk. by eexists.
  - done.
  - intros r'. rewrite Hdel. destruct (decide (r = r')) as [<-|Hr].
    + rewrite filterb_app, E2, app_nil_r, <- Hsq.
      case_bool_decide as E; [rewrite lookup_delete_eq|rewrite lookup_insert_eq]; done.
    + assert (default [] ((if bool_decide (removelast sq = []) then delete r (<[r:=removelast sq]> (by_resource l))
                 else <[r:=removelast sq]> (by_resource l)) !! r') = default [] (by_resource l !! r')) as ->.
      { case_bool_decide; by rewrite ?lookup_delete_ne, ?lookup_insert_ne by done. }
      rewrite Hi, El, !filterb_app. simpl. unfold is_res at 2. simpl. by rewrite bool_decide_false.
  - intros r'. case_bool_decide as E.
    + rewrite lookup_delete. case_decide; [done|]. rewrite lookup_insert_ne by done. apply Hne.
    + rewrite lookup_insert. case_decide; [by intros [= ?]|]. apply Hne.
  - split; [|done]. by rewrite Hact.
Qed.

Lemma ledger_step l acq o :
  represents l acq -> next_sequence l < u64_max ->
  represents (step l o).1 (s_step acq o).1 /\ (step l o).2 = (s_step acq o).2 /\
  next_sequence (step l o).1 <= next_sequence l + 1.
Proof.
  intros Hr Hlt. destruct o as [r|r]; simpl.
  - split; [by apply ledger_record|]. split; [done|]. destruct Hr. rewrite u64_succ_small; lia.
  - destruct (decide (r ∈ acq)) as [Hin|Hni].
    + destruct (ledger_release_hit l acq r Hr Hin) as (H1 & H2 & H3). rewrite bool_decide_true by done.
      split; [done|]. split; [done|]. lia.
    + rewrite (ledger_release_miss l acq r Hr Hni), ledger_remove_last_not_in, bool_decide_false by done.
      split; [done|]. split; [done|]. simpl. lia.
Qed.

Lemma ledger_run l acq os :
  represents l acq -> next_sequence l + Z.of_nat (length os) <= u64_max ->
  represents (run l os).1 (s_run acq os).1 /\ (run l os).2 = (s_run acq os).2.
Proof.
  revert l acq. induction os as [|o os IH]; intros l acq Hr Hn; [done|]. cbn [run s_run length] in *.
  destruct (ledger_step l acq o Hr ltac:(lia)) as (H1 & H2 & H3).
  destruct (step l o) as [l1 b], (s_step acq o) as [a1 b']. cbn [fst snd] in *. subst b'.
  destruct (IH l1 a1 H1 ltac:(lia)) as [H4 H5]. destruct (run l1 os), (s_run a1 os). simpl in *. by subst.
Qed.

(** A ledger is the list of its live acquisitions: after any sequence of acquisitions and
    releases, teardown visits exactly the resources still owned, last acquired first; releasing an
    indistinguishable duplicate drops the most recent acquisition; a release answers whether the
    resource was owned; and [len] counts what is left. *)
Theorem ledger_teardown_order os :
  Z.of_nat (length os) <= u64_max ->
  let '(l, answers) := run new os in
  let '(acq, answers') := s_run [] os in
  teardown_order l = reverse acq /\ len l = Z.of_nat (length acq) /\ answers = answers'.
Proof.
  intros Hn. destruct (ledger_run new [] os ledger_new_represents Hn) as [H1 H2].
  destruct (run new os) as [l an], (s_run [] os) as [acq an']. simpl in *.
  split; [unfold teardown_order; by rewrite (rep_values _ _ H1)|]. split; [|done].
  unfold len. rewrite <- length_btree_to_list. rewrite <- (rep_values _ _ H1). unfold btree_values. by rewrite length_fmap.
Qed.
End PluginLedger.

Module Registry.
Import PluginLedger.

Record Registry := mkRegistry {
  table : LiveTable.LiveTable string PluginLedger;
  slots : list (string * Z);
  slot_index : gmap string Z;
}.

Definition new : Registry := {| table := LiveTable.new 1; slots := []; slot_index := ∅ |}.

(** [self.slots[slot as usize].1 = generation]: panics out of range. *)
Definition set_slot (l : list (string * Z)) (slot : Z) (generation : Z) : option (list (string * Z)) :=
  match l !! Z.to_nat slot with
  | Some (id, _) => Some (<[Z.to_nat slot := (id, generation)]> l)
  | None => None
  end.

(** [insert] bumps the interop epoch, mints a generation and points the id's slot at it. *)
Definition insert (epoch : Z) (r : Registry) (id : string) : option (Z * Registry * Z) :=
  let epoch' := InteropSlots.bump_epoch epoch in
  let '(table', generation) := LiveTable.insert (table r) id PluginLedger.new in
  let '(slots1, index1, slot) :=
    match slot_index r !! id with
    | Some slot => (slots r, slot_index r, slot)
    | None =>
        let slot := u32_wrap (Z.of_nat (length (slots r))) in
        (slots r ++ [(id, 0)], <[id := slot]> (slot_index r), slot)
    end in
  match set_slot slots1 slot generation with
  | Some slots' => Some (epoch', {| table := table'; slots := slots'; slot_index := index1 |}, generation)
  | None => None
  end.

(** The removed [PluginEntry] is its generation and ledger. *)
Definition remove (epoch : Z) (r : Registry) (id : string) : option (Z * Registry * option (Z * PluginLedger)) :=
  let epoch' := InteropSlots.bump_epoch epoch in
  match (match slot_index r !! id with Some slot => set_slot (slots r) slot 0 | None => Some (slots r) end) with
  | Some slots' =>
      let '(table', entry) := LiveTable.remove (table r) id in
      Some (epoch', {| table := table'; slots := slots'; slot_index := slot_index r |}, entry)
  | None => None
  end.

Definition is_live (r : Registry) (id : string) (generation : Z) : bool :=
  LiveTable.is_live (table r) id generation.

(** [ledger_mut]: the caller's mutation is [f]. *)
Definition ledger_mut (r : Registry) (id : string) (f : PluginLedger -> PluginLedger) : Registry * bool :=
  let '(table', found) := LiveTable.get_mut (table r) id f in
  ({| table := table'; slots := slots r; slot_index := slot_index r |}, bool_decide (is_Some found)).

Definition record (r : Registry) (id : string) (generation : Z) (resource : Resource) : Registry * bool :=
  match LiveTable.get (table r) id with
  | None => (r, false)
  | Some (live_generation, ledger) =>
      if negb (live_generation =? generation) then (r, false)
      else ((ledger_mut r id (fun l => PluginLedger.record l resource)).1, true)
  end.

Definition release (r : Registry) (id : string) (generation : Z) (resource : Resource) : Registry * bool :=
  match LiveTable.get (table r) id with
  | None => (r, false)
  | Some (live_generation, ledger) =>
      if live_generation =? generation
      then ((ledger_mut r id (fun l => (PluginLedger.release l resource).1)).1, (PluginLedger.release ledger resource).2)
      else (r, false)
  end.

Definition active_resource_count (r : Registry) (id : string) (generation : Z) : option Z :=
  match LiveTable.get (table r) id with
  | Some (live_generation, ledger) => if live_generation =? generation then Some (len ledger) else None
  | None => None
  end.

Definition ids (r : Registry) : list string := LiveTable.keys (table r).
Definition slot_of (r : Registry) (id : string) : option Z := slot_index r !! id.
Definition slot_id (r : Registry) (slot : Z) : option string := fst <$> slots r !! Z.to_nat slot.
Definition live_at (r : Registry) (slot generation : Z) : option string :=
  match slots r !! Z.to_nat slot with
  | Some (id, live) => if negb (generation =? 0) && (live =? generation) then Some id else None
  | None => None
  end.
Definition generation_of (r : Registry) (id : string) : option Z := fst <$> LiveTable.get (table r) id.

Inductive op :=
| Insert (id : string)
| Remove (id : string)
| Record_ (id : string) (generation : Z) (resource : Resource)
| Release_ (id : string) (generation : Z) (resource : Resource).

Definition step (s : Z * Registry) (o : op) : option (Z * Registry) :=
  match o with
  | Insert id => (fun x => x.1) <$> insert s.1 s.2 id
  | Remove id => (fun x => x.1) <$> remove s.1 s.2 id
  | Record_ id g res => Some (s.1, (record s.2 id g res).1)
  | Release_ id g res => Some (s.1, (release s.2 id g res).1)
  end.
Fixpoint run (s : Z * Registry) (os : list op) : option (Z * Registry) :=
  match os with [] => Some s | o :: os' => match step s o with Some s' => run s' os' | None => None end end.

(** ** The slot table mirrors the live table *)
Definition generation_or_0 (r : Registry) (id : string) : Z := default 0 (generation_of r id).

Record wf (r : Registry) : Prop := {
  wf_table : LiveTable.wf (table r);
  wf_next : 1 <= LiveTable.next_id (table r);
  wf_pos : forall id g, generation_of r id = Some g -> 1 <= g;
  wf_index : forall id s, slot_index r !! id = Some s <-> 0 <= s /\ exists g, slots r !! Z.to_nat s = Some (id, g);
  wf_live : forall i id g, slots r !! i = Some (id, g) -> g = generation_or_0 r id;
  wf_has : forall id, is_Some (generation_of r id) -> is_Some (slot_index r !! id);
}.

Lemma registry_new_wf : wf new.
Proof.
  split; simpl.
  - by apply LiveTable.live_new_wf.
  - done.
  - intros id g. unfold generation_of, LiveTable.get; simpl. by rewrite lookup_empty.
  - intros id s. rewrite lookup_empty. split; [done|]. intros (_ & g & Hg). by destruct (Z.to_nat s).
  - intros i id g Hi. by destruct i.
  - intros id. unfold generation_of, LiveTable.get; simpl. rewrite lookup_empty. by intros [].
Qed.
(** Pointing [id]'s slot at its new generation re-establishes the invariant. *)
Lemma registry_set_wf r r' slots1 id s g' :
  wf r ->
  (forall id0 s0, slot_index r' !! id0 = Some s0 <-> 0 <= s0 /\ exists g, slots1 !! Z.to_nat s0 = Some (id0, g)) ->
  (forall i id0 g, slots1 !! i = Some (id0, g) -> id0 <> id -> g = generation_or_0 r id0) ->
  slot_index r' !! id = Some s ->
  LiveTable.wf (table r') -> 1 <= LiveTable.next_id (table r') ->
  (forall id0, id0 <> id -> generation_of r' id0 = generation_of r id0) ->
  generation_or_0 r' id = g' -> (forall g, generation_of r' id = Some g -> 1 <= g) ->
  (forall id0, is_Some (slot_index r !! id0) -> is_Some (slot_index r' !! id0)) ->
  exists slots', set_slot slots1 s g' = Some slots' /\
    wf {| table := table r'; slots := slots'; slot_index := slot_index r' |}.
Proof.
  intros Hwf Hidx Hlive Hs Ht Hn Hgen Hg' Hpos Hhas. unfold set_slot.
  destruct (proj1 (Hidx id s) Hs) as (Hs0 & g & Hg). rewrite Hg.
  assert (Hlt : (Z.to_nat s < length slots1)%nat) by (by eapply lookup_lt_Some).
  eexists. split; [done|]. split; simpl; try done.
  - intros id0 g0 E. unfold generation_of in *; simpl in *. destruct (decide (id0 = id)) as [->|Hne]; [by apply Hpos|].
    rewrite Hgen in E by done. by apply (wf_pos _ Hwf id0).
  - intros id0 s0. rewrite Hidx. destruct (decide (Z.to_nat s0 = Z.to_nat s)) as [E|E].
    + rewrite E, list_lookup_insert_eq by done. rewrite Hg. naive_solver.
    + by rewrite list_lookup_insert_ne by done.
  - intros i id0 g0 Hi. unfold generation_or_0, generation_of in *; simpl in *.
    destruct (decide (i = Z.to_nat s)) as [->|Hi'].
    + rewrite list_lookup_insert_eq in Hi by done. by injection Hi as <- <-.
    + rewrite list_lookup_insert_ne in Hi by done.
      assert (id0 <> id) as Hne.
      { intros ->. assert (slot_index r' !! id = Some (Z.of_nat i)) as E.
        { apply Hidx. split; [lia|]. rewrite Nat2Z.id. by exists g0. }
        rewrite Hs in E. injection E as ->. by rewrite Nat2Z.id in Hi'. }
      rewrite Hgen by done. by eapply Hlive.
  - intros id0 Hsome. destruct (decide (id0 = id)) as [->|Hne]; [by eexists|].
    apply Hhas, (wf_has _ Hwf). unfold generation_of in *; simpl in *. by rewrite <- Hgen.
Qed.

Lemma registry_insert epoch r id :
  wf r -> LiveTable.next_id (table r) < u64_max -> Z.of_nat (length (slots r)) < 2 ^ 32 ->
  exists r', insert epoch r id = Some (InteropSlots.bump_epoch epoch, r', LiveTable.next_id (table r)) /\ wf r' /\
    table r' = (LiveTable.insert (table r) id PluginLedger.new).1 /\
    (length (slots r') <= S (length (slots r)))%nat /\
    (forall id0 s, slot_of r id0 = Some s -> slot_of r' id0 = Some s) /\ is_Some (slot_of r' id).
Proof.
  intros Hwf Hlt Hlen. unfold insert. pose proof (wf_next _ Hwf) as Hn1.
  pose proof (LiveTable.live_insert_wf (table r) id PluginLedger.new (wf_table _ Hwf) Hlt) as Hwt.
  assert (Hnx : u64_succ (LiveTable.next_id (table r)) = LiveTable.next_id (table r) + 1) by (apply u64_succ_small; lia).
  assert (Hgen : forall sl ix id0, generation_of (mkRegistry (LiveTable.insert (table r) id PluginLedger.new).1 sl ix) id0 =
            if decide (id0 = id) then Some (LiveTable.next_id (table r)) else generation_of r id0).
  { intros sl ix id0. unfold generation_of, LiveTable.get; simpl. rewrite lookup_insert.
    destruct (decide (id = id0)), (decide (id0 = id)); subst; done. }
  destruct (slot_index r !! id) as [s|] eqn:Es; cbn [LiveTable.insert fst snd] in *.
  - destruct (registry_set_wf r (mkRegistry (LiveTable.insert (table r) id PluginLedger.new).1 (slots r) (slot_index r))
                (slots r) id s (LiveTable.next_id (table r))) as (sl & Hsl & Hwf'); try done.
    + apply (wf_index _ Hwf).
    + intros. by eapply (wf_live _ Hwf).
    + simpl. lia.
    + intros id0 Hne. rewrite Hgen. by rewrite decide_False.
    + unfold generation_or_0. rewrite Hgen. by rewrite decide_True.
    + intros g. rewrite Hgen, decide_True by done. intros [= <-]. done.
    + rewrite Hsl. eexists. split; [done|]. split; [done|]. split; [done|]. split; [|split; [done|by eexists]].
      simpl. unfold set_slot in Hsl. destruct (slots r !! Z.to_nat s) as [[? ?]|]; [|done]. injection Hsl as <-.
      rewrite length_insert. lia.
  - assert (Hu : u32_wrap (Z.of_nat (length (slots r))) = Z.of_nat (length (slots r))) by (apply Z.mod_small; lia).
    rewrite Hu. set (n := Z.of_nat (length (slots r))) in *.
    destruct (registry_set_wf r (mkRegistry (LiveTable.insert (table r) id PluginLedger.new).1 (slots r) (<[id := n]> (slot_index r)))
                (slots r ++ [(id, 0)]) id n (LiveTable.next_id (table r))) as (sl & Hsl & Hwf'); try done.
    + intros id0 s0. simpl. rewrite lookup_insert. case_decide as E.
      * subst id0. split.
        -- intros [= <-]. split; [lia|]. exists 0. unfold n. rewrite Nat2Z.id. by apply list_lookup_middle.
        -- intros (H0 & g & Hg). apply lookup_app_Some in Hg as [Hg|[Hge Hg]].
           ++ assert (slot_index r !! id = Some s0) as Es' by (apply (wf_index _ Hwf); eauto). by rewrite Es in Es'.
           ++ apply list_lookup_singleton_Some in Hg as [Hg _]. f_equal. lia.
      * rewrite (wf_index _ Hwf). split; intros (H0 & g & Hg); (split; [done|]); exists g.
        -- by apply lookup_app_l_Some.
        -- apply lookup_app_Some in Hg as [Hg|[_ Hg]]; [done|]. apply list_lookup_singleton_Some in Hg as [_ [= ? ?]]. done.
    + intros i id0 g Hg Hne. apply lookup_app_Some in Hg as [Hg|[_ Hg]]; [by eapply (wf_live _ Hwf)|].
      apply list_lookup_singleton_Some in Hg as [_ [= ? ?]]. done.
    + simpl. by rewrite lookup_insert_eq.
    + simpl. lia.
    + intros id0 Hne. rewrite Hgen. by rewrite decide_False.
    + unfold generation_or_0. rewrite Hgen. by rewrite decide_True.
    + intros g. rewrite Hgen, decide_True by done. intros [= <-]. done.
    + intros id0 Hi. simpl. rewrite lookup_insert. case_decide; [by eexists|done].
    + rewrite Hsl. eexists. split; [done|]. split; [done|]. split; [done|]. split; [|split].
      * simpl. unfold set_slot in Hsl. destruct ((slots r ++ [(id, 0)]) !! Z.to_nat n) as [[? ?]|]; [|done].
        injection Hsl as <-. rewrite length_insert, length_app. simpl. lia.
      * intros id0 s0. unfold slot_of. simpl. intros Hs0. rewrite lookup_insert. case_decide; [congruence|done].
      * unfold slot_of. simpl. rewrite lookup_insert_eq. by eexists.
Qed.
Lemma registry_remove epoch r id :
  wf r ->
  exists r', remove epoch r id = Some (InteropSlots.bump_epoch epoch, r', LiveTable.get (table r) id) /\ wf r' /\
    table r' = (LiveTable.remove (table r) id).1 /\ length (slots r') = length (slots r) /\ slot_index r' = slot_index r.
Proof.
  intros Hwf. unfold remove. pose proof (LiveTable.live_remove_wf (table r) id (wf_table _ Hwf)) as Hwt.
  assert (Hgen : forall sl id0, generation_of (mkRegistry (LiveTable.remove (table r) id).1 sl (slot_index r)) id0 =
            if decide (id0 = id) then None else generation_of r id0).
  { intros sl id0. unfold generation_of, LiveTable.get; simpl. rewrite lookup_delete.
    destruct (decide (id = id0)), (decide (id0 = id)); subst; done. }
  destruct (slot_index r !! id) as [s|] eqn:Es; cbn [LiveTable.remove fst snd] in *.
  - destruct (registry_set_wf r (mkRegistry (LiveTable.remove (table r) id).1 (slots r) (slot_index r))
                (slots r) id s 0) as (sl & Hsl & Hwf'); try done.
    + apply (wf_index _ Hwf).
    + intros. by eapply (wf_live _ Hwf).
    + apply (wf_next _ Hwf).
    + intros id0 Hne. rewrite Hgen. by rewrite decide_False.
    + unfold generation_or_0. rewrite Hgen. by rewrite decide_True.
    + intros g. by rewrite Hgen, decide_True.
    + rewrite Hsl. eexists. split; [done|]. split; [done|]. split; [done|]. split; [|done].
      simpl. unfold set_slot in Hsl. destruct (slots r !! Z.to_nat s) as [[? ?]|]; [|done]. injection Hsl as <-.
      by rewrite length_insert.
  - eexists. split; [done|]. split; [|done].
    assert (Hnone : generation_of r id = None).
    { destruct (generation_of r id) eqn:E; [|done]. destruct (wf_has _ Hwf id) as [? ?]; [by eexists|congruence]. }
    assert (Hsame : forall id0, generation_of (mkRegistry (LiveTable.remove (table r) id).1 (slots r) (slot_index r)) id0 = generation_of r id0).
    { intros id0. rewrite Hgen. case_decide; [by subst|done]. }
    destruct Hwf as [H1 H2 H3 H4 H5 H6]. split; cbn [table slots slot_index]; try done.
    + intros id0 g. rewrite Hsame. apply H3.
    + intros i0 id0 g. unfold generation_or_0. rewrite Hsame. apply H5.
    + intros id0. rewrite Hsame. apply H6.
Qed.

(** Ledger mutations leave generations and slots alone. *)
Lemma registry_ledger_mut r id f :
  (forall id0, generation_of (ledger_mut r id f).1 id0 = generation_of r id0) /\
  slots (ledger_mut r id f).1 = slots r /\ slot_index (ledger_mut r id f).1 = slot_index r /\
  LiveTable.next_id (table (ledger_mut r id f).1) = LiveTable.next_id (table r) /\
  (forall id0, id0 <> id -> LiveTable.get (table (ledger_mut r id f).1) id0 = LiveTable.get (table r) id0) /\
  LiveTable.get (table (ledger_mut r id f).1) id = (fun e => (e.1, f e.2)) <$> LiveTable.get (table r) id.
Proof.
  unfold ledger_mut, generation_of, LiveTable.get, LiveTable.get_mut.
  destruct (LiveTable.entries (table r) !! id) as [[g l]|] eqn:E; simpl; rewrite ?E.
  - repeat split; try (by rewrite lookup_insert_eq).
    + intros id0. rewrite lookup_insert. case_decide; [subst; by rewrite E|done].
    + intros id0 Hne. by rewrite lookup_insert_ne.
  - done.
Qed.

Lemma registry_ledger_mut_wf r id f : wf r -> wf (ledger_mut r id f).1.
Proof.
  intros [H1 H2 H3 H4 H5 H6]. destruct (registry_ledger_mut r id f) as (Hg & Hs & Hi & Hn & _).
  split; rewrite ?Hs, ?Hi, ?Hn; try done.
  - unfold ledger_mut. pose proof (LiveTable.live_get_mut_wf (table r) id f H1) as Hw.
    by destruct (LiveTable.get_mut (table r) id f).
  - intros id0 g. rewrite Hg. apply H3.
  - intros i id0 g. unfold generation_or_0. rewrite Hg. apply H5.
  - intros id0. rewrite Hg. apply H6.
Qed.

Lemma registry_step s o :
  wf s.2 -> LiveTable.next_id (table s.2) < u64_max -> Z.of_nat (length (slots s.2)) < 2 ^ 32 ->
  exists s', step s o = Some s' /\ wf s'.2 /\ LiveTable.next_id (table s'.2) <= LiveTable.next_id (table s.2) + 1 /\
    (length (slots s'.2) <= S (length (slots s.2)))%nat /\
    (forall id0 n, slot_of s.2 id0 = Some n -> slot_of s'.2 id0 = Some n).
Proof.
  intros Hwf Hlt Hlen. destruct s as [epoch r]. simpl in *.
  assert (Hlm : forall id f, wf (ledger_mut r id f).1 /\
      LiveTable.next_id (table (ledger_mut r id f).1) <= LiveTable.next_id (table r) + 1 /\
      (length (slots (ledger_mut r id f).1) <= S (length (slots r)))%nat /\
      (forall id0 n, slot_of r id0 = Some n -> slot_of (ledger_mut r id f).1 id0 = Some n)).
  { intros id f. destruct (registry_ledger_mut r id f) as (_ & Hs & Hi & Hn & _).
    split; [by apply registry_ledger_mut_wf|]. unfold slot_of. rewrite Hs, Hi, Hn. split; [lia|]. split; [lia|done]. }
  assert (Hid : wf r /\ LiveTable.next_id (table r) <= LiveTable.next_id (table r) + 1 /\
      (length (slots r) <= S (length (slots r)))%nat /\ (forall id0 n, slot_of r id0 = Some n -> slot_of r id0 = Some n)).
  { split; [done|]. split; [lia|]. split; [lia|done]. }
  destruct o as [id|id|id g res|id g res]; cbn [step fst snd].
  - destruct (registry_insert epoch r id Hwf Hlt Hlen) as (r' & E & Hwf' & Ht & Hl & Hst & _). rewrite E.
    eexists. split; [done|]. simpl. split; [done|]. split; [|done]. rewrite Ht. simpl.
    pose proof (wf_next _ Hwf). rewrite u64_succ_small; lia.
  - destruct (registry_remove epoch r id Hwf) as (r' & E & Hwf' & Ht & Hl & Hst). rewrite E.
    eexists. split; [done|]. simpl. split; [done|]. unfold slot_of. rewrite Ht, Hl, Hst. simpl.
    split; [lia|]. split; [lia|done].
  - eexists. split; [done|]. cbn [fst snd]. unfold record.
    destruct (LiveTable.get (table r) id) as [[lg ledger]|]; [|done]. destruct (negb (lg =? g)); [done|]. apply Hlm.
  - eexists. split; [done|]. cbn [fst snd]. unfold release.
    destruct (LiveTable.get (table r) id) as [[lg ledger]|]; [|done]. destruct (lg =? g); [|done]. apply Hlm.
Qed.

Lemma registry_run s os :
  wf s.2 -> LiveTable.next_id (table s.2) + Z.of_nat (length os) <= u64_max ->
  Z.of_nat (length (slots s.2)) + Z.of_nat (length os) <= 2 ^ 32 ->
  exists s', run s os = Some s' /\ wf s'.2 /\
    LiveTable.next_id (table s'.2) <= LiveTable.next_id (table s.2) + Z.of_nat (length os) /\
    Z.of_nat (length (slots s'.2)) <= Z.of_nat (length (slots s.2)) + Z.of_nat (length os) /\
    (forall id0 n, slot_of s.2 id0 = Some n -> slot_of s'.2 id0 = Some n).
Proof.
  revert s. induction os as [|o os IH]; intros s Hwf Hn Hl; [exists s; simpl; split; [done|]; split; [done|]; split; [lia|]; split; [lia|done]|]. cbn [run length] in *.
  destruct (registry_step s o Hwf ltac:(lia) ltac:(lia)) as (s1 & -> & Hwf1 & Hn1 & Hl1 & Hs1).
  destruct (IH s1 Hwf1 ltac:(lia) ltac:(lia)) as (s2 & E & Hwf2 & Hn2 & Hl2 & Hs2). exists s2.
  split; [done|]. split; [done|]. split; [lia|]. split; [lia|]. eauto.
Qed.

Lemma registry_live_at r slot g id :
  wf r -> 0 <= slot ->
  live_at r slot g = Some id <-> slot_of r id = Some slot /\ is_live r id g = true.
Proof.
  intros Hwf H0. unfold live_at, slot_of, is_live. rewrite LiveTable.live_is_live_true.
  assert (Hg : (exists m, LiveTable.entries (table r) !! id = Some (g, m)) <-> generation_of r id = Some g).
  { unfold generation_of, LiveTable.get. destruct (LiveTable.entries (table r) !! id) as [[g' m]|]; simpl; naive_solver. }
  rewrite Hg, (wf_index _ Hwf). destruct (slots r !! Z.to_nat slot) as [[id' live]|] eqn:E.
  2:{ split; [done|]. intros [(_ & g' & Hg') _]. congruence. }
  pose proof (wf_live _ Hwf _ _ _ E) as Hl. unfold generation_or_0 in Hl. split.
  - destruct (negb (g =? 0) && (live =? g)) eqn:Et; [|done]. intros [= ->]. bool_to_prop. subst g.
    split; [split; [done|by eexists]|]. destruct (generation_of r id); simpl in Hl; subst; done.
  - intros [(_ & g' & [= -> ->]) Hgen]. rewrite Hgen in Hl. simpl in Hl. subst g'.
    pose proof (wf_pos _ Hwf _ _ Hgen). rewrite Z.eqb_refl, (proj2 (Z.eqb_neq g 0)) by lia. done.
Qed.

(** The slot table is the live table by another index: after any sequence of plugin loads,
    reloads, unloads and ledger updates (none of which panics), the per-slot liveness check accepts
    exactly the live generation of the plugin that owns the slot, and a plugin keeps its slot
    across every later operation. *)
Theorem registry_slots_agree epoch os os' :
  Z.of_nat (length os) + Z.of_nat (length os') < 2 ^ 32 ->
  exists s s', run (epoch, new) os = Some s /\ run s os' = Some s' /\
    (forall slot g id, 0 <= slot ->
      live_at s.2 slot g = Some id <-> slot_of s.2 id = Some slot /\ is_live s.2 id g = true) /\
    (forall id slot, slot_of s.2 id = Some slot -> slot_of s'.2 id = Some slot /\ slot_id s'.2 slot = Some id).
Proof.
  intros Hn. assert (H64 : 2 ^ 32 + 1 <= u64_max) by by vm_compute.
  destruct (registry_run (epoch, new) os) as (s & Es & Hwf & Hsn & Hsl & _); [apply registry_new_wf|simpl; lia..|].
  simpl in Hsn, Hsl. destruct (registry_run s os') as (s' & Es' & Hwf' & _ & _ & Hstable); [done|lia..|].
  exists s, s'. split; [done|]. split; [done|]. split; [intros; by apply registry_live_at|].
  intros id slot Hs. split; [by apply Hstable|]. apply Hstable in Hs.
  apply (wf_index _ Hwf') in Hs as (_ & g & Hg). unfold slot_id. by rewrite Hg.
Qed.
(** The generation gate: a resource is recorded or released only by the exact live generation.
    A stale or unloaded generation changes nothing and is told so; the live one changes its own
    ledger alone, by the ledger's own operation. *)
Theorem registry_generation_gate r id g res :
  let '(r1, ok1) := record r id g res in
  let '(r2, ok2) := release r id g res in
  (is_live r id g = false -> r1 = r /\ r2 = r /\ ok1 = false /\ ok2 = false /\ active_resource_count r id g = None) /\
  (is_live r id g = true -> exists l, LiveTable.get (table r) id = Some (g, l) /\
     ok1 = true /\ LiveTable.get (table r1) id = Some (g, PluginLedger.record l res) /\
     ok2 = (PluginLedger.release l res).2 /\ LiveTable.get (table r2) id = Some (g, (PluginLedger.release l res).1) /\
     forall id', id' <> id -> LiveTable.get (table r1) id' = LiveTable.get (table r) id' /\
                              LiveTable.get (table r2) id' = LiveTable.get (table r) id').
Proof.
  unfold record, release, active_resource_count, is_live, LiveTable.is_live.
  change (LiveTable.entries (table r) !! id) with (LiveTable.get (table r) id).
  destruct (registry_ledger_mut r id (fun l => PluginLedger.record l res)) as (_&_&_&_& Ho1 & Hg1).
  destruct (registry_ledger_mut r id (fun l => (PluginLedger.release l res).1)) as (_&_&_&_& Ho2 & Hg2).
  destruct (LiveTable.get (table r) id) as [[lg l]|] eqn:E; [|done].
  destruct (lg =? g) eqn:Eg; simpl; [|done]. apply Z.eqb_eq in Eg. subst lg. split; [done|]. intros _.
  exists l. do 5 (split; [done|]). intros id' Hne. split; [by apply Ho1|by apply Ho2].
Qed.
End Registry.

(** ** Concrete runs *)
Module PluginExamples.
Import PluginLedger.

Definition script : list op := [Record_ (Hook 1); Record_ (Timer 5); Record_ (Hook 1); Record_ (Import "i"); Release (Hook 1)].

Lemma ledger_teardown_order_witness :
  teardown_order (run new script).1 = [Import "i"; Timer 5; Hook 1] /\ len (run new script).1 = 3.
Proof.
  pose proof (ledger_teardown_order script) as Hx. destruct Hx as (H1 & H2 & _); [by vm_compute|].
  split; [exact H1|exact H2].
Defined.

Lemma registry_slots_agree_witness :
  exists s s', Registry.run (0, Registry.new) [Registry.Insert "a"; Registry.Insert "b"; Registry.Insert "a"] = Some s /\
    Registry.run s [Registry.Remove "a"] = Some s' /\
    (Registry.slot_of s.2 "a" = Some 0 -> Registry.slot_id s'.2 0 = Some "a").
Proof.
  destruct (Registry.registry_slots_agree 0 [Registry.Insert "a"; Registry.Insert "b"; Registry.Insert "a"] [Registry.Remove "a"])
    as (s & s' & H1 & H2 & _ & H4); [by vm_compute|].
  exists s, s'. split; [exact H1|]. split; [exact H2|]. intros Hs. apply (H4 "a" 0 Hs).
Defined.

Lemma registry_generation_gate_witness :
  (Registry.record Registry.new "a" 1 (Hook 7)).2 = false /\
  forall s, Registry.run (0, Registry.new) [Registry.Insert "a"] = Some s ->
    (Registry.record s.2 "a" 1 (Hook 7)).2 = true.
Proof.
  split.
  - pose proof (Registry.registry_generation_gate Registry.new "a" 1 (Hook 7)) as [H _].
    destruct (H eq_refl) as (_ & _ & H3 & _). exact H3.
  - intros s E. pose proof (Registry.registry_generation_gate s.2 "a" 1 (Hook 7)) as Hg.
    destruct (Registry.record s.2 "a" 1 (Hook 7)) as [r1 ok1].
    destruct (Registry.release s.2 "a" 1 (Hook 7)) as [r2 ok2]. destruct Hg as [_ H].
    destruct H as (l & _ & H & _); [|exact H]. vm_compute in E. injection E as <-. vm_compute. reflexivity.
Defined.

Example live_at_reload :
  (fun s => (Registry.live_at s.2 0 1, Registry.live_at s.2 0 3, Registry.slot_of s.2 "a")) <$>
    Registry.run (0, Registry.new) [Registry.Insert "a"; Registry.Insert "b"; Registry.Insert "a"] =
  Some (None, Some "a", Some 0).
Proof. vm_compute. reflexivity. Qed.
End PluginExamples.
