(* ===== verification/ResourceLedger.v ===== *)
(** What the plugin registry promises to the parts that own resources (core/src/plugin.rs behind the
    facade of core/src/v8host.rs).

    [Ledger] is the interface: which generation of a plugin is live, what its ledger holds in order of
    acquisition, and the operations that change either. [LedgerLaws] states them; [room r n] is that [n]
    more loads and records fit the 64-bit sequences and the 32-bit slots. The instance is the modelled
    registry, whose ledgers represent their acquisitions. *)
From S2P Require Import Prelude.
From S2P Require Import BTree.
From S2P Require Import Liveness.
From S2P Require Import Plugin.
Export PluginLedger(Resource(..), Phase(..), remove_last).
#[export] Existing Instance PluginLedger.Resource_eq_dec.
#[export] Existing Instance PluginLedger.Phase_eq_dec.

Class Ledger (R : Type) := {
  generation : R -> string -> option Z;
  held : R -> string -> list Resource;
  (** [REGISTRY.insert], [remove] (with the teardown order of the removed ledger), [record], [release]. *)
  load : R -> string -> option (R * Z);
  unload : R -> string -> option (R * list Resource);
  record_resource : R -> string -> Z -> Resource -> R * bool;
  release_resource : R -> string -> Z -> Resource -> R * bool;
  sound : R -> Prop;
  room : R -> nat -> Prop;
}.

(** [owner_is_live] *)
Definition owner_is_live {R} `{Ledger R} (r : R) (id : string) (g : Z) : bool := bool_decide (generation r id = Some g).

(** Another ledger is as it was. *)
Definition same_but {R} `{Ledger R} (r r' : R) (id : string) (g : option Z) (l : list Resource) : Prop :=
  (forall id', generation r' id' = if decide (id' = id) then g else generation r id') /\
  (forall id', held r' id' = if decide (id' = id) then l else held r id').

Class LedgerLaws (R : Type) `{Ledger R} := {
  record_dead : forall (r : R) id g x, generation r id <> Some g -> record_resource r id g x = (r, false);
  release_dead : forall (r : R) id g x, generation r id <> Some g -> release_resource r id g x = (r, false);
  record_live : forall (r : R) id g x n, sound r -> room r (S n) -> generation r id = Some g ->
    exists r', record_resource r id g x = (r', true) /\ sound r' /\ room r' n /\ same_but r r' id (Some g) (held r id ++ [x]);
  release_live : forall (r : R) id g x, sound r -> generation r id = Some g ->
    exists r', release_resource r id g x = (r', bool_decide (x ∈ held r id)) /\ sound r' /\ (forall n, room r n -> room r' n) /\
      same_but r r' id (Some g) (remove_last x (held r id));
  load_fresh : forall (r : R) id n, sound r -> room r (S n) -> generation r id = None ->
    exists r' g, load r id = Some (r', g) /\ sound r' /\ room r' n /\ same_but r r' id (Some g) [];
  unload_live : forall (r : R) id, sound r ->
    exists r', unload r id = Some (r', reverse (held r id)) /\ sound r' /\ (forall n, room r n -> room r' n) /\ same_but r r' id None [];
  room_less : forall (r : R) n m, room r n -> (m <= n)%nat -> room r m;
}.

Lemma remove_last_elem x y l : x <> y -> x ∈ remove_last y l <-> x ∈ l.
Proof.
  intros Hne. induction l as [|z l IH]; cbn [remove_last]; [done|]. case_bool_decide; [by rewrite !elem_of_cons, IH|]. case_bool_decide; [|done].
  subst z. rewrite elem_of_cons. naive_solver.
Qed.

Lemma remove_last_incl x y l : x ∈ remove_last y l -> x ∈ l.
Proof.
  induction l as [|z l IH]; cbn [remove_last]; [done|]. case_bool_decide; [rewrite !elem_of_cons; naive_solver|]. case_bool_decide; [|done].
  rewrite elem_of_cons. by right.
Qed.

Lemma remove_last_snoc x l : remove_last x (l ++ [x]) = l.
Proof.
  induction l as [|y l IH]; cbn [remove_last app]; [rewrite bool_decide_false by apply not_elem_of_nil; by rewrite bool_decide_true|].
  rewrite bool_decide_true by (apply elem_of_app; right; by apply list_elem_of_singleton). by rewrite IH.
Qed.

Section Facts.
Context {R : Type} `{LedgerLaws R}.
Lemma owner_is_live_true (r : R) id g : owner_is_live r id g = true <-> generation r id = Some g.
Proof. unfold owner_is_live. by rewrite bool_decide_eq_true. Qed.

Lemma release_any (r : R) id g x : sound r -> exists r' ok, release_resource r id g x = (r', ok) /\ sound r' /\ (forall n, room r n -> room r' n) /\
  (forall id', generation r' id' = generation r id') /\
  (forall id' y, y ∈ held r' id' -> y ∈ held r id') /\
  (forall id' y, (id' <> id \/ y <> x) -> y ∈ held r id' -> y ∈ held r' id').
Proof.
  intros Hs. destruct (decide (generation r id = Some g)) as [Hg|Hg].
  - destruct (release_live r id g x Hs Hg) as (r' & E & Hs' & Hr & Hgen & Hh). exists r', (bool_decide (x ∈ held r id)). split_and!; [done..| | |].
    + intros id'. rewrite Hgen. destruct (decide (id' = id)) as [->|]; [symmetry; exact Hg|reflexivity].
    + intros id' y. rewrite Hh. destruct (decide (id' = id)) as [->|]; [apply remove_last_incl|done].
    + intros id' y Hne. rewrite Hh. destruct (decide (id' = id)) as [->|]; [|done]. intros Hy. apply remove_last_elem; [naive_solver|done].
  - exists r, false. split_and!; [by apply release_dead|done..].
Qed.
End Facts.

(** ** The registry *)
Module RegistryLedger.
Import Registry.

Definition ledger_of (r : Registry) (id : string) : option (Z * PluginLedger.PluginLedger) := LiveTable.get (table r) id.
Definition r_held (r : Registry) (id : string) : list Resource :=
  match ledger_of r id with Some (_, l) => btree_values (PluginLedger.active l) | None => [] end.
Definition r_sound (r : Registry) : Prop :=
  wf r /\ forall id g l, ledger_of r id = Some (g, l) -> exists acq, PluginLedger.represents l acq.
Definition r_room (r : Registry) (n : nat) : Prop :=
  LiveTable.next_id (table r) + Z.of_nat n <= u64_max /\ Z.of_nat (length (slots r)) + Z.of_nat n <= 2 ^ 32 - 1 /\
  Z.of_nat n <= u64_max /\ forall id g l, ledger_of r id = Some (g, l) -> PluginLedger.next_sequence l + Z.of_nat n <= u64_max.

(** The interop epoch is kept beside the registry. *)
#[export] Instance registry_ledger : Ledger (Z * Registry) := {|
  generation r id := generation_of r.2 id;
  held r id := r_held r.2 id;
  load r id := (fun x => (x.1, x.2)) <$> insert r.1 r.2 id;
  unload r id := (fun x => (x.1, match x.2 with Some (_, l) => PluginLedger.teardown_order l | None => [] end)) <$> remove r.1 r.2 id;
  record_resource r id g x := let '(r', ok) := Registry.record r.2 id g x in ((r.1, r'), ok);
  release_resource r id g x := let '(r', ok) := Registry.release r.2 id g x in ((r.1, r'), ok);
  sound r := r_sound r.2;
  room r n := r_room r.2 n;
|}.

Lemma generation_ledger r id g : generation_of r id = Some g <-> exists l, ledger_of r id = Some (g, l).
Proof. unfold generation_of, ledger_of. destruct (LiveTable.get (table r) id) as [[g' l]|]; cbn; naive_solver. Qed.

(** What a ledger mutation does to the registry. *)
Lemma mutated r id f g l :
  r_sound r -> ledger_of r id = Some (g, l) ->
  (exists acq, PluginLedger.represents (f l) acq) ->
  let r' := (ledger_mut r id f).1 in
  r_sound r' /\ (forall id', generation_of r' id' = generation_of r id') /\
  (forall id', r_held r' id' = if decide (id' = id) then btree_values (PluginLedger.active (f l)) else r_held r id') /\
  (forall n m, r_room r n -> (m <= n)%nat -> PluginLedger.next_sequence (f l) + Z.of_nat m <= u64_max -> r_room r' m).
Proof.
  intros [Hw Hr] Hl Hf. destruct (registry_ledger_mut r id f) as (Hg & Hsl & Hix & Hn & Ho & Hi). fold (ledger_of r id) in Hi. rewrite Hl in Hi. cbn in Hi.
  assert (forall id' g' l', ledger_of (ledger_mut r id f).1 id' = Some (g', l') -> id' = id /\ g' = g /\ l' = f l \/ ledger_of r id' = Some (g', l')) as Hcase.
  { intros id' g' l' H'. destruct (decide (id' = id)) as [->|Hne]; unfold ledger_of in *; [left; rewrite Hi in H'; by simplify_eq|right; by rewrite Ho in H']. }
  split_and!; [|done| |].
  - split; [by apply registry_ledger_mut_wf|]. intros id' g' l' [(-> & -> & ->)|H']%Hcase; [done|by eapply Hr].
  - intros id'. unfold r_held, ledger_of. destruct (decide (id' = id)) as [->|Hne]; [by rewrite Hi|by rewrite Ho].
  - intros n m (H1 & H2 & H3 & H4) Hmn Hs. unfold r_room. rewrite Hn, Hsl. split_and!; [lia..|]. intros id' g' l' [(-> & -> & ->)|H']%Hcase; [done|]. specialize (H4 _ _ _ H'). lia.
Qed.

#[export] Instance registry_ledger_laws : LedgerLaws (Z * Registry).
Proof.
  split; unfold same_but; cbn [generation held load unload record_resource release_resource sound room registry_ledger fst snd].
  - intros [e r] id g x Hg. cbn [snd fst] in *. unfold Registry.record. unfold generation_of in Hg. destruct (LiveTable.get (table r) id) as [[g' l]|]; [|done].
    cbn in Hg. by rewrite (proj2 (Z.eqb_neq g' g)) by congruence.
  - intros [e r] id g x Hg. cbn [snd fst] in *. unfold Registry.release. unfold generation_of in Hg. destruct (LiveTable.get (table r) id) as [[g' l]|]; [|done].
    cbn in Hg. by rewrite (proj2 (Z.eqb_neq g' g)) by congruence.
  - intros [e r] id g x n Hs Hr Hg. cbn [snd fst] in *. apply generation_ledger in Hg as Hl. destruct Hl as [l Hl]. destruct (proj2 Hs _ _ _ Hl) as [acq Hacq].
    assert (PluginLedger.next_sequence l + Z.of_nat (S n) <= u64_max) as Hseq by (by eapply Hr).
    assert (PluginLedger.represents (PluginLedger.record l x) (acq ++ [x])) as Hacq' by (apply PluginLedger.ledger_record; [done|lia]).
    destruct (mutated r id (fun l => PluginLedger.record l x) g l Hs Hl) as (Hs' & Hgen & Hh & Hroom); [by eexists|].
    eexists. unfold Registry.record. fold (ledger_of r id). rewrite Hl, Z.eqb_refl. cbn [negb]. split; [done|]. cbn [snd]. split_and!; [done| | |].
    + apply (Hroom (S n)); [done|lia|]. cbn [PluginLedger.record PluginLedger.next_sequence]. pose proof (PluginLedger.rep_next _ _ Hacq). rewrite u64_succ_small by lia. lia.
    + intros id'. rewrite Hgen. destruct (decide (id' = id)) as [->|Hne]; [by subst|done].
    + intros id'. rewrite Hh. destruct (decide (id' = id)) as [->|Hne]; [|done]. rewrite (PluginLedger.rep_values _ _ Hacq'). unfold r_held. rewrite Hl. by rewrite (PluginLedger.rep_values _ _ Hacq).
  - intros [e r] id g x Hs Hg. cbn [snd fst] in *. apply generation_ledger in Hg as Hl. destruct Hl as [l Hl]. destruct (proj2 Hs _ _ _ Hl) as [acq Hacq].
    assert (PluginLedger.represents (PluginLedger.release l x).1 (remove_last x acq) /\ (PluginLedger.release l x).2 = bool_decide (x ∈ acq) /\
            PluginLedger.next_sequence (PluginLedger.release l x).1 = PluginLedger.next_sequence l) as (Hacq' & Hok & Hseq).
    { destruct (decide (x ∈ acq)) as [Hin|Hni].
      - destruct (PluginLedger.ledger_release_hit l acq x Hacq Hin) as (? & ? & ?). by rewrite bool_decide_true.
      - by rewrite (PluginLedger.ledger_release_miss l acq x Hacq Hni), PluginLedger.ledger_remove_last_not_in, bool_decide_false. }
    destruct (mutated r id (fun l => (PluginLedger.release l x).1) g l Hs Hl) as (Hs' & Hgen & Hh & Hroom); [by eexists|].
    assert (r_held r id = acq) as Er by (unfold r_held; rewrite Hl; by apply PluginLedger.rep_values).
    eexists. unfold Registry.release. fold (ledger_of r id). rewrite Hl, Z.eqb_refl, Er, Hok. split; [done|]. cbn [snd]. split_and!; [done| | |].
    + intros n Hn. apply (Hroom n); [done|lia|]. rewrite Hseq. by eapply Hn.
    + intros id'. rewrite Hgen. destruct (decide (id' = id)) as [->|Hne]; [by subst|done].
    + intros id'. rewrite Hh. destruct (decide (id' = id)) as [->|Hne]; [|done]. by rewrite (PluginLedger.rep_values _ _ Hacq').
  - intros [e r] id n [Hw Hs] (H1 & H2 & H3 & H4) Hg. cbn [snd fst] in *. destruct (registry_insert e r id Hw) as (r' & E & Hw' & Ht & Hlen & _); [lia..|].
    rewrite E. cbn [fmap option_fmap option_map fst snd]. eexists (_, r'), _. split; [done|]. cbn [snd].
    assert (forall id', ledger_of r' id' = if decide (id' = id) then Some (LiveTable.next_id (table r), PluginLedger.new) else ledger_of r id') as Hl.
    { intros id'. unfold ledger_of, LiveTable.get. rewrite Ht. cbn. rewrite lookup_insert. destruct (decide (id = id')), (decide (id' = id)); by subst. }
    split_and!.
    + split; [done|]. intros id' g l. rewrite Hl. destruct (decide (id' = id)) as [->|Hne]; [|apply Hs]. intros [= <- <-]. exists []. apply PluginLedger.ledger_new_represents.
    + unfold r_room. rewrite Ht. cbn [LiveTable.insert fst LiveTable.next_id]. rewrite u64_succ_small by (pose proof (wf_next _ Hw); lia). split_and!; [lia..|].
      intros id' g l. rewrite Hl. destruct (decide (id' = id)) as [->|Hne]; [intros [= <- <-]; cbn; lia|]. intros H'. specialize (H4 _ _ _ H'). lia.
    + intros id'. unfold generation_of. fold (ledger_of r' id') (ledger_of r id'). rewrite Hl. by destruct (decide (id' = id)) as [->|Hne].
    + intros id'. unfold r_held. rewrite Hl. destruct (decide (id' = id)) as [->|Hne]; [|done]. exact (PluginLedger.rep_values _ _ PluginLedger.ledger_new_represents).
  - intros [e r] id [Hw Hs]. cbn [snd fst] in *. destruct (registry_remove e r id Hw) as (r' & E & Hw' & Ht & Hlen & Hix). rewrite E. cbn [fmap option_fmap option_map fst snd].
    eexists (_, r'). cbn [snd].
    assert (forall id', ledger_of r' id' = if decide (id' = id) then None else ledger_of r id') as Hl.
    { intros id'. unfold ledger_of, LiveTable.get. rewrite Ht. cbn. rewrite lookup_delete. destruct (decide (id = id')), (decide (id' = id)); by subst. }
    split_and!.
    + f_equal. f_equal. unfold r_held. fold (ledger_of r id). by destruct (ledger_of r id) as [[g l]|].
    + split; [done|]. intros id' g l. rewrite Hl. destruct (decide (id' = id)) as [->|Hne]; [done|]. apply Hs.
    + intros n (H1 & H2 & H3 & H4). unfold r_room. rewrite Ht, Hlen. split_and!; [done..|]. intros id' g l. rewrite Hl. destruct (decide (id' = id)) as [->|Hne]; [done|]. apply H4.
    + intros id'. unfold generation_of. fold (ledger_of r' id') (ledger_of r id'). rewrite Hl. by destruct (decide (id' = id)) as [->|Hne].
    + intros id'. unfold r_held. rewrite Hl. by destruct (decide (id' = id)) as [->|Hne].
  - intros r n m (H1 & H2 & H3 & H4) Hmn. split_and!; [lia..|]. intros id g l Hl. specialize (H4 _ _ _ Hl). lia.
Qed.

(** From start-up there is room for 2^31 loads and records. *)
Lemma registry_room e : sound (e, new) /\ room (e, new) (Z.to_nat (2 ^ 31)).
Proof.
  assert (forall id, ledger_of new id = None) as Hn by (intros id; apply lookup_empty).
  cbn. split; [split; [apply registry_new_wf|]|split_and!]; try (intros id g l; by rewrite Hn); rewrite ?Z2Nat.id by done; by vm_compute.
Qed.
End RegistryLedger.
