(* ===== verification/EntityLive.v ===== *)
(** The entity books (core/src/entity_live.rs): the liveness authority for entities.

    [books] gathers the thread-local tables: the map epoch, [LIVE] (a [LiveTable] from entity index
    to engine serial), [FLAT] (its flat mirror, a vector of [FLAT_LEN] pairs) and the repair flag.
    Calls into the surface arbiter and the shared entity switch are returned as a list of
    [notification]s, in call order. Theorems: the flat mirror answers exactly what [LIVE] says, a
    host id that died never becomes live again, which notifications retire which identity, and what
    a repair sweep leaves. *)
From S2P Require Import Prelude.
From S2P Require Import Liveness.

Module EntityLive.

(** entity.rs: [HANDLE_ENTRY_BITS = 15]. *)
Definition HANDLE_ENTRY_BITS : Z := 15.
Definition FLAT_LEN : Z := Z.shiftl 1 HANDLE_ENTRY_BITS.

Record books := mkBooks {
  map_epoch : Z;
  live : LiveTable.LiveTable Z Z;
  flat : list (Z * Z);
  repair_armed : bool;
}.

(** The calls the books make on an identity change. *)
Inductive notification :=
| SurfaceRetireEntity (index id : Z)
| SwitchEntityLifecycle (index : Z) (retired : option Z)
| SurfaceReset
| SwitchReset
| SurfacePruneDead
| SwitchPruneDead.

Definition init : books :=
  {| map_epoch := 1; live := LiveTable.new 1;
     flat := replicate (Z.to_nat FLAT_LEN) (0, 0); repair_armed := false |}.

Definition flat_slot (index : Z) : option nat :=
  if (0 <=? index) && (index <? FLAT_LEN) then Some (Z.to_nat index) else None.

Definition mirror (t : LiveTable.LiveTable Z Z) (f : list (Z * Z)) (index : Z) : list (Z * Z) :=
  match flat_slot index with
  | None => f
  | Some i => <[i := default (0, 0) (LiveTable.get t index)]> f
  end.

Definition mirror_all (t : LiveTable.LiveTable Z Z) (f : list (Z * Z)) : list (Z * Z) :=
  foldl (fun f index =>
           match flat_slot index, LiveTable.get t index with
           | Some i, Some e => <[i := e]> f
           | _, _ => f
           end)
        (replicate (length f) (0, 0)) (LiveTable.keys t).

Definition retire_lifecycle (index : Z) (retired : option Z) : list notification :=
  match retired with Some id => [SurfaceRetireEntity index id] | None => [] end ++
  [SwitchEntityLifecycle index retired].

Definition on_created (b : books) (index engine_serial : Z) : books * Z * list notification :=
  let retired := fst <$> LiveTable.get (live b) index in
  let '(t, id) := LiveTable.insert (live b) index engine_serial in
  ({| map_epoch := map_epoch b; live := t; flat := mirror t (flat b) index; repair_armed := repair_armed b |},
   id, retire_lifecycle index retired).

Definition on_spawned (b : books) (index engine_serial : Z) : books * list notification :=
  let fresh (retired : option Z) :=
    let '(t, _) := LiveTable.insert (live b) index engine_serial in
    ({| map_epoch := map_epoch b; live := t; flat := mirror t (flat b) index; repair_armed := repair_armed b |},
     retire_lifecycle index retired) in
  match LiveTable.get (live b) index with
  | Some (id, s) => if s =? engine_serial then (b, retire_lifecycle index None) else fresh (Some id)
  | None => fresh None
  end.

Definition on_deleted (b : books) (index engine_serial : Z) : books * option Z * list notification :=
  match LiveTable.get (live b) index with
  | Some (_, s) =>
      if s =? engine_serial then
        let '(t, e) := LiveTable.remove (live b) index in
        let removed := fst <$> e in
        ({| map_epoch := map_epoch b; live := t; flat := mirror t (flat b) index; repair_armed := repair_armed b |},
         removed, retire_lifecycle index removed)
      else (b, None, retire_lifecycle index None)
  | None => (b, None, retire_lifecycle index None)
  end.

Definition lookup (b : books) (index : Z) : option (Z * Z) := LiveTable.get (live b) index.

Definition adopt (b : books) (index engine_serial : Z) : option Z :=
  match LiveTable.get (live b) index with
  | Some (id, s) => if s =? engine_serial then Some id else None
  | None => None
  end.

(** [FLAT.try_borrow] always succeeds here: no borrow is held across a call. *)
Definition engine_serial_for (b : books) (index id : Z) : option Z :=
  if id =? 0 then None
  else match flat_slot index with
       | Some i => match flat b !! i with
                   | Some (cur, s) => if cur =? id then Some s else None
                   | None => None
                   end
       | None => match LiveTable.get (live b) index with
                 | Some (cur, s) => if cur =? id then Some s else None
                 | None => None
                 end
       end.

Definition clear_for_map_transition (b : books) : books * list notification :=
  let t := LiveTable.clear (live b) in
  ({| map_epoch := if map_epoch b =? 0 then 0 else default 0 (checked_add (map_epoch b) 1);
      live := t; flat := mirror_all t (flat b); repair_armed := true |},
   [SurfaceReset; SwitchReset]).

Definition take_repair_armed (b : books) : books * bool :=
  ({| map_epoch := map_epoch b; live := live b; flat := flat b; repair_armed := false |}, repair_armed b).

(** The two loops of [repair_reconcile]. *)
Fixpoint repair_upsert (t : LiveTable.LiveTable Z Z) (live_slots : list (Z * Z)) : LiveTable.LiveTable Z Z :=
  match live_slots with
  | [] => t
  | (index, serial) :: rest =>
      repair_upsert
        (match LiveTable.get t index with
         | Some (_, s) => if s =? serial then t else (LiveTable.insert t index serial).1
         | None => (LiveTable.insert t index serial).1
         end) rest
  end.
Definition repair_evict (t : LiveTable.LiveTable Z Z) (seen : list Z) : LiveTable.LiveTable Z Z :=
  foldl (fun t k => if bool_decide (k ∈ seen) then t else (LiveTable.remove t k).1) t (LiveTable.keys t).

Definition repair_reconcile (b : books) (live_slots : list (Z * Z)) : books * list notification :=
  let t := repair_evict (repair_upsert (live b) live_slots) live_slots.*1 in
  ({| map_epoch := map_epoch b; live := t; flat := mirror_all t (flat b); repair_armed := repair_armed b |},
   [SurfacePruneDead; SwitchPruneDead]).

Definition len (b : books) : nat := LiveTable.len (live b).

Inductive op :=
| Created (index serial : Z)
| Spawned (index serial : Z)
| Deleted (index serial : Z)
| MapTransition
| TakeRepair
| Repair (live_slots : list (Z * Z)).

Definition step (b : books) (o : op) : books * list notification :=
  match o with
  | Created i s => let r := on_created b i s in (r.1.1, r.2)
  | Spawned i s => on_spawned b i s
  | Deleted i s => let r := on_deleted b i s in (r.1.1, r.2)
  | MapTransition => clear_for_map_transition b
  | TakeRepair => ((take_repair_armed b).1, [])
  | Repair l => repair_reconcile b l
  end.
Definition run (b : books) (os : list op) : books := foldl (fun b o => (step b o).1) b os.

(** How many host ids an operation can mint. *)
Definition mints (o : op) : Z :=
  match o with Created _ _ | Spawned _ _ => 1 | Repair l => Z.of_nat (length l) | _ => 0 end.
Definition mints_all (os : list op) : Z := foldr (fun o n => mints o + n) 0 os.

(** The host id [id] is live for [index]. *)
Definition is_live (b : books) (index id : Z) : bool := LiveTable.is_live (live b) index id.

Record wf (b : books) : Prop := {
  wf_live : LiveTable.wf (live b);
  wf_ids : forall index id s, LiveTable.get (live b) index = Some (id, s) -> 1 <= id;
  wf_flat_len : length (flat b) = Z.to_nat FLAT_LEN;
  wf_next : 1 <= LiveTable.next_id (live b);
  wf_flat : forall index i, flat_slot index = Some i ->
    flat b !! i = Some (default (0, 0) (LiveTable.get (live b) index));
}.
(** ** How the live table evolves *)
Notation table := (LiveTable.LiveTable Z Z).

Definition cost (o : LiveTable.op Z Z) : Z := match o with LiveTable.Insert _ _ => 1 | _ => 0 end.

Inductive evolves (t : table) : table -> Z -> Prop :=
| ev_refl : evolves t t 0
| ev_step t' n o : evolves t t' n -> evolves t (LiveTable.step t' o) (n + cost o).

Definition ids_ok (t : table) : Prop :=
  LiveTable.wf t /\ 1 <= LiveTable.next_id t /\ forall index id s, LiveTable.get t index = Some (id, s) -> 1 <= id.

Lemma books_table_step (t : table) o :
  ids_ok t -> LiveTable.next_id t + cost o <= u64_max ->
  ids_ok (LiveTable.step t o) /\
  LiveTable.next_id t <= LiveTable.next_id (LiveTable.step t o) <= LiveTable.next_id t + cost o.
Proof.
  intros (Hwf & Hn & Hid) Hlt.
  assert (Hnext : LiveTable.next_id (LiveTable.step t o) = LiveTable.next_id t + cost o).
  { destruct o; cbn [LiveTable.step cost] in *; rewrite ?LiveTable.live_get_mut_next; simpl; try lia.
    rewrite u64_succ_small; lia. }
  assert (0 <= cost o) by (destruct o; simpl; lia).
  split; [|lia]. unfold ids_ok. rewrite Hnext. split; [|split; [lia|]].
  - destruct o as [k m|k|k f|]; cbn [LiveTable.step cost] in *.
    + apply LiveTable.live_insert_wf; [done|lia].
    + by apply LiveTable.live_remove_wf.
    + by apply LiveTable.live_get_mut_wf.
    + by apply LiveTable.live_clear_wf.
  - unfold LiveTable.get in *. intros index id s. destruct o as [k m|k|k f|]; simpl.
    + rewrite lookup_insert. case_decide; [intros [= <- <-]; lia|by apply Hid].
    + rewrite lookup_delete_Some. intros [_ ?]. by eapply Hid.
    + unfold LiveTable.get_mut. destruct (LiveTable.entries t !! k) as [[id0 m0]|] eqn:E; simpl; [|by apply Hid].
      rewrite lookup_insert. case_decide; [intros [= <- <-]; by eapply Hid|by apply Hid].
    + by rewrite lookup_empty.
Qed.

Lemma books_evolves t t' n :
  evolves t t' n -> ids_ok t -> LiveTable.next_id t + n <= u64_max ->
  ids_ok t' /\ LiveTable.next_id t <= LiveTable.next_id t' <= LiveTable.next_id t + n /\
  forall index id, id < LiveTable.next_id t -> LiveTable.is_live t index id = false -> LiveTable.is_live t' index id = false.
Proof.
  intros He Hok. induction He as [|t' n o He IH]; intros Hn; [split; [done|split; [lia|done]]|].
  assert (0 <= cost o) by (destruct o; simpl; lia). destruct IH as (H1 & H2 & H3); [lia|].
  destruct (books_table_step t' o H1 ltac:(lia)) as [H4 H5]. split; [done|]. split; [lia|].
  intros index id Hid Hd. apply LiveTable.live_step_dead; [lia|]. by apply H3.
Qed.

Lemma evolves_trans t1 t2 t3 n m : evolves t1 t2 n -> evolves t2 t3 m -> evolves t1 t3 (n + m).
Proof.
  intros H1 H2. induction H2 as [|t' m o H2 IH]; [by rewrite Z.add_0_r|].
  rewrite Z.add_assoc. by constructor.
Qed.

Lemma evolves_insert (t : table) k v : evolves t (LiveTable.insert t k v).1 1.
Proof. apply (ev_step t t 0 (LiveTable.Insert k v)). constructor. Qed.
Lemma evolves_remove (t : table) k : evolves t (LiveTable.remove t k).1 0.
Proof. apply (ev_step t t 0 (LiveTable.Remove k)). constructor. Qed.

Lemma evolves_upsert (t : table) l : exists n, 0 <= n <= Z.of_nat (length l) /\ evolves t (repair_upsert t l) n.
Proof.
  revert t. induction l as [|[index serial] l IH]; intros t; simpl; [exists 0; split; [lia|constructor]|].
  assert (Hi : exists n, 0 <= n <= Z.of_nat (length l) + 1 /\ evolves t (repair_upsert (LiveTable.insert t index serial).1 l) n).
  { destruct (IH (LiveTable.insert t index serial).1) as (n & Hn & He). exists (1 + n). split; [lia|].
    eapply evolves_trans; [apply evolves_insert|done]. }
  destruct Hi as (n & Hn & Hi). destruct (LiveTable.get t index) as [[id s]|]; [destruct (s =? serial)|].
  - destruct (IH t) as (n' & Hn' & He'). exists n'. split; [lia|done].
  - exists n. split; [lia|done].
  - exists n. split; [lia|done].
Qed.

Lemma evolves_evict (t : table) seen : evolves t (repair_evict t seen) 0.
Proof.
  unfold repair_evict. assert (forall l t', evolves t t' 0 ->
    evolves t (foldl (fun t k => if bool_decide (k ∈ seen) then t else (LiveTable.remove t k).1) t' l) 0) as H; [|apply H; constructor].
  induction l as [|k l IH]; intros t' He; simpl; [done|]. apply IH. case_bool_decide; [done|].
  apply (evolves_trans t t' _ 0 0); [done|apply evolves_remove].
Qed.

Lemma books_step_evolves b o : exists n, 0 <= n <= mints o /\ evolves (live b) (live (step b o).1) n.
Proof.
  destruct o as [i s|i s|i s| | |l]; simpl.
  - exists 1. split; [lia|apply (evolves_insert (live b) i s)].
  - unfold on_spawned. destruct (LiveTable.get (live b) i) as [[id s0]|].
    + destruct (s0 =? s); [exists 0; split; [lia|constructor]|exists 1; split; [lia|apply evolves_insert]].
    + exists 1. split; [lia|apply evolves_insert].
  - exists 0. split; [lia|]. unfold on_deleted. destruct (LiveTable.get (live b) i) as [[id s0]|]; [|constructor].
    destruct (s0 =? s); [apply evolves_remove|constructor].
  - exists 0. split; [lia|]. apply (ev_step _ _ 0 LiveTable.Clear). constructor.
  - exists 0. split; [lia|constructor].
  - destruct (evolves_upsert (live b) l) as (n & Hn & He). exists n. split; [lia|].
    rewrite <- (Z.add_0_r n). eapply evolves_trans; [done|apply evolves_evict].
Qed.

(** ** The flat mirror *)
Lemma flat_slot_Some index i : flat_slot index = Some i <-> 0 <= index < FLAT_LEN /\ i = Z.to_nat index.
Proof.
  unfold flat_slot. destruct ((0 <=? index) && (index <? FLAT_LEN)) eqn:E; bool_to_prop.
  - split; [intros [= <-]; done|intros [_ ->]; done].
  - split; [done|]. intros [H _]. apply andb_false_iff in E as [E|E]; bool_to_prop; lia.
Qed.

Lemma flat_slot_inj i1 i2 n : flat_slot i1 = Some n -> flat_slot i2 = Some n -> i1 = i2.
Proof. rewrite !flat_slot_Some. lia. Qed.

Lemma flat_slot_bound (f : list (Z * Z)) index i : length f = Z.to_nat FLAT_LEN -> flat_slot index = Some i -> (i < length f)%nat.
Proof. intros ->. rewrite flat_slot_Some. lia. Qed.

Lemma books_mirror_lookup (t t' : table) (f : list (Z * Z)) k :
  length f = Z.to_nat FLAT_LEN ->
  (forall index, index <> k -> LiveTable.get t' index = LiveTable.get t index) ->
  (forall index i, flat_slot index = Some i -> f !! i = Some (default (0, 0) (LiveTable.get t index))) ->
  length (mirror t' f k) = Z.to_nat FLAT_LEN /\
  (forall index i, flat_slot index = Some i -> mirror t' f k !! i = Some (default (0, 0) (LiveTable.get t' index))).
Proof.
  intros Hlen Ho Hf. unfold mirror. destruct (flat_slot k) as [n|] eqn:Ek.
  - rewrite length_insert. split; [done|]. intros index i Hi. destruct (decide (index = k)) as [->|Hne].
    + rewrite Ek in Hi. injection Hi as <-. apply list_lookup_insert_eq. by eapply flat_slot_bound.
    + rewrite list_lookup_insert_ne; [by rewrite (Hf index), Ho|]. intros ->. apply Hne. by eapply flat_slot_inj.
  - split; [done|]. intros index i Hi. rewrite Ho; [by apply Hf|]. intros ->. congruence.
Qed.

Lemma books_mirror_all_lookup (t : table) (f : list (Z * Z)) :
  length f = Z.to_nat FLAT_LEN ->
  length (mirror_all t f) = Z.to_nat FLAT_LEN /\
  (forall index i, flat_slot index = Some i -> mirror_all t f !! i = Some (default (0, 0) (LiveTable.get t index))).
Proof.
  intros Hlen. unfold mirror_all. rewrite Hlen. set (g := fun (f : list (Z * Z)) index => _).
  assert (Hgen : forall l f, length f = Z.to_nat FLAT_LEN ->
     length (foldl g f l) = Z.to_nat FLAT_LEN /\
     (forall index i, flat_slot index = Some i ->
        foldl g f l !! i = if bool_decide (index ∈ l /\ is_Some (LiveTable.get t index)) then LiveTable.get t index else f !! i)).
  { induction l as [|k l IH]; intros f0 Hf0; cbn [foldl].
    { split; [done|]. intros index i Hi. rewrite bool_decide_false; [done|]. intros [[]%elem_of_nil _]. }
    assert (Hg : length (g f0 k) = Z.to_nat FLAT_LEN) by (unfold g; repeat case_match; by rewrite ?length_insert).
    destruct (IH (g f0 k) Hg) as [H1 H2]. split; [done|]. intros index i Hi. rewrite (H2 index i Hi).
    destruct (LiveTable.get t index) as [e|] eqn:Et.
    - destruct (decide (index ∈ l)) as [Hin|Hnin]; [by rewrite !bool_decide_true by (split; [in_list|by eexists])|].
      rewrite (bool_decide_false (index ∈ l /\ _)) by tauto. destruct (decide (index = k)) as [->|Hne].
      + rewrite bool_decide_true by (split; [in_list|by eexists]). unfold g. rewrite Hi, Et.
        rewrite list_lookup_insert_eq; [done|]. by eapply flat_slot_bound.
      + rewrite bool_decide_false; [|intros [[?|?]%elem_of_cons _]; done]. unfold g.
        destruct (flat_slot k) as [n|] eqn:Ek; [|done]. destruct (LiveTable.get t k); [|done].
        rewrite list_lookup_insert_ne; [done|]. intros ->. apply Hne. by eapply flat_slot_inj.
    - rewrite !bool_decide_false by (intros [_ [? ?]]; done). unfold g.
      destruct (flat_slot k) as [n|] eqn:Ek; [|done]. destruct (LiveTable.get t k) eqn:Etk; [|done].
      rewrite list_lookup_insert_ne; [done|]. intros ->. assert (index = k) by (by eapply flat_slot_inj). congruence. }
  destruct (Hgen (LiveTable.keys t) (replicate (Z.to_nat FLAT_LEN) (0, 0))) as [H1 H2]; [apply length_replicate|].
  split; [done|]. intros index i Hi. rewrite (H2 index i Hi). destruct (LiveTable.get t index) as [e|] eqn:Et.
  - rewrite bool_decide_true; [done|]. split; [|by eexists]. unfold LiveTable.keys.
    apply list_elem_of_fmap. exists (index, e). split; [done|]. by apply elem_of_map_to_list.
  - rewrite bool_decide_false by (intros [_ [? ?]]; done). apply lookup_replicate_2.
    apply flat_slot_Some in Hi. lia.
Qed.

Lemma books_init_wf : wf init.
Proof.
  assert (Hg : forall index, LiveTable.get (live init) index = None) by (intros; apply lookup_empty).
  split.
  - by apply LiveTable.live_new_wf.
  - intros index id s. by rewrite Hg.
  - apply length_replicate.
  - done.
  - intros index i Hi. rewrite Hg. apply lookup_replicate_2. apply flat_slot_Some in Hi. lia.
Qed.

Lemma books_step_flat b o :
  wf b -> length (flat (step b o).1) = Z.to_nat FLAT_LEN /\
  (forall index i, flat_slot index = Some i -> flat (step b o).1 !! i = Some (default (0, 0) (LiveTable.get (live (step b o).1) index))).
Proof.
  intros [Hl Hid Hlen Hn Hf].
  assert (Hins : forall i s index, index <> i -> LiveTable.get (LiveTable.insert (live b) i s).1 index = LiveTable.get (live b) index)
    by (intros i s index Hne; unfold LiveTable.get; simpl; by rewrite lookup_insert_ne).
  assert (Hdel : forall i index, index <> i -> LiveTable.get (LiveTable.remove (live b) i).1 index = LiveTable.get (live b) index)
    by (intros i index Hne; unfold LiveTable.get; simpl; by rewrite lookup_delete_ne).
  destruct o as [i s|i s|i s| | |l]; cbn [step].
  - apply (books_mirror_lookup (live b) (LiveTable.insert (live b) i s).1); auto.
  - unfold on_spawned. destruct (LiveTable.get (live b) i) as [[id s0]|]; [destruct (s0 =? s); [done|]|];
      apply (books_mirror_lookup (live b) (LiveTable.insert (live b) i s).1); auto.
  - unfold on_deleted. destruct (LiveTable.get (live b) i) as [[id s0]|]; [destruct (s0 =? s)|]; [|done..].
    apply (books_mirror_lookup (live b) (LiveTable.remove (live b) i).1); auto.
  - by apply books_mirror_all_lookup.
  - done.
  - by apply books_mirror_all_lookup.
Qed.

Lemma books_step_wf b o :
  wf b -> LiveTable.next_id (live b) + mints o <= u64_max ->
  wf (step b o).1 /\
  LiveTable.next_id (live b) <= LiveTable.next_id (live (step b o).1) <= LiveTable.next_id (live b) + mints o /\
  forall index id, id < LiveTable.next_id (live b) -> is_live b index id = false -> is_live (step b o).1 index id = false.
Proof.
  intros Hwf Hn. destruct (books_step_evolves b o) as (n & Hn' & He).
  destruct (books_evolves _ _ _ He) as ((H1 & H2 & H3) & H4 & H5); [by destruct Hwf|lia|].
  destruct (books_step_flat b o Hwf) as [H6 H7]. split; [by split|]. split; [lia|done].
Qed.

Lemma books_run_wf b os :
  wf b -> LiveTable.next_id (live b) + mints_all os <= u64_max ->
  wf (run b os) /\ LiveTable.next_id (live b) <= LiveTable.next_id (live (run b os)) /\
  forall index id, id < LiveTable.next_id (live b) -> is_live b index id = false -> is_live (run b os) index id = false.
Proof.
  revert b. induction os as [|o os IH]; intros b Hwf Hn; [split; [done|split; [simpl; lia|done]]|].
  cbn [mints_all foldr] in Hn. fold (mints_all os) in Hn.
  assert (Hm : 0 <= mints_all os) by (clear; induction os as [|o os IH]; simpl; [lia|]; destruct o; simpl; lia).
  destruct (books_step_wf b o Hwf ltac:(lia)) as (H1 & H2 & H3).
  destruct (IH (step b o).1 H1 ltac:(lia)) as (H4 & H5 & H6). split; [done|]. split; [simpl; unfold run in *; lia|].
  intros index id Hid Hd. apply H6; [lia|]. by apply H3.
Qed.
(** ** Properties *)
Lemma books_engine_serial b index id :
  wf b ->
  engine_serial_for b index id =
    match lookup b index with Some (cur, s) => if cur =? id then Some s else None | None => None end.
Proof.
  intros Hwf. unfold engine_serial_for, lookup. destruct (Z.eqb_spec id 0) as [->|Hne].
  - destruct (LiveTable.get (live b) index) as [[cur s]|] eqn:E; [|done].
    pose proof (wf_ids _ Hwf _ _ _ E). by rewrite (proj2 (Z.eqb_neq cur 0)) by lia.
  - destruct (flat_slot index) as [i|] eqn:Ei; [|done]. rewrite (wf_flat _ Hwf _ _ Ei).
    destruct (LiveTable.get (live b) index) as [[cur s]|] eqn:E; simpl; [done|].
    destruct id; [done|..]; done.
Qed.

Lemma books_engine_serial_live b index id :
  wf b -> is_Some (engine_serial_for b index id) <-> is_live b index id = true.
Proof.
  intros Hwf. rewrite books_engine_serial by done. unfold lookup, is_live, LiveTable.is_live, LiveTable.get.
  destruct (LiveTable.entries (live b) !! index) as [[cur s]|]; [destruct (cur =? id)|]; split; try done; by intros [? ?].
Qed.

(** C9. The flat table read on every field access never disagrees with the books: in any state
    reached from start-up, [engine_serial_for] answers the serial stored by [LIVE] for exactly the
    current host id, for every index, inside or outside the flat range. *)
Theorem books_flat_agrees os index id :
  mints_all os < u64_max ->
  engine_serial_for (run init os) index id =
    match lookup (run init os) index with Some (cur, s) => if cur =? id then Some s else None | None => None end.
Proof.
  intros Hn. apply books_engine_serial. apply books_run_wf; [apply books_init_wf|simpl; lia].
Qed.

Lemma mints_all_nonneg os : 0 <= mints_all os.
Proof. induction os as [|o os IH]; simpl; [lia|]. destruct o; simpl; lia. Qed.

Lemma mints_all_app os os' : mints_all (os ++ os') = mints_all os + mints_all os'.
Proof. induction os as [|o os IH]; simpl; [done|]. rewrite IH. lia. Qed.

(** Every state reached from start-up is well formed. *)
Lemma books_reach_wf os :
  mints_all os < u64_max -> wf (run init os) /\ LiveTable.next_id (live (run init os)) <= 1 + mints_all os.
Proof.
  induction os as [|o os IH] using rev_ind; intros Hn; [split; [apply books_init_wf|done]|].
  rewrite mints_all_app in *. cbn [mints_all foldr] in *. pose proof (mints_all_nonneg [o]) as Ho.
  cbn [mints_all foldr] in Ho. destruct IH as [H1 H2]; [lia|].
  unfold run in *. rewrite foldl_app. cbn [foldl]. destruct (books_step_wf _ o H1 ltac:(lia)) as (H3 & H4 & _).
  split; [done|lia].
Qed.

Lemma books_dead_rejected b index id :
  wf b -> is_live b index id = false ->
  engine_serial_for b index id = None /\ forall serial, adopt b index serial <> Some id.
Proof.
  intros Hwf Hd. split.
  - destruct (engine_serial_for b index id) eqn:E; [|done].
    assert (is_live b index id = true) by (apply books_engine_serial_live; [done|by eexists]). congruence.
  - intros serial E. unfold adopt, LiveTable.get in E. unfold is_live, LiveTable.is_live in Hd.
    destruct (LiveTable.entries (live b) !! index) as [[cur s]|]; [|done]. destruct (s =? serial); [|done].
    injection E as ->. by rewrite Z.eqb_refl in Hd.
Qed.

(** A dead entity reference stays dead: once a host id that was live for an index is live no
    longer, no later sequence of entity notifications, map transitions and repair sweeps makes the
    field-access check or [adopt] accept it again. *)
Theorem books_stale_id_stays_dead os1 os2 os3 index id :
  mints_all os1 + mints_all os2 + mints_all os3 < u64_max ->
  let b1 := run init os1 in
  let b2 := run b1 os2 in
  let b3 := run b2 os3 in
  is_live b1 index id = true -> is_live b2 index id = false ->
  engine_serial_for b3 index id = None /\ forall serial, adopt b3 index serial <> Some id.
Proof.
  intros Hn b1 b2 b3 H1 H2.
  pose proof (mints_all_nonneg os1). pose proof (mints_all_nonneg os2). pose proof (mints_all_nonneg os3).
  destruct (books_reach_wf os1 ltac:(lia)) as [Hwf1 Hn1]. fold b1 in Hwf1, Hn1.
  destruct (books_reach_wf (os1 ++ os2)) as [Hwf2 Hn2]; [rewrite mints_all_app; lia|].
  rewrite mints_all_app in Hn2. unfold run in Hwf2, Hn2. rewrite foldl_app in Hwf2, Hn2. fold (run init os1) in Hwf2, Hn2. fold b1 in Hwf2, Hn2. fold (run b1 os2) in Hwf2, Hn2. fold b2 in Hwf2, Hn2.
  destruct (books_run_wf b1 os2 Hwf1 ltac:(lia)) as (_ & Hmono & _). fold b2 in Hmono.
  destruct (books_run_wf b2 os3 Hwf2 ltac:(lia)) as (Hwf3 & _ & Hdead). fold b3 in Hwf3, Hdead.
  apply books_dead_rejected; [done|]. apply Hdead; [|done].
  apply LiveTable.live_is_live_true in H1 as [m E]. pose proof (LiveTable.wf_minted _ (wf_live _ Hwf1) _ _ _ E). lia.
Qed.

(** The three listener notifications. *)
Definition is_listener (o : op) : bool := match o with Created _ _ | Spawned _ _ | Deleted _ _ => true | _ => false end.

(** What a notification list says about the identity [r] of index [i], and the change it reports. *)
Definition retire_ok (b b' : books) (notes : list notification) : Prop :=
  (forall index id, SurfaceRetireEntity index id ∈ notes <-> is_live b index id = true /\ is_live b' index id = false) /\
  (forall index retired, SwitchEntityLifecycle index retired ∈ notes ->
     forall id, retired = Some id <-> SurfaceRetireEntity index id ∈ notes).

Lemma books_retire_notes i r :
  (forall index id, SurfaceRetireEntity index id ∈ retire_lifecycle i r <-> index = i /\ r = Some id) /\
  (forall index retired, SwitchEntityLifecycle index retired ∈ retire_lifecycle i r -> index = i /\ retired = r).
Proof.
  unfold retire_lifecycle. destruct r as [id0|]; simpl; split; intros *; rewrite ?elem_of_cons, elem_of_nil; naive_solver.
Qed.

Lemma books_retire_change b b' i r :
  (forall index, index <> i -> LiveTable.get (live b') index = LiveTable.get (live b) index) ->
  (forall id, r = Some id <-> is_live b i id = true /\ is_live b' i id = false) ->
  retire_ok b b' (retire_lifecycle i r).
Proof.
  intros Hoth Hr. destruct (books_retire_notes i r) as [Hn1 Hn2]. split.
  - intros index id. rewrite Hn1. destruct (decide (index = i)) as [->|Hne]; [rewrite Hr; tauto|].
    split; [tauto|]. intros [H1 H2]. exfalso. unfold is_live, LiveTable.is_live in *. unfold LiveTable.get in Hoth.
    rewrite Hoth in H2 by done. congruence.
  - intros index retired Hin id. apply Hn2 in Hin as [-> ->]. rewrite Hn1. tauto.
Qed.

Lemma books_retire_none b i : retire_ok b b (retire_lifecycle i None).
Proof. apply books_retire_change; [done|]. intros id. split; [done|]. intros [? ?]. congruence. Qed.

Lemma books_retire_insert b b' i s :
  wf b -> live b' = (LiveTable.insert (live b) i s).1 ->
  retire_ok b b' (retire_lifecycle i (fst <$> LiveTable.get (live b) i)).
Proof.
  intros Hwf E'. apply books_retire_change; unfold is_live, LiveTable.is_live, LiveTable.get; rewrite E'; simpl.
  - intros index Hne. by rewrite lookup_insert_ne.
  - intros id. rewrite lookup_insert_eq. destruct (LiveTable.entries (live b) !! i) as [[cur s0]|] eqn:E; simpl; [|split; [done|by intros []]].
    pose proof (LiveTable.wf_minted _ (wf_live _ Hwf) _ _ _ E). split.
    + intros [= <-]. rewrite Z.eqb_refl. split; [done|]. apply Z.eqb_neq. lia.
    + intros [E1 _]. apply Z.eqb_eq in E1. by subst.
Qed.

Lemma books_retire_remove b b' i :
  live b' = (LiveTable.remove (live b) i).1 ->
  retire_ok b b' (retire_lifecycle i (fst <$> LiveTable.get (live b) i)).
Proof.
  intros E'. apply books_retire_change; unfold is_live, LiveTable.is_live, LiveTable.get; rewrite E'; simpl.
  - intros index Hne. by rewrite lookup_delete_ne.
  - intros id. rewrite lookup_delete_eq. destruct (LiveTable.entries (live b) !! i) as [[cur s0]|] eqn:E; simpl; [|split; [done|by intros []]].
    split; [intros [= <-]; by rewrite Z.eqb_refl|]. intros [E1 _]. apply Z.eqb_eq in E1. by subst.
Qed.

(** Retirement is exact: a create, spawn or delete notification tells the surface arbiter to
    retire [(index, id)] exactly when that identity was live before it and is not live after it, and
    tells the entity switch the same identity. In particular a stale delete or a matching spawn
    retires nothing. *)
Theorem books_retire_exact b o :
  wf b -> is_listener o = true ->
  let '(b', notes) := step b o in
  (forall index id, SurfaceRetireEntity index id ∈ notes <-> is_live b index id = true /\ is_live b' index id = false) /\
  (forall index retired, SwitchEntityLifecycle index retired ∈ notes ->
     forall id, retired = Some id <-> SurfaceRetireEntity index id ∈ notes).
Proof.
  intros Hwf Ho. destruct o as [i s|i s|i s| | |l]; try done; cbn [step].
  - by apply (books_retire_insert b _ i s).
  - unfold on_spawned. destruct (LiveTable.get (live b) i) as [[id s0]|] eqn:E; [destruct (s0 =? s)|].
    + apply books_retire_none.
    + change (Some id) with (fst <$> Some (id, s0)). rewrite <- E. by apply (books_retire_insert b _ i s).
    + change (@None Z) with (fst <$> @None (Z * Z)). rewrite <- E. by apply (books_retire_insert b _ i s).
  - unfold on_deleted. destruct (LiveTable.get (live b) i) as [[id s0]|] eqn:E; [destruct (s0 =? s)|]; [|apply books_retire_none..].
    apply (books_retire_remove b _ i). done.
Qed.

(** The serial a slot list gives an index: its last mention. *)
Fixpoint slot_serial (live_slots : list (Z * Z)) (index : Z) : option Z :=
  match live_slots with
  | [] => None
  | (i, s) :: rest => match slot_serial rest index with
                      | Some s' => Some s'
                      | None => if i =? index then Some s else None
                      end
  end.

Lemma books_upsert_lookup t l index :
  (fun e => e.2) <$> LiveTable.get (repair_upsert t l) index =
  match slot_serial l index with Some s => Some s | None => (fun e => e.2) <$> LiveTable.get t index end.
Proof.
  revert t. induction l as [|[i s] l IH]; intros t; cbn [repair_upsert slot_serial]; [done|]. rewrite IH.
  destruct (slot_serial l index) as [s'|]; [done|]. unfold LiveTable.get.
  destruct (Z.eqb_spec i index) as [->|Hne].
  - destruct (LiveTable.entries t !! index) as [[id s0]|] eqn:E; simpl; [|by rewrite lookup_insert_eq].
    destruct (Z.eqb_spec s0 s) as [->|]; simpl; [by rewrite E|by rewrite lookup_insert_eq].
  - destruct (LiveTable.entries t !! i) as [[id s0]|] eqn:E; simpl; [destruct (s0 =? s)|]; simpl; by rewrite ?lookup_insert_ne.
Qed.

Lemma books_upsert_keeps t l index id s :
  LiveTable.get t index = Some (id, s) -> (forall s', (index, s') ∈ l -> s' = s) ->
  LiveTable.get (repair_upsert t l) index = Some (id, s).
Proof.
  revert t. induction l as [|[i s0] l IH]; intros t E Hs; cbn [repair_upsert]; [done|].
  apply IH; [|intros s' Hin; apply Hs; in_list]. unfold LiveTable.get in *.
  destruct (decide (i = index)) as [->|Hne].
  - rewrite E. rewrite (Hs s0) by in_list. by rewrite Z.eqb_refl.
  - destruct (LiveTable.entries t !! i) as [[? s1]|] eqn:Ei; simpl; [destruct (s1 =? s0)|]; simpl; by rewrite ?lookup_insert_ne.
Qed.

Lemma books_evict_lookup t seen index :
  LiveTable.get (repair_evict t seen) index = if bool_decide (index ∈ seen) then LiveTable.get t index else None.
Proof.
  unfold repair_evict. assert (H : forall l (t' : table), (forall k, is_Some (LiveTable.get t' k) -> k ∈ l \/ k ∈ seen) ->
    LiveTable.get (foldl (fun t k => if bool_decide (k ∈ seen) then t else (LiveTable.remove t k).1) t' l) index =
    if bool_decide (index ∈ seen) then LiveTable.get t' index else None).
  { induction l as [|k l IH]; intros t' Hk; cbn [foldl].
    - case_bool_decide; [done|]. destruct (LiveTable.get t' index) eqn:E; [|done].
      destruct (Hk index); [by eexists|by apply not_elem_of_nil in H0|done].
    - rewrite IH.
      + repeat case_bool_decide; try done. unfold LiveTable.get; simpl. rewrite lookup_delete_ne; [done|congruence].
      + intros k' Hk'. case_bool_decide as E.
        * destruct (Hk k' Hk') as [[->|?]%elem_of_cons|?]; auto.
        * unfold LiveTable.get in *; simpl in Hk'. rewrite lookup_delete_is_Some in Hk'. destruct Hk' as [Hne Hk'].
          destruct (Hk k' Hk') as [[?|?]%elem_of_cons|?]; auto. congruence. }
  apply H. intros k [[id s] E]. left. unfold LiveTable.keys. apply list_elem_of_fmap.
  exists (k, (id, s)). split; [done|]. by apply elem_of_map_to_list.
Qed.

(** A repair sweep makes the books equal to the identity slots the engine reported: an index is
    live after it exactly when the snapshot lists it, with the listed serial; an entry that already
    had that serial keeps its host id, so references to it survive the sweep; and the flat mirror
    agrees. *)
Theorem books_repair_reconcile b live_slots :
  wf b -> LiveTable.next_id (live b) + Z.of_nat (length live_slots) <= u64_max ->
  let b' := (repair_reconcile b live_slots).1 in
  (forall index, snd <$> lookup b' index = slot_serial live_slots index) /\
  (forall index id s, lookup b index = Some (id, s) -> index ∈ live_slots.*1 ->
     (forall s', (index, s') ∈ live_slots -> s' = s) -> lookup b' index = Some (id, s)) /\
  (forall index id, is_Some (engine_serial_for b' index id) <-> is_live b' index id = true).
Proof.
  intros Hwf Hn b'. destruct (books_step_wf b (Repair live_slots) Hwf Hn) as [Hwf' _].
  assert (Hser : forall l index, is_Some (slot_serial l index) <-> index ∈ l.*1).
  { clear. induction l as [|[i s] l IH]; intros index; csimpl.
    - rewrite elem_of_nil. split; [by intros []|done].
    - rewrite elem_of_cons, <- IH. destruct (slot_serial l index); [naive_solver|].
      destruct (Z.eqb_spec i index) as [->|]; split; intros Hx; try (by eexists); try (by left).
      all: first [by destruct Hx | destruct Hx as [?|[? ?]]; done]. }
  unfold lookup, b', repair_reconcile; cbn [live fst]. split; [|split].
  - intros index. rewrite books_evict_lookup. specialize (Hser live_slots index). case_bool_decide as Hin.
    + pose proof (books_upsert_lookup (live b) live_slots index) as Hu.
      change (fun e : Z * Z => e.2) with (@snd Z Z) in Hu. rewrite Hu. apply Hser in Hin as [s ->]. done.
    + destruct (slot_serial live_slots index); [|done]. destruct Hin. by apply Hser.
  - intros index id s E Hin Hs. rewrite books_evict_lookup, bool_decide_true by done. by apply books_upsert_keeps.
  - intros index id. by apply books_engine_serial_live.
Qed.

(** The map epoch never repeats a value: it grows by one per map transition until the 64-bit
    range is exhausted, and from then on is the fail-closed value 0, permanently. *)
Theorem books_map_epoch b :
  0 <= map_epoch b <= u64_max ->
  let b' := (clear_for_map_transition b).1 in
  (map_epoch b' = map_epoch b + 1 /\ 0 < map_epoch b < u64_max) \/
  (map_epoch b' = 0 /\ (map_epoch b = 0 \/ map_epoch b = u64_max)).
Proof.
  intros Hb. simpl. unfold checked_add. destruct (Z.eqb_spec (map_epoch b) 0) as [E|E]; [right; auto|].
  destruct (Z.leb_spec (map_epoch b + 1) u64_max); simpl; [left; lia|right; split; [done|right; lia]].
Qed.
End EntityLive.

(** ** Concrete runs *)
Module EntityLiveExamples.
Import EntityLive.

Definition life : list op := [Created 42 7; Spawned 42 7; Created 40000 1].

Example life_lookup :
  (lookup (run init life) 42, engine_serial_for (run init life) 42 1, engine_serial_for (run init life) 40000 2) =
  (Some (1, 7), Some 7, Some 1).
Proof. vm_compute. reflexivity. Qed.

Lemma life_wf : wf (run init life).
Proof. apply books_reach_wf. by vm_compute. Qed.

Lemma books_flat_agrees_witness : engine_serial_for (run init life) 42 1 = Some 7.
Proof. rewrite (books_flat_agrees life 42 1); [vm_compute; reflexivity|by vm_compute]. Defined.

Lemma books_stale_id_stays_dead_witness :
  engine_serial_for (run (run (run init life) [Deleted 42 7]) [Created 42 7; Repair [(42, 7)]]) 42 1 = None.
Proof.
  apply (books_stale_id_stays_dead life [Deleted 42 7] [Created 42 7; Repair [(42, 7)]] 42 1); by vm_compute.
Defined.

Lemma books_retire_exact_witness :
  SurfaceRetireEntity 42 1 ∈ (step (run init life) (Created 42 9)).2.
Proof.
  pose proof (books_retire_exact (run init life) (Created 42 9) life_wf eq_refl) as Hx.
  destruct Hx as [Hx _]. apply Hx. by vm_compute.
Defined.

Lemma books_repair_reconcile_witness :
  snd <$> lookup (repair_reconcile (run init life) [(42, 7); (50, 3)]).1 50 = Some 3.
Proof.
  pose proof (books_repair_reconcile (run init life) [(42, 7); (50, 3)] life_wf) as Hx.
  destruct Hx as [Hx _]; [by vm_compute|]. rewrite (Hx 50). reflexivity.
Defined.

Lemma books_map_epoch_witness :
  map_epoch (clear_for_map_transition init).1 = 2.
Proof.
  destruct (books_map_epoch init) as [[H _]|[H [E|E]]]; [by vm_compute|exact H|discriminate E|].
  vm_compute in E. discriminate E.
Defined.
End EntityLiveExamples.
