(* ===== verification/Budget.v ===== *)
(** Admission budgets (core/src/async_limits.rs, [Gauge] to [Lease]).

    A [Budget] counts items and bytes held by outstanding leases, globally and per owner. Dropping a
    lease unwraps its owner's gauge, so [drop] and [shrink] return an option ([None] is the panic).
    The invariant [holds b L] says that [b] accounts for exactly the outstanding leases [L] (up to
    permutation) and respects its limits; every operation is proved to preserve it and, on
    outstanding leases, never to panic. *)
From S2P Require Import Prelude.

Module Budget.

(** A plugin generation, or none for host-owned work. *)
Definition Owner : Type := option (string * Z).

Inductive AdmissionError := QueueFull | PayloadTooLarge | Cancelled.
#[export] Instance AdmissionError_eq_dec : EqDecision AdmissionError. Proof. solve_decision. Defined.

Definition name (e : AdmissionError) : string :=
  match e with
  | QueueFull => "AsyncQueueFull"
  | PayloadTooLarge => "AsyncPayloadTooLarge"
  | Cancelled => "AsyncCancelled"
  end.

Record Gauge := mkGauge { items : Z; bytes : Z; rejected : Z }.
Definition gauge_default : Gauge := mkGauge 0 0 0.

Record State := mkState { total : Gauge; owners : gmap Owner Gauge }.

(** [limits]: global items and bytes, per-owner items and bytes. *)
Record Budget := mkBudget { l_items : Z; l_bytes : Z; l_owner_items : Z; l_owner_bytes : Z; state : State }.

Record Lease := mkLease { owner : Owner; w_items : Z; w_bytes : Z }.

Definition new (its byts owner_items owner_bytes : Z) : Budget :=
  mkBudget its byts owner_items owner_bytes (mkState gauge_default ∅).

Definition with_state (b : Budget) (s : State) : Budget :=
  mkBudget (l_items b) (l_bytes b) (l_owner_items b) (l_owner_bytes b) s.

Definition acquire (b : Budget) (o : Owner) (its byts : Z) : Budget * (Lease + AdmissionError) :=
  let s := state b in
  let g := default gauge_default (owners s !! o) in
  let impossible := (l_items b <? its) || (l_bytes b <? byts) || (l_owner_items b <? its) || (l_owner_bytes b <? byts) in
  if impossible
     || (sat_sub (l_items b) (items (total s)) <? its)
     || (sat_sub (l_bytes b) (bytes (total s)) <? byts)
     || (sat_sub (l_owner_items b) (items g) <? its)
     || (sat_sub (l_owner_bytes b) (bytes g) <? byts)
  then (with_state b (mkState (mkGauge (items (total s)) (bytes (total s)) (sat_add (rejected (total s)) 1)) (owners s)),
        inr (if impossible then PayloadTooLarge else QueueFull))
  else (with_state b
          (mkState (mkGauge (u64_add (items (total s)) its) (u64_add (bytes (total s)) byts) (rejected (total s)))
                   (<[o := mkGauge (u64_add (items g) its) (u64_add (bytes g) byts) (rejected g)]> (owners s))),
        inl (mkLease o its byts)).

Definition snapshot (b : Budget) : Gauge := total (state b).

(** [Drop for Lease]. *)
Definition drop (b : Budget) (l : Lease) : option Budget :=
  let s := state b in
  match owners s !! owner l with
  | None => None
  | Some g =>
      let g' := mkGauge (u64_sub (items g) (w_items l)) (u64_sub (bytes g) (w_bytes l)) (rejected g) in
      Some (with_state b
        (mkState (mkGauge (u64_sub (items (total s)) (w_items l)) (u64_sub (bytes (total s)) (w_bytes l)) (rejected (total s)))
           (if (items g' =? 0) && (bytes g' =? 0)
            then delete (owner l) (<[owner l := g']> (owners s))
            else <[owner l := g']> (owners s))))
  end.

(** [Lease::grow]: a zero-item lease is acquired, its bytes are moved, and it is dropped empty. *)
Definition grow (b : Budget) (l : Lease) (byts : Z) : option (Budget * Lease * option AdmissionError) :=
  match acquire b (owner l) 0 byts with
  | (b1, inr e) => Some (b1, l, Some e)
  | (b1, inl extra) =>
      let l' := mkLease (owner l) (w_items l) (u64_add (w_bytes l) (w_bytes extra)) in
      match drop b1 (mkLease (owner extra) (w_items extra) 0) with
      | Some b2 => Some (b2, l', None)
      | None => None
      end
  end.

Definition shrink (b : Budget) (l : Lease) (byts : Z) : option (Budget * Lease) :=
  let n := Z.min byts (w_bytes l) in
  let s := state b in
  match owners s !! owner l with
  | None => None
  | Some g =>
      Some (with_state b
              (mkState (mkGauge (items (total s)) (u64_sub (bytes (total s)) n) (rejected (total s)))
                 (<[owner l := mkGauge (items g) (u64_sub (bytes g) n) (rejected g)]> (owners s))),
            mkLease (owner l) (w_items l) (u64_sub (w_bytes l) n))
  end.

(** Limits never change. *)
Definition limits_of (b : Budget) : Z * Z * Z * Z := (l_items b, l_bytes b, l_owner_items b, l_owner_bytes b).

Lemma acquire_limits b o its byts : limits_of (acquire b o its byts).1 = limits_of b.
Proof. unfold acquire. by case_match. Qed.

Lemma drop_limits b l b' : drop b l = Some b' -> limits_of b' = limits_of b.
Proof. unfold drop. case_match; [|done]. by intros [= <-]. Qed.

(** ** The accounting invariant *)
Definition sum (f : Lease -> Z) (L : list Lease) : Z := foldr (fun l n => f l + n) 0 L.
Definition only (o : Owner) (f : Lease -> Z) (l : Lease) : Z := if bool_decide (owner l = o) then f l else 0.

Record holds (b : Budget) (L : list Lease) : Prop := {
  h_limits : Forall (fun n => 0 <= n <= u64_max) [l_items b; l_bytes b; l_owner_items b; l_owner_bytes b];
  h_leases : Forall (fun l => 1 <= w_items l /\ 0 <= w_bytes l) L;
  h_items : items (total (state b)) = sum w_items L;
  h_bytes : bytes (total (state b)) = sum w_bytes L;
  h_owner : forall o, owners (state b) !! o =
    if 0 <? sum (only o w_items) L then Some (mkGauge (sum (only o w_items) L) (sum (only o w_bytes) L) 0) else None;
  h_max : sum w_items L <= l_items b /\ sum w_bytes L <= l_bytes b;
  h_owner_max : forall o, sum (only o w_items) L <= l_owner_items b /\ sum (only o w_bytes) L <= l_owner_bytes b;
}.

Lemma sum_perm f L L' : L ≡ₚ L' -> sum f L = sum f L'.
Proof. induction 1; simpl; lia. Qed.

Lemma holds_perm b L L' : L ≡ₚ L' -> holds b L -> holds b L'.
Proof.
  intros Hp [H1 H2 H3 H4 H5 [H6 H7] H8]. split; try done.
  - by rewrite <- Hp.
  - by rewrite <- (sum_perm _ _ _ Hp).
  - by rewrite <- (sum_perm _ _ _ Hp).
  - intros o. rewrite <- !(sum_perm _ _ _ Hp). apply H5.
  - rewrite <- !(sum_perm _ _ _ Hp). done.
  - intros o. rewrite <- !(sum_perm _ _ _ Hp). apply H8.
Qed.

#[export] Instance holds_proper : Proper (eq ==> Permutation ==> iff) holds.
Proof. intros b ? <- L L' Hp. split; by apply holds_perm. Qed.

Lemma sum_cons f l L : sum f (l :: L) = f l + sum f L.
Proof. done. Qed.

Lemma sum_only_cons o f l L :
  sum (only o f) (l :: L) = (if bool_decide (owner l = o) then f l else 0) + sum (only o f) L.
Proof. done. Qed.

Arguments sum : simpl never.
Arguments only : simpl never.

Lemma sum_nonneg f L : Forall (fun l => 0 <= f l) L -> 0 <= sum f L.
Proof. induction 1; rewrite ?sum_cons; [done|lia]. Qed.

Lemma sum_only_le f L o : Forall (fun l => 0 <= f l) L -> 0 <= sum (only o f) L <= sum f L.
Proof.
  induction 1 as [|l L Hl _ IH]; [done|]. rewrite sum_only_cons, sum_cons. case_bool_decide; lia.
Qed.

Lemma budget_nonneg L :
  Forall (fun l => 1 <= w_items l /\ 0 <= w_bytes l) L ->
  Forall (fun l => 0 <= w_items l) L /\ Forall (fun l => 0 <= w_bytes l) L.
Proof. intros H. split; eapply Forall_impl; [exact H| |exact H|]; simpl; intros; lia. Qed.

(** Every outstanding lease's owner has a gauge; an owner without one holds nothing. *)
Lemma budget_owner_zero L o :
  Forall (fun l => 1 <= w_items l /\ 0 <= w_bytes l) L ->
  sum (only o w_items) L <= 0 -> sum (only o w_items) L = 0 /\ sum (only o w_bytes) L = 0.
Proof.
  induction 1 as [|l L [H1 H2] HL IH]; [done|].
  destruct (budget_nonneg L HL) as [Hi Hb]. pose proof (sum_only_le _ L o Hi). pose proof (sum_only_le _ L o Hb).
  rewrite !sum_only_cons. case_bool_decide; [lia|]. intros. destruct IH; lia.
Qed.
Lemma budget_gauge b L o :
  holds b L ->
  default gauge_default (owners (state b) !! o) = mkGauge (sum (only o w_items) L) (sum (only o w_bytes) L) 0.
Proof.
  intros H. rewrite (h_owner _ _ H). destruct (0 <? sum (only o w_items) L) eqn:E; bool_to_prop; [done|].
  destruct (budget_owner_zero L o (h_leases _ _ H) E) as [-> ->]. done.
Qed.

(** What the accounting reads: sums are within the limits, hence within 64 bits. *)
Lemma budget_ranges b L :
  holds b L ->
  0 <= sum w_items L <= l_items b /\ 0 <= sum w_bytes L <= l_bytes b /\
  (forall o, 0 <= sum (only o w_items) L <= l_owner_items b /\ 0 <= sum (only o w_bytes) L <= l_owner_bytes b) /\
  l_items b <= u64_max /\ l_bytes b <= u64_max /\ l_owner_items b <= u64_max /\ l_owner_bytes b <= u64_max.
Proof.
  intros H. destruct (budget_nonneg L (h_leases _ _ H)) as [Hi Hb]. pose proof (h_max _ _ H).
  pose proof (h_limits _ _ H) as Hl. rewrite !Forall_cons in Hl.
  pose proof (sum_nonneg _ _ Hi). pose proof (sum_nonneg _ _ Hb).
  split; [lia|]. split; [lia|]. split; [|lia]. intros o. pose proof (h_owner_max _ _ H o).
  pose proof (sum_only_le _ L o Hi). pose proof (sum_only_le _ L o Hb). lia.
Qed.

(** The two outcomes of [acquire], without wrap-around. *)
Lemma budget_acquire_cases b L o its byts :
  holds b L -> 0 <= its -> 0 <= byts ->
  let si := sum (only o w_items) L in let sb := sum (only o w_bytes) L in
  let fits := sum w_items L + its <= l_items b /\ sum w_bytes L + byts <= l_bytes b /\
              si + its <= l_owner_items b /\ sb + byts <= l_owner_bytes b in
  let never := l_items b < its \/ l_bytes b < byts \/ l_owner_items b < its \/ l_owner_bytes b < byts in
  (fits /\ acquire b o its byts =
     (with_state b (mkState (mkGauge (sum w_items L + its) (sum w_bytes L + byts) (rejected (total (state b))))
        (<[o := mkGauge (si + its) (sb + byts) 0]> (owners (state b)))), inl (mkLease o its byts))) \/
  (~ fits /\ exists e, acquire b o its byts =
     (with_state b (mkState (mkGauge (sum w_items L) (sum w_bytes L) (sat_add (rejected (total (state b))) 1))
        (owners (state b))), inr e) /\ (e = PayloadTooLarge <-> never) /\ (e = QueueFull <-> ~ never)).
Proof.
  intros H Hi Hb si sb fits never. destruct (budget_ranges b L H) as (R1 & R2 & R3 & R4).
  specialize (R3 o). fold si sb in R3. unfold acquire. rewrite (budget_gauge b L o H), (h_items _ _ H), (h_bytes _ _ H).
  cbn [items bytes rejected]. fold si sb.
  assert (Himp : (l_items b <? its) || (l_bytes b <? byts) || (l_owner_items b <? its) || (l_owner_bytes b <? byts) = true <-> never).
  { unfold never. rewrite !orb_true_iff, !Z.ltb_lt. tauto. }
  set (imp := (l_items b <? its) || _ || _ || _) in *.
  destruct (imp || _ || _ || _ || _) eqn:E.
  - right. split.
    + rewrite !orb_true_iff, Himp, !Z.ltb_lt in E. unfold sat_sub, never, fits in *. lia.
    + eexists. split; [done|]. rewrite <- Himp. destruct imp; split; split; intros; congruence || done.
  - left. apply orb_false_iff in E as [E E5]. apply orb_false_iff in E as [E E4]. apply orb_false_iff in E as [E E3].
    apply orb_false_iff in E as [E1 E2]. apply Z.ltb_ge in E2, E3, E4, E5. unfold sat_sub in *.
    split; [unfold fits; lia|]. rewrite !u64_add_small by (unfold u64_max in *; lia). done.
Qed.

Lemma budget_acquire_ok b L o its byts b' l :
  holds b L -> 1 <= its -> 0 <= byts -> acquire b o its byts = (b', inl l) ->
  holds b' (l :: L) /\ l = mkLease o its byts.
Proof.
  intros H Hi Hb E. destruct (budget_acquire_cases b L o its byts H ltac:(lia) Hb) as [[Hf E']|[_ (e & E' & _)]];
    rewrite E' in E; [|done]. injection E as <- <-. destruct (budget_ranges b L H) as (R1 & R2 & R3 & _).
  split; [|done]. split; unfold with_state; simpl.
  - apply H.
  - constructor; [done|apply H].
  - rewrite sum_cons. simpl. lia.
  - rewrite sum_cons. simpl. lia.
  - intros o'. rewrite lookup_insert, !sum_only_cons. cbn [owner w_items w_bytes]. case_decide as Eo.
    + subst o'. rewrite bool_decide_true by done. specialize (R3 o).
      rewrite (proj2 (Z.ltb_lt _ _)) by lia. f_equal. f_equal; lia.
    + rewrite bool_decide_false by done. rewrite !Z.add_0_l. apply (h_owner _ _ H).
  - rewrite !sum_cons. simpl. lia.
  - intros o'. rewrite !sum_only_cons. cbn [owner w_items w_bytes]. pose proof (h_owner_max _ _ H o').
    case_bool_decide; [subst; lia|]. lia.
Qed.

Lemma budget_acquire_err b L o its byts b' e :
  holds b L -> 0 <= its -> 0 <= byts -> acquire b o its byts = (b', inr e) -> holds b' L.
Proof.
  intros H Hi Hb E. destruct (budget_acquire_cases b L o its byts H Hi Hb) as [[_ E']|[_ (e' & E' & _)]];
    rewrite E' in E; [done|]. injection E as <- <-. destruct H as [H1 H2 H3 H4 H5 H6 H7]. by split.
Qed.

Lemma budget_drop b L l :
  holds b (l :: L) -> exists b', drop b l = Some b' /\ holds b' L.
Proof.
  intros H. destruct (budget_ranges b _ H) as (R1 & R2 & R3 & R4). pose proof (h_leases _ _ H) as Hl.
  apply Forall_cons in Hl as [[Hli Hlb] HL]. destruct (budget_nonneg L HL) as [Hni Hnb].
  pose proof (sum_nonneg _ _ Hni). pose proof (sum_nonneg _ _ Hnb).
  pose proof (sum_only_le _ L (owner l) Hni). pose proof (sum_only_le _ L (owner l) Hnb).
  pose proof (h_owner _ _ H (owner l)) as Ho. pose proof (R3 (owner l)) as Ro.
  rewrite !sum_only_cons in Ho, Ro. rewrite bool_decide_true in Ho, Ro by done.
  rewrite (proj2 (Z.ltb_lt _ _)) in Ho by lia. unfold drop. rewrite Ho. eexists. split; [done|]. cbn [items bytes rejected].
  pose proof (h_max _ _ H) as Hm. pose proof (h_owner_max _ _ H) as Hom. pose proof (h_limits _ _ H) as Hlim.
  rewrite (h_items _ _ H), (h_bytes _ _ H). rewrite sum_cons in R1, R2. rewrite !sum_cons in Hm. rewrite !sum_cons.
  rewrite !u64_sub_small by (unfold u64_max in *; lia).
  replace (w_items l + sum w_items L - w_items l) with (sum w_items L) by lia.
  replace (w_bytes l + sum w_bytes L - w_bytes l) with (sum w_bytes L) by lia.
  replace (w_items l + sum (only (owner l) w_items) L - w_items l) with (sum (only (owner l) w_items) L) by lia.
  replace (w_bytes l + sum (only (owner l) w_bytes) L - w_bytes l) with (sum (only (owner l) w_bytes) L) by lia.
  split; unfold with_state; simpl; try done; try lia.
  - intros o. pose proof (h_owner _ _ H o) as Hoo. rewrite !sum_only_cons in Hoo.
    destruct (decide (o = owner l)) as [->|Hne].
    + destruct ((sum (only (owner l) w_items) L =? 0) && (sum (only (owner l) w_bytes) L =? 0)) eqn:E; bool_to_prop.
      * rewrite lookup_delete_eq. rewrite (proj2 (Z.ltb_ge _ _)) by lia. done.
      * rewrite lookup_insert_eq. destruct (0 <? sum (only (owner l) w_items) L) eqn:E0; bool_to_prop; [done|].
        destruct (budget_owner_zero L (owner l) HL E0) as [E1 E2]. by rewrite E1, E2 in E.
    + rewrite bool_decide_false in Hoo by done. rewrite !Z.add_0_l in Hoo. rewrite <- Hoo.
      destruct (_ && _); by rewrite ?lookup_delete_ne, lookup_insert_ne by done.
  - intros o. specialize (Hom o). rewrite !sum_only_cons in Hom. case_bool_decide; lia.
Qed.
(** Replacing one lease's byte weight by [n], with the gauges moved by the same amount. *)
Lemma budget_reweigh b L l n :
  holds b (l :: L) -> 0 <= n ->
  n - w_bytes l + sum w_bytes (l :: L) <= l_bytes b ->
  n - w_bytes l + sum (only (owner l) w_bytes) (l :: L) <= l_owner_bytes b ->
  forall rej, holds (with_state b
      (mkState (mkGauge (sum w_items (l :: L)) (n + sum w_bytes L) rej)
         (<[owner l := mkGauge (sum (only (owner l) w_items) (l :: L)) (n + sum (only (owner l) w_bytes) L) 0]> (owners (state b)))))
    (mkLease (owner l) (w_items l) n :: L).
Proof.
  intros H Hn Hb Hob rej. pose proof (h_leases _ _ H) as Hl. apply Forall_cons in Hl as [[Hli _] HL].
  destruct (budget_nonneg L HL) as [Hni _]. pose proof (sum_only_le _ L (owner l) Hni).
  rewrite sum_only_cons, bool_decide_true in Hob by done. rewrite sum_cons in Hb.
  split; unfold with_state; simpl.
  - apply H.
  - by constructor.
  - by rewrite !sum_cons.
  - by rewrite sum_cons.
  - intros o. rewrite lookup_insert. rewrite !sum_only_cons. cbn [owner w_items w_bytes]. case_decide as E.
    + subst o. rewrite bool_decide_true by done. rewrite (proj2 (Z.ltb_lt _ _)) by lia. done.
    + rewrite bool_decide_false by done. rewrite !Z.add_0_l. pose proof (h_owner _ _ H o) as Ho.
      rewrite !sum_only_cons, bool_decide_false in Ho by done. by rewrite !Z.add_0_l in Ho.
  - pose proof (h_max _ _ H) as Hm. rewrite !sum_cons in *. cbn [w_items w_bytes]. lia.
  - intros o. pose proof (h_owner_max _ _ H o) as Hm. rewrite !sum_only_cons in *. cbn [owner w_items w_bytes].
    case_bool_decide; [subst|]; lia.
Qed.

Lemma budget_gauge_present b L l :
  holds b (l :: L) ->
  owners (state b) !! owner l = Some (mkGauge (sum (only (owner l) w_items) (l :: L)) (sum (only (owner l) w_bytes) (l :: L)) 0) /\
  1 <= sum (only (owner l) w_items) (l :: L) /\ w_bytes l <= sum (only (owner l) w_bytes) (l :: L) /\
  w_bytes l <= sum w_bytes (l :: L) /\ 0 <= w_bytes l.
Proof.
  intros H. pose proof (h_leases _ _ H) as Hl. apply Forall_cons in Hl as [[Hli Hlb] HL].
  destruct (budget_nonneg L HL) as [Hni Hnb]. pose proof (sum_only_le _ L (owner l) Hni).
  pose proof (sum_only_le _ L (owner l) Hnb). rewrite (h_owner _ _ H).
  rewrite !sum_only_cons, !bool_decide_true by done. rewrite sum_cons. rewrite (proj2 (Z.ltb_lt _ _)) by lia.
  split; [done|]. lia.
Qed.

Lemma budget_grow b L l byts :
  holds b (l :: L) -> 0 <= byts ->
  exists b' l' r, grow b l byts = Some (b', l', r) /\ holds b' (l' :: L) /\
    owner l' = owner l /\ w_items l' = w_items l /\
    w_bytes l' = (match r with None => w_bytes l + byts | Some _ => w_bytes l end).
Proof.
  intros H Hb. destruct (budget_gauge_present b L l H) as (Hg & Hg1 & Hg2 & Hg3 & Hg4).
  destruct (budget_ranges b _ H) as (R1 & R2 & R3 & R4). specialize (R3 (owner l)). unfold grow.
  destruct (budget_acquire_cases b (l :: L) (owner l) 0 byts H ltac:(lia) Hb) as [[Hf E]|[_ (e & E & _)]].
  2:{ pose proof (budget_acquire_err b (l :: L) (owner l) 0 byts _ e H ltac:(lia) Hb E) as H'.
      rewrite E. do 3 eexists. split; [done|]. by split. }
  rewrite E. unfold drop. cbn [owner w_items w_bytes state with_state owners]. rewrite lookup_insert_eq. cbn [items bytes rejected].
  do 3 eexists. split; [done|]. cbn [w_bytes owner w_items]. rewrite insert_insert_eq. cbn [total items bytes rejected].
  rewrite !Z.add_0_r. unfold with_state; cbn [l_items l_bytes l_owner_items l_owner_bytes]. rewrite !u64_sub_small by (unfold u64_max in *; lia). rewrite !Z.sub_0_r.
  rewrite (u64_add_small (w_bytes l)) by (unfold u64_max in *; lia).
  assert ((sum (only (owner l) w_items) (l :: L) =? 0) = false) as -> by (apply Z.eqb_neq; lia). cbn [andb].
  split; [|by split]. pose proof (budget_reweigh b L l (w_bytes l + byts) H ltac:(lia) ltac:(lia) ltac:(lia) (rejected (total (state b)))) as Hr.
  replace (sum w_bytes (l :: L) + byts) with (w_bytes l + byts + sum w_bytes L) by (rewrite sum_cons; lia).
  replace (sum (only (owner l) w_bytes) (l :: L) + byts) with (w_bytes l + byts + sum (only (owner l) w_bytes) L); [exact Hr|].
  rewrite sum_only_cons, bool_decide_true by done. lia.
Qed.

Lemma budget_shrink b L l byts :
  holds b (l :: L) -> 0 <= byts ->
  exists b' l', shrink b l byts = Some (b', l') /\ holds b' (l' :: L) /\
    owner l' = owner l /\ w_items l' = w_items l /\ w_bytes l' = Z.max 0 (w_bytes l - byts).
Proof.
  intros H Hb. destruct (budget_gauge_present b L l H) as (Hg & Hg1 & Hg2 & Hg3 & Hg4).
  destruct (budget_ranges b _ H) as (R1 & R2 & R3 & R4). specialize (R3 (owner l)). unfold shrink. rewrite Hg.
  do 2 eexists. split; [done|]. cbn [items bytes rejected owner w_items w_bytes]. rewrite (h_items _ _ H), (h_bytes _ _ H).
  set (n := Z.min byts (w_bytes l)). assert (0 <= n <= w_bytes l) by (unfold n; lia).
  rewrite !u64_sub_small by (unfold u64_max in *; lia).
  split; [|split; [done|split; [done|unfold n; lia]]].
  pose proof (budget_reweigh b L l (w_bytes l - n) H ltac:(lia) ltac:(lia) ltac:(lia) (rejected (total (state b)))) as Hr.
  replace (sum w_bytes (l :: L) - n) with (w_bytes l - n + sum w_bytes L) by (rewrite sum_cons; lia).
  replace (sum (only (owner l) w_bytes) (l :: L) - n) with (w_bytes l - n + sum (only (owner l) w_bytes) L); [exact Hr|].
  rewrite sum_only_cons, bool_decide_true by done. lia.
Qed.

Lemma budget_new a b c d :
  Forall (fun n => 0 <= n <= u64_max) [a; b; c; d] -> holds (new a b c d) [].
Proof.
  intros Hl. rewrite !Forall_cons in Hl. split; simpl; try done.
  - by rewrite !Forall_cons.
  - change (0 <= a /\ 0 <= b). lia.
  - intros o. change (0 <= c /\ 0 <= d). lia.
Qed.
(** ** A budget's life *)
Inductive op :=
| Acquire (o : Owner) (its byts : Z)
| Drop (i : nat)
| Grow (i : nat) (byts : Z)
| Shrink (i : nat) (byts : Z).

(** The budget with the leases outstanding on it; an index no lease has does nothing. *)
Definition step (s : Budget * list Lease) (o : op) : option (Budget * list Lease) :=
  let '(b, L) := s in
  match o with
  | Acquire ow its byts =>
      match acquire b ow its byts with
      | (b', inl l) => Some (b', L ++ [l])
      | (b', inr _) => Some (b', L)
      end
  | Drop i => match L !! i with Some l => (fun b' => (b', vec_remove i L)) <$> drop b l | None => Some s end
  | Grow i byts => match L !! i with Some l => (fun r => (r.1.1, <[i := r.1.2]> L)) <$> grow b l byts | None => Some s end
  | Shrink i byts => match L !! i with Some l => (fun r => (r.1, <[i := r.2]> L)) <$> shrink b l byts | None => Some s end
  end.
Fixpoint run (s : Budget * list Lease) (os : list op) : option (Budget * list Lease) :=
  match os with [] => Some s | o :: os' => match step s o with Some s' => run s' os' | None => None end end.

(** Callers acquire at least one item and pass [usize] weights. *)
Definition op_ok (o : op) : Prop :=
  match o with Acquire _ its byts => 1 <= its /\ 0 <= byts | Drop _ => True | Grow _ n | Shrink _ n => 0 <= n end.

Lemma budget_step b L o :
  holds b L -> op_ok o -> exists b' L', step (b, L) o = Some (b', L') /\ holds b' L' /\
    l_items b' = l_items b /\ l_bytes b' = l_bytes b /\ l_owner_items b' = l_owner_items b /\ l_owner_bytes b' = l_owner_bytes b.
Proof.
  intros H Hok. destruct o as [ow its byts|i|i byts|i byts]; cbn [step op_ok] in *.
  - assert (Hlim : forall b' r, acquire b ow its byts = (b', r) -> b' = with_state b (state b')).
    { intros b' r. unfold acquire. case_match; intros [= <- _]; done. }
    destruct (acquire b ow its byts) as [b' [l|e]] eqn:E; do 2 eexists; (split; [done|]);
      rewrite (Hlim _ _ eq_refl); cbn; (split; [|done]); rewrite <- (Hlim _ _ eq_refl).
    + destruct (budget_acquire_ok b L ow its byts b' l H ltac:(lia) ltac:(lia) E) as [Hb _].
      by rewrite Permutation_app_comm.
    + eapply (budget_acquire_err b L ow its byts b' e); [done|lia|lia|done].
  - destruct (L !! i) as [l|] eqn:E; [|by do 2 eexists].
    apply list_elem_of_split_length in E as (L1 & L2 & -> & ->). rewrite vec_remove_app.
    rewrite <- Permutation_middle in H. destruct (budget_drop b (L1 ++ L2) l H) as (b' & Ed & Hb').
    rewrite Ed. do 2 eexists. split; [done|]. split; [done|]. unfold drop in Ed. by case_match; simplify_eq.
  - destruct (L !! i) as [l|] eqn:E; [|by do 2 eexists].
    apply list_elem_of_split_length in E as (L1 & L2 & -> & ->). rewrite <- Permutation_middle in H.
    destruct (budget_grow b (L1 ++ L2) l byts H Hok) as (b' & l' & r & Ed & Hb' & _). rewrite Ed.
    do 2 eexists. split; [done|]. cbn [fst snd].
    rewrite insert_middle. rewrite <- Permutation_middle. split; [done|].
    unfold grow, acquire, drop in Ed. repeat case_match; by simplify_eq.
  - destruct (L !! i) as [l|] eqn:E; [|by do 2 eexists].
    apply list_elem_of_split_length in E as (L1 & L2 & -> & ->). rewrite <- Permutation_middle in H.
    destruct (budget_shrink b (L1 ++ L2) l byts H Hok) as (b' & l' & Ed & Hb' & _). rewrite Ed.
    do 2 eexists. split; [done|]. cbn [fst snd].
    rewrite insert_middle. rewrite <- Permutation_middle. split; [done|].
    unfold shrink in Ed. repeat case_match; by simplify_eq.
Qed.

(** Admission accounting is exact and never panics: whatever sequence of admissions, releases,
    growths and shrinks a budget sees, its gauges equal the weight of the leases still outstanding,
    the global and per-owner limits hold, and when every lease is gone the gauges are zero and no
    owner entry is left behind. *)
Theorem budget_accounting os gi gb oi ob :
  Forall (fun n => 0 <= n <= u64_max) [gi; gb; oi; ob] -> Forall op_ok os ->
  exists b L, run (new gi gb oi ob, []) os = Some (b, L) /\
    items (snapshot b) = sum w_items L /\ bytes (snapshot b) = sum w_bytes L /\
    sum w_items L <= gi /\ sum w_bytes L <= gb /\
    (forall o, sum (only o w_items) L <= oi /\ sum (only o w_bytes) L <= ob) /\
    (L = [] -> owners (state b) = ∅).
Proof.
  intros Hl Hos. assert (Hgen : forall b L, holds b L -> exists b' L', run (b, L) os = Some (b', L') /\ holds b' L' /\
    l_items b' = l_items b /\ l_bytes b' = l_bytes b /\ l_owner_items b' = l_owner_items b /\ l_owner_bytes b' = l_owner_bytes b).
  { induction Hos as [|o os Ho Hos IH]; intros b L H; cbn [run]; [by exists b, L|].
    destruct (budget_step b L o H Ho) as (b1 & L1 & E & H1 & E1 & E2 & E3 & E4). rewrite E.
    destruct (IH b1 L1 H1) as (b2 & L2 & E' & H2 & F1 & F2 & F3 & F4). exists b2, L2. split; [done|]. split; [done|].
    repeat split; congruence. }
  destruct (Hgen _ [] (budget_new gi gb oi ob Hl)) as (b & L & E & H & E1 & E2 & E3 & E4). exists b, L. simpl in *.
  split; [done|]. unfold snapshot. pose proof (h_items _ _ H). pose proof (h_bytes _ _ H). pose proof (h_max _ _ H) as [? ?].
  split; [done|]. split; [done|]. split; [lia|]. split; [lia|]. split.
  - intros o. destruct (h_owner_max _ _ H o). lia.
  - intros ->. apply map_eq. intros o. by rewrite lookup_empty, (h_owner _ _ H).
Qed.

(** Admission is decided exactly by what is outstanding: a request is admitted if and only if it
    fits under all four limits together with the outstanding leases; a refused one is reported as
    too large exactly when it could never fit, and changes no gauge but the rejection counter. *)
Theorem budget_acquire_exact b L o its byts :
  holds b L -> 1 <= its -> 0 <= byts ->
  let '(b', r) := acquire b o its byts in
  (r = inl (mkLease o its byts) <->
     sum w_items L + its <= l_items b /\ sum w_bytes L + byts <= l_bytes b /\
     sum (only o w_items) L + its <= l_owner_items b /\ sum (only o w_bytes) L + byts <= l_owner_bytes b) /\
  (r = inr PayloadTooLarge <-> l_items b < its \/ l_bytes b < byts \/ l_owner_items b < its \/ l_owner_bytes b < byts) /\
  (forall e, r = inr e -> items (snapshot b') = items (snapshot b) /\ bytes (snapshot b') = bytes (snapshot b) /\
     owners (state b') = owners (state b) /\ rejected (snapshot b') = sat_add (rejected (snapshot b)) 1) /\
  (forall l, r = inl l -> holds b' (l :: L)).
Proof.
  intros H Hi Hb. pose proof (budget_acquire_ok b L o its byts) as Hok.
  destruct (budget_ranges b L H) as (R1 & R2 & R3 & _). specialize (R3 o).
  destruct (budget_acquire_cases b L o its byts H ltac:(lia) Hb) as [[Hf E]|[Hf (e & E & He1 & He2)]]; rewrite E in *.
  - split; [done|]. split; [split; [done|lia]|]. split; [done|]. intros l [= <-]. by apply (Hok _ _ H Hi Hb eq_refl).
  - split; [split; [done|tauto]|]. split; [rewrite <- He1; split; [by intros [= ->]|by intros ->]|].
    split; [|done]. intros e' _. unfold snapshot; simpl. by rewrite (h_items _ _ H), (h_bytes _ _ H).
Qed.
End Budget.

(** ** Concrete runs *)
Module BudgetExamples.
Import Budget.

(** The module's own test, extended: 2 items and 6 bytes, 1 item and 4 bytes per owner. *)
Definition a : Owner := Some ("a", 1).
Definition script : list op := [Acquire a 1 3; Acquire a 1 0; Acquire None 1 3; Grow 0 1; Shrink 1 1; Drop 0; Drop 0].

Example script_gauges :
  (fun s => (items (snapshot s.1), bytes (snapshot s.1), rejected (snapshot s.1), length s.2)) <$> run (new 2 6 1 4, []) script =
  Some (0, 0, 2, 0%nat).
Proof. vm_compute. reflexivity. Qed.

Lemma limits_ok : Forall (fun n => 0 <= n <= u64_max) [2; 6; 1; 4].
Proof. repeat constructor; by vm_compute. Qed.

Lemma budget_accounting_witness :
  exists b L, run (new 2 6 1 4, []) script = Some (b, L) /\ items (snapshot b) = sum w_items L.
Proof.
  destruct (budget_accounting script 2 6 1 4 limits_ok) as (b & L & H1 & H2 & _).
  - repeat constructor; by vm_compute.
  - exists b, L. split; [exact H1|exact H2].
Defined.

Lemma budget_acquire_exact_witness : (acquire (new 2 6 1 4) a 1 5).2 = inr PayloadTooLarge.
Proof.
  pose proof (budget_acquire_exact (new 2 6 1 4) [] a 1 5 (budget_new 2 6 1 4 limits_ok)) as Hx.
  destruct Hx as (_ & Hx & _); [done|done|]. apply Hx. right. right. right. reflexivity.
Defined.
End BudgetExamples.
