(* ===== verification/AsyncLimits.v ===== *)
(** Policies, the admission domain, bounded socket channels and the frame budget
    (core/src/async_limits.rs; [LoaderPolicy] from core/src/loader_worker.rs).

    [LoaderPolicy] and [AsyncPolicy] are the limits with their validation. [Domain] is the set of
    budgets jobs draw from, [JobLease] a job's pair of leases. [OutChannel] is the byte-bounded
    queue of a socket. [Frame] is the per-frame delivery budget; the elapsed time of the frame is an
    argument (nanoseconds), so every theorem holds for every clock. *)
From S2P Require Import Prelude.
From S2P Require Import Budget.
Import Budget.

(** [usize::saturating_mul], [usize::checked_mul]. *)
Definition sat_mul (a b : Z) : Z := Z.min (a * b) u64_max.
Definition checked_mul (a b : Z) : option Z := if a * b <=? u64_max then Some (a * b) else None.
(** [isize::MAX as usize / 16]. *)
Definition safe_size : Z := (2 ^ 63 - 1) / 16.

Module LoaderPolicy.

Record ParseLimits := mkParseLimits {
  zip_entries : Z;
  member_name_bytes : Z;
  manifest_bytes : Z;
  plugin_js_bytes : Z;
  gamedata_bytes : Z;
  engine_functions_bytes : Z;
}.

Definition parse_default : ParseLimits :=
  mkParseLimits 256 (Z.shiftl 64 10) (Z.shiftl 1 20) (Z.shiftl 16 20) (Z.shiftl 8 20) (Z.shiftl 4 20).

Record LoaderPolicy := mkLoaderPolicy {
  request_items : Z;
  request_bytes : Z;
  result_items : Z;
  result_bytes : Z;
  prepared_items : Z;
  prepared_bytes : Z;
  scan_entries : Z;
  scan_candidates : Z;
  path_bytes : Z;
  archive_bytes : Z;
  config_bytes : Z;
  config_baseline_items : Z;
  config_baseline_bytes : Z;
  parse : ParseLimits;
  drain_items : Z;
  drain_bytes : Z;
  drain_micros : Z;
}.

Definition policy_default : LoaderPolicy :=
  {| request_items := 128; request_bytes := Z.shiftl 32 20; result_items := 128; result_bytes := Z.shiftl 64 20;
     prepared_items := 32; prepared_bytes := Z.shiftl 64 20; scan_entries := 4096; scan_candidates := 1024;
     path_bytes := Z.shiftl 256 10; archive_bytes := Z.shiftl 32 20; config_bytes := Z.shiftl 1 20;
     config_baseline_items := 128; config_baseline_bytes := Z.shiftl 32 20; parse := parse_default;
     drain_items := 8; drain_bytes := Z.shiftl 16 20; drain_micros := 1000 |}.

Definition scan_result_reservation (p : LoaderPolicy) : Z := sat_add (path_bytes p) (sat_mul (scan_candidates p) 96).

Definition sized_fields (p : LoaderPolicy) : list Z :=
  [request_items p; request_bytes p; result_items p; result_bytes p; prepared_items p; prepared_bytes p;
   scan_entries p; scan_candidates p; path_bytes p; archive_bytes p; config_bytes p; config_baseline_items p;
   config_baseline_bytes p; zip_entries (parse p); member_name_bytes (parse p); manifest_bytes (parse p);
   plugin_js_bytes (parse p); gamedata_bytes (parse p); engine_functions_bytes (parse p); drain_items p; drain_bytes p].

(** The parsed members of one archive, with the fixed overhead. *)
Definition parsed_members (p : LoaderPolicy) : Z :=
  sat_add (sat_add (sat_add (sat_add (manifest_bytes (parse p)) (plugin_js_bytes (parse p)))
                            (gamedata_bytes (parse p))) (engine_functions_bytes (parse p))) 64.

Inductive invalid :=
| BadSize | ResultItems | ArchiveTooBig | ConfigTooBig | BaselineTooSmall | ScanTooBig | MembersTooBig | PreparedTooSmall.

(** [None] is [Ok(())]; each error is one of the messages. *)
Definition validate (p : LoaderPolicy) : option invalid :=
  if existsb (fun v => (v =? 0) || (safe_size <? v)) (sized_fields p) || (drain_micros p =? 0) then Some BadSize
  else if result_items p <? request_items p then Some ResultItems
  else if result_bytes p <? archive_bytes p then Some ArchiveTooBig
  else if result_bytes p <? sat_add (sat_mul (config_bytes p) 3) 256 then Some ConfigTooBig
  else if config_baseline_bytes p <? sat_mul (config_bytes p) 6 then Some BaselineTooSmall
  else if result_bytes p <? scan_result_reservation p then Some ScanTooBig
  else if result_bytes p <? parsed_members p then Some MembersTooBig
  else if prepared_bytes p <? sat_add (parsed_members p) (sat_mul (config_bytes p) 3) then Some PreparedTooSmall
  else None.
End LoaderPolicy.

Module AsyncPolicy.

Record AsyncPolicy := mkAsyncPolicy {
  jobs_global : Z;
  jobs_per_owner : Z;
  input_bytes : Z;
  owner_input_bytes : Z;
  completion_bytes : Z;
  failure_bytes : Z;
  sockets_global : Z;
  sockets_per_owner : Z;
  sqlite_global : Z;
  sqlite_per_owner : Z;
  pools_global : Z;
  pools_per_owner : Z;
  socket_out_items : Z;
  socket_out_bytes : Z;
  outbound_bytes : Z;
  inbound_items : Z;
  inbound_bytes : Z;
  timers_global : Z;
  timers_per_owner : Z;
  worker_queue_items : Z;
  sqlite_queue_items : Z;
  http_body_bytes : Z;
  input_item_bytes : Z;
  db_result_rows : Z;
  db_result_bytes : Z;
  cookie_versions : Z;
  cookie_bytes : Z;
  cookie_write_bytes : Z;
  frame_items : Z;
  frame_bytes : Z;
  frame_poll_items : Z;
  frame_soft_us : Z;
  loader : LoaderPolicy.LoaderPolicy;
}.

Definition policy_default : AsyncPolicy :=
  {| jobs_global := 512; jobs_per_owner := 64; input_bytes := Z.shiftl 32 20; owner_input_bytes := Z.shiftl 8 20;
     completion_bytes := Z.shiftl 16 20; failure_bytes := 4096; sockets_global := 128; sockets_per_owner := 16;
     sqlite_global := 32; sqlite_per_owner := 4; pools_global := 16; pools_per_owner := 4; socket_out_items := 256;
     socket_out_bytes := Z.shiftl 1 20; outbound_bytes := Z.shiftl 16 20; inbound_items := 2048;
     inbound_bytes := Z.shiftl 16 20; timers_global := 4096; timers_per_owner := 512; worker_queue_items := 256;
     sqlite_queue_items := 64; http_body_bytes := Z.shiftl 10 20; input_item_bytes := Z.shiftl 8 20;
     db_result_rows := 10000; db_result_bytes := Z.shiftl 8 20; cookie_versions := 4096; cookie_bytes := Z.shiftl 4 20;
     cookie_write_bytes := Z.shiftl 64 10; frame_items := 256; frame_bytes := Z.shiftl 2 20; frame_poll_items := 256;
     frame_soft_us := 2000; loader := LoaderPolicy.policy_default |}.

Definition fields (p : AsyncPolicy) : list Z :=
  [jobs_global p; jobs_per_owner p; input_bytes p; owner_input_bytes p; completion_bytes p; failure_bytes p;
   sockets_global p; sockets_per_owner p; sqlite_global p; sqlite_per_owner p; pools_global p; pools_per_owner p;
   socket_out_items p; socket_out_bytes p; outbound_bytes p; inbound_items p; inbound_bytes p; timers_global p;
   timers_per_owner p; worker_queue_items p; sqlite_queue_items p; http_body_bytes p; input_item_bytes p;
   db_result_rows p; db_result_bytes p; cookie_versions p; cookie_bytes p; cookie_write_bytes p; frame_items p;
   frame_bytes p; frame_poll_items p].

Definition validate (p : AsyncPolicy) : bool :=
  (256 <=? failure_bytes p)
  && forallb (fun n => (0 <? n) && (n <=? safe_size)) (fields p)
  && (0 <? frame_soft_us p)
  && (jobs_per_owner p <=? jobs_global p)
  && (owner_input_bytes p <=? input_bytes p)
  && (sockets_per_owner p <=? sockets_global p)
  && (sqlite_per_owner p <=? sqlite_global p)
  && (pools_per_owner p <=? pools_global p)
  && (timers_per_owner p <=? timers_global p)
  && (input_item_bytes p <=? owner_input_bytes p)
  && (cookie_write_bytes p <=? cookie_bytes p)
  && (match checked_mul (jobs_global p) (failure_bytes p) with Some n => n <=? completion_bytes p | None => false end)
  && (socket_out_bytes p <=? outbound_bytes p)
  && (bool_decide (LoaderPolicy.validate (loader p) = None)).
End AsyncPolicy.

Module Domain.
Import AsyncPolicy.

Record Domain := mkDomain {
  jobs : Budget;
  results : Budget;
  sockets : Budget;
  sqlite : Budget;
  pools : Budget;
  inbound : Budget;
  outbound : Budget;
  timers : Budget;
  policy : AsyncPolicy;
}.

Definition new (p : AsyncPolicy) : Domain :=
  {| jobs := Budget.new (jobs_global p) (input_bytes p) (jobs_per_owner p) (owner_input_bytes p);
     results := Budget.new (jobs_global p) (completion_bytes p) (jobs_global p) (completion_bytes p);
     sockets := Budget.new (sockets_global p) u64_max (sockets_per_owner p) u64_max;
     sqlite := Budget.new (sqlite_global p) u64_max (sqlite_per_owner p) u64_max;
     pools := Budget.new (pools_global p) (input_bytes p) (pools_per_owner p) (owner_input_bytes p);
     inbound := Budget.new (inbound_items p) (inbound_bytes p) (inbound_items p) (inbound_bytes p);
     outbound := Budget.new (sat_mul (sockets_global p) (socket_out_items p)) (outbound_bytes p)
                            (sat_mul (sockets_global p) (socket_out_items p)) (outbound_bytes p);
     timers := Budget.new (timers_global p) 0 (timers_per_owner p) 0;
     policy := p |}.

Definition with_jobs (d : Domain) (j r : Budget) : Domain :=
  mkDomain j r (sockets d) (sqlite d) (pools d) (inbound d) (outbound d) (timers d) (policy d).

(** A job's two leases and its cancellation flag. The policy and the domain it clones are those of
    the domain the operations below are given. *)
Record JobLease := mkJob { input : Lease; result : Lease; cancelled : bool }.

(** [Domain::job]. When the result reservation is refused, the input lease goes out of scope. *)
Definition job (d : Domain) (o : Owner) (byts : Z) : option (Domain * (JobLease + AdmissionError)) :=
  if input_item_bytes (policy d) <? byts then Some (d, inr PayloadTooLarge)
  else
    match acquire (jobs d) o 1 byts with
    | (j, inr e) => Some (with_jobs d j (results d), inr e)
    | (j, inl li) =>
        match acquire (results d) None 1 (failure_bytes (policy d)) with
        | (r, inl lr) => Some (with_jobs d j r, inl (mkJob li lr false))
        | (r, inr e) => (fun j' => (with_jobs d j' r, inr e)) <$> drop j li
        end
    end.

(** Dropping a job drops its fields in declaration order. *)
Definition drop_job (d : Domain) (jl : JobLease) : option Domain :=
  match drop (jobs d) (input jl), drop (results d) (result jl) with
  | Some j, Some r => Some (with_jobs d j r)
  | _, _ => None
  end.

Definition cancel (jl : JobLease) : JobLease := mkJob (input jl) (result jl) true.

Definition job_grow (d : Domain) (jl : JobLease) (byts : Z) : option (Domain * JobLease * option AdmissionError) :=
  if cancelled jl then Some (d, jl, Some Cancelled)
  else (fun x => (with_jobs d (jobs d) x.1.1, mkJob (input jl) x.1.2 (cancelled jl), x.2)) <$> grow (results d) (result jl) byts.

Definition job_bytes (jl : JobLease) : Z := w_bytes (result jl).

Definition input_grow (d : Domain) (jl : JobLease) (byts : Z) : option (Domain * JobLease * option AdmissionError) :=
  if sat_sub (input_item_bytes (policy d)) (w_bytes (input jl)) <? byts then Some (d, jl, Some PayloadTooLarge)
  else (fun x => (with_jobs d x.1.1 (results d), mkJob x.1.2 (result jl) (cancelled jl), x.2)) <$> grow (jobs d) (input jl) byts.

Definition discard_result (d : Domain) (jl : JobLease) : option (Domain * JobLease) :=
  (fun x => (with_jobs d (jobs d) x.1, mkJob (input jl) x.2 (cancelled jl))) <$>
    shrink (results d) (result jl) (sat_sub (w_bytes (result jl)) (failure_bytes (policy d))).

(** [d] accounts for exactly the outstanding jobs [Js]. *)
Record accounts (d : Domain) (Js : list JobLease) : Prop := {
  acc_jobs : holds (jobs d) (input <$> Js);
  acc_results : holds (results d) (result <$> Js);
  acc_one : Forall (fun jl => w_items (input jl) = 1 /\ w_items (result jl) = 1) Js;
}.

(** The limits a domain was created with. *)
Definition built_from (d : Domain) : Prop :=
  limits_of (jobs d) = limits_of (jobs (new (policy d))) /\
  limits_of (results d) = limits_of (results (new (policy d))).
(** ** Jobs *)
Inductive op :=
| Job (o : Owner) (byts : Z)
| DropJob (i : nat)
| Cancel (i : nat)
| JobGrow (i : nat) (byts : Z)
| InputGrow (i : nat) (byts : Z)
| DiscardResult (i : nat).

Definition at_job (Js : list JobLease) (i : nat) (f : JobLease -> option (Domain * JobLease)) (d : Domain)
    : option (Domain * list JobLease) :=
  match Js !! i with
  | Some jl => (fun r => (r.1, <[i := r.2]> Js)) <$> f jl
  | None => Some (d, Js)
  end.

Definition step (s : Domain * list JobLease) (o : op) : option (Domain * list JobLease) :=
  let '(d, Js) := s in
  match o with
  | Job ow byts =>
      (fun r => (r.1, match r.2 with inl jl => Js ++ [jl] | inr _ => Js end)) <$> job d ow byts
  | DropJob i => match Js !! i with Some jl => (fun d' => (d', vec_remove i Js)) <$> drop_job d jl | None => Some s end
  | Cancel i => at_job Js i (fun jl => Some (d, cancel jl)) d
  | JobGrow i n => at_job Js i (fun jl => fst <$> job_grow d jl n) d
  | InputGrow i n => at_job Js i (fun jl => fst <$> input_grow d jl n) d
  | DiscardResult i => at_job Js i (fun jl => discard_result d jl) d
  end.
Fixpoint run (s : Domain * list JobLease) (os : list op) : option (Domain * list JobLease) :=
  match os with [] => Some s | o :: os' => match step s o with Some s' => run s' os' | None => None end end.

Definition op_ok (o : op) : Prop :=
  match o with Job _ n | JobGrow _ n | InputGrow _ n => 0 <= n | _ => True end.

Lemma accounts_perm d Js Js' : Js ≡ₚ Js' -> accounts d Js -> accounts d Js'.
Proof. intros Hp [H1 H2 H3]. split; by rewrite <- Hp. Qed.
#[export] Instance accounts_proper : Proper (eq ==> Permutation ==> iff) accounts.
Proof. intros d ? <- Js Js' Hp. split; by apply accounts_perm. Qed.

Lemma domain_job d Js o byts :
  accounts d Js -> 0 <= byts -> 0 <= failure_bytes (policy d) ->
  exists d' r, job d o byts = Some (d', r) /\ policy d' = policy d /\
    match r with
    | inl jl => accounts d' (jl :: Js) /\ w_bytes (input jl) = byts /\ w_bytes (result jl) = failure_bytes (policy d)
    | inr _ => accounts d' Js
    end.
Proof.
  intros [H1 H2 H3] Hb Hfb. unfold job. destruct (_ <? byts); [do 2 eexists; split; [done|]; by split|].
  destruct (acquire (jobs d) o 1 byts) as [j [li|e]] eqn:E1.
  - destruct (budget_acquire_ok _ _ _ 1 _ _ _ H1 ltac:(lia) Hb E1) as [Hj ->].
    destruct (acquire (results d) None 1 (failure_bytes (policy d))) as [r [lr|e]] eqn:E2.
    + destruct (budget_acquire_ok _ _ _ 1 _ _ _ H2 ltac:(lia) Hfb E2) as [Hr ->].
      do 2 eexists. split; [done|]. split; [done|]. split; [|done]. split; csimpl; try done. by constructor.
    + pose proof (budget_acquire_err _ _ _ 1 _ _ _ H2 ltac:(lia) Hfb E2) as Hr.
      destruct (budget_drop _ _ _ Hj) as (j' & -> & Hj'). do 2 eexists. split; [done|]. split; [done|]. by split.
  - pose proof (budget_acquire_err _ _ _ 1 _ _ _ H1 ltac:(lia) Hb E1) as Hj.
    do 2 eexists. split; [done|]. split; [done|]. by split.
Qed.

Lemma domain_drop_job d jl Js :
  accounts d (jl :: Js) -> exists d', drop_job d jl = Some d' /\ accounts d' Js /\ policy d' = policy d.
Proof.
  intros [H1 H2 H3]. rewrite fmap_cons in H1, H2. apply Forall_cons in H3 as [_ H3]. unfold drop_job.
  destruct (budget_drop _ _ _ H1) as (j & -> & Hj). destruct (budget_drop _ _ _ H2) as (r & -> & Hr).
  eexists. split; [done|]. split; [by split|done].
Qed.

Lemma domain_job_grow d jl Js n :
  accounts d (jl :: Js) -> 0 <= n ->
  exists d' jl' r, job_grow d jl n = Some (d', jl', r) /\ accounts d' (jl' :: Js) /\ policy d' = policy d.
Proof.
  intros [H1 H2 H3] Hn. rewrite fmap_cons in H1, H2. apply Forall_cons in H3 as [[H4 H5] H3]. unfold job_grow.
  destruct (cancelled jl); [do 3 eexists; split; [done|]; split; [split; csimpl; try done; by constructor|done]|].
  destruct (budget_grow _ _ _ n H2 Hn) as (r & l' & e & -> & Hr & _ & Hi & _).
  do 3 eexists. split; [done|]. split; [|done]. split; csimpl; try done. constructor; [simpl; split; [done|congruence]|done].
Qed.

Lemma domain_input_grow d jl Js n :
  accounts d (jl :: Js) -> 0 <= n ->
  exists d' jl' r, input_grow d jl n = Some (d', jl', r) /\ accounts d' (jl' :: Js) /\ policy d' = policy d.
Proof.
  intros [H1 H2 H3] Hn. rewrite fmap_cons in H1, H2. apply Forall_cons in H3 as [[H4 H5] H3]. unfold input_grow.
  destruct (_ <? n); [do 3 eexists; split; [done|]; split; [split; csimpl; try done; by constructor|done]|].
  destruct (budget_grow _ _ _ n H1 Hn) as (r & l' & e & -> & Hr & _ & Hi & _).
  do 3 eexists. split; [done|]. split; [|done]. split; csimpl; try done. constructor; [simpl; split; [congruence|done]|done].
Qed.

Lemma domain_discard d jl Js :
  accounts d (jl :: Js) ->
  exists d' jl', discard_result d jl = Some (d', jl') /\ accounts d' (jl' :: Js) /\ policy d' = policy d.
Proof.
  intros [H1 H2 H3]. rewrite fmap_cons in H1, H2. apply Forall_cons in H3 as [[H4 H5] H3]. unfold discard_result.
  destruct (budget_shrink _ _ _ (sat_sub (w_bytes (result jl)) (failure_bytes (policy d))) H2) as (r & l' & -> & Hr & _ & Hi & _);
    [unfold sat_sub; lia|].
  do 2 eexists. split; [done|]. split; [|done]. split; csimpl; try done. constructor; [simpl; split; [done|congruence]|done].
Qed.

Lemma domain_at_job d Js i f :
  accounts d Js ->
  (forall jl Js', accounts d (jl :: Js') -> exists d' jl', f jl = Some (d', jl') /\ accounts d' (jl' :: Js') /\ policy d' = policy d) ->
  exists d' Js', at_job Js i f d = Some (d', Js') /\ accounts d' Js' /\ policy d' = policy d.
Proof.
  intros H Hf. unfold at_job. destruct (Js !! i) as [jl|] eqn:E; [|by do 2 eexists].
  apply list_elem_of_split_length in E as (J1 & J2 & -> & ->). rewrite <- Permutation_middle in H.
  destruct (Hf jl (J1 ++ J2) H) as (d' & jl' & -> & H' & Hp). do 2 eexists. split; [done|].
  cbn [fst snd]. rewrite insert_middle, <- Permutation_middle. done.
Qed.

Lemma domain_step d Js o :
  accounts d Js -> 0 <= failure_bytes (policy d) -> op_ok o ->
  exists d' Js', step (d, Js) o = Some (d', Js') /\ accounts d' Js' /\ policy d' = policy d.
Proof.
  intros H Hfb Hok. destruct o as [ow n|i|i|i n|i n|i]; cbn [step op_ok] in *.
  - destruct (domain_job d Js ow n H Hok Hfb) as (d' & r & -> & Hp & Hr). do 2 eexists. split; [done|]. cbn [fst snd].
    split; [|done]. destruct r as [jl|e]; [|done]. rewrite Permutation_app_comm. by destruct Hr.
  - destruct (Js !! i) as [jl|] eqn:E; [|by do 2 eexists].
    apply list_elem_of_split_length in E as (J1 & J2 & -> & ->). rewrite vec_remove_app, <- Permutation_middle in *.
    destruct (domain_drop_job d jl (J1 ++ J2) H) as (d' & -> & H' & Hp). by do 2 eexists.
  - apply domain_at_job; [done|]. intros jl Js' [H1 H2 H3]. do 2 eexists. split; [done|]. split; [|done].
    apply Forall_cons in H3 as [? ?]. split; try done. by constructor.
  - apply domain_at_job; [done|]. intros jl Js' H'. destruct (domain_job_grow d jl Js' n H' Hok) as (d' & jl' & r & -> & ? & ?). by do 2 eexists.
  - apply domain_at_job; [done|]. intros jl Js' H'. destruct (domain_input_grow d jl Js' n H' Hok) as (d' & jl' & r & -> & ? & ?). by do 2 eexists.
  - apply domain_at_job; [done|]. intros jl Js' H'. by apply domain_discard.
Qed.

(** The fields a valid policy bounds. *)
Lemma policy_valid p :
  validate p = true ->
  Forall (fun n => 0 < n <= safe_size) (fields p) /\ 256 <= failure_bytes p /\
  input_item_bytes p <= owner_input_bytes p <= input_bytes p /\ jobs_per_owner p <= jobs_global p /\
  jobs_global p * failure_bytes p <= completion_bytes p /\ socket_out_bytes p <= outbound_bytes p /\
  0 < frame_soft_us p /\ LoaderPolicy.validate (loader p) = None.
Proof.
  unfold validate. rewrite !andb_true_iff, forallb_forall. intros H. destruct_and! H.
  unfold checked_mul in *. destruct (jobs_global p * failure_bytes p <=? u64_max); [|done]. bool_to_prop.
  split; [|lia || done]. apply Forall_forall. intros n Hn. apply list_elem_of_In in Hn.
  match goal with HF : forall x, In x _ -> _ |- _ => specialize (HF n Hn) end. bool_to_prop. lia.
Qed.

Lemma domain_new_accounts p : validate p = true -> accounts (new p) [].
Proof.
  intros Hv. destruct (policy_valid p Hv) as (Hf & _). unfold fields in Hf. rewrite !Forall_cons in Hf.
  assert (safe_size <= u64_max) by (vm_compute; discriminate).
  split; [..|constructor]; apply budget_new; rewrite !Forall_cons; repeat split; try lia; constructor.
Qed.

(** Under a valid policy the job domain never panics and its gauges are exact: after any sequence
    of admissions, growths, cancellations, discards and drops, both the input and the completion
    budget account for exactly the leases of the jobs still outstanding; in particular a job whose
    completion reservation was refused leaves nothing behind. *)
Theorem domain_accounting p os :
  validate p = true -> Forall op_ok os ->
  exists d Js, run (new p, []) os = Some (d, Js) /\
    items (snapshot (jobs d)) = Z.of_nat (length Js) /\ items (snapshot (results d)) = Z.of_nat (length Js) /\
    bytes (snapshot (jobs d)) = sum w_bytes (input <$> Js) /\ bytes (snapshot (results d)) = sum w_bytes (result <$> Js).
Proof.
  intros Hv Hos. destruct (policy_valid p Hv) as (_ & Hfb & _).
  assert (Hgen : forall d Js, accounts d Js -> 0 <= failure_bytes (policy d) ->
            exists d' Js', run (d, Js) os = Some (d', Js') /\ accounts d' Js').
  { induction Hos as [|o os Ho Hos IH]; intros d Js H Hd; cbn [run]; [by exists d, Js|].
    destruct (domain_step d Js o H Hd Ho) as (d1 & J1 & E & H1 & Hp). rewrite E. apply IH; [done|]. by rewrite Hp. }
  destruct (Hgen (new p) [] (domain_new_accounts p Hv)) as (d & Js & E & [H1 H2 H3]); [simpl; lia|].
  exists d, Js. split; [done|]. unfold snapshot. rewrite (h_items _ _ H1), (h_items _ _ H2), (h_bytes _ _ H1), (h_bytes _ _ H2).
  assert (Hone : forall f : JobLease -> Lease, Forall (fun jl => w_items (f jl) = 1) Js -> sum w_items (f <$> Js) = Z.of_nat (length Js)).
  { clear. intros f. induction 1 as [|jl Js Hj _ IH]; csimpl; [done|]. rewrite sum_cons. lia. }
  split; [apply Hone; eapply Forall_impl; [exact H3|]; by intros ? []|].
  split; [apply Hone; eapply Forall_impl; [exact H3|]; by intros ? []|]. done.
Qed.

(** A valid policy always leaves room to report failure: while no outstanding job has grown its
    result, a job is admitted exactly when the input budget admits it, so the reservation that pays
    for its failure diagnostic is never the reason it is refused; and a refusal within the per-item
    limit is always the retryable [QueueFull]. *)
Theorem policy_admits_failures d Js o byts :
  validate (policy d) = true -> built_from d -> accounts d Js ->
  Forall (fun jl => w_bytes (result jl) = failure_bytes (policy d) /\ owner (result jl) = None) Js ->
  0 <= byts <= input_item_bytes (policy d) ->
  exists d' r, job d o byts = Some (d', r) /\
    ((exists jl, r = inl jl) <-> (exists l, (acquire (jobs d) o 1 byts).2 = inl l)) /\
    (forall e, r = inr e -> e = QueueFull).
Proof.
  intros Hv [Hbj Hbr] [H1 H2 H3] Hres Hb. destruct (policy_valid _ Hv) as (Hf & Hfb & Hin & Hjo & Hmul & _).
  unfold fields in Hf. rewrite !Forall_cons in Hf.
  unfold limits_of, new, Budget.new in Hbj, Hbr. simpl in Hbj, Hbr. injection Hbj as B1 B2 B3 B4. injection Hbr as C1 C2 C3 C4.
  unfold job. rewrite (proj2 (Z.ltb_ge _ _)) by lia.
  destruct (budget_acquire_cases (jobs d) _ o 1 byts H1 ltac:(lia) ltac:(lia)) as [[Hfit E]|[_ (e & E & He & Hq)]]; rewrite E.
  2:{ do 2 eexists. split; [done|]. split; [split; [by intros [? ?]|intros [? ?]; done]|]. intros e' [= <-]. apply Hq. lia. }
  assert (Hs : sum w_items (result <$> Js) = Z.of_nat (length Js) /\ sum w_items (input <$> Js) = Z.of_nat (length Js) /\
      sum w_bytes (result <$> Js) = Z.of_nat (length Js) * failure_bytes (policy d) /\
      sum (only None w_items) (result <$> Js) = Z.of_nat (length Js) /\
      sum (only None w_bytes) (result <$> Js) = Z.of_nat (length Js) * failure_bytes (policy d)).
  { clear -H3 Hres. induction H3 as [|jl Js [Hi Hr] _ IH]; [done|]. apply Forall_cons in Hres as [[Hb Ho] Hres].
    rewrite !fmap_cons, !sum_only_cons, !sum_cons, Ho, !bool_decide_true by done. specialize (IH Hres). simpl length. lia. }
  destruct Hs as (S1 & S2 & S3 & S4 & S5). rewrite S2 in Hfit.
  destruct (budget_acquire_cases (results d) _ None 1 (failure_bytes (policy d)) H2 ltac:(lia) ltac:(lia)) as [[_ E2]|[Hno _]].
  - rewrite E2. do 2 eexists. split; [done|]. split; [split; intros _; by eexists|done].
  - exfalso. apply Hno. rewrite S1, S3, S4, S5, C1, C2, C3, C4. nia.
Qed.
End Domain.

Module OutChannel.
Import AsyncPolicy.

(** [PayloadSize]: the payload reports its weight. *)
Class PayloadSize (T : Type) := payload_bytes : T -> Z.

(** A socket's outbound queue: its own budget, the queued payloads with their global and local
    leases, and the pair the receiver holds while it processes the payload it took last. The global
    budget is the domain's, threaded through every call. [closed] is the receiver's end having gone
    (tokio's channel then refuses a send and drops the message with its leases). *)
Record OutChannel (T : Type) := mkChannel {
  budget : Budget;
  queue : list (T * Lease * Lease);
  held : option (Lease * Lease);
  closed : bool;
}.
Arguments mkChannel {T}. Arguments budget {T}. Arguments queue {T}. Arguments held {T}. Arguments closed {T}.

Section OutChannel.
Context {T : Type} `{PayloadSize T}.
Implicit Types (c : OutChannel T) (g : Budget).

Definition out_channel (p : AsyncPolicy) : OutChannel T :=
  {| budget := Budget.new (socket_out_items p) (socket_out_bytes p) (socket_out_items p) (socket_out_bytes p);
     queue := []; held := None; closed := false |}.

(** [reserve]: the local lease first; if the global budget refuses, the local lease is dropped. *)
Definition reserve g c (byts : Z) : option (Budget * Budget * ((Lease * Lease) + AdmissionError)) :=
  match acquire (budget c) None 1 byts with
  | (b, inr e) => Some (g, b, inr e)
  | (b, inl local) =>
      match acquire g None 1 byts with
      | (g', inl global) => Some (g', b, inl (global, local))
      | (g', inr e) => (fun b' => (g', b', inr e)) <$> drop b local
      end
  end.

(** Dropping a (global, local) pair. *)
Definition drop_pair g (b : Budget) (pr : Lease * Lease) : option (Budget * Budget) :=
  match drop g pr.1, drop b pr.2 with Some g', Some b' => Some (g', b') | _, _ => None end.

Definition send_reserved g c (value : T) (r : Lease * Lease) : option (Budget * OutChannel T * bool) :=
  if closed c then
    (fun x => (x.1, mkChannel x.2 (queue c) (held c) (closed c), false)) <$> drop_pair g (budget c) r
  else Some (g, mkChannel (budget c) (queue c ++ [(value, r.1, r.2)]) (held c) (closed c), true).

Definition send g c (value : T) : option (Budget * OutChannel T * bool) :=
  match reserve g c (payload_bytes value) with
  | None => None
  | Some (g', b, inr _) => Some (g', mkChannel b (queue c) (held c) (closed c), false)
  | Some (g', b, inl r) => send_reserved g' (mkChannel b (queue c) (held c) (closed c)) value r
  end.

(** [try_recv], and [recv] when a payload is queued: what was held is released first. *)
Definition try_recv g c : option (Budget * OutChannel T * option T) :=
  match (match held c with Some pr => drop_pair g (budget c) pr | None => Some (g, budget c) end) with
  | None => None
  | Some (g', b) =>
      match queue c with
      | [] => Some (g', mkChannel b [] None (closed c), None)
      | (value, global, local) :: rest => Some (g', mkChannel b rest (Some (global, local)) (closed c), Some value)
      end
  end.

(** Dropping the receiver closes the channel and drops the queue and what was held. *)
Fixpoint drop_queue g (b : Budget) (q : list (T * Lease * Lease)) : option (Budget * Budget) :=
  match q with
  | [] => Some (g, b)
  | (_, global, local) :: rest =>
      match drop_pair g b (global, local) with Some (g', b') => drop_queue g' b' rest | None => None end
  end.
Definition drop_receiver g c : option (Budget * OutChannel T) :=
  match drop_queue g (budget c) (queue c) with
  | None => None
  | Some (g1, b1) =>
      match (match held c with Some pr => drop_pair g1 b1 pr | None => Some (g1, b1) end) with
      | Some (g2, b2) => Some (g2, mkChannel b2 [] None true)
      | None => None
      end
  end.

(** ** Accounting *)
Definition pairs c : list (Lease * Lease) :=
  (match held c with Some pr => [pr] | None => [] end) ++ ((fun x => (x.1.2, x.2)) <$> queue c).
Definition global_leases c : list Lease := fst <$> pairs c.
Definition local_leases c : list Lease := snd <$> pairs c.

(** The channel's own budget accounts for its leases; the global one for these and [others]. *)
Definition accounts g c (others : list Lease) : Prop :=
  holds (budget c) (local_leases c) /\ holds g (global_leases c ++ others) /\
  Forall (fun l => w_items l = 1) (local_leases c).

Inductive op := Send (value : T) | Recv | DropReceiver.
(** The answer: whether a send was accepted, or the payload received. *)
Definition step g c (o : op) : option (Budget * OutChannel T * (bool + option T)) :=
  match o with
  | Send v => (fun x => (x.1, inl x.2)) <$> send g c v
  | Recv => (fun x => (x.1, inr x.2)) <$> try_recv g c
  | DropReceiver => (fun x => (x, inl true)) <$> drop_receiver g c
  end.
Fixpoint run g c (os : list op) : option (Budget * OutChannel T * list (bool + option T)) :=
  match os with
  | [] => Some (g, c, [])
  | o :: os' => match step g c o with
                | Some (g', c', a) => (fun r => (r.1, a :: r.2)) <$> run g' c' os'
                | None => None
                end
  end.

Definition sized (o : op) : Prop := match o with Send v => 0 <= payload_bytes v | _ => True end.

Lemma out_drop_pair g b pr G L :
  holds g (pr.1 :: G) -> holds b (pr.2 :: L) -> exists g' b', drop_pair g b pr = Some (g', b') /\ holds g' G /\ holds b' L.
Proof.
  intros Hg Hb. unfold drop_pair. destruct (budget_drop _ _ _ Hg) as (g' & -> & Hg').
  destruct (budget_drop _ _ _ Hb) as (b' & -> & Hb'). by exists g', b'.
Qed.

Lemma out_send g c others v :
  accounts g c others -> 0 <= payload_bytes v ->
  exists g' c' ok, send g c v = Some (g', c', ok) /\ accounts g' c' others /\ held c' = held c /\ closed c' = closed c /\
    (if ok then closed c = false /\ exists r, queue c' = queue c ++ [(v, r.1, r.2)] else queue c' = queue c).
Proof.
  intros (Hl & Hg & H1) Hv. unfold send, reserve.
  destruct (acquire (budget c) None 1 (payload_bytes v)) as [b [local|e]] eqn:E1.
  2:{ do 3 eexists. split; [done|]. split; [|done].
      split; [|split; done]. apply (budget_acquire_err _ _ None 1 _ _ _ Hl ltac:(lia) Hv E1). }
  destruct (budget_acquire_ok _ _ _ 1 _ _ _ Hl ltac:(lia) Hv E1) as [Hb ->].
  destruct (acquire g None 1 (payload_bytes v)) as [g' [global|e]] eqn:E2.
  2:{ destruct (budget_drop _ _ _ Hb) as (b' & -> & Hb'). do 3 eexists. split; [done|]. split; [|done].
      split; [done|]. split; [|done]. apply (budget_acquire_err _ _ None 1 _ _ _ Hg ltac:(lia) Hv E2). }
  destruct (budget_acquire_ok _ _ _ 1 _ _ _ Hg ltac:(lia) Hv E2) as [Hg' ->]. unfold send_reserved. cbn [closed budget queue held].
  destruct (closed c) eqn:Ec.
  - destruct (out_drop_pair g' b (mkLease None 1 (payload_bytes v), mkLease None 1 (payload_bytes v)) _ _ Hg' Hb) as (g2 & b2 & -> & ? & ?).
    do 3 eexists. split; [done|]. split; [|done]. done.
  - do 3 eexists. split; [done|]. split; [|split; [done|split; [done|]]].
    + unfold accounts, local_leases, global_leases, pairs. cbn [budget held queue]. rewrite !fmap_app, !app_assoc. csimpl.
      unfold local_leases, global_leases, pairs in Hb, Hg', H1. rewrite !fmap_app in Hb, Hg', H1. split; [|split].
      * by rewrite Permutation_app_comm.
      * rewrite <- (app_assoc _ [_]). cbn [app]. rewrite <- Permutation_middle. done.
      * rewrite Forall_app. split; [done|]. by constructor.
    + split; [done|]. by eexists (_, _).
Qed.

Lemma out_recv g c others :
  accounts g c others ->
  exists g' c' r, try_recv g c = Some (g', c', r) /\ accounts g' c' others /\ closed c' = closed c /\
    r = head ((fun x => x.1.1) <$> queue c) /\ queue c' = tail (queue c).
Proof.
  intros (Hl & Hg & H1). unfold try_recv.
  assert (Hrel : exists g' b', (match held c with Some pr => drop_pair g (budget c) pr | None => Some (g, budget c) end) = Some (g', b') /\
      holds b' ((fun x => x.2) <$> queue c) /\ holds g' (((fun x => x.1.2) <$> queue c) ++ others) /\
      Forall (fun l => w_items l = 1) ((fun x : T * Lease * Lease => x.2) <$> queue c)).
  { unfold local_leases, global_leases, pairs in *. rewrite !fmap_app, <- !list_fmap_compose in *.
    destruct (held c) as [pr|]; csimpl in *; [|by do 2 eexists].
    destruct (out_drop_pair g (budget c) pr _ _ Hg Hl) as (g' & b' & E & ? & ?). do 2 eexists. split; [done|].
    split; [done|]. split; [done|]. by apply Forall_cons in H1 as [_ ?]. }
  destruct Hrel as (g' & b' & -> & Hb & Hg' & H1'). destruct (queue c) as [|[[v gl] lo] rest]; do 3 eexists; (split; [done|]);
    (split; [|done]); unfold accounts, local_leases, global_leases, pairs; cbn [budget held queue]; rewrite !fmap_app, <- !list_fmap_compose; done.
Qed.

Lemma out_drop_queue g b (q : list (T * Lease * Lease)) G L :
  holds g (((fun x => x.1.2) <$> q) ++ G) -> holds b (((fun x => x.2) <$> q) ++ L) ->
  exists g' b', drop_queue g b q = Some (g', b') /\ holds g' G /\ holds b' L.
Proof.
  revert g b. induction q as [|[[v gl] lo] q IH]; intros g b Hg Hb; cbn [drop_queue]; [by do 2 eexists|].
  destruct (out_drop_pair g b (gl, lo) _ _ Hg Hb) as (g' & b' & -> & Hg' & Hb'). by apply IH.
Qed.

Lemma out_drop_receiver g c others :
  accounts g c others ->
  exists g' c', drop_receiver g c = Some (g', c') /\ accounts g' c' others /\ queue c' = [] /\ held c' = None /\ closed c' = true.
Proof.
  intros (Hl & Hg & H1). unfold drop_receiver. unfold local_leases, global_leases, pairs in *. rewrite !fmap_app, <- !list_fmap_compose in *.
  destruct (out_drop_queue g (budget c) (queue c) ((fst <$> match held c with Some pr => [pr] | None => [] end) ++ others)
              (snd <$> match held c with Some pr => [pr] | None => [] end)) as (g1 & b1 & -> & Hg1 & Hb1).
  { rewrite app_assoc. rewrite (Permutation_app_comm ((fun x => x.1.2) <$> queue c)). exact Hg. }
  { rewrite Permutation_app_comm. exact Hl. }
  destruct (held c) as [pr|]; csimpl in *.
  - destruct (out_drop_pair g1 b1 pr others [] Hg1 Hb1) as (g2 & b2 & -> & Hg2 & Hb2). do 2 eexists.
    split; [done|]. split; [split; [done|split; [done|constructor]]|done].
  - do 2 eexists. split; [done|]. split; [split; [done|split; [done|constructor]]|done].
Qed.

(** The payloads accepted but not yet received, as a reference queue: [spec_run] is a FIFO queue
    told which sends were accepted. *)
Fixpoint spec_run (q : list T) (os : list op) (answers : list (bool + option T)) : Prop :=
  match os, answers with
  | [], [] => True
  | Send v :: os', inl ok :: an' => spec_run (if ok then q ++ [v] else q) os' an'
  | Recv :: os', inr r :: an' => r = head q /\ spec_run (tail q) os' an'
  | DropReceiver :: os', inl _ :: an' => spec_run [] os' an'
  | _, _ => False
  end.

Lemma out_run g c others os :
  accounts g c others -> Forall sized os ->
  exists g' c' an, run g c os = Some (g', c', an) /\ accounts g' c' others /\
    spec_run ((fun x => x.1.1) <$> queue c) os an.
Proof.
  intros Hacc Hos. revert g c Hacc. induction Hos as [|o os Ho Hos IH]; intros g c Hacc; cbn [run]; [by do 3 eexists|].
  destruct o as [v| |]; cbn [step sized] in *.
  - destruct (out_send g c others v Hacc Ho) as (g1 & c1 & ok & -> & Hacc1 & _ & _ & Hq). csimpl.
    destruct (IH g1 c1 Hacc1) as (g2 & c2 & an & -> & Hacc2 & Hsp). do 3 eexists. split; [done|]. split; [done|]. cbn [spec_run fst snd].
    destruct ok; [destruct Hq as (_ & r & Hq)|]; rewrite Hq in Hsp; rewrite ?fmap_app in Hsp; done.
  - destruct (out_recv g c others Hacc) as (g1 & c1 & r & -> & Hacc1 & _ & Hr & Hq). csimpl.
    destruct (IH g1 c1 Hacc1) as (g2 & c2 & an & -> & Hacc2 & Hsp). do 3 eexists. split; [done|]. split; [done|]. cbn [spec_run fst snd].
    split; [done|]. rewrite Hq in Hsp. by destruct (queue c).
  - destruct (out_drop_receiver g c others Hacc) as (g1 & c1 & -> & Hacc1 & Hq & _). csimpl.
    destruct (IH g1 c1 Hacc1) as (g2 & c2 & an & -> & Hacc2 & Hsp). do 3 eexists. split; [done|]. split; [done|]. cbn [spec_run fst snd].
    by rewrite Hq in Hsp.
Qed.

Lemma out_drop_pair_limits g b pr g' b' : drop_pair g b pr = Some (g', b') -> limits_of b' = limits_of b.
Proof.
  unfold drop_pair. destruct (drop g pr.1); [|done]. destruct (drop b pr.2) eqn:E; [|done].
  intros [= _ <-]. by eapply drop_limits.
Qed.

Lemma out_drop_queue_limits g b (q : list (T * Lease * Lease)) g' b' :
  drop_queue g b q = Some (g', b') -> limits_of b' = limits_of b.
Proof.
  revert g b. induction q as [|[[v gl] lo] q IH]; intros g b; cbn [drop_queue]; [by intros [= _ <-]|].
  destruct (drop_pair g b (gl, lo)) as [[g1 b1]|] eqn:E; [|done]. intros Hq%IH. rewrite Hq. by eapply out_drop_pair_limits.
Qed.

Lemma out_step_limits g c o g' c' a : step g c o = Some (g', c', a) -> limits_of (budget c') = limits_of (budget c).
Proof.
  destruct o as [v| |]; cbn [step].
  - unfold send, reserve. pose proof (acquire_limits (budget c) None 1 (payload_bytes v)) as Ha.
    destruct (acquire (budget c) None 1 (payload_bytes v)) as [b [local|e]]; [|by intros [= _ <- _]]. cbn [fst] in Ha.
    destruct (acquire g None 1 (payload_bytes v)) as [g1 [global|e]].
    + unfold send_reserved. cbn [closed budget queue held]. destruct (closed c); [|by intros [= _ <- _]].
      destruct (drop_pair g1 b (global, local)) as [[g2 b2]|] eqn:E; [|done]. intros [= _ <- _]. cbn [budget snd].
      by rewrite <- Ha; apply out_drop_pair_limits in E.
    + destruct (drop b local) as [b2|] eqn:E; [|done]. intros [= _ <- _]. cbn [budget].
      by rewrite <- Ha; apply drop_limits in E.
  - unfold try_recv. destruct (held c) as [pr|].
    + destruct (drop_pair g (budget c) pr) as [[g1 b1]|] eqn:E; [|done]. apply out_drop_pair_limits in E.
      destruct (queue c) as [|[[v gl] lo] q]; by intros [= _ <- _].
    + destruct (queue c) as [|[[v gl] lo] q]; by intros [= _ <- _].
  - unfold drop_receiver. destruct (drop_queue g (budget c) (queue c)) as [[g1 b1]|] eqn:E; [|done].
    apply out_drop_queue_limits in E. destruct (held c) as [pr|]; [|by intros [= _ <- _]].
    destruct (drop_pair g1 b1 pr) as [[g2 b2]|] eqn:E2; [|done]. apply out_drop_pair_limits in E2.
    intros [= _ <- _]. by rewrite <- E.
Qed.

Lemma out_run_limits g c os g' c' an : run g c os = Some (g', c', an) -> limits_of (budget c') = limits_of (budget c).
Proof.
  revert g c an. induction os as [|o os IH]; intros g c an; cbn [run]; [by intros [= _ <- _]|].
  destruct (step g c o) as [[[g1 c1] a]|] eqn:E; [|done]. apply out_step_limits in E.
  destruct (run g1 c1 os) as [[[g2 c2] an2]|] eqn:E2; [|done]. intros [= <- <- _]. rewrite <- E. by eapply IH.
Qed.

(** A socket's outbound queue is a bounded FIFO: whatever is sent, received and closed, nothing
    panics; accepted payloads are received in order, each once; the payloads queued or being
    processed never exceed the socket's item and byte limits; and the global budget is charged for
    exactly them on top of the other sockets' leases. *)
Theorem out_channel_fifo p g others os :
  AsyncPolicy.validate p = true -> holds g others -> Forall sized os ->
  exists g' c an, run g (out_channel p) os = Some (g', c, an) /\ spec_run [] os an /\
    Z.of_nat (length (pairs c)) <= socket_out_items p /\ sum w_bytes (local_leases c) <= socket_out_bytes p /\
    items (snapshot g') = sum w_items (global_leases c ++ others).
Proof.
  intros Hv Hg Hos. destruct (Domain.policy_valid p Hv) as (Hf & _). unfold fields in Hf. rewrite !Forall_cons in Hf.
  assert (safe_size <= u64_max) by (vm_compute; discriminate).
  destruct (out_run g (out_channel p) others os) as (g' & c & an & E & (Hl & Hg' & H1) & Hsp); [|done|].
  { split; [|split; [done|constructor]]. apply budget_new. rewrite !Forall_cons. repeat split; try lia; constructor. }
  exists g', c, an. split; [done|]. split; [done|]. unfold snapshot. rewrite (h_items _ _ Hg').
  assert (Hlen : sum w_items (local_leases c) = Z.of_nat (length (pairs c))).
  { unfold local_leases in *. clear -H1. induction (pairs c) as [|x l IH]; [done|]. rewrite fmap_cons in *.
    apply Forall_cons in H1 as [E H1]. rewrite sum_cons. simpl length. rewrite E, IH by done. lia. }
  destruct (h_max _ _ Hl) as [Hm1 Hm2]. rewrite Hlen in Hm1.
  apply out_run_limits in E. unfold limits_of in E. simpl in E. injection E as E1 E2 _ _. rewrite <- E1, <- E2. done.
Qed.
End OutChannel.
End OutChannel.

Module Frame.
Import AsyncPolicy.

Record FrameBudget := mkFrame {
  f_items : Z;
  f_bytes : Z;
  f_polls : Z;
  max_items : Z;
  max_bytes : Z;
  poll_limit : Z;
  soft : Z;
}.

(** [soft] in nanoseconds. *)
Definition new (p : AsyncPolicy) : FrameBudget :=
  mkFrame 0 0 0 (frame_items p) (frame_bytes p) (frame_poll_items p) (frame_soft_us p * 1000).

Definition can (b : FrameBudget) (elapsed byts : Z) : bool :=
  (f_items b <? max_items b)
  && ((f_items b =? 0) || ((elapsed <? soft b) && (byts <=? sat_sub (max_bytes b) (f_bytes b))))
  && ((f_items b =? 0) || (f_bytes b <? max_bytes b)).

Definition spend (b : FrameBudget) (byts : Z) : FrameBudget :=
  mkFrame (u64_succ (f_items b)) (sat_add (f_bytes b) byts) (f_polls b) (max_items b) (max_bytes b) (poll_limit b) (soft b).

Definition poll (b : FrameBudget) (elapsed : Z) : FrameBudget * bool :=
  if (poll_limit b <=? f_polls b) || ((0 <? f_polls b) && (soft b <=? elapsed)) then (b, false)
  else (mkFrame (f_items b) (f_bytes b) (u64_succ (f_polls b)) (max_items b) (max_bytes b) (poll_limit b) (soft b), true).

(** The thread-local [FRAME], [PRE_RESERVE] and [PRE_TURN]. *)
Record FrameState := mkFrameState { frame : option FrameBudget; pre_reserve : Z; pre_turn : bool }.
Definition init : FrameState := mkFrameState None 0 false.

Definition begin_frame_with (p : AsyncPolicy) (callbacks : bool) (st : FrameState) : FrameState :=
  let '(reserve, turn) :=
    if callbacks then (if pre_turn st then 0 else frame_items p, negb (pre_turn st)) else (0, pre_turn st) in
  mkFrameState (Some (new p)) reserve turn.

Definition poll_frame (st : FrameState) (elapsed : Z) : FrameState * bool :=
  match frame st with
  | Some b => let '(b', ok) := poll b elapsed in (mkFrameState (Some b') (pre_reserve st) (pre_turn st), ok)
  | None => (st, false)
  end.

Definition can_deliver (st : FrameState) (elapsed byts : Z) (pre : bool) : bool :=
  match frame st with
  | None => true
  | Some b => can b elapsed byts && (negb pre || (u64_add (f_items b) (pre_reserve st) <? max_items b))
  end.

Definition deliver (st : FrameState) (byts : Z) : FrameState :=
  match frame st with
  | Some b => mkFrameState (Some (spend b byts)) (pre_reserve st) (pre_turn st)
  | None => st
  end.

(** A frame's work: an attempt to deliver (the caller's [if can_deliver { deliver }]), or a poll. *)
Inductive work := Attempt (elapsed byts : Z) (pre : bool) | Poll (elapsed : Z).
Definition step (st : FrameState) (w : work) : FrameState * bool :=
  match w with
  | Attempt e n pre => if can_deliver st e n pre then (deliver st n, true) else (st, false)
  | Poll e => poll_frame st e
  end.
Fixpoint run (st : FrameState) (ws : list work) : FrameState * list bool :=
  match ws with
  | [] => (st, [])
  | w :: ws' => let '(st1, ok) := step st w in let '(st2, oks) := run st1 ws' in (st2, ok :: oks)
  end.

Definition work_ok (w : work) : Prop := match w with Attempt _ n _ => 0 <= n | Poll _ => True end.
(** What a frame delivered and polled. *)
Fixpoint delivered (ws : list work) (oks : list bool) : list Z :=
  match ws, oks with
  | Attempt _ n _ :: ws', ok :: oks' => if ok then n :: delivered ws' oks' else delivered ws' oks'
  | Poll _ :: ws', _ :: oks' => delivered ws' oks'
  | _, _ => []
  end.
Definition total (l : list Z) : Z := foldr Z.add 0 l.

(** The counters of a running frame, given what it has delivered so far. *)
Record frame_ok (p : AsyncPolicy) (st : FrameState) (done : list Z) : Prop := {
  ok_frame : exists b, frame st = Some b /\ max_items b = frame_items p /\ max_bytes b = frame_bytes p /\
    poll_limit b = frame_poll_items p /\ f_items b = Z.of_nat (length done) /\ f_bytes b = Z.min (total done) u64_max /\
    f_items b <= frame_items p /\ (f_items b <= 1 \/ total done <= frame_bytes p) /\ 0 <= f_polls b <= frame_poll_items p;
  ok_bytes : Forall (fun n => 0 <= n) done;
}.

Lemma frame_total_app a b : total (a ++ b) = total a + total b.
Proof. induction a as [|x a IH]; simpl; [done|]. fold (total (a ++ b)) (total a). lia. Qed.

Lemma frame_total_nonneg l : Forall (fun n => 0 <= n) l -> 0 <= total l.
Proof. induction 1; simpl; [done|]. unfold total in *. lia. Qed.

Lemma frame_step p st done w :
  0 < frame_items p <= safe_size -> 0 < frame_bytes p <= safe_size -> 0 < frame_poll_items p <= safe_size ->
  frame_ok p st done -> work_ok w ->
  let '(st', ok) := step st w in
  frame_ok p st' (done ++ delivered [w] [ok]) /\ pre_reserve st' = pre_reserve st /\ pre_turn st' = pre_turn st.
Proof.
  intros Hi Hb Hp [(b & Ef & E1 & E2 & E3 & E4 & E5 & E6 & E7 & E8) Hd] Hw.
  assert (Hss : safe_size < u64_max) by by vm_compute. pose proof (frame_total_nonneg _ Hd) as Ht.
  destruct w as [e n pre|e]; cbn [step work_ok delivered] in *.
  - unfold can_deliver. rewrite Ef. destruct (can b e n && _) eqn:Ec.
    2:{ rewrite app_nil_r. split; [|done]. split; [|done]. exists b. split_and!; first [done|lia]. }
    apply andb_true_iff in Ec as [Ec _]. unfold can in Ec. apply andb_true_iff in Ec as [Ec E9].
    apply andb_true_iff in Ec as [Ec E10]. apply Z.ltb_lt in Ec.
    unfold deliver. rewrite Ef. split; [|done]. split; [|apply Forall_app; split; [done|by constructor]].
    eexists. split; [done|]. unfold spend; simpl. rewrite frame_total_app, length_app. simpl.
    rewrite u64_succ_small by lia. unfold sat_add. rewrite E5, E4 in *. simpl.
    repeat split; try lia. destruct done as [|x done]; [left; simpl; lia|]. right.
    apply orb_true_iff in E9 as [E9|E9]; [apply Z.eqb_eq in E9; simpl in E9; lia|].
    apply orb_true_iff in E10 as [E10|E10]; [apply Z.eqb_eq in E10; simpl in E10; lia|]. bool_to_prop.
    unfold sat_sub in *. rewrite E2 in *. lia.
  - unfold poll_frame. rewrite Ef. unfold poll. destruct (_ || _) eqn:Ec; rewrite app_nil_r; (split; [|done]); (split; [|done]).
    + exists b. split_and!; first [done|lia].
    + apply orb_false_iff in Ec as [Ec _]. apply Z.leb_gt in Ec. eexists. split; [done|]. simpl.
      rewrite u64_succ_small by lia. repeat split; try done; lia.
Qed.

Lemma frame_run p st done ws :
  0 < frame_items p <= safe_size -> 0 < frame_bytes p <= safe_size -> 0 < frame_poll_items p <= safe_size ->
  frame_ok p st done -> Forall work_ok ws ->
  let '(st', oks) := run st ws in
  frame_ok p st' (done ++ delivered ws oks) /\ pre_reserve st' = pre_reserve st /\ pre_turn st' = pre_turn st.
Proof.
  intros Hi Hb Hp H Hw. revert st done H. induction Hw as [|w ws Hw Hws IH]; intros st done H; cbn [run].
  { by rewrite app_nil_r. }
  pose proof (frame_step p st done w Hi Hb Hp H Hw) as Hs. destruct (step st w) as [st1 ok]. destruct Hs as (H1 & E1 & E2).
  specialize (IH st1 _ H1). destruct (run st1 ws) as [st2 oks]. destruct IH as (H2 & E3 & E4).
  split; [|split; congruence]. rewrite <- app_assoc in H2. by destruct w, ok.
Qed.

Lemma frame_begin p cb st : 0 < frame_items p -> 0 < frame_poll_items p -> 0 < frame_bytes p -> frame_ok p (begin_frame_with p cb st) [].
Proof.
  intros. split; [|done]. unfold begin_frame_with. destruct cb, (pre_turn st); simpl; eexists; (split; [done|]);
    simpl; repeat split; try lia; vm_compute; discriminate.
Qed.

(** A frame's deliveries are bounded and never starve: under a valid policy, from any earlier
    state and for any clock readings, one frame delivers at most [frame_items] items, and at most
    [frame_bytes] bytes unless a single oversized item is all it delivered; it polls at most
    [frame_poll_items] times; and the first attempt outside the pre phase always goes through. *)
Theorem frame_bounded p cb st ws :
  AsyncPolicy.validate p = true -> Forall work_ok ws ->
  let '(st', oks) := run (begin_frame_with p cb st) ws in
  let d := delivered ws oks in
  Z.of_nat (length d) <= frame_items p /\ (total d <= frame_bytes p \/ length d = 1%nat) /\
  (exists b, frame st' = Some b /\ f_polls b <= frame_poll_items p) /\
  (forall e n ws', ws = Attempt e n false :: ws' -> head d = Some n).
Proof.
  intros Hv Hw. destruct (Domain.policy_valid p Hv) as (Hf & _). unfold fields in Hf. rewrite !Forall_cons in Hf.
  pose proof (frame_run p _ [] ws ltac:(lia) ltac:(lia) ltac:(lia) (frame_begin p cb st ltac:(lia) ltac:(lia) ltac:(lia)) Hw) as Hr.
  assert (Hfirst : forall e n, can_deliver (begin_frame_with p cb st) e n false = true).
  { intros e n. unfold begin_frame_with. destruct (if cb then _ else _) as [rs tn]. unfold can_deliver, can; simpl.
    rewrite (proj2 (Z.ltb_lt _ _)) by lia. done. }
  destruct (run (begin_frame_with p cb st) ws) as [st' oks] eqn:E. destruct Hr as ([(b & Eb & E1 & E2 & E3 & E4 & E5 & E6 & E7 & E8) Hd] & _).
  cbn [app] in *. split; [lia|]. split; [|split].
  - destruct E7 as [E7|E7]; [|by left]. destruct (delivered ws oks) as [|x [|y l]]; [left; simpl; lia|by right|].
    simpl in E4. lia.
  - exists b. split; [done|lia].
  - intros e n ws' ->. cbn [run step] in E. rewrite Hfirst in E. destruct (run _ ws') as [st2 oks2]. by injection E as _ <-.
Qed.

(** Pre-phase callbacks take turns: of any two consecutive callback frames, whatever work runs in
    between, exactly one reserves the whole item budget (and then refuses every pre-phase delivery),
    while the other admits a pre-phase delivery whenever it would admit any delivery. *)
Theorem frame_pre_turns p st ws :
  AsyncPolicy.validate p = true -> Forall work_ok ws ->
  let s1 := begin_frame_with p true st in
  let s1' := (run s1 ws).1 in
  let s2 := begin_frame_with p true s1' in
  pre_reserve s1 <> pre_reserve s2 /\
  (forall s ws', s = s1 \/ s = s2 -> Forall work_ok ws' -> forall e n,
     can_deliver (run s ws').1 e n true =
       if pre_reserve s =? 0 then can_deliver (run s ws').1 e n false else false).
Proof.
  intros Hv Hw s1 s1' s2. destruct (Domain.policy_valid p Hv) as (Hf & _). unfold fields in Hf. rewrite !Forall_cons in Hf.
  assert (Hpos : 0 < frame_items p /\ 0 < frame_poll_items p /\ 0 < frame_bytes p) by lia. destruct Hpos as (P1 & P2 & P3).
  assert (Hss : safe_size < u64_max / 2) by by vm_compute. assert (2 * (u64_max / 2) <= u64_max) by (vm_compute; discriminate).
  pose proof (frame_run p s1 [] ws ltac:(lia) ltac:(lia) ltac:(lia) (frame_begin p true st P1 P2 P3) Hw) as Hr.
  assert (Hturn : pre_turn s1' = negb (pre_turn st)).
  { unfold s1'. destruct (run s1 ws). destruct Hr as (_ & _ & Ht). simpl. by rewrite Ht. }
  assert (Hres : forall s0, pre_reserve (begin_frame_with p true s0) = if pre_turn s0 then 0 else frame_items p) by done.
  split; [unfold s2, s1; rewrite !Hres, Hturn; destruct (pre_turn st); simpl; lia|].
  assert (Hgen : forall s0 ws', Forall work_ok ws' -> forall e n,
     can_deliver (run (begin_frame_with p true s0) ws').1 e n true =
     if pre_reserve (begin_frame_with p true s0) =? 0 then can_deliver (run (begin_frame_with p true s0) ws').1 e n false else false).
  { intros s0 ws' Hw' e n.
    pose proof (frame_run p _ [] ws' ltac:(lia) ltac:(lia) ltac:(lia) (frame_begin p true s0 P1 P2 P3) Hw') as Hr'.
    destruct (run (begin_frame_with p true s0) ws') as [s' oks].
    destruct Hr' as ([(b & Eb & E1 & _ & _ & E4 & _ & E6 & _) _] & Hpr & _). cbn [fst]. unfold can_deliver. rewrite Eb, Hpr, Hres, E1.
    destruct (pre_turn s0); simpl.
    - rewrite u64_add_small by (unfold u64_max in *; lia). rewrite Z.add_0_r, andb_true_r.
      unfold can. rewrite E1. destruct (f_items b <? frame_items p); [by rewrite andb_true_r|done].
    - rewrite (proj2 (Z.eqb_neq (frame_items p) 0)) by lia. rewrite u64_add_small by (unfold u64_max in *; lia).
      rewrite (proj2 (Z.ltb_ge _ _)) by lia. apply andb_false_r. }
  intros s ws' [->| ->] Hw'; by apply Hgen.
Qed.
End Frame.

Module Diagnostic.

(** [str::is_char_boundary] on the bytes of a string. *)
Definition is_char_boundary (s : list Z) (n : nat) : bool :=
  if (n =? 0)%nat then true
  else match s !! n with
       | None => (n =? length s)%nat
       | Some b => (b <? 128) || (192 <=? b)
       end.

(** [while !s.is_char_boundary(n) { n -= 1 }]: index 0 is a boundary, so [n] never underflows. *)
Fixpoint floor_boundary (s : list Z) (n : nat) : nat :=
  if is_char_boundary s n then n else match n with O => O | S m => floor_boundary s m end.

Definition diagnostic_limit (s : list Z) (cap : nat) : list Z :=
  if (cap <? length s)%nat then take (floor_boundary s cap) s else s.

Lemma floor_boundary_spec s n :
  (floor_boundary s n <= n)%nat /\ is_char_boundary s (floor_boundary s n) = true /\
  forall m, (m <= n)%nat -> is_char_boundary s m = true -> (m <= floor_boundary s n)%nat.
Proof.
  induction n as [|n (IH1 & IH2 & IH3)]; cbn [floor_boundary]; [split; [done|split; [done|intros; lia]]|].
  destruct (is_char_boundary s (S n)) eqn:E; [split; [done|split; [done|intros; lia]]|].
  split; [lia|]. split; [done|]. intros m Hm Hb. apply IH3; [|done].
  destruct (decide (m = S n)) as [->|]; [congruence|lia].
Qed.

(** A diagnostic is cut to the longest prefix that fits its cap without splitting a character,
    and is untouched when it already fits. *)
Theorem diagnostic_limit_longest s cap :
  exists n, diagnostic_limit s cap = take n s /\ (length (diagnostic_limit s cap) <= cap)%nat /\
    is_char_boundary s n = true /\
    forall m, (m <= cap)%nat -> (m <= length s)%nat -> is_char_boundary s m = true -> (m <= n)%nat.
Proof.
  unfold diagnostic_limit. destruct (Nat.ltb_spec cap (length s)) as [Hlt|Hge].
  - destruct (floor_boundary_spec s cap) as (H1 & H2 & H3). exists (floor_boundary s cap). split; [done|].
    split; [rewrite length_take; lia|]. split; [done|]. intros. by apply H3.
  - exists (length s). rewrite take_ge by done. split; [done|]. split; [lia|]. split; [|intros; lia].
    unfold is_char_boundary. destruct (length s =? 0)%nat; [done|].
    rewrite lookup_ge_None_2 by done. apply Nat.eqb_refl.
Qed.
End Diagnostic.

(** ** Concrete runs *)
Module AsyncLimitsExamples.
Import AsyncPolicy.

Example default_policy_valid : validate policy_default = true.
Proof. vm_compute. reflexivity. Qed.

Lemma domain_accounting_witness :
  exists d Js, Domain.run (Domain.new policy_default, [])
      [Domain.Job None 100; Domain.JobGrow 0 5000; Domain.Job (Some ("p", 1)) (Z.shiftl 9 20); Domain.DropJob 0] = Some (d, Js) /\
    items (snapshot (Domain.jobs d)) = Z.of_nat (length Js).
Proof.
  destruct (Domain.domain_accounting policy_default
      [Domain.Job None 100; Domain.JobGrow 0 5000; Domain.Job (Some ("p", 1)) (Z.shiftl 9 20); Domain.DropJob 0] default_policy_valid)
    as (d & Js & H1 & H2 & _).
  - repeat constructor; by vm_compute.
  - exists d, Js. split; [exact H1|exact H2].
Defined.

Lemma policy_admits_failures_witness :
  exists d r, Domain.job (Domain.new policy_default) None 100 = Some (d, r) /\ forall e, r = inr e -> e = QueueFull.
Proof.
  destruct (Domain.policy_admits_failures (Domain.new policy_default) [] None 100 default_policy_valid) as (d & r & H1 & _ & H3).
  - split; reflexivity.
  - exact (Domain.domain_new_accounts policy_default default_policy_valid).
  - constructor.
  - split; vm_compute; discriminate.
  - exists d, r. split; [exact H1|exact H3].
Defined.

#[local] Instance nat_size : OutChannel.PayloadSize nat := Z.of_nat.
Definition traffic : list (@OutChannel.op nat) :=
  [OutChannel.Send 10%nat; OutChannel.Send 20%nat; OutChannel.Recv; OutChannel.Send 5%nat; OutChannel.Recv].
Definition wide : Budget := Budget.new 1000 1000 1000 1000.

Example traffic_answers :
  (fun r => r.2) <$> OutChannel.run wide (OutChannel.out_channel policy_default) traffic =
  Some [inl true; inl true; inr (Some 10%nat); inl true; inr (Some 20%nat)].
Proof. vm_compute. reflexivity. Qed.

Lemma out_channel_fifo_witness :
  exists g c an, OutChannel.run wide (OutChannel.out_channel policy_default) traffic = Some (g, c, an) /\ OutChannel.spec_run [] traffic an.
Proof.
  destruct (OutChannel.out_channel_fifo policy_default wide [] traffic default_policy_valid) as (g & c & an & H1 & H2 & _).
  - apply budget_new. repeat constructor; by vm_compute.
  - repeat constructor; by vm_compute.
  - exists g, c, an. split; [exact H1|exact H2].
Defined.

Lemma frame_bounded_witness :
  length (Frame.delivered [Frame.Attempt 0 (Z.shiftl 9 20) false; Frame.Attempt 5 1 false]
    (Frame.run (Frame.begin_frame_with policy_default true Frame.init) [Frame.Attempt 0 (Z.shiftl 9 20) false; Frame.Attempt 5 1 false]).2) = 1%nat.
Proof.
  pose proof (Frame.frame_bounded policy_default true Frame.init [Frame.Attempt 0 (Z.shiftl 9 20) false; Frame.Attempt 5 1 false] default_policy_valid) as Hx.
  destruct (Frame.run _ _) as [st' oks] eqn:E. destruct Hx as (_ & [Hx|Hx] & _).
  - repeat constructor; by vm_compute.
  - vm_compute in E. injection E as <- <-. exfalso. apply Hx. reflexivity.
  - exact Hx.
Defined.

Lemma frame_pre_turns_witness :
  let s1 := Frame.begin_frame_with policy_default true Frame.init in
  Frame.pre_reserve s1 <> Frame.pre_reserve (Frame.begin_frame_with policy_default true (Frame.run s1 [Frame.Poll 3]).1).
Proof.
  apply (Frame.frame_pre_turns policy_default Frame.init [Frame.Poll 3] default_policy_valid). repeat constructor.
Defined.

(** A two-byte character cut at its second byte is dropped whole. *)
Example diagnostic_cut : Diagnostic.diagnostic_limit [97; 195; 169; 98] 2 = [97].
Proof. reflexivity. Qed.
End AsyncLimitsExamples.
