(* ===== verification/TimerHeap.v ===== *)
(** The indexed deadline heap of the timer queue (core/src/async_rt.rs).

    The functions of [TimerQueue] that touch only [deadline_heap] and [locations], on the pair of the
    two. [heap_ok] is the min-heap order by (target, sequence); [locs_ok] says the location index
    points at every entry. Every function is proved to succeed within its fuel, to permute the heap,
    to keep the index exact and to restore the order. *)
From S2P Require Import Prelude.
From Stdlib Require Import ZifyNat.

Module TimerHeap.

Record DeadlineEntry := mkEntry { e_id : Z; e_sequence : Z; e_target : Z }.

Inductive EntryLocation := AtDeadline (i : nat) | AtFrame (target : Z) | AtReady.

Definition deadline_precedes (a b : DeadlineEntry) : bool :=
  (e_target a <? e_target b) || ((e_target a =? e_target b) && (e_sequence a <? e_sequence b)).

(** ** The indexed heap: the functions that only touch [deadline_heap] and [locations] *)
Definition heap_state : Type := list DeadlineEntry * gmap Z EntryLocation.

Definition swap {A} (l : list A) (a b : nat) : option (list A) :=
  match l !! a, l !! b with
  | Some x, Some y => Some (<[b := x]> (<[a := y]> l))
  | _, _ => None
  end.

Definition swap_deadlines (s : heap_state) (a b : nat) : option heap_state :=
  match swap s.1 a b with
  | Some h =>
      match h !! a, h !! b with
      | Some ea, Some eb =>
          Some (h, <[e_sequence eb := AtDeadline b]> (<[e_sequence ea := AtDeadline a]> s.2))
      | _, _ => None
      end
  | None => None
  end.

Fixpoint sift_deadline_up (fuel : nat) (s : heap_state) (index : nat) : option heap_state :=
  match fuel with
  | O => None
  | S fuel' =>
      if (index =? 0)%nat then Some s
      else
        let parent := ((index - 1) / 2)%nat in
        match s.1 !! index, s.1 !! parent with
        | Some x, Some p =>
            if negb (deadline_precedes x p) then Some s
            else match swap_deadlines s index parent with
                 | Some s' => sift_deadline_up fuel' s' parent
                 | None => None
                 end
        | _, _ => None
        end
  end.

Fixpoint sift_deadline_down (fuel : nat) (s : heap_state) (index : nat) : option heap_state :=
  match fuel with
  | O => None
  | S fuel' =>
      let left := (index * 2 + 1)%nat in
      if (length s.1 <=? left)%nat then Some s
      else
        let right := (left + 1)%nat in
        match s.1 !! left, s.1 !! index with
        | Some l, Some x =>
            let child := match s.1 !! right with
                         | Some r => if deadline_precedes r l then right else left
                         | None => left
                         end in
            match s.1 !! child with
            | Some c =>
                if negb (deadline_precedes c x) then Some s
                else match swap_deadlines s index child with
                     | Some s' => sift_deadline_down fuel' s' child
                     | None => None
                     end
            | None => None
            end
        | _, _ => None
        end
  end.

(** Both loops visit each level once; the length of the heap is more than enough. *)
Definition sift_up (s : heap_state) (index : nat) : option heap_state := sift_deadline_up (S index) s index.
Definition sift_down (s : heap_state) (index : nat) : option heap_state := sift_deadline_down (S (length s.1)) s index.

(** The first half of [remove_deadline_at]: swap with the last entry, re-index, pop, unindex. *)
Definition pop_at (s : heap_state) (index : nat) : option (heap_state * DeadlineEntry) :=
  match s.1 with
  | [] => None
  | _ =>
      let last := (length s.1 - 1)%nat in
      let moved :=
        if negb (index =? last)%nat then
          match swap s.1 index last with
          | Some h => match h !! index with
                      | Some e => Some (h, <[e_sequence e := AtDeadline index]> s.2)
                      | None => None
                      end
          | None => None
          end
        else Some s in
      match moved with
      | Some (h, l) =>
          match h !! last with
          | Some removed => Some ((take last h, delete (e_sequence removed) l), removed)
          | None => None
          end
      | None => None
      end
  end.

(** The second half: restore the heap order around [index]. *)
Definition resift (s : heap_state) (index : nat) : option heap_state :=
  if (index <? length s.1)%nat then
    match s.1 !! index with
    | Some x =>
        match (if (index =? 0)%nat then None else s.1 !! ((index - 1) / 2)%nat) with
        | Some p => if deadline_precedes x p then sift_up s index else sift_down s index
        | None => sift_down s index
        end
    | None => None
    end
  else Some s.
(** ** The order *)
Definition le (a b : DeadlineEntry) : Prop := deadline_precedes b a = false.

Lemma heap_precedes_spec a b :
  deadline_precedes a b = true <->
  e_target a < e_target b \/ (e_target a = e_target b /\ e_sequence a < e_sequence b).
Proof. unfold deadline_precedes. rewrite orb_true_iff, andb_true_iff, !Z.ltb_lt, Z.eqb_eq. done. Qed.

Lemma heap_le_spec a b :
  le a b <-> e_target a < e_target b \/ (e_target a = e_target b /\ e_sequence a <= e_sequence b).
Proof. unfold le. rewrite <- not_true_iff_false, heap_precedes_spec. lia. Qed.

Lemma heap_le_refl a : le a a.
Proof. rewrite heap_le_spec. lia. Qed.

Lemma heap_le_trans a b c : le a b -> le b c -> le a c.
Proof. rewrite !heap_le_spec. lia. Qed.

Lemma heap_lt_le a b : deadline_precedes a b = true -> le a b.
Proof. rewrite heap_precedes_spec, heap_le_spec. lia. Qed.

(** ** Tree positions *)
Definition parent (i : nat) : nat := ((i - 1) / 2)%nat.

Ltac Zify.zify_post_hook ::= Z.to_euclidean_division_equations.

Lemma heap_parent_lt i : (0 < i)%nat -> (parent i < i)%nat.
Proof. unfold parent. lia. Qed.

Lemma heap_parent_child i k : (0 < i)%nat -> parent i = k <-> (i = k * 2 + 1 \/ i = k * 2 + 2)%nat.
Proof. unfold parent. lia. Qed.

Ltac Zify.zify_post_hook ::= idtac.

(** ** Swapping *)
Lemma heap_swap_Some {A} (l : list A) a b :
  (a < length l)%nat -> (b < length l)%nat ->
  exists l', swap l a b = Some l' /\ length l' = length l /\
    forall i, l' !! i = if decide (i = a) then l !! b else if decide (i = b) then l !! a else l !! i.
Proof.
  intros Ha Hb. unfold swap. destruct (lookup_lt_is_Some_2 l a Ha) as [x Ex]. destruct (lookup_lt_is_Some_2 l b Hb) as [y Ey].
  rewrite Ex, Ey. eexists. split; [done|]. split; [by rewrite !length_insert|]. intros i.
  destruct (decide (i = a)) as [->|Hia]; [destruct (decide (a = b)) as [->|Hab]|destruct (decide (i = b)) as [->|Hib]].
  - rewrite list_lookup_insert_eq by (by rewrite length_insert). congruence.
  - rewrite list_lookup_insert_ne by done. by rewrite list_lookup_insert_eq.
  - rewrite list_lookup_insert_eq by (by rewrite length_insert). done.
  - by rewrite !list_lookup_insert_ne.
Qed.

Lemma heap_swap_perm {A} (l l' : list A) a b : swap l a b = Some l' -> l' ≡ₚ l.
Proof.
  intros E. assert (Hab : (a < length l)%nat /\ (b < length l)%nat).
  { unfold swap in E. destruct (l !! a) eqn:Ea; [|done]. destruct (l !! b) eqn:Eb; [|done]. by split; eapply lookup_lt_Some. }
  destruct Hab as [Ha Hb]. destruct (heap_swap_Some l a b Ha Hb) as (l2 & E2 & Hlen & Hl). rewrite E in E2. injection E2 as <-.
  apply Permutation_inj. split; [done|].
  exists (fun i => if decide (i = a) then b else if decide (i = b) then a else i). split.
  - intros i j. repeat case_decide; congruence.
  - intros i. rewrite Hl. by repeat case_decide.
Qed.

(** ** The location index *)
Definition seqs (h : list DeadlineEntry) : list Z := e_sequence <$> h.
Definition locs_ok (s : heap_state) : Prop := forall i e, s.1 !! i = Some e -> s.2 !! e_sequence e = Some (AtDeadline i).

(** The heap is permuted, the index stays exact, and other sequences keep their location. *)
Record moved (s s' : heap_state) : Prop := {
  mv_perm : s'.1 ≡ₚ s.1;
  mv_locs : locs_ok s';
  mv_other : forall q, q ∉ seqs s.1 -> s'.2 !! q = s.2 !! q;
}.

Lemma heap_seqs_perm h h' : h' ≡ₚ h -> seqs h' ≡ₚ seqs h.
Proof. intros E. unfold seqs. by rewrite E. Qed.

Lemma heap_moved_refl s : locs_ok s -> moved s s.
Proof. by split. Qed.

Lemma heap_moved_trans s1 s2 s3 : moved s1 s2 -> moved s2 s3 -> moved s1 s3.
Proof.
  intros [P1 L1 O1] [P2 L2 O2]. split; [by rewrite P2|done|]. intros q Hq. rewrite O2; [by apply O1|].
  by rewrite (heap_seqs_perm _ _ P1).
Qed.

Lemma heap_seq_inj h i j x y :
  NoDup (seqs h) -> h !! i = Some x -> h !! j = Some y -> e_sequence x = e_sequence y -> i = j.
Proof.
  intros Hnd Hi Hj E. eapply (NoDup_lookup _ _ _ _ Hnd); unfold seqs; rewrite list_lookup_fmap_Some; [by exists x|].
  exists y. by split.
Qed.

Lemma heap_swap_deadlines s a b :
  NoDup (seqs s.1) -> locs_ok s -> (a < length s.1)%nat -> (b < length s.1)%nat ->
  exists s', swap_deadlines s a b = Some s' /\ moved s s' /\
    forall i, s'.1 !! i = if decide (i = a) then s.1 !! b else if decide (i = b) then s.1 !! a else s.1 !! i.
Proof.
  intros Hnd Hl Ha Hb. unfold swap_deadlines. destruct (heap_swap_Some s.1 a b Ha Hb) as (h & E & Hlen & Hh). rewrite E.
  apply heap_swap_perm in E. destruct (lookup_lt_is_Some_2 h a) as [ea Ea]; [lia|].
  destruct (lookup_lt_is_Some_2 h b) as [eb Eb]; [lia|]. rewrite Ea, Eb. eexists. split; [done|]. split; [|done].
  assert (Hnd' : NoDup (seqs h)) by (by rewrite (heap_seqs_perm _ _ E)).
  split; [done|..]; simpl.
  - intros i e Hi. simpl in *. destruct (decide (i = b)) as [->|Hib].
    + rewrite Eb in Hi. injection Hi as <-. by rewrite lookup_insert_eq.
    + assert (e_sequence eb <> e_sequence e) by (intros Es; apply Hib; symmetry; by eapply heap_seq_inj).
      rewrite lookup_insert_ne by done. destruct (decide (i = a)) as [->|Hia].
      * rewrite Ea in Hi. injection Hi as <-. by rewrite lookup_insert_eq.
      * assert (e_sequence ea <> e_sequence e) by (intros Es; apply Hia; symmetry; by eapply heap_seq_inj).
        rewrite lookup_insert_ne by done. apply Hl. rewrite Hh in Hi. by rewrite !decide_False in Hi.
  - intros q Hq. rewrite <- (heap_seqs_perm _ _ E) in Hq. rewrite !lookup_insert_ne; [done|..]; intros <-; apply Hq;
      unfold seqs; by eapply list_elem_of_fmap_2, list_elem_of_lookup_2.
Qed.

(** ** The heap order *)
Definition ordered_at (h : list DeadlineEntry) (i : nat) : Prop :=
  forall x p, h !! i = Some x -> h !! parent i = Some p -> le p x.
Definition heap_ok (h : list DeadlineEntry) : Prop := forall i, (0 < i)%nat -> ordered_at h i.
(** The children of [k] are above its parent. *)
Definition bridged (h : list DeadlineEntry) (k : nat) : Prop :=
  forall i x g, (0 < i)%nat -> parent i = k -> (0 < k)%nat -> h !! i = Some x -> h !! parent k = Some g -> le g x.
Definition up_ok (h : list DeadlineEntry) (k : nat) : Prop :=
  (forall i, (0 < i)%nat -> i <> k -> ordered_at h i) /\ bridged h k.
Definition down_ok (h : list DeadlineEntry) (k : nat) : Prop :=
  (forall i, (0 < i)%nat -> parent i <> k -> ordered_at h i) /\ bridged h k.

Lemma heap_sift_up_step h h' k x p :
  up_ok h k -> (0 < k)%nat -> h !! k = Some x -> h !! parent k = Some p -> deadline_precedes x p = true ->
  (forall i, h' !! i = if decide (i = k) then h !! parent k else if decide (i = parent k) then h !! k else h !! i) ->
  up_ok h' (parent k).
Proof.
  intros [Hok Hbr] Hk Ex Ep Hlt Hh. pose proof (heap_parent_lt k Hk) as Hpk. split.
  - intros i Hi Hip y g. rewrite !Hh. rewrite (decide_False (P := i = parent k)) by done.
    destruct (decide (i = k)) as [->|Hik].
    + rewrite (decide_False (P := parent k = k)) by lia. rewrite decide_True by done.
      rewrite Ep, Ex. intros [= <-] [= <-]. by apply heap_lt_le.
    + intros Ey. destruct (decide (parent i = k)) as [E|E].
      * rewrite Ep. intros [= <-]. by eapply (Hbr i).
      * destruct (decide (parent i = parent k)) as [E'|E'].
        -- rewrite Ex. intros [= <-]. eapply heap_le_trans; [by apply heap_lt_le|].
           eapply (Hok i Hi Hik); [done|]. by rewrite E'.
        -- intros Eg. by eapply (Hok i Hi Hik).
  - intros i y g Hi Ei Hpos. rewrite !Hh. pose proof (heap_parent_lt _ Hpos).
    rewrite (decide_False (P := parent (parent k) = k)), (decide_False (P := parent (parent k) = parent k)) by lia.
    destruct (decide (i = k)) as [->|Hik].
    + rewrite Ep. intros [= <-] Eg. eapply (Hok (parent k) Hpos); [lia|done|done].
    + destruct (decide (i = parent k)) as [->|_]; [lia|]. intros Ey Eg.
      eapply heap_le_trans; [eapply (Hok (parent k) Hpos); [lia|done|done]|].
      eapply (Hok i Hi Hik); [done|]. by rewrite Ei.
Qed.

Lemma heap_sift_up_done h k x p :
  up_ok h k -> h !! k = Some x -> h !! parent k = Some p -> deadline_precedes x p = false -> heap_ok h.
Proof.
  intros [Hok _] Ex Ep Hge i Hi. destruct (decide (i = k)) as [->|]; [|by apply Hok].
  intros y g Ey Eg. rewrite Ex in Ey. rewrite Ep in Eg. by injection Ey as <-; injection Eg as <-.
Qed.

Lemma heap_sift_up fuel s k :
  (k < fuel)%nat -> (k < length s.1)%nat -> NoDup (seqs s.1) -> locs_ok s -> up_ok s.1 k ->
  exists s', sift_deadline_up fuel s k = Some s' /\ moved s s' /\ heap_ok s'.1.
Proof.
  revert s k. induction fuel as [|fuel IH]; intros s k Hf Hk Hnd Hl Hup; [lia|]. cbn [sift_deadline_up].
  destruct (k =? 0)%nat eqn:E0.
  { apply Nat.eqb_eq in E0 as ->. exists s. split; [done|]. split; [by apply heap_moved_refl|].
    intros i Hi. apply Hup; lia. }
  apply Nat.eqb_neq in E0. pose proof (heap_parent_lt k ltac:(lia)) as Hp. fold (parent k).
  destruct (lookup_lt_is_Some_2 s.1 k Hk) as [x Ex]. destruct (lookup_lt_is_Some_2 s.1 (parent k)) as [p Ep]; [lia|].
  rewrite Ex, Ep. destruct (deadline_precedes x p) eqn:Ec; simpl.
  - destruct (heap_swap_deadlines s k (parent k) Hnd Hl Hk ltac:(lia)) as (s1 & -> & Hm & Hh).
    destruct (IH s1 (parent k)) as (s2 & E2 & Hm2 & Hok).
    + lia.
    + rewrite (Permutation_length (mv_perm _ _ Hm)). lia.
    + by rewrite (heap_seqs_perm _ _ (mv_perm _ _ Hm)).
    + apply Hm.
    + eapply (heap_sift_up_step s.1); [done|lia|done..].
    + exists s2. split; [done|]. split; [by eapply heap_moved_trans|done].
  - exists s. split; [done|]. split; [by apply heap_moved_refl|]. by eapply heap_sift_up_done.
Qed.
(** The smaller child of [k]. *)
Lemma heap_sift_down_step h h' k c x y :
  down_ok h k -> (0 < c)%nat -> parent c = k -> h !! k = Some x -> h !! c = Some y -> deadline_precedes y x = true ->
  (forall i z, (0 < i)%nat -> parent i = k -> h !! i = Some z -> le y z) ->
  (forall i, h' !! i = if decide (i = k) then h !! c else if decide (i = c) then h !! k else h !! i) ->
  down_ok h' c.
Proof.
  intros [Hok Hbr] Hc Epc Ex Ey Hlt Hmin Hh. pose proof (heap_parent_lt c Hc) as Hpc. split.
  - intros i Hi Hip z g. rewrite !Hh. rewrite (decide_False (P := parent i = c)) by done.
    destruct (decide (i = k)) as [->|Hik].
    + pose proof (heap_parent_lt k Hi). rewrite decide_False by lia. rewrite Ey. intros [= <-] Eg. by eapply (Hbr c).
    + destruct (decide (i = c)) as [->|Hic].
      * rewrite decide_True by done. rewrite Ex, Ey. intros [= <-] [= <-]. by apply heap_lt_le.
      * intros Ez. destruct (decide (parent i = k)) as [E|E].
        -- rewrite Ey. intros [= <-]. by apply (Hmin i).
        -- intros Eg. by eapply (Hok i Hi E).
  - intros i z g Hi Ei _. rewrite !Hh, Epc. rewrite (decide_True (P := k = k)) by done. pose proof (heap_parent_lt i Hi).
    rewrite (decide_False (P := i = k)) by lia. rewrite (decide_False (P := i = c)) by lia. rewrite Ey. intros Ez [= <-].
    eapply (Hok i Hi); [lia|done|]. by rewrite Ei.
Qed.

Lemma heap_sift_down_done h k :
  down_ok h k -> (forall i x z, (0 < i)%nat -> parent i = k -> h !! k = Some x -> h !! i = Some z -> le x z) -> heap_ok h.
Proof.
  intros [Hok _] Hk i Hi. destruct (decide (parent i = k)) as [E|]; [|by apply Hok].
  intros z g Ez Eg. rewrite E in Eg. by apply (Hk i).
Qed.

Lemma heap_sift_down fuel s k :
  (length s.1 - k < fuel)%nat -> (k < length s.1)%nat -> NoDup (seqs s.1) -> locs_ok s -> down_ok s.1 k ->
  exists s', sift_deadline_down fuel s k = Some s' /\ moved s s' /\ heap_ok s'.1.
Proof.
  revert s k. induction fuel as [|fuel IH]; intros s k Hf Hk Hnd Hl Hdn; [lia|]. cbn [sift_deadline_down].
  destruct (length s.1 <=? k * 2 + 1)%nat eqn:E0.
  { apply Nat.leb_le in E0. exists s. split; [done|]. split; [by apply heap_moved_refl|].
    apply (heap_sift_down_done _ k Hdn). intros i x z Hi Ei _ Ez. apply lookup_lt_Some in Ez.
    apply heap_parent_child in Ei; [|done]. lia. }
  apply Nat.leb_gt in E0. destruct (lookup_lt_is_Some_2 s.1 _ E0) as [l El].
  destruct (lookup_lt_is_Some_2 s.1 k Hk) as [x Ex]. rewrite El, Ex.
  set (child := match s.1 !! (k * 2 + 1 + 1)%nat with Some r => if deadline_precedes r l then _ else _ | None => _ end).
  assert (Hchild : exists y, s.1 !! child = Some y /\ (0 < child)%nat /\ parent child = k /\
            forall i z, (0 < i)%nat -> parent i = k -> s.1 !! i = Some z -> le y z).
  { assert (Hleft : forall z, s.1 !! (k * 2 + 1)%nat = Some z -> z = l) by (intros z; rewrite El; by intros [= <-]).
    assert (Hpl : parent (k * 2 + 1)%nat = k) by (apply heap_parent_child; lia).
    assert (Hpr : parent (k * 2 + 1 + 1)%nat = k) by (apply heap_parent_child; lia).
    unfold child. destruct (s.1 !! (k * 2 + 1 + 1)%nat) as [r|] eqn:Er; [destruct (deadline_precedes r l) eqn:Erl|].
    - exists r. split; [done|]. split; [lia|]. split; [done|]. intros i z Hi Ei Ez.
      apply heap_parent_child in Ei as [->|Ei]; [|replace i with (k * 2 + 1 + 1)%nat in Ez by lia|done].
      + rewrite (Hleft z Ez). by apply heap_lt_le.
      + rewrite Er in Ez. injection Ez as <-. apply heap_le_refl.
    - exists l. split; [done|]. split; [lia|]. split; [done|]. intros i z Hi Ei Ez.
      apply heap_parent_child in Ei as [->|Ei]; [|replace i with (k * 2 + 1 + 1)%nat in Ez by lia|done].
      + rewrite (Hleft z Ez). apply heap_le_refl.
      + rewrite Er in Ez. by injection Ez as <-.
    - exists l. split; [done|]. split; [lia|]. split; [done|]. intros i z Hi Ei Ez.
      apply heap_parent_child in Ei as [->|Ei]; [|replace i with (k * 2 + 1 + 1)%nat in Ez by lia; congruence|done].
      rewrite (Hleft z Ez). apply heap_le_refl. }
  destruct Hchild as (y & Ey & Hc0 & Hpc & Hmin). rewrite Ey. clearbody child.
  pose proof (heap_parent_lt child Hc0) as Hpl. pose proof (lookup_lt_Some _ _ _ Ey) as Hcl.
  destruct (deadline_precedes y x) eqn:Ec; simpl.
  - destruct (heap_swap_deadlines s k child Hnd Hl Hk Hcl) as (s1 & -> & Hm & Hh).
    pose proof (Permutation_length (mv_perm _ _ Hm)) as Hlen.
    destruct (IH s1 child) as (s2 & E2 & Hm2 & Hok).
    + lia.
    + lia.
    + by rewrite (heap_seqs_perm _ _ (mv_perm _ _ Hm)).
    + apply Hm.
    + by eapply (heap_sift_down_step s.1).
    + exists s2. split; [done|]. split; [by eapply heap_moved_trans|done].
  - exists s. split; [done|]. split; [by apply heap_moved_refl|]. apply (heap_sift_down_done _ k Hdn).
    intros i x' z Hi Ei Ex' Ez. rewrite Ex in Ex'. injection Ex' as <-. eapply heap_le_trans; [exact Ec|by apply (Hmin i)].
Qed.

(** ** Removal *)
Lemma heap_take_last_perm {A} (l : list A) x :
  l !! (length l - 1)%nat = Some x -> l ≡ₚ x :: take (length l - 1) l.
Proof.
  intros E. rewrite <- (take_drop (length l - 1) l) at 1.
  assert (drop (length l - 1) l = [x]) as ->; [|by rewrite Permutation_app_comm].
  apply lookup_lt_Some in E as Hlt. erewrite drop_S by done.
  rewrite drop_ge; [done|lia].
Qed.

Lemma heap_swap_self_lookup {A} (l : list A) i : forall j, l !! j = if decide (j = i) then l !! i else if decide (j = i) then l !! i else l !! j.
Proof. intros j. by repeat case_decide; subst. Qed.

(** [pop_at] removes the entry at [index], leaving the last entry in its place. *)
Lemma heap_pop_at s index :
  NoDup (seqs s.1) -> locs_ok s -> (index < length s.1)%nat ->
  exists s' e, pop_at s index = Some (s', e) /\ s.1 !! index = Some e /\ s.1 ≡ₚ e :: s'.1 /\ locs_ok s' /\
    s'.2 !! e_sequence e = None /\ (forall q, q ∉ seqs s.1 -> s'.2 !! q = s.2 !! q) /\
    length s'.1 = (length s.1 - 1)%nat /\
    (forall i, (i < length s'.1)%nat -> s'.1 !! i = if decide (i = index) then s.1 !! (length s.1 - 1)%nat else s.1 !! i).
Proof.
  intros Hnd Hl Hi. unfold pop_at. set (last := (length s.1 - 1)%nat).
  assert (Hmv : exists h l, (if negb (index =? last)%nat then
          match swap s.1 index last with
          | Some h => match h !! index with Some e => Some (h, <[e_sequence e := AtDeadline index]> s.2) | None => None end
          | None => None end else Some s) = Some (h, l) /\ h ≡ₚ s.1 /\ length h = length s.1 /\
      (forall j, h !! j = if decide (j = index) then s.1 !! last else if decide (j = last) then s.1 !! index else s.1 !! j) /\
      (forall j e, (j < last)%nat -> h !! j = Some e -> l !! e_sequence e = Some (AtDeadline j)) /\
      (forall q, q ∉ seqs s.1 -> l !! q = s.2 !! q)).
  { destruct (Nat.eqb_spec index last) as [->|Hne]; simpl.
    - exists s.1, s.2. split; [by destruct s|]. split; [done|]. split; [done|]. split; [apply heap_swap_self_lookup|].
      split; [intros; by apply Hl|done].
    - destruct (heap_swap_Some s.1 index last Hi ltac:(lia)) as (h & E & Hlen & Hh). rewrite E. apply heap_swap_perm in E.
      destruct (lookup_lt_is_Some_2 h index) as [e Ee]; [lia|]. rewrite Ee. do 2 eexists. split; [done|].
      split; [done|]. split; [done|]. split; [done|]. assert (Hnd' : NoDup (seqs h)) by (by rewrite (heap_seqs_perm _ _ E)). split.
      + intros j e' Hj Ej. destruct (decide (j = index)) as [->|Hji].
        * rewrite Ee in Ej. injection Ej as <-. by rewrite lookup_insert_eq.
        * rewrite lookup_insert_ne; [|intros Es; apply Hji; symmetry; by eapply heap_seq_inj].
          apply Hl. rewrite Hh in Ej. by rewrite !decide_False in Ej by lia.
      + intros q Hq. rewrite lookup_insert_ne; [done|]. intros <-. apply Hq. rewrite <- (heap_seqs_perm _ _ E).
        unfold seqs. by eapply list_elem_of_fmap_2, list_elem_of_lookup_2. }
  destruct Hmv as (h & l & Emv & Hp & Hlen & Hh & Hloc & Hoth).
  destruct (lookup_lt_is_Some_2 s.1 index Hi) as [e Ee].
  assert (Hlast : h !! last = Some e).
  { rewrite Hh. destruct (decide (last = index)) as [E|]; [by rewrite E|by rewrite decide_True]. }
  destruct s as [hp lc]. cbn [fst snd] in *. destruct hp as [|e0 hp]; [done|]. cbv beta iota zeta. fold last.
  unfold heap_state in *. rewrite Emv, Hlast.
  assert (Hperm : h ≡ₚ e :: take last h) by (unfold last in *; rewrite <- Hlen in *; by apply heap_take_last_perm).
  assert (Hnd' : NoDup (e_sequence e :: seqs (take last h))).
  { change (NoDup (seqs (e :: take last h))). by rewrite <- (heap_seqs_perm _ _ Hperm), (heap_seqs_perm _ _ Hp). }
  apply NoDup_cons in Hnd' as [Hni Hnd']. do 2 eexists. split; [done|]. cbn [fst snd].
  split; [done|]. split; [by rewrite <- Hp, Hperm at 1|]. split; [|split; [by rewrite lookup_delete_eq|split; [|split]]].
  - intros j x Hj. simpl in *. apply lookup_take_Some in Hj as [Hj Hjl]. rewrite lookup_delete_ne; [by apply Hloc|].
    intros Es. apply Hni. rewrite Es. unfold seqs. apply list_elem_of_fmap_2. apply list_elem_of_lookup. exists j.
    by apply lookup_take_Some.
  - intros q Hq. rewrite lookup_delete_ne; [by apply Hoth|]. intros <-. apply Hq.
    unfold seqs. by eapply list_elem_of_fmap_2, list_elem_of_lookup_2.
  - rewrite length_take. unfold last in *. lia.
  - intros j Hj. rewrite length_take in Hj. rewrite lookup_take_lt by (unfold last in *; lia). rewrite Hh.
    destruct (decide (j = index)); [done|]. by rewrite decide_False by (unfold last in *; lia).
Qed.
(** Restoring the order after the last entry replaced the one at [index]. *)
Lemma heap_resift h s index x :
  heap_ok h -> NoDup (seqs s.1) -> locs_ok s -> (length s.1 <= length h)%nat ->
  (forall i, (i < length s.1)%nat -> s.1 !! i = if decide (i = index) then Some x else h !! i) ->
  exists s', resift s index = Some s' /\ moved s s' /\ heap_ok s'.1.
Proof.
  intros Hok Hnd Hl Hlen Hh. unfold resift. destruct (index <? length s.1)%nat eqn:Ei.
  2:{ apply Nat.ltb_ge in Ei. exists s. split; [done|]. split; [by apply heap_moved_refl|]. intros i Hi z g Ez Eg.
      pose proof (lookup_lt_Some _ _ _ Ez). pose proof (lookup_lt_Some _ _ _ Eg).
      rewrite Hh in Ez by done. rewrite Hh in Eg by done. rewrite decide_False in Ez by lia. rewrite decide_False in Eg by lia.
      by eapply (Hok i). }
  apply Nat.ltb_lt in Ei. assert (Ex : s.1 !! index = Some x) by (rewrite Hh, decide_True; done). rewrite Ex.
  destruct (lookup_lt_is_Some_2 h index ltac:(lia)) as [e Ee].
  assert (Hsame : forall i z, i <> index -> s.1 !! i = Some z -> h !! i = Some z).
  { intros i z Hne Ez. rewrite Hh in Ez by (by eapply lookup_lt_Some). by rewrite decide_False in Ez. }
  assert (Hrest : forall i, (0 < i)%nat -> i <> index -> parent i <> index -> ordered_at s.1 i).
  { intros i Hi H1 H2 z g Ez Eg. eapply (Hok i Hi); by apply Hsame. }
  assert (Hbr : bridged s.1 index).
  { intros i z g Hi Epi Hpos Ez Eg. pose proof (heap_parent_lt i Hi). pose proof (heap_parent_lt index Hpos).
    apply (heap_le_trans _ e); [eapply (Hok index Hpos); [done|apply Hsame; [lia|done]]|].
    eapply (Hok i Hi); [apply Hsame; [lia|done]|]. by rewrite Epi. }
  assert (Hdown : (forall p, (0 < index)%nat -> s.1 !! parent index = Some p -> le p x) -> down_ok s.1 index).
  { intros Hp. split; [|done]. intros i Hi Hpi. destruct (decide (i = index)) as [->|Hne]; [|by apply Hrest].
    intros z g Ez Eg. rewrite Ex in Ez. injection Ez as <-. by apply Hp. }
  destruct (index =? 0)%nat eqn:E0.
  { apply Nat.eqb_eq in E0 as ->. apply heap_sift_down; try done; [lia|]. apply Hdown. intros; lia. }
  apply Nat.eqb_neq in E0. fold (parent index). pose proof (heap_parent_lt index ltac:(lia)) as Hpl.
  destruct (lookup_lt_is_Some_2 s.1 (parent index) ltac:(lia)) as [p Ep]. rewrite Ep.
  destruct (deadline_precedes x p) eqn:Ec.
  - apply heap_sift_up; try done; [lia|]. split; [|done]. intros i Hi Hne. destruct (decide (parent i = index)) as [Epi|]; [|by apply Hrest].
    intros z g Ez Eg. rewrite Epi, Ex in Eg. injection Eg as <-. eapply heap_le_trans; [by apply heap_lt_le|].
    apply (Hbr i z p Hi Epi ltac:(lia) Ez Ep).
  - apply heap_sift_down; try done; [lia|]. apply Hdown. intros p' _ Ep'. rewrite Ep in Ep'. by injection Ep' as <-.
Qed.

(** Removing any entry of an ordered heap: the rest is an ordered, exactly indexed heap. *)
Lemma heap_remove s index :
  NoDup (seqs s.1) -> locs_ok s -> heap_ok s.1 -> (index < length s.1)%nat ->
  exists s1 e s2, pop_at s index = Some (s1, e) /\ resift s1 index = Some s2 /\ s.1 !! index = Some e /\
    s.1 ≡ₚ e :: s2.1 /\ locs_ok s2 /\ heap_ok s2.1 /\ s2.2 !! e_sequence e = None /\
    (forall q, q ∉ seqs s.1 -> s2.2 !! q = s.2 !! q).
Proof.
  intros Hnd Hl Hok Hi. destruct (heap_pop_at s index Hnd Hl Hi) as (s1 & e & E & Ee & Hp & Hl1 & Hn & Ho & Hlen & Hh).
  assert (Hnd1 : NoDup (e_sequence e :: seqs s1.1)) by (rewrite (heap_seqs_perm _ _ Hp) in Hnd; exact Hnd).
  apply NoDup_cons in Hnd1 as [Hni Hnd1].
  destruct (lookup_lt_is_Some_2 s.1 (length s.1 - 1)%nat ltac:(lia)) as [x Ex].
  destruct (heap_resift s.1 s1 index x Hok Hnd1 Hl1 ltac:(lia)) as (s2 & E2 & Hm & Hok2).
  { intros i Hi'. rewrite (Hh i Hi'). by rewrite Ex. }
  exists s1, e, s2. split; [done|]. split; [done|]. split; [done|]. split; [by rewrite Hp, (mv_perm _ _ Hm)|].
  split; [apply Hm|]. split; [done|]. split; [by rewrite (mv_other _ _ Hm)|].
  intros q Hq. rewrite (mv_other _ _ Hm); [by apply Ho|]. rewrite (heap_seqs_perm _ _ Hp) in Hq. intros Hin. apply Hq.
  unfold seqs in *. rewrite fmap_cons. in_list.
Qed.

(** Appending an entry and sifting it up. *)
Lemma heap_push s e :
  NoDup (seqs s.1) -> locs_ok s -> heap_ok s.1 -> e_sequence e ∉ seqs s.1 ->
  exists s', sift_up (s.1 ++ [e], <[e_sequence e := AtDeadline (length s.1)]> s.2) (length s.1) = Some s' /\
    s'.1 ≡ₚ e :: s.1 /\ locs_ok s' /\ heap_ok s'.1 /\
    (forall q, q ∉ seqs s.1 -> q <> e_sequence e -> s'.2 !! q = s.2 !! q).
Proof.
  intros Hnd Hl Hok Hni. set (s0 := (s.1 ++ [e], <[e_sequence e := AtDeadline (length s.1)]> s.2)).
  assert (Hp0 : s0.1 ≡ₚ e :: s.1) by (simpl; by rewrite Permutation_app_comm).
  destruct (heap_sift_up (S (length s.1)) s0 (length s.1)) as (s' & E & Hm & Hok').
  - lia.
  - simpl. rewrite length_app. simpl. lia.
  - rewrite (heap_seqs_perm _ _ Hp0). by constructor.
  - intros i x. simpl. intros [Hx|[Hge Hx]]%lookup_app_Some.
    + rewrite lookup_insert_ne; [by apply Hl|]. intros Es. apply Hni. rewrite Es. unfold seqs.
      by eapply list_elem_of_fmap_2, list_elem_of_lookup_2.
    + apply list_lookup_singleton_Some in Hx as [Hi <-]. rewrite lookup_insert_eq. f_equal. f_equal. lia.
  - simpl. split.
    + intros i Hi Hne z g Ez Eg. pose proof (heap_parent_lt i Hi).
      apply lookup_app_Some in Ez as [Ez|[Hge Ez]]; [|apply list_lookup_singleton_Some in Ez as [? _]; lia].
      apply lookup_lt_Some in Ez as Hlt. rewrite lookup_app_l in Eg by lia. by eapply (Hok i).
    + intros i z g Hi Epi Hpos Ez Eg. pose proof (heap_parent_lt i Hi).
      apply lookup_lt_Some in Ez. rewrite length_app in Ez. simpl in Ez. lia.
  - exists s'. split; [done|]. split; [by rewrite (mv_perm _ _ Hm)|]. split; [apply Hm|]. split; [done|].
    intros q Hq Hne. rewrite (mv_other _ _ Hm); [simpl; by rewrite lookup_insert_ne|].
    rewrite (heap_seqs_perm _ _ Hp0). unfold seqs in *. rewrite fmap_cons. in_list.
Qed.

(** The root of an ordered heap is its least entry. *)
Lemma heap_root_least h e x : heap_ok h -> h !! 0%nat = Some e -> x ∈ h -> le e x.
Proof.
  intros Hok E0 Hx. apply list_elem_of_lookup in Hx as [i Hi]. revert x Hi.
  induction i as [i IH] using lt_wf_ind. intros x Hi. destruct (decide (i = 0)%nat) as [->|Hne].
  - rewrite E0 in Hi. injection Hi as <-. apply heap_le_refl.
  - pose proof (heap_parent_lt i ltac:(lia)) as Hp. pose proof (lookup_lt_Some _ _ _ Hi) as Hlt.
    destruct (lookup_lt_is_Some_2 h (parent i) ltac:(lia)) as [p Ep].
    eapply heap_le_trans; [by apply (IH (parent i))|]. by apply (Hok i ltac:(lia)).
Qed.
End TimerHeap.
