(* ===== verification/TimerQueue.v ===== *)
(** The timer queue (core/src/async_rt.rs, [TimerQueue]).

    The code keeps an indexed binary min-heap of deadlines, ordered frame buckets, a [ready] map for
    bounded drains, an index from id to insertion sequences, and an index from sequence to physical
    location. The specification is one map from insertion sequence to (id, kind): [timers_refine]
    shows that every operation, run on a queue representing such a map, does not panic and answers
    and updates it as the specification says, so that drains are in insertion order across both
    kinds of timer. Panics ([expect], indexing) and exhausted fuel are [None]; the fuel of each loop
    is bounded by the size of what it consumes, and the refinement proves it is enough. Instants are
    integers; the diagnostic counter [record_timer_examined] is left out. *)
From S2P Require Import Prelude.
From S2P Require Import BTree.
From S2P Require Import TimerHeap.
Import TimerHeap.

Module TimerQueue.

Inductive TimerKind := Deadline (target : Z) | Frame (target : Z).

Inductive IdSequences := One (s : Z) | Many (ss : gset Z).

Record TimerQueue := mkQueue {
  deadline_heap : list DeadlineEntry;
  deadline_targets : gmap Z Z;
  frame_buckets : gmap Z (gmap Z Z);
  ready : gmap Z Z;
  id_sequences : gmap Z IdSequences;
  locations : gmap Z EntryLocation;
  next_sequence : Z;
}.

Definition new : TimerQueue :=
  {| deadline_heap := []; deadline_targets := ∅; frame_buckets := ∅; ready := ∅;
     id_sequences := ∅; locations := ∅; next_sequence := 0 |}.

(** The multiplicity of a target, decremented. *)
Definition drop_target (targets : gmap Z Z) (t : Z) : option (gmap Z Z) :=
  match targets !! t with
  | None => None
  | Some n => let n' := u64_pred n in Some (if n' =? 0 then delete t (<[t := n']> targets) else <[t := n']> targets)
  end.

Definition remove_deadline_at (q : TimerQueue) (index : nat) : option (TimerQueue * DeadlineEntry) :=
  match pop_at (deadline_heap q, locations q) index with
  | Some (s, removed) =>
      match drop_target (deadline_targets q) (e_target removed) with
      | Some targets =>
          match resift s index with
          | Some (h, l) =>
              Some ({| deadline_heap := h; deadline_targets := targets; frame_buckets := frame_buckets q;
                       ready := ready q; id_sequences := id_sequences q; locations := l;
                       next_sequence := next_sequence q |}, removed)
          | None => None
          end
      | None => None
      end
  | None => None
  end.

(** ** Insertion *)
Definition add_sequence (ids : gmap Z IdSequences) (id sequence : Z) : gmap Z IdSequences :=
  match ids !! id with
  | None => <[id := One sequence]> ids
  | Some (One first) => <[id := Many ({[sequence]} ∪ {[first]})]> ids
  | Some (Many ss) => <[id := Many ({[sequence]} ∪ ss)]> ids
  end.

Definition push (q : TimerQueue) (id : Z) (kind : TimerKind) : option TimerQueue :=
  let sequence := next_sequence q in
  match checked_add (next_sequence q) 1 with
  | None => None
  | Some next =>
      let ids := add_sequence (id_sequences q) id sequence in
      match kind with
      | Deadline target =>
          let index := length (deadline_heap q) in
          let h := deadline_heap q ++ [mkEntry id sequence target] in
          let targets := <[target := u64_succ (default 0 (deadline_targets q !! target))]> (deadline_targets q) in
          match sift_up (h, <[sequence := AtDeadline index]> (locations q)) index with
          | Some (h', l') =>
              Some {| deadline_heap := h'; deadline_targets := targets; frame_buckets := frame_buckets q;
                      ready := ready q; id_sequences := ids; locations := l'; next_sequence := next |}
          | None => None
          end
      | Frame target =>
          let bucket := default ∅ (frame_buckets q !! target) in
          Some {| deadline_heap := deadline_heap q; deadline_targets := deadline_targets q;
                  frame_buckets := <[target := <[sequence := id]> bucket]> (frame_buckets q);
                  ready := ready q; id_sequences := ids;
                  locations := <[sequence := AtFrame target]> (locations q); next_sequence := next |}
      end
  end.

Definition len (q : TimerQueue) : Z := Z.of_nat (size (locations q)).
Definition is_empty (q : TimerQueue) : bool := len q =? 0.

(** ** Cancellation *)
Definition remove_from_location (q : TimerQueue) (sequence : Z) (location : EntryLocation) : option TimerQueue :=
  match location with
  | AtDeadline index => fst <$> remove_deadline_at q index
  | AtFrame target =>
      match frame_buckets q !! target with
      | None => None
      | Some bucket =>
          let bucket' := delete sequence bucket in
          let buckets := <[target := bucket']> (frame_buckets q) in
          Some {| deadline_heap := deadline_heap q; deadline_targets := deadline_targets q;
                  frame_buckets := if bool_decide (bucket' = ∅) then delete target buckets else buckets;
                  ready := ready q; id_sequences := id_sequences q;
                  locations := delete sequence (locations q); next_sequence := next_sequence q |}
      end
  | AtReady =>
      Some {| deadline_heap := deadline_heap q; deadline_targets := deadline_targets q; frame_buckets := frame_buckets q;
              ready := delete sequence (ready q); id_sequences := id_sequences q;
              locations := delete sequence (locations q); next_sequence := next_sequence q |}
  end.

Fixpoint remove_sequences (q : TimerQueue) (sequences : list Z) : option TimerQueue :=
  match sequences with
  | [] => Some q
  | sequence :: rest =>
      match locations q !! sequence with
      | None => None
      | Some location =>
          match remove_from_location q sequence location with
          | Some q' => remove_sequences q' rest
          | None => None
          end
      end
  end.

(** The iteration of a [BTreeSet]. *)
Definition btree_set_iter (ss : gset Z) : list Z := merge_sort Z.le (elements ss).
Definition sequences_of (s : IdSequences) : list Z :=
  match s with One s => [s] | Many ss => btree_set_iter ss end.

Definition with_ids (q : TimerQueue) (ids : gmap Z IdSequences) : TimerQueue :=
  {| deadline_heap := deadline_heap q; deadline_targets := deadline_targets q; frame_buckets := frame_buckets q;
     ready := ready q; id_sequences := ids; locations := locations q; next_sequence := next_sequence q |}.

Definition remove (q : TimerQueue) (id : Z) : option (TimerQueue * bool) :=
  match id_sequences q !! id with
  | None => Some (q, false)
  | Some s => (fun q' => (q', true)) <$> remove_sequences (with_ids q (delete id (id_sequences q))) (sequences_of s)
  end.

Definition unlink_id_sequence (ids : gmap Z IdSequences) (id sequence : Z) : gmap Z IdSequences :=
  match ids !! id with
  | None => ids
  | Some (One only) => delete id ids
  | Some (Many ss) =>
      let ss' := ss ∖ {[sequence]} in
      if bool_decide (ss' = ∅) then delete id (<[id := Many ss']> ids) else <[id := Many ss']> ids
  end.

(** ** Draining *)
Fixpoint take_due_loop (fuel : nat) (q : TimerQueue) (now : Z) (due : list DeadlineEntry)
    : option (TimerQueue * list DeadlineEntry) :=
  match fuel with
  | O => None
  | S fuel' =>
      match deadline_heap q with
      | [] => Some (q, due)
      | entry :: _ =>
          if now <? e_target entry then Some (q, due)
          else match remove_deadline_at q 0 with
               | Some (q', e) => take_due_loop fuel' q' now (due ++ [e])
               | None => None
               end
      end
  end.

Definition take_due_deadlines (q : TimerQueue) (now : Z) : option (TimerQueue * list DeadlineEntry) :=
  if match last_key_value (deadline_targets q) with Some (target, _) => target <=? now | None => false end
  then Some ({| deadline_heap := []; deadline_targets := ∅; frame_buckets := frame_buckets q; ready := ready q;
                id_sequences := id_sequences q; locations := locations q; next_sequence := next_sequence q |},
             deadline_heap q)
  else take_due_loop (S (length (deadline_heap q))) q now [].

Fixpoint take_frames_loop (fuel : nat) (buckets : gmap Z (gmap Z Z)) (frame : Z) (due : list (Z * Z))
    : option (gmap Z (gmap Z Z) * list (Z * Z)) :=
  match fuel with
  | O => None
  | S fuel' =>
      if match first_key_value buckets with Some (target, _) => target <=? frame | None => false end
      then match pop_first buckets with
           | Some ((_, bucket), buckets') => take_frames_loop fuel' buckets' frame (due ++ btree_to_list bucket)
           | None => None
           end
      else Some (buckets, due)
  end.

Definition take_due_frames (q : TimerQueue) (frame : Z) : option (TimerQueue * list (Z * Z)) :=
  (fun r => ({| deadline_heap := deadline_heap q; deadline_targets := deadline_targets q; frame_buckets := r.1;
                ready := ready q; id_sequences := id_sequences q; locations := locations q;
                next_sequence := next_sequence q |}, r.2)) <$>
    take_frames_loop (S (size (frame_buckets q))) (frame_buckets q) frame [].

(** [is_sorted_by_key] and [sort_unstable_by_key] on the sequence. *)
Fixpoint is_sorted_by_key (l : list (Z * Z)) : bool :=
  match l with
  | a :: ((b :: _) as rest) => (a.1 <=? b.1) && is_sorted_by_key rest
  | _ => true
  end.
Definition sort_by_key (l : list (Z * Z)) : list (Z * Z) := merge_sort key_le l.

Definition entry_pair (e : DeadlineEntry) : Z * Z := (e_sequence e, e_id e).

Definition due (q : TimerQueue) (now frame : Z) : option (TimerQueue * list Z) :=
  let pending_before := size (locations q) in
  let eligible0 := btree_to_list (ready q) in
  let q0 := {| deadline_heap := deadline_heap q; deadline_targets := deadline_targets q; frame_buckets := frame_buckets q;
               ready := ∅; id_sequences := id_sequences q; locations := locations q; next_sequence := next_sequence q |} in
  match take_due_deadlines q0 now with
  | None => None
  | Some (q1, deadlines) =>
      match take_due_frames q1 frame with
      | None => None
      | Some (q2, frames) =>
          let eligible1 := eligible0 ++ (entry_pair <$> deadlines) ++ frames in
          let eligible := if is_sorted_by_key eligible1 then eligible1 else sort_by_key eligible1 in
          let drains_everything := (length eligible =? pending_before)%nat in
          let '(ids, locs) :=
            if drains_everything then (∅, ∅)
            else foldl (fun '(ids, locs) '(sequence, id) => (unlink_id_sequence ids id sequence, delete sequence locs))
                       (id_sequences q2, locations q2) eligible in
          Some ({| deadline_heap := deadline_heap q2; deadline_targets := deadline_targets q2;
                   frame_buckets := frame_buckets q2; ready := ready q2; id_sequences := ids; locations := locs;
                   next_sequence := next_sequence q2 |}, eligible.*2)
      end
  end.

(** [self.ready.insert(sequence, id); self.locations.insert(sequence, EntryLocation::Ready)]. *)
Definition make_ready (q : TimerQueue) (l : list (Z * Z)) : TimerQueue :=
  {| deadline_heap := deadline_heap q; deadline_targets := deadline_targets q; frame_buckets := frame_buckets q;
     ready := foldl (fun m p => <[p.1 := p.2]> m) (ready q) l; id_sequences := id_sequences q;
     locations := foldl (fun m p => <[p.1 := AtReady]> m) (locations q) l; next_sequence := next_sequence q |}.

Fixpoint drain_ready (fuel : nat) (q : TimerQueue) (limit : Z) (due : list Z) : option (TimerQueue * list Z) :=
  match fuel with
  | O => None
  | S fuel' =>
      if limit <=? Z.of_nat (length due) then Some (q, due)
      else match pop_first (ready q) with
           | None => Some (q, due)
           | Some ((sequence, id), ready') =>
               drain_ready fuel'
                 {| deadline_heap := deadline_heap q; deadline_targets := deadline_targets q;
                    frame_buckets := frame_buckets q; ready := ready';
                    id_sequences := unlink_id_sequence (id_sequences q) id sequence;
                    locations := delete sequence (locations q); next_sequence := next_sequence q |}
                 limit (due ++ [id])
           end
  end.

Definition due_limited (q : TimerQueue) (now frame limit : Z) : option (TimerQueue * list Z) :=
  if limit =? 0 then Some (q, [])
  else
    match take_due_deadlines q now with
    | None => None
    | Some (q1, deadlines) =>
        match take_due_frames (make_ready q1 (entry_pair <$> deadlines)) frame with
        | None => None
        | Some (q2, frames) =>
            let q3 := make_ready q2 frames in
            drain_ready (S (size (ready q3))) q3 limit []
        end
    end.
(** ** The specification: a map from insertion sequence to id and kind *)
Inductive AKind := ADeadline (target : Z) | AFrame (target : Z) | AReady.
Notation pending := (gmap Z (Z * AKind)).

Definition akind (k : TimerKind) : AKind := match k with Deadline t => ADeadline t | Frame t => AFrame t end.
Definition due_deadline (now : Z) (k : AKind) : bool := match k with ADeadline t => t <=? now | _ => false end.
Definition due_frame (frame : Z) (k : AKind) : bool := match k with AFrame t => t <=? frame | _ => false end.
Definition is_ready (k : AKind) : bool := match k with AReady => true | _ => false end.
Definition eligible (now frame : Z) (k : AKind) : bool := is_ready k || due_deadline now k || due_frame frame k.

(** The pending timers of a kind, in insertion order. *)
Definition chosen (p : AKind -> bool) (a : pending) : list (Z * (Z * AKind)) := filterb (fun kv => p kv.2.2) (btree_to_list a).
Definition keep (p : AKind -> bool) (a : pending) : pending := filter (fun kv => p kv.2.2 = false) a.
Definition mark (p : AKind -> bool) (a : pending) : pending := (fun e => if p e.2 then (e.1, AReady) else e) <$> a.

Definition s_push (a : pending) (sequence id : Z) (k : TimerKind) : pending := <[sequence := (id, akind k)]> a.
Definition s_remove (a : pending) (id : Z) : pending * bool :=
  (filter (fun kv => kv.2.1 <> id) a, existsb (fun kv => kv.2.1 =? id) (map_to_list a)).
Definition s_due (a : pending) (now frame : Z) : pending * list Z :=
  (keep (eligible now frame) a, (fun kv => kv.2.1) <$> chosen (eligible now frame) a).
Definition s_due_limited (a : pending) (now frame limit : Z) : pending * list Z :=
  if limit =? 0 then (a, [])
  else
    let taken := take (Z.to_nat limit) (chosen (eligible now frame) a) in
    (foldl (fun m kv => delete kv.1 m) (mark (eligible now frame) a) taken, (fun kv => kv.2.1) <$> taken).

(** ** Representation, in three parts: the stores, the location index, the id index *)
Record stores (q : TimerQueue) (a : pending) : Prop := {
  st_nodup : NoDup (seqs (deadline_heap q));
  st_locs : locs_ok (deadline_heap q, locations q);
  st_heap_ok : heap_ok (deadline_heap q);
  st_heap : forall s id t, mkEntry id s t ∈ deadline_heap q <-> a !! s = Some (id, ADeadline t);
  st_frames : forall s id t, (exists b, frame_buckets q !! t = Some b /\ b !! s = Some id) <-> a !! s = Some (id, AFrame t);
  st_buckets : forall t, frame_buckets q !! t <> Some ∅;
  st_ready : forall s id, ready q !! s = Some id <-> a !! s = Some (id, AReady);
  st_targets : forall t, deadline_targets q !! t =
    let n := countb (fun e => e_target e =? t) (deadline_heap q) in if n =? 0 then None else Some n;
  st_length : Z.of_nat (length (deadline_heap q)) <= next_sequence q <= u64_max;
}.

Record located (q : TimerQueue) (a : pending) : Prop := {
  lo_frame : forall s id t, a !! s = Some (id, AFrame t) -> locations q !! s = Some (AtFrame t);
  lo_ready : forall s id, a !! s = Some (id, AReady) -> locations q !! s = Some AtReady;
  lo_dom : forall s, is_Some (locations q !! s) <-> is_Some (a !! s);
}.

Definition id_set (s : option IdSequences) : gset Z :=
  match s with None => ∅ | Some (One s) => {[s]} | Some (Many ss) => ss end.
Record indexed (ids : gmap Z IdSequences) (a : pending) : Prop := {
  ix_set : forall id s, s ∈ id_set (ids !! id) <-> exists k, a !! s = Some (id, k);
  ix_nonempty : forall id, ids !! id <> Some (Many ∅);
}.

Record represents (q : TimerQueue) (a : pending) : Prop := {
  re_stores : stores q a;
  re_located : located q a;
  re_indexed : indexed (id_sequences q) a;
  re_keys : forall s, is_Some (a !! s) -> 0 <= s < next_sequence q;
}.

Lemma timers_new_represents : represents new ∅.
Proof.
  split; [split|split|split|]; cbn [new deadline_heap locations frame_buckets ready deadline_targets next_sequence id_sequences seqs].
  - constructor.
  - intros i e Hx. cbn [fst] in Hx. by rewrite lookup_nil in Hx.
  - intros i _ x p. by rewrite lookup_nil.
  - intros s id t. rewrite lookup_empty, elem_of_nil. done.
  - intros s id t. rewrite !lookup_empty. split; [intros (b & E & _)|]; done.
  - intros t. by rewrite lookup_empty.
  - intros s id. by rewrite !lookup_empty.
  - intros t. by rewrite lookup_empty.
  - simpl. split; [done|]. by vm_compute.
  - intros s id t. by rewrite lookup_empty.
  - intros s id. by rewrite lookup_empty.
  - intros s. by rewrite !lookup_empty.
  - intros id s. rewrite lookup_empty. simpl. split; [intros []%not_elem_of_empty|intros [k E]; by rewrite lookup_empty in E].
  - intros id. by rewrite lookup_empty.
  - intros s. rewrite lookup_empty. by intros [].
Qed.

(** ** Removing one deadline *)
Lemma timers_drop_target (h h' : list DeadlineEntry) e (targets : gmap Z Z) :
  h ≡ₚ e :: h' -> Z.of_nat (length h) <= u64_max ->
  (forall t, targets !! t = let n := countb (fun e => e_target e =? t) h in if n =? 0 then None else Some n) ->
  exists targets', drop_target targets (e_target e) = Some targets' /\
    (forall t, targets' !! t = let n := countb (fun e => e_target e =? t) h' in if n =? 0 then None else Some n).
Proof.
  intros Hp Hlen Ht. unfold drop_target. rewrite Ht. cbv zeta.
  assert (Hc : forall t, countb (fun e => e_target e =? t) h = (if e_target e =? t then 1 else 0) + countb (fun e => e_target e =? t) h').
  { intros t. rewrite (countb_perm _ _ _ Hp), countb_cons. done. }
  pose proof (countb_le_length (fun e0 => e_target e0 =? e_target e) h). pose proof (countb_nonneg (fun e0 => e_target e0 =? e_target e) h').
  pose proof (Hc (e_target e)) as Hce. rewrite Z.eqb_refl in Hce.
  rewrite (proj2 (Z.eqb_neq _ 0)) by lia. rewrite u64_pred_small by lia. eexists. split; [done|]. intros t. specialize (Hc t). specialize (Ht t).
  destruct (decide (t = e_target e)) as [->|Hne].
  - replace (countb (λ e0 : DeadlineEntry, e_target e0 =? e_target e) h - 1) with (countb (λ e0 : DeadlineEntry, e_target e0 =? e_target e) h') by lia.
    cbv zeta. destruct (_ =? 0); [by rewrite lookup_delete_eq|by rewrite lookup_insert_eq].
  - rewrite (proj2 (Z.eqb_neq _ _)) in Hc by done. rewrite Z.add_0_l in Hc. rewrite <- Hc. cbv zeta in Ht |- *. rewrite <- Ht.
    destruct (countb (fun e0 => e_target e0 =? e_target e) h - 1 =? 0); by rewrite ?lookup_delete_ne, ?lookup_insert_ne by done.
Qed.

Lemma timers_remove_deadline q a index :
  stores q a -> (index < length (deadline_heap q))%nat ->
  exists q' e, remove_deadline_at q index = Some (q', e) /\ deadline_heap q !! index = Some e /\
    deadline_heap q ≡ₚ e :: deadline_heap q' /\ stores q' (delete (e_sequence e) a) /\
    locations q' !! e_sequence e = None /\
    (forall s, s ∉ seqs (deadline_heap q) -> locations q' !! s = locations q !! s) /\
    frame_buckets q' = frame_buckets q /\ ready q' = ready q /\ id_sequences q' = id_sequences q /\ next_sequence q' = next_sequence q.
Proof.
  intros [Hnd Hl Hok Hh Hf Hb Hr Ht Hlen] Hi. unfold remove_deadline_at.
  destruct (heap_remove (deadline_heap q, locations q) index Hnd Hl Hok Hi) as (s1 & e & [h l] & E1 & E2 & Ee & Hp & Hl2 & Hok2 & Hn & Ho).
  cbn [fst snd] in *. rewrite E1. destruct (timers_drop_target _ _ _ (deadline_targets q) Hp ltac:(lia) Ht) as (targets & Et & Ht').
  rewrite Et, E2. do 2 eexists. split; [done|]. cbn [deadline_heap locations frame_buckets ready id_sequences next_sequence].
  split; [done|]. split; [done|]. split; [|split; [done|split; [done|done]]].
  rewrite (heap_seqs_perm _ _ Hp) in Hnd. apply NoDup_cons in Hnd as [Hni Hnd]. fold (seqs h) in Hni, Hnd.
  assert (Hin : e ∈ deadline_heap q) by by eapply list_elem_of_lookup_2.
  assert (Hae : a !! e_sequence e = Some (e_id e, ADeadline (e_target e))) by (apply Hh; by destruct e).
  split; cbn [deadline_heap locations frame_buckets ready id_sequences next_sequence deadline_targets]; try done.
  - intros s id t. rewrite lookup_delete_Some, <- Hh, Hp, elem_of_cons. split.
    + intros Hs. split; [|by right]. intros Es. apply Hni. rewrite Es.
      by apply (list_elem_of_fmap_2 e_sequence h (mkEntry id s t)).
    + intros [Hne [<-|?]]; [done|done].
  - intros s id t. rewrite lookup_delete_Some, Hf. split; [|by intros []]. intros Hs. split; [|done]. intros <-. congruence.
  - intros s id. rewrite lookup_delete_Some, Hr. split; [|by intros []]. intros Hs. split; [|done]. intros <-. congruence.
  - rewrite (Permutation_length Hp) in Hlen. simpl in Hlen. lia.
Qed.
(** ** Selecting what is due *)
Lemma keep_lookup p (a : pending) s id k : keep p a !! s = Some (id, k) <-> a !! s = Some (id, k) /\ p k = false.
Proof. unfold keep. rewrite map_lookup_filter_Some. simpl. done. Qed.

Lemma keep_eq p (a a' : pending) :
  (forall s id k, a' !! s = Some (id, k) <-> a !! s = Some (id, k) /\ p k = false) -> a' = keep p a.
Proof. intros H. apply map_eq. intros s. apply option_eq. intros [id k]. by rewrite keep_lookup, H. Qed.

Lemma keep_all p (a : pending) : (forall s id k, a !! s = Some (id, k) -> p k = false) -> keep p a = a.
Proof. intros H. symmetry. apply keep_eq. intros s id k. split; [|by intros []]. intros E. split; [done|by eapply H]. Qed.

Lemma keep_delete p (a : pending) s id k : a !! s = Some (id, k) -> p k = true -> keep p (delete s a) = keep p a.
Proof.
  intros E Hp. apply keep_eq. intros s' id' k'. rewrite keep_lookup, lookup_delete_Some. split; [tauto|].
  intros [E' Hp']. split; [|done]. split; [|done]. intros <-. congruence.
Qed.

(** What [take_due_deadlines] hands out: exactly the due deadlines, each once. *)
Definition handed (a : pending) (now : Z) (l : list DeadlineEntry) : Prop :=
  NoDup (seqs l) /\ forall s id t, mkEntry id s t ∈ l <-> a !! s = Some (id, ADeadline t) /\ t <= now.

Definition same_rest (q q' : TimerQueue) : Prop :=
  frame_buckets q' = frame_buckets q /\ ready q' = ready q /\ id_sequences q' = id_sequences q /\ next_sequence q' = next_sequence q.

Lemma timers_entry_in q a e : stores q a -> e ∈ deadline_heap q <-> a !! e_sequence e = Some (e_id e, ADeadline (e_target e)).
Proof. intros Hs. rewrite <- (st_heap _ _ Hs). by destruct e. Qed.

Lemma timers_take_loop fuel q a now acc :
  stores q a -> (length (deadline_heap q) < fuel)%nat ->
  exists q1 l, take_due_loop fuel q now acc = Some (q1, acc ++ l) /\ stores q1 (keep (due_deadline now) a) /\ handed a now l /\
    (forall s, s ∉ seqs (deadline_heap q) -> locations q1 !! s = locations q !! s) /\ same_rest q q1.
Proof.
  revert q a acc. induction fuel as [|fuel IH]; intros q a acc Hs Hf; [lia|]. cbn [take_due_loop].
  assert (Hnone : (forall e, e ∈ deadline_heap q -> now < e_target e) ->
     exists q1 l, Some (q, acc) = Some (q1, acc ++ l) /\ stores q1 (keep (due_deadline now) a) /\ handed a now l /\
       (forall s, s ∉ seqs (deadline_heap q) -> locations q1 !! s = locations q !! s) /\ same_rest q q1).
  { intros Hlate. assert (Hno : forall s id t, a !! s = Some (id, ADeadline t) -> now < t).
    { intros s id t Ea. apply (Hlate (mkEntry id s t)). by apply (timers_entry_in q a). }
    exists q, []. rewrite app_nil_r. split; [done|]. rewrite keep_all.
    - split; [done|]. split; [|done]. split; [constructor|]. intros s id t. rewrite elem_of_nil. split; [done|].
      intros [Ea Ht]. apply Hno in Ea. lia.
    - intros s id k Ea. destruct k as [t|t|]; try done. apply Z.leb_gt. by eapply Hno. }
  destruct (deadline_heap q) as [|e h] eqn:Eh; [apply Hnone; intros e He; by apply elem_of_nil in He|].
  assert (E0 : deadline_heap q !! 0%nat = Some e) by (by rewrite Eh).
  destruct (now <? e_target e) eqn:En.
  - apply Hnone. intros x Hx. apply Z.ltb_lt in En. rewrite <- Eh in Hx.
    pose proof (heap_root_least _ e x (st_heap_ok _ _ Hs) E0 Hx) as Hle. apply heap_le_spec in Hle. lia.
  - clear Hnone. apply Z.ltb_ge in En. rewrite <- Eh in *.
    destruct (timers_remove_deadline q a 0 Hs) as (q1 & e' & -> & Ee & Hp & Hs1 & Hn1 & Ho1 & R1 & R2 & R3 & R4);
      [rewrite Eh; simpl; lia|].
    rewrite E0 in Ee. injection Ee as <-.
    destruct (IH q1 _ (acc ++ [e]) Hs1) as (q2 & l & -> & Hs2 & [Hnd Hl] & Ho2 & (S1 & S2 & S3 & S4));
      [rewrite (Permutation_length Hp) in Hf; simpl in Hf; lia|].
    assert (Hae : a !! e_sequence e = Some (e_id e, ADeadline (e_target e))) by (apply (timers_entry_in q a); [done|rewrite Hp; in_list]).
    rewrite (keep_delete _ _ _ _ _ Hae) in Hs2 by by apply Z.leb_le.
    exists q2, (e :: l). split; [by rewrite <- app_assoc|]. split; [done|]. split; [split|].
    + unfold seqs. rewrite fmap_cons. apply NoDup_cons. split; [|done].
      intros (x & Ex & Hx)%list_elem_of_fmap. destruct x as [id s t]. apply Hl in Hx as [Hx _].
      apply lookup_delete_Some in Hx as [Hne _]. by simpl in Ex.
    + intros s id t. rewrite elem_of_cons, Hl, lookup_delete_Some. split.
      * intros [<-|[[_ ?] ?]]; [by split|done].
      * intros [Ea Ht]. destruct (decide (e_sequence e = s)) as [Es|Hne]; [|right; done]. left.
        rewrite <- Es, Hae in Ea. injection Ea as <- <-. rewrite <- Es. by destruct e.
    + split; [|unfold same_rest; split_and!; congruence]. intros s Hsq. rewrite Ho2; [by apply Ho1|].
      intros Hin. apply Hsq. rewrite (heap_seqs_perm _ _ Hp). unfold seqs in *. rewrite fmap_cons. in_list.
Qed.

Lemma timers_take_deadlines q a now :
  stores q a ->
  exists q1 l, take_due_deadlines q now = Some (q1, l) /\ stores q1 (keep (due_deadline now) a) /\ handed a now l /\
    (forall s, s ∉ seqs (deadline_heap q) -> locations q1 !! s = locations q !! s) /\ same_rest q q1.
Proof.
  intros Hs. unfold take_due_deadlines.
  destruct (match last_key_value (deadline_targets q) with Some (target, _) => target <=? now | None => false end) eqn:E.
  2:{ destruct (timers_take_loop (S (length (deadline_heap q))) q a now [] Hs ltac:(lia)) as (q1 & l & Eq & H). by exists q1, l. }
  destruct (last_key_value (deadline_targets q)) as [[target n]|] eqn:El; [|done]. apply Z.leb_le in E.
  apply last_key_value_Some in El as [_ Hmax].
  assert (Hall : forall e, e ∈ deadline_heap q -> e_target e <= now).
  { intros e He. assert (e_target e <= target); [|lia]. apply Hmax. rewrite (st_targets _ _ Hs). cbv zeta.
    destruct (countb _ _ =? 0) eqn:Ec; [|by eexists]. apply Z.eqb_eq, countb_0_iff with (x := e) in Ec; [|done].
    by rewrite Z.eqb_refl in Ec. }
  do 2 eexists. split; [done|]. destruct Hs as [Hnd Hl Hok Hh Hf Hb Hr Ht Hlen].
  split; [|split; [split; [done|]|split; [done|done]]].
  - split; cbn [deadline_heap locations frame_buckets ready deadline_targets next_sequence]; try done.
    + constructor.
    + intros s id t. rewrite elem_of_nil, keep_lookup. split; [done|]. intros [Ea Hd].
      assert (Hin : mkEntry id s t ∈ deadline_heap q) by by apply Hh. specialize (Hall _ Hin). simpl in *. apply Z.leb_gt in Hd. lia.
    + intros s id t. rewrite keep_lookup, Hf. split; [by intros|by intros []].
    + intros s id. rewrite keep_lookup, Hr. split; [by intros|by intros []].
    + simpl. lia.
  - intros s id t. rewrite <- Hh. split; [|by intros []]. intros Hin. split; [done|]. by apply (Hall _ Hin).
Qed.

Lemma timers_take_frames fuel buckets frame acc :
  (size buckets < fuel)%nat ->
  (forall t1 t2 b1 b2 s, buckets !! t1 = Some b1 -> buckets !! t2 = Some b2 -> is_Some (b1 !! s) -> is_Some (b2 !! s) -> t1 = t2) ->
  exists l, take_frames_loop fuel buckets frame acc = Some (filter (fun kv => frame < kv.1) buckets, acc ++ l) /\
    NoDup l.*1 /\ forall s id, (s, id) ∈ l <-> exists t b, t <= frame /\ buckets !! t = Some b /\ b !! s = Some id.
Proof.
  revert buckets acc. induction fuel as [|fuel IH]; intros buckets acc Hf Hdis; [lia|]. cbn [take_frames_loop].
  assert (Hstop : (forall t, is_Some (buckets !! t) -> frame < t) ->
    exists l, Some (buckets, acc) = Some (filter (fun kv => frame < kv.1) buckets, acc ++ l) /\
    NoDup l.*1 /\ forall s id, (s, id) ∈ l <-> exists t b, t <= frame /\ buckets !! t = Some b /\ b !! s = Some id).
  { intros Hl. exists []. rewrite app_nil_r. rewrite map_filter_id; [|intros t b E; simpl; apply Hl; by eexists].
    split; [done|]. split; [constructor|]. intros s id. rewrite elem_of_nil. split; [done|].
    intros (t & b & Ht & Eb & _). specialize (Hl t ltac:(by eexists)). lia. }
  destruct (first_key_value buckets) as [[t b]|] eqn:E1.
  2:{ apply Hstop. apply first_key_value_None in E1 as ->. intros t. rewrite lookup_empty. by intros []. }
  unfold pop_first. rewrite E1. apply first_key_value_Some in E1 as [Eb Hmin].
  destruct (t <=? frame) eqn:Et; [|apply Hstop; intros t' Ht'; specialize (Hmin t' Ht'); apply Z.leb_gt in Et; lia].
  clear Hstop. apply Z.leb_le in Et. cbn [fst snd].
  destruct (IH (delete t buckets) (acc ++ btree_to_list b)) as (l & -> & Hnd & Hl).
  { rewrite map_size_delete, Eb. simpl. assert (size buckets <> 0%nat); [|lia].
    rewrite map_size_ne_0_lookup. by exists t, b. }
  { intros t1 t2 b1 b2 s [_ E1]%lookup_delete_Some [_ E2]%lookup_delete_Some. by apply Hdis. }
  exists (btree_to_list b ++ l). split; [|split].
  - f_equal. rewrite app_assoc. f_equal. apply map_eq. intros t'. apply option_eq. intros b'.
    rewrite !map_lookup_filter_Some, lookup_delete_Some. simpl. split; [tauto|]. intros [E' Hlt]. split; [|done]. split; [lia|done].
  - rewrite fmap_app. apply NoDup_app. split; [rewrite btree_to_list_perm; apply NoDup_fst_map_to_list|]. split; [|done].
    intros s ([s1 id1] & -> & Hin1)%list_elem_of_fmap ([s2 id2] & Es & Hin2)%list_elem_of_fmap. simpl in Es. subst s2.
    apply elem_of_btree_to_list in Hin1. apply Hl in Hin2 as (t2 & b2 & _ & [Hne E2]%lookup_delete_Some & Hs2).
    apply Hne. apply (Hdis t t2 b b2 s1); [done|done|by eexists|by eexists].
  - intros s id. rewrite elem_of_app, elem_of_btree_to_list, Hl. split.
    + intros [Hs|(t2 & b2 & Ht2 & [_ E2]%lookup_delete_Some & Hs2)]; [by exists t, b|by exists t2, b2].
    + intros (t2 & b2 & Ht2 & E2 & Hs2). destruct (decide (t = t2)) as [<-|Hne].
      * left. rewrite Eb in E2. by injection E2 as ->.
      * right. exists t2, b2. by rewrite lookup_delete_ne.
Qed.

Lemma timers_take_due_frames q a frame :
  stores q a ->
  exists q1 l, take_due_frames q frame = Some (q1, l) /\ stores q1 (keep (due_frame frame) a) /\ NoDup l.*1 /\
    (forall s id, (s, id) ∈ l <-> exists t, t <= frame /\ a !! s = Some (id, AFrame t)) /\
    locations q1 = locations q /\ id_sequences q1 = id_sequences q /\ next_sequence q1 = next_sequence q /\ ready q1 = ready q.
Proof.
  intros [Hnd Hl Hok Hh Hf Hb Hr Ht Hlen]. unfold take_due_frames.
  destruct (timers_take_frames (S (size (frame_buckets q))) (frame_buckets q) frame []) as (l & -> & Hndl & Hin); [lia| |].
  { intros t1 t2 b1 b2 s E1 E2 [id1 H1] [id2 H2].
    assert (a !! s = Some (id1, AFrame t1)) as A1 by (apply Hf; eauto).
    assert (a !! s = Some (id2, AFrame t2)) as A2 by (apply Hf; eauto). congruence. }
  do 2 eexists. split; [done|]. cbn [fst snd app]. split; [|split; [done|split; [|done]]].
  - split; cbn [deadline_heap locations frame_buckets ready deadline_targets next_sequence]; try done.
    + intros s id t. rewrite keep_lookup, Hh. split; [by intros|by intros []].
    + intros s id t. rewrite keep_lookup, <- Hf. simpl. rewrite Z.leb_gt. split.
      * intros (b & [Eb Hlt]%map_lookup_filter_Some & Hs). simpl in Hlt. split; [by exists b|done].
      * intros [(b & Eb & Hs) Hlt]. exists b. rewrite map_lookup_filter_Some. done.
    + intros t [E _]%map_lookup_filter_Some. by apply (Hb t).
    + intros s id. rewrite keep_lookup, Hr. split; [by intros|by intros []].
  - intros s id. rewrite Hin. split.
    + intros (t & b & Ht' & Eb & Hs). exists t. split; [done|]. apply Hf. by exists b.
    + intros (t & Ht' & Ea). apply Hf in Ea as (b & Eb & Hs). by exists t, b.
Qed.
(** ** The id index *)
Lemma timers_add_sequence ids (a : pending) id s k :
  indexed ids a -> a !! s = None -> indexed (add_sequence ids id s) (<[s := (id, k)]> a).
Proof.
  intros [Hset Hne] Hs.
  assert (Hin : forall id' s', s' ∈ id_set (add_sequence ids id s !! id') <-> (id' = id /\ s' = s) \/ s' ∈ id_set (ids !! id')).
  { intros id' s'. unfold add_sequence. destruct (decide (id' = id)) as [->|Hn].
    - destruct (ids !! id) as [[f|ss]|] eqn:E; rewrite lookup_insert_eq; cbn [id_set];
        rewrite ?elem_of_union, ?elem_of_singleton, ?elem_of_empty; intuition.
    - destruct (ids !! id) as [[f|ss]|]; rewrite lookup_insert_ne by done; tauto. }
  split.
  - intros id' s'. rewrite Hin, Hset. setoid_rewrite lookup_insert_Some. split.
    + intros [[-> ->]|[k' Ek]]; [exists k; by left|]. exists k'. right. split; [congruence|done].
    + intros [k' [[<- [= <- <-]]|[_ Ek]]]; [by left|right; by exists k'].
  - intros id' E. unfold add_sequence in E.
    destruct (ids !! id) as [[f|ss]|] eqn:Eid; rewrite lookup_insert in E; case_decide; try (by apply (Hne id'));
      apply (f_equal id_set) in E; cbn [id_set] in E;
      apply (not_elem_of_empty (C := gset Z) s); rewrite <- E; by apply elem_of_union_l, elem_of_singleton.
Qed.

Lemma timers_unlink ids (a : pending) id s k :
  indexed ids a -> a !! s = Some (id, k) -> indexed (unlink_id_sequence ids id s) (delete s a).
Proof.
  intros [Hset Hne] Hs.
  assert (Hone : forall f, ids !! id = Some (One f) -> f = s).
  { intros f E. symmetry. pose proof (Hset id s) as H. rewrite E in H. cbn [id_set] in H. rewrite elem_of_singleton in H.
    apply H. by exists k. }
  assert (Hin : forall id' s', s' ∈ id_set (unlink_id_sequence ids id s !! id') <-> s' ∈ id_set (ids !! id') /\ ~ (id' = id /\ s' = s)).
  { intros id' s'. unfold unlink_id_sequence. destruct (ids !! id) as [[f|ss]|] eqn:E.
    - pose proof (Hone f eq_refl) as Ef. subst f. destruct (decide (id' = id)) as [->|Hn].
      + rewrite lookup_delete_eq, E. cbn [id_set]. rewrite elem_of_empty, elem_of_singleton. tauto.
      + rewrite lookup_delete_ne by done. tauto.
    - case_bool_decide as Hemp; destruct (decide (id' = id)) as [->|Hn];
        rewrite ?lookup_delete_eq, ?lookup_delete_ne, ?lookup_insert_eq, ?lookup_insert_ne by done; rewrite ?E; cbn [id_set]; try tauto.
      + rewrite elem_of_empty. split; [done|]. intros [Hx Hn]. apply (not_elem_of_empty (C := gset Z) s'). rewrite <- Hemp.
        apply elem_of_difference. split; [done|]. rewrite elem_of_singleton. tauto.
      + rewrite elem_of_difference, elem_of_singleton. tauto.
    - destruct (decide (id' = id)) as [->|Hn]; [rewrite E; cbn [id_set]; rewrite elem_of_empty; tauto|tauto]. }
  split.
  - intros id' s'. rewrite Hin, Hset. setoid_rewrite lookup_delete_Some. split.
    + intros [[k' Ek] Hn]. exists k'. split; [|done]. intros <-. apply Hn. split; [congruence|done].
    + intros [k' [Hn Ek]]. split; [by exists k'|]. intros [_ E]. congruence.
  - intros id' E. unfold unlink_id_sequence in E. destruct (ids !! id) as [[f|ss]|] eqn:Eid.
    + apply lookup_delete_Some in E as [_ E]. by eapply Hne.
    + case_bool_decide as Hemp.
      * apply lookup_delete_Some in E as [Hn E]. rewrite lookup_insert_ne in E by done. by eapply Hne.
      * rewrite lookup_insert in E. case_decide; [by apply (f_equal id_set) in E|by eapply Hne].
    + by eapply Hne.
Qed.

Lemma timers_sequences_of (ids : gmap Z IdSequences) (a : pending) id v :
  indexed ids a -> ids !! id = Some v ->
  NoDup (sequences_of v) /\ sequences_of v <> [] /\ forall s, s ∈ sequences_of v <-> exists k, a !! s = Some (id, k).
Proof.
  intros [Hset Hne] E. specialize (Hset id). rewrite E in Hset. destruct v as [f|ss]; simpl in *.
  - split; [apply NoDup_singleton|]. split; [done|]. intros s. rewrite <- Hset, list_elem_of_singleton, elem_of_singleton. done.
  - unfold btree_set_iter. pose proof (merge_sort_Permutation Z.le (elements ss)) as Hp. split; [|split].
    + rewrite Hp. apply NoDup_elements.
    + intros En. rewrite En in Hp. symmetry in Hp. apply Permutation_nil_r in Hp. apply elements_empty_inv, leibniz_equiv in Hp.
      subst ss. by apply (Hne id).
    + intros s. rewrite <- Hset, Hp. apply elem_of_elements.
Qed.

(** ** Insertion *)
Lemma timers_fresh q a : represents q a -> a !! next_sequence q = None.
Proof. intros H. destruct (a !! next_sequence q) eqn:E; [|done]. destruct (re_keys _ _ H (next_sequence q)); [by eexists|lia]. Qed.

Lemma timers_heap_seqs q a s : stores q a -> s ∈ seqs (deadline_heap q) <-> exists id t, a !! s = Some (id, ADeadline t).
Proof.
  intros Hs. unfold seqs. rewrite list_elem_of_fmap. split.
  - intros ([id s' t] & -> & Hin). exists id, t. by apply (st_heap _ _ Hs).
  - intros (id & t & E). exists (mkEntry id s t). split; [done|]. by apply (st_heap _ _ Hs).
Qed.

Lemma timers_push q a id k :
  represents q a -> next_sequence q < u64_max ->
  exists q', push q id k = Some q' /\ represents q' (s_push a (next_sequence q) id k) /\ next_sequence q' = next_sequence q + 1.
Proof.
  intros Hr Hlt. pose proof (timers_fresh q a Hr) as Hfresh. destruct Hr as [Hs Hlo Hix Hk].
  pose proof (timers_add_sequence (id_sequences q) a id (next_sequence q) (akind k) Hix Hfresh) as Hix'.
  pose proof (st_length _ _ Hs) as Hlen. unfold push, checked_add. rewrite (proj2 (Z.leb_le _ _)) by lia. unfold s_push.
  assert (Hk' : forall s, is_Some (<[next_sequence q := (id, akind k)]> a !! s) -> 0 <= s < next_sequence q + 1).
  { intros s. rewrite lookup_insert. case_decide; [intros _; lia|]. intros H'. specialize (Hk s H'). lia. }
  assert (Hni : next_sequence q ∉ seqs (deadline_heap q)).
  { rewrite timers_heap_seqs by done. intros (id' & t' & E). congruence. }
  destruct k as [t|t]; cbn [akind] in *.
  - destruct (heap_push (deadline_heap q, locations q) (mkEntry id (next_sequence q) t)) as ([h l] & E & Hp & Hl & Hok & Ho);
      [apply Hs|apply Hs|apply Hs|done|]. cbn [fst snd e_sequence] in *. rewrite E.
    eexists. split; [done|]. split; [|done]. destruct Hs as [Hnd Hlk Hhk Hh Hf Hb Hrd Ht _].
    split; [split|split|done|done]; cbn [deadline_heap locations frame_buckets ready deadline_targets next_sequence id_sequences]; try done.
    + rewrite (heap_seqs_perm _ _ Hp). by constructor.
    + intros s id' t'. rewrite Hp, elem_of_cons, Hh, lookup_insert_Some. split.
      * intros [[= -> -> ->]|Ea]; [by left|]. right. split; [congruence|done].
      * intros [[<- [= -> ->]]|[_ ?]]; [by left|by right].
    + intros s id' t'. rewrite Hf, lookup_insert_Some. split; [|intros [[_ ?]|[_ ?]]; done]. intros Ea. right. split; [congruence|done].
    + intros s id'. rewrite Hrd, lookup_insert_Some. split; [|intros [[_ ?]|[_ ?]]; done]. intros Ea. right. split; [congruence|done].
    + intros t'. rewrite (countb_perm _ _ _ Hp), countb_cons. cbn [e_target]. rewrite Ht.
      pose proof (countb_le_length (fun e => e_target e =? t) (deadline_heap q)).
      pose proof (countb_nonneg (fun e => e_target e =? t') (deadline_heap q)). cbv zeta.
      rewrite lookup_insert. case_decide as Et.
      * subst t'. rewrite Z.eqb_refl. rewrite (proj2 (Z.eqb_neq (1 + _) 0)) by lia. f_equal.
        destruct (countb _ _ =? 0) eqn:E0; simpl; [apply Z.eqb_eq in E0|apply Z.eqb_neq in E0]; rewrite u64_succ_small; lia.
      * rewrite (proj2 (Z.eqb_neq t t')) by done. rewrite Z.add_0_l. rewrite Ht. done.
    + rewrite (Permutation_length Hp). simpl. lia.
    + intros s id' t'. rewrite lookup_insert_Some. intros [[_ ?]|[Hn Ea]]; [done|]. rewrite Ho; [by eapply (lo_frame _ _ Hlo)| |done].
      intros Hin. apply (Hh s) || idtac. unfold seqs in Hin. apply list_elem_of_fmap in Hin as ([i2 s2 t2] & -> & Hin). apply Hh in Hin. simpl in *. congruence.
    + intros s id'. rewrite lookup_insert_Some. intros [[_ ?]|[Hn Ea]]; [done|]. rewrite Ho; [by eapply (lo_ready _ _ Hlo)| |done].
      intros Hin. unfold seqs in Hin. apply list_elem_of_fmap in Hin as ([i2 s2 t2] & -> & Hin). apply Hh in Hin. simpl in *. congruence.
    + intros s. destruct (decide (s = next_sequence q)) as [->|Hn].
      * rewrite lookup_insert_eq. split; [by eexists|]. intros _.
        assert (mkEntry id (next_sequence q) t ∈ h) as [i Hi]%list_elem_of_lookup by (rewrite Hp; in_list).
        specialize (Hl _ _ Hi). simpl in Hl. rewrite Hl. by eexists.
      * rewrite lookup_insert_ne by done. rewrite <- (lo_dom _ _ Hlo).
        destruct (decide (s ∈ seqs (deadline_heap q))) as [Hin|Hin]; [|by rewrite Ho].
        unfold seqs in Hin. apply list_elem_of_fmap in Hin as (e & -> & Hin).
        assert (e ∈ h) as [i Hi]%list_elem_of_lookup by (rewrite Hp; in_list). specialize (Hl _ _ Hi). simpl in Hl. rewrite Hl.
        apply list_elem_of_lookup in Hin as [j Hj]. specialize (Hlk _ _ Hj). simpl in Hlk. rewrite Hlk. split; by eexists.
  - eexists. split; [done|]. split; [|done]. destruct Hs as [Hnd Hlk Hhk Hh Hf Hb Hrd Ht _].
    split; [split|split|done|done]; cbn [deadline_heap locations frame_buckets ready deadline_targets next_sequence id_sequences]; try done; try lia.
    + intros i e Hi. simpl in *. rewrite lookup_insert_ne; [by apply Hlk|]. intros En. apply Hni. rewrite En. unfold seqs.
      by eapply list_elem_of_fmap_2, list_elem_of_lookup_2.
    + intros s id' t'. rewrite Hh, lookup_insert_Some. split; [|intros [[_ ?]|[_ ?]]; done]. intros Ea. right. split; [congruence|done].
    + intros s id' t'. rewrite lookup_insert_Some, <- Hf. split.
      * intros (b & Eb & Es). rewrite lookup_insert in Eb. case_decide as Et.
        -- injection Eb as <-. subst t'. rewrite lookup_insert_Some in Es. destruct Es as [[<- ->]|[Hn Es]]; [by left|]. right.
           split; [done|]. destruct (frame_buckets q !! t) as [b|] eqn:E; simpl in Es; [by exists b|by rewrite lookup_empty in Es].
        -- right. split; [|by exists b]. intros <-. assert (a !! next_sequence q = Some (id', AFrame t')) by (apply Hf; by exists b). congruence.
      * intros [[<- [= -> ->]]|[Hn (b & Eb & Es)]]; [eexists; by rewrite !lookup_insert_eq|].
        destruct (decide (t = t')) as [->|Ht'].
        -- eexists. rewrite lookup_insert_eq. split; [done|]. rewrite Eb. simpl. by rewrite lookup_insert_ne.
        -- exists b. by rewrite lookup_insert_ne.
    + intros t'. rewrite lookup_insert. case_decide; [|apply Hb]. intros [= E]. by apply insert_non_empty in E.
    + intros s id'. rewrite Hrd, lookup_insert_Some. split; [|intros [[_ ?]|[_ ?]]; done]. intros Ea. right. split; [congruence|done].
    + intros s id' t'. rewrite lookup_insert_Some. intros [[<- [= _ <-]]|[Hn Ea]]; [by rewrite lookup_insert_eq|].
      rewrite lookup_insert_ne by done. by eapply (lo_frame _ _ Hlo).
    + intros s id'. rewrite lookup_insert_Some. intros [[_ ?]|[Hn Ea]]; [done|]. rewrite lookup_insert_ne by done. by eapply (lo_ready _ _ Hlo).
    + intros s. rewrite !lookup_insert. case_decide; [split; by eexists|]. apply (lo_dom _ _ Hlo).
Qed.
(** ** Cancellation *)
Lemma timers_remove_frame q a s id t :
  stores q a -> located q a -> a !! s = Some (id, AFrame t) ->
  exists q', remove_from_location q s (AtFrame t) = Some q' /\ stores q' (delete s a) /\ located q' (delete s a) /\
    id_sequences q' = id_sequences q /\ next_sequence q' = next_sequence q.
Proof.
  intros [Hnd Hlk Hhk Hh Hf Hb Hrd Ht Hlen] Hlo Ea. pose proof (proj2 (Hf s id t) Ea) as (b & Eb & Es).
  cbn [remove_from_location]. rewrite Eb. eexists. split; [done|].
  assert (Hbk : forall t', (if bool_decide (delete s b = ∅) then delete t (<[t:=delete s b]> (frame_buckets q)) else <[t:=delete s b]> (frame_buckets q)) !! t'
     = if decide (t' = t) then (if bool_decide (delete s b = ∅) then None else Some (delete s b)) else frame_buckets q !! t').
  { intros t'. case_bool_decide; case_decide; subst; by rewrite ?lookup_delete_eq, ?lookup_delete_ne, ?lookup_insert_eq, ?lookup_insert_ne by done. }
  split; [split|split; [split|done]]; cbn [deadline_heap locations frame_buckets ready deadline_targets next_sequence id_sequences]; try done.
  - intros i e Hi. simpl in *. rewrite lookup_delete_ne; [by apply Hlk|]. intros En.
    assert (e ∈ deadline_heap q) as He by by eapply list_elem_of_lookup_2. destruct e as [ei es et]. apply Hh in He. simpl in En. congruence.
  - intros s' id' t'. rewrite Hh, lookup_delete_Some. split; [|by intros []]. intros Ea'. split; [congruence|done].
  - intros s' id' t'. rewrite lookup_delete_Some. split.
    + intros (b' & Eb' & Es'). rewrite Hbk in Eb'. case_decide as Et.
      * case_bool_decide; [done|]. injection Eb' as <-. apply lookup_delete_Some in Es' as [Hn Es']. split; [done|]. subst t'. apply Hf. by exists b.
      * assert (a !! s' = Some (id', AFrame t')) by (apply Hf; by exists b'). split; [congruence|done].
    + intros [Hn (b' & Eb' & Es')%Hf]. destruct (decide (t' = t)) as [->|Et]; [|exists b'; by rewrite Hbk, decide_False].
      rewrite Eb in Eb'. injection Eb' as <-. exists (delete s b). rewrite Hbk, decide_True by done.
      rewrite bool_decide_false; [by rewrite lookup_delete_ne|]. intros Ed.
      assert (delete s b !! s' = Some id') by (by rewrite lookup_delete_ne). by rewrite Ed, lookup_empty in H.
  - intros t' E. rewrite Hbk in E. case_decide; [|by eapply Hb]. case_bool_decide as Hd; [done|]. congruence.
  - intros s' id'. rewrite Hrd, lookup_delete_Some. split; [|by intros []]. intros Ea'. split; [congruence|done].
  - intros s' id' t'. rewrite lookup_delete_Some. intros [Hn Ea']. rewrite lookup_delete_ne by done. by eapply (lo_frame _ _ Hlo).
  - intros s' id'. rewrite lookup_delete_Some. intros [Hn Ea']. rewrite lookup_delete_ne by done. by eapply (lo_ready _ _ Hlo).
  - intros s'. rewrite !lookup_delete_is_Some. by rewrite (lo_dom _ _ Hlo).
Qed.

Lemma timers_remove_ready q a s id :
  stores q a -> located q a -> a !! s = Some (id, AReady) ->
  exists q', remove_from_location q s AtReady = Some q' /\ stores q' (delete s a) /\ located q' (delete s a) /\
    id_sequences q' = id_sequences q /\ next_sequence q' = next_sequence q.
Proof.
  intros [Hnd Hlk Hhk Hh Hf Hb Hrd Ht Hlen] Hlo Ea. eexists. split; [done|].
  split; [split|split; [split|done]]; cbn [deadline_heap locations frame_buckets ready deadline_targets next_sequence id_sequences]; try done.
  - intros i e Hi. simpl in *. rewrite lookup_delete_ne; [by apply Hlk|]. intros En.
    assert (e ∈ deadline_heap q) as He by by eapply list_elem_of_lookup_2. destruct e as [ei es et]. apply Hh in He. simpl in En. congruence.
  - intros s' id' t'. rewrite Hh, lookup_delete_Some. split; [|by intros []]. intros Ea'. split; [congruence|done].
  - intros s' id' t'. rewrite Hf, lookup_delete_Some. split; [|by intros []]. intros Ea'. split; [congruence|done].
  - intros s' id'. rewrite !lookup_delete_Some. by rewrite Hrd.
  - intros s' id' t'. rewrite lookup_delete_Some. intros [Hn Ea']. rewrite lookup_delete_ne by done. by eapply (lo_frame _ _ Hlo).
  - intros s' id'. rewrite lookup_delete_Some. intros [Hn Ea']. rewrite lookup_delete_ne by done. by eapply (lo_ready _ _ Hlo).
  - intros s'. rewrite !lookup_delete_is_Some. by rewrite (lo_dom _ _ Hlo).
Qed.

(** Where everything still pending sits, after some entries left: the heap index is exact, other
    survivors kept their location, and what left has none. *)
Lemma timers_located_sub q q' a a' :
  stores q a -> stores q' a' -> located q a ->
  (forall s, s ∉ seqs (deadline_heap q) -> is_Some (a' !! s) -> locations q' !! s = locations q !! s) ->
  (forall s id k, a' !! s = Some (id, k) -> a !! s = Some (id, k)) ->
  (forall s, a' !! s = None -> locations q' !! s = None) ->
  located q' a'.
Proof.
  intros Hs Hs' Hlo Ho Hsub Hgone.
  assert (Hnoth : forall s id k, a' !! s = Some (id, k) -> (forall t, k <> ADeadline t) -> locations q' !! s = locations q !! s).
  { intros s id k Ea Hk. apply Ho; [|by eexists]. intros Hin. apply (timers_heap_seqs q a) in Hin as (id' & t & Ea'); [|done].
    apply Hsub in Ea. rewrite Ea in Ea'. injection Ea' as -> ->. by apply (Hk t). }
  split.
  - intros s id t Ea. rewrite (Hnoth s id (AFrame t)) by done. by apply (lo_frame _ _ Hlo s id), Hsub.
  - intros s id Ea. rewrite (Hnoth s id AReady) by done. by apply (lo_ready _ _ Hlo s id), Hsub.
  - intros s. split.
    + intros Hl. destruct (a' !! s) as [e|] eqn:Ea'; [by eexists|]. rewrite (Hgone s Ea') in Hl. by destruct Hl.
    + intros [[id k] Ea']. destruct k as [t| |].
      * assert (mkEntry id s t ∈ deadline_heap q') as [i Hi]%list_elem_of_lookup by by apply (st_heap _ _ Hs').
        pose proof (st_locs _ _ Hs' _ _ Hi) as E. simpl in E. rewrite E. by eexists.
      * rewrite (Hnoth _ _ _ Ea') by done. apply (lo_dom _ _ Hlo). by rewrite (Hsub _ _ _ Ea').
      * rewrite (Hnoth _ _ _ Ea') by done. apply (lo_dom _ _ Hlo). by rewrite (Hsub _ _ _ Ea').
Qed.

(** A sequence that is not pending has no location. *)
Lemma timers_no_location q a s : located q a -> a !! s = None -> locations q !! s = None.
Proof. intros Hlo E. destruct (locations q !! s) eqn:El; [|done]. destruct (proj1 (lo_dom _ _ Hlo s)) as [x Ex]; [by eexists|congruence]. Qed.

Lemma timers_remove_one q a s id k :
  stores q a -> located q a -> a !! s = Some (id, k) ->
  exists loc q', locations q !! s = Some loc /\ remove_from_location q s loc = Some q' /\
    stores q' (delete s a) /\ located q' (delete s a) /\ id_sequences q' = id_sequences q /\ next_sequence q' = next_sequence q.
Proof.
  intros Hs Hlo Ea. destruct k as [t|t|].
  - assert (mkEntry id s t ∈ deadline_heap q) as [i Hi]%list_elem_of_lookup by by apply (st_heap _ _ Hs).
    pose proof (st_locs _ _ Hs _ _ Hi) as El. simpl in El. exists (AtDeadline i). cbn [remove_from_location].
    destruct (timers_remove_deadline q a i Hs) as (q' & e & E & Ee & Hp & Hs' & Hn & Ho & R1 & R2 & R3 & R4); [by eapply lookup_lt_Some|].
    rewrite Hi in Ee. injection Ee as <-. simpl in *. rewrite E. exists q'. split; [done|]. split; [done|]. split; [done|].
    split; [|done]. apply (timers_located_sub q q' a); try done.
    + intros s' Hn' _. by apply Ho.
    + intros s' id' k'. rewrite lookup_delete_Some. tauto.
    + intros s'. rewrite lookup_delete_None. intros [<-|Ea']; [done|]. destruct (decide (s' = s)) as [->|]; [done|].
      rewrite Ho; [by eapply timers_no_location|]. rewrite timers_heap_seqs by done. intros (? & ? & ?). congruence.
  - destruct (timers_remove_frame q a s id t Hs Hlo Ea) as (q' & E & H). exists (AtFrame t), q'.
    split; [by eapply (lo_frame _ _ Hlo)|]. by split.
  - destruct (timers_remove_ready q a s id Hs Hlo Ea) as (q' & E & H). exists AtReady, q'.
    split; [by eapply (lo_ready _ _ Hlo)|]. by split.
Qed.

Lemma timers_remove_sequences q a l :
  stores q a -> located q a -> NoDup l -> (forall s, s ∈ l -> is_Some (a !! s)) ->
  exists q' a', remove_sequences q l = Some q' /\ stores q' a' /\ located q' a' /\
    id_sequences q' = id_sequences q /\ next_sequence q' = next_sequence q /\
    forall s, a' !! s = if bool_decide (s ∈ l) then None else a !! s.
Proof.
  revert q a. induction l as [|s l IH]; intros q a Hs Hlo Hnd Hin; cbn [remove_sequences]; [by exists q, a|].
  apply NoDup_cons in Hnd as [Hni Hnd]. destruct (Hin s) as [[id k] Ea]; [in_list|].
  destruct (timers_remove_one q a s id k Hs Hlo Ea) as (loc & q1 & El & E1 & Hs1 & Hlo1 & R1 & R2). rewrite El, E1.
  destruct (IH q1 (delete s a) Hs1 Hlo1 Hnd) as (q2 & a2 & E2 & Hs2 & Hlo2 & R3 & R4 & Ha2).
  { intros s' Hs'. rewrite lookup_delete_ne; [apply Hin; in_list|]. intros <-. done. }
  exists q2, a2. split; [done|]. split; [done|]. split; [done|]. split; [congruence|]. split; [congruence|].
  intros s'. rewrite Ha2. destruct (decide (s' = s)) as [->|Hne].
  - rewrite bool_decide_false, lookup_delete_eq by done. rewrite bool_decide_true; [done|in_list].
  - rewrite lookup_delete_ne by done. erewrite bool_decide_ext; [done|]. in_list.
Qed.

Lemma timers_remove q a id :
  represents q a ->
  exists q', remove q id = Some (q', (s_remove a id).2) /\ represents q' (s_remove a id).1 /\ next_sequence q' = next_sequence q.
Proof.
  intros [Hs Hlo Hix Hk]. unfold remove, s_remove. cbn [fst snd].
  assert (Hex : existsb (fun kv => kv.2.1 =? id) (map_to_list a) = true <-> exists s k, a !! s = Some (id, k)).
  { rewrite existsb_exists. split.
    - intros ([s [id' k]] & Hin & E). apply list_elem_of_In, elem_of_map_to_list in Hin. apply Z.eqb_eq in E. simpl in E. subst. by exists s, k.
    - intros (s & k & E). exists (s, (id, k)). split; [by apply list_elem_of_In, elem_of_map_to_list|]. apply Z.eqb_refl. }
  destruct (id_sequences q !! id) as [v|] eqn:Ev.
  - destruct (timers_sequences_of _ a id v Hix Ev) as (Hnd & Hne & Hin).
    set (q0 := with_ids q (delete id (id_sequences q))).
    assert (Hs0 : stores q0 a) by (destruct Hs; by split). assert (Hlo0 : located q0 a) by (destruct Hlo; by split).
    destruct (timers_remove_sequences q0 a (sequences_of v) Hs0 Hlo0 Hnd) as (q' & a' & E & Hs' & Hlo' & R1 & R2 & Ha').
    { intros s Hsin. apply Hin in Hsin as [k E]. by eexists. }
    rewrite E. eexists. split; [simpl; f_equal; f_equal; symmetry; apply Hex|].
    { destruct (sequences_of v) as [|s l] eqn:El; [done|]. exists s. apply Hin. in_list. }
    assert (a' = filter (fun kv => kv.2.1 <> id) a) as <-.
    { apply map_eq. intros s. rewrite Ha'. apply option_eq. intros [id' k]. rewrite map_lookup_filter_Some. simpl. case_bool_decide as Hb.
      - split; [done|]. intros [Ea Hn]. apply Hin in Hb as [k' Ea']. congruence.
      - split; [|by intros []]. intros Ea. split; [done|]. intros ->. apply Hb, Hin. by exists k. }
    split; [|done]. split; [done|done|..].
    + rewrite R1. split.
      * intros id' s. cbn [id_sequences q0 with_ids]. rewrite lookup_delete. setoid_rewrite Ha'. case_decide as Ei.
        -- subst id'. split; [intros []%not_elem_of_empty|]. intros [k Ek]. case_bool_decide as Hb; [done|]. destruct Hb. apply Hin. by exists k.
        -- rewrite (ix_set _ _ Hix). case_bool_decide as Hb; [|done]. apply Hin in Hb as [k Ek]. split; [|by intros []].
           intros [k' Ek']. congruence.
      * intros id' E'. cbn [id_sequences q0 with_ids] in E'. apply lookup_delete_Some in E' as [_ E']. by apply (ix_nonempty _ _ Hix id').
    + intros s. rewrite Ha', R2. case_bool_decide; [by intros []|]. apply Hk.
  - assert (Hno : forall s k, a !! s <> Some (id, k)).
    { intros s k E. pose proof (proj2 (ix_set _ _ Hix id s) ltac:(by exists k)) as H. rewrite Ev in H. by apply not_elem_of_empty in H. }
    exists q. split; [f_equal; f_equal; symmetry; apply not_true_iff_false; rewrite Hex; intros (s & k & E); by eapply Hno|].
    rewrite map_filter_id; [by split|]. intros s [id' k] E. simpl. intros ->. by eapply Hno.
Qed.
(** ** Draining everything that is due *)
Definition pair_of (kv : Z * (Z * AKind)) : Z * Z := (kv.1, kv.2.1).

Lemma timers_chosen_in p (a : pending) s id :
  (s, id) ∈ pair_of <$> chosen p a <-> exists k, a !! s = Some (id, k) /\ p k = true.
Proof.
  unfold chosen. rewrite list_elem_of_fmap. split.
  - intros ([s' [id' k]] & [= -> ->] & [Hp Hin]%elem_of_filterb). exists k. split; [by apply elem_of_btree_to_list|done].
  - intros (k & Ea & Hp). exists (s, (id, k)). split; [done|]. apply elem_of_filterb. split; [done|]. by apply elem_of_btree_to_list.
Qed.

Lemma timers_sorted_fmap (l : list (Z * (Z * AKind))) : StronglySorted key_lt l -> StronglySorted key_lt (pair_of <$> l).
Proof.
  induction 1 as [|x l Hl IH Hx]; csimpl; constructor; [done|].
  rewrite Forall_forall in Hx. apply Forall_forall. intros y (z & -> & Hz)%list_elem_of_fmap. by apply (Hx z).
Qed.

Lemma timers_chosen_sorted p (a : pending) : StronglySorted key_lt (pair_of <$> chosen p a).
Proof. apply timers_sorted_fmap, strictly_sorted_filterb, btree_sorted. Qed.

Lemma timers_sorted_list l :
  NoDup l.*1 -> StronglySorted key_lt (if is_sorted_by_key l then l else sort_by_key l).
Proof.
  intros Hnd. apply strictly_sorted_of_NoDup.
  - destruct (is_sorted_by_key l) eqn:E.
    + apply Sorted_StronglySorted; [intros x y z; unfold key_le; lia|]. clear Hnd. induction l as [|x l IH]; [constructor|].
      constructor; [apply IH|]; destruct l as [|y l]; try done; simpl in E; apply andb_true_iff in E as [E1 E2]; [done|].
      constructor. by apply Z.leb_le.
    + apply (StronglySorted_merge_sort _).
  - destruct (is_sorted_by_key l); [done|]. unfold sort_by_key. by rewrite merge_sort_Permutation.
Qed.

Lemma timers_sort_in l x : x ∈ (if is_sorted_by_key l then l else sort_by_key l) <-> x ∈ l.
Proof. destruct (is_sorted_by_key l); [done|]. unfold sort_by_key. by rewrite merge_sort_Permutation. Qed.

Lemma keep_keep p1 p2 (a : pending) : keep p2 (keep p1 a) = keep (fun k => p1 k || p2 k) a.
Proof. apply keep_eq. intros s id k. rewrite !keep_lookup, orb_false_iff. tauto. Qed.

(** Taking the ready map out. *)
Lemma timers_take_ready q a :
  stores q a ->
  stores {| deadline_heap := deadline_heap q; deadline_targets := deadline_targets q; frame_buckets := frame_buckets q;
            ready := ∅; id_sequences := id_sequences q; locations := locations q; next_sequence := next_sequence q |}
         (keep is_ready a).
Proof.
  intros [Hnd Hlk Hhk Hh Hf Hb Hrd Ht Hlen]. split; try done; cbn [deadline_heap frame_buckets ready].
  - intros s id t. rewrite keep_lookup, Hh. split; [by intros|by intros []].
  - intros s id t. rewrite keep_lookup, Hf. split; [by intros|by intros []].
  - intros s id. rewrite keep_lookup, lookup_empty. split; [done|by intros []].
Qed.

(** The eligible list, before sorting: everything due, each once. *)
Lemma timers_eligible (a : pending) now frame deadlines frames r :
  (forall s id, r !! s = Some id <-> a !! s = Some (id, AReady)) ->
  handed (keep is_ready a) now deadlines -> NoDup frames.*1 ->
  (forall s id, (s, id) ∈ frames <-> exists t, t <= frame /\ keep (due_deadline now) (keep is_ready a) !! s = Some (id, AFrame t)) ->
  let l := btree_to_list r ++ (entry_pair <$> deadlines) ++ frames in
  NoDup l.*1 /\ forall s id, (s, id) ∈ l <-> exists k, a !! s = Some (id, k) /\ eligible now frame k = true.
Proof.
  intros Hr [Hnd Hd] Hndf Hf. cbv zeta.
  assert (Hr' : forall s id, (s, id) ∈ btree_to_list r <-> a !! s = Some (id, AReady)) by (intros; by rewrite elem_of_btree_to_list).
  assert (Hd' : forall s id, (s, id) ∈ entry_pair <$> deadlines <-> exists t, t <= now /\ a !! s = Some (id, ADeadline t)).
  { intros s id. rewrite list_elem_of_fmap. split.
    - intros ([id' s' t] & [= -> ->] & Hin). apply Hd in Hin as [Hin Ht]. apply keep_lookup in Hin as [Hin _]. by exists t.
    - intros (t & Ht & Ea). exists (mkEntry id s t). split; [done|]. apply Hd. split; [|done]. by apply keep_lookup. }
  assert (Hf' : forall s id, (s, id) ∈ frames <-> exists t, t <= frame /\ a !! s = Some (id, AFrame t)).
  { intros s id. rewrite Hf. split; intros (t & Ht & Ea); exists t; (split; [done|]); [by apply keep_lookup in Ea as [[Ea _]%keep_lookup _]|].
    by rewrite !keep_lookup. }
  split.
  - rewrite !fmap_app. rewrite <- list_fmap_compose. apply NoDup_app. split; [rewrite btree_to_list_perm; apply NoDup_fst_map_to_list|].
    split; [|apply NoDup_app; split; [exact Hnd|split; [|done]]].
    + intros s ([s1 id1] & -> & H1%Hr')%list_elem_of_fmap. simpl. rewrite elem_of_app.
      intros [([i2 s2 t2] & Es & Hin)%list_elem_of_fmap|([s2 id2] & Es & Hin)%list_elem_of_fmap]; simpl in Es; subst s2.
      * apply Hd in Hin as [[Hin _]%keep_lookup _]. congruence.
      * apply Hf' in Hin as (t & _ & Hin). congruence.
    + intros s ([i1 s1 t1] & -> & H1)%list_elem_of_fmap ([s2 id2] & Es & Hin)%list_elem_of_fmap. simpl in Es. subst s2.
      apply Hd in H1 as [[H1 _]%keep_lookup _]. apply Hf' in Hin as (t & _ & Hin). congruence.
  - intros s id. rewrite !elem_of_app, Hr', Hd', Hf'. split.
    + intros [Ea|[(t & Ht & Ea)|(t & Ht & Ea)]]; eexists; (split; [exact Ea|]); unfold eligible; simpl; try done.
      * apply Z.leb_le in Ht. by rewrite Ht.
      * by apply Z.leb_le.
    + intros ([t|t|] & Ea & He); unfold eligible in He; simpl in He; [right; left|right; right|by left]; exists t.
      * rewrite orb_false_r in He. by apply Z.leb_le in He.
      * by apply Z.leb_le in He.
Qed.

Lemma timers_unlink_fold ids (a : pending) (l : list (Z * Z)) :
  indexed ids a -> NoDup l.*1 -> (forall s id, (s, id) ∈ l -> exists k, a !! s = Some (id, k)) ->
  indexed (foldl (fun ids p => unlink_id_sequence ids p.2 p.1) ids l) (foldl (fun m p => delete p.1 m) a l).
Proof.
  revert ids a. induction l as [|[s id] l IH]; intros ids a Hix Hnd Hin; [done|]. cbn [foldl fst snd].
  rewrite fmap_cons in Hnd. apply NoDup_cons in Hnd as [Hni Hnd]. destruct (Hin s id) as [k Ea]; [in_list|].
  apply IH; [by eapply timers_unlink|done|]. intros s' id' Hin'. destruct (Hin s' id') as [k' Ea']; [in_list|].
  exists k'. rewrite lookup_delete_ne; [done|]. intros Es. apply Hni. rewrite Es. apply list_elem_of_fmap. by exists (s', id').
Qed.

Lemma foldl_delete_lookup {A} (m : gmap Z A) (l : list (Z * Z)) s :
  foldl (fun m p => delete p.1 m) m l !! s = if bool_decide (s ∈ l.*1) then None else m !! s.
Proof.
  revert m. induction l as [|[k v] l IH]; intros m; [done|]. cbn [foldl fst]. rewrite IH, fmap_cons.
  destruct (decide (s = k)) as [->|Hne].
  - rewrite lookup_delete_eq. rewrite (bool_decide_true (k ∈ _ :: _)) by in_list. by case_bool_decide.
  - rewrite lookup_delete_ne by done. erewrite bool_decide_ext; [done|]. rewrite elem_of_cons. simpl. tauto.
Qed.

Lemma timers_drain_fold ids (locs : gmap Z EntryLocation) (l : list (Z * Z)) :
  foldl (fun '(ids, locs) '(sequence, id) => (unlink_id_sequence ids id sequence, delete sequence locs)) (ids, locs) l =
  (foldl (fun ids p => unlink_id_sequence ids p.2 p.1) ids l, foldl (fun m p => delete p.1 m) locs l).
Proof. revert ids locs. induction l as [|[s id] l IH]; intros ids locs; simpl; [done|]. apply IH. Qed.

Lemma timers_size q a : located q a -> size (locations q) = size a.
Proof.
  intros Hlo. rewrite <- !size_dom. f_equal. apply set_eq. intros s. rewrite !elem_of_dom. apply (lo_dom _ _ Hlo).
Qed.

(** Everything pending is chosen exactly when the chosen list is as long as the map. *)
Lemma timers_all_chosen p (a : pending) : length (chosen p a) = size a -> keep p a = ∅.
Proof.
  intros Hlen. apply map_eq. intros s. rewrite lookup_empty. destruct (keep p a !! s) as [[id k]|] eqn:E; [|done].
  apply keep_lookup in E as [Ea Hp]. unfold chosen in Hlen. rewrite <- length_btree_to_list in Hlen.
  assert (Hsub : forall (l : list (Z * (Z * AKind))) f, length (filterb f l) = length l -> filterb f l = l).
  { clear. induction l as [|x l IH]; intros f H; [done|]. simpl in *. destruct (f x).
    - f_equal. apply IH. simpl in H. lia.
    - pose proof (filterb_length_le f l). lia. }
  apply Hsub in Hlen. apply elem_of_btree_to_list in Ea. rewrite <- Hlen in Ea. apply elem_of_filterb in Ea as [Ea _]. simpl in Ea. congruence.
Qed.

Lemma timers_due q a now frame :
  represents q a ->
  exists q', due q now frame = Some (q', (s_due a now frame).2) /\ represents q' (s_due a now frame).1 /\
    next_sequence q' = next_sequence q.
Proof.
  intros [Hs Hlo Hix Hk]. unfold due, s_due. set (q0 := mkQueue _ _ _ ∅ _ _ _).
  destruct (timers_take_deadlines q0 _ now (timers_take_ready q a Hs)) as (q1 & dl & -> & Hs1 & Hd & Ho1 & (R1 & R2 & R3 & R4)).
  destruct (timers_take_due_frames q1 _ frame Hs1) as (q2 & fr & -> & Hs2 & Hndf & Hf & S1 & S2 & S3 & S4).
  rewrite !keep_keep in Hs2.
  assert (Ek : forall b, b = keep (eligible now frame) a -> stores q2 b -> stores q2 (keep (eligible now frame) a)) by (intros b ->; done).
  apply Ek in Hs2; [clear Ek|apply keep_eq; intros s id k; rewrite keep_lookup; unfold eligible; by rewrite orb_assoc].
  destruct (timers_eligible a now frame dl fr (ready q) (st_ready _ _ Hs) Hd Hndf Hf) as [Hnd Hin].
  set (l1 := btree_to_list (ready q) ++ (entry_pair <$> dl) ++ fr) in *.
  assert (Hl : (if is_sorted_by_key l1 then l1 else sort_by_key l1) = pair_of <$> chosen (eligible now frame) a).
  { apply strictly_sorted_unique; [by apply timers_sorted_list|apply timers_chosen_sorted|]. intros [s id].
    rewrite timers_sort_in, Hin, timers_chosen_in. done. }
  rewrite Hl. set (l := pair_of <$> chosen (eligible now frame) a) in *.
  assert (Hndl : NoDup l.*1) by (rewrite <- Hl; destruct (is_sorted_by_key l1); [done|unfold sort_by_key; by rewrite merge_sort_Permutation]).
  assert (Hinl : forall s id, (s, id) ∈ l <-> exists k, a !! s = Some (id, k) /\ eligible now frame k = true) by (intros; apply timers_chosen_in).
  assert (Hgone : forall s, s ∈ l.*1 <-> exists id k, a !! s = Some (id, k) /\ eligible now frame k = true).
  { intros s. rewrite list_elem_of_fmap. split.
    - intros ([s' id] & -> & (k & Hx)%Hinl). by exists id, k.
    - intros (id & k & Hx). exists (s, id). split; [done|]. apply Hinl. by exists k. }
  assert (Hsnd : l.*2 = (fun kv => kv.2.1) <$> chosen (eligible now frame) a) by (unfold l; by rewrite <- list_fmap_compose).
  assert (Hdel : foldl (fun m p => delete p.1 m) a l = keep (eligible now frame) a).
  { apply keep_eq. intros s id k. rewrite foldl_delete_lookup. case_bool_decide as Hb.
    - split; [done|]. intros [Ea Hp]. apply Hgone in Hb as (id' & k' & Ea' & Hp'). congruence.
    - split; [|by intros []]. intros Ea. split; [done|]. apply not_true_iff_false. intros Hp. apply Hb, Hgone. by exists id, k. }
  pose proof (timers_unlink_fold _ _ l Hix Hndl) as Hix'. rewrite Hdel in Hix'. rewrite timers_drain_fold.
  (* what remains is located by [locations q1] minus the drained sequences *)
  assert (Hloc : forall locs' ids', (forall s, is_Some (keep (eligible now frame) a !! s) -> locs' !! s = locations q2 !! s) ->
            (forall s, keep (eligible now frame) a !! s = None -> locs' !! s = None) -> indexed ids' (keep (eligible now frame) a) ->
            represents (mkQueue (deadline_heap q2) (deadline_targets q2) (frame_buckets q2) (ready q2) ids' locs' (next_sequence q2)) (keep (eligible now frame) a)).
  { intros locs' ids' Hsame Hnone Hixx.
    assert (Hs3 : stores (mkQueue (deadline_heap q2) (deadline_targets q2) (frame_buckets q2) (ready q2) ids' locs' (next_sequence q2)) (keep (eligible now frame) a)).
    { destruct Hs2 as [? Hlk ? Hh ? ? ? ? ?]. split; try done. intros i e Hi. cbn in *. rewrite Hsame; [by apply Hlk|].
      assert (e ∈ deadline_heap q2) as He by by eapply list_elem_of_lookup_2. destruct e as [ei es et]. apply Hh in He. by eexists. }
    split; [done| |done|].
    - apply (timers_located_sub q _ a); try done.
      + intros s Hns Hsome. cbn. rewrite Hsame by done. rewrite S1. by apply Ho1.
      + intros s id k. rewrite keep_lookup. tauto.
    - intros s [[id k] E]. cbn. rewrite S3, R4. apply Hk. apply keep_lookup in E as [E _]. by eexists. }
  destruct (length l =? size (locations q))%nat eqn:Eall.
  - apply Nat.eqb_eq in Eall. rewrite (timers_size q a Hlo) in Eall. unfold l in Eall. rewrite length_fmap in Eall.
    apply timers_all_chosen in Eall. eexists. split; [by rewrite Hsnd|]. cbn [fst snd]. split; [|cbn; by rewrite S3, R4].
    apply Hloc; rewrite Eall.
    + intros s. rewrite lookup_empty. by intros [].
    + intros s _. apply lookup_empty.
    + apply timers_new_represents.
  - eexists. split; [by rewrite Hsnd|]. cbn [fst snd]. split; [|cbn; by rewrite S3, R4]. apply Hloc.
    + intros s [[id k] E]. rewrite foldl_delete_lookup. rewrite bool_decide_false; [done|]. rewrite Hgone.
      apply keep_lookup in E as [E Hp]. intros (id' & k' & E' & Hp'). congruence.
    + intros s E. rewrite foldl_delete_lookup. case_bool_decide as Hb; [done|]. rewrite S1.
      assert (Ea : a !! s = None).
      { destruct (a !! s) as [[id k]|] eqn:Ea; [|done]. destruct (eligible now frame k) eqn:Ee.
        - destruct Hb. apply Hgone. by exists id, k.
        - assert (keep (eligible now frame) a !! s = Some (id, k)) by by apply keep_lookup. congruence. }
      rewrite Ho1; [exact (timers_no_location q a s Hlo Ea)|]. cbn. rewrite (timers_heap_seqs q a) by done. intros (? & ? & ?). congruence.
    + rewrite S2, R3. apply Hix'. intros s id (k & Ea & _)%Hinl. by exists k.
Qed.
(** ** Bounded drains *)
Lemma foldl_insert_lookup {A} (f : Z * Z -> A) (m : gmap Z A) (l : list (Z * Z)) s :
  NoDup l.*1 ->
  foldl (fun m p => <[p.1 := f p]> m) m l !! s =
    match list_find (fun p => p.1 = s) l with Some (_, p) => Some (f p) | None => m !! s end.
Proof.
  intros Hnd. revert m. induction l as [|[k v] l IH]; intros m; [done|]. cbn [foldl].
  rewrite fmap_cons in Hnd. apply NoDup_cons in Hnd as [Hni Hnd]. rewrite IH by done. simpl. case_decide as E.
  - subst s. rewrite lookup_insert_eq. destruct (list_find _ l) as [[i p]|] eqn:El; [|done]. apply list_find_Some in El as (El & Ep & _).
    destruct Hni. simpl. rewrite <- Ep. apply list_elem_of_fmap_2. by eapply list_elem_of_lookup_2.
  - rewrite lookup_insert_ne by done. by destruct (list_find _ l) as [[i p]|].
Qed.

Lemma timers_insert_fold_in {A} (f : Z * Z -> A) (m : gmap Z A) (l : list (Z * Z)) s id :
  NoDup l.*1 -> (s, id) ∈ l -> foldl (fun m p => <[p.1 := f p]> m) m l !! s = Some (f (s, id)).
Proof.
  intros Hnd Hin. rewrite (foldl_insert_lookup f) by done.
  destruct (list_find _ l) as [[i p]|] eqn:El.
  - apply list_find_Some in El as (El & Ep & _). f_equal. f_equal. apply list_elem_of_lookup in Hin as [j Hj].
    assert (i = j) as ->; [|congruence]. eapply (NoDup_lookup _ _ _ s Hnd); rewrite list_lookup_fmap_Some; [by exists p|by exists (s, id)].
  - apply list_find_None in El. rewrite Forall_forall in El. by destruct (El _ Hin).
Qed.

Lemma timers_insert_fold_out {A} (f : Z * Z -> A) (m : gmap Z A) (l : list (Z * Z)) s :
  s ∉ l.*1 -> foldl (fun m p => <[p.1 := f p]> m) m l !! s = m !! s.
Proof.
  intros Hni. revert m. induction l as [|[k v] l IH]; intros m; [done|]. cbn [foldl fst]. rewrite fmap_cons, not_elem_of_cons in Hni.
  destruct Hni as [Hne Hni]. rewrite IH by done. by rewrite lookup_insert_ne.
Qed.

Lemma mark_lookup p (a : pending) s id k :
  mark p a !! s = Some (id, k) <-> exists k0, a !! s = Some (id, k0) /\ k = (if p k0 then AReady else k0).
Proof.
  unfold mark. rewrite lookup_fmap, fmap_Some. split.
  - intros ([id0 k0] & E & Eq). exists k0. simpl in Eq. destruct (p k0); by injection Eq as -> ->.
  - intros (k0 & E & ->). exists (id, k0). split; [done|]. simpl. by destruct (p k0).
Qed.

(** Moving the chosen entries to the ready map. *)
Lemma timers_make_ready q a p l :
  stores q (keep p a) -> (forall k, p k = true -> k <> AReady) -> NoDup l.*1 ->
  (forall s id, (s, id) ∈ l <-> exists k, a !! s = Some (id, k) /\ p k = true) ->
  stores (make_ready q l) (mark p a).
Proof.
  intros [Hnd Hlk Hhk Hh Hf Hb Hrd Ht Hlen] Hp Hndl Hin.
  assert (Hkeep : forall s id k, k <> AReady -> mark p a !! s = Some (id, k) <-> keep p a !! s = Some (id, k)).
  { intros s id k Hk. rewrite mark_lookup, keep_lookup. split.
    - intros (k0 & E & ->). destruct (p k0) eqn:Ep; done.
    - intros [E Ep]. exists k. by rewrite Ep. }
  assert (Hout : forall s id k, keep p a !! s = Some (id, k) -> s ∉ l.*1).
  { intros s id k [E Ep]%keep_lookup ([s' id'] & -> & (k' & E' & Ep')%Hin)%list_elem_of_fmap. simpl in E. congruence. }
  split; cbn [make_ready deadline_heap locations frame_buckets ready deadline_targets next_sequence]; try done.
  - intros i e Hi. simpl in *. rewrite (timers_insert_fold_out (fun _ => AtReady)); [by apply Hlk|].
    assert (e ∈ deadline_heap q) as He by by eapply list_elem_of_lookup_2. destruct e as [ei es et]. apply Hh in He. by eapply Hout.
  - intros s id t. rewrite Hkeep by done. apply Hh.
  - intros s id t. rewrite Hkeep by done. apply Hf.
  - intros s id. rewrite mark_lookup. split.
    + intros E. destruct (decide (s ∈ l.*1)) as [Hs|Hs].
      * apply list_elem_of_fmap in Hs as ([s' id'] & -> & Hs). simpl in *. rewrite (timers_insert_fold_in snd _ l s' id') in E by done.
        injection E as ->. apply Hin in Hs as (k & Ea & Ep). exists k. by rewrite Ep.
      * rewrite (timers_insert_fold_out snd) in E by done. apply Hrd, keep_lookup in E as [Ea Ep]. exists AReady. by rewrite Ep.
    + intros (k0 & Ea & E). destruct (p k0) eqn:Ep.
      * by rewrite (timers_insert_fold_in snd _ l s id) by (done || (apply Hin; by exists k0)).
      * subst k0. rewrite (timers_insert_fold_out snd); [|eapply Hout; by apply keep_lookup]. apply Hrd. by apply keep_lookup.
Qed.

Lemma mark_mark p1 p2 (a : pending) :
  p1 AReady = false -> p2 AReady = false -> mark p2 (mark p1 a) = mark (fun k => p1 k || p2 k) a.
Proof.
  intros H1 H2. unfold mark. rewrite <- map_fmap_compose. apply map_fmap_ext. intros s [id k] _. simpl.
  destruct (p1 k) eqn:E1; simpl; by rewrite ?H2.
Qed.

(** One ready entry leaves: [ready], [locations] and the id index move together. *)
Lemma timers_drain_one q a s id :
  represents q a -> a !! s = Some (id, AReady) ->
  represents (mkQueue (deadline_heap q) (deadline_targets q) (frame_buckets q) (delete s (ready q))
     (unlink_id_sequence (id_sequences q) id s) (delete s (locations q)) (next_sequence q)) (delete s a).
Proof.
  intros [Hs Hlo Hix Hk] Ea. destruct (timers_remove_ready q a s id Hs Hlo Ea) as (q' & E & Hs' & Hlo' & _).
  injection E as <-. split.
  - destruct Hs'. by split.
  - destruct Hlo'. by split.
  - by eapply timers_unlink.
  - intros s'. rewrite lookup_delete_is_Some. intros [_ ?]. by apply Hk.
Qed.

Lemma timers_drain_ready fuel q a limit acc :
  represents q a -> (size (ready q) < fuel)%nat ->
  let taken := take (Z.to_nat (limit - Z.of_nat (length acc))) (btree_to_list (ready q)) in
  exists q', drain_ready fuel q limit acc = Some (q', acc ++ taken.*2) /\
    represents q' (foldl (fun m p => delete p.1 m) a taken) /\ next_sequence q' = next_sequence q.
Proof.
  revert q a acc. induction fuel as [|fuel IH]; intros q a acc Hr Hf; [lia|]. cbn [drain_ready]. cbv zeta.
  destruct (limit <=? Z.of_nat (length acc)) eqn:El.
  { apply Z.leb_le in El. replace (Z.to_nat (limit - Z.of_nat (length acc))) with 0%nat by lia. simpl. rewrite app_nil_r. by exists q. }
  apply Z.leb_gt in El. replace (Z.to_nat (limit - Z.of_nat (length acc))) with (S (Z.to_nat (limit - Z.of_nat (S (length acc))))) by lia.
  destruct (btree_to_list (ready q)) as [|[s id] l] eqn:Eb.
  - rewrite (proj2 (pop_first_None (ready q))); [simpl; rewrite app_nil_r; by exists q|].
    apply map_size_empty_iff. rewrite <- length_btree_to_list, Eb. done.
  - destruct (pop_first_cons _ _ _ _ Eb) as [-> Erest].
    assert (Ers : ready q !! s = Some id) by (apply elem_of_btree_to_list; rewrite Eb; in_list).
    assert (Ea : a !! s = Some (id, AReady)) by (by apply (st_ready _ _ (re_stores _ _ Hr))).
    destruct (IH _ _ (acc ++ [id]) (timers_drain_one q a s id Hr Ea)) as (q' & E & Hr' & Hn).
    { cbn [ready]. rewrite map_size_delete, Ers. simpl. assert (size (ready q) <> 0%nat); [|lia].
      rewrite map_size_ne_0_lookup. by exists s, id. }
    cbn [ready] in E, Hr'. rewrite Erest in E, Hr'. rewrite length_app in E, Hr'. simpl in E, Hr'.
    replace (Z.of_nat (length acc + 1)) with (Z.of_nat (S (length acc))) in E, Hr' by lia.
    rewrite E. exists q'. split; [|done]. cbn [take]. rewrite fmap_cons, <- app_assoc. done.
Qed.

(** Once the eligible entries sit in the ready map, the queue represents the marked entries. *)
Lemma timers_marked q q3 a p (moved : list Z) :
  represents q a -> stores q3 (mark p a) ->
  id_sequences q3 = id_sequences q -> next_sequence q3 = next_sequence q ->
  (forall s, s ∈ moved <-> exists id k, a !! s = Some (id, k) /\ k <> AReady /\ p k = true) ->
  (forall s, s ∈ moved -> locations q3 !! s = Some AtReady) ->
  (forall s, s ∉ moved -> s ∉ seqs (deadline_heap q) -> locations q3 !! s = locations q !! s) ->
  represents q3 (mark p a).
Proof.
  intros [Hs Hlo [Hset Hne] Hk] Hs3 Hids Hnext Hin Hl3 Hl4.
  assert (Hkept : forall s id k, a !! s = Some (id, k) -> k = AReady \/ p k = false -> s ∉ moved).
  { intros s id k Ea Hor (id' & k' & Ea' & ? & ?)%Hin. rewrite Ea in Ea'. injection Ea' as <- <-. destruct Hor; congruence. }
  split; [done| | |].
  - split.
    + intros s id t (k0 & Ea & E)%mark_lookup. destruct (p k0) eqn:Ee; [done|]. subst k0.
      rewrite Hl4; [by eapply (lo_frame _ _ Hlo)|by eapply Hkept; eauto|].
      rewrite (timers_heap_seqs q a) by done. intros (? & ? & ?). congruence.
    + intros s id (k0 & Ea & E)%mark_lookup. destruct (decide (s ∈ moved)) as [Hor|Hno]; [by apply Hl3|].
      assert (k0 = AReady) as ->.
      { destruct (p k0) eqn:Ee; [|done]. destruct k0 as [t|t|]; [..|done]; destruct Hno; apply Hin; eexists _, _; done. }
      rewrite Hl4; [by eapply (lo_ready _ _ Hlo)|done|]. rewrite (timers_heap_seqs q a) by done. intros (? & ? & ?). congruence.
    + intros s. unfold mark. rewrite lookup_fmap, fmap_is_Some. destruct (decide (s ∈ moved)) as [Hor|Hno].
      * rewrite Hl3 by done. apply Hin in Hor as (id & k & E & _). split; intros _; by eexists.
      * destruct (decide (s ∈ seqs (deadline_heap q))) as [Hh|Hh]; [|rewrite Hl4 by done; apply (lo_dom _ _ Hlo)].
        apply (timers_heap_seqs q a) in Hh as (id & t & Ea); [|done]. rewrite Ea. split; [by eexists|]. intros _.
        assert (Hm : mark p a !! s = Some (id, ADeadline t)).
        { apply mark_lookup. exists (ADeadline t). split; [done|]. destruct (p (ADeadline t)) eqn:Ee; [|done].
          destruct Hno. apply Hin. by exists id, (ADeadline t). }
        apply (st_heap _ _ Hs3) in Hm. apply list_elem_of_lookup in Hm as [i Hi].
        pose proof (st_locs _ _ Hs3 _ _ Hi) as E. simpl in E. rewrite E. by eexists.
  - rewrite Hids. split; [|done]. intros id s. rewrite Hset. setoid_rewrite mark_lookup.
    split; [intros [k E]; by eexists _, k|intros (? & k & E & _); by exists k].
  - intros s [[id k] (k0 & E & _)%mark_lookup]. rewrite Hnext. apply Hk. by eexists.
Qed.

Lemma timers_ready_in q l s : s ∈ l.*1 -> locations (make_ready q l) !! s = Some AtReady.
Proof.
  intros Hin. cbn [make_ready locations]. generalize (locations q) as m. clear q.
  induction l as [|[k v] l IH]; intros m; [by apply elem_of_nil in Hin|]. cbn [foldl fst].
  destruct (decide (s ∈ l.*1)) as [Hl|Hl]; [by apply IH|]. csimpl in Hin. apply elem_of_cons in Hin as [->|?]; [|done].
  etrans; [exact (timers_insert_fold_out (fun _ => AtReady) _ l k Hl)|]. apply lookup_insert_eq.
Qed.

Lemma timers_ready_out q l s : s ∉ l.*1 -> locations (make_ready q l) !! s = locations q !! s.
Proof. intros Hni. cbn [make_ready locations]. exact (timers_insert_fold_out (fun _ => AtReady) (locations q) l s Hni). Qed.

(** The two moves of [due_limited]: due deadlines, then due frames, become ready. *)
Lemma timers_move_due q a now frame :
  represents q a ->
  exists q1 dl q2 l2, take_due_deadlines q now = Some (q1, dl) /\
    take_due_frames (make_ready q1 (entry_pair <$> dl)) frame = Some (q2, l2) /\
    represents (make_ready q2 l2) (mark (eligible now frame) a) /\
    next_sequence q2 = next_sequence q.
Proof.
  intros Hr. pose proof Hr as [Hs Hlo Hix Hk].
  destruct (timers_take_deadlines q a now Hs) as (q1 & dl & E1 & Hs1 & [Hndd Hd] & Ho1 & (R1 & R2 & R3 & R4)).
  exists q1, dl. set (l1 := entry_pair <$> dl).
  assert (Hnd1 : NoDup l1.*1) by (unfold l1; rewrite <- list_fmap_compose; exact Hndd).
  assert (Hin1 : forall s id, (s, id) ∈ l1 <-> exists k, a !! s = Some (id, k) /\ due_deadline now k = true).
  { intros s id. unfold l1. rewrite list_elem_of_fmap. split.
    - intros ([id' s' t] & [= -> ->] & Hin). apply Hd in Hin as [Ea Ht]. exists (ADeadline t). split; [done|]. by apply Z.leb_le.
    - intros ([t|t|] & Ea & Ht); try done. exists (mkEntry id s t). split; [done|]. apply Hd. split; [done|]. by apply Z.leb_le. }
  pose proof (timers_make_ready q1 a (due_deadline now) l1 Hs1 ltac:(by intros [] ? ?) Hnd1 Hin1) as Hs1'.
  destruct (timers_take_due_frames _ _ frame Hs1') as (q2 & l2 & E2 & Hs2 & Hnd2 & Hf & S1 & S2 & S3 & S4).
  exists q2, l2.
  assert (Hin2 : forall s id, (s, id) ∈ l2 <-> exists k, mark (due_deadline now) a !! s = Some (id, k) /\ due_frame frame k = true).
  { intros s id. rewrite Hf. split.
    - intros (t & Ht & Ea). exists (AFrame t). split; [done|]. by apply Z.leb_le.
    - intros ([t|t|] & Ea & Ht); try done. exists t. split; [by apply Z.leb_le|done]. }
  pose proof (timers_make_ready q2 _ (due_frame frame) l2 Hs2 ltac:(by intros [] ? ?) Hnd2 Hin2) as Hs3.
  rewrite mark_mark in Hs3 by done.
  assert (Hmk : mark (fun k => due_deadline now k || due_frame frame k) a = mark (eligible now frame) a).
  { unfold mark. apply map_fmap_ext. intros s [id k] _. by destruct k. }
  rewrite Hmk in Hs3. split; [done|]. split; [done|].
  split; [|rewrite S3; cbn [make_ready next_sequence]; done].
  apply (timers_marked q _ a _ (l1.*1 ++ l2.*1)); try done.
  - cbn [make_ready id_sequences]. rewrite S2. exact R3.
  - cbn [make_ready next_sequence]. rewrite S3. exact R4.
  - intros s. rewrite elem_of_app, !list_elem_of_fmap. split.
    + intros [([s' i'] & -> & (k & E & Ek)%Hin1)|([s' i'] & -> & (k & (k0 & E & ->)%mark_lookup & Ek)%Hin2)]; simpl.
      * exists i', k. unfold eligible. rewrite Ek, orb_true_r. split_and!; [done|by intros ->|done].
      * exists i', k0. destruct (due_deadline now k0) eqn:Ed; [done|]. unfold eligible. rewrite Ek, orb_true_r. split_and!; [done|by intros ->|done].
    + intros (id & k & Ea & Hk' & Ek). destruct k as [t|t|]; [..|done]; unfold eligible in Ek; simpl in Ek.
      * left. exists (s, id). split; [done|]. apply Hin1. exists (ADeadline t). split; [done|]. by rewrite orb_false_r in Ek.
      * right. exists (s, id). split; [done|]. apply Hin2. exists (AFrame t). split; [|done]. apply mark_lookup. by exists (AFrame t).
  - intros s Hor. destruct (decide (s ∈ l2.*1)) as [H2|H2]; [by apply timers_ready_in|].
    rewrite timers_ready_out, S1 by done. apply timers_ready_in. apply elem_of_app in Hor. tauto.
  - intros s [H1 H2]%not_elem_of_app H3. rewrite timers_ready_out, S1, timers_ready_out by done. by apply Ho1.
Qed.

Lemma foldl_delete_pairs (l : list (Z * (Z * AKind))) (m : pending) :
  foldl (fun m kv => delete kv.1 m) m l = foldl (fun m p => delete p.1 m) m (pair_of <$> l).
Proof. revert m. induction l as [|x l IH]; intros m; [done|]. csimpl. apply IH. Qed.

Lemma timers_due_limited q a now frame limit :
  represents q a -> 0 <= limit ->
  exists q', due_limited q now frame limit = Some (q', (s_due_limited a now frame limit).2) /\
    represents q' (s_due_limited a now frame limit).1 /\ next_sequence q' = next_sequence q.
Proof.
  intros Hr Hlim. unfold due_limited, s_due_limited. destruct (limit =? 0); [by exists q|].
  destruct (timers_move_due q a now frame Hr) as (q1 & dl & q2 & l2 & -> & -> & Hr3 & S3).
  set (q3 := make_ready q2 l2) in *.
  destruct (timers_drain_ready (S (size (ready q3))) q3 _ limit [] Hr3 ltac:(lia)) as (q' & E & Hr' & Hn). simpl length in *. rewrite Z.sub_0_r in *.
  assert (Hl : btree_to_list (ready q3) = pair_of <$> chosen (eligible now frame) a).
  { apply btree_to_list_unique; [apply timers_chosen_sorted|]. intros s id.
    rewrite timers_chosen_in, (st_ready _ _ (re_stores _ _ Hr3)), mark_lookup.
    split; intros (k & Ea & Ek); exists k; (split; [done|]); [by rewrite Ek|]. destruct (eligible now frame k) eqn:Ee; [done|]. by subst k. }
  rewrite Hl, <- fmap_take in E, Hr'. exists q'. cbn [fst snd app] in *. rewrite E. split; [|split].
  - by rewrite <- list_fmap_compose.
  - by rewrite foldl_delete_pairs.
  - rewrite Hn. unfold q3. cbn [make_ready next_sequence]. done.
Qed.

(** ** Sequences of operations, in the code and in the specification *)
Inductive op := Push (id : Z) (k : TimerKind) | Remove (id : Z) | Due (now frame : Z) | DueLimited (now frame limit : Z).
Inductive answer := Pushed | Removed (b : bool) | Drained (ids : list Z).

Definition step (q : TimerQueue) (o : op) : option (TimerQueue * answer) :=
  match o with
  | Push id k => (fun q => (q, Pushed)) <$> push q id k
  | Remove id => (fun r => (r.1, Removed r.2)) <$> remove q id
  | Due now frame => (fun r => (r.1, Drained r.2)) <$> due q now frame
  | DueLimited now frame limit => (fun r => (r.1, Drained r.2)) <$> due_limited q now frame limit
  end.

Fixpoint run (q : TimerQueue) (os : list op) : option (TimerQueue * list answer) :=
  match os with
  | [] => Some (q, [])
  | o :: os =>
      match step q o with
      | None => None
      | Some (q, ans) => (fun r => (r.1, ans :: r.2)) <$> run q os
      end
  end.

(** The specification keeps the next insertion sequence beside the map. *)
Definition s_step (a : Z * pending) (o : op) : (Z * pending) * answer :=
  match o with
  | Push id k => ((a.1 + 1, s_push a.2 a.1 id k), Pushed)
  | Remove id => let r := s_remove a.2 id in ((a.1, r.1), Removed r.2)
  | Due now frame => let r := s_due a.2 now frame in ((a.1, r.1), Drained r.2)
  | DueLimited now frame limit => let r := s_due_limited a.2 now frame limit in ((a.1, r.1), Drained r.2)
  end.

Fixpoint s_run (a : Z * pending) (os : list op) : (Z * pending) * list answer :=
  match os with
  | [] => (a, [])
  | o :: os => let r := s_step a o in let t := s_run r.1 os in (t.1, r.2 :: t.2)
  end.

Definition is_push (o : op) : bool := match o with Push _ _ => true | _ => false end.
(** [limit] is a [usize]. *)
Definition op_ok (o : op) : Prop := match o with DueLimited _ _ limit => 0 <= limit | _ => True end.

Lemma timers_step q a o :
  represents q a -> op_ok o -> (is_push o = true -> next_sequence q < u64_max) ->
  exists q', step q o = Some (q', (s_step (next_sequence q, a) o).2) /\
    represents q' (s_step (next_sequence q, a) o).1.2 /\ next_sequence q' = (s_step (next_sequence q, a) o).1.1.
Proof.
  intros Hr Hok Hlt. destruct o as [id k|id|now frame|now frame limit]; cbn [step s_step op_ok is_push fst snd] in *.
  - destruct (timers_push q a id k Hr (Hlt eq_refl)) as (q' & -> & ? & ?). by exists q'.
  - destruct (timers_remove q a id Hr) as (q' & -> & ? & ?). by exists q'.
  - destruct (timers_due q a now frame Hr) as (q' & -> & ? & ?). by exists q'.
  - destruct (timers_due_limited q a now frame limit Hr Hok) as (q' & -> & ? & ?). by exists q'.
Qed.

Lemma timers_run q a os :
  represents q a -> Forall op_ok os -> next_sequence q + countb is_push os <= u64_max ->
  exists q', run q os = Some (q', (s_run (next_sequence q, a) os).2) /\
    represents q' (s_run (next_sequence q, a) os).1.2 /\ next_sequence q' = (s_run (next_sequence q, a) os).1.1.
Proof.
  revert q a. induction os as [|o os IH]; intros q a Hr Hok Hn; [by exists q|].
  apply Forall_cons in Hok as [Ho Hok]. rewrite countb_cons in Hn. pose proof (countb_nonneg is_push os).
  destruct (timers_step q a o Hr Ho) as (q1 & E & Hr1 & Hn1).
  { intros Hp. rewrite Hp in Hn. lia. }
  destruct (IH q1 _ Hr1 Hok) as (q' & E' & Hr' & Hn').
  { rewrite Hn1. destruct o; simpl in *; lia. }
  exists q'. cbn [run s_run]. rewrite E, E'. rewrite Hn1 in *.
  destruct (s_step (next_sequence q, a) o) as [[n1 a1] ans]. cbn [fst snd] in *. done.
Qed.

(** C1. The timer queue refines its specification: every sequence of pushes, removals, full drains
    and bounded drains on a fresh queue, with fewer pushes than [u64::MAX], runs without a panic
    (no index out of range, no [expect] failing, no loop out of fuel), answers exactly what the
    specification on a map from insertion sequence to (id, kind) answers, and ends in a queue that
    represents the specification's map: heap, frame buckets, ready map, target counts, locations and
    id index all agree with it, and [len] is its size. *)
Theorem timers_refine os :
  Forall op_ok os -> countb is_push os <= u64_max ->
  exists q, run new os = Some (q, (s_run (0, ∅) os).2) /\ represents q (s_run (0, ∅) os).1.2 /\
    len q = Z.of_nat (size (s_run (0, ∅) os).1.2).
Proof.
  intros Hok Hn. destruct (timers_run new ∅ os timers_new_represents Hok Hn) as (q & E & Hr & _).
  exists q. split; [exact E|]. split; [exact Hr|]. unfold len. f_equal. apply timers_size. by destruct Hr.
Qed.

Lemma timers_chosen_elem p (a : pending) s id k : (s, (id, k)) ∈ chosen p a <-> a !! s = Some (id, k) /\ p k = true.
Proof. unfold chosen. rewrite elem_of_filterb, elem_of_btree_to_list. simpl. tauto. Qed.

Lemma foldl_delete_keys (m : pending) (l : list (Z * (Z * AKind))) s v :
  foldl (fun m kv => delete kv.1 m) m l !! s = Some v <-> s ∉ l.*1 /\ m !! s = Some v.
Proof.
  revert m. induction l as [|x l IH]; intros m; csimpl.
  - split; [intros ?; split; [apply not_elem_of_nil|done]|by intros [_ ?]].
  - rewrite IH, lookup_delete_Some, not_elem_of_cons. split; intros; destruct_and?; split_and?; done.
Qed.

(** A bounded drain neither loses nor repeats a timer, keeps insertion order and stays within
    its budget: on any queue that represents a map, [due_limited] hands out the ids of a prefix,
    at most [limit] long, of the eligible timers sorted by insertion sequence; what stays pending is
    exactly the timers that are not eligible plus the eligible ones past the prefix, which the next
    drain, at any later or earlier time, finds ready. *)
Theorem timers_bounded_drain q a now frame limit :
  represents q a -> 0 < limit ->
  exists q' a' taken rest, due_limited q now frame limit = Some (q', taken.*2) /\ represents q' a' /\
    StronglySorted key_lt (taken ++ rest) /\ Z.of_nat (length taken) <= limit /\
    (rest <> [] -> Z.of_nat (length taken) = limit) /\
    (forall s id, (s, id) ∈ taken ++ rest <-> exists k, a !! s = Some (id, k) /\ eligible now frame k = true) /\
    (forall s id k, a' !! s = Some (id, k) <->
       (s, id) ∈ rest /\ k = AReady \/ a !! s = Some (id, k) /\ eligible now frame k = false).
Proof.
  intros Hr Hl. destruct (timers_due_limited q a now frame limit Hr ltac:(lia)) as (q' & E & Hr' & _).
  unfold s_due_limited in *. rewrite (proj2 (Z.eqb_neq limit 0)) in * by lia. cbn [fst snd] in *.
  set (ch := chosen (eligible now frame) a) in *. set (n := Z.to_nat limit) in *.
  pose proof (timers_chosen_sorted (eligible now frame) a) as Hs. fold ch in Hs.
  assert (Hch : (pair_of <$> take n ch) ++ (pair_of <$> drop n ch) = pair_of <$> ch) by (by rewrite <- fmap_app, take_drop).
  eexists q', (foldl _ _ (take n ch)), (pair_of <$> take n ch), (pair_of <$> drop n ch). rewrite Hch.
  split_and!; [|exact Hr'|exact Hs|..].
  - rewrite E. by rewrite <- list_fmap_compose.
  - rewrite length_fmap, length_take. lia.
  - intros Hne. rewrite length_fmap, length_take. assert (length (drop n ch) <> 0%nat) as Hd.
    { intros H0%length_zero_iff_nil. by rewrite H0 in Hne. }
    rewrite length_drop in Hd. lia.
  - intros s id. apply timers_chosen_in.
  - intros s id k. rewrite foldl_delete_keys, mark_lookup.
    assert (Hin : forall l, (s, id) ∈ pair_of <$> l -> s ∈ l.*1).
    { intros l ([s' [id' k']] & [= -> ->] & Hx)%list_elem_of_fmap. apply (list_elem_of_fmap_2 fst _ _ Hx). }
    assert (Hnd : NoDup ch.*1).
    { apply filterb_fmap_NoDup. rewrite btree_to_list_perm. apply NoDup_fst_map_to_list. }
    rewrite <- (take_drop n ch), fmap_app in Hnd. apply NoDup_app in Hnd as (_ & Hdis & _).
    split.
    + intros [Hni (k0 & Ea & Ek)]. destruct (eligible now frame k0) eqn:Ee; [|subst; by right].
      left. split; [|done]. assert (Hc : (s, (id, k0)) ∈ ch) by (by apply timers_chosen_elem).
      rewrite <- (take_drop n ch) in Hc. apply elem_of_app in Hc as [Hc|Hc]; [destruct Hni; apply (list_elem_of_fmap_2 fst _ _ Hc)|].
      apply (list_elem_of_fmap_2 pair_of _ _ Hc).
    + intros [[Hd ->]|[Ea Ee]].
      * split; [intros Ht; apply (Hdis s Ht); by apply Hin|]. apply list_elem_of_fmap in Hd as ([s' [id' k']] & [= -> ->] & Hx).
        assert (Hc : (s', (id', k')) ∈ ch) by (rewrite <- (take_drop n ch); apply elem_of_app; by right).
        apply timers_chosen_elem in Hc as [Ea Ee]. exists k'. by rewrite Ee.
      * split; [|exists k; by rewrite Ee]. intros ([s' [id' k']] & -> & Hx)%list_elem_of_fmap. simpl in *.
        assert (Hc : (s', (id', k')) ∈ ch) by (rewrite <- (take_drop n ch); apply elem_of_app; by left).
        apply timers_chosen_elem in Hc as [Ea' Ee']. congruence.
Qed.
End TimerQueue.

(** ** Concrete runs *)
Module TimerQueueExamples.
Import TimerQueue.

Definition os : list op :=
  [Push 1 (Deadline 50); Push 2 (Frame 3); Push 3 (Deadline 10); Push 1 (Deadline 20); Push 4 (Deadline 99);
   DueLimited 60 3 2; Remove 3; Due 60 3; Remove 4; Remove 4].

Example os_run : snd <$> run new os =
  Some [Pushed; Pushed; Pushed; Pushed; Pushed; Drained [1; 2]; Removed true; Drained [1]; Removed true; Removed false].
Proof. vm_compute. reflexivity. Qed.

Lemma timers_refine_witness : exists q, run new os = Some (q, (s_run (0, ∅) os).2) /\ len q = 0.
Proof.
  destruct (timers_refine os) as (q & E & _ & Hl).
  - repeat constructor; simpl; lia.
  - vm_compute. intros Hx. discriminate Hx.
  - exists q. split; [exact E|]. rewrite Hl. vm_compute. reflexivity.
Defined.

Definition q2 : TimerQueue := default new (fst <$> run new (take 2 os)).
Definition a2 : gmap Z (Z * AKind) := {[0 := (1, ADeadline 50); 1 := (2, AFrame 3)]}.

Lemma timers_bounded_drain_witness : exists q' taken, due_limited q2 60 3 1 = Some (q', taken) /\ Z.of_nat (length taken) <= 1.
Proof.
  assert (Hr : represents q2 a2).
  { destruct (timers_run new ∅ (take 2 os) timers_new_represents) as (q & E & Hr & _).
    - repeat constructor.
    - vm_compute. intros Hx. discriminate Hx.
    - unfold q2. rewrite E. exact Hr. }
  destruct (timers_bounded_drain q2 a2 60 3 1 Hr ltac:(lia)) as (q' & a' & taken & rest & E & _ & _ & Hl & _).
  exists q', taken.*2. split; [exact E|]. by rewrite length_fmap.
Defined.
End TimerQueueExamples.
