(* ===== verification/Interfaces.v ===== *)
(** The inter-plugin interface registry (core/src/interfaces.rs).

    [Semver] is the version check between a consumer's range and a producer's version, on the bytes
    of the UTF-8 strings. [Interfaces] is the registry: published interfaces with their subscribers,
    declared imports, availability watches, and the reverse-dependency unload order. A [HashMap] is a
    [gmap]; where the code iterates one, the model iterates [map_to_list], and the theorems do not
    depend on that order. Every operation that bumps the interop epoch takes the epoch and returns
    it bumped. *)
From S2P Require Import Prelude.
From S2P Require Import BTree.
From S2P Require Import Plugin.
From Stdlib Require Import Ascii.

Module Semver.

Definition bytes (l : list nat) : list ascii := ascii_of_nat <$> l.

(** [char::is_whitespace], as the UTF-8 encodings of the White_Space code points: U+0009..U+000D,
    U+0020, U+0085, U+00A0, U+1680, U+2000..U+200A, U+2028, U+2029, U+202F, U+205F, U+3000. *)
Definition whitespace : list (list ascii) :=
  bytes <$> ([[9]; [10]; [11]; [12]; [13]; [32]; [194; 133]; [194; 160]; [225; 154; 128]] ++
             ((fun n => [226; 128; n]) <$> [128; 129; 130; 131; 132; 133; 134; 135; 136; 137; 138; 168; 169; 175]) ++
             [[226; 129; 159]; [227; 128; 128]])%nat.

Fixpoint starts_with (p l : list ascii) : bool :=
  match p, l with
  | [], _ => true
  | a :: p, b :: l => Ascii.eqb a b && starts_with p l
  | _ :: _, [] => false
  end.

(** Drop the given byte sequences from the front while one of them is there. *)
Fixpoint strip (fuel : nat) (ps : list (list ascii)) (l : list ascii) : list ascii :=
  match fuel with
  | O => l
  | S fuel =>
      match find (fun p => starts_with p l) ps with
      | Some p => strip fuel ps (drop (length p) l)
      | None => l
      end
  end.

(** [str::trim]: from the front, then from the back. *)
Definition trim (l : list ascii) : list ascii :=
  let l1 := strip (length l) whitespace l in
  reverse (strip (length l1) (reverse <$> whitespace) (reverse l1)).

Definition is_ascii_digit (c : ascii) : bool :=
  let n := nat_of_ascii c in (48 <=? n)%nat && (n <=? 57)%nat.
Definition digit (c : ascii) : Z := Z.of_nat (nat_of_ascii c) - 48.

Fixpoint skip_non_digits (l : list ascii) : list ascii :=
  match l with
  | [] => []
  | c :: l' => if is_ascii_digit c then l else skip_non_digits l'
  end.

Fixpoint take_digits (l : list ascii) : list ascii :=
  match l with
  | [] => []
  | c :: l' => if is_ascii_digit c then c :: take_digits l' else []
  end.

(** [str::parse::<u32>] on ASCII digits: nothing to parse and overflow are errors. *)
Fixpoint parse_digits (acc : Z) (l : list ascii) : option Z :=
  match l with
  | [] => Some acc
  | c :: l' => let n := acc * 10 + digit c in if n <? 2 ^ 32 then parse_digits n l' else None
  end.
Definition parse_u32 (l : list ascii) : option Z := match l with [] => None | _ => parse_digits 0 l end.

Definition leading_major (s : string) : option Z := parse_u32 (take_digits (skip_non_digits (String.list_ascii_of_string s))).

Definition is_star (s : string) : bool := bool_decide (trim (String.list_ascii_of_string s) = bytes [42]%nat).

Definition version_satisfies (range version : string) : bool :=
  if is_star range then true
  else
    match leading_major range, leading_major version with
    | Some ra, Some va => ra =? va
    | _, _ => false
    end.

(** ** Lemmas *)
Definition decimal (l : list ascii) : Z := foldl (fun n c => n * 10 + digit c) 0 l.

Lemma digit_range c : is_ascii_digit c = true -> 0 <= digit c <= 9.
Proof. unfold is_ascii_digit, digit. rewrite andb_true_iff, !Nat.leb_le. lia. Qed.

Lemma semver_digits_grow l acc :
  Forall (fun c => is_ascii_digit c = true) l -> 0 <= acc -> acc <= foldl (fun n c => n * 10 + digit c) acc l.
Proof.
  intros H. revert acc. induction H as [|c l Hc _ IH]; intros acc Ha; simpl; [lia|].
  pose proof (digit_range c Hc). specialize (IH (acc * 10 + digit c) ltac:(lia)). lia.
Qed.

Lemma semver_parse_digits l acc :
  Forall (fun c => is_ascii_digit c = true) l -> 0 <= acc < 2 ^ 32 ->
  let n := foldl (fun n c => n * 10 + digit c) acc l in
  parse_digits acc l = if n <? 2 ^ 32 then Some n else None.
Proof.
  cbv zeta. intros H. revert acc. induction H as [|c l Hc Hl IH]; intros acc Ha; cbn [parse_digits foldl].
  - by rewrite (proj2 (Z.ltb_lt _ _)) by lia.
  - pose proof (digit_range c Hc). destruct (acc * 10 + digit c <? 2 ^ 32) eqn:E; bool_to_prop.
    + apply IH. lia.
    + pose proof (semver_digits_grow l (acc * 10 + digit c) Hl ltac:(lia)).
      by rewrite (proj2 (Z.ltb_ge _ _)) by lia.
Qed.

Lemma semver_skip pre l :
  Forall (fun c => is_ascii_digit c = false) pre -> (match l with c :: _ => is_ascii_digit c = true | [] => True end) ->
  skip_non_digits (pre ++ l) = l.
Proof.
  induction 1 as [|c pre Hc _ IH]; intros Hl; simpl.
  - destruct l as [|c l]; [done|]. simpl. by rewrite Hl.
  - rewrite Hc. by apply IH.
Qed.

Lemma semver_take ds post :
  Forall (fun c => is_ascii_digit c = true) ds -> (match post with c :: _ => is_ascii_digit c = false | [] => True end) ->
  take_digits (ds ++ post) = ds.
Proof.
  induction 1 as [|c ds Hc _ IH]; intros Hp; simpl.
  - destruct post as [|c post]; [done|]. simpl. by rewrite Hp.
  - rewrite Hc. f_equal. by apply IH.
Qed.

(** The major of a version or range is read as intended: after any operator or prefix without a
    digit, the first run of decimal digits, as a number, and [None] when there is no digit at all or
    the number does not fit a [u32]. *)
Theorem semver_leading_major s pre ds post :
  String.list_ascii_of_string s = pre ++ ds ++ post ->
  Forall (fun c => is_ascii_digit c = false) pre -> Forall (fun c => is_ascii_digit c = true) ds ->
  (match post with c :: _ => is_ascii_digit c = false | [] => True end) -> (ds = [] -> post = []) ->
  leading_major s = match ds with [] => None | _ => if decimal ds <? 2 ^ 32 then Some (decimal ds) else None end.
Proof.
  intros Hs Hpre Hds Hpost Hnil. unfold leading_major. rewrite Hs, semver_skip; [|done|].
  - rewrite semver_take by done. destruct ds as [|c ds]; [done|]. unfold parse_u32, decimal.
    apply semver_parse_digits; [done|lia].
  - destruct ds as [|c ds]; [by rewrite Hnil|]. simpl. by inversion Hds.
Qed.

Lemma semver_prefix_free :
  forallb (fun p => forallb (fun p' => implb (starts_with p p' || starts_with p' p) (bool_decide (p = p'))) whitespace) whitespace = true.
Proof. vm_compute. reflexivity. Qed.
Lemma semver_suffix_free :
  let ws := reverse <$> whitespace in
  forallb (fun p => forallb (fun p' => implb (starts_with p p' || starts_with p' p) (bool_decide (p = p'))) ws) ws = true.
Proof. vm_compute. reflexivity. Qed.

Lemma starts_with_app p l : starts_with p (p ++ l) = true.
Proof. induction p as [|a p IH]; simpl; [done|]. by rewrite Ascii.eqb_refl. Qed.

Lemma starts_with_two p p' l : starts_with p' (p ++ l) = true -> starts_with p p' || starts_with p' p = true.
Proof.
  revert p'. induction p as [|a p IH]; intros p'; [done|]. destruct p' as [|b p']; simpl; [done|].
  intros [->%Ascii.eqb_eq H]%andb_true_iff. rewrite Ascii.eqb_refl. by apply IH.
Qed.

(** On a prefix-free code, stripping removes any number of code words. *)
Lemma semver_strip ps fuel ws l :
  forallb (fun p => forallb (fun p' => implb (starts_with p p' || starts_with p' p) (bool_decide (p = p'))) ps) ps = true ->
  Forall (fun p => p <> []) ps -> Forall (fun w => w ∈ ps) ws -> find (fun p => starts_with p l) ps = None ->
  (length (mjoin ws) <= fuel)%nat -> strip fuel ps (mjoin ws ++ l) = l.
Proof.
  intros Hfree Hne Hws Hl. revert fuel. induction Hws as [|w ws Hw _ IH]; intros fuel Hf.
  - simpl. destruct fuel; [done|]. simpl. by rewrite Hl.
  - change (mjoin (w :: ws)) with (w ++ mjoin ws) in *. rewrite length_app in Hf.
    assert (Hlen : length w <> 0%nat) by (rewrite Forall_forall in Hne; specialize (Hne w Hw); by destruct w).
    destruct fuel as [|fuel]; [lia|]. rewrite <- app_assoc. simpl.
    destruct (find (fun p => starts_with p (w ++ mjoin ws ++ l)) ps) as [p|] eqn:E.
    + apply find_some in E as [Hin%list_elem_of_In Hp].
      assert (p = w) as ->.
      { apply starts_with_two in Hp. rewrite forallb_forall in Hfree.
        apply list_elem_of_In in Hw. specialize (Hfree w Hw). rewrite forallb_forall in Hfree.
        apply list_elem_of_In in Hin. specialize (Hfree p Hin). rewrite Hp in Hfree. simpl in Hfree.
        by apply bool_decide_eq_true in Hfree. }
      rewrite drop_app_length. apply IH. lia.
    + apply list_elem_of_In in Hw. eapply find_none in E; [|exact Hw]. simpl in E. by rewrite starts_with_app in E.
Qed.

Lemma reverse_mjoin {A} (ws : list (list A)) : reverse (mjoin ws) = mjoin (reverse (reverse <$> ws)).
Proof.
  induction ws as [|w ws IH]; [done|]. change (mjoin (w :: ws)) with (w ++ mjoin ws). rewrite fmap_cons, reverse_cons, reverse_app, IH.
  rewrite join_app. f_equal. unfold mjoin. simpl. by rewrite app_nil_r.
Qed.

(** A range that is a star between any whitespace (the UTF-8 encodings of the Unicode White_Space
    code points, as [str::trim] strips them) is satisfied by every version. *)
Theorem semver_star_any ws1 ws2 s version :
  Forall (fun w => w ∈ whitespace) ws1 -> Forall (fun w => w ∈ whitespace) ws2 ->
  String.list_ascii_of_string s = mjoin ws1 ++ bytes [42]%nat ++ mjoin ws2 -> version_satisfies s version = true.
Proof.
  intros H1 H2 Hs. unfold version_satisfies. assert (is_star s = true) as ->; [|done].
  apply bool_decide_eq_true. unfold trim. rewrite Hs.
  assert (Hne : Forall (fun p => p <> []) whitespace) by (apply Forall_forall; intros p Hp ->; revert Hp; vm_compute; intros Hp; repeat (apply elem_of_cons in Hp as [Hp|Hp]; [done|]); by apply elem_of_nil in Hp).
  rewrite (semver_strip whitespace); [|apply semver_prefix_free|done|done|vm_compute; reflexivity|].
  2:{ rewrite !length_app. lia. }
  rewrite reverse_app, reverse_mjoin. rewrite semver_strip; [by vm_compute|apply semver_suffix_free|..].
  - apply Forall_fmap. eapply Forall_impl; [exact Hne|]. intros p Hp E. simpl in E. apply (f_equal reverse) in E. by rewrite reverse_involutive in E.
  - apply Forall_reverse, Forall_fmap. eapply Forall_impl; [exact H2|]. intros w Hw. by apply list_elem_of_fmap_2.
  - vm_compute. reflexivity.
  - rewrite <- reverse_mjoin, !length_app, !length_reverse. lia.
Qed.
End Semver.

Module Interfaces.
Import Semver.

Inductive Kind := Hard | Optional_.
Inductive CallTarget := Ok_ | Unavailable | VersionMismatch | TypesMismatch.

#[global] Instance Kind_eq_dec : EqDecision Kind.
Proof. solve_decision. Defined.
#[global] Instance CallTarget_eq_dec : EqDecision CallTarget.
Proof. solve_decision. Defined.

Record Subscriber := mkSub { sub_id : Z; consumer_id : string; consumer_gen : Z; event : string }.

Record InterfaceEntry := mkEntry {
  version : string;
  types_sha256 : string;
  producer_id : string;
  producer_gen : Z;
  method_names : list string;
  subscribers : list Subscriber;
}.

Record ImportSpec := mkSpec { i_name : string; i_range : string; i_kind : Kind; i_sha : option string }.
Record ImportDecl := mkDecl { d_range : string; d_kind : Kind; d_sha : option string }.

Record AvailabilityWatch := mkWatch {
  w_id : Z; w_name : string; w_consumer_id : string; w_consumer_gen : Z; attempted : option (string * Z);
}.

Record InterfaceRegistry := mkRegistry {
  watches_ : gmap Z AvailabilityWatch;
  ifaces : gmap string InterfaceEntry;
  imports : gmap string (gmap string ImportDecl);
  import_order : gmap string (list string);
}.

Definition new : InterfaceRegistry := mkRegistry ∅ ∅ ∅ ∅.
Definition with_ifaces (r : InterfaceRegistry) (m : gmap string InterfaceEntry) : InterfaceRegistry :=
  mkRegistry (watches_ r) m (imports r) (import_order r).
Definition with_watches (r : InterfaceRegistry) (m : gmap Z AvailabilityWatch) : InterfaceRegistry :=
  mkRegistry m (ifaces r) (imports r) (import_order r).
Definition with_subs (e : InterfaceEntry) (l : list Subscriber) : InterfaceEntry :=
  mkEntry (version e) (types_sha256 e) (producer_id e) (producer_gen e) (method_names e) l.

(** ** Publishing *)
Definition taken_message (name holder producer : string) : string :=
  "interface '" +:+ name +:+ "' is already published by '" +:+ holder +:+ "' — '" +:+ producer +:+
  "' cannot also publish it (implementations are alternatives; load only one)".

Definition publish (epoch : Z) (r : InterfaceRegistry) (name ver types producer : string) (gen : Z)
    (methods : list string) : Z * InterfaceRegistry * (unit + string) :=
  let epoch := InteropSlots.bump_epoch epoch in
  let refused := match ifaces r !! name with
                 | Some existing => negb (String.eqb (producer_id existing) producer)
                 | None => false
                 end in
  if refused then
    (epoch, r, inr (taken_message name (default "" (producer_id <$> ifaces r !! name)) producer))
  else
    let subs := default [] (subscribers <$> ifaces r !! name) in
    (epoch, with_ifaces r (<[name := mkEntry ver types producer gen methods subs]> (ifaces r)), inl ()).

Definition lookup (r : InterfaceRegistry) (name : string) : option InterfaceEntry := ifaces r !! name.

Fixpoint remove_names (m : gmap string InterfaceEntry) (names : list string)
    : gmap string InterfaceEntry * list (string * list Subscriber) :=
  match names with
  | [] => (m, [])
  | name :: names =>
      match m !! name with
      | Some e => let '(m', out) := remove_names (delete name m) names in (m', (name, subscribers e) :: out)
      | None => remove_names m names
      end
  end.

Definition remove_by_producer (epoch : Z) (r : InterfaceRegistry) (producer : string)
    : Z * InterfaceRegistry * list (string * list Subscriber) :=
  let names := (filterb (fun kv => String.eqb (producer_id kv.2) producer) (map_to_list (ifaces r))).*1 in
  let '(m, out) := remove_names (ifaces r) names in
  (InteropSlots.bump_epoch epoch, with_ifaces r m, out).

(** ** Imports *)
Definition set_imports (epoch : Z) (r : InterfaceRegistry) (plugin : string) (decls : list ImportSpec)
    : Z * InterfaceRegistry * list string :=
  let order := i_name <$> decls in
  let map := foldl (fun m s => <[i_name s := mkDecl (i_range s) (i_kind s) (i_sha s)]> m) ∅ decls in
  (InteropSlots.bump_epoch epoch,
   mkRegistry (watches_ r) (ifaces r) (<[plugin := map]> (imports r)) (<[plugin := order]> (import_order r)),
   default [] (import_order r !! plugin)).

Definition import_names (r : InterfaceRegistry) (plugin : string) : list string := default [] (import_order r !! plugin).

Definition clear_imports (epoch : Z) (r : InterfaceRegistry) (plugin : string) : Z * InterfaceRegistry :=
  (InteropSlots.bump_epoch epoch,
   mkRegistry (watches_ r) (ifaces r) (delete plugin (imports r)) (delete plugin (import_order r))).

Definition decl_of (r : InterfaceRegistry) (plugin name : string) : option ImportDecl :=
  match imports r !! plugin with Some m => m !! name | None => None end.
Definition dep_kind (r : InterfaceRegistry) (plugin name : string) : option Kind := d_kind <$> decl_of r plugin name.

(** ** Resolving a call *)
Definition call_target_inner (r : InterfaceRegistry) (plugin name : string) (method : option string) : CallTarget :=
  match decl_of r plugin name with
  | None => Unavailable
  | Some decl =>
      match ifaces r !! name with
      | None => Unavailable
      | Some entry =>
          if negb (version_satisfies (d_range decl) (version entry)) then VersionMismatch
          else
            let drifted := match d_sha decl with
                           | Some expected =>
                               negb (String.eqb (types_sha256 entry) "") && negb (String.eqb expected "") &&
                               negb (String.eqb expected (types_sha256 entry))
                           | None => false
                           end in
            if drifted then TypesMismatch
            else
              match method with
              | Some m => if existsb (fun n => String.eqb n m) (method_names entry) then Ok_ else Unavailable
              | None => Ok_
              end
      end
  end.

Definition is_available (r : InterfaceRegistry) (plugin name : string) : bool :=
  bool_decide (call_target_inner r plugin name None = Ok_).
Definition call_target (r : InterfaceRegistry) (plugin name method : string) : CallTarget :=
  call_target_inner r plugin name (Some method).
Definition bind_target (r : InterfaceRegistry) (plugin name : string) : CallTarget := call_target_inner r plugin name None.

Definition verified_import (r : InterfaceRegistry) (consumer name : string) : bool :=
  match ifaces r !! name with
  | None => false
  | Some entry =>
      match decl_of r consumer name with
      | Some (mkDecl _ _ (Some h)) => negb (String.eqb h "") && String.eqb h (types_sha256 entry)
      | _ => false
      end
  end.

(** ** Availability watches *)
Definition add_watch (r : InterfaceRegistry) (w : AvailabilityWatch) : InterfaceRegistry * bool :=
  if negb (bool_decide (dep_kind r (w_consumer_id w) (w_name w) = Some Optional_)) then (r, false)
  else (with_watches r (<[w_id w := w]> (watches_ r)), true).
Definition watches (r : InterfaceRegistry) : list AvailabilityWatch := (btree_to_list (watches_ r)).*2.
Definition watch (r : InterfaceRegistry) (id : Z) : option AvailabilityWatch := watches_ r !! id.
Definition remove_watch (r : InterfaceRegistry) (id : Z) : InterfaceRegistry * option AvailabilityWatch :=
  (with_watches r (delete id (watches_ r)), watches_ r !! id).
Definition attempt_watch (r : InterfaceRegistry) (id : Z) (provider : string * Z) : InterfaceRegistry :=
  match watches_ r !! id with
  | Some w => with_watches r (<[id := mkWatch (w_id w) (w_name w) (w_consumer_id w) (w_consumer_gen w) (Some provider)]> (watches_ r))
  | None => r
  end.

(** ** Subscribers *)
Definition is_sub (id : Z) (consumer : string) (generation : Z) (s : Subscriber) : bool :=
  (sub_id s =? id) && String.eqb (consumer_id s) consumer && (consumer_gen s =? generation).

Fixpoint remove_subscriber_loop (m : gmap string InterfaceEntry) (l : list (string * InterfaceEntry))
    (p : Subscriber -> bool) : gmap string InterfaceEntry * bool :=
  match l with
  | [] => (m, false)
  | (name, entry) :: l =>
      match position p (subscribers entry) with
      | Some index => (<[name := with_subs entry (vec_remove index (subscribers entry))]> m, true)
      | None => remove_subscriber_loop m l p
      end
  end.

Definition remove_subscriber (r : InterfaceRegistry) (id : Z) (consumer : string) (generation : Z)
    : InterfaceRegistry * bool :=
  let '(m, found) := remove_subscriber_loop (ifaces r) (map_to_list (ifaces r)) (is_sub id consumer generation) in
  (with_ifaces r m, found).

Definition add_subscriber (r : InterfaceRegistry) (name : string) (s : Subscriber) : InterfaceRegistry * bool :=
  match ifaces r !! name with
  | Some e => (with_ifaces r (<[name := with_subs e (subscribers e ++ [s])]> (ifaces r)), true)
  | None => (r, false)
  end.

Definition remove_subscribers_by_consumer (r : InterfaceRegistry) (consumer : string)
    : InterfaceRegistry * list (string * Z) :=
  let of_consumer s := String.eqb (consumer_id s) consumer in
  (with_ifaces r ((fun e => with_subs e (filterb (fun s => negb (of_consumer s)) (subscribers e))) <$> ifaces r),
   map_to_list (ifaces r) ≫= fun kv => (fun s => (kv.1, sub_id s)) <$> filterb of_consumer (subscribers kv.2)).

Definition remove_subscribers_by_consumer_on (r : InterfaceRegistry) (consumer name ev : string)
    : InterfaceRegistry * list Z :=
  match ifaces r !! name with
  | Some e =>
      let gone s := String.eqb (consumer_id s) consumer && String.eqb (event s) ev in
      (with_ifaces r (<[name := with_subs e (filterb (fun s => negb (gone s)) (subscribers e))]> (ifaces r)),
       sub_id <$> filterb gone (subscribers e))
  | None => (r, [])
  end.

Definition consumer_of_sub (r : InterfaceRegistry) (name : string) (id : Z) : option string :=
  match ifaces r !! name with
  | Some e => consumer_id <$> find (fun s => sub_id s =? id) (subscribers e)
  | None => None
  end.

Definition live_subscriber_ids (r : InterfaceRegistry) (name ev : string) (is_live : string -> Z -> bool) : list Z :=
  match ifaces r !! name with
  | None => []
  | Some e => sub_id <$> filterb (fun s => String.eqb (event s) ev && is_live (consumer_id s) (consumer_gen s)) (subscribers e)
  end.

Definition producer_of (r : InterfaceRegistry) (name : string) : option (string * Z) :=
  (fun e => (producer_id e, producer_gen e)) <$> ifaces r !! name.

(** ** Unload order *)
Definition imports_from (r : InterfaceRegistry) (consumer producer : string) : bool :=
  match imports r !! consumer with
  | None => false
  | Some decls =>
      existsb (fun kv => match ifaces r !! kv.1 with
                         | Some e => String.eqb (producer_id e) producer
                         | None => false
                         end) (map_to_list decls)
  end.

Definition unimported (r : InterfaceRegistry) (remaining : list string) (p : string) : bool :=
  negb (existsb (fun q => negb (String.eqb q p) && imports_from r q p) remaining).

(** The [while] loop; every round takes at least one plugin out of [remaining]. *)
Fixpoint unload_loop (fuel : nat) (r : InterfaceRegistry) (remaining order : list string) : option (list string) :=
  match fuel with
  | O => None
  | S fuel =>
      match remaining with
      | [] => Some order
      | _ =>
          match position (unimported r remaining) remaining with
          | Some i => match remaining !! i with
                      | Some p => unload_loop fuel r (vec_remove i remaining) (order ++ [p])
                      | None => None
                      end
          | None => unload_loop fuel r [] (order ++ remaining)
          end
      end
  end.

Definition unload_order (r : InterfaceRegistry) (ids : list string) : option (list string) :=
  unload_loop (S (length ids)) r ids [].

Definition clear (epoch : Z) (r : InterfaceRegistry) : Z * InterfaceRegistry := (InteropSlots.bump_epoch epoch, mkRegistry ∅ ∅ ∅ ∅).

(** ** Sequences of operations *)
Inductive op :=
| Publish (name ver types producer : string) (gen : Z) (methods : list string)
| RemoveByProducer (producer : string)
| SetImports (plugin : string) (decls : list ImportSpec)
| ClearImports (plugin : string)
| AddWatch (w : AvailabilityWatch)
| RemoveWatch (id : Z)
| AttemptWatch (id : Z) (provider : string * Z)
| AddSubscriber (name : string) (s : Subscriber)
| RemoveSubscriber (id : Z) (consumer : string) (generation : Z)
| RemoveByConsumer (consumer : string)
| RemoveByConsumerOn (consumer name ev : string)
| Clear.

Definition step (epoch : Z) (r : InterfaceRegistry) (o : op) : Z * InterfaceRegistry :=
  match o with
  | Publish name ver types producer gen methods => (publish epoch r name ver types producer gen methods).1
  | RemoveByProducer producer => (remove_by_producer epoch r producer).1
  | SetImports plugin decls => (set_imports epoch r plugin decls).1
  | ClearImports plugin => clear_imports epoch r plugin
  | AddWatch w => (epoch, (add_watch r w).1)
  | RemoveWatch id => (epoch, (remove_watch r id).1)
  | AttemptWatch id provider => (epoch, attempt_watch r id provider)
  | AddSubscriber name s => (epoch, (add_subscriber r name s).1)
  | RemoveSubscriber id consumer generation => (epoch, (remove_subscriber r id consumer generation).1)
  | RemoveByConsumer consumer => (epoch, (remove_subscribers_by_consumer r consumer).1)
  | RemoveByConsumerOn consumer name ev => (epoch, (remove_subscribers_by_consumer_on r consumer name ev).1)
  | Clear => clear epoch r
  end.

(** An entry without its subscribers: all that resolving a call reads. *)
Definition face (e : InterfaceEntry) : InterfaceEntry := with_subs e [].
(** The parts of the registry a binding depends on. *)
Definition same_bindings (r r' : InterfaceRegistry) : Prop :=
  imports r' = imports r /\ face <$> ifaces r' = face <$> ifaces r.

Definition subs_on (r : InterfaceRegistry) (name : string) : list Subscriber := default [] (subscribers <$> ifaces r !! name).

(** ** Lemmas *)
Lemma face_with_subs e l : face (with_subs e l) = face e.
Proof. done. Qed.

Lemma iface_face_lookup r r' name :
  face <$> ifaces r' = face <$> ifaces r -> face <$> ifaces r' !! name = face <$> ifaces r !! name.
Proof. intros E. apply (f_equal (fun m => m !! name)) in E. by rewrite !lookup_fmap in E. Qed.

Lemma iface_same_insert (m : gmap string InterfaceEntry) name e l :
  m !! name = Some e -> face <$> <[name := with_subs e l]> m = face <$> m.
Proof.
  intros E. rewrite fmap_insert, face_with_subs. apply insert_id. by rewrite lookup_fmap, E.
Qed.

Lemma iface_remove_sub_loop p (m : gmap string InterfaceEntry) l :
  (forall name e, (name, e) ∈ l -> m !! name = Some e) ->
  let r := remove_subscriber_loop m l p in
  (r.2 = false -> r.1 = m /\ forall name e, (name, e) ∈ l -> Forall (fun s => p s = false) (subscribers e)) /\
  (r.2 = true -> exists name e l1 s l2, m !! name = Some e /\ subscribers e = l1 ++ s :: l2 /\ p s = true /\
     Forall (fun s => p s = false) l1 /\ r.1 = <[name := with_subs e (l1 ++ l2)]> m).
Proof.
  cbv zeta. induction l as [|[name e] l IH]; intros Hl; cbn [remove_subscriber_loop].
  - split; [|done]. intros _. split; [done|]. intros ? ? Hin. by apply elem_of_nil in Hin.
  - destruct (position p (subscribers e)) as [i|] eqn:Ei.
    + split; [done|]. intros _. apply position_Some in Ei as (l1 & s & l2 & E & <- & Hp & Hl1).
      exists name, e, l1, s, l2. split_and!; try done; [apply Hl; in_list|]. cbn [fst]. by rewrite E, vec_remove_app.
    + apply position_None in Ei. destruct IH as [IH1 IH2]; [intros n e' Hin; apply Hl; in_list|]. split; [|exact IH2].
      intros Hf. destruct (IH1 Hf) as [Hm Hall]. split; [done|]. intros n e'. rewrite elem_of_cons. intros [[= -> ->]|Hin]; [done|]. by eapply Hall.
Qed.

Lemma iface_sub_ops_same r o :
  match o with
  | Publish _ _ _ _ _ _ | RemoveByProducer _ | SetImports _ _ | ClearImports _ | Clear => False
  | _ => True
  end -> forall epoch, same_bindings r (step epoch r o).2.
Proof.
  destruct o as [| | | |w|id|id provider|name s|id consumer generation|consumer|consumer name ev|]; intros Ho epoch; try done; cbn [step snd].
  - unfold add_watch. destruct (negb _); by split.
  - unfold attempt_watch. destruct (watches_ r !! id); by split.
  - unfold add_subscriber. destruct (ifaces r !! name) as [e|] eqn:E; [|by split]. split; [done|]. by apply iface_same_insert.
  - unfold remove_subscriber.
    pose proof (iface_remove_sub_loop (is_sub id consumer generation) (ifaces r) (map_to_list (ifaces r))) as Hl.
    cbv zeta in Hl. destruct (remove_subscriber_loop _ _ _) as [m found]. cbn [fst snd] in *.
    destruct Hl as [Hf Ht]; [intros name e Hin; by apply elem_of_map_to_list|]. split; [done|]. cbn [with_ifaces ifaces].
    destruct found; [|by destruct Hf as [-> _]]. destruct Ht as (name & e & l1 & s & l2 & E & _ & _ & _ & ->); [done|].
    by apply iface_same_insert.
  - split; [done|]. cbn [remove_subscribers_by_consumer fst with_ifaces ifaces]. rewrite <- map_fmap_compose. by apply map_fmap_ext.
  - unfold remove_subscribers_by_consumer_on. destruct (ifaces r !! name) as [e|] eqn:E; [|by split]. split; [done|]. by apply iface_same_insert.
Qed.

Lemma iface_same_targets r r' : same_bindings r r' ->
  forall plugin name method,
    call_target_inner r' plugin name method = call_target_inner r plugin name method /\
    producer_of r' name = producer_of r name /\ verified_import r' plugin name = verified_import r plugin name.
Proof.
  intros [Hi Hf] plugin name method. apply (iface_face_lookup r r' name) in Hf.
  unfold call_target_inner, producer_of, verified_import, decl_of. rewrite Hi.
  destruct (ifaces r' !! name) as [e'|], (ifaces r !! name) as [e|]; try done. injection Hf as E1 E2 E3 E4 E5.
  cbn [fmap option_fmap option_map]. rewrite E1, E2, E3, E4, E5. by split_and!.
Qed.

Lemma iface_face_of_same r r' name e :
  same_bindings r r' -> ifaces r !! name = Some e ->
  exists e', ifaces r' !! name = Some e' /\ producer_id e' = producer_id e /\ face e' = face e.
Proof.
  intros [_ Hf] E. apply (iface_face_lookup r r' name) in Hf. rewrite E in Hf.
  destruct (ifaces r' !! name) as [e'|]; [|done]. exists e'. injection Hf as ? ? ? ? ?. split_and!; try done.
  unfold face, with_subs. congruence.
Qed.

Lemma bump_epoch_moves epoch : - 2 ^ 31 <= epoch < 2 ^ 31 -> InteropSlots.bump_epoch epoch <> epoch.
Proof. unfold InteropSlots.bump_epoch, i32_wrap. intros ? E. Z.to_euclidean_division_equations. lia. Qed.

(** ** Properties *)

(** The interop epoch covers every binding: an operation that leaves the epoch as it was leaves
    every answer a cached binding rests on as it was: the call target of every consumer, interface
    and method, the producer with its generation, and whether an import is verified. *)
Theorem iface_epoch_covers_bindings epoch r o :
  - 2 ^ 31 <= epoch < 2 ^ 31 -> (step epoch r o).1 = epoch ->
  forall plugin name method,
    let r' := (step epoch r o).2 in
    call_target_inner r' plugin name method = call_target_inner r plugin name method /\
    producer_of r' name = producer_of r name /\ verified_import r' plugin name = verified_import r plugin name.
Proof.
  intros He Hsame plugin name method. cbv zeta. apply iface_same_targets, iface_sub_ops_same.
  pose proof (bump_epoch_moves epoch He) as Hb.
  destruct o as [n v t p g ms|p| | | | | | | | | |]; try done; revert Hsame; cbn [step set_imports clear_imports clear fst]; intros Hsame; try (by destruct Hb).
  - unfold publish in Hsame. destruct (match ifaces r !! n with Some _ => _ | None => _ end); by destruct Hb.
  - unfold remove_by_producer in Hsame. destruct (remove_names _ _). by destruct Hb.
Qed.

(** A call goes through exactly when the consumer declared the import, some producer publishes
    the interface, the version satisfies the declared range, the two contract hashes do not differ
    (one that is absent or empty is not compared) and the method is published; without the method the
    same condition makes the import available. *)
Theorem iface_call_target_ok r plugin name method :
  call_target r plugin name method = Ok_ <->
  exists decl entry, decl_of r plugin name = Some decl /\ ifaces r !! name = Some entry /\
    version_satisfies (d_range decl) (version entry) = true /\
    (forall h, d_sha decl = Some h -> h = "" \/ types_sha256 entry = "" \/ h = types_sha256 entry) /\
    method ∈ method_names entry.
Proof.
  unfold call_target, call_target_inner. split.
  - destruct (decl_of r plugin name) as [decl|]; [|done]. destruct (ifaces r !! name) as [entry|]; [|done].
    destruct (version_satisfies _ _) eqn:Ev; [|done]. cbn [negb]. 
    destruct (match d_sha decl with Some _ => _ | None => _ end) eqn:Ed; [done|]. destruct (existsb _ _) eqn:Em; [|done]. intros _.
    exists decl, entry. split_and!; try done.
    + intros h Eh. rewrite Eh in Ed. destruct (String.eqb_spec (types_sha256 entry) ""), (String.eqb_spec h ""),
        (String.eqb_spec h (types_sha256 entry)); simpl in Ed; tauto || done.
    + apply existsb_exists in Em as (n & Hn & ->%String.eqb_eq). by apply list_elem_of_In.
  - intros (decl & entry & -> & -> & -> & Hh & Hm). cbn [negb].
    assert (match d_sha decl with
            | Some expected => negb (String.eqb (types_sha256 entry) "") && negb (String.eqb expected "") &&
                               negb (String.eqb expected (types_sha256 entry))
            | None => false
            end = false) as ->.
    { destruct (d_sha decl) as [h|]; [|done]. destruct (Hh h eq_refl) as [->|[->| ->]]; rewrite ?String.eqb_refl; simpl; by rewrite ?andb_false_r. }
    assert (existsb (fun n => String.eqb n method) (method_names entry) = true) as ->; [|done].
    apply existsb_exists. exists method. split; [by apply list_elem_of_In|apply String.eqb_refl].
Qed.

Lemma iface_remove_names (m : gmap string InterfaceEntry) names :
  NoDup names -> (forall n, n ∈ names -> is_Some (m !! n)) ->
  let r := remove_names m names in
  (forall n, r.1 !! n = if decide (n ∈ names) then None else m !! n) /\
  r.2 = (fun n => (n, default [] (subscribers <$> m !! n))) <$> names.
Proof.
  cbv zeta. intros Hnd. revert m. induction Hnd as [|n names Hni Hnd IH]; intros m Hin; cbn [remove_names]; [done|].
  destruct (Hin n) as [e E]; [by left|]. rewrite E.
  destruct (IH (delete n m)) as [H1 H2].
  { intros k Hk. rewrite lookup_delete_ne by (by intros ->). apply Hin. by right. }
  destruct (remove_names (delete n m) names) as [m' out]. cbn [fst snd] in *. split.
  - intros k. rewrite H1. destruct (decide (k = n)) as [->|Hne].
    + rewrite lookup_delete_eq. destruct (decide (n ∈ n :: names)) as [_|Hc]; [by destruct (decide (n ∈ names))|destruct Hc; by left].
    + rewrite lookup_delete_ne by done. destruct (decide (k ∈ names)); [rewrite decide_True; [done|by right]|].
      rewrite decide_False; [done|]. rewrite elem_of_cons. tauto.
  - rewrite fmap_cons, E, H2. f_equal. apply list_fmap_ext. intros i k Hk%list_elem_of_lookup_2.
    by rewrite lookup_delete_ne by (by intros ->).
Qed.

Lemma iface_produced_names (m : gmap string InterfaceEntry) producer :
  NoDup (filterb (fun kv => String.eqb (producer_id kv.2) producer) (map_to_list m)).*1 /\
  forall n, n ∈ (filterb (fun kv => String.eqb (producer_id kv.2) producer) (map_to_list m)).*1 <->
            exists e, m !! n = Some e /\ producer_id e = producer.
Proof.
  split; [apply filterb_fmap_NoDup, NoDup_fst_map_to_list|]. intros n. rewrite list_elem_of_fmap. split.
  - intros ([k e] & -> & [Hp%String.eqb_eq Hin%elem_of_map_to_list]%elem_of_filterb). by exists e.
  - intros (e & E & Hp). exists (n, e). split; [done|]. apply elem_of_filterb. split; [by apply String.eqb_eq|by apply elem_of_map_to_list].
Qed.

Lemma iface_remove_by_producer epoch r producer :
  let '(_, r', out) := remove_by_producer epoch r producer in
  (forall n, ifaces r' !! n = match ifaces r !! n with
                              | Some e => if String.eqb (producer_id e) producer then None else Some e
                              | None => None
                              end) /\
  imports r' = imports r /\ watches_ r' = watches_ r /\ NoDup out.*1 /\
  (forall n l, (n, l) ∈ out <-> exists e, ifaces r !! n = Some e /\ producer_id e = producer /\ l = subscribers e).
Proof.
  unfold remove_by_producer. destruct (iface_produced_names (ifaces r) producer) as [Hnd Hin].
  set (names := (filterb _ _).*1) in *.
  destruct (iface_remove_names (ifaces r) names Hnd) as [H1 H2]; [intros n (e & E & _)%Hin; by exists e|].
  destruct (remove_names (ifaces r) names) as [m out]. cbn [fst snd with_ifaces ifaces imports watches_] in *. split_and!; try done.
  - intros n. rewrite H1. destruct (decide (n ∈ names)) as [Hn|Hn].
    + apply Hin in Hn as (e & -> & <-). by rewrite String.eqb_refl.
    + destruct (ifaces r !! n) as [e|] eqn:E; [|done]. destruct (String.eqb_spec (producer_id e) producer); [|done].
      destruct Hn. apply Hin. by exists e.
  - rewrite H2, <- list_fmap_compose. by rewrite list_fmap_id.
  - intros n l. rewrite H2, list_elem_of_fmap. split.
    + intros (k & [= -> ->] & (e & E & Hp)%Hin). exists e. by rewrite E.
    + intros (e & E & Hp & ->). exists n. rewrite E. split; [done|]. apply Hin. by exists e.
Qed.

(** Removing one subscriber by identity (id, consumer, generation) removes the first matching
    subscription of one interface and leaves every other subscription in place and in order; when it
    answers [false] there was none to remove and nothing changed. *)
Theorem iface_remove_subscriber_exact r id consumer generation :
  let '(r', found) := remove_subscriber r id consumer generation in
  let p := is_sub id consumer generation in
  if found then
    exists name l1 s l2, subs_on r name = l1 ++ s :: l2 /\ p s = true /\ Forall (fun s => p s = false) l1 /\
      subs_on r' name = l1 ++ l2 /\ (forall other, other <> name -> ifaces r' !! other = ifaces r !! other) /\
      face <$> ifaces r' = face <$> ifaces r
  else r' = r /\ forall name, Forall (fun s => p s = false) (subs_on r name).
Proof.
  unfold remove_subscriber. cbv zeta.
  pose proof (iface_remove_sub_loop (is_sub id consumer generation) (ifaces r) (map_to_list (ifaces r))) as Hl.
  cbv zeta in Hl. destruct (remove_subscriber_loop _ _ _) as [m found]. cbn [fst snd] in *.
  destruct Hl as [Hf Ht]; [intros name e Hin; by apply elem_of_map_to_list|]. destruct found.
  - destruct Ht as (name & e & l1 & s & l2 & E & Es & Hp & Hl1 & ->); [done|]. exists name, l1, s, l2. unfold subs_on.
    cbn [with_ifaces ifaces]. rewrite lookup_insert_eq, E. split_and!; try done.
    + intros other Hne. by rewrite lookup_insert_ne.
    + by apply iface_same_insert.
  - destruct Hf as [-> Hall]; [done|]. split; [by destruct r|]. intros name. unfold subs_on.
    destruct (ifaces r !! name) as [e|] eqn:E; simpl; [|done]. apply (Hall name). by apply elem_of_map_to_list.
Qed.

Lemma iface_publish_cases epoch r name ver types producer gen methods :
  let '(_, r', res) := publish epoch r name ver types producer gen methods in
  match res with
  | inr _ => r' = r /\ exists e, ifaces r !! name = Some e /\ producer_id e <> producer
  | inl _ =>
      (forall e, ifaces r !! name = Some e -> producer_id e = producer) /\
      ifaces r' = <[name := mkEntry ver types producer gen methods (subs_on r name)]> (ifaces r) /\
      imports r' = imports r /\ watches_ r' = watches_ r
  end.
Proof.
  unfold publish, subs_on. destruct (ifaces r !! name) as [e|] eqn:E; simpl; [|split_and!; done].
  destruct (String.eqb_spec (producer_id e) producer) as [<-|Hne]; simpl.
  - split_and!; try done. by intros ? [= ->].
  - split; [done|]. by exists e.
Qed.

(** Implementations are alternatives: publishing is refused, changing nothing, exactly when a
    different producer holds the name, and otherwise installs the new contract over the subscribers
    the name already had; so whatever the operation, a published name keeps its producer until that
    producer is removed or the registry is cleared. *)
Theorem iface_single_producer epoch r o name e :
  ifaces r !! name = Some e ->
  let r' := (step epoch r o).2 in
  ((exists e', ifaces r' !! name = Some e' /\ producer_id e' = producer_id e /\
     match o with
     | Publish n ver types p gen methods => n = name -> p = producer_id e ->
         e' = mkEntry ver types p gen methods (subscribers e)
     | _ => face e' = face e
     end) \/
   ifaces r' !! name = None /\ (o = RemoveByProducer (producer_id e) \/ o = Clear)) /\
  match o with
  | Publish n ver types p gen methods =>
      n = name -> p <> producer_id e ->
      r' = r /\ (publish epoch r n ver types p gen methods).2 = inr (taken_message name (producer_id e) p)
  | _ => True
  end.
Proof.
  intros E. cbv zeta. destruct o as [n ver types p gen ms|p| | | | | | | | | |]; cbn [step].
  - pose proof (iface_publish_cases epoch r n ver types p gen ms) as Hc.
    assert (Hmsg : n = name -> p <> producer_id e ->
              (publish epoch r n ver types p gen ms).1.2 = r /\
              (publish epoch r n ver types p gen ms).2 = inr (taken_message name (producer_id e) p)).
    { intros -> Hne. unfold publish. rewrite E. by destruct (String.eqb_spec (producer_id e) p); [congruence|]. }
    destruct (publish epoch r n ver types p gen ms) as [[ep r'] res]. cbn [fst snd] in *.
    split; [left|exact Hmsg]. destruct res as [u|msg].
    + destruct Hc as (Hp & -> & _). destruct (decide (n = name)) as [->|Hne].
      * rewrite lookup_insert_eq. eexists. split; [done|]. split; [by rewrite (Hp e E)|]. unfold subs_on. by rewrite E.
      * rewrite lookup_insert_ne by done. by exists e.
    + destruct Hc as (-> & e' & E' & Hne). exists e. split_and!; try done. intros -> ->. congruence.
  - pose proof (iface_remove_by_producer epoch r p) as Hc. destruct (remove_by_producer epoch r p) as [[ep r'] out].
    cbn [fst snd]. destruct Hc as (Hl & _). split; [|done]. rewrite Hl, E.
    destruct (String.eqb_spec (producer_id e) p) as [->|]; [right|left]; [by auto|by exists e].
  - split; [|done]. left. by exists e.
  - split; [|done]. left. by exists e.
  - split; [|done]. left. unfold add_watch. destruct (negb _); by exists e.
  - split; [|done]. left. by exists e.
  - split; [|done]. left. unfold attempt_watch. destruct (watches_ r !! id); by exists e.
  - split; [|done]. left. apply (iface_face_of_same r); [|done]. by apply (iface_sub_ops_same r (AddSubscriber _ _) I epoch).
  - split; [|done]. left. apply (iface_face_of_same r); [|done]. by apply (iface_sub_ops_same r (RemoveSubscriber _ _ _) I epoch).
  - split; [|done]. left. apply (iface_face_of_same r); [|done]. by apply (iface_sub_ops_same r (RemoveByConsumer _) I epoch).
  - split; [|done]. left. apply (iface_face_of_same r); [|done]. by apply (iface_sub_ops_same r (RemoveByConsumerOn _ _ _) I epoch).
  - split; [|done]. right. cbn [clear snd ifaces]. by auto.
Qed.

(** ** The unload order *)
Definition edge (r : InterfaceRegistry) (ids : list string) (q p : string) : Prop :=
  q ∈ ids /\ p ∈ ids /\ q <> p /\ imports_from r q p = true.

Lemma unimported_spec r remaining p :
  unimported r remaining p = true <-> forall q, q ∈ remaining -> q <> p -> imports_from r q p = false.
Proof.
  unfold unimported. rewrite negb_true_iff, <- not_true_iff_false, existsb_exists. setoid_rewrite <- list_elem_of_In.
  setoid_rewrite andb_true_iff. setoid_rewrite negb_true_iff. setoid_rewrite String.eqb_neq. split.
  - intros H q Hq Hne. apply not_true_iff_false. intros Hi. apply H. by exists q.
  - intros H (q & Hq & Hne & Hi). specialize (H q Hq Hne). congruence.
Qed.

Lemma iface_pick r ids remaining :
  remaining <> [] -> (forall p, p ∈ remaining -> p ∈ ids) -> (forall p, ~ tc (edge r ids) p p) ->
  position (unimported r remaining) remaining <> None.
Proof.
  intros Hne Hsub Hac Hnone%position_None. rewrite Forall_forall in Hnone.
  apply Hne, (acyclic_has_source (edge r ids)); [done|]. intros p Hp. specialize (Hnone p Hp).
  unfold unimported in Hnone. apply negb_false_iff, existsb_exists in Hnone as (q & Hq & [Hqp%negb_true_iff%String.eqb_neq Hi]%andb_true_iff).
  apply list_elem_of_In in Hq. exists q. split; [done|]. split_and!; auto.
Qed.

Definition consumers_first (r : InterfaceRegistry) (order : list string) : Prop :=
  StronglySorted (fun p q => q <> p -> imports_from r q p = false) order.

Lemma iface_unload_loop r ids fuel remaining order :
  (length remaining < fuel)%nat ->
  exists out, unload_loop fuel r remaining order = Some (order ++ out) /\ out ≡ₚ remaining /\
    ((forall p, p ∈ remaining -> p ∈ ids) -> (forall p, ~ tc (edge r ids) p p) -> consumers_first r out).
Proof.
  revert remaining order. induction fuel as [|fuel IH]; intros remaining order Hf; [lia|]. cbn [unload_loop].
  destruct remaining as [|x xs] eqn:Er; [exists []; rewrite app_nil_r; split_and!; [done|done|constructor]|]. rewrite <- Er in *.
  destruct (position (unimported r remaining) remaining) as [i|] eqn:Ep.
  - apply position_Some in Ep as (l1 & p & l2 & E & <- & Hp & _). rewrite E, list_lookup_middle, vec_remove_app by done.
    destruct (IH (l1 ++ l2) (order ++ [p])) as (out & -> & Hperm & Hord).
    { rewrite E, length_app in Hf. rewrite length_app. simpl in Hf. lia. }
    exists (p :: out). rewrite <- app_assoc. split; [done|]. split; [rewrite Hperm; apply Permutation_middle|].
    intros Hsub Hac. constructor; [apply Hord; [|done]; intros q Hq; apply Hsub; apply elem_of_app in Hq; apply elem_of_app; rewrite elem_of_cons; tauto|].
    apply Forall_forall. intros q Hq Hqp. rewrite Hperm in Hq. rewrite unimported_spec in Hp. apply Hp; [|done].
    rewrite E. apply elem_of_app in Hq. apply elem_of_app. rewrite elem_of_cons. tauto.
  - assert (fuel <> O) as Hf0 by (intros ->; subst; simpl in Hf; lia). destruct fuel as [|fuel]; [done|]. cbn [unload_loop].
    exists remaining. split_and!; try done. intros Hsub Hac. destruct (iface_pick r ids remaining); [by subst|done..].
Qed.

(** C34. The unload order is total and right: the loop ends, its result is a permutation of the
    plugins given, and when the imports among them form no cycle every consumer comes before each
    producer it imports from. *)
Theorem iface_unload_order r ids :
  exists order, unload_order r ids = Some order /\ order ≡ₚ ids /\
    ((forall p, ~ tc (edge r ids) p p) ->
     forall l1 p l2 q, order = l1 ++ p :: l2 -> q ∈ l2 -> q <> p -> imports_from r q p = false).
Proof.
  destruct (iface_unload_loop r ids (S (length ids)) ids []) as (out & E & Hperm & Hord); [lia|].
  exists out. split; [exact E|]. split; [done|]. intros Hac l1 p l2 q -> Hq Hne.
  specialize (Hord ltac:(done) Hac). apply StronglySorted_app in Hord as (_ & _ & Hs).
  inversion Hs as [|? ? _ Hf]; subst. rewrite Forall_forall in Hf. by apply Hf.
Qed.
End Interfaces.

(** ** Concrete runs *)
Module InterfacesExamples.
Import Interfaces.

Definition menus : InterfaceRegistry :=
  (step 3 (step 2 (step 1 new
     (Publish "menus" "1.4.0" "abc" "menu-core" 1 ["open"; "close"])).2
     (SetImports "shop" [mkSpec "menus" "^1.2" Hard (Some "abc")])).2
     (AddSubscriber "menus" (mkSub 7 "shop" 2 "closed"))).2.

Example menus_call : call_target menus "shop" "menus" "open" = Ok_ /\ call_target menus "shop" "menus" "edit" = Unavailable.
Proof. vm_compute. split; reflexivity. Qed.
Example menus_major : Semver.leading_major "^1.2" = Some 1 /\ Semver.leading_major "4294967296.0" = None.
Proof. vm_compute. split; reflexivity. Qed.
Example menus_unload : unload_order menus ["menu-core"; "shop"] = Some ["shop"; "menu-core"].
Proof. vm_compute. reflexivity. Qed.

Lemma semver_leading_major_witness : Semver.leading_major "~12.x" = Some 12.
Proof.
  refine (Semver.semver_leading_major "~12.x" ["~"%char] ["1"%char; "2"%char] ["."%char; "x"%char] eq_refl _ _ eq_refl _).
  - repeat constructor.
  - repeat constructor.
  - intros Hx. discriminate Hx.
Defined.

Lemma iface_epoch_covers_bindings_witness :
  call_target_inner (step 5 menus (RemoveByConsumer "shop")).2 "shop" "menus" None = call_target_inner menus "shop" "menus" None.
Proof.
  destruct (iface_epoch_covers_bindings 5 menus (RemoveByConsumer "shop") ltac:(lia) eq_refl "shop" "menus" None) as [E _].
  exact E.
Defined.

Definition menus_entry : InterfaceEntry := mkEntry "1.4.0" "abc" "menu-core" 1 ["open"; "close"] [mkSub 7 "shop" 2 "closed"].

Lemma iface_single_producer_witness :
  (step 5 menus (Publish "menus" "2.0.0" "" "menu-other" 4 [])).2 = menus.
Proof.
  destruct (iface_single_producer 5 menus (Publish "menus" "2.0.0" "" "menu-other" 4 []) "menus" menus_entry eq_refl) as [_ H].
  destruct H as [H _]; [reflexivity|intros Hx; discriminate Hx|exact H].
Defined.

Lemma iface_unload_order_witness : exists order, unload_order menus ["menu-core"; "shop"] = Some order /\ order ≡ₚ ["menu-core"; "shop"].
Proof.
  destruct (iface_unload_order menus ["menu-core"; "shop"]) as (order & E & Hp & _). exists order. split; [exact E|exact Hp].
Defined.
End InterfacesExamples.
