(* ===== verification/InterfaceTeardown.v ===== *)
(** What unloading a plugin does to the interfaces (core/src/v8host/lifecycle.rs,
    [teardown_ledger_and_dispose]).

    The plugin's ledger is removed from the registry and walked in teardown order: an interface row
    removes every interface of the plugin, the callbacks of their subscribers and the rows those hold in
    their consumers' ledgers, and the methods of the row's name; a subscription row drops its callback.
    Then the plugin's own subscriptions and imports go. The rows of other stores are walked by their own
    components; availability watches were retired before. *)
From S2P Require Import Prelude.
From S2P Require Import BTree.
From S2P Require Import Liveness.
From S2P Require Import Plugin.
From S2P Require Import ResourceLedger.
From S2P Require Import Interfaces.
Import Interfaces.
Import RegistryLedger.

Module InterfaceTeardown.

(** The interop epoch, [REGISTRY], [IFACES], the ids of [IFACE_SUBS] and the keys of [IFACE_METHODS]. *)
Record Books := mkBooks {
  interop_epoch : Z;
  registry : Registry.Registry;
  published : InterfaceRegistry;
  iface_subs : gset Z;
  iface_methods : gset (string * string);
}.

(** [release_resource(consumer_id, consumer_gen, EventSub(sub_id))] *)
Definition release_row (g : Registry.Registry) (s : Subscriber) : Registry.Registry :=
  (Registry.release g (consumer_id s) (consumer_gen s) (PluginLedger.EventSub (sub_id s))).1.

(** One arm of the walk. *)
Definition drop_resource (id : string) (b : Books) (res : Resource) : Books :=
  match res with
  | PluginLedger.Interface name =>
      let '(epoch, r, removed) := remove_by_producer (interop_epoch b) (published b) id in
      let subscribers := removed ≫= snd in
      mkBooks epoch (foldl release_row (registry b) subscribers) r
        (iface_subs b ∖ list_to_set (sub_id <$> subscribers))
        (filter (fun m => m.1 <> name) (iface_methods b))
  | PluginLedger.EventSub sub_id => mkBooks (interop_epoch b) (registry b) (published b) (iface_subs b ∖ {[sub_id]}) (iface_methods b)
  | _ => b
  end.

(** [None] is the registry's slot panic. *)
Definition teardown_ledger_and_dispose (b : Books) (id : string) : option Books :=
  match Registry.remove (interop_epoch b) (registry b) id with
  | None => None
  | Some (epoch, g, entry) =>
      let b := mkBooks epoch g (published b) (iface_subs b) (iface_methods b) in
      let b := match entry with
               | Some (_, ledger) => foldl (drop_resource id) b (PluginLedger.teardown_order ledger)
               | None => b
               end in
      let '(r, orphaned) := remove_subscribers_by_consumer (published b) id in
      let subs := iface_subs b ∖ list_to_set orphaned.*2 in
      let '(epoch, r) := clear_imports (interop_epoch b) r id in
      Some (mkBooks epoch (registry b) r subs (iface_methods b))
  end.

(** ** Releasing the rows of other plugins *)
Lemma remove_last_gone x (l : list Resource) : NoDup l -> x ∉ remove_last x l.
Proof.
  intros Hnd. destruct (decide (x ∈ l)) as [Hin|Hni]; [|by rewrite PluginLedger.ledger_remove_last_not_in].
  apply list_elem_of_split in Hin as (l1 & l2 & ->). apply NoDup_app in Hnd as (Hnd1 & Hd & [Hx Hnd2]%NoDup_cons).
  assert (Hgen : forall l1, x ∉ l1 -> remove_last x (l1 ++ x :: l2) = l1 ++ l2).
  { clear -Hx. induction l1 as [|y l1 IH]; intros Hni; cbn [app remove_last]; [by rewrite bool_decide_false, bool_decide_true|].
    rewrite bool_decide_true by (apply elem_of_app; right; by left). rewrite IH; [done|]. intros Hi. apply Hni. by right. }
  rewrite Hgen by (intros Hi; apply (Hd x Hi); by left). rewrite elem_of_app. intros [Hi|Hi]; [|done]. apply (Hd x Hi). by left.
Qed.

Lemma remove_last_NoDup x (l : list Resource) : NoDup l -> NoDup (remove_last x l).
Proof.
  induction l as [|y l IH]; cbn [remove_last]; [done|]. intros [Hy Hnd]%NoDup_cons. case_bool_decide; [|case_bool_decide; [done|by constructor]].
  constructor; [|by apply IH]. intros Hi. by apply Hy, (remove_last_incl _ x).
Qed.

(** What the release of the rows of [gone] does to the ledger of a live plugin. *)
Lemma released_rows gone : forall g q,
  r_sound g ->
  let g' := foldl release_row g gone in
  r_sound g' /\ Registry.generation_of g' q = Registry.generation_of g q /\
  (NoDup (r_held g q) -> forall x, x ∈ r_held g' q <->
     x ∈ r_held g q /\ ~ exists s, s ∈ gone /\ consumer_id s = q /\ Registry.generation_of g q = Some (consumer_gen s) /\
                                   x = PluginLedger.EventSub (sub_id s)).
Proof.
  induction gone as [|s gone IH]; intros g q Hg; cbn [foldl].
  { split_and!; [done..|]. intros _ x. split; [intros Hx; split; [done|]; intros (s & Hs & _); by apply elem_of_nil in Hs|by intros [? _]]. }
  set (x0 := PluginLedger.EventSub (sub_id s)).
  assert (Hone : r_sound (release_row g s) /\ Registry.generation_of (release_row g s) q = Registry.generation_of g q /\
    r_held (release_row g s) q = if decide (consumer_id s = q /\ Registry.generation_of g q = Some (consumer_gen s)) then remove_last x0 (r_held g q) else r_held g q).
  { unfold release_row. destruct (decide (Registry.generation_of g (consumer_id s) = Some (consumer_gen s))) as [Hgen|Hgen].
    - destruct (@release_live _ registry_ledger registry_ledger_laws (0%Z, g) (consumer_id s) (consumer_gen s) x0 Hg Hgen) as (r' & E & Hs' & _ & Hgs & Hh). cbn in E, Hs', Hgs, Hh.
      fold x0. destruct (Registry.release g (consumer_id s) (consumer_gen s) x0) as [g1 ok]. injection E as <- _. cbn [fst snd] in *. split_and!; [done| |].
      + rewrite Hgs. by case_decide; subst.
      + rewrite Hh. destruct (decide (q = consumer_id s)) as [->|Hne]; [by rewrite decide_True|]. rewrite decide_False; [done|]. intros [Hc _]. by symmetry in Hc.
    - pose proof (@release_dead _ registry_ledger registry_ledger_laws (0%Z, g) (consumer_id s) (consumer_gen s) x0 Hgen) as E. cbn in E.
      fold x0. destruct (Registry.release g (consumer_id s) (consumer_gen s) x0) as [g1 ok]. injection E as -> _. cbn [fst]. split_and!; [done..|].
      rewrite decide_False; [done|]. intros [<- Hc]. done. }
  destruct Hone as (Hs1 & Hg1 & Hh1). destruct (IH (release_row g s) q Hs1) as (Hs2 & Hg2 & Hh2). rewrite Hg1 in *. split_and!; [done..|].
  intros Hnd x. rewrite Hh2 by (rewrite Hh1; case_decide; [by apply remove_last_NoDup|done]). rewrite Hh1. setoid_rewrite elem_of_cons.
  destruct (decide (consumer_id s = q /\ Registry.generation_of g q = Some (consumer_gen s))) as [[Hc Hgen]|Hno].
  - split.
    + intros [Hx Hn]. split; [by apply (remove_last_incl _ x0)|]. intros (s' & [->|Hs'] & H1 & H2 & ->); [by apply (remove_last_gone x0) in Hnd|].
      apply Hn. by exists s'.
    + intros [Hx Hn]. split; [|intros (s' & Hs' & H'); apply Hn; exists s'; split; [by right|done]].
      apply remove_last_elem; [|done]. intros ->. apply Hn. exists s. split; [by left|done].
  - split; (intros [Hx Hn]; split; [done|]); intros (s' & Hs' & H1 & H2 & H3); apply Hn; exists s'.
    + destruct Hs' as [->|Hs']; [by destruct Hno|done].
    + split; [by right|done].
Qed.

(** ** The walk *)
(** The subscribers of the plugin's interfaces. *)
Definition on_own (r : InterfaceRegistry) (id : string) (s : Subscriber) : Prop :=
  exists name e, ifaces r !! name = Some e /\ producer_id e = id /\ s ∈ subscribers e.
Definition own_subscribers (r : InterfaceRegistry) (id : string) : list Subscriber := (remove_by_producer 0 r id).2 ≫= snd.

Lemma own_subscribers_elem r id s : s ∈ own_subscribers r id <-> on_own r id s.
Proof.
  unfold own_subscribers, on_own. pose proof (iface_remove_by_producer 0 r id) as H. destruct (remove_by_producer 0 r id) as [[ep r'] out].
  destruct H as (_ & _ & _ & _ & Ho). cbn [snd]. rewrite list_elem_of_bind. split.
  - intros ([n l] & Hs & (e & He & Hp & ->)%Ho). by exists n, e.
  - intros (n & e & He & Hp & Hs). exists (n, subscribers e). split; [done|]. apply Ho. by exists e.
Qed.

Lemma remove_by_producer_epoch epoch r id :
  remove_by_producer epoch r id = (InteropSlots.bump_epoch epoch, (remove_by_producer 0 r id).1.2, (remove_by_producer 0 r id).2).
Proof. unfold remove_by_producer. by destruct (remove_names _ _). Qed.

Definition is_interface (x : Resource) : bool := match x with PluginLedger.Interface _ => true | _ => false end.

(** What the walk of the rows [l] leaves. *)
Record walked (id : string) (l : list Resource) (b b' : Books) : Prop := {
  wk_ifaces n : ifaces (published b') !! n =
    match ifaces (published b) !! n with
    | Some e => if existsb is_interface l && String.eqb (producer_id e) id then None else Some e
    | None => None
    end;
  wk_imports : imports (published b') = imports (published b);
  wk_registry : registry b' = foldl release_row (registry b) (if existsb is_interface l then own_subscribers (published b) id else []);
  wk_subs sid : sid ∈ iface_subs b' <->
    sid ∈ iface_subs b /\ PluginLedger.EventSub sid ∉ l /\ (existsb is_interface l = true -> sid ∉ sub_id <$> own_subscribers (published b) id);
  wk_methods m : m ∈ iface_methods b' <-> m ∈ iface_methods b /\ PluginLedger.Interface m.1 ∉ l;
}.

Lemma walk id l : forall b, walked id l b (foldl (drop_resource id) b l).
Proof.
  induction l as [|x l IH]; intros b; cbn [foldl].
  { split; cbn [existsb andb]; try done; [intros n; by destruct (ifaces (published b) !! n)|intros y..];
      (split; [intros Hy; split_and!; [done|apply not_elem_of_nil|done]|tauto]) || (split; [intros Hy; split; [done|apply not_elem_of_nil]|tauto]). }
  assert (Hskip : (forall sid, x <> PluginLedger.EventSub sid) -> is_interface x = false -> drop_resource id b x = b ->
    walked id (x :: l) b (foldl (drop_resource id) (drop_resource id b x) l)).
  { intros Hx Hi ->. destruct (IH b) as [H1 H2 H3 H4 H5]. split; cbn [existsb]; rewrite ?Hi; cbn [orb]; try done.
    - intros sid. rewrite H4, elem_of_cons. split; [intros (? & ? & ?); split_and!; [done|intros [E|?]; [by symmetry in E; apply Hx in E|done]|done]|tauto].
    - intros m. rewrite H5, elem_of_cons. split; [intros [? ?]; split; [done|]; intros [E|?]; [by rewrite <- E in Hi|done]|tauto]. }
  destruct x; try (by apply Hskip); clear Hskip.
  - cbn [drop_resource]. rewrite remove_by_producer_epoch. pose proof (iface_remove_by_producer 0 (published b) id) as H.
    fold (own_subscribers (published b) id). destruct (remove_by_producer 0 (published b) id) as [[ep r1] out] eqn:Er. cbn [fst snd].
    destruct H as (H1 & H2 & _). destruct (IH (mkBooks (InteropSlots.bump_epoch (interop_epoch b)) (foldl release_row (registry b) (own_subscribers (published b) id)) r1
      (iface_subs b ∖ list_to_set (sub_id <$> own_subscribers (published b) id)) (filter (fun m => m.1 <> name) (iface_methods b)))) as [J1 J2 J3 J4 J5].
    cbn [published registry iface_subs iface_methods] in *.
    assert (Hnil : own_subscribers r1 id = []).
    { apply elem_of_nil_inv. intros s (n & e & He & Hp & _)%own_subscribers_elem. rewrite H1 in He. destruct (ifaces (published b) !! n) as [e'|]; [|done].
      destruct (String.eqb_spec (producer_id e') id); [done|]. by injection He as ->. }
    rewrite Hnil in *. split; cbn [existsb is_interface orb andb].
    + intros n. rewrite J1, H1. destruct (ifaces (published b) !! n) as [e|]; [|done]. destruct (String.eqb (producer_id e) id) eqn:Ep; [done|].
      by rewrite Ep, andb_false_r.
    + by rewrite J2.
    + rewrite J3. by destruct (existsb is_interface l).
    + intros sid. rewrite J4, elem_of_difference, elem_of_list_to_set, elem_of_cons. cbn. setoid_rewrite elem_of_nil. naive_solver.
    + intros m. rewrite J5, elem_of_filter, elem_of_cons. split; [intros [[Hm ?] ?]; split; [done|]; intros [[= E]|?]; done|].
      intros [? Hm]. split; [split; [|done]|tauto]. intros E. apply Hm. left. by rewrite E.
  - cbn [drop_resource]. destruct (IH (mkBooks (interop_epoch b) (registry b) (published b) (iface_subs b ∖ {[id0]}) (iface_methods b))) as [J1 J2 J3 J4 J5].
    cbn [published registry iface_subs iface_methods] in *. split; cbn [existsb is_interface orb]; try done.
    + intros sid. rewrite J4, elem_of_difference, elem_of_singleton, elem_of_cons. naive_solver.
    + intros m. rewrite J5, elem_of_cons. naive_solver.
Qed.

Lemma removed_entry b id :
  r_sound (registry b) ->
  exists ep g entry, Registry.remove (interop_epoch b) (registry b) id = Some (ep, g, entry) /\
    r_sound g /\ reverse (r_held (registry b) id) = match entry with Some (_, l) => PluginLedger.teardown_order l | None => [] end /\
    (forall q, Registry.generation_of g q = if decide (q = id) then None else Registry.generation_of (registry b) q) /\
    (forall q, r_held g q = if decide (q = id) then [] else r_held (registry b) q).
Proof.
  intros Hs. destruct (@unload_live _ registry_ledger registry_ledger_laws (interop_epoch b, registry b) id Hs) as ([ep g] & E & Hs' & _ & Hg & Hh).
  cbn in E, Hs', Hg, Hh. destruct (Registry.remove (interop_epoch b) (registry b) id) as [[[ep' g'] entry]|]; [|done].
  cbn in E. injection E as -> -> E. by exists ep, g, entry.
Qed.

(** C24. Unloading a plugin leaves no trace of it and harms no one else. Given that its ledger has a
    row for each interface it publishes, the walk does not panic and afterwards: no interface is
    produced by it, no subscriber is its own, it can call nothing and nothing depends on it in an
    unload order; every other producer's interface stays, with exactly the other consumers' subscribers
    in their order; the callbacks that go are those of its own subscriptions and of the subscriptions on
    its interfaces, the methods those of its rows' interfaces; and every other plugin keeps its
    generation and, of its distinct ledger rows, all but the rows of its subscriptions on the plugin's
    interfaces. *)
Theorem iface_teardown_complete b id :
  r_sound (registry b) ->
  (forall name e, ifaces (published b) !! name = Some e -> producer_id e = id -> PluginLedger.Interface name ∈ r_held (registry b) id) ->
  exists b', teardown_ledger_and_dispose b id = Some b' /\
  let r := published b in
  let r' := published b' in
  let others := filterb (fun s => negb (String.eqb (consumer_id s) id)) in
  (forall name, ifaces r' !! name =
     match ifaces r !! name with
     | Some e => if String.eqb (producer_id e) id then None else Some (with_subs e (others (subscribers e)))
     | None => None
     end) /\
  (forall name method, call_target_inner r' id name method = Unavailable) /\
  (forall q, imports_from r' id q = false /\ imports_from r' q id = false) /\
  (forall sid, sid ∈ iface_subs b' <->
     sid ∈ iface_subs b /\ PluginLedger.EventSub sid ∉ r_held (registry b) id /\
     ~ exists name e s, ifaces r !! name = Some e /\ s ∈ subscribers e /\ sub_id s = sid /\ (producer_id e = id \/ consumer_id s = id)) /\
  (forall m, m ∈ iface_methods b' <-> m ∈ iface_methods b /\ PluginLedger.Interface m.1 ∉ r_held (registry b) id) /\
  Registry.generation_of (registry b') id = None /\
  (forall q, q <> id ->
     Registry.generation_of (registry b') q = Registry.generation_of (registry b) q /\
     (NoDup (r_held (registry b) q) -> forall x, x ∈ r_held (registry b') q <->
        x ∈ r_held (registry b) q /\
        ~ exists s, on_own r id s /\ consumer_id s = q /\ Registry.generation_of (registry b) q = Some (consumer_gen s) /\
                    x = PluginLedger.EventSub (sub_id s))).
Proof.
  intros Hs Hrows. destruct (removed_entry b id Hs) as (ep & g & entry & Erem & Hsg & Eord & Hgen & Hheld).
  unfold teardown_ledger_and_dispose. rewrite Erem.
  set (b1 := mkBooks ep g (published b) (iface_subs b) (iface_methods b)).
  set (b2 := match entry with Some (_, ledger) => _ | None => b1 end).
  assert (Hw : walked id (reverse (r_held (registry b) id)) b1 b2).
  { rewrite Eord. unfold b2. destruct entry as [[gen l]|]; [apply walk|]. apply (walk id []). }
  clearbody b2. destruct Hw as [W1 W2 W3 W4 W5]. cbn [b1 published registry iface_subs iface_methods] in *.
  set (has := existsb is_interface (reverse (r_held (registry b) id))) in *.
  assert (Hhas : forall name e, ifaces (published b) !! name = Some e -> producer_id e = id -> has = true).
  { intros name e He Hp. apply existsb_exists. exists (PluginLedger.Interface name). split; [|done].
    apply list_elem_of_In, elem_of_reverse. by eapply Hrows. }
  destruct (remove_subscribers_by_consumer (published b2) id) as [r3 orphaned] eqn:E3. injection E3 as E3 E4.
  destruct (clear_imports (interop_epoch b2) r3 id) as [ep4 r4] eqn:E5. injection E5 as _ E5.
  assert (Hif : forall name, ifaces r4 !! name = match ifaces (published b) !! name with
     | Some e => if String.eqb (producer_id e) id then None else Some (with_subs e (filterb (fun s => negb (String.eqb (consumer_id s) id)) (subscribers e)))
     | None => None end).
  { intros name. rewrite <- E5. cbn [ifaces]. rewrite <- E3. cbn [with_ifaces ifaces]. rewrite lookup_fmap, W1.
    destruct (ifaces (published b) !! name) as [e|] eqn:He; [|done]. destruct (String.eqb_spec (producer_id e) id) as [Hp|]; [|by rewrite andb_false_r].
    by rewrite (Hhas _ _ He Hp). }
  eexists. split; [reflexivity|]. cbv zeta. cbn [published registry iface_subs iface_methods]. split_and!.
  - exact Hif.
  - intros name method. unfold call_target_inner, decl_of. rewrite <- E5. cbn [imports]. by rewrite lookup_delete_eq.
  - intros q. unfold imports_from. split; [rewrite <- E5; cbn [imports]; by rewrite lookup_delete_eq|].
    destruct (imports r4 !! q) as [decls|]; [|done]. apply not_true_iff_false. rewrite existsb_exists.
    intros ([k d] & _ & Hk). cbn [fst] in Hk. rewrite Hif in Hk. destruct (ifaces (published b) !! k) as [e|]; [|done].
    destruct (String.eqb (producer_id e) id) eqn:Ep; [done|]. cbn [with_subs producer_id] in Hk. congruence.
  - assert (Horph : forall sid, sid ∈ orphaned.*2 <->
      exists name e s, ifaces (published b2) !! name = Some e /\ s ∈ subscribers e /\ consumer_id s = id /\ sub_id s = sid).
    { intros sid. rewrite <- E4. rewrite list_elem_of_fmap. setoid_rewrite list_elem_of_bind. split.
      - intros ([n y] & -> & ([k e] & Hin & He%elem_of_map_to_list)). apply list_elem_of_fmap in Hin as (s & [= -> ->] & [Hc%String.eqb_eq Hin]%elem_of_filterb).
        by exists k, e, s.
      - intros (name & e & s & He & Hin & Hc & <-). exists (name, sub_id s). split; [done|]. exists (name, e). split; [|by apply elem_of_map_to_list].
        apply list_elem_of_fmap. exists s. split; [done|]. apply elem_of_filterb. split; [by apply String.eqb_eq|done]. }
    intros sid. rewrite elem_of_difference, elem_of_list_to_set, W4, Horph, elem_of_reverse, list_elem_of_fmap. setoid_rewrite own_subscribers_elem. split.
    + intros [(H1 & H2 & H3) H4]. split_and!; [done..|]. intros (name & e & s & He & Hin & <- & Hd).
      destruct (decide (producer_id e = id)) as [Hp|Hp].
      * apply (H3 (Hhas _ _ He Hp)). exists s. split; [done|]. by exists name, e.
      * destruct Hd as [|Hc]; [done|]. apply H4. exists name, e, s. rewrite W1, He.
        by destruct (String.eqb_spec (producer_id e) id); rewrite ?andb_false_r.
    + intros (H1 & H2 & H3). split; [split_and!; [done..|]|].
      * intros _ (s & -> & (name & e & He & Hp & Hin)). apply H3. exists name, e, s. auto.
      * intros (name & e & s & He & Hin & Hc & <-). rewrite W1 in He. destruct (ifaces (published b) !! name) as [e'|] eqn:He'; [|done].
        destruct (has && String.eqb (producer_id e') id); [done|]. injection He as ->. apply H3. exists name, e, s. auto.
  - intros m. by rewrite W5, elem_of_reverse.
  - rewrite W3. destruct (released_rows (if has then own_subscribers (published b) id else []) g id Hsg) as (_ & -> & _). rewrite Hgen. by rewrite decide_True.
  - intros q Hq. rewrite W3. destruct (released_rows (if has then own_subscribers (published b) id else []) g q Hsg) as (_ & -> & Hrel).
    assert (Eg : Registry.generation_of g q = Registry.generation_of (registry b) q) by (rewrite Hgen; by rewrite decide_False).
    assert (Eh : r_held g q = r_held (registry b) q) by (rewrite Hheld; by rewrite decide_False).
    rewrite Eg, Eh in *. split; [done|]. intros Hnd x. rewrite (Hrel Hnd).
    assert (Hown : forall s, s ∈ (if has then own_subscribers (published b) id else []) <-> on_own (published b) id s).
    { intros s. destruct has eqn:Ehas; [apply own_subscribers_elem|]. split; [intros Hx; by apply elem_of_nil in Hx|]. intros (name & e & He & Hp & _).
      by specialize (Hhas _ _ He Hp). }
    setoid_rewrite Hown. done.
Qed.
End InterfaceTeardown.

(** ** Concrete runs *)
Module InterfaceTeardownExamples.
Import InterfaceTeardown.

(** [menu-core] publishes an interface, [shop] and [menu-core] itself listen to it; both listen to [db]. *)
Definition listens (sub : Z) (who : string) (gen : Z) : Subscriber := mkSub sub who gen "closed".
Definition rows : list (string * Z * Resource) :=
  [("menu-core", 1, PluginLedger.Interface "menus"); ("shop", 2, PluginLedger.EventSub 7); ("menu-core", 1, PluginLedger.EventSub 8);
   ("shop", 2, PluginLedger.EventSub 9); ("menu-core", 1, PluginLedger.EventSub 10)].
Definition loaded : option (Z * Registry.Registry) :=
  foldl (fun s id => s ← s; fst <$> load s id) (Some (0%Z, Registry.new)) ["menu-core"; "shop"].
Definition recorded : Z * Registry.Registry :=
  foldl (fun s x => (record_resource s x.1.1 x.1.2 x.2).1) (default (0%Z, Registry.new) loaded) rows.
Definition before : Books :=
  mkBooks recorded.1 recorded.2
    (mkRegistry ∅ {["menus" := mkEntry "1.0.0" "" "menu-core" 1 ["open"] [listens 7 "shop" 2; listens 8 "menu-core" 1];
                  "db" := mkEntry "1.0.0" "" "db" 3 [] [listens 9 "shop" 2; listens 10 "menu-core" 1]]} ∅ ∅)
    {[7; 8; 9; 10]} {[("menus", "open"); ("db", "get")]}.

Lemma before_sound : r_sound (registry before).
Proof.
  destruct (registry_room 0) as [S0 R0].
  destruct (@load_fresh _ registry_ledger registry_ledger_laws (0%Z, Registry.new) "menu-core" 6 S0) as (r1 & g1 & E1 & S1 & R1 & G1 & _);
    [apply (@room_less _ registry_ledger registry_ledger_laws _ _ _ R0); lia|reflexivity|].
  destruct (@load_fresh _ registry_ledger registry_ledger_laws r1 "shop" 5 S1 R1) as (r2 & g2 & E2 & S2 & R2 & G2 & _).
  { rewrite G1. reflexivity. }
  assert (Hl : default (0%Z, Registry.new) loaded = r2) by (unfold loaded; cbn [foldl mbind option_bind]; rewrite E1; cbn [fmap option_fmap option_map fst mbind option_bind]; by rewrite E2).
  assert (Hrec : forall l r n, @sound _ registry_ledger r -> @room _ registry_ledger r (length l + n) ->
    @sound _ registry_ledger (foldl (fun s x => (record_resource s x.1.1 x.1.2 x.2).1) r l)).
  { induction l as [|[[id g] x] l IH]; intros r n Hs Hr; cbn [foldl]; [done|]. cbn [fst snd].
    destruct (decide (generation r id = Some g)) as [Hg|Hg].
    - destruct (@record_live _ registry_ledger registry_ledger_laws r id g x (length l + n) Hs Hr Hg) as (r' & E & Hs' & Hr' & _).
      rewrite E. cbn [fst]. by apply (IH _ n).
    - rewrite (@record_dead _ registry_ledger registry_ledger_laws r id g x Hg). cbn [fst]. apply (IH _ n); [done|].
      apply (@room_less _ registry_ledger registry_ledger_laws _ _ _ Hr). cbn. lia. }
  change (@sound _ registry_ledger recorded). unfold recorded. rewrite Hl. by apply (Hrec rows r2 0%nat).
Qed.

Lemma iface_teardown_complete_witness :
  exists b', teardown_ledger_and_dispose before "menu-core" = Some b' /\ ifaces (published b') !! "menus" = None /\
    7 ∉ iface_subs b' /\ 9 ∈ iface_subs b' /\ ("menus", "open") ∉ iface_methods b' /\ PluginLedger.EventSub 7 ∉ r_held (registry b') "shop".
Proof.
  destruct (iface_teardown_complete before "menu-core" before_sound) as (b' & E & H).
  - intros name e He Hp. cbn in He. apply lookup_insert_Some in He as [[<- _]|[_ He]]; [apply (bool_decide_unpack _); vm_compute; exact I|].
    apply lookup_singleton_Some in He as [_ <-]. discriminate Hp.
  - exists b'. destruct H as (Hi & _ & _ & Hs & Hm & _ & Hq). split_and!; [exact E| | | | |].
    + rewrite Hi. reflexivity.
    + rewrite Hs. intros (_ & _ & Hn). apply Hn. exists "menus". eexists _, (listens 7 "shop" 2). split_and!; [reflexivity|left|reflexivity|by left].
    + rewrite Hs. split_and!; [apply (bool_decide_unpack _); vm_compute; exact I|apply (bool_decide_unpack _); vm_compute; exact I|].
      intros (name & e & s & He & Hin & Hd & Hor). cbn in He. apply lookup_insert_Some in He as [[_ <-]|[_ He]].
      * cbn in Hin. repeat (apply elem_of_cons in Hin as [->|Hin]; [discriminate Hd|]). by apply elem_of_nil in Hin.
      * apply lookup_singleton_Some in He as [_ <-]. cbn in Hin, Hor.
        repeat (apply elem_of_cons in Hin as [->|Hin]; [first [discriminate Hd|destruct Hor as [Hor|Hor]; discriminate Hor]|]). by apply elem_of_nil in Hin.
    + rewrite Hm. intros [_ Hn]. apply Hn. apply (bool_decide_unpack _). vm_compute. exact I.
    + destruct (Hq "shop" ltac:(done)) as [_ Hx]. rewrite Hx by (apply (bool_decide_unpack _); vm_compute; exact I). intros [_ Hn]. apply Hn.
      exists (listens 7 "shop" 2). split_and!; [|reflexivity..]. exists "menus". eexists. split_and!; [reflexivity|reflexivity|]. left.
Defined.
End InterfaceTeardownExamples.
