(* ===== verification/TopoOrder.v ===== *)
(** The load order of a batch (core/src/loader.rs, [topo_order]): Kahn's algorithm with a
    lexicographic ready set, and the cycle fallback.

    The model keeps the code's maps, degree counters and ready list; the reference definition picks
    the least unblocked id from the ids that remain. [topo_order_reference] shows they compute the
    same order, [topo_producers_first] what that order guarantees. Rows are (id, hard-dependency
    interface names, published interface names). The fuel of the loop is one more than the batch: a
    round emits one id. *)
From S2P Require Import Prelude.

Module TopoOrder.

Notation row := (string * list string * list string)%type.
Notation ids batch := ((fun r : row => r.1.1) <$> batch).

(** Interface name to the in-batch producer's id; a later row overrides. *)
Definition producer_of (batch : list row) : gmap string string :=
  foldl (fun m r => foldl (fun m iface => <[iface := r.1.1]> m) m r.2) ∅ batch.

Definition zero_degrees (batch : list row) : gmap string Z := foldl (fun m r => <[r.1.1 := 0]> m) ∅ batch.

Notation graph := (gmap string (list string) * gmap string Z)%type.

Definition add_edge (s : graph) (producer id : string) : graph :=
  (<[producer := default [] (s.1 !! producer) ++ [id]]> s.1, <[id := u64_succ (default 0 (s.2 !! id))]> s.2).

Definition link_dep (producers : gmap string string) (id : string) (s : graph) (dep : string) : graph :=
  match producers !! dep with
  | Some producer => if String.eqb producer id then s else add_edge s producer id
  | None => s
  end.

(** [consumers_of] and [indegree]. *)
Definition link (batch : list row) : graph :=
  foldl (fun s r => foldl (link_dep (producer_of batch) r.1.1) s r.1.2) (∅, zero_degrees batch) batch.

(** The inner loop over the consumers of an emitted id: degrees and [newly_ready]. *)
Fixpoint release (indegree : gmap string Z) (cs : list string) : gmap string Z * list string :=
  match cs with
  | [] => (indegree, [])
  | c :: cs =>
      match indegree !! c with
      | Some d =>
          let d := sat_sub d 1 in
          let '(indegree, newly) := release (<[c := d]> indegree) cs in
          (indegree, if d =? 0 then c :: newly else newly)
      | None => release indegree cs
      end
  end.

Fixpoint kahn_loop (fuel : nat) (consumers_of : gmap string (list string)) (indegree : gmap string Z)
    (ready order : list string) : option (list string) :=
  match fuel with
  | O => None
  | S fuel =>
      match ready with
      | [] => Some order
      | next :: ready =>
          let order := order ++ [next] in
          match consumers_of !! next with
          | Some cs =>
              let '(indegree, newly_ready) := release indegree cs in
              kahn_loop fuel consumers_of indegree (sort_strings (ready ++ newly_ready)) order
          | None => kahn_loop fuel consumers_of indegree ready order
          end
      end
  end.

Definition topo_order (batch : list row) : option (list string) :=
  let '(consumers_of, indegree) := link batch in
  let ready := sort_strings (filterb (fun kv => kv.2 =? 0) (map_to_list indegree)).*1 in
  match kahn_loop (S (length batch)) consumers_of indegree ready [] with
  | None => None
  | Some order =>
      if negb (length order =? length batch)%nat then
        let remaining := filterb (fun id => negb (existsb (fun o => String.eqb o id) order)) (ids batch) in
        Some (order ++ sort_strings remaining)
      else Some order
  end.

(** ** The reference: repeatedly the least id none of whose producers remains *)
Definition edges (batch : list row) : list (string * string) :=
  batch ≫= fun r => r.1.2 ≫= fun dep =>
    match producer_of batch !! dep with
    | Some producer => if String.eqb producer r.1.1 then [] else [(producer, r.1.1)]
    | None => []
    end.

Definition free (es : list (string * string)) (rem : list string) (c : string) : bool :=
  negb (existsb (fun e => String.eqb e.2 c && bool_decide (e.1 ∈ rem)) es).

Definition without (p : string) (rem : list string) : list string := filterb (fun c => negb (String.eqb c p)) rem.

Fixpoint reference (fuel : nat) (es : list (string * string)) (rem : list string) : list string :=
  match fuel with
  | O => []
  | S fuel =>
      match sort_strings (filterb (free es rem) rem) with
      | [] => sort_strings rem
      | p :: _ => p :: reference fuel es (without p rem)
      end
  end.

(** ** The graph the code builds *)
Lemma topo_link_edges batch : link batch = foldl (fun s e => add_edge s e.1 e.2) (∅, zero_degrees batch) (edges batch).
Proof.
  unfold link, edges. generalize (producer_of batch) as po. intros po.
  generalize ((∅, zero_degrees batch) : graph) as s. induction batch as [|[[id deps] pubs] batch IH]; intros s; [done|].
  rewrite bind_cons, foldl_app. cbn [foldl fst snd]. rewrite IH. f_equal. clear IH.
  revert s. induction deps as [|dep deps IH]; intros s; [done|]. rewrite bind_cons, foldl_app. cbn [foldl]. rewrite IH. f_equal.
  unfold link_dep. destruct (po !! dep) as [p|]; [|done]. by destruct (String.eqb p id).
Qed.

Lemma topo_zero_degrees batch c : zero_degrees batch !! c = if decide (c ∈ ids batch) then Some 0 else None.
Proof.
  unfold zero_degrees. assert (H : forall m : gmap string Z, foldl (fun m (r : row) => <[r.1.1 := 0]> m) m batch !! c =
            if decide (c ∈ ids batch) then Some 0 else m !! c); [|by rewrite H, lookup_empty].
  induction batch as [|r batch IH]; intros m; [done|]. cbn [foldl]. rewrite IH, fmap_cons.
  destruct (decide (c ∈ ids batch)) as [Hc|Hc]; [rewrite decide_True; [done|by right]|].
  destruct (decide (c = r.1.1)) as [->|Hne]; [rewrite lookup_insert_eq, decide_True; [done|by left]|].
  rewrite lookup_insert_ne by done. rewrite decide_False; [done|]. rewrite elem_of_cons. tauto.
Qed.

Definition from_ (p : string) (es : list (string * string)) : list string := (filterb (fun e => String.eqb e.1 p) es).*2.
Definition indeg (es : list (string * string)) (c : string) : Z := countb (fun e => String.eqb e.2 c) es.

Lemma topo_graph batch es :
  (forall e, e ∈ es -> e.2 ∈ ids batch) -> Z.of_nat (length es) <= u64_max ->
  let s := foldl (fun s e => add_edge s e.1 e.2) (∅, zero_degrees batch) es in
  (forall p, default [] (s.1 !! p) = from_ p es) /\
  (forall c, s.2 !! c = if decide (c ∈ ids batch) then Some (indeg es c) else None).
Proof.
  cbv zeta. induction es as [|[p c] es IH] using rev_ind; intros Hin Hlen.
  - cbn [foldl fst snd]. split; [intros p; by rewrite lookup_empty|apply topo_zero_degrees].
  - rewrite length_app in Hlen. simpl in Hlen.
    destruct IH as [H1 H2]; [intros e He; apply Hin, elem_of_app; by left|lia|].
    assert (Hc : c ∈ ids batch) by (apply (Hin (p, c)), elem_of_app; right; by left).
    rewrite foldl_app. cbn [foldl fst snd]. set (s := foldl _ _ es) in *. cbn [add_edge fst snd]. split.
    + intros p'. assert (E : from_ p' (es ++ [(p, c)]) = from_ p' es ++ (if String.eqb p p' then [c] else [])).
      { unfold from_. rewrite filterb_app, fmap_app. cbn [filterb fst]. by destruct (String.eqb p p'). }
      rewrite E. destruct (String.eqb_spec p p') as [->|Hne].
      * rewrite lookup_insert_eq. cbn [default]. by rewrite H1.
      * rewrite lookup_insert_ne by done. rewrite app_nil_r. apply H1.
    + intros c'. unfold indeg. rewrite countb_app, countb_cons. cbn [snd]. change (countb _ []) with 0.
      destruct (String.eqb_spec c c') as [->|Hne].
      * rewrite lookup_insert_eq, (H2 c'), !decide_True by done. cbn [default from_option id]. f_equal.
        pose proof (countb_nonneg (fun e : string * string => String.eqb e.2 c') es).
        pose proof (countb_le_length (fun e : string * string => String.eqb e.2 c') es).
        unfold indeg. rewrite u64_succ_small by lia. lia.
      * rewrite lookup_insert_ne by done. rewrite H2. unfold indeg. by rewrite !Z.add_0_r.
Qed.

Lemma topo_edges_elem batch p c :
  (p, c) ∈ edges batch <-> p <> c /\ exists deps pubs dep, (c, deps, pubs) ∈ batch /\ dep ∈ deps /\ producer_of batch !! dep = Some p.
Proof.
  unfold edges. rewrite list_elem_of_bind. split.
  - intros ([[id deps] pubs] & He & Hrow). apply list_elem_of_bind in He as (dep & He & Hdep). cbn [fst snd] in *.
    destruct (producer_of batch !! dep) as [q|] eqn:Eq; [|by apply elem_of_nil in He].
    destruct (String.eqb_spec q id); [by apply elem_of_nil in He|]. apply list_elem_of_singleton in He. injection He as -> ->.
    split; [done|]. by exists deps, pubs, dep.
  - intros (Hne & deps & pubs & dep & Hrow & Hdep & Hp). exists (c, deps, pubs). split; [|done].
    apply list_elem_of_bind. exists dep. split; [|done]. cbn [fst snd]. rewrite Hp.
    destruct (String.eqb_spec p c); [done|]. by apply list_elem_of_singleton.
Qed.

Lemma topo_edge_ids batch e : e ∈ edges batch -> e.2 ∈ ids batch.
Proof.
  destruct e as [p c]. intros (_ & deps & pubs & dep & Hrow & _)%topo_edges_elem. apply list_elem_of_fmap. by exists (c, deps, pubs).
Qed.

(** ** One round of the loop *)
Definition occ (c : string) (cs : list string) : Z := countb (fun x => String.eqb x c) cs.

Lemma topo_occ_pos c cs : c ∈ cs -> 1 <= occ c cs.
Proof.
  intros Hc. pose proof (countb_nonneg (fun x => String.eqb x c) cs). unfold occ.
  assert (countb (fun x => String.eqb x c) cs <> 0); [|lia]. rewrite countb_0_iff. intros H0. specialize (H0 c Hc). by rewrite String.eqb_refl in H0.
Qed.

Lemma topo_release deg cs :
  (forall c, c ∈ cs -> exists d, deg !! c = Some d /\ occ c cs <= d) ->
  (forall c, (release deg cs).1 !! c = (fun d => d - occ c cs) <$> deg !! c) /\
  NoDup (release deg cs).2 /\
  (forall c, c ∈ (release deg cs).2 <-> c ∈ cs /\ deg !! c = Some (occ c cs)).
Proof.
  revert deg. induction cs as [|c cs IH]; intros deg Hd.
  - cbn [release fst snd]. split_and!; [|constructor|intros c; rewrite elem_of_nil; tauto].
    intros c. destruct (deg !! c) as [d|]; [|done]. cbn. f_equal. unfold occ, countb. simpl. lia.
  - assert (Hocc : forall x, occ x (c :: cs) = (if String.eqb c x then 1 else 0) + occ x cs) by (intros x; unfold occ; by rewrite countb_cons).
    pose proof (countb_nonneg (fun x => String.eqb x c) cs) as Hn. fold (occ c cs) in Hn.
    destruct (Hd c) as (d & Ed & Hle); [by left|]. rewrite Hocc, String.eqb_refl in Hle.
    cbn [release]. rewrite Ed. replace (sat_sub d 1) with (d - 1) by (unfold sat_sub; lia).
    destruct (IH (<[c := d - 1]> deg)) as (H1 & H2 & H3).
    { intros x Hx. destruct (decide (x = c)) as [->|Hne].
      - rewrite lookup_insert_eq. exists (d - 1). split; [done|lia].
      - rewrite lookup_insert_ne by done. destruct (Hd x) as (dx & Ex & Hx'); [by right|].
        exists dx. split; [done|]. rewrite Hocc in Hx'. destruct (String.eqb c x); lia. }
    destruct (release (<[c := d - 1]> deg) cs) as [deg' newly]. cbn [fst snd] in *.
    assert (Hx : forall x, x ∈ newly <-> x ∈ cs /\ (if decide (x = c) then d = 1 + occ c cs else deg !! x = Some (occ x cs))).
    { intros x. rewrite H3. destruct (decide (x = c)) as [->|Hne].
      - rewrite lookup_insert_eq. split; (intros [? E]; split; [done|]); [injection E; lia|f_equal; lia].
      - by rewrite lookup_insert_ne. }
    split_and!.
    + intros x. rewrite H1, Hocc. destruct (decide (x = c)) as [->|Hne].
      * rewrite lookup_insert_eq, Ed, String.eqb_refl. cbn. f_equal. lia.
      * rewrite lookup_insert_ne by done. by rewrite (proj2 (String.eqb_neq c x)) by done.
    + destruct (d - 1 =? 0) eqn:E0; [|done]. apply Z.eqb_eq in E0. constructor; [|done].
      intros [Hc Hd1]%Hx. rewrite decide_True in Hd1 by done. apply topo_occ_pos in Hc. lia.
    + intros x. rewrite Hocc. destruct (d - 1 =? 0) eqn:E0; bool_to_prop.
      * rewrite !elem_of_cons, Hx. destruct (decide (x = c)) as [->|Hne].
        -- rewrite Ed, String.eqb_refl. split; [intros _|by left]. split; [by left|]. f_equal. lia.
        -- rewrite (proj2 (String.eqb_neq c x)) by done. rewrite Z.add_0_l. tauto.
      * rewrite elem_of_cons, Hx. destruct (decide (x = c)) as [->|Hne].
        -- rewrite Ed, String.eqb_refl. split; [intros [? ->]; split; [by right|done]|].
           intros [_ E]. injection E as E. split; [|done]. destruct (decide (c ∈ cs)) as [|Hc]; [done|].
           exfalso. apply E0. assert (occ c cs = 0); [|lia]. apply countb_0_iff. intros y Hy. apply String.eqb_neq. by intros ->.
        -- rewrite (proj2 (String.eqb_neq c x)) by done. rewrite Z.add_0_l. tauto.
Qed.

(** Edges into [c] from ids that remain. *)
Definition pending (es : list (string * string)) (rem : list string) (c : string) : Z :=
  countb (fun e => String.eqb e.2 c && bool_decide (e.1 ∈ rem)) es.

Lemma topo_free_pending es rem c : free es rem c = true <-> pending es rem c = 0.
Proof.
  unfold free, pending. rewrite negb_true_iff, countb_0_iff, <- not_true_iff_false, existsb_exists. split.
  - intros H e He. apply not_true_iff_false. intros Hp. apply H. exists e. split; [by apply list_elem_of_In|done].
  - intros H (e & He%list_elem_of_In & Hp). specialize (H e He). congruence.
Qed.

Lemma without_elem p rem c : c ∈ without p rem <-> c ∈ rem /\ c <> p.
Proof. unfold without. rewrite elem_of_filterb, negb_true_iff, String.eqb_neq. tauto. Qed.

Lemma topo_pending_split es rem p c :
  p ∈ rem -> (forall e, e ∈ es -> e.1 <> e.2) ->
  pending es rem c = pending es (without p rem) c + occ c (from_ p es).
Proof.
  intros Hp Hself. unfold pending, from_, occ. induction es as [|[q d] es IH]; [done|].
  rewrite !countb_cons, IH by (intros e He; apply Hself; by right). cbn [filterb fst snd].
  assert (Hb : bool_decide (q ∈ without p rem) = bool_decide (q ∈ rem) && negb (String.eqb q p)).
  { destruct (String.eqb_spec q p) as [->|Hne]; [rewrite andb_false_r; apply bool_decide_eq_false; rewrite without_elem; tauto|].
    rewrite andb_true_r. apply bool_decide_ext. rewrite without_elem. tauto. }
  rewrite Hb. destruct (String.eqb_spec q p) as [->|Hne]; csimpl; rewrite ?countb_cons, ?andb_false_r, ?andb_true_r.
  - rewrite bool_decide_eq_true_2 by done. rewrite andb_true_r. lia.
  - lia.
Qed.

(** What the loop keeps: [rem] are the ids not yet emitted. *)
Record kahn_inv (es : list (string * string)) (rem : list string) (deg : gmap string Z) (ready : list string) : Prop := {
  ki_nodup : NoDup rem;
  ki_closed : forall e, e ∈ es -> e.1 ∈ rem -> e.2 ∈ rem;
  ki_deg : forall c, c ∈ rem -> deg !! c = Some (pending es rem c);
  ki_ready : ready = sort_strings (filterb (free es rem) rem);
}.

Lemma topo_round es rem deg next ready :
  (forall e, e ∈ es -> e.1 <> e.2) -> kahn_inv es rem deg (next :: ready) ->
  let r := release deg (from_ next es) in
  kahn_inv es (without next rem) r.1 (sort_strings (ready ++ r.2)).
Proof.
  intros Hself [Hnd Hcl Hdeg Hready]. cbv zeta.
  assert (Hperm : next :: ready ≡ₚ filterb (free es rem) rem) by (rewrite Hready; apply sort_strings_perm).
  assert (Hnext : next ∈ rem /\ free es rem next = true).
  { assert (next ∈ filterb (free es rem) rem) as H by (rewrite <- Hperm; by left). apply elem_of_filterb in H. tauto. }
  destruct Hnext as [Hnr Hnf].
  assert (Hcs : forall c, c ∈ from_ next es <-> (next, c) ∈ es).
  { intros c. unfold from_. rewrite list_elem_of_fmap. split.
    - intros ([q d] & -> & [E%String.eqb_eq He]%elem_of_filterb). cbn [fst snd] in *. by subst q.
    - intros He. exists (next, c). split; [done|]. apply elem_of_filterb. split; [apply String.eqb_refl|done]. }
  assert (Hin : forall c, (next, c) ∈ es -> c ∈ rem /\ c <> next).
  { intros c He. split; [by apply (Hcl (next, c))|]. intros ->. by apply (Hself (next, next)). }
  assert (Hsplit : forall c, pending es rem c = pending es (without next rem) c + occ c (from_ next es)).
  { intros c. by apply topo_pending_split. }
  assert (Hpn : forall c, 0 <= pending es (without next rem) c) by (intros c; apply countb_nonneg).
  destruct (topo_release deg (from_ next es)) as (H1 & H2 & H3).
  { intros c [Hc _]%Hcs%Hin. exists (pending es rem c). split; [by apply Hdeg|]. rewrite Hsplit. specialize (Hpn c). lia. }
  assert (Hnd' : NoDup (next :: ready)) by (rewrite Hperm; by apply filterb_NoDup). apply NoDup_cons in Hnd' as [Hni Hndr].
  assert (Hr : forall c, c ∈ ready <-> c ∈ rem /\ c <> next /\ free es rem c = true).
  { intros c. assert (Hc : c ∈ next :: ready <-> c ∈ rem /\ free es rem c = true) by (rewrite Hperm, elem_of_filterb; tauto).
    rewrite elem_of_cons in Hc. split; [intros Hcr; split_and!; [tauto|by intros ->|tauto]|intros (? & ? & ?); tauto]. }
  split.
  - by apply filterb_NoDup.
  - intros e He [H _]%without_elem. apply without_elem. split; [by apply Hcl|]. intros E.
    apply topo_free_pending in Hnf. unfold pending in Hnf. rewrite countb_0_iff in Hnf. specialize (Hnf e He).
    rewrite E, String.eqb_refl, bool_decide_eq_true_2 in Hnf by done. done.
  - intros c [Hc _]%without_elem. rewrite H1, (Hdeg c Hc). cbn. f_equal. rewrite Hsplit. lia.
  - apply (StronglySorted_unique String.le); [apply sort_strings_sorted..|]. rewrite !sort_strings_perm.
    apply NoDup_Permutation; [|by apply filterb_NoDup, filterb_NoDup|].
    + apply NoDup_app. split; [done|]. split; [|done]. intros c (_ & _ & Hf)%Hr [Hc _]%H3.
      apply topo_free_pending in Hf. rewrite Hsplit in Hf. apply topo_occ_pos in Hc. specialize (Hpn c). lia.
    + intros c. rewrite elem_of_app, Hr, H3, elem_of_filterb, without_elem, Hcs, !topo_free_pending. specialize (Hsplit c). specialize (Hpn c).
      pose proof (countb_nonneg (fun x => String.eqb x c) (from_ next es)) as Ho. fold (occ c (from_ next es)) in Ho. split.
      * intros [(Hc & Hne & Hf)|[He Hd]]; [split; [lia|done]|]. pose proof (Hin c He) as [Hc Hne]. rewrite (Hdeg c Hc) in Hd. injection Hd as Hd.
        split; [lia|done].
      * intros (Hf & Hc & Hne). destruct (decide ((next, c) ∈ es)) as [He|He].
        -- right. split; [done|]. rewrite (Hdeg c Hc). f_equal. lia.
        -- left. split_and!; [done..|]. assert (occ c (from_ next es) = 0); [|lia]. apply countb_0_iff. intros x Hx%Hcs. apply String.eqb_neq. by intros ->.
Qed.

(** ** The loop against the reference *)
Lemma without_length p rem : p ∈ rem -> (length (without p rem) < length rem)%nat.
Proof.
  intros Hp. unfold without. induction rem as [|c rem IH]; [by apply elem_of_nil in Hp|]. cbn [filterb length].
  destruct (String.eqb_spec c p) as [->|Hne]; cbn [negb length].
  - pose proof (filterb_length_le (fun c => negb (String.eqb c p)) rem). lia.
  - apply elem_of_cons in Hp as [->|Hp]; [done|]. specialize (IH Hp). lia.
Qed.

Lemma without_NoDup_perm p rem : NoDup rem -> p ∈ rem -> p :: without p rem ≡ₚ rem.
Proof.
  intros Hnd Hp. apply NoDup_Permutation; [|done|].
  - constructor; [|by apply filterb_NoDup]. rewrite without_elem. tauto.
  - intros c. rewrite elem_of_cons, without_elem. destruct (decide (c = p)) as [->|]; tauto.
Qed.

Definition not_in (order : list string) (l : list string) : list string :=
  filterb (fun id => negb (existsb (fun o => String.eqb o id) order)) l.

Lemma not_in_elem order l c : c ∈ not_in order l <-> c ∈ l /\ c ∉ order.
Proof.
  unfold not_in. rewrite elem_of_filterb, negb_true_iff, <- not_true_iff_false, existsb_exists. split.
  - intros [H Hc]. split; [done|]. intros Ho. apply H. exists c. split; [by apply list_elem_of_In|apply String.eqb_refl].
  - intros [Hc Ho]. split; [|done]. intros (o & Hin%list_elem_of_In & ->%String.eqb_eq). done.
Qed.

(** The run of the loop, in one statement: what it emits, followed by the sorted rest, is what the
    reference computes, and the rest has no unblocked id. *)
Lemma topo_loop es cons fuel rem deg ready order :
  (forall e, e ∈ es -> e.1 <> e.2) -> (forall p, default [] (cons !! p) = from_ p es) ->
  kahn_inv es rem deg ready -> (length rem < fuel)%nat ->
  exists out rest, kahn_loop fuel cons deg ready order = Some (order ++ out) /\ out ++ rest ≡ₚ rem /\
    reference fuel es rem = out ++ sort_strings rest /\ (forall c, c ∈ rest -> free es rest c = false) /\
    (forall l1 c l2 p, out = l1 ++ c :: l2 -> (p, c) ∈ es -> p ∈ rem -> p ∈ l1).
Proof.
  intros Hself Hcons. revert rem deg ready order. induction fuel as [|fuel IH]; intros rem deg ready order Hinv Hf; [lia|].
  cbn [kahn_loop reference]. pose proof (ki_ready _ _ _ _ Hinv) as Hr. rewrite <- Hr. destruct ready as [|next ready].
  - exists [], rem. rewrite app_nil_r. split_and!; try done; [|intros [|? ?] ? ? ? E; discriminate E].
    intros c Hc. destruct (free es rem c) eqn:E; [|done]. exfalso.
    assert (c ∈ @nil string) as Hnil; [|by apply elem_of_nil in Hnil].
    rewrite Hr, sort_strings_perm. by apply elem_of_filterb.
  - assert (Hn : next ∈ rem /\ free es rem next = true).
    { assert (next ∈ next :: ready) as H by (by left). rewrite Hr, sort_strings_perm in H. apply elem_of_filterb in H. tauto. }
    destruct Hn as [Hnr Hnf]. pose proof (topo_round es rem deg next ready Hself Hinv) as Hinv'. cbv zeta in Hinv'.
    assert (Hstep : exists deg' ready', kahn_inv es (without next rem) deg' ready' /\
      (match cons !! next with
       | Some cs => let '(indegree, newly) := release deg cs in kahn_loop fuel cons indegree (sort_strings (ready ++ newly)) (order ++ [next])
       | None => kahn_loop fuel cons deg ready (order ++ [next])
       end = kahn_loop fuel cons deg' ready' (order ++ [next]))).
    { specialize (Hcons next). destruct (cons !! next) as [cs|]; cbn [default from_option id] in Hcons; rewrite <- Hcons in Hinv'.
      - destruct (release deg cs) as [deg' newly]. by exists deg', (sort_strings (ready ++ newly)).
      - cbn [release fst snd] in Hinv'. rewrite app_nil_r in Hinv'. exists deg, ready. split; [|done].
        rewrite (sort_strings_unique ready ready) in Hinv'; [done|done|].
        pose proof (sort_strings_sorted (filterb (free es rem) rem)) as Hs. rewrite <- Hr in Hs. by inversion Hs. }
    destruct Hstep as (deg' & ready' & Hi & ->).
    destruct (IH _ deg' ready' (order ++ [next]) Hi) as (out & rest & -> & Hp & -> & Hblk & Hbefore).
    { pose proof (without_length next rem Hnr). lia. }
    exists (next :: out), rest. rewrite <- app_assoc. split_and!; try done.
    + cbn [app]. rewrite Hp. apply without_NoDup_perm; [apply (ki_nodup _ _ _ _ Hinv)|done].
    + intros l1 c l2 p E He Hpr. destruct l1 as [|x l1]; injection E as <- E.
      * exfalso. unfold free in Hnf. rewrite negb_true_iff, <- not_true_iff_false, existsb_exists in Hnf. apply Hnf.
        exists (p, next). split; [by apply list_elem_of_In|]. cbn [fst snd]. rewrite String.eqb_refl. by apply bool_decide_eq_true.
      * destruct (decide (p = next)) as [->|Hne]; [by left|]. right. eapply Hbefore; [exact E|exact He|]. by apply without_elem.
Qed.

Lemma topo_publish_row (r : row) ifs (m : gmap string string) dep p :
  foldl (fun m iface => <[iface := r.1.1]> m) m ifs !! dep = Some p -> p = r.1.1 \/ m !! dep = Some p.
Proof.
  revert m. induction ifs as [|i ifs IH]; intros m E; [by right|]. cbn [foldl] in E. apply IH in E as [E|E]; [by left|].
  destruct (decide (i = dep)) as [->|Hne]; [rewrite lookup_insert_eq in E; injection E as ->; by left|].
  rewrite lookup_insert_ne in E by done. by right.
Qed.

Lemma topo_producer_ids batch dep p : producer_of batch !! dep = Some p -> p ∈ ids batch.
Proof.
  assert (H : forall (l : list row) (m : gmap string string),
            foldl (fun m r => foldl (fun m iface => <[iface := r.1.1]> m) m r.2) m l !! dep = Some p -> p ∈ ids l \/ m !! dep = Some p).
  { induction l as [|r l IH]; intros m E; [by right|]. cbn [foldl] in E. apply IH in E as [E|E]; [left; by right|].
    apply topo_publish_row in E as [->|E]; [left; by left|by right]. }
  intros [|Hp]%H; [done|]. by rewrite lookup_empty in Hp.
Qed.

Lemma topo_start batch :
  NoDup (ids batch) -> Z.of_nat (length (edges batch)) <= u64_max ->
  kahn_inv (edges batch) (not_in [] (ids batch)) (link batch).2 (sort_strings (filterb (fun kv => kv.2 =? 0) (map_to_list (link batch).2)).*1) /\
  (forall p, default [] ((link batch).1 !! p) = from_ p (edges batch)) /\ not_in [] (ids batch) = ids batch.
Proof.
  intros Hnd Hlen. rewrite topo_link_edges. destruct (topo_graph batch (edges batch) (topo_edge_ids batch) Hlen) as [H1 H2].
  set (g := foldl _ _ (edges batch)) in *. assert (Hni : not_in [] (ids batch) = ids batch) by (by apply filterb_true).
  rewrite Hni. split_and!; [|done|done]. assert (Hsrc : forall c, pending (edges batch) (ids batch) c = indeg (edges batch) c).
  { intros c. apply countb_ext. intros [p d] He. cbn [fst snd]. destruct (String.eqb_spec d c) as [->|]; [|done]. simpl.
    apply bool_decide_eq_true. apply topo_edges_elem in He as (_ & deps & pubs & dep & _ & _ & Hp).
    by apply topo_producer_ids in Hp. }
  split; [done| | |].
  - intros e He _. by apply topo_edge_ids.
  - intros c Hc. rewrite H2, decide_True by done. by rewrite Hsrc.
  - apply (StronglySorted_unique String.le); [apply sort_strings_sorted..|]. rewrite !sort_strings_perm.
    apply NoDup_Permutation; [apply filterb_fmap_NoDup, NoDup_fst_map_to_list|by apply filterb_NoDup|].
    intros c. rewrite elem_of_filterb, topo_free_pending, Hsrc, list_elem_of_fmap. split.
    + intros ([c' d] & -> & [Hd%Z.eqb_eq He%elem_of_map_to_list]%elem_of_filterb). cbn [fst snd] in *. rewrite H2 in He.
      case_decide; [|done]. injection He as <-. by split.
    + intros [Hz Hc]. exists (c, 0). split; [done|]. apply elem_of_filterb. split; [done|]. apply elem_of_map_to_list.
      by rewrite H2, decide_True, Hz.
Qed.

Lemma topo_run batch :
  NoDup (ids batch) -> Z.of_nat (length (edges batch)) <= u64_max ->
  exists out rest, topo_order batch = Some (out ++ sort_strings rest) /\ out ++ rest ≡ₚ ids batch /\
    reference (S (length batch)) (edges batch) (ids batch) = out ++ sort_strings rest /\
    (forall c, c ∈ rest -> free (edges batch) rest c = false) /\
    (forall l1 c l2 p, out = l1 ++ c :: l2 -> (p, c) ∈ edges batch -> p ∈ ids batch -> p ∈ l1).
Proof.
  intros Hnd Hlen. destruct (topo_start batch Hnd Hlen) as (Hinv & Hcons & Hni). rewrite Hni in Hinv.
  unfold topo_order. destruct (link batch) as [cons deg]. cbn [fst snd] in *.
  destruct (topo_loop (edges batch) cons (S (length batch)) (ids batch) deg _ [] ltac:(intros [p c] He; by apply topo_edges_elem in He as [? _]) Hcons Hinv)
    as (out & rest & -> & Hp & Href & Hblk & Hb); [rewrite length_fmap; lia|].
  exists out, rest. cbn [app] in *. split_and!; try done.
  assert (Hnd' : NoDup (out ++ rest)) by (by rewrite Hp). apply NoDup_app in Hnd' as (Hno & Hdis & Hnr).
  assert (Hrem : filterb (fun id => negb (existsb (fun o => String.eqb o id) out)) (ids batch) ≡ₚ rest).
  { apply NoDup_Permutation; [by apply filterb_NoDup|done|]. intros c. change (c ∈ not_in out (ids batch) <-> c ∈ rest).
    rewrite not_in_elem, <- Hp, elem_of_app. split; [tauto|]. intros Hc. split; [by right|]. intros Ho. by apply (Hdis c). }
  assert (Hl : length batch = (length out + length rest)%nat) by (rewrite <- length_app, Hp; by rewrite length_fmap).
  destruct (length out =? length batch)%nat eqn:E; cbn [negb].
  - apply Nat.eqb_eq in E. destruct rest; [by rewrite app_nil_r|simpl in Hl; lia].
  - do 2 f_equal. apply sort_strings_unique; [|apply sort_strings_sorted]. by rewrite sort_strings_perm.
Qed.

(** ** Properties *)

(** C25. Kahn's algorithm with its degree counters and ready list is the reference: at every round it
    emits the least id none of whose in-batch producers is still to be emitted, and when there is no
    such id it emits what remains in name order; the loop ends within its fuel. *)
Theorem topo_order_reference batch :
  NoDup (ids batch) -> Z.of_nat (length (edges batch)) <= u64_max ->
  topo_order batch = Some (reference (S (length batch)) (edges batch) (ids batch)).
Proof. intros Hnd Hlen. destruct (topo_run batch Hnd Hlen) as (out & rest & -> & _ & -> & _). done. Qed.

(** The load order is a permutation of the batch in which producers come first: it splits into a
    first part in which everything an id hard-depends on in the batch precedes it, and a second part
    in name order of the ids stuck on a dependency cycle (each waits for another of them); without a
    cycle the second part is empty, so every producer precedes all its consumers. *)
Theorem topo_producers_first batch :
  NoDup (ids batch) -> Z.of_nat (length (edges batch)) <= u64_max ->
  exists out stuck, topo_order batch = Some (out ++ stuck) /\ out ++ stuck ≡ₚ ids batch /\
    (forall l1 c l2 deps pubs dep p, out = l1 ++ c :: l2 -> (c, deps, pubs) ∈ batch -> dep ∈ deps ->
       producer_of batch !! dep = Some p -> p <> c -> p ∈ l1) /\
    StronglySorted String.le stuck /\
    (forall c, c ∈ stuck -> exists p, p ∈ stuck /\ (p, c) ∈ edges batch) /\
    ((forall p, ~ tc (fun p c => (p, c) ∈ edges batch) p p) -> stuck = []).
Proof.
  intros Hnd Hlen. destruct (topo_run batch Hnd Hlen) as (out & rest & E & Hp & _ & Hblk & Hb).
  assert (Hstuck : forall c, c ∈ sort_strings rest -> exists p, p ∈ sort_strings rest /\ (p, c) ∈ edges batch).
  { intros c. rewrite sort_strings_perm. intros Hc. specialize (Hblk c Hc). unfold free in Hblk.
    apply negb_false_iff, existsb_exists in Hblk as ([p c'] & He%list_elem_of_In & [Ec%String.eqb_eq Hpr%bool_decide_eq_true]%andb_true_iff).
    cbn [fst snd] in *. subst c'. exists p. by rewrite sort_strings_perm. }
  exists out, (sort_strings rest). split_and!; try done.
  - by rewrite sort_strings_perm.
  - intros l1 c l2 deps pubs dep p Eo Hrow Hdep Hpo Hne. eapply Hb; [exact Eo|apply topo_edges_elem|by eapply topo_producer_ids].
    split; [done|]. by exists deps, pubs, dep.
  - apply sort_strings_sorted.
  - intros Hac. by apply (acyclic_has_source _ _ Hac).
Qed.
End TopoOrder.

(** ** Concrete runs *)
Module TopoOrderExamples.
Import TopoOrder.

Definition shop : list (string * list string * list string) :=
  [("zoo", ["menus"], []); ("bans", ["menus"; "db"], ["bans"]); ("menu-core", [], ["menus"]); ("a-db", ["menus"], ["db"])].
Example shop_order : topo_order shop = Some ["menu-core"; "a-db"; "bans"; "zoo"].
Proof. vm_compute. reflexivity. Qed.

(** On a cycle the ids outside it still come first: the whole batch is not in name order. *)
Definition tangle : list (string * list string * list string) :=
  [("a", ["ib"], ["ia"]); ("b", ["ia"], ["ib"]); ("z", [], [])].
Example tangle_order : topo_order tangle = Some ["z"; "a"; "b"].
Proof. vm_compute. reflexivity. Qed.

Lemma topo_order_reference_witness : topo_order shop = Some (reference 5 (edges shop) ["zoo"; "bans"; "menu-core"; "a-db"]).
Proof.
  apply (topo_order_reference shop).
  - apply (bool_decide_eq_true_1 (NoDup ((fun r : string * list string * list string => r.1.1) <$> shop))). vm_compute. reflexivity.
  - vm_compute. intros Hx. discriminate Hx.
Defined.

Lemma topo_producers_first_witness : exists out stuck, topo_order tangle = Some (out ++ stuck) /\ StronglySorted String.le stuck.
Proof.
  destruct (topo_producers_first tangle) as (out & stuck & E & _ & _ & Hs & _).
  - apply (bool_decide_eq_true_1 (NoDup ((fun r : string * list string * list string => r.1.1) <$> tangle))). vm_compute. reflexivity.
  - vm_compute. intros Hx. discriminate Hx.
  - exists out, stuck. split; [exact E|exact Hs].
Defined.
End TopoOrderExamples.
