(* ===== verification/Contracts.v ===== *)
(** The contract-drift gate of a load batch (core/src/loader.rs, [verify_compiled_against_with] and
    [resolve_contract_rejections]).

    A consumer compiled against an interface contract is refused when the producer's published hash
    differs. Which producers publish depends on which of them are refused, so the code looks for a
    stable set of providers and gives up the ones that oscillate. The model keeps the panics: the
    drift message slices both hashes at byte 12, which panics inside a UTF-8 character. Paths are any
    countable type with a decidable order ([PathBuf: Ord]); the published hash of the running
    generation is the function [live]. The fuel of the search is [2 ^ (n + 1)] for [n] eligible
    providers: each phase visits pairwise different sets of providers, and a new phase has fewer. *)
From S2P Require Import Prelude.

Module Contracts.

Record Manifest := mkManifest {
  id : string;
  api_version : string;
  plugin_dependencies : gmap string string;
  optional_plugin_dependencies : gmap string string;
  publishes : gmap string string;  (* interface name to typesSha256 *)
  compiled_against : gmap string string;
}.

(** [str::is_char_boundary] within the string: the end, or a byte that starts a character. *)
Definition char_boundary (s : string) (n : nat) : bool :=
  match String.get n s with
  | Some c => let b := Ascii.nat_of_ascii c in negb ((128 <=? b)%nat && (b <=? 191)%nat)
  | None => (n =? String.length s)%nat
  end.

(** [&s[..12.min(s.len())]]; [None] is the panic. *)
Definition slice12 (s : string) : option string :=
  let n := Nat.min 12 (String.length s) in
  if char_boundary s n then Some (String.substring 0 n s) else None.

Definition drift_message (iface built published : string) : string :=
  "contract drift on '" +:+ iface +:+ "': compiled against typesSha256 " +:+ built +:+
  "… but the producer publishes " +:+ published +:+ "… — refresh .s2script/types/" +:+ iface +:+
  "/index.d.ts from the producer and rebuild".

Inductive verdict := Accepted | Drift (reason : string) | Panicked.

(** What a consumer would call: the batch's hash, else the running generation's. *)
Definition effective (batch_hashes : gmap string string) (live_hash : string -> option string) (iface : string) : option string :=
  match batch_hashes !! iface with Some h => Some h | None => live_hash iface end.

Fixpoint verify_loop (names : list string) (against batch_hashes : gmap string string)
    (live_hash : string -> option string) : verdict :=
  match names with
  | [] => Accepted
  | iface :: names =>
      match against !! iface with
      | None => Panicked
      | Some built =>
          if String.eqb built "" then verify_loop names against batch_hashes live_hash
          else
            match effective batch_hashes live_hash iface with
            | None => verify_loop names against batch_hashes live_hash
            | Some published =>
                if negb (String.eqb published "") && negb (String.eqb published built) then
                  match slice12 built, slice12 published with
                  | Some b, Some p => Drift (drift_message iface b p)
                  | _, _ => Panicked
                  end
                else verify_loop names against batch_hashes live_hash
            end
      end
  end.

Definition verify_compiled_against_with (m : Manifest) (batch_hashes : gmap string string)
    (live_hash : string -> option string) : verdict :=
  verify_loop (sort_strings (map_to_list (compiled_against m)).*1) (compiled_against m) batch_hashes live_hash.

Definition cycle_reason : string :=
  "compiledAgainst provider cycle has no stable candidate contract set; keeping live generations".

Inductive outcome (A : Type) := Done (a : A) | Panic | OutOfFuel.
Arguments Done {A} a.
Arguments Panic {A}.
Arguments OutOfFuel {A}.

Section Resolve.
Context {P : Type} `{Countable P} (path_le : relation P) `{!RelDecision path_le}.
Notation candidate := (P * Manifest)%type.

(** The hashes the accepted providers publish; a later path overrides an earlier one. *)
Definition hashes_of (ordered : list candidate) (accepted : gset P) : gmap string string :=
  foldl (fun hashes c => if bool_decide (c.1 ∈ accepted) then publishes c.2 ∪ hashes else hashes) ∅ ordered.

Fixpoint next_providers (ordered : list candidate) (eligible : gset P) (hashes : gmap string string)
    (live_hash : string -> option string) : option (gset P) :=
  match ordered with
  | [] => Some ∅
  | (path, m) :: ordered =>
      if bool_decide (path ∈ eligible) then
        match verify_compiled_against_with m hashes live_hash with
        | Panicked => None
        | Accepted => (fun s => {[path]} ∪ s) <$> next_providers ordered eligible hashes live_hash
        | Drift _ => next_providers ordered eligible hashes live_hash
        end
      else next_providers ordered eligible hashes live_hash
  end.

Definition toggling (eligible : gset P) (cycle : list (gset P)) : gset P :=
  foldl (fun union state => union ∪ state) ∅ cycle ∖
  foldl (fun intersection state => intersection ∩ state) eligible cycle.

(** The search loop; the answer is the providers accepted and those given up for oscillating. *)
Fixpoint stabilize (fuel : nat) (ordered : list candidate) (live_hash : string -> option string)
    (eligible accepted cycle_rejections : gset P) (history : list (gset P)) : outcome (gset P * gset P) :=
  match fuel with
  | O => OutOfFuel
  | S fuel =>
      let history := history ++ [accepted] in
      match next_providers ordered eligible (hashes_of ordered accepted) live_hash with
      | None => Panic
      | Some next =>
          if bool_decide (next = accepted) then Done (accepted, cycle_rejections)
          else
            match position (fun seen => bool_decide (seen = next)) history with
            | Some cycle_start =>
                let t := toggling eligible (drop cycle_start history ++ [next]) in
                stabilize fuel ordered live_hash (eligible ∖ t) (eligible ∖ t) (cycle_rejections ∪ t) []
            | None => stabilize fuel ordered live_hash eligible next cycle_rejections history
            end
      end
  end.

Fixpoint reject_loop (ordered : list candidate) (initially_rejected : gset P) (hashes : gmap string string)
    (live_hash : string -> option string) (rejected : gmap P string) : outcome (gmap P string) :=
  match ordered with
  | [] => Done rejected
  | (path, m) :: ordered =>
      if bool_decide (path ∈ initially_rejected) || bool_decide (is_Some (rejected !! path)) then
        reject_loop ordered initially_rejected hashes live_hash rejected
      else
        match verify_compiled_against_with m hashes live_hash with
        | Panicked => Panic
        | Drift reason => reject_loop ordered initially_rejected hashes live_hash (<[path := reason]> rejected)
        | Accepted => reject_loop ordered initially_rejected hashes live_hash rejected
        end
  end.

Definition eligible_providers (ordered : list candidate) (initially_rejected : gset P) : gset P :=
  list_to_set (filterb (fun c => negb (bool_decide (c.1 ∈ initially_rejected)) && negb (bool_decide (publishes c.2 = ∅))) ordered).*1.

Definition candidate_le (a b : candidate) : Prop := path_le a.1 b.1.
#[local] Instance candidate_le_dec : RelDecision candidate_le := fun a b => decide (path_le a.1 b.1).
Definition sort_candidates (candidates : list candidate) : list candidate := merge_sort candidate_le candidates.

Definition resolve_contract_rejections (candidates : list candidate) (initially_rejected : gset P)
    (live_hash : string -> option string) : outcome (gmap P string) :=
  let ordered := sort_candidates candidates in
  let eligible := eligible_providers ordered initially_rejected in
  match stabilize (2 ^ S (size eligible)) ordered live_hash eligible eligible ∅ [] with
  | Done (accepted, cycle_rejections) =>
      reject_loop ordered initially_rejected (hashes_of ordered accepted) live_hash (gset_to_gmap cycle_reason cycle_rejections)
  | Panic => Panic
  | OutOfFuel => OutOfFuel
  end.
End Resolve.

(** ** One candidate *)
Definition drifts (m : Manifest) (batch_hashes : gmap string string) (live_hash : string -> option string) (iface : string) : Prop :=
  exists built published, compiled_against m !! iface = Some built /\ built <> "" /\
    effective batch_hashes live_hash iface = Some published /\ published <> "" /\ published <> built.

Definition sliceable (h : string) : Prop := is_Some (slice12 h).

Lemma contracts_verify_loop names m batch_hashes live_hash :
  (forall n, n ∈ names -> is_Some (compiled_against m !! n)) ->
  match verify_loop names (compiled_against m) batch_hashes live_hash with
  | Accepted => forall n, n ∈ names -> ~ drifts m batch_hashes live_hash n
  | Drift reason => exists l1 n l2 built published b p, names = l1 ++ n :: l2 /\
      (forall k, k ∈ l1 -> ~ drifts m batch_hashes live_hash k) /\ drifts m batch_hashes live_hash n /\
      compiled_against m !! n = Some built /\ effective batch_hashes live_hash n = Some published /\
      slice12 built = Some b /\ slice12 published = Some p /\ reason = drift_message n b p
  | Panicked => exists n built published, n ∈ names /\ drifts m batch_hashes live_hash n /\ compiled_against m !! n = Some built /\
      effective batch_hashes live_hash n = Some published /\ (slice12 built = None \/ slice12 published = None)
  end.
Proof.
  induction names as [|n names IH]; intros Hin; cbn [verify_loop]; [intros n Hn; by apply elem_of_nil in Hn|].
  destruct (Hin n) as [built Eb]; [by left|]. rewrite Eb. specialize (IH (fun k Hk => Hin k (list_elem_of_further _ _ _ Hk))).
  assert (Hskip : ~ drifts m batch_hashes live_hash n -> match verify_loop names (compiled_against m) batch_hashes live_hash with
    | Accepted => forall k, k ∈ n :: names -> ~ drifts m batch_hashes live_hash k
    | Drift reason => exists l1 k l2 built published b p, n :: names = l1 ++ k :: l2 /\
        (forall k, k ∈ l1 -> ~ drifts m batch_hashes live_hash k) /\ drifts m batch_hashes live_hash k /\
        compiled_against m !! k = Some built /\ effective batch_hashes live_hash k = Some published /\
        slice12 built = Some b /\ slice12 published = Some p /\ reason = drift_message k b p
    | Panicked => exists k built published, k ∈ n :: names /\ drifts m batch_hashes live_hash k /\ compiled_against m !! k = Some built /\
        effective batch_hashes live_hash k = Some published /\ (slice12 built = None \/ slice12 published = None)
    end).
  { intros Hnd. destruct (verify_loop names _ _ _).
    - intros k [->|Hk]%elem_of_cons; [done|by apply IH].
    - destruct IH as (l1 & k & l2 & bu & pu & b & p & -> & Hl1 & Hrest). exists (n :: l1), k, l2, bu, pu, b, p.
      split; [done|]. split; [|done]. intros x [->|Hx]%elem_of_cons; [done|by apply Hl1].
    - destruct IH as (k & bu & pu & Hk & Hrest). exists k, bu, pu. split; [by right|done]. }
  destruct (String.eqb_spec built "") as [->|Hb].
  { apply Hskip. intros (? & ? & E & ? & _). rewrite Eb in E. by injection E as <-. }
  destruct (effective batch_hashes live_hash n) as [published|] eqn:Ep.
  2:{ apply Hskip. intros (? & ? & _ & _ & E & _). rewrite Ep in E. done. }
  destruct (String.eqb_spec published "") as [->|Hp].
  { apply Hskip. intros (? & ? & _ & _ & E & ? & _). rewrite Ep in E. by injection E as <-. }
  destruct (String.eqb_spec published built) as [->|Hpb]; cbn [negb andb].
  { apply Hskip. intros (? & ? & E & _ & E' & _ & Hne). rewrite Ep in E'. rewrite Eb in E. injection E as <-. injection E' as <-. done. }
  assert (Hd : drifts m batch_hashes live_hash n) by by exists built, published.
  destruct (slice12 built) as [b|] eqn:E1; [destruct (slice12 published) as [p|] eqn:E2|].
  - exists [], n, names, built, published, b, p. split_and!; try done. intros k Hk. by apply elem_of_nil in Hk.
  - exists n, built, published. split_and!; auto. by left.
  - exists n, built, published. split_and!; auto. by left.
Qed.

Lemma contracts_names m n : n ∈ sort_strings (map_to_list (compiled_against m)).*1 <-> is_Some (compiled_against m !! n).
Proof.
  rewrite sort_strings_perm, list_elem_of_fmap. split.
  - intros ([k v] & -> & E%elem_of_map_to_list). by exists v.
  - intros [v E]. exists (n, v). split; [done|]. by apply elem_of_map_to_list.
Qed.

(** One manifest's verdict: it is accepted exactly when no contract it compiled against drifts
    (an empty hash on either side is not compared, and an interface nobody publishes is not checked);
    it is refused for the drifting interface that comes first by name; and it panics only when a
    hash it has to quote cannot be sliced at byte 12. *)
Theorem contracts_verify_exact m batch_hashes live_hash :
  let v := verify_compiled_against_with m batch_hashes live_hash in
  (v = Accepted <-> forall n, ~ drifts m batch_hashes live_hash n) /\
  (forall reason, v = Drift reason -> exists n built published b p,
     drifts m batch_hashes live_hash n /\ (forall k, drifts m batch_hashes live_hash k -> String.le n k) /\
     compiled_against m !! n = Some built /\ effective batch_hashes live_hash n = Some published /\
     slice12 built = Some b /\ slice12 published = Some p /\ reason = drift_message n b p) /\
  (v = Panicked -> exists n built published, compiled_against m !! n = Some built /\
     effective batch_hashes live_hash n = Some published /\ (~ sliceable built \/ ~ sliceable published)).
Proof.
  cbv zeta. unfold verify_compiled_against_with. set (names := sort_strings _).
  pose proof (contracts_verify_loop names m batch_hashes live_hash (fun n Hn => proj1 (contracts_names m n) Hn)) as Hv.
  assert (Hdom : forall n, drifts m batch_hashes live_hash n -> n ∈ names) by (intros n (built & ? & E & _); apply contracts_names; by exists built).
  destruct (verify_loop names _ _ _) as [|reason|]; split_and!; try done.
  - split; [|done]. intros _ n Hd. by apply (Hv n); [apply Hdom|].
  - split; [done|]. intros Hall. destruct Hv as (? & n & ? & ? & ? & ? & ? & _ & _ & Hd & _). by destruct (Hall n).
  - intros reason' [= <-]. destruct Hv as (l1 & n & l2 & built & published & b & p & E & Hl1 & Hd & Hrest).
    exists n, built, published, b, p. split; [done|]. split; [|done]. intros k Hk. pose proof (Hdom k Hk) as Hin.
    rewrite E in Hin. apply elem_of_app in Hin as [Hin|[->|Hin]%elem_of_cons]; [by destruct (Hl1 k Hin)|reflexivity|].
    pose proof (sort_strings_sorted (map_to_list (compiled_against m)).*1) as Hs. fold names in Hs. rewrite E in Hs.
    apply StronglySorted_app in Hs as (_ & _ & Hs). inversion Hs as [|? ? _ Hf]; subst. rewrite Forall_forall in Hf. by apply Hf.
  - split; [done|]. intros Hall. destruct Hv as (n & ? & ? & _ & Hd & _). by destruct (Hall n).
  - intros _. destruct Hv as (n & built & published & _ & _ & E1 & E2 & Hsl). exists n, built, published. split_and!; try done.
    unfold sliceable. rewrite <- !eq_None_not_Some. done.
Qed.

(** ** Counting sets of providers *)
Fixpoint all_masks (n : nat) : list (list bool) :=
  match n with
  | O => [[]]
  | S n => (cons true <$> all_masks n) ++ (cons false <$> all_masks n)
  end.

Lemma length_all_masks n : length (all_masks n) = (2 ^ n)%nat.
Proof. induction n as [|n IH]; simpl; [done|]. rewrite length_app, !length_fmap, IH. lia. Qed.

Lemma all_masks_complete l : l ∈ all_masks (length l).
Proof. induction l as [|[] l IH]; simpl; [by left|..]; apply elem_of_app; [left|right]; by apply list_elem_of_fmap_2. Qed.

Lemma bool_decide_eq_bool_decide (A B : Prop) `{Decision A, Decision B} : bool_decide A = bool_decide B -> A <-> B.
Proof. destruct (bool_decide_reflect A), (bool_decide_reflect B); done || tauto. Qed.

Section Subsets.
Context {P : Type} `{Countable P}.
Implicit Types (S T : gset P).

Definition mask (U S : gset P) : list bool := (fun x => bool_decide (x ∈ S)) <$> elements U.

Lemma mask_inj U S T : S ⊆ U -> T ⊆ U -> mask U S = mask U T -> S = T.
Proof.
  intros HS HT E. apply set_eq. intros x. destruct (decide (x ∈ U)) as [Hx|Hx].
  - apply elem_of_elements, list_elem_of_lookup in Hx as [i Hi]. apply (f_equal (fun l => l !! i)) in E. unfold mask in E.
    rewrite !list_lookup_fmap, Hi in E. injection E as E. by apply bool_decide_eq_bool_decide in E.
  - split; intros ?; destruct Hx; [by apply HS|by apply HT].
Qed.

(** Pairwise different subsets of a set of [n] elements are at most [2 ^ n]. *)
Lemma subsets_bound (U : gset P) (l : list (gset P)) :
  NoDup l -> Forall (fun S => S ⊆ U) l -> (length l <= 2 ^ size U)%nat.
Proof.
  intros Hnd Hsub. rewrite <- length_all_masks, <- (length_fmap (mask U) l). apply submseteq_length, NoDup_submseteq.
  - induction Hnd as [|S l Hni _ IH]; csimpl; [constructor|]. apply Forall_cons in Hsub as [HS Hsub]. constructor; [|by apply IH].
    intros (T & E & HT)%list_elem_of_fmap. rewrite Forall_forall in Hsub. apply mask_inj in E; [by subst|done|by apply Hsub].
  - intros m (S & -> & _)%list_elem_of_fmap. pose proof (all_masks_complete (mask U S)) as Hm.
    unfold mask in Hm at 2. by rewrite length_fmap in Hm.
Qed.
End Subsets.

(** ** The search *)
Section Search.
Context {P : Type} `{Countable P}.
Implicit Types (S T : gset P).

Lemma toggling_elem (eligible : gset P) cycle x :
  x ∈ toggling eligible cycle <->
  (exists S, S ∈ cycle /\ x ∈ S) /\ ~ (x ∈ eligible /\ forall S, S ∈ cycle -> x ∈ S).
Proof.
  unfold toggling. rewrite elem_of_difference.
  assert (Hu : forall (l : list (gset P)) U, x ∈ foldl (fun union state => union ∪ state) U l <-> x ∈ U \/ exists S, S ∈ l /\ x ∈ S).
  { induction l as [|S l IH]; intros U; cbn [foldl]; [split; [by left|intros [?|(? & Hin & _)]; [done|by apply elem_of_nil in Hin]]|].
    rewrite IH, elem_of_union. split.
    - intros [[?|?]|(T & ? & ?)]; [by left|right; exists S; split; [by left|done]|right; exists T; split; [by right|done]].
    - intros [?|(T & [->|?]%elem_of_cons & ?)]; [tauto..|right; by exists T]. }
  assert (Hi : forall (l : list (gset P)) U, x ∈ foldl (fun i state => i ∩ state) U l <-> x ∈ U /\ forall S, S ∈ l -> x ∈ S).
  { induction l as [|S l IH]; intros U; cbn [foldl]; [split; [intros ?; split; [done|intros ? Hin; by apply elem_of_nil in Hin]|tauto]|].
    rewrite IH, elem_of_intersection. split.
    - intros [[? ?] Hall]. split; [done|]. intros T [->|?]%elem_of_cons; [done|by apply Hall].
    - intros [? Hall]. split; [split; [done|apply Hall; by left]|]. intros T ?. apply Hall. by right. }
  rewrite Hu, Hi. rewrite elem_of_empty. tauto.
Qed.

Lemma sets_differ S T : S <> T -> exists x, (x ∈ S /\ x ∉ T) \/ (x ∈ T /\ x ∉ S).
Proof.
  intros Hne. destruct (set_choose_or_empty (S ∖ T ∪ T ∖ S)) as [[x Hx]|He].
  - exists x. rewrite elem_of_union, !elem_of_difference in Hx. done.
  - destruct Hne. apply set_eq. intros x. specialize (He x). rewrite elem_of_union, !elem_of_difference, elem_of_empty in He.
    destruct (decide (x ∈ S)), (decide (x ∈ T)); tauto.
Qed.

Lemma toggling_shrinks (eligible accepted next : gset P) cycle :
  accepted ∈ cycle -> next ∈ cycle -> next <> accepted -> Forall (fun S => S ⊆ eligible) cycle ->
  toggling eligible cycle ⊆ eligible /\ (size (eligible ∖ toggling eligible cycle) < size eligible)%nat.
Proof.
  intros Ha Hn Hne Hsub. rewrite Forall_forall in Hsub.
  assert (Ht : toggling eligible cycle ⊆ eligible) by (intros x [(S & HS & Hx) _]%toggling_elem; by apply (Hsub S)).
  split; [done|]. destruct (sets_differ next accepted Hne) as (x & Hx). apply subset_size.
  assert (x ∈ toggling eligible cycle) as Hxt.
  { apply toggling_elem. destruct Hx as [[H1 H2]|[H1 H2]]; (split; [eexists; split; [|exact H1]; done|]);
      intros [_ Hall]; apply H2; by apply Hall. }
  split; [intros y Hy; apply elem_of_difference in Hy; tauto|]. intros Hc. specialize (Hc x (Ht x Hxt)).
  apply elem_of_difference in Hc. tauto.
Qed.

Lemma next_providers_spec (ordered : list (P * Manifest)) eligible hashes live :
  match next_providers ordered eligible hashes live with
  | None => exists c, c ∈ ordered /\ verify_compiled_against_with c.2 hashes live = Panicked
  | Some next => forall x, x ∈ next <-> x ∈ eligible /\ exists m, (x, m) ∈ ordered /\ verify_compiled_against_with m hashes live = Accepted
  end.
Proof.
  induction ordered as [|[path m] ordered IH]; cbn [next_providers].
  - intros x. rewrite elem_of_empty. split; [done|]. intros (_ & m & Hin & _). by apply elem_of_nil in Hin.
  - assert (Hcons : forall x, (exists m', (x, m') ∈ (path, m) :: ordered /\ verify_compiled_against_with m' hashes live = Accepted) <->
              (x = path /\ verify_compiled_against_with m hashes live = Accepted) \/
              exists m', (x, m') ∈ ordered /\ verify_compiled_against_with m' hashes live = Accepted).
    { intros x. split.
      - intros (m' & [[= -> ->]|Hin]%elem_of_cons & Hv); [by left|right; by exists m'].
      - intros [[-> Hv]|(m' & Hin & Hv)]; [exists m|exists m']; (split; [|done]); [by left|by right]. }
    destruct (bool_decide_reflect (path ∈ eligible)) as [Hp|Hp];
      [destruct (verify_compiled_against_with m hashes live) as [|reason|] eqn:Ev|]; cycle 2.
    1: by (exists (path, m); split; [left|]).
    all: destruct (next_providers ordered eligible hashes live) as [next|]; cbn [fmap option_fmap option_map];
      [|destruct IH as (c & Hc & Hv); exists c; split; [by right|done]].
    + intros x. rewrite Hcons, IH. split; [tauto|]. intros [? [[-> _]|?]]; [done|tauto].
    + intros x. rewrite elem_of_union, elem_of_singleton, Hcons, IH. split.
      * intros [->|?]; [split; [done|by left]|tauto].
      * intros [? [[-> _]|?]]; tauto.
    + intros x. rewrite Hcons, IH. split; [tauto|]. intros [? [[_ ?]|?]]; [done|tauto].
Qed.

(** Some candidate cannot be compared: the panic. *)
Definition stuck (ordered : list (P * Manifest)) (live : string -> option string) : Prop :=
  exists c A, c ∈ ordered /\ verify_compiled_against_with c.2 (hashes_of ordered A) live = Panicked.

(** The search panics or ends on a stable set, with [2 ^ (n + 1)] rounds for [n] eligible providers. *)
Lemma contracts_stabilize (ordered : list (P * Manifest)) live fuel eligible accepted cycle history :
  NoDup history -> Forall (fun S => S ⊆ eligible) history -> accepted ⊆ eligible -> accepted ∉ history ->
  (2 ^ S (size eligible) <= fuel + length history)%nat ->
  stabilize fuel ordered live eligible accepted cycle history = Panic /\ stuck ordered live \/
  exists accepted' eligible' cycle', stabilize fuel ordered live eligible accepted cycle history = Done (accepted', cycle') /\
    (forall x, x ∈ accepted' <-> x ∈ eligible' /\
       exists m, (x, m) ∈ ordered /\ verify_compiled_against_with m (hashes_of ordered accepted') live = Accepted) /\
    (forall x, x ∈ cycle' <-> x ∈ cycle \/ x ∈ eligible /\ x ∉ eligible') /\ eligible' ⊆ eligible.
Proof.
  revert eligible accepted cycle history. induction fuel as [|fuel IH]; intros eligible accepted cycle history Hnd Hsub Hacc Hni Hfuel;
    assert (Hnd' : NoDup (history ++ [accepted])) by (apply NoDup_app; split_and!; [done| |apply NoDup_singleton]; intros S HS ->%list_elem_of_singleton; done);
    assert (Hsub' : Forall (fun S => S ⊆ eligible) (history ++ [accepted])) by (apply Forall_app; split; [done|by constructor]);
    pose proof (subsets_bound eligible _ Hnd' Hsub') as Hb; rewrite length_app in Hb; simpl in Hb, Hfuel; [lia|].
  cbn [stabilize]. pose proof (next_providers_spec ordered eligible (hashes_of ordered accepted) live) as Hnext.
  destruct (next_providers ordered eligible (hashes_of ordered accepted) live) as [next|];
    [|left; split; [done|]; destruct Hnext as (c & Hc & Hv); by exists c, accepted].
  destruct (bool_decide_reflect (next = accepted)) as [->|Hne].
  { right. exists accepted, eligible, cycle. split_and!; try done. intros x. tauto. }
  assert (Hns : next ⊆ eligible) by (intros x Hx; apply Hnext in Hx; tauto).
  destruct (position (fun seen => bool_decide (seen = next)) (history ++ [accepted])) as [start|] eqn:Ep.
  - apply position_Some in Ep as (l1 & S & l2 & E & <- & ->%bool_decide_eq_true & _). rewrite E, drop_app_length.
    set (states := (next :: l2) ++ [next]).
    assert (Ha : accepted ∈ states).
    { unfold states. apply elem_of_app. left. destruct l2 as [|z l2] using rev_ind.
      - apply app_inj_tail in E as [_ <-]. done.
      - clear IHl2. change (l1 ++ next :: l2 ++ [z]) with (l1 ++ (next :: l2) ++ [z]) in E. rewrite app_assoc in E. apply app_inj_tail in E as [_ ->].
        apply elem_of_cons. right. apply elem_of_app. right. by left. }
    destruct (toggling_shrinks eligible accepted next states Ha) as [Ht Hsz]; [by left|done|..].
    { rewrite E in Hsub'. apply Forall_app in Hsub' as [_ Hs]. unfold states. apply Forall_app. split; [done|by constructor]. }
    set (t := toggling eligible states) in *.
    destruct (IH (eligible ∖ t) (eligible ∖ t) (cycle ∪ t) []) as [?|(acc' & el' & cyc' & Er & H1 & H2 & H3)]; [constructor|constructor|done|apply not_elem_of_nil|..|by left|].
    { assert (2 ^ S (size (eligible ∖ t)) <= 2 ^ size eligible)%nat by (apply Nat.pow_le_mono_r; lia). simpl in *. lia. }
    right. exists acc', el', cyc'. split_and!; try done.
    + intros x. rewrite H2, elem_of_union, elem_of_difference. destruct (decide (x ∈ t)) as [Hx|Hx].
      * split; [intros [[?|?]|?]; [by left|right; split; [by apply Ht|]|right; tauto]|intros _; left; by right].
        intros Hc%H3. apply elem_of_difference in Hc. tauto.
      * tauto.
    + etrans; [exact H3|]. intros x Hx. apply elem_of_difference in Hx. tauto.
  - apply position_None in Ep. rewrite Forall_forall in Ep.
    destruct (IH eligible next cycle (history ++ [accepted])) as [?|(acc' & el' & cyc' & Er & Hrest)]; try done; [..|by left|].
    + intros Hin. specialize (Ep next Hin). by rewrite bool_decide_eq_true_2 in Ep.
    + rewrite length_app. simpl. lia.
    + right. by exists acc', el', cyc'.
Qed.

Lemma hashes_of_source (ordered : list (P * Manifest)) A n h :
  hashes_of ordered A !! n = Some h -> exists c, c ∈ ordered /\ publishes c.2 !! n = Some h.
Proof.
  unfold hashes_of. assert (Hg : forall (l : list (P * Manifest)) (m : gmap string string),
    foldl (fun hashes c => if bool_decide (c.1 ∈ A) then publishes c.2 ∪ hashes else hashes) m l !! n = Some h ->
    m !! n = Some h \/ exists c, c ∈ l /\ publishes c.2 !! n = Some h).
  { induction l as [|c l IH]; intros m; cbn [foldl]; [by left|]. intros [E|(d & Hd & E)]%IH; [|right; exists d; split; [by right|done]].
    destruct (bool_decide (c.1 ∈ A)); [|by left]. apply lookup_union_Some_raw in E as [E|[_ E]]; [|by left].
    right. exists c. split; [by left|done]. }
  intros [E|?]%Hg; [by rewrite lookup_empty in E|done].
Qed.

(** A contract the gate would have to quote and cannot: a candidate was built against a hash of [n] other
    than the one a candidate or the running generation publishes, and one of the two is cut inside a
    character at byte 12. *)
Definition unquotable (candidates : list (P * Manifest)) (live : string -> option string) : Prop :=
  exists c n built published, c ∈ candidates /\ compiled_against c.2 !! n = Some built /\ built <> published /\
    (live n = Some published \/ exists d, d ∈ candidates /\ publishes d.2 !! n = Some published) /\
    (~ sliceable built \/ ~ sliceable published).

Lemma contracts_stuck ordered live : stuck ordered live -> unquotable ordered live.
Proof.
  intros (c & A & Hc & E). unfold verify_compiled_against_with in E. set (names := sort_strings _) in E.
  pose proof (contracts_verify_loop names c.2 (hashes_of ordered A) live (fun n Hn => proj1 (contracts_names c.2 n) Hn)) as Hv.
  rewrite E in Hv. destruct Hv as (n & built & published & _ & (b' & p' & Eb' & _ & Ep' & _ & Hne) & Eb & Ep & Hs).
  rewrite Eb in Eb'. rewrite Ep in Ep'. injection Eb' as <-. injection Ep' as <-.
  exists c, n, built, published. split_and!; [done|done|by intros ->| |unfold sliceable; by rewrite <- !eq_None_not_Some].
  unfold effective in Ep. destruct (hashes_of ordered A !! n) as [h|] eqn:Eh; [|by left]. injection Ep as ->.
  right. by apply hashes_of_source in Eh.
Qed.

Lemma contracts_reject_loop (ordered : list (P * Manifest)) initially hashes live rejected :
  NoDup ordered.*1 ->
  reject_loop ordered initially hashes live rejected = Panic /\
    (exists c, c ∈ ordered /\ verify_compiled_against_with c.2 hashes live = Panicked) \/
  exists rejected', reject_loop ordered initially hashes live rejected = Done rejected' /\
    (forall x r, rejected' !! x = Some r <-> rejected !! x = Some r \/
      rejected !! x = None /\ x ∉ initially /\ exists m, (x, m) ∈ ordered /\ verify_compiled_against_with m hashes live = Drift r) /\
    (forall x m, (x, m) ∈ ordered -> x ∉ initially -> rejected !! x = None -> verify_compiled_against_with m hashes live <> Panicked).
Proof.
  revert rejected. induction ordered as [|[path m] ordered IH]; intros rejected Hnd; cbn [reject_loop].
  - right. exists rejected. split; [done|]. split; [|intros x m Hin; by apply elem_of_nil in Hin].
    intros x r. split; [by left|]. intros [?|(_ & _ & m & Hin & _)]; [done|by apply elem_of_nil in Hin].
  - rewrite fmap_cons in Hnd. apply NoDup_cons in Hnd as [Hni Hnd].
    assert (Hcons : forall x r, (exists m', (x, m') ∈ (path, m) :: ordered /\ verify_compiled_against_with m' hashes live = Drift r) <->
              (x = path /\ verify_compiled_against_with m hashes live = Drift r) \/
              exists m', (x, m') ∈ ordered /\ verify_compiled_against_with m' hashes live = Drift r).
    { intros x r. split.
      - intros (m' & [[= -> ->]|Hin]%elem_of_cons & Hv); [by left|right; by exists m'].
      - intros [[-> Hv]|(m' & Hin & Hv)]; [exists m|exists m']; (split; [|done]); [by left|by right]. }
    assert (Hpath : forall m', (path, m') ∉ ordered) by (intros m' Hin; apply Hni, (list_elem_of_fmap_2 fst _ _ Hin)).
    (* What the rest leaves, when this row adds nothing. *)
    assert (Hskip : (path ∈ initially \/ is_Some (rejected !! path) \/ verify_compiled_against_with m hashes live = Accepted) ->
      reject_loop ordered initially hashes live rejected = Panic /\ (exists c, c ∈ (path, m) :: ordered /\ verify_compiled_against_with c.2 hashes live = Panicked) \/
      exists rejected', reject_loop ordered initially hashes live rejected = Done rejected' /\
        (forall x r, rejected' !! x = Some r <-> rejected !! x = Some r \/
          rejected !! x = None /\ x ∉ initially /\ exists m', (x, m') ∈ (path, m) :: ordered /\ verify_compiled_against_with m' hashes live = Drift r) /\
        (forall x m', (x, m') ∈ (path, m) :: ordered -> x ∉ initially -> rejected !! x = None -> verify_compiled_against_with m' hashes live <> Panicked)).
    { intros Hd. destruct (IH rejected Hnd) as [[E (c & Hc & Hv)]|(rej & E & Hrej & Hok)]; [left; split; [done|]; exists c; split; [by right|done]|].
      right. exists rej. split; [done|]. split.
      - intros x r. rewrite Hrej, Hcons. split; [tauto|]. intros [?|(Hn & Hx & [[-> Hv]|?])]; [tauto| |tauto].
        destruct Hd as [?|[[? ?]|?]]; [done|congruence|congruence].
      - intros x m' [[= -> ->]|Hin]%elem_of_cons Hx Hn; [|by apply (Hok x)]. destruct Hd as [?|[[? ?]|E']]; [done|congruence|by rewrite E']. }
    destruct (bool_decide_reflect (path ∈ initially)) as [Hi|Hi]; cbn [orb]; [apply Hskip; tauto|].
    destruct (bool_decide_reflect (is_Some (rejected !! path))) as [Hr|Hr]; [apply Hskip; tauto|].
    destruct (verify_compiled_against_with m hashes live) as [|reason|] eqn:Ev; [apply Hskip; tauto| |left; split; [done|]; exists (path, m); split; [by left|done]].
    clear Hskip. destruct (IH (<[path := reason]> rejected) Hnd) as [[E (c & Hc & Hv)]|(rej & E & Hrej & Hok)];
      [left; split; [done|]; exists c; split; [by right|done]|]. right. exists rej. split; [done|]. split.
    + intros x r. rewrite Hrej, Hcons. destruct (decide (x = path)) as [->|Hne].
      * rewrite lookup_insert_eq. apply eq_None_not_Some in Hr. split; [intros [[= <-]|(? & _)]; [right; tauto|done]|].
        intros [Hx|(_ & _ & [[_ [= <-]]|(m' & Hx & _)])]; [congruence|by left|by destruct (Hpath m')].
      * rewrite lookup_insert_ne by done. split; [tauto|]. intros [?|(? & ? & [[? _]|?])]; tauto.
    + intros x m' [[= -> ->]|Hin]%elem_of_cons Hx Hn; [by rewrite Ev|]. apply (Hok x); [done..|].
      rewrite lookup_insert_ne; [done|]. intros ->. by apply (Hpath m').
Qed.

Context (path_le : relation P) `{!RelDecision path_le}.

Lemma sort_candidates_perm candidates : sort_candidates path_le candidates ≡ₚ candidates.
Proof. apply merge_sort_Permutation. Qed.

Lemma eligible_providers_elem (ordered : list (P * Manifest)) initially x :
  x ∈ eligible_providers ordered initially <-> x ∉ initially /\ exists m, (x, m) ∈ ordered /\ publishes m <> ∅.
Proof.
  unfold eligible_providers. rewrite elem_of_list_to_set, list_elem_of_fmap. split.
  - intros ([p m] & -> & [[H1%negb_true_iff%bool_decide_eq_false H2%negb_true_iff%bool_decide_eq_false]%andb_true_iff Hin]%elem_of_filterb).
    split; [done|]. by exists m.
  - intros (Hni & m & Hin & Hne). exists (x, m). split; [done|]. apply elem_of_filterb. split; [|done]. cbn [fst snd].
    by rewrite !bool_decide_eq_false_2.
Qed.

(** C10. Whatever the candidates, found at distinct paths, and whatever the running generations publish, the
    search of the batch's contract gate ends. It panics only when a contract it has to quote in a refusal
    cannot be cut at byte 12. Otherwise it ends with a consistent outcome: with [accepted] the providers
    it settles on, they are exactly the publishing candidates that are not refused; every candidate that
    is not refused agrees with the contracts those providers (and, for the rest, the running generations)
    publish; and every refusal is either a drift against those very contracts or a publishing provider
    given up because the search found no stable set for it. *)
Theorem contracts_resolved candidates initially live :
  NoDup candidates.*1 ->
  match resolve_contract_rejections path_le candidates initially live with
  | OutOfFuel => False
  | Panic => unquotable candidates live
  | Done rejected => exists accepted : gset P,
      let hashes := hashes_of (sort_candidates path_le candidates) accepted in
      (forall x m, (x, m) ∈ candidates -> x ∉ initially ->
         (x ∈ accepted <-> publishes m <> ∅ /\ rejected !! x = None) /\
         (rejected !! x = None -> verify_compiled_against_with m hashes live = Accepted)) /\
      (forall x, x ∈ initially -> x ∉ accepted /\ rejected !! x = None) /\
      (forall x reason, rejected !! x = Some reason ->
         exists m, (x, m) ∈ candidates /\ x ∉ initially /\
           (verify_compiled_against_with m hashes live = Drift reason \/ reason = cycle_reason /\ publishes m <> ∅))
  end.
Proof.
  intros Hnd. unfold resolve_contract_rejections. set (ordered := sort_candidates path_le candidates).
  pose proof (sort_candidates_perm candidates) as Hperm. fold ordered in Hperm.
  assert (Hnd' : NoDup ordered.*1) by (by rewrite Hperm).
  assert (Hstuck : stuck ordered live -> unquotable candidates live).
  { intros (c & n & built & published & Hc & Hrest)%contracts_stuck. exists c, n, built, published. rewrite <- Hperm. split; [done|].
    destruct Hrest as (H1 & H2 & [H3|(d & Hd & H3)] & H4); split_and!; try done; [by left|right; exists d; by rewrite <- Hperm]. }
  set (el := eligible_providers ordered initially).
  destruct (contracts_stabilize ordered live (2 ^ S (size el)) el el ∅ []) as [[-> Hst]|(acc & el' & cyc & -> & H1 & H2 & H3)];
    [constructor|constructor|done|apply not_elem_of_nil|simpl; lia|by apply Hstuck|].
  destruct (contracts_reject_loop ordered initially (hashes_of ordered acc) live (gset_to_gmap cycle_reason cyc) Hnd')
    as [[-> (c & Hc & Hv)]|(rej & -> & Hrej & Hok)]; [apply Hstuck; by exists c, acc|].
  assert (Huniq : forall x m m', (x, m) ∈ ordered -> (x, m') ∈ ordered -> m = m').
  { intros x m m' Hm Hm'. apply list_elem_of_lookup in Hm as [i Hi]. apply list_elem_of_lookup in Hm' as [j Hj].
    assert (i = j) as ->; [|congruence]. apply (NoDup_lookup _ _ _ x Hnd'); by rewrite list_lookup_fmap, ?Hi, ?Hj. }
  assert (Hcyc : forall x, x ∈ cyc <-> x ∈ el /\ x ∉ el') by (intros x; rewrite H2, elem_of_empty; tauto).
  assert (Hg : forall x r, gset_to_gmap cycle_reason cyc !! x = Some r <-> x ∈ cyc /\ r = cycle_reason).
  { intros x r. rewrite lookup_gset_to_gmap_Some. split; intros [? ?]; by split. }
  assert (Hnone : forall x, gset_to_gmap cycle_reason cyc !! x = None <-> x ∉ cyc) by (intros x; by rewrite lookup_gset_to_gmap_None).
  assert (Hrn : forall x m, (x, m) ∈ ordered -> x ∉ initially -> rej !! x = None <->
             x ∉ cyc /\ verify_compiled_against_with m (hashes_of ordered acc) live = Accepted).
  { intros x m Hin Hni. split.
    - intros En. assert (Hx : x ∉ cyc) by (intros Hc; assert (rej !! x = Some cycle_reason); [apply Hrej; left; by apply Hg|congruence]).
      split; [done|]. pose proof (Hok x m Hin Hni (proj2 (Hnone x) Hx)) as Hnp.
      destruct (verify_compiled_against_with m (hashes_of ordered acc) live) as [|r|] eqn:Ev; [done| |done].
      assert (rej !! x = Some r); [|congruence]. apply Hrej. right. split; [by apply Hnone|]. split; [done|]. by exists m.
    - intros [Hx Hv]. destruct (rej !! x) as [r|] eqn:Er; [|done].
      apply Hrej in Er as [[Hc _]%Hg|(_ & _ & m' & Hin' & Hv')]; [done|]. rewrite (Huniq _ _ _ Hin' Hin) in Hv'. congruence. }
  exists acc. cbv zeta. split_and!.
  - intros x m Hin Hni. rewrite <- Hperm in Hin. split; [|intros En; by apply (Hrn x m)]. rewrite H1, (Hrn x m) by done. split.
    + intros (Hel & m' & Hin' & Hv). rewrite (Huniq _ _ _ Hin' Hin) in Hv.
      pose proof (proj1 (eligible_providers_elem ordered initially x) (H3 x Hel)) as (_ & m2 & Hin2 & Hp).
      rewrite (Huniq _ _ _ Hin2 Hin) in Hp. split_and!; try done. intros Hc%Hcyc. tauto.
    + intros (Hp & Hx & Hv). split; [|by exists m]. destruct (decide (x ∈ el')) as [|Hn]; [done|]. destruct Hx. apply Hcyc.
      split; [|done]. apply eligible_providers_elem. split; [done|]. by exists m.
  - intros x Hi. split; [intros (Hel & _)%H1; apply H3, eligible_providers_elem in Hel; tauto|].
    destruct (rej !! x) as [r|] eqn:Er; [|done]. apply Hrej in Er as [[Hc _]%Hg|(_ & Hni & _)]; [|done].
    apply Hcyc in Hc as [Hel _]. apply eligible_providers_elem in Hel. tauto.
  - intros x r Er. apply Hrej in Er as [[Hc ->]%Hg|(_ & Hni & m & Hin & Hv)].
    + apply Hcyc in Hc as [Hel _]. apply eligible_providers_elem in Hel as (Hni & m & Hin & Hp). exists m. rewrite <- Hperm. auto.
    + exists m. rewrite <- Hperm. auto.
Qed.
End Search.
End Contracts.

(** ** Concrete runs *)
Module ContractsExamples.
Import Contracts.

Definition plugin (name : string) (pubs against : gmap string string) : Manifest := mkManifest name "3.0" ∅ ∅ pubs against.
Definition nobody : string -> option string := fun _ => None.

(** A provider that drifts falls out, and its consumer is checked against the running generation. *)
Definition batch : list (Z * Manifest) :=
  [(1, plugin "menus" {["menus" := "new"]} {["db" := "old"]}); (2, plugin "db" {["db" := "other"]} ∅);
   (3, plugin "shop" ∅ {["menus" := "live"]})].
Definition running (n : string) : option string := if String.eqb n "menus" then Some "live" else None.

Example batch_refusals : (fun r => (map_to_list r).*1) <$> (match resolve_contract_rejections Z.le batch ∅ running with Done r => Some r | _ => None end) = Some [1].
Proof. vm_compute. reflexivity. Qed.

(** Two providers that each drift exactly when the other is accepted have no stable set. *)
Definition oscillating : list (Z * Manifest) :=
  [(1, plugin "p" {["ip" := "p2"]} {["iq" := "q1"]}); (2, plugin "q" {["iq" := "q2"]} {["ip" := "p1"]})].
Definition old_generation (n : string) : option string :=
  if String.eqb n "ip" then Some "p1" else if String.eqb n "iq" then Some "q1" else None.
Example oscillating_refusals : (match resolve_contract_rejections Z.le oscillating ∅ old_generation with Done r => map_to_list r | _ => [] end) =
  [(2, cycle_reason); (1, cycle_reason)].
Proof. vm_compute. reflexivity. Qed.

(** A manifest of interface protocol 1 is not required to carry hexadecimal hashes, and a hash with a
    character across byte 12 makes the gate panic instead of refusing the plugin. *)
Definition unsliceable : list (Z * Manifest) :=
  [(1, plugin "menus" {["menus" := "0123456789abcdef"]} ∅); (2, plugin "shop" ∅ {["menus" := "0123456789aé"]})].
Lemma contracts_gate_panics : resolve_contract_rejections Z.le unsliceable ∅ nobody = Panic.
Proof. vm_compute. reflexivity. Qed.

Lemma batch_verdicts :
  match resolve_contract_rejections Z.le batch ∅ running with Done r => is_Some (r !! 1) /\ r !! 2 = None | _ => False end.
Proof. vm_compute. split; [eexists|]; reflexivity. Qed.

Lemma contracts_resolved_witness :
  (exists m, resolve_contract_rejections Z.le batch ∅ running = Done m /\ exists accepted : gset Z, 2 ∈ accepted /\ 1 ∉ accepted) /\
  unquotable unsliceable nobody.
Proof.
  split.
  - pose proof (contracts_resolved Z.le batch ∅ running ltac:(apply (bool_decide_unpack _); vm_compute; exact I)) as H.
    pose proof batch_verdicts as Hv. destruct (resolve_contract_rejections Z.le batch ∅ running) as [rejected| |]; [|destruct Hv|destruct Hv].
    exists rejected. split; [reflexivity|]. destruct H as (accepted & Hall & _). exists accepted. destruct Hv as [[why E1] E2]. split.
    + apply (Hall 2 (plugin "db" {["db" := "other"]} ∅)); [right; left|apply not_elem_of_empty|split; [discriminate|exact E2]].
    + intros H1. apply (Hall 1 (plugin "menus" {["menus" := "new"]} {["db" := "old"]})) in H1 as [_ H1]; [|left|apply not_elem_of_empty].
      rewrite E1 in H1. discriminate H1.
  - pose proof (contracts_resolved Z.le unsliceable ∅ nobody ltac:(apply (bool_decide_unpack _); vm_compute; exact I)) as H.
    rewrite contracts_gate_panics in H. exact H.
Defined.
End ContractsExamples.
