(* ===== verification/Loader.v ===== *)
(** Parts of the plugin loader's main-thread side (core/src/loader.rs).

    [ApiVersion] is the API-major gate and the translation of a manifest into import declarations;
    [FolderSpec] the folder/plugin-id spelling; [Requests] the lifecycle requests a command enqueues,
    with the watch, waiting and suppressed tables they read, the plugin list and the explanation of an
    empty list; [Retained] the ledger of prepared archives and its leases; [DrainBudget] the per-frame
    application budget. The clock is an argument ([late] is [Instant::now() >= deadline]); what the
    loader asks of the V8 host ([is_failed], [is_loading], [iface_published], the frame) is a
    parameter. *)
From S2P Require Import Prelude.
From S2P Require Import BTree.
From S2P Require Import Interfaces.
From S2P Require Import Contracts.
From Stdlib Require Import Ascii.
From stdpp Require Import pretty.
#[local] Open Scope Z_scope.
Import Contracts.

Module ApiVersion.

Definition HOST_API_VERSION_MAJOR : Z := 3.

Definition parse_api_major (s : string) : option Z :=
  Semver.parse_u32 (Semver.take_digits (Semver.skip_non_digits (String.list_ascii_of_string s))).

Definition api_version_compatible (s : string) : bool :=
  match parse_api_major s with
  | Some m => (m =? 2) || (m =? HOST_API_VERSION_MAJOR)
  | None => false
  end.

Definition deps_satisfied (iface_published : string -> bool) (m : Manifest) : bool :=
  forallb (fun kv => iface_published kv.1) (map_to_list (plugin_dependencies m)).

Definition import_specs (m : Manifest) (kind : Interfaces.Kind) (deps : gmap string string) : list Interfaces.ImportSpec :=
  (fun kv => Interfaces.mkSpec kv.1 kv.2 kind (compiled_against m !! kv.1)) <$> map_to_list deps.

Definition imports_from_manifest (m : Manifest) : list Interfaces.ImportSpec :=
  import_specs m Interfaces.Hard (plugin_dependencies m) ++ import_specs m Interfaces.Optional_ (optional_plugin_dependencies m).

Lemma loader_specs_fold m kind deps (acc : gmap string Interfaces.ImportDecl) name :
  foldl (fun m s => <[Interfaces.i_name s := Interfaces.mkDecl (Interfaces.i_range s) (Interfaces.i_kind s) (Interfaces.i_sha s)]> m)
    acc (import_specs m kind deps) !! name =
  match deps !! name with
  | Some range => Some (Interfaces.mkDecl range kind (compiled_against m !! name))
  | None => acc !! name
  end.
Proof.
  unfold import_specs. assert (Hl : forall (l : list (string * string)) (acc : gmap string Interfaces.ImportDecl), NoDup l.*1 ->
    foldl (fun m s => <[Interfaces.i_name s := Interfaces.mkDecl (Interfaces.i_range s) (Interfaces.i_kind s) (Interfaces.i_sha s)]> m)
      acc ((fun kv => Interfaces.mkSpec kv.1 kv.2 kind (compiled_against m !! kv.1)) <$> l) !! name =
    match (list_to_map l : gmap string string) !! name with
    | Some range => Some (Interfaces.mkDecl range kind (compiled_against m !! name))
    | None => acc !! name
    end).
  { induction l as [|[k v] l IH]; intros acc' Hnd; [done|]. rewrite fmap_cons in Hnd. apply NoDup_cons in Hnd as [Hni Hnd].
    rewrite fmap_cons. cbn [foldl fst snd list_to_map foldr]. rewrite IH by done. change (uncurry insert (k, v) ?t) with (<[k := v]> t).
    destruct (decide (k = name)) as [->|Hne].
    - cbn [fst] in Hni. apply (not_elem_of_list_to_map_1 (M := gmap string)) in Hni. change (list_to_map ((name, v) :: l)) with (<[name := v]> (list_to_map l) : gmap string string).
      rewrite !lookup_insert_eq. by rewrite Hni.
    - change (list_to_map ((k, v) :: l)) with (<[k := v]> (list_to_map l) : gmap string string). by rewrite !lookup_insert_ne by done. }
  rewrite Hl by apply NoDup_fst_map_to_list. by rewrite list_to_map_to_list.
Qed.

(** Loading a manifest declares exactly its dependencies: after [set_imports] of what
    [imports_from_manifest] produces, a name is declared with the optional table's range when it is
    there, else as a hard import with the hard table's range, with the contract hash the plugin
    compiled against, and no other name is declared. *)
Theorem loader_imports_declared epoch r m name :
  Interfaces.decl_of (Interfaces.set_imports epoch r (id m) (imports_from_manifest m)).1.2 (id m) name =
  match optional_plugin_dependencies m !! name, plugin_dependencies m !! name with
  | Some range, _ => Some (Interfaces.mkDecl range Interfaces.Optional_ (compiled_against m !! name))
  | None, Some range => Some (Interfaces.mkDecl range Interfaces.Hard (compiled_against m !! name))
  | None, None => None
  end.
Proof.
  unfold Interfaces.decl_of, Interfaces.set_imports, imports_from_manifest. cbn [fst snd Interfaces.imports].
  rewrite lookup_insert_eq, foldl_app, !loader_specs_fold, lookup_empty.
  by destruct (optional_plugin_dependencies m !! name), (plugin_dependencies m !! name).
Qed.
End ApiVersion.

Module FolderSpec.

Definition slash : Ascii.ascii := "/"%char.

(** [str::split('/')]: the parts between the slashes, never an empty list. *)
Fixpoint split (s : string) : list string :=
  match s with
  | EmptyString => [""]
  | String c s =>
      if Ascii.eqb c slash then "" :: split s
      else match split s with
           | p :: ps => String c p :: ps
           | [] => [String c ""]
           end
  end.

(** [join], on the slash. *)
Fixpoint join (parts : list string) : string :=
  match parts with
  | [] => ""
  | [p] => p
  | p :: ps => p +:+ String slash (join ps)
  end.

Definition starts_with_at (p : string) : bool := match p with String c _ => Ascii.eqb c "@"%char | EmptyString => false end.

Definition split_folder_spec (spec : string) : option (string * string) :=
  let parts := split spec in
  let n := length parts in
  let id_len := if (2 <=? n)%nat && starts_with_at (default "" (parts !! (n - 2)%nat)) then 2%nat else 1%nat in
  if (n <=? id_len)%nat || existsb (fun p => String.eqb p "") parts then None
  else Some (join (take (n - id_len) parts), join (drop (n - id_len) parts)).

Fixpoint replace_chars (s : string) : string :=
  match s with
  | EmptyString => ""
  | String c s => String (if Ascii.eqb c "@"%char || Ascii.eqb c slash then "_"%char else c) (replace_chars s)
  end.

Definition registry_filename (plugin_id : string) : string := replace_chars plugin_id +:+ ".s2sp".

Lemma split_nonempty s : split s <> [].
Proof. destruct s as [|c s]; simpl; [done|]. destruct (Ascii.eqb c slash); [done|]. by destruct (split s). Qed.

Lemma join_cons p ps : ps <> [] -> join (p :: ps) = p +:+ String slash (join ps).
Proof. by destruct ps. Qed.

Lemma folder_join_split s : join (split s) = s.
Proof.
  induction s as [|c s IH]; [done|]. cbn [split]. pose proof (split_nonempty s) as Hne.
  destruct (Ascii.eqb_spec c slash) as [->|].
  - rewrite join_cons by done. by rewrite IH.
  - destruct (split s) as [|p ps] eqn:E; [done|]. destruct ps as [|q ps].
    + simpl in *. by rewrite IH.
    + rewrite join_cons in * by done. by rewrite <- IH.
Qed.

Lemma str_app_assoc (a b c : string) : (a +:+ b) +:+ c = a +:+ (b +:+ c).
Proof. induction a as [|x a IH]; [done|]. change (String x ((a +:+ b) +:+ c) = String x (a +:+ (b +:+ c))). by rewrite IH. Qed.

Lemma join_app l1 l2 : l1 <> [] -> l2 <> [] -> join (l1 ++ l2) = join l1 +:+ String slash (join l2).
Proof.
  intros H1 H2. induction l1 as [|p l1 IH]; [done|]. destruct l1 as [|q l1].
  - cbn [app]. by rewrite join_cons.
  - change ((p :: q :: l1) ++ l2) with (p :: ((q :: l1) ++ l2)). rewrite (join_cons p ((q :: l1) ++ l2)) by done. rewrite IH by done.
    rewrite (join_cons p (q :: l1)) by done. by rewrite str_app_assoc.
Qed.

(** The folder spelling is unambiguous: a spec is split only into a folder and a plugin id that
    spell it back with one slash between; the folder is not empty, no path segment is empty, and the
    plugin id is one segment, or two when the first starts with an at sign; a spec with no segment
    left for a folder is never split. *)
Theorem folder_spec_roundtrip spec :
  match split_folder_spec spec with
  | Some (folder, plugin) =>
      spec = folder +:+ String slash plugin /\
      exists fs ps, split spec = fs ++ ps /\ folder = join fs /\ plugin = join ps /\ fs <> [] /\
        Forall (fun p => p <> "") (fs ++ ps) /\
        ((exists p, ps = [p] /\ (forall q, last fs = Some q -> starts_with_at q = false)) \/
         (exists p q, ps = [p; q] /\ starts_with_at p = true))
  | None => existsb (fun p => String.eqb p "") (split spec) = true \/ length (split spec) = 1%nat \/
      exists p q, split spec = [p; q] /\ starts_with_at p = true
  end.
Proof.
  unfold split_folder_spec. set (parts := split spec). pose proof (folder_join_split spec) as Hj. fold parts in Hj.
  assert (Hn : parts <> []) by apply split_nonempty. clearbody parts.
  assert (Hsnoc : forall l : list string, (2 <= length l)%nat -> exists l' p q, l = l' ++ [p; q]).
  { intros l Hl. destruct l as [|q l _] using rev_ind; [simpl in Hl; lia|]. destruct l as [|p l _] using rev_ind; [simpl in Hl; lia|].
    exists l, p, q. by rewrite <- app_assoc. }
  assert (Hne : forall l, existsb (fun p => String.eqb p "") l = false -> Forall (fun p => p <> "") l).
  { intros l H. apply Forall_forall. intros p Hp ->. assert (existsb (fun p => String.eqb p "") l = true); [|congruence].
    apply existsb_exists. exists "". split; [by apply list_elem_of_In|done]. }
  destruct (2 <=? length parts)%nat eqn:E2; cbn [andb].
  - apply Nat.leb_le in E2. destruct (Hsnoc parts E2) as (l & p & q & ->). rewrite length_app in *. cbn [length] in *.
    replace (length l + 2 - 2)%nat with (length l) by lia. rewrite list_lookup_middle by done. cbn [default from_option].
    unfold Datatypes.id. destruct (starts_with_at p) eqn:Ea.
    + destruct (length l + 2 <=? 2)%nat eqn:E; cbn [orb].
      * apply Nat.leb_le in E. right. right. exists p, q. split; [|done]. assert (length l = 0%nat) as ->%length_zero_iff_nil by lia. done.
      * apply Nat.leb_gt in E. destruct (existsb _ _) eqn:Ex; [by left|]. replace (length l + 2 - 2)%nat with (length l) by lia.
        rewrite take_app_length, drop_app_length. assert (l <> []) by (intros ->; simpl in E; lia). split; [rewrite <- join_app, Hj; done|].
        exists l, [p; q]. split_and!; try done; [by apply Hne|]. right. by exists p, q.
    + rewrite (proj2 (Nat.leb_gt _ _)) by lia. cbn [orb]. destruct (existsb _ _) eqn:Ex; [by left|].
      replace (length l + 2 - 1)%nat with (length (l ++ [p])) by (rewrite length_app; simpl; lia).
      change (l ++ [p; q]) with (l ++ [p] ++ [q]) in *. rewrite app_assoc in *. rewrite take_app_length, drop_app_length.
      split; [rewrite <- join_app, Hj; [done|by destruct l|done]|]. exists (l ++ [p]), [q]. split_and!; try done; [by destruct l|by apply Hne|].
      left. exists q. split; [done|]. intros x. rewrite last_snoc. by intros [= <-].
  - apply Nat.leb_gt in E2. destruct parts as [|p [|q parts]]; [done| |simpl in E2; lia]. simpl. right. by left.
Qed.
End FolderSpec.

Module Requests.

(** [v8host::LOAD_TIMEOUT_FRAMES]. *)
Definition LOAD_TIMEOUT_FRAMES : Z := 1920.

Inductive PendingOp := Unload | Reload | Load.

Record PreparedLoad (P : Type) := mkPrepared { row_path : P; old_id : option string; manifest : Manifest }.
Record WaitingLoad (P : Type) := mkWaiting { row : PreparedLoad P; since_frame : Z }.
Record ApplyItem (P : Type) := mkApply { apply_row : PreparedLoad P; allow_unmet_dependencies : bool }.
Arguments row_path {P} _.
Arguments old_id {P} _.
Arguments manifest {P} _.
Arguments row {P} _.
Arguments since_frame {P} _.
Arguments apply_row {P} _.
Arguments allow_unmet_dependencies {P} _.
Arguments mkApply {P} _ _.

(** The thread-local tables: [WATCH_STATE] (path to id), [SUPPRESSED] (path to id), [SESSION_LOADS],
    [WAITING], [READY_APPLY], [PENDING_OPS]. *)
Record Tables (P : Type) `{Countable P} := mkTables {
  watch_state : gmap P string;
  suppressed : gmap P string;
  session_loads : gset P;
  waiting : gmap string (WaitingLoad P);
  ready_apply : list (ApplyItem P);
  pending_ops : gmap string PendingOp;
}.
Arguments mkTables {P _ _} _ _ _ _ _ _.
Arguments watch_state {P _ _} _.
Arguments suppressed {P _ _} _.
Arguments session_loads {P _ _} _.
Arguments waiting {P _ _} _.
Arguments ready_apply {P _ _} _.
Arguments pending_ops {P _ _} _.

Section Requests.
Context {P : Type} `{Countable P}.
Context (request_items request_bytes : Z).
Implicit Types (t : Tables P).

Definition with_pending t (q : gmap string PendingOp) : Tables P :=
  mkTables (watch_state t) (suppressed t) (session_loads t) (waiting t) (ready_apply t) q.

Definition intent_bytes (id : string) : Z := sat_add (Z.of_nat (String.length id)) 32.
Definition sum_bytes (l : list string) : Z := foldr (fun id n => intent_bytes id + n) 0 l.

Definition enqueue_intent t (id : string) (op : PendingOp) : Tables P * bool :=
  let q := pending_ops t in
  if negb (bool_decide (is_Some (q !! id))) && (request_items <=? Z.of_nat (size q)) then (t, false)
  else
    let old_bytes := if bool_decide (is_Some (q !! id)) then intent_bytes id else 0 in
    let used_bytes := wrap64 (sum_bytes (map_to_list q).*1) in
    if request_bytes <? sat_add (sat_add (sat_sub used_bytes old_bytes) (Z.of_nat (String.length id))) 32 then (t, false)
    else (with_pending t (<[id := op]> q), true).

Definition path_of_loaded t (id : string) : option P :=
  fst <$> find (fun kv => String.eqb kv.2 id) (map_to_list (watch_state t)).

Definition is_suppressed t (id : string) : bool := existsb (fun kv => String.eqb kv.2 id) (map_to_list (suppressed t)).

Definition request_unload t (spec : string) : Tables P * bool :=
  let id := match FolderSpec.split_folder_spec spec with Some (_, plugin) => plugin | None => spec end in
  match path_of_loaded t id with
  | None => (t, false)
  | Some _ => enqueue_intent t id Unload
  end.

Definition request_reload t (id : string) : Tables P * bool :=
  if bool_decide (is_Some (path_of_loaded t id)) || is_suppressed t id then enqueue_intent t id Reload else (t, false).

Definition request_load (find_in_folder : string -> string -> option P) t (id : string) : Tables P * bool :=
  if is_suppressed t id then enqueue_intent t id Load
  else
    match FolderSpec.split_folder_spec id with
    | None => (t, false)
    | Some (folder, plugin_id) =>
        match find_in_folder folder plugin_id with
        | None => (t, false)
        | Some path =>
            (mkTables (watch_state t) (suppressed t) ({[path]} ∪ session_loads t) (waiting t) (ready_apply t) (pending_ops t),
             negb (bool_decide (path ∈ session_loads t)))
        end
    end.

(** [start_unblocked_waiters]: ids whose dependencies are published, or that waited too long. *)
Definition unblocked (iface_published : string -> bool) (frame : Z) (wl : WaitingLoad P) : option bool :=
  let deps := ApiVersion.deps_satisfied iface_published (manifest (row wl)) in
  let expired := LOAD_TIMEOUT_FRAMES <? sat_sub frame (since_frame wl) in
  if deps || expired then Some expired else None.

Fixpoint move_ready (w : gmap string (WaitingLoad P)) (q : list (ApplyItem P)) (ready : list (string * bool))
    : gmap string (WaitingLoad P) * list (ApplyItem P) :=
  match ready with
  | [] => (w, q)
  | (id, expired) :: ready =>
      match w !! id with
      | None => move_ready w q ready
      | Some wl => move_ready (delete id w) (q ++ [mkApply (row wl) expired]) ready
      end
  end.

Definition start_unblocked_waiters (iface_published : string -> bool) (frame : Z) t : Tables P :=
  let ready := omap (fun kv => (fun expired => (kv.1, expired)) <$> unblocked iface_published frame kv.2) (map_to_list (waiting t)) in
  let '(w, q) := move_ready (waiting t) (ready_apply t) ready in
  mkTables (watch_state t) (suppressed t) (session_loads t) w q (pending_ops t).

Definition has_waiting (active_batch : bool) t : bool :=
  negb (bool_decide (waiting t = ∅)) || active_batch || negb (bool_decide (ready_apply t = [])).

(** ** The plugin list *)
Definition watch_row_state (is_failed is_loading : string -> bool) t (id : string) : string :=
  if bool_decide (is_Some (waiting t !! id)) then "waiting"
  else if is_failed id then "failed"
  else if is_loading id then "loading"
  else "running".

Definition or_insert (state : string) (out : gmap string string) (id : string) : gmap string string :=
  match out !! id with Some _ => out | None => <[id := state]> out end.

Definition plugin_list (is_failed is_loading : string -> bool) (failed_plugin_ids : list string) t : list (string * string) :=
  let out := foldl (fun out kv => <[kv.2 := watch_row_state is_failed is_loading t kv.2]> out) ∅ (map_to_list (watch_state t)) in
  let out := foldl (or_insert "waiting") out (map_to_list (waiting t)).*1 in
  let out := foldl (or_insert "failed") out failed_plugin_ids in
  let out := foldl (fun out kv => <[kv.2 := "unloaded"]> out) out (map_to_list (suppressed t)) in
  (fun id => (id, default "" (out !! id))) <$> sort_strings (map_to_list out).*1.

(** ** Pending intents are bounded *)
Definition sumq (q : gmap string PendingOp) : Z := sum_bytes (map_to_list q).*1.
Record intents_ok t : Prop := {
  in_items : Z.of_nat (size (pending_ops t)) <= request_items;
  in_bytes : sumq (pending_ops t) <= request_bytes;
}.

Lemma intent_bytes_pos id : 32 <= intent_bytes id.
Proof. unfold intent_bytes, sat_add. assert (32 <= u64_max) by (vm_compute; discriminate). lia. Qed.

Lemma sum_bytes_nonneg l : 0 <= sum_bytes l.
Proof. unfold sum_bytes. induction l as [|id l IH]; simpl; [lia|]. pose proof (intent_bytes_pos id). lia. Qed.

Lemma sum_bytes_perm l l' : l ≡ₚ l' -> sum_bytes l = sum_bytes l'.
Proof. unfold sum_bytes. induction 1; simpl; lia. Qed.

Lemma sumq_fresh q id op : q !! id = None -> sumq (<[id := op]> q) = intent_bytes id + sumq q.
Proof.
  intros E. unfold sumq. rewrite (sum_bytes_perm _ (id :: (map_to_list q).*1)); [done|].
  rewrite (map_to_list_insert q id op E). done.
Qed.

Lemma sumq_present q id op old : q !! id = Some old -> sumq (<[id := op]> q) = sumq q.
Proof.
  intros E. rewrite <- (insert_delete_id q id old E) at 2. rewrite <- insert_delete_eq.
  by rewrite !sumq_fresh by apply lookup_delete_eq.
Qed.

(** Command intents are bounded and coalesce: within the policy's item and byte limits, an
    enqueued request replaces the plugin's earlier one and keeps the limits, a plugin with a pending
    request is never refused, and a refusal leaves every table as it was and means that one more
    plugin would exceed a limit. *)
Theorem loader_intents_bounded t id op :
  intents_ok t -> 0 <= request_bytes < u64_max ->
  let '(t', ok) := enqueue_intent t id op in
  intents_ok t' /\
  (if ok then t' = with_pending t (<[id := op]> (pending_ops t))
   else t' = t /\ pending_ops t !! id = None /\
        (request_items < Z.of_nat (size (pending_ops t)) + 1 \/ request_bytes < sumq (pending_ops t) + intent_bytes id)).
Proof.
  intros [Hi Hb] Hr. unfold enqueue_intent. fold (sumq (pending_ops t)). set (q := pending_ops t) in *.
  pose proof (sum_bytes_nonneg (map_to_list q).*1) as Hn. fold (sumq q) in Hn.
  rewrite (wrap64_small (sumq q)) by (unfold u64_max in *; lia). pose proof (intent_bytes_pos id) as Hp.
  destruct (q !! id) as [old|] eqn:E.
  - rewrite bool_decide_eq_true_2 by by eexists. cbn [negb andb].
    assert (Hold : intent_bytes id <= sumq q).
    { rewrite <- (insert_delete_id q id old E). rewrite sumq_fresh by apply lookup_delete_eq. pose proof (sum_bytes_nonneg (map_to_list (delete id q)).*1) as H0.
      fold (sumq (delete id q)) in H0. lia. }
    rewrite (proj2 (Z.ltb_ge _ _)).
    2:{ unfold intent_bytes, sat_add, sat_sub in *. lia. }
    split; [|done]. split; cbn [with_pending pending_ops].
    + by rewrite map_size_insert, E.
    + by rewrite (sumq_present _ _ _ old).
  - rewrite bool_decide_eq_false_2 by by intros [? ?]. cbn [negb andb]. rewrite (Z.sub_0_r (sumq q)) || idtac.
    destruct (request_items <=? Z.of_nat (size q)) eqn:Ei; bool_to_prop; [split; [by split|]; split_and!; try done; left; lia|].
    destruct (request_bytes <? _) eqn:Eb; bool_to_prop.
    + split; [by split|]. split_and!; try done. right. unfold intent_bytes, sat_add, sat_sub in *. lia.
    + split; [|done]. split; cbn [with_pending pending_ops].
      * rewrite map_size_insert, E. lia.
      * rewrite sumq_fresh by done. unfold intent_bytes, sat_add, sat_sub in *. lia.
Qed.

(** ** Parked loads *)
Lemma loader_move_ready (ready : list (string * bool)) w q :
  NoDup ready.*1 -> (forall id, id ∈ ready.*1 -> is_Some (w !! id)) ->
  (move_ready w q ready).1 = foldl (fun w p => delete p.1 w) w ready /\
  (move_ready w q ready).2 = q ++ omap (fun p => (fun wl => mkApply (row wl) p.2) <$> w !! p.1) ready.
Proof.
  revert w q. induction ready as [|[id expired] ready IH]; intros w q Hnd Hin; cbn [move_ready]; [by rewrite app_nil_r|].
  rewrite fmap_cons in Hnd, Hin. apply NoDup_cons in Hnd as [Hni Hnd]. destruct (Hin id) as [wl E]; [by left|]. rewrite E.
  destruct (IH (delete id w) (q ++ [mkApply (row wl) expired])) as [H1 H2]; [done|..].
  { intros k Hk. rewrite lookup_delete_ne by (by intros ->). apply Hin. by right. }
  rewrite H1, H2. split; [done|]. rewrite <- app_assoc. f_equal. csimpl. rewrite E. csimpl. f_equal.
  apply list_omap_ext, Forall2_same_length_lookup_2; [done|]. intros i x y Hx Hy. rewrite Hx in Hy. injection Hy as <-.
  rewrite lookup_delete_ne; [done|]. intros Ek. apply Hni. cbn [fst]. rewrite Ek.
  apply (list_elem_of_fmap_2 fst ready x). by eapply list_elem_of_lookup_2.
Qed.

(** Moving the parked loads whose wait is over keeps every other one parked, and appends each moved
    one once behind what was queued, marked with whether it had to give up waiting. *)
Lemma loader_waiters_moved iface_published frame t :
  let t' := start_unblocked_waiters iface_published frame t in
  let verdict := unblocked iface_published frame in
  (forall id, waiting t' !! id = match waiting t !! id with
                                 | Some wl => match verdict wl with Some _ => None | None => Some wl end
                                 | None => None
                                 end) /\
  ready_apply t' = ready_apply t ++ omap (fun kv => mkApply (row kv.2) <$> verdict kv.2) (map_to_list (waiting t)) /\
  watch_state t' = watch_state t /\ suppressed t' = suppressed t /\ pending_ops t' = pending_ops t.
Proof.
  cbv zeta. unfold start_unblocked_waiters. set (verdict := unblocked iface_published frame).
  set (ready := omap _ (map_to_list (waiting t))).
  assert (Hin : forall id e, (id, e) ∈ ready <-> exists wl, waiting t !! id = Some wl /\ verdict wl = Some e).
  { intros id e. unfold ready. rewrite list_elem_of_omap. split.
    - intros ([k wl] & Hk%elem_of_map_to_list & Eq). cbn [fst snd] in Eq. destruct (verdict wl) eqn:Ev; [|done]. injection Eq as -> ->. by exists wl.
    - intros (wl & E & Ev). exists (id, wl). split; [by apply elem_of_map_to_list|]. cbn [fst snd]. by rewrite Ev. }
  assert (Hnd : NoDup ready.*1).
  { unfold ready. pose proof (NoDup_fst_map_to_list (waiting t)) as Hw. revert Hw. generalize (map_to_list (waiting t)) as l. clear.
    induction l as [|[k wl] l IH]; [intros _; constructor|]. rewrite fmap_cons. intros [Hni Hnd]%NoDup_cons. csimpl.
    destruct (verdict wl); csimpl; [|by apply IH]. constructor; [|by apply IH]. intros Hk. apply Hni. clear - Hk.
    apply list_elem_of_fmap in Hk as ([k' e] & -> & ([k2 wl2] & Hin & Eq)%list_elem_of_omap). cbn [fst snd] in *.
    destruct (verdict wl2); [|done]. injection Eq as -> ->. apply (list_elem_of_fmap_2 fst _ _ Hin). }
  destruct (loader_move_ready ready (waiting t) (ready_apply t) Hnd) as [H1 H2].
  { intros id ([k e] & -> & (wl & E & _)%Hin)%list_elem_of_fmap. by exists wl. }
  destruct (move_ready (waiting t) (ready_apply t) ready) as [w q]. cbn [fst snd waiting ready_apply watch_state suppressed pending_ops] in *. subst w q.
  split_and!; try done.
  - intros id. clear - Hin. assert (Hd : forall (l : list (string * bool)) (w : gmap string (WaitingLoad P)),
        foldl (fun w p => delete p.1 w) w l !! id = if decide (id ∈ l.*1) then None else w !! id).
    { induction l as [|p l IH]; intros w; [done|]. cbn [foldl]. rewrite IH, fmap_cons. destruct (decide (id ∈ l.*1)) as [Hi|Hi].
      - rewrite decide_True; [done|by right].
      - destruct (decide (id = p.1)) as [->|Hne]; [rewrite lookup_delete_eq, decide_True; [done|by left]|].
        rewrite lookup_delete_ne by done. rewrite decide_False; [done|]. rewrite elem_of_cons. tauto. }
    rewrite Hd. destruct (waiting t !! id) as [wl|] eqn:E; [|by case_decide]. destruct (verdict wl) as [e|] eqn:Ev.
    + rewrite decide_True; [done|]. apply (list_elem_of_fmap_2 fst ready (id, e)), Hin. by exists wl.
    + rewrite decide_False; [done|]. intros ([k e] & -> & (wl' & E' & Ev')%Hin)%list_elem_of_fmap. simpl in E. congruence.
  - f_equal. unfold ready. assert (Hl : forall l : list (string * WaitingLoad P), (forall k wl, (k, wl) ∈ l -> waiting t !! k = Some wl) ->
      omap (fun p => (fun wl => mkApply (row wl) p.2) <$> waiting t !! p.1) (omap (fun kv => (fun expired => (kv.1, expired)) <$> verdict kv.2) l)
      = omap (fun kv => mkApply (row kv.2) <$> verdict kv.2) l).
    { clear. induction l as [|[k wl] l IH]; intros Hl; [done|]. csimpl. rewrite <- IH by (intros; apply Hl; by right).
      destruct (verdict wl); csimpl; [|done]. by rewrite (Hl k wl) by (by left). }
    apply Hl. intros k wl Hk. by apply elem_of_map_to_list.
Qed.

(** ** The list's states *)
Lemma foldl_insert_values {V} (f : string -> V) (l : list (P * string)) (m : gmap string V) id :
  foldl (fun out kv => <[kv.2 := f kv.2]> out) m l !! id = if decide (id ∈ l.*2) then Some (f id) else m !! id.
Proof.
  revert m. induction l as [|[p v] l IH]; intros m; [done|]. cbn [foldl fst snd]. rewrite IH, fmap_cons.
  destruct (decide (id ∈ l.*2)) as [Hi|Hi]; [rewrite decide_True; [done|by right]|].
  destruct (decide (id = v)) as [->|Hne]; [rewrite lookup_insert_eq, decide_True; [done|by left]|].
  rewrite lookup_insert_ne by done. rewrite decide_False; [done|]. rewrite elem_of_cons. tauto.
Qed.

Lemma foldl_or_insert state (l : list string) (m : gmap string string) id :
  foldl (or_insert state) m l !! id =
  match m !! id with Some s => Some s | None => if decide (id ∈ l) then Some state else None end.
Proof.
  revert m. induction l as [|k l IH]; intros m; cbn [foldl]; [by destruct (m !! id)|]. rewrite IH. unfold or_insert.
  destruct (decide (k = id)) as [->|Hne].
  - destruct (m !! id) as [s|] eqn:E; [by rewrite E|]. rewrite lookup_insert_eq, decide_True; [done|by left].
  - assert (E : (match m !! k with Some _ => m | None => <[k := state]> m end) !! id = m !! id) by (destruct (m !! k); [done|by rewrite lookup_insert_ne]).
    rewrite E. destruct (m !! id); [done|]. destruct (decide (id ∈ l)); [rewrite decide_True; [done|by right]|].
    rewrite decide_False; [done|]. rewrite elem_of_cons. intros [?|?]; by subst.
Qed.

Definition has_id (m : gmap P string) (id : string) : Prop := exists p, m !! p = Some id.

(** The state the list gives an id. *)
Definition state_is (is_failed is_loading : string -> bool) (failed : list string) t (id st : string) : Prop :=
  has_id (suppressed t) id /\ st = "unloaded" \/
  ~ has_id (suppressed t) id /\
  (has_id (watch_state t) id /\ st = watch_row_state is_failed is_loading t id \/
   ~ has_id (watch_state t) id /\
   (is_Some (waiting t !! id) /\ st = "waiting" \/ waiting t !! id = None /\ id ∈ failed /\ st = "failed")).

Lemma has_id_values (m : gmap P string) id : id ∈ (map_to_list m).*2 <-> has_id m id.
Proof.
  rewrite list_elem_of_fmap. split.
  - intros ([p v] & -> & E%elem_of_map_to_list). by exists p.
  - intros [p E]. exists (p, id). split; [done|]. by apply elem_of_map_to_list.
Qed.

(** The plugin list names every known plugin once, in order of id, with the state the sources
    give it: a suppressed file reads unloaded whatever else is known; else a watched file is waiting,
    failed, loading or running, the first that applies; else a parked plugin is waiting; else a
    failed one is failed. *)
Theorem loader_list_states is_failed is_loading failed t :
  let l := plugin_list is_failed is_loading failed t in
  StronglySorted String.le l.*1 /\ NoDup l.*1 /\
  (forall id st, (id, st) ∈ l <-> state_is is_failed is_loading failed t id st).
Proof.
  cbv zeta. unfold plugin_list. set (out := foldl (fun out kv => <[kv.2 := "unloaded"]> out) _ (map_to_list (suppressed t))).
  assert (Hout : forall id st, out !! id = Some st <-> state_is is_failed is_loading failed t id st).
  { intros id st. unfold out. rewrite (foldl_insert_values (fun _ => "unloaded")). unfold state_is.
    destruct (decide (id ∈ (map_to_list (suppressed t)).*2)) as [Hs%has_id_values|Hs]; [split; [intros [= <-]; by left|intros [[_ ->]|[? _]]; done]|].
    rewrite has_id_values in Hs. rewrite foldl_or_insert, foldl_or_insert.
    rewrite (foldl_insert_values (watch_row_state is_failed is_loading t)), lookup_empty.
    destruct (decide (id ∈ (map_to_list (watch_state t)).*2)) as [Hw%has_id_values|Hw].
    { split; [intros [= <-]; right; by auto|]. intros [[? _]|[_ [[_ ->]|[? _]]]]; done. }
    rewrite has_id_values in Hw. assert (Hwt : id ∈ (map_to_list (waiting t)).*1 <-> is_Some (waiting t !! id)).
    { rewrite list_elem_of_fmap. split; [intros ([k wl] & -> & E%elem_of_map_to_list); by exists wl|].
      intros [wl E]. exists (id, wl). split; [done|]. by apply elem_of_map_to_list. }
    destruct (decide (id ∈ (map_to_list (waiting t)).*1)) as [Ht%Hwt|Ht].
    { split; [intros [= <-]; right; by auto 6|]. intros [[? _]|[_ [[? _]|[_ [[_ ->]|(E & _)]]]]]; try done. rewrite E in Ht. by destruct Ht. }
    rewrite Hwt in Ht. apply eq_None_not_Some in Ht. destruct (decide (id ∈ failed)) as [Hf|Hf].
    - split; [intros [= <-]; right; by auto 8|]. intros [[? _]|[_ [[? _]|[_ [[E _]|(_ & _ & ->)]]]]]; try done. rewrite Ht in E. by destruct E.
    - split; [done|]. intros [[? _]|[_ [[? _]|[_ [[E _]|(_ & ? & _)]]]]]; try done. rewrite Ht in E. by destruct E. }
  clearbody out. rewrite <- list_fmap_compose. rewrite (list_fmap_id (sort_strings _)). split_and!.
  - apply sort_strings_sorted.
  - rewrite sort_strings_perm. apply NoDup_fst_map_to_list.
  - intros id st. rewrite <- Hout, list_elem_of_fmap. setoid_rewrite (sort_strings_perm (map_to_list out).*1). split.
    + intros (k & [= -> ->] & ([k' v] & -> & E%elem_of_map_to_list)%list_elem_of_fmap). cbn [fst]. by rewrite E.
    + intros E. exists id. rewrite E. split; [done|]. apply (list_elem_of_fmap_2 fst _ (id, st)). by apply elem_of_map_to_list.
Qed.
End Requests.

(** ** Why no plugin is listed *)
Definition quoted (s : string) : string := String (ascii_of_nat 34) (s +:+ String (ascii_of_nat 34) "").

Record LoaderProgress := mkProgress {
  watching : bool; polls : Z; update_wait : option N (* nanoseconds *); scanned : bool; dir : option string;
}.

Definition empty_reason (p : LoaderProgress) : string :=
  if negb (watching p) then "The plugin loader is not running; see the plugin loader WARN in the startup log."
  else if polls p =? 0 then
    "The plugin loader has not run: plugins load when the first map starts, and neither that load nor a GameFrame has reached it. If a map is running, check the log for " +:+
    quoted "[plugins] loading plugins/ at map start" +:+ " and " +:+ quoted "GameFrame hook NOT installed" +:+ ", and " +:+
    quoted "meta list" +:+ " for another addon that hooks GameFrame."
  else
    match update_wait p with
    | Some wait => "Waiting for the plugins.json update to finish before scanning plugins/ (gives up in " +:+ pretty (wait / 1000000000)%N +:+ "s)."
    | None =>
        if negb (scanned p) then "plugins/ has not been scanned yet."
        else match dir p with
             | Some d => "No plugin files in " +:+ d +:+ "."
             | None => "No plugin files in plugins/."
             end
    end.
End Requests.

Module Retained.

Record RetainedUsage := mkUsage {
  items : Z; bytes : Z; rejected_items : Z; rejected_bytes : Z; high_water_items : Z; high_water_bytes : Z;
}.
Record RetainedLedger := mkLedger { usage : RetainedUsage; max_items : Z; max_bytes : Z }.
Record RetainedLease := mkLease { l_bytes : Z; prepared_item : bool }.

Definition new (mi mb : Z) : RetainedLedger := mkLedger (mkUsage 0 0 0 0 0 0) mi mb.
Definition with_usage (g : RetainedLedger) (u : RetainedUsage) : RetainedLedger := mkLedger u (max_items g) (max_bytes g).
Definition u64_of (b : bool) : Z := if b then 1 else 0.

Definition try_acquire (g : RetainedLedger) (n : Z) : RetainedLedger * option RetainedLease :=
  let u := usage g in
  let items_rejected := max_items g <=? items u in
  let bytes_rejected := max_bytes g <? sat_add (bytes u) n in
  if items_rejected || bytes_rejected then
    (with_usage g (mkUsage (items u) (bytes u) (sat_add (rejected_items u) (u64_of items_rejected))
                     (sat_add (rejected_bytes u) (u64_of bytes_rejected)) (high_water_items u) (high_water_bytes u)), None)
  else
    let i := u64_succ (items u) in
    let b := u64_add (bytes u) n in
    (with_usage g (mkUsage i b (rejected_items u) (rejected_bytes u) (Z.max (high_water_items u) i) (Z.max (high_water_bytes u) b)),
     Some (mkLease n true)).

Definition metrics (g : RetainedLedger) : RetainedUsage := usage g.

Definition activate (g : RetainedLedger) (l : RetainedLease) : RetainedLedger * RetainedLease :=
  if prepared_item l then
    let u := usage g in
    (with_usage g (mkUsage (u64_pred (items u)) (bytes u) (rejected_items u) (rejected_bytes u) (high_water_items u) (high_water_bytes u)),
     mkLease (l_bytes l) false)
  else (g, l).

Definition into_active_bytes := activate.

Definition try_grow (g : RetainedLedger) (l : RetainedLease) (n : Z) : RetainedLedger * RetainedLease * bool :=
  let u := usage g in
  if max_bytes g <? sat_add (bytes u) n then
    (with_usage g (mkUsage (items u) (bytes u) (rejected_items u) (sat_add (rejected_bytes u) 1) (high_water_items u) (high_water_bytes u)), l, false)
  else
    let b := u64_add (bytes u) n in
    (with_usage g (mkUsage (items u) b (rejected_items u) (rejected_bytes u) (high_water_items u) (Z.max (high_water_bytes u) b)),
     mkLease (u64_add (l_bytes l) n) (prepared_item l), true).

Definition drop (g : RetainedLedger) (l : RetainedLease) : RetainedLedger :=
  let u := usage g in
  with_usage g (mkUsage (sat_sub (items u) (u64_of (prepared_item l))) (sat_sub (bytes u) (l_bytes l))
                  (rejected_items u) (rejected_bytes u) (high_water_items u) (high_water_bytes u)).

(** ** A ledger with its outstanding leases *)
Inductive op := Acquire (n : Z) | Activate (i : nat) | Grow (i : nat) (n : Z) | Drop (i : nat).

Definition step (s : RetainedLedger * list RetainedLease) (o : op) : RetainedLedger * list RetainedLease :=
  let '(g, L) := s in
  match o with
  | Acquire n => match try_acquire g n with (g, Some l) => (g, L ++ [l]) | (g, None) => (g, L) end
  | Activate i => match L !! i with Some l => let '(g, l) := activate g l in (g, <[i := l]> L) | None => s end
  | Grow i n => match L !! i with Some l => let '(g, l, _) := try_grow g l n in (g, <[i := l]> L) | None => s end
  | Drop i => match L !! i with Some l => (drop g l, vec_remove i L) | None => s end
  end.

Definition run (s : RetainedLedger * list RetainedLease) (os : list op) : RetainedLedger * list RetainedLease := foldl step s os.

Definition held_bytes (L : list RetainedLease) : Z := foldr (fun l n => l_bytes l + n) 0 L.

Record accounts (s : RetainedLedger * list RetainedLease) (mi mb : Z) : Prop := {
  ac_limits : max_items s.1 = mi /\ max_bytes s.1 = mb;
  ac_items : items (usage s.1) = countb prepared_item s.2;
  ac_bytes : bytes (usage s.1) = held_bytes s.2;
  ac_leases : Forall (fun l => 0 <= l_bytes l) s.2;
  ac_max : countb prepared_item s.2 <= mi /\ held_bytes s.2 <= mb;
  ac_high : countb prepared_item s.2 <= high_water_items (usage s.1) <= mi /\ held_bytes s.2 <= high_water_bytes (usage s.1) <= mb;
}.

Lemma held_perm L L' : L ≡ₚ L' -> held_bytes L = held_bytes L'.
Proof. unfold held_bytes. induction 1; simpl; lia. Qed.

Lemma held_nonneg L : Forall (fun l => 0 <= l_bytes l) L -> 0 <= held_bytes L.
Proof. unfold held_bytes. induction 1; simpl; lia. Qed.

Lemma retained_perm g L L' mi mb : L ≡ₚ L' -> accounts (g, L) mi mb -> accounts (g, L') mi mb.
Proof.
  intros Hp [H1 H2 H3 H4 H5 H6]; split; cbn [fst snd] in *; rewrite <- ?(held_perm _ _ Hp), <- ?(countb_perm prepared_item _ _ Hp); try done.
  by rewrite <- Hp.
Qed.

(** Swap the lease at an index to the front. *)
Lemma retained_at (L : list RetainedLease) i l : L !! i = Some l -> exists L', L ≡ₚ l :: L' /\ vec_remove i L ≡ₚ L' /\ forall l', <[i := l']> L ≡ₚ l' :: L'.
Proof.
  intros E. apply list_elem_of_split_length in E as (L1 & L2 & -> & ->). exists (L1 ++ L2). split_and!.
  - by rewrite Permutation_middle.
  - by rewrite vec_remove_app.
  - intros l'. rewrite insert_middle. by rewrite Permutation_middle.
Qed.

Lemma retained_cons l L : countb prepared_item (l :: L) = u64_of (prepared_item l) + countb prepared_item L /\ held_bytes (l :: L) = l_bytes l + held_bytes L.
Proof. split; [apply countb_cons|done]. Qed.

Lemma retained_step s o mi mb :
  0 <= mi <= u64_max -> 0 <= mb < u64_max -> match o with Acquire n | Grow _ n => 0 <= n | _ => True end ->
  accounts s mi mb -> accounts (step s o) mi mb.
Proof.
  intros Hmi Hmb Hok Hac. destruct s as [g L]. pose proof u64_modulus_pos as Hu.
  assert (Hstep : forall g' l l' L' LL, L ≡ₚ l :: L' -> LL ≡ₚ l' :: L' -> (accounts (g, l :: L') mi mb -> accounts (g', l' :: L') mi mb) -> accounts (g', LL) mi mb).
  { intros g' l l' L' LL H1 H2 H3. eapply retained_perm; [symmetry; exact H2|]. apply H3. by eapply retained_perm. }
  destruct o as [n|i|i n|i]; cbn [step].
  - destruct Hac as [[E1 E2] Hi Hb Hl Hm [Hh1 Hh2]]. cbn [fst snd] in *. unfold try_acquire. rewrite E1, E2, Hi, Hb.
    pose proof (held_nonneg L Hl). pose proof (countb_nonneg prepared_item L).
    destruct (mi <=? countb prepared_item L) eqn:Ei; [cbn [orb]; by split|]. destruct (mb <? sat_add (held_bytes L) n) eqn:Eb; [by split|]. cbn [orb].
    bool_to_prop. unfold sat_add in Eb. rewrite u64_succ_small by lia. rewrite u64_add_small by (unfold u64_max in *; lia).
    apply (retained_perm _ (mkLease n true :: L)); [by rewrite Permutation_app_comm|].
    destruct (retained_cons (mkLease n true) L) as [C1 C2]. cbn [prepared_item l_bytes u64_of] in *.
    split; cbn [fst snd with_usage usage items bytes high_water_items high_water_bytes max_items max_bytes]; rewrite ?C1, ?C2; try done; try lia.
    by constructor.
  - destruct (L !! i) as [l|] eqn:E; [|done]. destruct (retained_at L i l E) as (L' & P1 & _ & P2). unfold activate.
    destruct (prepared_item l) eqn:Ep; [|rewrite list_insert_id by done; done].
    eapply Hstep; [exact P1|apply P2|]. intros [[E1 E2] Hi Hb Hl Hm [Hh1 Hh2]]. cbn [fst snd] in *.
    destruct (retained_cons l L') as [C1 C2]. destruct (retained_cons (mkLease (l_bytes l) false) L') as [C3 C4]. rewrite Ep in C1. cbn [prepared_item l_bytes u64_of] in *.
    pose proof (countb_nonneg prepared_item L'). rewrite C1, C2 in *.
    split; cbn [fst snd with_usage usage items bytes high_water_items high_water_bytes max_items max_bytes]; rewrite ?C3, ?C4; try done; try lia.
    + rewrite u64_pred_small by lia. lia.
    + apply Forall_cons in Hl as [? ?]. by constructor.
  - destruct (L !! i) as [l|] eqn:E; [|done]. destruct (retained_at L i l E) as (L' & P1 & _ & P2). unfold try_grow.
    assert (E2 : max_bytes g = mb) by apply Hac. assert (Hb : bytes (usage g) = held_bytes L) by apply Hac.
    pose proof (ac_leases _ _ _ Hac) as Hl. cbn [snd] in Hl. pose proof (held_nonneg L Hl). rewrite E2, Hb.
    destruct (mb <? sat_add (held_bytes L) n) eqn:Eb.
    + rewrite list_insert_id by done. destruct Hac. by split.
    + bool_to_prop. unfold sat_add in Eb. rewrite (u64_add_small (held_bytes L)) by (unfold u64_max in *; lia).
      rewrite (held_perm _ _ P1) in *. eapply Hstep; [exact P1|apply P2|]. clear Hac Hb Hl. intros [[E1 _] Hi Hb Hl Hm [Hh1 Hh2]]. cbn [fst snd] in *.
      apply Forall_cons in Hl as [Hl0 Hl]. pose proof (held_nonneg L' Hl). destruct (retained_cons l L') as [C1 C2].
      assert (u64_add (l_bytes l) n = l_bytes l + n) as -> by (apply u64_add_small; unfold u64_max in *; lia).
      destruct (retained_cons (mkLease (l_bytes l + n) (prepared_item l)) L') as [C3 C4]. cbn [prepared_item l_bytes] in *. rewrite C1, C2 in *.
      split; cbn [fst snd with_usage usage items bytes high_water_items high_water_bytes max_items max_bytes]; rewrite ?C3, ?C4; try done; try lia.
      constructor; [simpl; lia|done].
  - destruct (L !! i) as [l|] eqn:E; [|done]. destruct (retained_at L i l E) as (L' & P1 & P2 & _).
    eapply retained_perm; [symmetry; exact P2|]. assert (Hac' : accounts (g, l :: L') mi mb) by by eapply retained_perm. clear Hac.
    destruct Hac' as [[E1 E2] Hi Hb Hl Hm [Hh1 Hh2]]. cbn [fst snd] in *. apply Forall_cons in Hl as [Hl0 Hl]. pose proof (held_nonneg L' Hl).
    pose proof (countb_nonneg prepared_item L'). destruct (retained_cons l L') as [C1 C2]. rewrite C1, C2 in *.
    assert (0 <= u64_of (prepared_item l)) by (by destruct (prepared_item l)).
    split; cbn [fst snd drop with_usage usage items bytes high_water_items high_water_bytes max_items max_bytes]; unfold sat_sub; try done; lia.
Qed.

(** The ledger of prepared archives counts exactly what is held: after any acquisitions, growths,
    activations and drops its items are the leases still prepared, its bytes the bytes of every
    lease, prepared or active, both stay within the limits (so no counter wraps and no subtraction
    saturates), and the high-water marks lie between what is held and the limits; when every lease is
    dropped both are zero. *)
Theorem retained_accounting mi mb os :
  0 <= mi <= u64_max -> 0 <= mb < u64_max ->
  Forall (fun o => match o with Acquire n | Grow _ n => 0 <= n | _ => True end) os ->
  let s := run (new mi mb, []) os in
  accounts s mi mb /\ (s.2 = [] -> items (metrics s.1) = 0 /\ bytes (metrics s.1) = 0).
Proof.
  intros Hmi Hmb Hos. cbv zeta. assert (Hg : forall s, accounts s mi mb -> accounts (run s os) mi mb).
  { induction Hos as [|o os Ho Hos IH]; intros s Hs; [done|]. apply IH. by apply retained_step. }
  assert (H0 : accounts (new mi mb, []) mi mb).
  { split; cbn [fst snd new usage items bytes high_water_items high_water_bytes max_items max_bytes]; change (countb prepared_item []) with 0; change (held_bytes []) with 0; try done; lia. }
  specialize (Hg _ H0). split; [done|]. intros E. destruct Hg as [_ Hi Hb _ _ _]. rewrite E in Hi, Hb. done.
Qed.
End Retained.

Module DrainBudget.

Record LoaderDrainBudget := mkBudget { max_items : Z; max_bytes : Z; items : Z; bytes : Z }.

Definition new (mi mb : Z) : LoaderDrainBudget := mkBudget mi mb 0 0.

(** [items += 1; bytes = bytes.saturating_add(n)]. *)
Definition charge_polled (b : LoaderDrainBudget) (n : Z) : LoaderDrainBudget :=
  mkBudget (max_items b) (max_bytes b) (u64_succ (items b)) (sat_add (bytes b) n).

Definition try_admit (b : LoaderDrainBudget) (late : bool) (n : Z) : LoaderDrainBudget * bool :=
  if (max_items b <=? items b) || ((0 <? items b) && ((max_bytes b <? sat_add (bytes b) n) || late)) then (b, false)
  else (charge_polled b n, true).

Definition can_poll_unknown (b : LoaderDrainBudget) (late : bool) : bool :=
  (items b <? max_items b) && ((items b =? 0) || ((bytes b <? max_bytes b) && negb late)).

(** One unit of a frame's loader work: a worker result, whose size is known only once polled, or a
    prepared plugin, whose size is known before. *)
Inductive work := Poll (late : bool) (n : Z) | Admit (late : bool) (n : Z).

Definition step (s : LoaderDrainBudget * list Z) (w : work) : LoaderDrainBudget * list Z :=
  let '(b, done_) := s in
  match w with
  | Poll late n => if can_poll_unknown b late then (charge_polled b n, done_ ++ [n]) else s
  | Admit late n => let '(b, ok) := try_admit b late n in (b, if ok then done_ ++ [n] else done_)
  end.

Definition total (l : list Z) : Z := foldr Z.add 0 l.
Definition size_of (w : work) : Z := match w with Poll _ n | Admit _ n => n end.

Lemma total_app l l' : total (l ++ l') = total l + total l'.
Proof. unfold total. induction l; simpl; lia. Qed.

Record charged (mi mb : Z) (s : LoaderDrainBudget * list Z) : Prop := {
  ch_limits : max_items s.1 = mi /\ max_bytes s.1 = mb;
  ch_items : items s.1 = Z.of_nat (length s.2);
  ch_bytes : bytes s.1 = Z.min (total s.2) u64_max;
  ch_pos : Forall (fun n => 0 <= n) s.2;
  ch_max : Z.of_nat (length s.2) <= mi;
  ch_last : s.2 = [] \/ exists l n, s.2 = l ++ [n] /\ (l = [] \/ total l < mb \/ total l + n <= mb);
}.

Lemma drain_charge mi mb b l n :
  0 <= mi <= u64_max -> 0 <= mb < u64_max -> 0 <= n -> charged mi mb (b, l) -> items b < mi ->
  (l = [] \/ total l < mb \/ total l + n <= mb) -> charged mi mb (charge_polled b n, l ++ [n]).
Proof.
  intros Hmi Hmb Hn [[E1 E2] Hi Hb Hp Hm _] Hlt Hlast. cbn [fst snd] in *.
  assert (0 <= total l) by (clear -Hp; unfold total; induction Hp; simpl; lia).
  split; cbn [fst snd charge_polled max_items max_bytes items bytes]; rewrite ?length_app, ?total_app; cbn [length]; try done.
  - rewrite u64_succ_small by (unfold u64_max in *; lia). lia.
  - rewrite Hb. unfold sat_add. simpl. lia.
  - apply Forall_app. split; [done|by constructor].
  - lia.
  - right. by exists l, n.
Qed.

(** A frame's loader work is bounded and makes progress: any mix of polled results and admitted
    plugins takes at most [max_items] items, with all the bytes but the last item's below [max_bytes]
    unless there is only one item; and the first item is always taken, however large it is and however
    late the frame, unless the item limit is zero. *)
Theorem drain_bounded mi mb ws :
  0 <= mi <= u64_max -> 0 <= mb < u64_max -> Forall (fun w => 0 <= size_of w) ws ->
  let '(b, taken) := foldl step (new mi mb, []) ws in
  Z.of_nat (length taken) <= mi /\ items b = Z.of_nat (length taken) /\
  (forall l n, taken = l ++ [n] -> l = [] \/ total l < mb \/ total l + n <= mb) /\
  (forall w ws', ws = w :: ws' -> 0 < mi -> exists rest, taken = size_of w :: rest).
Proof.
  intros Hmi Hmb Hws.
  assert (Hg : forall ws s, Forall (fun w => 0 <= size_of w) ws -> charged mi mb s -> charged mi mb (foldl step s ws) /\ exists rest, (foldl step s ws).2 = s.2 ++ rest).
  { clear ws Hws. induction ws as [|w ws IH]; intros s Hws Hs; cbn [foldl]; [split; [done|exists []; by rewrite app_nil_r]|].
    apply Forall_cons in Hws as [Hw Hws].
    assert (Hone : charged mi mb (step s w) /\ exists rest, (step s w).2 = s.2 ++ rest).
    { destruct s as [b l]. pose proof Hs as [[E1 E2] Hi Hb Hp Hm Hl]. cbn [fst snd] in *.
      assert (0 <= total l) by (clear -Hp; unfold total; induction Hp; simpl; lia).
      assert (Hz : items b = 0 -> l = []) by (intros Hz; apply length_zero_iff_nil; lia).
      destruct w as [late n|late n]; cbn [step size_of] in *.
      - unfold can_poll_unknown. rewrite E1, E2. destruct (items b <? mi) eqn:Ei; cbn [andb]; [|split; [done|exists []; by rewrite app_nil_r]].
        apply Z.ltb_lt in Ei. destruct (items b =? 0) eqn:E0; cbn [orb].
        + apply Z.eqb_eq, Hz in E0. split; [|by exists [n]]. apply drain_charge; try done. by left.
        + destruct (bytes b <? mb) eqn:Eb; cbn [andb]; [|split; [done|exists []; by rewrite app_nil_r]].
          destruct late; cbn [negb]; [split; [done|exists []; by rewrite app_nil_r]|]. split; [|by exists [n]].
          apply drain_charge; try done. right. left. apply Z.ltb_lt in Eb. lia.
      - unfold try_admit. rewrite E1, E2. destruct (mi <=? items b) eqn:Ei; cbn [orb]; [split; [done|exists []; by rewrite app_nil_r]|].
        apply Z.leb_gt in Ei. destruct (0 <? items b) eqn:E0; cbn [andb].
        + destruct (mb <? sat_add (bytes b) n) eqn:Eb; cbn [orb]; [split; [done|exists []; by rewrite app_nil_r]|].
          destruct late; [split; [done|exists []; by rewrite app_nil_r]|]. split; [|by exists [n]]. apply drain_charge; try done.
          right. right. apply Z.ltb_ge in Eb. unfold sat_add in Eb. lia.
        + apply Z.ltb_ge in E0. split; [|by exists [n]]. apply drain_charge; try done. left. apply Hz. lia. }
    destruct Hone as [Hc [r1 Er1]]. destruct (IH (step s w) Hws Hc) as [Hc' [r2 Er2]]. split; [done|].
    exists (r1 ++ r2). by rewrite Er2, Er1, app_assoc. }
  assert (H0 : charged mi mb (new mi mb, [])).
  { split; cbn [fst snd new max_items max_bytes items bytes length]; try done; [lia|by left]. }
  destruct (Hg ws _ Hws H0) as [Hc _]. assert (Hfirst : forall w ws', ws = w :: ws' -> 0 < mi -> exists rest, (foldl step (new mi mb, []) ws).2 = size_of w :: rest).
  { intros w ws' -> Hpos. apply Forall_cons in Hws as [Hw Hws]. cbn [foldl].
    assert (E : step (new mi mb, []) w = (charge_polled (new mi mb) (size_of w), [size_of w])).
    { destruct w as [late n|late n]; cbn [step size_of]; unfold can_poll_unknown, try_admit; cbn [new max_items max_bytes items bytes].
      - by rewrite (proj2 (Z.ltb_lt _ _) Hpos).
      - by rewrite (proj2 (Z.leb_gt mi 0) Hpos). }
    rewrite E. destruct (Hg ws' (charge_polled (new mi mb) (size_of w), [size_of w]) Hws) as [_ [rest Er]].
    { apply (drain_charge mi mb (new mi mb) [] (size_of w)); try done. by left. }
    exists rest. exact Er. }
  destruct (foldl step (new mi mb, []) ws) as [b taken]. destruct Hc as [_ Hi _ _ Hm Hl]. cbn [fst snd] in *. split_and!; try done.
  intros l n ->. destruct Hl as [Hnil|(l' & n' & [-> ->]%app_inj_tail & Hr)]; [by destruct l|done].
Qed.
End DrainBudget.

(** ** Concrete runs *)
Module LoaderExamples.

Example compat : ApiVersion.api_version_compatible "^3.1.0" = true /\ ApiVersion.api_version_compatible "1.x" = false.
Proof. vm_compute. split; reflexivity. Qed.
Example folder : FolderSpec.split_folder_spec "fun/@edge/rtv" = Some ("fun", "@edge/rtv") /\ FolderSpec.split_folder_spec "@edge/rtv" = None.
Proof. vm_compute. split; reflexivity. Qed.
Example file_name : FolderSpec.registry_filename "@edge/rtv" = "_edge_rtv.s2sp".
Proof. vm_compute. reflexivity. Qed.
Example updating : Requests.empty_reason (Requests.mkProgress true 5 (Some 42000000000%N) false None) =
  "Waiting for the plugins.json update to finish before scanning plugins/ (gives up in 42s).".
Proof. vm_compute. reflexivity. Qed.

Definition t0 : Requests.Tables Z := Requests.mkTables {[1 := "shop"; 2 := "bans"]} {[3 := "zoo"]} ∅ ∅ [] ∅.
Example t0_list : Requests.plugin_list (String.eqb "bans") (fun _ => false) ["bans"; "old"] t0 =
  [("bans", "failed"); ("old", "failed"); ("shop", "running"); ("zoo", "unloaded")].
Proof. vm_compute. reflexivity. Qed.

Lemma loader_intents_bounded_witness :
  exists t', Requests.enqueue_intent 1 100 t0 "shop" Requests.Reload = (t', true) /\ Requests.intents_ok 1 100 t'.
Proof.
  pose proof (Requests.loader_intents_bounded 1 100 t0 "shop" Requests.Reload) as H.
  destruct (Requests.enqueue_intent 1 100 t0 "shop" Requests.Reload) as [t' ok] eqn:E.
  exists t'. destruct H as [H _].
  - split; vm_compute; intros Hx; discriminate Hx.
  - split; [lia|vm_compute; reflexivity].
  - split; [|exact H]. revert E. vm_compute. intros E. injection E as <- <-. reflexivity.
Defined.

Definition life : list Retained.op := [Retained.Acquire 40; Retained.Acquire 70; Retained.Activate 0; Retained.Acquire 20; Retained.Grow 1 30; Retained.Drop 0; Retained.Drop 0].
Lemma retained_accounting_witness : Retained.accounts (Retained.run (Retained.new 1 100, []) life) 1 100 /\
  Retained.items (Retained.metrics (Retained.run (Retained.new 1 100, []) life).1) = 0.
Proof.
  destruct (Retained.retained_accounting 1 100 life) as [H1 H2].
  - split; [lia|vm_compute; intros Hx; discriminate Hx].
  - split; [lia|vm_compute; reflexivity].
  - repeat constructor; lia.
  - split; [exact H1|]. apply H2. vm_compute. reflexivity.
Defined.

Definition frame : list DrainBudget.work := [DrainBudget.Poll true 500; DrainBudget.Admit false 1; DrainBudget.Poll false 1].
Lemma drain_bounded_witness : exists rest, (foldl DrainBudget.step (DrainBudget.new 8 100, []) frame).2 = 500 :: rest.
Proof.
  pose proof (DrainBudget.drain_bounded 8 100 frame) as H. destruct (foldl DrainBudget.step (DrainBudget.new 8 100, []) frame) as [b taken].
  destruct H as (_ & _ & _ & H).
  - split; [lia|vm_compute; intros Hx; discriminate Hx].
  - split; [lia|vm_compute; reflexivity].
  - repeat constructor; simpl; lia.
  - exact (H (DrainBudget.Poll true 500) _ eq_refl ltac:(lia)).
Defined.
End LoaderExamples.
