(* ===== verification/Fold.v ===== *)
(** Most-restrictive-wins policy tables (core/src/fold.rs) and their two adapters in
    core/src/v8host.rs: voice hearability and entity visibility.

    [Fold] is the table owner -> key -> value with its AND-fold; values are any type with a viewer
    mask ([MaskFold]: folding two values intersects their masks), which the adapters instantiate with
    a bare mask and with a mask tagged by an entity serial. [Voice] and [Transmit] run the natives
    against the shim's own tables (shim/src/s2script_mm.cpp, [s2_voice_audible_set], [s2_transmit_set]
    and the clears), so that the theorems relate what plugins asked for to what the engine-side hook
    reads. A [HashMap] is iterated in [map_to_list] order; the theorems do not depend on it. *)
From S2P Require Import Prelude.

Module Fold.

(** The trait [AndFold], and what its instances promise. *)
Class AndFold (V : Type) := and_fold : V -> V -> V.
Class MaskFold (V : Type) `{AndFold V} := {
  mask : V -> Z;
  mask_and : forall a b, mask (and_fold a b) = Z.land (mask a) (mask b);
}.

#[export] Instance u64_and_fold : AndFold Z := Z.land.
#[export, refine] Instance u64_mask_fold : MaskFold Z := {| mask := fun m => m |}.
Proof. done. Defined.

Section FoldTable.
Context {K V : Type} `{Countable K} `{MaskFold V}.

(** The code's [FoldTable.owners]. *)
Notation FoldTable := (gmap string (gmap K V)).
Implicit Types (t : FoldTable) (o : string) (k : K).

Definition new : FoldTable := ∅.
Definition insert t o k (v : V) : FoldTable := <[o := <[k := v]> (default ∅ (t !! o))]> t.
Definition get t o k : option V := match t !! o with Some rules => rules !! k | None => None end.
Definition remove t o k : FoldTable * option V :=
  match t !! o with
  | None => (t, None)
  | Some rules =>
      let rules' := delete k rules in
      (if bool_decide (rules' = ∅) then delete o t else <[o := rules']> t, rules !! k)
  end.
Definition remove_owner t o : FoldTable * list K :=
  match t !! o with Some rules => (delete o t, (map_to_list rules).*1) | None => (t, []) end.
Definition clear_key t k : FoldTable * bool :=
  ((fun rules => delete k rules) <$> t, existsb (fun kv => bool_decide (is_Some (kv.2 !! k))) (map_to_list t)).
Definition clear t : FoldTable := ∅.

Definition merge_one k (acc : option V) (rules : gmap K V) : option V :=
  match rules !! k with
  | Some v => Some (match acc with None => v | Some a => and_fold a v end)
  | None => acc
  end.
Definition merged t k : option V := foldl (merge_one k) None (map_to_list t).*2.

Definition except_one (o : string) k (include : V -> bool) (acc : V) (kv : string * gmap K V) : V :=
  if String.eqb kv.1 o then acc
  else match kv.2 !! k with
       | Some v => if include v then and_fold acc v else acc
       | None => acc
       end.
Definition fold_except t o k (seed : V) (include : V -> bool) : V := foldl (except_one o k include) seed (map_to_list t).

Definition evict_at t k (stale : V -> bool) : FoldTable :=
  (fun rules => match rules !! k with Some v => if stale v then delete k rules else rules | None => rules end) <$> t.

(** ** What the operations do to one owner's rule at one key *)
Lemma fold_get_insert t o k v o' k' : get (insert t o k v) o' k' = if decide (o' = o /\ k' = k) then Some v else get t o' k'.
Proof.
  unfold get, insert. destruct (decide (o' = o)) as [->|Ho].
  - rewrite lookup_insert_eq. destruct (decide (k' = k)) as [->|Hk].
    + rewrite lookup_insert_eq. by rewrite decide_True.
    + rewrite lookup_insert_ne by done. rewrite decide_False by tauto. by destruct (t !! o); rewrite ?lookup_empty.
  - rewrite lookup_insert_ne by done. by rewrite decide_False by tauto.
Qed.

Lemma fold_get_remove t o k o' k' :
  (remove t o k).2 = get t o k /\ get (remove t o k).1 o' k' = if decide (o' = o /\ k' = k) then None else get t o' k'.
Proof.
  unfold remove, get. destruct (t !! o) as [rules|] eqn:E; cbn [fst snd]; (split; [done|]).
  - destruct (decide (o' = o)) as [->|Ho].
    + destruct (bool_decide_reflect (delete k rules = ∅)) as [Hd|Hd].
      * rewrite lookup_delete_eq, E. destruct (decide (k' = k)) as [->|Hk]; [by rewrite decide_True|]. rewrite decide_False by tauto.
        by rewrite <- (lookup_delete_ne rules k k'), Hd, lookup_empty by done.
      * rewrite lookup_insert_eq, E. destruct (decide (k' = k)) as [->|Hk]; [by rewrite lookup_delete_eq, decide_True|].
        rewrite lookup_delete_ne by done. by rewrite decide_False by tauto.
    + rewrite decide_False by tauto. case_bool_decide; [by rewrite lookup_delete_ne|by rewrite lookup_insert_ne].
  - destruct (decide (o' = o /\ k' = k)) as [[-> ->]|]; [by rewrite E|done].
Qed.

Lemma fold_get_remove_owner t o o' k' :
  get (remove_owner t o).1 o' k' = (if String.eqb o' o then None else get t o' k') /\
  (k' ∈ (remove_owner t o).2 <-> is_Some (get t o k')).
Proof.
  unfold remove_owner, get. destruct (t !! o) as [rules|] eqn:E; cbn [fst snd]; split.
  - destruct (String.eqb_spec o' o) as [->|Ho]; [by rewrite lookup_delete_eq|by rewrite lookup_delete_ne].
  - rewrite list_elem_of_fmap. split; [intros ([k v] & -> & Ek%elem_of_map_to_list); by exists v|].
    intros [v Ek]. exists (k', v). split; [done|]. by apply elem_of_map_to_list.
  - destruct (String.eqb_spec o' o) as [->|Ho]; [by rewrite E|done].
  - split; [intros Hk; by apply elem_of_nil in Hk|by intros [? ?]].
Qed.

Lemma fold_get_clear_key t k o' k' :
  get (clear_key t k).1 o' k' = (if decide (k' = k) then None else get t o' k') /\
  ((clear_key t k).2 = true <-> exists o, is_Some (get t o k)).
Proof.
  unfold clear_key, get. cbn [fst snd]. split.
  - rewrite lookup_fmap. destruct (t !! o') as [rules|]; cbn; [|by case_decide].
    destruct (decide (k' = k)) as [->|Hk]; [apply lookup_delete_eq|by apply lookup_delete_ne].
  - rewrite existsb_exists. setoid_rewrite <- list_elem_of_In. split.
    + intros ([o rules] & Hin%elem_of_map_to_list & Hs%bool_decide_eq_true). exists o. by rewrite Hin.
    + intros [o Hs]. destruct (t !! o) as [rules|] eqn:E; [|by destruct Hs]. exists (o, rules).
      split; [by apply elem_of_map_to_list|by apply bool_decide_eq_true].
Qed.

Lemma fold_get_evict_at t k stale o' k' :
  get (evict_at t k stale) o' k' =
  match get t o' k' with Some v => if decide (k' = k) then (if stale v then None else Some v) else Some v | None => None end.
Proof.
  unfold evict_at, get. rewrite lookup_fmap. destruct (t !! o') as [rules|]; cbn; [|done].
  destruct (decide (k' = k)) as [->|Hk].
  - destruct (rules !! k) as [v|] eqn:Ev; [|by rewrite Ev]. destruct (stale v); [by rewrite lookup_delete_eq|done].
  - destruct (rules !! k) as [v|]; [destruct (stale v)|]; rewrite ?lookup_delete_ne by done; by destruct (rules !! k').
Qed.

(** ** The folds *)
Lemma merge_one_bits k (l : list (gmap K V)) acc n :
  match foldl (merge_one k) acc l with
  | Some v => Z.testbit (mask v) n = true <->
      (match acc with Some a => Z.testbit (mask a) n = true | None => True end) /\
      forall rules r, rules ∈ l -> rules !! k = Some r -> Z.testbit (mask r) n = true
  | None => acc = None /\ forall rules, rules ∈ l -> rules !! k = None
  end.
Proof.
  revert acc. induction l as [|rules l IH]; intros acc; cbn [foldl].
  - destruct acc as [a|]; [|split; [done|intros ? Hin; by apply elem_of_nil in Hin]].
    split; [intros Ha; split; [done|intros ? ? Hin; by apply elem_of_nil in Hin]|tauto].
  - specialize (IH (merge_one k acc rules)). destruct (foldl (merge_one k) (merge_one k acc rules) l) as [v|].
    + rewrite IH. unfold merge_one. destruct (rules !! k) as [r|] eqn:Er.
      * assert (Hb : (match acc with Some a => Z.testbit (mask a) n = true | None => True end) /\ Z.testbit (mask r) n = true <->
                 Z.testbit (mask (match acc with None => r | Some a => and_fold a r end)) n = true).
        { destruct acc as [a|]; [rewrite mask_and, Z.land_spec, andb_true_iff; tauto|tauto]. }
        rewrite <- Hb. split.
        -- intros [[Ha Hr] Hall]. split; [done|]. intros x y [->|Hx]%elem_of_cons Hy; [congruence|by eapply Hall].
        -- intros [Ha Hall]. split; [split; [done|by apply (Hall rules r); [left|]]|]. intros x y Hx. apply Hall. by right.
      * split; intros [Ha Hall]; (split; [done|]); [|intros x y Hx; apply Hall; by right].
        intros x y [->|Hx]%elem_of_cons Hy; [congruence|by eapply Hall].
    + destruct IH as [IH1 IH2]. unfold merge_one in IH1. destruct (rules !! k) eqn:Er; [done|]. split; [done|].
      intros x [->|Hx]%elem_of_cons; [done|by apply IH2].
Qed.

Lemma fold_rules_get t k (r : V) : (exists rules, rules ∈ (map_to_list t).*2 /\ rules !! k = Some r) <-> exists o, get t o k = Some r.
Proof.
  split.
  - intros (rules & ([o x] & -> & E%elem_of_map_to_list)%list_elem_of_fmap & Er). exists o. unfold get. cbn [snd] in Er. by rewrite E.
  - intros [o E]. unfold get in E. destruct (t !! o) as [rules|] eqn:Eo; [|done]. exists rules. split; [|done].
    apply list_elem_of_fmap. exists (o, rules). split; [done|]. by apply elem_of_map_to_list.
Qed.

Lemma fold_merged t k :
  (merged t k = None <-> forall o, get t o k = None) /\
  (forall v n, merged t k = Some v ->
     (Z.testbit (mask v) n = true <-> forall o r, get t o k = Some r -> Z.testbit (mask r) n = true)).
Proof.
  assert (Hn := fun n => merge_one_bits k (map_to_list t).*2 None n). unfold merged. split.
  - specialize (Hn 0). destruct (foldl (merge_one k) None (map_to_list t).*2) as [v|] eqn:E; split; try done.
    + intros Hall. exfalso. assert (Hnone : forall rules, rules ∈ (map_to_list t).*2 -> rules !! k = None).
      { intros rules Hr. destruct (rules !! k) as [r|] eqn:Er; [|done].
        assert (exists o, get t o k = Some r) as [o Ho] by (apply fold_rules_get; by exists rules). by rewrite Hall in Ho. }
      clear Hn. revert E. generalize (map_to_list t).*2 as l, Hnone. clear. intros l Hnone.
      induction l as [|x l IH]; cbn [foldl]; [done|]. unfold merge_one at 2. rewrite (Hnone x) by (by left). apply IH. intros y Hy. apply Hnone. by right.
    + destruct Hn as [_ Hn]. intros _ o. destruct (get t o k) as [r|] eqn:Eo; [|done].
      assert (exists rules, rules ∈ (map_to_list t).*2 /\ rules !! k = Some r) as (rules & Hr & Er) by (apply fold_rules_get; by exists o).
      by rewrite (Hn rules Hr) in Er.
  - intros v n E. specialize (Hn n). rewrite E in Hn. rewrite Hn. split.
    + intros [_ Hall] o r Ho. assert (exists rules, rules ∈ (map_to_list t).*2 /\ rules !! k = Some r) as (rules & Hr & Er) by (apply fold_rules_get; by exists o).
      by eapply Hall.
    + intros Hall. split; [done|]. intros rules r Hr Er. assert (exists o, get t o k = Some r) as [o Ho] by (apply fold_rules_get; by exists rules). by eapply Hall.
Qed.

Lemma fold_except_bits t o k seed include n :
  Z.testbit (mask (fold_except t o k seed include)) n = true <->
  Z.testbit (mask seed) n = true /\
  forall o' r, o' <> o -> get t o' k = Some r -> include r = true -> Z.testbit (mask r) n = true.
Proof.
  unfold fold_except. assert (Hl : forall (l : list (string * gmap K V)) acc,
    Z.testbit (mask (foldl (except_one o k include) acc l)) n = true <-> Z.testbit (mask acc) n = true /\
    forall o' rules r, (o', rules) ∈ l -> o' <> o -> rules !! k = Some r -> include r = true -> Z.testbit (mask r) n = true).
  { induction l as [|[x rules] l IH]; intros acc; cbn [foldl].
    - split; [intros Ha; split; [done|intros ? ? ? Hin; by apply elem_of_nil in Hin]|tauto].
    - rewrite IH. assert (Hb : Z.testbit (mask (except_one o k include acc (x, rules))) n = true <-> Z.testbit (mask acc) n = true /\
        (forall r, x <> o -> rules !! k = Some r -> include r = true -> Z.testbit (mask r) n = true)).
      { unfold except_one. cbn [fst snd]. destruct (String.eqb_spec x o) as [->|Hx]; [split; [tauto|tauto]|].
        destruct (rules !! k) as [r|]; [|split; [by intros ?; split|tauto]]. destruct (include r) eqn:Ei.
        - rewrite mask_and, Z.land_spec, andb_true_iff. split; [intros [? ?]; split; [done|by intros ? _ [= <-]]|].
          intros [? Hr]. split; [done|by apply Hr].
        - split; [|tauto]. intros ?. split; [done|]. intros ? _ [= <-]. congruence. }
      rewrite Hb. split.
      + intros [[Ha Hr] Hall]. split; [done|]. intros o' rules' r [[= -> ->]|Hin]%elem_of_cons; [apply Hr|by eapply Hall].
      + intros [Ha Hall]. split; [split; [done|]|].
        * intros r. apply (Hall x rules r). by left.
        * intros o' rules' r Hin. apply (Hall o' rules' r). by right. }
  rewrite Hl. split; intros [Ha Hall]; (split; [done|]).
  - intros o' r Hne Hg Hi. unfold get in Hg. destruct (t !! o') as [rules|] eqn:E; [|done]. eapply Hall; [by apply elem_of_map_to_list|done..].
  - intros o' rules r Hin%elem_of_map_to_list Hne Hr Hi. apply (Hall o' r Hne); [|done]. unfold get. by rewrite Hin.
Qed.
(** What an owner's rule would merge to, computed before it is inserted. *)
Lemma fold_candidate t o k v :
  exists w, merged (insert t o k v) k = Some w /\
            forall n, Z.testbit (mask w) n = true <-> Z.testbit (mask (fold_except t o k v (fun _ => true))) n = true.
Proof.
  destruct (fold_merged (insert t o k v) k) as [Hn Hb]. destruct (merged (insert t o k v) k) as [w|].
  - exists w. split; [done|]. intros n. rewrite (Hb w n eq_refl), fold_except_bits. split.
    + intros Hall. split; [apply (Hall o v); rewrite fold_get_insert; by rewrite decide_True|].
      intros o' r Hne Hg _. apply (Hall o' r). rewrite fold_get_insert. by rewrite decide_False by tauto.
    + intros [Hm Hall] o' r. rewrite fold_get_insert. case_decide as Hd; [by intros [= <-]|].
      intros Hg. apply (Hall o' r); [|done..]. intros ->. tauto.
  - exfalso. destruct Hn as [Hn _]. specialize (Hn eq_refl o). rewrite fold_get_insert in Hn. by rewrite decide_True in Hn.
Qed.

(** The fold is most-restrictive-wins: it is [None] exactly when no owner has a rule at the key,
    and otherwise a viewer is in the merged mask exactly when it is in every owner's mask, so no owner
    can widen what another restricts, whatever order the owners are visited in; and the candidate an
    adapter computes before it stores a rule lets through exactly the viewers the merge lets through
    once the rule is stored. *)
Theorem fold_most_restrictive t k :
  (merged t k = None <-> forall o, get t o k = None) /\
  (forall v n, merged t k = Some v ->
     (Z.testbit (mask v) n = true <-> forall o r, get t o k = Some r -> Z.testbit (mask r) n = true)) /\
  (forall o v, exists w, merged (insert t o k v) k = Some w /\
     forall n, Z.testbit (mask w) n = true <-> Z.testbit (mask (fold_except t o k v (fun _ => true))) n = true).
Proof. split_and!; [apply fold_merged|apply fold_merged|]. intros o v. apply fold_candidate. Qed.
End FoldTable.
End Fold.

(** Fold a JS array of slots into a mask; a slot outside 0..63 refuses the whole call. *)
Fixpoint mask_of_slots (acc : Z) (slots : list Z) : option Z :=
  match slots with
  | [] => Some acc
  | slot :: slots => if (0 <=? slot) && (slot <? 64) then mask_of_slots (Z.lor acc (Z.shiftl 1 slot)) slots else None
  end.

Lemma mask_of_slots_bits slots acc m n :
  0 <= n -> mask_of_slots acc slots = Some m -> Z.testbit m n = true <-> Z.testbit acc n = true \/ n ∈ slots.
Proof.
  intros Hn. revert acc. induction slots as [|s slots IH]; intros acc; cbn [mask_of_slots].
  - intros [= ->]. split; [by left|]. intros [?|Hin]; [done|by apply elem_of_nil in Hin].
  - destruct ((0 <=? s) && (s <? 64)) eqn:E; [|done]. apply andb_true_iff in E as [Hs%Z.leb_le _]. intros Hm. rewrite (IH _ Hm).
    rewrite Z.lor_spec, orb_true_iff, elem_of_cons, Z.shiftl_1_l, Z.pow2_bits_eqb, Z.eqb_eq by done. naive_solver.
Qed.

Lemma mask_eq_bits a b : (forall n, 0 <= n -> Z.testbit a n = true <-> Z.testbit b n = true) -> a = b.
Proof.
  intros H. apply Z.bits_inj'. intros n Hn. specialize (H n Hn). destruct (Z.testbit a n), (Z.testbit b n); try done; [symmetry|]; tauto.
Qed.

Module Voice.
Import Fold.

Notation rules_table := (gmap string (gmap Z Z)).

(** [VOICE_RULES], and the shim's [s_voiceAudible]/[s_voiceHasRule]: a sender's mask, when it has a
    rule. *)
Record State := mkState { rules : rules_table; shim : gmap Z Z }.

Section Voice.
(** The shim's listen hook is installed and not degraded. *)
Context (hook_ok : bool).

Definition shim_set (m : gmap Z Z) (sender mask : Z) : gmap Z Z * Z :=
  if negb hook_ok then (m, 0) else if (sender <? 0) || (64 <=? sender) then (m, 0) else (<[sender := mask]> m, 1).
Definition shim_clear (m : gmap Z Z) (sender : Z) : gmap Z Z :=
  if negb hook_ok then m else if (sender <? 0) || (64 <=? sender) then m else delete sender m.

Definition voice_merged (s : State) (sender : Z) : option Z := merged (rules s) sender.

Definition voice_recompute_and_push (s : State) (sender : Z) : State :=
  match voice_merged s sender with
  | Some mask => mkState (rules s) (shim_set (shim s) sender mask).1
  | None => mkState (rules s) (shim_clear (shim s) sender)
  end.

Definition s2_voice_audible_set (s : State) (owner : string) (sender : Z) (slots : list Z) : State * bool :=
  if negb ((0 <=? sender) && (sender <? 64)) then (s, false)
  else
    match mask_of_slots 0 slots with
    | None => (s, false)
    | Some mask =>
        let merged := fold_except (rules s) owner sender mask (fun _ => true) in
        let '(m, ok) := shim_set (shim s) sender merged in
        if ok =? 0 then (mkState (rules s) m, false) else (mkState (insert (rules s) owner sender mask) m, true)
    end.

Definition s2_voice_audible_clear (s : State) (owner : string) (sender : Z) : State * bool :=
  if negb ((0 <=? sender) && (sender <? 64)) then (s, false)
  else
    let '(t, removed) := remove (rules s) owner sender in
    let s := mkState t (shim s) in
    match removed with
    | Some _ => (voice_recompute_and_push s sender, true)
    | None => (s, false)
    end.

Definition voice_remove_owner (s : State) (owner : string) : State :=
  let '(t, touched) := remove_owner (rules s) owner in
  foldl voice_recompute_and_push (mkState t (shim s)) touched.

Definition voice_clear_slot (s : State) (sender : Z) : State :=
  let '(t, touched) := clear_key (rules s) sender in
  let s := mkState t (shim s) in
  if touched then voice_recompute_and_push s sender else s.

Inductive op :=
| Set_ (owner : string) (sender : Z) (slots : list Z)
| Clear (owner : string) (sender : Z)
| ResetAll (owner : string)
| Disconnect (sender : Z).

(** On a disconnect the shim clears its own row before the core is told. *)
Definition step (s : State) (o : op) : State :=
  match o with
  | Set_ owner sender slots => (s2_voice_audible_set s owner sender slots).1
  | Clear owner sender => (s2_voice_audible_clear s owner sender).1
  | ResetAll owner => voice_remove_owner s owner
  | Disconnect sender => voice_clear_slot (mkState (rules s) (delete sender (shim s))) sender
  end.

Record agrees (s : State) : Prop := {
  ag_shim : forall sender, shim s !! sender = merged (rules s) sender;
  ag_range : forall o sender m, get (rules s) o sender = Some m -> 0 <= sender < 64 /\ hook_ok = true;
}.

Lemma voice_recompute_shim s sender k :
  (forall o m, get (rules s) o sender = Some m -> 0 <= sender < 64 /\ hook_ok = true) ->
  (merged (rules s) sender = None -> shim s !! sender = None \/ (0 <= sender < 64 /\ hook_ok = true)) ->
  shim (voice_recompute_and_push s sender) !! k = (if decide (k = sender) then merged (rules s) sender else shim s !! k) /\
  rules (voice_recompute_and_push s sender) = rules s.
Proof.
  intros Hr Hc. unfold voice_recompute_and_push, voice_merged. destruct (merged (rules s) sender) as [m|] eqn:Em; cbn [rules shim].
  - split; [|done]. assert (Hin : 0 <= sender < 64 /\ hook_ok = true).
    { destruct (proj1 (fold_merged (rules s) sender)) as [_ Hn]. destruct (decide (0 <= sender < 64 /\ hook_ok = true)) as [|Hno]; [done|].
      exfalso. assert (merged (rules s) sender = None); [|congruence]. apply Hn. intros o. destruct (get (rules s) o sender) eqn:E; [|done]. destruct Hno. by eapply Hr. }
    destruct Hin as [Hs Hok]. unfold shim_set. rewrite Hok, (proj2 (Z.ltb_ge _ _)), (proj2 (Z.leb_gt _ _)) by lia. cbn [negb orb fst].
    destruct (decide (k = sender)) as [->|]; [by rewrite lookup_insert_eq|by rewrite lookup_insert_ne].
  - split; [|done]. unfold shim_clear. destruct (decide (k = sender)) as [->|Hk].
    + destruct (Hc eq_refl) as [Hn|[Hs Hok]].
      * destruct (negb hook_ok); [done|]. destruct ((sender <? 0) || (64 <=? sender)); [done|]. apply lookup_delete_eq.
      * rewrite Hok, (proj2 (Z.ltb_ge _ _)), (proj2 (Z.leb_gt _ _)) by lia. cbn [negb orb]. apply lookup_delete_eq.
    + destruct (negb hook_ok); [done|]. destruct ((sender <? 0) || (64 <=? sender)); [done|]. by apply lookup_delete_ne.
Qed.

Lemma voice_recompute_all s touched :
  (forall o sender m, get (rules s) o sender = Some m -> 0 <= sender < 64 /\ hook_ok = true) ->
  (forall sender, sender ∈ touched -> 0 <= sender < 64 /\ hook_ok = true) ->
  (forall sender, sender ∉ touched -> shim s !! sender = merged (rules s) sender) ->
  agrees (foldl voice_recompute_and_push s touched).
Proof.
  intros Hr Ht Hm. assert (Hg : forall touched' s', rules s' = rules s -> (forall x, x ∈ touched' -> x ∈ touched) ->
    (forall sender, sender ∉ touched' -> shim s' !! sender = merged (rules s) sender) ->
    let e := foldl voice_recompute_and_push s' touched' in rules e = rules s /\ forall sender, shim e !! sender = merged (rules s) sender).
  { clear Hm. cbv zeta. induction touched' as [|x l IH]; intros s' Er Hsub Hm; cbn [foldl].
    - split; [done|]. intros sender. apply Hm, not_elem_of_nil.
    - pose proof (fun k => voice_recompute_shim s' x k ltac:(rewrite Er; intros o m; apply (Hr o x m)) ltac:(intros _; right; apply Ht, Hsub; by left)) as Hv.
      apply IH; [by rewrite (proj2 (Hv 0))|intros y Hy; apply Hsub; by right|]. intros sender Hni. rewrite (proj1 (Hv sender)), Er.
      destruct (decide (sender = x)) as [->|Hne]; [done|]. apply Hm. rewrite not_elem_of_cons. tauto. }
  destruct (Hg touched s eq_refl ltac:(done) Hm) as [E1 E2]. split; rewrite E1; done.
Qed.

(** The candidate the native pushes is the merge the table will have after the insertion. *)
Lemma voice_candidate (t : rules_table) owner sender m :
  merged (insert t owner sender m) sender = Some (fold_except t owner sender m (fun _ => true)).
Proof.
  destruct (fold_candidate t owner sender m) as (w & -> & Hb). f_equal. apply mask_eq_bits. intros n _. apply Hb.
Qed.

Lemma merged_ext (t t' : rules_table) k : (forall o, get t' o k = get t o k) -> merged t' k = merged t k.
Proof.
  intros E. destruct (fold_merged t k) as [Hn Hb], (fold_merged t' k) as [Hn' Hb'].
  destruct (merged t k) as [v|], (merged t' k) as [v'|]; try done.
  - f_equal. apply mask_eq_bits. intros n _. change (Z.testbit v' n) with (Z.testbit (mask v') n). change (Z.testbit v n) with (Z.testbit (mask v) n).
    rewrite (Hb v n eq_refl), (Hb' v' n eq_refl). by setoid_rewrite E.
  - destruct Hn as [_ Hn]. assert (Some v = None) as Hx; [|done]. apply Hn. intros o. rewrite <- E. by apply Hn'.
  - destruct Hn' as [_ Hn']. assert (Some v' = None) as Hx; [|done]. apply Hn'. intros o. rewrite E. by apply Hn.
Qed.

Lemma voice_step s o : agrees s -> agrees (step s o).
Proof.
  intros [Hs Hr]. destruct o as [owner sender slots|owner sender|owner|sender]; cbn [step].
  - unfold s2_voice_audible_set. destruct ((0 <=? sender) && (sender <? 64)) eqn:E; cbn [negb]; [|by split].
    apply andb_true_iff in E as [E1%Z.leb_le E2%Z.ltb_lt]. destruct (mask_of_slots 0 slots) as [m|]; [|by split].
    unfold shim_set. assert (Hok : hook_ok = true \/ hook_ok = false) by (destruct hook_ok; tauto).
    destruct Hok as [Hok|Hok]; rewrite Hok; cbn [negb]; [|split; [exact Hs|exact Hr]].
    rewrite (proj2 (Z.ltb_ge _ _)), (proj2 (Z.leb_gt _ _)) by lia. cbn [orb Z.eqb fst]. split; cbn [rules shim].
    + intros k. destruct (decide (k = sender)) as [->|Hk]; [by rewrite lookup_insert_eq, voice_candidate|].
      rewrite lookup_insert_ne, Hs by done. symmetry. apply merged_ext. intros o. rewrite fold_get_insert. by rewrite decide_False by tauto.
    + intros o k v. rewrite fold_get_insert. case_decide as Hd; [intros _; destruct Hd as [_ ->]; split; [lia|done]|]. intros Hg. by eapply Hr.
  - unfold s2_voice_audible_clear. destruct ((0 <=? sender) && (sender <? 64)) eqn:E; cbn [negb]; [|by split].
    apply andb_true_iff in E as [E1%Z.leb_le E2%Z.ltb_lt]. pose proof (fun o k => proj2 (fold_get_remove (rules s) owner sender o k)) as Hg.
    pose proof (proj1 (fold_get_remove (rules s) owner sender owner sender)) as Hrem.
    destruct (remove (rules s) owner sender) as [t removed]. cbn [fst snd] in *. destruct removed as [m|]; cbn [fst].
    + symmetry in Hrem. apply (voice_recompute_all (mkState t (shim s)) [sender]); cbn [rules shim].
      * intros o k v. rewrite Hg. case_decide; [done|]. apply Hr.
      * intros k ->%list_elem_of_singleton. split; [lia|]. by eapply Hr.
      * intros k Hk. rewrite Hs. symmetry. apply merged_ext. intros o. rewrite Hg. rewrite decide_False; [done|].
        intros [_ ->]. apply Hk. by left.
    + assert (Hsame : forall o k, get t o k = get (rules s) o k) by (intros o k; rewrite Hg; case_decide as Hd; [destruct Hd as [-> ->]; by rewrite <- Hrem|done]).
      split; cbn [rules shim]; [intros k; rewrite Hs; symmetry; by apply merged_ext|]. intros o k v. rewrite Hsame. apply Hr.
  - unfold voice_remove_owner. pose proof (fun o k => fold_get_remove_owner (rules s) owner o k) as Hg.
    destruct (remove_owner (rules s) owner) as [t touched]. cbn [fst snd] in Hg. apply voice_recompute_all; cbn [rules shim].
    + intros o k v. rewrite (proj1 (Hg o k)). destruct (String.eqb o owner); [done|]. apply Hr.
    + intros k Hk. apply (proj2 (Hg owner k)) in Hk as [v Hv]. by eapply Hr.
    + intros k Hk. rewrite Hs. symmetry. apply merged_ext. intros o. rewrite (proj1 (Hg o k)).
      destruct (String.eqb_spec o owner) as [->|]; [|done]. destruct (get (rules s) owner k) as [v|] eqn:Ev; [|done].
      destruct Hk. apply (proj2 (Hg owner k)). by exists v.
  - unfold voice_clear_slot. cbn [rules]. pose proof (fun o k => proj1 (fold_get_clear_key (rules s) sender o k)) as Hg.
    pose proof (proj2 (fold_get_clear_key (rules s) sender "" sender)) as Hany.
    destruct (clear_key (rules s) sender) as [t any]. cbn [fst snd rules shim] in *.
    assert (Hnone : merged t sender = None) by (apply (fold_merged t sender); intros o; rewrite Hg; by rewrite decide_True).
    assert (Hother : forall k, k <> sender -> merged t k = shim s !! k) by (intros k Hk; rewrite Hs; apply merged_ext; intros o; rewrite Hg; by rewrite decide_False).
    assert (Hrange : forall o k m, get t o k = Some m -> 0 <= k < 64 /\ hook_ok = true) by (intros o k m; rewrite Hg; case_decide; [done|apply Hr]).
    assert (Hdel : forall k, delete sender (shim s) !! k = merged t k).
    { intros k. destruct (decide (k = sender)) as [->|Hk]; [by rewrite lookup_delete_eq|by rewrite lookup_delete_ne, Hother]. }
    destruct any; [|by split]. apply (voice_recompute_all (mkState t (delete sender (shim s))) [sender]); cbn [rules shim]; try done.
    intros k ->%list_elem_of_singleton. destruct (proj1 Hany eq_refl) as [o [v Hv]]. by eapply Hr.
Qed.

(** Core and shim agree on who hears whom: after any calls by any plugins, unloads and client
    disconnects, the mask the shim's hook applies to a sender is the intersection of the masks of the
    plugins that hold a rule for it, and a sender nobody holds a rule for has none there (the engine
    decides); when the hook is missing or degraded no rule is ever recorded. *)
Theorem voice_agrees os :
  let s := foldl step (mkState new ∅) os in
  (forall sender, shim s !! sender = merged (rules s) sender) /\
  (forall sender, shim s !! sender = None <-> forall o, get (rules s) o sender = None) /\
  (forall sender m n, shim s !! sender = Some m ->
     (Z.testbit m n = true <-> forall o r, get (rules s) o sender = Some r -> Z.testbit r n = true)) /\
  (hook_ok = false -> forall o sender, get (rules s) o sender = None).
Proof.
  cbv zeta. assert (Hg : forall s, agrees s -> agrees (foldl step s os)).
  { induction os as [|o os IH]; intros s Hs; [done|]. apply IH. by apply voice_step. }
  destruct (Hg (mkState new ∅)) as [Hs Hr].
  { split; cbn [rules shim]; [intros k; by rewrite lookup_empty|]. intros o k m Hx. unfold get, new in Hx. by rewrite lookup_empty in Hx. }
  set (s := foldl step _ os) in *. split_and!; [done|..].
  - intros sender. rewrite Hs. apply fold_merged.
  - intros sender m n E. rewrite Hs in E. exact (proj2 (fold_merged (rules s) sender) m n E).
  - intros Hno o sender. destruct (get (rules s) o sender) eqn:E; [|done]. apply Hr in E as [_ E]. congruence.
Qed.
End Voice.
End Voice.

Module Transmit.
Import Fold.

Record TransmitRule := mkRule { serial : Z; rmask : Z }.

#[export] Instance transmit_and_fold : AndFold TransmitRule := fun self other =>
  mkRule (serial other) (Z.land (rmask self) (rmask other)).
#[export, refine] Instance transmit_mask_fold : MaskFold TransmitRule := {| mask := rmask |}.
Proof. done. Defined.

Notation rules_table := (gmap string (gmap Z TransmitRule)).

(** [TRANSMIT_RULES]; the shim's [s_transmitTable] with the two conditions of its registration guard
    (the hook is installed, [s_transmitLayoutState]); and the serials the engine's entity system
    holds live. *)
Record State := mkState {
  rules : rules_table;
  table : gmap Z TransmitRule;
  layout : Z;
  live : gmap Z Z;
}.

Definition kTransmitTableCap : nat := Z.to_nat 4096.

Section Transmit.
(** The engine's edict bound, and whether the CheckTransmit hook is installed. *)
Context (MAX_EDICTS : Z) (installed : bool).

Definition with_table (s : State) (t : gmap Z TransmitRule) : State := mkState (rules s) t (layout s) (live s).
Definition with_rules (s : State) (t : rules_table) : State := mkState t (table s) (layout s) (live s).

Definition accepts (s : State) : bool := installed && (0 <=? layout s).

(** [ResolveEntityBySerial], as a test. *)
Definition resolves (s : State) (index ser : Z) : bool :=
  (0 <=? index) && (0 <=? ser) && bool_decide (live s !! index = Some ser).

Definition shim_set (s : State) (index ser mask : Z) : State * Z :=
  if negb (accepts s) then (s, 0)
  else if (index <? 0) || (ser <? 0) then (s, 0)
  else if MAX_EDICTS <=? index then (s, 0)
  else if negb (resolves s index ser) then (s, 0)
  else if bool_decide (table s !! index = None) && Nat.leb kTransmitTableCap (size (table s)) then (s, 0)
  else (with_table s (<[index := mkRule ser mask]> (table s)), 1).
Definition shim_clear (s : State) (index : Z) : State := with_table s (delete index (table s)).

Definition transmit_recompute_and_push (s : State) (index : Z) : State :=
  match merged (rules s) index with
  | Some rule => (shim_set s index (serial rule) (rmask rule)).1
  | None => shim_clear s index
  end.

(** [ref]: what [ent_op_serial] resolved the script's reference to. *)
Definition s2_transmit_set (s : State) (owner : string) (ref : option (Z * Z)) (slots : list Z) : State * bool :=
  match ref with
  | None => (s, false)
  | Some (index, ser) =>
      match mask_of_slots 0 slots with
      | None => (s, false)
      | Some m =>
          let merged := rmask (fold_except (rules s) owner index (mkRule ser m) (fun ru => serial ru =? ser)) in
          let '(s', ok) := shim_set s index ser merged in
          if ok =? 0 then (s', false)
          else
            let map := evict_at (rules s') index (fun ru => negb (serial ru =? ser)) in
            (with_rules s' (insert map owner index (mkRule ser m)), true)
      end
  end.

Definition s2_transmit_reset (s : State) (owner : string) (ref : option (Z * Z)) : State * bool :=
  match ref with
  | None => (s, false)
  | Some (index, ser) =>
      match get (rules s) owner index with
      | Some ru =>
          if serial ru =? ser
          then (transmit_recompute_and_push (with_rules s (remove (rules s) owner index).1) index, true)
          else (s, false)
      | None => (s, false)
      end
  end.

Definition transmit_remove_owner (s : State) (owner : string) : State :=
  let '(t, indices) := remove_owner (rules s) owner in
  foldl transmit_recompute_and_push (with_rules s t) indices.

(** [Hook_CheckTransmit] evicts the entries that no longer resolve; before validation it touches
    nothing, and when validation fails it clears the table for good. *)
Definition sweep_one (s : State) (index : Z) (e : TransmitRule) : bool :=
  negb ((index <? 0) || (MAX_EDICTS <=? index)) && resolves s index (serial e).
Definition check_transmit (s : State) : State :=
  if layout s =? 1 then with_table s (filter (fun ie => sweep_one s ie.1 ie.2 = true) (table s)) else s.
Definition layout_decided (s : State) (ok : bool) : State :=
  if layout s =? 0
  then if ok then mkState (rules s) (table s) 1 (live s) else mkState (rules s) ∅ (-1) (live s)
  else s.

Inductive op :=
| Set_ (owner : string) (ref : option (Z * Z)) (slots : list Z)
| Reset (owner : string) (ref : option (Z * Z))
| ResetAll (owner : string)
| Snapshot
| Validated (ok : bool)
| Created (index ser : Z)
| Removed (index : Z).

Definition step (s : State) (o : op) : State :=
  match o with
  | Set_ owner ref slots => (s2_transmit_set s owner ref slots).1
  | Reset owner ref => (s2_transmit_reset s owner ref).1
  | ResetAll owner => transmit_remove_owner s owner
  | Snapshot => check_transmit s
  | Validated ok => layout_decided s ok
  | Created index ser => mkState (rules s) (table s) (layout s) (<[index := ser]> (live s))
  | Removed index => mkState (rules s) (table s) (layout s) (delete index (live s))
  end.

(** The (index, serial) pairs the engine gives out. A pair may come again, on another map. *)
Definition created (o : op) : list (Z * Z) := match o with Created index ser => [(index, ser)] | _ => [] end.
Definition births (seen : list (Z * Z)) (index ser : Z) : Z := countb (fun p => bool_decide (p = (index, ser))) seen.

(** ** Lemmas *)
(** The merge carries the serial of one of the rules it folds. *)
Lemma merged_owner (t : rules_table) k v :
  merged t k = Some v -> exists o r, get t o k = Some r /\ serial r = serial v.
Proof.
  unfold merged. assert (Hl : forall l acc, foldl (merge_one k) acc l = Some v ->
    acc = Some v \/ exists rs r, rs ∈ l /\ rs !! k = Some r /\ serial r = serial v).
  { induction l as [|rs l IH]; intros acc; cbn [foldl]; [by left|]. intros [E|(x & r & Hx & Hr)]%IH; [|right; exists x, r; by split; [right|]].
    unfold merge_one in E. destruct (rs !! k) as [r|] eqn:Er; [|by left]. injection E as <-. right. exists rs, r.
    split; [by left|]. split; [done|]. by destruct acc. }
  intros [E|(rs & r & Hin & Hr & Hs)]%Hl; [done|]. destruct (proj1 (fold_rules_get t k r)) as [o Ho]; [by exists rs|]. by exists o, r.
Qed.

Lemma merged_some (t : rules_table) o k r : get t o k = Some r -> exists v, merged t k = Some v.
Proof. intros E. destruct (fold_merged t k) as [Hn _]. destruct (merged t k) as [v|]; [by exists v|]. by rewrite (proj1 Hn eq_refl o) in E. Qed.

(** The pair that lives at index [k] came once. *)
Definition once (seen : list (Z * Z)) (s : State) (k : Z) : Prop := forall z, live s !! k = Some z -> births seen k z <= 1.

(** What must hold at index [k] for a recompute to restore agreement, and what agreement is. *)
Record ready (seen : list (Z * Z)) (s : State) (k : Z) : Prop := {
  rd_serial : exists z, forall o r, get (rules s) o k = Some r -> serial r = z /\ 0 <= serial r /\ 0 <= k < MAX_EDICTS;
  rd_entry : forall e, table s !! k = Some e -> forall o r, get (rules s) o k = Some r ->
    serial r = serial e /\ forall n, Z.testbit (rmask e) n = true -> Z.testbit (rmask r) n = true;
  rd_present : once seen s k -> forall o r, get (rules s) o k = Some r -> live s !! k = Some (serial r) -> accepts s = true -> is_Some (table s !! k);
  rd_off : accepts s = false -> table s = ∅;
}.

Record agrees (seen : list (Z * Z)) (s : State) (k : Z) : Prop := {
  ag_serial : exists z, forall o r, get (rules s) o k = Some r -> serial r = z /\ 0 <= serial r /\ 0 <= k < MAX_EDICTS;
  ag_entry : forall e, table s !! k = Some e ->
    exists v, merged (rules s) k = Some v /\ serial v = serial e /\ forall n, Z.testbit (rmask e) n = true -> Z.testbit (rmask v) n = true;
  ag_table : once seen s k -> forall e, table s !! k = Some e -> live s !! k = Some (serial e) -> merged (rules s) k = Some e;
  ag_rule : once seen s k -> forall r, merged (rules s) k = Some r -> live s !! k = Some (serial r) -> accepts s = true -> table s !! k = Some r;
  ag_off : accepts s = false -> table s = ∅;
}.

(** Every serial held anywhere at index [k] was issued by the engine. *)
Record known (seen : list (Z * Z)) (s : State) (k : Z) : Prop := {
  kn_rules : forall o r, get (rules s) o k = Some r -> (k, serial r) ∈ seen;
  kn_table : forall e, table s !! k = Some e -> (k, serial e) ∈ seen;
  kn_live : forall z, live s !! k = Some z -> (k, z) ∈ seen;
}.

Lemma shim_set_spec s index ser m :
  (shim_set s index ser m).2 = 0 /\ (shim_set s index ser m).1 = s \/
  (shim_set s index ser m).2 = 1 /\ (shim_set s index ser m).1 = with_table s (<[index := mkRule ser m]> (table s)) /\
    accepts s = true /\ 0 <= index < MAX_EDICTS /\ 0 <= ser /\ live s !! index = Some ser.
Proof.
  unfold shim_set. destruct (accepts s) eqn:Ea; cbn [negb]; [|by left].
  destruct ((index <? 0) || (ser <? 0)) eqn:E1; [by left|]. apply orb_false_iff in E1 as [?%Z.ltb_ge ?%Z.ltb_ge].
  destruct (Z.leb_spec MAX_EDICTS index); [by left|]. destruct (resolves s index ser) eqn:Er; cbn [negb]; [|by left].
  unfold resolves in Er. apply andb_true_iff in Er as [_ Er%bool_decide_eq_true].
  destruct (_ && _); [by left|]. right. split_and!; try done; lia.
Qed.

(** A live entity's entry can always be replaced. *)
Lemma shim_set_accepted s index ser m :
  accepts s = true -> 0 <= index < MAX_EDICTS -> 0 <= ser -> live s !! index = Some ser -> is_Some (table s !! index) ->
  shim_set s index ser m = (with_table s (<[index := mkRule ser m]> (table s)), 1).
Proof.
  intros Ha Hi Hs Hl Ht. unfold shim_set, resolves. rewrite Ha. rewrite !(proj2 (Z.ltb_ge _ _)) by lia.
  rewrite (proj2 (Z.leb_gt _ _)) by lia. rewrite !(proj2 (Z.leb_le _ _)) by lia. rewrite (bool_decide_eq_true_2 _ Hl). cbn [negb orb andb].
  rewrite bool_decide_eq_false_2; [done|]. intros E. destruct Ht as [? ?]. congruence.
Qed.

Lemma merged_bits (t : rules_table) k v n :
  merged t k = Some v -> Z.testbit (rmask v) n = true <-> forall o r, get t o k = Some r -> Z.testbit (rmask r) n = true.
Proof. intros E. exact (proj2 (fold_merged t k) v n E). Qed.

Lemma transmit_recompute seen s k :
  ready seen s k -> known seen s k ->
  let s' := transmit_recompute_and_push s k in
  agrees seen s' k /\ known seen s' k /\ rules s' = rules s /\ layout s' = layout s /\ live s' = live s /\
  (forall k', k' <> k -> table s' !! k' = table s !! k') /\ (accepts s = false -> table s' = ∅).
Proof.
  intros [[z Hz] Hent Hpres Hoff] [Hkr Hkt Hkl]. cbv zeta. unfold transmit_recompute_and_push.
  destruct (merged (rules s) k) as [v|] eqn:Em.
  - destruct (merged_owner _ _ _ Em) as (o & r & Ho & Hs). destruct (shim_set_spec s k (serial v) (rmask v)) as [[E0 E]|(_ & E & Ha & _ & _ & Hl)].
    + assert (Hno : live s !! k = Some (serial v) -> accepts s = true -> is_Some (table s !! k) -> False).
      { intros Hl Ha Ht. destruct (Hz o r Ho) as (_ & Hpos & Hrange). rewrite shim_set_accepted in E0; [done|done|done|lia|done|done]. }
      rewrite E. split_and!; try done. split; [by exists z|..|done].
      * intros e Et. exists v. split; [done|]. destruct (Hent e Et o r Ho) as [Hse _]. split; [congruence|]. intros n Hn.
        apply (merged_bits _ _ _ n Em). intros o' r' Ho'. by apply (Hent e Et o' r' Ho').
      * intros _ e Et El. exfalso. destruct (Hent e Et o r Ho) as [Hse _]. destruct (accepts s) eqn:Ea.
        -- apply Hno; [by rewrite <- Hs, Hse|done|by exists e].
        -- by rewrite Hoff, lookup_empty in Et.
      * intros H1 v' Ev El Ha. rewrite Em in Ev. injection Ev as <-. exfalso. apply Hno; [done|done|].
        apply (Hpres H1 o r Ho); [by rewrite Hs|done].
    + rewrite E. unfold accepts in *. cbn. split_and!; try done.
      * split; cbn; [by exists z|..].
        -- intros e. rewrite lookup_insert_eq. intros [= <-]. exists v. by rewrite Em.
        -- intros _ e. rewrite lookup_insert_eq. intros [= <-] _. rewrite Em. by destruct v.
        -- intros _ v' Ev _ _. rewrite lookup_insert_eq. rewrite Em in Ev. injection Ev as <-. by destruct v.
        -- unfold accepts. cbn. congruence.
      * split; cbn; [done|intros e; rewrite lookup_insert_eq; intros [= <-]; cbn; rewrite <- Hs; by eapply Hkr|done].
      * intros k' Hk. by rewrite lookup_insert_ne.
      * congruence.
  - cbn. assert (Hnone : forall o, get (rules s) o k = None) by (by apply (fold_merged (rules s) k)). split_and!; try done.
    + split; cbn; [by exists z|intros e; by rewrite lookup_delete_eq|intros _ e; by rewrite lookup_delete_eq|intros _ r; by rewrite Em|].
      unfold accepts. cbn. intros Ha. rewrite (Hoff Ha). apply delete_empty.
    + split; cbn; [done|intros e; by rewrite lookup_delete_eq|done].
    + intros k' Hk. by rewrite lookup_delete_ne.
    + intros Ha. rewrite (Hoff Ha). apply delete_empty.
Qed.

Lemma merged_is (t : rules_table) k z m :
  (exists o r, get t o k = Some r) -> (forall o r, get t o k = Some r -> serial r = z) ->
  (forall n, Z.testbit m n = true <-> forall o r, get t o k = Some r -> Z.testbit (rmask r) n = true) ->
  merged t k = Some (mkRule z m).
Proof.
  intros (o & r & E) Hz Hb. destruct (merged_some t o k r E) as [v Ev]. rewrite Ev. f_equal.
  destruct (merged_owner t k v Ev) as (o' & r' & E' & Hs). destruct (fold_merged t k) as [_ Hm]. destruct v as [sv mv]. cbn in *. f_equal.
  - rewrite <- Hs. by eapply Hz.
  - apply mask_eq_bits. intros n _. rewrite Hb. exact (Hm _ n Ev).
Qed.

Lemma transmit_merged_ext (t t' : rules_table) k z :
  (forall o r, get t o k = Some r -> serial r = z) -> (forall o, get t' o k = get t o k) -> merged t' k = merged t k.
Proof.
  intros Hz E. destruct (merged t k) as [v|] eqn:Ev.
  - destruct (merged_owner t k v Ev) as (o & r & Ho & Hs). destruct v as [sv mv]. apply merged_is.
    + exists o, r. by rewrite E.
    + intros o' r'. rewrite E. intros Hr. rewrite (Hz _ _ Hr), <- (Hz _ _ Ho). exact Hs.
    + intros n. setoid_rewrite E. exact (proj2 (fold_merged t k) _ n Ev).
  - apply fold_merged. intros o. rewrite E. by apply (fold_merged t k).
Qed.

(** Agreement and readiness at [k] only read what is held at [k]. *)
Lemma transmit_frame seen s s' k :
  (forall o, get (rules s') o k = get (rules s) o k) -> table s' !! k = table s !! k -> live s' !! k = live s !! k ->
  accepts s' = accepts s -> (accepts s' = false -> table s' = ∅) ->
  (agrees seen s k -> agrees seen s' k) /\ (ready seen s k -> ready seen s' k) /\ (known seen s k -> known seen s' k).
Proof.
  intros Er Et El Ea Hoff. assert (Hlive : once seen s' k -> once seen s k) by (unfold once; by rewrite El). split_and!.
  - intros [[z Hz] He Ht Hr _]. assert (Em : merged (rules s') k = merged (rules s) k).
    { apply (transmit_merged_ext _ _ _ z); [|done]. intros o r Ho. by apply (Hz o r). }
    split; [| | | |done].
    + exists z. intros o r. rewrite Er. apply Hz.
    + intros e. rewrite Em, Et. apply He.
    + intros H1 e. rewrite Em, Et, El. by apply Ht, Hlive.
    + intros H1 r. rewrite Em, Et, El, Ea. by apply Hr, Hlive.
  - intros [[z Hz] He Hp _]. split; [| | |done].
    + exists z. intros o r. rewrite Er. apply Hz.
    + intros e. rewrite Et. intros E1 o r. rewrite Er. by apply He.
    + intros H1 o r. rewrite Er, Et, El, Ea. by apply Hp, Hlive.
  - intros [Hr Ht Hl]. split; [intros o r; rewrite Er; apply Hr|by rewrite Et|by rewrite El].
Qed.

Lemma agrees_ready seen s k : agrees seen s k -> ready seen s k.
Proof.
  intros [[z Hz] He Ht Hr Hoff]. split; [by exists z|..|done].
  - intros e Et o r Ho. destruct (He e Et) as (v & Ev & Hs & Hb). split.
    + destruct (merged_owner _ _ _ Ev) as (o' & r' & Ho' & Hs'). rewrite <- Hs, <- Hs', (proj1 (Hz _ _ Ho')). by apply (Hz o r).
    + intros n Hn. by apply (proj1 (merged_bits _ _ _ n Ev) (Hb n Hn) o).
  - intros H1 o r Ho Hl Ha. destruct (merged_some _ _ _ _ Ho) as [v Ev]. exists v. apply (Hr H1); [done| |done].
    destruct (merged_owner _ _ _ Ev) as (o' & r' & Ho' & Hs). rewrite <- Hs, (proj1 (Hz _ _ Ho')), <- (proj1 (Hz _ _ Ho)). exact Hl.
Qed.

Lemma transmit_recompute_all seen l : forall s,
  (forall k, known seen s k) -> (forall k, ready seen s k) -> (forall k, k ∉ l -> agrees seen s k) ->
  let s' := foldl transmit_recompute_and_push s l in forall k, agrees seen s' k /\ known seen s' k.
Proof.
  induction l as [|x l IH]; intros s Hk Hr Ha; cbn [foldl]; [intros k; split; [apply Ha, not_elem_of_nil|apply Hk]|].
  destruct (transmit_recompute seen s x (Hr x) (Hk x)) as (Hax & Hkx & Er & El & Ev & Et & Hoff).
  assert (Hacc : accepts (transmit_recompute_and_push s x) = accepts s) by (unfold accepts; by rewrite El).
  assert (Hframe : forall k, k <> x -> _) by
    (intros k Hne; exact (transmit_frame seen s (transmit_recompute_and_push s x) k (fun o => f_equal (fun t => get t o k) Er) (Et k Hne)
      (f_equal (fun m => m !! k) Ev) Hacc (fun E => Hoff (eq_trans (eq_sym Hacc) E)))).
  apply IH.
  - intros k. destruct (decide (k = x)) as [->|Hne]; [done|]. by apply (Hframe k Hne).
  - intros k. destruct (decide (k = x)) as [->|Hne]; [by apply agrees_ready|]. by apply (Hframe k Hne).
  - intros k Hni. destruct (decide (k = x)) as [->|Hne]; [done|]. apply (Hframe k Hne), Ha. rewrite not_elem_of_cons. tauto.
Qed.

(** Taking rules away leaves every index ready for its recompute. *)
Lemma transmit_fewer seen s t k :
  (forall o, get t o k = get (rules s) o k \/ get t o k = None) -> agrees seen s k -> known seen s k ->
  ready seen (with_rules s t) k /\ known seen (with_rules s t) k.
Proof.
  intros Hsub [[z Hz] He Hp Hoff]%agrees_ready [Hkr Hkt Hkl].
  assert (Hg : forall o r, get t o k = Some r -> get (rules s) o k = Some r) by (intros o r E; destruct (Hsub o) as [Ho|Ho]; congruence).
  split; split; cbn; try done.
  - exists z. intros o r Ho. by apply (Hz o r), Hg.
  - intros e Et o r Ho. by apply (He e Et o r), Hg.
  - intros H1 o r Ho. by apply (Hp H1 o r), Hg.
  - intros o r Ho. by apply (Hkr o r), Hg.
Qed.

Definition inv (seen : list (Z * Z)) (s : State) : Prop := forall k, agrees seen s k /\ known seen s k.

Lemma transmit_with_fewer seen s t l :
  inv seen s -> (forall o k, get t o k = get (rules s) o k \/ (get t o k = None /\ k ∈ l)) ->
  inv seen (foldl transmit_recompute_and_push (with_rules s t) l).
Proof.
  intros Hi Hsub. refine (transmit_recompute_all seen l _ _ _ _).
  - intros k. destruct (Hi k) as [Ha Hk]. apply transmit_fewer; [|done|done]. intros o. destruct (Hsub o k) as [|[? _]]; tauto.
  - intros k. destruct (Hi k) as [Ha Hk]. apply (transmit_fewer seen); [|done|done]. intros o. destruct (Hsub o k) as [|[? _]]; tauto.
  - intros k Hni. destruct (Hi k) as [Ha Hk]. revert Ha. apply (transmit_frame seen); try done; [|by destruct (Hi 0) as [[] _]].
    intros o. cbn. destruct (Hsub o k) as [|[_ ?]]; [done|by destruct Hni].
Qed.

Lemma transmit_set_inv seen s owner ref slots : inv seen s -> inv seen (s2_transmit_set s owner ref slots).1.
Proof.
  intros Hi. unfold s2_transmit_set. destruct ref as [[index ser]|]; [|done]. destruct (mask_of_slots 0 slots) as [m|]; [|done].
  set (cand := fold_except _ _ _ _ _). destruct (shim_set_spec s index ser (rmask cand)) as [[E0 E1]|(E0 & E1 & Ha & Hrange & Hpos & Hl)];
    destruct (shim_set s index ser (rmask cand)) as [s' ok]; cbn [fst snd] in E0, E1; subst ok s'; cbn [Z.eqb fst]; [done|].
  set (t := insert (evict_at _ _ _) _ _ _).
  assert (Hg : forall o k, get t o k = if decide (o = owner /\ k = index) then Some (mkRule ser m) else
             match get (rules s) o k with Some v => if decide (k = index) then (if negb (serial v =? ser) then None else Some v) else Some v | None => None end)
    by (intros o k; unfold t; rewrite fold_get_insert; case_decide; [done|]; apply fold_get_evict_at).
  assert (Hs : forall o r, get t o index = Some r -> serial r = ser).
  { intros o r. rewrite Hg. case_decide; [by intros [= <-]|]. destruct (get (rules s) o index) as [v|]; [|done].
    rewrite decide_True by done. destruct (Z.eqb_spec (serial v) ser); cbn [negb]; [|done]. by intros [= <-]. }
  assert (Hm : merged t index = Some (mkRule ser (rmask cand))).
  { apply merged_is; [exists owner, (mkRule ser m); rewrite Hg; by rewrite decide_True|done|]. intros n.
    change (rmask cand) with (mask cand). unfold cand. rewrite fold_except_bits. setoid_rewrite Hg. split.
    - intros [Hb Hall] o r. case_decide as Hd; [by intros [= <-]|]. destruct (get (rules s) o index) as [v|] eqn:Ev; [|done].
      rewrite decide_True by done. destruct (Z.eqb_spec (serial v) ser) as [Hv|]; cbn [negb]; [|done]. intros [= <-].
      apply (Hall o v); [|done|by apply Z.eqb_eq]. intros ->. tauto.
    - intros Hall. split; [apply (Hall owner (mkRule ser m)); by rewrite decide_True|]. intros o r Hne Ho Hser.
      apply (Hall o r). rewrite decide_False by tauto. by rewrite Ho, decide_True, Hser by done. }
  intros k. destruct (Hi k) as [Hag [Hkr Hkt Hkl]]. destruct (decide (k = index)) as [->|Hk].
  - split; split; cbn; rewrite ?lookup_insert_eq; try done.
    + exists ser. intros o r Ho. rewrite (Hs o r Ho). done.
    + intros e [= <-]. by exists (mkRule ser (rmask cand)).
    + intros _ e [= <-] _. exact Hm.
    + intros _ r Hr _ _. by rewrite Hm in Hr.
    + unfold accepts in *. cbn. congruence.
    + intros o r Ho. rewrite (Hs o r Ho). by apply Hkl.
    + intros e [= <-]. by apply Hkl.
  - split; [revert Hag|generalize (Build_known _ _ _ Hkr Hkt Hkl)]; apply transmit_frame; cbn; rewrite ?lookup_insert_ne by done; try done.
    1, 3: intros o; rewrite Hg, decide_False by tauto; destruct (get (rules s) o k); [by rewrite decide_False|done].
    all: unfold accepts in *; cbn; congruence.
Qed.

Lemma transmit_reset_inv seen s owner ref : inv seen s -> inv seen (s2_transmit_reset s owner ref).1.
Proof.
  intros Hi. unfold s2_transmit_reset. destruct ref as [[index ser]|]; [|done]. destruct (get (rules s) owner index) as [ru|]; [|done].
  destruct (serial ru =? ser); [|done]. apply (transmit_with_fewer seen s (remove (rules s) owner index).1 [index] Hi).
  intros o k. rewrite (proj2 (fold_get_remove (rules s) owner index o k)). case_decide as Hd; [right|by left]. destruct Hd as [_ ->]. split; [done|by left].
Qed.

Lemma transmit_remove_owner_inv seen s owner : inv seen s -> inv seen (transmit_remove_owner s owner).
Proof.
  intros Hi. unfold transmit_remove_owner. pose proof (fun o k => fold_get_remove_owner (rules s) owner o k) as Hg.
  destruct (remove_owner (rules s) owner) as [t indices]. apply transmit_with_fewer; [done|]. cbn [fst snd] in Hg.
  intros o k. destruct (Hg o k) as [-> Hin]. destruct (String.eqb_spec o owner) as [->|]; [|by left].
  destruct (get (rules s) owner k) as [r|] eqn:Er; [right; split; [done|]; apply Hin; by exists r|by left].
Qed.

Lemma transmit_snapshot_inv seen s : inv seen s -> inv seen (check_transmit s).
Proof.
  intros Hi. unfold check_transmit. destruct (layout s =? 1); [|done]. intros k. destruct (Hi k) as [[[z Hz] He Ht Hr Hoff] [Hkr Hkt Hkl]].
  assert (Hf : forall e, filter (fun ie => sweep_one s ie.1 ie.2 = true) (table s) !! k = Some e <-> table s !! k = Some e /\ sweep_one s k e = true)
    by (intros e; by rewrite map_lookup_filter_Some).
  split; split; cbn.
  - by exists z.
  - intros e [E _]%Hf. by apply He.
  - intros H1 e [E _]%Hf. by apply Ht.
  - intros H1 r Em El Ha. apply Hf. split; [by apply Hr|]. destruct (merged_owner _ _ _ Em) as (o & r' & Ho & Hs).
    destruct (Hz o r' Ho) as (_ & Hpos & Hrange). unfold sweep_one, resolves. rewrite bool_decide_eq_true_2 by done.
    rewrite (proj2 (Z.ltb_ge _ _)), (proj2 (Z.leb_gt _ _)), !(proj2 (Z.leb_le _ _)) by lia. done.
  - intros Ha. rewrite (Hoff Ha). apply map_filter_empty.
  - done.
  - intros e [E _]%Hf. by apply Hkt.
  - done.
Qed.

Lemma births_cons p seen index ser : births (p :: seen) index ser = (if bool_decide (p = (index, ser)) then 1 else 0) + births seen index ser.
Proof. unfold births. rewrite countb_cons. by case_bool_decide. Qed.

Lemma births_none seen index ser : births seen index ser <= 0 -> (index, ser) ∉ seen.
Proof.
  intros Hb Hin. assert (0 < births seen index ser); [|lia]. apply countb_pos. exists (index, ser). split; [done|by rewrite bool_decide_true].
Qed.

(** A pair that comes for the first time finds nothing under its serial. *)
Lemma transmit_created_inv seen s index ser :
  inv seen s -> inv ((index, ser) :: seen) (mkState (rules s) (table s) (layout s) (<[index := ser]> (live s))).
Proof.
  intros Hi k. destruct (Hi k) as [[[z Hz] He Ht Hr Hoff] [Hkr Hkt Hkl]].
  destruct (decide (k = index)) as [->|Hk].
  - assert (Hfresh : once ((index, ser) :: seen) (mkState (rules s) (table s) (layout s) (<[index := ser]> (live s))) index -> (index, ser) ∉ seen).
    { intros H1. specialize (H1 ser). cbn [live] in H1. rewrite lookup_insert_eq, births_cons, bool_decide_true in H1 by done. specialize (H1 eq_refl). apply births_none. lia. }
    split; split; cbn; rewrite ?lookup_insert_eq; try done; try (by exists z).
    + intros H1 e E [= E']. destruct (Hfresh H1). rewrite E'. by apply Hkt.
    + intros H1 r Em [= E']. destruct (Hfresh H1). rewrite E'. destruct (merged_owner _ _ _ Em) as (o & r' & Ho & <-). by eapply Hkr.
    + intros o r Ho. right. by eapply Hkr.
    + intros e E. right. by apply Hkt.
    + intros z' [= <-]. by left.
  - assert (H1' : once ((index, ser) :: seen) (mkState (rules s) (table s) (layout s) (<[index := ser]> (live s))) k -> once seen s k).
    { intros H1 z' Hz'. specialize (H1 z'). cbn [live] in H1. rewrite lookup_insert_ne, births_cons, bool_decide_false in H1 by naive_solver.
      specialize (H1 Hz'). lia. }
    split; split; cbn; rewrite ?lookup_insert_ne by done; try done; try (by exists z).
    + intros H1. by apply Ht, H1'.
    + intros H1. by apply Hr, H1'.
    + intros o r Ho. right. by eapply Hkr.
    + intros e E. right. by apply Hkt.
    + intros z' E. right. by apply Hkl.
Qed.

Lemma transmit_step seen s o : inv seen s -> inv (created o ++ seen) (step s o).
Proof.
  intros Hi. destruct o as [owner ref slots|owner ref|owner| |ok|index ser|index]; cbn [step created app].
  - by apply transmit_set_inv.
  - by apply transmit_reset_inv.
  - by apply transmit_remove_owner_inv.
  - by apply transmit_snapshot_inv.
  - unfold layout_decided. destruct (Z.eqb_spec (layout s) 0) as [El|]; [|done]. intros k. destruct (Hi k) as [[Hz He Ht Hr Hoff] [Hkr Hkt Hkl]].
    destruct ok; split; split; cbn; unfold accepts in *; rewrite El in *; cbn in *; try done.
    all: try (intros e; by rewrite lookup_empty). all: try (intros _ e; by rewrite lookup_empty). intros _ r. by rewrite andb_false_r.
  - by apply transmit_created_inv.
  - intros k. destruct (Hi k) as [[[z Hz] He Ht Hr Hoff] [Hkr Hkt Hkl]]. destruct (decide (k = index)) as [->|Hk].
    + split; split; cbn; rewrite ?lookup_delete_eq; try done; by exists z.
    + assert (H1' : once seen (mkState (rules s) (table s) (layout s) (delete index (live s))) k -> once seen s k)
        by (unfold once; cbn; by rewrite lookup_delete_ne).
      split; split; cbn; rewrite ?lookup_delete_ne by done; try done; [by exists z|intros H1; by apply Ht, H1'|intros H1; by apply Hr, H1'].
Qed.

Lemma transmit_reach os : forall seen s,
  inv seen s -> exists seen', inv seen' (foldl step s os) /\
    forall index ser, births seen' index ser = births seen index ser + births (flat_map created os) index ser.
Proof.
  induction os as [|o os IH]; intros seen s Hi; cbn [foldl flat_map]; [exists seen; split; [done|intros; unfold births; change (countb _ []) with 0; lia]|].
  destruct (IH (created o ++ seen) (step s o) (transmit_step seen s o Hi)) as (seen' & Hi' & Hb). exists seen'. split; [done|].
  intros index ser. rewrite Hb. unfold births. rewrite !countb_app. lia.
Qed.

(** C6. What the engine hides is what plugins asked for. After any calls, unloads, snapshots, creations
    and deletions: an entry the CheckTransmit hook holds carries the one serial of the rules plugins
    hold at its index and lets through nothing any of them hides, even when the engine gave that pair
    of index and serial out before; the entry it would apply to a live entity whose pair came once is
    exactly the intersection of those rules, and it exists whenever some plugin holds a rule for that
    entity and the hook is usable; and an unusable hook has no entries. *)
Theorem transmit_agrees os :
  let s := foldl step (mkState ∅ ∅ 0 ∅) os in
  (forall index ser m, table s !! index = Some (mkRule ser m) ->
     (exists o r, get (rules s) o index = Some r) /\
     forall o r, get (rules s) o index = Some r ->
       serial r = ser /\ forall n, Z.testbit m n = true -> Z.testbit (rmask r) n = true) /\
  (forall index ser, live s !! index = Some ser -> births (flat_map created os) index ser <= 1 ->
     (forall m, table s !! index = Some (mkRule ser m) ->
        (exists o r, get (rules s) o index = Some r /\ serial r = ser) /\
        forall n, Z.testbit m n = true <->
          forall o r, get (rules s) o index = Some r -> serial r = ser /\ Z.testbit (rmask r) n = true) /\
     (forall o r, accepts s = true -> get (rules s) o index = Some r -> serial r = ser ->
        exists m, table s !! index = Some (mkRule ser m))) /\
  (accepts s = false -> table s = ∅).
Proof.
  cbv zeta. destruct (transmit_reach os [] (mkState ∅ ∅ 0 ∅)) as (seen & Hi & Hb).
  { intros k. assert (Hg : forall o, get (∅ : rules_table) o k = None) by (intros o; unfold get; by rewrite lookup_empty).
    split; split; cbn; try (exists 0); intros *; rewrite ?Hg, ?lookup_empty; try done; intros *; by rewrite ?Hg, ?lookup_empty. }
  set (s := foldl step _ os) in *. split_and!; [| |by destruct (Hi 0) as [[] _]].
  - intros index ser m Et. destruct (Hi index) as [Ha _]. pose proof (rd_entry _ _ _ (agrees_ready _ _ _ Ha) _ Et) as He. split; [|exact He].
    destruct (ag_entry _ _ _ Ha _ Et) as (v & Ev & _). destruct (merged_owner _ _ _ Ev) as (o & r & Ho & _). by exists o, r.
  - intros index ser El Hone. destruct (Hi index) as [[[z Hz] _ Ht Hr _] _].
    assert (H1 : once seen s index) by (intros z' Hz'; rewrite El in Hz'; injection Hz' as <-; rewrite Hb; exact Hone). split.
    + intros m Et. pose proof (Ht H1 _ Et El) as Em. destruct (merged_owner _ _ _ Em) as (o & r & Ho & Hs). cbn [serial] in Hs. split; [by exists o, r|].
      intros n. rewrite (merged_bits _ _ _ n Em : Z.testbit m n = true <-> _). split.
      * intros Hall o' r' Ho'. split; [|by apply (Hall o')]. by rewrite (proj1 (Hz _ _ Ho')), <- (proj1 (Hz _ _ Ho)).
      * intros Hall o' r' Ho'. by apply (Hall o').
    + intros o r Ha Ho Hs. destruct (merged_some _ _ _ _ Ho) as [v Ev]. destruct (merged_owner _ _ _ Ev) as (o' & r' & Ho' & Hv).
      assert (Hsv : serial v = ser) by (rewrite <- Hv, (proj1 (Hz _ _ Ho')), <- (proj1 (Hz _ _ Ho)); exact Hs).
      exists (rmask v). rewrite (Hr H1 v Ev); [destruct v as [sv mv]; cbn in *; by rewrite Hsv|by rewrite Hsv|done].
Qed.
End Transmit.
End Transmit.

Module FoldExamples.
Import Fold.

(** Two plugins restrict who hears sender 3; the unload of one widens the mask back, and the
    disconnect of the sender drops what is left. *)
Definition voice_run (n : nat) : Voice.State :=
  foldl (Voice.step true) (Voice.mkState new ∅)
    (take n [Voice.Set_ "a" 3 [1; 2]; Voice.Set_ "b" 3 [2; 5]; Voice.Set_ "b" 99 [1]; Voice.ResetAll "a"; Voice.Disconnect 3]).
Lemma voice_run_masks : map (fun n => Voice.shim (voice_run n) !! 3) [1; 2; 3; 4; 5]%nat = [Some 6; Some 4; Some 4; Some 36; None].
Proof. vm_compute. reflexivity. Qed.

(** The entity of index 7 is replaced: the rule of the first occupant is stale, is swept from the
    shim's table by the next snapshot, and is evicted when another plugin sets a rule for the second. *)
Definition transmit_ops : list Transmit.op :=
  [Transmit.Created 7 1; Transmit.Validated true; Transmit.Set_ "a" (Some (7, 1)) [0; 1]; Transmit.Set_ "b" (Some (7, 1)) [1; 2];
   Transmit.Removed 7; Transmit.Created 7 2; Transmit.Set_ "a" (Some (7, 1)) []; Transmit.Snapshot;
   Transmit.Set_ "a" (Some (7, 2)) [4]; Transmit.ResetAll "b"].
Definition transmit_at (n : nat) : Transmit.State := foldl (Transmit.step 16384 true) (Transmit.mkState ∅ ∅ 0 ∅) (take n transmit_ops).
Lemma transmit_run : map (fun n => Transmit.table (transmit_at n) !! 7) [3; 4; 7; 8; 9; 10]%nat =
  [Some (Transmit.mkRule 1 3); Some (Transmit.mkRule 1 2); Some (Transmit.mkRule 1 2); None;
   Some (Transmit.mkRule 2 16); Some (Transmit.mkRule 2 16)].
Proof. vm_compute. reflexivity. Qed.

Lemma transmit_agrees_witness :
  exists m, Transmit.table (transmit_at 10) !! 7 = Some (Transmit.mkRule 2 m) /\ Z.land m (Z.lnot 16) = 0.
Proof.
  destruct (Transmit.transmit_agrees 16384 true transmit_ops) as (He & H & _).
  destruct (proj2 (H 7 2 ltac:(vm_compute; reflexivity) ltac:(vm_compute; discriminate)) "a" (Transmit.mkRule 2 16)) as [m Hm]; [vm_compute; reflexivity..|].
  exists m. split; [exact Hm|]. destruct (He 7 2 m Hm) as [_ Hb]. destruct (Hb "a" (Transmit.mkRule 2 16) ltac:(vm_compute; reflexivity)) as [_ Hn].
  apply Z.bits_inj'. intros n Hge. rewrite Z.land_spec, Z.lnot_spec, Z.bits_0 by done. destruct (Z.testbit m n) eqn:E; [|reflexivity].
  specialize (Hn n E). cbn [Transmit.rmask] in Hn. rewrite Hn. reflexivity.
Defined.

(** A rule reset while its entity is gone leaves the narrower merge in the engine's table; when the next
    map gives the pair of index and serial out again, that merge hides the new entity from viewers its
    one remaining rule lets through. *)
Definition reissued : list Transmit.op :=
  [Transmit.Validated true; Transmit.Created 7 1; Transmit.Set_ "a" (Some (7, 1)) [0; 1]; Transmit.Set_ "b" (Some (7, 1)) [1; 2];
   Transmit.Removed 7; Transmit.ResetAll "a"; Transmit.Created 7 1].
Example transmit_reissued_pair :
  let s := foldl (Transmit.step 16384 true) (Transmit.mkState ∅ ∅ 0 ∅) reissued in
  Transmit.table s !! 7 = Some (Transmit.mkRule 1 2) /\ Fold.get (Transmit.rules s) "b" 7 = Some (Transmit.mkRule 1 6) /\
  Fold.get (Transmit.rules s) "a" 7 = None /\ Transmit.live s !! 7 = Some 1.
Proof. vm_compute. split_and!; reflexivity. Qed.
End FoldExamples.
