(* ===== verification/Cookies.v ===== *)
(** The cookie cache and its write-behind outbox (core/src/cookies.rs).

    [Outbox] is the bounded persistence queue: accepted writes are coalesced per cookie, leased to a
    writer plugin in batches, and acknowledged, retried or reclaimed. [Cookies] is the account cache,
    the per-connection session snapshots and the natives over both. Times are the outbox clock in
    milliseconds, passed in; a [HashMap] is iterated in [map_to_list] order. The clock, the epoch
    string and the JSON rows handed to the writer are not modelled. *)
From S2P Require Import Prelude.
From S2P Require Import AsyncLimits.

Module Outbox.

Notation CookieKey := (string * string)%type.
Notation WriterOwner := (string * Z)%type.

Record OutboxPolicy := mkPolicy {
  max_versions : Z; max_bytes : Z; write_bytes : Z; batch_items : Z; batch_bytes : Z; concurrent : Z;
}.

(** [OutboxPolicy::default]: the host's validated async limits, and the three batch constants. *)
Definition policy_of (p : AsyncPolicy.AsyncPolicy) : OutboxPolicy :=
  mkPolicy (AsyncPolicy.cookie_versions p) (AsyncPolicy.cookie_bytes p) (AsyncPolicy.cookie_write_bytes p) 4 (256 * 1024) 4.

Record Payload := mkPayload { steam_id : string; name : string; value : string; updated : Z; revision : Z; covers_from : Z }.

Definition len (s : string) : Z := Z.of_nat (String.length s).
Definition payload_bytes (v : Payload) : Z := 128 + len (steam_id v) + len (name v) + len (value v).

Record Attempt := mkAttempt { id : Z; owner : WriterOwner; payload : Payload }.
Record Pending := mkPending { ready : option Payload; attempt : option Attempt; failures : Z; next_attempt : Z }.
Definition pending_default : Pending := mkPending None None 0 0.

Record Outbox := mkOutbox {
  entries : gmap CookieKey Pending;
  order : list CookieKey;
  policy : OutboxPolicy;
  last_revision : Z;
  lease_id : Z;
  accepted : Z; coalesced : Z; rejected : Z; retries : Z; stale_acks : Z;
}.

Definition new (p : OutboxPolicy) : Outbox := mkOutbox ∅ [] p 0 0 0 0 0 0 0.

Definition i64_max : Z := 2 ^ 63 - 1.
Definition u32_max : Z := 2 ^ 32 - 1.

Definition with_entries (q : Outbox) (m : gmap CookieKey Pending) (o : list CookieKey) : Outbox :=
  mkOutbox m o (policy q) (last_revision q) (lease_id q) (accepted q) (coalesced q) (rejected q) (retries q) (stale_acks q).

Definition opt_list {A} (o : option A) : list A := match o with Some x => [x] | None => [] end.

(** [ready.iter().chain(attempt payload)] *)
Definition versions (p : Pending) : list Payload := opt_list (ready p) ++ opt_list (payload <$> attempt p).

Definition usage_step (nb : Z * Z) (kp : CookieKey * Pending) : Z * Z :=
  foldl (fun nb v => (nb.1 + 1, nb.2 + payload_bytes v)) nb (versions kp.2).
Definition usage (q : Outbox) : Z * Z := foldl usage_step (0, 0) (map_to_list (entries q)).

Definition set_ready (p : Pending) (v : option Payload) : Pending := mkPending v (attempt p) (failures p) (next_attempt p).

Definition accept (q : Outbox) (sid nm val : string) (upd : Z) : Outbox * bool :=
  let key := (sid, nm) in
  let old := entries q !! key ≫= ready in
  let charge := sat_add (sat_add (sat_add 128 (len sid)) (len nm)) (len val) in
  let '(n, b) := usage q in
  if String.eqb sid "" || String.eqb sid "0" || (write_bytes (policy q) <? charge)
     || (max_versions (policy q) <? n + (match old with None => 1 | Some _ => 0 end))
     || (max_bytes (policy q) <? sat_add (sat_sub b (match old with Some v => payload_bytes v | None => 0 end)) charge)
     || (last_revision q =? i64_max)
  then (mkOutbox (entries q) (order q) (policy q) (last_revision q) (lease_id q) (accepted q) (coalesced q)
          (sat_add (rejected q) 1) (retries q) (stale_acks q), false)
  else
    let rev := last_revision q + 1 in
    let covers := match old with Some v => covers_from v | None => rev end in
    let co := match old with Some _ => sat_add (coalesced q) 1 | None => coalesced q end in
    let ord := match entries q !! key with None => order q ++ [key] | Some _ => order q end in
    let p := set_ready (default pending_default (entries q !! key)) (Some (mkPayload sid nm val upd rev covers)) in
    (mkOutbox (<[key := p]> (entries q)) ord (policy q) rev (lease_id q) (sat_add (accepted q) 1) co
       (rejected q) (retries q) (stale_acks q), true).

Definition fence (q : Outbox) (sid : string) : Z := last_revision q.
Definition done (q : Outbox) (sid : string) (fence : Z) : bool :=
  forallb (fun kp => forallb (fun v => fence <? covers_from v) (versions kp.2))
    (filterb (fun kp => String.eqb kp.1.1 sid) (map_to_list (entries q))).

Definition restore (p : Pending) (v : Payload) : Pending :=
  match ready p with
  | Some r => set_ready p (Some (mkPayload (steam_id r) (name r) (value r) (updated r) (revision r) (Z.min (covers_from r) (covers_from v))))
  | None => set_ready p (Some v)
  end.

(** ** Leasing *)
Definition is_leased (p : Pending) : bool := match attempt p with Some _ => true | None => false end.
Definition busy_of (m : gmap CookieKey Pending) : gset string :=
  list_to_set ((fun kp => kp.1.1) <$> filterb (fun kp => is_leased kp.2) (map_to_list m)).

Definition min_into (sid : string) (acc : gmap string Z) (v : Payload) : gmap string Z :=
  <[sid := match acc !! sid with Some r => Z.min r (covers_from v) | None => covers_from v end]> acc.
Definition oldest_of (m : gmap CookieKey Pending) : gmap string Z :=
  foldl (fun acc kp => foldl (min_into kp.1.1) acc (versions kp.2)) ∅ (map_to_list m).

Record Leasing := mkLeasing {
  l_entries : gmap CookieKey Pending; l_order : list CookieKey; l_busy : gset string;
  l_id : Z; l_bytes : Z; l_result : list Attempt;
}.

(** The body of the loop for the key at the front; [None] where an [unwrap] would panic. *)
Definition lease_one (owner : WriterOwner) (limit cap now : Z) (oldest : gmap string Z) (s : Leasing) : option Leasing :=
  match l_order s with
  | [] => None
  | key :: rest =>
      match l_entries s !! key with
      | None => None
      | Some p =>
          let skip := mkLeasing (l_entries s) (rest ++ [key]) (l_busy s) (l_id s) (l_bytes s) (l_result s) in
          Some
            (if (Z.of_nat (length (l_result s)) <? limit) && negb (bool_decide (key.1 ∈ l_busy s)) && (next_attempt p <=? now)
                && negb (is_leased p)
             then
               match ready p with
               | Some v =>
                   if bool_decide (oldest !! key.1 = Some (covers_from v)) && (l_bytes s + payload_bytes v <=? cap) && (l_id s <? u64_max)
                   then
                     let a := mkAttempt (l_id s + 1) owner v in
                     mkLeasing (<[key := mkPending None (Some a) (failures p) (next_attempt p)]> (l_entries s)) (rest ++ [key])
                       ({[key.1]} ∪ l_busy s) (l_id s + 1) (l_bytes s + payload_bytes v) (l_result s ++ [a])
                   else skip
               | None => skip
               end
             else skip)
      end
  end.

Fixpoint lease_loop (n : nat) (owner : WriterOwner) (limit cap now : Z) (oldest : gmap string Z) (s : Leasing) : option Leasing :=
  match n with
  | O => Some s
  | S n => lease_one owner limit cap now oldest s ≫= lease_loop n owner limit cap now oldest
  end.

Definition payload_key (v : Payload) : CookieKey := (steam_id v, name v).
Definition drop_key (key : CookieKey) (l : list CookieKey) : list CookieKey := filterb (fun k => negb (bool_decide (k = key))) l.
Definition move_back (l : list CookieKey) (a : Attempt) : list CookieKey :=
  drop_key (payload_key (payload a)) l ++ [payload_key (payload a)].

Definition lease (q : Outbox) (owner : WriterOwner) (max_items max_b now : Z) : option (Outbox * list Attempt) :=
  let busy := busy_of (entries q) in
  let limit := Z.min (Z.min max_items (batch_items (policy q))) (sat_sub (concurrent (policy q)) (Z.of_nat (size busy))) in
  let cap := Z.min max_b (batch_bytes (policy q)) in
  s ← lease_loop (length (order q)) owner limit cap now (oldest_of (entries q))
        (mkLeasing (entries q) (order q) busy (lease_id q) 0 []);
  Some (mkOutbox (l_entries s) (foldl move_back (l_order s) (l_result s)) (policy q) (last_revision q) (l_id s)
          (accepted q) (coalesced q) (rejected q) (retries q) (stale_acks q), l_result s).

(** ** Acknowledgement *)
Definition matches (owner' : WriterOwner) (i rev : Z) (p : Pending) : bool :=
  match attempt p with
  | Some a => (id a =? i) && bool_decide (owner a = owner') && (revision (payload a) =? rev)
  | None => false
  end.

Definition backoff (failures : Z) : Z := Z.min (Z.shiftl 100 (Z.min failures 6)) 5000.

(** The new pending record, before it is dropped when nothing is left in it; the [bool] is whether
    the cookie's account cache entry is evicted. *)
Definition settle (p : Pending) (v : Payload) (success : bool) (now : Z) : Pending :=
  let p := mkPending (ready p) None (failures p) (next_attempt p) in
  if success then mkPending (ready p) None 0 0
  else let p := restore p v in
       mkPending (ready p) None (Z.min (failures p + 1) u32_max) (sat_add now (backoff (failures p))).

Definition ack (q : Outbox) (owner : WriterOwner) (i rev : Z) (success : bool) (now : Z) : Outbox * bool * option CookieKey :=
  match List.find (fun kp => matches owner i rev kp.2) (map_to_list (entries q)) with
  | None => (mkOutbox (entries q) (order q) (policy q) (last_revision q) (lease_id q) (accepted q) (coalesced q) (rejected q)
               (retries q) (sat_add (stale_acks q) 1), false, None)
  | Some (key, p) =>
      match attempt p with
      | None => (q, false, None)
      | Some a =>
          let p' := settle p (payload a) success now in
          let q' := mkOutbox (entries q) (order q) (policy q) (last_revision q) (lease_id q) (accepted q) (coalesced q)
                      (rejected q) (if success then retries q else sat_add (retries q) 1) (stale_acks q) in
          match ready p' with
          | None => (with_entries q' (delete key (entries q)) (drop_key key (order q)), true, if success then Some key else None)
          | Some _ => (with_entries q' (<[key := p']> (entries q)) (order q), true, None)
          end
      end
  end.

Definition reclaim_one (owner' : option string) (p : Pending) : Pending :=
  match attempt p with
  | Some a =>
      if match owner' with Some o => String.eqb (owner a).1 o | None => true end
      then let p' := restore (mkPending (ready p) None (failures p) (next_attempt p)) (payload a) in
           mkPending (ready p') None (failures p') 0
      else p
  | None => p
  end.
Definition reclaim (q : Outbox) (owner : option string) : Outbox := with_entries q (reclaim_one owner <$> entries q) (order q).

(** [versions - leased], [leased] and [bytes] of the stats. *)
Definition stats (q : Outbox) : Z * Z * Z :=
  let '(n, b) := usage q in
  let leased := countb (fun kp => is_leased kp.2) (map_to_list (entries q)) in
  (n - leased, leased, b).

(** ** Runs, with what they accepted and what the writer confirmed *)
Inductive op :=
| Accept (sid nm val : string) (upd : Z)
| Lease (o : WriterOwner) (items bytes now : Z)
| Ack (o : WriterOwner) (i rev : Z) (success : bool) (now : Z)
| Reclaim (o : option string).

(** The payload an acknowledgement is for. *)
Definition acked_payload (q : Outbox) (o : WriterOwner) (i rev : Z) : option Payload :=
  kp ← List.find (fun kp => matches o i rev kp.2) (map_to_list (entries q)); payload <$> attempt kp.2.

(** The outbox, every payload it accepted, and every payload acknowledged as written, oldest first. *)
Record Run := mkRun { box : Outbox; log : list Payload; written : list Payload }.

Definition step (s : Run) (o : op) : option Run :=
  match o with
  | Accept sid nm val upd =>
      let '(q, ok) := accept (box s) sid nm val upd in
      Some (mkRun q (if ok then log s ++ [mkPayload sid nm val upd (last_revision q) (last_revision q)] else log s) (written s))
  | Lease o items bytes now => '(q, _) ← lease (box s) o items bytes now; Some (mkRun q (log s) (written s))
  | Ack o i rev success now =>
      Some (mkRun (ack (box s) o i rev success now).1.1 (log s)
              (if success then written s ++ opt_list (acked_payload (box s) o i rev) else written s))
  | Reclaim o => Some (mkRun (reclaim (box s) o) (log s) (written s))
  end.

Fixpoint run (s : Run) (os : list op) : option Run :=
  match os with [] => Some s | o :: os => step s o ≫= fun s => run s os end.

(** ** The invariant *)
Record entry_ok (rev : Z) (k : CookieKey) (p : Pending) : Prop := {
  en_some : versions p <> [];
  en_key : forall v, v ∈ versions p -> payload_key v = k;
  en_rev : forall v, v ∈ versions p -> 0 < covers_from v <= revision v /\ revision v <= rev;
  en_order : forall a r, attempt p = Some a -> ready p = Some r -> revision (payload a) < covers_from r;
}.

Definition one_per_account (m : gmap CookieKey Pending) : Prop :=
  forall k1 k2 p1 p2, m !! k1 = Some p1 -> m !! k2 = Some p2 -> is_leased p1 = true -> is_leased p2 = true -> k1.1 = k2.1 -> k1 = k2.

Definition same_write (v w : Payload) : Prop :=
  payload_key v = payload_key w /\ value v = value w /\ updated v = updated w /\ revision v = revision w.

Record history (m : gmap CookieKey Pending) (log written : list Payload) : Prop := {
  hi_covered : forall w, w ∈ log ->
    (exists u, u ∈ written /\ payload_key u = payload_key w /\ revision w <= revision u) \/
    (exists p v, m !! payload_key w = Some p /\ v ∈ versions p /\ covers_from v <= revision w <= revision v);
  hi_unwritten : forall k p v u, m !! k = Some p -> v ∈ versions p -> u ∈ written -> payload_key u = k -> revision u < covers_from v;
  hi_start : forall k p v, m !! k = Some p -> v ∈ versions p -> exists w, w ∈ log /\ payload_key w = k /\ revision w = covers_from v;
  hi_genuine : forall k p v, m !! k = Some p -> v ∈ versions p -> exists w, w ∈ log /\ same_write v w;
  hi_written : forall u, u ∈ written -> exists w, w ∈ log /\ same_write u w;
  hi_increasing : forall i j u w, (i < j)%nat -> written !! i = Some u -> written !! j = Some w -> payload_key u = payload_key w -> revision u < revision w;
}.

(** ** Sums over the entries *)
Definition msum (f : Pending -> Z) (m : gmap CookieKey Pending) : Z := foldr (fun kp n => f kp.2 + n) 0 (map_to_list m).
Definition count_of (p : Pending) : Z := Z.of_nat (length (versions p)).
Definition bytes_of (p : Pending) : Z := foldr (fun v n => payload_bytes v + n) 0 (versions p).
Definition leased_of (p : Pending) : Z := if is_leased p then 1 else 0.

Record inv (s : Run) : Prop := {
  iv_order : NoDup (order (box s)) /\ forall k, k ∈ order (box s) <-> is_Some (entries (box s) !! k);
  iv_entry : forall k p, entries (box s) !! k = Some p -> entry_ok (last_revision (box s)) k p;
  iv_rev : 0 <= last_revision (box s) <= i64_max;
  iv_log : forall w, w ∈ log s -> revision w <= last_revision (box s);
  iv_account : one_per_account (entries (box s));
  iv_versions : msum count_of (entries (box s)) <= max_versions (policy (box s));
  iv_bytes : msum bytes_of (entries (box s)) <= max_bytes (policy (box s));
  iv_leased : msum leased_of (entries (box s)) <= concurrent (policy (box s));
  iv_history : history (entries (box s)) (log s) (written s);
}.

Lemma msum_insert_new f m k p : m !! k = None -> msum f (<[k := p]> m) = f p + msum f m.
Proof.
  intros Hk. unfold msum. assert (Hp : foldr (fun kp n => f kp.2 + n) 0 (map_to_list (<[k := p]> m)) = foldr (fun kp n => f kp.2 + n) 0 ((k, p) :: map_to_list m)).
  { apply (foldr_permutation_proper (=)); [intros x a b ->; done|intros; lia|by apply map_to_list_insert]. }
  rewrite Hp. done.
Qed.

Definition at_key (f : Pending -> Z) (o : option Pending) : Z := match o with Some p => f p | None => 0 end.

Lemma msum_delete f m k : msum f (delete k m) = msum f m - at_key f (m !! k).
Proof.
  destruct (m !! k) as [p|] eqn:E; cbn [at_key].
  - rewrite <- (insert_delete_id m k p E) at 2. rewrite msum_insert_new by apply lookup_delete_eq. lia.
  - rewrite delete_id by done. lia.
Qed.

Lemma msum_insert f m k p : msum f (<[k := p]> m) = msum f m - at_key f (m !! k) + f p.
Proof. rewrite <- insert_delete_eq, msum_insert_new, msum_delete by apply lookup_delete_eq. lia. Qed.

Lemma msum_fmap_le f g m : (forall k p, m !! k = Some p -> f (g p) <= f p) -> msum f (g <$> m) <= msum f m.
Proof.
  induction m as [|k p m Hk IH] using map_ind; intros Hle; [done|]. rewrite fmap_insert.
  rewrite !msum_insert_new by (by rewrite ?lookup_fmap, Hk). pose proof (Hle k p ltac:(apply lookup_insert_eq)).
  assert (msum f (g <$> m) <= msum f m); [|lia]. apply IH. intros k' p' E. apply (Hle k'). rewrite lookup_insert_ne; [done|congruence].
Qed.

Lemma msum_ge f m k : (forall p, 0 <= f p) -> at_key f (m !! k) <= msum f m.
Proof.
  intros Hf. assert (0 <= msum f (delete k m)); [|rewrite msum_delete in *; lia].
  unfold msum. induction (map_to_list (delete k m)) as [|x l IH]; cbn [foldr]; [lia|]. specialize (Hf x.2). lia.
Qed.

Lemma payload_bytes_pos v : 0 <= payload_bytes v.
Proof. unfold payload_bytes, len. lia. Qed.
Lemma bytes_of_pos p : 0 <= bytes_of p.
Proof. unfold bytes_of. induction (versions p) as [|v l IH]; cbn; [lia|]. pose proof (payload_bytes_pos v). lia. Qed.

Lemma usage_sum q : usage q = (msum count_of (entries q), msum bytes_of (entries q)).
Proof.
  unfold usage, msum. assert (Hv : forall l nb, foldl (fun nb v => (nb.1 + 1, nb.2 + payload_bytes v)) nb l =
    (nb.1 + Z.of_nat (length l), nb.2 + foldr (fun v n => payload_bytes v + n) 0 l)).
  { induction l as [|v l IH]; intros [n b]; cbn [foldl length foldr fst snd]; [f_equal; lia|]. rewrite IH. cbn [fst snd]. f_equal; lia. }
  assert (H : forall l nb, foldl usage_step nb l = (nb.1 + foldr (fun kp n => count_of kp.2 + n) 0 l, nb.2 + foldr (fun kp n => bytes_of kp.2 + n) 0 l)).
  { induction l as [|kp l IH]; intros [n b]; cbn [foldl foldr fst snd]; [f_equal; lia|]. rewrite IH. unfold usage_step. rewrite Hv.
    unfold count_of, bytes_of. cbn [fst snd]. f_equal; lia. }
  rewrite H. done.
Qed.

(** ** How the history survives each kind of change to the entries *)
Lemma same_write_refl v : same_write v v.
Proof. done. Qed.
Lemma same_write_trans u v w : same_write u v -> same_write v w -> same_write u w.
Proof. unfold same_write. intros (-> & -> & -> & ->). done. Qed.

(** [p'] holds what [p] holds, possibly merged into fewer versions. *)
Record merges (p p' : Pending) : Prop := {
  mg_covers : forall v, v ∈ versions p -> exists v', v' ∈ versions p' /\ covers_from v' <= covers_from v /\ revision v <= revision v';
  mg_start : forall v', v' ∈ versions p' -> exists v, v ∈ versions p /\ covers_from v' = covers_from v;
  mg_same : forall v', v' ∈ versions p' -> exists v, v ∈ versions p /\ same_write v' v;
}.

Lemma merges_eq p p' : versions p' = versions p -> merges p p'.
Proof. intros E. split; rewrite E; intros v Hv; exists v; split_and!; try done; lia. Qed.

Lemma history_merge m m' log written :
  (forall k, match m !! k, m' !! k with Some p, Some p' => merges p p' | None, None => True | _, _ => False end) ->
  history m log written -> history m' log written.
Proof.
  intros Hm [Hc Hu Hs Hg Hw Hi]. assert (Hback : forall k p', m' !! k = Some p' -> exists p, m !! k = Some p /\ merges p p').
  { intros k p' E. specialize (Hm k). rewrite E in Hm. destruct (m !! k) as [p|]; [by exists p|done]. }
  split; [| | | |done|done].
  - intros w Hin. destruct (Hc w Hin) as [|(p & v & E & Hv & Hr)]; [by left|right]. specialize (Hm (payload_key w)). rewrite E in Hm.
    destruct (m' !! payload_key w) as [p'|]; [|done]. destruct (mg_covers _ _ Hm v Hv) as (v' & Hv' & ? & ?). exists p', v'. split_and!; [done..|lia|lia].
  - intros k p' v' u E Hv' Hin Hk. destruct (Hback _ _ E) as (p & E' & Hmg). destruct (mg_start _ _ Hmg v' Hv') as (v & Hv & ->). by eapply Hu.
  - intros k p' v' E Hv'. destruct (Hback _ _ E) as (p & E' & Hmg). destruct (mg_start _ _ Hmg v' Hv') as (v & Hv & ->). by eapply Hs.
  - intros k p' v' E Hv'. destruct (Hback _ _ E) as (p & E' & Hmg). destruct (mg_same _ _ Hmg v' Hv') as (v & Hv & Hsame).
    destruct (Hg k p v E' Hv) as (w & Hin & Hw'). exists w. split; [done|]. by eapply same_write_trans.
Qed.

Lemma elem_of_versions p v : v ∈ versions p <-> ready p = Some v \/ exists a, attempt p = Some a /\ payload a = v.
Proof.
  unfold versions. rewrite elem_of_app.
  assert (H1 : v ∈ opt_list (ready p) <-> ready p = Some v).
  { destruct (ready p); cbn [opt_list]; [rewrite list_elem_of_singleton; split; [by intros ->|by intros [= ->]]|by rewrite elem_of_nil]. }
  assert (H2 : v ∈ opt_list (payload <$> attempt p) <-> exists a, attempt p = Some a /\ payload a = v).
  { destruct (attempt p) as [a|]; cbn [opt_list fmap option_fmap option_map]; [|rewrite elem_of_nil; split; [done|by intros (? & ? & _)]].
    rewrite list_elem_of_singleton. split; [intros ->; by exists a|by intros (a' & [= <-] & <-)]. }
  by rewrite H1, H2.
Qed.

(** The attempt comes back: it becomes the ready version, or is absorbed by the newer one. *)
Lemma restore_entry rev k p a f n (e := restore (mkPending (ready p) None f n) (payload a)) :
  attempt p = Some a -> entry_ok rev k p ->
  exists v, ready e = Some v /\ attempt e = None /\ failures e = f /\ forall f' n', let e' := mkPending (Some v) None f' n' in
    merges p e' /\ entry_ok rev k e' /\ count_of e' <= count_of p /\ bytes_of e' <= bytes_of p.
Proof.
  intros Ha [_ Hkey Hrev Hord]. subst e. unfold restore. cbn [ready].
  assert (Hva : payload a ∈ versions p) by (apply elem_of_versions; right; by exists a).
  pose proof (payload_bytes_pos (payload a)) as Hpos. destruct (ready p) as [r|] eqn:Er; cbn [set_ready ready attempt failures].
  - assert (Hvr : r ∈ versions p) by (apply elem_of_versions; by left). pose proof (Hrev _ Hva) as H1. pose proof (Hrev _ Hvr) as H2.
    specialize (Hord a r Ha eq_refl). eexists. split_and!; [done..|]. intros f' n'. cbv zeta. split_and!.
    + split; intros v; rewrite !elem_of_versions; cbn [ready attempt].
      * intros [Hx|(b & Hx & <-)]; [rewrite Er in Hx|rewrite Ha in Hx]; injection Hx as <-; eexists; (split; [apply elem_of_versions; by left|]); cbn; lia.
      * intros [[= <-]|(? & ? & _)]; [|done]. exists (payload a). split; [done|]. cbn. lia.
      * intros [[= <-]|(? & ? & _)]; [|done]. exists r. split; [done|]. unfold same_write. done.
    + split; [done| | |done]; intros v; rewrite elem_of_versions; (intros [[= <-]|(? & ? & _)]; [|done]); cbn.
      * by apply (Hkey r).
      * lia.
    + unfold count_of, versions. rewrite Er, Ha. cbn. lia.
    + unfold bytes_of, versions. rewrite Er, Ha. cbn. unfold payload_bytes at 1. cbn. fold (payload_bytes r). lia.
  - exists (payload a). split_and!; [done..|]. intros f' n'. cbv zeta.
    assert (Hve : versions (mkPending (Some (payload a)) None f' n') = versions p) by (unfold versions; by rewrite Er, Ha).
    split_and!; [by apply merges_eq| |unfold count_of; by rewrite Hve|unfold bytes_of; by rewrite Hve].
    split; rewrite ?Hve; [|done..|done]. unfold versions. by rewrite Er, Ha.
Qed.

Lemma default_versions (m : gmap CookieKey Pending) key v :
  v ∈ versions (default pending_default (m !! key)) -> m !! key = Some (default pending_default (m !! key)).
Proof. destruct (m !! key); [done|]. intros Hv. by apply elem_of_nil in Hv. Qed.

Lemma elem_of_set_ready p v u : u ∈ versions (set_ready p (Some v)) <-> u = v \/ exists a, attempt p = Some a /\ payload a = u.
Proof.
  rewrite elem_of_versions. cbn [set_ready ready attempt]. split; (intros [H|H]; [left|by right]); [by injection H|by subst].
Qed.

Definition accept_covers (p : Pending) (rev : Z) : Z := match ready p with Some r => covers_from r | None => rev + 1 end.

Lemma history_accept m log written sid nm val upd rev (p := default pending_default (m !! (sid, nm)))
    (v := mkPayload sid nm val upd (rev + 1) (accept_covers p rev)) :
  (forall k p, m !! k = Some p -> entry_ok rev k p) -> (forall w, w ∈ log -> revision w <= rev) -> history m log written ->
  history (<[(sid, nm) := set_ready p (Some v)]> m) (log ++ [mkPayload sid nm val upd (rev + 1) (rev + 1)]) written.
Proof.
  intros Hok Hlog [Hc Hu Hs Hg Hw Hi]. set (key := (sid, nm)) in *.
  assert (Hp : forall u, u ∈ versions p -> m !! key = Some p /\ 0 < covers_from u <= revision u /\ revision u <= rev).
  { intros u Hin. pose proof (default_versions m key u Hin) as E. split; [done|]. by apply (en_rev rev key p (Hok _ _ E)). }
  assert (Hr : forall r, ready p = Some r -> r ∈ versions p) by (intros r Er; apply elem_of_versions; by left).
  assert (Ha : forall a, attempt p = Some a -> payload a ∈ versions p) by (intros a Ea; apply elem_of_versions; right; by exists a).
  assert (Hcov : covers_from v <= rev + 1) by (cbn; unfold accept_covers; destruct (ready p) as [r|] eqn:Er; [destruct (Hp r (Hr r eq_refl)); lia|lia]).
  split.
  - intros w [Hin| ->%list_elem_of_singleton]%elem_of_app.
    + destruct (Hc w Hin) as [|(p' & u & E & Hv & Hrv)]; [by left|right]. destruct (decide (payload_key w = key)) as [Ek|Ek].
      * exists (set_ready p (Some v)). rewrite Ek, lookup_insert_eq. rewrite Ek in E. assert (p' = p) as -> by (unfold p; by rewrite E).
        apply elem_of_versions in Hv as [Er|(a & Ea & <-)].
        -- exists v. split; [done|]. split; [apply elem_of_set_ready; by left|]. specialize (Hlog w Hin). cbn. unfold accept_covers. rewrite Er. lia.
        -- exists (payload a). split; [done|]. split; [apply elem_of_set_ready; right; by exists a|done].
      * exists p', u. by rewrite lookup_insert_ne by congruence.
    + right. exists (set_ready p (Some v)), v. cbn [payload_key steam_id name]. fold key. rewrite lookup_insert_eq. split; [done|].
      split; [apply elem_of_set_ready; by left|]. cbn in *. lia.
  - intros k p' u x E Hin Hx Hk. destruct (decide (k = key)) as [->|Hne]; [|rewrite lookup_insert_ne in E by congruence; by eapply Hu].
    rewrite lookup_insert_eq in E. injection E as <-. apply elem_of_set_ready in Hin as [->|(a & Ea & <-)].
    + cbn. unfold accept_covers. destruct (ready p) as [r|] eqn:Er; [by eapply (Hu key p r); [apply (Hp r (Hr r eq_refl))|apply Hr| |]|].
      destruct (Hw x Hx) as (w & Hin & _ & _ & _ & ->). specialize (Hlog w Hin). lia.
    + by eapply (Hu key p); [apply (Hp _ (Ha a Ea))|apply Ha| |].
  - intros k p' u E Hin. destruct (decide (k = key)) as [->|Hne].
    2: { rewrite lookup_insert_ne in E by congruence. destruct (Hs k p' u E Hin) as (w & ? & ?). exists w. rewrite elem_of_app. tauto. }
    rewrite lookup_insert_eq in E. injection E as <-. apply elem_of_set_ready in Hin as [->|(a & Ea & <-)].
    + cbn. unfold accept_covers. destruct (ready p) as [r|] eqn:Er.
      * destruct (Hs key p r ltac:(apply (Hp r (Hr r eq_refl))) (Hr r eq_refl)) as (w & ? & ?). exists w. rewrite elem_of_app. tauto.
      * eexists. split; [apply elem_of_app; right; by apply list_elem_of_singleton|done].
    + destruct (Hs key p _ ltac:(apply (Hp _ (Ha a Ea))) (Ha a Ea)) as (w & ? & ?). exists w. rewrite elem_of_app. tauto.
  - intros k p' u E Hin. destruct (decide (k = key)) as [->|Hne].
    2: { rewrite lookup_insert_ne in E by congruence. destruct (Hg k p' u E Hin) as (w & ? & ?). exists w. rewrite elem_of_app. tauto. }
    rewrite lookup_insert_eq in E. injection E as <-. apply elem_of_set_ready in Hin as [->|(a & Ea & <-)].
    + eexists. split; [apply elem_of_app; right; by apply list_elem_of_singleton|done].
    + destruct (Hg key p _ ltac:(apply (Hp _ (Ha a Ea))) (Ha a Ea)) as (w & ? & ?). exists w. rewrite elem_of_app. tauto.
  - intros u Hin. destruct (Hw u Hin) as (w & ? & ?). exists w. rewrite elem_of_app. tauto.
  - done.
Qed.

(** The attempt at [key] is confirmed: what is left of the entry is its newer version, if any. *)
Lemma history_written m m' log written rev key p a :
  m !! key = Some p -> attempt p = Some a -> entry_ok rev key p ->
  (forall k, k <> key -> m' !! k = m !! k) ->
  (forall p', m' !! key = Some p' -> forall v, v ∈ versions p' -> ready p = Some v) ->
  (forall r, ready p = Some r -> exists p', m' !! key = Some p' /\ r ∈ versions p') ->
  history m log written -> history m' log (written ++ [payload a]).
Proof.
  intros E Ea Hok Hother Hless Hmore [Hc Hu Hs Hg Hw Hi].
  assert (Hva : payload a ∈ versions p) by (apply elem_of_versions; right; by exists a).
  assert (Hsub : forall k p' v, m' !! k = Some p' -> v ∈ versions p' -> exists p0, m !! k = Some p0 /\ v ∈ versions p0).
  { intros k p' v E' Hv. destruct (decide (k = key)) as [->|Hk]; [|rewrite Hother in E' by done; by exists p'].
    exists p. split; [done|]. apply elem_of_versions. left. by eapply Hless. }
  assert (Hka : payload_key (payload a) = key) by (by apply (en_key rev key p Hok)).
  split.
  - intros w Hin. destruct (Hc w Hin) as [(u & ? & ?)|(p' & v & E' & Hv & Hr)]; [left; exists u; rewrite elem_of_app; tauto|].
    destruct (decide (payload_key w = key)) as [Ek|Ek].
    + rewrite Ek, E in E'. injection E' as <-. apply elem_of_versions in Hv as [Er|(a' & Ea' & <-)].
      * right. destruct (Hmore v Er) as (p' & E' & Hv'). exists p', v. by rewrite Ek.
      * rewrite Ea in Ea'. injection Ea' as <-. left. exists (payload a). rewrite elem_of_app, list_elem_of_singleton. split; [by right|]. split; [congruence|lia].
    + right. exists p', v. by rewrite Hother.
  - intros k p' v u E' Hv [Hin| ->%list_elem_of_singleton]%elem_of_app Hk.
    + destruct (Hsub k p' v E' Hv) as (p0 & E0 & Hv0). by eapply Hu.
    + rewrite Hka in Hk. subst k. eapply (en_order rev key p Hok); [done|]. by eapply Hless.
  - intros k p' v E' Hv. destruct (Hsub k p' v E' Hv) as (p0 & E0 & Hv0). by eapply Hs.
  - intros k p' v E' Hv. destruct (Hsub k p' v E' Hv) as (p0 & E0 & Hv0). by eapply Hg.
  - intros u [Hin| ->%list_elem_of_singleton]%elem_of_app; [by apply Hw|]. by eapply Hg.
  - intros i j u w Hij Hui Hwj Hk. apply lookup_app_Some in Hwj as [Hwj|[Hj Hwj]].
    + rewrite lookup_app_l in Hui by (apply lookup_lt_Some in Hwj; lia). by eapply Hi.
    + apply lookup_app_Some in Hui as [Hui|[Hi' Hui]].
      * destruct (j - length written)%nat; [|done]. injection Hwj as <-.
        assert (revision u < covers_from (payload a)); [|pose proof (en_rev rev key p Hok _ Hva); lia].
        apply (Hu key p (payload a) u E Hva); [by eapply list_elem_of_lookup_2|congruence].
      * destruct (i - length written)%nat eqn:?, (j - length written)%nat eqn:?; [lia|done..].
Qed.

(** ** Every operation preserves the invariant *)
Definition sized (p : OutboxPolicy) : Prop := 0 <= max_versions p /\ 0 <= max_bytes p < u64_max /\ 0 <= concurrent p.

(** Any validated policy is in range. *)
Lemma policy_of_sized p : AsyncPolicy.validate p = true -> sized (policy_of p).
Proof.
  unfold AsyncPolicy.validate. rewrite !andb_true_iff, forallb_forall. intros H.
  assert (Hin : forall n, n ∈ AsyncPolicy.fields p -> 0 < n <= safe_size).
  { intros n Hn%list_elem_of_In. assert (Hb : (0 <? n) && (n <=? safe_size) = true) by (by apply H). lia. }
  assert (safe_size < u64_max) by done. unfold sized, policy_of. cbn [max_versions max_bytes concurrent].
  pose proof (Hin (AsyncPolicy.cookie_versions p)) as H1. pose proof (Hin (AsyncPolicy.cookie_bytes p)) as H2.
  unfold AsyncPolicy.fields in H1, H2. rewrite !elem_of_cons in H1, H2. split_and!; [| | |lia].
  - apply Z.lt_le_incl, H1. tauto.
  - apply Z.lt_le_incl, H2. tauto.
  - eapply Z.le_lt_trans; [apply H2|done]. tauto.
Qed.

Lemma count_set_ready p v : count_of (set_ready p (Some v)) = count_of p + (match ready p with None => 1 | Some _ => 0 end).
Proof. by destruct p as [[r|] [a|] f n]. Qed.
Lemma bytes_set_ready p v :
  bytes_of (set_ready p (Some v)) = bytes_of p - (match ready p with Some r => payload_bytes r | None => 0 end) + payload_bytes v.
Proof. destruct p as [[r|] [a|] f n]; cbn -[payload_bytes]; lia. Qed.
Lemma bytes_ready_le p r : ready p = Some r -> payload_bytes r <= bytes_of p.
Proof. intros E. unfold bytes_of, versions. rewrite E. cbn. destruct (attempt p) as [a|]; cbn; [pose proof (payload_bytes_pos (payload a))|]; lia. Qed.

(** An admitted write replaces or adds one version, and the books still balance. *)
Lemma accept_spec q sid nm val upd (key := (sid, nm)) (p := default pending_default (entries q !! key)) :
  max_bytes (policy q) < u64_max ->
  (accept q sid nm val upd).2 = true ->
  entries (accept q sid nm val upd).1 = <[key := set_ready p (Some (mkPayload sid nm val upd (last_revision q + 1) (accept_covers p (last_revision q))))]> (entries q) /\
  order (accept q sid nm val upd).1 = (match entries q !! key with None => order q ++ [key] | Some _ => order q end) /\
  policy (accept q sid nm val upd).1 = policy q /\ last_revision (accept q sid nm val upd).1 = last_revision q + 1 /\
  last_revision q <> i64_max /\
  msum count_of (entries (accept q sid nm val upd).1) <= max_versions (policy q) /\
  msum bytes_of (entries (accept q sid nm val upd).1) <= max_bytes (policy q).
Proof.
  intros Hmb. unfold accept. rewrite usage_sum. fold key. assert (Hold : entries q !! key ≫= ready = ready p) by (unfold p; by destruct (entries q !! key)).
  rewrite Hold. match goal with |- context [if ?b then _ else _] => destruct b eqn:Ec end; [done|]. intros _. cbn [fst entries order policy last_revision].
  rewrite !orb_false_iff, !Z.ltb_ge, Z.eqb_neq in Ec. destruct Ec as ((((_ & _) & Hn) & Hb) & Hrev). fold p.
  assert (Hat : forall f, f pending_default = 0 -> at_key f (entries q !! key) = f p) by (intros f Hf; unfold p; by destruct (entries q !! key)).
  split_and!; try done.
  - rewrite msum_insert, Hat, count_set_ready by done. destruct (ready p); lia.
  - rewrite msum_insert, Hat, bytes_set_ready by done. set (v := mkPayload _ _ _ _ _ _). assert (Hv : payload_bytes v = 128 + len sid + len nm + len val) by done.
    rewrite Hv. pose proof (msum_ge bytes_of (entries q) key bytes_of_pos) as Hge. rewrite Hat in Hge by done.
    unfold sat_add, sat_sub in Hb. unfold len in *. destruct (ready p) as [r|] eqn:Er; [pose proof (bytes_ready_le p r Er); pose proof (payload_bytes_pos r)|]; lia.
Qed.

Lemma accept_inv s sid nm val upd s' : sized (policy (box s)) -> inv s -> step s (Accept sid nm val upd) = Some s' -> inv s' /\ policy (box s') = policy (box s).
Proof.
  intros (Hmv & Hmb & Hcc) [[Hnd Hord] Hent Hrev Hlog Hacc Hver Hby Hle Hh] E. cbn [step] in E. set (q := box s) in *.
  destruct (accept q sid nm val upd) as [q' ok] eqn:Eq. injection E as <-. destruct ok.
  - destruct (accept_spec q sid nm val upd) as (E1 & E2 & E3 & E4 & E5 & E6 & E7); [lia|by rewrite Eq|]. rewrite Eq in *. cbn [fst] in *.
    set (key := (sid, nm)) in *. set (p := default pending_default (entries q !! key)) in *. split; [|done].
    assert (Hp : entries q !! key = Some p \/ (entries q !! key = None /\ p = pending_default)) by (unfold p; destruct (entries q !! key); tauto).
    split; cbn [box log written]; rewrite ?E1, ?E2, ?E3, ?E4 in *; try done.
    + destruct (entries q !! key) as [p0|] eqn:Ek; (split; [|intros k]).
      * done.
      * rewrite Hord. destruct (decide (k = key)) as [->|Hk]; [rewrite lookup_insert_eq, Ek; by split; eexists|by rewrite lookup_insert_ne].
      * apply NoDup_app. split_and!; [done| |apply NoDup_singleton]. intros k Hk ->%list_elem_of_singleton. apply Hord in Hk. rewrite Ek in Hk. by destruct Hk.
      * rewrite elem_of_app, list_elem_of_singleton, Hord. destruct (decide (k = key)) as [->|Hk].
        -- rewrite lookup_insert_eq. split; [by eexists|by right].
        -- rewrite lookup_insert_ne by done. tauto.
    + intros k p' Ek. destruct (decide (k = key)) as [->|Hk].
      2: { rewrite lookup_insert_ne in Ek by done. destruct (Hent k p' Ek) as [H1 H2 H3 H4]. split; try done. intros v Hv. specialize (H3 v Hv). lia. }
      rewrite lookup_insert_eq in Ek. injection Ek as <-.
      assert (Hpv : forall v, v ∈ versions p -> payload_key v = key /\ (0 < covers_from v <= revision v /\ revision v <= last_revision q)).
      { intros v Hv. destruct Hp as [Ep|[_ Ep]]; [|rewrite Ep in Hv; by apply elem_of_nil in Hv]. destruct (Hent _ _ Ep) as [_ H2 H3 _]. split; [by apply H2|by apply H3]. }
      assert (Hr : forall r, ready p = Some r -> r ∈ versions p) by (intros r Er; apply elem_of_versions; by left).
      assert (Ha : forall a, attempt p = Some a -> payload a ∈ versions p) by (intros a Ea; apply elem_of_versions; right; by exists a).
      split; [done|..].
      * intros v [->|(a & Ea & <-)]%elem_of_set_ready; [done|]. by apply Hpv, Ha.
      * intros v [->|(a & Ea & <-)]%elem_of_set_ready; [|specialize (Hpv _ (Ha a Ea)); lia]. cbn. unfold accept_covers.
        destruct (ready p) as [r|] eqn:Er; [specialize (Hpv r (Hr r eq_refl)); lia|lia].
      * intros a v Ea [= <-]. cbn in *. unfold accept_covers. destruct (ready p) as [r|] eqn:Er.
        -- destruct Hp as [Ep|[_ Ep]]; [|by rewrite Ep in Er]. by apply (en_order _ _ _ (Hent _ _ Ep)).
        -- specialize (Hpv _ (Ha a Ea)). lia.
    + lia.
    + intros w [Hin| ->%list_elem_of_singleton]%elem_of_app; [specialize (Hlog w Hin); lia|done].
    + intros k1 k2 p1 p2 H1 H2 L1 L2. assert (Hb : forall k p', <[key := set_ready p (Some (mkPayload sid nm val upd (last_revision q + 1) (accept_covers p (last_revision q))))]> (entries q) !! k = Some p' ->
        is_leased p' = true -> exists p0, entries q !! k = Some p0 /\ is_leased p0 = true).
      { intros k p' Ek L. destruct (decide (k = key)) as [->|Hk]; [|rewrite lookup_insert_ne in Ek by done; by exists p'].
        rewrite lookup_insert_eq in Ek. injection Ek as <-. destruct Hp as [Ep|[_ Ep]]; [by exists p|]. by rewrite Ep in L. }
      destruct (Hb _ _ H1 L1) as (x1 & ? & ?), (Hb _ _ H2 L2) as (x2 & ? & ?). by eapply Hacc.
    + rewrite msum_insert. assert (at_key leased_of (entries q !! key) = leased_of p) as -> by (destruct Hp as [Ep|[Ep Ep']]; rewrite Ep; [done|by rewrite Ep']).
      assert (leased_of (set_ready p (Some (mkPayload sid nm val upd (last_revision q + 1) (accept_covers p (last_revision q))))) = leased_of p) as -> by done. lia.
    + by apply history_accept.
  - assert (Hq : entries q' = entries q /\ order q' = order q /\ policy q' = policy q /\ last_revision q' = last_revision q).
    { unfold accept in Eq. destruct (usage q). match type of Eq with context [if ?b then _ else _] => destruct b end; [|done]. injection Eq as <-. done. }
    destruct Hq as (E1 & E2 & E3 & E4). split; [|done]. split; cbn [box log written]; rewrite ?E1, ?E2, ?E3, ?E4; done.
Qed.

Lemma reclaim_one_ok rev k o p (p' := reclaim_one o p) :
  entry_ok rev k p ->
  merges p p' /\ entry_ok rev k p' /\ count_of p' <= count_of p /\ bytes_of p' <= bytes_of p /\ (is_leased p' = true -> is_leased p = true).
Proof.
  intros Hok. subst p'. unfold reclaim_one. destruct (attempt p) as [a|] eqn:Ea; [|split_and!; try done; by apply merges_eq].
  destruct (match o with Some x => String.eqb (owner a).1 x | None => true end); [|split_and!; try done; by apply merges_eq].
  destruct (restore_entry rev k p a (failures p) (next_attempt p) Ea Hok) as (v & Er & _ & _ & Hall).
  cbv zeta. rewrite Er. destruct (Hall (failures (restore (mkPending (ready p) None (failures p) (next_attempt p)) (payload a))) 0) as (H1 & H2 & H3 & H4).
  by split_and!.
Qed.

Lemma reclaim_inv s o s' : inv s -> step s (Reclaim o) = Some s' -> inv s' /\ policy (box s') = policy (box s).
Proof.
  intros [[Hnd Hord] Hent Hrev Hlog Hacc Hver Hby Hle Hh] [= <-]. split; [|done]. unfold reclaim, with_entries.
  assert (Hone : forall k p, entries (box s) !! k = Some p -> _) by (intros k p E; exact (reclaim_one_ok _ k o p (Hent k p E))).
  split; cbn [box log written entries order policy last_revision]; try done.
  - split; [done|]. intros k. rewrite lookup_fmap, Hord. by destruct (entries (box s) !! k).
  - intros k p'. rewrite lookup_fmap. destruct (entries (box s) !! k) as [p|] eqn:E; [|done]. intros [= <-]. by apply Hone.
  - intros k1 k2 p1 p2. rewrite !lookup_fmap. destruct (entries (box s) !! k1) as [x1|] eqn:E1, (entries (box s) !! k2) as [x2|] eqn:E2; try done.
    intros [= <-] [= <-] L1 L2. apply (Hacc k1 k2 x1 x2 E1 E2); [by apply (Hone k1)|by apply (Hone k2)].
  - etrans; [apply msum_fmap_le|done]. intros k p E. by apply (Hone k).
  - etrans; [apply msum_fmap_le|done]. intros k p E. by apply (Hone k).
  - etrans; [apply msum_fmap_le|done]. intros k p E. unfold leased_of. destruct (Hone k p E) as (_ & _ & _ & _ & Hl).
    destruct (is_leased (reclaim_one o p)); [by rewrite Hl|destruct (is_leased p); lia].
  - eapply history_merge; [|done]. intros k. rewrite lookup_fmap. destruct (entries (box s) !! k) as [p|] eqn:E; [|done]. cbn. by apply (Hone k).
Qed.

Lemma elem_of_drop_key k' k l : k' ∈ drop_key k l <-> k' ∈ l /\ k' <> k.
Proof. unfold drop_key. rewrite elem_of_filterb, negb_true_iff, bool_decide_eq_false. tauto. Qed.

(** A confirmed or failed attempt, by what it leaves at its key. *)
Lemma settle_ok rev k p a success now (p' := settle p (payload a) success now) :
  attempt p = Some a -> entry_ok rev k p ->
  attempt p' = None /\ (success = true -> ready p' = ready p) /\ (success = false -> merges p p') /\
  (forall r, ready p' = Some r -> entry_ok rev k p' /\ count_of p' <= count_of p /\ bytes_of p' <= bytes_of p) /\
  (success = false -> is_Some (ready p')).
Proof.
  intros Ea Hok. subst p'. unfold settle. destruct success; cbn [ready attempt].
  - split_and!; try done. intros r Er. pose proof (payload_bytes_pos (payload a)). split_and!.
    + destruct Hok as [_ H2 H3 _]. assert (Hv : forall v, v ∈ versions (mkPending (ready p) None 0 0) -> v ∈ versions p).
      { intros v [Hx|(? & ? & _)]%elem_of_versions; [apply elem_of_versions; by left|done]. }
      split; [unfold versions; by rewrite Er|by intros v ?%Hv; apply H2|by intros v ?%Hv; apply H3|done].
    + unfold count_of, versions. rewrite Er, Ea. cbn. lia.
    + unfold bytes_of, versions. rewrite Er, Ea. cbn -[payload_bytes]. lia.
  - destruct (restore_entry rev k p a (failures p) (next_attempt p) Ea Hok) as (v & Er & _ & Ef & Hall). cbv zeta. rewrite Er.
    destruct (Hall (Z.min (failures (restore (mkPending (ready p) None (failures p) (next_attempt p)) (payload a)) + 1) u32_max)
      (sat_add now (backoff (failures (restore (mkPending (ready p) None (failures p) (next_attempt p)) (payload a)))))) as (H1 & H2 & H3 & H4).
    by split_and!.
Qed.

Lemma find_matches (o : WriterOwner) (i rev : Z) (m : gmap CookieKey Pending) (kp : CookieKey * Pending) :
  List.find (fun kp => matches o i rev kp.2) (map_to_list m) = Some kp ->
  m !! kp.1 = Some kp.2 /\ exists a, attempt kp.2 = Some a /\ id a = i /\ owner a = o /\ revision (payload a) = rev.
Proof.
  intros [Hin Hm]%List.find_some. destruct kp as [k p]. split; [by apply elem_of_map_to_list, list_elem_of_In|].
  unfold matches in Hm. cbn [snd] in *. destruct (attempt p) as [a|]; [|done]. exists a. split; [done|].
  apply andb_true_iff in Hm as [[Hi Ho]%andb_true_iff Hr]. apply Z.eqb_eq in Hi, Hr. by apply bool_decide_eq_true in Ho.
Qed.

Lemma ack_inv s o i rev success now s' :
  inv s -> step s (Ack o i rev success now) = Some s' -> inv s' /\ policy (box s') = policy (box s).
Proof.
  intros Hinv [= <-]. destruct Hinv as [[Hnd Hord] Hent Hrev Hlog Hacc Hver Hby Hle Hh]. unfold ack, acked_payload.
  destruct (List.find _ _) as [[k p]|] eqn:Ef; cbn [mbind option_bind fst snd box policy]; [|rewrite app_nil_r; split; [destruct success; by split|done]].
  destruct (find_matches _ _ _ _ _ Ef) as (Ek & a & Ea & _). cbn [fst snd] in Ek, Ea. rewrite Ea. cbn [fmap option_fmap option_map opt_list].
  destruct (settle_ok (last_revision (box s)) k p a success now Ea (Hent k p Ek)) as (Hat & Hsr & Hmg & Hgood & Hsome).
  set (p' := settle p (payload a) success now) in *. pose proof (fun f => msum_delete f (entries (box s)) k) as Hdel. pose proof (fun f q => msum_insert f (entries (box s)) k q) as Hins.
  rewrite Ek in *. cbn [at_key] in *.
  assert (Hle' : forall x, leased_of x >= 0) by (intros x; unfold leased_of; destruct (is_leased x); lia).
  assert (Hlp' : leased_of p' = 0) by (unfold leased_of, is_leased; by rewrite Hat).
  destruct (ready p') as [r|] eqn:Er; cbn [fst box policy]; (split; [|by destruct success]).
  - destruct (Hgood r eq_refl) as (Hok & Hcn & Hbn). split; cbn [box log written entries order policy last_revision with_entries]; try done.
    + split; [done|]. intros x. rewrite Hord. destruct (decide (x = k)) as [->|Hx]; [rewrite lookup_insert_eq, Ek; by split; eexists|by rewrite lookup_insert_ne].
    + intros x px. destruct (decide (x = k)) as [->|Hx]; [rewrite lookup_insert_eq; by intros [= <-]|rewrite lookup_insert_ne by done; apply Hent].
    + intros k1 k2 p1 p2 E1 E2 L1 L2. assert (Hb : forall x px, <[k := p']> (entries (box s)) !! x = Some px -> is_leased px = true -> entries (box s) !! x = Some px).
      { intros x px. destruct (decide (x = k)) as [->|Hx]; [|by rewrite lookup_insert_ne]. rewrite lookup_insert_eq. intros [= <-]. unfold is_leased. by rewrite Hat. }
      eapply Hacc; [by apply Hb|by apply Hb|done..].
    + rewrite Hins. lia.
    + rewrite Hins. lia.
    + rewrite Hins. specialize (Hle' p). lia.
    + destruct success.
      * specialize (Hsr eq_refl). eapply (history_written (entries (box s))); [done|done|by apply Hent|by intros; rewrite lookup_insert_ne| |intros r' Er'|done].
        -- intros x. rewrite lookup_insert_eq. intros [= <-] v [Hv|(b & Hb & _)]%elem_of_versions; congruence.
        -- exists p'. rewrite lookup_insert_eq. split; [done|]. apply elem_of_versions. left. congruence.
      * eapply history_merge; [|done]. intros x. destruct (decide (x = k)) as [->|Hx]; [rewrite lookup_insert_eq, Ek; by apply Hmg|].
        rewrite lookup_insert_ne by done. destruct (entries (box s) !! x); [by apply merges_eq|done].
  - destruct success; [|by destruct (Hsome eq_refl)]. specialize (Hsr eq_refl).
    split; cbn [box log written entries order policy last_revision with_entries]; try done.
    + split; [by apply filterb_NoDup|]. intros x. rewrite elem_of_drop_key, Hord. destruct (decide (x = k)) as [->|Hx].
      * rewrite lookup_delete_eq. split; [tauto|by intros [? ?]].
      * rewrite lookup_delete_ne by done. tauto.
    + intros x px [_ E]%lookup_delete_Some. by apply Hent.
    + intros k1 k2 p1 p2 [_ E1]%lookup_delete_Some [_ E2]%lookup_delete_Some. by eapply Hacc.
    + rewrite Hdel. unfold count_of in *. lia.
    + rewrite Hdel. pose proof (bytes_of_pos p). lia.
    + rewrite Hdel. specialize (Hle' p). lia.
    + eapply (history_written (entries (box s))); [done|done|by apply Hent|by intros; rewrite lookup_delete_ne| |intros r' Er'; congruence|done].
      intros x. by rewrite lookup_delete_eq.
Qed.

(** ** Leasing *)
Record leasing_ok (q : Outbox) (limit cap : Z) (s : Leasing) : Prop := {
  lo_order : l_order s ≡ₚ order q;
  lo_entries : forall k, match entries q !! k, l_entries s !! k with
                         | Some p, Some p' => versions p' = versions p /\ entry_ok (last_revision q) k p'
                         | None, None => True | _, _ => False end;
  lo_same : forall k p, l_entries s !! k = Some p -> attempt p = None -> entries q !! k = Some p;
  lo_busy : forall k p, l_entries s !! k = Some p -> is_leased p = true -> k.1 ∈ l_busy s;
  lo_busy_old : busy_of (entries q) ⊆ l_busy s;
  lo_account : one_per_account (l_entries s);
  lo_leased : msum leased_of (l_entries s) = msum leased_of (entries q) + Z.of_nat (length (l_result s));
  lo_limit : Z.of_nat (length (l_result s)) <= Z.max 0 limit;
  lo_bytes : l_bytes s <= Z.max 0 cap /\ l_bytes s = foldr (fun a n => payload_bytes (payload a) + n) 0 (l_result s);
  lo_sums : forall f, (forall p p', versions p' = versions p -> f p' = f p) -> msum f (l_entries s) = msum f (entries q);
  lo_result : forall a, a ∈ l_result s -> exists p, entries q !! payload_key (payload a) = Some p /\ ready p = Some (payload a) /\ attempt p = None /\
    l_entries s !! payload_key (payload a) = Some (mkPending None (Some a) (failures p) (next_attempt p)) /\
    oldest_of (entries q) !! (payload_key (payload a)).1 = Some (covers_from (payload a)) /\ (payload_key (payload a)).1 ∉ busy_of (entries q);
}.

Lemma lease_one_ok q o limit cap now s :
  leasing_ok q limit cap s -> (forall k, k ∈ order q -> is_Some (entries q !! k)) -> l_order s <> [] ->
  exists s', lease_one o limit cap now (oldest_of (entries q)) s = Some s' /\ leasing_ok q limit cap s'.
Proof.
  intros Hs Hdom Hne. unfold lease_one. destruct (l_order s) as [|key rest] eqn:Eo; [done|].
  pose proof (lo_entries _ _ _ _ Hs key) as He. destruct (Hdom key) as [p0 E0]; [rewrite <- (lo_order _ _ _ _ Hs), Eo; by left|].
  rewrite E0 in He. destruct (l_entries s !! key) as [p|] eqn:Ep; [|done]. destruct He as [Hv Hok].
  set (skip := mkLeasing (l_entries s) (rest ++ [key]) (l_busy s) (l_id s) (l_bytes s) (l_result s)).
  assert (Hperm : rest ++ [key] ≡ₚ order q) by (rewrite <- (lo_order _ _ _ _ Hs), Eo; by rewrite Permutation_app_comm).
  assert (Hskip : leasing_ok q limit cap skip) by (destruct Hs; split; done).
  destruct (_ && _ && _ && _) eqn:Ec; [|by exists skip].
  apply andb_true_iff in Ec as [[[Hlim%Z.ltb_lt Hbusy%negb_true_iff%bool_decide_eq_false]%andb_true_iff _]%andb_true_iff Hnl%negb_true_iff].
  destruct (ready p) as [v|] eqn:Er; [|by exists skip].
  destruct (bool_decide _ && _ && _) eqn:Ec2; [|by exists skip].
  apply andb_true_iff in Ec2 as [[Hold%bool_decide_eq_true Hcap%Z.leb_le]%andb_true_iff _]. eexists. split; [done|].
  assert (Hatt : attempt p = None) by (unfold is_leased in Hnl; by destruct (attempt p)).
  set (a := mkAttempt (l_id s + 1) o v). set (p' := mkPending None (Some a) (failures p) (next_attempt p)).
  assert (Hv' : versions p' = versions p) by (unfold versions; by rewrite Er, Hatt).
  assert (Hkey : payload_key v = key) by (apply (en_key _ _ _ Hok), elem_of_versions; by left).
  destruct Hs as [H1 H2 H2' H3 H3' H4 H5 H6 [H7 H8] H9 H10]. split; cbn [l_order l_entries l_busy l_id l_bytes l_result].
  - done.
  - intros k. destruct (decide (k = key)) as [->|Hk]; [|rewrite lookup_insert_ne by done; apply H2]. rewrite lookup_insert_eq, E0, Hv'. split; [done|].
    destruct Hok as [K1 K2 K3 _]. split; rewrite ?Hv'; done.
  - intros k px. destruct (decide (k = key)) as [->|Hk]; [rewrite lookup_insert_eq; by intros [= <-]|rewrite lookup_insert_ne by done; apply H2'].
  - intros k px. destruct (decide (k = key)) as [->|Hk]; [intros; apply elem_of_union_l; by apply elem_of_singleton|].
    rewrite lookup_insert_ne by done. intros E L. apply elem_of_union_r. by eapply H3.
  - intros sid Hsid. apply elem_of_union_r. by apply H3'.
  - intros k1 k2 p1 p2 E1 E2 L1 L2 Hk12. destruct (decide (k1 = key)) as [->|Hk1], (decide (k2 = key)) as [->|Hk2]; [done|..].
    + rewrite lookup_insert_ne in E2 by done. exfalso. apply Hbusy. rewrite Hk12. by eapply H3.
    + rewrite lookup_insert_ne in E1 by done. exfalso. apply Hbusy. rewrite <- Hk12. by eapply H3.
    + rewrite lookup_insert_ne in E1, E2 by done. by eapply H4.
  - rewrite msum_insert, Ep, length_app, Nat2Z.inj_add, H5. cbn [at_key]. assert (leased_of p = 0) as -> by (unfold leased_of; by rewrite Hnl). cbn. lia.
  - rewrite length_app, Nat2Z.inj_add. cbn. lia.
  - split; [lia|]. rewrite foldr_app, H8. cbn [foldr]. change (payload a) with v. clear. induction (l_result s) as [|x l IH]; cbn [foldr]; lia.
  - intros f Hf. rewrite msum_insert, Ep, H9 by done. cbn [at_key]. rewrite (Hf p p' Hv'). lia.
  - intros b [Hb| ->%list_elem_of_singleton]%elem_of_app.
    + destruct (H10 b Hb) as (pb & Eb1 & Eb2 & Eb3 & Eb4 & Eb5 & Eb6). exists pb. split_and!; try done.
      rewrite lookup_insert_ne; [done|]. intros Ek. rewrite <- Ek, Ep in Eb4. injection Eb4 as ->. done.
    + change (payload a) with v. rewrite Hkey. exists p. split_and!; [by apply H2'|done..|by rewrite lookup_insert_eq|done|]. intros Hb. apply Hbusy. by apply H3'.
Qed.

Lemma lease_loop_ok q o limit cap now n : forall s,
  leasing_ok q limit cap s -> (forall k, k ∈ order q -> is_Some (entries q !! k)) -> (n <= length (order q))%nat ->
  exists s', lease_loop n o limit cap now (oldest_of (entries q)) s = Some s' /\ leasing_ok q limit cap s'.
Proof.
  induction n as [|n IH]; intros s Hs Hdom Hn; cbn [lease_loop]; [by exists s|].
  destruct (lease_one_ok q o limit cap now s Hs Hdom) as (s1 & -> & Hs1); [|cbn; apply IH; [done|done|lia]].
  intros E. pose proof (Permutation_length (lo_order _ _ _ _ Hs)) as Hl. rewrite E in Hl. cbn in Hl. lia.
Qed.

Lemma busy_of_elem m sid : sid ∈ busy_of m <-> exists k p, m !! k = Some p /\ is_leased p = true /\ k.1 = sid.
Proof.
  unfold busy_of. rewrite elem_of_list_to_set, list_elem_of_fmap. split.
  - intros ([k p] & -> & [L Hin%elem_of_map_to_list]%elem_of_filterb). by exists k, p.
  - intros (k & p & E & L & <-). exists (k, p). split; [done|]. apply elem_of_filterb. split; [done|]. by apply elem_of_map_to_list.
Qed.

Lemma busy_of_size m : one_per_account m -> Z.of_nat (size (busy_of m)) = msum leased_of m.
Proof.
  intros Hone. unfold busy_of. rewrite size_list_to_set.
  - rewrite length_fmap. unfold msum. induction (map_to_list m) as [|[k p] l IH]; cbn [filterb foldr]; [done|].
    unfold leased_of at 1. cbn [snd]. destruct (is_leased p); cbn [length]; lia.
  - apply NoDup_fmap_2_strong; [|apply filterb_NoDup, NoDup_map_to_list].
    intros [k1 p1] [k2 p2] [L1 H1%elem_of_map_to_list]%elem_of_filterb [L2 H2%elem_of_map_to_list]%elem_of_filterb E. cbn in *.
    assert (k1 = k2) as -> by (by eapply Hone). congruence.
Qed.

Lemma drop_key_perm key l : NoDup l -> key ∈ l -> drop_key key l ++ [key] ≡ₚ l.
Proof.
  intros Hnd Hin. apply NoDup_Permutation; [|done|].
  - apply NoDup_app. split_and!; [by apply filterb_NoDup| |apply NoDup_singleton]. intros x [_ Hx]%elem_of_drop_key ->%list_elem_of_singleton. done.
  - intros x. rewrite elem_of_app, elem_of_drop_key, list_elem_of_singleton. destruct (decide (x = key)) as [->|]; tauto.
Qed.

Lemma move_back_perm r : forall l, NoDup l -> (forall a, a ∈ r -> payload_key (payload a) ∈ l) -> foldl move_back l r ≡ₚ l.
Proof.
  induction r as [|a r IH]; intros l Hnd Hin; cbn [foldl]; [done|]. assert (Hp : move_back l a ≡ₚ l) by (apply drop_key_perm; [done|apply Hin; by left]).
  rewrite IH; [done|by rewrite Hp|]. intros b Hb. rewrite Hp. apply Hin. by right.
Qed.

(** A lease never hits an [unwrap]; what it returns, and what it leaves. *)
Lemma lease_spec q o items b now :
  NoDup (order q) -> (forall k, k ∈ order q <-> is_Some (entries q !! k)) -> (forall k p, entries q !! k = Some p -> entry_ok (last_revision q) k p) ->
  one_per_account (entries q) -> 0 <= concurrent (policy q) -> msum leased_of (entries q) <= concurrent (policy q) ->
  exists q' s, lease q o items b now = Some (q', l_result s) /\
    leasing_ok q (Z.min (Z.min items (batch_items (policy q))) (sat_sub (concurrent (policy q)) (Z.of_nat (size (busy_of (entries q))))))
      (Z.min b (batch_bytes (policy q))) s /\
    entries q' = l_entries s /\ order q' ≡ₚ order q /\ policy q' = policy q /\ last_revision q' = last_revision q /\
    msum leased_of (entries q') <= concurrent (policy q).
Proof.
  intros Hnd Hord Hent Hone Hc Hle. unfold lease. set (limit := Z.min (Z.min items _) _). set (cap := Z.min b _).
  destruct (lease_loop_ok q o limit cap now (length (order q)) (mkLeasing (entries q) (order q) (busy_of (entries q)) (lease_id q) 0 [])) as (s & -> & Hs).
  - split; cbn; try done; try lia.
    + intros k. destruct (entries q !! k) as [p|] eqn:E; [|done]. split; [done|by apply Hent].
    + intros k p E L. apply busy_of_elem. by exists k, p.
    + intros a Ha. by apply elem_of_nil in Ha.
  - intros k. apply Hord.
  - done.
  - cbn [mbind option_bind]. eexists _, s. split; [done|]. cbn. split; [done|]. split; [done|]. split_and!; try done.
    + rewrite move_back_perm; [apply Hs|by rewrite (lo_order _ _ _ _ Hs)|]. intros a Ha. rewrite (lo_order _ _ _ _ Hs). apply Hord.
      destruct (lo_result _ _ _ _ Hs a Ha) as (p & E & _). by exists p.
    + rewrite (lo_leased _ _ _ _ Hs). pose proof (lo_limit _ _ _ _ Hs) as Hl. pose proof (busy_of_size _ Hone) as Hb. unfold limit, sat_sub in Hl. lia.
Qed.

Lemma lease_inv s o items b now :
  sized (policy (box s)) -> inv s -> exists s', step s (Lease o items b now) = Some s' /\ inv s' /\ policy (box s') = policy (box s).
Proof.
  intros (_ & _ & Hc) [[Hnd Hord] Hent Hrev Hlog Hacc Hver Hby Hle Hh]. cbn [step].
  destruct (lease_spec (box s) o items b now) as (q' & l & -> & Hl & E1 & E2 & E3 & E4 & E5); [done..|].
  cbn [mbind option_bind]. eexists. split; [done|]. split; [|done].
  assert (Hk : forall k, match entries (box s) !! k, entries q' !! k with Some p, Some p' => versions p' = versions p /\ entry_ok (last_revision (box s)) k p' | None, None => True | _, _ => False end)
    by (rewrite E1; apply Hl).
  assert (Hsum : forall f, (forall p p', versions p' = versions p -> f p' = f p) -> msum f (entries q') = msum f (entries (box s))) by (rewrite E1; apply Hl).
  split; cbn [box log written]; rewrite ?E3, ?E4; try done.
  - split; [by rewrite E2|]. intros k. rewrite E2, Hord. specialize (Hk k). destruct (entries (box s) !! k), (entries q' !! k); try done; by split; eexists.
  - intros k p E. specialize (Hk k). rewrite E in Hk. destruct (entries (box s) !! k); [by destruct Hk|done].
  - rewrite E1. apply Hl.
  - rewrite Hsum; [done|]. intros p p' E. unfold count_of. by rewrite E.
  - rewrite Hsum; [done|]. intros p p' E. unfold bytes_of. by rewrite E.
  - eapply history_merge; [|done]. intros k. specialize (Hk k). destruct (entries (box s) !! k), (entries q' !! k); try done. destruct Hk as [E _]. by apply merges_eq.
Qed.

Lemma new_inv p : sized p -> inv (mkRun (new p) [] []).
Proof.
  intros (? & ? & ?). assert (He : forall k, entries (new p) !! k = None) by (intros; apply lookup_empty).
  assert (Hn : forall (v : Payload), v ∈ [] -> False) by (intros v Hv; by apply elem_of_nil in Hv).
  assert (Hz : forall f, msum f (entries (new p)) = 0) by (intros f; unfold msum; cbn [entries new]; by rewrite map_to_list_empty).
  constructor; cbn [box log written].
  - split; [constructor|]. intros k. rewrite He. split; [by intros ?%elem_of_nil|by intros [? ?]].
  - intros k q E. by rewrite He in E.
  - cbn. unfold i64_max. lia.
  - intros w Hw. by destruct (Hn w).
  - intros k1 k2 p1 p2 E. by rewrite He in E.
  - by rewrite Hz.
  - rewrite Hz. cbn. lia.
  - by rewrite Hz.
  - constructor; [intros w Hw; by destruct (Hn w)|intros k q v; by rewrite He..| |].
    + intros w Hw. by destruct (Hn w).
    + by intros i j u w _ Hi.
Qed.

Lemma run_inv os : forall s, sized (policy (box s)) -> inv s -> exists s', run s os = Some s' /\ inv s' /\ policy (box s') = policy (box s).
Proof.
  induction os as [|o os IH]; intros s Hs Hi; cbn [run]; [by exists s|].
  assert (Hstep : exists s1, step s o = Some s1 /\ inv s1 /\ policy (box s1) = policy (box s)).
  { destruct o as [sid nm val upd|ow items b now|ow i rev success now|ow].
    - destruct (step s (Accept sid nm val upd)) as [s1|] eqn:E; [|cbn in E; by destruct (accept _ _ _ _ _)]. exists s1. split; [done|]. by eapply accept_inv.
    - by apply lease_inv.
    - eexists. split; [done|]. by eapply ack_inv.
    - eexists. split; [done|]. by eapply reclaim_inv. }
  destruct Hstep as (s1 & E & Hi1 & Ep). rewrite E. cbn. destruct (IH s1) as (s' & E' & Hi' & Ep'); [by rewrite Ep|done|]. exists s'. by rewrite Ep'.
Qed.

(** ** What the writer plugin is promised *)

(** C5. No accepted write is lost, and the fence says exactly when an account is safe: after any
    writes, leases, acknowledgements, failures and plugin unloads, [done] holds for a fence just when
    every write the account had accepted up to it is on disk, in the sense that a write to the same
    cookie with that revision or a later one was acknowledged. *)
Theorem outbox_fence_exact p os :
  sized p ->
  exists s, run (mkRun (new p) [] []) os = Some s /\
  forall sid f, done (box s) sid f = true <->
    forall w, w ∈ log s -> steam_id w = sid -> revision w <= f ->
      exists u, u ∈ written s /\ payload_key u = payload_key w /\ revision w <= revision u.
Proof.
  intros Hp. destruct (run_inv os (mkRun (new p) [] []) Hp (new_inv p Hp)) as (s & E & Hi & _). exists s. split; [done|]. intros sid f.
  destruct Hi as [_ Hent _ _ _ _ _ _ [Hc Hu Hs _ _ _]].
  assert (Hd : done (box s) sid f = true <-> forall k p v, entries (box s) !! k = Some p -> k.1 = sid -> v ∈ versions p -> f < covers_from v).
  { unfold done. rewrite forallb_forall. setoid_rewrite <- list_elem_of_In. setoid_rewrite elem_of_filterb. setoid_rewrite String.eqb_eq. split.
    - intros H k q v Ek Hk Hv. specialize (H (k, q)). rewrite elem_of_map_to_list, forallb_forall in H. cbn [fst snd] in H.
      apply Z.ltb_lt, H; [done|]. by apply list_elem_of_In.
    - intros H [k q] [Hk Ek%elem_of_map_to_list]. rewrite forallb_forall. intros v Hv%list_elem_of_In. by apply Z.ltb_lt, (H k q). }
  rewrite Hd. split.
  - intros H w Hw Hsid Hf. destruct (Hc w Hw) as [|(q & v & Eq & Hv & Hr)]; [done|]. specialize (H (payload_key w) q v Eq Hsid Hv). lia.
  - intros H k q v Ek Hk Hv. destruct (Z.ltb_spec f (covers_from v)); [done|]. exfalso. destruct (Hs k q v Ek Hv) as (w & Hw & Ew & Hrw).
    destruct (H w Hw) as (u & Hin & Eu & Hru); [by rewrite <- Hk, <- Ew|lia|]. specialize (Hu k q v u Ek Hv Hin). rewrite Eu in Hu. specialize (Hu Ew). lia.
Qed.

(** What reaches the database is what was accepted, in order: every acknowledged payload is one of
    the accepted writes, value and timestamp included, and the acknowledged revisions of a cookie only
    increase, so that an older value is never confirmed after a newer one. *)
Theorem outbox_written_in_order p os :
  sized p ->
  exists s, run (mkRun (new p) [] []) os = Some s /\
  (forall u, u ∈ written s -> exists w, w ∈ log s /\ same_write u w) /\
  (forall i j u w, (i < j)%nat -> written s !! i = Some u -> written s !! j = Some w -> payload_key u = payload_key w -> revision u < revision w).
Proof.
  intros Hp. destruct (run_inv os (mkRun (new p) [] []) Hp (new_inv p Hp)) as (s & E & Hi & _). exists s. split; [done|]. split; apply (iv_history _ Hi).
Qed.

Lemma oldest_of_le m k p v c :
  m !! k = Some p -> v ∈ versions p -> oldest_of m !! k.1 = Some c -> c <= covers_from v.
Proof.
  intros E Hv. assert (Hin : (k, p) ∈ map_to_list m) by (by apply elem_of_map_to_list). unfold oldest_of.
  assert (Hone : forall sid l (acc : gmap string Z) x, (exists c, acc !! x = Some c) -> exists c', foldl (min_into sid) acc l !! x = Some c' /\ forall c, acc !! x = Some c -> c' <= c).
  { induction l as [|u l IH]; intros acc x [c0 Hc0]; cbn [foldl]; [exists c0; split; [done|]; intros c1 Hc1; rewrite Hc0 in Hc1; injection Hc1; lia|].
    assert (Hm : exists c1, min_into sid acc u !! x = Some c1 /\ c1 <= c0).
    { unfold min_into. destruct (decide (x = sid)) as [->|Hx]; [rewrite lookup_insert_eq, Hc0; eexists; split; [done|lia]|rewrite lookup_insert_ne by done; exists c0; split; [done|lia]]. }
    destruct Hm as (c1 & Hc1 & Hle). destruct (IH _ x (ex_intro _ c1 Hc1)) as (c' & Hc' & Hall). exists c'. split; [done|].
    intros c2 Hc2. rewrite Hc0 in Hc2. injection Hc2 as <-. specialize (Hall c1 Hc1). lia. }
  assert (Hin1 : forall sid l (acc : gmap string Z), v ∈ l -> exists c', foldl (min_into sid) acc l !! sid = Some c' /\ c' <= covers_from v).
  { induction l as [|u l IH]; intros acc Hl; [by apply elem_of_nil in Hl|]. cbn [foldl]. apply elem_of_cons in Hl as [->|Hl]; [|by apply IH].
    destruct (Hone sid l (min_into sid acc u) sid) as (c' & Hc' & Hall); [unfold min_into; rewrite lookup_insert_eq; by eexists|].
    exists c'. split; [done|]. unfold min_into in Hall. rewrite lookup_insert_eq in Hall. specialize (Hall _ eq_refl). destruct (acc !! sid); lia. }
  set (g := fun acc kp => foldl (min_into kp.1.1) acc (versions kp.2)).
  assert (Hall : forall (l : list (CookieKey * Pending)) (acc : gmap string Z) x c0, acc !! x = Some c0 -> exists c', foldl g acc l !! x = Some c' /\ c' <= c0).
  { induction l as [|kp l IH]; intros acc x c0 Hc0; cbn [foldl]; [exists c0; split; [done|lia]|].
    destruct (Hone kp.1.1 (versions kp.2) acc x (ex_intro _ c0 Hc0)) as (c1 & Hc1 & Hle). destruct (IH (g acc kp) x c1 Hc1) as (c' & ? & ?).
    exists c'. split; [done|]. specialize (Hle c0 Hc0). lia. }
  intros Hc. assert (Hex : exists c', foldl g (∅ : gmap string Z) (map_to_list m) !! k.1 = Some c' /\ c' <= covers_from v).
  { revert Hin. generalize (map_to_list m) as l, (∅ : gmap string Z) as acc. induction l as [|kp l IH]; intros acc Hl; [by apply elem_of_nil in Hl|].
    cbn [foldl]. apply elem_of_cons in Hl as [<-|Hl]; [|by apply IH].
    destruct (Hin1 k.1 (versions p) acc Hv) as (c1 & Hc1 & Hle). destruct (Hall l (g acc (k, p)) k.1 c1 Hc1) as (c' & ? & ?). exists c'. split; [done|lia]. }
  destruct Hex as (c' & Hc' & Hle). assert (Some c' = Some c) as [= <-] by (rewrite <- Hc'; exact Hc). done.
Qed.

(** The outbox stays inside its policy: after any run the queue holds every pending cookie once, no
    more versions or bytes than allowed, no more leases than allowed and at most one per account; and
    the next lease (which never panics) gives the writer at most the items and bytes it asked for, for
    accounts with nothing in flight, and only versions no older version of the account waits behind. *)
Theorem outbox_bounded p os o items b now :
  sized p ->
  exists s q' r, run (mkRun (new p) [] []) os = Some s /\ lease (box s) o items b now = Some (q', r) /\
  (NoDup (order (box s)) /\ forall k, k ∈ order (box s) <-> is_Some (entries (box s) !! k)) /\
  (usage (box s)).1 <= max_versions p /\ (usage (box s)).2 <= max_bytes p /\
  msum leased_of (entries (box s)) <= concurrent p /\ one_per_account (entries (box s)) /\
  msum leased_of (entries q') <= concurrent p /\ one_per_account (entries q') /\
  Z.of_nat (length r) <= Z.max 0 items /\ foldr (fun a n => payload_bytes (payload a) + n) 0 r <= Z.max 0 b /\
  (forall a k x v, a ∈ r -> entries (box s) !! k = Some x -> k.1 = steam_id (payload a) -> v ∈ versions x ->
     covers_from (payload a) <= covers_from v /\ is_leased x = false).
Proof.
  intros Hp. destruct (run_inv os (mkRun (new p) [] []) Hp (new_inv p Hp)) as (s & E & Hi & Ep). cbn in Ep. exists s.
  destruct Hi as [Hord Hent Hrev Hlog Hacc Hver Hby Hle Hh]. cbn in Ep. pose proof Hp as (_ & _ & Hc). rewrite <- Ep in *.
  destruct (lease_spec (box s) o items b now) as (q' & l & El & Hl & E1 & E2 & E3 & E4 & E5); [apply Hord|apply Hord|done..|].
  exists q', (l_result l). rewrite usage_sum. cbn [fst snd].
  pose proof (lo_limit _ _ _ _ Hl) as Hlim. destruct (lo_bytes _ _ _ _ Hl) as [Hb1 Hb2].
  split_and!; try done; [apply Hord|apply Hord|rewrite E1; apply Hl|lia|rewrite <- Hb2; lia|].
  intros a k x v Ha Ek Hk Hv. destruct (lo_result _ _ _ _ Hl a Ha) as (pa & _ & _ & _ & _ & Hold & Hnb). cbn [payload_key fst] in *. split.
  - apply (oldest_of_le (entries (box s)) k x); [done..|]. by rewrite Hk.
  - destruct (is_leased x) eqn:L; [|done]. exfalso. apply Hnb, busy_of_elem. by exists k, x.
Qed.
End Outbox.

Module Cookies.

Record Entry := mkEntry { value : string; dirty : bool; updated : Z }.
Record ClientCookies := mkClient { cached : bool; entries : gmap string Entry }.
Record Session := mkSession { steam_id : string; cookies : ClientCookies }.
Definition client_default : ClientCookies := mkClient false ∅.

(** [CACHE], [SESSIONS], [COOKIE_CACHED_PENDING] and the outbox. *)
Record State := mkState {
  cache : gmap string ClientCookies;
  sessions : gmap (Z * Z) Session;
  pending : list (Z * Z);
  outbox : Outbox.Outbox;
}.

Definition with_cache (s : State) (m : gmap string ClientCookies) : State := mkState m (sessions s) (pending s) (outbox s).
Definition with_sessions (s : State) (m : gmap (Z * Z) Session) : State := mkState (cache s) m (pending s) (outbox s).
Definition with_outbox (s : State) (q : Outbox.Outbox) : State := mkState (cache s) (sessions s) (pending s) q.

Definition cached_entry (s : State) (sid nm : string) : option Entry := cache s !! sid ≫= fun cc => entries cc !! nm.

Definition get (s : State) (sid nm : string) : option string := value <$> cached_entry s sid nm.
Definition get_time (s : State) (sid nm : string) : Z := match cached_entry s sid nm with Some e => updated e | None => 0 end.
Definition get_dirty (s : State) (sid : string) : list (string * string) :=
  match cache s !! sid with
  | Some cc => (fun ne => (ne.1, value ne.2)) <$> filterb (fun ne => dirty ne.2) (map_to_list (entries cc))
  | None => []
  end.

Definition put (cc : ClientCookies) (nm : string) (e : Entry) : ClientCookies := mkClient (cached cc) (<[nm := e]> (entries cc)).
Definition cache_put (s : State) (sid nm : string) (e : Entry) : State :=
  with_cache s (<[sid := put (default client_default (cache s !! sid)) nm e]> (cache s)).
Definition cache_set (s : State) (sid nm val : string) (upd : Z) : State := cache_put s sid nm (mkEntry val true upd).
Definition load (s : State) (sid nm val : string) (upd : Z) : State := cache_put s sid nm (mkEntry val false upd).

Definition set (s : State) (sid nm val : string) (upd : Z) : State * bool :=
  let '(q, ok) := Outbox.accept (outbox s) sid nm val upd in
  if negb ok then (with_outbox s q, false) else (cache_set (with_outbox s q) sid nm val upd, true).

Definition refresh_session (sid nm : string) (e : Entry) (x : Session) : Session :=
  if String.eqb (steam_id x) sid then mkSession (steam_id x) (put (cookies x) nm e) else x.
Definition set_authid (s : State) (sid nm val : string) (upd : Z) : State * bool :=
  let '(s, ok) := set s sid nm val upd in
  if negb ok then (s, false) else (with_sessions s (refresh_session sid nm (mkEntry val true upd) <$> sessions s), true).

Definition clear (s : State) (sid : string) : State := with_cache s (delete sid (cache s)).
Definition mark_cached (s : State) (sid : string) : State :=
  with_cache s (<[sid := mkClient true (entries (default client_default (cache s !! sid)))]> (cache s)).
Definition is_cached (s : State) (sid : string) : bool := match cache s !! sid with Some cc => cached cc | None => false end.
Definition reset (s : State) : State := mkState ∅ ∅ (pending s) (Outbox.reclaim (outbox s) None).
Definition retire (s : State) (slot token : Z) : State := with_sessions s (delete (slot, token) (sessions s)).

(** An acknowledgement, with the eviction of the account cache it may cause. *)
Definition evict (s : State) (key : string * string) : State :=
  match cache s !! key.1 with
  | Some cc =>
      let left := delete key.2 (entries cc) in
      with_cache s (if bool_decide (left = ∅) then delete key.1 (cache s) else <[key.1 := mkClient (cached cc) left]> (cache s))
  | None => s
  end.
Definition ack (s : State) (o : string * Z) (i rev : Z) (success : bool) (now : Z) : State * bool :=
  let '(q, ok, gone) := Outbox.ack (outbox s) o i rev success now in
  let s := with_outbox s q in
  (match gone with Some key => evict s key | None => s end, ok).

(** ** Sessions *)
Section Sessions.
(** [client::matches]: the slot is occupied by this very connection. *)
Context (client_matches : Z -> Z -> bool).

(** The request's JSON fields, as [as_str], [as_i64] and [as_array] read them. *)
Record Row := mkRow { r_name : option string; r_value : option string; r_updated : option Z }.
Record Data := mkData {
  d_steam_id : option string; d_name : option string; d_value : option string; d_updated : option Z; d_rows : option (list Row);
}.
Inductive Reply := Null | Str (v : string) | Num (z : Z) | Bool (b : bool).

Definition queue_cached (q : list (Z * Z)) (slot token : Z) : list (Z * Z) :=
  let q := filterb (fun st => client_matches st.1 st.2) q in
  if bool_decide ((slot, token) ∈ q) then q else q ++ [(slot, token)].

Definition load_row (m : gmap string Entry) (row : Row) : gmap string Entry :=
  let nm := default "" (r_name row) in
  match m !! nm with
  | Some e => if dirty e then m else <[nm := mkEntry (default "" (r_value row)) false (default 0 (r_updated row))]> m
  | None => <[nm := mkEntry (default "" (r_value row)) false (default 0 (r_updated row))]> m
  end.

Definition refresh_cache (s : State) (sid nm : string) (e : Entry) : State :=
  match cache s !! sid with
  | Some cc => match entries cc !! nm with Some _ => with_cache s (<[sid := put cc nm e]> (cache s)) | None => s end
  | None => s
  end.

Definition session_act (s : State) (slot token : Z) (sid op : string) (data : Data) : State * Reply :=
  let session := default (mkSession sid (default client_default (cache s !! sid))) (sessions s !! (slot, token)) in
  let keep := fun c => with_sessions s (<[(slot, token) := mkSession (steam_id session) c]> (sessions s)) in
  let c := cookies session in
  let nm := default "" (d_name data) in
  if String.eqb op "get" then (keep c, match entries c !! nm with Some e => Str (value e) | None => Null end)
  else if String.eqb op "time" then (keep c, Num (match entries c !! nm with Some e => updated e | None => 0 end))
  else if String.eqb op "cached" then (keep c, Bool (cached c))
  else if String.eqb op "set" then (keep (put c nm (mkEntry (default "" (d_value data)) true (default 0 (d_updated data)))), Bool true)
  else if String.eqb op "load" then
    let s' := keep (mkClient true (match d_rows data with Some rows => foldl load_row (entries c) rows | None => entries c end)) in
    (mkState (cache s') (sessions s') (queue_cached (pending s') slot token) (outbox s'), Bool true)
  else (keep c, Null).

Definition session_op (s : State) (slot token : Z) (op : string) (data : Data) : State * Reply :=
  if negb (client_matches slot token) then (s, Null)
  else
    let sid := default "0" (d_steam_id data) in
    if String.eqb sid "" || String.eqb sid "0" then (s, Null)
    else if String.eqb op "set" then
      let nm := default "" (d_name data) in
      let val := default "" (d_value data) in
      let upd := default 0 (d_updated data) in
      let '(q, ok) := Outbox.accept (outbox s) sid nm val upd in
      if negb ok then (with_outbox s q, Bool false)
      else session_act (refresh_cache (with_outbox s q) sid nm (mkEntry val true upd)) slot token sid op data
    else session_act s slot token sid op data.

(** A dirty value survives any load. *)
Lemma load_row_dirty m row nm e : dirty e = true -> m !! nm = Some e -> load_row m row !! nm = Some e.
Proof.
  intros Hd E. unfold load_row. destruct (decide (default "" (r_name row) = nm)) as [->|Hne]; [by rewrite E, Hd|].
  destruct (m !! default "" (r_name row)) as [x|]; [destruct (dirty x)|]; rewrite ?lookup_insert_ne by done; done.
Qed.
Lemma load_rows_dirty rows nm e : dirty e = true -> forall m, m !! nm = Some e -> foldl load_row m rows !! nm = Some e.
Proof. intros Hd. induction rows as [|row rows IH]; intros m E; cbn [foldl]; [done|]. by apply IH, load_row_dirty. Qed.

Lemma session_op_read s slot token sid nm x d :
  client_matches slot token = true -> sid <> "" -> sid <> "0" -> sessions s !! (slot, token) = Some x ->
  d_steam_id d = Some sid -> d_name d = Some nm ->
  (session_op s slot token "get" d).2 = (match entries (cookies x) !! nm with Some e => Str (value e) | None => Null end) /\
  (session_op s slot token "time" d).2 = Num (match entries (cookies x) !! nm with Some e => updated e | None => 0 end) /\
  (session_op s slot token "cached" d).2 = Bool (cached (cookies x)).
Proof.
  intros Hc H1 H2 Ex Es En. unfold session_op, session_act. rewrite Hc, Es, En, Ex. cbn [negb default Datatypes.id].
  destruct (String.eqb_spec sid "") as [?|_], (String.eqb_spec sid "0") as [?|_]; done.
Qed.

Lemma session_op_load s slot token sid x d rows :
  client_matches slot token = true -> sid <> "" -> sid <> "0" -> sessions s !! (slot, token) = Some x ->
  d_steam_id d = Some sid -> d_rows d = Some rows ->
  sessions (session_op s slot token "load" d).1 !! (slot, token) = Some (mkSession (steam_id x) (mkClient true (foldl load_row (entries (cookies x)) rows))) /\
  pending (session_op s slot token "load" d).1 = queue_cached (pending s) slot token.
Proof.
  intros Hc H1 H2 Ex Es Er. unfold session_op, session_act. rewrite Hc, Es, Er, Ex. cbn [negb default Datatypes.id from_option].
  destruct (String.eqb_spec sid "") as [?|_], (String.eqb_spec sid "0") as [?|_]; [done..|]. cbn. by rewrite lookup_insert_eq.
Qed.

Lemma queue_cached_once q slot token :
  (NoDup q -> NoDup (queue_cached q slot token)) /\ (slot, token) ∈ queue_cached q slot token.
Proof.
  unfold queue_cached. set (f := filterb _ q). case_bool_decide as Hin; [split; [apply filterb_NoDup|done]|]. split.
  - intros Hnd. apply NoDup_app. split_and!; [by apply filterb_NoDup| |apply NoDup_singleton]. by intros x Hx ->%list_elem_of_singleton.
  - apply elem_of_app. right. by apply list_elem_of_singleton.
Qed.

(** A connection reads its own writes: a cookie write through a live session is either refused,
    and then no cache and no session changes, or accepted, and then the session reads the new value and
    timestamp back, before and after any rows the database load delivers, which also makes it cached
    and announces it exactly once. *)
Theorem cookies_read_your_writes s slot token sid nm val upd rows :
  client_matches slot token = true -> sid <> "" -> sid <> "0" ->
  let d := mkData (Some sid) (Some nm) (Some val) (Some upd) (Some rows) in
  let '(s1, r) := session_op s slot token "set" d in
  (r = Bool (Outbox.accept (outbox s) sid nm val upd).2) /\
  (r = Bool false -> cache s1 = cache s /\ sessions s1 = sessions s /\ pending s1 = pending s) /\
  (r = Bool true ->
     let s2 := (session_op s1 slot token "load" d).1 in
     (session_op s1 slot token "get" d).2 = Str val /\ (session_op s1 slot token "time" d).2 = Num upd /\
     (session_op s2 slot token "get" d).2 = Str val /\ (session_op s2 slot token "time" d).2 = Num upd /\
     (session_op s2 slot token "cached" d).2 = Bool true /\
     (NoDup (pending s) -> NoDup (pending s2)) /\ (slot, token) ∈ pending s2).
Proof.
  intros Hc Hs1 Hs2. set (d := mkData _ _ _ _ _). cbv zeta. destruct (session_op s slot token "set" d) as [s1 r] eqn:E.
  unfold session_op at 1 in E. rewrite Hc in E. cbn [negb d_steam_id default Datatypes.id d] in E.
  destruct (String.eqb_spec sid "") as [?|_], (String.eqb_spec sid "0") as [?|_]; [done..|]. cbn [orb String.eqb Ascii.eqb Bool.eqb d_name d_value d_updated d] in E.
  unfold from_option, Datatypes.id in E.
  destruct (Outbox.accept (outbox s) sid nm val upd) as [q ok]. destruct ok; cbn [negb snd] in *; [|injection E as <- <-; done].
  unfold session_act in E. cbn [String.eqb Ascii.eqb Bool.eqb] in E. injection E as <- <-. split; [done|]. split; [done|]. intros _.
  set (s0 := refresh_cache _ _ _ _). set (x := default (mkSession sid _) _). set (e := mkEntry val true upd). set (s1 := with_sessions _ _).
  set (x1 := mkSession (steam_id x) (put (cookies x) nm e)). assert (Ex1 : sessions s1 !! (slot, token) = Some x1) by apply lookup_insert_eq.
  assert (He : entries (cookies x1) !! nm = Some e) by apply lookup_insert_eq.
  destruct (session_op_load s1 slot token sid x1 d rows Hc Hs1 Hs2 Ex1 eq_refl eq_refl) as [Ex2 Ep].
  destruct (session_op_read s1 slot token sid nm x1 d Hc Hs1 Hs2 Ex1 eq_refl eq_refl) as (-> & -> & _).
  destruct (session_op_read _ slot token sid nm _ d Hc Hs1 Hs2 Ex2 eq_refl eq_refl) as (-> & -> & ->).
  cbn [cookies entries cached]. rewrite (load_rows_dirty rows nm e eq_refl _ He), He, Ep.
  assert (Ep0 : pending s1 = pending s).
  { subst s1 s0. unfold with_sessions, refresh_cache. cbn [pending cache with_outbox]. destruct (cache s !! sid) as [cc|]; [|done]. by destruct (entries cc !! nm). }
  rewrite Ep0. split_and!; try done; apply queue_cached_once.
Qed.

(** An account write reaches every connection of the account: when it is accepted, the account
    cache and each of its live sessions hold the new value, dirty, and nothing else changes; when it is
    refused, no cache and no session changes. *)
Theorem cookies_account_write_everywhere s sid nm val upd :
  let '(s', ok) := set_authid s sid nm val upd in
  ok = (Outbox.accept (outbox s) sid nm val upd).2 /\ outbox s' = (Outbox.accept (outbox s) sid nm val upd).1 /\
  (ok = false -> cache s' = cache s /\ sessions s' = sessions s) /\
  (ok = true ->
     get s' sid nm = Some val /\ get_time s' sid nm = upd /\
     (forall sid' nm', (sid', nm') <> (sid, nm) -> cached_entry s' sid' nm' = cached_entry s sid' nm') /\
     (forall c, sessions s' !! c = None <-> sessions s !! c = None) /\
     (forall c x x', sessions s !! c = Some x -> sessions s' !! c = Some x' ->
        (steam_id x = sid -> entries (cookies x') !! nm = Some (mkEntry val true upd)) /\
        (forall nm', steam_id x <> sid \/ nm' <> nm -> entries (cookies x') !! nm' = entries (cookies x) !! nm'))).
Proof.
  unfold set_authid, set. destruct (Outbox.accept (outbox s) sid nm val upd) as [q ok]. destruct ok; cbn [negb fst snd]; [|done].
  assert (Hput : forall cc nm' e, entries (put cc nm e) !! nm' = if decide (nm' = nm) then Some e else entries cc !! nm').
  { intros cc nm' e. unfold put. cbn. destruct (decide (nm' = nm)) as [->|]; [apply lookup_insert_eq|by apply lookup_insert_ne]. }
  assert (Hce : forall sid' nm', cached_entry (cache_set (with_outbox s q) sid nm val upd) sid' nm' =
      if decide (sid' = sid /\ nm' = nm) then Some (mkEntry val true upd) else cached_entry s sid' nm').
  { intros sid' nm'. unfold cached_entry, cache_set, cache_put. cbn [cache with_cache with_outbox]. destruct (decide (sid' = sid)) as [->|Hsid].
    - rewrite lookup_insert_eq. cbn. rewrite lookup_insert. destruct (decide (nm = nm')) as [->|Hn]; [by rewrite decide_True|]. rewrite decide_False by (intros [_ ?]; congruence).
      destruct (cache s !! sid); [done|]. cbn. apply lookup_empty.
    - rewrite lookup_insert_ne by done. by rewrite decide_False by tauto. }
  split; [done|]. split; [done|]. split; [done|]. intros _. unfold get, get_time.
  change (cached_entry (with_sessions ?a ?b)) with (cached_entry a). rewrite Hce, decide_True by done. split_and!; try done.
  - intros sid' nm' Hne. change (cached_entry (with_sessions ?a ?b)) with (cached_entry a). rewrite Hce, decide_False; [done|]. intros [-> ->]. done.
  - intros c. cbn. rewrite lookup_fmap. by destruct (sessions s !! c).
  - intros c x x' E. cbn. rewrite lookup_fmap, E. cbn. intros [= <-]. unfold refresh_session.
    destruct (String.eqb_spec (steam_id x) sid) as [Hs|Hs]; cbn [cookies]; [|split; [done|done]]. split; intros; rewrite Hput; [by rewrite decide_True|].
    rewrite decide_False; [done|]. tauto.
Qed.
End Sessions.
End Cookies.

Module CookiesExamples.
Import Outbox.

Definition limits : OutboxPolicy := policy_of AsyncPolicy.policy_default.
Lemma limits_sized : sized limits.
Proof. by apply policy_of_sized. Qed.

(** Two writes to one cookie coalesce; while the result is being written a third arrives, the writer
    fails, the third absorbs what it failed to write and goes out alone. *)
Definition busy_cookie : list op :=
  [Accept "76" "skin" "red" 1; Accept "76" "skin" "blue" 2; Lease ("db", 1) 10 2000 0; Accept "76" "skin" "gold" 3;
   Lease ("db", 1) 10 2000 0; Ack ("db", 1) 1 2 false 500; Lease ("db", 1) 10 2000 550; Lease ("db", 1) 10 2000 600;
   Ack ("db", 1) 1 2 true 700; Ack ("db", 1) 2 3 true 700].
Definition summary (n : nat) : option (list (Z * Z) * bool) :=
  s ← run (mkRun (new limits) [] []) (take n busy_cookie);
  Some ((fun v => (revision v, covers_from v)) <$> (map_to_list (entries (box s)) ≫= fun kp => versions kp.2), done (box s) "76" 2).
Lemma busy_cookie_run : map summary [1; 2; 4; 6; 7; 8; 9; 10]%nat =
  [Some ([(1, 1)], false); Some ([(2, 1)], false); Some ([(3, 3); (2, 1)], false); Some ([(3, 1)], false); Some ([(3, 1)], false);
   Some ([(3, 1)], false); Some ([(3, 1)], false); Some ([], true)].
Proof. vm_compute. reflexivity. Qed.

Lemma outbox_fence_exact_witness : exists s, run (mkRun (new limits) [] []) busy_cookie = Some s /\
  (forall w, w ∈ log s -> steam_id w = "76" -> revision w <= 3 -> exists u, u ∈ written s /\ payload_key u = payload_key w /\ revision w <= revision u).
Proof.
  destruct (outbox_fence_exact limits busy_cookie limits_sized) as (s & E & H). exists s. split; [exact E|]. apply (H "76" 3).
  vm_compute in E. injection E as <-. vm_compute. reflexivity.
Defined.

Lemma outbox_written_in_order_witness : exists s, run (mkRun (new limits) [] []) busy_cookie = Some s /\ (forall u, u ∈ written s -> exists w, w ∈ log s /\ same_write u w).
Proof.
  destruct (outbox_written_in_order limits busy_cookie limits_sized) as (s & E & H & _). exists s. split; [exact E|exact H].
Defined.

Lemma outbox_bounded_witness : exists s q' r, run (mkRun (new limits) [] []) busy_cookie = Some s /\ lease (box s) ("db", 2) 3 1000 9000 = Some (q', r) /\ (usage (box s)).1 <= 4096.
Proof.
  destruct (outbox_bounded limits busy_cookie ("db", 2) 3 1000 9000 limits_sized) as (s & q' & r & E & El & _ & Hu & _).
  exists s, q', r. split; [exact E|]. split; [exact El|exact Hu].
Defined.

Definition lobby : Cookies.State := Cookies.mkState ∅ ∅ [] (new limits).
Lemma cookies_read_your_writes_witness :
  let d := Cookies.mkData (Some "76") (Some "skin") (Some "red") (Some 5) (Some [Cookies.mkRow (Some "skin") (Some "old") (Some 1)]) in
  let s1 := (Cookies.session_op (fun _ _ => true) lobby 2 9 "set" d).1 in
  let s2 := (Cookies.session_op (fun _ _ => true) s1 2 9 "load" d).1 in
  (Cookies.session_op (fun _ _ => true) s2 2 9 "get" d).2 = Cookies.Str "red".
Proof.
  pose proof (Cookies.cookies_read_your_writes (fun _ _ => true) lobby 2 9 "76" "skin" "red" 5 [Cookies.mkRow (Some "skin") (Some "old") (Some 1)]
    eq_refl ltac:(discriminate) ltac:(discriminate)) as H.
  cbv zeta in H |- *. destruct (Cookies.session_op (fun _ _ => true) lobby 2 9 "set" _) as [s1 r] eqn:E. destruct H as (Hr & _ & H).
  apply H. rewrite Hr. vm_compute. reflexivity.
Defined.
End CookiesExamples.
