(* ===== verification/Interop.v ===== *)
(** The contracts of inter-plugin interfaces (core/src/interop.rs).

    A published interface carries a contract: the schemas of its methods and forwards, with a digest.
    [Schema] is the wire algebra with [well_formed], [accepts] and [entity_ref_free]; [Method] and
    [Forward] check argument lists and responses; [validate_manifest] is the check every archive's
    manifest passes before it may load. The canonical form and the digest are third-party functions
    and parameters here. *)
From S2P Require Import Prelude.
From S2P Require Import Json.
From S2P Require Import Utf8.
From S2P Require Import Multiplexer.
From S2P Require Import Contracts.
Import Json.
Import Multiplexer.

(** * The wire algebra *)
Module Schema.

(** A field of an object schema, or an argument, over the schemas [A]. *)
Record Field (A : Type) := mkField { schema : A; optional : bool }.
Arguments mkField {A} _ _.
Arguments schema {A} _.
Arguments optional {A} _.

Section Schema.
Context {num : Type} `{JsonNumber num}.
Notation Value := (Json.Value num).

Inductive Schema :=
| SNull
| SBoolean
| SNumber
| SString
| SVoid
| SEntityRef
| SLiteral (value : Value)
| SArray (item : Schema)
| SObject (fields : list (string * Field Schema))
| SUnion (variants : list Schema).

Section Induction.
Variable P : Schema -> Prop.
Hypothesis HNull : P SNull.
Hypothesis HBoolean : P SBoolean.
Hypothesis HNumber : P SNumber.
Hypothesis HString : P SString.
Hypothesis HVoid : P SVoid.
Hypothesis HRef : P SEntityRef.
Hypothesis HLiteral : forall v, P (SLiteral v).
Hypothesis HArray : forall s, P s -> P (SArray s).
Hypothesis HObject : forall fs, Forall (fun kf => P (schema kf.2)) fs -> P (SObject fs).
Hypothesis HUnion : forall vs, Forall P vs -> P (SUnion vs).

Fixpoint Schema_nested_ind (s : Schema) : P s :=
  match s with
  | SNull => HNull
  | SBoolean => HBoolean
  | SNumber => HNumber
  | SString => HString
  | SVoid => HVoid
  | SEntityRef => HRef
  | SLiteral v => HLiteral v
  | SArray s => HArray s (Schema_nested_ind s)
  | SObject fs => HObject fs ((fix go fs := match fs return Forall (fun kf => P (schema kf.2)) fs with
                               | [] => Forall_nil_2 _
                               | (k, mkField s o) :: fs => Forall_cons_2 _ (k, mkField s o) fs (Schema_nested_ind s) (go fs) end) fs)
  | SUnion vs => HUnion vs ((fix go vs := match vs return Forall P vs with
                             | [] => Forall_nil_2 P
                             | s :: vs => Forall_cons_2 P s vs (Schema_nested_ind s) (go vs) end) vs)
  end.
End Induction.

(** [well_formed]; the recursion stops below depth 64. *)
Fixpoint well_formed (s : Schema) (allow_void : bool) (depth : nat) : bool :=
  if (64 <? depth)%nat then false
  else
    match s with
    | SVoid => allow_void
    | SLiteral value => is_boolean value || is_string value || is_number value
    | SArray item => well_formed item false (S depth)
    | SObject fields =>
        negb (contains_key fields "__s2ref")
        && forallb (fun kf => match kf.2 with mkField s _ => well_formed s false (S depth) end) fields
    | SUnion variants =>
        negb (bool_decide (length variants = 0%nat)) && forallb (fun s => well_formed s false (S depth)) variants
    | _ => true
    end.

Fixpoint entity_ref_free (s : Schema) : bool :=
  match s with
  | SNull | SBoolean | SNumber | SString | SLiteral _ => true
  | SArray item => entity_ref_free item
  | SObject fields => forallb (fun kf => match kf.2 with mkField s _ => entity_ref_free s end) fields
  | SUnion variants => forallb entity_ref_free variants
  | _ => false
  end.

(** Equality of the two [Option<f64>]. *)
Definition f64_opt_eqb (a b : option f64) : bool :=
  match a, b with Some x, Some y => f64_eqb x y | None, None => true | _, _ => false end.

(** The EntityRef envelope [{"__s2ref": [index, id]}]. *)
Definition is_envelope (v : Value) : bool :=
  match as_object v with
  | Some o =>
      bool_decide (length o = 1%nat)
      && match get o "__s2ref" with
         | Some r => match as_array r with
                     | Some a => bool_decide (length a = 2%nat) && forallb is_u64 a
                     | None => false end
         | None => false end
  | None => false
  end.

Fixpoint accepts (s : Schema) (value : Value) : bool :=
  match s with
  | SNull => is_null value
  | SBoolean => is_boolean value
  | SNumber => is_number value
  | SString => is_string value
  | SVoid => false
  | SLiteral literal =>
      value_eqb value literal || (is_number value && is_number literal && f64_opt_eqb (as_f64 value) (as_f64 literal))
  | SArray item => match as_array value with Some a => forallb (accepts item) a | None => false end
  | SObject fields =>
      match as_object value with
      | Some o =>
          forallb (fun kv => contains_key fields kv.1) o
          && forallb (fun kf => match kf.2 with
                                | mkField s opt => match get o kf.1 with Some v => accepts s v | None => opt end end) fields
      | None => false
      end
  | SUnion variants => existsb (fun s => accepts s value) variants
  | SEntityRef => is_envelope value
  end.

(** Some object inside [v], or [v] itself, has the key of the envelope. *)
Fixpoint mentions_ref (v : Value) : bool :=
  match v with
  | Array l => existsb mentions_ref l
  | Object m => contains_key m "__s2ref" || existsb (fun kv => mentions_ref kv.2) m
  | _ => false
  end.

(** ** Methods and forwards *)
Record Method := mkMethod { args : list (Field Schema); result : Schema }.
Record Forward := mkForward { kind : string; payload : Schema; writable : option (list string) }.

(** [None] is an argument past the end of the list. *)
Fixpoint accepts_positions (fs : list (Field Schema)) (a : list Value) : bool :=
  match fs with
  | [] => true
  | f :: fs =>
      match a with
      | v :: a' => accepts (schema f) v && accepts_positions fs a'
      | [] => optional f && accepts_positions fs []
      end
  end.

Definition accepts_args (m : Method) (value : Value) : bool :=
  match as_array value with
  | Some a => (length a <=? length (args m))%nat && accepts_positions (args m) a
  | None => false
  end.

(** [windows(2).all(..)]: strictly increasing UTF-16 units. *)
Fixpoint increasing (keys : list string) : bool :=
  match keys with
  | a :: (b :: _) as rest => Utf8.units_lt (Utf8.encode_utf16 a) (Utf8.encode_utf16 b) && increasing rest
  | _ => true
  end.

Definition forward_well_formed (f : Forward) : bool :=
  if negb (well_formed (payload f) false 0) then false
  else
    match kind f, writable f, payload f with
    | "notification", None, _ | "hook", None, _ => true
    | "transform", Some keys, SObject fields => forallb (contains_key fields) keys && increasing keys
    | _, _, _ => false
    end.

(** The four result codes are matched as [f64]. *)
Definition action (value : Value) : option HookResult :=
  match as_f64 value with
  | None => None
  | Some x =>
      if f64_eqb x (f64_of_Z 0) then Some Continue
      else if f64_eqb x (f64_of_Z 1) then Some Changed
      else if f64_eqb x (f64_of_Z 2) then Some Handled
      else if f64_eqb x (f64_of_Z 3) then Some HStop
      else None
  end.

Definition response (f : Forward) (value : Value) : option (HookResult * option (Map num)) :=
  if String.eqb (kind f) "hook" then (fun a => (a, None)) <$> action value
  else if negb (String.eqb (kind f) "transform") then None
  else
    object ← as_object value;
    if existsb (fun kv => negb (String.eqb kv.1 "result") && negb (String.eqb kv.1 "patch")) object then None
    else
      r ← get object "result";
      result ← action r;
      match get object "patch" with
      | None => Some (result, None)
      | Some patch =>
          if negb (bool_decide (result = Changed)) then None
          else
            patch ← as_object patch;
            match payload f with
            | SObject fields =>
                writable ← writable f;
                if forallb (fun kv => bool_decide (kv.1 ∈ writable)
                                      && match get fields kv.1 with Some fld => accepts (schema fld) kv.2 | None => false end) patch
                then Some (result, Some patch)
                else None
            | _ => None
            end
      end.

(** ** What a schema guarantees *)
Lemma schema_eqb_scalar (v lit : Value) :
  is_boolean lit || is_string lit || is_number lit = true -> value_eqb v lit = true -> mentions_ref v = false.
Proof. destruct lit, v; done. Qed.

Lemma schema_object_accepts fields v :
  accepts (SObject fields) v = true <->
  exists o, v = Object o /\ (forall k, k ∈ o.*1 -> k ∈ fields.*1) /\
    (forall k f, (k, f) ∈ fields -> match get o k with Some w => accepts (schema f) w = true | None => optional f = true end).
Proof.
  destruct v as [| | | | |o]; try (split; [done|by intros (? & ? & _)]). cbn [accepts as_object].
  rewrite andb_true_iff, !forallb_elem. split.
  - intros [Hk Hf]. exists o. split_and!; [done| |].
    + intros k (kv & -> & Hkv)%list_elem_of_fmap. by apply json_contains_key, Hk.
    + intros k [s opt] Hin. specialize (Hf _ Hin). cbn in *. by destruct (get o k).
  - intros (o' & [= <-] & Hk & Hf). split.
    + intros kv Hkv. apply json_contains_key, Hk, list_elem_of_fmap. by exists kv.
    + intros [k [s opt]] Hin. specialize (Hf _ _ Hin). cbn in *. by destruct (get o k).
Qed.

Lemma schema_array_accepts item v :
  accepts (SArray item) v = true <-> exists l, v = Array l /\ forall x, x ∈ l -> accepts item x = true.
Proof.
  destruct v as [| | | |l|]; try (split; [done|by intros (? & ? & _)]). cbn [accepts as_array]. rewrite forallb_elem.
  split; [eauto|by intros (? & [= <-] & ?)].
Qed.

Lemma schema_wf_object fields av d :
  well_formed (SObject fields) av d = true ->
  "__s2ref" ∉ fields.*1 /\ forall k f, (k, f) ∈ fields -> well_formed (schema f) false (S d) = true.
Proof.
  cbn [well_formed]. destruct (64 <? d)%nat; [done|]. rewrite andb_true_iff, negb_true_iff, forallb_elem. intros [Hk Hf].
  split; [rewrite <- json_contains_key; congruence|]. intros k [s o] Hin. exact (Hf _ Hin).
Qed.

(** A typed direction that cannot name an entity: a value it accepts holds no EntityRef envelope, nor
    anything that a reviver could take for one. *)
Lemma schema_ref_free_sound s av d v :
  well_formed s av d = true -> entity_ref_free s = true -> distinct_keys v = true -> accepts s v = true ->
  mentions_ref v = false.
Proof.
  revert av d v. induction s as [| | | | | |lit|item IH|fields IH|variants IH] using Schema_nested_ind; intros av d v Hwf Hfree Hdk Hacc.
  1-6: by destruct v.
  - cbn [well_formed] in Hwf. destruct (64 <? d)%nat; [done|]. cbn [accepts] in Hacc.
    apply orb_true_iff in Hacc as [Hacc|Hacc]; [by eapply schema_eqb_scalar|by destruct v].
  - cbn [well_formed] in Hwf. destruct (64 <? d)%nat; [done|]. apply schema_array_accepts in Hacc as (l & -> & Hl).
    cbn [mentions_ref distinct_keys] in *. rewrite forallb_elem in Hdk. apply existsb_none. eauto.
  - apply schema_wf_object in Hwf as [Hno Hwf]. apply schema_object_accepts in Hacc as (o & -> & Hk & Hf).
    cbn [mentions_ref distinct_keys entity_ref_free] in *. rewrite forallb_elem in Hfree.
    apply andb_true_iff in Hdk as [Hnd Hdk]. apply bool_decide_eq_true in Hnd. rewrite forallb_elem in Hdk.
    apply orb_false_iff. split.
    + apply not_true_iff_false. intros Hc%json_contains_key. by apply Hno, Hk.
    + apply existsb_none. intros [k w] Hin. assert (k ∈ fields.*1) as ([k' f] & -> & Hkf)%list_elem_of_fmap.
      { apply Hk, list_elem_of_fmap. by exists (k, w). }
      pose proof (Hf _ _ Hkf) as Hw. cbn [fst] in *. rewrite (json_get_NoDup o _ w Hnd Hin) in Hw. rewrite Forall_forall in IH.
      specialize (Hfree _ Hkf). destruct f as [s opt]. eapply (IH _ Hkf); [exact (Hwf _ _ Hkf)|done|exact (Hdk _ Hin)|done].
  - cbn [well_formed accepts entity_ref_free] in *. destruct (64 <? d)%nat; [done|]. apply andb_true_iff in Hwf as [_ Hwf].
    rewrite forallb_elem in Hwf, Hfree. apply existsb_elem in Hacc as (s & Hs & Hacc). rewrite Forall_forall in IH. eauto.
Qed.

(** ** Argument lists *)
Lemma schema_positions fs a :
  accepts_positions fs a = true <->
  forall i f, fs !! i = Some f -> match a !! i with Some v => accepts (schema f) v = true | None => optional f = true end.
Proof.
  revert a. induction fs as [|f fs IH]; intros a; cbn [accepts_positions]; [split; [by intros _ [] ? ?|done]|].
  destruct a as [|v a]; rewrite andb_true_iff, IH; split.
  - intros [Ho Hf] [|i] g Hi; simplify_eq/=; [done|]. exact (Hf i g Hi).
  - intros Hf. split; [exact (Hf 0%nat f eq_refl)|]. intros i g Hi. exact (Hf (S i) g Hi).
  - intros [Ho Hf] [|i] g Hi; simplify_eq/=; [done|]. exact (Hf i g Hi).
  - intros Hf. split; [exact (Hf 0%nat f eq_refl)|]. intros i g Hi. exact (Hf (S i) g Hi).
Qed.

(** A call's arguments are accepted exactly when each is of its parameter's schema, none is left over,
    and what is missing at the end is optional. *)
Theorem schema_args_exact m v :
  accepts_args m v = true <->
  exists a, v = Array a /\ (length a <= length (args m))%nat /\
    forall i f, args m !! i = Some f -> match a !! i with Some w => accepts (schema f) w = true | None => optional f = true end.
Proof.
  unfold accepts_args. destruct v as [| | | |a|]; try (split; [done|by intros (? & ? & _)]). cbn [as_array].
  rewrite andb_true_iff, Nat.leb_le, schema_positions. split; [eauto|by intros (? & [= <-] & ?)].
Qed.

(** ** Responses *)
Lemma schema_response_patch f v r patch :
  response f v = Some (r, Some patch) ->
  kind f = "transform" /\ r = Changed /\
  exists fields keys, payload f = SObject fields /\ writable f = Some keys /\
    forall k w, (k, w) ∈ patch -> k ∈ keys /\ exists fld, get fields k = Some fld /\ accepts (schema fld) w = true.
Proof.
  unfold response. destruct (String.eqb_spec (kind f) "hook") as [_|_]; [by destruct (action v)|].
  destruct (String.eqb_spec (kind f) "transform") as [->|]; [|done]. cbn [negb].
  destruct (as_object v) as [o|]; [|done]. cbn [mbind option_bind]. destruct (existsb _ o); [done|].
  destruct (get o "result") as [r0|]; [|done]. cbn [mbind option_bind]. destruct (action r0) as [a|]; [|done]. cbn [mbind option_bind].
  destruct (get o "patch") as [pv|]; [|done]. case_bool_decide as Ha; [|done]. cbn [negb]. subst a.
  destruct (as_object pv) as [p|]; [|done]. cbn [mbind option_bind]. destruct (payload f) as [| | | | | | | |fields|]; try done.
  destruct (writable f) as [keys|]; [|done]. cbn [mbind option_bind]. destruct (forallb _ p) eqn:Hall; [|done].
  intros [= <- <-]. split_and!; [done..|]. exists fields, keys. split_and!; [done..|]. rewrite forallb_elem in Hall.
  intros k w Hin. specialize (Hall _ Hin). cbn in Hall. apply andb_true_iff in Hall as [Hk Hw].
  apply bool_decide_eq_true in Hk. destruct (get fields k) eqn:E; [|done]. eauto.
Qed.

(** An accepted patch keeps the payload of its forward: what it is merged into is accepted again, and
    only writable keys change. *)
Theorem schema_patch_typed f v r patch fields o :
  response f v = Some (r, Some patch) -> payload f = SObject fields -> NoDup fields.*1 -> NoDup patch.*1 ->
  accepts (payload f) (Object o) = true ->
  accepts (payload f) (Object (extend o patch)) = true /\
  forall k, get (extend o patch) k = get o k \/ exists keys, writable f = Some keys /\ k ∈ keys.
Proof.
  intros (Hkind & -> & fields' & keys & Hp & Hwr & Hpatch)%schema_response_patch Hpf Hnf Hnp Hacc.
  rewrite Hpf in *. injection Hp as <-. apply schema_object_accepts in Hacc as (o' & [= <-] & Hk & Hf). split.
  - apply schema_object_accepts. exists (extend o patch). split_and!; [done| |].
    + intros k [Hin|Hin]%json_keys_extend; [|by apply Hk|done]. apply list_elem_of_fmap in Hin as ([k' w] & -> & Hin).
      destruct (Hpatch _ _ Hin) as (_ & fld & Hget & _). apply json_get_In in Hget. apply list_elem_of_fmap. by exists (k', fld).
    + intros k fld Hin. rewrite json_get_extend by done. destruct (get patch k) as [w|] eqn:E; [|by apply Hf].
      apply json_get_In in E. destruct (Hpatch _ _ E) as (_ & fld' & Hget & Hw).
      rewrite (json_get_NoDup fields k fld Hnf Hin) in Hget. by simplify_eq.
  - intros k. rewrite json_get_extend by done. destruct (get patch k) as [w|] eqn:E; [|by left]. right. exists keys.
    split; [done|]. apply json_get_In in E. by destruct (Hpatch _ _ E).
Qed.
End Schema.
Arguments Schema : clear implicits.
Arguments Method : clear implicits.
Arguments Forward : clear implicits.
End Schema.

(** * Contracts and manifests *)
Module Contract.
Import Schema.
Section Contract.
Context {num : Type} `{JsonNumber num}.

Record Metadata := mkMetadata {
  m_version : Z;
  methods : list (string * Method num);
  forwards : list (string * Forward num);
}.

Record Contract := mkContract { metadata : Metadata; sha256 : string }.

Record PublishDecl := mkPublish { contract : option Contract; p_version : string; types_sha256 : string }.

(** The fields of a manifest that the core reads, less its configuration block. *)
Record Manifest := mkManifest {
  interface_protocol : Z;
  interface_contracts : gmap string Contract;
  id : string;
  version : string;
  api_version : string;
  plugin_dependencies : gmap string string;
  optional_plugin_dependencies : gmap string string;
  extensions : gmap string string;
  publishes : gmap string PublishDecl;
  compiled_against : gmap string string;
  permissions : list string;
  gamedata : option string;
  engine_functions : option (Value num);
}.

Inductive ContractError :=
| UnsupportedProtocol
| MetadataRequiresProtocol2
| RequiresHostApi3
| RequiresTypesSha256 (name : string)
| MissingMetadata (name : string)
| UnsupportedMetadata
| NotCanonical
| DigestMismatch
| RequiresCompiledAgainst (name : string)
| MissingVerifiedMetadata (name : string)
| UndeclaredDependency.

(** [serde_json_canonicalizer::to_vec] and the hexadecimal SHA-256. *)
Variable to_vec : Metadata -> option string.
Variable sha256_hex : string -> string.

Definition metadata_well_formed (m : Metadata) : bool :=
  (m_version m =? 1)
  && forallb (fun kv => forallb (fun a => well_formed (schema a) false 0) (args kv.2) && well_formed (result kv.2) true 0) (methods m)
  && forallb (fun kv => forward_well_formed kv.2) (forwards m).

(** [None] is [Ok(())]. *)
Definition contract_validate (c : Contract) : option ContractError :=
  let m := metadata c in
  if negb (metadata_well_formed m) then Some UnsupportedMetadata
  else
    match to_vec m with
    | None => Some NotCanonical
    | Some bytes => if negb (String.eqb (sha256_hex bytes) (sha256 c)) then Some DigestMismatch else None
    end.

Definition hex_digit (c : Ascii.ascii) : bool :=
  let n := Ascii.nat_of_ascii c in ((48 <=? n) && (n <=? 57) || ((97 <=? n) && (n <=? 102)))%nat.
Definition valid_hash (value : string) : bool :=
  (String.length value =? 64)%nat && forallb hex_digit (String.list_ascii_of_string value).

Fixpoint check_publishes (l : list (string * PublishDecl)) : option ContractError :=
  match l with
  | [] => None
  | (name, p) :: l =>
      if negb (valid_hash (types_sha256 p)) then Some (RequiresTypesSha256 name)
      else
        match contract p with
        | None => Some (MissingMetadata name)
        | Some c => match contract_validate c with Some e => Some e | None => check_publishes l end
        end
  end.

Fixpoint check_dependencies (m : Manifest) (names : list string) : option ContractError :=
  match names with
  | [] => None
  | name :: names =>
      if negb (match compiled_against m !! name with Some h => valid_hash h | None => false end)
      then Some (RequiresCompiledAgainst name)
      else
        match interface_contracts m !! name with
        | None => Some (MissingVerifiedMetadata name)
        | Some c => match contract_validate c with Some e => Some e | None => check_dependencies m names end
        end
  end.

Definition is_some {A} (o : option A) : bool := match o with Some _ => true | None => false end.

Definition validate_manifest (m : Manifest) : option ContractError :=
  if negb (interface_protocol m =? 1) && negb (interface_protocol m =? 2) then Some UnsupportedProtocol
  else if interface_protocol m =? 1 then
    if negb (bool_decide (interface_contracts m = ∅)) || existsb (fun kv => is_some (contract kv.2)) (map_to_list (publishes m))
    then Some MetadataRequiresProtocol2
    else None
  else if negb (String.prefix "3." (api_version m)) then Some RequiresHostApi3
  else
    match check_publishes (map_to_list (publishes m)) with
    | Some e => Some e
    | None =>
        match check_dependencies m ((map_to_list (plugin_dependencies m)).*1 ++ (map_to_list (optional_plugin_dependencies m)).*1) with
        | Some e => Some e
        | None =>
            if existsb (fun kv => negb (is_some (plugin_dependencies m !! kv.1)) && negb (is_some (optional_plugin_dependencies m !! kv.1)))
                       (map_to_list (interface_contracts m))
            then Some UndeclaredDependency
            else None
        end
    end.

(** What the drift gate reads of a manifest. *)
Definition gate_view (m : Manifest) : Contracts.Manifest :=
  Contracts.mkManifest (id m) (api_version m) (plugin_dependencies m) (optional_plugin_dependencies m)
    (types_sha256 <$> publishes m) (compiled_against m).

Definition publish_ok (p : PublishDecl) : Prop :=
  valid_hash (types_sha256 p) = true /\ exists c, contract p = Some c /\ contract_validate c = None.

Definition dependency_ok (m : Manifest) (name : string) : Prop :=
  (exists h, compiled_against m !! name = Some h /\ valid_hash h = true) /\
  exists c, interface_contracts m !! name = Some c /\ contract_validate c = None.

Definition declared (m : Manifest) (name : string) : Prop :=
  is_Some (plugin_dependencies m !! name) \/ is_Some (optional_plugin_dependencies m !! name).

Lemma interop_check_publishes l : check_publishes l = None <-> forall name p, (name, p) ∈ l -> publish_ok p.
Proof.
  induction l as [|[name p] l IH]; cbn [check_publishes]; [split; [by intros _ ? ? ?%elem_of_nil|done]|].
  assert (Hcons : (forall n q, (n, q) ∈ (name, p) :: l -> publish_ok q) <-> publish_ok p /\ forall n q, (n, q) ∈ l -> publish_ok q).
  { split; [intros Hall; split; [eapply Hall; left|intros n q Hin; eapply Hall; by right]|].
    intros [Hp Hl] n q [[= -> ->]|Hin]%elem_of_cons; [done|by eapply Hl]. }
  rewrite Hcons. clear Hcons. unfold publish_ok at 1. destruct (valid_hash _); cbn [negb]; [|split; [done|by intros [[? _] _]]].
  destruct (contract p) as [c|]; [|split; [done|by intros [[_ (? & ? & _)] _]]].
  destruct (contract_validate c) eqn:E; [split; [done|by intros [[_ (? & [= <-] & ?)] _]; congruence]|].
  rewrite IH. split; [intros Hl; split; [eauto|done]|by intros [_ ?]].
Qed.

Lemma interop_check_dependencies m l : check_dependencies m l = None <-> forall name, name ∈ l -> dependency_ok m name.
Proof.
  induction l as [|name l IH]; cbn [check_dependencies]; [split; [by intros _ ? ?%elem_of_nil|done]|].
  setoid_rewrite elem_of_cons. assert (Hcons : (forall n, n = name \/ n ∈ l -> dependency_ok m n) <-> dependency_ok m name /\ forall n, n ∈ l -> dependency_ok m n).
  { split; [intros Hall; auto|]. intros [Hn Hl] n [->|Hin]; auto. }
  rewrite Hcons. clear Hcons. unfold dependency_ok at 1. destruct (compiled_against m !! name) as [h|]; cbn [negb]; [|split; [done|by intros [[(? & ? & _) _] _]]].
  destruct (valid_hash h) eqn:Eh; cbn [negb]; [|split; [done|by intros [[(? & [= <-] & ?) _] _]; congruence]].
  destruct (interface_contracts m !! name) as [c|]; [|split; [done|by intros [[_ (? & ? & _)] _]]].
  destruct (contract_validate c) eqn:E; [split; [done|by intros [[_ (? & [= <-] & ?)] _]; congruence]|].
  rewrite IH. split; [intros Hl; split; [eauto 10|done]|by intros [_ ?]].
Qed.

Lemma interop_elem_keys {A} (m : gmap string A) (k : string) : k ∈ (map_to_list m).*1 <-> is_Some (m !! k).
Proof.
  rewrite list_elem_of_fmap. split.
  - intros ([k' a] & -> & Hin). apply elem_of_map_to_list in Hin. eauto.
  - intros [a Ha]. exists (k, a). split; [done|]. by apply elem_of_map_to_list.
Qed.

Lemma interop_undeclared m :
  existsb (fun kv => negb (is_some (plugin_dependencies m !! kv.1)) && negb (is_some (optional_plugin_dependencies m !! kv.1)))
    (map_to_list (interface_contracts m)) = false <->
  forall name, is_Some (interface_contracts m !! name) -> declared m name.
Proof.
  rewrite existsb_none. unfold declared, is_some. split.
  - intros Hall name [c Hc]. specialize (Hall (name, c)). rewrite elem_of_map_to_list in Hall. specialize (Hall Hc). cbn in Hall.
    destruct (plugin_dependencies m !! name), (optional_plugin_dependencies m !! name); naive_solver.
  - intros Hall [name c] Hin%elem_of_map_to_list. cbn. destruct (Hall name ltac:(eauto)) as [[? ->]|[? ->]]; [done|].
    by destruct (plugin_dependencies m !! name).
Qed.

(** The schemas of a valid contract are well formed. *)
Lemma interop_contract_method c name m :
  contract_validate c = None -> get (methods (metadata c)) name = Some m ->
  (forall f, f ∈ args m -> well_formed (schema f) false 0 = true) /\ well_formed (result m) true 0 = true.
Proof.
  unfold contract_validate, metadata_well_formed. destruct (_ && _) eqn:E; [|done]. intros _ Hget%json_get_In.
  apply andb_true_iff in E as [E _]. apply andb_true_iff in E as [_ E]. rewrite forallb_elem in E. specialize (E _ Hget). cbn in E.
  apply andb_true_iff in E as [Ha Hr]. by rewrite forallb_elem in Ha.
Qed.

Lemma interop_contract_forward c name f :
  contract_validate c = None -> get (forwards (metadata c)) name = Some f -> forward_well_formed f = true.
Proof.
  unfold contract_validate, metadata_well_formed. destruct (_ && _) eqn:E; [|done]. intros _ Hget%json_get_In.
  apply andb_true_iff in E as [_ E]. rewrite forallb_elem in E. exact (E _ Hget).
Qed.

(** A manifest is accepted exactly when it is of protocol 1 and carries no contract, or is of protocol 2
    for host API 3, with a verified contract and well-formed hashes for each interface it publishes or
    imports and for nothing else. *)
Theorem manifest_validated_exact m :
  validate_manifest m = None <->
  (interface_protocol m = 1 /\ interface_contracts m = ∅ /\
     forall name p, publishes m !! name = Some p -> contract p = None) \/
  (interface_protocol m = 2 /\ String.prefix "3." (api_version m) = true /\
     (forall name p, publishes m !! name = Some p -> publish_ok p) /\
     (forall name, declared m name -> dependency_ok m name) /\
     forall name, is_Some (interface_contracts m !! name) -> declared m name).
Proof.
  unfold validate_manifest. destruct (Z.eqb_spec (interface_protocol m) 1) as [H1|H1]; cbn [negb andb].
  { case_bool_decide as Hc; cbn [negb orb]; [|split; [done|intros [(_ & ? & _)|(? & _)]; [done|lia]]].
    destruct (existsb _ _) eqn:E.
    - apply existsb_elem in E as ([name p] & Hin%elem_of_map_to_list & Hp). split; [done|].
      intros [(_ & _ & Hno)|(? & _)]; [|lia]. cbn in Hp. by rewrite (Hno _ _ Hin) in Hp.
    - rewrite existsb_none in E. split; [|done]. intros _. left. split_and!; [done..|]. intros name p Hp.
      specialize (E (name, p)). rewrite elem_of_map_to_list in E. specialize (E Hp). cbn in E. by destruct (contract p). }
  destruct (Z.eqb_spec (interface_protocol m) 2) as [H2|H2]; cbn [negb]; [|split; [done|intros [(? & _)|(? & _)]; lia]].
  transitivity (String.prefix "3." (api_version m) = true /\
     (forall name p, publishes m !! name = Some p -> publish_ok p) /\
     (forall name, declared m name -> dependency_ok m name) /\
     forall name, is_Some (interface_contracts m !! name) -> declared m name); [|split; [by right|intros [(? & _)|(_ & ?)]; [lia|done]]].
  destruct (String.prefix _ _); cbn [negb]; [|split; [done|by intros [? _]]].
  pose proof (interop_check_publishes (map_to_list (publishes m))) as HP. setoid_rewrite elem_of_map_to_list in HP.
  destruct (check_publishes _); [split; [done|intros (_ & Hp & _); by apply HP in Hp]|].
  pose proof (interop_check_dependencies m ((map_to_list (plugin_dependencies m)).*1 ++ (map_to_list (optional_plugin_dependencies m)).*1)) as HD.
  setoid_rewrite elem_of_app in HD. setoid_rewrite interop_elem_keys in HD. fold (declared m) in HD.
  destruct (check_dependencies _ _); [split; [done|intros (_ & _ & Hd & _); by apply HD in Hd]|].
  rewrite <- interop_undeclared. destruct (existsb _ _); [split; [done|by intros (_ & _ & _ & ?)]|].
  split; [intros _; split_and!; [done|by apply HP|by apply HD|done]|done].
Qed.
End Contract.
Arguments Contract : clear implicits.
Arguments Manifest : clear implicits.
Arguments PublishDecl : clear implicits.
Arguments Metadata : clear implicits.
End Contract.
