(* ===== verification/InteropCalls.v ===== *)
(** Calls and events across plugin interfaces (core/src/v8host.rs, [s2_iface_call] and
    [s2_iface_forward]; core/src/v8host/interop_wire.rs). The JavaScript facades through which plugins of
    the current protocol call a producer directly (core/src/v8host/interop_facade.rs) are not modelled: the
    theorems are about what goes through the natives.

    The natives run on the game thread inside V8 and re-enter it: everything they read of the host may
    change while JavaScript runs. A [World] is the host's tables with an abstract JavaScript state;
    each call into V8 is an arbitrary function of the world. What crosses from one plugin to another is
    returned as a log next to the reply. *)
From S2P Require Import Prelude.
From S2P Require Import Json.
From S2P Require Import Multiplexer.
From S2P Require Import Plugin.
From S2P Require Import Interfaces.
From S2P Require Import Interop.
From stdpp Require Import pretty.
#[local] Open Scope Z_scope.
Import Json.
Import Multiplexer.
Import Schema.
Import Contract.

Module InteropCalls.
Section InteropCalls.
Context {num : Type} `{JsonNumber num}.
(** JavaScript's own state, values, functions and contexts. *)
Context {J V Fn Ctx : Type}.

(** The thread-locals the natives read: IFACES, REGISTRY, PLUGIN_PUBLISHES, PLUGIN_INTEROP, IFACE_SUBS,
    IFACE_METHODS, the contexts of PLUGINS, and the depth counter. *)
Record Host := mkHost {
  ifaces : Interfaces.InterfaceRegistry;
  registry : Registry.Registry;
  plugin_publishes : gmap string (gmap string (PublishDecl num));
  plugin_interop : gmap string (gmap string (Contract num));
  iface_subs : gmap Z Fn;
  iface_methods : gmap (string * string) Fn;
  contexts : gmap string Ctx;
  depth : Z;
}.
Record World := mkWorld { host : Host; js : J }.

Definition set_depth (n : Z) (w : World) : World :=
  let h := host w in
  mkWorld (mkHost (ifaces h) (registry h) (plugin_publishes h) (plugin_interop h) (iface_subs h) (iface_methods h) (contexts h) n) (js w).

Definition is_live (w : World) (id : string) (gen : Z) : bool := Registry.is_live (registry (host w)) id gen.
Definition producer_of (w : World) (name : string) : option (string * Z) := Interfaces.producer_of (ifaces (host w)) name.

(** ** The two guards *)

(** [InteropGuard::enter] and its [Drop]. *)
Definition enter (w : World) : option World :=
  if 32 <=? depth (host w) then None else Some (set_depth (depth (host w) + 1) w).
Definition leave (w : World) : World := set_depth (sat_sub (depth (host w)) 1) w.

Definition published_contract (w : World) (name : string) : option (Contract num) :=
  p ← producer_of w name;
  decls ← plugin_publishes (host w) !! p.1;
  decl ← decls !! name;
  contract decl.

Definition checked_contract (w : World) (consumer name : string) : option (Contract num) + string :=
  let actual := published_contract w name in
  let expected := m ← plugin_interop (host w) !! consumer; m !! name in
  if is_some actual || is_some expected then
    let live := match producer_of w name with Some (owner, generation) => is_live w owner generation | None => false end in
    if negb live then inr "InterfaceUnavailable"
    else
      match actual, expected with
      | Some a, Some e =>
          if negb (String.eqb (sha256 a) (sha256 e)) || negb (Interfaces.verified_import (ifaces (host w)) consumer name)
          then inr "InterfaceTypesMismatch"
          else inl (Some a)
      | _, _ => inr "InterfaceTypesMismatch"
      end
  else inl None.

(** ** Calls into V8 *)

Inductive Payload := PJson (json : string) | PPlain (value : Value num).

Record V8 := mkV8 {
  (* serde_json::to_string, serde_json::from_str *)
  to_string : Value num -> option string;
  from_str : string -> option (Value num);
  (* copies a value without running JavaScript *)
  strict_value : World -> V -> option (Value num);
  (* JSON.stringify of the current context; JSON.parse of the given one, [None] for the current *)
  iface_to_json : World -> V -> World * option string;
  iface_from_json : World -> option Ctx -> string -> World * option V;
  plain_value_to_v8 : World -> option Ctx -> Value num -> option V;
  (* the elements of an array *)
  spread : V -> option (list V);
  call : World -> Ctx -> Fn -> list V -> World * (V + string);
  observe_thenable : World -> V -> World * bool;
  is_undefined : V -> bool;
  (* the generation a context was created for *)
  slot_of : Ctx -> option Z;
  (* the integers the natives return *)
  of_result : HookResult -> V;
}.
Variable v8 : V8.

Definition strict_json (w : World) (v : V) : option (string * Value num) :=
  value ← strict_value v8 w v;
  text ← to_string v8 value;
  Some (text, value).

Definition method_from_payload (w : World) (ctx : option Ctx) (p : Payload) : World * option V :=
  match p with
  | PJson json => iface_from_json v8 w ctx json
  | PPlain value => (w, plain_value_to_v8 v8 w ctx value)
  end.

Inductive Reply := Thrown (name detail : string) | Returned (v : option V).

(** What crossed: the arguments of a call, its result, a payload given to a subscriber. *)
Inductive Crossing := ToProducer (p : Payload) | ToConsumer (p : Payload) | ToSubscriber (sub_id : Z) (json : string).

(** The calling native's plugin and the generation slot of its context. *)
Record Caller := mkCaller { current_plugin : option string; generation_slot : option Z }.

Definition live_interop_context (w : World) (slot : option Z) (id : string) : bool :=
  match slot with Some g => is_live w id g | None => false end.

(** ** [s2_iface_call] *)

Inductive Outcome := Ok_ (p : Payload) | Void | Threw (msg : string) | NotSerializable | Internal.

(** Copy a value out against a schema: as a plain value when the schema names no entity. *)
Definition marshal (ref_free : bool) (ok : Value num -> bool) (w : World) (v : V) : option Payload :=
  if ref_free then value ← strict_value v8 w v; if ok value then Some (PPlain value) else None
  else tv ← strict_json w v; if ok tv.2 then Some (PJson tv.1) else None.

Definition args_payload (w : World) (m : option (Method num)) (argv : V) : World * option Payload :=
  match m with
  | Some schema => (w, marshal (forallb (fun f => entity_ref_free (Schema.schema f)) (args schema)) (accepts_args schema) w argv)
  | None => let '(w, t) := iface_to_json v8 w argv in (w, PJson <$> t)
  end.

Definition is_void (s : Schema num) : bool := match s with SVoid => true | _ => false end.

(** What the producer's return value becomes. *)
Definition read_return (w : World) (m : option (Method num)) (ret : V) : World * Outcome :=
  match m with
  | Some schema =>
      let '(w, thenable) := observe_thenable v8 w ret in
      if thenable then (w, NotSerializable)
      else if is_undefined v8 ret then (w, if is_void (result schema) then Void else NotSerializable)
      else
        match marshal (entity_ref_free (result schema)) (accepts (result schema)) w ret with
        | Some p => (w, Ok_ p)
        | None => (w, NotSerializable)
        end
  | None =>
      if is_undefined v8 ret then (w, Void)
      else
        let '(w, t) := iface_to_json v8 w ret in
        (w, match t with Some json => Ok_ (PJson json) | None => NotSerializable end)
  end.

(** Enter the producer's context, spread the arguments, call the method. *)
Definition run_method (w : World) (ctx : Ctx) (f : Fn) (m : option (Method num)) (p : Payload) : World * Outcome :=
  let '(w, argsv) := method_from_payload w (Some ctx) p in
  match argsv ≫= spread v8 with
  | None => (w, Internal)
  | Some argv =>
      let '(w, r) := call v8 w ctx f argv in
      match r with
      | inr msg => (w, Threw msg)
      | inl ret => read_return w m ret
      end
  end.

Definition reply_of (w : World) (name method : string) (o : Outcome) : World * Reply * list Crossing :=
  match o with
  | Ok_ p =>
      let '(w, v) := method_from_payload w None p in
      match v with
      | Some v => (w, Returned (Some v), [ToConsumer p])
      | None => (w, Thrown "InterfaceValueNotSerializable" (name +:+ "." +:+ method +:+ " return"), [])
      end
  | Void => (w, Returned None, [])
  | NotSerializable => (w, Thrown "InterfaceValueNotSerializable" (name +:+ "." +:+ method +:+ " return"), [])
  | Threw msg => (w, Thrown "InterfaceCallError" (name +:+ "." +:+ method +:+ ": " +:+ msg), [])
  | Internal => (w, Thrown "InterfaceUnavailable" name, [])
  end.

(** The body, with the contract resolved and the depth guard held. *)
Definition call_body (c : Caller) (consumer name method : string) (argv : V) (contract : option (Contract num)) (w : World)
    : World * Reply * list Crossing :=
  let typed := is_some contract in
  if typed && negb (live_interop_context w (generation_slot c) consumer) then (w, Thrown "InterfaceUnavailable" consumer, [])
  else
    let method_schema := c ← contract; get (methods (metadata c)) method in
    if typed && negb (is_some method_schema) then (w, Thrown "InterfaceUnknownMethod" method, [])
    else if (match producer_of w name with Some (p, g) => negb (is_live w p g) | None => false end)
    then (w, Thrown "InterfaceUnavailable" name, [])
    else
      let '(w, payload) := args_payload w method_schema argv in
      match payload with
      | None => (w, Thrown "InterfaceValueNotSerializable" (name +:+ "." +:+ method +:+ " args"), [])
      | Some payload =>
          match producer_of w name with
          | None => (w, Thrown "InterfaceUnavailable" name, [])
          | Some (producer_id, producer_generation) =>
              match iface_methods (host w) !! (name, method), contexts (host w) !! producer_id with
              | Some f, Some ctx =>
                  let '(w, outcome) := run_method w ctx f method_schema payload in
                  if typed
                     && (negb (live_interop_context w (generation_slot c) consumer)
                         || negb (is_live w producer_id producer_generation)
                         || negb (bool_decide (producer_of w name = Some (producer_id, producer_generation))))
                  then (w, Thrown "InterfaceUnavailable" name, [ToProducer payload])
                  else
                    let '(w, reply, crossed) := reply_of w name method outcome in
                    (w, reply, ToProducer payload :: crossed)
              | _, _ => (w, Thrown "InterfaceUnavailable" name, [])
              end
          end
      end.

(** The guard is entered for typed interfaces only. *)
Definition guarded (typed : bool) (w : World) (body : World -> World * Reply * list Crossing) : World * Reply * list Crossing :=
  if typed then
    match enter w with
    | None => (w, Thrown "InterfaceRecursionLimit" "maximum 32 active calls", [])
    | Some w' => let '(w'', reply, crossed) := body w' in (leave w'', reply, crossed)
    end
  else body w.

Definition iface_call (c : Caller) (name method : string) (argv : V) (w : World) : World * Reply * list Crossing :=
  match current_plugin c with
  | None => (w, Thrown "InterfaceUnavailable" name, [])
  | Some consumer =>
      match Interfaces.call_target (ifaces (host w)) consumer name method with
      | Interfaces.Unavailable => (w, Thrown "InterfaceUnavailable" name, [])
      | Interfaces.VersionMismatch => (w, Thrown "InterfaceVersionMismatch" name, [])
      | Interfaces.TypesMismatch => (w, Thrown "InterfaceTypesMismatch" name, [])
      | Interfaces.Ok_ =>
          match checked_contract w consumer name with
          | inr e => (w, Thrown e name, [])
          | inl contract => guarded (is_some contract) w (call_body c consumer name method argv contract)
          end
      end
  end.

(** ** [s2_iface_forward] *)

Record LoopState := mkLoop { lw : World; payload_json : string; collapsed : HookResult; crossed : list Crossing }.

(** A subscriber's response to a decision: its action and the payload that replaces the current one. *)
Definition validate_response (f : option (Forward num)) (w : World) (payload_json : string) (result : V)
    : option (HookResult * option string) :=
  tv ← strict_json w result;
  f ← f;
  ap ← response f tv.2;
  match ap.2 with
  | None => Some (ap.1, None)
  | Some patch =>
      current ← from_str v8 payload_json;
      o ← as_object current;
      let merged := Object (extend o patch) in
      if negb (accepts (payload f) merged) then None
      else text ← to_string v8 merged; Some (ap.1, Some text)
  end.

(** One subscriber: the state afterwards, and whether the loop goes on. *)
Definition forward_one (name event : string) (contract : option (Contract num)) (f : option (Forward num)) (decision : bool)
    (published : option (string * Z)) (s : LoopState) (sub_id : Z) : LoopState * bool :=
  let typed := is_some contract in
  let w := lw s in
  if typed && negb (bool_decide (producer_of w name = published)) then (s, false)
  else if negb (bool_decide (sub_id ∈ Interfaces.live_subscriber_ids (ifaces (host w)) name event (is_live w))) then (s, true)
  else
    match iface_subs (host w) !! sub_id, Interfaces.consumer_of_sub (ifaces (host w)) name sub_id with
    | Some handler, Some consumer =>
        if typed && (match checked_contract w consumer name with inr _ => true | inl _ => false end) then (s, true)
        else
          match contexts (host w) !! consumer with
          | None => (s, true)
          | Some ctx =>
              let '(w, value) := iface_from_json v8 w (Some ctx) (payload_json s) in
              match value with
              | None => (mkLoop w (payload_json s) (collapsed s) (crossed s), true)
              | Some value =>
                  let '(w, r) := call v8 w ctx handler [value] in
                  let s := mkLoop w (payload_json s) (collapsed s) (crossed s ++ [ToSubscriber sub_id (payload_json s)]) in
                  match r with
                  | inr _ => (s, true)
                  | inl result =>
                      let '(w, thenable) := if typed then observe_thenable v8 w result else (w, false) in
                      let s := mkLoop w (payload_json s) (collapsed s) (crossed s) in
                      if thenable then (s, true)
                      else if decision && negb (live_interop_context w (slot_of v8 ctx) consumer) then (s, true)
                      else if decision then
                        match validate_response f w (payload_json s) result with
                        | None => (s, true)
                        | Some (act, updated) =>
                            (mkLoop w (default (payload_json s) updated)
                                    (if result_gt act (collapsed s) then act else collapsed s) (crossed s),
                             negb (bool_decide (act = HStop)))
                        end
                      else (s, true)
                  end
              end
          end
    | _, _ => (s, true)
    end.

Fixpoint forward_loop (step : LoopState -> Z -> LoopState * bool) (s : LoopState) (ids : list Z) : LoopState :=
  match ids with
  | [] => s
  | id :: ids => let '(s, more) := step s id in if more then forward_loop step s ids else s
  end.

Definition result_json (r : HookResult) (payload_json : string) : string :=
  "{" +:+ String (Ascii.ascii_of_nat 34) "result" +:+ String (Ascii.ascii_of_nat 34) ":" +:+ pretty.pretty (result_rank r)
  +:+ "," +:+ String (Ascii.ascii_of_nat 34) "payload" +:+ String (Ascii.ascii_of_nat 34) ":" +:+ payload_json +:+ "}".

(** The reply of a decision, once every subscriber ran. *)
Definition finish_forward (name : string) (f : option (Forward num)) (decision : bool) (published : option (string * Z)) (s : LoopState)
    : World * Reply * list Crossing :=
  let w := lw s in
  if decision then
    if negb (bool_decide (producer_of w name = published))
       || negb (match published with Some (id, g) => is_live w id g | None => false end)
    then (w, Thrown "InterfaceUnavailable" name, crossed s)
    else if (match f with Some f => String.eqb (kind f) "hook" | None => false end)
    then (w, Returned (Some (of_result v8 (collapsed s))), crossed s)
    else
      let '(w, v) := iface_from_json v8 w None (result_json (collapsed s) (payload_json s)) in
      (w, Returned v, crossed s)
  else (w, Returned None, crossed s).

Definition forward_payload (f : option (Forward num)) (w : World) (v : V) : World * option string :=
  match f with
  | Some f => (w, tv ← strict_json w v; if accepts (payload f) tv.2 then Some tv.1 else None)
  | None => iface_to_json v8 w v
  end.

Definition forward_body (c : Caller) (name event : string) (argument : V) (decision : bool)
    (contract : option (Contract num)) (published : option (string * Z)) (w : World) : World * Reply * list Crossing :=
  let typed := is_some contract in
  let owned := match producer_of w name with
               | Some (id, g) => bool_decide (Some id = current_plugin c) && is_live w id g
               | None => false end in
  if typed && negb owned then (w, Thrown "InterfaceProviderMismatch" name, [])
  else
    let f := c ← contract; get (forwards (metadata c)) event in
    if typed && negb (is_some f) then (w, Thrown "InterfaceUnknownForward" event, [])
    else if (match f with Some f => Bool.eqb decision (String.eqb (kind f) "notification") | None => false end)
    then (w, Thrown "InterfaceForwardKindMismatch" (name +:+ "." +:+ event), [])
    else
      let '(w, text) := forward_payload f w argument in
      match text with
      | None => if typed then (w, Thrown "InterfaceValueNotSerializable" (name +:+ "." +:+ event +:+ " payload"), [])
                else (w, Returned None, [])
      | Some text =>
          let ids := Interfaces.live_subscriber_ids (ifaces (host w)) name event (is_live w) in
          let s := forward_loop (forward_one name event contract f decision published) (mkLoop w text Continue []) ids in
          finish_forward name f decision published s
      end.

Definition iface_forward (c : Caller) (name event : string) (argument : V) (decision : bool) (w : World)
    : World * Reply * list Crossing :=
  match current_plugin c with
  | Some owner =>
      if negb (live_interop_context w (generation_slot c) owner) then (w, Thrown "InterfaceUnavailable" owner, [])
      else
        let contract := published_contract w name in
        if decision && negb (is_some contract) then (w, Thrown "InterfaceContractError" "dispatch requires a protocol 2 provider", [])
        else guarded (is_some contract) w (forward_body c name event argument decision contract (producer_of w name))
  | None =>
      let contract := published_contract w name in
      if decision && negb (is_some contract) then (w, Thrown "InterfaceContractError" "dispatch requires a protocol 2 provider", [])
      else guarded (is_some contract) w (forward_body c name event argument decision contract (producer_of w name))
  end.

(** ** What may cross *)

Definition payload_ok (ok : Value num -> bool) (p : Payload) : Prop :=
  match p with
  | PPlain v => ok v = true
  | PJson t => exists v, ok v = true /\ to_string v8 v = Some t
  end.

Definition call_crossing_ok (m : Method num) (x : Crossing) : Prop :=
  match x with
  | ToProducer p => payload_ok (accepts_args m) p
  | ToConsumer p => payload_ok (accepts (result m)) p
  | ToSubscriber _ _ => False
  end.

Lemma interop_strict_json w v t x : strict_json w v = Some (t, x) -> to_string v8 x = Some t.
Proof. unfold strict_json. destruct (strict_value v8 w v) as [y|]; [|done]. cbn. destruct (to_string v8 y) eqn:E; [|done]. by intros [= <- <-]. Qed.

Lemma interop_marshal free ok w v p : marshal free ok w v = Some p -> payload_ok ok p /\ (forall x, p = PPlain x -> free = true).
Proof.
  unfold marshal. destruct free.
  - destruct (strict_value v8 w v) as [x|]; [|done]. cbn. destruct (ok x) eqn:E; [|done]. by intros [= <-].
  - destruct (strict_json w v) as [[t x]|] eqn:Es; [|done]. cbn. destruct (ok x) eqn:E; [|done]. intros [= <-].
    split; [|done]. exists x. split; [done|]. by eapply interop_strict_json.
Qed.

Lemma interop_run_method w ctx f m p w' o :
  run_method w ctx f (Some m) p = (w', o) ->
  (forall r, o = Ok_ r -> payload_ok (accepts (result m)) r /\ (forall x, r = PPlain x -> entity_ref_free (result m) = true)) /\
  (o = Void -> result m = SVoid).
Proof.
  unfold run_method. destruct (method_from_payload w (Some ctx) p) as [w1 a]. destruct (a ≫= spread v8) as [argv|]; [|by intros [= <- <-]].
  destruct (call v8 w1 ctx f argv) as [w2 [ret|msg]]; [|by intros [= <- <-]]. unfold read_return.
  destruct (observe_thenable v8 w2 ret) as [w3 []]; [by intros [= <- <-]|].
  destruct (is_undefined v8 ret); [intros [= <- <-]; by destruct (result m)|].
  destruct (marshal _ _ w3 ret) as [r|] eqn:E; intros [= <- <-]; [|done]. split; [|done]. intros ? [= <-]. by eapply interop_marshal.
Qed.

Lemma interop_reply_of w name method o w' reply log :
  reply_of w name method o = (w', reply, log) ->
  (forall x, x ∈ log -> exists p, x = ToConsumer p /\ o = Ok_ p) /\ (reply = Returned None -> o = Void).
Proof.
  assert (forall x : Crossing, x ∈ [] -> exists p, x = ToConsumer p /\ o = Ok_ p) by by intros ? ?%elem_of_nil.
  unfold reply_of. destruct o as [p| | | |]; [|by intros [= <- <- <-]..].
  destruct (method_from_payload w None p) as [w1 [v|]]; intros [= <- <- <-]; split; try done.
  intros x ->%list_elem_of_singleton. eauto.
Qed.

(** The crossings of a call are typed; the plain ones are of directions that name no entity. *)
Definition plain_free (m : Method num) (x : Crossing) : Prop :=
  match x with
  | ToProducer (PPlain _) => forallb (fun f => entity_ref_free (Schema.schema f)) (args m) = true
  | ToConsumer (PPlain _) => entity_ref_free (result m) = true
  | _ => True
  end.

Lemma interop_call_body c consumer name method argv ct m w w' reply log :
  get (methods (metadata ct)) method = Some m ->
  call_body c consumer name method argv (Some ct) w = (w', reply, log) ->
  Forall (fun x => call_crossing_ok m x /\ plain_free m x) log /\ (reply = Returned None -> result m = SVoid).
Proof.
  intros Hm. unfold call_body. cbn [is_some mbind option_bind]. rewrite Hm. cbn [is_some negb andb].
  destruct (live_interop_context _ _ _); cbn [negb]; [|intros [= <- <- <-]; by split].
  destruct (match producer_of w name with Some (p, g) => negb (is_live w p g) | None => false end); [intros [= <- <- <-]; by split|].
  unfold args_payload.
  destruct (marshal _ _ w argv) as [p|] eqn:Ep; [|intros [= <- <- <-]; by split]. apply interop_marshal in Ep as [Hp Hpf].
  assert (call_crossing_ok m (ToProducer p) /\ plain_free m (ToProducer p)) as Hargs.
  { split; [done|]. destruct p; [done|]. by eapply Hpf. }
  destruct (producer_of w name) as [[pid pgen]|]; [|intros [= <- <- <-]; by split].
  destruct (iface_methods _ !! _) as [f|]; [|intros [= <- <- <-]; by split].
  destruct (contexts _ !! pid) as [ctx|]; [|intros [= <- <- <-]; by split].
  destruct (run_method w ctx f (Some m) p) as [w1 o] eqn:Er. apply interop_run_method in Er as [Hok Hvoid].
  destruct (negb _ || _ || _); [intros [= <- <- <-]; split; [by constructor|done]|].
  destruct (reply_of w1 name method o) as [[w2 rep] cr] eqn:Erep. apply interop_reply_of in Erep as [Hcr Hrep].
  intros [= <- <- <-]. split; [|auto]. constructor; [done|]. apply Forall_forall. intros x Hx.
  destruct (Hcr x Hx) as (r & -> & ->). destruct (Hok r eq_refl) as [Hr Hrf]. split; [done|]. destruct r; [done|]. by eapply Hrf.
Qed.

Lemma interop_call_cases c consumer name method argv ct w w' reply log :
  current_plugin c = Some consumer -> checked_contract w consumer name = inl (Some ct) ->
  iface_call c name method argv w = (w', reply, log) ->
  (log = [] /\ exists n d, reply = Thrown n d) \/
  exists w1 w2, enter w = Some w1 /\ call_body c consumer name method argv (Some ct) w1 = (w2, reply, log) /\ w' = leave w2.
Proof.
  intros Hc Hct. unfold iface_call. rewrite Hc, Hct. destruct (Interfaces.call_target _ _ _ _); [|intros [= <- <- <-]; eauto..].
  unfold guarded. cbn [is_some]. destruct (enter w) as [w1|]; [|intros [= <- <- <-]; eauto].
  destruct (call_body _ _ _ _ _ _ w1) as [[w2 r] l] eqn:E. intros [= <- <- <-]. eauto 10.
Qed.

(** C8. A call of the native [s2_iface_call] on a verified interface lets only typed values cross: the
    producer's method gets arguments its schema accepts, the consumer gets a result its schema accepts, and
    nothing is returned only by a method declared void. Calls through the JavaScript facades, the usual path
    of the current protocol, do not use this native and are not covered. *)
Theorem iface_call_typed c consumer name method argv ct m w w' reply log :
  current_plugin c = Some consumer -> checked_contract w consumer name = inl (Some ct) ->
  get (methods (metadata ct)) method = Some m ->
  iface_call c name method argv w = (w', reply, log) ->
  Forall (call_crossing_ok m) log /\ (reply = Returned None -> result m = SVoid).
Proof.
  intros Hc Hct Hm E. destruct (interop_call_cases _ _ _ _ _ _ _ _ _ _ Hc Hct E) as [[-> (n & d & ->)]|(w1 & w2 & _ & Hb & ->)]; [done|].
  destruct (interop_call_body _ _ _ _ _ _ _ _ _ _ _ Hm Hb) as [Hl Hv]. split; [|done]. eapply Forall_impl; [exact Hl|]. by intros x [? _].
Qed.

(** ** Plain values *)
Lemma interop_args_no_refs m v :
  (forall f, f ∈ args m -> well_formed (Schema.schema f) false 0 = true) ->
  forallb (fun f => entity_ref_free (Schema.schema f)) (args m) = true -> distinct_keys v = true ->
  accepts_args m v = true -> mentions_ref v = false.
Proof.
  intros Hwf Hfree Hdk Hacc. unfold accepts_args in Hacc. destruct v as [| | | |a|]; try done. cbn [as_array] in Hacc.
  apply andb_true_iff in Hacc as [Hlen Hpos]. apply Nat.leb_le in Hlen. rewrite schema_positions in Hpos.
  cbn [mentions_ref distinct_keys] in *. rewrite forallb_elem in Hdk. rewrite forallb_elem in Hfree. apply existsb_none. intros x Hx.
  pose proof Hx as Hin. apply list_elem_of_lookup in Hx as [i Hi]. pose proof (lookup_lt_Some _ _ _ Hi) as Hlt.
  destruct (lookup_lt_is_Some_2 (args m) i ltac:(lia)) as [f Hf]. specialize (Hpos i f Hf). rewrite Hi in Hpos.
  pose proof (list_elem_of_lookup_2 _ _ _ Hf) as Hfin. by eapply schema_ref_free_sound; [apply Hwf|apply Hfree|apply Hdk|].
Qed.

(** A value handed to another plugin as plain data, without the decoder that revives entities, carries
    no reference to an entity. *)
Theorem iface_plain_no_refs to_vec sha256_hex c consumer name method argv ct m w w' reply log v :
  current_plugin c = Some consumer -> checked_contract w consumer name = inl (Some ct) ->
  contract_validate to_vec sha256_hex ct = None -> get (methods (metadata ct)) method = Some m ->
  iface_call c name method argv w = (w', reply, log) ->
  ToProducer (PPlain v) ∈ log \/ ToConsumer (PPlain v) ∈ log -> distinct_keys v = true ->
  mentions_ref v = false.
Proof.
  intros Hc Hct Hval Hm E Hin Hdk. destruct (interop_contract_method _ _ _ _ _ Hval Hm) as [Hargs Hres].
  destruct (interop_call_cases _ _ _ _ _ _ _ _ _ _ Hc Hct E) as [[-> _]|(w1 & w2 & _ & Hb & ->)].
  { by destruct Hin as [?%elem_of_nil|?%elem_of_nil]. }
  destruct (interop_call_body _ _ _ _ _ _ _ _ _ _ _ Hm Hb) as [Hl _]. rewrite Forall_forall in Hl.
  destruct Hin as [Hin|Hin]; destruct (Hl _ Hin) as [Hok Hfree]; cbn in Hok, Hfree.
  - by eapply interop_args_no_refs.
  - by eapply schema_ref_free_sound.
Qed.

(** ** Events *)
Definition text_ok (ok : Value num -> bool) (t : string) : Prop := exists v, ok v = true /\ to_string v8 v = Some t.

Definition delivered (ok : string -> Prop) (x : Crossing) : Prop :=
  match x with ToSubscriber _ t => ok t | _ => False end.

(** The payload and everything delivered so far satisfies [ok], which responses preserve. *)
Record loop_ok (ok : string -> Prop) (s : LoopState) : Prop := {
  lo_payload : ok (payload_json s);
  lo_log : Forall (delivered ok) (crossed s);
}.

Lemma interop_forward_one ok name event ct f decision published s id :
  (forall w t v a t', validate_response f w t v = Some (a, Some t') -> ok t -> ok t') ->
  loop_ok ok s -> loop_ok ok (forward_one name event ct f decision published s id).1.
Proof.
  intros Hval [Hp Hl]. unfold forward_one. destruct (_ && _); [done|]. destruct (negb _); [done|].
  destruct (iface_subs _ !! id) as [h|]; [|done]. destruct (Interfaces.consumer_of_sub _ _ _) as [consumer|]; [|done].
  destruct (_ && _); [done|]. destruct (contexts _ !! consumer) as [ctx|]; [|done].
  destruct (iface_from_json v8 (lw s) (Some ctx) (payload_json s)) as [w1 [value|]]; [|done].
  destruct (call v8 w1 ctx h [value]) as [w2 r]. cbn [lw payload_json collapsed crossed].
  assert (Forall (delivered ok) (crossed s ++ [ToSubscriber id (payload_json s)])) as Hl'.
  { apply Forall_app. split; [done|]. by constructor. }
  destruct r as [result|msg]; [|done]. destruct (if is_some ct then _ else _) as [w3 th]. cbn [lw payload_json collapsed crossed].
  destruct th; [done|]. destruct (_ && _); [done|]. destruct decision; [|done].
  destruct (validate_response f w3 (payload_json s) result) as [[a u]|] eqn:E; [|done]. split; [|done]. cbn.
  destruct u as [t'|]; [|done]. cbn. by eapply Hval.
Qed.

Lemma interop_forward_loop ok step s ids :
  (forall s id, loop_ok ok s -> loop_ok ok (step s id).1) -> loop_ok ok s -> loop_ok ok (forward_loop step s ids).
Proof.
  intros Hstep. revert s. induction ids as [|id ids IH]; intros s Hs; [done|]. cbn [forward_loop].
  pose proof (Hstep s id Hs) as H1. destruct (step s id) as [s' []]; [by apply IH|done].
Qed.

Lemma interop_finish_forward name f decision published s : (finish_forward name f decision published s).2 = crossed s.
Proof.
  unfold finish_forward. destruct decision; [|done]. destruct (_ || _); [done|].
  destruct (match f with Some f => String.eqb (kind f) "hook" | None => false end); [done|]. by destruct (iface_from_json _ _ _ _).
Qed.

Lemma interop_forward_cases c name event argument decision ct f w w' reply log :
  published_contract w name = Some ct -> get (forwards (metadata ct)) event = Some f ->
  iface_forward c name event argument decision w = (w', reply, log) ->
  log = [] \/ exists w1 t s,
    text_ok (accepts (payload f)) t /\ decision = negb (String.eqb (kind f) "notification") /\
    s = forward_loop (forward_one name event (Some ct) (Some f) decision (producer_of w name)) (mkLoop w1 t Continue [])
          (Interfaces.live_subscriber_ids (ifaces (host w1)) name event (is_live w1)) /\ log = crossed s.
Proof.
  intros Hct Hf. assert (Hb : forall w1 w2 r l, forward_body c name event argument decision (Some ct) (producer_of w name) w1 = (w2, r, l) ->
    l = [] \/ exists t s, text_ok (accepts (payload f)) t /\ decision = negb (String.eqb (kind f) "notification") /\
      s = forward_loop (forward_one name event (Some ct) (Some f) decision (producer_of w name)) (mkLoop w1 t Continue [])
            (Interfaces.live_subscriber_ids (ifaces (host w1)) name event (is_live w1)) /\ l = crossed s).
  { intros w1 w2 r l. unfold forward_body. destruct (is_some (Some ct) && _); [intros [= <- <- <-]; by left|].
    cbn [is_some mbind option_bind]. rewrite Hf. cbn [is_some negb andb].
    destruct (Bool.eqb decision _) eqn:Ek; [intros [= <- <- <-]; by left|]. unfold forward_payload.
    destruct (strict_json w1 argument) as [[t x]|] eqn:Es; cbn [mbind option_bind]; [|intros [= <- <- <-]; by left].
    cbn [fst snd]. destruct (accepts (payload f) x) eqn:Ea; [|intros [= <- <- <-]; by left].
    intros E. right. exists t. eexists. split_and!; [| |done|].
    - exists x. split; [done|]. by eapply interop_strict_json.
    - apply Bool.eqb_false_iff in Ek. by destruct decision, (kind f =? "notification")%string.
    - rewrite <- (interop_finish_forward name (Some f) decision (producer_of w name)). by rewrite E. }
  assert (Hg : forall e, guarded (is_some (Some ct)) w (forward_body c name event argument decision (Some ct) (producer_of w name)) = e -> 
    e = (w', reply, log) -> log = [] \/ exists w1 t s,
    text_ok (accepts (payload f)) t /\ decision = negb (String.eqb (kind f) "notification") /\
    s = forward_loop (forward_one name event (Some ct) (Some f) decision (producer_of w name)) (mkLoop w1 t Continue [])
          (Interfaces.live_subscriber_ids (ifaces (host w1)) name event (is_live w1)) /\ log = crossed s).
  { intros e <-. unfold guarded. cbn [is_some]. destruct (enter w) as [w1|]; [|intros [= <- <- <-]; by left].
    destruct (forward_body _ _ _ _ _ _ _ w1) as [[w2 r] l] eqn:E. intros [= <- <- <-].
    destruct (Hb _ _ _ _ E) as [->|(t & s & Ht)]; [by left|]. right. by exists w1, t, s. }
  unfold iface_forward. rewrite Hct. cbn [is_some negb andb]. rewrite andb_false_r. destruct (current_plugin c) as [owner|]; [|by eapply Hg].
  destruct (live_interop_context _ _ _); cbn [negb]; [by eapply Hg|intros [= <- <- <-]; by left].
Qed.

(** Every payload a subscriber of a typed forward receives is accepted by the forward's schema, the ones
    patched by the subscribers before it included; only a transform changes the payload. *)
Theorem iface_forward_typed c name event argument decision ct f w w' reply log :
  published_contract w name = Some ct -> get (forwards (metadata ct)) event = Some f ->
  iface_forward c name event argument decision w = (w', reply, log) ->
  Forall (delivered (text_ok (accepts (payload f)))) log /\
  (kind f <> "transform" -> exists t, Forall (delivered (fun t' => t' = t)) log).
Proof.
  intros Hct Hf E. destruct (interop_forward_cases _ _ _ _ _ _ _ _ _ _ _ Hct Hf E) as [->|(w1 & t & s & Ht & _ & -> & ->)].
  { split; [done|]. intros _. by exists "". }
  split.
  - apply lo_log, interop_forward_loop; [|by split]. intros s id. apply interop_forward_one. clear.
    intros w0 t0 v a t'. unfold validate_response. destruct (strict_json w0 v) as [[ty x]|]; [|done]. cbn [mbind option_bind snd].
    destruct (response f x) as [[a' [patch|]]|]; [|done..]. cbn [mbind option_bind fst snd].
    destruct (from_str v8 t0) as [cur|]; [|done]. cbn [mbind option_bind]. destruct (as_object cur) as [o|]; [|done].
    cbn [mbind option_bind]. destruct (accepts (payload f) _) eqn:Ea; [|done]. cbn [negb].
    destruct (to_string v8 _) as [text|] eqn:Et; [|done]. cbn [mbind option_bind]. intros [= <- <-] _. eexists. split; [exact Ea|exact Et].
  - intros Hk. exists t. apply lo_log, interop_forward_loop; [|by split]. intros s id. apply interop_forward_one. clear - Hk.
    intros w0 t0 v a t'. unfold validate_response. destruct (strict_json w0 v) as [[ty x]|]; [|done]. cbn [mbind option_bind snd].
    destruct (response f x) as [[a' [patch|]]|] eqn:Er; [|done..]. by apply schema_response_patch in Er as [? _].
Qed.

(** ** The depth guard *)
Section Depth.
Notation dep w := (depth (host w)).

(** Calls into V8 leave the depth as they found it: what they re-enter is balanced. *)
Hypothesis to_json_depth : forall w v, dep (iface_to_json v8 w v).1 = dep w.
Hypothesis from_json_depth : forall w ctx t, dep (iface_from_json v8 w ctx t).1 = dep w.
Hypothesis call_depth : forall w ctx f argv, dep (call v8 w ctx f argv).1 = dep w.
Hypothesis thenable_depth : forall w v, dep (observe_thenable v8 w v).1 = dep w.

Ltac dest_v8 :=
  repeat match goal with
  | |- context [iface_to_json v8 ?w ?v] =>
      let E := fresh in pose proof (to_json_depth w v) as E; destruct (iface_to_json v8 w v) as [? ?]; cbn in E |- *
  | |- context [iface_from_json v8 ?w ?c ?t] =>
      let E := fresh in pose proof (from_json_depth w c t) as E; destruct (iface_from_json v8 w c t) as [? ?]; cbn in E |- *
  | |- context [call v8 ?w ?c ?f ?a] =>
      let E := fresh in pose proof (call_depth w c f a) as E; destruct (call v8 w c f a) as [? ?]; cbn in E |- *
  | |- context [observe_thenable v8 ?w ?v] =>
      let E := fresh in pose proof (thenable_depth w v) as E; destruct (observe_thenable v8 w v) as [? ?]; cbn in E |- *
  end.

Lemma interop_from_payload_depth w ctx p : dep (method_from_payload w ctx p).1 = dep w.
Proof. destruct p; cbn; [apply from_json_depth|done]. Qed.

Lemma interop_read_return_depth w m ret : dep (read_return w m ret).1 = dep w.
Proof.
  unfold read_return. destruct m as [m|]; dest_v8; repeat case_match; simplify_eq/=; congruence.
Qed.

Lemma interop_run_method_depth w ctx f m p : dep (run_method w ctx f m p).1 = dep w.
Proof.
  unfold run_method. pose proof (interop_from_payload_depth w (Some ctx) p) as E.
  destruct (method_from_payload _ _ _) as [w1 a]. cbn in E. destruct (a ≫= spread v8); [|done].
  dest_v8. destruct s as [ret|]; [|cbn; congruence]. rewrite interop_read_return_depth. congruence.
Qed.

Lemma interop_reply_of_depth w name method o : dep (reply_of w name method o).1.1 = dep w.
Proof.
  destruct o as [p| | | |]; try done. cbn. pose proof (interop_from_payload_depth w None p) as E.
  by destruct (method_from_payload w None p) as [w1 []].
Qed.

Lemma interop_args_depth w m argv : dep (args_payload w m argv).1 = dep w.
Proof. destruct m; cbn; [done|]. by dest_v8. Qed.

Lemma interop_call_body_depth c consumer name method argv ct w :
  dep (call_body c consumer name method argv ct w).1.1 = dep w.
Proof.
  unfold call_body. destruct (_ && _); [done|]. destruct (is_some ct && _); [done|].
  destruct (match producer_of w name with Some (p, g) => negb (is_live w p g) | None => false end); [done|].
  pose proof (interop_args_depth w (c ← ct; get (methods (metadata c)) method) argv) as E.
  destruct (args_payload _ _ _) as [w1 payload]. cbn in E. destruct payload as [p|]; [|done].
  destruct (producer_of w1 name) as [[pid pgen]|]; [|done]. destruct (iface_methods _ !! _) as [f|]; [|done].
  destruct (contexts _ !! _) as [ctx|]; [|done].
  pose proof (interop_run_method_depth w1 ctx f (c ← ct; get (methods (metadata c)) method) p) as E2.
  destruct (run_method _ _ _ _ _) as [w2 o]. cbn in E2. destruct (_ && _); [cbn; congruence|].
  pose proof (interop_reply_of_depth w2 name method o) as E3. destruct (reply_of _ _ _ _) as [[w3 r] l]. cbn in *. congruence.
Qed.

Lemma interop_guarded_depth typed w body :
  (forall w, dep (body w).1.1 = dep w) -> 0 <= dep w -> dep (guarded typed w body).1.1 = dep w.
Proof.
  intros Hb Hd. unfold guarded. destruct typed; [|apply Hb]. unfold enter. destruct (_ <=? _); [done|].
  specialize (Hb (set_depth (dep w + 1) w)). destruct (body _) as [[w' r] l]. cbn in *. rewrite Hb. unfold sat_sub. lia.
Qed.

Lemma interop_forward_one_depth name event ct f decision published s id :
  dep (lw (forward_one name event ct f decision published s id).1) = dep (lw s).
Proof.
  unfold forward_one. destruct (_ && _); [done|]. destruct (negb _); [done|]. destruct (iface_subs _ !! _) as [h|]; [|done].
  destruct (Interfaces.consumer_of_sub _ _ _) as [consumer|]; [|done]. destruct (_ && _); [done|].
  destruct (contexts _ !! _) as [ctx|]; [|done]. dest_v8. destruct o as [v|]; [|done]. dest_v8. destruct s0; [|cbn; congruence].
  assert (forall b : bool, dep (if b then observe_thenable v8 w0 v0 else (w0, false)).1 = dep w0) as Ht by by intros [].
  specialize (Ht (is_some ct)). destruct (if is_some ct then _ else _) as [w3 []]; cbn in Ht |- *; [congruence|].
  destruct (_ && _); [cbn; congruence|]. destruct decision; [|cbn; congruence]. destruct (validate_response _ _ _ _) as [[? ?]|]; cbn; congruence.
Qed.

Lemma interop_forward_loop_depth step s ids :
  (forall s id, dep (lw (step s id).1) = dep (lw s)) -> dep (lw (forward_loop step s ids)) = dep (lw s).
Proof.
  intros Hs. revert s. induction ids as [|id ids IH]; intros s; [done|]. cbn. pose proof (Hs s id) as E.
  destruct (step s id) as [s' []]; cbn in *; [by rewrite IH|done].
Qed.

Lemma interop_forward_body_depth c name event argument decision ct published w :
  dep (forward_body c name event argument decision ct published w).1.1 = dep w.
Proof.
  unfold forward_body. destruct (_ && _); [done|]. destruct (is_some ct && _); [done|].
  destruct (match c ← ct; get (forwards (metadata c)) event with Some f => _ | None => false end); [done|].
  set (f := c ← ct; get (forwards (metadata c)) event).
  assert (dep (forward_payload f w argument).1 = dep w) as E by (destruct f; [done|apply to_json_depth]).
  destruct (forward_payload f w argument) as [w1 [text|]]; cbn in E; [|by destruct (is_some ct)].
  set (s := forward_loop _ _ _). assert (dep (lw s) = dep w1) as Es.
  { unfold s. rewrite interop_forward_loop_depth; [done|]. intros. apply interop_forward_one_depth. }
  unfold finish_forward. destruct decision; [|cbn; congruence]. destruct (_ || _); [cbn; congruence|].
  destruct (match f with Some f => _ | None => false end); [cbn; congruence|]. dest_v8. congruence.
Qed.

(** Every way out of a typed call or event, thrown errors included, gives back the depth it took, and
    none runs above the limit of 32. *)
Theorem iface_depth_balanced c name method event argument decision w :
  0 <= dep w ->
  dep (iface_call c name method argument w).1.1 = dep w /\
  dep (iface_forward c name event argument decision w).1.1 = dep w /\
  forall w', enter w = Some w' -> dep w' <= 32.
Proof.
  intros Hd. split_and!.
  - unfold iface_call. destruct (current_plugin c) as [consumer|]; [|done]. destruct (Interfaces.call_target _ _ _ _); try done.
    destruct (checked_contract _ _ _); [|done]. apply interop_guarded_depth; [|done]. intros. apply interop_call_body_depth.
  - unfold iface_forward. destruct (current_plugin c) as [owner|]; [destruct (negb _); [done|]|]; destruct (_ && _); try done;
      apply interop_guarded_depth; try done; intros; apply interop_forward_body_depth.
  - unfold enter. destruct (Z.leb_spec 32 (dep w)); [done|]. intros ? [= <-]. cbn. lia.
Qed.
End Depth.
End InteropCalls.
End InteropCalls.

Module InteropCallsExamples.
Import JsonExamples.
Import InteropCalls.

(** A "menus" plugin publishes [open(count, title?) -> string] and a transform of its title. *)
Definition open_m : Method num := mkMethod [mkField SNumber false; mkField SString true] SString.
Definition item : Schema num := SObject [("color", mkField SNumber true); ("title", mkField SString false)].
Definition on_title : Forward num := mkForward "transform" item (Some ["title"]).
Definition meta : Metadata num := mkMetadata 1 [("open", open_m)] [("title", on_title)].
Definition contract1 : Contract num := mkContract meta "digest".
Definition to_vec1 (m : Metadata num) : option string := Some "bytes".
Definition sha1 (s : string) : string := "digest".

Definition decl1 : PublishDecl num := mkPublish (Some contract1) "1.0.0" "abc".
Definition reg0 : Registry.Registry := default Registry.new (snd <$> Registry.run (0, Registry.new) [Registry.Insert "menus"; Registry.Insert "shop"]).
Definition gen_of (id : string) : Z := default 0 (Registry.generation_of reg0 id).
Definition faces : Interfaces.InterfaceRegistry :=
  let r := (Interfaces.publish 0 Interfaces.new "menus" "1.0.0" "abc" "menus" (gen_of "menus") ["open"]).1.2 in
  let r := (Interfaces.set_imports 0 r "shop" [Interfaces.mkSpec "menus" "1.x" Interfaces.Hard (Some "abc")]).1.2 in
  (Interfaces.add_subscriber r "menus" (Interfaces.mkSub 7 "shop" (gen_of "shop") "title")).1.

Definition V := Value num.
Definition Fn := list V -> V.
Definition host1 : Host (num := num) (Fn := Fn) (Ctx := string) :=
  mkHost faces reg0 {["menus" := {["menus" := decl1]}]} {["shop" := {["menus" := contract1]}]}
    {[7 := fun _ => Object [("patch", Object [("title", String_ "b")]); ("result", Number (Int 1))]]}
    {[("menus", "open") := fun a => match a with [_; t] => t | _ => String_ "none" end]}
    {["menus" := "menus"; "shop" := "shop"]} 0.
Definition world1 : World (num := num) (J := unit) (Fn := Fn) (Ctx := string) := mkWorld host1 tt.

(** A JavaScript in which text is only ever the two texts of this example. *)
Definition text (v : V) : option string :=
  if value_eqb v (Object [("title", String_ "a")]) then Some "a" else if value_eqb v (Object [("title", String_ "b")]) then Some "b" else None.
Definition parse (t : string) : option V :=
  if String.eqb t "a" then Some (Object [("title", String_ "a")]) else if String.eqb t "b" then Some (Object [("title", String_ "b")]) else None.
Definition v8_1 : V8 (num := num) (J := unit) (V := V) (Fn := Fn) (Ctx := string) := {|
  to_string := text;
  from_str := parse;
  strict_value := fun _ v => Some v;
  iface_to_json := fun w v => (w, text v);
  iface_from_json := fun w _ t => (w, parse t);
  plain_value_to_v8 := fun _ _ v => Some v;
  spread := fun v => as_array v;
  call := fun w _ f a => (w, inl (f a));
  observe_thenable := fun w _ => (w, false);
  is_undefined := fun v => is_null v;
  slot_of := fun id => Some (gen_of id);
  of_result := fun r => Number (Int (result_rank r));
|}.

Definition shop : Caller := mkCaller (Some "shop") (Some (gen_of "shop")).
Definition menus : Caller := mkCaller (Some "menus") (Some (gen_of "menus")).
Definition argv1 : V := Array [Number (Int 3); String_ "hi"].

Definition call1 := iface_call v8_1 shop "menus" "open" argv1 world1.
Example call1_run : call1 = (world1, Returned (Some (String_ "hi")), [ToProducer (PPlain argv1); ToConsumer (PPlain (String_ "hi"))]).
Proof. vm_compute. reflexivity. Qed.

Definition forward1 := iface_forward v8_1 menus "menus" "title" (Object [("title", String_ "a")]) true world1.
Example forward1_run : forward1.1.1 = world1 /\ forward1.2 = [ToSubscriber 7 "a"].
Proof. vm_compute. done. Qed.

Lemma iface_call_typed_witness : Forall (call_crossing_ok v8_1 open_m) call1.2 /\ (call1.1.2 = Returned None -> result open_m = SVoid).
Proof.
  apply (iface_call_typed v8_1 shop "shop" "menus" "open" argv1 contract1 open_m world1 call1.1.1 call1.1.2 call1.2); vm_compute; reflexivity.
Defined.

Lemma iface_plain_no_refs_witness : mentions_ref argv1 = false.
Proof.
  apply (iface_plain_no_refs v8_1 to_vec1 sha1 shop "shop" "menus" "open" argv1 contract1 open_m world1 call1.1.1 call1.1.2 call1.2 argv1);
    [vm_compute; reflexivity..| |vm_compute; reflexivity].
  left. vm_compute. by left.
Defined.

Lemma iface_forward_typed_witness :
  Forall (delivered (text_ok v8_1 (accepts item))) forward1.2 /\
  (kind on_title <> "transform" -> exists t, Forall (delivered (num := num) (fun t' => t' = t)) forward1.2).
Proof.
  apply (iface_forward_typed v8_1 menus "menus" "title" (Object [("title", String_ "a")]) true contract1 on_title world1
           forward1.1.1 forward1.1.2 forward1.2); vm_compute; reflexivity.
Defined.

Definition patch1 : Map num := [("title", String_ "b")].
Lemma schema_patch_typed_witness :
  accepts item (Object (extend [("title", String_ "a")] patch1)) = true /\
  forall k, get (extend [("title", String_ "a")] patch1) k = get [("title", String_ "a")] k \/
            exists keys, writable on_title = Some keys /\ k ∈ keys.
Proof.
  apply (schema_patch_typed on_title (Object [("patch", Object patch1); ("result", Number (Int 1))]) Changed patch1
           [("color", mkField SNumber true); ("title", mkField SString false)] [("title", String_ "a")]);
    [vm_compute; reflexivity|reflexivity|apply (bool_decide_unpack _); vm_compute; exact I|apply (bool_decide_unpack _); vm_compute; exact I|reflexivity].
Defined.

Lemma iface_depth_balanced_witness :
  depth (host call1.1.1) = 0 /\ depth (host forward1.1.1) = 0 /\ forall w', enter world1 = Some w' -> depth (host w') <= 32.
Proof.
  apply (iface_depth_balanced v8_1 ltac:(done) ltac:(done) ltac:(done) ltac:(done) shop "menus" "open" "title" argv1 true world1); vm_compute; done.
Defined.
End InteropCallsExamples.
