(* ===== verification/LoaderRead.v ===== *)
(** What the loader worker reads from disk (core/src/loader_worker.rs).

    [FileRead] is the bounded, twice-checked read of one file and the scan of the plugin directory; the
    file system's answers are arguments. [ArchiveRead] takes the members out of an archive; the zip
    container, the JSON reader, the digest and the engine-function contract check are parameters. *)
From S2P Require Import Prelude.
From S2P Require Import Utf8.
From S2P Require Import AsyncLimits.
From S2P Require Import Json.
From S2P Require Import Interop.
From Stdlib Require Import Ascii.
Import LoaderPolicy.
Local Open Scope nat_scope.

(** ** Files *)
Module FileRead.

Record FileStamp := mkStamp {
  len : Z;
  modified_ns : Z;
  created_ns : Z;
  device : Z;
  inode : Z;
  changed_ns : Z;
}.
#[export] Instance FileStamp_eq_dec : EqDecision FileStamp.
Proof. solve_decision. Defined.

(** What a [Metadata] answers. The two times are [None] when the platform does not report them or they
    precede the epoch. *)
Record Metadata := mkMetadata {
  is_file : bool;
  m_len : Z;
  modified : option Z;
  created : option Z;
  dev : Z;
  ino : Z;
  ctime : Z;
  ctime_nsec : Z;
}.

Definition i128_sat (z : Z) : Z := Z.max (- 2 ^ 127) (Z.min z (2 ^ 127 - 1)).

Definition from_metadata (m : Metadata) : FileStamp :=
  {| len := m_len m;
     modified_ns := default 0%Z (modified m);
     created_ns := default 0%Z (created m);
     device := dev m;
     inode := ino m;
     changed_ns := i128_sat (i128_sat (ctime m * 1000000000) + ctime_nsec m) |}.

(** The errors of a read. The code tells [Missing] from the others by the prefix of its message; all
    the other messages begin with [read ]. *)
Inductive ReadError := Missing | OpenFailed | MetadataFailed | NotRegular | ByteLimit | ReadFailed | Changed.

(** What one opened file answers: its metadata, the bytes up to the end, its metadata again. *)
Record File := mkFile {
  before : option Metadata;
  contents : option string;
  after : option Metadata;
}.

Definition byte_len (s : string) : Z := Z.of_nat (String.length s).

(** [file.take(n).read_to_end]. *)
Definition take_bytes (n : Z) (s : string) : string :=
  if (byte_len s <=? n)%Z then s else String.substring 0 (Z.to_nat n) s.

Definition read_open_file (f : File) (max : Z) : (string * FileStamp) + ReadError :=
  match before f with
  | None => inr MetadataFailed
  | Some b =>
      if negb (is_file b) then inr NotRegular
      else if (max <? m_len b)%Z then inr ByteLimit
      else
        match contents f with
        | None => inr ReadFailed
        | Some all =>
            let bytes := take_bytes (sat_add max 1) all in
            if (max <? byte_len bytes)%Z then inr ByteLimit
            else
              match after f with
              | None => inr MetadataFailed
              | Some a =>
                  let sa := from_metadata b in
                  let sb := from_metadata a in
                  if negb (bool_decide (sa = sb)) || negb (byte_len bytes =? len sb)%Z then inr Changed
                  else inl (bytes, sb)
              end
        end
  end.

(** What opening a path answers. *)
Inductive Opened := Open (f : File) | NotFound | OpenError.

Definition stable_read_with_hook (first second : Opened) (max : Z) : (string * FileStamp) + ReadError :=
  match first with
  | NotFound => inr Missing
  | OpenError => inr OpenFailed
  | Open f1 =>
      match read_open_file f1 max with
      | inr e => inr e
      | inl r1 =>
          match second with
          | NotFound | OpenError => inr Changed
          | Open f2 =>
              match read_open_file f2 max with
              | inr e => inr e
              | inl r2 =>
                  if negb (bool_decide (r1.2 = r2.2)) || negb (bool_decide (r1.1 = r2.1)) then inr Changed else inl r2
              end
          end
      end
  end.

(** ** The directory scan *)

Record DirEntry := mkEntry { file_name : string; metadata : option Metadata }.

(** [Path::join] of one file name. *)
Definition ends_with_slash (s : string) : bool := bool_decide (String.get (String.length s - 1) s = Some "/"%char).
Definition join (dir name : string) : string :=
  if bool_decide (dir = "") then name
  else if ends_with_slash dir then (dir ++ name)%string
  else (dir ++ "/" ++ name)%string.

(** [Path::extension] of a file name: what follows its last dot, unless that dot comes first. *)
Fixpoint after_last_dot (seen : bool) (acc : option string) (s : string) : option string :=
  match s with
  | EmptyString => acc
  | String c s' =>
      after_last_dot true (if (c =? ".")%char then (if seen then Some s' else acc) else acc) s'
  end.
Definition extension (name : string) : option string :=
  if bool_decide (name = "..") then None else after_last_dot false None name.

Inductive ScanError := ReadDirFailed | EntryLimit | EntryFailed | PathLimit | EntryMetadata | CandidateLimit.

Definition path_len (p : string) : Z := byte_len p.

Fixpoint scan_loop (p : LoaderPolicy) (dir : string) (rd : list (option DirEntry)) (out : list (string * FileStamp))
    (total_path_bytes examined : Z) : list (string * FileStamp) + ScanError :=
  match rd with
  | [] => inl out
  | entry :: rd' =>
      let examined := u64_succ examined in
      if (scan_entries p <? examined)%Z then inr EntryLimit
      else
        match entry with
        | None => inr EntryFailed
        | Some e =>
            let path := join dir (file_name e) in
            let total_path_bytes := sat_add total_path_bytes (path_len path) in
            if (path_bytes p <? total_path_bytes)%Z then inr PathLimit
            else if negb (bool_decide (extension (file_name e) = Some "s2sp"))
            then scan_loop p dir rd' out total_path_bytes examined
            else
              match metadata e with
              | None => inr EntryMetadata
              | Some m =>
                  if negb (is_file m) then scan_loop p dir rd' out total_path_bytes examined
                  else if (scan_candidates p <=? Z.of_nat (length out))%Z then inr CandidateLimit
                  else scan_loop p dir rd' (out ++ [(path, from_metadata m)]) total_path_bytes examined
              end
        end
  end.

(** [Path] compares by component; the paths of one directory differ in their last one. *)
Definition by_path (a b : string * FileStamp) : Prop := String.le a.1 b.1.
#[export] Instance by_path_dec a b : Decision (by_path a b).
Proof. unfold by_path. apply _. Defined.

Inductive ReadDir := Entries (rd : list (option DirEntry)) | NoDir | DirError.

Definition scan_plugins (p : LoaderPolicy) (dir : string) (rd : ReadDir) : list (string * FileStamp) + ScanError :=
  match rd with
  | NoDir => inl []
  | DirError => inr ReadDirFailed
  | Entries l =>
      match scan_loop p dir l [] 0 0 with
      | inl out => inl (merge_sort by_path out)
      | inr e => inr e
      end
  end.

(** ** What a read and a scan guarantee *)

Lemma read_open_ok f max bytes stamp :
  read_open_file f max = inl (bytes, stamp) ->
  exists b a all, before f = Some b /\ after f = Some a /\ contents f = Some all /\ is_file b = true /\
    stamp = from_metadata a /\ from_metadata b = stamp /\ byte_len bytes = len stamp /\ (byte_len bytes <= max)%Z.
Proof.
  unfold read_open_file. destruct (before f) as [b|]; [|done]. destruct (is_file b) eqn:Ef; [|done]. cbn [negb].
  destruct (max <? m_len b)%Z; [done|]. destruct (contents f) as [all|]; [|done]. cbn zeta.
  destruct (Z.ltb_spec max (byte_len (take_bytes (sat_add max 1) all))) as [|Hle]; [done|]. destruct (after f) as [a|]; [|done].
  case_bool_decide as Hs; [|done]. destruct (byte_len _ =? len _)%Z eqn:El; [|done]. cbn [negb orb]. intros [= <- <-].
  exists b, a, all. apply Z.eqb_eq in El. done.
Qed.

Lemma take_bytes_all n s : (byte_len (take_bytes n s) < n)%Z -> take_bytes n s = s.
Proof.
  unfold take_bytes. destruct (Z.leb_spec (byte_len s) n) as [|Hgt]; [done|]. intros Hlt. exfalso. revert Hlt.
  unfold byte_len in *. assert (forall k t, k <= String.length t -> String.length (String.substring 0 k t) = k) as Hsub.
  { induction k as [|k IH]; intros [|c t] Hk; simpl in *; try done; [lia|]. rewrite IH; lia. }
  rewrite Hsub by lia. lia.
Qed.

(** A read that succeeds saw the same regular file twice, unchanged, whole and within its limit. *)
Theorem stable_read_consistent first second max bytes stamp :
  (0 <= max < u64_max)%Z ->
  stable_read_with_hook first second max = inl (bytes, stamp) ->
  exists f1 f2, first = Open f1 /\ second = Open f2 /\
    contents f1 = Some bytes /\ contents f2 = Some bytes /\ (byte_len bytes <= max)%Z /\ byte_len bytes = len stamp /\
    forall m, before f1 = Some m \/ after f1 = Some m \/ before f2 = Some m \/ after f2 = Some m -> from_metadata m = stamp.
Proof.
  intros Hmax. unfold stable_read_with_hook. destruct first as [f1| |]; try done.
  destruct (read_open_file f1 max) as [[b1 s1]|] eqn:E1; [|done]. destruct second as [f2| |]; try done.
  destruct (read_open_file f2 max) as [[b2 s2]|] eqn:E2; [|done]. cbn [fst snd].
  case_bool_decide as Hs; [|done]. case_bool_decide as Hb; [|done]. cbn [negb orb]. intros [= <- <-]. subst.
  assert (Hall : forall f, read_open_file f max = inl (b2, s2) -> contents f = Some b2).
  { intros f E. pose proof E as E'. apply read_open_ok in E' as (b & a & all & Hb & Ha & Hc & Hf & _ & _ & _ & Hle).
    unfold read_open_file in E. rewrite Hb, Hf, Hc, Ha in E. cbn [negb] in E. destruct (max <? m_len b)%Z; [done|]. cbn zeta in E.
    destruct (max <? byte_len (take_bytes (sat_add max 1) all))%Z eqn:Et; [done|]. apply Z.ltb_ge in Et.
    destruct (_ || _); [done|]. injection E as Eq _. rewrite Hc, <- Eq. f_equal. symmetry. apply take_bytes_all.
    unfold sat_add in *. lia. }
  exists f1, f2. split_and!; try done; try by apply Hall.
  1-2: by apply read_open_ok in E2 as (? & ? & ? & ? & ? & ? & ? & ? & ? & ? & ?).
  apply read_open_ok in E1 as (x1 & a1 & ? & Hb1 & Ha1 & ? & ? & Hs1 & Hs1' & _).
  apply read_open_ok in E2 as (x2 & a2 & ? & Hb2 & Ha2 & ? & ? & Hs2 & Hs2' & _).
  intros m [Hm|[Hm|[Hm|Hm]]]; congruence.
Qed.

(** The entries of the directory that are plugin archives, in the order read. *)
Definition candidate (dir : string) (entry : option DirEntry) : option (string * FileStamp) :=
  e ← entry; m ← metadata e;
  if bool_decide (extension (file_name e) = Some "s2sp") && is_file m then Some (join dir (file_name e), from_metadata m) else None.

Lemma candidate_cons dir entry rd :
  omap (candidate dir) (entry :: rd) = match candidate dir entry with Some x => x :: omap (candidate dir) rd | None => omap (candidate dir) rd end.
Proof. done. Qed.

Lemma candidate_skip dir e : extension (file_name e) <> Some "s2sp" -> candidate dir (Some e) = None.
Proof. intros He. unfold candidate. cbn [mbind option_bind]. destruct (metadata e); [|done]. cbn [mbind option_bind]. by rewrite bool_decide_eq_false_2. Qed.

Definition weights (out : list (string * FileStamp)) : Z := foldr (fun ps n => path_len ps.1 + 96 + n)%Z 0%Z out.

Lemma scan_loop_ok p dir rd out total examined res :
  (0 <= total)%Z -> (path_bytes p < u64_max)%Z ->
  (weights out <= total + 96 * Z.of_nat (length out))%Z -> (Z.of_nat (length out) <= Z.max 0 (scan_candidates p))%Z -> (total <= path_bytes p)%Z ->
  scan_loop p dir rd out total examined = inl res ->
  res = out ++ omap (candidate dir) rd /\
  (weights res <= path_bytes p + 96 * Z.of_nat (length res))%Z /\ (Z.of_nat (length res) <= Z.max 0 (scan_candidates p))%Z.
Proof.
  intros Ht Hp. revert out total examined Ht. induction rd as [|entry rd IH]; intros out total examined Ht Hw Hn Htot; cbn [scan_loop].
  { intros [= <-]. rewrite app_nil_r. split_and!; [done|lia|done]. }
  cbn zeta. destruct (scan_entries p <? _)%Z; [done|]. destruct entry as [e|]; [|done].
  set (t := sat_add total (path_len (join dir (file_name e)))).
  assert (0 <= path_len (join dir (file_name e)))%Z by (unfold path_len, byte_len; lia).
  destruct (Z.ltb_spec (path_bytes p) t) as [|Hle]; [done|].
  assert (t = total + path_len (join dir (file_name e)))%Z as Heq by (unfold t, sat_add in *; lia).
  rewrite candidate_cons. case_bool_decide as He; cbn [negb].
  2: { rewrite candidate_skip by done. intros E. apply IH in E as (-> & ? & ?); [done|lia..]. }
  unfold candidate at 1. cbn [mbind option_bind]. destruct (metadata e) as [m|]; [|done]. cbn [mbind option_bind].
  rewrite bool_decide_eq_true_2 by done. cbn [andb].
  destruct (is_file m); cbn [negb]; [|intros E; by apply IH in E as (-> & ? & ?); [|lia..]].
  destruct (Z.leb_spec (scan_candidates p) (Z.of_nat (length out))) as [|Hc]; [done|]. intros E.
  apply IH in E as (-> & Hw' & Hn'); [|lia| |rewrite length_app; cbn; lia|done].
  - rewrite <- app_assoc in *. done.
  - rewrite length_app. cbn [length]. unfold weights in *. rewrite foldr_app. cbn [foldr fst].
    assert (forall a l, foldr (fun ps n => path_len ps.1 + 96 + n)%Z a l = (foldr (fun (ps : string * FileStamp) n => path_len ps.1 + 96 + n)%Z 0%Z l + a)%Z) as Hf.
    { intros a l. induction l as [|x l IHl]; cbn; [lia|]. rewrite IHl. lia. }
    rewrite Hf. lia.
Qed.

Lemma weights_nonneg out : (0 <= weights out)%Z.
Proof. unfold weights. induction out as [|x out IH]; cbn [foldr]; [done|]. unfold path_len, byte_len in *. lia. Qed.

Lemma weights_perm a b : a ≡ₚ b -> weights a = weights b.
Proof. unfold weights. induction 1; cbn; lia. Qed.

#[export] Instance by_path_trans : Transitive by_path.
Proof. intros a b c. unfold by_path. apply transitivity. Qed.
#[export] Instance by_path_total : Total by_path.
Proof. intros a b. unfold by_path. apply total, _. Qed.

(** A scan that succeeds lists exactly the regular [.s2sp] entries of the directory, in path order, and
    fits the bytes reserved for its result. *)
Lemma scan_plugins_exact p dir rd res :
  (0 <= path_bytes p < u64_max)%Z -> (0 <= scan_candidates p)%Z ->
  (path_bytes p + 96 * scan_candidates p <= u64_max)%Z ->
  scan_plugins p dir rd = inl res ->
  res ≡ₚ omap (candidate dir) (match rd with Entries l => l | _ => [] end) /\ Sorted by_path res /\
  (weights res <= scan_result_reservation p)%Z.
Proof.
  intros Hp Hc Hsum. unfold scan_plugins, scan_result_reservation, sat_mul, sat_add. destruct rd as [l| |]; [|by intros [= <-]; split_and!; [done|constructor|cbn; lia]|done].
  destruct (scan_loop p dir l [] 0 0) as [out|] eqn:E; [|done]. intros [= <-].
  apply scan_loop_ok in E as (-> & Hw & Hn); [|cbn; lia..]. cbn [app] in *.
  split_and!; [apply merge_sort_Permutation|apply (Sorted_merge_sort _)|].
  rewrite (weights_perm _ _ (merge_sort_Permutation _ _)). lia.
Qed.
End FileRead.

(** ** Archives *)
Module ArchiveRead.
Import FileRead.
Section ArchiveRead.
Context {num : Type} `{JsonNumber num}.

(** One member of a zip archive: its name, the bytes of the raw name, the size it declares, and what
    decompressing it to the end yields. *)
Record ZipEntry := mkZip { name : string; name_raw_len : Z; size : Z; data : option string }.
Record ZipArchive := mkArchive { entries : Z; by_index : nat -> option ZipEntry; by_name : string -> option ZipEntry }.

Inductive ArchiveError :=
| NotAZip | EntryCount | BadEntry (index : nat) | DuplicateFunctions | NameBytes | MissingMember (name : string)
| MemberLimit (name : string) | MemberRead (name : string) | MemberUtf8 (name : string) | BadManifest
| BadContract (e : Contract.ContractError) | ReservedOwner | BadFunctions (e : string) | FunctionsMismatch.

(** Third-party readers: the zip container, the manifest's JSON; and the engine-function contract
    check of core/src/engine_functions/contract.rs, which is not modelled. *)
Variable zip_new : string -> option ZipArchive.
Variable from_json : string -> option (Contract.Manifest num).
Variable functions_check : string -> string -> Json.Value num -> list string -> option string.
Variable to_vec : Contract.Metadata num -> option string.
Variable sha256_hex : string -> string.

Definition RESERVED_OWNER_PREFIX : string := "game-package:".
Definition is_reserved_owner (id : string) : bool := String.prefix RESERVED_OWNER_PREFIX id.

Definition read_zip_member (archive : ZipArchive) (name : string) (max : Z) (required : bool) : option string + ArchiveError :=
  match by_name archive name with
  | None => if negb required then inl None else inr (MissingMember name)
  | Some e =>
      if (max <? size e)%Z then inr (MemberLimit name)
      else
        match data e with
        | None => inr (MemberRead name)
        | Some all =>
            let bytes := take_bytes (sat_add max 1) all in
            if (max <? byte_len bytes)%Z then inr (MemberLimit name)
            else match Utf8.from_utf8 bytes with Some t => inl (Some t) | None => inr (MemberUtf8 name) end
        end
  end.

(** The first pass over the directory, from [index]; [n] entries are left. *)
Fixpoint check_entries (archive : ZipArchive) (limits : ParseLimits) (n index : nat) (name_bytes engine_members : Z) : option ArchiveError :=
  match n with
  | O => None
  | S n =>
      match by_index archive index with
      | None => Some (BadEntry index)
      | Some e =>
          let engine_members := if String.eqb (name e) "engine-functions.json" then (engine_members + 1)%Z else engine_members in
          if (1 <? engine_members)%Z then Some DuplicateFunctions
          else
            let name_bytes := sat_add name_bytes (name_raw_len e) in
            if (member_name_bytes limits <? name_bytes)%Z then Some NameBytes
            else check_entries archive limits n (S index) name_bytes engine_members
      end
  end.

Record Parts := mkParts {
  p_manifest : Contract.Manifest num;
  p_js : string;
  p_gamedata : option string;
  p_functions : option string;
  p_manifest_bytes : Z;
}.

(** A required member is never absent ([read_zip_member] fails), so the two [unwrap]s do not panic: their
    branches below are unreachable. *)
Definition parse_s2sp_parts (bytes : string) (limits : ParseLimits) : Parts + ArchiveError :=
  match zip_new bytes with
  | None => inr NotAZip
  | Some archive =>
      if (zip_entries limits <? entries archive)%Z then inr EntryCount
      else
        match check_entries archive limits (Z.to_nat (entries archive)) 0 0 0 with
        | Some e => inr e
        | None =>
            match read_zip_member archive "manifest.json" (manifest_bytes limits) true with
            | inr e => inr e
            | inl None => inr BadManifest
            | inl (Some manifest_json) =>
                match from_json manifest_json with
                | None => inr BadManifest
                | Some manifest =>
                    match Contract.validate_manifest to_vec sha256_hex manifest with
                    | Some e => inr (BadContract e)
                    | None =>
                        if is_reserved_owner (Contract.id manifest) then inr ReservedOwner
                        else
                          match read_zip_member archive "plugin.js" (plugin_js_bytes limits) true with
                          | inr e => inr e
                          | inl None => inr (MissingMember "plugin.js")
                          | inl (Some js) =>
                              let gamedata := match read_zip_member archive "gamedata.json" (gamedata_bytes limits) false with
                                              | inl g => g
                                              | inr _ => None end in
                              match read_zip_member archive "engine-functions.json" (engine_functions_bytes limits) false with
                              | inr e => inr e
                              | inl fns =>
                                  let parts := mkParts manifest js gamedata fns (byte_len manifest_json) in
                                  match Contract.engine_functions manifest, fns with
                                  | Some summary, Some member =>
                                      match functions_check member (Contract.id manifest) summary (Contract.permissions manifest) with
                                      | Some e => inr (BadFunctions e)
                                      | None => inl parts
                                      end
                                  | None, None => inl parts
                                  | _, _ => inr FunctionsMismatch
                                  end
                              end
                          end
                    end
                end
            end
        end
  end.

(** The bytes a prepared plugin keeps resident. *)
Definition resident_bytes (p : Parts) : Z :=
  sat_add (sat_add (sat_add (sat_add (byte_len (p_js p)) (match p_gamedata p with Some g => byte_len g | None => 0%Z end))
    (match p_functions p with Some f => byte_len f | None => 0%Z end)) (p_manifest_bytes p)) 64.

Lemma read_zip_member_fits archive name max required t :
  read_zip_member archive name max required = inl (Some t) -> (byte_len t <= max)%Z.
Proof.
  unfold read_zip_member. destruct (by_name archive name) as [e|]; [|by destruct required]. destruct (max <? size e)%Z; [done|].
  destruct (data e) as [all|]; [|done]. cbn zeta. destruct (Z.ltb_spec max (byte_len (take_bytes (sat_add max 1) all))) as [|Hle]; [done|].
  destruct (Utf8.from_utf8 _) as [u|] eqn:E; [|done]. intros [= <-]. apply Utf8.utf8_valid_lossy in E as [-> _]. done.
Qed.

(** An archive that parses passed every gate, and its members fit the limits they were read under. *)
Lemma parse_s2sp_ok bytes limits p :
  parse_s2sp_parts bytes limits = inl p ->
  Contract.validate_manifest to_vec sha256_hex (p_manifest p) = None /\
  is_reserved_owner (Contract.id (p_manifest p)) = false /\
  (Contract.engine_functions (p_manifest p) = None <-> p_functions p = None) /\
  (byte_len (p_js p) <= plugin_js_bytes limits)%Z /\ (0 <= p_manifest_bytes p <= manifest_bytes limits)%Z /\
  (forall g, p_gamedata p = Some g -> (byte_len g <= gamedata_bytes limits)%Z) /\
  (forall f, p_functions p = Some f -> (byte_len f <= engine_functions_bytes limits)%Z).
Proof.
  unfold parse_s2sp_parts. destruct (zip_new bytes) as [ar|]; [|done]. destruct (_ <? entries ar)%Z; [done|].
  destruct (check_entries _ _ _ _ _ _); [done|].
  destruct (read_zip_member ar "manifest.json" _ _) as [[mj|]|] eqn:Em; [|done..]. apply read_zip_member_fits in Em.
  destruct (from_json mj) as [m|]; [|done]. destruct (Contract.validate_manifest _ _ m) eqn:Ev; [done|].
  destruct (is_reserved_owner _) eqn:Er; [done|].
  destruct (read_zip_member ar "plugin.js" _ _) as [[js|]|] eqn:Ejs; [|done..]. apply read_zip_member_fits in Ejs.
  set (g := match read_zip_member ar "gamedata.json" _ _ with inl g => g | inr _ => None end).
  assert (forall x, g = Some x -> (byte_len x <= gamedata_bytes limits)%Z) as Hg.
  { unfold g. intros x. destruct (read_zip_member ar "gamedata.json" _ _) as [y|] eqn:Eg; [|done]. intros ->. by apply read_zip_member_fits in Eg. }
  destruct (read_zip_member ar "engine-functions.json" _ _) as [fns|] eqn:Ef; [|done].
  assert (forall x, fns = Some x -> (byte_len x <= engine_functions_bytes limits)%Z) as Hf.
  { intros x ->. by apply read_zip_member_fits in Ef. }
  assert (0 <= byte_len mj)%Z by (unfold byte_len; lia). cbn zeta.
  destruct (Contract.engine_functions m) as [sm|] eqn:Es, fns as [member|]; try done; [destruct (functions_check _ _ _ _); [done|]|];
    intros [= <-]; cbn; split_and!; try done; rewrite ?Es; done.
Qed.

Lemma resident_bytes_bound bytes limits p :
  parse_s2sp_parts bytes limits = inl p ->
  (0 <= gamedata_bytes limits)%Z -> (0 <= engine_functions_bytes limits)%Z ->
  (0 <= resident_bytes p <= plugin_js_bytes limits + gamedata_bytes limits + engine_functions_bytes limits + manifest_bytes limits + 64)%Z.
Proof.
  intros (_ & _ & _ & Hjs & Hm & Hg & Hf)%parse_s2sp_ok H1 H2. unfold resident_bytes, sat_add.
  assert (forall t, (0 <= byte_len t)%Z) as Hpos by (unfold byte_len; lia). pose proof (Hpos (p_js p)).
  assert (0 < u64_max)%Z by done.
  destruct (p_gamedata p) as [g|], (p_functions p) as [f|];
    repeat match goal with H : forall _, Some ?x = Some _ -> _ |- _ => specialize (H x eq_refl); pose proof (Hpos x) end; lia.
Qed.
End ArchiveRead.
End ArchiveRead.
