(* ===== verification/ConfigBaselines.v ===== *)
(** The committed contents of watched config files (core/src/loader_worker.rs, [ConfigBaselines]).

    The loader worker remembers, per config path, the content its watchers last applied (the baseline)
    and the content it has proposed to them since. A read is compared with the baseline; the main thread
    resolves the proposal once every consumer handled it; the last watcher retires the path. Both kinds of
    entry draw on one budget of paths and bytes. Contents are texts; [None] is a missing file. *)
From S2P Require Import Prelude.
From S2P Require Import AsyncLimits.
Import LoaderPolicy.

(** Counters of refusals, shared with the worker's queue. *)
Record WorkerRejections := mkRejections {
  rj_request_items : Z;
  rj_request_bytes : Z;
  rj_result_items : Z;
  rj_result_bytes : Z;
  rj_control_items : Z;
  rj_control_bytes : Z;
  rj_config_paths : Z;
  rj_config_bytes : Z;
}.
Definition no_rejections : WorkerRejections := mkRejections 0 0 0 0 0 0 0 0.

Module ConfigBaselines.

Record ConfigHighWater := mkHigh {
  h_config_paths : Z;
  h_config_bytes : Z;
  h_baseline_items : Z;
  h_baseline_bytes : Z;
  h_proposal_items : Z;
  h_proposal_bytes : Z;
}.

Record ConfigBaseline := mkBaseline { b_generation : Z; b_content : option string }.
Record ConfigProposal := mkProposal { p_generation : Z; p_revision : Z; p_content : option string }.

Record ConfigBaselines := mkBaselines {
  values : gmap string ConfigBaseline;
  proposals : gmap string ConfigProposal;
  bytes : Z;
  rejected : WorkerRejections;
  high_water : ConfigHighWater;
}.

Record ConfigMetrics := mkMetrics {
  config_paths : Z;
  config_bytes : Z;
  baseline_items : Z;
  baseline_bytes : Z;
  proposal_items : Z;
  proposal_bytes : Z;
  m_rejected : WorkerRejections;
  m_high_water : ConfigHighWater;
}.

Definition new : ConfigBaselines := mkBaselines ∅ ∅ 0 no_rejections (mkHigh 0 0 0 0 0 0).

Inductive WatchDelta := NotRequested | Seed | Unchanged | Changed | Pressure.
#[export] Instance WatchDelta_eq_dec : EqDecision WatchDelta.
Proof. solve_decision. Defined.

Definition path_len (path : string) : Z := Z.of_nat (String.length path).
Definition entry_bytes (path : string) (content : option string) : Z :=
  sat_add (path_len path) (match content with Some c => Z.of_nat (String.length c) | None => 0 end).

Definition path_count (b : ConfigBaselines) : Z :=
  Z.of_nat (size (values b)) + countb (fun kv => negb (bool_decide (kv.1 ∈ dom (values b)))) (map_to_list (proposals b)).

Definition value_size (path : string) (v : ConfigBaseline) : Z := entry_bytes path (b_content v).
Definition proposal_size (path : string) (p : ConfigProposal) : Z := entry_bytes path (p_content p).
Definition sum_values (b : ConfigBaselines) : Z :=
  foldr (fun kv n => sat_add n (value_size kv.1 kv.2)) 0 (map_to_list (values b)).
Definition sum_proposals (b : ConfigBaselines) : Z :=
  foldr (fun kv n => sat_add n (proposal_size kv.1 kv.2)) 0 (map_to_list (proposals b)).

Definition metrics (b : ConfigBaselines) : ConfigMetrics :=
  mkMetrics (path_count b) (bytes b) (Z.of_nat (size (values b))) (sum_values b)
    (Z.of_nat (size (proposals b))) (sum_proposals b) (rejected b) (high_water b).

Definition update_high_water (b : ConfigBaselines) : ConfigBaselines :=
  let m := metrics b in
  let h := high_water b in
  mkBaselines (values b) (proposals b) (bytes b) (rejected b)
    (mkHigh (Z.max (h_config_paths h) (config_paths m)) (Z.max (h_config_bytes h) (config_bytes m))
            (Z.max (h_baseline_items h) (baseline_items m)) (Z.max (h_baseline_bytes h) (baseline_bytes m))
            (Z.max (h_proposal_items h) (proposal_items m)) (Z.max (h_proposal_bytes h) (proposal_bytes m))).

Definition drop_proposal (b : ConfigBaselines) (path : string) : ConfigBaselines :=
  match proposals b !! path with
  | Some p => mkBaselines (values b) (delete path (proposals b)) (sat_sub (bytes b) (entry_bytes path (p_content p))) (rejected b) (high_water b)
  | None => b
  end.

(** The order of (generation, revision) stamps. *)
Definition stamp_ltb (a b : Z * Z) : bool := (a.1 <? b.1) || ((a.1 =? b.1) && (a.2 <? b.2)).

Definition discard_superseded (b : ConfigBaselines) (path : string) (generation revision : Z) : ConfigBaselines :=
  match proposals b !! path with
  | Some p => if stamp_ltb (p_generation p, p_revision p) (generation, revision) then drop_proposal b path else b
  | None => b
  end.

Definition reject (r : WorkerRejections) (paths bytes : bool) : WorkerRejections :=
  mkRejections (rj_request_items r) (rj_request_bytes r) (rj_result_items r) (rj_result_bytes r) (rj_control_items r) (rj_control_bytes r)
    (if paths then sat_add (rj_config_paths r) 1 else rj_config_paths r)
    (if bytes then sat_add (rj_config_bytes r) 1 else rj_config_bytes r).

(** Record the proposal if the budget has room for it. *)
Definition propose (b : ConfigBaselines) (path : string) (generation revision : Z) (content : option string)
    (policy : LoaderPolicy) (decision : WatchDelta) : ConfigBaselines * WatchDelta :=
  let b := drop_proposal b path in
  let new_path := negb (bool_decide (path ∈ dom (values b))) && negb (bool_decide (path ∈ dom (proposals b))) in
  let new_bytes := entry_bytes path content in
  let no_paths := new_path && (config_baseline_items policy <=? path_count b) in
  let no_bytes := config_baseline_bytes policy <? sat_add (bytes b) new_bytes in
  if no_paths || no_bytes then
    (mkBaselines (values b) (proposals b) (bytes b) (reject (rejected b) no_paths no_bytes) (high_water b), Pressure)
  else
    (update_high_water
       (mkBaselines (values b) (<[path := mkProposal generation revision content]> (proposals b)) (sat_add (bytes b) new_bytes)
                    (rejected b) (high_water b)), decision).

Definition compare_and_propose (b : ConfigBaselines) (path : string) (generation revision : Z) (content : option string)
    (policy : LoaderPolicy) : ConfigBaselines * WatchDelta :=
  match values b !! path with
  | Some old =>
      if negb (b_generation old =? generation) then propose b path generation revision content policy Seed
      else if bool_decide (b_content old = content) then (drop_proposal b path, Unchanged)
      else propose b path generation revision content policy Changed
  | None => propose b path generation revision content policy Seed
  end.

Definition resolve (b : ConfigBaselines) (path : string) (generation revision : Z) (applied : bool) : ConfigBaselines :=
  match proposals b !! path with
  | None => b
  | Some p =>
      if negb (p_generation p =? generation) || negb (p_revision p =? revision) then b
      else
        let bytes1 := sat_sub (bytes b) (entry_bytes path (p_content p)) in
        if negb applied then mkBaselines (values b) (delete path (proposals b)) bytes1 (rejected b) (high_water b)
        else
          let bytes2 := match values b !! path with
                        | Some old => sat_sub bytes1 (entry_bytes path (b_content old))
                        | None => bytes1 end in
          update_high_water
            (mkBaselines (<[path := mkBaseline (p_generation p) (p_content p)]> (values b)) (delete path (proposals b))
                         (sat_add bytes2 (entry_bytes path (p_content p))) (rejected b) (high_water b))
  end.

Definition retire (b : ConfigBaselines) (path : string) (generation : Z) : ConfigBaselines :=
  let b := match values b !! path with
           | Some old =>
               if b_generation old <=? generation
               then mkBaselines (delete path (values b)) (proposals b) (sat_sub (bytes b) (entry_bytes path (b_content old))) (rejected b) (high_water b)
               else b
           | None => b
           end in
  match proposals b !! path with
  | Some p => if p_generation p <=? generation then drop_proposal b path else b
  | None => b
  end.

(** ** Steps of the table *)
Inductive op :=
| Discard (path : string) (generation revision : Z)
| Propose (path : string) (generation revision : Z) (content : option string)
| Resolve (path : string) (generation revision : Z) (applied : bool)
| Retire (path : string) (generation : Z).

Definition step (policy : LoaderPolicy) (b : ConfigBaselines) (o : op) : ConfigBaselines :=
  match o with
  | Discard path g r => discard_superseded b path g r
  | Propose path g r c => (compare_and_propose b path g r c policy).1
  | Resolve path g r a => resolve b path g r a
  | Retire path g => retire b path g
  end.
Definition run (policy : LoaderPolicy) (os : list op) : ConfigBaselines := foldl (step policy) new os.

(** ** Accounting *)

Definition total (b : ConfigBaselines) : Z := kvsum value_size (values b) + kvsum proposal_size (proposals b).
Definition all_paths (b : ConfigBaselines) : gset string := dom (values b) ∪ dom (proposals b).

Record within (policy : LoaderPolicy) (b : ConfigBaselines) : Prop := {
  w_bytes : bytes b = total b;
  w_bound : bytes b <= config_baseline_bytes policy;
  w_paths : Z.of_nat (size (all_paths b)) <= Z.max 0 (config_baseline_items policy);
}.

Lemma baselines_entry_nonneg path c : 0 <= entry_bytes path c.
Proof. unfold entry_bytes, sat_add, path_len. assert (0 <= u64_max) by done. destruct c; lia. Qed.

Lemma baselines_parts_nonneg b : 0 <= kvsum value_size (values b) /\ 0 <= kvsum proposal_size (proposals b).
Proof. split; apply kvsum_nonneg; intros; apply baselines_entry_nonneg. Qed.

(** The paths counted are the paths with an entry of either kind. *)
Lemma baselines_path_count b : path_count b = Z.of_nat (size (all_paths b)).
Proof.
  unfold path_count, all_paths. rewrite size_union_alt, size_dom. rewrite Nat2Z.inj_add. f_equal. unfold countb. f_equal.
  rewrite <- (length_fmap fst). rewrite <- (size_list_to_set (C := gset string)).
  - f_equal. apply set_eq. intros x. rewrite elem_of_list_to_set, elem_of_difference, elem_of_dom, list_elem_of_fmap. split.
    + intros ([k p] & -> & Hin). apply elem_of_filterb in Hin as [Hf Hin%elem_of_map_to_list]. cbn in *.
      apply negb_true_iff, bool_decide_eq_false in Hf. split; [eauto|done].
    + intros [[p Hp] Hn]. exists (x, p). split; [done|]. apply elem_of_filterb. cbn. rewrite bool_decide_eq_false_2 by done.
      split; [done|]. by apply elem_of_map_to_list.
  - apply filterb_fmap_NoDup, NoDup_fst_map_to_list.
Qed.

Lemma baselines_high_water policy b : within policy (update_high_water b) <-> within policy b.
Proof. split; intros [H1 H2 H3]; by split. Qed.

Lemma baselines_drop policy b path : within policy b -> within policy (drop_proposal b path).
Proof.
  intros [H1 H2 H3]. unfold drop_proposal. destruct (proposals b !! path) as [p|] eqn:E; [|by split].
  pose proof (kvsum_delete proposal_size (proposals b) path) as Hd. rewrite E in Hd. cbn in Hd. unfold proposal_size at 3 in Hd.
  pose proof (baselines_parts_nonneg (mkBaselines (values b) (delete path (proposals b)) 0 (rejected b) (high_water b))) as [Hv Hp].
  cbn in Hv, Hp. unfold total, sat_sub in *. pose proof (baselines_entry_nonneg path (p_content p)). split; cbn [bytes values proposals]; [unfold total; cbn; lia|lia|].
  unfold all_paths in *. cbn. rewrite dom_delete_L. etrans; [|exact H3]. apply Nat2Z.inj_le, subseteq_size. set_solver.
Qed.

Lemma baselines_propose policy b path g r c d :
  0 <= config_baseline_bytes policy < u64_max -> within policy b -> within policy (propose b path g r c policy d).1.
Proof.
  intros Hpol Hb%(baselines_drop policy b path). unfold propose. cbn zeta. assert (proposals (drop_proposal b path) !! path = None) as Hfresh.
  { unfold drop_proposal. destruct (proposals b !! path) eqn:E; [by apply lookup_delete_eq|done]. }
  set (b' := drop_proposal b path) in *. destruct (_ || _) eqn:E; [destruct Hb; by split|]. cbn [fst]. apply baselines_high_water.
  destruct Hb as [H1 H2 H3]. apply orb_false_iff in E as [E1 E2]. apply Z.ltb_ge in E2.
  pose proof (baselines_parts_nonneg b') as [Hv Hp]. pose proof (baselines_entry_nonneg path c).
  assert (bytes b' + entry_bytes path c = sat_add (bytes b') (entry_bytes path c)) as Hs by (unfold sat_add in *; lia).
  split; cbn [bytes values proposals].
  - unfold total in *. cbn. rewrite kvsum_insert_new by done. unfold proposal_size at 1. cbn. lia.
  - lia.
  - unfold all_paths in *. cbn. rewrite dom_insert_L. destruct (decide (path ∈ dom (values b') ∪ dom (proposals b'))) as [Hin|Hout].
    + replace (dom (values b') ∪ ({[path]} ∪ dom (proposals b'))) with (dom (values b') ∪ dom (proposals b')) by set_solver. done.
    + rewrite !bool_decide_eq_false_2 in E1 by set_solver. cbn in E1. apply Z.leb_gt in E1. rewrite baselines_path_count in E1. unfold all_paths in E1.
      replace (dom (values b') ∪ ({[path]} ∪ dom (proposals b'))) with ({[path]} ∪ (dom (values b') ∪ dom (proposals b'))) by set_solver.
      rewrite size_union, size_singleton by set_solver. lia.
Qed.

Lemma baselines_resolve policy b path g r a :
  0 <= config_baseline_bytes policy < u64_max -> within policy b -> within policy (resolve b path g r a).
Proof.
  intros Hpol Hb.
  unfold resolve. destruct (proposals b !! path) as [p|] eqn:E; [|done]. destruct (_ || _); [done|].
  pose proof (baselines_drop policy b path Hb) as Hd. unfold drop_proposal in Hd. rewrite E in Hd. destruct a; cbn [negb]; [|done].
  apply baselines_high_water. destruct Hb as [H1 H2 H3], Hd as [D1 D2 D3]. cbn [bytes values proposals] in *.
  set (B1 := sat_sub (bytes b) (entry_bytes path (p_content p))) in *.
  pose proof (baselines_entry_nonneg path (p_content p)) as Hpn. assert (B1 + entry_bytes path (p_content p) <= bytes b) as HB1.
  { unfold B1, sat_sub, total in *. cbn in D1. pose proof (kvsum_delete proposal_size (proposals b) path) as Hd. rewrite E in Hd. cbn in Hd.
    unfold proposal_size at 3 in Hd. lia. }
  pose proof (kvsum_insert value_size (values b) path (mkBaseline (p_generation p) (p_content p))) as Hi. unfold value_size at 4 in Hi. cbn in Hi.
  pose proof (kvsum_nonneg value_size (delete path (values b)) ltac:(intros; apply baselines_entry_nonneg)) as Hvd. rewrite kvsum_delete in Hvd.
  pose proof (baselines_parts_nonneg (mkBaselines (values b) (delete path (proposals b)) 0 (rejected b) (high_water b))) as [_ Hpd]. cbn in Hpd.
  unfold total in D1. cbn in D1. split; cbn [bytes values proposals].
  + unfold total. cbn. unfold value_size at 2 in Hvd. unfold sat_add, sat_sub, value_size in *. destruct (values b !! path) as [old|]; cbn in *; [pose proof (baselines_entry_nonneg path (b_content old))|]; lia.
  + unfold sat_add, sat_sub, value_size in *. destruct (values b !! path) as [old|]; cbn in *; [pose proof (baselines_entry_nonneg path (b_content old))|]; lia.
  + unfold all_paths in *. cbn. rewrite dom_insert_L, dom_delete_L. apply elem_of_dom_2 in E.
    replace ({[path]} ∪ dom (values b) ∪ dom (proposals b) ∖ {[path]}) with (dom (values b) ∪ dom (proposals b)); [done|].
    apply set_eq. intros x. destruct (decide (x = path)) as [->|]; set_solver.
Qed.

Lemma baselines_retire policy b path g : within policy b -> within policy (retire b path g).
Proof.
  intros Hb.
  unfold retire. set (b1 := match values b !! path with Some _ => _ | None => b end). assert (within policy b1) as Hb1.
  { unfold b1. destruct (values b !! path) as [old|] eqn:E; [|done]. destruct (_ <=? _); [|done]. destruct Hb as [H1 H2 H3].
    pose proof (kvsum_delete value_size (values b) path) as Hd. rewrite E in Hd. cbn in Hd. unfold value_size at 3 in Hd.
    pose proof (baselines_parts_nonneg (mkBaselines (delete path (values b)) (proposals b) 0 (rejected b) (high_water b))) as [Hv Hp]. cbn in Hv, Hp.
    unfold total, sat_sub in *. pose proof (baselines_entry_nonneg path (b_content old)). split; cbn [bytes values proposals]; [unfold total; cbn; lia|lia|].
    unfold all_paths in *. cbn. rewrite dom_delete_L. etrans; [|exact H3]. apply Nat2Z.inj_le, subseteq_size. set_solver. }
  destruct (proposals b1 !! path); [|done]. destruct (_ <=? _); [by apply baselines_drop|done].
Qed.

Lemma baselines_step policy b o :
  0 <= config_baseline_bytes policy < u64_max -> within policy b -> within policy (step policy b o).
Proof.
  intros Hpol Hb. destruct o as [path g r|path g r c|path g r a|path g]; cbn [step].
  - unfold discard_superseded. destruct (proposals b !! path); [|done]. destruct (stamp_ltb _ _); [by apply baselines_drop|done].
  - unfold compare_and_propose. destruct (values b !! path) as [old|]; [|by apply baselines_propose].
    destruct (negb _); [by apply baselines_propose|]. case_bool_decide; [by apply baselines_drop|by apply baselines_propose].
  - by apply baselines_resolve.
  - by apply baselines_retire.
Qed.

(** Whatever is proposed, resolved and retired, in whatever order, the byte counter is the size of what
    is kept, and neither it nor the number of paths exceeds the policy. *)
Theorem baselines_bounded policy os :
  0 <= config_baseline_bytes policy < u64_max ->
  bytes (run policy os) = total (run policy os) /\ bytes (run policy os) <= config_baseline_bytes policy /\
  path_count (run policy os) <= Z.max 0 (config_baseline_items policy).
Proof.
  intros Hpol. assert (within policy (run policy os)) as [H1 H2 H3]; [|by rewrite baselines_path_count].
  unfold run. assert (within policy new) as Hnew.
  { split; cbn; [done|lia|]. unfold all_paths. cbn. rewrite !dom_empty_L, union_empty_l_L, size_empty. lia. }
  revert Hnew. generalize new. induction os as [|o os IH]; intros b Hb; [done|]. cbn. by apply IH, baselines_step.
Qed.

(** ** What a comparison answers *)
Lemma baselines_drop_spec b path :
  values (drop_proposal b path) = values b /\ proposals (drop_proposal b path) = delete path (proposals b).
Proof. unfold drop_proposal. destruct (proposals b !! path) eqn:E; [done|]. by rewrite delete_id. Qed.

Lemma baselines_propose_spec b path g r c policy d b' d' :
  propose b path g r c policy d = (b', d') ->
  values b' = values b /\
  ((d' = d /\ proposals b' = <[path := mkProposal g r c]> (delete path (proposals b))) \/
   (d' = Pressure /\ proposals b' = delete path (proposals b))).
Proof.
  unfold propose. cbn zeta. destruct (baselines_drop_spec b path) as [Hv Hp]. set (b1 := drop_proposal b path) in *.
  destruct (_ || _); intros [= <- <-]; cbn; (split; [done|]); [right; done|left]. by rewrite <- Hp.
Qed.

(** A read is called unchanged exactly when the committed baseline of this generation has its content,
    changed when it has another, a seed when there is none; anything but unchanged replaces the
    outstanding proposal, or drops it when the budget has no room. The baseline itself never moves. *)
Theorem baselines_delta_exact policy b path g r c b' d :
  compare_and_propose b path g r c policy = (b', d) ->
  values b' = values b /\ (forall q, q <> path -> proposals b' !! q = proposals b !! q) /\
  let proposed := proposals b' !! path = Some (mkProposal g r c) in
  match d with
  | Unchanged => values b !! path = Some (mkBaseline g c) /\ proposals b' !! path = None
  | Changed => (exists old, values b !! path = Some (mkBaseline g old) /\ old <> c) /\ proposed
  | Seed => (forall old, values b !! path = Some old -> b_generation old <> g) /\ proposed
  | Pressure => values b !! path <> Some (mkBaseline g c) /\ proposals b' !! path = None
  | NotRequested => False
  end.
Proof.
  unfold compare_and_propose. intros E. assert (forall d0, propose b path g r c policy d0 = (b', d) ->
    values b' = values b /\ (forall q, q <> path -> proposals b' !! q = proposals b !! q) /\
    ((d = d0 /\ proposals b' !! path = Some (mkProposal g r c)) \/ (d = Pressure /\ proposals b' !! path = None))) as Hprop.
  { intros d0 Hd. apply baselines_propose_spec in Hd as [Hv [[-> Hp]|[-> Hp]]]; (split; [done|]); rewrite Hp; (split; [intros q Hq|]).
    - by rewrite lookup_insert_ne, lookup_delete_ne by done.
    - left. by rewrite lookup_insert_eq.
    - by rewrite lookup_delete_ne by done.
    - right. by rewrite lookup_delete_eq. }
  destruct (values b !! path) as [[g0 c0]|] eqn:Ev; cbn [b_generation b_content] in E.
  - destruct (Z.eqb_spec g0 g) as [->|Hg]; cbn [negb] in E.
    + case_bool_decide as Hc.
      * destruct (baselines_drop_spec b path) as [Hv Hp]. injection E as <- <-. subst c0. rewrite Hp. split_and!; try done.
        -- intros q Hq. by rewrite lookup_delete_ne.
        -- by rewrite lookup_delete_eq.
      * destruct (Hprop _ E) as (Hv & Hq & [[-> Hp]|[-> Hp]]); split_and!; try done; eauto. congruence.
    + destruct (Hprop _ E) as (Hv & Hq & [[-> Hp]|[-> Hp]]); split_and!; try done; [by intros ? [= <-]|congruence].
  - destruct (Hprop _ E) as (Hv & Hq & [[-> Hp]|[-> Hp]]); split_and!; done.
Qed.

(** The committed baseline of a path moves only when its outstanding proposal is resolved as applied,
    to the proposed content, or when it is retired. *)
Theorem baselines_commit_exact policy b o path :
  values (step policy b o) !! path <> values b !! path ->
  (exists g r p, o = Resolve path g r true /\ proposals b !! path = Some p /\ p_generation p = g /\ p_revision p = r /\
     values (step policy b o) !! path = Some (mkBaseline g (p_content p))) \/
  (exists g old, o = Retire path g /\ values b !! path = Some old /\ b_generation old <= g /\ values (step policy b o) !! path = None).
Proof.
  destruct o as [q g r|q g r c|q g r a|q g]; cbn [step].
  - unfold discard_superseded. destruct (proposals b !! q); [|done]. destruct (stamp_ltb _ _); [|done]. by rewrite (proj1 (baselines_drop_spec b q)).
  - destruct (compare_and_propose b q g r c policy) as [b' d] eqn:E. cbn [fst]. intros Hne. destruct Hne. revert E. unfold compare_and_propose.
    destruct (baselines_drop_spec b q) as [Hdv _].
    repeat case_match; intros E; first [apply baselines_propose_spec in E as [-> _]; done | injection E as <- <-; by rewrite Hdv].
  - unfold resolve. destruct (proposals b !! q) as [p|] eqn:Ep; [|done]. destruct (Z.eqb_spec (p_generation p) g) as [Hg|]; [|done].
    destruct (Z.eqb_spec (p_revision p) r) as [Hr|]; [|done]. cbn [negb orb]. destruct a; [|done]. cbn [negb]. cbn.
    destruct (decide (q = path)) as [->|]; [|by rewrite lookup_insert_ne]. rewrite lookup_insert_eq. intros _. left. exists g, r, p. by subst.
  - unfold retire. set (b1 := match values b !! q with Some _ => _ | None => b end). intros Hne.
    assert (values (match proposals b1 !! q with Some p => if p_generation p <=? g then drop_proposal b1 q else b1 | None => b1 end) = values b1) as Hv.
    { destruct (proposals b1 !! q); [|done]. destruct (_ <=? _); [|done]. apply baselines_drop_spec. }
    rewrite Hv in *. right. unfold b1 in *. destruct (values b !! q) as [old|] eqn:E; [|done].
    destruct (Z.leb_spec (b_generation old) g); [|done]. cbn in *. destruct (decide (q = path)) as [->|]; [|by rewrite lookup_delete_ne in Hne].
    exists g, old. by rewrite lookup_delete_eq.
Qed.

(** ** Who owns what *)

(** The table holds an entry of this generation for the path. *)
Definition owned (b : ConfigBaselines) (path : string) (g : Z) : Prop :=
  (exists v, values b !! path = Some v /\ b_generation v = g) \/ (exists p, proposals b !! path = Some p /\ p_generation p = g).

Lemma owned_drop b path q g : owned (drop_proposal b path) q g -> owned b q g.
Proof.
  unfold owned. destruct (baselines_drop_spec b path) as [-> ->]. intros [H|(p & Hp & Hg)]; [by left|right].
  apply lookup_delete_Some in Hp as [_ Hp]. eauto.
Qed.

Lemma owned_discard b path g r q h : owned (discard_superseded b path g r) q h -> owned b q h.
Proof. unfold discard_superseded. destruct (proposals b !! path); [|done]. destruct (stamp_ltb _ _); [apply owned_drop|done]. Qed.

Lemma owned_compare b path g r c policy q h :
  owned (compare_and_propose b path g r c policy).1 q h -> owned b q h \/ (q = path /\ h = g).
Proof.
  assert (forall d, owned (propose b path g r c policy d).1 q h -> owned b q h \/ (q = path /\ h = g)) as Hp.
  { intros d. destruct (propose b path g r c policy d) as [b' d'] eqn:E. apply baselines_propose_spec in E as [Hv Hp]. cbn.
    unfold owned. rewrite Hv. intros [H|(p & Hq & Hg)]; [by left; left|]. destruct Hp as [[_ Hp]|[_ Hp]]; rewrite Hp in Hq.
    - apply lookup_insert_Some in Hq as [[<- <-]|[_ [_ Hq]%lookup_delete_Some]]; [by right|left; right; eauto].
    - apply lookup_delete_Some in Hq as [_ Hq]. left. right. eauto. }
  unfold compare_and_propose. destruct (values b !! path) as [old|]; [|apply Hp]. destruct (negb _); [apply Hp|].
  case_bool_decide; [intros H1%owned_drop; by left|apply Hp].
Qed.

Lemma owned_resolve b path g r a q h : owned (resolve b path g r a) q h -> owned b q h.
Proof.
  unfold resolve. destruct (proposals b !! path) as [p|] eqn:E; [|done]. destruct (_ || _); [done|]. unfold owned. destruct a; cbn.
  - intros [(v & Hv & Hg)|(p' & Hp & Hg)].
    + apply lookup_insert_Some in Hv as [[<- <-]|[_ Hv]]; [right; eauto|left; eauto].
    + apply lookup_delete_Some in Hp as [_ Hp]. right. eauto.
  - intros [(v & Hv & Hg)|(p' & Hp & Hg)]; [left; eauto|]. apply lookup_delete_Some in Hp as [_ Hp]. right. eauto.
Qed.

Lemma owned_retire b path g q h : owned (retire b path g) q h -> owned b q h /\ (q = path -> g < h).
Proof.
  unfold retire. set (b1 := match values b !! path with Some _ => _ | None => b end).
  assert (proposals b1 = proposals b /\ forall k v, values b1 !! k = Some v -> values b !! k = Some v /\ (k = path -> g < b_generation v)) as [Hp Hv].
  { unfold b1. destruct (values b !! path) as [old|] eqn:E; [|split; [done|]; intros k v Hk; split; [done|intros ->; congruence]].
    destruct (Z.leb_spec (b_generation old) g); cbn; (split; [done|]); intros k v Hk.
    - apply lookup_delete_Some in Hk as [Hne Hk]. split; [done|by intros ->].
    - split; [done|]. intros ->. by simplify_eq. }
  destruct (proposals b1 !! path) as [p|] eqn:E.
  - destruct (Z.leb_spec (p_generation p) g).
    + unfold owned. destruct (baselines_drop_spec b1 path) as [-> ->]. rewrite Hp. intros [(v & Hk & <-)|(p' & Hk & <-)].
      * apply Hv in Hk as [Hk Hlt]. split; [left; eauto|done].
      * apply lookup_delete_Some in Hk as [Hne Hk]. split; [right; eauto|by intros ->].
    + unfold owned. rewrite Hp in *. intros [(v & Hk & <-)|(p' & Hk & <-)].
      * apply Hv in Hk as [Hk Hlt]. split; [left; eauto|done].
      * split; [right; eauto|]. intros ->. by simplify_eq.
  - unfold owned. rewrite Hp in *. intros [(v & Hk & <-)|(p' & Hk & <-)].
    + apply Hv in Hk as [Hk Hlt]. split; [left; eauto|done].
    + split; [right; eauto|]. intros ->. congruence.
Qed.
End ConfigBaselines.

Module ConfigBaselinesExamples.
Import ConfigBaselines.

Definition seeded : ConfigBaselines := run policy_default [Propose "a.jsonc" 1 1 (Some "x"); Resolve "a.jsonc" 1 1 true].
Example seed_then_change :
  (compare_and_propose seeded "a.jsonc" 1 2 (Some "x") policy_default).2 = Unchanged /\
  (compare_and_propose seeded "a.jsonc" 1 2 None policy_default).2 = Changed /\
  (compare_and_propose seeded "a.jsonc" 2 2 (Some "x") policy_default).2 = Seed.
Proof. done. Qed.

Lemma baselines_bounded_witness :
  let b := run policy_default [Propose "a.jsonc" 1 1 (Some "x"); Resolve "a.jsonc" 1 1 true; Retire "a.jsonc" 1] in
  bytes b = total b /\ bytes b <= config_baseline_bytes policy_default /\ path_count b <= Z.max 0 (config_baseline_items policy_default).
Proof. apply (baselines_bounded policy_default [Propose "a.jsonc" 1 1 (Some "x"); Resolve "a.jsonc" 1 1 true; Retire "a.jsonc" 1]). done. Defined.

Lemma baselines_delta_exact_witness :
  let b' := (compare_and_propose seeded "a.jsonc" 1 2 None policy_default).1 in
  values b' = values seeded /\ (forall q, q <> "a.jsonc" -> proposals b' !! q = proposals seeded !! q) /\
  ((exists old, values seeded !! "a.jsonc" = Some (mkBaseline 1 old) /\ old <> None) /\
   proposals b' !! "a.jsonc" = Some (mkProposal 1 2 None)).
Proof.
  apply (baselines_delta_exact policy_default seeded "a.jsonc" 1 2 None (compare_and_propose seeded "a.jsonc" 1 2 None policy_default).1 Changed).
  vm_compute. reflexivity.
Defined.

Lemma baselines_commit_exact_witness :
  let b := run policy_default [Propose "a.jsonc" 1 1 (Some "x")] in
  (exists g r p, Resolve "a.jsonc" 1 1 true = Resolve "a.jsonc" g r true /\ proposals b !! "a.jsonc" = Some p /\ p_generation p = g /\
     p_revision p = r /\ values (step policy_default b (Resolve "a.jsonc" 1 1 true)) !! "a.jsonc" = Some (mkBaseline g (p_content p))) \/
  (exists g old, Resolve "a.jsonc" 1 1 true = Retire "a.jsonc" g /\ values b !! "a.jsonc" = Some old /\ b_generation old <= g /\
     values (step policy_default b (Resolve "a.jsonc" 1 1 true)) !! "a.jsonc" = None).
Proof. apply baselines_commit_exact. vm_compute. discriminate. Defined.
End ConfigBaselinesExamples.
