(* ===== verification/WorkerQueue.v ===== *)
(** The loader worker: its queue, its turns and its controls (core/src/loader_worker.rs).

    The game thread submits reads and takes results; one worker thread performs them. The mutex makes
    each of their critical sections atomic, so a run is a sequence of [op]s in any order: the game
    thread's calls, and the worker's two sections per turn, [Take] and [Finish], between which it holds
    the turn outside the lock. The file system's answers to a read are arguments of [Finish]. *)
From S2P Require Import Prelude.
From S2P Require Import Utf8.
From S2P Require Import AsyncLimits.
From S2P Require Import Json.
From S2P Require Import LoaderRead.
From S2P Require Import ConfigBaselines.
Import LoaderPolicy.
Import FileRead.
Import ConfigBaselines.

Module WorkerQueue.

(** ** Requests *)
Inductive Request :=
| RScan (epoch revision : Z) (dir : string)
| RPlugin (epoch revision : Z) (path : string)
| RConfig (epoch revision : Z) (path : string) (watch_generation : option Z).

Inductive WorkKey := KScan (p : string) | KPlugin (p : string) | KConfig (p : string).
#[export] Instance WorkKey_eq_dec : EqDecision WorkKey.
Proof. solve_decision. Defined.
Definition key_code (k : WorkKey) : string + (string + string) :=
  match k with KScan p => inl p | KPlugin p => inr (inl p) | KConfig p => inr (inr p) end.
Definition key_decode (c : string + (string + string)) : WorkKey :=
  match c with inl p => KScan p | inr (inl p) => KPlugin p | inr (inr p) => KConfig p end.
#[export] Instance WorkKey_countable : Countable WorkKey.
Proof. apply (inj_countable' key_code key_decode). by intros []. Defined.

(** [Option::max]. *)
Definition opt_max (a b : option Z) : option Z :=
  match a, b with Some x, Some y => Some (Z.max x y) | Some x, None => Some x | None, o => o end.

Definition coalesce_with (self older : Request) : Request :=
  match self, older with
  | RConfig e r p g, RConfig _ _ _ g' => RConfig e r p (opt_max g g')
  | latest, _ => latest
  end.

Definition key (r : Request) : WorkKey :=
  match r with RScan _ _ d => KScan d | RPlugin _ _ p => KPlugin p | RConfig _ _ p _ => KConfig p end.

(** Both weights of a request depend on its key only. *)
Definition key_path (k : WorkKey) : string := match k with KScan p | KPlugin p | KConfig p => p end.
Definition key_weight (k : WorkKey) : Z := u64_add (path_len (key_path k)) 64.
Definition key_reservation (p : LoaderPolicy) (k : WorkKey) : Z :=
  match k with
  | KScan _ => scan_result_reservation p
  | KPlugin path =>
      sat_add (sat_add (sat_add (sat_add (sat_add (path_len path) (manifest_bytes (parse p))) (plugin_js_bytes (parse p)))
        (gamedata_bytes (parse p))) (engine_functions_bytes (parse p))) 2048
  | KConfig path => sat_add (sat_add (path_len path) (sat_mul (LoaderPolicy.config_bytes p) 3)) 256
  end.
Definition request_weight (r : Request) : Z := key_weight (key r).
Definition result_reservation (r : Request) (p : LoaderPolicy) : Z := key_reservation p (key r).

Definition config_watch_weight (path : string) : Z := sat_add (sat_mul (path_len path) 2) 64.

Inductive Submit := Accepted | Coalesced | Full | Oversized | Stopped.

(** ** Facts about a validated policy *)

(** The limits are unsigned, and [start] validates them. *)
Definition policy_ok (policy : LoaderPolicy) : Prop :=
  LoaderPolicy.validate policy = None /\ Forall (fun n => 0 <= n) (sized_fields policy).

Lemma worker_policy policy n : policy_ok policy -> n ∈ sized_fields policy -> 0 < n <= safe_size.
Proof.
  intros [Hv Hpos] Hn. rewrite Forall_forall in Hpos. specialize (Hpos n Hn). cbn beta in Hpos.
  unfold LoaderPolicy.validate in Hv. destruct (existsb _ _ || _) eqn:E; [done|]. apply orb_false_iff in E as [E _].
  rewrite existsb_none in E. specialize (E n Hn). cbn beta in E. apply orb_false_iff in E as [E1 E2].
  apply Z.eqb_neq in E1. apply Z.ltb_ge in E2. lia.
Qed.

Ltac policy_field H := apply (worker_policy _ _ H); unfold sized_fields; rewrite !elem_of_cons; tauto.

Lemma worker_limits policy :
  policy_ok policy ->
  0 < LoaderPolicy.request_bytes policy <= safe_size /\ 0 < LoaderPolicy.result_bytes policy <= safe_size /\
  0 < request_items policy /\ 0 < result_items policy.
Proof. intros H. split_and!; policy_field H. Qed.

Lemma worker_weight_nonneg policy k : policy_ok policy -> 0 <= key_weight k /\ 0 <= key_reservation policy k.
Proof.
  intros H. split; [apply wrap64_range|]. assert (0 < u64_max) by done.
  assert (0 < manifest_bytes (parse policy)) by policy_field H. assert (0 < plugin_js_bytes (parse policy)) by policy_field H.
  assert (0 < gamedata_bytes (parse policy)) by policy_field H. assert (0 < engine_functions_bytes (parse policy)) by policy_field H.
  assert (0 < LoaderPolicy.config_bytes policy) by policy_field H. assert (0 < path_bytes policy) by policy_field H.
  assert (0 < scan_candidates policy) by policy_field H.
  assert (0 <= path_len (key_path k)) by (unfold path_len; lia).
  destruct k; cbn in *; unfold scan_result_reservation, sat_add, sat_mul in *; nia.
Qed.

(** ** Results *)
Section Worker.
(** A parsed archive and the bytes it keeps resident. *)
Context {Prepared : Type} (prepared_bytes_of : Prepared -> Z).

Record ConfigSnapshot := mkSnapshot { content : option string; stamp : option FileStamp; watch : WatchDelta }.

Inductive WorkerResult :=
| WScan (epoch revision : Z) (entries : list (string * FileStamp) + ScanError)
| WPlugin (epoch revision : Z) (path : string) (prepared : option Prepared)
| WConfig (epoch revision : Z) (path : string) (watch_generation : option Z) (snapshot : ConfigSnapshot + ReadError).

Definition content_len (c : option string) : Z := match c with Some t => byte_len t | None => 0 end.

Definition result_weight (r : WorkerResult) : Z :=
  match r with
  | WScan _ _ (inl v) => wrap64 (weights v)
  | WScan _ _ (inr _) => 256
  | WPlugin _ _ path prepared => u64_add (path_len path) (match prepared with Some p => prepared_bytes_of p | None => 256 end)
  | WConfig _ _ path _ (inl s) => u64_add (path_len path) (match content s with Some t => byte_len t | None => 128 end)
  | WConfig _ _ path _ (inr _) => u64_add (path_len path) 128
  end.

(** ** The shared state *)
Record ConfigControl := mkControl { resolution : option (Z * Z * bool); retire_generation : option Z }.
Definition no_control : ConfigControl := mkControl None None.
Definition control_is_empty (c : ConfigControl) : bool :=
  match resolution c, retire_generation c with None, None => true | _, _ => false end.
Record ConfigWatchState := mkWatch { registered_generation : option Z; control : ConfigControl }.
Definition no_watch : ConfigWatchState := mkWatch None no_control.

Record WorkerHighWater := mkWorkerHigh {
  hw_obligations : Z; hw_request_bytes : Z; hw_result_bytes : Z; hw_queued : Z; hw_in_flight : Z; hw_results : Z;
  hw_control_items : Z; hw_control_bytes : Z; hw_config : ConfigHighWater;
}.

(** The six gauges mirrored from the baselines. *)
Record ConfigGauges := mkGauges {
  g_config_paths : Z; g_config_bytes : Z; g_baseline_items : Z; g_baseline_bytes : Z; g_proposal_items : Z; g_proposal_bytes : Z;
}.
Definition no_gauges : ConfigGauges := mkGauges 0 0 0 0 0 0.

Record State := mkState {
  stopped : bool;
  order : list WorkKey;
  pending : gmap WorkKey Request;
  rerun : gmap WorkKey Request;
  in_flight : gset WorkKey;
  results : list (WorkKey * WorkerResult);
  obligations : gmap WorkKey (Z * Z);
  request_bytes : Z;
  reserved_result_bytes : Z;
  config_watches : gmap string ConfigWatchState;
  config_watch_bytes : Z;
  gauges : ConfigGauges;
  rejected : WorkerRejections;
  high_water : WorkerHighWater;
}.

Definition start : State :=
  mkState false [] ∅ ∅ ∅ [] ∅ 0 0 ∅ 0 no_gauges no_rejections (mkWorkerHigh 0 0 0 0 0 0 0 0 (mkHigh 0 0 0 0 0 0)).

Definition with_queue (s : State) (o : list WorkKey) (p r : gmap WorkKey Request) (f : gset WorkKey)
    (res : list (WorkKey * WorkerResult)) : State :=
  mkState (stopped s) o p r f res (obligations s) (request_bytes s) (reserved_result_bytes s) (config_watches s)
    (config_watch_bytes s) (gauges s) (rejected s) (high_water s).
Definition with_bytes (s : State) (ob : gmap WorkKey (Z * Z)) (rb rrb : Z) : State :=
  mkState (stopped s) (order s) (pending s) (rerun s) (in_flight s) (results s) ob rb rrb (config_watches s)
    (config_watch_bytes s) (gauges s) (rejected s) (high_water s).
Definition with_watches (s : State) (ws : gmap string ConfigWatchState) (wb : Z) : State :=
  mkState (stopped s) (order s) (pending s) (rerun s) (in_flight s) (results s) (obligations s) (request_bytes s)
    (reserved_result_bytes s) ws wb (gauges s) (rejected s) (high_water s).
Definition with_counters (s : State) (g : ConfigGauges) (rj : WorkerRejections) (h : WorkerHighWater) : State :=
  mkState (stopped s) (order s) (pending s) (rerun s) (in_flight s) (results s) (obligations s) (request_bytes s)
    (reserved_result_bytes s) (config_watches s) (config_watch_bytes s) g rj h.

Definition zsize {A} (m : gmap WorkKey A) : Z := Z.of_nat (size m).
Definition queued (s : State) : Z := sat_add (zsize (pending s)) (zsize (rerun s)).

Definition update_high_water (s : State) : State :=
  let h := high_water s in
  with_counters s (gauges s) (rejected s)
    {| hw_obligations := Z.max (hw_obligations h) (zsize (obligations s));
       hw_request_bytes := Z.max (hw_request_bytes h) (request_bytes s);
       hw_result_bytes := Z.max (hw_result_bytes h) (reserved_result_bytes s);
       hw_queued := Z.max (hw_queued h) (queued s);
       hw_in_flight := Z.max (hw_in_flight h) (Z.of_nat (size (in_flight s)));
       hw_results := Z.max (hw_results h) (Z.of_nat (length (results s)));
       hw_control_items := Z.max (hw_control_items h) (Z.of_nat (size (config_watches s)));
       hw_control_bytes := Z.max (hw_control_bytes h) (config_watch_bytes s);
       hw_config := hw_config h |}.

Definition sync_config_metrics (s : State) (m : ConfigMetrics) : State :=
  let r := rejected s in
  let h := high_water s in
  with_counters s
    (mkGauges (config_paths m) (config_bytes m) (baseline_items m) (baseline_bytes m) (proposal_items m) (proposal_bytes m))
    (mkRejections (rj_request_items r) (rj_request_bytes r) (rj_result_items r) (rj_result_bytes r) (rj_control_items r)
       (rj_control_bytes r) (rj_config_paths (m_rejected m)) (rj_config_bytes (m_rejected m)))
    (mkWorkerHigh (hw_obligations h) (hw_request_bytes h) (hw_result_bytes h) (hw_queued h) (hw_in_flight h) (hw_results h)
       (hw_control_items h) (hw_control_bytes h) (m_high_water m)).

Record WorkerMetrics := mkWorkerMetrics {
  wm_obligations_items : Z; wm_request_bytes : Z; wm_result_bytes : Z; wm_queued : Z; wm_in_flight : Z; wm_results : Z;
  wm_control_items : Z; wm_control_bytes : Z; wm_controls_pending : Z; wm_gauges : ConfigGauges;
  wm_rejected : WorkerRejections; wm_high_water : WorkerHighWater;
}.
Definition worker_metrics (s : State) : WorkerMetrics :=
  mkWorkerMetrics (zsize (obligations s)) (request_bytes s) (reserved_result_bytes s) (queued s)
    (Z.of_nat (size (in_flight s))) (Z.of_nat (length (results s))) (Z.of_nat (size (config_watches s))) (config_watch_bytes s)
    (countb (fun kv => negb (control_is_empty (control kv.2))) (map_to_list (config_watches s)))
    (gauges s) (rejected s) (high_water s).

(** ** The game thread's calls *)

(** Count refusals of the queue's own six kinds. *)
Definition bump (b : bool) (n : Z) : Z := if b then sat_add n 1 else n.
Definition refuse (s : State) (ri rb si sb ci cb : bool) : State :=
  let r := rejected s in
  with_counters s (gauges s)
    (mkRejections (bump ri (rj_request_items r)) (bump rb (rj_request_bytes r)) (bump si (rj_result_items r)) (bump sb (rj_result_bytes r))
       (bump ci (rj_control_items r)) (bump cb (rj_control_bytes r)) (rj_config_paths r) (rj_config_bytes r))
    (high_water s).

Definition watch_of (r : Request) : option (string * Z) :=
  match r with RConfig _ _ path (Some g) => Some (path, g) | _ => None end.

(** Reserve the control row of a watched path, and raise its generation. *)
Definition register_watch (s : State) (w : option (string * Z)) : State :=
  match w with
  | None => s
  | Some (path, generation) =>
      let row := config_watches s !! path in
      let wb := match row with Some _ => config_watch_bytes s | None => sat_add (config_watch_bytes s) (config_watch_weight path) end in
      let ws := default no_watch row in
      with_watches s (<[path := mkWatch (opt_max (registered_generation ws) (Some generation)) (control ws)]> (config_watches s)) wb
  end.

(** A request for a key that is already owed. *)
Definition coalesce (s : State) (k : WorkKey) (request : Request) : State :=
  if bool_decide (k ∈ in_flight s) then
    with_queue s (order s) (pending s)
      (<[k := match rerun s !! k with Some older => coalesce_with request older | None => request end]> (rerun s)) (in_flight s) (results s)
  else
    match pending s !! k with
    | Some old =>
        let s := with_queue s (order s) (<[k := coalesce_with request old]> (pending s)) (rerun s) (in_flight s) (results s) in
        with_bytes s (obligations s) (sat_add (sat_sub (request_bytes s) (request_weight old)) (request_weight request)) (reserved_result_bytes s)
    | None =>
        with_queue s (order s ++ [k]) (<[k := request]> (pending s)) (rerun s) (in_flight s)
          (filterb (fun kr => negb (bool_decide (kr.1 = k))) (results s))
    end.

Definition try_submit (policy : LoaderPolicy) (s : State) (request : Request) : State * Submit :=
  let k := key request in
  let req_weight := request_weight request in
  let res_weight := result_reservation request policy in
  if stopped s then (s, Stopped)
  else
    let rb := LoaderPolicy.request_bytes policy <? req_weight in
    let sb := LoaderPolicy.result_bytes policy <? res_weight in
    if rb || sb then (refuse s false rb false sb false false, Oversized)
    else
      let watch := watch_of request in
      let fresh := match watch with Some (path, _) => negb (bool_decide (path ∈ dom (config_watches s))) | None => false end in
      let watch_weight := match watch with Some (path, _) => config_watch_weight path | None => 0 end in
      if fresh && (LoaderPolicy.request_bytes policy <? watch_weight) then (refuse s false false false false false true, Oversized)
      else
        let ci := fresh && (request_items policy <=? Z.of_nat (size (config_watches s))) in
        let cb := fresh && (LoaderPolicy.request_bytes policy <? sat_add (config_watch_bytes s) watch_weight) in
        if ci || cb then (refuse s false false false false ci cb, Full)
        else
          match obligations s !! k with
          | Some _ => (update_high_water (coalesce (register_watch s watch) k request), Coalesced)
          | None =>
              let ri := request_items policy <=? zsize (obligations s) in
              let rb := LoaderPolicy.request_bytes policy <? sat_add (request_bytes s) req_weight in
              let si := result_items policy <=? zsize (obligations s) in
              let sb := LoaderPolicy.result_bytes policy <? sat_add (reserved_result_bytes s) res_weight in
              if ri || rb || si || sb then (refuse s ri rb si sb false false, Full)
              else
                let s := register_watch s watch in
                let s := with_bytes s (<[k := (req_weight, res_weight)]> (obligations s))
                           (u64_add (request_bytes s) req_weight) (u64_add (reserved_result_bytes s) res_weight) in
                (update_high_water (with_queue s (order s ++ [k]) (<[k := request]> (pending s)) (rerun s) (in_flight s) (results s)), Accepted)
          end.

Definition try_result (s : State) : State * option WorkerResult :=
  match results s with
  | [] => (s, None)
  | (k, result) :: rest =>
      let s := with_queue s (order s) (pending s) (rerun s) (in_flight s) rest in
      let s := match obligations s !! k with
               | Some (req, res) => with_bytes s (delete k (obligations s)) (sat_sub (request_bytes s) req) (sat_sub (reserved_result_bytes s) res)
               | None => s
               end in
      (s, Some result)
  end.

(** Stamps are compared as (generation, revision) pairs. *)
Definition stamp_leb (a b : Z * Z) : bool := negb (stamp_ltb b a).

Definition set_control (s : State) (path : string) (ws : ConfigWatchState) : State :=
  update_high_water (with_watches s (<[path := ws]> (config_watches s)) (config_watch_bytes s)).

(** The later stamp wins. *)
Definition resolve_control (c : ConfigControl) (generation revision : Z) (applied : bool) : ConfigControl :=
  let newer := match resolution c with Some (g, r, _) => stamp_leb (g, r) (generation, revision) | None => true end in
  mkControl (if newer then Some (generation, revision, applied) else resolution c) (retire_generation c).

Definition resolve_config_watch (s : State) (path : string) (generation revision : Z) (applied : bool) : State :=
  if stopped s then s
  else
    match config_watches s !! path with
    | None => s
    | Some ws =>
        set_control s path (mkWatch (registered_generation ws) (resolve_control (control ws) generation revision applied))
    end.

Definition retire_config_watch (s : State) (path : string) (generation : Z) : State :=
  if stopped s then s
  else
    match config_watches s !! path with
    | None => s
    | Some ws =>
        set_control s path
          (mkWatch (if bool_decide (registered_generation ws = Some generation) then None else registered_generation ws)
             (mkControl (resolution (control ws)) (opt_max (retire_generation (control ws)) (Some generation))))
    end.

(** [stop_and_join], up to the join. *)
Definition stop (s : State) : State :=
  mkState true [] ∅ ∅ (in_flight s) [] ∅ 0 0 ∅ 0 no_gauges (rejected s) (high_water s).

(** ** The worker thread *)

Inductive WorkerTurn := Idle | Controls (controls : list (string * ConfigControl)) | Working (k : WorkKey) (r : Request) | Exited.

Record Worker := mkWorker { state : State; turn : WorkerTurn; baselines : ConfigBaselines }.

Definition take_controls (s : State) : State * list (string * ConfigControl) :=
  (with_watches s ((fun ws => if control_is_empty (control ws) then ws else mkWatch (registered_generation ws) no_control) <$> config_watches s)
     (config_watch_bytes s),
   omap (fun kv : string * ConfigWatchState => if control_is_empty (control kv.2) then None else Some (kv.1, control kv.2)) (map_to_list (config_watches s))).

(** Only the registered generation may create baseline ownership. *)
Definition fence (s : State) (r : Request) : Request :=
  match r with
  | RConfig e v path g =>
      let registered := ws ← config_watches s !! path; registered_generation ws in
      if bool_decide (g = registered) then r else RConfig e v path None
  | _ => r
  end.

(** The first critical section of a turn; with nothing to do the worker waits and stays [Idle]. *)
Definition take (w : Worker) : Worker :=
  let s := state w in
  match turn w with
  | Idle =>
      if stopped s then mkWorker s Exited (baselines w)
      else if existsb (fun kv => negb (control_is_empty (control kv.2))) (map_to_list (config_watches s)) then
        let '(s, cs) := take_controls s in mkWorker s (Controls cs) (baselines w)
      else
        match order s with
        | [] => w
        | k :: rest =>
            match pending s !! k with
            | None => mkWorker (with_queue s rest (pending s) (rerun s) (in_flight s) (results s)) Idle (baselines w)
            | Some request =>
                let request := fence s request in
                let s := with_queue s rest (delete k (pending s)) (rerun s) ({[k]} ∪ in_flight s) (results s) in
                mkWorker (update_high_water s) (Working k request) (baselines w)
            end
        end
  | _ => w
  end.

Definition apply_control (b : ConfigBaselines) (pc : string * ConfigControl) : ConfigBaselines :=
  let '(path, c) := pc in
  let b := match resolution c with Some (g, r, applied) => resolve b path g r applied | None => b end in
  match retire_generation c with Some g => retire b path g | None => b end.

Definition watch_kept (ws : ConfigWatchState) : bool :=
  match registered_generation ws with Some _ => true | None => negb (control_is_empty (control ws)) end.

Definition finish_controls (w : Worker) (cs : list (string * ConfigControl)) : Worker :=
  let b := foldl apply_control (baselines w) cs in
  let s := state w in
  let ws := filter (fun kv : string * ConfigWatchState => watch_kept kv.2 = true) (config_watches s) in
  let s := with_watches s ws (foldr (fun kv n => sat_add n (config_watch_weight kv.1)) 0 (map_to_list ws)) in
  mkWorker (update_high_water (sync_config_metrics s (metrics b))) Idle b.

(** What the file system and the archive reader answer to one read. *)
Record Answers := mkAnswers { read_dir : ReadDir; first : Opened; second : Opened; parsed : string -> FileStamp -> option Prepared }.

Definition run_request (a : Answers) (policy : LoaderPolicy) (b : ConfigBaselines) (r : Request) : WorkerResult * ConfigBaselines :=
  match r with
  | RScan e v dir => (WScan e v (scan_plugins policy dir (read_dir a)), b)
  | RPlugin e v path =>
      (WPlugin e v path
         (match stable_read_with_hook (first a) (second a) (archive_bytes policy) with
          | inl (bytes, stamp) => parsed a bytes stamp
          | inr _ => None end), b)
  | RConfig e v path g =>
      let b := match g with Some g => discard_superseded b path g v | None => b end in
      let propose content stamp :=
        match g with
        | Some g => let '(b, d) := compare_and_propose b path g v content policy in (inl (mkSnapshot content stamp d), b)
        | None => (inl (mkSnapshot content stamp NotRequested), b)
        end in
      let '(snapshot, b) :=
        match stable_read_with_hook (first a) (second a) (LoaderPolicy.config_bytes policy) with
        | inl (bytes, stamp) => propose (Some (Utf8.from_utf8_lossy bytes)) (Some stamp)
        | inr Missing => propose None None
        | inr e => (inr e, b)
        end in
      (WConfig e v path g snapshot, b)
  end.

Definition finish_request (a : Answers) (policy : LoaderPolicy) (w : Worker) (k : WorkKey) (r : Request) : Worker :=
  let '(result, b) := run_request a policy (baselines w) r in
  let s := state w in
  let s := with_queue s (order s) (pending s) (rerun s) (in_flight s ∖ {[k]}) (results s) in
  let s := sync_config_metrics s (metrics b) in
  if stopped s then mkWorker s Exited b
  else
    let s := match rerun s !! k with
             | Some next => with_queue s (order s ++ [k]) (<[k := next]> (pending s)) (delete k (rerun s)) (in_flight s) (results s)
             | None => with_queue s (order s) (pending s) (rerun s) (in_flight s) (results s ++ [(k, result)])
             end in
    mkWorker (update_high_water s) Idle b.

Definition finish (a : Answers) (policy : LoaderPolicy) (w : Worker) : Worker :=
  match turn w with
  | Controls cs => finish_controls w cs
  | Working k r => finish_request a policy w k r
  | _ => w
  end.

(** ** Runs *)
Inductive op :=
| TrySubmit (r : Request)
| TryResult
| ResolveWatch (path : string) (generation revision : Z) (applied : bool)
| RetireWatch (path : string) (generation : Z)
| Take
| Finish (a : Answers)
| Stop.

Definition on_state (w : Worker) (s : State) : Worker := mkWorker s (turn w) (baselines w).
Definition step (policy : LoaderPolicy) (w : Worker) (o : op) : Worker :=
  match o with
  | TrySubmit r => on_state w (try_submit policy (state w) r).1
  | TryResult => on_state w (try_result (state w)).1
  | ResolveWatch path g r a => on_state w (resolve_config_watch (state w) path g r a)
  | RetireWatch path g => on_state w (retire_config_watch (state w) path g)
  | Take => take w
  | Finish a => finish a policy w
  | Stop => on_state w (stop (state w))
  end.
Definition spawn : Worker := mkWorker start Idle ConfigBaselines.new.
Definition run (policy : LoaderPolicy) (os : list op) : Worker := foldl (step policy) spawn os.

(** ** The invariant of a running worker *)

(** Every key owed is in exactly one place: queued, with the worker, or finished; only the key with the
    worker may have a rerun. *)
Record queue_ok (o : list WorkKey) (p r : gmap WorkKey Request) (f : gset WorkKey) (res : list (WorkKey * WorkerResult))
    (ob : gmap WorkKey (Z * Z)) (t : WorkerTurn) : Prop := {
  q_order_nd : NoDup o;
  q_order k : k ∈ o <-> is_Some (p !! k);
  q_flight : f = match t with Working k _ => {[k]} | _ => ∅ end;
  q_results_nd : NoDup res.*1;
  q_owed k : is_Some (ob !! k) <-> is_Some (p !! k) \/ k ∈ f \/ k ∈ res.*1;
  q_pending_flight k : is_Some (p !! k) -> k ∉ f;
  q_pending_results k : is_Some (p !! k) -> k ∉ res.*1;
  q_flight_results k : k ∈ f -> k ∉ res.*1;
  q_rerun k x : r !! k = Some x -> k ∈ f /\ key x = k;
  q_pending k x : p !! k = Some x -> key x = k;
  q_working k x : t = Working k x -> key x = k;
}.

(** The two byte counters are the sums of what is owed, within the policy. *)
Record bytes_ok (policy : LoaderPolicy) (ob : gmap WorkKey (Z * Z)) (rb rrb : Z) : Prop := {
  b_weights k x : ob !! k = Some x -> x = (key_weight k, key_reservation policy k);
  b_request : rb = kvsum (fun k (_ : Z * Z) => key_weight k) ob;
  b_result : rrb = kvsum (fun k (_ : Z * Z) => key_reservation policy k) ob;
  b_request_bound : rb <= LoaderPolicy.request_bytes policy;
  b_result_bound : rrb <= LoaderPolicy.result_bytes policy;
  b_items : zsize ob <= request_items policy /\ zsize ob <= result_items policy;
}.

(** The control rows are paid for out of the same limits. *)
Record watch_ok (policy : LoaderPolicy) (ws : gmap string ConfigWatchState) (wb : Z) : Prop := {
  c_bytes : wb = kvsum (fun path (_ : ConfigWatchState) => config_watch_weight path) ws;
  c_bound : wb <= LoaderPolicy.request_bytes policy;
  c_items : Z.of_nat (size ws) <= request_items policy;
}.

Definition wf (policy : LoaderPolicy) (w : Worker) : Prop :=
  let s := state w in
  stopped s = false ->
  queue_ok (order s) (pending s) (rerun s) (in_flight s) (results s) (obligations s) (turn w) /\
  bytes_ok policy (obligations s) (request_bytes s) (reserved_result_bytes s) /\
  watch_ok policy (config_watches s) (config_watch_bytes s).

Lemma coalesce_key a b : key (coalesce_with a b) = key a.
Proof. by destruct a, b. Qed.

(** ** The queue *)
Section Queue.
Context (o : list WorkKey) (p r : gmap WorkKey Request) (f : gset WorkKey) (res : list (WorkKey * WorkerResult)) (ob : gmap WorkKey (Z * Z)).
Implicit Types (k : WorkKey) (x : Request) (t : WorkerTurn).

Lemma queue_snoc k : NoDup o -> k ∉ o -> NoDup (o ++ [k]).
Proof. intros Hnd Hk. apply NoDup_app. split_and!; [done|by intros j Hj ->%list_elem_of_singleton|apply NoDup_singleton]. Qed.

Lemma queue_fresh k t : queue_ok o p r f res ob t -> ob !! k = None -> p !! k = None /\ k ∉ f /\ k ∉ res.*1.
Proof.
  intros Q Hob. pose proof (q_owed _ _ _ _ _ _ _ Q k) as Ho. rewrite Hob in Ho.
  assert (~ is_Some (None : option (Z * Z))) as Hn by by intros [? ?].
  split_and!; [destruct (p !! k) eqn:E; [|done]; destruct Hn; apply Ho; eauto|intros ?; apply Hn, Ho; auto..].
Qed.

Lemma queue_enqueue k x y t :
  queue_ok o p r f res ob t -> ob !! k = None -> key x = k -> queue_ok (o ++ [k]) (<[k := x]> p) r f res (<[k := y]> ob) t.
Proof.
  intros Q Hob Hx. destruct (queue_fresh k t Q Hob) as (Hp & Hf & Hr). destruct Q as [Q1 Q2 Q3 Q4 Q5 Q6 Q7 Q8 Q9 Q10 Q11].
  split; try done.
  - apply queue_snoc; [done|]. rewrite Q2, Hp. by intros [? ?].
  - intros j. rewrite elem_of_app, list_elem_of_singleton, Q2, lookup_insert_is_Some'. naive_solver.
  - intros j. rewrite !lookup_insert_is_Some', Q5. naive_solver.
  - intros j [->|Hj]%lookup_insert_is_Some'; auto.
  - intros j [->|Hj]%lookup_insert_is_Some'; auto.
  - intros j z [[<- <-]|[Hne Hj]]%lookup_insert_Some; auto.
Qed.

Lemma queue_rerun k x t : queue_ok o p r f res ob t -> k ∈ f -> key x = k -> queue_ok o p (<[k := x]> r) f res ob t.
Proof. intros [Q1 Q2 Q3 Q4 Q5 Q6 Q7 Q8 Q9 Q10 Q11] Hk Hx. split; try done. intros j z [[<- <-]|[_ Hj]]%lookup_insert_Some; auto. Qed.

Lemma queue_replace k x old t :
  queue_ok o p r f res ob t -> p !! k = Some old -> key x = k -> queue_ok o (<[k := x]> p) r f res ob t.
Proof.
  intros [Q1 Q2 Q3 Q4 Q5 Q6 Q7 Q8 Q9 Q10 Q11] Hk Hx.
  assert (forall j, is_Some (<[k := x]> p !! j) <-> is_Some (p !! j)) as Hdom.
  { intros j. rewrite lookup_insert_is_Some'. split; [intros [->|]; [eauto|done]|auto]. }
  split; try done; try (intros j; rewrite Hdom; auto).
  intros j z [[<- <-]|[_ Hj]]%lookup_insert_Some; auto.
Qed.

(** A finished result is discarded for a new read. *)
Lemma queue_requeue k x t :
  queue_ok o p r f res ob t -> is_Some (ob !! k) -> p !! k = None -> k ∉ f -> key x = k ->
  queue_ok (o ++ [k]) (<[k := x]> p) r f (filterb (fun kr => negb (bool_decide (kr.1 = k))) res) ob t.
Proof.
  intros [Q1 Q2 Q3 Q4 Q5 Q6 Q7 Q8 Q9 Q10 Q11] Hob Hp Hf Hx.
  assert (forall j, j ∈ (filterb (fun kr : WorkKey * WorkerResult => negb (bool_decide (kr.1 = k))) res).*1 <-> j <> k /\ j ∈ res.*1) as Hres.
  { intros j. rewrite !list_elem_of_fmap. setoid_rewrite elem_of_filterb. split.
    - intros (kr & -> & Hn & Hin). apply negb_true_iff, bool_decide_eq_false in Hn. eauto.
    - intros (Hn & kr & -> & Hin). exists kr. by rewrite bool_decide_eq_false_2. }
  split; try done.
  - apply queue_snoc; [done|]. rewrite Q2, Hp. by intros [? ?].
  - intros j. rewrite elem_of_app, list_elem_of_singleton, Q2, lookup_insert_is_Some'. naive_solver.
  - by apply filterb_fmap_NoDup.
  - intros j. rewrite Hres, lookup_insert_is_Some', Q5. destruct (decide (j = k)) as [->|]; [|naive_solver].
    apply Q5 in Hob. tauto.
  - intros j [->|Hj]%lookup_insert_is_Some'; auto.
  - intros j [->|Hj]%lookup_insert_is_Some'; rewrite Hres; [tauto|]. intros [_ Hr]. by eapply Q7.
  - intros j Hj. rewrite Hres. intros [_ Hr]. by eapply Q8.
  - intros j z [[<- <-]|[Hne Hj]]%lookup_insert_Some; auto.
Qed.

Lemma queue_take k rest x x' :
  queue_ok (k :: rest) p r f res ob Idle -> p !! k = Some x -> key x' = k -> queue_ok rest (delete k p) r ({[k]} ∪ f) res ob (Working k x').
Proof.
  intros [Q1 Q2 Q3 Q4 Q5 Q6 Q7 Q8 Q9 Q10 Q11] Hk Hx. apply NoDup_cons in Q1 as [Hni Hnd]. subst f.
  assert (forall j, is_Some (delete k p !! j) <-> j <> k /\ is_Some (p !! j)) as Hdom.
  { intros j. rewrite lookup_delete_is_Some. naive_solver. }
  split; try done.
  - intros j. rewrite Hdom, <- Q2, elem_of_cons. split; [intros Hj; split; [by intros ->|auto]|]. intros [Hne [->|]]; done.
  - set_solver.
  - intros j. rewrite Hdom, Q5, elem_of_union, elem_of_singleton. destruct (decide (j = k)) as [->|]; [|tauto]. split; [auto|eauto].
  - intros j [Hne _]%Hdom. set_solver.
  - intros j [_ Hj]%Hdom. by apply Q7.
  - intros j [->%elem_of_singleton|Hj]%elem_of_union; [apply Q7; eauto|set_solver].
  - intros j z Hj. apply Q9 in Hj as [Hin _]. set_solver.
  - intros j z [_ Hj]%lookup_delete_Some. eauto.
  - intros j z [= <- <-]. done.
Qed.

Lemma queue_finish_rerun k x next :
  queue_ok o p r f res ob (Working k x) -> r !! k = Some next ->
  queue_ok (o ++ [k]) (<[k := next]> p) (delete k r) (f ∖ {[k]}) res ob Idle.
Proof.
  intros [Q1 Q2 Q3 Q4 Q5 Q6 Q7 Q8 Q9 Q10 Q11] Hk. subst f.
  assert (p !! k = None) as Hp. { destruct (p !! k) eqn:E; [|done]. destruct (Q6 k ltac:(eauto)). set_solver. }
  split; try done.
  - apply queue_snoc; [done|]. rewrite Q2, Hp. by intros [? ?].
  - intros j. rewrite elem_of_app, list_elem_of_singleton, Q2, lookup_insert_is_Some'. naive_solver.
  - set_solver.
  - intros j. rewrite Q5, lookup_insert_is_Some'. set_solver.
  - intros j _. set_solver.
  - intros j [->|Hj]%lookup_insert_is_Some'; [apply Q8; set_solver|auto].
  - intros j Hj. set_solver.
  - intros j z [Hne Hj]%lookup_delete_Some. apply Q9 in Hj as [Hin _]. set_solver.
  - intros j z [[<- <-]|[_ Hj]]%lookup_insert_Some; [by apply Q9 in Hk as [_ ?]|auto].
Qed.

Lemma queue_finish_result k x result :
  queue_ok o p r f res ob (Working k x) -> r !! k = None -> queue_ok o p r (f ∖ {[k]}) (res ++ [(k, result)]) ob Idle.
Proof.
  intros [Q1 Q2 Q3 Q4 Q5 Q6 Q7 Q8 Q9 Q10 Q11] Hk. subst f.
  assert (k ∉ res.*1) as Hr by (apply Q8; set_solver).
  assert (forall j, j ∈ (res ++ [(k, result)]).*1 <-> j ∈ res.*1 \/ j = k) as Hres.
  { intros j. rewrite fmap_app, elem_of_app. cbn. rewrite list_elem_of_singleton. done. }
  split; try done.
  - set_solver.
  - rewrite fmap_app. cbn. apply NoDup_app. split_and!; [done|by intros j Hj ->%list_elem_of_singleton|apply NoDup_singleton].
  - intros j. rewrite Q5, Hres. set_solver.
  - intros j _. set_solver.
  - intros j Hj. rewrite Hres. intros [Hin| ->]; [by eapply Q7|]. destruct (Q6 k Hj). set_solver.
  - intros j Hj. set_solver.
  - intros j z Hj. pose proof Hj as Hj'. apply Q9 in Hj as [->%elem_of_singleton _]. congruence.
Qed.

Lemma queue_deliver k v rest t :
  queue_ok o p r f ((k, v) :: rest) ob t -> queue_ok o p r f rest (delete k ob) t.
Proof.
  intros [Q1 Q2 Q3 Q4 Q5 Q6 Q7 Q8 Q9 Q10 Q11]. cbn in *. apply NoDup_cons in Q4 as [Hni Hnd].
  assert (p !! k = None) as Hp. { destruct (p !! k) eqn:E; [|done]. destruct (Q7 k ltac:(eauto)). left. }
  assert (k ∉ f) as Hf. { intros Hk. destruct (Q8 k Hk). left. }
  split; try done.
  - intros j. rewrite lookup_delete_is_Some, Q5, elem_of_cons. destruct (decide (j = k)) as [->|]; [|naive_solver].
    split; [naive_solver|]. rewrite Hp. intros [[? ?]|[?|?]]; done.
  - intros j Hj Hin. apply (Q7 j Hj). by right.
  - intros j Hj Hin. apply (Q8 j Hj). by right.
Qed.
End Queue.

(** ** The byte counters *)
Section Bytes.
Context (policy : LoaderPolicy) (Hpol : policy_ok policy).

Lemma safe_facts : 2 * safe_size < u64_max /\ u64_max = u64_modulus - 1.
Proof. done. Qed.

Lemma bytes_range ob rb rrb : bytes_ok policy ob rb rrb -> 0 <= rb <= safe_size /\ 0 <= rrb <= safe_size.
Proof.
  intros [_ H2 H3 H4 H5 _]. destruct (worker_limits policy Hpol) as (? & ? & _).
  pose proof (kvsum_nonneg (fun k (_ : Z * Z) => key_weight k) ob ltac:(intros; by apply (worker_weight_nonneg policy))).
  pose proof (kvsum_nonneg (fun k (_ : Z * Z) => key_reservation policy k) ob ltac:(intros; by apply worker_weight_nonneg)). lia.
Qed.

Lemma bytes_admit ob rb rrb k :
  bytes_ok policy ob rb rrb -> ob !! k = None ->
  sat_add rb (key_weight k) <= LoaderPolicy.request_bytes policy -> sat_add rrb (key_reservation policy k) <= LoaderPolicy.result_bytes policy ->
  zsize ob < request_items policy -> zsize ob < result_items policy ->
  bytes_ok policy (<[k := (key_weight k, key_reservation policy k)]> ob) (u64_add rb (key_weight k)) (u64_add rrb (key_reservation policy k)).
Proof.
  intros Hb Hk H1 H2 H3 H4. destruct (bytes_range _ _ _ Hb) as [Hr1 Hr2]. destruct Hb as [W1 W2 W3 W4 W5 W6].
  destruct (worker_limits policy Hpol) as (? & ? & _). destruct (worker_weight_nonneg policy k Hpol) as [Hw1 Hw2].
  pose proof safe_facts as [Hs1 Hs2]. unfold sat_add in *. rewrite !u64_add_small by lia. split.
  - intros j x [[<- <-]|[_ Hj]]%lookup_insert_Some; auto.
  - rewrite kvsum_insert_new by done. lia.
  - rewrite kvsum_insert_new by done. lia.
  - lia.
  - lia.
  - unfold zsize in *. rewrite map_size_insert_None by done. lia.
Qed.

Lemma bytes_deliver ob rb rrb k x :
  bytes_ok policy ob rb rrb -> ob !! k = Some x -> bytes_ok policy (delete k ob) (sat_sub rb x.1) (sat_sub rrb x.2).
Proof.
  intros Hb Hk. destruct (bytes_range _ _ _ Hb) as [Hr1 Hr2]. destruct Hb as [W1 W2 W3 W4 W5 W6].
  rewrite (W1 k x Hk). cbn. pose proof (kvsum_delete (fun k (_ : Z * Z) => key_weight k) ob k) as D1.
  pose proof (kvsum_delete (fun k (_ : Z * Z) => key_reservation policy k) ob k) as D2. rewrite Hk in D1, D2. cbn in D1, D2.
  pose proof (kvsum_nonneg (fun k (_ : Z * Z) => key_weight k) (delete k ob) ltac:(intros; by apply (worker_weight_nonneg policy))).
  pose proof (kvsum_nonneg (fun k (_ : Z * Z) => key_reservation policy k) (delete k ob) ltac:(intros; by apply worker_weight_nonneg)).
  destruct (worker_weight_nonneg policy k Hpol). unfold sat_sub. split; try lia.
  - intros j y [_ Hj]%lookup_delete_Some. auto.
  - unfold zsize in *. rewrite map_size_delete_Some by eauto. lia.
Qed.

(** Replacing a queued request by another for its key charges nothing. *)
Lemma bytes_replace ob rb rrb k x : bytes_ok policy ob rb rrb -> ob !! k = Some x -> sat_add (sat_sub rb (key_weight k)) (key_weight k) = rb.
Proof.
  intros Hb Hk. destruct (bytes_range _ _ _ Hb) as [Hr1 _]. destruct Hb as [_ W2 _ _ _ _].
  pose proof (kvsum_ge (fun k (_ : Z * Z) => key_weight k) ob k ltac:(intros; by apply (worker_weight_nonneg policy))) as Hge.
  rewrite Hk in Hge. cbn in Hge. destruct (worker_weight_nonneg policy k Hpol). pose proof safe_facts. unfold sat_add, sat_sub in *. lia.
Qed.

(** ** The control rows *)
Lemma watch_weight_nonneg path : 0 <= config_watch_weight path.
Proof. unfold config_watch_weight, sat_add, sat_mul, path_len. assert (0 < u64_max) by done. lia. Qed.

Lemma watch_range ws wb : watch_ok policy ws wb -> 0 <= wb <= safe_size.
Proof.
  intros [-> H2 _]. destruct (worker_limits policy Hpol) as (? & _).
  pose proof (kvsum_nonneg (fun path (_ : ConfigWatchState) => config_watch_weight path) ws ltac:(intros; apply watch_weight_nonneg)). lia.
Qed.

Lemma watch_update ws wb path (row : ConfigWatchState) : watch_ok policy ws wb -> is_Some (ws !! path) -> watch_ok policy (<[path := row]> ws) wb.
Proof.
  intros [H1 H2 H3] [old Hold]. split; [|done|].
  - rewrite kvsum_insert, Hold. cbn. lia.
  - by rewrite map_size_insert_Some by eauto.
Qed.

Lemma watch_admit ws wb path row :
  watch_ok policy ws wb -> ws !! path = None -> sat_add wb (config_watch_weight path) <= LoaderPolicy.request_bytes policy ->
  Z.of_nat (size ws) < request_items policy -> watch_ok policy (<[path := row]> ws) (sat_add wb (config_watch_weight path)).
Proof.
  intros Hw Hnone Hb Hi. pose proof (watch_range _ _ Hw). destruct Hw as [H1 H2 H3]. destruct (worker_limits policy Hpol) as (? & _).
  pose proof (watch_weight_nonneg path). split; [|done|].
  - rewrite kvsum_insert_new by done. pose proof safe_facts. unfold sat_add in *. lia.
  - rewrite map_size_insert_None by done. lia.
Qed.

(** Dropping rows and recounting. *)
Lemma watch_recount (ws ws' : gmap string ConfigWatchState) wb :
  watch_ok policy ws wb -> ws' ⊆ ws ->
  watch_ok policy ws' (foldr (fun kv n => sat_add n (config_watch_weight kv.1)) 0 (map_to_list ws')).
Proof.
  intros Hw Hsub. pose proof (watch_range _ _ Hw) as Hr. destruct Hw as [H1 H2 H3].
  set (g := fun path (_ : ConfigWatchState) => config_watch_weight path) in *.
  pose proof (lsum_saturating g (map_to_list ws') ltac:(intros; apply watch_weight_nonneg)) as Hs.
  assert (kvsum g ws' <= kvsum g ws) as Hle.
  { clear -Hsub. revert ws Hsub. induction ws' as [|k x m Hk IH] using map_ind; intros ws Hsub.
    - rewrite kvsum_empty. apply kvsum_nonneg. intros. apply watch_weight_nonneg.
    - assert (ws !! k = Some x) as Hx by (eapply lookup_weaken; [apply lookup_insert_eq|done]).
      rewrite kvsum_insert_new by done. specialize (IH (delete k ws)). pose proof (kvsum_delete g ws k) as Hd. rewrite Hx in Hd. cbn in Hd.
      assert (m ⊆ delete k ws) as Hm. { apply map_subseteq_spec. intros j z Hj. assert (j <> k) by congruence.
        rewrite lookup_delete_ne by done. eapply lookup_weaken; [|exact Hsub]. by rewrite lookup_insert_ne. }
      specialize (IH Hm). lia. }
  change (foldr _ 0 (map_to_list ws')) with (foldr (fun kv n => sat_add n (g kv.1 kv.2)) 0 (map_to_list ws')).
  unfold kvsum in Hle at 1. rewrite Hs. pose proof safe_facts.
  assert (Z.min (lsum g (map_to_list ws')) u64_max = lsum g (map_to_list ws')) as -> by (clear Hs; lia). split.
  - reflexivity.
  - lia.
  - pose proof (map_subseteq_size _ _ Hsub). lia.
Qed.

(** ** Every operation keeps the invariant *)

Definition state_ok (s : State) (t : WorkerTurn) : Prop :=
  stopped s = false ->
  queue_ok (order s) (pending s) (rerun s) (in_flight s) (results s) (obligations s) t /\
  bytes_ok policy (obligations s) (request_bytes s) (reserved_result_bytes s) /\
  watch_ok policy (config_watches s) (config_watch_bytes s).

(** A row for the watch is there or there is room for one. *)
Definition watch_room (s : State) (w : option (string * Z)) : Prop :=
  match w with
  | Some (path, _) =>
      is_Some (config_watches s !! path) \/
      (sat_add (config_watch_bytes s) (config_watch_weight path) <= LoaderPolicy.request_bytes policy /\
       Z.of_nat (size (config_watches s)) < request_items policy)
  | None => True
  end.

Lemma worker_register s w :
  watch_ok policy (config_watches s) (config_watch_bytes s) -> watch_room s w ->
  watch_ok policy (config_watches (register_watch s w)) (config_watch_bytes (register_watch s w)).
Proof.
  intros Hw Hroom. destruct w as [[path g]|]; [|done]. cbn in *. destruct (config_watches s !! path) as [row|] eqn:E.
  - apply watch_update; [done|eauto].
  - destruct Hroom as [[? ?]|[? ?]]; [done|]. by apply watch_admit.
Qed.

Lemma worker_coalesce s t request :
  stopped s = false -> state_ok s t -> is_Some (obligations s !! key request) -> state_ok (coalesce s (key request) request) t.
Proof.
  intros Hst Hs Hob _. destruct (Hs Hst) as (Q & B & W). clear Hs. unfold coalesce. case_bool_decide as Hf; [|destruct (pending s !! key request) as [old|] eqn:E].
  - split; [|done]. cbn. apply queue_rerun; [done..|]. destruct (rerun s !! _) as [older|]; [apply coalesce_key|done].
  - cbn. split_and!; [|unfold request_weight|done].
    + eapply queue_replace; [done..|]. apply coalesce_key.
    + rewrite (q_pending _ _ _ _ _ _ _ Q _ _ E). destruct Hob as [x Hx]. by rewrite (bytes_replace _ _ _ _ _ B Hx).
  - split; [|done]. cbn. by apply queue_requeue.
Qed.

Lemma worker_submit s t request : state_ok s t -> state_ok (try_submit policy s request).1 t.
Proof.
  intros Hs. unfold try_submit. destruct (stopped s) eqn:Hst; [done|]. destruct (_ || _); [done|]. destruct (_ && _) eqn:E1; [done|].
  destruct (_ || _) eqn:E2; [done|]. specialize (Hs Hst) as (Q & B & W).
  assert (watch_room s (watch_of request)) as Hroom.
  { unfold watch_room. destruct (watch_of request) as [[path g]|]; [|done]. destruct (decide (is_Some (config_watches s !! path))) as [|Hn]; [by left|right].
    rewrite bool_decide_eq_false_2 in E2 by by rewrite elem_of_dom. cbn [negb andb] in E2. apply orb_false_iff in E2 as [Ei Eb].
    apply Z.leb_gt in Ei. apply Z.ltb_ge in Eb. done. }
  assert (forall s', s' = register_watch s (watch_of request) -> stopped s' = false /\ state_ok s' t /\ order s' = order s /\ pending s' = pending s /\
    rerun s' = rerun s /\ in_flight s' = in_flight s /\ results s' = results s /\ obligations s' = obligations s /\
    request_bytes s' = request_bytes s /\ reserved_result_bytes s' = reserved_result_bytes s) as Hreg.
  { intros s' ->. pose proof (worker_register s _ W Hroom) as Hw. destruct (watch_of request) as [[path g]|]; split_and!; try done. }
  destruct (Hreg _ eq_refl) as (Hst' & Hs' & Ho & Hp & Hr & Hf & Hres & Hob & Hrb & Hrrb). clear Hreg.
  destruct (obligations s !! key request) as [x|] eqn:Eob; [apply worker_coalesce; [done..|rewrite Hob; eauto]|].
  match goal with |- context [if ?c then _ else _] => destruct c eqn:E3 end; [done|]. repeat rewrite orb_false_iff in E3. destruct E3 as [[[E3 E4] E5] E6].
  apply Z.leb_gt in E3, E5. apply Z.ltb_ge in E4, E6. intros _. cbn [update_high_water with_counters with_queue with_bytes order pending rerun in_flight results obligations request_bytes reserved_result_bytes config_watches config_watch_bytes].
  destruct (Hs' Hst') as (_ & _ & W'). rewrite Ho, Hp, Hr, Hf, Hres, Hob, Hrb, Hrrb. split_and!; [by apply queue_enqueue|by apply bytes_admit|exact W'].
Qed.

Lemma worker_try_result s t : state_ok s t -> state_ok (try_result s).1 t.
Proof.
  intros Hs. unfold try_result. destruct (results s) as [|[k v] rest] eqn:E; [done|]. cbn [fst obligations with_queue].
  destruct (obligations s !! k) as [[a b]|] eqn:Eo; intros Hst; destruct (Hs Hst) as (Q & B & W); rewrite E in Q.
  - cbn. split_and!; [by eapply queue_deliver|by apply (bytes_deliver _ _ _ k (a, b))|done].
  - exfalso. pose proof (q_owed _ _ _ _ _ _ _ Q k) as Ho.
    rewrite Eo in Ho. destruct (proj2 Ho) as [? ?]; [|done]. right. right. left.
Qed.

Lemma worker_controls_call s t path (f : ConfigWatchState -> ConfigWatchState) :
  state_ok s t -> state_ok (match config_watches s !! path with Some ws => set_control s path (f ws) | None => s end) t.
Proof.
  intros Hs. destruct (config_watches s !! path) as [ws|] eqn:E; [|done]. intros Hst. destruct (Hs Hst) as (Q & B & W).
  split_and!; [done..|]. cbn. apply watch_update; [done|eauto].
Qed.

Lemma worker_take w : wf policy w -> wf policy (take w).
Proof.
  intros Hw. unfold take. destruct (turn w) eqn:Et; try (intros ?; by apply Hw). destruct (stopped (state w)) eqn:Hst; [by intros Hs; cbn in Hs; congruence|].
  unfold wf in Hw. rewrite Et in Hw. destruct (Hw Hst) as (Q & B & W). clear Hw. destruct (existsb _ _).
  - intros _. cbn. split_and!; [|done|].
    + destruct Q; by split.
    + destruct W as [W1 W2 W3]. split; [|done|by rewrite map_size_fmap].
      rewrite W1. clear. generalize (config_watches (state w)) as m. intros m. induction m as [|k x m Hk IH] using map_ind; [by rewrite fmap_empty|].
      rewrite fmap_insert, !kvsum_insert_new by (try rewrite lookup_fmap, Hk; done). by rewrite IH.
  - destruct (order (state w)) as [|k rest] eqn:Eo; [intros _; by rewrite Et, Eo|]. destruct (pending (state w) !! k) as [x|] eqn:Ep.
    + intros _. cbn. split_and!; [|done..]. eapply queue_take; [done..|].
      pose proof (q_pending _ _ _ _ _ _ _ Q k x Ep) as Hk. unfold fence. destruct x; try done. by case_bool_decide.
    + pose proof (proj1 (q_order _ _ _ _ _ _ _ Q k) ltac:(left)) as [? ?]. congruence.
Qed.

Lemma worker_finish a w : wf policy w -> wf policy (finish a policy w).
Proof.
  intros Hw. unfold finish. destruct (turn w) as [|cs|k r|] eqn:Et; try done.
  - intros Hst. cbn in Hst. unfold wf in Hw. rewrite Et in Hw. destruct (Hw Hst) as (Q & B & W). cbn. split_and!; [|done|].
    + destruct Q; by split.
    + eapply watch_recount; [done|]. apply map_filter_subseteq.
  - unfold finish_request. destruct (run_request a policy (baselines w) r) as [result b]. unfold wf in Hw. rewrite Et in Hw.
    cbn [stopped with_queue sync_config_metrics with_counters]. destruct (stopped (state w)) eqn:Hst; [by intros Hs; cbn in Hs; congruence|].
    destruct (Hw eq_refl) as (Q & B & W). cbn [rerun with_queue sync_config_metrics with_counters].
    destruct (rerun (state w) !! k) as [next|] eqn:Er; intros _; cbn; (split_and!; [|done..]).
    + by eapply queue_finish_rerun.
    + by eapply queue_finish_result.
Qed.

Lemma worker_step w o : wf policy w -> wf policy (step policy w o).
Proof.
  intros Hw. destruct o as [r| |path g r ap|path g| |a|]; cbn [step].
  - by apply worker_submit.
  - by apply worker_try_result.
  - unfold on_state, resolve_config_watch. destruct (stopped (state w)) eqn:E; [done|].
    by apply (worker_controls_call (state w) (turn w) path (fun ws => mkWatch (registered_generation ws) (resolve_control (control ws) g r ap))).
  - unfold on_state, retire_config_watch. destruct (stopped (state w)) eqn:E; [done|].
    by apply (worker_controls_call (state w) (turn w) path (fun ws => mkWatch (if bool_decide (registered_generation ws = Some g) then None else registered_generation ws)
      (mkControl (resolution (control ws)) (opt_max (retire_generation (control ws)) (Some g))))).
  - by apply worker_take.
  - by apply worker_finish.
  - done.
Qed.

Lemma queue_empty : queue_ok [] ∅ ∅ ∅ [] ∅ Idle.
Proof.
  assert (forall (A : Type) (k : WorkKey), ~ is_Some ((∅ : gmap WorkKey A) !! k)) as Hn by (intros A k; rewrite lookup_empty; by intros [? ?]).
  split; try done; try (by intros ? ? ?%lookup_empty_Some); try (by intros k ?%Hn); try (by intros k; set_solver); try constructor.
Qed.

Lemma worker_spawn_ok : wf policy spawn.
Proof.
  intros _. destruct (worker_limits policy Hpol) as (? & ? & ? & ?). split_and!; [apply queue_empty| |].
  - split; cbn; rewrite ?kvsum_empty; try done; try lia. unfold zsize. rewrite map_size_empty. lia.
  - split; cbn; rewrite ?kvsum_empty, ?map_size_empty; try done; lia.
Qed.

Lemma worker_run os : wf policy (run policy os).
Proof.
  unfold run. pose proof worker_spawn_ok as H0. revert H0. generalize spawn. induction os as [|o os IH]; intros w Hw; [done|].
  cbn. by apply IH, worker_step.
Qed.

(** C2. At every moment each key owed is queued, with the worker or finished, exactly one of the three; the
    request and result bytes are those of the keys owed; and with the control rows of watched configs
    everything stays within the policy. *)
Theorem worker_accounting os :
  let w := run policy os in
  stopped (state w) = false ->
  queue_ok (order (state w)) (pending (state w)) (rerun (state w)) (in_flight (state w)) (results (state w)) (obligations (state w)) (turn w) /\
  bytes_ok policy (obligations (state w)) (request_bytes (state w)) (reserved_result_bytes (state w)) /\
  watch_ok policy (config_watches (state w)) (config_watch_bytes (state w)).
Proof. apply worker_run. Qed.

(** ** The latest request wins *)

Definition req_stamp (r : Request) : Z * Z :=
  match r with RScan e v _ | RPlugin e v _ | RConfig e v _ _ => (e, v) end.
Definition result_stamp (r : WorkerResult) : Z * Z :=
  match r with WScan e v _ | WPlugin e v _ _ | WConfig e v _ _ _ => (e, v) end.
Definition result_for (k : WorkKey) (r : WorkerResult) : Prop :=
  match k, r with
  | KScan _, WScan _ _ _ => True
  | KPlugin p, WPlugin _ _ p' _ => p = p'
  | KConfig p, WConfig _ _ p' _ _ => p = p'
  | _, _ => False
  end.

(** The stamp of the last request admitted for each key. *)
Definition note_admitted (w : Worker) (o : op) (latest : gmap WorkKey (Z * Z)) : gmap WorkKey (Z * Z) :=
  match o with
  | TrySubmit r => match (try_submit policy (state w) r).2 with
                   | Accepted | Coalesced => <[key r := req_stamp r]> latest
                   | _ => latest end
  | _ => latest
  end.
Definition run_latest (os : list op) : Worker * gmap WorkKey (Z * Z) :=
  foldl (fun wl o => (step policy wl.1 o, note_admitted wl.1 o wl.2)) (spawn, ∅) os.

Record stamps (p r : gmap WorkKey Request) (res : list (WorkKey * WorkerResult)) (t : WorkerTurn) (latest : gmap WorkKey (Z * Z)) : Prop := {
  s_pending k x : p !! k = Some x -> latest !! k = Some (req_stamp x);
  s_rerun k x : r !! k = Some x -> latest !! k = Some (req_stamp x);
  s_working k x : t = Working k x -> r !! k = None -> latest !! k = Some (req_stamp x);
  s_results k v : (k, v) ∈ res -> latest !! k = Some (result_stamp v) /\ result_for k v;
}.

Definition stamps_ok (w : Worker) (latest : gmap WorkKey (Z * Z)) : Prop :=
  stopped (state w) = false -> stamps (pending (state w)) (rerun (state w)) (results (state w)) (turn w) latest.

Lemma coalesce_stamp a b : req_stamp (coalesce_with a b) = req_stamp a.
Proof. by destruct a, b. Qed.

Lemma elem_fst {A B} (l : list (A * B)) a b : (a, b) ∈ l -> a ∈ l.*1.
Proof. intros Hin. apply list_elem_of_fmap. by exists (a, b). Qed.

Lemma stamps_fresh o p r f res ob t latest k x :
  queue_ok o p r f res ob t -> k ∉ f -> k ∉ res.*1 -> stamps p r res t latest ->
  stamps (<[k := x]> p) r res t (<[k := req_stamp x]> latest).
Proof.
  intros Q Hf Hr [S1 S2 S3 S4]. split.
  - intros j y [[<- <-]|[Hne Hj]]%lookup_insert_Some; [by rewrite lookup_insert_eq|]. rewrite lookup_insert_ne; auto.
  - intros j y Hj. rewrite lookup_insert_ne; [auto|]. intros ->. by destruct (q_rerun _ _ _ _ _ _ _ Q _ _ Hj).
  - intros j y -> Hj. rewrite lookup_insert_ne; [auto|]. intros ->. pose proof (q_flight _ _ _ _ _ _ _ Q) as ->. set_solver.
  - intros j v Hin. rewrite lookup_insert_ne; [auto|]. intros ->. by apply elem_fst in Hin.
Qed.

Lemma stamps_coalesce s t latest request :
  queue_ok (order s) (pending s) (rerun s) (in_flight s) (results s) (obligations s) t ->
  stamps (pending s) (rerun s) (results s) t latest ->
  stamps (pending (coalesce s (key request) request)) (rerun (coalesce s (key request) request)) (results (coalesce s (key request) request)) t
    (<[key request := req_stamp request]> latest).
Proof.
  intros Q S. set (k := key request). unfold coalesce. case_bool_decide as Hf; [|destruct (pending s !! k) as [old|] eqn:E].
  - cbn. assert (k ∉ (results s).*1) as Hr by by eapply q_flight_results. destruct S as [S1 S2 S3 S4]. split.
    + intros j y Hj. rewrite lookup_insert_ne; [auto|]. intros ->. by destruct (q_pending_flight _ _ _ _ _ _ _ Q j ltac:(eauto)).
    + intros j y [[<- <-]|[Hne Hj]]%lookup_insert_Some; [|rewrite lookup_insert_ne; auto].
      rewrite lookup_insert_eq. f_equal. destruct (rerun s !! k); [by rewrite coalesce_stamp|done].
    + intros j y Et Hj. apply lookup_insert_None in Hj as [Hj Hne]. rewrite lookup_insert_ne; auto.
    + intros j v Hin. rewrite lookup_insert_ne; [auto|]. intros ->. by apply elem_fst in Hin.
  - cbn. rewrite <- (coalesce_stamp request old). eapply stamps_fresh; [done|done| |done]. eapply q_pending_results; [done|eauto].
  - cbn. destruct S as [S1 S2 S3 S4]. split.
    + intros j y [[<- <-]|[Hne Hj]]%lookup_insert_Some; [by rewrite lookup_insert_eq|]. rewrite lookup_insert_ne; auto.
    + intros j y Hj. rewrite lookup_insert_ne; [auto|]. intros <-. by destruct (q_rerun _ _ _ _ _ _ _ Q _ _ Hj).
    + intros j y -> Hj. rewrite lookup_insert_ne; [auto|]. intros <-. pose proof (q_flight _ _ _ _ _ _ _ Q) as Hfl. rewrite Hfl in Hf. set_solver.
    + intros j v Hin. apply elem_of_filterb in Hin as [Hn Hin]. apply negb_true_iff, bool_decide_eq_false in Hn. cbn in Hn.
      rewrite lookup_insert_ne by done. auto.
Qed.

Lemma stamps_register s w t latest :
  stamps (pending (register_watch s w)) (rerun (register_watch s w)) (results (register_watch s w)) t latest <-> stamps (pending s) (rerun s) (results s) t latest.
Proof. by destruct w as [[path g]|]. Qed.

Lemma worker_stamps_submit w latest r :
  wf policy w -> stamps_ok w latest -> stamps_ok (on_state w (try_submit policy (state w) r).1) (note_admitted w (TrySubmit r) latest).
Proof.
  intros Hw Hs. unfold note_admitted. unfold try_submit. destruct (stopped (state w)) eqn:Hst; [done|].
  destruct (_ || _); [done|]. destruct (_ && _); [done|]. destruct (_ || _); [done|].
  destruct (Hw Hst) as (Q & _). specialize (Hs Hst).
  destruct (obligations (state w) !! key r) as [x|] eqn:Eob; cbn [fst snd].
  - intros _. cbn [turn state on_state]. apply stamps_coalesce; [destruct (watch_of r) as [[]|]; exact Q|by apply stamps_register].
  - match goal with |- context [if ?c then _ else _] => destruct c end; [intros _; exact Hs|]. intros _. cbn [fst snd].
    assert (forall s', s' = register_watch (state w) (watch_of r) -> pending s' = pending (state w) /\ rerun s' = rerun (state w) /\ results s' = results (state w)) as Hr.
    { intros s' ->. by destruct (watch_of r) as [[]|]. }
    destruct (Hr _ eq_refl) as (Hp & Hre & Hres). destruct (queue_fresh _ _ _ _ _ _ _ _ Q Eob) as (_ & Hf & Hrs).
    cbn. rewrite Hp, Hre, Hres. by eapply stamps_fresh.
Qed.

Lemma worker_stamps_finish a w latest : wf policy w -> stamps_ok w latest -> stamps_ok (finish a policy w) latest.
Proof.
  intros Hw Hs. unfold finish. destruct (turn w) as [|cs|k r|] eqn:Et; try done.
  - intros Hst. destruct (Hs Hst) as [S1 S2 S3 S4]. cbn. by split.
  - unfold finish_request. destruct (run_request a policy (baselines w) r) as [result b] eqn:Er. cbn [stopped with_queue sync_config_metrics with_counters].
    destruct (stopped (state w)) eqn:Hst; [by intros Hx; cbn in Hx; congruence|]. intros _. destruct (Hw Hst) as (Q & _). rewrite Et in Q.
    destruct (Hs Hst) as [S1 S2 S3 S4]. pose proof (q_working _ _ _ _ _ _ _ Q k r eq_refl) as Hk. cbn [rerun with_queue sync_config_metrics with_counters].
    destruct (rerun (state w) !! k) as [next|] eqn:En; cbn; split; try done.
    + intros j y [[<- <-]|[_ Hj]]%lookup_insert_Some; auto.
    + intros j y [_ Hj]%lookup_delete_Some. auto.
    + intros j v [Hin|[= -> ->]%list_elem_of_singleton]%elem_of_app; [auto|]. rewrite (S3 k r Et En). subst k. split.
      * f_equal. unfold run_request in Er. destruct r; repeat case_match; by simplify_eq/=.
      * unfold run_request in Er. destruct r; repeat case_match; by simplify_eq/=.
Qed.

Lemma worker_stamps_step w latest o : wf policy w -> stamps_ok w latest -> stamps_ok (step policy w o) (note_admitted w o latest).
Proof.
  intros Hw Hs. destruct o as [r| |path g v ap|path g| |a|]; cbn [step].
  - by apply worker_stamps_submit.
  - cbn [note_admitted]. unfold try_result. destruct (results (state w)) as [|[k v] rest] eqn:E; [done|]. cbn [fst obligations with_queue].
    intros Hst. assert (stopped (state w) = false) as Hst' by by destruct (obligations (state w) !! k) as [[]|].
    destruct (Hs Hst') as [S1 S2 S3 S4]. destruct (obligations (state w) !! k) as [[]|]; cbn; split; try done; intros j y Hin; apply S4; rewrite E; by right.
  - cbn [note_admitted]. unfold resolve_config_watch. destruct (stopped (state w)) eqn:E; [by intros Hx; cbn in Hx; congruence|]. by destruct (config_watches (state w) !! path).
  - cbn [note_admitted]. unfold retire_config_watch. destruct (stopped (state w)) eqn:E; [by intros Hx; cbn in Hx; congruence|]. by destruct (config_watches (state w) !! path).
  - cbn [note_admitted]. unfold take. destruct (turn w) eqn:Et; try done. destruct (stopped (state w)) eqn:Hst; [by intros Hx; cbn in Hx; congruence|].
    destruct (Hs Hst) as [S1 S2 S3 S4]. destruct (existsb _ _); [intros _; cbn; by split|]. destruct (order (state w)) as [|k rest]; [done|].
    destruct (pending (state w) !! k) as [x|] eqn:Ep; intros _; cbn; split; try done.
    + intros j y [_ Hj]%lookup_delete_Some. auto.
    + intros j y [= <- <-] _. rewrite (S1 k x Ep). unfold fence. destruct x; try done. by case_bool_decide.
  - by apply worker_stamps_finish.
  - done.
Qed.

Lemma worker_run_latest os : wf policy (run_latest os).1 /\ stamps_ok (run_latest os).1 (run_latest os).2.
Proof.
  unfold run_latest. assert (stamps_ok spawn ∅) as H0. { intros _. split; cbn; try done. by intros k v ?%elem_of_nil. }
  pose proof worker_spawn_ok as H1. revert H0 H1. generalize (∅ : gmap WorkKey (Z * Z)), spawn. induction os as [|o os IH]; intros latest w Hs Hw; [done|].
  cbn. apply IH; [by apply worker_stamps_step|by apply worker_step].
Qed.

(** A result handed to the game thread answers the last request admitted for its key: a read that a newer
    request overtook is never delivered. *)
Theorem worker_latest_wins os s' v :
  try_result (state (run_latest os).1) = (s', Some v) -> stopped (state (run_latest os).1) = false ->
  exists k, result_for k v /\ (run_latest os).2 !! k = Some (result_stamp v).
Proof.
  intros E Hst. destruct (worker_run_latest os) as [_ Hs]. specialize (Hs Hst). unfold try_result in E.
  destruct (results _) as [|[k x] rest] eqn:Er; [done|]. destruct (s_results _ _ _ _ _ Hs k x ltac:(left)) as [H1 H2].
  injection E as _ <-. eauto.
Qed.

(** ** Progress *)

(** What the worker does next when left alone. *)
Definition work (a : Answers) (w : Worker) : Worker := match turn w with Idle => take w | _ => finish a policy w end.

Definition controls_waiting (s : State) : bool := existsb (fun kv => negb (control_is_empty (control kv.2))) (map_to_list (config_watches s)).

(** The critical sections left before the worker waits. *)
Definition backlog (w : Worker) : nat :=
  2 * size (pending (state w)) + 2 * size (rerun (state w)) + (if controls_waiting (state w) then 2 else 0) +
  (match turn w with Idle | Exited => 0 | _ => 1 end).

Definition busy_or_idle (w : Worker) : Prop := stopped (state w) = false /\ turn w <> Exited.

Lemma controls_taken s : controls_waiting (take_controls s).1 = false.
Proof.
  unfold controls_waiting. apply existsb_none. intros [path ws] Hin%elem_of_map_to_list. cbn in Hin. rewrite lookup_fmap in Hin.
  destruct (config_watches s !! path) as [old|]; [|done]. cbn in Hin. injection Hin as <-. apply negb_false_iff.
  by destruct (control_is_empty (control old)) eqn:E.
Qed.

Lemma controls_filtered (ws : gmap string ConfigWatchState) :
  existsb (fun kv => negb (control_is_empty (control kv.2))) (map_to_list (filter (fun kv : string * ConfigWatchState => watch_kept kv.2 = true) ws)) =
  existsb (fun kv => negb (control_is_empty (control kv.2))) (map_to_list ws).
Proof.
  apply eq_true_iff_eq. rewrite !existsb_elem. split; intros ([path x] & Hin & Hx); exists (path, x); split; try done; apply elem_of_map_to_list in Hin; apply elem_of_map_to_list.
  - by apply map_lookup_filter_Some in Hin as [Hin _].
  - apply map_lookup_filter_Some. split; [done|]. cbn in *. unfold watch_kept. by destruct (registered_generation x).
Qed.

(** With the turn in hand, the section that ends it makes progress. *)
Lemma worker_finish_progress a w :
  wf policy w -> busy_or_idle w -> turn w <> Idle ->
  busy_or_idle (finish a policy w) /\ obligations (state (finish a policy w)) = obligations (state w) /\
  turn (finish a policy w) = Idle /\ (backlog (finish a policy w) + 1 = backlog w)%nat.
Proof.
  intros Hw [Hst Hex] Hidle. destruct (Hw Hst) as (Q & _). unfold finish, backlog, busy_or_idle. destruct (turn w) as [|cs|k r|] eqn:Et; try done.
  - unfold finish_controls. cbn [turn state stopped pending rerun obligations with_watches update_high_water sync_config_metrics with_counters].
    split_and!; [by destruct (state w)|done|by destruct (state w)|done|].
    unfold controls_waiting in *. cbn [config_watches with_watches update_high_water sync_config_metrics with_counters].
    rewrite controls_filtered. lia.
  - unfold finish_request. destruct (run_request a policy (baselines w) r) as [result b].
    cbn [stopped with_queue sync_config_metrics with_counters]. rewrite Hst. cbn [rerun with_queue sync_config_metrics with_counters].
    destruct (rerun (state w) !! k) as [next|] eqn:Er; cbn; (split_and!; [done|done|done|done|]); unfold controls_waiting; cbn.
    + assert (pending (state w) !! k = None) as Hp.
      { destruct (pending (state w) !! k) eqn:E; [|done]. destruct (q_pending_flight _ _ _ _ _ _ _ Q k ltac:(eauto)). by apply (q_rerun _ _ _ _ _ _ _ Q _ _ Er). }
      rewrite map_size_insert_None by done. rewrite map_size_delete_Some by eauto.
      assert (size (rerun (state w)) <> 0%nat). { intros E0%map_size_empty_inv. rewrite E0 in Er. done. } lia.
    + lia.
Qed.

Lemma worker_take_progress w :
  wf policy w -> busy_or_idle w -> turn w = Idle -> backlog w <> 0%nat ->
  busy_or_idle (take w) /\ obligations (state (take w)) = obligations (state w) /\
  (backlog (take w) + 1 = backlog w)%nat.
Proof.
  intros Hw [Hst Hex] Hidle Hb. destruct (Hw Hst) as (Q & _). rewrite Hidle in Q. unfold take. rewrite Hidle, Hst.
  assert (rerun (state w) = ∅) as Hre.
  { apply map_eq. intros k. rewrite lookup_empty. destruct (rerun (state w) !! k) eqn:E; [|done].
    apply (q_rerun _ _ _ _ _ _ _ Q) in E as [Hf _]. rewrite (q_flight _ _ _ _ _ _ _ Q) in Hf. set_solver. }
  fold (controls_waiting (state w)). destruct (controls_waiting (state w)) eqn:Ec.
  - pose proof (controls_taken (state w)) as Ht. destruct (take_controls (state w)) as [s' cs] eqn:E. cbn in Ht.
    assert (s' = (take_controls (state w)).1) as -> by by rewrite E. unfold busy_or_idle, backlog. cbn [turn state]. rewrite Ht, Hidle, Ec. cbn.
    split_and!; try done. lia.
  - destruct (order (state w)) as [|k rest] eqn:Eo.
    + exfalso. unfold backlog in Hb. rewrite Hre, Ec, Hidle, map_size_empty in Hb. assert (pending (state w) = ∅) as Hp; [|rewrite Hp, map_size_empty in Hb; done].
      apply map_eq. intros k. rewrite lookup_empty. destruct (pending (state w) !! k) eqn:E; [|done].
      pose proof (proj2 (q_order _ _ _ _ _ _ _ Q k) ltac:(eauto)) as Hin. by apply elem_of_nil in Hin.
    + destruct (pending (state w) !! k) as [x|] eqn:Ep; [|destruct (proj1 (q_order _ _ _ _ _ _ _ Q k) ltac:(left)); congruence].
      unfold busy_or_idle, backlog, controls_waiting. cbn. fold (controls_waiting (state w)). rewrite Ec, Hidle, map_size_delete_Some by eauto.
      split_and!; try done. assert (size (pending (state w)) <> 0%nat). { intros E0%map_size_empty_inv. rewrite E0 in Ep. done. } lia.
Qed.

Lemma worker_work a w :
  wf policy w -> busy_or_idle w ->
  wf policy (work a w) /\ busy_or_idle (work a w) /\ obligations (state (work a w)) = obligations (state w) /\
  backlog (work a w) = (backlog w - 1)%nat.
Proof.
  intros Hw Hb. unfold work. destruct (turn w) as [|cs|k r|] eqn:Et; [| | |by destruct Hb].
  - destruct (decide (backlog w = 0%nat)) as [H0|H0].
    + assert (take w = w) as ->; [|split_and!; try done; lia]. destruct Hb as [Hst _]. unfold take. rewrite Et, Hst.
      unfold backlog in H0. fold (controls_waiting (state w)). destruct (controls_waiting (state w)); [lia|]. destruct (order (state w)) as [|k rest] eqn:Eo; [done|].
      destruct (Hw Hst) as (Q & _). destruct (proj1 (q_order _ _ _ _ _ _ _ Q k)) as [x Hx]; [rewrite Eo; left|].
      assert (pending (state w) = ∅) as Hp by (apply map_size_empty_inv; lia). by rewrite Hp in Hx.
    + destruct (worker_take_progress w Hw Hb Et H0) as (H1 & H2 & H3). split_and!; [by apply worker_take|done|done|lia].
  - destruct (worker_finish_progress a w Hw Hb ltac:(by rewrite Et)) as (H1 & H2 & H3 & H4). split_and!; [by apply worker_finish|done|done|lia].
  - destruct (worker_finish_progress a w Hw Hb ltac:(by rewrite Et)) as (H1 & H2 & H3 & H4). split_and!; [by apply worker_finish|done|done|lia].
Qed.

Lemma worker_not_exited os : turn (run policy os) = Exited -> stopped (state (run policy os)) = true.
Proof.
  unfold run. assert (forall w o, (turn w = Exited -> stopped (state w) = true) -> turn (step policy w o) = Exited -> stopped (state (step policy w o)) = true) as Hstep.
  { intros w o Hw. destruct o as [r| |path g v ap|path g| |a|]; cbn [step turn on_state state].
    - intros Ht%Hw. unfold try_submit. by rewrite Ht.
    - intros Ht%Hw. unfold try_result. destruct (results (state w)) as [|[k x] rest]; [done|]. cbn. by destruct (obligations (state w) !! k) as [[]|].
    - intros Ht%Hw. unfold resolve_config_watch. by rewrite Ht.
    - intros Ht%Hw. unfold retire_config_watch. by rewrite Ht.
    - unfold take. destruct (turn w) eqn:Et; [|by rewrite Et|by rewrite Et|by intros _; apply Hw]. destruct (stopped (state w)) eqn:Es; [done|]. destruct (existsb _ _); [done|].
      destruct (order (state w)); [by rewrite Et|]. by destruct (pending (state w) !! _).
    - unfold finish. destruct (turn w) eqn:Et; [by rewrite Et|done| |by intros _; apply Hw]. unfold finish_request.
      destruct (run_request _ _ _ _). cbn [stopped with_queue sync_config_metrics with_counters]. by destruct (stopped (state w)) eqn:Es.
    - done. }
  assert (turn spawn = Exited -> stopped (state spawn) = true) as H0 by done. revert H0. generalize spawn.
  induction os as [|o os IH]; intros w H0; [done|]. cbn. apply IH, Hstep, H0.
Qed.

(** C35. Left alone, the worker finishes: whatever it was asked, and whatever the file system answers, after as
    many critical sections as its backlog every key owed has its result waiting, and none was dropped. *)
Theorem worker_drains os answers :
  let w := run policy os in
  stopped (state w) = false -> (backlog w <= length answers)%nat ->
  let w' := foldl (fun w a => work a w) w answers in
  turn w' = Idle /\ pending (state w') = ∅ /\ rerun (state w') = ∅ /\ obligations (state w') = obligations (state w) /\
  forall k, is_Some (obligations (state w) !! k) <-> k ∈ (results (state w')).*1.
Proof.
  intros w Hst Hlen w'. assert (busy_or_idle w) as Hb. { split; [done|]. intros Ht%worker_not_exited. unfold w in Hst. congruence. }
  assert (wf policy w' /\ busy_or_idle w' /\ obligations (state w') = obligations (state w) /\ backlog w' = 0%nat) as (Hw' & [Hst' Hex] & Hob & H0).
  { pose proof (worker_run os) as Hw. fold w in Hw. clearbody w. subst w'. revert w Hw Hb Hst Hlen. induction answers as [|a answers IH]; intros w Hw Hb Hst Hlen; cbn [foldl length] in *.
    - split_and!; [done..|lia].
    - destruct (worker_work a w Hw Hb) as (H1 & H2 & H3 & H4). destruct (IH (work a w) H1 H2 (proj1 H2)) as (? & ? & ? & ?); [lia|].
      split_and!; try done. congruence. }
  unfold backlog in H0. assert (turn w' = Idle) as Ht. { revert H0 Hex. destruct (turn w'); intros; done || lia. }
  assert (pending (state w') = ∅) as Hp by (apply map_size_empty_inv; lia).
  assert (rerun (state w') = ∅) as Hr by (apply map_size_empty_inv; lia). split_and!; try done.
  intros k. destruct (Hw' Hst') as (Q & _). rewrite <- Hob, (q_owed _ _ _ _ _ _ _ Q k), (q_flight _ _ _ _ _ _ _ Q), Ht, Hp.
  rewrite lookup_empty. split; [intros [[? ?]|[?|?]]; [done|set_solver|done]|auto].
Qed.

(** ** Control rows outlive what they control *)

(** The row of the path can still retire generation [g]: it is registered for it or a later one, or its
    retirement is recorded. *)
Definition row_covers (ws : gmap string ConfigWatchState) (path : string) (g : Z) : Prop :=
  exists row, ws !! path = Some row /\
    ((exists g', registered_generation row = Some g' /\ g <= g') \/ (exists g', retire_generation (control row) = Some g' /\ g <= g')).

(** The worker holds the retirement in its hands. *)
Definition hand_covers (t : WorkerTurn) (path : string) (g : Z) : Prop :=
  exists cs c g', t = Controls cs /\ (path, c) ∈ cs /\ retire_generation c = Some g' /\ g <= g'.

Definition rows_ok (w : Worker) : Prop :=
  stopped (state w) = false ->
  (forall path g, owned (baselines w) path g -> row_covers (config_watches (state w)) path g \/ hand_covers (turn w) path g) /\
  (forall k e v path g, turn w = Working k (RConfig e v path (Some g)) -> row_covers (config_watches (state w)) path g).

Lemma opt_max_ge a b x : a = Some x -> exists y, opt_max a b = Some y /\ x <= y.
Proof. intros ->. destruct b as [z|]; eexists; (split; [done|lia]). Qed.
Lemma opt_max_ge_r a y : exists z, opt_max a (Some y) = Some z /\ y <= z.
Proof. destruct a; eexists; (split; [done|lia]). Qed.

(** A row that covers no less is as good. *)
Lemma row_update ws path row row' q g :
  ws !! path = Some row ->
  (forall g', registered_generation row = Some g' -> (exists h, registered_generation row' = Some h /\ g' <= h) \/
                                                    (exists h, retire_generation (control row') = Some h /\ g' <= h)) ->
  (forall g', retire_generation (control row) = Some g' -> exists h, retire_generation (control row') = Some h /\ g' <= h) ->
  row_covers ws q g -> row_covers (<[path := row']> ws) q g.
Proof.
  intros Hrow H1 H2 (r & Hr & Hc). destruct (decide (path = q)) as [<-|]; [|exists r; by rewrite lookup_insert_ne].
  exists row'. rewrite lookup_insert_eq. split; [done|]. simplify_eq. destruct Hc as [(g' & Hg & Hle)|(g' & Hg & Hle)].
  - destruct (H1 g' Hg) as [(h & Hh & ?)|(h & Hh & ?)]; [left|right]; exists h; (split; [done|lia]).
  - destruct (H2 g' Hg) as (h & Hh & ?). right. exists h. split; [done|lia].
Qed.

Lemma row_register s w q g : row_covers (config_watches s) q g -> row_covers (config_watches (register_watch s w)) q g.
Proof.
  destruct w as [[path gen]|]; [|done]. cbn. intros Hc. destruct (config_watches s !! path) as [row|] eqn:E; cbn.
  - eapply row_update; [exact E| | |exact Hc]; cbn; [|eauto using Z.le_refl]. intros g' Hg. left. by apply opt_max_ge.
  - destruct Hc as (r & Hr & Hc). exists r. rewrite lookup_insert_ne; [done|]. intros <-. congruence.
Qed.

Lemma rows_watches w s' :
  rows_ok w -> (stopped s' = false -> stopped (state w) = false) ->
  (forall q g, row_covers (config_watches (state w)) q g -> row_covers (config_watches s') q g) -> rows_ok (on_state w s').
Proof.
  intros Hw Hst Hmono H. destruct (Hw (Hst H)) as [H1 H2]. split; cbn.
  - intros path g Ho. destruct (H1 path g Ho) as [Hr|Hh]; [left; auto|by right].
  - intros k e v path g Ht. eauto.
Qed.

Lemma coalesce_watches s k r : config_watches (coalesce s k r) = config_watches s /\ stopped (coalesce s k r) = stopped s.
Proof. unfold coalesce. case_bool_decide; [done|]. by destruct (pending s !! k). Qed.

Lemma rows_submit w r : rows_ok w -> rows_ok (on_state w (try_submit policy (state w) r).1).
Proof.
  intros Hw. unfold try_submit. destruct (stopped (state w)) eqn:Hst; [exact Hw|]. destruct (_ || _); [exact Hw|]. destruct (_ && _); [exact Hw|].
  destruct (_ || _); [exact Hw|]. assert (stopped (register_watch (state w) (watch_of r)) = false) as Hs by by destruct (watch_of r) as [[]|].
  destruct (obligations (state w) !! key r).
  - apply rows_watches; [done|done|]. intros q g Hq. cbn. rewrite (proj1 (coalesce_watches _ _ _)). by apply row_register.
  - match goal with |- context [if ?c then _ else _] => destruct c end; [exact Hw|]. apply rows_watches; [done|done|]. intros q g Hq. by apply row_register.
Qed.

Lemma rows_take w : rows_ok w -> rows_ok (take w).
Proof.
  intros Hw. unfold take. destruct (turn w) eqn:Et; try (exact Hw). destruct (stopped (state w)) eqn:Hst; [by intros Hx; cbn in Hx; congruence|].
  destruct (Hw Hst) as [H1 H2]. rewrite Et in H1. destruct (existsb _ _).
  - intros _. cbn. split; [|done]. intros path g Ho. destruct (H1 path g Ho) as [(row & Hr & Hc)|(cs & c & g' & ? & _)]; [|done].
    destruct (control_is_empty (control row)) eqn:Ee.
    + left. exists row. rewrite lookup_fmap, Hr. cbn. by rewrite Ee.
    + destruct Hc as [(g' & Hg & Hle)|(g' & Hg & Hle)].
      * left. eexists. rewrite lookup_fmap, Hr. cbn. rewrite Ee. split; [done|]. left. eauto.
      * right. eexists _, (control row), g'. split_and!; [done| |done|done]. apply list_elem_of_omap. exists (path, row). cbn. rewrite Ee.
        split; [by apply elem_of_map_to_list|done].
  - destruct (order (state w)) as [|k rest] eqn:Eo; [exact Hw|]. destruct (pending (state w) !! k) as [x|] eqn:Ep; intros _; cbn.
    + split.
      * intros path g Ho. destruct (H1 path g Ho) as [Hr|(cs & c & g' & ? & _)]; [by left|done].
      * intros k' e v path g [= <- Hf]. unfold fence in Hf. destruct x as [| |e' v' path' g']; try done. cbn in Hf.
        destruct (config_watches (state w) !! path') as [row|] eqn:Er; cbn in Hf.
        -- case_bool_decide as Hb; [|done]. injection Hf as -> -> -> ->. exists row. split; [done|]. left. exists g. split; [by rewrite <- Hb|lia].
        -- case_bool_decide as Hb; [|done]. injection Hf as -> -> -> ->. done.
    + split; [|done]. intros path g Ho. destruct (H1 path g Ho) as [Hr|(cs & c & g' & ? & _)]; [by left|done].
Qed.

Lemma owned_controls b cs path g :
  owned (foldl apply_control b cs) path g ->
  owned b path g /\ forall c g', (path, c) ∈ cs -> retire_generation c = Some g' -> g' < g.
Proof.
  revert b. induction cs as [|[p c] cs IH]; intros b; cbn [foldl]; [intros H; split; [done|by intros ? ? ?%elem_of_nil]|].
  intros [Ho Hall]%IH. unfold apply_control in Ho. set (b1 := match resolution c with Some _ => _ | None => b end) in Ho.
  assert (forall q h, owned b1 q h -> owned b q h) as Hb1.
  { intros q h. unfold b1. destruct (resolution c) as [[[? ?] ?]|]; [apply owned_resolve|done]. }
  destruct (retire_generation c) as [gr|] eqn:Er.
  - apply owned_retire in Ho as [Ho Hlt]. split; [auto|]. intros c' g' [[= -> ->]|Hin]%elem_of_cons Hg'; [|eauto]. rewrite Er in Hg'. injection Hg' as <-. auto.
  - split; [auto|]. intros c' g' [[= -> ->]|Hin]%elem_of_cons Hg'; [congruence|eauto].
Qed.

Lemma owned_run_request a b r path g :
  owned (run_request a policy b r).2 path g -> owned b path g \/ (exists e v, r = RConfig e v path (Some g)).
Proof.
  unfold run_request. destruct r as [e v dir|e v p|e v p [gr|]]; try (by left).
  - set (b1 := discard_superseded b p gr v). assert (forall c st, owned (let '(b', d) := compare_and_propose b1 p gr v c policy in (inl (B := ReadError) (mkSnapshot c st d), b')).2 path g ->
      owned b path g \/ exists e0 v0, RConfig e v p (Some gr) = RConfig e0 v0 path (Some g)) as Hc.
    { intros c st. pose proof (owned_compare b1 p gr v c policy path g) as Ho. destruct (compare_and_propose b1 p gr v c policy) as [b' d]. cbn in *.
      intros H. destruct (Ho H) as [H1|[-> ->]]; [left; by apply owned_discard in H1|right; eauto]. }
    destruct (stable_read_with_hook _ _ _) as [[bytes st]|err].
    + specialize (Hc (Some (Utf8.from_utf8_lossy bytes)) (Some st)). by destruct (compare_and_propose b1 p gr v _ policy).
    + destruct err; try (intros H; left; by apply owned_discard in H). specialize (Hc None None). by destruct (compare_and_propose b1 p gr v _ policy).
  - destruct (stable_read_with_hook _ _ _) as [[bytes st]|err]; [by left|]. destruct err; by left.
Qed.

Lemma rows_finish a w : rows_ok w -> rows_ok (finish a policy w).
Proof.
  intros Hw. unfold finish. destruct (turn w) as [|cs|k r|] eqn:Et; try (exact Hw).
  - intros Hst. destruct (Hw Hst) as [H1 H2]. rewrite Et in H1. cbn. split; [|done]. intros path g Ho. apply owned_controls in Ho as [Ho Hlt]. left.
    destruct (H1 path g Ho) as [(row & Hr & Hc)|(cs' & c & g' & [= <-] & Hin & Hg & Hle)]; [|specialize (Hlt c g' Hin Hg); lia].
    exists row. split; [|done]. apply map_lookup_filter_Some. split; [done|]. cbn. unfold watch_kept, control_is_empty.
    destruct Hc as [(g' & -> & _)|(g' & -> & _)]; [done|]. by destruct (registered_generation row), (resolution (control row)).
  - unfold finish_request. pose proof (owned_run_request a (baselines w) r) as Ho. destruct (run_request a policy (baselines w) r) as [result b]. cbn [snd] in Ho.
    cbn [stopped with_queue sync_config_metrics with_counters]. destruct (stopped (state w)) eqn:Hst; [by intros Hx; cbn in Hx; congruence|].
    destruct (Hw Hst) as [H1 H2]. rewrite Et in H1. intros _.
    assert (forall path g, owned b path g -> row_covers (config_watches (state w)) path g) as Hall.
    { intros path g Hb. destruct (Ho path g Hb) as [Hb'|(e & v & ->)]; [|by eapply H2]. destruct (H1 path g Hb') as [Hr|(cs & c & g' & ? & _)]; done. }
    cbn. destruct (rerun (state w) !! k); cbn; (split; [|done]); intros path g Hb; left; by apply Hall.
Qed.

Lemma rows_step w o : rows_ok w -> rows_ok (step policy w o).
Proof.
  intros Hw. destruct o as [r| |path g v ap|path g| |a|]; cbn [step].
  - by apply rows_submit.
  - apply rows_watches; [done|..]; unfold try_result; destruct (results (state w)) as [|[k x] rest]; cbn; try done; by destruct (obligations (state w) !! k) as [[]|].
  - unfold resolve_config_watch. destruct (stopped (state w)) eqn:Hst; [exact Hw|]. destruct (config_watches (state w) !! path) as [row|] eqn:E; [|exact Hw].
    apply rows_watches; [done|done|]. intros q h. eapply row_update; [exact E|cbn; intros g' Hg; left|cbn]; eauto using Z.le_refl.
  - unfold retire_config_watch. destruct (stopped (state w)) eqn:Hst; [exact Hw|]. destruct (config_watches (state w) !! path) as [row|] eqn:E; [|exact Hw].
    apply rows_watches; [done|done|]. intros q h. eapply row_update; [exact E|cbn; intros g' Hg|cbn; intros g' Hg; by apply opt_max_ge].
    case_bool_decide as Hb; [right|left; eauto using Z.le_refl]. rewrite Hb in Hg. injection Hg as <-. apply opt_max_ge_r.
  - by apply rows_take.
  - by apply rows_finish.
  - by intros ?.
Qed.

(** Every baseline or proposal the worker keeps can still be retired: its path has a control row
    registered for its generation or carrying its retirement, or the worker is about to apply it. So what
    the worker owns is bounded by the rows, however retirements and reads in flight interleave. *)
Theorem worker_watch_rows os path g :
  let w := run policy os in
  stopped (state w) = false -> owned (baselines w) path g ->
  row_covers (config_watches (state w)) path g \/ hand_covers (turn w) path g.
Proof.
  intros w Hst Ho. assert (rows_ok w) as Hw; [|by destruct (Hw Hst) as [H1 _]; apply H1]. subst w. clear Hst Ho. unfold run.
  assert (rows_ok spawn) as H0. { intros _. split; [|done]. intros q h [(v & Hv & _)|(v & Hv & _)]; cbn in Hv; by apply lookup_empty_Some in Hv. }
  revert H0. generalize spawn. induction os as [|o os IH]; intros w Hw; [done|]. cbn. by apply IH, rows_step.
Qed.
End Bytes.
End Worker.

(** ** Results fit what was reserved for them *)
Section Fits.
Context {num : Type} `{JsonNumber num}.
Variable zip_new : string -> option ArchiveRead.ZipArchive.
Variable from_json : string -> option (Interop.Contract.Manifest num).
Variable functions_check : string -> string -> Json.Value num -> list string -> option string.
Variable to_vec : Interop.Contract.Metadata num -> option string.
Variable sha256_hex : string -> string.
Context (policy : LoaderPolicy) (Hpol : policy_ok policy).

(** The worker's archive reader. *)
Definition read_archive (bytes : string) (_ : FileStamp) : option (ArchiveRead.Parts (num := num)) :=
  match ArchiveRead.parse_s2sp_parts zip_new from_json functions_check to_vec sha256_hex bytes (parse policy) with
  | inl p => Some p
  | inr _ => None
  end.
Definition file_answers (rd : ReadDir) (f1 f2 : Opened) : Answers := mkAnswers rd f1 f2 read_archive.

Lemma policy_reservations :
  scan_result_reservation policy <= safe_size /\ sat_add (sat_mul (LoaderPolicy.config_bytes policy) 3) 256 <= safe_size /\ parsed_members policy <= safe_size.
Proof.
  destruct (worker_limits policy Hpol) as (_ & [_ Hr] & _). destruct Hpol as [Hv _]. unfold LoaderPolicy.validate in Hv.
  destruct (existsb _ _ || _); [done|]. destruct (result_items policy <? _); [done|]. destruct (_ <? archive_bytes policy); [done|].
  destruct (Z.ltb_spec (LoaderPolicy.result_bytes policy) (sat_add (sat_mul (LoaderPolicy.config_bytes policy) 3) 256)); [done|].
  destruct (config_baseline_bytes policy <? _); [done|].
  destruct (Z.ltb_spec (LoaderPolicy.result_bytes policy) (scan_result_reservation policy)); [done|].
  destruct (Z.ltb_spec (LoaderPolicy.result_bytes policy) (parsed_members policy)); [done|]. lia.
Qed.

Lemma u64_add_sat a b : 0 <= a + b -> u64_add a b <= sat_add a b.
Proof.
  intros Hab. unfold u64_add, sat_add. destruct (Z.le_gt_cases (a + b) u64_max).
  - rewrite wrap64_small by (unfold u64_max in *; lia). lia.
  - pose proof (wrap64_range (a + b)). unfold u64_max in *. lia.
Qed.

Lemma sat_add_mono a b c d : a <= c -> b <= d -> sat_add a b <= sat_add c d.
Proof. unfold sat_add. lia. Qed.

Lemma stable_read_len f1 f2 max bytes st : stable_read_with_hook f1 f2 max = inl (bytes, st) -> byte_len bytes <= max.
Proof.
  unfold stable_read_with_hook. destruct f1 as [x1| |]; try done. destruct (read_open_file x1 max) as [r1|]; [|done].
  destruct f2 as [x2| |]; try done. destruct (read_open_file x2 max) as [[b2 s2]|] eqn:E; [|done]. destruct (_ || _); [done|]. intros [= <- <-].
  apply read_open_ok in E as (? & ? & ? & _ & _ & _ & _ & _ & _ & _ & Hle). done.
Qed.

(** The bytes a finished read takes never exceed the bytes reserved for it when it was admitted, whatever
    the disk holds; a failed scan is charged a flat 256. *)
Theorem worker_result_fits rd f1 f2 b r :
  result_weight ArchiveRead.resident_bytes (run_request (file_answers rd f1 f2) policy b r).1 <=
    (match r with RScan _ _ _ => Z.max 256 (result_reservation r policy) | _ => result_reservation r policy end).
Proof.
  destruct policy_reservations as (Hscan & Hconf & Hmem). pose proof safe_facts as [Hs1 Hs2]. assert (0 < u64_max) as Hs0 by done.
  assert (0 < path_bytes policy) by policy_field Hpol. assert (0 < scan_candidates policy) by policy_field Hpol.
  assert (0 < manifest_bytes (parse policy)) by policy_field Hpol. assert (0 < plugin_js_bytes (parse policy)) by policy_field Hpol.
  assert (0 < gamedata_bytes (parse policy)) by policy_field Hpol. assert (0 < engine_functions_bytes (parse policy)) by policy_field Hpol.
  assert (0 < LoaderPolicy.config_bytes policy) by policy_field Hpol.
  assert (forall p, 0 <= path_len p) as Hpath by (intros; unfold path_len, FileRead.path_len, byte_len; lia).
  destruct r as [e v dir|e v path|e v path g]; unfold result_reservation; cbn [run_request key key_reservation fst].
  - cbn. destruct (scan_plugins policy dir rd) as [out|] eqn:E; [|lia].
    apply scan_plugins_exact in E as (_ & _ & Hw); [|unfold scan_result_reservation, sat_add, sat_mul in *; lia..].
    pose proof (weights_nonneg out). rewrite wrap64_small; lia.
  - unfold result_weight. specialize (Hpath path).
    assert (forall n, 0 <= n <= manifest_bytes (parse policy) + plugin_js_bytes (parse policy) + gamedata_bytes (parse policy) + engine_functions_bytes (parse policy) + 256 ->
      u64_add (path_len path) n <= sat_add (sat_add (sat_add (sat_add (sat_add (path_len path) (manifest_bytes (parse policy)))
        (plugin_js_bytes (parse policy))) (gamedata_bytes (parse policy))) (engine_functions_bytes (parse policy))) 2048) as Hadd.
    { intros n Hn. etrans; [apply u64_add_sat; lia|]. unfold sat_add. lia. }
    destruct (match stable_read_with_hook _ _ _ with inl _ => _ | inr _ => _ end) as [p|] eqn:Ep; [|apply Hadd; lia].
    apply Hadd. destruct (stable_read_with_hook _ _ _) as [[bytes st]|]; [|done]. cbn in Ep. unfold read_archive in Ep.
    destruct (ArchiveRead.parse_s2sp_parts _ _ _ _ _ _ _) as [p'|] eqn:E; [|done]. injection Ep as ->.
    apply ArchiveRead.resident_bytes_bound in E; lia.
  - assert (forall n, 0 <= n <= 3 * LoaderPolicy.config_bytes policy + 256 ->
      u64_add (path_len path) n <= sat_add (sat_add (path_len path) (sat_mul (LoaderPolicy.config_bytes policy) 3)) 256) as Hadd.
    { intros n Hn. specialize (Hpath path). etrans; [apply u64_add_sat; lia|]. unfold sat_add, sat_mul in *. lia. }
    assert (forall c st d, (forall t, c = Some t -> byte_len t <= 3 * LoaderPolicy.config_bytes policy) ->
      result_weight (ArchiveRead.resident_bytes (num := num)) (WConfig e v path g (inl (mkSnapshot c st d))) <=
      sat_add (sat_add (path_len path) (sat_mul (LoaderPolicy.config_bytes policy) 3)) 256) as Hsnap.
    { intros c st d Hc. cbn. apply Hadd. destruct c as [t|]; [|lia]. specialize (Hc t eq_refl). unfold byte_len in *. lia. }
    unfold run_request. cbn [first second file_answers].
    destruct (stable_read_with_hook f1 f2 (LoaderPolicy.config_bytes policy)) as [[bytes st]|err] eqn:E.
    + apply stable_read_len in E. assert (forall t, Some (Utf8.from_utf8_lossy bytes) = Some t -> byte_len t <= 3 * LoaderPolicy.config_bytes policy) as Hl.
      { intros t [= <-]. pose proof (Utf8.utf8_lossy_length bytes). unfold byte_len in *. lia. }
      destruct g as [g|]; [destruct (compare_and_propose _ _ _ _ _ _)|]; cbn [fst]; by apply Hsnap.
    + assert (result_weight (ArchiveRead.resident_bytes (num := num)) (WConfig e v path g (inr err)) <= sat_add (sat_add (path_len path) (sat_mul (LoaderPolicy.config_bytes policy) 3)) 256) as He by (cbn; apply Hadd; lia).
      destruct err; try exact He. destruct g as [g|]; [destruct (compare_and_propose _ _ _ _ _ _)|]; cbn [fst]; by apply Hsnap.
Qed.
End Fits.
End WorkerQueue.

Module WorkerQueueExamples.
Import WorkerQueue.

Lemma default_ok : policy_ok policy_default.
Proof. split; [reflexivity|]. repeat constructor; done. Defined.

Definition stamp1 : Metadata := mkMetadata true 2 None None 1 1 0 0.
Definition file1 : Opened := Open (mkFile (Some stamp1) (Some "{}") (Some stamp1)).
Definition ans1 : Answers (Prepared := unit) := mkAnswers NoDir file1 file1 (fun _ _ => Some tt).

(** A newer request overtakes the read in flight, and the read is repeated. *)
Definition script : list (op (Prepared := unit)) :=
  [TrySubmit (RPlugin 1 1 "a.s2sp"); Take; TrySubmit (RPlugin 1 2 "a.s2sp"); TrySubmit (RConfig 1 1 "c.jsonc" (Some 3)); Finish ans1].
Definition rest : list (op (Prepared := unit)) := [Take; Finish ans1; Take; Finish ans1].

Example overtaken : results (state (run policy_default script)) = [] /\ length (results (state (run policy_default (script ++ rest)))) = 2%nat.
Proof. vm_compute. done. Qed.

Lemma worker_accounting_witness :
  let w := run policy_default script in
  stopped (state w) = false /\
  (queue_ok (order (state w)) (pending (state w)) (rerun (state w)) (in_flight (state w)) (results (state w)) (obligations (state w)) (turn w) /\
   bytes_ok policy_default (obligations (state w)) (request_bytes (state w)) (reserved_result_bytes (state w)) /\
   watch_ok policy_default (config_watches (state w)) (config_watch_bytes (state w))).
Proof. split; [vm_compute; reflexivity|]. apply (worker_accounting policy_default default_ok script). vm_compute. reflexivity. Defined.

Lemma worker_latest_wins_witness :
  exists k, result_for k (WConfig (Prepared := unit) 1 1 "c.jsonc" (Some 3) (inl (mkSnapshot (Some "{}") (Some (from_metadata stamp1)) Seed))) /\
    (run_latest policy_default (script ++ rest)).2 !! k = Some (1, 1).
Proof.
  destruct (worker_latest_wins policy_default default_ok (script ++ rest)
    (try_result (state (run_latest policy_default (script ++ rest)).1)).1
    (WConfig (Prepared := unit) 1 1 "c.jsonc" (Some 3) (inl (mkSnapshot (Some "{}") (Some (from_metadata stamp1)) Seed)))
    ltac:(vm_compute; reflexivity) ltac:(vm_compute; reflexivity)) as (k & H1 & H2).
  exists k. split; [exact H1|exact H2].
Defined.

Lemma worker_drains_witness :
  let w := run policy_default script in
  let w' := foldl (fun w a => work policy_default a w) w [ans1; ans1; ans1; ans1] in
  turn w' = Idle /\ pending (state w') = ∅ /\ rerun (state w') = ∅ /\ obligations (state w') = obligations (state w) /\
  forall k, is_Some (obligations (state w) !! k) <-> k ∈ (results (state w')).*1.
Proof. apply (worker_drains policy_default default_ok script [ans1; ans1; ans1; ans1]); vm_compute; [reflexivity|lia]. Defined.

Lemma worker_watch_rows_witness :
  let w := run policy_default (script ++ rest) in
  row_covers (config_watches (state w)) "c.jsonc" 3 \/ hand_covers (turn w) "c.jsonc" 3.
Proof.
  apply (worker_watch_rows policy_default (script ++ rest)); [vm_compute; reflexivity|].
  right. eexists. split; vm_compute; reflexivity.
Defined.

Lemma worker_result_fits_witness :
  result_weight (ArchiveRead.resident_bytes (num := JsonExamples.num))
    (run_request (file_answers (fun _ => None) (fun _ => None) (fun _ _ _ _ => None) (fun _ => None) (fun s => s) policy_default NoDir file1 file1)
       policy_default ConfigBaselines.new (RConfig 1 1 "c.jsonc" None)).1 <= result_reservation (RConfig 1 1 "c.jsonc" None) policy_default.
Proof.
  apply (worker_result_fits (num := JsonExamples.num) (fun _ => None) (fun _ => None) (fun _ _ _ _ => None) (fun _ => None) (fun s => s)
           policy_default default_ok NoDir file1 file1 ConfigBaselines.new (RConfig 1 1 "c.jsonc" None)).
Defined.
End WorkerQueueExamples.
