(* ===== verification/SdkHooks.v ===== *)
(** Per-entity engine hooks (core/src/sdkhooks.rs).

    A plugin hooks a virtual function of one entity; the engine detour of that function is installed with
    the first hook of its kind on the entity and removed with the last. [HookStore] keeps the hooks in
    buckets by entity and kind with four reverse indexes; the specification is the list of hooks in the
    order they were made. The natives and the teardowns are modelled with the engine calls they make;
    handlers are opaque values with an equality. *)
From S2P Require Import Prelude.

Module SdkHooks.

Definition KIND_SET_TRANSMIT : string := "SetTransmit".

(** The arms of [vp_kind]: the engine type of a kind and whether the hook runs after the call. *)
Definition vp_arms : list (string * (string * Z)) :=
  [("StartTouch", ("StartTouch", 0));
   ("StartTouchPost", ("StartTouch", 1));
   ("Touch", ("Touch", 0));
   ("TouchPost", ("Touch", 1));
   ("EndTouch", ("EndTouch", 0));
   ("EndTouchPost", ("EndTouch", 1));
   ("Blocked", ("Blocked", 0));
   ("BlockedPost", ("Blocked", 1));
   ("Spawn", ("Spawn", 0));
   ("SpawnPost", ("Spawn", 1));
   ("Think", ("Think", 0));
   ("ThinkPost", ("Think", 1));
   ("PreThink", ("PreThink", 0));
   ("PreThinkPost", ("PreThink", 1));
   ("PostThink", ("PostThink", 0));
   ("PostThinkPost", ("PostThink", 1));
   ("Use", ("Use", 0));
   ("UsePost", ("Use", 1));
   ("GetMaxHealth", ("GetMaxHealth", 0));
   ("ShouldCollide", ("ShouldCollide", 0));
   ("VPhysicsUpdate", ("VPhysicsUpdate", 0));
   ("VPhysicsUpdatePost", ("VPhysicsUpdate", 1));
   ("GroundEntChangedPost", ("GroundEntChangedPost", 1));
   ("CanBeAutobalanced", ("CanBeAutobalanced", 0));
   ("Reload", ("Reload", 0));
   ("WeaponCanUse", ("WeaponCanUse", 0));
   ("WeaponCanUsePost", ("WeaponCanUse", 1));
   ("WeaponCanSwitchTo", ("WeaponCanSwitchTo", 0));
   ("WeaponCanSwitchToPost", ("WeaponCanSwitchTo", 1));
   ("WeaponDrop", ("WeaponDrop", 0));
   ("WeaponDropPost", ("WeaponDrop", 1));
   ("WeaponEquip", ("WeaponEquip", 0));
   ("WeaponEquipPost", ("WeaponEquip", 1));
   ("WeaponSwitch", ("WeaponSwitch", 0));
   ("WeaponSwitchPost", ("WeaponSwitch", 1))].
Definition vp_kind (kind : string) : option (string * Z) := snd <$> find (fun a => String.eqb a.1 kind) vp_arms.
#[global] Arguments vp_kind : simpl never.

Definition is_known_kind (kind : string) : bool :=
  String.eqb kind KIND_SET_TRANSMIT || match vp_kind kind with Some _ => true | None => false end.

Section Store.
Context {Fn : Type}.

Record Entry := mkEntry { owner : string; generation : Z; handler : Fn; sub_id : Z }.
Record Bucket := mkBucket { entity_index : Z; engine_serial : Z; entries : list Entry }.
Record EntityAddress := mkAddress { a_entity_id : Z; a_entity_index : Z; a_engine_serial : Z; first_sub_id : Z }.
Record RemovedEntry := mkRemoved { r_entity_id : Z; r_entity_index : Z; r_engine_serial : Z; r_kind : string; bucket_emptied : bool }.

Record HookStore := mkStore {
  buckets : gmap Z (gmap string Bucket);
  by_sub : gmap Z (Z * string);
  by_owner : gmap string (list Z);
  by_entity : gmap Z (list Z);
  kind_counts : gmap string Z;
  kind_entities_ : gmap string (list EntityAddress);
}.
Definition new : HookStore := mkStore ∅ ∅ ∅ ∅ ∅ ∅.

Definition bucket (h : HookStore) (entity_id : Z) (kind : string) : option Bucket :=
  (buckets h !! entity_id) ≫= (fun kinds : gmap string Bucket => kinds !! kind).
Definition has (h : HookStore) (entity_id : Z) (kind : string) : bool :=
  match bucket h entity_id kind with Some _ => true | None => false end.

(** [entry(key).or_default().push(id)]. *)
Definition push_id {K} `{Countable K} (index : gmap K (list Z)) (key : K) (id : Z) : gmap K (list Z) :=
  <[key := default [] (index !! key) ++ [id]]> index.

Definition insert (h : HookStore) (entity_id index serial : Z) (kind : string) (entry : Entry) : HookStore :=
  let first_for_entity_kind := negb (has h entity_id kind) in
  let kinds := default ∅ (buckets h !! entity_id) in
  let b := default (mkBucket index serial []) (kinds !! kind) in
  {| buckets := <[entity_id := <[kind := mkBucket (entity_index b) (engine_serial b) (entries b ++ [entry])]> kinds]> (buckets h);
     by_sub := <[sub_id entry := (entity_id, kind)]> (by_sub h);
     by_owner := push_id (by_owner h) (owner entry) (sub_id entry);
     by_entity := push_id (by_entity h) entity_id (sub_id entry);
     kind_counts := <[kind := u64_succ (default 0 (kind_counts h !! kind))]> (kind_counts h);
     kind_entities_ :=
       if first_for_entity_kind
       then <[kind := default [] (kind_entities_ h !! kind) ++ [mkAddress entity_id index serial (sub_id entry)]]> (kind_entities_ h)
       else kind_entities_ h |}.

Definition snapshot (h : HookStore) (entity_id : Z) (kind : string) : list (string * Z * Fn) :=
  match bucket h entity_id kind with
  | Some b => (fun e => (owner e, generation e, handler e)) <$> entries b
  | None => []
  end.

Definition find_sub_id (h : HookStore) (entity_id : Z) (kind : string) (matches : Entry -> bool) : option Z :=
  b ← bucket h entity_id kind; sub_id <$> find matches (entries b).

Definition remove_reverse_id {K} `{Countable K} (index : gmap K (list Z)) (key : K) (id : Z) : gmap K (list Z) :=
  match index !! key with
  | Some ids =>
      let ids := match position (fun i => i =? id) ids with Some p => vec_remove p ids | None => ids end in
      match ids with [] => delete key index | _ => <[key := ids]> index end
  | None => index
  end.

(** [partition_point]: the addresses are sorted, so it is the first position that fails the predicate. *)
Fixpoint partition_point {A} (f : A -> bool) (l : list A) : nat :=
  match l with [] => O | x :: l' => if f x then S (partition_point f l') else O end.

(** [remove_sub]'s treatment of the buckets, the kind counts and the entity addresses. *)
Definition update_buckets (m : gmap Z (gmap string Bucket)) (entity_id : Z) (kind : string) (b : Bucket) : gmap Z (gmap string Bucket) :=
  let kinds := <[kind := b]> (default ∅ (m !! entity_id)) in
  match entries b with
  | [] =>
      let kinds := delete kind kinds in
      if bool_decide (kinds = ∅) then delete entity_id m else <[entity_id := kinds]> m
  | _ => <[entity_id := kinds]> m
  end.

Definition update_counts (m : gmap string Z) (kind : string) : gmap string Z :=
  match m !! kind with
  | Some count => if u64_pred count =? 0 then delete kind m else <[kind := u64_pred count]> m
  | None => m
  end.

Definition update_addresses (m : gmap string (list EntityAddress)) (entity_id : Z) (kind : string) (emptied : bool)
    (new_first_sub_id : option Z) : gmap string (list EntityAddress) :=
  match m !! kind with
  | None => m
  | Some addresses =>
      if emptied then
        match filterb (fun a => negb (a_entity_id a =? entity_id)) addresses with
        | [] => delete kind m
        | l => <[kind := l]> m
        end
      else
        match new_first_sub_id with
        | None => m
        | Some first =>
            match position (fun a => a_entity_id a =? entity_id) addresses with
            | None => m
            | Some q =>
                match addresses !! q with
                | None => m
                | Some a =>
                    let rest := vec_remove q addresses in
                    let a := mkAddress (a_entity_id a) (a_entity_index a) (a_engine_serial a) first in
                    <[kind := vec_insert (partition_point (fun o => first_sub_id o <? first) rest) a rest]> m
                end
            end
        end
  end.

Definition remove_sub (h : HookStore) (id : Z) : HookStore * option RemovedEntry :=
  match by_sub h !! id with
  | None => (h, None)
  | Some (entity_id, kind) =>
      let h := mkStore (buckets h) (delete id (by_sub h)) (by_owner h) (by_entity h) (kind_counts h) (kind_entities_ h) in
      match bucket h entity_id kind with
      | None => (h, None)
      | Some b =>
          match position (fun e => sub_id e =? id) (entries b) with
          | None => (h, None)
          | Some p =>
              match entries b !! p with
              | None => (h, None)
              | Some entry =>
                  let left := vec_remove p (entries b) in
                  let new_first_sub_id := if (p =? 0)%nat then sub_id <$> head left else None in
                  let emptied := match left with [] => true | _ => false end in
                  (mkStore (update_buckets (buckets h) entity_id kind (mkBucket (entity_index b) (engine_serial b) left))
                     (by_sub h) (remove_reverse_id (by_owner h) (owner entry) id) (remove_reverse_id (by_entity h) entity_id id)
                     (update_counts (kind_counts h) kind) (update_addresses (kind_entities_ h) entity_id kind emptied new_first_sub_id),
                   Some (mkRemoved entity_id (entity_index b) (engine_serial b) kind emptied))
              end
          end
      end
  end.

Definition owner_subscriptions (h : HookStore) (o : string) : list Z := default [] (by_owner h !! o).
Definition entity_subscriptions (h : HookStore) (e : Z) : list Z := default [] (by_entity h !! e).
Definition kind_active (h : HookStore) (kind : string) : bool := negb (default 0 (kind_counts h !! kind) =? 0).
Definition kind_entities (h : HookStore) (kind : string) : list (Z * Z) :=
  (fun a => (a_entity_index a, a_engine_serial a)) <$> default [] (kind_entities_ h !! kind).

(** The earliest hook of a detoured kind, per entity, in the order they were made. *)
Definition firsts_of (kinds : gmap string Bucket) : list (Z * Z * Z) :=
  omap (fun kb : string * Bucket =>
          match vp_kind kb.1, head (entries kb.2) with
          | Some _, Some e => Some (sub_id e, entity_index kb.2, engine_serial kb.2)
          | _, _ => None end) (map_to_list kinds).
Definition earliest (l : list (Z * Z * Z)) : option (Z * Z * Z) :=
  match l with [] => None | x :: l => Some (foldl (fun cur c => if c.1.1 <? cur.1.1 then c else cur) x l) end.
Definition by_first (a b : Z * Z * Z) : Prop := a.1.1 <= b.1.1.
#[export] Instance by_first_dec a b : Decision (by_first a b).
Proof. unfold by_first. apply _. Defined.
Definition vp_entities_in_registration_order (h : HookStore) : list (Z * Z) :=
  (fun x => (x.1.2, x.2)) <$> merge_sort by_first (omap (fun ek : Z * gmap string Bucket => earliest (firsts_of ek.2)) (map_to_list (buckets h))).

(** ** The natives and teardowns, with their engine calls *)

Inductive EngineCall :=
| VpAdd (index serial : Z) (ty : string) (post : Z)
| VpRemove (index serial : Z) (ty : string) (post : Z)
| VpDrop (index serial : Z).

(** [unhook_vp_if_last]. *)
Definition unhook_vp_if_last (h : HookStore) (r : RemovedEntry) : list EngineCall :=
  match vp_kind (r_kind r) with
  | None => []
  | Some (ty, post) => if has h (r_entity_id r) (r_kind r) then [] else [VpRemove (r_entity_index r) (r_engine_serial r) ty post]
  end.

Fixpoint remove_all (h : HookStore) (ids : list Z) : HookStore * list RemovedEntry :=
  match ids with
  | [] => (h, [])
  | id :: ids =>
      let '(h, r) := remove_sub h id in
      let '(h, rs) := remove_all h ids in
      (h, match r with Some r => r :: rs | None => rs end)
  end.

Definition remove_subscriptions (h : HookStore) (ids : list Z) : HookStore * list EngineCall :=
  let '(h, removed) := remove_all h ids in
  (h, flat_map (fun r => if bucket_emptied r then unhook_vp_if_last h r else []) removed).

(** [__s2_sdkhook]: [serial] is what the entity books answer for the reference, [added] what the engine
    answers to [vp_add], [id] the next subscription id. *)
Definition sdkhook (h : HookStore) (index entity_id : Z) (serial : option Z) (kind : string) (o : string) (gen : Z) (f : Fn)
    (added : bool) (id : Z) : HookStore * bool * list EngineCall :=
  match serial with
  | None => (h, false, [])
  | Some serial =>
      if negb (is_known_kind kind) then (h, false, [])
      else
        let first := negb (has h entity_id kind) in
        match vp_kind kind with
        | Some (ty, post) =>
            if first then
              if added then (insert h entity_id index serial kind (mkEntry o gen f id), true, [VpAdd index serial ty post])
              else (h, false, [])
            else (insert h entity_id index serial kind (mkEntry o gen f id), true, [])
        | None => (insert h entity_id index serial kind (mkEntry o gen f id), true, [])
        end
  end.

Variable handler_eqb : Fn -> Fn -> bool.

Definition sdkunhook (h : HookStore) (entity_id : Z) (kind o : string) (f : Fn) : HookStore * bool * list EngineCall :=
  match find_sub_id h entity_id kind (fun e => String.eqb (owner e) o && handler_eqb (handler e) f) with
  | Some id => let '(h, calls) := remove_subscriptions h [id] in (h, true, calls)
  | None => (h, false, [])
  end.

Definition drop_owner (h : HookStore) (o : string) : HookStore * list EngineCall := remove_subscriptions h (owner_subscriptions h o).

Definition drop_entity (h : HookStore) (id : Z) : HookStore * list EngineCall :=
  let ids := entity_subscriptions h id in
  let coords := s ← head ids; ek ← by_sub h !! s; b ← bucket h ek.1 ek.2; Some (entity_index b, engine_serial b) in
  ((remove_all h ids).1, match coords with Some (i, s) => [VpDrop i s] | None => [] end).

Definition drop_all (h : HookStore) : HookStore * list EngineCall :=
  (new, (fun p => VpDrop p.1 p.2) <$> vp_entities_in_registration_order h).

(** The table with the subscription counter every store of the host shares. *)
Record Host := mkHost { store : HookStore; next : Z }.
Definition init : Host := mkHost new 1.

Inductive Op :=
| Hook (index entity_id : Z) (serial : option Z) (kind o : string) (gen : Z) (f : Fn) (added : bool)
| Unhook (entity_id : Z) (kind o : string) (f : Fn)
| Unload (o : string)
| Dispose (ids : list Z)
| EntityGone (entity_id : Z)
| MapChange
| OtherSubscription.

(** A subscription id is only taken when the hook is stored. *)
Definition step (w : Host) (op : Op) : Host * bool * list EngineCall :=
  let h := store w in
  match op with
  | Hook index e serial kind o gen f added =>
      let '(h', ok, calls) := sdkhook h index e serial kind o gen f added (next w) in
      (mkHost h' (if ok then u64_succ (next w) else next w), ok, calls)
  | Unhook e kind o f => let '(h', ok, calls) := sdkunhook h e kind o f in (mkHost h' (next w), ok, calls)
  | Unload o => let '(h', calls) := drop_owner h o in (mkHost h' (next w), true, calls)
  | Dispose ids => let '(h', calls) := remove_subscriptions h ids in (mkHost h' (next w), true, calls)
  | EntityGone e => let '(h', calls) := drop_entity h e in (mkHost h' (next w), true, calls)
  | MapChange => let '(h', calls) := drop_all h in (mkHost h' (next w), true, calls)
  | OtherSubscription => (mkHost h (u64_succ (next w)), true, [])
  end.

Fixpoint run (w : Host) (ops : list Op) : Host * list bool * list EngineCall :=
  match ops with
  | [] => (w, [], [])
  | op :: ops =>
      let '(w, ok, calls) := step w op in
      let '(w, oks, calls') := run w ops in
      (w, ok :: oks, calls ++ calls')
  end.
End Store.

(** ** Lists ordered by a key *)

Lemma vec_remove_keyed {A K} (g : A -> K) (eqb : A -> bool) (l : list A) p x :
  (forall a, a ∈ l -> eqb a = true <-> g a = g x) -> NoDup (g <$> l) -> position eqb l = Some p -> l !! p = Some x ->
  vec_remove p l = filterb (fun a => negb (eqb a)) l.
Proof.
  intros He Hnd (l1 & y & l2 & -> & <- & Hy & Hl1)%position_Some Hp. rewrite list_lookup_middle in Hp by done. injection Hp as ->.
  rewrite vec_remove_app, filterb_app. cbn [filterb]. rewrite Hy. cbn. rewrite !filterb_true; [done|..].
  - intros a Ha. destruct (eqb a) eqn:E; [|done]. exfalso.
    assert (g a = g x) as Hg by (apply He; [in_list|done]). rewrite fmap_app, fmap_cons in Hnd.
    apply NoDup_app in Hnd as (_ & _ & [Hn _]%NoDup_cons). apply Hn. rewrite <- Hg. by apply list_elem_of_fmap_2.
  - intros a Ha. rewrite Forall_forall in Hl1. by rewrite Hl1.
Qed.

Lemma elem_of_vec_insert {A} n x (l : list A) y : y ∈ vec_insert n x l <-> y = x \/ y ∈ l.
Proof. unfold vec_insert. rewrite <- (take_drop n l) at 3. rewrite !elem_of_app, elem_of_cons. tauto. Qed.

Section Keyed.
Context {A : Type} (f : A -> Z).
Implicit Types l : list A.

Definition key_lt (a b : A) : Prop := f a < f b.

Lemma key_lt_sublist l l' : sublist l l' -> StronglySorted key_lt l' -> StronglySorted key_lt l.
Proof.
  induction 1 as [|x l l' Hs IH|x l l' _ IH]; intros Hl; [constructor|..]; apply StronglySorted_inv in Hl as [Hl Hx].
  - constructor; [by apply IH|]. by eapply Forall_sublist.
  - by apply IH.
Qed.

Lemma key_lt_NoDup l : StronglySorted key_lt l -> NoDup (f <$> l).
Proof.
  induction 1 as [|x l _ IH Hx]; csimpl; constructor; [|done]. intros (y & Hy & Hin)%list_elem_of_fmap.
  rewrite Forall_forall in Hx. specialize (Hx y Hin). unfold key_lt in Hx. lia.
Qed.

Lemma key_lt_NoDup_elems l : StronglySorted key_lt l -> NoDup l.
Proof. intros Hl%key_lt_NoDup. by apply NoDup_fmap_1 in Hl. Qed.

Lemma key_lt_inj l x y : StronglySorted key_lt l -> x ∈ l -> y ∈ l -> f x = f y -> x = y.
Proof.
  induction 1 as [|z l _ IH Hz]; [by intros ?%elem_of_nil|]. rewrite Forall_forall in Hz.
  intros [->|Hx]%elem_of_cons [->|Hy]%elem_of_cons E; [done| | |by apply IH].
  - specialize (Hz y Hy). unfold key_lt in Hz. lia.
  - specialize (Hz x Hx). unfold key_lt in Hz. lia.
Qed.

Lemma key_lt_ext l l' : StronglySorted key_lt l -> StronglySorted key_lt l' -> (forall x, x ∈ l <-> x ∈ l') -> l = l'.
Proof.
  intros Hl Hl' He. apply (StronglySorted_unique_strong key_lt); [|done|done|].
  - unfold key_lt. intros. lia.
  - apply NoDup_Permutation; auto using key_lt_NoDup_elems.
Qed.

Lemma key_lt_insert l x :
  StronglySorted key_lt l -> (forall y, y ∈ l -> f y <> f x) ->
  StronglySorted key_lt (vec_insert (partition_point (fun y => f y <? f x) l) x l).
Proof.
  induction 1 as [|z l Hl IH Hz]; intros Hx; [by repeat constructor|]. cbn [partition_point].
  assert (f z <> f x) by (apply Hx; in_list). destruct (f z <? f x) eqn:E; bool_to_prop.
  - change (StronglySorted key_lt (z :: vec_insert (partition_point (fun y => f y <? f x) l) x l)).
    constructor; [apply IH; intros y Hy; apply Hx; in_list|]. rewrite Forall_forall in *.
    intros y [->|Hy]%elem_of_vec_insert; [done|by apply Hz].
  - change (StronglySorted key_lt (x :: z :: l)). constructor; [by constructor|].
    rewrite Forall_forall in *. intros y [->|Hy]%elem_of_cons; unfold key_lt in *; [lia|]. specialize (Hz y Hy). lia.
Qed.

Lemma key_lt_snoc l x : StronglySorted key_lt l -> (forall y, y ∈ l -> f y < f x) -> StronglySorted key_lt (l ++ [x]).
Proof.
  induction 1 as [|z l Hl IH Hz]; intros Hx; cbn; [by repeat constructor|].
  constructor; [apply IH; intros; apply Hx; in_list|]. rewrite Forall_app. split; [done|].
  constructor; [apply Hx; in_list|constructor].
Qed.
End Keyed.

Lemma key_lt_fmap {A B} (f : A -> B) (g : B -> Z) (l : list A) :
  StronglySorted (key_lt (fun a => g (f a))) l -> StronglySorted (key_lt g) (f <$> l).
Proof.
  induction 1 as [|x l _ IH Hx]; csimpl; constructor; [done|]. rewrite Forall_fmap. eapply Forall_impl; [done|]. done.
Qed.

(** ** The specification: the hooks in the order they were made *)

Section Spec.
Context {Fn : Type}.
Notation Entry := (Entry (Fn := Fn)).
Notation HookStore := (HookStore (Fn := Fn)).
Notation Bucket := (Bucket (Fn := Fn)).

Record Row := mkRow { eid : Z; rkind : string; idx : Z; ser : Z; ent : Entry }.
Definition rid (r : Row) : Z := sub_id (ent r).
Definition of_bucket (e : Z) (k : string) (r : Row) : bool := (eid r =? e) && String.eqb (rkind r) k.
Definition rows_at (rows : list Row) (e : Z) (k : string) : list Row := filterb (of_bucket e k) rows.
Definition bucket_of (l : list Row) : option Bucket :=
  match l with [] => None | r :: _ => Some (mkBucket (idx r) (ser r) (ent <$> l)) end.
Definition nonempty {A} (l : list A) : option (list A) := match l with [] => None | _ => Some l end.
Definition address (r : Row) : EntityAddress := mkAddress (eid r) (idx r) (ser r) (rid r).

(** The earliest hook of each entity among those of a kind, and among those with an engine detour. *)
Definition is_first (group : Row -> Row -> bool) (rows : list Row) (r : Row) : bool :=
  match filterb (group r) rows with f :: _ => rid f =? rid r | [] => false end.
Definition same_bucket (r r' : Row) : bool := of_bucket (eid r) (rkind r) r'.
Definition same_detoured (r r' : Row) : bool := (eid r' =? eid r) && match vp_kind (rkind r') with Some _ => true | None => false end.
Definition firsts (rows : list Row) (k : string) : list Row :=
  filterb (fun r => String.eqb (rkind r) k && is_first same_bucket rows r) rows.
Definition vp_firsts (rows : list Row) : list Row :=
  filterb (fun r => match vp_kind (rkind r) with Some _ => is_first same_detoured rows r | None => false end) rows.

(** A further hook of an entity and kind takes the coordinates of the first. *)
Definition spec_insert (rows : list Row) (e i s : Z) (k : string) (en : Entry) : list Row :=
  let '(i, s) := match rows_at rows e k with f :: _ => (idx f, ser f) | [] => (i, s) end in
  rows ++ [mkRow e k i s en].
Definition spec_remove (rows : list Row) (id : Z) : list Row := filterb (fun r => negb (rid r =? id)) rows.

Definition owned (o : string) (r : Row) : bool := String.eqb (owner (ent r)) o.
Definition on_entity (e : Z) (r : Row) : bool := eid r =? e.
Definition of_kind (k : string) (r : Row) : bool := String.eqb (rkind r) k.
Definition count_of (n : Z) : option Z := if n =? 0 then None else Some n.

Record well_ordered (rows : list Row) : Prop := mkWo {
  wo_sorted : StronglySorted (key_lt rid) rows;
  wo_len : Z.of_nat (length rows) <= u64_max;
  wo_coords : forall r r', r ∈ rows -> r' ∈ rows -> eid r = eid r' -> rkind r = rkind r' -> idx r = idx r' /\ ser r = ser r';
}.

Record represents (h : HookStore) (rows : list Row) : Prop := mkRep {
  rep_rows : well_ordered rows;
  rep_bucket : forall e k, bucket h e k = bucket_of (rows_at rows e k);
  rep_kinds : forall e, buckets h !! e <> Some ∅;
  rep_sub : forall id, by_sub h !! id = (fun r => (eid r, rkind r)) <$> find (fun r => rid r =? id) rows;
  rep_owner : forall o, by_owner h !! o = nonempty (rid <$> filterb (owned o) rows);
  rep_entity : forall e, by_entity h !! e = nonempty (rid <$> filterb (on_entity e) rows);
  rep_count : forall k, kind_counts h !! k = count_of (countb (of_kind k) rows);
  rep_entities : forall k, kind_entities_ h !! k = nonempty (address <$> firsts rows k);
}.

(** ** Lemmas on the specification *)

Implicit Types (rows : list Row) (h : HookStore).

Lemma of_bucket_true e k r : of_bucket e k r = true <-> eid r = e /\ rkind r = k.
Proof. unfold of_bucket. rewrite andb_true_iff, Z.eqb_eq, String.eqb_eq. done. Qed.

Lemma elem_of_rows_at rows e k r : r ∈ rows_at rows e k <-> r ∈ rows /\ eid r = e /\ rkind r = k.
Proof. unfold rows_at. rewrite elem_of_filterb, of_bucket_true. tauto. Qed.

Lemma rows_at_sorted rows e k : StronglySorted (key_lt rid) rows -> StronglySorted (key_lt rid) (rows_at rows e k).
Proof. apply key_lt_sublist, filterb_sublist. Qed.

Lemma rows_at_remove rows id e k : rows_at (spec_remove rows id) e k = spec_remove (rows_at rows e k) id.
Proof. apply filterb_comm. Qed.

Lemma rows_at_snoc rows r e k : rows_at (rows ++ [r]) e k = rows_at rows e k ++ (if of_bucket e k r then [r] else []).
Proof. unfold rows_at. rewrite filterb_app. cbn [filterb]. done. Qed.

Lemma spec_remove_absent rows id : (forall r, r ∈ rows -> rid r <> id) -> spec_remove rows id = rows.
Proof. intros Hr. apply filterb_true. intros r Hin. apply negb_true_iff, Z.eqb_neq. by apply Hr. Qed.

Lemma is_first_head (group : Row -> Row -> bool) rows r :
  StronglySorted (key_lt rid) rows -> r ∈ rows -> is_first group rows r = true <-> head (filterb (group r) rows) = Some r.
Proof.
  intros Hs Hr. unfold is_first. destruct (filterb (group r) rows) as [|f l] eqn:E; cbn; [done|]. rewrite Z.eqb_eq.
  assert (f ∈ rows) as Hf by (assert (f ∈ filterb (group r) rows) as [_ ?]%elem_of_filterb by (rewrite E; in_list); done).
  split; [|naive_solver]. intros Hid. f_equal. by eapply key_lt_inj.
Qed.

Lemma elem_of_firsts rows k r :
  StronglySorted (key_lt rid) rows -> r ∈ firsts rows k <-> rkind r = k /\ head (rows_at rows (eid r) k) = Some r.
Proof.
  intros Hs. unfold firsts. rewrite elem_of_filterb, andb_true_iff, String.eqb_eq. split.
  - intros [[<- Hf] Hr]. apply (is_first_head same_bucket) in Hf; done.
  - intros [<- Hh]. assert (r ∈ rows) as Hr.
    { by apply head_Some_elem_of, elem_of_rows_at in Hh as [? _]. }
    repeat split; [|done]. by apply (is_first_head same_bucket).
Qed.

Lemma firsts_sorted rows k : StronglySorted (key_lt rid) rows -> StronglySorted (key_lt rid) (firsts rows k).
Proof. apply key_lt_sublist, filterb_sublist. Qed.

Lemma is_first_snoc (group : Row -> Row -> bool) rows r r0 :
  group r0 r0 = true -> r0 ∈ rows -> is_first group (rows ++ [r]) r0 = is_first group rows r0.
Proof.
  intros Hg Hr. unfold is_first. rewrite filterb_app. destruct (filterb (group r0) rows) eqn:E; [|done].
  rewrite filterb_nil_iff in E. rewrite E in Hg; done.
Qed.

Lemma same_bucket_refl r : same_bucket r r = true.
Proof. by apply of_bucket_true. Qed.

Lemma firsts_snoc rows r k :
  (forall x, x ∈ rows -> rid x < rid r) ->
  firsts (rows ++ [r]) k = firsts rows k ++ (if of_kind k r && match rows_at rows (eid r) k with [] => true | _ => false end then [r] else []).
Proof.
  intros Hlt. unfold firsts. rewrite filterb_app. f_equal.
  - apply filterb_ext. intros x Hx. rewrite is_first_snoc; auto using same_bucket_refl.
  - cbn [filterb]. unfold of_kind. destruct (String.eqb_spec (rkind r) k) as [<-|]; cbn; [|done].
    unfold is_first, same_bucket, rows_at. rewrite filterb_app. cbn [filterb].
    assert (of_bucket (eid r) (rkind r) r = true) as -> by by apply of_bucket_true.
    destruct (filterb (of_bucket (eid r) (rkind r)) rows) as [|f l] eqn:E; cbn; [by rewrite Z.eqb_refl|].
    assert (f ∈ rows) as Hf.
    { assert (f ∈ filterb (of_bucket (eid r) (rkind r)) rows) as [_ ?]%elem_of_filterb by (rewrite E; in_list). done. }
    specialize (Hlt f Hf). by replace (rid f =? rid r) with false by (symmetry; apply Z.eqb_neq; lia).
Qed.

(** A hook is found by its id. *)
Lemma find_id rows id r :
  StronglySorted (key_lt rid) rows -> find (fun r => rid r =? id) rows = Some r <-> r ∈ rows /\ rid r = id.
Proof.
  intros Hs. split.
  - intros [Hr Hid]%List.find_some. apply list_elem_of_In in Hr. by apply Z.eqb_eq in Hid.
  - intros [Hr Hid]. destruct (find _ rows) as [r'|] eqn:E.
    + apply List.find_some in E as [Hr' Hid']. apply list_elem_of_In in Hr'. apply Z.eqb_eq in Hid'.
      f_equal. eapply key_lt_inj; [done..|]. congruence.
    + apply list_elem_of_In in Hr. eapply List.find_none in E; [|done]. cbn in E. bool_to_prop. done.
Qed.

Lemma find_id_None rows id : find (fun r => rid r =? id) rows = None <-> forall r, r ∈ rows -> rid r <> id.
Proof.
  split.
  - intros E r Hr%list_elem_of_In. eapply List.find_none in E; [|done]. cbn in E. by bool_to_prop.
  - intros Hr. destruct (find _ rows) as [r'|] eqn:E; [|done]. apply List.find_some in E as [Hr' Hid'].
    apply list_elem_of_In in Hr'. apply Z.eqb_eq in Hid'. by apply Hr in Hr'.
Qed.

Lemma nonempty_snoc {A} (l : list A) x : nonempty (l ++ [x]) = Some (l ++ [x]).
Proof. by destruct l. Qed.

Lemma default_nonempty {A} (l : list A) : default [] (nonempty l) = l.
Proof. by destruct l. Qed.

Lemma nonempty_Some {A} (l l' : list A) : nonempty l = Some l' <-> l' = l /\ l <> [].
Proof. destruct l; cbn; [naive_solver|]. split; [intros; by simplify_eq|by intros [-> _]]. Qed.

Lemma has_of h rows e k : represents h rows -> has h e k = match rows_at rows e k with [] => false | _ => true end.
Proof. intros [_ Hb _ _ _ _ _ _]. unfold has. rewrite Hb. by destruct (rows_at rows e k). Qed.

Lemma represents_new : represents new [].
Proof.
  constructor; try done. constructor; [constructor|done|by intros ? ? ?%elem_of_nil].
Qed.

(** ** Making a hook *)

Lemma spec_insert_snoc rows e i s k (en : Entry) :
  well_ordered rows -> Z.of_nat (length rows) < u64_max -> (forall r, r ∈ rows -> rid r < sub_id en) ->
  exists r, spec_insert rows e i s k en = rows ++ [r] /\ eid r = e /\ rkind r = k /\ ent r = en /\
    well_ordered (rows ++ [r]) /\
    match rows_at rows e k with [] => idx r = i /\ ser r = s | f :: _ => idx r = idx f /\ ser r = ser f end.
Proof.
  intros [Hs _ Hc] Hlen Hlt. unfold spec_insert.
  assert (forall r, rid r = sub_id en -> eid r = e -> rkind r = k ->
    (forall f, f ∈ rows_at rows e k -> idx r = idx f /\ ser r = ser f) -> well_ordered (rows ++ [r])) as Hw.
  { intros r Hid He Hk Hf. constructor; [apply key_lt_snoc; [done|]; by rewrite Hid|rewrite length_app; cbn; lia|].
    assert (forall x, x ∈ rows -> eid x = eid r -> rkind x = rkind r -> idx r = idx x /\ ser r = ser x) as Hx.
    { intros x Hin Ee Ek. apply Hf, elem_of_rows_at. repeat split; congruence. }
    intros x y [Hinx| ->%list_elem_of_singleton]%elem_of_app [Hiny| ->%list_elem_of_singleton]%elem_of_app Ee Ek; auto.
    destruct (Hx x Hinx Ee Ek). done. }
  destruct (rows_at rows e k) as [|f l] eqn:E; eexists; repeat (split; [done|]); (split; [|done]); apply Hw; try done.
  - by intros f ?%elem_of_nil.
  - assert (f ∈ rows_at rows e k) as Hf by (rewrite E; in_list). apply elem_of_rows_at in Hf as (Hf & He & Hk).
    intros f'. rewrite <- E. intros (Hf' & He' & Hk')%elem_of_rows_at. apply (Hc f f'); [done|done|congruence..].
Qed.

Lemma bucket_of_snoc (l : list Row) r :
  match l with [] => True | f :: _ => idx r = idx f /\ ser r = ser f end ->
  bucket_of (l ++ [r]) =
    Some (mkBucket (entity_index (default (mkBucket (idx r) (ser r) []) (bucket_of l)))
            (engine_serial (default (mkBucket (idx r) (ser r) []) (bucket_of l)))
            (entries (default (mkBucket (idx r) (ser r) []) (bucket_of l)) ++ [ent r])).
Proof. destruct l as [|f l]; cbn; [done|]. intros _. by rewrite fmap_app. Qed.

Lemma bucket_insert (m : gmap Z (gmap string Bucket)) e k b e' k' :
  (<[e := <[k := b]> (default ∅ (m !! e))]> m !! e') ≫= (fun kinds : gmap string Bucket => kinds !! k') =
  if (e =? e') && String.eqb k k' then Some b else (m !! e') ≫= (fun kinds : gmap string Bucket => kinds !! k').
Proof.
  destruct (Z.eqb_spec e e') as [<-|]; cbn; [|by rewrite lookup_insert_ne].
  rewrite lookup_insert_eq. cbn. destruct (String.eqb_spec k k') as [<-|]; [by rewrite lookup_insert_eq|].
  rewrite lookup_insert_ne by done. by destruct (m !! e).
Qed.

Lemma push_id_lookup {K} `{Countable K} (m : gmap K (list Z)) (g : K -> Row -> bool) (key key' : K) rows r :
  m !! key' = nonempty (rid <$> filterb (g key') rows) -> (g key' r = true <-> key = key') ->
  m !! key = nonempty (rid <$> filterb (g key) rows) ->
  push_id m key (rid r) !! key' = nonempty (rid <$> filterb (g key') (rows ++ [r])).
Proof.
  intros Hm' Hg Hm. unfold push_id. rewrite filterb_app, fmap_app. cbn [filterb]. destruct (decide (key = key')) as [<-|Hne].
  - rewrite lookup_insert_eq, Hm, default_nonempty. rewrite (proj2 Hg eq_refl). cbn [fmap list_fmap]. by rewrite nonempty_snoc.
  - rewrite lookup_insert_ne by done. destruct (g key' r); [by destruct Hne; apply (proj1 Hg)|]. cbn. by rewrite app_nil_r.
Qed.

Lemma owned_true o r : owned o r = true <-> owner (ent r) = o.
Proof. apply String.eqb_eq. Qed.
Lemma on_entity_true e r : on_entity e r = true <-> eid r = e.
Proof. apply Z.eqb_eq. Qed.
Lemma of_kind_true k r : of_kind k r = true <-> rkind r = k.
Proof. apply String.eqb_eq. Qed.

Lemma count_of_default n : default 0 (count_of n) = n.
Proof. unfold count_of. destruct (Z.eqb_spec n 0); cbn; congruence. Qed.

(** ** The store represents the list after a hook is made *)
Lemma represents_insert h rows e i s k (en : Entry) :
  represents h rows -> Z.of_nat (length rows) < u64_max -> (forall r, r ∈ rows -> rid r < sub_id en) ->
  represents (insert h e i s k en) (spec_insert rows e i s k en).
Proof.
  intros Hrep Hlen Hlt. pose proof (has_of h rows e k Hrep) as Hhas. destruct Hrep as [Hw Hb Hk Hsub Hown Hent Hcnt Hke].
  destruct (spec_insert_snoc rows e i s k en Hw Hlen Hlt) as (r & -> & <- & <- & <- & Hw' & Hco).
  constructor; [done|..].
  - intros e' k'. unfold bucket, insert. cbn [buckets]. rewrite bucket_insert, rows_at_snoc.
    fold (bucket h e' k'). unfold of_bucket. destruct (Z.eqb_spec (eid r) e') as [<-|]; cbn [andb]; [|by rewrite app_nil_r].
    destruct (String.eqb_spec (rkind r) k') as [<-|]; [|by rewrite app_nil_r].
    specialize (Hb (eid r) (rkind r)). unfold bucket in Hb.
    assert (default ∅ (buckets h !! eid r) !! rkind r = bucket_of (rows_at rows (eid r) (rkind r))) as ->.
    { rewrite <- Hb. by destruct (buckets h !! eid r). }
    destruct (rows_at rows (eid r) (rkind r)) as [|f l]; [destruct Hco as [<- <-]|]; by rewrite bucket_of_snoc.
  - intros e'. cbn [insert buckets]. destruct (decide (eid r = e')) as [<-|]; [|by rewrite lookup_insert_ne].
    rewrite lookup_insert_eq. intros [=Hn]. by apply insert_non_empty in Hn.
  - intros id. cbn [insert by_sub]. destruct (find (fun x => rid x =? id) (rows ++ [r])) as [x|] eqn:E.
    + apply find_id in E as [[Hx| ->%list_elem_of_singleton]%elem_of_app <-]; [| |apply Hw'].
      * specialize (Hlt x Hx). rewrite lookup_insert_ne by (unfold rid in *; lia).
        rewrite Hsub. by replace (find (fun r0 => rid r0 =? rid x) rows) with (Some x) by (symmetry; apply find_id; [apply Hw|done]).
      * by rewrite lookup_insert_eq.
    + rewrite find_id_None in E. rewrite lookup_insert_ne by (apply (E r); in_list). rewrite Hsub.
      replace (find (fun r0 => rid r0 =? id) rows) with (@None Row); [done|]. symmetry. apply find_id_None. intros x Hx. apply E. in_list.
  - intros o. cbn [insert by_owner]. apply (push_id_lookup _ owned); auto using owned_true.
  - intros e'. cbn [insert by_entity]. apply (push_id_lookup _ on_entity); auto using on_entity_true.
  - intros k'. cbn [insert kind_counts]. rewrite countb_app, countb_cons. change (countb _ []) with 0.
    destruct (of_kind k' r) eqn:E.
    + apply of_kind_true in E as <-. rewrite lookup_insert_eq, Hcnt, count_of_default. unfold count_of.
      pose proof (countb_nonneg (of_kind (rkind r)) rows). pose proof (countb_le_length (of_kind (rkind r)) rows).
      rewrite Z.add_0_r, u64_succ_small by lia. rewrite (Z.add_comm _ 1). by destruct (Z.eqb_spec (1 + countb (of_kind (rkind r)) rows) 0); [lia|].
    + rewrite lookup_insert_ne by (intros <-; unfold of_kind in E; by rewrite String.eqb_refl in E). by rewrite Hcnt, !Z.add_0_r.
  - intros k'. cbn [insert kind_entities_]. rewrite firsts_snoc, fmap_app, Hhas by done.
    destruct (of_kind k' r) eqn:E; cbn [andb].
    + apply of_kind_true in E as <-. destruct (rows_at rows (eid r) (rkind r)) as [|f l] eqn:Er; cbn.
      * destruct Hco as [<- <-]. by rewrite lookup_insert_eq, Hke, default_nonempty, nonempty_snoc.
      * by rewrite app_nil_r, Hke.
    + rewrite app_nil_r. unfold of_kind in E. destruct (rows_at rows (eid r) (rkind r)) as [|f l]; cbn; [|done].
      rewrite lookup_insert_ne; [done|]. intros <-. by rewrite String.eqb_refl in E.
Qed.

(** ** Removing a hook *)

Lemma spec_remove_perm rows r : StronglySorted (key_lt rid) rows -> r ∈ rows -> rows ≡ₚ r :: spec_remove rows (rid r).
Proof.
  intros Hs Hr. apply NoDup_Permutation; [by eapply key_lt_NoDup_elems| |].
  - constructor; [|eapply filterb_NoDup, key_lt_NoDup_elems; done].
    unfold spec_remove. rewrite elem_of_filterb, Z.eqb_refl. by intros [? _].
  - intros x. unfold spec_remove. rewrite elem_of_cons, elem_of_filterb, negb_true_iff, Z.eqb_neq. split; [|naive_solver].
    intros Hx. destruct (decide (rid x = rid r)); [left; by eapply key_lt_inj|by right].
Qed.

Lemma remove_reverse_id_lookup {K} `{Countable K} (m : gmap K (list Z)) (g : K -> Row -> bool) key key' rows r :
  StronglySorted (key_lt rid) rows -> (forall key', m !! key' = nonempty (rid <$> filterb (g key') rows)) ->
  (g key' r = true <-> key' = key) -> r ∈ rows ->
  remove_reverse_id m key (rid r) !! key' = nonempty (rid <$> filterb (g key') (spec_remove rows (rid r))).
Proof.
  intros Hs Hm Hg Hr. unfold spec_remove. rewrite filterb_comm. set (L := filterb (g key') rows).
  assert (StronglySorted (key_lt rid) L) as HL by (eapply key_lt_sublist; [apply filterb_sublist|done]).
  rewrite <- (filterb_fmap rid (fun i => negb (i =? rid r))). unfold remove_reverse_id. rewrite Hm.
  destruct (decide (key' = key)) as [->|Hne].
  - assert (r ∈ L) as HrL by (apply elem_of_filterb; tauto). fold L. set (ids := rid <$> L) in *.
    assert (rid r ∈ ids) as Hid by (by apply list_elem_of_fmap_2). assert (NoDup ids) as Hnd by by apply key_lt_NoDup.
    assert (nonempty ids = Some ids) as -> by (destruct ids; [by apply elem_of_nil in Hid|done]).
    destruct (position (fun i => i =? rid r) ids) as [p|] eqn:Ep.
    + assert (ids !! p = Some (rid r)) as Hp.
      { apply position_Some in Ep as (l1 & x & l2 & -> & <- & Hx & _). apply Z.eqb_eq in Hx as <-. by apply list_lookup_middle. }
      rewrite (vec_remove_keyed (fun i : Z => i) (fun i => i =? rid r) ids p (rid r)); [|intros; apply Z.eqb_eq|by rewrite list_fmap_id|done|done].
      destruct (filterb _ ids); [by rewrite lookup_delete_eq|by rewrite lookup_insert_eq].
    + apply position_None in Ep. rewrite Forall_forall in Ep. apply Ep in Hid. by rewrite Z.eqb_refl in Hid.
  - assert (filterb (fun i => negb (i =? rid r)) (rid <$> L) = rid <$> L) as ->.
    { apply filterb_true. intros i (x & -> & Hx)%list_elem_of_fmap. apply negb_true_iff, Z.eqb_neq. intros E.
      apply elem_of_filterb in Hx as [Hgx Hx]. assert (x = r) as -> by by apply (key_lt_inj rid rows). by apply Hne, Hg. }
    unfold L. rewrite <- (Hm key'), <- (Hm key).
    assert (forall ids, match ids with [] => delete key m | _ :: _ => <[key := ids]> m end !! key' = m !! key') as Hu
      by (intros [|]; [by rewrite lookup_delete_ne by congruence|by rewrite lookup_insert_ne by congruence]).
    clear Hm. destruct (m !! key) as [ids|]; [|done]. apply Hu.
Qed.

Lemma update_counts_lookup m rows r k :
  StronglySorted (key_lt rid) rows -> Z.of_nat (length rows) <= u64_max -> r ∈ rows ->
  (forall k, m !! k = count_of (countb (of_kind k) rows)) ->
  update_counts m (rkind r) !! k = count_of (countb (of_kind k) (spec_remove rows (rid r))).
Proof.
  intros Hs Hlen Hr Hm. unfold update_counts. rewrite Hm.
  assert (forall k, countb (of_kind k) rows = (if of_kind k r then 1 else 0) + countb (of_kind k) (spec_remove rows (rid r))) as Hc.
  { intros k'. rewrite (countb_perm _ _ _ (spec_remove_perm rows r Hs Hr)). apply countb_cons. }
  pose proof (countb_le_length (of_kind (rkind r)) rows) as Hle.
  pose proof (countb_nonneg (of_kind (rkind r)) (spec_remove rows (rid r))) as Hge.
  assert (of_kind (rkind r) r = true) as Hk by by apply of_kind_true.
  pose proof (Hc (rkind r)) as Hcr. rewrite Hk in Hcr. unfold count_of at 1. destruct (Z.eqb_spec (countb (of_kind (rkind r)) rows) 0); [lia|].
  rewrite u64_pred_small by lia. unfold count_of. destruct (decide (k = rkind r)) as [->|Hne].
  - replace (countb (of_kind (rkind r)) rows - 1) with (countb (of_kind (rkind r)) (spec_remove rows (rid r))) by lia.
    destruct (_ =? 0); [by rewrite lookup_delete_eq|by rewrite lookup_insert_eq].
  - pose proof (Hc k) as Hck. assert (of_kind k r = false) as Hkf by (apply not_true_iff_false; rewrite of_kind_true; congruence).
    rewrite Hkf in Hck. replace (countb (of_kind k) (spec_remove rows (rid r))) with (countb (of_kind k) rows) by lia.
    destruct (_ - 1 =? 0); [rewrite lookup_delete_ne by done|rewrite lookup_insert_ne by done]; apply Hm.
Qed.

Lemma update_buckets_lookup (m : gmap Z (gmap string Bucket)) e k b e' k' :
  (update_buckets m e k b !! e') ≫= (fun kinds : gmap string Bucket => kinds !! k') =
  if (e =? e') && String.eqb k k' then match entries b with [] => None | _ => Some b end
  else (m !! e') ≫= (fun kinds : gmap string Bucket => kinds !! k').
Proof.
  unfold update_buckets. destruct (entries b) as [|en l].
  - rewrite delete_insert_eq. destruct (Z.eqb_spec e e') as [<-|]; cbn [andb].
    + assert ((delete k (default ∅ (m !! e)) : gmap string Bucket) !! k' = if String.eqb k k' then None else (m !! e) ≫= (fun kinds : gmap string Bucket => kinds !! k')) as Hd.
      { destruct (String.eqb_spec k k') as [<-|]; [apply lookup_delete_eq|]. rewrite lookup_delete_ne by done. by destruct (m !! e). }
      case_bool_decide as He; [rewrite lookup_delete_eq|rewrite lookup_insert_eq]; cbn; rewrite <- Hd; [|done]. by rewrite He.
    + case_bool_decide; [by rewrite lookup_delete_ne|by rewrite lookup_insert_ne].
  - apply bucket_insert.
Qed.

Lemma update_buckets_kinds (m : gmap Z (gmap string Bucket)) e k b e' :
  m !! e' <> Some ∅ -> update_buckets m e k b !! e' <> Some ∅.
Proof.
  intros Hm. unfold update_buckets. destruct (decide (e = e')) as [<-|].
  - destruct (entries b).
    + case_bool_decide; [by rewrite lookup_delete_eq|rewrite lookup_insert_eq; congruence].
    + rewrite lookup_insert_eq. intros [=Hn]. by apply insert_non_empty in Hn.
  - destruct (entries b); [case_bool_decide; [by rewrite lookup_delete_ne|]|]; by rewrite lookup_insert_ne.
Qed.

Lemma rows_at_remove_other rows r e k :
  StronglySorted (key_lt rid) rows -> r ∈ rows -> e <> eid r \/ k <> rkind r -> rows_at (spec_remove rows (rid r)) e k = rows_at rows e k.
Proof.
  intros Hs Hr Hne. rewrite rows_at_remove. apply spec_remove_absent. intros x (Hx & Hex & Hkx)%elem_of_rows_at E.
  assert (x = r) as -> by by apply (key_lt_inj rid rows). destruct Hne as [Hne|Hne]; by apply Hne.
Qed.

Lemma spec_remove_sorted rows id : StronglySorted (key_lt rid) rows -> StronglySorted (key_lt rid) (spec_remove rows id).
Proof. apply key_lt_sublist, filterb_sublist. Qed.

(** The earliest hooks of a kind once a hook is removed. *)
Lemma elem_of_firsts_remove rows r k x :
  StronglySorted (key_lt rid) rows -> r ∈ rows ->
  x ∈ firsts (spec_remove rows (rid r)) k <->
  (x ∈ firsts rows k /\ (k <> rkind r \/ eid x <> eid r)) \/
  (k = rkind r /\ head (rows_at (spec_remove rows (rid r)) (eid r) k) = Some x).
Proof.
  intros Hs Hr. rewrite elem_of_firsts by by apply spec_remove_sorted. rewrite elem_of_firsts by done.
  destruct (decide (k = rkind r)) as [->|Hk].
  - destruct (decide (eid x = eid r)) as [He|He].
    + rewrite He. split; [intros [? ?]; by right|]. intros [[_ [?|?]]|[_ Hh]]; [done|done|]. split; [|done].
      apply head_Some_elem_of in Hh. by apply elem_of_rows_at in Hh as (_ & _ & ?).
    + rewrite rows_at_remove_other by auto. split; [intros; left; auto|]. intros [[? _]|[_ Hh]]; [done|].
      apply head_Some_elem_of in Hh. by apply elem_of_rows_at in Hh as (_ & ? & _).
  - rewrite rows_at_remove_other by auto. split; [intros; left; auto|]. intros [[? _]|[? _]]; done.
Qed.

Definition others (e : Z) (l : list Row) : list Row := filterb (fun x => negb (eid x =? e)) l.

Lemma firsts_remove_other_kind rows r k :
  StronglySorted (key_lt rid) rows -> r ∈ rows -> k <> rkind r -> firsts (spec_remove rows (rid r)) k = firsts rows k.
Proof.
  intros Hs Hr Hk. apply (key_lt_ext rid); [by apply firsts_sorted, spec_remove_sorted|by apply firsts_sorted|].
  intros x. rewrite elem_of_firsts_remove by done. split; [intros [[? _]|[? _]]; done|left; auto].
Qed.

Lemma firsts_remove_kind rows r :
  StronglySorted (key_lt rid) rows -> r ∈ rows ->
  firsts (spec_remove rows (rid r)) (rkind r) =
  match head (rows_at (spec_remove rows (rid r)) (eid r) (rkind r)) with
  | None => others (eid r) (firsts rows (rkind r))
  | Some f => vec_insert (partition_point (fun x => rid x <? rid f) (others (eid r) (firsts rows (rkind r)))) f (others (eid r) (firsts rows (rkind r)))
  end.
Proof.
  intros Hs Hr. set (O := others (eid r) (firsts rows (rkind r))).
  assert (StronglySorted (key_lt rid) O) as HO by (eapply key_lt_sublist; [apply filterb_sublist|by apply firsts_sorted]).
  assert (forall x, x ∈ O <-> x ∈ firsts rows (rkind r) /\ eid x <> eid r) as Hin.
  { intros x. unfold O, others. rewrite elem_of_filterb, negb_true_iff, Z.eqb_neq. tauto. }
  apply (key_lt_ext rid); [by apply firsts_sorted, spec_remove_sorted| |].
  - destruct (head _) as [f|] eqn:Ef; [|done]. apply key_lt_insert; [done|]. intros y Hy Hid.
    apply head_Some_elem_of, elem_of_rows_at in Ef as (Hf & Hef & _). apply elem_of_filterb in Hf as [_ Hf].
    apply Hin in Hy as [Hy Hey]. apply elem_of_filterb in Hy as [_ Hy]. apply Hey.
    assert (y = f) as -> by by apply (key_lt_inj rid rows). done.
  - intros x. rewrite elem_of_firsts_remove by done. destruct (head _) as [f|].
    + rewrite elem_of_vec_insert, Hin. naive_solver.
    + rewrite Hin. naive_solver.
Qed.

Lemma partition_point_fmap {A B} (g : A -> B) (f : B -> bool) (l : list A) : partition_point f (g <$> l) = partition_point (fun a => f (g a)) l.
Proof. induction l as [|x l IH]; csimpl; [done|]. by rewrite IH. Qed.

Lemma vec_insert_fmap {A B} (g : A -> B) n x (l : list A) : vec_insert n (g x) (g <$> l) = g <$> vec_insert n x l.
Proof. unfold vec_insert. by rewrite fmap_app, fmap_cons, fmap_take, fmap_drop. Qed.

Lemma firsts_entities_NoDup rows k : StronglySorted (key_lt rid) rows -> NoDup (a_entity_id <$> (address <$> firsts rows k)).
Proof.
  intros Hs. rewrite <- list_fmap_compose. apply NoDup_fmap_2_strong; [|by eapply key_lt_NoDup_elems, firsts_sorted].
  intros x y Hx Hy E. apply elem_of_firsts in Hx as [_ Hx], Hy as [_ Hy]; [|done..]. cbn in E. rewrite E in Hx. congruence.
Qed.

Lemma update_addresses_other m e k emptied nf k' : k <> k' -> update_addresses m e k emptied nf !! k' = m !! k'.
Proof.
  intros Hk. unfold update_addresses. destruct (m !! k) as [l|]; [|done]. destruct emptied.
  - destruct (filterb _ l); [by rewrite lookup_delete_ne|by rewrite lookup_insert_ne].
  - destruct nf; [|done]. destruct (position _ _); [|done]. destruct (l !! _); [|done]. by rewrite lookup_insert_ne.
Qed.

Lemma filterb_address e (l : list Row) : filterb (fun a => negb (a_entity_id a =? e)) (address <$> l) = address <$> others e l.
Proof. by rewrite filterb_fmap. Qed.

(** The address of a hook's entity is moved to the place of its next hook. *)
Lemma move_address m rows r f :
  well_ordered rows -> r ∈ rows -> (forall k, m !! k = nonempty (address <$> firsts rows k)) ->
  head (rows_at rows (eid r) (rkind r)) = Some r ->
  head (rows_at (spec_remove rows (rid r)) (eid r) (rkind r)) = Some f ->
  update_addresses m (eid r) (rkind r) false (Some (rid f)) !! rkind r = nonempty (address <$> firsts (spec_remove rows (rid r)) (rkind r)).
Proof.
  intros [Hs _ Hc] Hr Hm Hhead Hf. rewrite firsts_remove_kind, Hf by done. unfold update_addresses. rewrite Hm at 1.
  assert (r ∈ firsts rows (rkind r)) as Hrf by by apply elem_of_firsts.
  assert (nonempty (address <$> firsts rows (rkind r)) = Some (address <$> firsts rows (rkind r))) as ->.
  { destruct (firsts rows (rkind r)); [by apply elem_of_nil in Hrf|done]. }
  destruct (position _ _) as [q|] eqn:Eq.
  2: { apply position_None in Eq. rewrite Forall_fmap, Forall_forall in Eq. apply Eq in Hrf. cbn in Hrf. by rewrite Z.eqb_refl in Hrf. }
  assert ((address <$> firsts rows (rkind r)) !! q = Some (address r)) as Hq.
  { apply position_Some in Eq as (l1 & a & l2 & Hl & <- & Ha & _). rewrite Hl, list_lookup_middle by done. f_equal.
    assert (a ∈ address <$> firsts rows (rkind r)) as (x & -> & Hx)%list_elem_of_fmap by (rewrite Hl; in_list).
    cbn in Ha. apply Z.eqb_eq in Ha. apply elem_of_firsts in Hx as [_ Hx]; [|done]. rewrite Ha in Hx. congruence. }
  rewrite Hq. rewrite (vec_remove_keyed a_entity_id (fun a => a_entity_id a =? eid r) _ q (address r)); [|intros; apply Z.eqb_eq|by apply firsts_entities_NoDup|done|done].
  rewrite filterb_address, partition_point_fmap, lookup_insert_eq. cbn.
  assert (mkAddress (eid r) (idx r) (ser r) (rid f) = address f) as ->.
  { unfold address. apply head_Some_elem_of, elem_of_rows_at in Hf as (Hin & He & Hk). apply elem_of_filterb in Hin as [_ Hin].
    destruct (Hc f r Hin Hr He Hk) as [-> ->]. by rewrite He. }
  rewrite vec_insert_fmap. unfold vec_insert. by destruct (take _ _).
Qed.

Lemma update_addresses_lookup m rows r k nf :
  well_ordered rows -> r ∈ rows -> (forall k, m !! k = nonempty (address <$> firsts rows k)) ->
  let left := rows_at (spec_remove rows (rid r)) (eid r) (rkind r) in
  (head (rows_at rows (eid r) (rkind r)) = Some r /\ nf = rid <$> head left \/
   head (rows_at rows (eid r) (rkind r)) = head left /\ left <> [] /\ nf = None) ->
  update_addresses m (eid r) (rkind r) (match left with [] => true | _ => false end) nf !! k =
  nonempty (address <$> firsts (spec_remove rows (rid r)) k).
Proof.
  intros Hw Hr Hm left Hcase. pose proof (wo_sorted _ Hw) as Hs. destruct (decide (k = rkind r)) as [->|Hk].
  2: { rewrite update_addresses_other by done. by rewrite firsts_remove_other_kind. }
  destruct Hcase as [[Hhead ->]|(Hhead & Hne & ->)].
  - destruct left as [|f l] eqn:El; cbn [head fmap option_fmap option_map]; [|apply move_address; try done; change (head left = Some f); by rewrite El].
    rewrite firsts_remove_kind by done. fold left. rewrite El. cbn [head]. unfold update_addresses. rewrite Hm at 1.
    assert (r ∈ firsts rows (rkind r)) as Hrf by by apply elem_of_firsts.
    destruct (nonempty (address <$> firsts rows (rkind r))) as [l|] eqn:En; [|destruct (firsts rows (rkind r)); [by apply elem_of_nil in Hrf|done]].
    apply nonempty_Some in En as [-> _]. rewrite filterb_address.
    destruct (address <$> others (eid r) (firsts rows (rkind r))); [by rewrite lookup_delete_eq|by rewrite lookup_insert_eq].
  - assert (firsts (spec_remove rows (rid r)) (rkind r) = firsts rows (rkind r)) as ->.
    { apply (key_lt_ext rid); [by apply firsts_sorted, spec_remove_sorted|by apply firsts_sorted|].
      intros x. rewrite elem_of_firsts_remove by done. fold left. rewrite <- Hhead. rewrite elem_of_firsts by done.
      split; [intros [[? _]|[_ Hx]]; [done|]|].
      - pose proof Hx as (_ & He & Hk)%head_Some_elem_of%elem_of_rows_at. by rewrite He.
      - intros [Hk Hx]. destruct (decide (eid x = eid r)) as [He|]; [right; by rewrite <- He|left; auto]. }
    destruct left; [done|]. unfold update_addresses. rewrite <- Hm. by destruct (m !! rkind r) eqn:E.
Qed.

Lemma well_ordered_remove rows id : well_ordered rows -> well_ordered (spec_remove rows id).
Proof.
  intros [Hs Hl Hc]. constructor; [by apply spec_remove_sorted| |].
  - pose proof (filterb_length_le (fun r => negb (rid r =? id)) rows). unfold spec_remove. lia.
  - intros x y [_ Hx]%elem_of_filterb [_ Hy]%elem_of_filterb. by apply Hc.
Qed.

(** Where a hook stands in its bucket. *)
Lemma bucket_position (l : list Row) r :
  StronglySorted (key_lt rid) l -> r ∈ l ->
  exists p, position (fun e => sub_id e =? rid r) (ent <$> l) = Some p /\ (ent <$> l) !! p = Some (ent r) /\
    vec_remove p (ent <$> l) = ent <$> spec_remove l (rid r) /\ ((p =? 0)%nat = true <-> head l = Some r).
Proof.
  intros Hs Hr. destruct (position (fun e => sub_id e =? rid r) (ent <$> l)) as [p|] eqn:Ep.
  2: { apply position_None in Ep. rewrite Forall_fmap, Forall_forall in Ep. apply Ep in Hr. unfold compose, rid in Hr. by rewrite Z.eqb_refl in Hr. }
  assert (exists x, l !! p = Some x /\ x = r) as (x & Hx & ->).
  { pose proof (position_Some _ _ _ Ep) as (l1 & en & l2 & Hl & <- & Hen & _).
    assert ((ent <$> l) !! length l1 = Some en) as Hlk by (rewrite Hl; by apply list_lookup_middle).
    rewrite list_lookup_fmap in Hlk. apply fmap_Some in Hlk as (x & Hx & ->). exists x. split; [done|].
    apply (key_lt_inj rid l); [done|by eapply list_elem_of_lookup_2|done|]. by apply Z.eqb_eq in Hen. }
  exists p. split; [done|]. split; [by rewrite list_lookup_fmap, Hx|]. split.
  - rewrite (vec_remove_keyed sub_id (fun e => sub_id e =? rid r) _ p (ent r)); [|intros; apply Z.eqb_eq| |done|by rewrite list_lookup_fmap, Hx].
    + by rewrite filterb_fmap.
    + rewrite <- list_fmap_compose. by apply key_lt_NoDup.
  - rewrite Nat.eqb_eq. split.
    + intros ->. by destruct l; cbn in *.
    + intros Hh. destruct l as [|y l]; [done|]. injection Hh as ->. destruct p as [|p]; [done|].
      cbn in Ep. unfold rid in Ep. by rewrite Z.eqb_refl in Ep.
Qed.

Lemma remove_sub_absent h rows id : represents h rows -> (forall r, r ∈ rows -> rid r <> id) -> remove_sub h id = (h, None).
Proof. intros Hrep Hid. unfold remove_sub. rewrite (rep_sub _ _ Hrep). apply find_id_None in Hid. by rewrite Hid. Qed.

Lemma represents_remove h rows r :
  represents h rows -> r ∈ rows ->
  exists h', remove_sub h (rid r) =
      (h', Some (mkRemoved (eid r) (idx r) (ser r) (rkind r)
                   (match rows_at (spec_remove rows (rid r)) (eid r) (rkind r) with [] => true | _ => false end))) /\
    represents h' (spec_remove rows (rid r)).
Proof.
  intros [Hw Hb Hk Hsub Hown Hent Hcnt Hke] Hr. pose proof (wo_sorted _ Hw) as Hs.
  set (L := rows_at rows (eid r) (rkind r)). assert (r ∈ L) as HrL by by apply elem_of_rows_at.
  destruct (bucket_position L r) as (p & Hp & Hlk & Hrm & Hp0); [by apply rows_at_sorted|done|].
  assert (exists f l, L = f :: l /\ idx f = idx r /\ ser f = ser r) as (f & l & HL & Hi & Hse).
  { destruct L as [|f l] eqn:E; [by apply elem_of_nil in HrL|]. exists f, l. split; [done|].
    assert (f ∈ L) as (Hf & He & Hk')%elem_of_rows_at by (unfold L in *; rewrite E; in_list). by apply (wo_coords _ Hw). }
  assert (bucket_of L = Some (mkBucket (idx r) (ser r) (ent <$> L))) as HbL by (rewrite HL; cbn; by rewrite Hi, Hse).
  set (left := rows_at (spec_remove rows (rid r)) (eid r) (rkind r)).
  assert (spec_remove L (rid r) = left) as Hleft by (symmetry; apply rows_at_remove).
  unfold remove_sub. rewrite Hsub. replace (find _ rows) with (Some r) by (symmetry; by apply find_id).
  cbn [fmap option_fmap option_map]. unfold bucket in Hb |- *. cbn [buckets by_sub by_owner by_entity kind_counts kind_entities_].
  rewrite Hb. fold L. rewrite HbL. cbn [entries entity_index engine_serial]. rewrite Hp, Hlk, Hrm, Hleft.
  assert (match (ent <$> left) with [] => true | _ => false end = match left with [] => true | _ => false end) as -> by by destruct left.
  eexists. split; [done|]. constructor; [by apply well_ordered_remove|..]; cbn [buckets by_sub by_owner by_entity kind_counts kind_entities_].
  - intros e k. unfold bucket. cbn [buckets]. rewrite update_buckets_lookup. cbn [entries].
    destruct (Z.eqb_spec (eid r) e) as [<-|]; cbn [andb]; [|rewrite Hb, rows_at_remove_other by auto; done].
    destruct (String.eqb_spec (rkind r) k) as [<-|]; [|rewrite Hb, rows_at_remove_other by auto; done].
    fold left. destruct left as [|g l'] eqn:El; [done|]. cbn. f_equal.
    assert (g ∈ left) as (Hg & He & Hk')%elem_of_rows_at by (rewrite El; in_list). apply elem_of_filterb in Hg as [_ Hg].
    destruct (wo_coords _ Hw g r) as [-> ->]; done.
  - intros e. by apply update_buckets_kinds.
  - intros id. destruct (decide (id = rid r)) as [->|Hne].
    + rewrite lookup_delete_eq. replace (find _ (spec_remove rows (rid r))) with (@None Row); [done|]. symmetry. apply find_id_None.
      intros x [Hx _]%elem_of_filterb. by bool_to_prop.
    + rewrite lookup_delete_ne, Hsub by done. f_equal. destruct (find (fun x => rid x =? id) rows) as [x|] eqn:Ex; symmetry.
      * apply find_id in Ex as [Hx <-]; [|done]. apply find_id; [by apply spec_remove_sorted|]. split; [|done].
        apply elem_of_filterb. split; [by apply negb_true_iff, Z.eqb_neq|done].
      * rewrite find_id_None in *. intros x [_ Hx]%elem_of_filterb. by apply Ex.
  - intros o. apply (remove_reverse_id_lookup _ owned); try done. rewrite owned_true. split; congruence.
  - intros e. apply (remove_reverse_id_lookup _ on_entity); try done. rewrite on_entity_true. split; congruence.
  - intros k. apply update_counts_lookup; try done. by apply wo_len.
  - intros k. apply update_addresses_lookup; try done. fold L left.
    destruct (Nat.eqb_spec p 0) as [E|E].
    + left. split; [by apply Hp0|]. by destruct left.
    + right. assert (head L <> Some r) as Hh by (intros ?%Hp0; done). rewrite HL in Hh |- *. cbn in Hh |- *.
      rewrite <- Hleft, HL. cbn [spec_remove filterb]. assert (rid f <> rid r) as Hne.
      { intros Hid. apply Hh. f_equal. apply (key_lt_inj rid L); [by apply rows_at_sorted|rewrite HL; in_list|done|done]. }
      unfold spec_remove. cbn [filterb]. rewrite (proj2 (Z.eqb_neq _ _) Hne). cbn. done.
Qed.

(** ** Removing several hooks *)

Definition listed (ids : list Z) (r : Row) : bool := bool_decide (rid r ∈ ids).
Definition spec_remove_all (rows : list Row) (ids : list Z) : list Row := filterb (fun r => negb (listed ids r)) rows.

Lemma spec_remove_all_cons rows id ids : spec_remove_all rows (id :: ids) = spec_remove_all (spec_remove rows id) ids.
Proof.
  unfold spec_remove_all, spec_remove. rewrite filterb_filterb. apply filterb_ext. intros r _. unfold listed.
  destruct (Z.eqb_spec (rid r) id) as [E|E]; cbn.
  - rewrite bool_decide_eq_true_2; [done|]. rewrite E. in_list.
  - f_equal. apply bool_decide_ext. rewrite elem_of_cons. tauto.
Qed.

(** What the removals report: each is a hook that was there, and an entity and kind left without hooks is reported as emptied. *)
Record removal_report (rows rows' : list Row) (rs : list RemovedEntry) : Prop := mkReport {
  report_known : forall x, x ∈ rs -> exists r, r ∈ rows /\ r_entity_id x = eid r /\ r_kind x = rkind r /\ r_entity_index x = idx r /\ r_engine_serial x = ser r;
  report_emptied : forall r, r ∈ rows -> rows_at rows' (eid r) (rkind r) = [] ->
    exists x, x ∈ rs /\ r_entity_id x = eid r /\ r_kind x = rkind r /\ bucket_emptied x = true /\ r_entity_index x = idx r /\ r_engine_serial x = ser r;
}.

Lemma represents_remove_all h rows ids :
  represents h rows ->
  exists h' rs, remove_all h ids = (h', rs) /\ represents h' (spec_remove_all rows ids) /\ removal_report rows (spec_remove_all rows ids) rs.
Proof.
  revert h rows. induction ids as [|id ids IH]; intros h rows Hrep.
  { exists h, []. assert (spec_remove_all rows [] = rows) as ->.
    { apply filterb_true. intros r _. unfold listed. rewrite bool_decide_eq_false_2; [done|]. apply not_elem_of_nil. }
    split; [done|]. split; [done|]. constructor; [by intros ? ?%elem_of_nil|]. intros r Hr Hn.
    assert (r ∈ rows_at rows (eid r) (rkind r)) as Hin by by apply elem_of_rows_at. rewrite Hn in Hin. by apply elem_of_nil in Hin. }
  rewrite spec_remove_all_cons. cbn [remove_all]. destruct (find (fun r => rid r =? id) rows) as [r|] eqn:Ef.
  - pose proof Hrep as [Hw _ _ _ _ _ _ _]. apply find_id in Ef as [Hr <-]; [|apply Hw].
    destruct (represents_remove h rows r Hrep Hr) as (h1 & E1 & Hrep1). rewrite E1.
    destruct (IH h1 _ Hrep1) as (h2 & rs & E2 & Hrep2 & [Hkn Hem]). rewrite E2. eexists _, _. split; [done|]. split; [done|].
    constructor.
    + intros x [->|Hx]%elem_of_cons; [by exists r|]. destruct (Hkn x Hx) as (r' & Hr' & ?). exists r'. split; [|done].
      by apply elem_of_filterb in Hr' as [_ ?].
    + intros r' Hr' Hn. destruct (rows_at (spec_remove rows (rid r)) (eid r') (rkind r')) as [|r0 l0] eqn:E0.
      * assert (eid r' = eid r /\ rkind r' = rkind r) as [He Hk].
        { destruct (decide (rid r' = rid r)) as [Hid|Hne].
          { assert (r' = r) as -> by (by apply (key_lt_inj rid rows); [apply Hw|..]). done. }
          assert (r' ∈ rows_at (spec_remove rows (rid r)) (eid r') (rkind r')) as Hin; [|by rewrite E0 in Hin; apply elem_of_nil in Hin].
          apply elem_of_rows_at. split; [|done]. apply elem_of_filterb. split; [|done]. by apply negb_true_iff, Z.eqb_neq. }
        destruct (wo_coords _ Hw r r' Hr Hr') as [<- <-]; [congruence..|].
        eexists. split; [left|]. cbn. rewrite He, Hk in E0 |- *. by rewrite E0.
      * assert (r0 ∈ rows_at (spec_remove rows (rid r)) (eid r') (rkind r')) as (Hin & He & Hk)%elem_of_rows_at by (rewrite E0; in_list).
        rewrite <- He, <- Hk in Hn. destruct (Hem r0 Hin Hn) as (x & Hx & Hxe & Hxk & Hxb & Hxi & Hxs).
        apply elem_of_filterb in Hin as [_ Hin]. destruct (wo_coords _ Hw r0 r' Hin Hr') as [Hi Hs]; [done..|].
        exists x. split; [by right|]. repeat split; congruence.
  - rewrite find_id_None in Ef. rewrite (remove_sub_absent h rows id Hrep Ef), (spec_remove_absent rows id Ef).
    destruct (IH h _ Hrep) as (h2 & rs & E2 & Hrep2 & Hreport). rewrite E2. by exists h2, rs.
Qed.

(** ** The entities with an engine detour *)

Definition detoured (k : string) : Prop := vp_kind k <> None.
Definition triple (r : Row) : Z * Z * Z := (rid r, idx r, ser r).

Lemma head_min (g : Row -> bool) rows r :
  StronglySorted (key_lt rid) rows ->
  head (filterb g rows) = Some r <-> r ∈ rows /\ g r = true /\ forall r', r' ∈ rows -> g r' = true -> rid r <= rid r'.
Proof.
  intros Hs. split.
  - intros Hh. assert (r ∈ filterb g rows) as [Hg Hr]%elem_of_filterb by by apply head_Some_elem_of. split; [done|]. split; [done|].
    intros r' Hr' Hg'. assert (r' ∈ filterb g rows) as Hin by by apply elem_of_filterb.
    assert (StronglySorted (key_lt rid) (filterb g rows)) as Hsf by (eapply key_lt_sublist; [apply filterb_sublist|done]).
    destruct (filterb g rows) as [|f l]; [done|]. injection Hh as ->. apply StronglySorted_inv in Hsf as [_ Hf]. rewrite Forall_forall in Hf.
    apply elem_of_cons in Hin as [->|Hin]; [lia|]. specialize (Hf r' Hin). unfold key_lt in Hf. lia.
  - intros (Hr & Hg & Hmin). assert (r ∈ filterb g rows) as Hin by by apply elem_of_filterb.
    assert (StronglySorted (key_lt rid) (filterb g rows)) as Hsf by (eapply key_lt_sublist; [apply filterb_sublist|done]).
    destruct (filterb g rows) as [|f l] eqn:E; [by apply elem_of_nil in Hin|]. cbn. f_equal.
    assert (f ∈ filterb g rows) as [Hgf Hf]%elem_of_filterb by (rewrite E; in_list). specialize (Hmin f Hf Hgf).
    apply elem_of_cons in Hin as [->|Hin]; [done|]. apply StronglySorted_inv in Hsf as [_ Hl]. rewrite Forall_forall in Hl.
    specialize (Hl r Hin). unfold key_lt in Hl. lia.
Qed.

Lemma elem_of_vp_firsts rows r :
  StronglySorted (key_lt rid) rows ->
  r ∈ vp_firsts rows <-> r ∈ rows /\ detoured (rkind r) /\ forall r', r' ∈ rows -> eid r' = eid r -> detoured (rkind r') -> rid r <= rid r'.
Proof.
  intros Hs. unfold vp_firsts, detoured. rewrite elem_of_filterb.
  assert (forall r', same_detoured r r' = true <-> eid r' = eid r /\ vp_kind (rkind r') <> None) as Hsd.
  { intros r'. unfold same_detoured. rewrite andb_true_iff, Z.eqb_eq. destruct (vp_kind (rkind r')); naive_solver. }
  split.
  - intros [Hv Hr]. destruct (vp_kind (rkind r)) eqn:Ev; [|done]. apply is_first_head, head_min in Hv as (_ & _ & Hmin); [|done..].
    split; [done|]. split; [done|]. intros. apply Hmin; [done|]. by apply Hsd.
  - intros (Hr & Hv & Hmin). split; [|done]. destruct (vp_kind (rkind r)) eqn:Ev; [|done].
    apply is_first_head; [done..|]. apply head_min; [done|]. split; [done|]. split; [apply Hsd; by rewrite Ev|].
    intros r' Hr' [? ?]%Hsd. by apply Hmin.
Qed.

Lemma earliest_Some l t : earliest l = Some t -> t ∈ l /\ forall t', t' ∈ l -> t.1.1 <= t'.1.1.
Proof.
  destruct l as [|x l]; [done|]. cbn. intros [= <-]. assert (forall l x,
    let m := foldl (fun cur c : Z * Z * Z => if c.1.1 <? cur.1.1 then c else cur) x l in
    (m = x \/ m ∈ l) /\ m.1.1 <= x.1.1 /\ forall t', t' ∈ l -> m.1.1 <= t'.1.1) as Hf.
  { clear. induction l as [|y l IH]; intros x; cbn.
    - split; [by left|]. split; [lia|]. by intros ? ?%elem_of_nil.
    - destruct (y.1.1 <? x.1.1) eqn:E; bool_to_prop; destruct (IH (if y.1.1 <? x.1.1 then y else x)) as (Hm & Hx & Hl);
        [replace (y.1.1 <? x.1.1) with true in * by (symmetry; by apply Z.ltb_lt)|replace (y.1.1 <? x.1.1) with false in * by (symmetry; by apply Z.ltb_ge)];
        (split; [destruct Hm as [->|]; in_list|]); (split; [lia|]); intros t' [->|Ht]%elem_of_cons; auto; lia. }
  destruct (Hf l x) as (Hm & Hx & Hl). split; [destruct Hm as [->|]; in_list|].
  intros t' [->|Ht]%elem_of_cons; [done|by apply Hl].
Qed.

Lemma elem_of_firsts_of h rows e kinds t :
  represents h rows -> buckets h !! e = Some kinds ->
  t ∈ firsts_of kinds <-> exists k r, detoured k /\ head (rows_at rows e k) = Some r /\ t = triple r.
Proof.
  intros Hrep He. unfold firsts_of. rewrite list_elem_of_omap.
  assert (forall k, kinds !! k = bucket_of (rows_at rows e k)) as Hk.
  { intros k. rewrite <- (rep_bucket _ _ Hrep). unfold bucket. by rewrite He. }
  split.
  - intros ([k b] & Hin%elem_of_map_to_list & Ht). cbn in Ht. rewrite Hk in Hin. unfold detoured.
    destruct (vp_kind k) eqn:Ev; [|done]. destruct (rows_at rows e k) as [|r l] eqn:Er; [done|]. cbn in Hin. simplify_eq/=.
    exists k, r. by rewrite Ev, Er.
  - intros (k & r & Hv & Hr & ->). unfold detoured in Hv. destruct (rows_at rows e k) as [|r' l] eqn:Er; [done|]. injection Hr as ->.
    exists (k, mkBucket (idx r) (ser r) (ent <$> r :: l)). rewrite elem_of_map_to_list, Hk, Er. split; [done|]. cbn.
    by destruct (vp_kind k).
Qed.

Lemma elem_of_earliest h rows e kinds t :
  represents h rows -> buckets h !! e = Some kinds ->
  earliest (firsts_of kinds) = Some t <-> exists r, r ∈ vp_firsts rows /\ eid r = e /\ t = triple r.
Proof.
  intros Hrep He. pose proof (wo_sorted _ (rep_rows _ _ Hrep)) as Hs.
  assert (forall r', r' ∈ rows -> eid r' = e -> detoured (rkind r') -> exists f, triple f ∈ firsts_of kinds /\ rid f <= rid r') as Hbelow.
  { intros r' Hr' He' Hv'. destruct (head (rows_at rows e (rkind r'))) as [f|] eqn:Ef.
    - exists f. split; [by eapply elem_of_firsts_of; eauto|]. apply head_min in Ef as (_ & _ & Hmin); [|done].
      apply Hmin; [done|]. by apply of_bucket_true.
    - assert (r' ∈ rows_at rows e (rkind r')) as Hin by (by apply elem_of_rows_at). destruct (rows_at _ _ _); [by apply elem_of_nil in Hin|done]. }
  assert (forall t, earliest (firsts_of kinds) = Some t -> exists r, r ∈ vp_firsts rows /\ eid r = e /\ t = triple r) as Hto.
  { clear t. intros t [Ht Hmin]%earliest_Some. eapply elem_of_firsts_of in Ht as (k & r & Hv & Hr & ->); [|done..].
    pose proof Hr as (Hin & Hre & Hrk)%head_Some_elem_of%elem_of_rows_at. exists r. split; [|done]. apply elem_of_vp_firsts; [done|].
    split; [done|]. split; [by rewrite Hrk|]. intros r' Hr' He' Hv'. destruct (Hbelow r' Hr') as (f & Hf & Hle); [congruence|done|].
    specialize (Hmin _ Hf). cbn in Hmin. lia. }
  split; [apply Hto|]. intros (r & Hr & Hre & ->). destruct (earliest (firsts_of kinds)) as [t|] eqn:E.
  - destruct (Hto t eq_refl) as (r' & Hr' & Hre' & ->). apply elem_of_vp_firsts in Hr as (Hr & Hv & Hmin), Hr' as (Hr' & Hv' & Hmin'); [|done..].
    assert (rid r = rid r') as Hid. { specialize (Hmin r' Hr'). specialize (Hmin' r Hr). assert (eid r' = eid r) by congruence. apply Z.le_antisymm; auto. }
    by rewrite (key_lt_inj rid rows r r').
  - apply elem_of_vp_firsts in Hr as (Hr & Hv & _); [|done]. destruct (Hbelow r Hr Hre Hv) as (f & Hf & _).
    destruct (firsts_of kinds); [by apply elem_of_nil in Hf|done].
Qed.

#[local] Instance by_first_trans : Transitive by_first.
Proof. unfold by_first. intros x y z. lia. Qed.
#[local] Instance by_first_total : Total by_first.
Proof. unfold by_first. intros x y. lia. Qed.

Lemma vp_entities_of h rows :
  represents h rows -> vp_entities_in_registration_order h = (fun r => (idx r, ser r)) <$> vp_firsts rows.
Proof.
  intros Hrep. pose proof (wo_sorted _ (rep_rows _ _ Hrep)) as Hs. unfold vp_entities_in_registration_order.
  set (T := omap _ _). assert (StronglySorted (key_lt rid) (vp_firsts rows)) as Hsf by (eapply key_lt_sublist; [apply filterb_sublist|done]).
  assert (merge_sort by_first T = triple <$> vp_firsts rows) as ->; [|by rewrite <- list_fmap_compose].
  assert (forall t, t ∈ T <-> t ∈ triple <$> vp_firsts rows) as Hin.
  { intros t. unfold T. rewrite list_elem_of_omap, list_elem_of_fmap. split.
    - intros ([e kinds] & Hek%elem_of_map_to_list & Ht). eapply elem_of_earliest in Ht as (r & Hr & _ & ->); [|done..]. by exists r.
    - intros (r & -> & Hr). pose proof Hr as (Hrr & _ & _)%elem_of_vp_firsts; [|done].
      destruct (buckets h !! eid r) as [kinds|] eqn:E.
      + exists (eid r, kinds). rewrite elem_of_map_to_list. split; [done|]. eapply elem_of_earliest; eauto.
      + pose proof (rep_bucket _ _ Hrep (eid r) (rkind r)) as Hb. unfold bucket in Hb. rewrite E in Hb. cbn in Hb.
        assert (r ∈ rows_at rows (eid r) (rkind r)) as Hi by by apply elem_of_rows_at. destruct (rows_at _ _ _); [by apply elem_of_nil in Hi|done]. }
  assert (forall r r', r ∈ vp_firsts rows -> r' ∈ vp_firsts rows -> rid r = rid r' -> r = r') as Hinj by (intros; by apply (key_lt_inj rid (vp_firsts rows))).
  apply (StronglySorted_unique_strong by_first).
  - intros t t'. rewrite merge_sort_Permutation, Hin. intros (r & -> & Hr)%list_elem_of_fmap (r' & -> & Hr')%list_elem_of_fmap.
    unfold by_first, triple. cbn. intros. by rewrite (Hinj r r') by (done || lia).
  - apply (StronglySorted_merge_sort _).
  - clear -Hsf. induction Hsf as [|r l _ IH Hr]; csimpl; constructor; [done|]. rewrite Forall_fmap. eapply Forall_impl; [done|].
    intros r' Hlt. unfold key_lt in Hlt. unfold by_first. cbn. lia.
  - rewrite merge_sort_Permutation. apply NoDup_Permutation; [|apply NoDup_fmap_2_strong; [|by eapply key_lt_NoDup_elems]|done].
    + apply NoDup_omap_inj; [apply NoDup_map_to_list|]. intros [e kinds] [e' kinds'] t Hx%elem_of_map_to_list Hy%elem_of_map_to_list Hex Hey.
      apply (elem_of_earliest h rows e kinds t Hrep Hx) in Hex as (r & Hr & <- & ->).
      apply (elem_of_earliest h rows e' kinds' _ Hrep Hy) in Hey as (r' & Hr' & <- & Ht).
      injection Ht as Hid _ _. assert (r' = r) as -> by by apply Hinj. rewrite Hx in Hy. by injection Hy as ->.
    + intros r r' Hr Hr' [= Hid _ _]. by apply Hinj.
Qed.

(** ** Runs of the natives and teardowns *)

Variable handler_eqb : Fn -> Fn -> bool.
Notation Op := (Op (Fn := Fn)).
Notation step := (step handler_eqb).
Notation run := (run handler_eqb).
Implicit Types op : Op.

Definition is_detoured (k : string) : bool := match vp_kind k with Some _ => true | None => false end.
Definition no_rows (rows : list Row) (e : Z) (k : string) : bool := match rows_at rows e k with [] => true | _ => false end.
Definition handled_by (o : string) (f : Fn) (r : Row) : bool := String.eqb (owner (ent r)) o && handler_eqb (handler (ent r)) f.

Definition spec_step (rows : list Row) (n : Z) (op : Op) : list Row * Z * bool :=
  match op with
  | Hook index e serial k o gen f added =>
      match serial with
      | Some serial =>
          if is_known_kind k && (negb (is_detoured k) || negb (no_rows rows e k) || added)
          then (spec_insert rows e index serial k (mkEntry o gen f n), n + 1, true)
          else (rows, n, false)
      | None => (rows, n, false)
      end
  | Unhook e k o f =>
      match find (handled_by o f) (rows_at rows e k) with
      | Some r => (spec_remove rows (rid r), n, true)
      | None => (rows, n, false)
      end
  | Unload o => (filterb (fun r => negb (owned o r)) rows, n, true)
  | Dispose ids => (spec_remove_all rows ids, n, true)
  | EntityGone e => (filterb (fun r => negb (on_entity e r)) rows, n, true)
  | MapChange => ([], n, true)
  | OtherSubscription => (rows, n + 1, true)
  end.

Fixpoint spec_run (rows : list Row) (n : Z) (ops : list Op) : list Row * list bool :=
  match ops with
  | [] => (rows, [])
  | op :: ops =>
      let '(rows, n, ok) := spec_step rows n op in
      let '(rows, oks) := spec_run rows n ops in
      (rows, ok :: oks)
  end.

Record agree (w : Host (Fn := Fn)) (rows : list Row) (n : Z) : Prop := mkAgree {
  ag_store : represents (store w) rows;
  ag_next : next w = n;
  ag_ids : forall r, r ∈ rows -> rid r < n;
  ag_len : Z.of_nat (length rows) < n;
}.

Lemma spec_remove_all_group (g : Row -> bool) rows :
  StronglySorted (key_lt rid) rows -> spec_remove_all rows (rid <$> filterb g rows) = filterb (fun r => negb (g r)) rows.
Proof.
  intros Hs. apply filterb_ext. intros r Hr. f_equal. unfold listed. destruct (g r) eqn:E.
  - apply bool_decide_eq_true_2, list_elem_of_fmap_2. by apply elem_of_filterb.
  - apply bool_decide_eq_false_2. intros (r' & Hid & [Hg Hr']%elem_of_filterb)%list_elem_of_fmap.
    rewrite (key_lt_inj rid rows r r') in E by done. congruence.
Qed.

Lemma remove_subscriptions_rows h rows ids :
  represents h rows -> represents (remove_subscriptions h ids).1 (spec_remove_all rows ids).
Proof. intros Hrep. unfold remove_subscriptions. by destruct (represents_remove_all h rows ids Hrep) as (h' & rs & -> & ? & _). Qed.

Lemma owner_subscriptions_of h rows o : represents h rows -> owner_subscriptions h o = rid <$> filterb (owned o) rows.
Proof. intros Hrep. unfold owner_subscriptions. by rewrite (rep_owner _ _ Hrep), default_nonempty. Qed.

Lemma entity_subscriptions_of h rows e : represents h rows -> entity_subscriptions h e = rid <$> filterb (on_entity e) rows.
Proof. intros Hrep. unfold entity_subscriptions. by rewrite (rep_entity _ _ Hrep), default_nonempty. Qed.

Lemma find_sub_id_of h rows e k o f :
  represents h rows ->
  find_sub_id h e k (fun en => String.eqb (owner en) o && handler_eqb (handler en) f) = rid <$> find (handled_by o f) (rows_at rows e k).
Proof.
  intros Hrep. unfold find_sub_id. rewrite (rep_bucket _ _ Hrep).
  assert (forall l : list Row, sub_id <$> find (fun en => String.eqb (owner en) o && handler_eqb (handler en) f) (ent <$> l) = rid <$> find (handled_by o f) l) as Hf.
  { induction l as [|r l IH]; [done|]. cbn. fold (handled_by o f r). by destruct (handled_by o f r). }
  destruct (rows_at rows e k) as [|r l] eqn:E; [done|]. apply (Hf (r :: l)).
Qed.

Lemma agree_shrink w rows n h' g :
  agree w rows n -> represents h' (filterb g rows) -> agree (mkHost h' (next w)) (filterb g rows) n.
Proof.
  intros [Hs Hn Hi Hl] Hrep. constructor; [done|done| |].
  - intros r [_ Hr]%elem_of_filterb. by apply Hi.
  - pose proof (filterb_length_le g rows). lia.
Qed.

Lemma step_hook w rows n i e serial k o gen f added :
  agree w rows n -> n < u64_max ->
  let '(w', ok, _) := step w (Hook i e serial k o gen f added) in
  let '(rows', n', ok') := spec_step rows n (Hook i e serial k o gen f added) in
  ok = ok' /\ agree w' rows' n'.
Proof.
  intros Hag Hn. pose proof Hag as [Hrep Hnx Hids Hlen]. cbn [step spec_step]. unfold sdkhook. destruct serial as [s|]; [|by destruct w].
  rewrite (has_of _ _ _ _ Hrep). fold (no_rows rows e k). unfold is_detoured.
  assert (agree (mkHost (insert (store w) e i s k (mkEntry o gen f (next w))) (u64_succ (next w)))
    (spec_insert rows e i s k (mkEntry o gen f n)) (n + 1)) as Hins.
  { rewrite Hnx. assert (0 <= n) by lia. rewrite u64_succ_small by lia. pose proof (represents_insert (store w) rows e i s k (mkEntry o gen f n) Hrep) as Hr.
    destruct (spec_insert_snoc rows e i s k (mkEntry o gen f n) (rep_rows _ _ Hrep)) as (r & Er & _ & _ & Een & _); [lia|done|].
    constructor; [apply Hr; [lia|done]|done| |].
    - rewrite Er. intros x [Hx| ->%list_elem_of_singleton]%elem_of_app; [specialize (Hids x Hx); lia|]. unfold rid. rewrite Een. cbn. lia.
    - rewrite Er, length_app. cbn. lia. }
  destruct (is_known_kind k); cbn [negb andb]; [|by destruct w].
  unfold no_rows. destruct (vp_kind k) as [[t p]|]; cbn [negb orb andb]; [|done].
  destruct (rows_at rows e k); cbn [negb orb andb]; [|done]. destruct added; cbn [negb orb andb]; [done|by destruct w].
Qed.

Lemma step_agree w rows n op :
  agree w rows n -> n < u64_max ->
  let '(w', ok, _) := step w op in let '(rows', n', ok') := spec_step rows n op in ok = ok' /\ agree w' rows' n'.
Proof.
  intros Hag Hn. pose proof Hag as [Hrep Hnx Hids Hlen]. pose proof (wo_sorted _ (rep_rows _ _ Hrep)) as Hs.
  destruct op as [i e serial k o gen f added|e k o f|o|ids|e| |]; [by apply step_hook|cbn [step spec_step]..].
  - unfold sdkunhook. rewrite (find_sub_id_of _ _ _ _ _ _ Hrep). destruct (find _ _) as [r|]; cbn; [|by destruct w].
    pose proof (remove_subscriptions_rows (store w) rows [rid r] Hrep) as Hr. rewrite spec_remove_all_cons in Hr.
    assert (spec_remove_all (spec_remove rows (rid r)) [] = spec_remove rows (rid r)) as Ee by (apply filterb_true; intros; unfold listed; by rewrite bool_decide_eq_false_2 by apply not_elem_of_nil).
    rewrite Ee in Hr. destruct (remove_subscriptions _ _) as [h' calls]. split; [done|]. by apply (agree_shrink w rows n h').
  - unfold drop_owner. rewrite (owner_subscriptions_of _ _ _ Hrep).
    pose proof (remove_subscriptions_rows (store w) rows (rid <$> filterb (owned o) rows) Hrep) as Hr.
    rewrite spec_remove_all_group in Hr by done. destruct (remove_subscriptions _ _) as [h' calls]. split; [done|]. by apply (agree_shrink w rows n h').
  - pose proof (remove_subscriptions_rows (store w) rows ids Hrep) as Hr.
    destruct (remove_subscriptions _ _) as [h' calls]. split; [done|]. by apply (agree_shrink w rows n h').
  - unfold drop_entity. rewrite (entity_subscriptions_of _ _ _ Hrep).
    destruct (represents_remove_all (store w) rows (rid <$> filterb (on_entity e) rows) Hrep) as (h' & rs & -> & Hr & _).
    rewrite spec_remove_all_group in Hr by done. split; [done|]. by apply (agree_shrink w rows n h').
  - unfold drop_all. split; [done|]. constructor; [apply represents_new|done|by intros ? ?%elem_of_nil|cbn; lia].
  - split; [done|]. rewrite Hnx, u64_succ_small by lia. constructor; [done|done|intros r Hr; specialize (Hids r Hr); lia|lia].
Qed.

Lemma spec_next_le rows n op : n <= (spec_step rows n op).1.2 <= n + 1.
Proof. destruct op; cbn; repeat case_split; cbn; lia. Qed.

Lemma run_agree ops w rows n :
  agree w rows n -> n + Z.of_nat (length ops) <= u64_max ->
  let '(w', oks, _) := run w ops in let '(rows', oks') := spec_run rows n ops in oks = oks' /\ exists n', agree w' rows' n'.
Proof.
  revert w rows n. induction ops as [|op ops IH]; intros w rows n Hag Hn; cbn [run spec_run]; [by eauto|].
  cbn [length] in Hn. pose proof (step_agree w rows n op Hag ltac:(lia)) as Hst. pose proof (spec_next_le rows n op) as Hn1.
  destruct (step w op) as [[w1 ok] calls], (spec_step rows n op) as [[rows1 n1] ok1]. destruct Hst as [<- Hag1]. cbn in Hn1.
  specialize (IH w1 rows1 n1 Hag1 ltac:(lia)). destruct (run w1 ops) as [[w2 oks] calls'], (spec_run rows1 n1 ops) as [rows2 oks2].
  by destruct IH as [<- ?].
Qed.

Lemma agree_init : agree init [] 1.
Proof. constructor; [apply represents_new|done|by intros ? ?%elem_of_nil|done]. Qed.

Definition coords_of (r : Row) : Z * Z := (idx r, ser r).
Definition seen (r : Row) : string * Z * Fn := (owner (ent r), generation (ent r), handler (ent r)).

(** What the host reads of the store, in terms of the list of hooks. *)
Record reads (h : HookStore) (rows : list Row) : Prop := mkReads {
  read_snapshot : forall e k, snapshot h e k = seen <$> rows_at rows e k;
  read_owner : forall o, owner_subscriptions h o = rid <$> filterb (owned o) rows;
  read_entity : forall e, entity_subscriptions h e = rid <$> filterb (on_entity e) rows;
  read_active : forall k, kind_active h k = existsb (of_kind k) rows;
  read_kind_entities : forall k, kind_entities h k = coords_of <$> firsts rows k;
  read_vp_entities : vp_entities_in_registration_order h = coords_of <$> vp_firsts rows;
}.

Lemma represents_reads h rows : represents h rows -> reads h rows.
Proof.
  intros Hrep. constructor.
  - intros e k. unfold snapshot. rewrite (rep_bucket _ _ Hrep). destruct (rows_at rows e k) as [|r l]; [done|]. cbn [bucket_of entries].
    by rewrite <- list_fmap_compose.
  - intros o. by apply owner_subscriptions_of.
  - intros e. by apply entity_subscriptions_of.
  - intros k. unfold kind_active. rewrite (rep_count _ _ Hrep), count_of_default.
    destruct (existsb (of_kind k) rows) eqn:E.
    + apply negb_true_iff, Z.eqb_neq. rewrite countb_0_iff. apply existsb_elem in E as (r & Hr & Hk). intros Hn. by rewrite (Hn r Hr) in Hk.
    + apply negb_false_iff, Z.eqb_eq, countb_0_iff. by apply existsb_none.
  - intros k. unfold kind_entities. rewrite (rep_entities _ _ Hrep), default_nonempty. by rewrite <- list_fmap_compose.
  - by apply vp_entities_of.
Qed.

(** C7. A run of hooks, unhooks, unloads, scope disposals, entity deletions and map changes answers, and
    leaves in every index of the store, exactly what the list of hooks in the order they were made says. *)
Theorem sdk_store_refines (ops : list Op) :
  1 + Z.of_nat (length ops) <= u64_max ->
  let '(w, oks, _) := run init ops in let '(rows, oks') := spec_run [] 1 ops in oks = oks' /\ reads (store w) rows.
Proof.
  intros Hn. pose proof (run_agree ops init [] 1 agree_init Hn) as Hr.
  destruct (run init ops) as [[w oks] calls], (spec_run [] 1 ops) as [rows oks']. destruct Hr as (Ho & n' & Hag).
  split; [done|]. by apply represents_reads, ag_store with n'.
Qed.

(** ** The engine's detours *)

(** The virtual functions the engine has hooked, as the calls leave them: entity index and serial, type, post. *)
Definition Detour : Type := Z * Z * string * Z.
Definition engine_apply (E : gset Detour) (c : EngineCall) : gset Detour :=
  match c with
  | VpAdd i s t p => {[(i, s, t, p)]} ∪ E
  | VpRemove i s t p => E ∖ {[(i, s, t, p)]}
  | VpDrop i s => filter (fun d : Detour => d.1.1 <> (i, s)) E
  end.
Definition engine_after (calls : list EngineCall) (E : gset Detour) : gset Detour := foldl engine_apply E calls.

Definition detour_of (r : Row) : option Detour := (fun tp : string * Z => (idx r, ser r, tp.1, tp.2)) <$> vp_kind (rkind r).

(** An entity id determines the entity's index and engine serial, and is determined by them. *)
Variable coords : Z -> Z * Z.
Hypothesis coords_inj : forall e e', coords e = coords e' -> e = e'.

Definition op_placed op : Prop :=
  match op with Hook i e (Some s) _ _ _ _ _ => coords e = (i, s) | _ => True end.
Definition placed (rows : list Row) : Prop := forall r, r ∈ rows -> coords (eid r) = coords_of r.
Definition installed (E : gset Detour) (rows : list Row) : Prop := forall d, d ∈ E <-> exists r, r ∈ rows /\ detour_of r = Some d.

Lemma vp_kind_arm k tp : vp_kind k = Some tp -> (k, tp) ∈ vp_arms.
Proof.
  unfold vp_kind. intros ([k' tp'] & [Hin E]%List.find_some & ->)%fmap_Some. cbn in E. apply String.eqb_eq in E as <-. by apply list_elem_of_In.
Qed.

(** No two kinds use the same engine detour. *)
Lemma vp_kind_inj k k' tp : vp_kind k = Some tp -> vp_kind k' = Some tp -> k = k'.
Proof.
  intros Hk%vp_kind_arm Hk'%vp_kind_arm.
  assert (forallb (fun a => forallb (fun b => negb (String.eqb a.2.1 b.2.1 && (a.2.2 =? b.2.2)) || String.eqb a.1 b.1) vp_arms) vp_arms = true) as Hall by (vm_compute; reflexivity).
  rewrite forallb_elem in Hall. specialize (Hall _ Hk). cbn beta in Hall. rewrite forallb_elem in Hall. specialize (Hall _ Hk').
  cbn in Hall. rewrite String.eqb_refl, Z.eqb_refl in Hall. cbn in Hall. by apply String.eqb_eq.
Qed.

Lemma detour_row r r' d : coords (eid r) = coords_of r -> coords (eid r') = coords_of r' -> detour_of r = Some d -> detour_of r' = Some d -> eid r = eid r' /\ rkind r = rkind r'.
Proof.
  unfold detour_of, coords_of. intros Hc Hc' ([t p] & Ht & ->)%fmap_Some ([t' p'] & Ht' & Hd)%fmap_Some. cbn in Hd. simplify_eq.
  split; [apply coords_inj; congruence|]. by eapply vp_kind_inj.
Qed.

Lemma placed_filterb g rows : placed rows -> placed (filterb g rows).
Proof. intros Hp r [_ Hr]%elem_of_filterb. by apply Hp. Qed.

(** A trace of removals takes away the detours it names. *)
Lemma engine_removes calls E d :
  Forall (fun c => exists i s t p, c = VpRemove i s t p) calls ->
  d ∈ engine_after calls E <-> d ∈ E /\ VpRemove d.1.1.1 d.1.1.2 d.1.2 d.2 ∉ calls.
Proof.
  intros Hc. revert E. induction Hc as [|c calls (i & s & t & p & ->) _ IH]; intros E; cbn.
  - split; [|tauto]. intros. split; [done|]. apply not_elem_of_nil.
  - change (d ∈ engine_after calls (engine_apply E (VpRemove i s t p)) <-> d ∈ E /\ VpRemove d.1.1.1 d.1.1.2 d.1.2 d.2 ∉ VpRemove i s t p :: calls).
    rewrite IH. cbn. rewrite elem_of_difference, elem_of_singleton, not_elem_of_cons. destruct d as [[[i' s'] t'] p']. cbn.
    split; [intros [[? Hn] ?]|intros [? [Hn ?]]]; repeat split; try done; intros [=]; apply Hn; by simplify_eq.
Qed.

Lemma installed_remove h rows ids E :
  represents h rows -> placed rows -> installed E rows ->
  installed (engine_after (remove_subscriptions h ids).2 E) (spec_remove_all rows ids).
Proof.
  intros Hrep Hpl HE. unfold remove_subscriptions.
  destruct (represents_remove_all h rows ids Hrep) as (h' & rs & -> & Hrep' & [Hknown Hem]). cbn [snd].
  set (rows' := spec_remove_all rows ids) in *. set (calls := flat_map _ rs).
  assert (forall c, c ∈ calls <-> exists x, x ∈ rs /\ bucket_emptied x = true /\ c ∈ unhook_vp_if_last h' x) as Hin.
  { intros c. unfold calls. rewrite list_elem_of_In, in_flat_map. setoid_rewrite <- list_elem_of_In. split.
    - intros (x & Hx & Hc). destruct (bucket_emptied x) eqn:Eb; [by exists x|by apply elem_of_nil in Hc].
    - intros (x & Hx & Hb & Hc). exists x. by rewrite Hb. }
  assert (forall x, has h' (r_entity_id x) (r_kind x) = negb (no_rows rows' (r_entity_id x) (r_kind x))) as Hhas.
  { intros x. rewrite (has_of _ _ _ _ Hrep'). unfold no_rows. by destruct (rows_at rows' _ _). }
  intros d. rewrite engine_removes.
  2: { apply Forall_forall. intros c (x & _ & _ & Hc)%Hin. unfold unhook_vp_if_last in Hc. destruct (vp_kind _) as [[t p]|]; [|by apply elem_of_nil in Hc].
       destruct (has _ _ _); [by apply elem_of_nil in Hc|]. apply list_elem_of_singleton in Hc. eauto. }
  rewrite (HE d). split.
  - intros [(r & Hr & Hd) Hnot]. destruct (rows_at rows' (eid r) (rkind r)) as [|r' l'] eqn:E'.
    + exfalso. apply Hnot, Hin. destruct (Hem r Hr E') as (x & Hx & Hxe & Hxk & Hxb & Hxi & Hxs). exists x. split; [done|]. split; [done|].
      unfold unhook_vp_if_last. rewrite Hhas, Hxe, Hxk. unfold no_rows. rewrite E'. unfold detour_of in Hd.
      apply fmap_Some in Hd as ([t p] & -> & ->). cbn. rewrite Hxi, Hxs. in_list.
    + assert (r' ∈ rows_at rows' (eid r) (rkind r)) as (Hr' & He & Hk)%elem_of_rows_at by (rewrite E'; in_list). exists r'. split; [done|].
      pose proof Hr' as [_ Hr'']%elem_of_filterb. destruct (wo_coords _ (rep_rows _ _ Hrep) r' r Hr'' Hr He Hk) as [Hi Hs].
      unfold detour_of in *. by rewrite Hk, Hi, Hs.
  - intros (r & Hr & Hd). pose proof Hr as [_ Hr0]%elem_of_filterb. split; [by exists r|].
    intros (x & Hx & _ & Hc)%Hin. destruct (Hknown x Hx) as (r1 & Hr1 & Hxe & Hxk & Hxi & Hxs).
    unfold unhook_vp_if_last in Hc. rewrite Hhas in Hc. destruct (vp_kind (r_kind x)) as [[t p]|] eqn:Ev; [|by apply elem_of_nil in Hc].
    destruct (no_rows rows' (r_entity_id x) (r_kind x)) eqn:En; cbn in Hc; [|by apply elem_of_nil in Hc].
    apply list_elem_of_singleton in Hc. injection Hc as Hd1 Hd2 Hd3 Hd4. assert (detour_of r1 = Some d) as Hd'.
    { unfold detour_of. rewrite <- Hxk, Ev. cbn. rewrite <- Hxi, <- Hxs. rewrite <- Hd1, <- Hd2, <- Hd3, <- Hd4. by destruct d as [[[? ?] ?] ?]. }
    destruct (detour_row r r1 d) as [He Hk]; [by apply Hpl|by apply Hpl|done|done|].
    assert (r ∈ rows_at rows' (r_entity_id x) (r_kind x)) as Hin' by (apply elem_of_rows_at; split; [done|split; congruence]).
    unfold no_rows in En. destruct (rows_at rows' _ _); [by apply elem_of_nil in Hin'|done].
Qed.

Lemma engine_drop E i s d : d ∈ engine_apply E (VpDrop i s) <-> d.1.1 <> (i, s) /\ d ∈ E.
Proof. cbn. by rewrite elem_of_filter. Qed.

Lemma engine_drops E (l : list (Z * Z)) d :
  d ∈ engine_after ((fun p => VpDrop p.1 p.2) <$> l) E <-> d ∈ E /\ d.1.1 ∉ l.
Proof.
  revert E. induction l as [|[i s] l IH]; intros E; cbn.
  - split; [|tauto]. intros. split; [done|]. apply not_elem_of_nil.
  - change (d ∈ engine_after ((fun p => VpDrop p.1 p.2) <$> l) (engine_apply E (VpDrop i s)) <-> d ∈ E /\ d.1.1 ∉ (i, s) :: l).
    rewrite IH, engine_drop, not_elem_of_cons. tauto.
Qed.

Lemma detour_coords r d : detour_of r = Some d -> d.1.1 = coords_of r.
Proof. unfold detour_of. by intros (tp & _ & ->)%fmap_Some. Qed.

Lemma installed_drop_entity h rows e E :
  represents h rows -> placed rows -> installed E rows ->
  installed (engine_after (drop_entity h e).2 E) (filterb (fun r => negb (on_entity e r)) rows).
Proof.
  intros Hrep Hpl HE. unfold drop_entity. rewrite (entity_subscriptions_of _ _ _ Hrep). cbn [snd].
  pose proof (wo_sorted _ (rep_rows _ _ Hrep)) as Hs.
  assert (forall d, (d ∈ E /\ d.1.1 <> coords e) <-> exists r, r ∈ filterb (fun r => negb (on_entity e r)) rows /\ detour_of r = Some d) as Hd.
  { intros d. rewrite (HE d). split.
    - intros [(r & Hr & Hd) Hne]. exists r. split; [|done]. apply elem_of_filterb. split; [|done]. apply negb_true_iff, Z.eqb_neq. intros He.
      apply Hne. by rewrite (detour_coords _ _ Hd), <- He, (Hpl r Hr).
    - intros (r & [Hn Hr]%elem_of_filterb & Hd). split; [by exists r|]. rewrite (detour_coords _ _ Hd), <- (Hpl r Hr). intros He%coords_inj.
      apply negb_true_iff, Z.eqb_neq in Hn. done. }
  destruct (filterb (on_entity e) rows) as [|r l] eqn:El; cbn [fmap list_fmap head mbind option_bind].
  - intros d. rewrite <- Hd. cbn. split; [|tauto]. intros HdE. split; [done|]. apply HE in HdE as (r & Hr & Hdr). rewrite (detour_coords _ _ Hdr), <- (Hpl r Hr).
    rewrite filterb_nil_iff in El. intros He%coords_inj. specialize (El r Hr). unfold on_entity in El. bool_to_prop. done.
  - assert (r ∈ filterb (on_entity e) rows) as [He Hr]%elem_of_filterb by (rewrite El; in_list). apply on_entity_true in He.
    rewrite (rep_sub _ _ Hrep), (proj2 (find_id rows (rid r) r Hs)) by done. cbn [fmap option_fmap option_map mbind option_bind fst snd].
    rewrite (rep_bucket _ _ Hrep). destruct (rows_at rows (eid r) (rkind r)) as [|f fl] eqn:Ef.
    { assert (r ∈ rows_at rows (eid r) (rkind r)) as Hin by by apply elem_of_rows_at. rewrite Ef in Hin. by apply elem_of_nil in Hin. }
    assert (f ∈ rows_at rows (eid r) (rkind r)) as (Hf & Hfe & _)%elem_of_rows_at by (rewrite Ef; in_list).
    cbn [bucket_of mbind option_bind entity_index engine_serial]. intros d.
    change (engine_after _ E) with (engine_apply E (VpDrop (idx f) (ser f))). rewrite engine_drop, <- Hd. fold (coords_of f). rewrite <- (Hpl f Hf), Hfe, He. tauto.
Qed.

Lemma installed_drop_all h rows E :
  represents h rows -> placed rows -> installed E rows -> installed (engine_after (drop_all h).2 E) [].
Proof.
  intros Hrep Hpl HE d. unfold drop_all. cbn [snd]. rewrite engine_drops, (vp_entities_of _ _ Hrep). split.
  - intros [HdE Hn]. exfalso. apply HE in HdE as (r & Hr & Hd). apply Hn. rewrite (detour_coords _ _ Hd). fold coords_of.
    pose proof (wo_sorted _ (rep_rows _ _ Hrep)) as Hs. assert (detoured (rkind r)) as Hv.
    { unfold detoured, detour_of in *. by destruct (vp_kind (rkind r)). }
    destruct (head (filterb (same_detoured r) rows)) as [f|] eqn:Ef.
    + apply head_min in Ef as (Hf & Hg & Hmin); [|done]. unfold same_detoured in Hg. apply andb_true_iff in Hg as [He%Z.eqb_eq Hvf].
      apply list_elem_of_fmap. exists f. split; [|apply elem_of_vp_firsts; [done|]].
      * fold (coords_of f). by rewrite <- (Hpl r Hr), <- (Hpl f Hf), He.
      * split; [done|]. split; [unfold detoured; by destruct (vp_kind (rkind f))|]. intros r' Hr' He' Hv'. apply Hmin; [done|].
        unfold same_detoured, detoured in *. apply andb_true_iff. split; [apply Z.eqb_eq; congruence|]. by destruct (vp_kind (rkind r')).
    + assert (r ∈ filterb (same_detoured r) rows) as Hin.
      { apply elem_of_filterb. split; [|done]. unfold same_detoured, detoured in *. rewrite Z.eqb_refl. by destruct (vp_kind (rkind r)). }
      destruct (filterb _ rows); [by apply elem_of_nil in Hin|done].
  - by intros (r & Hr%elem_of_nil & _).
Qed.

(** Each operation keeps the rows placed and the engine's detours those of the rows. *)
Lemma step_placed rows n op : well_ordered rows -> Z.of_nat (length rows) < u64_max -> (forall r, r ∈ rows -> rid r < n) ->
  op_placed op -> placed rows -> placed (spec_step rows n op).1.1.
Proof.
  intros Hw Hlen Hids Hop Hpl. destruct op as [i e serial k o gen f added|e k o f|o|ids|e| |]; cbn [spec_step].
  - destruct serial as [s|]; [|done]. destruct (is_known_kind k && _); [|done]. cbn [fst] in *.
    destruct (spec_insert_snoc rows e i s k (mkEntry o gen f n) Hw Hlen Hids) as (r & -> & He & Hk & _ & _ & Hco).
    intros x [Hx| ->%list_elem_of_singleton]%elem_of_app; [by apply Hpl|]. cbn in Hop. unfold coords_of.
    destruct (rows_at rows e k) as [|g l] eqn:E; destruct Hco as [-> ->]; [by rewrite He|].
    assert (g ∈ rows_at rows e k) as (Hg & Hge & _)%elem_of_rows_at by (rewrite E; in_list). rewrite He, <- Hge. by apply Hpl.
  - destruct (find _ _); [by apply placed_filterb|done].
  - by apply placed_filterb.
  - by apply placed_filterb.
  - by apply placed_filterb.
  - by intros ? ?%elem_of_nil.
  - done.
Qed.

Lemma installed_snoc E rows r :
  installed E rows -> installed (match detour_of r with Some d => {[d]} ∪ E | None => E end) (rows ++ [r]).
Proof.
  intros HE d. assert ((exists r0, r0 ∈ rows ++ [r] /\ detour_of r0 = Some d) <-> d ∈ E \/ detour_of r = Some d) as ->.
  { rewrite (HE d). setoid_rewrite elem_of_app. setoid_rewrite list_elem_of_singleton. naive_solver. }
  destruct (detour_of r) as [d'|]; [rewrite elem_of_union, elem_of_singleton; naive_solver|naive_solver].
Qed.

Lemma installed_hook w rows n i e s k o gen f added E :
  agree w rows n -> n < u64_max -> coords e = (i, s) -> placed rows -> installed E rows ->
  installed (engine_after (step w (Hook i e (Some s) k o gen f added)).2 E) (spec_step rows n (Hook i e (Some s) k o gen f added)).1.1.
Proof.
  intros [Hrep Hnx Hids Hlen] Hn Hco Hpl HE. cbn [step spec_step]. unfold sdkhook. rewrite (has_of _ _ _ _ Hrep).
  destruct (is_known_kind k); cbn [negb andb]; [|done].
  destruct (spec_insert_snoc rows e i s k (mkEntry o gen f n) (rep_rows _ _ Hrep)) as (r & Er & He & Hk & _ & _ & Hc); [lia|done|].
  pose proof (installed_snoc E rows r HE) as Hsn. rewrite <- Er in Hsn.
  unfold is_detoured, no_rows. destruct (vp_kind k) as [[t p]|] eqn:Ev; cbn [negb orb].
  2: { cbn. unfold detour_of in Hsn. by rewrite Hk, Ev in Hsn. }
  destruct (rows_at rows e k) as [|g l] eqn:El; cbn [negb orb].
  - destruct added; [|done]. cbn. unfold detour_of in Hsn. rewrite Hk, Ev in Hsn. cbn in Hsn. destruct Hc as [Hi Hs]. by rewrite Hi, Hs in Hsn.
  - cbn. assert (g ∈ rows_at rows e k) as (Hg & Hge & Hgk)%elem_of_rows_at by (rewrite El; in_list).
    assert (detour_of r = detour_of g) as Hd. { unfold detour_of. destruct Hc as [-> ->]. by rewrite Hk, Hgk. }
    assert (detour_of g = Some (idx g, ser g, t, p)) as Hdg by (unfold detour_of; by rewrite Hgk, Ev).
    rewrite Hd, Hdg in Hsn. assert ((idx g, ser g, t, p) ∈ E) as Hin by (apply HE; by exists g).
    intros d. rewrite <- (Hsn d), elem_of_union, elem_of_singleton. naive_solver.
Qed.

Lemma step_installed w rows n op E :
  agree w rows n -> n < u64_max -> op_placed op -> placed rows -> installed E rows ->
  installed (engine_after (step w op).2 E) (spec_step rows n op).1.1.
Proof.
  intros Hag Hn Hop Hpl HE. pose proof Hag as [Hrep Hnx Hids Hlen]. pose proof (wo_sorted _ (rep_rows _ _ Hrep)) as Hs.
  destruct op as [i e serial k o gen f added|e k o f|o|ids|e| |].
  - destruct serial as [s|]; [by apply installed_hook|done].
  - cbn [step spec_step]. unfold sdkunhook. rewrite (find_sub_id_of _ _ _ _ _ _ Hrep). destruct (find _ _) as [r|]; cbn [fmap option_fmap option_map]; [|done].
    pose proof (installed_remove (store w) rows [rid r] E Hrep Hpl HE) as Hi. rewrite spec_remove_all_cons in Hi.
    unfold spec_remove_all in Hi. rewrite (filterb_true _ (spec_remove rows (rid r))) in Hi
      by (intros; unfold listed; by rewrite bool_decide_eq_false_2 by apply not_elem_of_nil).
    by destruct (remove_subscriptions _ _).
  - cbn [step spec_step]. unfold drop_owner. rewrite (owner_subscriptions_of _ _ _ Hrep).
    pose proof (installed_remove (store w) rows (rid <$> filterb (owned o) rows) E Hrep Hpl HE) as Hi.
    rewrite spec_remove_all_group in Hi by done. by destruct (remove_subscriptions _ _).
  - cbn [step spec_step]. pose proof (installed_remove (store w) rows ids E Hrep Hpl HE) as Hi. by destruct (remove_subscriptions _ _).
  - cbn [step spec_step]. pose proof (installed_drop_entity (store w) rows e E Hrep Hpl HE) as Hi. by destruct (drop_entity _ _).
  - cbn [step spec_step]. pose proof (installed_drop_all (store w) rows E Hrep Hpl HE) as Hi. by destruct (drop_all _).
  - done.
Qed.

Lemma run_installed ops w rows n E :
  agree w rows n -> n + Z.of_nat (length ops) <= u64_max -> Forall op_placed ops -> placed rows -> installed E rows ->
  let '(w', _, calls) := run w ops in exists rows' n', agree w' rows' n' /\ placed rows' /\ installed (engine_after calls E) rows'.
Proof.
  intros Hag Hn Hops. revert w rows n E Hag Hn. induction Hops as [|op ops Hop _ IH]; intros w rows n E Hag Hn Hpl HE; cbn [run]; [by exists rows, n|].
  cbn [length] in Hn. pose proof (step_agree w rows n op Hag ltac:(lia)) as Hst. pose proof (spec_next_le rows n op) as Hn1.
  pose proof (step_installed w rows n op E Hag ltac:(lia) Hop Hpl HE) as HE1. pose proof Hag as [Hrep _ Hids Hlen].
  pose proof (step_placed rows n op (rep_rows _ _ Hrep) ltac:(lia) Hids Hop Hpl) as Hpl1.
  destruct (step w op) as [[w1 ok] calls], (spec_step rows n op) as [[rows1 n1] ok1]. destruct Hst as [_ Hag1]. cbn [fst snd] in *.
  specialize (IH w1 rows1 n1 _ Hag1 ltac:(lia) Hpl1 HE1). destruct (run w1 ops) as [[w2 oks] calls'].
  unfold engine_after. by rewrite foldl_app.
Qed.

(** After any run in which entity ids and their engine coordinates determine each other, the virtual
    functions the engine has hooked are exactly those of the entities and kinds that have a handler. *)
Theorem sdk_engine_hooks_exact (ops : list Op) :
  1 + Z.of_nat (length ops) <= u64_max -> Forall op_placed ops ->
  let '(w, _, calls) := run init ops in
  forall i s t p, (i, s, t, p) ∈ engine_after calls ∅ <->
    exists e k, coords e = (i, s) /\ vp_kind k = Some (t, p) /\ snapshot (store w) e k <> [].
Proof.
  intros Hn Hops. assert (installed ∅ []) as H0.
  { intros d. rewrite elem_of_empty. split; [done|]. by intros (r & Hr%elem_of_nil & _). }
  assert (placed []) as Hp0 by by intros ? ?%elem_of_nil.
  pose proof (run_installed ops init [] 1 ∅ agree_init Hn Hops Hp0 H0) as Hr.
  destruct (run init ops) as [[w oks] calls]. destruct Hr as (rows & n & [Hrep _ _ _] & Hpl & HE).
  intros i s t p. rewrite (HE (i, s, t, p)). pose proof (read_snapshot _ _ (represents_reads _ _ Hrep)) as Hsnap. split.
  - intros (r & Hr & Hd). pose proof (detour_coords _ _ Hd) as Hc. unfold detour_of in Hd. apply fmap_Some in Hd as ([t' p'] & Hv & Hd). simplify_eq/=.
    exists (eid r), (rkind r). split; [by rewrite (Hpl r Hr)|]. split; [done|]. rewrite Hsnap. intros Hnil%fmap_nil_inv.
    assert (r ∈ rows_at rows (eid r) (rkind r)) as Hin by by apply elem_of_rows_at. rewrite Hnil in Hin. by apply elem_of_nil in Hin.
  - intros (e & k & Hc & Hv & Hne). rewrite Hsnap in Hne. destruct (rows_at rows e k) as [|r l] eqn:E; [done|].
    assert (r ∈ rows_at rows e k) as (Hr & <- & <-)%elem_of_rows_at by (rewrite E; in_list). exists r. split; [done|].
    unfold detour_of. rewrite Hv. cbn. pose proof (Hpl r Hr) as Hp. rewrite Hc in Hp. injection Hp as -> ->. done.
Qed.

End Spec.
End SdkHooks.

Module SdkHooksExamples.
Import SdkHooks.

Definition ops : list (Op (Fn := nat)) :=
  [Hook 4 100 (Some 7) "Touch" "a" 1 1%nat true; Hook 5 101 (Some 9) "Touch" "b" 1 2%nat true; Hook 4 100 (Some 7) "Touch" "b" 1 3%nat false;
   Hook 4 100 (Some 7) "ThinkPost" "a" 1 4%nat true; Hook 5 101 (Some 9) "SetTransmit" "a" 1 5%nat true; OtherSubscription;
   Unhook 100 "Touch" "a" 1%nat; Hook 6 102 None "Use" "a" 1 6%nat true; Hook 5 101 (Some 9) "Use" "b" 1 7%nat false; EntityGone 101].
Definition coords (e : Z) : Z * Z := if e =? 100 then (4, 7) else if e =? 101 then (5, 9) else (- e * 1000, 0).

(** The entity of a kind moves behind another when its earliest hook goes. *)
Example addresses_reordered : kind_entities (store (run Nat.eqb init (take 7 ops)).1.1) "Touch" = [(5, 9); (4, 7)].
Proof. vm_compute. reflexivity. Qed.

Example calls_made : (run Nat.eqb init ops).2 = [VpAdd 4 7 "Touch" 0; VpAdd 5 9 "Touch" 0; VpAdd 4 7 "Think" 1; VpDrop 5 9].
Proof. vm_compute. reflexivity. Qed.

Lemma sdk_store_refines_witness :
  1 + Z.of_nat (length ops) <= u64_max /\
  let '(w, oks, _) := run Nat.eqb init ops in let '(rows, oks') := spec_run Nat.eqb [] 1 ops in oks = oks' /\ reads (store w) rows.
Proof. split; [done|]. apply (sdk_store_refines Nat.eqb ops). done. Defined.

Lemma coords_inj e e' : coords e = coords e' -> e = e'.
Proof. unfold coords. intros E. repeat case_split; bool_to_prop; simplify_eq; lia. Qed.

Lemma sdk_engine_hooks_exact_witness :
  1 + Z.of_nat (length ops) <= u64_max /\ Forall (op_placed coords) ops /\
  let '(w, _, calls) := run Nat.eqb init ops in
  forall i s t p, (i, s, t, p) ∈ engine_after calls ∅ <->
    exists e k, coords e = (i, s) /\ vp_kind k = Some (t, p) /\ snapshot (store w) e k <> [].
Proof.
  assert (Forall (op_placed coords) ops) as Hp by (repeat constructor).
  split; [done|]. split; [done|]. apply (sdk_engine_hooks_exact Nat.eqb coords coords_inj ops); done.
Defined.
End SdkHooksExamples.
