(* ===== verification/SharedSwitch.v ===== *)
(** Host-counted entity switches (core/src/shared_entity_switch.rs).

    Several holders, each an owner and a token, keep a boolean switch of an entity on; the first one
    turns it on through an engine call and the last one turns it off. During that call the host can be
    re-entered: entities die, plugins unload, other switches change. The model is a machine whose stack
    holds the transitions that wait for their engine call: any operation may run on top of them, and the
    call of the top one returns with [Return]. The entity books are those of EntityLive.v, which notify
    this table. [engine_on] is the engine's side, the switches its successful calls left on; it and the
    stack are what the model adds to the three thread-locals. A key order of [map_to_list] stands for the
    order in which a [HashMap] is iterated, and error texts are constructors. *)
From S2P Require Import Prelude.
From S2P Require Import Liveness.
From S2P Require Import EntityLive.
From S2P Require Import Plugin.

Module SharedSwitch.

(** ** Keys and holders *)

Record Key := mkKey { game : string; call : string; index : Z; id : Z; slot : Z }.

#[export] Instance Key_eq_dec : EqDecision Key.
Proof. solve_decision. Defined.
#[export] Instance Key_countable : Countable Key.
Proof.
  apply (inj_countable' (fun k => (game k, call k, index k, id k, slot k)) (fun t => mkKey t.1.1.1.1 t.1.1.1.2 t.1.1.2 t.1.2 t.2)).
  by intros [].
Defined.

Definition Holders : Type := gset (string * string).

(** What [invoke] reads of the game package, the call table and the engine operations. *)
Record InvokePlan := mkPlan { call_id : Z; args : list string; ret_code : Z; via : list (string * string); receiverless : bool }.
Record Env := mkEnv { game_package_owner : option string; plan : string -> string -> option InvokePlan; engine_call_invoke : bool }.
Definition RET_VOID : Z := 0.

Inductive Error :=
| MissingContext | Unloading | NoPackage | NeedsSlot | NeedsToken | InTransition | StaleEntity
| PackageChanged | NoPlan | BadBinding | NoEngineOperation | InvocationFailed | LifecycleChanged.

Record Request := mkRequest { r_owner : string; r_key : Key; r_token : option string; r_on : bool }.

(** A transition that waits for its engine call: a claim or release, or the retry of a pending release
    with the keys still to be retried and the answer to give when they are done. *)
Inductive Frame :=
| FChange (r : Request) (next : Holders) (want_on : bool) (epoch : Z)
| FRetry (key : Key) (rest : list Key) (reply : list (Request * option Error)).
Definition frame_key (f : Frame) : Key := match f with FChange r _ _ _ => r_key r | FRetry k _ _ => k end.

Record World := mkWorld {
  books : EntityLive.books;
  leases : gmap Key Holders;
  busy : gset Key;
  epoch : Z;
  stack : list Frame;
  engine_on : gset Key;
}.
Definition init : World := mkWorld EntityLive.init ∅ ∅ 0 [] ∅.

Definition set_leases (w : World) (l : gmap Key Holders) : World := mkWorld (books w) l (busy w) (epoch w) (stack w) (engine_on w).
Definition invalidate_pending (w : World) : World := mkWorld (books w) (leases w) (busy w) (wrap64 (epoch w + 1)) (stack w) (engine_on w).
Definition live (w : World) (k : Key) : bool :=
  match EntityLive.engine_serial_for (books w) (index k) (id k) with Some _ => true | None => false end.

(** [invoke] up to its engine call: refused, or the call with its id and the entity's serial. *)
Definition invoke_ready (w : World) (env : Env) (k : Key) : Error + (Z * Z) :=
  match EntityLive.engine_serial_for (books w) (index k) (id k) with
  | None => inl StaleEntity
  | Some serial =>
      if negb (bool_decide (game_package_owner env = Some (game k))) then inl PackageChanged
      else match plan env (game k) (call k) with
           | None => inl NoPlan
           | Some p =>
               if receiverless p || negb (bool_decide (via p = [])) || negb (ret_code p =? RET_VOID)
                  || negb (bool_decide (args p = ["int"; "bool"]))
               then inl BadBinding
               else if engine_call_invoke env then inr (call_id p, serial) else inl NoEngineOperation
           end
  end.

(** Mark a key busy and wait for its engine call. *)
Definition await (w : World) (f : Frame) : World :=
  mkWorld (books w) (leases w) ({[frame_key f]} ∪ busy w) (epoch w) (f :: stack w) (engine_on w).

(** [retry_key] over a list of keys, up to the first one whose engine call is made. *)
Fixpoint retry_keys (w : World) (env : Env) (keys : list Key) (reply : list (Request * option Error)) : World * list (Request * option Error) :=
  match keys with
  | [] => (w, reply)
  | k :: rest =>
      if negb (bool_decide (leases w !! k = Some ∅)) then retry_keys w env rest reply
      else if bool_decide (k ∈ busy w) then retry_keys w env rest reply
      else if negb (live w k) then retry_keys (set_leases w (delete k (leases w))) env rest reply
      else match invoke_ready w env k with
           | inl _ => retry_keys w env rest reply
           | inr _ => (await w (FRetry k rest reply), [])
           end
  end.

(** The part of [change] after the engine call; the key is no longer busy. *)
Definition settle_change (w : World) (env : Env) (r : Request) (next : Holders) (want_on : bool) (epoch0 : Z) (err : option Error)
    : World * list (Request * option Error) :=
  let k := r_key r in
  if negb (epoch w =? epoch0) then
    if want_on && bool_decide (err = None) && live w k then
      retry_keys (set_leases w (<[k := default ∅ (leases w !! k)]> (leases w))) env [k] [(r, Some LifecycleChanged)]
    else
      (if negb want_on && bool_decide (err = None) then set_leases w (delete k (leases w)) else w, [(r, Some LifecycleChanged)])
  else match err with
       | Some e => (if negb want_on then set_leases w (<[k := ∅]> (leases w)) else w, [(r, Some e)])
       | None => (if want_on then set_leases w (<[k := next]> (leases w)) else set_leases w (delete k (leases w)), [(r, None)])
       end.

Definition next_holders (prev : Holders) (r : Request) : Holders :=
  match r_token r with
  | Some t => if r_on r then {[(r_owner r, t)]} ∪ prev else prev ∖ {[(r_owner r, t)]}
  | None => filter (fun h : string * string => h.1 <> r_owner r) prev
  end.

Definition change (w : World) (env : Env) (r : Request) : World * list (Request * option Error) :=
  let k := r_key r in
  if slot k <? 0 then (w, [(r, Some NeedsSlot)])
  else if r_on r && bool_decide (r_token r = None) then (w, [(r, Some NeedsToken)])
  else if bool_decide (k ∈ busy w) then (w, [(r, Some InTransition)])
  else if negb (live w k) then (set_leases w (delete k (leases w)), [(r, if r_on r then Some StaleEntity else None)])
  else
    let previous := leases w !! k in
    let next := next_holders (default ∅ previous) r in
    let was_on := bool_decide (is_Some previous) in
    let want_on := negb (bool_decide (next = ∅)) in
    if eqb was_on want_on then (if want_on then set_leases w (<[k := next]> (leases w)) else w, [(r, None)])
    else match invoke_ready w env k with
         | inl e => settle_change w env r next want_on (epoch w) (Some e)
         | inr _ => (await w (FChange r next want_on (epoch w)), [])
         end.

(** ** Lifecycle *)

Definition pending (l : gmap Key Holders) : list Key := (map_to_list (filter (fun kh : Key * Holders => kh.2 = ∅) l)).*1.

Definition retry_pending (w : World) (env : Env) : World * list (Request * option Error) := retry_keys w env (pending (leases w)) [].

Definition remove_where (w : World) (env : Env) (matches : Key -> string * string -> bool) : World * list (Request * option Error) :=
  let w := invalidate_pending w in
  let kept := filter (fun kh : Key * Holders => live w kh.1 = true) (leases w) in
  let l := map_imap (fun k h => Some (filter (fun x => matches k x = false) h : Holders)) kept in
  retry_keys (set_leases w l) env (pending l) [].

Definition clear_slot (w : World) (env : Env) (s : Z) := remove_where w env (fun k _ => slot k =? s).
Definition remove_owner (w : World) (env : Env) (o : string) := remove_where w env (fun _ h => String.eqb h.1 o).

Definition reset (w : World) : World := set_leases (invalidate_pending w) ∅.
Definition prune_dead (w : World) : World :=
  let w := invalidate_pending w in set_leases w (filter (fun kh : Key * Holders => live w kh.1 = true) (leases w)).
Definition on_entity_lifecycle (w : World) (i : Z) (retired : option Z) : World :=
  let w := invalidate_pending w in
  match retired with
  | Some d => set_leases w (filter (fun kh : Key * Holders => index kh.1 <> i \/ id kh.1 <> d) (leases w))
  | None => w
  end.

Definition notified (w : World) (n : EntityLive.notification) : World :=
  match n with
  | EntityLive.SwitchEntityLifecycle i r => on_entity_lifecycle w i r
  | EntityLive.SwitchReset => reset w
  | EntityLive.SwitchPruneDead => prune_dead w
  | _ => w
  end.
Definition entity_op (w : World) (o : EntityLive.op) : World :=
  let '(b, notes) := EntityLive.step (books w) o in
  foldl notified (mkWorld b (leases w) (busy w) (epoch w) (stack w) (engine_on w)) notes.

(** ** The machine *)

Inductive Act :=
| Native (owner : option string) (phase : option PluginLedger.Phase) (call : string) (index id slot : Z) (token : option string) (on : bool) (env : Env)
| ReleaseRecorded (owner game call : string) (index id slot : Z) (token : string) (env : Env)
| EntityOp (o : EntityLive.op)
| ClearSlot (s : Z) (env : Env)
| RemoveOwner (o : string) (env : Env)
| RetryPending (env : Env)
| Return (ok : bool) (env : Env).

Definition native (w : World) (owner : option string) (phase : option PluginLedger.Phase) (c : string) (i d s : Z) (token : option string) (on : bool) (env : Env)
    : World * list (Request * option Error) :=
  let refused e := (w, [(mkRequest (default "" owner) (mkKey "" c i d s) token on, Some e)]) in
  match owner with
  | None => refused MissingContext
  | Some owner =>
      match phase with
      | Some PluginLedger.Unloading | Some PluginLedger.Failed => refused Unloading
      | _ => match game_package_owner env with
             | None => refused NoPackage
             | Some g => change w env (mkRequest owner (mkKey g c i d s) token on)
             end
      end
  end.

(** The top engine call returns; a successful one has left the switch as it was asked to be. *)
Definition engine_return (w : World) (env : Env) (ok : bool) : World * list (Request * option Error) :=
  match stack w with
  | [] => (w, [])
  | f :: st =>
      let w' on := mkWorld (books w) (leases w) (busy w ∖ {[frame_key f]}) (epoch w) st on in
      match f with
      | FChange r next want_on e0 =>
          let on := if ok then if want_on then {[r_key r]} ∪ engine_on w else engine_on w ∖ {[r_key r]} else engine_on w in
          settle_change (w' on) env r next want_on e0 (if ok then None else Some InvocationFailed)
      | FRetry k rest reply =>
          let w'' := w' (if ok then engine_on w ∖ {[k]} else engine_on w) in
          retry_keys (if ok then set_leases w'' (delete k (leases w)) else w'') env rest reply
      end
  end.

Definition step (w : World) (a : Act) : World * list (Request * option Error) :=
  match a with
  | Native o ph c i d s t on env => native w o ph c i d s t on env
  | ReleaseRecorded o g c i d s t env => change w env (mkRequest o (mkKey g c i d s) (Some t) false)
  | EntityOp o => (entity_op w o, [])
  | ClearSlot s env => clear_slot w env s
  | RemoveOwner o env => remove_owner w env o
  | RetryPending env => retry_pending w env
  | Return ok env => engine_return w env ok
  end.

Fixpoint run (w : World) (acts : list Act) : World * list (Request * option Error) :=
  match acts with
  | [] => (w, [])
  | a :: acts => let '(w, rs) := step w a in let '(w, rs') := run w acts in (w, rs ++ rs')
  end.

(** ** Lemmas on liveness and keys *)

Lemma live_spec w k : EntityLive.wf (books w) -> live w k = true <-> EntityLive.is_live (books w) (index k) (id k) = true.
Proof.
  intros Hwf. unfold live. rewrite <- EntityLive.books_engine_serial_live by done.
  by destruct (EntityLive.engine_serial_for _ _ _).
Qed.

Lemma live_books w w' k : books w' = books w -> live w' k = live w k.
Proof. unfold live. by intros ->. Qed.

Lemma ready_live w env k c : invoke_ready w env k = inr c -> live w k = true.
Proof. unfold invoke_ready, live. by destruct (EntityLive.engine_serial_for _ _ _). Qed.

Lemma elem_of_pending l k : k ∈ pending l <-> l !! k = Some ∅.
Proof.
  unfold pending. rewrite list_elem_of_fmap. split.
  - intros ([k' h] & -> & Hin). apply elem_of_map_to_list, map_lookup_filter_Some in Hin as [Hl Hh]. cbn in *. by subst.
  - intros Hl. exists (k, ∅). split; [done|]. apply elem_of_map_to_list. by apply map_lookup_filter_Some.
Qed.

(** ** The invariant *)

(** What the machine knows of a transition that waits for its engine call. *)
Definition frame_ok (w : World) (f : Frame) : Prop :=
  live w (frame_key f) = true ->
  match f with
  | FChange r _ want _ => (r_key r ∈ engine_on w <-> want = false) /\ (is_Some (leases w !! r_key r) <-> want = false)
  | FRetry k _ _ => k ∈ engine_on w /\ is_Some (leases w !! k)
  end.

(** The holder set a transition will record agrees with what was asked. *)
Definition holds (hs : Holders) (r : Request) : Prop :=
  match r_token r with
  | Some t => if r_on r then (r_owner r, t) ∈ hs else (r_owner r, t) ∉ hs
  | None => forall t, (r_owner r, t) ∉ hs
  end.
Definition frame_asked (w : World) (f : Frame) : Prop :=
  match f with
  | FChange r next want e0 =>
      holds next r /\ (r_on r = true -> is_Some (r_token r)) /\ want = negb (bool_decide (next = ∅)) /\
      (want = true -> forall h, h ∈ next -> r_on r = true /\ r_owner r = h.1 /\ r_token r = Some h.2) /\ 0 <= e0 <= epoch w /\ (e0 = epoch w -> live w (r_key r) = true)
  | FRetry _ _ reply => Forall (fun p : Request * option Error => is_Some p.2) reply
  end.

Record Inv (w : World) : Prop := mkInv {
  inv_books : EntityLive.wf (books w);
  inv_busy : busy w = list_to_set (frame_key <$> stack w);
  inv_nodup : NoDup (frame_key <$> stack w);
  inv_minted : forall k, k ∈ engine_on w \/ is_Some (leases w !! k) \/ k ∈ busy w -> id k < LiveTable.next_id (EntityLive.live (books w));
  inv_free : forall k, live w k = true -> k ∉ busy w -> (k ∈ engine_on w <-> is_Some (leases w !! k));
  inv_frames : Forall (frame_ok w) (stack w);
  inv_asked : Forall (frame_asked w) (stack w);
  inv_epoch : 0 <= epoch w;
}.

Lemma elem_of_busy w k : Inv w -> k ∈ busy w <-> k ∈ frame_key <$> stack w.
Proof. intros Hi. rewrite (inv_busy _ Hi). apply elem_of_list_to_set. Qed.

Lemma live_minted w k : Inv w -> live w k = true -> id k < LiveTable.next_id (EntityLive.live (books w)).
Proof.
  intros Hi Hl. apply live_spec in Hl; [|apply Hi]. unfold EntityLive.is_live, LiveTable.is_live in Hl.
  destruct (LiveTable.entries (EntityLive.live (books w)) !! index k) as [[cur s]|] eqn:E; [|done]. apply Z.eqb_eq in Hl as <-.
  by eapply LiveTable.wf_minted, E; apply EntityLive.wf_live, Hi.
Qed.

Lemma init_Inv : Inv init.
Proof.
  constructor; try done.
  - apply EntityLive.books_init_wf.
  - constructor.
  - intros k [Hk|[Hk|Hk]]; [set_solver| |set_solver]. cbn in Hk. rewrite lookup_empty in Hk. by destruct Hk.
  - intros k _ _. cbn. rewrite lookup_empty. split; [set_solver|by intros []].
Qed.

(** The leases of live keys may gain and lose holders but not come or go. *)
Lemma Inv_leases w l :
  Inv w -> (forall k, is_Some (l !! k) -> is_Some (leases w !! k)) ->
  (forall k, live w k = true -> is_Some (leases w !! k) -> is_Some (l !! k)) -> Inv (set_leases w l).
Proof.
  intros [Hb Hbu Hnd Hm Hf Hfr Has He] Hl1 Hl2. constructor; cbn; try done.
  - intros k [Hk|[Hk|Hk]]; apply Hm; auto.
  - intros k Hk Hnb. change (live w k = true) in Hk. rewrite Hf by done. split; [by apply Hl2|by apply Hl1].
  - eapply Forall_impl; [exact Hfr|]. intros [r next want e0|k rest rep] Hok Hk; rewrite (live_books w (set_leases w l)) in Hk by done; cbn in *.
    + destruct (Hok Hk) as [Hon Hle]. split; [done|]. rewrite <- Hle. split; [by apply Hl1|by apply Hl2].
    + destruct (Hok Hk) as [Hon Hle]. split; [done|]. by apply Hl2.
Qed.

Lemma Inv_delete_dead w k : Inv w -> live w k = false -> Inv (set_leases w (delete k (leases w))).
Proof.
  intros Hi Hd. apply Inv_leases; [done|..].
  - intros k'. rewrite lookup_delete_is_Some. tauto.
  - intros k' Hl. rewrite lookup_delete_is_Some. split; [|done]. intros ->. congruence.
Qed.

Lemma frame_asked_epoch w f : epoch w < u64_max -> 0 <= epoch w -> frame_asked w f -> frame_asked (invalidate_pending w) f.
Proof.
  intros He He0. destruct f as [r next want e0|]; [|done]. intros (H1 & H2 & H3 & H4 & H5 & H6).
  cbn. rewrite wrap64_small by (unfold u64_max in *; lia). split; [done|]. split; [done|]. split; [done|]. split; [done|]. split; [lia|]. intros ->. lia.
Qed.

Lemma Inv_invalidate w : Inv w -> epoch w < u64_max -> Inv (invalidate_pending w) /\ epoch (invalidate_pending w) = epoch w + 1.
Proof.
  intros [Hb Hbu Hnd Hm Hf Hfr Has He] Hlt. assert (epoch (invalidate_pending w) = epoch w + 1) as Hep by (cbn; apply wrap64_small; unfold u64_max in *; lia).
  split; [|done]. constructor; try done.
  - eapply Forall_impl; [exact Has|]. intros f. by apply frame_asked_epoch.
  - rewrite Hep. lia.
Qed.

Lemma Inv_await w f :
  Inv w -> frame_key f ∉ busy w -> live w (frame_key f) = true -> frame_ok w f -> frame_asked w f -> Inv (await w f).
Proof.
  intros Hi Hnb Hl Hok Hask. pose proof (live_minted _ _ Hi Hl) as Hmint. pose proof (elem_of_busy w (frame_key f) Hi) as Hin.
  destruct Hi as [Hb Hbu Hnd Hm Hf Hfr Has He]. constructor; cbn; try done.
  - by rewrite Hbu.
  - constructor; [by rewrite <- Hin|done].
  - intros k [Hk|[Hk|[->%elem_of_singleton|Hk]%elem_of_union]]; auto.
  - intros k Hk Hn. apply Hf; [done|]. set_solver.
  - constructor; [done|]. done.
  - constructor; [done|]. done.
Qed.

Lemma retry_keys_Inv env keys : forall w reply, Inv w -> Forall (fun p : Request * option Error => is_Some p.2) reply ->
  Inv (retry_keys w env keys reply).1 /\ epoch (retry_keys w env keys reply).1 = epoch w.
Proof.
  induction keys as [|k keys IH]; intros w reply Hi Hr; cbn [retry_keys]; [done|].
  case_bool_decide as Hl; cbn [negb]; [|by apply IH]. case_bool_decide as Hb; [by apply IH|].
  destruct (live w k) eqn:Hlive; cbn [negb].
  - destruct (invoke_ready w env k) as [e|c] eqn:Er; [by apply IH|]. split; [|done]. cbn [fst].
    apply Inv_await; try done. intros _. assert (is_Some (leases w !! k)) as Hs by (rewrite Hl; by eexists).
    split; [|done]. by apply (inv_free _ Hi).
  - destruct (IH (set_leases w (delete k (leases w))) reply) as [H1 H2]; [by apply Inv_delete_dead|done|done].
Qed.

(** The top transition is taken off the stack with its key's lease and switch brought in agreement. *)
Lemma Inv_pop w f st on l :
  Inv w -> stack w = f :: st ->
  (forall k, k <> frame_key f -> k ∈ on <-> k ∈ engine_on w) -> (forall k, k <> frame_key f -> l !! k = leases w !! k) ->
  (live w (frame_key f) = true -> frame_key f ∈ on <-> is_Some (l !! frame_key f)) ->
  Inv (mkWorld (books w) l (busy w ∖ {[frame_key f]}) (epoch w) st on).
Proof.
  intros [Hb Hbu Hnd Hm Hf Hfr Has He] Hst Hon Hl Hk. rewrite Hst in *. apply Forall_cons in Hfr as [_ Hfr], Has as [_ Has].
  cbn [fmap list_fmap] in *. apply NoDup_cons in Hnd as [Hnin Hnd].
  assert (forall g, g ∈ st -> frame_key g <> frame_key f) as Hne.
  { intros g Hg E. apply Hnin. rewrite <- E. by apply list_elem_of_fmap_2. }
  constructor; cbn; try done.
  - rewrite Hbu. cbn. assert (frame_key f ∉ (list_to_set (frame_key <$> st) : gset Key)) by by rewrite elem_of_list_to_set. set_solver.
  - intros k Hk'. destruct (decide (k = frame_key f)) as [->|Hn]; [apply Hm; right; right; rewrite Hbu; cbn; set_solver|].
    apply Hm. rewrite Hl, Hon in Hk' by done. set_solver.
  - intros k Hlive Hnb. change (live w k = true) in Hlive. destruct (decide (k = frame_key f)) as [->|Hn]; [by apply Hk|].
    rewrite Hl, Hon by done. apply Hf; [done|]. set_solver.
  - apply Forall_forall. intros g Hg Hlive. rewrite Forall_forall in Hfr. specialize (Hfr g Hg).
    rewrite (live_books w) in Hlive by done. specialize (Hfr Hlive). pose proof (Hne g Hg) as Hn.
    destruct g as [r next want e0|k rest rep]; cbn in *; by rewrite Hon, Hl by done.
Qed.

Lemma settle_Inv w env r next want e0 st (ok : bool) :
  Inv w -> stack w = FChange r next want e0 :: st ->
  let on : gset Key := if ok then if want then {[r_key r]} ∪ engine_on w else engine_on w ∖ {[r_key r]} else engine_on w in
  let w' := mkWorld (books w) (leases w) (busy w ∖ {[r_key r]}) (epoch w) st on in
  let res := settle_change w' env r next want e0 (if ok then None else Some InvocationFailed) in
  Inv res.1 /\ epoch res.1 = epoch w.
Proof.
  intros Hi Hst on w' res. pose proof (inv_frames _ Hi) as Hfr. rewrite Hst in Hfr. apply Forall_cons in Hfr as [Hok _].
  unfold frame_ok in Hok. cbn [frame_key] in Hok.
  assert (forall l, (forall k, k <> r_key r -> l !! k = leases w !! k) ->
    (live w (r_key r) = true -> r_key r ∈ on <-> is_Some (l !! r_key r)) ->
    Inv (set_leases w' l) /\ epoch (set_leases w' l) = epoch w) as Hpop.
  { intros l Hl Hk. split; [|done]. apply (Inv_pop w (FChange r next want e0) st on l); try done.
    intros k Hne. unfold on. destruct ok; [|done]. destruct want; set_solver. }
  assert (forall k (h : Holders), k <> r_key r -> <[r_key r := h]> (leases w) !! k = leases w !! k) as Hins by (intros; by rewrite lookup_insert_ne).
  assert (forall k, k <> r_key r -> delete (r_key r) (leases w) !! k = leases w !! k) as Hdel by (intros; by rewrite lookup_delete_ne).
  change w' with (set_leases w' (leases w)) in res. subst res. unfold settle_change. cbn [epoch set_leases leases]. change (epoch w') with (epoch w).
  assert (on = (if ok then if want then {[r_key r]} ∪ engine_on w else engine_on w ∖ {[r_key r]} else engine_on w)) as Hon by done. clearbody on.
  assert (forall k, live (set_leases w' (leases w)) k = live w k) as Hlv by done.
  destruct (negb (epoch w =? e0)).
  - rewrite Hlv. destruct want, ok; cbn [andb negb]; rewrite ?bool_decide_eq_true_2, ?bool_decide_eq_false_2 by done; cbn [andb fst].
    + destruct (live w (r_key r)) eqn:El.
      * assert (Inv (set_leases w' (<[r_key r := default ∅ (leases w !! r_key r)]> (leases w)))) as Hi1.
        { apply Hpop; [auto|]. rewrite lookup_insert_eq. intros _. rewrite Hon. split; [by eexists|set_solver]. }
        apply (retry_keys_Inv env [r_key r] _ [(r, Some LifecycleChanged)] Hi1). repeat constructor. by eexists.
      * by apply Hpop.
    + apply Hpop; [done|]. intros Hl. rewrite Hon. destruct (Hok Hl) as [-> ->]. done.
    + apply Hpop; [auto|]. rewrite lookup_delete_eq. intros _. rewrite Hon. split; [set_solver|by intros []].
    + apply Hpop; [done|]. intros Hl. rewrite Hon. destruct (Hok Hl) as [-> ->]. done.
  - destruct ok; cbn [fst]; destruct want; cbn [negb].
    + apply Hpop; [auto|]. rewrite lookup_insert_eq. intros _. rewrite Hon. split; [by eexists|set_solver].
    + apply Hpop; [auto|]. rewrite lookup_delete_eq. intros _. rewrite Hon. split; [set_solver|by intros []].
    + apply Hpop; [done|]. intros Hl. rewrite Hon. destruct (Hok Hl) as [-> ->]. done.
    + apply Hpop; [auto|]. rewrite lookup_insert_eq. intros Hl. rewrite Hon. destruct (Hok Hl) as [-> _]. split; [by eexists|done].
Qed.

Lemma next_holders_holds prev r : (r_on r = true -> is_Some (r_token r)) -> holds (next_holders prev r) r.
Proof.
  intros Ht. unfold holds, next_holders. destruct (r_token r) as [t|]; [destruct (r_on r); set_solver|].
  intros t. rewrite elem_of_filter. by intros [? _].
Qed.

Lemma next_holders_new prev r h : h ∈ next_holders prev r -> h ∈ prev \/ r_on r = true /\ r_owner r = h.1 /\ r_token r = Some h.2.
Proof.
  unfold next_holders. destruct (r_token r) as [t|]; [destruct (r_on r)|]; [|set_solver..].
  intros [->%elem_of_singleton|]%elem_of_union; [right|by left]. done.
Qed.

Lemma change_Inv w env r : Inv w -> Inv (change w env r).1 /\ epoch (change w env r).1 = epoch w.
Proof.
  intros Hi. unfold change. destruct (slot (r_key r) <? 0); [done|].
  destruct (r_on r && bool_decide (r_token r = None)) eqn:Etok; [done|].
  destruct (bool_decide (r_key r ∈ busy w)) eqn:Hb; [done|]. apply bool_decide_eq_false in Hb. destruct (live w (r_key r)) eqn:El; cbn [negb]; [|split; [by apply Inv_delete_dead|done]].
  set (next := next_holders (default ∅ (leases w !! r_key r)) r).
  pose proof (inv_free _ Hi _ El Hb) as Hfree.
  destruct (eqb (bool_decide (is_Some (leases w !! r_key r))) (negb (bool_decide (next = ∅)))) eqn:Esame.
  - apply eqb_prop in Esame. destruct (negb (bool_decide (next = ∅))); [|done]. split; [|done]. apply bool_decide_eq_true in Esame.
    apply Inv_leases; [done|..]; intros k; destruct (decide (k = r_key r)) as [->|Hne];
      rewrite ?lookup_insert_eq, ?lookup_insert_ne by done; done.
  - destruct (invoke_ready w env (r_key r)) as [e|c] eqn:Er.
    + unfold settle_change. rewrite Z.eqb_refl. cbn [negb fst]. destruct (negb (bool_decide (next = ∅))) eqn:Ew; cbn [negb]; [done|].
      split; [|done]. assert (is_Some (leases w !! r_key r)) as Hs.
      { destruct (bool_decide (is_Some (leases w !! r_key r))) eqn:Ed; [by apply bool_decide_eq_true in Ed|done]. }
      apply Inv_leases; [done|..]; intros k; destruct (decide (k = r_key r)) as [->|Hne];
        rewrite ?lookup_insert_eq, ?lookup_insert_ne by done; done.
    + split; [|done]. cbn [fst]. assert (r_on r = true -> is_Some (r_token r)) as Ht.
      { intros Hon. rewrite Hon in Etok. cbn in Etok. apply bool_decide_eq_false in Etok. destruct (r_token r); [by eexists|done]. }
      apply Inv_await; try done.
      * intros _. rewrite Hfree. destruct (negb (bool_decide (next = ∅))); case_bool_decide; naive_solver.
      * pose proof (inv_epoch _ Hi). split; [by apply next_holders_holds|]. split; [done|]. split; [done|]. split; [|split; [lia|done]].
        intros Hw h Hh. apply next_holders_new in Hh as [Hh|]; [|done]. rewrite Hw in Esame. cbn in Esame.
        destruct (leases w !! r_key r); [by rewrite bool_decide_eq_true_2 in Esame by (by eexists)|set_solver].
Qed.

Lemma filter_live_some w k : is_Some (filter (fun kh : Key * Holders => live w kh.1 = true) (leases w) !! k) <-> is_Some (leases w !! k) /\ live w k = true.
Proof.
  split.
  - intros [h [Hh Hl]%map_lookup_filter_Some]. split; [by eexists|done].
  - intros [[h Hh] Hl]. exists h. by apply map_lookup_filter_Some.
Qed.

Lemma remove_where_Inv w env matches :
  Inv w -> epoch w < u64_max -> Inv (remove_where w env matches).1 /\ epoch (remove_where w env matches).1 = epoch w + 1.
Proof.
  intros Hi Hlt. destruct (Inv_invalidate w Hi Hlt) as [Hi1 He1]. unfold remove_where. rewrite <- He1.
  set (w1 := invalidate_pending w) in *. set (l := map_imap _ _).
  assert (forall k, is_Some (l !! k) <-> is_Some (leases w1 !! k) /\ live w1 k = true) as Hl.
  { intros k. rewrite <- filter_live_some. unfold l. rewrite map_lookup_imap. destruct (filter _ (leases w1) !! k); cbn; [|done].
    split; by eexists. }
  assert (Inv (set_leases w1 l)) as Hi2 by (apply Inv_leases; [done|..]; intros k; rewrite Hl; tauto).
  destruct (retry_keys_Inv env (pending l) (set_leases w1 l) [] Hi2) as [H1 H2]; [done|]. done.
Qed.

(** What the books tell the switch after a step: an identity they retire is dead in the new books, and
    a reset finds no live entity. *)
Lemma entity_step_notes b o n :
  EntityLive.wf b -> n ∈ (EntityLive.step b o).2 ->
  match n with
  | EntityLive.SwitchEntityLifecycle i (Some d) => EntityLive.is_live (EntityLive.step b o).1 i d = false
  | EntityLive.SwitchReset => forall i d, EntityLive.is_live (EntityLive.step b o).1 i d = false
  | _ => True
  end.
Proof.
  intros Hwf.
  assert (forall b' i r, EntityLive.retire_ok b b' (EntityLive.retire_lifecycle i r) -> n ∈ EntityLive.retire_lifecycle i r ->
    match n with
    | EntityLive.SwitchEntityLifecycle i (Some d) => EntityLive.is_live b' i d = false
    | EntityLive.SwitchReset => forall i d, EntityLive.is_live b' i d = false
    | _ => True
    end) as Hret.
  { intros b' i r [Hs Hl] Hn. destruct n as [|j [d|]| | | |]; try done.
    - assert (EntityLive.SurfaceRetireEntity j d ∈ EntityLive.retire_lifecycle i r) as Hin by (by eapply (Hl j (Some d))).
      by apply Hs in Hin as [_ ?].
    - unfold EntityLive.retire_lifecycle in Hn. destruct r; cbn in Hn; rewrite ?elem_of_cons, ?elem_of_nil in Hn; naive_solver. }
  destruct o as [i s|i s|i s| | |l]; cbn [EntityLive.step].
  - apply Hret. by apply (EntityLive.books_retire_insert b _ i s).
  - unfold EntityLive.on_spawned. destruct (LiveTable.get (EntityLive.live b) i) as [[d s0]|] eqn:E; [destruct (s0 =? s)|].
    + apply Hret, EntityLive.books_retire_none.
    + apply Hret. change (Some d) with (fst <$> Some (d, s0)). rewrite <- E. by apply (EntityLive.books_retire_insert b _ i s).
    + apply Hret. change (@None Z) with (fst <$> @None (Z * Z)). rewrite <- E. by apply (EntityLive.books_retire_insert b _ i s).
  - unfold EntityLive.on_deleted. destruct (LiveTable.get (EntityLive.live b) i) as [[d s0]|] eqn:E; [destruct (s0 =? s)|];
      [|apply Hret, EntityLive.books_retire_none..]. apply Hret. by apply (EntityLive.books_retire_remove b _ i).
  - unfold EntityLive.clear_for_map_transition. cbn. rewrite !elem_of_cons, elem_of_nil. intros [->|[->|[]]]; [done|].
    intros i d. unfold EntityLive.is_live, LiveTable.is_live. cbn. by rewrite lookup_empty.
  - by intros ?%elem_of_nil.
  - unfold EntityLive.repair_reconcile. cbn. rewrite !elem_of_cons, elem_of_nil. by intros [->|[->|[]]].
Qed.

(** The books move on; identities minted before and dead stay dead. *)
Definition with_books (w : World) (b : EntityLive.books) : World := mkWorld b (leases w) (busy w) (epoch w) (stack w) (engine_on w).

(** A world whose leases were cleared of dead keys and whose epoch moved on, over the next books. *)
Lemma Inv_entity w b o l e :
  Inv w -> (EntityLive.step (books w) o).1 = b ->
  LiveTable.next_id (EntityLive.live (books w)) + EntityLive.mints o <= u64_max ->
  (forall k, is_Some (l !! k) -> is_Some (leases w !! k)) ->
  (forall k, EntityLive.is_live b (index k) (id k) = true -> is_Some (leases w !! k) -> is_Some (l !! k)) ->
  (e = epoch w /\ (forall i d, EntityLive.is_live b i d = EntityLive.is_live (books w) i d) \/ e = epoch w + 1) ->
  Inv (mkWorld b l (busy w) e (stack w) (engine_on w)).
Proof.
  intros Hi Hb Hmint Hl1 Hl2 He. destruct (EntityLive.books_step_wf (books w) o (inv_books _ Hi) Hmint) as (Hwf & Hnx & Hdead).
  rewrite Hb in *. set (w' := mkWorld b l (busy w) e (stack w) (engine_on w)).
  assert (forall k, id k < LiveTable.next_id (EntityLive.live (books w)) -> live w' k = true -> live w k = true) as Hlive.
  { intros k Hk Hl. apply (live_spec w') in Hl; [|done]. apply live_spec; [apply Hi|].
    destruct (EntityLive.is_live (books w) (index k) (id k)) eqn:E; [done|]. change (books w') with b in Hl. by rewrite (Hdead _ _ Hk E) in Hl. }
  assert (forall k, live w' k = true -> EntityLive.is_live b (index k) (id k) = true) as Hlb by (intros k Hk; by apply (live_spec w') in Hk).
  destruct Hi as [Hb' Hbu Hnd Hm Hf Hfr Has Hep]. constructor; try done.
  - intros k Hk. cbn [w' engine_on leases busy] in Hk. apply Z.lt_le_trans with (LiveTable.next_id (EntityLive.live (books w))); [|apply Hnx].
    apply Hm. destruct Hk as [|[|]]; auto.
  - intros k Hk Hn. cbn [w' engine_on leases]. split.
    + intros Hon. apply Hl2; [by apply Hlb|]. apply Hf; [|done|done]. apply Hlive; [|done]. apply Hm. by left.
    + intros Hs%Hl1. apply Hf; [|done|done]. apply Hlive; [|done]. apply Hm. right. by left.
  - apply Forall_forall. intros f Hf' Hk. rewrite Forall_forall in Hfr. specialize (Hfr f Hf').
    assert (frame_key f ∈ busy w) as Hin by (rewrite Hbu; apply elem_of_list_to_set; by apply list_elem_of_fmap_2).
    assert (live w (frame_key f) = true) as Hk0 by (apply Hlive; [apply Hm; by right; right|done]). specialize (Hfr Hk0).
    specialize (Hlb _ Hk). destruct f as [r next want e0|k rest rep]; cbn [frame_key w' engine_on leases] in *.
    + destruct Hfr as [Hon Hle]. split; [done|]. rewrite <- Hle. split; [by apply Hl1|by apply Hl2].
    + destruct Hfr as [Hon Hle]. split; [done|by apply Hl2].
  - eapply Forall_impl; [exact Has|]. intros [r next want e0|]; [|done]. intros (H1 & H2 & H3 & H4 & H5 & H6).
    split; [done|]. split; [done|]. split; [done|]. split; [done|]. cbn [w' epoch]. destruct He as [[-> Eb]| ->]; (split; [lia|]); intros ->; [|lia].
    apply live_spec; [done|]. change (books w') with b. rewrite Eb. apply live_spec; [done|]. by apply H6.
  - cbn. destruct He as [[-> _]| ->]; lia.
Qed.

Lemma entity_op_Inv w o :
  Inv w -> epoch w < u64_max -> LiveTable.next_id (EntityLive.live (books w)) + EntityLive.mints o <= u64_max ->
  Inv (entity_op w o) /\ epoch w <= epoch (entity_op w o) <= epoch w + 1 /\ books (entity_op w o) = (EntityLive.step (books w) o).1.
Proof.
  intros Hi Hlt Hmint. unfold entity_op. pose proof (fun n => entity_step_notes (books w) o n (inv_books _ Hi)) as Hnotes.
  pose proof (EntityLive.books_step_wf (books w) o (inv_books _ Hi) Hmint) as (Hwf & _ & _).
  assert (forall b l, b = (EntityLive.step (books w) o).1 -> (forall k, is_Some (l !! k) -> is_Some (leases w !! k)) ->
    (forall k, EntityLive.is_live b (index k) (id k) = true -> is_Some (leases w !! k) -> is_Some (l !! k)) ->
    let w' := mkWorld b l (busy w) (epoch w + 1) (stack w) (engine_on w) in Inv w' /\ epoch w <= epoch w' <= epoch w + 1 /\ books w' = b) as Hstep.
  { intros b l Hb H1 H2 w'. split; [|split; [cbn; lia|done]]. apply (Inv_entity w b o); auto. }
  assert (wrap64 (epoch w + 1) = epoch w + 1) as Hwr by (pose proof (inv_epoch _ Hi); apply wrap64_small; unfold u64_max in *; lia).
  assert (forall b i r, b = (EntityLive.step (books w) o).1 -> (forall d, r = Some d -> EntityLive.is_live b i d = false) ->
    let w' := on_entity_lifecycle (with_books w b) i r in Inv w' /\ epoch w <= epoch w' <= epoch w + 1 /\ books w' = b) as Hlc.
  { intros b i r Hb Hr. unfold on_entity_lifecycle, with_books, invalidate_pending, set_leases. cbn. rewrite Hwr. destruct r as [d|]; apply Hstep; try done; intros k.
    - intros [h [Hh _]%map_lookup_filter_Some]. by eexists.
    - intros Hl [h Hh]. exists h. apply map_lookup_filter_Some. split; [done|]. cbn. specialize (Hr d eq_refl).
      destruct (decide (index k = i)) as [Hi'|]; [|by left]. destruct (decide (id k = d)) as [Hd|]; [|by right]. congruence. }
  assert (forall i r, EntityLive.SwitchEntityLifecycle i r ∈ (EntityLive.step (books w) o).2 ->
    forall d, r = Some d -> EntityLive.is_live (EntityLive.step (books w) o).1 i d = false) as Hdead.
  { intros i r Hin d ->. apply (Hnotes _ Hin). }
  assert (forall b i r, (EntityLive.step (books w) o) = (b, EntityLive.retire_lifecycle i r) ->
    let w' := foldl notified (with_books w b) (EntityLive.retire_lifecycle i r) in Inv w' /\ epoch w <= epoch w' <= epoch w + 1 /\ books w' = b) as Hlist.
  { intros b i r E. assert (foldl notified (with_books w b) (EntityLive.retire_lifecycle i r) = on_entity_lifecycle (with_books w b) i r) as -> by (by destruct r).
    apply Hlc; [by rewrite E|]. specialize (Hdead i r). rewrite E in Hdead. apply Hdead. cbn. unfold EntityLive.retire_lifecycle. destruct r; in_list. }
  destruct o as [i s|i s|i s| | |l]; cbn [EntityLive.step] in *.
  - by apply Hlist.
  - unfold EntityLive.on_spawned in *. destruct (LiveTable.get (EntityLive.live (books w)) i) as [[d s0]|]; [destruct (s0 =? s)|]; by apply Hlist.
  - unfold EntityLive.on_deleted in *. destruct (LiveTable.get (EntityLive.live (books w)) i) as [[d s0]|]; [destruct (s0 =? s)|]; by apply Hlist.
  - unfold EntityLive.clear_for_map_transition in *. cbn. unfold reset, invalidate_pending, set_leases. cbn. rewrite Hwr. apply Hstep; [done|intros k; rewrite lookup_empty; by intros []|].
    intros k Hk. exfalso. assert (EntityLive.SwitchReset ∈ [EntityLive.SurfaceReset; EntityLive.SwitchReset]) as Hin by in_list.
    specialize (Hnotes _ Hin (index k) (id k)). cbn in Hnotes, Hk. congruence.
  - cbn. split; [|split; [lia|done]]. apply (Inv_entity w _ EntityLive.TakeRepair); auto.
  - unfold EntityLive.repair_reconcile in *. cbn. unfold prune_dead, invalidate_pending, set_leases. cbn. rewrite Hwr. apply Hstep; [done|..]; intros k.
    + intros [h [Hh _]%map_lookup_filter_Some]. by eexists.
    + intros Hk [h Hh]. exists h. apply map_lookup_filter_Some. split; [done|]. apply live_spec; [exact Hwf|done].
Qed.

(** Only the entity books' own operations change the books. *)
Lemma retry_keys_books env keys : forall w reply, books (retry_keys w env keys reply).1 = books w.
Proof.
  induction keys as [|k keys IH]; intros w reply; cbn [retry_keys]; [done|].
  destruct (negb (bool_decide (leases w !! k = Some ∅))); [by rewrite IH|]. destruct (bool_decide (k ∈ busy w)); [by rewrite IH|].
  destruct (negb (live w k)); [by rewrite IH|]. by destruct (invoke_ready w env k); [rewrite IH|].
Qed.

Lemma settle_books w env r next want e0 err : books (settle_change w env r next want e0 err).1 = books w.
Proof. unfold settle_change. repeat (case_split; cbn [fst]; rewrite ?retry_keys_books); done. Qed.

Lemma change_books w env r : books (change w env r).1 = books w.
Proof. unfold change. repeat (case_split; cbn [fst]; rewrite ?settle_books); done. Qed.

Definition act_mints (a : Act) : Z := match a with EntityOp o => EntityLive.mints o | _ => 0 end.
Definition acts_mints (acts : list Act) : Z := foldr (fun a n => act_mints a + n) 0 acts.

Lemma mints_nonneg o : 0 <= EntityLive.mints o.
Proof. destruct o; cbn; lia. Qed.

Lemma act_mints_nonneg a : 0 <= act_mints a.
Proof. destruct a; cbn; try lia. apply mints_nonneg. Qed.

Lemma acts_mints_nonneg acts : 0 <= acts_mints acts.
Proof. induction acts as [|a acts IH]; cbn; [lia|]. pose proof (act_mints_nonneg a). unfold acts_mints in IH. lia. Qed.

Definition next_id (w : World) : Z := LiveTable.next_id (EntityLive.live (books w)).

Lemma return_Inv w env ok : Inv w -> Inv (engine_return w env ok).1 /\ epoch (engine_return w env ok).1 = epoch w /\ books (engine_return w env ok).1 = books w.
Proof.
  intros Hi. unfold engine_return. destruct (stack w) as [|f st] eqn:Est; [done|].
  pose proof (inv_frames _ Hi) as Hfr. rewrite Est in Hfr. apply Forall_cons in Hfr as [Hok _].
  pose proof (inv_asked _ Hi) as Has. rewrite Est in Has. apply Forall_cons in Has as [Has _].
  destruct f as [r next want e0|k rest reply]; cbn [frame_key].
  - destruct (settle_Inv w env r next want e0 st ok Hi Est) as [H1 H2]. split; [done|]. split; [done|]. by rewrite settle_books.
  - rewrite retry_keys_books. unfold frame_ok in Hok. cbn [frame_key] in Hok.
    assert (forall l on, (forall k', k' <> k -> k' ∈ on <-> k' ∈ engine_on w) -> (forall k', k' <> k -> l !! k' = leases w !! k') ->
      (live w k = true -> k ∈ on <-> is_Some (l !! k)) -> Inv (mkWorld (books w) l (busy w ∖ {[k]}) (epoch w) st on)) as Hpop.
    { intros l on. apply (Inv_pop w (FRetry k rest reply) st on l Hi Est). }
    destruct ok.
    + assert (Inv (mkWorld (books w) (delete k (leases w)) (busy w ∖ {[k]}) (epoch w) st (engine_on w ∖ {[k]}))) as Hi1.
      { apply Hpop; [set_solver|intros; by rewrite lookup_delete_ne|]. rewrite lookup_delete_eq. intros _. split; [set_solver|by intros []]. }
      destruct (retry_keys_Inv env rest _ reply Hi1 Has) as [H1 H2]. done.
    + assert (Inv (mkWorld (books w) (leases w) (busy w ∖ {[k]}) (epoch w) st (engine_on w))) as Hi1.
      { apply Hpop; [done|done|]. intros Hl. destruct (Hok Hl). done. }
      destruct (retry_keys_Inv env rest _ reply Hi1 Has) as [H1 H2]. done.
Qed.

Lemma step_Inv w a :
  Inv w -> epoch w < u64_max -> next_id w + act_mints a <= u64_max ->
  Inv (step w a).1 /\ epoch w <= epoch (step w a).1 <= epoch w + 1 /\ next_id (step w a).1 <= next_id w + act_mints a.
Proof.
  intros Hi Hlt Hmint. unfold next_id in *.
  assert (forall (res : World * list (Request * option Error)), Inv res.1 -> epoch res.1 = epoch w -> books res.1 = books w ->
    Inv res.1 /\ epoch w <= epoch res.1 <= epoch w + 1 /\ LiveTable.next_id (EntityLive.live (books res.1)) <= LiveTable.next_id (EntityLive.live (books w)) + 0) as Hsame.
  { intros res H1 H2 ->. split; [done|]. lia. }
  assert (forall env m, Inv (remove_where w env m).1 /\ epoch w <= epoch (remove_where w env m).1 <= epoch w + 1 /\
    LiveTable.next_id (EntityLive.live (books (remove_where w env m).1)) <= LiveTable.next_id (EntityLive.live (books w)) + 0) as Hrm.
  { intros env m. destruct (remove_where_Inv w env m Hi Hlt) as [H1 H2]. split; [done|]. split; [lia|].
    unfold remove_where. rewrite retry_keys_books. cbn. lia. }
  assert (forall env r, Inv (change w env r).1 /\ epoch w <= epoch (change w env r).1 <= epoch w + 1 /\
    LiveTable.next_id (EntityLive.live (books (change w env r).1)) <= LiveTable.next_id (EntityLive.live (books w)) + 0) as Hch.
  { intros env r. apply Hsame; [apply change_Inv, Hi|apply change_Inv, Hi|apply change_books]. }
  destruct a as [o ph c i d s t on env|o g c i d s t env|o|s env|o env|env|ok env]; cbn [step act_mints] in *.
  - unfold native. destruct o as [o|]; [|by apply Hsame]. destruct ph as [[]|]; (by apply Hsame) || (destruct (game_package_owner env); [apply Hch|by apply Hsame]).
  - apply Hch.
  - cbn [fst]. destruct (entity_op_Inv w o Hi Hlt Hmint) as (H1 & H2 & ->). split; [done|]. split; [done|].
    by apply (EntityLive.books_step_wf (books w) o (inv_books _ Hi) Hmint).
  - apply Hrm.
  - apply Hrm.
  - apply Hsame; [apply retry_keys_Inv; done|by apply retry_keys_Inv|apply retry_keys_books].
  - destruct (return_Inv w env ok Hi) as (H1 & H2 & H3). by apply Hsame.
Qed.

Lemma run_Inv acts : forall w, Inv w -> epoch w + Z.of_nat (length acts) <= u64_max -> next_id w + acts_mints acts <= u64_max ->
  Inv (run w acts).1 /\ epoch (run w acts).1 <= epoch w + Z.of_nat (length acts) /\ next_id (run w acts).1 <= next_id w + acts_mints acts.
Proof.
  induction acts as [|a acts IH]; intros w Hi He Hm; cbn [run length acts_mints foldr fst] in *; [split; [done|lia]|].
  fold (acts_mints acts) in *. pose proof (acts_mints_nonneg acts). pose proof (act_mints_nonneg a).
  destruct (step_Inv w a Hi ltac:(lia) ltac:(lia)) as (H1 & H2 & H3). destruct (step w a) as [w1 rs]. cbn [fst] in *.
  destruct (IH w1 H1 ltac:(lia) ltac:(lia)) as (H4 & H5 & H6). destruct (run w1 acts) as [w2 rs']. cbn [fst] in *. split; [done|lia].
Qed.

(** A history short enough for the 64-bit counters, as all are in practice. *)
Definition history_ok (acts : list Act) : Prop := Z.of_nat (length acts) < u64_max /\ acts_mints acts < u64_max.

Lemma reach_Inv acts : history_ok acts -> Inv (run init acts).1 /\ epoch (run init acts).1 <= Z.of_nat (length acts) /\ next_id (run init acts).1 <= 1 + acts_mints acts.
Proof. intros [H1 H2]. apply (run_Inv acts init init_Inv); cbn; lia. Qed.

(** ** Properties *)

(** C3. However engine calls nest and whatever happens during them, no two transitions of a key are in
    flight, and the engine's switch of a live entity outside a transition is on exactly when the host
    has a lease for it. *)
Theorem switch_agrees acts :
  history_ok acts ->
  let w := (run init acts).1 in
  NoDup (frame_key <$> stack w) /\ (forall k, k ∈ busy w <-> k ∈ frame_key <$> stack w) /\
  forall k, live w k = true -> k ∉ busy w -> (k ∈ engine_on w <-> is_Some (leases w !! k)).
Proof.
  intros Hh w. destruct (reach_Inv acts Hh) as [Hi _]. fold w in Hi. split; [apply Hi|].
  split; [intros k; by apply elem_of_busy|]. apply Hi.
Qed.

(** *** Answers and holders *)

Definition holder (w : World) (k : Key) (h : string * string) : Prop := exists hs, leases w !! k = Some hs /\ h ∈ hs.

(** What an answer without an error says of the world it is given in. *)
Definition granted (w : World) (r : Request) : Prop :=
  if r_on r then live w (r_key r) = true /\ r_key r ∈ engine_on w /\ exists t, r_token r = Some t /\ holder w (r_key r) (r_owner r, t)
  else match r_token r with
       | Some t => ~ holder w (r_key r) (r_owner r, t)
       | None => forall t, ~ holder w (r_key r) (r_owner r, t)
       end.

(** The holder [h] of [k] is what an acquire among the answers asked for. *)
Definition acquired (rs : list (Request * option Error)) (k : Key) (h : string * string) : Prop :=
  exists r, (r, None) ∈ rs /\ r_on r = true /\ r_key r = k /\ r_owner r = h.1 /\ r_token r = Some h.2.

(** A step that answers exactly: what it grants holds, and it adds no other holder. *)
Definition exact (w : World) (res : World * list (Request * option Error)) : Prop :=
  (forall r, (r, None) ∈ res.2 -> granted res.1 r) /\
  (forall k h, holder res.1 k h -> holder w k h \/ acquired res.2 k h).

Lemma holder_insert w k hs k' h :
  holder (set_leases w (<[k := hs]> (leases w))) k' h <-> (k' = k /\ h ∈ hs) \/ (k' <> k /\ holder w k' h).
Proof.
  unfold holder. cbn. destruct (decide (k' = k)) as [->|Hne].
  - rewrite lookup_insert_eq. naive_solver.
  - rewrite lookup_insert_ne by done. naive_solver.
Qed.

Lemma holder_delete w k k' h : holder (set_leases w (delete k (leases w))) k' h <-> k' <> k /\ holder w k' h.
Proof. unfold holder. cbn. setoid_rewrite lookup_delete_Some. naive_solver. Qed.

Lemma retry_keys_exact env keys : forall w reply, Forall (fun p : Request * option Error => is_Some p.2) reply ->
  (forall r, (r, None) ∉ (retry_keys w env keys reply).2) /\ (forall k h, holder (retry_keys w env keys reply).1 k h -> holder w k h).
Proof.
  induction keys as [|k keys IH]; intros w reply Hr; cbn [retry_keys].
  - split; [|done]. intros r Hin. rewrite Forall_forall in Hr. by destruct (Hr _ Hin).
  - destruct (negb (bool_decide (leases w !! k = Some ∅))); [by apply IH|]. destruct (bool_decide (k ∈ busy w)); [by apply IH|].
    destruct (negb (live w k)).
    + destruct (IH (set_leases w (delete k (leases w))) reply Hr) as [H1 H2]. split; [done|]. intros k' h Hh. specialize (H2 k' h Hh).
      by apply holder_delete in H2 as [_ ?].
    + destruct (invoke_ready w env k); [by apply IH|]. split; [intros r; apply not_elem_of_nil|done].
Qed.

Lemma exact_no_grant w w' rs : (forall r, (r, None) ∉ rs) -> (forall k h, holder w' k h -> holder w k h) -> exact w (w', rs).
Proof. intros Hr Hh. split; [intros r Hin; by apply Hr in Hin|]. intros k h Hk. left. by apply Hh. Qed.

Lemma exact_refused w r e : exact w (w, [(r, Some e)]).
Proof. apply exact_no_grant; [|done]. intros r' [= ]%list_elem_of_singleton. Qed.

Lemma holds_granted_release w r hs :
  r_on r = false -> holds hs r -> (forall h, holder w (r_key r) h -> h ∈ hs) -> granted w r.
Proof.
  intros Hoff Hh Hw. unfold granted, holds in *. rewrite Hoff in *. destruct (r_token r) as [t|]; [|intros t]; intros Hx%Hw; try done. by eapply Hh.
Qed.

(** A settled claim records exactly its holder, a settled release removes exactly what it asked to. *)
Lemma record_exact w w0 r next :
  holds next r -> (r_on r = true -> is_Some (r_token r)) ->
  (r_on r = true -> live w (r_key r) = true /\ r_key r ∈ engine_on w) ->
  (forall k h, holder w k h -> holder w0 k h) ->
  (forall h, h ∈ next -> holder w0 (r_key r) h \/ r_on r = true /\ r_owner r = h.1 /\ r_token r = Some h.2) ->
  exact w0 (set_leases w (<[r_key r := next]> (leases w)), [(r, None)]).
Proof.
  intros Hh Ht Hon Hw Hnew. split.
  - intros r' [= ->]%list_elem_of_singleton. cbn [fst]. destruct (r_on r) eqn:E.
    + unfold granted, holds in *. rewrite E in *. destruct (Ht eq_refl) as [t Et]. rewrite Et in Hh. destruct (Hon eq_refl) as [Hl Hin].
      split; [done|]. split; [done|]. exists t. split; [done|]. apply holder_insert. by left.
    + apply (holds_granted_release _ _ next E Hh). intros h [[_ ?]|[? _]]%holder_insert; done.
  - intros k h [[-> Hin]|[_ Hk]]%holder_insert; [|left; by apply Hw]. apply Hnew in Hin as [|(H1 & H2 & H3)]; [by left|right].
    exists r. split; [cbn [snd]; in_list|done].
Qed.

Lemma release_exact w w0 r :
  r_on r = false -> (forall k h, holder w k h -> holder w0 k h) -> exact w0 (set_leases w (delete (r_key r) (leases w)), [(r, None)]).
Proof.
  intros Hoff Hw. split.
  - intros r' [= ->]%list_elem_of_singleton. cbn [fst]. unfold granted. rewrite Hoff.
    destruct (r_token r); [|intros t]; intros [? _]%holder_delete; done.
  - intros k h [_ Hk]%holder_delete. left. by apply Hw.
Qed.

Lemma settle_exact w w0 env r next want e0 err :
  holds next r -> (r_on r = true -> is_Some (r_token r)) -> want = negb (bool_decide (next = ∅)) ->
  (want = true -> forall h, h ∈ next -> r_on r = true /\ r_owner r = h.1 /\ r_token r = Some h.2) ->
  (err = None -> e0 = epoch w -> want = true -> live w (r_key r) = true /\ r_key r ∈ engine_on w) ->
  (forall k h, holder w k h -> holder w0 k h) ->
  exact w0 (settle_change w env r next want e0 err).
Proof.
  intros Hh Ht Hwant Hnew Hon Hw. unfold settle_change. destruct (epoch w =? e0) eqn:Ee; cbn [negb]; bool_to_prop.
  - destruct err as [e|].
    + destruct want; cbn [negb]; apply exact_no_grant; try (by intros r' [= ]%list_elem_of_singleton); [done|].
      intros k h [[_ Hin]|[_ Hk]]%holder_insert; [set_solver|by apply Hw].
    + destruct want.
      * apply record_exact; auto.
      * apply release_exact; [|done]. destruct (r_on r) eqn:Er; [|done]. exfalso. unfold holds in Hh. rewrite Er in Hh. destruct (Ht eq_refl) as [t Et].
        rewrite Et in Hh. symmetry in Hwant. apply negb_false_iff, bool_decide_eq_true in Hwant. set_solver.
  - destruct (want && bool_decide (err = None) && live w (r_key r)).
    + destruct (retry_keys_exact env [r_key r] (set_leases w (<[r_key r := default ∅ (leases w !! r_key r)]> (leases w))) [(r, Some LifecycleChanged)]) as [H1 H2].
      { repeat constructor. by eexists. }
      destruct (retry_keys _ _ _ _) as [w' rs]. apply exact_no_grant; [done|]. intros k h Hk. apply Hw. specialize (H2 k h Hk).
      apply holder_insert in H2 as [[-> Hin]|[_ ?]]; [|done]. unfold holder. destruct (leases w !! r_key r) as [hs|]; [by exists hs|set_solver].
    + apply exact_no_grant; [by intros r' [= ]%list_elem_of_singleton|]. intros k h Hk. apply Hw. destruct (negb want && bool_decide (err = None)); [|done].
      by apply holder_delete in Hk as [_ ?].
Qed.

Lemma change_exact w env r : Inv w -> exact w (change w env r).
Proof.
  intros Hi. unfold change. destruct (slot (r_key r) <? 0); [apply exact_refused|].
  destruct (r_on r && bool_decide (r_token r = None)) eqn:Etok; [apply exact_refused|].
  destruct (bool_decide (r_key r ∈ busy w)) eqn:Hb; [apply exact_refused|]. apply bool_decide_eq_false in Hb.
  assert (r_on r = true -> is_Some (r_token r)) as Ht.
  { intros Hon. rewrite Hon in Etok. cbn in Etok. apply bool_decide_eq_false in Etok. destruct (r_token r); [by eexists|done]. }
  destruct (live w (r_key r)) eqn:El; cbn [negb].
  2: { destruct (r_on r) eqn:Er; [|by apply release_exact].
       apply exact_no_grant; [by intros r' [= ]%list_elem_of_singleton|]. by intros k h [_ ?]%holder_delete. }
  set (next := next_holders (default ∅ (leases w !! r_key r)) r).
  pose proof (next_holders_holds (default ∅ (leases w !! r_key r)) r Ht) as Hh. fold next in Hh.
  assert (forall h, h ∈ next -> holder w (r_key r) h \/ r_on r = true /\ r_owner r = h.1 /\ r_token r = Some h.2) as Hnew.
  { intros h [Hin|]%next_holders_new; [left|by right]. unfold holder. destruct (leases w !! r_key r) as [hs|]; [by exists hs|set_solver]. }
  destruct (eqb (bool_decide (is_Some (leases w !! r_key r))) (negb (bool_decide (next = ∅)))) eqn:Esame.
  - apply eqb_prop in Esame. destruct (negb (bool_decide (next = ∅))) eqn:Ew.
    + apply bool_decide_eq_true in Esame. apply record_exact; try done. intros _. split; [done|]. by apply (inv_free _ Hi).
    + apply bool_decide_eq_false in Esame. apply negb_false_iff, bool_decide_eq_true in Ew. split; [|intros; by left].
      intros r' [= ->]%list_elem_of_singleton. cbn [fst]. assert (forall h, ~ holder w (r_key r) h) as Hno.
      { intros h (hs & E & _). rewrite E in Esame. by destruct Esame; eexists. }
      unfold granted. destruct (r_on r) eqn:Er.
      * unfold holds in Hh. rewrite Er in Hh. destruct (Ht eq_refl) as [t Et]. rewrite Et in Hh. set_solver.
      * destruct (r_token r); [|intros t]; apply Hno.
  - destruct (invoke_ready w env (r_key r)) as [e|c] eqn:Er.
    + apply settle_exact; try done. intros Hwant h Hin. destruct (Hnew h Hin) as [(hs & E & _)|]; [|done]. rewrite E in Esame. rewrite Hwant in Esame.
      by rewrite bool_decide_eq_true_2 in Esame by by eexists.
    + apply exact_no_grant; [intros r'; apply not_elem_of_nil|done].
Qed.

Lemma return_exact w env ok : Inv w -> exact w (engine_return w env ok).
Proof.
  intros Hi. unfold engine_return. destruct (stack w) as [|f st] eqn:Est; [by apply exact_no_grant; [intros r'; apply not_elem_of_nil|]|].
  pose proof (inv_asked _ Hi) as Has. rewrite Est in Has. apply Forall_cons in Has as [Has _].
  destruct f as [r next want e0|k rest reply]; cbn [frame_key].
  - destruct Has as (H1 & H2 & H3 & H4 & H5 & H6). apply settle_exact; try done.
    intros Hok He Hwant. destruct ok; [|done]. rewrite (live_books w) by done. split; [by apply H6|]. cbn [engine_on]. rewrite Hwant. set_solver.
  - destruct (retry_keys_exact env rest (if ok then set_leases (mkWorld (books w) (leases w) (busy w ∖ {[k]}) (epoch w) st (if ok then engine_on w ∖ {[k]} else engine_on w)) (delete k (leases w))
      else mkWorld (books w) (leases w) (busy w ∖ {[k]}) (epoch w) st (if ok then engine_on w ∖ {[k]} else engine_on w)) reply Has) as [H1 H2].
    destruct (retry_keys _ _ _ _) as [w' rs]. apply exact_no_grant; [done|]. intros k' h Hk. specialize (H2 k' h Hk). destruct ok; [|done].
    by apply (holder_delete (mkWorld (books w) (leases w) _ _ _ _)) in H2 as [_ ?].
Qed.

Lemma remove_where_holders w env m k h : holder (remove_where w env m).1 k h -> holder w k h /\ m k h = false.
Proof.
  unfold remove_where. intros Hk. apply retry_keys_exact in Hk; [|done]. destruct Hk as (hs & Hl & Hin). cbn in Hl.
  rewrite map_lookup_imap in Hl. apply bind_Some in Hl as (hs0 & [Hl _]%map_lookup_filter_Some & [= <-]).
  apply elem_of_filter in Hin as [Hm Hin]. split; [by exists hs0|done].
Qed.

Lemma entity_op_holders w o k h : holder (entity_op w o) k h -> holder w k h.
Proof.
  unfold entity_op. destruct (EntityLive.step (books w) o) as [b notes]. intros Hk. assert (forall w n, holder (notified w n) k h -> holder w k h) as Hn.
  { clear. intros w n. destruct n as [|i [d|]| | | |]; cbn; try done; intros (hs & Hl & Hin); cbn in Hl.
    - apply map_lookup_filter_Some in Hl as [Hl _]. by exists hs.
    - by rewrite lookup_empty in Hl.
    - apply map_lookup_filter_Some in Hl as [Hl _]. by exists hs. }
  change (holder w k h) with (holder (with_books w b) k h). fold (with_books w b) in Hk. revert Hk. generalize (with_books w b).
  induction notes as [|n notes IH]; intros w'; cbn; [done|]. intros Hk%IH. by apply Hn in Hk.
Qed.

Lemma remove_where_exact w env m : exact w (remove_where w env m).
Proof.
  split; [|intros k h Hk; left; by apply remove_where_holders in Hk as [? _]].
  intros r Hr. unfold remove_where in Hr. by apply retry_keys_exact in Hr.
Qed.

Lemma step_exact w a : Inv w -> exact w (step w a).
Proof.
  intros Hi. destruct a as [o ph c i d s t on env|o g c i d s t env|o|s env|o env|env|ok env]; cbn [step].
  - unfold native. destruct o as [o|]; [|apply exact_refused].
    destruct ph as [[]|]; try apply exact_refused; (destruct (game_package_owner env); [by apply change_exact|apply exact_refused]).
  - by apply change_exact.
  - apply exact_no_grant; [intros r; apply not_elem_of_nil|]. intros k h. apply entity_op_holders.
  - apply remove_where_exact.
  - apply remove_where_exact.
  - unfold retry_pending. destruct (retry_keys_exact env (pending (leases w)) w []) as [H1 H2]; [done|].
    destruct (retry_keys _ _ _ _) as [w' rs]. by apply exact_no_grant.
  - by apply return_exact.
Qed.

Lemma acts_mints_app a1 a2 : acts_mints (a1 ++ a2) = acts_mints a1 + acts_mints a2.
Proof. unfold acts_mints. induction a1 as [|a a1 IH]; cbn; [done|]. rewrite IH. lia. Qed.

Lemma history_app a1 a2 : history_ok (a1 ++ a2) -> history_ok a1.
Proof.
  unfold history_ok. rewrite acts_mints_app, length_app. pose proof (acts_mints_nonneg a2). lia.
Qed.

(** An acquire is answered without an error only when the entity is live, its switch is on and the holder
    is recorded; a release only when no such holder is left; and a step adds no holder but the ones whose
    acquire it answers without an error. *)
Theorem switch_answers_exact acts a :
  history_ok acts ->
  let w := (run init acts).1 in let '(w', rs) := step w a in
  (forall r, (r, None) ∈ rs -> granted w' r) /\ (forall k h, holder w' k h -> holder w k h \/ acquired rs k h).
Proof.
  intros Hh w. destruct (reach_Inv acts Hh) as [Hi _]. fold w in Hi. pose proof (step_exact w a Hi) as He.
  by destruct (step w a) as [w' rs].
Qed.

(** *** Unloading *)

Definition asks (o : string) (a : Act) : Prop :=
  match a with
  | Native owner _ _ _ _ _ _ _ _ => owner = Some o
  | ReleaseRecorded owner _ _ _ _ _ _ _ => owner = o
  | _ => False
  end.

Lemma retry_keys_stack env keys : forall w reply, exists fs, stack (retry_keys w env keys reply).1 = fs ++ stack w /\ Forall (fun f => match f with FRetry _ _ _ => True | _ => False end) fs.
Proof.
  induction keys as [|k keys IH]; intros w reply; cbn [retry_keys]; [by exists []|].
  destruct (negb (bool_decide (leases w !! k = Some ∅))); [apply IH|]. destruct (bool_decide (k ∈ busy w)); [apply IH|].
  destruct (negb (live w k)); [apply (IH (set_leases w (delete k (leases w))))|]. destruct (invoke_ready w env k); [apply IH|].
  exists [FRetry k keys reply]. split; [done|]. by repeat constructor.
Qed.

Definition quiet (o : string) (e : Z) (f : Frame) : Prop := match f with FChange r next want e0 => r_owner r = o -> e0 < e | FRetry _ _ _ => True end.

Lemma retry_keys_quiet o e env keys w reply : Forall (quiet o e) (stack w) -> Forall (quiet o e) (stack (retry_keys w env keys reply).1).
Proof.
  intros Hq. destruct (retry_keys_stack env keys w reply) as (fs & -> & Hfs). apply Forall_app. split; [|done].
  eapply Forall_impl; [exact Hfs|]. by intros [].
Qed.

Lemma settle_quiet o e w env r next want e0 err : Forall (quiet o e) (stack w) -> Forall (quiet o e) (stack (settle_change w env r next want e0 err).1).
Proof.
  intros Hq. unfold settle_change. destruct (negb (epoch w =? e0)).
  - destruct (want && bool_decide (err = None) && live w (r_key r)); [by apply retry_keys_quiet|]. by destruct (negb want && bool_decide (err = None)).
  - destruct err; [by destruct want|by destruct want].
Qed.

Lemma change_quiet o e w env r : r_owner r <> o -> Forall (quiet o e) (stack w) -> Forall (quiet o e) (stack (change w env r).1).
Proof.
  intros Hne Hq. unfold change. destruct (slot (r_key r) <? 0); [done|]. destruct (r_on r && bool_decide (r_token r = None)); [done|].
  destruct (bool_decide (r_key r ∈ busy w)); [done|]. destruct (negb (live w (r_key r))); [done|].
  set (next := next_holders (default ∅ (leases w !! r_key r)) r).
  destruct (eqb _ _); [by destruct (negb (bool_decide (next = ∅)))|]. destruct (invoke_ready w env (r_key r)); [by apply settle_quiet|].
  cbn. constructor; [by intros ?|done].
Qed.

Lemma step_quiet o w a : Inv w -> epoch w < u64_max -> ~ asks o a -> Forall (quiet o (epoch w)) (stack w) ->
  Forall (quiet o (epoch w)) (stack (step w a).1).
Proof.
  intros Hi Hlt Hno Hq. destruct a as [ow ph c i d s t on env|ow g c i d s t env|oo|s env|oo env|env|ok env]; cbn [step asks] in *.
  - unfold native. destruct ow as [ow|]; [|done]. destruct ph as [[]|]; try done; (destruct (game_package_owner env); [|done]); apply change_quiet; try done; cbn; congruence.
  - by apply change_quiet.
  - unfold entity_op. destruct (EntityLive.step (books w) oo) as [b notes]. cbn [fst].
    assert (forall w' n, stack (notified w' n) = stack w') as Hn by (intros w' [|? []| | | |]; done).
    change (stack w) with (stack (with_books w b)) in Hq. fold (with_books w b). revert Hq. generalize (with_books w b).
    induction notes as [|n notes IH]; intros w'; cbn; [done|]. intros Hw. apply IH. by rewrite Hn.
  - by apply retry_keys_quiet.
  - by apply retry_keys_quiet.
  - by apply retry_keys_quiet.
  - unfold engine_return. destruct (stack w) as [|f st] eqn:Est; [by cbn; rewrite Est|]. apply Forall_cons in Hq as [Hf Hst].
    destruct f; [by apply settle_quiet|]. apply retry_keys_quiet. by destruct ok.
Qed.

Lemma quiet_mono o e e' f : e <= e' -> quiet o e f -> quiet o e' f.
Proof. destruct f as [r next want e0|]; [|done]. cbn. intros He Hq Hr. specialize (Hq Hr). lia. Qed.

(** No holder is the owner's, and no claim of its in flight can still be granted. *)
Definition clear_of (o : string) (w : World) : Prop := (forall k h, holder w k h -> h.1 <> o) /\ Forall (quiet o (epoch w)) (stack w).

Lemma remove_owner_clears w env o : Inv w -> epoch w < u64_max -> clear_of o (remove_owner w env o).1.
Proof.
  intros Hi Hlt. destruct (remove_where_Inv w env (fun _ h => String.eqb h.1 o) Hi Hlt) as [_ He]. split.
  - intros k h [_ Hm]%remove_where_holders. by apply String.eqb_neq.
  - fold (remove_owner w env o) in He. rewrite He. apply retry_keys_quiet. cbn.
    eapply Forall_impl; [apply (inv_asked _ Hi)|]. intros [r next want e0|]; [|done]. intros (_ & _ & _ & _ & Hle & _) _. lia.
Qed.

(** A claim answered from the stack carries a frame's request, one answered directly carries the act's. *)
Lemma step_acquired_clear o w a k h :
  Inv w -> Forall (quiet o (epoch w)) (stack w) -> ~ asks o a -> acquired (step w a).2 k h -> h.1 <> o.
Proof.
  intros Hi Hq Hno (r & Hin & Hon & _ & <- & _).
  assert (forall env r', r_owner r' <> o -> (r, None) ∈ (change w env r').2 -> r_owner r <> o) as Hch.
  { intros env r' Hne. unfold change. destruct (slot (r_key r') <? 0); [by intros [= ]%list_elem_of_singleton|].
    destruct (r_on r' && bool_decide (r_token r' = None)); [by intros [= ]%list_elem_of_singleton|].
    destruct (bool_decide (r_key r' ∈ busy w)); [by intros [= ]%list_elem_of_singleton|].
    destruct (negb (live w (r_key r'))); [by destruct (r_on r'); intros [= <-]%list_elem_of_singleton|].
    set (next := next_holders (default ∅ (leases w !! r_key r')) r'). destruct (eqb _ _); [by intros [= <-]%list_elem_of_singleton|].
    destruct (invoke_ready w env (r_key r')); [|by intros ?%elem_of_nil]. unfold settle_change. rewrite Z.eqb_refl. by intros [= ]%list_elem_of_singleton. }
  destruct a as [ow ph c i d s t on env|ow g c i d s t env|oo|s env|oo env|env|ok env]; cbn [step asks] in *.
  - unfold native in Hin. destruct ow as [ow|]; [|by apply list_elem_of_singleton in Hin].
    destruct ph as [[]|]; try (by apply list_elem_of_singleton in Hin);
      (destruct (game_package_owner env); [|by apply list_elem_of_singleton in Hin]); (eapply Hch, Hin; cbn; congruence).
  - by eapply Hch, Hin.
  - by apply elem_of_nil in Hin.
  - by apply retry_keys_exact in Hin.
  - by apply retry_keys_exact in Hin.
  - by apply retry_keys_exact in Hin.
  - unfold engine_return in Hin. destruct (stack w) as [|f st] eqn:Est; [by apply elem_of_nil in Hin|]. apply Forall_cons in Hq as [Hf _].
    pose proof (inv_asked _ Hi) as Has. rewrite Est in Has. apply Forall_cons in Has as [Has _].
    destruct f as [r' next want e0|k' rest reply]; [|by apply retry_keys_exact in Hin].
    unfold settle_change in Hin. cbn [epoch] in Hin. destruct (Z.eqb_spec (epoch w) e0) as [E|E]; cbn [negb] in Hin.
    + assert (r' = r) as ->. { destruct ok; [|by apply list_elem_of_singleton in Hin]. by apply list_elem_of_singleton in Hin as [= ->]. }
      cbn in Hf. intros Ho. specialize (Hf Ho). lia.
    + destruct (want && _ && _); [|by apply list_elem_of_singleton in Hin]. apply retry_keys_exact in Hin; [done|]. repeat constructor. by eexists.
Qed.

Lemma run_clear o acts : forall w, Inv w -> epoch w + Z.of_nat (length acts) <= u64_max -> next_id w + acts_mints acts <= u64_max ->
  Forall (fun a => ~ asks o a) acts -> clear_of o w -> clear_of o (run w acts).1.
Proof.
  induction acts as [|a acts IH]; intros w Hi He Hm Hno Hcl; cbn [run length acts_mints foldr] in *; [done|].
  fold (acts_mints acts) in *. pose proof (acts_mints_nonneg acts). pose proof (act_mints_nonneg a).
  destruct (step_Inv w a Hi ltac:(lia) ltac:(lia)) as (H1 & H2 & H3). apply Forall_cons in Hno as [Hno Hnos]. destruct Hcl as [Hh Hq].
  assert (clear_of o (step w a).1) as Hcl'.
  { split.
    - intros k h Hk. destruct (step_exact w a Hi) as [_ Hx]. destruct (Hx k h Hk) as [|Hacq]; [by eapply Hh|]. by apply (step_acquired_clear o w a k h).
    - eapply Forall_impl; [apply (step_quiet o w a Hi ltac:(lia) Hno Hq)|]. intros f. apply quiet_mono. lia. }
  destruct (step w a) as [w1 rs]. cbn [fst] in *. specialize (IH w1 H1 ltac:(lia) ltac:(lia) Hnos Hcl'). by destruct (run w1 acts).
Qed.

(** Once a plugin is unloaded, no lease names it again unless it asks again: the claims it had in flight
    at the unload are not recorded when their engine calls return. *)
Theorem switch_unload_final acts o env acts' :
  history_ok (acts ++ RemoveOwner o env :: acts') -> Forall (fun a => ~ asks o a) acts' ->
  forall k h, holder (run (step (run init acts).1 (RemoveOwner o env)).1 acts').1 k h -> h.1 <> o.
Proof.
  intros Hh Hno. pose proof (history_app _ _ Hh) as Hh0. destruct (reach_Inv acts Hh0) as (Hi & He & Hn).
  destruct Hh as [Hlen Hm]. rewrite length_app in Hlen. rewrite acts_mints_app in Hm. cbn [length acts_mints foldr act_mints] in *. fold (acts_mints acts') in Hm.
  pose proof (acts_mints_nonneg acts'). pose proof (acts_mints_nonneg acts).
  destruct (step_Inv (run init acts).1 (RemoveOwner o env) Hi) as (H1 & H2 & H3); [lia|cbn; lia|]. cbn [act_mints] in H3.
  apply (run_clear o acts'); [done|lia|lia|done|]. apply remove_owner_clears; [done|lia].
Qed.
End SharedSwitch.

Module SharedSwitchExamples.
Import SharedSwitch.

Definition env : Env := mkEnv (Some "g") (fun _ _ => Some (mkPlan 7 ["int"; "bool"] RET_VOID [] false)) true.
Definition ask (o : string) (token : option string) (on : bool) : Act := Native (Some o) None "toggle" 10 1 2 token on env.
Definition key : Key := mkKey "g" "toggle" 10 1 2.

(** Two owners share one switch: the first turns it on, the last turns it off. *)
Definition shared : list Act :=
  [EntityOp (EntityLive.Created 10 123); ask "a" (Some "t") true; Return true env; ask "b" (Some "t") true; ask "a" None false; ask "b" (Some "t") false].
Example last_release_waits : (stack (run init shared).1, snd <$> (run init shared).2) =
  ([FChange (mkRequest "b" key (Some "t") false) ∅ false 1], [None; None; None]).
Proof. vm_compute. reflexivity. Qed.

(** The plugin unloads while its first claim waits: the claim is rolled back through a second call. *)
Definition unloaded : list Act := [EntityOp (EntityLive.Created 10 123); ask "a" (Some "t") true].
Example rolled_back : (snd <$> (run init (unloaded ++ [RemoveOwner "a" env; Return true env; Return true env])).2) = [Some LifecycleChanged].
Proof. vm_compute. reflexivity. Qed.

Lemma shared_ok : history_ok shared.
Proof. by split. Qed.

Lemma switch_agrees_witness :
  history_ok shared /\
  let w := (run init shared).1 in
  NoDup (frame_key <$> stack w) /\ (forall k, k ∈ busy w <-> k ∈ frame_key <$> stack w) /\
  forall k, live w k = true -> k ∉ busy w -> (k ∈ engine_on w <-> is_Some (leases w !! k)).
Proof. split; [by split|]. apply (switch_agrees shared). by split. Defined.

Lemma switch_answers_exact_witness :
  history_ok shared /\
  let w := (run init shared).1 in let '(w', rs) := step w (Return true env) in
  (forall r, (r, None) ∈ rs -> granted w' r) /\ (forall k h, holder w' k h -> holder w k h \/ acquired rs k h).
Proof. split; [by split|]. apply (switch_answers_exact shared (Return true env)). by split. Defined.

Lemma switch_unload_final_witness :
  history_ok (unloaded ++ RemoveOwner "a" env :: [Return true env; Return false env]) /\
  forall k h, holder (run (step (run init unloaded).1 (RemoveOwner "a" env)).1 [Return true env; Return false env]).1 k h -> h.1 <> "a".
Proof.
  split; [by split|]. apply (switch_unload_final unloaded "a" env [Return true env; Return false env]); [by split|].
  repeat constructor; by intros [].
Defined.
End SharedSwitchExamples.
