(* ===== verification/Dispatch.v ===== *)
(** Fan-out of engine events to JavaScript handlers (core/src/dispatch.rs).

    A dispatch walks a snapshot of subscribers: each whose owner is still live and has a context is
    called, and the numbers they return collapse to one result that may cut the walk short. A handler is
    an arbitrary transformer of the host with an outcome; the host keeps what the dispatch reads and
    writes around it: the stack of busy plugin generations, the dispatch epoch and depth, whether
    callbacks are deferred, whether a native is paused on the stack, and the state of the isolate's
    borrow. Crash breadcrumbs, profiling spans, log lines and crash reports are not modelled. *)
From S2P Require Import Prelude.
From S2P Require Import Multiplexer.

Import Multiplexer.

Module Dispatch.

Inductive StopAt := Never | AtStop | AtHandled.
#[export] Instance StopAt_eq_dec : EqDecision StopAt.
Proof. solve_decision. Defined.
Inductive Delivery := Delivered | Deferred.
(** The isolate is free, already borrowed by an outer dispatch, or not there. *)
Inductive HostAccess := Available | Busy | Absent.

Section Dispatch.
(** What the handlers can change besides, the handlers and the arguments. *)
Context {St Fn Arg : Type}.

Record Host := mkHost {
  busy_parents : list (string * Z * option Z);
  dispatch_epoch : Z;
  depth : Z;
  deferring : bool;
  paused_native : bool;
  isolate : HostAccess;
  rest : St;
}.

(** The outcome of a call: it threw, or returned a number or anything else. *)
Inductive Outcome := Threw | Number (u : Z) | Other.

Variable owner_is_live : Host -> string -> Z -> bool.
Variable has_context : Host -> string -> bool.
Variable call : Host -> Fn -> Arg -> Host * Outcome.

Notation Row := (string * Z * Fn)%type.

(** ** Scopes *)

Definition set_busy (h : Host) (b : list (string * Z * option Z)) : Host :=
  mkHost b (dispatch_epoch h) (depth h) (deferring h) (paused_native h) (isolate h) (rest h).
Definition enter_parent (h : Host) (owner : string) (generation : Z) (target : option Z) : Host :=
  set_busy h ((owner, generation, target) :: busy_parents h).
Definition leave_parent (h : Host) : Host := set_busy h (tail (busy_parents h)).
Definition parent_busy (h : Host) (owner : string) (generation target : Z) : bool :=
  existsb (fun p => String.eqb p.1.1 owner && (p.1.2 =? generation) && bool_decide (p.2 = Some target)) (busy_parents h).

Definition current_epoch (h : Host) : option Z := if 0 <? depth h then Some (dispatch_epoch h) else None.
Definition set_epoch (h : Host) (epoch d : Z) : Host :=
  mkHost (busy_parents h) epoch d (deferring h) (paused_native h) (isolate h) (rest h).
Definition enter_dispatch (h : Host) : Host :=
  set_epoch h (if depth h =? 0 then wrap64 (dispatch_epoch h + 1) else dispatch_epoch h) (u64_succ (depth h)).
Definition leave_dispatch (h : Host) : Host := set_epoch h (dispatch_epoch h) (u64_pred (depth h)).

Definition set_deferring (h : Host) (d : bool) : Host :=
  mkHost (busy_parents h) (dispatch_epoch h) (depth h) d (paused_native h) (isolate h) (rest h).
Definition defer_while {R} (h : Host) (f : Host -> Host * R) : Host * R :=
  let '(h', r) := f (set_deferring h true) in (set_deferring h' (deferring h), r).

Definition set_isolate (h : Host) (i : HostAccess) : Host :=
  mkHost (busy_parents h) (dispatch_epoch h) (depth h) (deferring h) (paused_native h) i (rest h).

(** ** The walk *)

Definition truncated (stop_at : StopAt) (result : Multiplexer.HookResult) : bool :=
  match stop_at with
  | Never => false
  | AtStop => bool_decide (result = Multiplexer.HStop)
  | AtHandled => Multiplexer.result_rank Multiplexer.Handled <=? Multiplexer.result_rank result
  end.

Definition hook_result (u : Z) : Multiplexer.HookResult :=
  if u =? 1 then Multiplexer.Changed else if u =? 2 then Multiplexer.Handled else if u =? 3 then Multiplexer.HStop else Multiplexer.Continue.

(** What a call's outcome counts as; a notification does not read it. *)
Definition collapse (stop_at : StopAt) (o : Outcome) (result : Multiplexer.HookResult) : Multiplexer.HookResult :=
  match o with
  | Number u => if bool_decide (stop_at = Never) then result
                else if Multiplexer.result_gt (hook_result u) result then hook_result u else result
  | _ => result
  end.

(** One subscriber: skipped, or called with its generation marked busy. *)
Definition call_subscriber (build_args : Host -> option Arg) (h : Host) (row : Row) : Host * option Outcome :=
  let '(owner, generation, f) := row in
  if negb (owner_is_live h owner generation) then (h, None)
  else if negb (has_context h owner) then (h, None)
  else match build_args h with
       | None => (h, None)
       | Some args =>
           let '(h', o) := call (enter_parent h owner generation None) f args in
           (leave_parent h', Some o)
       end.

Fixpoint fan_out_subscribers (build_args : Host -> option Arg) (stop_at : StopAt) (h : Host) (snap : list Row) (result : Multiplexer.HookResult)
    : Host * Multiplexer.HookResult :=
  match snap with
  | [] => (h, result)
  | row :: snap =>
      if negb (bool_decide (stop_at = Never)) && truncated stop_at result then (h, result)
      else
        let '(h, o) := call_subscriber build_args h row in
        fan_out_subscribers build_args stop_at h snap (match o with Some o => collapse stop_at o result | None => result end)
  end.

(** [fan_out_inner]: the walk runs under a paused native's scope, or with the isolate borrowed. *)
Definition fan_out_inner (h : Host) (snap : list Row) (stop_at : StopAt) (build_args : Host -> option Arg)
    : Host * (Multiplexer.HookResult * Delivery) :=
  let h := enter_dispatch h in
  let '(h, r) :=
    match snap with
    | [] => (h, (Multiplexer.Continue, Delivered))
    | _ =>
        if deferring h then (h, (Multiplexer.Continue, Deferred))
        else if paused_native h then
          let '(h, r) := fan_out_subscribers build_args stop_at h snap Multiplexer.Continue in (h, (r, Delivered))
        else match isolate h with
             | Available =>
                 let '(h, r) := fan_out_subscribers build_args stop_at (set_isolate h Busy) snap Multiplexer.Continue in
                 (set_isolate h Available, (r, Delivered))
             | Busy => (h, (Multiplexer.Continue, Deferred))
             | Absent => (h, (Multiplexer.Continue, Delivered))
             end
    end in
  (leave_dispatch h, r).

Definition fan_out (h : Host) (snap : list Row) (build_args : Host -> option Arg) : Host * Delivery :=
  let '(h, (_, d)) := fan_out_inner h snap Never build_args in (h, d).
Definition fan_out_collapsing (h : Host) (snap : list Row) (stop_at : StopAt) (build_args : Host -> option Arg) : Host * Multiplexer.HookResult :=
  let '(h, (r, _)) := fan_out_inner h snap stop_at build_args in (h, r).

(** ** Properties *)

Section Runs.
Variable build_args : Host -> option Arg.

(** A subscriber as [run_chain] sees it: skipped ones continue, a throw is a failure. *)
Definition as_handler (h : Host) (row : Row) : Host * option Multiplexer.HookResult :=
  let '(h, o) := call_subscriber build_args h row in
  (h, match o with
      | None | Some Other => Some Multiplexer.Continue
      | Some (Number u) => Some (hook_result u)
      | Some Threw => None
      end).

(** Once stopped, only monitors run, and the snapshot of a fan-out has none. *)
Lemma run_chain_stopped (snap : list Row) h result errored :
  Multiplexer.run_chain_loop ((fun row => (0, Multiplexer.Normal, row)) <$> snap) as_handler h result true errored = (h, Multiplexer.mkOutcome result errored).
Proof. induction snap as [|row snap IH]; csimpl; [done|]. apply IH. Qed.

Lemma fan_out_stop_chain (snap : list Row) : forall h result errored,
  let '(h1, r1) := fan_out_subscribers build_args AtStop h snap result in
  let '(h2, out) := Multiplexer.run_chain_loop ((fun row => (0, Multiplexer.Normal, row)) <$> snap) as_handler h result (bool_decide (result = Multiplexer.HStop)) errored in
  h1 = h2 /\ r1 = Multiplexer.result out.
Proof.
  induction snap as [|row snap IH]; intros h result errored; csimpl; [done|].
  rewrite ?(bool_decide_eq_false_2 (AtStop = Never)), ?(bool_decide_eq_false_2 (Multiplexer.Normal = Multiplexer.Monitor)) by done.
  cbn [negb andb truncated]. case_bool_decide as Hs; cbn [negb andb].
  - by rewrite run_chain_stopped.
  - unfold as_handler. destruct (call_subscriber build_args h row) as [h' o].
    assert (bool_decide (result = Multiplexer.HStop) = false) as Hb by by apply bool_decide_eq_false.
    destruct o as [[|u|]|].
    + specialize (IH h' result (errored ++ [0])). rewrite Hb in IH. exact IH.
    + unfold collapse. rewrite (bool_decide_eq_false_2 (AtStop = Never)) by done.
      set (result' := if Multiplexer.result_gt (hook_result u) result then hook_result u else result).
      assert ((if bool_decide (hook_result u = Multiplexer.HStop) then true else false) = bool_decide (result' = Multiplexer.HStop)) as ->; [|apply IH].
      unfold result', Multiplexer.result_gt. destruct result, (hook_result u); done.
    + assert (Multiplexer.result_gt Multiplexer.Continue result = false) as -> by (by destruct result).
      rewrite (bool_decide_eq_false_2 (Multiplexer.Continue = Multiplexer.HStop)) by done. specialize (IH h' result errored). rewrite Hb in IH. exact IH.
    + assert (Multiplexer.result_gt Multiplexer.Continue result = false) as -> by (by destruct result).
      rewrite (bool_decide_eq_false_2 (Multiplexer.Continue = Multiplexer.HStop)) by done. specialize (IH h' result errored). rewrite Hb in IH. exact IH.
Qed.

(** A notification ignores what its handlers return. *)
Lemma fan_out_never (snap : list Row) : forall h result, (fan_out_subscribers build_args Never h snap result).2 = result.
Proof.
  induction snap as [|row snap IH]; intros h result; cbn [fan_out_subscribers]; [done|].
  rewrite bool_decide_eq_true_2 by done. cbn [negb andb]. destruct (call_subscriber build_args h row) as [h' o]. rewrite IH.
  unfold collapse. by destruct o as [[|u|]|].
Qed.
End Runs.

(** The collapsing fan-out of unprioritised subscribers is [multiplexer::run_chain]: same handlers called
    in the same order on the same states, same result. *)
Theorem fan_out_is_run_chain h snap build_args :
  deferring h = false -> paused_native h = false -> isolate h = Available -> snap <> [] ->
  let h1 := set_isolate (enter_dispatch h) Busy in
  let '(h2, out) := Multiplexer.run_chain ((fun row => (0, Multiplexer.Normal, row)) <$> snap) (as_handler build_args) h1 in
  fan_out_collapsing h snap AtStop build_args = (leave_dispatch (set_isolate h2 Available), Multiplexer.result out).
Proof.
  intros Hd Hp Hi Hne h1. unfold fan_out_collapsing, fan_out_inner, Multiplexer.run_chain. destruct snap as [|row snap]; [done|].
  change (deferring (enter_dispatch h)) with (deferring h). change (paused_native (enter_dispatch h)) with (paused_native h).
  change (isolate (enter_dispatch h)) with (isolate h). rewrite Hd, Hp, Hi. fold h1.
  pose proof (fan_out_stop_chain build_args (row :: snap) h1 Multiplexer.Continue []) as Hc.
  rewrite (bool_decide_eq_false_2 (Multiplexer.Continue = Multiplexer.HStop)) in Hc by done.
  destruct (fan_out_subscribers _ _ _ _ _) as [h' r]. destruct (Multiplexer.run_chain_loop _ _ _ _ _ _) as [h2 out].
  by destruct Hc as [<- <-].
Qed.

(** *** Scopes are balanced *)

(** Handlers nest: each call comes back with the stacks as it found them. *)
Definition nests (h h' : Host) : Prop :=
  busy_parents h' = busy_parents h /\ depth h' = depth h /\ isolate h' = isolate h /\ deferring h' = deferring h /\ dispatch_epoch h' = dispatch_epoch h.
Hypothesis call_nests : forall h f args, 0 < depth h -> nests h (call h f args).1.

Lemma call_subscriber_nests build_args h row : 0 < depth h -> nests h (call_subscriber build_args h row).1.
Proof.
  intros Hd. unfold call_subscriber. destruct row as [[o g] f]. destruct (negb (owner_is_live h o g)); [done|].
  destruct (negb (has_context h o)); [done|]. destruct (build_args h) as [args|]; [|done].
  pose proof (call_nests (enter_parent h o g None) f args Hd) as (H1 & H2 & H3 & H4 & H5). destruct (call _ f args) as [h' out]. cbn [fst] in *.
  unfold nests, leave_parent, set_busy. cbn. rewrite H1, H2, H3, H4, H5. done.
Qed.

Lemma nests_trans h1 h2 h3 : nests h1 h2 -> nests h2 h3 -> nests h1 h3.
Proof. unfold nests. intros (-> & -> & -> & -> & ->). done. Qed.

Lemma fan_out_subscribers_nests build_args stop_at snap : forall h result,
  0 < depth h -> nests h (fan_out_subscribers build_args stop_at h snap result).1.
Proof.
  induction snap as [|row snap IH]; intros h result Hd; cbn [fan_out_subscribers]; [done|].
  destruct (negb (bool_decide (stop_at = Never)) && truncated stop_at result); [done|].
  pose proof (call_subscriber_nests build_args h row Hd) as Hn. destruct (call_subscriber build_args h row) as [h' o]. cbn [fst] in Hn.
  eapply nests_trans; [exact Hn|]. apply IH. destruct Hn as (_ & -> & _). done.
Qed.

Lemma set_isolate_nests h i j h' : isolate h = i -> nests (set_isolate h j) h' -> nests h (set_isolate h' i).
Proof. unfold nests. cbn. intros <- (-> & -> & _ & -> & ->). done. Qed.

(** The walk between the entry and the exit of the dispatch scope leaves the scopes as they were. *)
Lemma fan_out_inner_nests h snap stop_at build_args :
  0 <= depth h < u64_max ->
  exists h', (fan_out_inner h snap stop_at build_args).1 = leave_dispatch h' /\ nests (enter_dispatch h) h'.
Proof.
  intros Hd. unfold fan_out_inner. assert (0 < depth (enter_dispatch h)) as Hpos by (cbn; rewrite u64_succ_small by lia; lia).
  destruct snap as [|row snap]; [by eexists|]. destruct (deferring (enter_dispatch h)); [by eexists|].
  destruct (paused_native (enter_dispatch h)).
  - pose proof (fan_out_subscribers_nests build_args stop_at (row :: snap) (enter_dispatch h) Multiplexer.Continue Hpos) as Hn.
    destruct (fan_out_subscribers _ _ _ _ _) as [h' r]. by exists h'.
  - destruct (isolate (enter_dispatch h)) eqn:Ei; [|by eexists..].
    pose proof (fan_out_subscribers_nests build_args stop_at (row :: snap) (set_isolate (enter_dispatch h) Busy) Multiplexer.Continue Hpos) as Hn.
    destruct (fan_out_subscribers _ _ _ _ _) as [h' r]. exists (set_isolate h' Available). split; [done|]. by apply (set_isolate_nests _ _ Busy).
Qed.

(** Every handler of a dispatch, and of the dispatches nested in it, runs in one epoch; the outermost
    dispatch alone starts a new one; and the dispatch leaves the scopes as it found them. *)
Theorem fan_out_scopes h snap stop_at build_args :
  0 <= depth h < u64_max -> 0 <= dispatch_epoch h < u64_max ->
  let h' := (fan_out_inner h snap stop_at build_args).1 in
  busy_parents h' = busy_parents h /\ depth h' = depth h /\ isolate h' = isolate h /\ deferring h' = deferring h /\
  dispatch_epoch h' = dispatch_epoch h + (if depth h =? 0 then 1 else 0) /\
  current_epoch (enter_dispatch h) = Some (dispatch_epoch h').
Proof.
  intros Hd He. destruct (fan_out_inner_nests h snap stop_at build_args Hd) as (h' & -> & (H1 & H2 & H3 & H4 & H5)).
  cbn [leave_dispatch set_epoch busy_parents depth isolate deferring dispatch_epoch].
  rewrite H1, H2, H3, H4, H5. unfold current_epoch. cbn. rewrite u64_succ_small by lia. rewrite u64_pred_small by lia.
  rewrite (proj2 (Z.ltb_lt 0 (depth h + 1))) by lia.
  destruct (Z.eqb_spec (depth h) 0); repeat split; try lia; (rewrite wrap64_small by (unfold u64_max in *; lia)); done.
Qed.

(** A fan-out asks for a replay exactly when somebody was subscribed and no handler could run; then
    nothing but the epoch has moved. *)
Theorem fan_out_deferred h snap stop_at build_args :
  let '(h', (r, d)) := fan_out_inner h snap stop_at build_args in
  (d = Deferred <-> snap <> [] /\ (deferring h = true \/ paused_native h = false /\ isolate h = Busy)) /\
  (d = Deferred -> h' = leave_dispatch (enter_dispatch h) /\ r = Multiplexer.Continue).
Proof.
  unfold fan_out_inner. destruct snap as [|row snap]; [split; [split; [done|by intros []]|done]|].
  change (deferring (enter_dispatch h)) with (deferring h). change (paused_native (enter_dispatch h)) with (paused_native h).
  change (isolate (enter_dispatch h)) with (isolate h).
  destruct (deferring h); [by split; [split; [by auto|]|]|]. destruct (paused_native h).
  - destruct (fan_out_subscribers _ _ _ _ _) as [h' r]. split; [split; [done|]|done]. by intros (_ & [|[]]).
  - destruct (isolate h).
    + destruct (fan_out_subscribers _ _ _ _ _) as [h' r]. split; [split; [done|]|done]. by intros (_ & [|[]]).
    + split; [split; [by auto|done]|done].
    + split; [split; [done|]|done]. by intros (_ & [|[]]).
Qed.
End Dispatch.
End Dispatch.

Module DispatchExamples.
Import Dispatch.

(** Handlers write their number down and return it; handler 9 throws. Owner "b" unloads when handler 1 has run. *)
Notation H := (Host (St := list Z)).
Definition live (h : H) (o : string) (_ : Z) : bool := negb (String.eqb o "b" && bool_decide (1 ∈ rest h)).
Definition call (h : H) (f : Z) (_ : unit) : H * Outcome :=
  (mkHost (busy_parents h) (dispatch_epoch h) (depth h) (deferring h) (paused_native h) (isolate h) (rest h ++ [f]),
   if f =? 9 then Threw else Number f).
Definition idle : H := mkHost [] 0 0 false false Available [].
Definition snap : list (string * Z * Z) := [("a", 1, 2); ("c", 1, 9); ("a", 1, 1); ("b", 1, 7); ("c", 1, 3); ("a", 1, 0)].

Example collapsed : let '(h, r) := fan_out_collapsing live (fun _ _ => true) call idle snap AtStop (fun _ => Some tt) in
  (rest h, r, busy_parents h, depth h) = ([2; 9; 1; 3], HStop, [], 0).
Proof. vm_compute. reflexivity. Qed.
Example notified : rest (fan_out live (fun _ _ => true) call idle snap (fun _ => Some tt)).1 = [2; 9; 1; 3; 0].
Proof. vm_compute. reflexivity. Qed.

Lemma call_nests h f args : 0 < depth h -> nests h (call h f args).1.
Proof. by intros _. Qed.

Lemma fan_out_is_run_chain_witness :
  let h1 := set_isolate (enter_dispatch idle) Busy in
  let '(h2, out) := Multiplexer.run_chain ((fun row => (0, Multiplexer.Normal, row)) <$> snap) (as_handler live (fun _ _ => true) call (fun _ => Some tt)) h1 in
  fan_out_collapsing live (fun _ _ => true) call idle snap AtStop (fun _ => Some tt) = (leave_dispatch (set_isolate h2 Available), Multiplexer.result out).
Proof. apply (fan_out_is_run_chain live (fun _ _ => true) call idle snap (fun _ => Some tt)); done. Defined.

Lemma fan_out_scopes_witness :
  let h' := (fan_out_inner live (fun _ _ => true) call idle snap AtStop (fun _ => Some tt)).1 in
  busy_parents h' = busy_parents idle /\ depth h' = depth idle /\ isolate h' = isolate idle /\ deferring h' = deferring idle /\
  dispatch_epoch h' = dispatch_epoch idle + (if depth idle =? 0 then 1 else 0) /\
  current_epoch (enter_dispatch idle) = Some (dispatch_epoch h').
Proof. apply (fan_out_scopes live (fun _ _ => true) call call_nests idle snap AtStop (fun _ => Some tt)); cbn; done. Defined.

End DispatchExamples.
