(* ===== verification/SurfaceLeases.v ===== *)
(** Surface leases (core/src/surface_leases.rs).

    A game adapter presents things on surfaces of an entity to one client: plugins hold leases on the
    lanes of a surface, the highest priority lease of a key is its winner, and only the winner may show
    anything. Before another lease takes over, or when a lease goes, what it shows is retired: hidden by
    an engine call and its input capture released. A retirement that fails is kept and retried.

    The host can be re-entered during a retirement: entities die, clients leave, plugins unload. The
    model is a machine whose stack holds the operations that wait for a retirement: any operation may run
    on top of them, and [Return] ends the engine call the top one waits for. The connection table, the
    entity books and the plugin registry are those of Liveness.v, EntityLive.v and Plugin.v. The stack
    and [shown], the leases that may be on screen, are what the model adds to the thread-locals; both
    retirement calls run with JavaScript deferred, so nothing is painted while one of them is under way. *)
From S2P Require Import Prelude.
From S2P Require Import Json.
From S2P Require Import Liveness.
From S2P Require Import EntityLive.
From S2P Require Import Plugin.
From S2P Require Import SharedSwitch.
From Stdlib Require Ascii String.
Import Json.

Module SurfaceLeases.

(** ** Keys, policies and adapters *)

Record Key := mkKey { surface : string; index : Z; entity : Z; slot : Z; client : Z; lane : nat }.
#[export] Instance Key_eq_dec : EqDecision Key.
Proof. solve_decision. Defined.

Definition same_group (a b : Key) : bool :=
  bool_decide (surface a = surface b) && (index a =? index b) && (entity a =? entity b)
  && (slot a =? slot b) && (client a =? client b).
Definition with_lane (k : Key) (n : nat) : Key := mkKey (surface k) (index k) (entity k) (slot k) (client k) n.

Inductive Policy := Focus | Explicit | Legacy.
#[export] Instance Policy_eq_dec : EqDecision Policy.
Proof. solve_decision. Defined.

Inductive SurfaceState := Invalid | Covered | Waiting | Active | Ready.
#[export] Instance SurfaceState_eq_dec : EqDecision SurfaceState.
Proof. solve_decision. Defined.

(** The codes of [Failure]; [Panicked] is a panic, which the natives report as unavailable. *)
Inductive Failure :=
| Busy | InvalidArgument | StaleClient | NotReady | Unavailable | Released | PoolExhausted | Panicked.

(** Why a retirement fails. *)
Inductive RetireError :=
| NoGame | PackageChanged | NoPlan | BadBinding | ArgsMismatch | EntityExpired | NoEngineOperation
| InvalidString | MarshalPanic | InvocationFailed | CaptureFailed.

Definition has_nul (s : string) : bool := existsb (Ascii.eqb Ascii.zero) (Stdlib.Strings.String.list_ascii_of_string s).
Definition bounded (s : string) : bool :=
  negb (bool_decide (s = "")) && (String.length s <=? 256)%nat && negb (has_nul s).

Section SurfaceLeases.
Context {num : Type} `{JsonNumber num}.
Notation json := (Value num).

Record Capture := mkCapture { c_call : string; c_token : string }.
Record Suspend := mkSuspend { s_call : string; s_args : list json }.
Record Adapter := mkAdapter { capture : option Capture; suspend_ : option Suspend }.
Record Parent := mkParent { p_token : Z; p_key : Key; p_policy : Policy; p_capacity : nat }.
Record Lease := mkLease {
  token : Z; owner : string; generation : Z; key : Key; priority : Z;
  game : option string; adapter : Adapter; policy : Policy; capacity : nat; parent : option Parent;
  activated : bool; activated_in : option Z; ready_after : Z;
}.

(** ** The registry *)

Record Registry := mkRegistry { leases : gmap Z Lease; pending : list Lease; frame : Z }.
Definition registry_default : Registry := mkRegistry ∅ [] 0.
Definition values (r : Registry) : list Lease := (map_to_list (leases r)).*2.

(** [max_by_key] on (priority, token). *)
Definition outranks (a b : Lease) : bool :=
  (priority b <? priority a) || ((priority b =? priority a) && (token b <=? token a)).
Definition max_lease (l : list Lease) : option Lease :=
  foldl (fun best x => match best with Some b => if outranks x b then Some x else Some b | None => Some x end) None l.
Definition winner (r : Registry) (k : Key) : option Z :=
  token <$> max_lease (filterb (fun l => bool_decide (key l = k)) (values r)).

Definition names_key (k : Key) (l : Lease) : bool :=
  bool_decide (key l = k) || match parent l with Some p => bool_decide (p_key p = k) | None => false end.
Definition names_group (k : Key) (l : Lease) : bool :=
  same_group (key l) k || match parent l with Some p => same_group (p_key p) k | None => false end.
Definition pending_key (r : Registry) (k : Key) : bool := existsb (names_key k) (pending r).
Definition pending_group (r : Registry) (k : Key) : bool := existsb (names_group k) (pending r).

(** The state of a lease of [owner]: the method, without the liveness check of the function. *)
Definition registry_state (r : Registry) (t : Z) (o : string) : SurfaceState :=
  match leases r !! t with
  | None => Invalid
  | Some l =>
      if negb (bool_decide (owner l = o)) then Invalid
      else if negb (bool_decide (winner r (key l) = Some t)) then Covered
      else if pending_key r (key l) || (frame r <? ready_after l) then Waiting
      else if activated l then Active else Ready
  end.

Definition suspended (r : Registry) (l : Lease) : Lease :=
  mkLease (token l) (owner l) (generation l) (key l) (priority l) (game l) (adapter l) (policy l) (capacity l)
    (parent l) false (activated_in l) (sat_add (frame r) 1).
Definition set_lease (r : Registry) (t : Z) (l : Lease) : Registry := mkRegistry (<[t := l]> (leases r)) (pending r) (frame r).
Definition set_pending (r : Registry) (p : list Lease) : Registry := mkRegistry (leases r) p (frame r).
Definition suspend (r : Registry) (t : Z) : Registry * option Lease :=
  match leases r !! t with
  | None => (r, None)
  | Some l => (set_lease r t (suspended r l), Some (suspended r l))
  end.

(** [remove] without the flag it returns, which its only caller ignores. *)
Definition remove (r : Registry) (t : Z) : Registry * option Lease :=
  match leases r !! t with
  | None => (r, None)
  | Some l =>
      let was_winner := bool_decide (winner r (key l) = Some t) in
      let r' := mkRegistry (delete t (leases r)) (pending r) (frame r) in
      (if was_winner then match winner r' (key l) with Some next => (suspend r' next).1 | None => r' end else r', Some l)
  end.

(** Remove tokens one by one, keeping the leases that are in [winners]. *)
Fixpoint remove_tokens (r : Registry) (winners tokens : list Z) : Registry * list Lease :=
  match tokens with
  | [] => (r, [])
  | t :: rest =>
      let '(r, o) := remove r t in
      let '(r, removed) := remove_tokens r winners rest in
      (r, match o with Some l => if bool_decide (token l ∈ winners) then l :: removed else removed | None => removed end)
  end.

Definition is_child (l : Lease) : bool := match parent l with Some _ => true | None => false end.
(** [sort_by_key] is stable: children keep their order, and so do the others. *)
Definition children_first (l : list Lease) : list Lease := filterb is_child l ++ filterb (fun l => negb (is_child l)) l.
Definition in_trees (roots : list Z) (l : Lease) : bool :=
  bool_decide (token l ∈ roots) || match parent l with Some p => bool_decide (p_token p ∈ roots) | None => false end.
Definition remove_many (r : Registry) (roots : list Z) : Registry * list Lease :=
  match roots with
  | [] => (r, [])
  | _ =>
      let chosen := filterb (in_trees roots) (values r) in
      let winners := token <$> filterb (fun l => bool_decide (winner r (key l) = Some (token l))) chosen in
      remove_tokens r winners (token <$> children_first chosen)
  end.
Definition remove_tree (r : Registry) (t : Z) : Registry * list Lease := remove_many r [t].

(** What occupies a lane: leases, pending retirements, and the parents of pending retirements. *)
Definition parent_occupant (l : Lease) : list (Key * Policy * nat) :=
  match parent l with Some p => [(p_key p, p_policy p, p_capacity p)] | None => [] end.
Definition occupancy (r : Registry) : list (Key * Policy * nat) :=
  ((fun l => (key l, policy l, capacity l)) <$> values r)
  ++ mjoin ((fun l => (key l, policy l, capacity l) :: parent_occupant l) <$> pending r).

(** ** The world *)

(** What an operation goes on with when its retirements are done. *)
Record Reservation := mkReservation {
  q_owner : string; q_generation : Z; q_key : Key; q_priority : Z; q_game : option string;
  q_adapters : list Adapter; q_policy : Policy; q_parent : option Parent;
}.
(** The [retain] on [pending] that ends a sweep. *)
Inductive Retain := KeepAll | KeepLive | KeepNotClient (slot client : Z) | KeepNotEntity (index id : Z).
Inductive Kont :=
| KReserve (q : Reservation)
| KRelease
| KClear (k : Key) (owner : string) (generation : Z)
| KSweep (guard : bool) (keep : Retain)
| KFrame.

(** Where the retirement of [now] waits: for the hiding call, or for the release of its capture with
    the outcome of hiding. *)
Inductive Stage := Hiding | Releasing (hidden : option RetireError).
Record Frame := mkFrame { kont : Kont; now : Lease; stage : Stage; todo : list Lease; failure : option RetireError }.

Record World := mkWorld {
  books : EntityLive.books;
  clients : LiveTable.LiveTable Z unit;
  plugins : Registry.Registry;
  registry : Registry;
  next_token : Z;
  transition : bool;
  stack : list Frame;
  shown : gmap Z Key;
}.
Definition init : World := mkWorld EntityLive.init (LiveTable.new 1) Registry.new registry_default 1 false [] ∅.

Definition with_registry (w : World) (r : Registry) : World :=
  mkWorld (books w) (clients w) (plugins w) r (next_token w) (transition w) (stack w) (shown w).
Definition with_transition (w : World) (b : bool) : World :=
  mkWorld (books w) (clients w) (plugins w) (registry w) (next_token w) b (stack w) (shown w).
Definition with_stack (w : World) (st : list Frame) : World :=
  mkWorld (books w) (clients w) (plugins w) (registry w) (next_token w) (transition w) st (shown w).
Definition with_shown (w : World) (s : gmap Z Key) : World :=
  mkWorld (books w) (clients w) (plugins w) (registry w) (next_token w) (transition w) (stack w) s.

(** [client::matches], [entity_live::engine_serial_for], [owner_is_live]. *)
Definition client_matches (w : World) (s c : Z) : bool := negb (c =? 0) && LiveTable.is_live (clients w) s c.
Definition entity_present (w : World) (i e : Z) : bool :=
  match EntityLive.engine_serial_for (books w) i e with Some _ => true | None => false end.
Definition key_live (w : World) (k : Key) : bool := client_matches w (slot k) (client k) && entity_present w (index k) (entity k).
Definition identity_live (w : World) (l : Lease) : bool := key_live w (key l).
Definition owner_live (w : World) (o : string) (g : Z) : bool := Registry.is_live (plugins w) o g.
Definition live (w : World) (l : Lease) : bool := identity_live w l && owner_live w (owner l) (generation l).

(** ** Bindings *)

Notation Env := SharedSwitch.Env.
Notation InvokePlan := SharedSwitch.InvokePlan.

Definition arg_kinds : list string := ["int"; "bool"; "string"; "utlstring"].
Definition suspension_plan (env : Env) (g : string) (a : Suspend) : RetireError + InvokePlan :=
  match SharedSwitch.plan env g (s_call a) with
  | None => inl NoPlan
  | Some p =>
      if SharedSwitch.receiverless p || negb (bool_decide (SharedSwitch.via p = []))
         || negb (SharedSwitch.ret_code p =? SharedSwitch.RET_VOID)
         || negb (bool_decide (head (SharedSwitch.args p) = Some "int")) || (8 <? length (SharedSwitch.args p))%nat
         || existsb (fun k => negb (bool_decide (k ∈ arg_kinds))) (drop 1 (SharedSwitch.args p))
      then inl BadBinding else inr p
  end.

Definition i32_ok (v : Z) : bool := (- 2 ^ 31 <=? v) && (v <? 2 ^ 31).
Definition arg_valid (kind : string) (arg : json) : bool :=
  if String.eqb kind "int" then match as_i64 arg with Some v => i32_ok v | None => false end
  else if String.eqb kind "bool" then is_boolean arg
  else if String.eqb kind "string" || String.eqb kind "utlstring" then match arg with String_ s => bounded s | _ => false end
  else false.
(** [true] when the arguments fit the binding. *)
Definition suspension_args (p : InvokePlan) (a : Suspend) : bool :=
  (length (SharedSwitch.args p) =? length (s_args a) + 1)%nat
  && forallb (fun ka => arg_valid ka.1 ka.2) (zip (drop 1 (SharedSwitch.args p)) (s_args a)).

Definition validate_capture (env : Env) (g : string) (c : Capture) : option Failure :=
  if negb (bounded (c_call c)) || negb (bounded (c_token c)) then Some InvalidArgument
  else match SharedSwitch.plan env g (c_call c) with
       | None => Some Unavailable
       | Some p =>
           if SharedSwitch.receiverless p || negb (bool_decide (SharedSwitch.via p = []))
              || negb (SharedSwitch.ret_code p =? SharedSwitch.RET_VOID)
              || negb (bool_decide (SharedSwitch.args p = ["int"; "bool"]))
           then Some InvalidArgument else None
       end.
Definition validate_suspend (env : Env) (g : string) (s : Suspend) : option Failure :=
  if negb (bounded (s_call s)) || (7 <? length (s_args s))%nat then Some InvalidArgument
  else match suspension_plan env g s with
       | inl _ => Some Unavailable
       | inr p => if suspension_args p s then None else Some InvalidArgument
       end.
Definition validate_adapter (env : Env) (a : Adapter) (g : option string) : option Failure :=
  match capture a, suspend_ a with
  | None, None => None
  | oc, os =>
      match g with
      | None => Some Unavailable
      | Some g =>
          match match oc with Some c => validate_capture env g c | None => None end with
          | Some f => Some f
          | None => match os with Some s => validate_suspend env g s | None => None end
          end
      end
  end.
Fixpoint validate_adapters (env : Env) (g : option string) (l : list Adapter) : option Failure :=
  match l with
  | [] => None
  | a :: l => match validate_adapter env a g with Some f => Some f | None => validate_adapters env g l end
  end.

(** The engine call of a suspension. *)
Inductive GpKind := GpScalar | GpString | GpUtlString.
Record EngineCall := mkCall { call_id : Z; call_index : Z; call_serial : Z; gp : list Z; kinds : list GpKind; strings : list string }.

Fixpoint marshal (args : list (string * json)) (gp : list Z) (ks : list GpKind) (strs : list string)
    : RetireError + (list Z * list GpKind * list string) :=
  match args with
  | [] => inr (gp, ks, strs)
  | (kind, arg) :: rest =>
      if String.eqb kind "int" then
        match as_i64 arg with Some v => marshal rest (gp ++ [wrap64 v]) (ks ++ [GpScalar]) strs | None => inl MarshalPanic end
      else if String.eqb kind "bool" then
        match arg with Bool b => marshal rest (gp ++ [if b then 1 else 0]) (ks ++ [GpScalar]) strs | _ => inl MarshalPanic end
      else match arg with
           | String_ s =>
               if has_nul s then inl InvalidString
               else marshal rest (gp ++ [Z.of_nat (length strs)]) (ks ++ [if String.eqb kind "utlstring" then GpUtlString else GpString]) (strs ++ [s])
           | _ => inl MarshalPanic
           end
  end.

(** [invoke_suspend] up to its engine call. *)
Definition invoke_suspend (w : World) (env : Env) (l : Lease) (a : Suspend) : RetireError + EngineCall :=
  match game l with
  | None => inl NoGame
  | Some g =>
      if negb (bool_decide (SharedSwitch.game_package_owner env = Some g)) then inl PackageChanged
      else match suspension_plan env g a with
           | inl e => inl e
           | inr p =>
               if negb (suspension_args p a) then inl ArgsMismatch
               else match EntityLive.engine_serial_for (books w) (index (key l)) (entity (key l)) with
                    | None => inl EntityExpired
                    | Some serial =>
                        if negb (SharedSwitch.engine_call_invoke env) then inl NoEngineOperation
                        else match marshal (zip (drop 1 (SharedSwitch.args p)) (s_args a)) [wrap64 (slot (key l))] [GpScalar] [] with
                             | inl e => inl e
                             | inr (g, k, s) => inr (mkCall (SharedSwitch.call_id p) (index (key l)) serial g k s)
                             end
                    end
           end
  end.

(** ** Retirement *)

(** [retire_presentation]: done with a result, or waiting at a stage. *)
Definition after_hide (l : Lease) (hidden : option RetireError) : option RetireError + Stage :=
  match capture (adapter l), game l with
  | Some _, Some _ => inr (Releasing hidden)
  | _, _ => inl hidden
  end.
Definition begin_retire (w : World) (env : Env) (l : Lease) : option RetireError + Stage :=
  if negb (identity_live w l) then inl None
  else match suspend_ (adapter l) with
       | None => after_hide l None
       | Some a => match invoke_suspend w env l a with inl e => after_hide l (Some e) | inr _ => inr Hiding end
       end.
(** The call the top frame waits for returns; [hidden.and(capture)]. *)
Definition resume_retire (f : Frame) (ok : bool) : option RetireError + Stage :=
  match stage f with
  | Hiding => after_hide (now f) (if ok then None else Some InvocationFailed)
  | Releasing hidden => inl (match hidden with Some e => Some e | None => if ok then None else Some CaptureFailed end)
  end.

Definition push_pending (r : Registry) (l : Lease) : Registry :=
  if existsb (fun p => token p =? token l) (pending r) then r else set_pending r (pending r ++ [l]).

(** The rest of [retire_or_queue] and of the body of the loop it is called in. *)
Definition settle (w : World) (k : Kont) (l : Lease) (res : option RetireError) : World :=
  match res with
  | None =>
      let w := with_shown w (delete (token l) (shown w)) in
      match k with
      | KFrame => match winner (registry w) (key l) with
                  | Some t => with_registry w (suspend (registry w) t).1
                  | None => w
                  end
      | _ => w
      end
  | Some _ => if identity_live w l then with_registry w (push_pending (registry w) l) else w
  end.
Definition first_failure (a b : option RetireError) : option RetireError := match a with Some _ => a | None => b end.

(** The loop over the leases to retire, up to the first one that waits for a call. *)
Fixpoint retire_all (w : World) (env : Env) (k : Kont) (ls : list Lease) (fl : option RetireError) : World * option (option RetireError) :=
  match ls with
  | [] => (w, Some fl)
  | l :: rest =>
      match begin_retire w env l with
      | inr st => (with_stack w (mkFrame k l st rest fl :: stack w), None)
      | inl res => retire_all (settle w k l res) env k rest (first_failure fl res)
      end
  end.

(** ** The ends of the operations *)

Inductive Reply :=
| RReserve (r : Failure + (Z * nat))
| RClear (r : option Failure)
| RBool (b : bool).

(** [NEXT_TOKEN]; [None] is the panic when it is exhausted. *)
Definition mint (w : World) : option (Z * World) :=
  (fun n => (next_token w, mkWorld (books w) (clients w) (plugins w) (registry w) n (transition w) (stack w) (shown w)))
    <$> checked_add (next_token w) 1.

Definition lease_of (q : Reservation) (t : Z) (a : Adapter) : Lease :=
  mkLease t (q_owner q) (q_generation q) (q_key q) (q_priority q) (q_game q) a (q_policy q) (length (q_adapters q))
    (q_parent q) false None 0.

Definition finish_reserve (w : World) (q : Reservation) (fl : option RetireError) : World * list Reply :=
  match fl with
  | Some _ => (w, [RReserve (inl Unavailable)])
  | None =>
      match mint w with
      | None => (w, [RReserve (inl Panicked)])
      | Some (t, w) =>
          match q_adapters q !! lane (q_key q) with
          | None => (w, [RReserve (inl Panicked)])
          | Some a =>
              let l := lease_of q t a in
              if negb (live w l)
                 || match q_parent q with Some p => negb (bool_decide (is_Some (leases (registry w) !! p_token p))) | None => false end
              then (w, [RReserve (inl Released)])
              else (with_registry w (set_lease (registry w) t l), [RReserve (inr (t, lane (q_key q)))])
          end
      end
  end.

Definition kept (w : World) (k : Retain) (l : Lease) : bool :=
  match k with
  | KeepAll => true
  | KeepLive => identity_live w l
  | KeepNotClient s c => negb ((slot (key l) =? s) && (client (key l) =? c))
  | KeepNotEntity i e => negb ((index (key l) =? i) && (entity (key l) =? e))
  end.
Definition retain (w : World) (k : Retain) : World :=
  with_registry w (set_pending (registry w) (filterb (kept w k) (pending (registry w)))).

(** What follows the retirements; every operation but a nested sweep drops the guard. *)
Definition conclude (w : World) (k : Kont) (fl : option RetireError) : World * list Reply :=
  match k with
  | KReserve q => let '(w, r) := finish_reserve w q fl in (with_transition w false, r)
  | KRelease => (with_transition w false, [RBool true])
  | KClear key o g =>
      (with_transition w false,
       [RClear match fl with
               | Some _ => Some Unavailable
               | None => if key_live w key && owner_live w o g then None else Some Released
               end])
  | KSweep guard keep => (retain (if guard then with_transition w false else w) keep, [])
  | KFrame => (with_transition w false, [])
  end.

Definition proceed (w : World) (env : Env) (k : Kont) (ls : list Lease) (fl : option RetireError) : World * list Reply :=
  match retire_all w env k ls fl with
  | (w, None) => (w, [])
  | (w, Some fl) => conclude w k fl
  end.

(** ** Operations *)

(** The checks reserve and clear_legacy share, up to the owner's generation. *)
Definition admission (w : World) (env : Env) (o : string) (k : Key) (adapters : list Adapter) : option Failure :=
  let n := length adapters in
  if (n =? 0)%nat || (64 <? n)%nat then Some InvalidArgument
  else if negb (client_matches w (slot k) (client k)) then Some StaleClient
  else if negb (entity_present w (index k) (entity k)) then Some NotReady
  else None.
Definition plugin_generation (w : World) (o : string) : Z := Registry.generation_or_0 (plugins w) o.

(** The parent a linked reservation names. *)
Definition find_parent (w : World) (o : string) (g : Z) (k : Key) (po : Policy) (t : Z) : Failure + Parent :=
  match leases (registry w) !! t with
  | None => inl Released
  | Some p =>
      if negb (bool_decide (owner p = o) && (generation p =? g) && live w p) then inl Released
      else if negb (bool_decide (po = Focus)) || bool_decide (policy p = Focus)
              || negb (index (key p) =? index k) || negb (entity (key p) =? entity k)
              || negb (slot (key p) =? slot k) || negb (client (key p) =? client k)
              || bool_decide (is_Some (capture (adapter p))) || bool_decide (is_Some (suspend_ (adapter p)))
      then inl InvalidArgument
      else if existsb (fun l => match parent l with Some q => p_token q =? t | None => false end)
                (values (registry w) ++ pending (registry w))
      then inl Busy
      else inr (mkParent t (key p) (policy p) (capacity p))
  end.

Definition min_lease (l : list Lease) : option Lease :=
  foldl (fun best x => match best with Some b => if token x <? token b then Some x else Some b | None => Some x end) None l.
Definition free_lane (group : list Key) (n : nat) : bool := forallb (fun k => negb (lane k =? n)%nat) group.

(** The lane of a new reservation and the lease it replaces. *)
Definition choose_lane (r : Registry) (o : string) (k : Key) (prio : Z) (po : Policy) (cap : nat) : Failure + (nat * option Z) :=
  if (1024 <=? countb (fun l => bool_decide (owner l = o)) (values r))
     || (16384 <=? Z.of_nat (size (leases r)) + Z.of_nat (length (pending r))) then inl PoolExhausted
  else
    let group := filterb (fun x => same_group x.1.1 k) (occupancy r) in
    if existsb (fun x => negb (x.2 =? cap)%nat || negb (eqb (bool_decide (x.1.2 = Focus)) (bool_decide (po = Focus)))) group then inl Busy
    else match po with
         | Focus =>
             if pending_key r k then inl Busy
             else inr (O, match winner r k with
                          | Some t => if match leases r !! t with Some l => priority l <=? prio | None => false end then Some t else None
                          | None => None
                          end)
         | _ =>
             match filterb (free_lane ((fun x => x.1.1) <$> group)) (seq 0 cap) with
             | n :: _ => inr (n, None)
             | [] =>
                 match po with
                 | Legacy =>
                     match min_lease (filterb (fun l => same_group (key l) k && bool_decide (policy l = Legacy) && negb (pending_key r (key l))) (values r)) with
                     | Some old => inr (lane (key old), Some (token old))
                     | None => inl Busy
                     end
                 | _ => inl Busy
                 end
             end
         end.

(** [reserve_with_parent], and [reserve], [reserve_policy] which call it without a parent. *)
Definition reserve_with_parent (w : World) (env : Env) (o : string) (k : Key) (prio : Z) (po : Policy) (adapters : list Adapter)
    (parent_token : option Z) : World * list Reply :=
  let refuse f := (w, [RReserve (inl f)]) in
  if transition w then refuse Busy
  else match admission w env o k adapters with
  | Some f => refuse f
  | None =>
      let g := SharedSwitch.game_package_owner env in
      match validate_adapters env g adapters with
      | Some f => refuse f
      | None =>
          let gen := plugin_generation w o in
          if negb (owner_live w o gen) then refuse Released
          else match match parent_token with
                     | None => inr None
                     | Some t => match find_parent w o gen k po t with inl f => inl f | inr p => inr (Some p) end
                     end with
          | inl f => refuse f
          | inr p =>
              match choose_lane (registry w) o k prio po (length adapters) with
              | inl f => refuse f
              | inr (n, old) =>
                  let q := mkReservation o gen (with_lane k n) prio g adapters po p in
                  let '(r, outgoing) :=
                    match old with
                    | None => (registry w, [])
                    | Some t =>
                        if bool_decide (po = Focus) then let '(r, l) := suspend (registry w) t in (r, match l with Some l => [l] | None => [] end)
                        else remove_tree (registry w) t
                    end in
                  proceed (with_transition (with_registry w r) true) env (KReserve q) outgoing None
              end
          end
      end
  end.

Definition lease_state (w : World) (o : string) (t : Z) : SurfaceState :=
  match leases (registry w) !! t with
  | Some l => if live w l then registry_state (registry w) t o else Invalid
  | None => Invalid
  end.

(** [epoch] is [dispatch::current_epoch()]. *)
Definition activate (w : World) (o : string) (t : Z) (epoch : option Z) : World * bool :=
  if transition w || negb (bool_decide (lease_state w o t = Ready)) then (w, false)
  else match leases (registry w) !! t with
       | None => (w, false)
       | Some l =>
           if match parent l with
              | Some p => negb (bool_decide (registry_state (registry w) (p_token p) o = Active))
              | None => false
              end
           then (w, false)
           else (with_registry w (set_lease (registry w) t
                   (mkLease (token l) (owner l) (generation l) (key l) (priority l) (game l) (adapter l) (policy l)
                      (capacity l) (parent l) true epoch (ready_after l))), true)
       end.
Definition active (w : World) (o : string) (t : Z) (epoch : option Z) : bool :=
  bool_decide (lease_state w o t = Active)
  && match leases (registry w) !! t with
     | Some l => bool_decide (activated_in l = None) || negb (bool_decide (activated_in l = epoch))
     | None => false
     end.

Definition release (w : World) (env : Env) (o : string) (t : Z) : World * list Reply :=
  if transition w then (w, [RBool false])
  else if negb (bool_decide (owner <$> leases (registry w) !! t = Some o)) then (w, [RBool false])
  else let '(r, removed) := remove_tree (registry w) t in
       proceed (with_transition (with_registry w r) true) env KRelease removed None.

(** [remove_where], then the [retain] of its caller. *)
Definition sweep (w : World) (env : Env) (matches : Lease -> bool) (keep : Retain) : World * list Reply :=
  if bool_decide (leases (registry w) = ∅) then (retain w keep, [])
  else
    let guard := negb (transition w) in
    let '(r, removed) := remove_many (registry w) (token <$> filterb matches (values (registry w))) in
    proceed (with_transition (with_registry w r) true) env (KSweep guard keep) removed None.
Definition clear_client (w : World) (env : Env) (s c : Z) :=
  sweep w env (fun l => (slot (key l) =? s) && (client (key l) =? c)) (KeepNotClient s c).
Definition prune_dead (w : World) (env : Env) := sweep w env (fun l => negb (identity_live w l)) KeepLive.
Definition retire_entity (w : World) (env : Env) (i e : Z) :=
  sweep w env (fun l => (index (key l) =? i) && (entity (key l) =? e)) (KeepNotEntity i e).
Definition remove_owner (w : World) (env : Env) (o : string) := sweep w env (fun l => bool_decide (owner l = o)) KeepAll.
Definition reset (w : World) : World := with_registry w registry_default.

Definition advance_frame (w : World) (env : Env) : World * list Reply :=
  if transition w then (w, [])
  else
    let r := registry w in
    proceed (with_transition (with_registry w (mkRegistry (leases r) [] (sat_add (frame r) 1))) true) env KFrame (pending r) None.

(** Synthetic leases that clean the free lanes; [None] is a panic. *)
Fixpoint mint_lanes (w : World) (q : Reservation) (free : list nat) : World * option (list Lease) :=
  match free with
  | [] => (w, Some [])
  | n :: free =>
      match mint w with
      | None => (w, None)
      | Some (t, w) =>
          match q_adapters q !! n with
          | None => (w, None)
          | Some a =>
              let l := lease_of (mkReservation (q_owner q) (q_generation q) (with_lane (q_key q) n) 0 (q_game q) (q_adapters q) Legacy None) t a in
              let '(w, rest) := mint_lanes w q free in (w, cons l <$> rest)
          end
      end
  end.

Definition clear_legacy (w : World) (env : Env) (o : string) (k : Key) (adapters : list Adapter) : World * list Reply :=
  let refuse f := (w, [RClear (Some f)]) in
  if transition w then refuse Busy
  else match admission w env o k adapters with
  | Some f => refuse f
  | None =>
      let gen := plugin_generation w o in
      if negb (owner_live w o gen) then refuse Released
      else
        let g := SharedSwitch.game_package_owner env in
        match validate_adapters env g adapters with
        | Some f => refuse f
        | None =>
            let r := registry w in
            let cap := length adapters in
            if pending_group r k then refuse Busy
            else
              let group := filterb (fun l => same_group (key l) k) (values r) in
              if existsb (fun l => negb (capacity l =? cap)%nat || bool_decide (policy l = Focus)) group then refuse Busy
              else
                let free := filterb (free_lane (key <$> group)) (seq 0 cap) in
                if 16384 <? Z.of_nat (size (leases r)) + Z.of_nat (length (pending r)) + Z.of_nat (length free) then refuse PoolExhausted
                else
                  let '(r, removed) := remove_many r (token <$> filterb (fun l => bool_decide (policy l = Legacy)) group) in
                  let '(w, minted) := mint_lanes (with_registry w r) (mkReservation o gen k 0 g adapters Legacy None) free in
                  match minted with
                  | None => (w, [RClear (Some Panicked)])
                  | Some minted => proceed (with_transition w true) env (KClear k o gen) (removed ++ minted) None
                  end
        end
  end.

(** ** The machine *)

Definition notified (env : Env) (w : World) (n : EntityLive.notification) : World :=
  match n with
  | EntityLive.SurfaceRetireEntity i e => (retire_entity w env i e).1
  | EntityLive.SurfaceReset => reset w
  | EntityLive.SurfacePruneDead => (prune_dead w env).1
  | _ => w
  end.
(** What was shown for an identity that is gone is gone with it. *)
Definition forget_dead (w : World) : World := with_shown w (filter (fun tk : Z * Key => key_live w tk.2 = true) (shown w)).
Definition entity_op (w : World) (env : Env) (o : EntityLive.op) : World :=
  let '(b, notes) := EntityLive.step (books w) o in
  let w := mkWorld b (clients w) (plugins w) (registry w) (next_token w) (transition w) (stack w) (shown w) in
  foldl (notified env) (forget_dead w) notes.
Definition client_op (w : World) (o : LiveTable.op Z unit) : World :=
  forget_dead (mkWorld (books w) (LiveTable.step (clients w) o) (plugins w) (registry w) (next_token w) (transition w) (stack w) (shown w)).

Inductive Act :=
| Reserve (o : string) (k : Key) (prio : Z) (po : Policy) (adapters : list Adapter) (parent : option Z) (env : Env)
| Release (o : string) (t : Z) (env : Env)
| ClearLegacy (o : string) (k : Key) (adapters : list Adapter) (env : Env)
| Activate (o : string) (t : Z) (epoch : option Z)
| Paint (o : string) (t : Z)
| EntityOp (o : EntityLive.op) (env : Env)
| ClientOp (o : LiveTable.op Z unit)
| ClearClient (s c : Z) (env : Env)
| PluginsChange (r : Registry.Registry)
| RemoveOwner (o : string) (env : Env)
| AdvanceFrame (env : Env)
| Shutdown
| Return (ok : bool) (env : Env).

(** A plugin shows something only when its lease is ready or active, and only between transitions. *)
Definition paint (w : World) (o : string) (t : Z) : World :=
  if transition w then w
  else match leases (registry w) !! t, lease_state w o t with
       | Some l, Ready | Some l, Active => with_shown w (<[t := key l]> (shown w))
       | _, _ => w
       end.

Definition engine_return (w : World) (env : Env) (ok : bool) : World * list Reply :=
  match stack w with
  | [] => (w, [])
  | f :: st =>
      let w := with_stack w st in
      match resume_retire f ok with
      | inr st' => (with_stack w (mkFrame (kont f) (now f) st' (todo f) (failure f) :: st), [])
      | inl res => proceed (settle w (kont f) (now f) res) env (kont f) (todo f) (first_failure (failure f) res)
      end
  end.

(** The natives build their keys with lane 0; [client::end] clears a connection it has removed. [Shutdown] is
    [reset] where the host ends: the code drops the leases and what is pending, and no screen is left to
    speak of, so the model's own record of what is shown ends with it. *)
Definition step (w : World) (a : Act) : World * list Reply :=
  match a with
  | Reserve o k prio po ads p env => reserve_with_parent w env o (with_lane k 0) prio po ads p
  | Release o t env => release w env o t
  | ClearLegacy o k ads env => clear_legacy w env o (with_lane k 0) ads
  | Activate o t e => let '(w, b) := activate w o t e in (if b then paint w o t else w, [RBool b])
  | Paint o t => (paint w o t, [])
  | EntityOp o env => (entity_op w env o, [])
  | ClientOp o => (client_op w o, [])
  | ClearClient s c env => if client_matches w s c then (w, []) else clear_client w env s c
  | PluginsChange r => (mkWorld (books w) (clients w) r (registry w) (next_token w) (transition w) (stack w) (shown w), [])
  | RemoveOwner o env => remove_owner w env o
  | AdvanceFrame env => advance_frame w env
  | Shutdown => (with_shown (reset w) ∅, [])
  | Return ok env => engine_return w env ok
  end.

Fixpoint run (w : World) (acts : list Act) : World * list Reply :=
  match acts with
  | [] => (w, [])
  | a :: acts => let '(w, rs) := step w a in let '(w, rs') := run w acts in (w, rs ++ rs')
  end.
End SurfaceLeases.
End SurfaceLeases.
