(* ===== verification/LeaseRegistry.v ===== *)
(** Lemmas on the surface lease registry of SurfaceLeases.v: its winners, and what a removal leaves.

    A lease changes only its activation; [core] forgets that part, and [cores] is the map of the cores.
    Everything the arbitration decides, it decides on the cores. *)
From S2P Require Import Prelude.
From S2P Require Import Json.
From S2P Require Import SurfaceLeases.
Import SurfaceLeases.

Module LeaseRegistry.
Section LeaseRegistry.
Context {num : Type}.
Notation Lease := (@Lease num).
Notation Registry := (@Registry num).
Implicit Types (l : Lease) (r : Registry).

Definition core l : Lease :=
  mkLease (token l) (owner l) (generation l) (key l) (priority l) (game l) (adapter l) (policy l) (capacity l)
    (parent l) false None 0.
Definition cores r : gmap Z Lease := core <$> leases r.
Definition tok_ok r : Prop := forall t l, leases r !! t = Some l -> token l = t.

Lemma core_fields l l' : core l = core l' ->
  token l = token l' /\ owner l = owner l' /\ generation l = generation l' /\ key l = key l' /\ priority l = priority l' /\
  policy l = policy l' /\ capacity l = capacity l' /\ parent l = parent l'.
Proof. unfold core. intros [=]. naive_solver. Qed.

Lemma core_suspended r l : core (suspended r l) = core l.
Proof. done. Qed.

Lemma elem_of_values r l : l ∈ values r <-> exists t, leases r !! t = Some l.
Proof.
  unfold values. rewrite list_elem_of_fmap. split.
  - intros ([t l'] & -> & Hin%elem_of_map_to_list). by exists t.
  - intros [t Ht]. exists (t, l). split; [done|]. by apply elem_of_map_to_list.
Qed.

Lemma values_cores r : core <$> values r = (map_to_list (cores r)).*2.
Proof. unfold values, cores. rewrite map_to_list_fmap, <- !list_fmap_compose. done. Qed.

Lemma cores_lookup r t c : cores r !! t = Some c <-> exists l, leases r !! t = Some l /\ core l = c.
Proof. unfold cores. rewrite lookup_fmap, fmap_Some. naive_solver. Qed.

Lemma cores_sub r r' t l : cores r' ⊆ cores r -> leases r' !! t = Some l -> exists l0, leases r !! t = Some l0 /\ core l = core l0.
Proof.
  intros Hs Hl. assert (cores r' !! t = Some (core l)) as Hc by (apply cores_lookup; eauto).
  eapply lookup_weaken in Hc; [|exact Hs]. apply cores_lookup in Hc as (l0 & H0 & E). eauto.
Qed.

Lemma cores_eq r r' t l : cores r' = cores r -> leases r' !! t = Some l -> exists l0, leases r !! t = Some l0 /\ core l = core l0.
Proof. intros E. apply cores_sub. by rewrite E. Qed.

Lemma tok_ok_sub r r' : cores r' ⊆ cores r -> tok_ok r -> tok_ok r'.
Proof. intros Hs Ht t l Hl. destruct (cores_sub _ _ _ _ Hs Hl) as (l0 & H0 & E). apply core_fields in E as (-> & _). by apply Ht. Qed.

Lemma cores_set_lease r t l l0 : leases r !! t = Some l0 -> core l = core l0 -> cores (set_lease r t l) = cores r.
Proof.
  intros Hl E. unfold cores, set_lease. cbn. rewrite fmap_insert, E. apply insert_id. by rewrite lookup_fmap, Hl.
Qed.

Lemma cores_suspend r t : cores (suspend r t).1 = cores r /\ pending (suspend r t).1 = pending r /\ frame (suspend r t).1 = frame r.
Proof. unfold suspend. destruct (leases r !! t) eqn:E; [|done]. cbn. split; [by eapply cores_set_lease|done]. Qed.

(** ** The winner *)

Lemma outranks_refl l : outranks l l = true.
Proof. unfold outranks. rewrite Z.ltb_irrefl, Z.eqb_refl, Z.leb_refl. done. Qed.

Ltac rank := repeat match goal with H : context [outranks _ _] |- _ => unfold outranks in H end; unfold outranks;
  rewrite ?orb_true_iff, ?orb_false_iff, ?andb_true_iff, ?andb_false_iff, ?Z.ltb_lt, ?Z.ltb_ge, ?Z.eqb_eq, ?Z.eqb_neq, ?Z.leb_le, ?Z.leb_gt in *; lia.

Lemma max_lease_spec (ls : list Lease) :
  match max_lease ls with
  | Some m => m ∈ ls /\ forall x, x ∈ ls -> outranks m x = true
  | None => ls = []
  end.
Proof.
  unfold max_lease. set (f := fun (best : option Lease) x => _).
  assert (forall ls b, exists m, foldl f (Some b) ls = Some m /\ (m = b \/ m ∈ ls) /\ forall x, x = b \/ x ∈ ls -> outranks m x = true) as Hgo.
  { clear ls. induction ls as [|x ls IH]; intros b; cbn [foldl].
    - exists b. split; [done|]. split; [by left|]. intros x [->|Hx]; [apply outranks_refl|by apply elem_of_nil in Hx].
    - unfold f at 2. destruct (outranks x b) eqn:E.
      + destruct (IH x) as (m & Hm & Hin & Hall). exists m. split; [done|]. split; [destruct Hin as [->|]; right; in_list|].
        intros y [->|[->|Hy]%elem_of_cons]; [|by apply Hall; left|by apply Hall; right].
        pose proof (Hall x (or_introl eq_refl)). rank.
      + destruct (IH b) as (m & Hm & Hin & Hall). exists m. split; [done|]. split; [destruct Hin as [->|]; [by left|right; in_list]|].
        intros y [->|[->|Hy]%elem_of_cons]; [by apply Hall; left| |by apply Hall; right].
        pose proof (Hall b (or_introl eq_refl)). rank. }
  destruct ls as [|x ls]; cbn [foldl]; [done|]. destruct (Hgo ls x) as (m & Hm & Hin & Hall).
  change (f None x) with (Some x). rewrite Hm. split; [destruct Hin as [->|]; in_list|].
  intros y [->|]%elem_of_cons; apply Hall; auto.
Qed.

Lemma winner_spec r k t :
  tok_ok r ->
  winner r k = Some t <->
  exists l, leases r !! t = Some l /\ key l = k /\ forall t' l', leases r !! t' = Some l' -> key l' = k -> outranks l l' = true.
Proof.
  intros Ht. unfold winner. pose proof (max_lease_spec (filterb (fun l => bool_decide (key l = k)) (values r))) as Hm.
  assert (forall x, x ∈ filterb (fun l => bool_decide (key l = k)) (values r) <-> key x = k /\ exists t', leases r !! t' = Some x) as Hin.
  { intros x. rewrite elem_of_filterb, bool_decide_eq_true, elem_of_values. done. }
  destruct (max_lease _) as [m|] eqn:E; cbn.
  - destruct Hm as [(Hk & t' & Hl)%Hin Hall]. pose proof (Ht _ _ Hl) as Htok. split.
    + intros [= <-]. rewrite Htok. exists m. split; [done|]. split; [done|]. intros t2 l2 Hl2 Hk2. apply Hall, Hin. eauto.
    + intros (l & Hl1 & Hk1 & Hall1). f_equal.
      pose proof (Hall l (proj2 (Hin l) (conj Hk1 (ex_intro _ t Hl1)))). pose proof (Hall1 _ _ Hl Hk).
      rewrite <- (Ht _ _ Hl1). rank.
  - split; [done|]. intros (l & Hl & Hk & _). exfalso. assert (l ∈ @nil Lease) as Hx; [|by apply elem_of_nil in Hx]. rewrite <- Hm. apply Hin. eauto.
Qed.

(** A winner stays one when others go. *)
Lemma winner_sub r r' k t l :
  tok_ok r -> cores r' ⊆ cores r -> winner r k = Some t -> leases r' !! t = Some l -> winner r' k = Some t.
Proof.
  intros Ht Hs Hw Hl. pose proof (tok_ok_sub _ _ Hs Ht) as Ht'. apply winner_spec in Hw as (l0 & Hl0 & Hk & Hall); [|done].
  apply winner_spec; [done|]. exists l. destruct (cores_sub _ _ _ _ Hs Hl) as (l1 & Hl1 & E). assert (l1 = l0) as -> by congruence.
  apply core_fields in E as (E1 & _ & _ & E4 & E5 & _). split; [done|]. split; [congruence|].
  intros t2 l2 Hl2 Hk2. destruct (cores_sub _ _ _ _ Hs Hl2) as (l3 & Hl3 & E3). apply core_fields in E3 as (F1 & _ & _ & F4 & F5 & _).
  assert (outranks l0 l3 = true) as Ho by (apply (Hall t2); congruence). unfold outranks in *. by rewrite E1, E5, F1, F5.
Qed.

Lemma winner_cores r r' k : tok_ok r -> cores r' = cores r -> winner r' k = winner r k.
Proof.
  intros Ht E. assert (tok_ok r') as Ht' by (eapply tok_ok_sub; [by rewrite E|done]).
  destruct (winner r k) as [t|] eqn:Ew.
  - pose proof Ew as Ew'. apply winner_spec in Ew' as (l & Hl & _); [|done].
    symmetry in E. destruct (cores_eq _ _ _ _ E Hl) as (l' & Hl' & _). by eapply (winner_sub r r'); [|by rewrite E|..].
  - destruct (winner r' k) as [t|] eqn:Ew'; [|done]. pose proof Ew' as Ew2. apply winner_spec in Ew2 as (l & Hl & _); [|done].
    destruct (cores_eq _ _ _ _ E Hl) as (l' & Hl' & _). rewrite <- Ew. symmetry. by eapply (winner_sub r' r); [|by rewrite E|..].
Qed.

Lemma winner_key r k t : tok_ok r -> winner r k = Some t -> exists l, leases r !! t = Some l /\ key l = k /\ token l = t.
Proof. intros Ht Hw. pose proof Hw as (l & Hl & Hk & _)%winner_spec; [|done]. exists l. split; [done|]. split; [done|]. by apply Ht. Qed.

Lemma winner_none r k l t : tok_ok r -> winner r k = None -> leases r !! t = Some l -> key l <> k.
Proof.
  intros Ht Hw Hl Hk. unfold winner in Hw. pose proof (max_lease_spec (filterb (fun l => bool_decide (key l = k)) (values r))) as Hm.
  destruct (max_lease _); [done|]. assert (l ∈ @nil Lease) as Hx; [|by apply elem_of_nil in Hx]. rewrite <- Hm.
  apply elem_of_filterb. split; [by apply bool_decide_eq_true|]. apply elem_of_values. eauto.
Qed.

(** ** Removal *)

Lemma remove_spec r t :
  cores (remove r t).1 = delete t (cores r) /\ pending (remove r t).1 = pending r /\ frame (remove r t).1 = frame r /\
  (remove r t).2 = leases r !! t.
Proof.
  unfold remove. destruct (leases r !! t) as [l|] eqn:E.
  - set (r' := mkRegistry (delete t (leases r)) (pending r) (frame r)).
    assert (cores r' = delete t (cores r)) as Hc by (unfold cores, r'; cbn; by rewrite fmap_delete).
    cbn. case_bool_decide; [destruct (winner r' (key l)) as [n|]|]; try done.
    destruct (cores_suspend r' n) as (-> & -> & ->). done.
  - cbn. split; [|done]. symmetry. apply delete_id. unfold cores. by rewrite lookup_fmap, E.
Qed.

Definition without (ts : list Z) (m : gmap Z Lease) : gmap Z Lease := foldl (fun m t => delete t m) m ts.

Lemma without_lookup ts m t : without ts m !! t = if bool_decide (t ∈ ts) then None else m !! t.
Proof.
  unfold without. revert m. induction ts as [|x ts IH]; intros m; cbn [foldl].
  - rewrite bool_decide_false; [done|]. apply not_elem_of_nil.
  - rewrite IH. destruct (decide (t ∈ ts)) as [Hin|Hin].
    + rewrite !bool_decide_true; [done|in_list|done].
    + rewrite (bool_decide_false (t ∈ ts)) by done. destruct (decide (t = x)) as [->|Hne].
      * rewrite bool_decide_true by in_list. apply lookup_delete_eq.
      * rewrite bool_decide_false by (rewrite elem_of_cons; tauto). by apply lookup_delete_ne.
Qed.

Lemma without_sub ts m : without ts m ⊆ m.
Proof. apply map_subseteq_spec. intros t l. rewrite without_lookup. by case_bool_decide. Qed.

(** The leases [remove_tokens] returns: those of [winners] among [ts]. *)
Lemma remove_tokens_spec ts : forall r ws,
  tok_ok r -> NoDup ts -> Forall (fun t => is_Some (leases r !! t)) ts ->
  let '(r', removed) := remove_tokens r ws ts in
  cores r' = without ts (cores r) /\ pending r' = pending r /\ frame r' = frame r /\
  token <$> removed = filterb (fun t => bool_decide (t ∈ ws)) ts /\
  (forall l, l ∈ removed -> exists l0, leases r !! token l = Some l0 /\ core l = core l0).
Proof.
  induction ts as [|t ts IH]; intros r ws Ht Hnd Hall; cbn [remove_tokens].
  { split; [done|]. split; [done|]. split; [done|]. split; [done|]. intros l Hl. by apply elem_of_nil in Hl. }
  apply NoDup_cons in Hnd as [Hni Hnd]. apply Forall_cons in Hall as [[l Hl] Hall].
  destruct (remove_spec r t) as (Hc & Hp & Hf & Ho). destruct (remove r t) as [r1 o]. cbn in Hc, Hp, Hf, Ho. subst o.
  assert (cores r1 ⊆ cores r) as Hs by (rewrite Hc; apply delete_subseteq).
  specialize (IH r1 ws (tok_ok_sub _ _ Hs Ht) Hnd). destruct (remove_tokens r1 ws ts) as [r2 rest].
  destruct IH as (I1 & I2 & I3 & I4 & I5).
  { rewrite Forall_forall in Hall |- *. intros x Hx. destruct (Hall x Hx) as [lx Hlx].
    assert (cores r1 !! x = Some (core lx)) as Hcx.
    { rewrite Hc, lookup_delete_ne by congruence. apply cores_lookup. eauto. }
    apply cores_lookup in Hcx as (l1 & Hl1 & _). by exists l1. }
  rewrite Hl. pose proof (Ht _ _ Hl) as Htok. split; [by rewrite I1, Hc|]. split; [congruence|]. split; [congruence|].
  assert (forall x, x ∈ rest -> exists l0, leases r !! token x = Some l0 /\ core x = core l0) as Hrest.
  { intros x Hx. destruct (I5 x Hx) as (l0 & Hl0 & E). destruct (cores_sub _ _ _ _ Hs Hl0) as (l1 & Hl1 & E1). exists l1. split; [done|congruence]. }
  cbn [filterb]. rewrite Htok. case_bool_decide; csimpl.
  - rewrite I4, Htok. split; [done|]. intros x [->|Hx]%elem_of_cons; [|by apply Hrest]. exists l. by rewrite Htok.
  - split; [done|]. done.
Qed.

Lemma children_first_perm (ls : list Lease) : children_first ls ≡ₚ ls.
Proof.
  unfold children_first. induction ls as [|x ls IH]; simpl; [done|]. destruct (is_child x); simpl; [by rewrite IH|].
  by rewrite <- Permutation_middle, IH.
Qed.

Lemma tokens_of_values r : tok_ok r -> token <$> values r = (map_to_list (leases r)).*1.
Proof.
  intros Ht. unfold values. rewrite <- list_fmap_compose. apply list_fmap_ext. intros i [t l] Hi. cbn. apply Ht.
  apply elem_of_map_to_list. by eapply list_elem_of_lookup_2.
Qed.

Lemma tokens_NoDup r : tok_ok r -> NoDup (token <$> values r).
Proof. intros Ht. rewrite tokens_of_values by done. apply NoDup_fst_map_to_list. Qed.

Lemma length_values r : length (values r) = size (leases r).
Proof. unfold values. by rewrite length_fmap, length_map_to_list. Qed.

(** What [remove_many] takes out and hands over. *)
Record removal r (roots : list Z) r' (removed : list Lease) : Prop := {
  rm_cores : forall t, cores r' !! t = match leases r !! t with
                                       | Some l => if in_trees roots l then None else Some (core l)
                                       | None => None
                                       end;
  rm_pending : pending r' = pending r;
  rm_frame : frame r' = frame r;
  rm_removed : forall l, l ∈ removed -> exists l0, leases r !! token l = Some l0 /\ core l = core l0 /\ in_trees roots l0 = true;
  rm_winners : forall t l, leases r !! t = Some l -> in_trees roots l = true -> winner r (key l) = Some t -> t ∈ token <$> removed;
  rm_size : (size (leases r') + length removed <= size (leases r))%nat;
}.

Lemma remove_many_spec r roots : tok_ok r -> removal r roots (remove_many r roots).1 (remove_many r roots).2.
Proof.
  intros Ht. unfold remove_many. destruct roots as [|root roots']; [|set (roots := root :: roots')].
  { cbn. assert (forall l, in_trees [] l = false) as Hn.
    { intros l. unfold in_trees. rewrite bool_decide_false by apply not_elem_of_nil. destruct (parent l); [|done]. by rewrite bool_decide_false by apply not_elem_of_nil. }
    constructor; cbn; try done.
    - intros t. unfold cores. rewrite lookup_fmap. destruct (leases r !! t); cbn; [by rewrite Hn|done].
    - intros l Hl. by apply elem_of_nil in Hl.
    - intros t l _ Hl. by rewrite Hn in Hl.
    - lia. }
  set (chosen := filterb (in_trees roots) (values r)). set (ws := token <$> filterb _ chosen).
  set (ts := token <$> children_first chosen).
  assert (ts ≡ₚ token <$> chosen) as Hts by (unfold ts; by rewrite children_first_perm).
  assert (NoDup ts) as Hnd.
  { rewrite Hts. apply filterb_fmap_NoDup. by apply tokens_NoDup. }
  assert (forall t, t ∈ ts <-> exists l, leases r !! t = Some l /\ in_trees roots l = true) as Hin.
  { intros t. rewrite Hts, list_elem_of_fmap. split.
    - intros (l & -> & Hl). apply elem_of_filterb in Hl as [Hr [t' Hl]%elem_of_values]. rewrite (Ht _ _ Hl). eauto.
    - intros (l & Hl & Hr). exists l. split; [symmetry; by apply Ht|]. apply elem_of_filterb. split; [done|]. apply elem_of_values. eauto. }
  assert (forall t l, leases r !! t = Some l -> t ∈ ws <-> in_trees roots l = true /\ winner r (key l) = Some t) as Hws.
  { intros t l Hl. unfold ws. rewrite list_elem_of_fmap. split.
    - intros (l' & -> & Hl'). apply elem_of_filterb in Hl' as [Hw%bool_decide_eq_true Hc]. apply elem_of_filterb in Hc as [Hr [t' Hl']%elem_of_values].
      assert (l' = l) as -> by (rewrite (Ht _ _ Hl') in Hl; congruence). done.
    - intros [Hr Hw]. exists l. split; [symmetry; by apply Ht|]. apply elem_of_filterb. split; [by rewrite bool_decide_eq_true, (Ht _ _ Hl)|].
      apply elem_of_filterb. split; [done|]. apply elem_of_values. eauto. }
  pose proof (remove_tokens_spec ts r ws Ht Hnd) as Hsp. destruct (remove_tokens r ws ts) as [r' removed].
  destruct Hsp as (S1 & S2 & S3 & S4 & S5).
  { apply Forall_forall. intros t (l & Hl & _)%Hin. by exists l. }
  cbn. assert (forall t, cores r' !! t = match leases r !! t with Some l => if in_trees roots l then None else Some (core l) | None => None end) as Hcl.
  { intros t. rewrite S1, without_lookup. unfold cores. rewrite lookup_fmap. destruct (leases r !! t) as [l|] eqn:E; cbn.
    - destruct (in_trees roots l) eqn:Er.
      + rewrite bool_decide_true; [done|]. apply Hin. eauto.
      + rewrite bool_decide_false; [done|]. intros (l' & Hl' & Hr)%Hin. congruence.
    - by case_bool_decide. }
  constructor; try done.
  - intros l Hl. destruct (S5 l Hl) as (l0 & Hl0 & E). exists l0. split; [done|]. split; [done|].
    assert (token l ∈ token <$> removed) as Hlt by by apply list_elem_of_fmap_2.
    rewrite S4 in Hlt. apply elem_of_filterb in Hlt as [_ (l1 & Hl1 & Hr)%Hin]. congruence.
  - intros t l Hl Hr Hw. rewrite S4. apply elem_of_filterb. rewrite bool_decide_eq_true. split; [by apply (Hws t l)|]. apply Hin. eauto.
  - assert (length removed <= length ts)%nat as Hle.
    { rewrite <- (length_fmap token removed), S4. apply filterb_length_le. }
    assert (size (cores r') + length ts = size (cores r))%nat as Hsz; [|unfold cores in Hsz; rewrite !map_size_fmap in Hsz; lia].
    rewrite S1. clear -Hnd Hin. assert (forall t, t ∈ ts -> is_Some (cores r !! t)) as Hd.
    { intros t (l & Hl & _)%Hin. unfold cores. by rewrite lookup_fmap, Hl. }
    clear Hin. generalize dependent (cores r). induction ts as [|t ts IH]; intros m Hd; cbn [without foldl length]; [lia|].
    apply NoDup_cons in Hnd as [Hni Hnd]. change (foldl _ (delete t m) ts) with (without ts (delete t m)).
    specialize (IH Hnd (delete t m)). destruct (Hd t) as [c Hc]; [in_list|].
    assert (size m = S (size (delete t m))) as ->.
    { rewrite <- (insert_delete_id m t c Hc) at 1. apply map_size_insert_None, lookup_delete_eq. }
    rewrite <- IH; [lia|]. intros x Hx. rewrite lookup_delete_ne by congruence. apply Hd. in_list.
Qed.

Lemma removal_sub r roots r' removed : removal r roots r' removed -> cores r' ⊆ cores r.
Proof.
  intros Hr. apply map_subseteq_spec. intros t c. rewrite (rm_cores _ _ _ _ Hr). unfold cores. rewrite lookup_fmap.
  destruct (leases r !! t) as [l|]; cbn; [|done]. by destruct (in_trees roots l).
Qed.

(** A winner that goes is handed over; one that stays is still the winner. *)
Lemma removal_winner r roots r' removed t l :
  tok_ok r -> removal r roots r' removed -> leases r !! t = Some l -> winner r (key l) = Some t ->
  t ∈ token <$> removed \/ exists l', leases r' !! t = Some l' /\ core l' = core l /\ winner r' (key l') = Some t.
Proof.
  intros Ht Hr Hl Hw. destruct (in_trees roots l) eqn:E; [left; by eapply rm_winners|]. right.
  assert (cores r' !! t = Some (core l)) as Hc by (rewrite (rm_cores _ _ _ _ Hr), Hl; by rewrite E).
  apply cores_lookup in Hc as (l' & Hl' & Ec). exists l'. split; [done|]. split; [done|].
  apply core_fields in Ec as Hk. destruct Hk as (_ & _ & _ & -> & _). eapply winner_sub; [done|by eapply removal_sub|done|done].
Qed.
End LeaseRegistry.
End LeaseRegistry.
