(* ===== verification/LeaseInvariant.v ===== *)
(** The invariant of the surface lease machine of SurfaceLeases.v, and what follows from it.

    A [Pend] is what an operation that waits still has to retire; [AInv] is the invariant of a world with
    a stack of them. It is stated over the population of leases: those of the registry, the pending ones
    and those on the stack, and every step makes the population smaller or adds one lease to it. *)
From S2P Require Import Prelude.
From S2P Require Import Json.
From S2P Require Import Liveness.
From S2P Require Import EntityLive.
From S2P Require Import Plugin.
From S2P Require Import SharedSwitch.
From S2P Require Import SurfaceLeases.
From S2P Require Import LeaseRegistry.
Import SurfaceLeases.
Import LeaseRegistry.

Module LeaseInvariant.
Section LeaseInvariant.
Context {num : Type} `{JsonNumber num}.
Notation Lease := (@Lease num).
Notation Registry := (@Registry num).
Notation World := (@World num).
Notation Kont := (@Kont num).
Notation Frame := (@Frame num).
Notation Reservation := (@Reservation num).
Implicit Types (l : Lease) (r : Registry) (w : World) (q : Reservation).

(** ** Occupants *)

(** What a lease occupies, and its parent with it. *)
Definition occupant : Type := Z * Key * Policy * nat.
Definition o_token (x : occupant) : Z := x.1.1.1.
Definition o_key (x : occupant) : Key := x.1.1.2.
Definition o_policy (x : occupant) : Policy := x.1.2.
Definition o_capacity (x : occupant) : nat := x.2.
Definition parent_occ (p : Parent) : occupant := (p_token p, p_key p, p_policy p, p_capacity p).
Definition occs l : list occupant :=
  (token l, key l, policy l, capacity l) :: match parent l with Some p => [parent_occ p] | None => [] end.
Definition all_occs (P : list Lease) : list occupant := P ≫= occs.

(** Two occupants agree on their group, and a lane that is not of focus leases has one token. *)
Definition in_group (k : Key) (cap : nat) (po : Policy) (x : occupant) : Prop :=
  same_group (o_key x) k = true -> o_capacity x = cap /\ (o_policy x = Focus <-> po = Focus).
Definition compatible (x y : occupant) : Prop :=
  in_group (o_key x) (o_capacity x) (o_policy x) y /\
  (o_key x = o_key y -> o_policy x <> Focus -> o_token x = o_token y) /\
  (o_token x = o_token y -> x = y).

Definition same_identity (a b : Key) : Prop := index a = index b /\ entity a = entity b /\ slot a = slot b /\ client a = client b.
Definition child_ok l (p : Parent) : Prop := policy l = Focus /\ p_policy p <> Focus /\ same_identity (p_key p) (key l).

Record PopInv (P : list Lease) (nt : Z) : Prop := {
  pop_tok : forall a b, a ∈ P -> b ∈ P -> token a = token b -> core a = core b;
  pop_occ : forall x y, x ∈ all_occs P -> y ∈ all_occs P -> compatible x y;
  pop_shape : forall a, a ∈ P -> (lane (key a) < capacity a)%nat /\ token a < nt /\ forall p, parent a = Some p -> child_ok a p /\ p_token p < nt;
  pop_child : forall a b p p', a ∈ P -> b ∈ P -> parent a = Some p -> parent b = Some p' -> p_token p = p_token p' -> token a = token b;
}.

(** Membership up to the activation. *)
Definition within (P P' : list Lease) : Prop := forall a, a ∈ P -> exists b, b ∈ P' /\ core a = core b.

Lemma within_refl P : within P P.
Proof. intros a Ha. eauto. Qed.
Lemma within_trans P1 P2 P3 : within P1 P2 -> within P2 P3 -> within P1 P3.
Proof. intros H1 H2 a Ha. destruct (H1 a Ha) as (b & Hb & E). destruct (H2 b Hb) as (c & Hc & E'). exists c. split; [done|congruence]. Qed.
Lemma within_subset P P' : P ⊆ P' -> within P P'.
Proof. intros Hs a Ha. exists a. split; [by apply Hs|done]. Qed.
Lemma within_app P1 P2 P : within P1 P -> within P2 P -> within (P1 ++ P2) P.
Proof. intros H1 H2 a [Ha|Ha]%elem_of_app; auto. Qed.
Lemma within_l P P1 P2 : within P P1 -> within P (P1 ++ P2).
Proof. intros Hw a Ha. destruct (Hw a Ha) as (b & Hb & E). exists b. split; [in_list|done]. Qed.
Lemma within_r P P1 P2 : within P P2 -> within P (P1 ++ P2).
Proof. intros Hw a Ha. destruct (Hw a Ha) as (b & Hb & E). exists b. split; [in_list|done]. Qed.
Lemma within_cores r r' : cores r' ⊆ cores r -> within (values r') (values r).
Proof.
  intros Hs a [t Ha]%elem_of_values. destruct (cores_sub _ _ _ _ Hs Ha) as (b & Hb & E). exists b. split; [|done]. apply elem_of_values. eauto.
Qed.

Lemma occs_core a b : core a = core b -> occs a = occs b.
Proof. intros (E1 & _ & _ & E2 & _ & E3 & E4 & E5)%core_fields. unfold occs. by rewrite E1, E2, E3, E4, E5. Qed.

Lemma elem_of_all_occs P x : x ∈ all_occs P <-> exists a, a ∈ P /\ x ∈ occs a.
Proof. unfold all_occs. rewrite list_elem_of_bind. naive_solver. Qed.

Lemma all_occs_within P P' x : within P P' -> x ∈ all_occs P -> x ∈ all_occs P'.
Proof.
  intros Hw (a & Ha & Hx)%elem_of_all_occs. destruct (Hw a Ha) as (b & Hb & E). apply elem_of_all_occs. exists b. split; [done|]. by rewrite <- (occs_core a b).
Qed.

Lemma child_ok_core a b p : core a = core b -> child_ok b p -> child_ok a p.
Proof. intros (_ & _ & _ & E2 & _ & E3 & _)%core_fields. unfold child_ok. by rewrite E2, E3. Qed.

Lemma PopInv_within P P' nt nt' : within P P' -> nt' <= nt -> PopInv P' nt' -> PopInv P nt.
Proof.
  intros Hw Hn [H1 H2 H3 H4]. constructor.
  - intros a b Ha Hb Et. destruct (Hw a Ha) as (a' & Ha' & Ea), (Hw b Hb) as (b' & Hb' & Eb). rewrite Ea, Eb. apply H1; [done..|].
    apply core_fields in Ea as [Ea _], Eb as [Eb _]. congruence.
  - intros x y Hx Hy. apply H2; by eapply all_occs_within.
  - intros a Ha. destruct (Hw a Ha) as (a' & Ha' & Ea). destruct (H3 a' Ha') as (S1 & S2 & S3). pose proof Ea as Ea'.
    apply core_fields in Ea as (-> & _ & _ & -> & _ & _ & -> & ->). split; [done|]. split; [lia|]. intros p Hp. destruct (S3 p Hp). split; [by eapply child_ok_core|lia].
  - intros a b p p' Ha Hb Hp Hp' Et. destruct (Hw a Ha) as (a' & Ha' & Ea), (Hw b Hb) as (b' & Hb' & Eb).
    apply core_fields in Ea as (-> & _ & _ & _ & _ & _ & _ & Ep), Eb as (-> & _ & _ & _ & _ & _ & _ & Ep').
    eapply (H4 a' b'); [done|done|by rewrite <- Ep|by rewrite <- Ep'|done].
Qed.

Lemma same_group_refl x : same_group x x = true.
Proof. unfold same_group. by rewrite bool_decide_true, !Z.eqb_refl. Qed.
Lemma same_group_true x y : same_group x y = true <-> surface x = surface y /\ same_identity x y.
Proof. unfold same_group, same_identity. rewrite !andb_true_iff, bool_decide_eq_true, !Z.eqb_eq. tauto. Qed.
Lemma same_group_sym x y : same_group x y = same_group y x.
Proof. apply eq_true_iff_eq. rewrite !same_group_true. unfold same_identity. intuition congruence. Qed.
Lemma same_group_trans x y z : same_group x y = true -> same_group y z = true -> same_group x z = true.
Proof. rewrite !same_group_true. unfold same_identity. intuition congruence. Qed.
Lemma compatible_sym x y : compatible x y -> compatible y x.
Proof.
  intros (H1 & H2 & H3). unfold in_group in *. rewrite same_group_sym in H1. split; [|split].
  - intros Hg. destruct (H1 Hg) as [-> ->]. done.
  - intros E Hp. symmetry. apply H2; [done|]. rewrite <- E, same_group_refl in H1. naive_solver.
  - intros E. symmetry. by apply H3.
Qed.

(** ** The invariant *)

Record Pend := mkPend { pd_kont : Kont; pd_todo : list Lease; pd_failure : option RetireError }.
Definition pend_of (f : Frame) : Pend := mkPend (kont f) (now f :: todo f) (failure f).

Definition infl (st : list Pend) : list Lease := st ≫= pd_todo.
Definition pop w (st : list Pend) : list Lease := values (registry w) ++ pending (registry w) ++ infl st.
(** Everything above the first operation of the stack, the one that holds the guard. *)
Fixpoint above (st : list Pend) : list Pend :=
  match st with [] => [] | [_] => [] | p :: st => p :: above st end.
Definition outside w (st : list Pend) : list Lease := pop w (above st).

Definition holds_guard (k : Kont) : bool := match k with KSweep g _ => g | _ => true end.
Fixpoint guards (st : list Pend) : Prop :=
  match st with
  | [] => True
  | [p] => holds_guard (pd_kont p) = true
  | p :: st => holds_guard (pd_kont p) = false /\ guards st
  end.

(** What a reservation that waits has checked. *)
Record reserve_ok w (P out : list Lease) q (fl : option RetireError) : Prop := {
  res_group : forall x, x ∈ all_occs P -> in_group (q_key q) (length (q_adapters q)) (q_policy q) x;
  res_lane : q_policy q <> Focus -> fl = None -> forall x, x ∈ all_occs out -> o_key x <> q_key q;
  res_index : (lane (q_key q) < length (q_adapters q))%nat;
  res_parent : forall p, q_parent q = Some p ->
    q_policy q = Focus /\ p_policy p <> Focus /\ same_identity (p_key p) (q_key q) /\ p_token p < next_token w /\
    (forall x, x ∈ all_occs P -> o_token x = p_token p -> x = parent_occ p) /\
    (forall a p', a ∈ P -> parent a = Some p' -> p_token p' <> p_token p) /\
    (forall pl, leases (registry w) !! p_token p = Some pl -> owner pl = q_owner q);
  res_owner : countb (fun l => bool_decide (owner l = q_owner q)) (values (registry w)) < 1024;
}.

Definition credit (p : Pend) : Z :=
  match pd_kont p, pd_failure p with
  | KReserve _, None => Z.max 1 (Z.of_nat (length (pd_todo p)))
  | _, _ => Z.of_nat (length (pd_todo p))
  end.
Definition weight w (st : list Pend) : Z :=
  Z.of_nat (size (leases (registry w))) + Z.of_nat (length (pending (registry w))) + foldr (fun p n => credit p + n) 0 st.

Definition held w (st : list Pend) (t : Z) : Prop := t ∈ token <$> (pending (registry w) ++ infl st).
Definition tracked w (st : list Pend) (t : Z) : Prop :=
  (exists l, leases (registry w) !! t = Some l /\ winner (registry w) (key l) = Some t) \/ held w st t.

Record AInv w (st : list Pend) : Prop := mkAInv {
  a_pop : PopInv (pop w st) (next_token w);
  a_tok : tok_ok (registry w);
  a_parent : forall t l p, leases (registry w) !! t = Some l -> parent l = Some p ->
    exists pl, leases (registry w) !! p_token p = Some pl /\ owner pl = owner l;
  a_guards : guards st;
  a_transition : transition w = bool_decide (st <> []);
  a_base : forall p q, last st = Some p -> pd_kont p = KReserve q -> reserve_ok w (pop w st) (outside w st) q (pd_failure p);
  a_cover : forall p q t l, last st = Some p -> pd_kont p = KReserve q -> leases (registry w) !! t = Some l ->
    key l = q_key q -> priority l <= q_priority q -> q_policy q = Focus -> is_Some (shown w !! t) -> held w st t;
  a_weight : weight w st <= 16384;
  a_owners : forall o, countb (fun l => bool_decide (owner l = o)) (values (registry w)) <= 1024;
  a_shown : forall t k, shown w !! t = Some k ->
    t < next_token w /\ key_live w k = true /\ (forall l, l ∈ pop w st -> token l = t -> key l = k) /\ tracked w st t;
}.

(** Only the sweep of an owner waits for an engine call; the others retire dead identities. *)
Definition plain (f : Frame) : Prop := match kont f with KSweep _ keep => keep = KeepAll | _ => True end.
Definition Inv w : Prop := AInv w (pend_of <$> stack w) /\ Forall plain (stack w).

(** ** Monotonicity *)

Lemma infl_cons p st : infl (p :: st) = pd_todo p ++ infl st.
Proof. done. Qed.

Lemma above_cons p st : st <> [] -> above (p :: st) = p :: above st.
Proof. by destruct st. Qed.

Lemma above_subset st : infl (above st) ⊆ infl st.
Proof.
  induction st as [|p st IH]; [done|]. destruct (decide (st = [])) as [->|Hne]; [intros x Hx; by apply elem_of_nil in Hx|].
  rewrite above_cons, !infl_cons by done. intros x Hx. rewrite elem_of_app in *. destruct Hx; auto.
Qed.

Lemma count_cores (o : string) r r' : cores r' ⊆ cores r ->
  countb (fun l => bool_decide (owner l = o)) (values r') <= countb (fun l => bool_decide (owner l = o)) (values r).
Proof.
  intros Hs. assert (forall r, countb (fun l => bool_decide (owner l = o)) (values r) = countb (fun kv => bool_decide (owner kv.2 = o)) (map_to_list (cores r))) as Hc.
  { intros r0. unfold countb, values, cores. rewrite filterb_fmap, length_fmap, map_to_list_fmap, filterb_fmap, length_fmap. done. }
  rewrite !Hc. apply map_to_list_submseteq in Hs. destruct (submseteq_Permutation _ _ Hs) as [rest Hp].
  rewrite (countb_perm _ _ _ Hp), countb_app. pose proof (countb_nonneg (fun kv : Z * Lease => bool_decide (owner kv.2 = o)) rest). lia.
Qed.

Lemma reserve_ok_mono w w' P P' out out' q fl fl' :
  reserve_ok w P out q fl -> within P' P -> next_token w <= next_token w' -> cores (registry w') ⊆ cores (registry w) ->
  (fl' = None -> fl = None /\ within out' out) -> reserve_ok w' P' out' q fl'.
Proof.
  intros [R1 R2 R3 R4 R5] Hw Hn Hc Hf. constructor.
  - intros x Hx. apply R1. by eapply all_occs_within.
  - intros Hp E x Hx. destruct (Hf E) as [Efl Hout]. apply R2; [done|done|]. by eapply all_occs_within.
  - done.
  - intros p Hp. destruct (R4 p Hp) as (Q1 & Q2 & Q3 & Q4 & Q5 & Q6 & Q7). split; [done|]. split; [done|]. split; [done|].
    split; [lia|]. split; [intros x Hx; apply Q5; by eapply all_occs_within|]. split.
    + intros a p' Ha Hpa. destruct (Hw a Ha) as (b & Hb & E). apply (Q6 b); [done|]. apply core_fields in E as (_ & _ & _ & _ & _ & _ & _ & <-). done.
    + intros pl Hpl. destruct (cores_sub _ _ _ _ Hc Hpl) as (l0 & Hl0 & E). apply core_fields in E as (_ & -> & _). by apply Q7.
  - pose proof (count_cores (q_owner q) _ _ Hc). lia.
Qed.

(** A step that only takes from the population: cores of leases go or stay, retirements move down. *)
Lemma AInv_shrink w w' st st' :
  AInv w st ->
  cores (registry w') ⊆ cores (registry w) ->
  (forall t l p, leases (registry w') !! t = Some l -> parent l = Some p -> is_Some (leases (registry w) !! p_token p) -> is_Some (leases (registry w') !! p_token p)) ->
  next_token w <= next_token w' -> within (pop w' st') (pop w st) ->
  guards st' -> transition w' = bool_decide (st' <> []) -> weight w' st' <= 16384 ->
  (forall p' q, last st' = Some p' -> pd_kont p' = KReserve q ->
     exists p, last st = Some p /\ pd_kont p = KReserve q /\ (pd_failure p' = None -> pd_failure p = None /\ within (outside w' st') (outside w st))) ->
  (forall t k, shown w' !! t = Some k -> shown w !! t = Some k /\ key_live w' k = true) ->
  (forall t, is_Some (shown w' !! t) -> held w st t -> held w' st' t) ->
  (forall t, is_Some (shown w' !! t) -> tracked w st t -> tracked w' st' t) ->
  AInv w' st'.
Proof.
  intros [A1 A2 A3 A4 A5 A6 A7 A8 A9 A10] Hc Hpar Hn Hw Hg Ht Hwt Hb Hs Hh Htr. constructor; try done.
  - destruct (PopInv_within (pop w' st') (pop w st) (next_token w) (next_token w) Hw ltac:(lia) A1) as [P1 P2 P3 P4]. constructor; [done|done| |done].
    intros a Ha. destruct (P3 a Ha) as (S1 & S2 & S3). split; [done|]. split; [lia|]. intros p Hp. destruct (S3 p Hp). split; [done|lia].
  - by eapply tok_ok_sub.
  - intros t l p Hl Hp. destruct (cores_sub _ _ _ _ Hc Hl) as (l0 & Hl0 & E). apply core_fields in E as (_ & Eo & _ & _ & _ & _ & _ & Ep).
    destruct (A3 t l0 p Hl0) as (pl & Hpl & Ho); [congruence|]. destruct (Hpar t l p Hl Hp) as [pl' Hpl']; [by exists pl|].
    exists pl'. split; [done|]. destruct (cores_sub _ _ _ _ Hc Hpl') as (pl0 & Hpl0 & E). apply core_fields in E as (_ & -> & _). congruence.
  - intros p' q Hl Hk. destruct (Hb p' q Hl Hk) as (p & Hp & Hkp & Hf). eapply reserve_ok_mono; [by apply (A6 p q)|done|done|done|done].
  - intros p' q t l Hl Hk Hlt Hkey Hprio Hpol Hsh. destruct (Hb p' q Hl Hk) as (p & Hp & Hkp & _).
    destruct (cores_sub _ _ _ _ Hc Hlt) as (l0 & Hl0 & E). apply core_fields in E as (_ & _ & _ & Ek & Epr & _).
    apply Hh; [done|]. eapply (A7 p q t l0); [done|done|done|congruence|lia|done|].
    destruct Hsh as [k0 Hk0]. apply Hs in Hk0 as [Hk0 _]. eauto.
  - intros o. pose proof (count_cores o _ _ Hc). specialize (A9 o). lia.
  - intros t k Hsh. destruct (Hs t k Hsh) as [Hsh0 Hlive]. destruct (A10 t k Hsh0) as (B1 & B2 & B3 & B4). split; [lia|]. split; [done|]. split; [|by apply Htr; [eauto|]].
    intros l Hl Et. destruct (Hw l Hl) as (l0 & Hl0 & E). apply core_fields in E as (E1 & _ & _ & E2 & _). rewrite E2. apply B3; [done|congruence].
Qed.

(** ** Retirements *)

Lemma cores_push r l : cores (push_pending r l) = cores r /\ leases (push_pending r l) = leases r.
Proof. unfold push_pending. by destruct (existsb _ _). Qed.

Lemma elem_of_push r l a : a ∈ pending (push_pending r l) -> a ∈ pending r \/ a = l.
Proof. unfold push_pending. destruct (existsb _ _); cbn; [by left|]. rewrite elem_of_app, list_elem_of_singleton. tauto. Qed.

Lemma push_tokens r l t : t ∈ token <$> pending (push_pending r l) <-> t ∈ token <$> pending r \/ t = token l.
Proof.
  unfold push_pending. destruct (existsb _ _) eqn:E; cbn.
  - split; [by left|]. intros [?| ->]; [done|]. apply existsb_elem in E as (p & Hp & Et%Z.eqb_eq). rewrite <- Et. by apply list_elem_of_fmap_2.
  - rewrite fmap_app, elem_of_app. cbn. by rewrite list_elem_of_singleton.
Qed.

Lemma length_push r l : (length (pending (push_pending r l)) <= S (length (pending r)))%nat.
Proof. unfold push_pending. destruct (existsb _ _); cbn; [lia|]. rewrite length_app. cbn. lia. Qed.

Lemma settle_fields w (k : Kont) l res :
  cores (registry (settle w k l res)) = cores (registry w) /\ books (settle w k l res) = books w /\ clients (settle w k l res) = clients w /\
  next_token (settle w k l res) = next_token w /\ transition (settle w k l res) = transition w /\ stack (settle w k l res) = stack w /\
  plugins (settle w k l res) = plugins w.
Proof.
  unfold settle. destruct res as [e|].
  - destruct (identity_live w l); [|done]. cbn. split; [by apply cores_push|done].
  - destruct k; try done. cbn. destruct (winner (registry w) (key l)) as [t|]; [|done]. cbn. split; [by apply cores_suspend|done].
Qed.

Lemma settle_pending w (k : Kont) l res :
  pending (registry (settle w k l res)) =
    match res with Some _ => if identity_live w l then pending (push_pending (registry w) l) else pending (registry w) | None => pending (registry w) end.
Proof.
  unfold settle. destruct res as [e|].
  - by destruct (identity_live w l).
  - destruct k; try done. cbn. destruct (winner (registry w) (key l)) as [t|]; [|done]. cbn. by apply cores_suspend.
Qed.

Lemma settle_shown w (k : Kont) l res :
  shown (settle w k l res) = match res with Some _ => shown w | None => delete (token l) (shown w) end.
Proof.
  unfold settle. destruct res as [e|].
  - by destruct (identity_live w l).
  - destruct k; try done. cbn. by destruct (winner (registry w) (key l)).
Qed.

Lemma key_live_books w w' k : books w' = books w -> clients w' = clients w -> key_live w' k = key_live w k.
Proof. unfold key_live, client_matches, entity_present. by intros -> ->. Qed.

Lemma size_cores r r' : cores r' = cores r -> size (leases r') = size (leases r).
Proof. intros E. assert (size (cores r') = size (cores r)) as Hs by by rewrite E. unfold cores in Hs. by rewrite !map_size_fmap in Hs. Qed.

Lemma elem_of_held w st t : held w st t <-> t ∈ token <$> pending (registry w) \/ t ∈ token <$> infl st.
Proof. unfold held. by rewrite fmap_app, elem_of_app. Qed.

Lemma last_cons_ne {A} (x : A) (xs : list A) : xs <> [] -> last (x :: xs) = last xs.
Proof. by destruct xs. Qed.

(** The first operation of a stack after its top pend is replaced by one of the same kind. *)
Lemma last_replace (p p' : Pend) (st : list Pend) (b : Pend) :
  last (p' :: st) = Some b -> st = [] /\ b = p' /\ last (p :: st) = Some p \/ st <> [] /\ last (p :: st) = Some b.
Proof. destruct st as [|s st]; [left|right; split; [done|]]; [|done]. cbn in *. split; [done|]. split; [congruence|done]. Qed.

Lemma tracked_cores w w' st st' t :
  tok_ok (registry w) -> cores (registry w') = cores (registry w) -> (held w st t -> held w' st' t) -> tracked w st t -> tracked w' st' t.
Proof.
  intros Ht Hc Hh [(l & Hl & Hw)|Hheld]; [|right; by apply Hh]. left. symmetry in Hc. destruct (cores_eq _ _ _ _ Hc Hl) as (l' & Hl' & E).
  exists l'. split; [done|]. apply core_fields in E as (_ & _ & _ & <- & _). by rewrite (winner_cores (registry w) (registry w')).
Qed.

(** One retirement is done: what fails becomes pending, what succeeds is no longer shown. *)
Lemma settle_AInv w (k : Kont) l rest fl res st :
  AInv w (mkPend k (l :: rest) fl :: st) -> AInv (settle w k l res) (mkPend k rest (first_failure fl res) :: st).
Proof.
  intros Ha. pose proof (settle_fields w k l res) as (Fc & Fb & Fcl & Fn & Ft & Fs & Fp).
  pose proof (settle_pending w k l res) as Fpend. pose proof (settle_shown w k l res) as Fsh.
  set (w' := settle w k l res) in *. set (P := mkPend k (l :: rest) fl :: st) in *. set (P' := mkPend k rest (first_failure fl res) :: st).
  assert (cores (registry w') ⊆ cores (registry w)) as Hsub by by rewrite Fc.
  assert (forall a, a ∈ pending (registry w') -> a ∈ pending (registry w) \/ a = l /\ res <> None) as Hpd.
  { intros a. rewrite Fpend. destruct res; [|by left]. destruct (identity_live w l); [|by left]. intros [?| ->]%elem_of_push; [by left|by right]. }
  assert (forall t, is_Some (shown w' !! t) -> held w P t -> held w' P' t) as Hheld.
  { intros t Hsh. rewrite !elem_of_held. unfold P, P'. rewrite !infl_cons. cbn [pd_todo]. rewrite !fmap_app, !elem_of_app. cbn [fmap list_fmap]. rewrite elem_of_cons.
    rewrite Fsh in Hsh. rewrite Fpend. intros [Hp|[[->|Hr]|Hs]]; [|clear Hpd|tauto|tauto].
    - left. destruct res; [|done]. destruct (identity_live w l); [|done]. apply push_tokens. by left.
    - left. destruct res as [e|]; [|rewrite lookup_delete_eq in Hsh; by destruct Hsh].
      destruct Hsh as [k0 Hk0]. destruct (a_shown _ _ Ha _ _ Hk0) as (_ & Hlive & Hkey & _).
      assert (key l = k0) as Hkl. { apply Hkey; [|done]. unfold pop, P. rewrite infl_cons, !elem_of_app. cbn [pd_todo]. rewrite elem_of_cons. right. right. left. by left. }
      unfold identity_live. rewrite Hkl, Hlive. apply push_tokens. by right. }
  assert (forall t k0, shown w' !! t = Some k0 -> shown w !! t = Some k0) as Hshsub.
  { intros t k0. rewrite Fsh. destruct res; [done|]. intros [_ ?]%lookup_delete_Some. done. }
  apply (AInv_shrink w w' P P' Ha Hsub).
  - intros t a p Hl Hp [pl Hpl]. symmetry in Fc. destruct (cores_eq _ _ _ _ Fc Hpl) as (pl' & Hpl' & _). by exists pl'.
  - lia.
  - unfold pop. apply within_app; [by apply within_l, within_cores|]. apply within_r. apply within_app.
    + intros a Ha'. exists a. split; [|done]. unfold P. rewrite infl_cons, !elem_of_app. cbn [pd_todo]. rewrite elem_of_cons. destruct (Hpd a Ha') as [?|[-> _]]; [by left|]. right. left. by left.
    + apply within_r. apply within_subset. unfold P, P'. rewrite !infl_cons. cbn [pd_todo]. intros a. rewrite !elem_of_app, elem_of_cons. tauto.
  - pose proof (a_guards _ _ Ha) as Hg. unfold P, P' in *. by destruct st.
  - rewrite Ft, (a_transition _ _ Ha). unfold P, P'. by rewrite !bool_decide_true.
  - pose proof (a_weight _ _ Ha) as Hw. unfold weight in *. rewrite (size_cores _ _ Fc). unfold P, P' in *. cbn [foldr] in *.
    assert (Z.of_nat (length (pending (registry w'))) <= Z.of_nat (length (pending (registry w))) + match res with Some _ => 1 | None => 0 end) as Hle.
    { rewrite Fpend. destruct res; [|lia]. destruct (identity_live w l); [|lia]. pose proof (length_push (registry w) l). lia. }
    unfold credit in *. cbn [pd_kont pd_todo pd_failure length] in *. destruct k, res, fl; cbn [first_failure] in *; lia.
  - intros p' q Hlast Hk. destruct (last_replace (mkPend k (l :: rest) fl) _ _ _ Hlast) as [(-> & -> & Hl)|(Hne & Hl)].
    + exists (mkPend k (l :: rest) fl). split; [done|]. cbn in Hk. subst k. split; [done|]. cbn [pd_failure]. intros Hf. destruct fl; [done|]. destruct res; [done|]. split; [done|].
      unfold outside, pop. cbn [above]. cbn [infl]. rewrite Fpend. apply within_app; [by apply within_l, within_cores|]. apply within_r, within_refl.
    + exists p'. split; [done|]. split; [done|]. split; [done|]. unfold outside, pop. unfold P, P'. rewrite !above_cons, !infl_cons by done. cbn [pd_todo].
      apply within_app; [by apply within_l, within_cores|]. apply within_r. apply within_subset. intros a. rewrite !elem_of_app, elem_of_cons.
      intros [Hp|[?|?]]; [|tauto|tauto]. destruct (Hpd a Hp) as [?|[-> _]]; [by left|]. right. left. by left.
  - intros t k0 Hk0. split; [by apply Hshsub|]. rewrite (key_live_books w w') by done. apply (a_shown _ _ Ha t). by apply Hshsub.
  - done.
  - intros t Hsh. apply tracked_cores; [apply Ha|done|]. by apply Hheld.
Qed.

(** ** The ends of the operations *)

Lemma lease_held_perm w w' st st' t :
  pending (registry w') = pending (registry w) -> infl st' = infl st -> held w st t -> held w' st' t.
Proof. unfold held. by intros -> ->. Qed.

(** An operation with nothing left to retire leaves the stack. *)
Lemma pop_pend w (k : Kont) fl st :
  AInv w (mkPend k [] fl :: st) -> AInv (with_transition w (bool_decide (st <> []))) st.
Proof.
  intros Ha. eapply (AInv_shrink w); [exact Ha|..]; try done.
  - apply within_refl.
  - pose proof (a_guards _ _ Ha) as Hg. destruct st; [done|]. by destruct Hg.
  - pose proof (a_weight _ _ Ha) as Hw. unfold weight in *. cbn [foldr] in Hw. unfold credit in Hw at 1. cbn [pd_kont pd_todo pd_failure length] in Hw.
    cbn. destruct k, fl; cbn in Hw; lia.
  - intros p' q Hl Hk. exists p'. destruct st as [|p2 st]; [done|]. split; [done|]. split; [done|]. split; [done|].
    unfold outside, pop. rewrite (above_cons _ (p2 :: st)), infl_cons by done. apply within_refl.
  - intros t k0 Hk0. split; [done|]. by apply (a_shown _ _ Ha t).
Qed.

Definition keep_dead w (keep : Retain) : Prop :=
  match keep with
  | KeepNotClient s c => client_matches w s c = false
  | KeepNotEntity i e => entity_present w i e = false
  | _ => True
  end.

Lemma kept_live w keep l : keep_dead w keep -> identity_live w l = true -> kept w keep l = true.
Proof.
  intros Hd Hl. destruct keep as [| |s c|i e]; cbn [kept keep_dead] in *; [done|done|..]; unfold identity_live, key_live in Hl; apply andb_true_iff in Hl as [Hc He].
  - apply negb_true_iff, not_true_iff_false. intros [E1%Z.eqb_eq E2%Z.eqb_eq]%andb_true_iff. rewrite E1, E2 in Hc. congruence.
  - apply negb_true_iff, not_true_iff_false. intros [E1%Z.eqb_eq E2%Z.eqb_eq]%andb_true_iff. rewrite E1, E2 in He. congruence.
Qed.

Lemma retain_AInv w keep st : AInv w st -> keep_dead w keep -> AInv (retain w keep) st.
Proof.
  intros Ha Hd. assert (forall t, is_Some (shown w !! t) -> held w st t -> held (retain w keep) st t) as Hheld.
  { intros t [k0 Hk0]. rewrite !elem_of_held. intros [(l & -> & Hl)%list_elem_of_fmap|]; [|by right]. left.
    apply list_elem_of_fmap_2. cbn. apply elem_of_filterb. split; [|done]. apply kept_live; [done|].
    destruct (a_shown _ _ Ha _ _ Hk0) as (_ & Hlive & Hkey & _). unfold identity_live. rewrite (Hkey l); [done| |done].
    unfold pop. rewrite !elem_of_app. tauto. }
  eapply (AInv_shrink w); [exact Ha|..]; try done.
  - unfold pop. cbn. apply within_subset. intros x. rewrite !elem_of_app, elem_of_filterb. tauto.
  - apply Ha.
  - apply Ha.
  - pose proof (a_weight _ _ Ha) as Hw. unfold weight in *. cbn. pose proof (filterb_length_le (kept w keep) (pending (registry w))). lia.
  - intros p' q Hl Hk. exists p'. split; [done|]. split; [done|]. split; [done|]. unfold outside, pop. cbn. apply within_subset. intros x. rewrite !elem_of_app, elem_of_filterb. tauto.
  - intros t k0 Hk0. split; [done|]. by apply (a_shown _ _ Ha t).
  - intros t Hsh. apply tracked_cores; [apply Ha|done|]. by apply Hheld.
Qed.

Lemma values_insert r t l : leases r !! t = None -> values (set_lease r t l) ≡ₚ l :: values r.
Proof. intros Hn. unfold values, set_lease. cbn. rewrite map_to_list_insert by done. done. Qed.

Lemma all_occs_perm P P' x : P ≡ₚ P' -> x ∈ all_occs P <-> x ∈ all_occs P'.
Proof. intros Hp. rewrite !elem_of_all_occs. by setoid_rewrite Hp. Qed.

Lemma compatible_refl x : compatible x x.
Proof. split; [|split]; [|done|done]. intros _. done. Qed.

(** The population with a lease that carries a fresh token. *)
Lemma PopInv_insert P nt l :
  PopInv P nt -> token l = nt -> (lane (key l) < capacity l)%nat ->
  (forall x, x ∈ all_occs P -> in_group (key l) (capacity l) (policy l) x) ->
  (policy l <> Focus -> forall x, x ∈ all_occs P -> o_key x <> key l) ->
  (forall p, parent l = Some p -> child_ok l p /\ parent_occ p ∈ all_occs P /\ forall a p', a ∈ P -> parent a = Some p' -> p_token p' <> p_token p) ->
  PopInv (l :: P) (nt + 1).
Proof.
  intros [H1 H2 H3 H4] Ht Hlane Hg Hk Hp.
  assert (forall x, x ∈ all_occs P -> o_token x < nt) as Hlt.
  { intros x (a & Ha & Hx)%elem_of_all_occs. destruct (H3 a Ha) as (_ & Hta & Hpa). unfold occs in Hx.
    apply elem_of_cons in Hx as [->|Hx]; [done|]. destruct (parent a) as [p|]; [|by apply elem_of_nil in Hx].
    apply list_elem_of_singleton in Hx as ->. by apply Hpa. }
  set (new := (token l, key l, policy l, capacity l) : occupant).
  assert (forall x, x ∈ all_occs (l :: P) -> x = new \/ x ∈ all_occs P) as Hocc.
  { intros x (a & Ha & Hx)%elem_of_all_occs. apply elem_of_cons in Ha as [->|Ha]; [|right; apply elem_of_all_occs; eauto].
    unfold occs in Hx. apply elem_of_cons in Hx as [->|Hx]; [by left|]. right. destruct (parent l) as [p|] eqn:E; [|by apply elem_of_nil in Hx].
    apply list_elem_of_singleton in Hx as ->. by apply Hp. }
  assert (forall x, x ∈ all_occs P -> compatible new x) as Hnew.
  { intros x Hx. split; [by apply Hg|]. split.
    - intros Ek Hpol. exfalso. apply (Hk Hpol x Hx). by symmetry.
    - intros Et. pose proof (Hlt x Hx). cbn in Et. lia. }
  constructor.
  - intros a b [->|Ha]%elem_of_cons [->|Hb]%elem_of_cons Et; [done|..|by apply H1].
    + destruct (H3 b Hb) as (_ & ? & _). lia.
    + destruct (H3 a Ha) as (_ & ? & _). lia.
  - intros x y [->|Hx]%Hocc [->|Hy]%Hocc; [apply compatible_refl|by apply Hnew|by apply compatible_sym, Hnew|by apply H2].
  - intros a [->|Ha]%elem_of_cons.
    + split; [done|]. split; [lia|]. intros p E. destruct (Hp p E) as (Hc & Ho & _). split; [done|]. pose proof (Hlt _ Ho). cbn in *. lia.
    + destruct (H3 a Ha) as (S1 & S2 & S3). split; [done|]. split; [lia|]. intros p E. destruct (S3 p E). split; [done|lia].
  - intros a b p p' [->|Ha]%elem_of_cons [->|Hb]%elem_of_cons Hpa Hpb Et; [done|..|by eapply H4].
    + exfalso. destruct (Hp p Hpa) as (_ & _ & Hno). by apply (Hno b p').
    + exfalso. destruct (Hp p' Hpb) as (_ & _ & Hno). by apply (Hno a p).
Qed.

Lemma tok_lt w st t l : AInv w st -> leases (registry w) !! t = Some l -> t < next_token w.
Proof.
  intros Ha Hl. rewrite <- (a_tok _ _ Ha _ _ Hl). eapply (pop_shape _ _ (a_pop _ _ Ha)). unfold pop. rewrite !elem_of_app. left. apply elem_of_values. eauto.
Qed.

Lemma occ_of_lease w st t l : leases (registry w) !! t = Some l -> (token l, key l, policy l, capacity l) ∈ all_occs (pop w st).
Proof.
  intros Hl. apply elem_of_all_occs. exists l. split; [|unfold occs; by left]. unfold pop. rewrite elem_of_app. left. apply elem_of_values. eauto.
Qed.

(** What the winner of a key becomes when a lease is added that does not take over from it. *)
Lemma winner_insert r t l t0 l0 :
  tok_ok r -> leases r !! t = None -> token l = t -> leases r !! t0 = Some l0 -> winner r (key l0) = Some t0 ->
  (key l0 = key l -> outranks l0 l = true) -> winner (set_lease r t l) (key l0) = Some t0.
Proof.
  intros Hok Hn Ht Hl0 Hw Hr. assert (tok_ok (set_lease r t l)) as Hok'.
  { intros t1 l1. cbn. rewrite lookup_insert_Some. intros [[<- <-]|[_ Hl1]]; [done|by apply Hok]. }
  apply winner_spec in Hw as (l1 & Hl1 & _ & Hall); [|done]. assert (l1 = l0) as -> by congruence.
  apply winner_spec; [done|]. exists l0. cbn. split; [by rewrite lookup_insert_ne by congruence|]. split; [done|].
  intros t2 l2. rewrite lookup_insert_Some. intros [[<- <-]|[_ Hl2]] Hk; [by apply Hr|by eapply Hall].
Qed.

Lemma reserve_insert w w' q a :
  AInv w [] -> reserve_ok w (pop w []) (outside w []) q None ->
  (forall t l, leases (registry w) !! t = Some l -> key l = q_key q -> priority l <= q_priority q -> q_policy q = Focus -> is_Some (shown w !! t) -> held w [] t) ->
  weight w [] + 1 <= 16384 ->
  (forall p, q_parent q = Some p -> is_Some (leases (registry w) !! p_token p)) ->
  books w' = books w -> clients w' = clients w -> shown w' = shown w -> transition w' = false -> next_token w' = next_token w + 1 ->
  registry w' = set_lease (registry w) (next_token w) (lease_of q (next_token w) a) ->
  AInv w' [].
Proof.
  intros Ha [R1 R2 R3 R4 R5] Hcov Hwt Hpar Eb Ec Es Et En Er. set (l := lease_of q (next_token w) a) in *.
  assert (leases (registry w) !! next_token w = None) as Hnone.
  { destruct (leases (registry w) !! next_token w) eqn:E; [|done]. pose proof (tok_lt _ _ _ _ Ha E). lia. }
  assert (values (registry w') ≡ₚ l :: values (registry w)) as Hval by (rewrite Er; by apply values_insert).
  assert (pop w' [] ≡ₚ l :: pop w []) as Hpop by (unfold pop; rewrite Hval, Er; done).
  constructor; try done.
  - rewrite En. eapply (PopInv_within _ (l :: pop w [])); [apply within_subset; by rewrite Hpop|done|].
    apply PopInv_insert; [apply Ha|done|done|done|..].
    + intros Hpol x Hx. apply R2; [done|done|]. done.
    + intros p Hp. destruct (R4 p Hp) as (Q1 & Q2 & Q3 & Q4 & Q5 & Q6 & Q7). split; [done|]. split; [|done].
      destruct (Hpar p Hp) as [pl Hpl]. pose proof (occ_of_lease w [] _ _ Hpl) as Ho. rewrite <- (Q5 _ Ho); [done|]. cbn. by apply (a_tok _ _ Ha).
  - rewrite Er. intros t l0. cbn. rewrite lookup_insert_Some. intros [[<- <-]|[_ Hl]]; [done|by apply (a_tok _ _ Ha)].
  - rewrite Er. cbn. intros t l0 p. rewrite lookup_insert_Some. intros [[<- <-]|[Hne Hl]] Hp.
    + destruct (R4 p Hp) as (_ & _ & _ & Q4 & _ & _ & Q7). destruct (Hpar p Hp) as [pl Hpl]. exists pl. split; [|by apply Q7]. rewrite lookup_insert_ne by lia. done.
    + destruct (a_parent _ _ Ha _ _ _ Hl Hp) as (pl & Hpl & Ho). exists pl. split; [|done]. rewrite lookup_insert_ne; [done|]. intros E. rewrite <- E in Hpl. congruence.
  - unfold weight in *. rewrite Er. cbn in *. rewrite map_size_insert_None by done. lia.
  - intros o. rewrite (countb_perm _ _ _ Hval), countb_cons. pose proof (a_owners _ _ Ha o). case_bool_decide as E; [|lia]. cbn in E. subst o. lia.
  - rewrite Es. intros t k0 Hk0. destruct (a_shown _ _ Ha _ _ Hk0) as (B1 & B2 & B3 & B4). split; [lia|]. split; [by rewrite (key_live_books w w')|]. split.
    + intros l0. rewrite Hpop. intros [->|Hl0]%elem_of_cons Htok; [cbn in Htok; lia|by apply B3].
    + assert (held w [] t -> held w' [] t) as Hheld by (unfold held; by rewrite Er).
      destruct B4 as [(l0 & Hl0 & Hw)|?]; [|right; by apply Hheld].
      destruct (decide (key l0 = q_key q /\ priority l0 <= q_priority q)) as [[Hk Hp]|Hno].
      * destruct (decide (q_policy q = Focus)) as [Hf|Hf]; [right; apply Hheld; by eapply Hcov|].
        exfalso. eapply (R2 Hf eq_refl (token l0, key l0, policy l0, capacity l0)); [by apply (occ_of_lease w [] t)|done].
      * left. exists l0. rewrite Er. cbn [set_lease leases]. split; [rewrite lookup_insert_ne; [done|]; intros E; congruence|].
        apply winner_insert; [apply Ha|done|done|done|done|]. intros Hk. unfold outranks. apply orb_true_iff. left. apply Z.ltb_lt. cbn in *.
        destruct (decide (priority l0 <= q_priority q)); [|lia]. exfalso. by apply Hno.
Qed.

Lemma checked_add_next w t w' : mint w = Some (t, w') ->
  t = next_token w /\ next_token w' = next_token w + 1 /\ registry w' = registry w /\ books w' = books w /\ clients w' = clients w /\
  shown w' = shown w /\ transition w' = transition w /\ stack w' = stack w /\ plugins w' = plugins w.
Proof. unfold mint, checked_add. destruct (_ <=? _); [|done]. cbn. by intros [= <- <-]. Qed.

(** The token counter moved on. *)
Lemma AInv_bump w w' :
  AInv w [] -> registry w' = registry w -> next_token w <= next_token w' -> books w' = books w -> clients w' = clients w ->
  shown w' = shown w -> transition w' = false -> AInv w' [].
Proof.
  intros Ha Er En Eb Ec Es Et. eapply (AInv_shrink w); [exact Ha|..]; rewrite ?Er, ?Es; try done.
  - unfold pop. rewrite Er. apply within_refl.
  - pose proof (a_weight _ _ Ha) as Hw. unfold weight in *. by rewrite Er.
  - intros t k0 Hk0. split; [done|]. rewrite (key_live_books w w') by done. by apply (a_shown _ _ Ha t).
  - intros t _. unfold held. by rewrite Er.
  - intros t _ Htr. unfold tracked, held in *. by rewrite Er.
Qed.

Lemma finish_reserve_AInv w q fl :
  AInv w [mkPend (KReserve q) [] fl] -> AInv (with_transition (finish_reserve w q fl).1 false) [].
Proof.
  intros Ha. pose proof (pop_pend _ _ _ _ Ha) as Hp. change (bool_decide (([] : list Pend) <> [])) with false in Hp.
  unfold finish_reserve. destruct fl as [e|]; [done|]. destruct (mint w) as [[t w1]|] eqn:Em; [|done].
  apply checked_add_next in Em as (-> & Mn & Mr & Mb & Mc & Ms & Mt & _).
  assert (AInv (with_transition w1 false) []) as Hb by (eapply (AInv_bump (with_transition w false)); [done|cbn; congruence || lia..|done]).
  destruct (q_adapters q !! lane (q_key q)) as [a|]; [|done].
  destruct (negb _ || _) eqn:Eg; [done|]. apply orb_false_iff in Eg as [_ Hpar].
  eapply (reserve_insert (with_transition w false)); cbn; [exact Hp|..]; try done.
  - pose proof (a_base _ _ Ha _ q eq_refl eq_refl) as Hr. eapply reserve_ok_mono; [exact Hr|..]; try done.
    + unfold pop. cbn. apply within_refl.
    + intros _. split; [done|]. unfold outside, pop. cbn. apply within_refl.
  - intros t l Hl Hk Hpr Hf Hsh. apply (a_cover _ _ Ha _ q t l eq_refl eq_refl); done.
  - pose proof (a_weight _ _ Ha) as Hw. unfold weight, credit in *. cbn in *. lia.
  - intros p Hq. rewrite Hq in Hpar. apply negb_false_iff, bool_decide_eq_true in Hpar. by rewrite <- Mr.
  - by rewrite Mr.
Qed.

Lemma conclude_AInv w (k : Kont) fl st :
  AInv w (mkPend k [] fl :: st) -> (forall g keep, k = KSweep g keep -> keep_dead w keep) -> AInv (conclude w k fl).1 st.
Proof.
  intros Ha Hd. pose proof (pop_pend _ _ _ _ Ha) as Hp. pose proof (a_guards _ _ Ha) as Hg.
  assert (forall b, holds_guard k = b -> (st = [] /\ b = true) \/ (st <> [] /\ b = false)) as Hb.
  { intros b <-. destruct st; [by left|right]. by destruct Hg. }
  destruct k as [q| |k o g|guard keep|]; cbn [conclude holds_guard] in *.
  - destruct (Hb true eq_refl) as [[-> _]|[_ ?]]; [|done]. pose proof (finish_reserve_AInv w q fl Ha) as Hf. by destruct (finish_reserve w q fl).
  - destruct (Hb true eq_refl) as [[-> _]|[_ ?]]; [|done]. done.
  - destruct (Hb true eq_refl) as [[-> _]|[_ ?]]; [|done]. done.
  - cbn [fst]. specialize (Hd guard keep eq_refl). destruct (Hb guard eq_refl) as [[-> ->]|[Hne ->]]; [by apply retain_AInv|].
    rewrite bool_decide_true in Hp by done. apply retain_AInv; [|done].
    pose proof (a_transition _ _ Ha) as Ht. rewrite bool_decide_true in Ht by done. destruct w; cbn in *. by subst.
  - destruct (Hb true eq_refl) as [[-> _]|[_ ?]]; [|done]. done.
Qed.

(** The invariant reads neither the stack nor the plugins of a world. *)
Lemma AInv_same w w' st :
  AInv w st -> registry w' = registry w -> books w' = books w -> clients w' = clients w -> shown w' = shown w ->
  transition w' = transition w -> next_token w' = next_token w -> AInv w' st.
Proof.
  intros [A1 A2 A3 A4 A5 A6 A7 A8 A9 A10] Er Eb Ec Es Et En.
  constructor; unfold pop, outside, weight, tracked, held in *; rewrite ?Er, ?Es, ?Et, ?En in *; try done.
  - intros p q Hl Hk. destruct (A6 p q Hl Hk) as [R1 R2 R3 R4 R5]. constructor; rewrite ?Er, ?En; try done.
    intros Hpol Hf. unfold outside, pop. rewrite Er. by apply R2.
  - intros t k0 Hk0. rewrite (key_live_books w w') by done. by apply A10.
Qed.

(** The loop over the retirements, and the end that follows it. *)
Lemma begin_live w env l st : begin_retire w env l = inr st -> identity_live w l = true.
Proof. unfold begin_retire. by destruct (identity_live w l). Qed.

Lemma proceed_Inv env (k : Kont) ls : forall w fl,
  AInv w (mkPend k ls fl :: (pend_of <$> stack w)) -> Forall plain (stack w) ->
  (forall g keep, k = KSweep g keep -> keep = KeepAll \/ (keep_dead w keep /\ Forall (fun l => identity_live w l = false) ls)) ->
  Inv (proceed w env k ls fl).1.
Proof.
  induction ls as [|l ls IH]; intros w fl Ha Hpl Hd.
  - unfold proceed. cbn [retire_all]. assert (stack (conclude w k fl).1 = stack w) as Es.
    { destruct k as [q| |? ? ?|[] ?|]; cbn; try done. unfold finish_reserve. destruct fl; [done|]. destruct (mint w) as [[t w1]|] eqn:Em; [|done].
      apply checked_add_next in Em as (_ & _ & _ & _ & _ & _ & _ & Es & _). destruct (q_adapters q !! _); [|done]. by destruct (negb _ || _). }
    unfold Inv. rewrite Es. split; [|done]. apply conclude_AInv; [done|]. intros g keep Ek. destruct (Hd g keep Ek) as [->|[? _]]; done.
  - unfold proceed. cbn [retire_all]. destruct (begin_retire w env l) as [res|st] eqn:Eb.
    + pose proof (settle_fields w k l res) as (_ & Fb & Fc & _ & _ & Fs & _). apply IH.
      * rewrite Fs. by apply settle_AInv.
      * by rewrite Fs.
      * intros g keep Ek. destruct (Hd g keep Ek) as [?|[Hk Hf]]; [by left|right]. split.
        -- unfold keep_dead, client_matches, entity_present in *. by rewrite Fb, Fc.
        -- apply Forall_cons in Hf as [_ Hf]. eapply Forall_impl; [exact Hf|]. intros x Hx. unfold identity_live in *. by rewrite (key_live_books w).
    + cbn [fst]. split; [by eapply AInv_same|]. constructor; [|done]. unfold plain. cbn. destruct k as [| | |g keep|]; try done.
      destruct (Hd g keep eq_refl) as [?|[_ Hf]]; [done|]. apply Forall_cons in Hf as [Hl _]. by rewrite (begin_live _ _ _ _ Eb) in Hl.
Qed.

(** ** The starts of the operations *)

Lemma stack_empty w : Inv w -> transition w = false -> stack w = [].
Proof.
  intros [Ha _] Ht. pose proof (a_transition _ _ Ha) as Hb. rewrite Ht in Hb. symmetry in Hb. apply bool_decide_eq_false, dec_stable in Hb.
  by destruct (stack w).
Qed.

Lemma Inv_same w w' : Inv w -> registry w' = registry w -> books w' = books w -> clients w' = clients w -> shown w' = shown w ->
  transition w' = transition w -> next_token w' = next_token w -> stack w' = stack w -> Inv w'.
Proof. intros [Ha Hp] Er Eb Ec Es Et En Est. split; [|by rewrite Est]. rewrite Est. by eapply AInv_same. Qed.

(** The parent of a lease is not a child. *)
Lemma parent_no_parent w st t l p pl :
  AInv w st -> leases (registry w) !! t = Some l -> parent l = Some p -> leases (registry w) !! p_token p = Some pl ->
  parent pl = None /\ parent_occ p = (token pl, key pl, policy pl, capacity pl) /\ same_identity (key pl) (key l).
Proof.
  intros Ha Hl Hp Hpl. assert (forall t l, leases (registry w) !! t = Some l -> l ∈ pop w st) as Hin.
  { intros t0 l0 H0. unfold pop. rewrite elem_of_app. left. apply elem_of_values. eauto. }
  assert (parent_occ p = (token pl, key pl, policy pl, capacity pl)) as Ho.
  { apply (pop_occ _ _ (a_pop _ _ Ha)); [|by eapply occ_of_lease|cbn; symmetry; by apply (a_tok _ _ Ha)].
    apply elem_of_all_occs. exists l. split; [by eapply Hin|]. unfold occs. rewrite Hp. right. by left. }
  destruct (pop_shape _ _ (a_pop _ _ Ha) l) as (_ & _ & Hsh); [by eapply Hin|]. destruct (Hsh p Hp) as [(Hc1 & Hc2 & Hc3) _].
  injection Ho as E1 E2 E3 E4. split; [|split; [by unfold parent_occ; rewrite E1, E2, E3, E4|by rewrite <- E2]].
  destruct (parent pl) as [p'|] eqn:E; [|done]. exfalso.
  destruct (pop_shape _ _ (a_pop _ _ Ha) pl) as (_ & _ & Hsh'); [by eapply Hin|]. destruct (Hsh' p' E) as [(Hf & _) _]. congruence.
Qed.

(** Trees taken out of the registry, to be retired by an operation that is not a reservation. *)
Lemma removal_AInv w st roots (k : Kont) r removed :
  AInv w st -> removal (registry w) roots r removed -> (forall q, k <> KReserve q) -> holds_guard k = bool_decide (st = []) ->
  AInv (with_transition (with_registry w r) true) (mkPend k removed None :: st).
Proof.
  intros Ha Hr Hk Hg. pose proof (removal_sub _ _ _ _ Hr) as Hsub.
  assert (within removed (values (registry w))) as Hrem.
  { intros a Hin. destruct (rm_removed _ _ _ _ Hr _ Hin) as (l0 & Hl0 & E & _). exists l0. split; [|done]. apply elem_of_values. eauto. }
  assert (forall t, held w st t -> held (with_transition (with_registry w r) true) (mkPend k removed None :: st) t) as Hheld.
  { intros t. rewrite !elem_of_held, infl_cons. cbn. rewrite (rm_pending _ _ _ _ Hr), fmap_app, elem_of_app. tauto. }
  eapply (AInv_shrink w); [exact Ha|..]; try done.
  - cbn. intros t l p Hl Hp [pl Hpl]. pose proof Hl as Hl'. destruct (cores_sub _ _ _ _ Hsub Hl) as (l0 & Hl0 & E).
    pose proof E as E'. apply core_fields in E' as (_ & _ & _ & _ & _ & _ & _ & Ep). rewrite Ep in Hp.
    destruct (parent_no_parent _ _ _ _ _ _ Ha Hl0 Hp Hpl) as (Hnp & _ & _).
    assert (in_trees roots l0 = false) as Hnot.
    { assert (cores r !! t = Some (core l)) as Hc by (apply cores_lookup; eauto). rewrite (rm_cores _ _ _ _ Hr), Hl0 in Hc. by destruct (in_trees roots l0). }
    unfold in_trees in Hnot. rewrite Hp in Hnot. apply orb_false_iff in Hnot as [_ Hnot].
    assert (is_Some (cores r !! p_token p)) as [c Hc].
    { rewrite (rm_cores _ _ _ _ Hr), Hpl. unfold in_trees. rewrite Hnp, (a_tok _ _ Ha _ _ Hpl), Hnot. by eexists. }
    apply cores_lookup in Hc as (x & Hx & _). by exists x.
  - unfold pop. rewrite infl_cons. cbn [registry with_transition with_registry pd_todo]. rewrite (rm_pending _ _ _ _ Hr). apply within_app; [by apply within_l, within_cores|].
    apply within_app; [apply within_r, within_l, within_refl|]. apply within_app; [by apply within_l|apply within_r, within_r, within_refl].
  - pose proof (a_guards _ _ Ha) as Hgs. destruct st; [by rewrite bool_decide_true in Hg by done|]. split; [|done]. cbn [pd_kont]. rewrite Hg. by apply bool_decide_eq_false_2.
  - pose proof (a_weight _ _ Ha) as Hw. unfold weight in *. cbn. rewrite (rm_pending _ _ _ _ Hr). pose proof (rm_size _ _ _ _ Hr).
    unfold credit at 1. cbn. destruct k; try lia. by destruct (Hk q).
  - intros p' q Hl Hkq. destruct st as [|p2 st]; [cbn in Hl; simplify_eq; cbn in Hkq; by destruct (Hk q)|]. exists p'. split; [done|]. split; [done|]. split; [done|].
    unfold outside, pop. rewrite above_cons, infl_cons by done. cbn [registry with_transition with_registry pd_todo]. rewrite (rm_pending _ _ _ _ Hr).
    apply within_app; [by apply within_l, within_cores|].
    apply within_app; [apply within_r, within_l, within_refl|]. apply within_app; [by apply within_l|apply within_r, within_r, within_refl].
  - intros t k0 Hk0. split; [done|]. rewrite (key_live_books w) by done. by apply (a_shown _ _ Ha t).
  - intros t _. apply Hheld.
  - intros t _ [(l & Hl & Hw)|Hh]; [|right; by apply Hheld].
    destruct (removal_winner _ _ _ _ _ _ (a_tok _ _ Ha) Hr Hl Hw) as [Hin|(l' & Hl' & _ & Hw')].
    + right. apply elem_of_held. right. rewrite infl_cons, fmap_app, elem_of_app. by left.
    + left. by exists l'.
Qed.

Lemma sweep_Inv w env (matches : Lease -> bool) keep :
  Inv w -> keep = KeepAll \/ (keep_dead w keep /\ forall t l, leases (registry w) !! t = Some l -> matches l = true -> identity_live w l = false) ->
  Inv (sweep w env matches keep).1.
Proof.
  intros [Ha Hpl] Hk. unfold sweep. case_bool_decide as He.
  - split; [|done]. apply retain_AInv; [done|]. destruct Hk as [->|[? _]]; done.
  - pose proof (remove_many_spec (registry w) (token <$> filterb matches (values (registry w))) (a_tok _ _ Ha)) as Hr.
    destruct (remove_many _ _) as [r removed] eqn:E. cbn [fst snd] in Hr. apply proceed_Inv.
    + cbn [stack with_transition with_registry]. apply (removal_AInv w _ (token <$> filterb matches (values (registry w)))); [done|done|done|].
      cbn. rewrite (a_transition _ _ Ha). rewrite bool_decide_not. by rewrite negb_involutive.
    + done.
    + intros g keep' [= <- <-]. destruct Hk as [?|[Hkd Hm]]; [by left|right]. split; [done|]. apply Forall_forall. intros l Hl.
      destruct (rm_removed _ _ _ _ Hr _ Hl) as (l0 & Hl0 & Ec & Ht). apply core_fields in Ec as (_ & _ & _ & Ek & _).
      unfold identity_live. rewrite (key_live_books w), Ek by done.
      assert (forall t l, leases (registry w) !! t = Some l -> t ∈ token <$> filterb matches (values (registry w)) -> key_live w (key l) = false) as Hdead.
      { intros t x Hx (y & -> & [Hy [t' Hty]%elem_of_values]%elem_of_filterb)%list_elem_of_fmap. pose proof (a_tok _ _ Ha _ _ Hty) as E'. rewrite E' in Hx.
        assert (x = y) as -> by congruence. by eapply Hm. }
      unfold in_trees in Ht. apply orb_true_iff in Ht as [Ht%bool_decide_eq_true|Ht].
      * eapply Hdead; [exact Hl0|]. by rewrite (a_tok _ _ Ha _ _ Hl0) in Ht.
      * destruct (parent l0) as [p|] eqn:Ep; [|done]. apply bool_decide_eq_true in Ht. destruct (a_parent _ _ Ha _ _ _ Hl0 Ep) as (pl & Hp' & _).
        destruct (parent_no_parent _ _ _ _ _ _ Ha Hl0 Ep Hp') as (_ & _ & Hid). destruct Hid as (I1 & I2 & I3 & I4).
        pose proof (Hdead _ _ Hp' Ht) as Hd. unfold key_live in *. by rewrite I1, I2, I3, I4 in Hd.
Qed.
End LeaseInvariant.
End LeaseInvariant.
