(* ===== verification/LeaseSteps.v ===== *)
(** Every operation of the surface lease machine preserves the invariant of LeaseInvariant.v. *)
From S2P Require Import Prelude.
From S2P Require Import Json.
From S2P Require Import Liveness.
From S2P Require Import EntityLive.
From S2P Require Import Plugin.
From S2P Require Import SharedSwitch.
From S2P Require Import SurfaceLeases.
From S2P Require Import LeaseRegistry.
From S2P Require Import LeaseInvariant.
Import SurfaceLeases.
Import LeaseRegistry.
Import LeaseInvariant.

Module LeaseSteps.
Section LeaseSteps.
Context {num : Type} `{JsonNumber num}.
Notation Lease := (@Lease num).
Notation Registry := (@Registry num).
Notation World := (@World num).
Notation Kont := (@Kont num).
Notation Frame := (@Frame num).
Notation Pend := (@Pend num).
Notation Reservation := (@Reservation num).
Implicit Types (l : Lease) (r : Registry) (w : World) (q : Reservation).

(** ** Reservations *)

(** The registry a reservation starts from, under the guard. *)
Definition guarded w r : World := with_transition (with_registry w r) true.

Lemma guarded_fields w r :
  registry (guarded w r) = r /\ books (guarded w r) = books w /\ clients (guarded w r) = clients w /\ shown (guarded w r) = shown w /\
  next_token (guarded w r) = next_token w /\ transition (guarded w r) = true /\ stack (guarded w r) = stack w.
Proof. done. Qed.

(** Nothing, or copies of leases that stay, to be retired. *)
Lemma copies_AInv w r (k : Kont) copies :
  AInv w [] -> cores r = cores (registry w) -> pending r = pending (registry w) -> within copies (values (registry w)) ->
  (forall q, k <> KReserve q) -> holds_guard k = true -> weight w [] + Z.of_nat (length copies) <= 16384 ->
  AInv (guarded w r) [mkPend k copies None].
Proof.
  intros Ha Hc Hp Hw Hk Hg Hwt. assert (forall t, held w [] t -> held (guarded w r) [mkPend k copies None] t) as Hheld.
  { intros t. rewrite !elem_of_held. cbn [registry guarded with_transition with_registry]. rewrite Hp. intros [?|Hx]; [by left|]. by apply elem_of_nil in Hx. }
  eapply (AInv_shrink w); [exact Ha|..]; try done.
  - by cbn; rewrite Hc.
  - cbn. intros t l p _ _ [pl Hpl]. symmetry in Hc. destruct (cores_eq _ _ _ _ Hc Hpl) as (x & Hx & _). by exists x.
  - unfold pop. rewrite infl_cons. cbn [registry guarded with_transition with_registry pd_todo]. rewrite Hp. apply within_app; [apply within_l, within_cores; by rewrite Hc|].
    apply within_app; [apply within_r, within_l, within_refl|]. apply within_app; [by apply within_l|apply within_r, within_r, within_refl].
  - unfold weight in *. cbn in *. rewrite Hp, (size_cores _ _ Hc). unfold credit. cbn. destruct k; try lia. by destruct (Hk q).
  - intros p' q Hl Hkq. cbn in Hl. simplify_eq. cbn in Hkq. by destruct (Hk q).
  - intros t k0 Hk0. split; [done|]. by apply (a_shown _ _ Ha t).
  - intros t _. apply Hheld.
  - intros t _. apply tracked_cores; [apply Ha|done|]. apply Hheld.
Qed.

(** The same operation as a reservation. *)
Lemma reserve_AInv w q ls :
  AInv w [mkPend KRelease ls None] -> reserve_ok w (pop w [mkPend KRelease ls None]) (values (registry w) ++ pending (registry w)) q None ->
  (forall t l, leases (registry w) !! t = Some l -> key l = q_key q -> priority l <= q_priority q -> q_policy q = Focus ->
     is_Some (shown w !! t) -> held w [mkPend KRelease ls None] t) ->
  weight w [] + Z.max 1 (Z.of_nat (length ls)) <= 16384 -> AInv w [mkPend (KReserve q) ls None].
Proof.
  intros [A1 A2 A3 A4 A5 A6 A7 A8 A9 A10] Hr Hc Hw. constructor; try done.
  - intros p q0 Hl Hk. cbn in Hl. simplify_eq. cbn in Hk. injection Hk as <-. cbn [pd_failure].
    replace (outside w [mkPend (KReserve q) ls None]) with (values (registry w) ++ pending (registry w)); [done|].
    unfold outside, pop. cbn. by rewrite app_nil_r.
  - intros p q0 t l Hl Hk Hlt Hkey Hpr Hpo Hsh. cbn in Hl. simplify_eq. cbn in Hk. injection Hk as <-. by apply (Hc t l).
  - unfold weight, credit in *. cbn in *. lia.
Qed.

Lemma elem_of_occupancy w st x :
  AInv w st -> x ∈ all_occs (values (registry w) ++ pending (registry w)) -> (o_key x, o_policy x, o_capacity x) ∈ occupancy (registry w).
Proof.
  intros Ha (a & Hin & Hx)%elem_of_all_occs. unfold occupancy. rewrite elem_of_app. unfold occs in Hx. apply elem_of_cons in Hx.
  apply elem_of_app in Hin as [Hin|Hin].
  - left. destruct Hx as [->|Hx]; [by apply (list_elem_of_fmap_2 (fun l => (key l, policy l, capacity l)))|].
    destruct (parent a) as [p|] eqn:Ep; [|by apply elem_of_nil in Hx]. apply list_elem_of_singleton in Hx as ->.
    apply elem_of_values in Hin as [t Ht]. destruct (a_parent _ _ Ha _ _ _ Ht Ep) as (pl & Hpl & _).
    destruct (parent_no_parent _ _ _ _ _ _ Ha Ht Ep Hpl) as (_ & -> & _). cbn.
    apply (list_elem_of_fmap_2 (fun l => (key l, policy l, capacity l))). apply elem_of_values. eauto.
  - right. apply list_elem_of_join. exists ((key a, policy a, capacity a) :: parent_occupant a). split.
    + unfold parent_occupant. destruct Hx as [->|Hx]; [by left|]. right. destruct (parent a) as [p|]; [|by apply elem_of_nil in Hx].
      apply list_elem_of_singleton in Hx as ->. by left.
    + by apply (list_elem_of_fmap_2 (fun l => (key l, policy l, capacity l) :: parent_occupant l)).
Qed.

(** What [choose_lane] has checked. *)
Record chosen w (o : string) (k : Key) (prio : Z) (po : Policy) (cap n : nat) (old : option Z) : Prop := {
  ch_owner : countb (fun l => bool_decide (owner l = o)) (values (registry w)) < 1024;
  ch_size : weight w [] < 16384;
  ch_group : forall x, x ∈ occupancy (registry w) -> same_group x.1.1 k = true -> x.2 = cap /\ (x.1.2 = Focus <-> po = Focus);
  ch_lane : (n < cap)%nat;
  ch_focus : po = Focus -> n = O /\ (forall t l, winner (registry w) k = Some t -> leases (registry w) !! t = Some l -> priority l <= prio -> old = Some t) /\
    (forall t, old = Some t -> winner (registry w) k = Some t);
  ch_free : po <> Focus -> old = None -> forall x, x ∈ occupancy (registry w) -> same_group x.1.1 k = true -> lane x.1.1 <> n;
  ch_old : po <> Focus -> forall t, old = Some t ->
    exists l, leases (registry w) !! t = Some l /\ key l = with_lane k n /\ policy l = Legacy /\ pending_key (registry w) (key l) = false;
}.

Lemma with_lane_eq k k' : same_group k k' = true -> k = with_lane k' (lane k).
Proof. rewrite same_group_true. unfold same_identity. intros (E1 & E2 & E3 & E4 & E5). destruct k; cbn in *. unfold with_lane. congruence. Qed.

Lemma min_lease_elem (ls : list Lease) l : min_lease ls = Some l -> l ∈ ls.
Proof.
  unfold min_lease. set (f := fun (b : option Lease) x => _).
  assert (forall ls b, foldl f b ls = b \/ exists x, x ∈ ls /\ foldl f b ls = Some x) as Hgo.
  { clear ls l. induction ls as [|x ls IH]; intros b; cbn [foldl]; [by left|].
    destruct (IH (f b x)) as [->|(y & Hy & E)]; [|right; exists y; split; [by right|done]].
    unfold f. destruct b as [b|]; [destruct (token x <? token b); [|by left]|]; right; exists x; (split; [by left|done]). }
  intros Hm. destruct (Hgo ls None) as [Hx|(y & Hy & E)]; [congruence|by simplify_eq].
Qed.

Lemma choose_lane_spec w o k prio po cap n old :
  AInv w [] -> (0 < cap)%nat -> choose_lane (registry w) o k prio po cap = inr (n, old) -> chosen w o k prio po cap n old.
Proof.
  intros Ha Hcap. unfold choose_lane. destruct (_ || _) eqn:Elim; [done|]. apply orb_false_iff in Elim as [E1 E2].
  set (group := filterb _ (occupancy (registry w))). destruct (existsb _ group) eqn:Eg; [done|].
  rewrite existsb_none in Eg.
  assert (forall x, x ∈ occupancy (registry w) -> same_group x.1.1 k = true -> x ∈ group) as Hin by (intros x Hx Hs; by apply elem_of_filterb).
  assert (forall x, x ∈ occupancy (registry w) -> same_group x.1.1 k = true -> x.2 = cap /\ (x.1.2 = Focus <-> po = Focus)) as Hgr.
  { intros x Hx Hs. specialize (Eg x (Hin x Hx Hs)). apply orb_false_iff in Eg as [Ec Ep]. apply negb_false_iff, Nat.eqb_eq in Ec.
    apply negb_false_iff, eqb_prop in Ep. split; [done|]. do 2 case_bool_decide; done || (split; done). }
  assert (weight w [] < 16384) as Hwt by (unfold weight; cbn; bool_to_prop; lia). apply Z.leb_gt in E1.
  assert (po = Focus \/ po <> Focus) as [->|Hnf] by (destruct po; auto).
  { destruct (pending_key (registry w) k); [done|]. intros [= <- <-].
    constructor; try done. intros _. split; [done|]. split.
    - intros t l -> -> Hp%Z.leb_le. by rewrite Hp.
    - intros t. destruct (winner (registry w) k) as [t'|]; [|done]. by destruct (match leases (registry w) !! t' with Some _ => _ | None => _ end). }
  assert (match filterb (free_lane ((fun x => x.1.1) <$> group)) (seq 0 cap) with
          | m :: _ => inr (m, None)
          | [] => match po with Legacy => match min_lease (filterb (fun l => same_group (key l) k && bool_decide (policy l = Legacy) && negb (pending_key (registry w) (key l))) (values (registry w))) with
                                 | Some old => inr (lane (key old), Some (token old)) | None => inl Busy end | _ => inl Busy end end = inr (n, old) ->
          chosen w o k prio po cap n old) as Hgo; [|by destruct po].
  destruct (filterb (free_lane _) _) as [|m rest] eqn:Ef.
  - destruct po; try done. destruct (min_lease _) as [l|] eqn:Em; [|done]. intros [= <- <-]. apply min_lease_elem, elem_of_filterb in Em as [Hl [t Ht]%elem_of_values].
    apply andb_true_iff in Hl as [[Hs Hleg%bool_decide_eq_true]%andb_true_iff Hpk%negb_true_iff].
    assert (capacity l = cap) as Hc.
    { refine (proj1 (Hgr (key l, policy l, capacity l) _ Hs)). unfold occupancy. rewrite elem_of_app. left.
      apply (list_elem_of_fmap_2 (fun l => (key l, policy l, capacity l))). apply elem_of_values. eauto. }
    constructor; try done.
    + rewrite <- Hc. apply (pop_shape _ _ (a_pop _ _ Ha)). unfold pop. rewrite elem_of_app. left. apply elem_of_values. eauto.
    + intros _ t' [= <-]. exists l. rewrite (a_tok _ _ Ha _ _ Ht). split; [done|]. split; [by apply with_lane_eq|done].
  - intros [= <- <-]. assert (m ∈ filterb (free_lane ((fun x => x.1.1) <$> group)) (seq 0 cap)) as Hm by (rewrite Ef; by left).
    apply elem_of_filterb in Hm as [Hfree Hseq]. apply elem_of_seq in Hseq. constructor; try done.
    + lia.
    + intros _ _ x Hx Hs. unfold free_lane in Hfree. rewrite forallb_elem in Hfree.
      specialize (Hfree x.1.1 (list_elem_of_fmap_2 (fun x : Key * Policy * nat => x.1.1) _ _ (Hin x Hx Hs))). by apply negb_true_iff, Nat.eqb_neq in Hfree.
Qed.

Lemma find_parent_spec w o g k po t p :
  find_parent w o g k po t = inr p ->
  exists pl, leases (registry w) !! t = Some pl /\ owner pl = o /\ p = mkParent t (key pl) (policy pl) (capacity pl) /\ po = Focus /\
    policy pl <> Focus /\ same_identity (key pl) k /\
    forall a p', a ∈ values (registry w) ++ pending (registry w) -> parent a = Some p' -> p_token p' <> t.
Proof.
  unfold find_parent. destruct (leases (registry w) !! t) as [pl|]; [|done]. destruct (negb (_ && live w pl)) eqn:E1; [done|].
  destruct (_ || _) eqn:E2; [done|]. destruct (existsb _ _) eqn:E3; [done|]. intros [= <-].
  apply negb_false_iff, andb_true_iff in E1 as [[E1%bool_decide_eq_true _]%andb_true_iff _].
  rewrite !orb_false_iff, !negb_false_iff, bool_decide_eq_true, !Z.eqb_eq, !bool_decide_eq_false in E2.
  destruct E2 as [[[[[[[F1 F2] F3] F4] F5] F6] _] _]. exists pl. split; [done|]. split; [done|]. split; [done|]. split; [done|]. split; [done|].
  split; [by repeat split|]. rewrite existsb_none in E3. intros a p' Ha Hp'. specialize (E3 a Ha). rewrite Hp' in E3. by apply Z.eqb_neq.
Qed.

Lemma same_group_lane k n x : same_group x (with_lane k n) = same_group x k.
Proof. done. Qed.

Definition parent_found w (o : string) (k : Key) (po : Policy) (p : Parent) : Prop :=
  exists pl, leases (registry w) !! p_token p = Some pl /\ owner pl = o /\ p = mkParent (p_token p) (key pl) (policy pl) (capacity pl) /\ po = Focus /\
    policy pl <> Focus /\ same_identity (key pl) k /\
    forall a p', a ∈ values (registry w) ++ pending (registry w) -> parent a = Some p' -> p_token p' <> p_token p.

(** The checks hold of the population the reservation starts from. *)
Lemma reserve_ok_start w r ls o gen k prio g ads po p n old :
  AInv w [] -> chosen w o k prio po (length ads) n old -> (forall pa, p = Some pa -> parent_found w o k po pa) ->
  cores r ⊆ cores (registry w) -> pending r = pending (registry w) -> within ls (values (registry w)) ->
  (po <> Focus -> forall t, old = Some t -> forall t' l, leases r !! t' = Some l -> token l <> t /\ forall pa, parent l = Some pa -> p_token pa <> t) ->
  let w1 := guarded w r in
  reserve_ok w1 (pop w1 [mkPend KRelease ls None]) (values r ++ pending r) (mkReservation o gen (with_lane k n) prio g ads po p) None.
Proof.
  intros Ha [C1 C2 C3 C4 C5 C6 C7] Hp Hsub Hpend Hls Hrem w1.
  assert (within (pop w1 [mkPend KRelease ls None]) (values (registry w) ++ pending (registry w))) as Hin.
  { unfold pop. rewrite infl_cons. cbn [registry w1 guarded with_transition with_registry pd_todo]. rewrite Hpend. apply within_app; [by apply within_l, within_cores|].
    apply within_app; [apply within_r, within_refl|]. apply within_app; [by apply within_l|]. intros a Hx. by apply elem_of_nil in Hx. }
  assert (forall P x, within P (values (registry w) ++ pending (registry w)) -> x ∈ all_occs P -> (o_key x, o_policy x, o_capacity x) ∈ occupancy (registry w)) as Hocc.
  { intros P x HP Hx. eapply elem_of_occupancy; [exact Ha|]. by eapply all_occs_within. }
  constructor; cbn [q_key q_adapters q_policy q_parent q_owner].
  - intros x Hx Hg. rewrite same_group_lane in Hg. destruct (C3 _ (Hocc _ x Hin Hx) Hg) as [Hc Hf]. done.
  - intros Hpo _ x Hx Hk. assert (same_group (o_key x) k = true) as Hg by (rewrite Hk; exact (same_group_refl k)).
    assert (within (values r ++ pending r) (values (registry w) ++ pending (registry w))) as Hout.
    { rewrite Hpend. apply within_app; [by apply within_l, within_cores|apply within_r, within_refl]. }
    destruct old as [t|].
    + destruct (C7 Hpo t eq_refl) as (l & Hl & Hkl & Hleg & Hpk).
      assert (o_token x = t) as Htx.
      { rewrite <- (a_tok _ _ Ha _ _ Hl). destruct (pop_occ _ _ (a_pop _ _ Ha) (token l, key l, policy l, capacity l) x) as (_ & Heq & _).
        - by eapply occ_of_lease.
        - unfold pop. cbn. rewrite app_nil_r. by eapply all_occs_within.
        - symmetry. apply Heq; cbn; [by rewrite Hkl, Hk|by rewrite Hleg]. }
      apply elem_of_all_occs in Hx as (a & Hina & Hx). apply elem_of_app in Hina as [[t' Ht']%elem_of_values|Hina].
      * destruct (Hrem Hpo t eq_refl t' a Ht') as [Hne Hnp]. unfold occs in Hx. apply elem_of_cons in Hx as [->|Hx]; [done|].
        destruct (parent a) as [pa|]; [|by apply elem_of_nil in Hx]. apply list_elem_of_singleton in Hx as ->. by apply (Hnp pa).
      * rewrite Hpend in Hina. unfold pending_key in Hpk. rewrite existsb_none in Hpk. specialize (Hpk a Hina). unfold names_key in Hpk.
        apply orb_false_iff in Hpk as [Hk1%bool_decide_eq_false Hk2]. unfold occs in Hx. apply elem_of_cons in Hx as [->|Hx]; [apply Hk1; cbn in Hk; congruence|].
        destruct (parent a) as [pa|]; [|by apply elem_of_nil in Hx]. apply list_elem_of_singleton in Hx as ->. apply bool_decide_eq_false in Hk2. apply Hk2. cbn in Hk. congruence.
    + apply (C6 Hpo eq_refl _ (Hocc _ x Hout Hx) Hg). cbn. by rewrite Hk.
  - done.
  - intros pa ->. destruct (Hp pa eq_refl) as (pl & Hpl & Ho & Epa & Hpo & Hnf & Hid & Hno). split; [done|]. rewrite Epa. cbn [p_policy p_key p_token]. split; [done|]. split; [done|].
    split; [exact (tok_lt w [] _ _ Ha Hpl)|]. split; [|split].
    + intros x Hx Et. unfold parent_occ. cbn [p_token p_key p_policy p_capacity]. rewrite <- (a_tok _ _ Ha _ _ Hpl) in Et |- *.
      apply (pop_occ _ _ (a_pop _ _ Ha)); [unfold pop; cbn; rewrite app_nil_r; by eapply all_occs_within|by eapply occ_of_lease|done].
    + intros a p' Hina Hp'. destruct (Hin a Hina) as (b & Hb & E). apply (Hno b); [done|]. apply core_fields in E as (_ & _ & _ & _ & _ & _ & _ & <-). done.
    + intros pl' Hpl'. destruct (cores_sub _ _ _ _ Hsub Hpl') as (x & Hx & E). apply core_fields in E as (_ & -> & _). congruence.
  - pose proof (count_cores o _ _ Hsub). cbn. lia.
Qed.

Lemma admission_cap w env o k ads : admission w env o k ads = None -> (0 < length ads <= 64)%nat.
Proof. unfold admission. destruct (_ || _) eqn:E; [done|]. apply orb_false_iff in E as [E1%Nat.eqb_neq E2%Nat.ltb_ge]. lia. Qed.

(** What a chosen lane starts with: the registry and the leases to retire. *)
Definition outgoing_of r (po : Policy) (old : option Z) : Registry * list Lease :=
  match old with
  | None => (r, [])
  | Some t =>
      if bool_decide (po = Focus) then let '(r, l) := suspend r t in (r, match l with Some l => [l] | None => [] end)
      else remove_tree r t
  end.

Lemma outgoing_AInv w o gen k prio g ads po p n old :
  AInv w [] -> transition w = false -> lane k = O -> chosen w o k prio po (length ads) n old -> (forall pa, p = Some pa -> parent_found w o k po pa) ->
  let '(r, ls) := outgoing_of (registry w) po old in
  AInv (guarded w r) [mkPend (KReserve (mkReservation o gen (with_lane k n) prio g ads po p)) ls None].
Proof.
  intros Ha Ht Hk0 Hc Hp. pose proof (ch_size _ _ _ _ _ _ _ _ Hc) as Hsize.
  assert (forall r ls, AInv (guarded w r) [mkPend KRelease ls None] -> cores r ⊆ cores (registry w) -> pending r = pending (registry w) ->
    within ls (values (registry w)) ->
    (po <> Focus -> forall t, old = Some t -> forall t' l, leases r !! t' = Some l -> token l <> t /\ forall pa, parent l = Some pa -> p_token pa <> t) ->
    (po = Focus -> forall t, old = Some t -> t ∈ token <$> ls) ->
    weight (guarded w r) [] + Z.max 1 (Z.of_nat (length ls)) <= 16384 ->
    AInv (guarded w r) [mkPend (KReserve (mkReservation o gen (with_lane k n) prio g ads po p)) ls None]) as Hgo.
  { intros r ls Hr Hsub Hpend Hls Hrem Hold Hwt. apply reserve_AInv; [done| | |done].
    - by eapply reserve_ok_start.
    - cbn [q_key q_priority q_policy]. intros t l Hl Hkl Hpr Hpo Hsh. destruct (ch_focus _ _ _ _ _ _ _ _ Hc Hpo) as (-> & Hw & _).
      assert (key l = k) as Ek by (rewrite Hkl; destruct k; cbn in *; by subst).
      destruct (cores_sub _ _ _ _ Hsub Hl) as (l0 & Hl0 & E). apply core_fields in E as (_ & _ & _ & E1 & E2 & _).
      destruct Hsh as [kk Hkk]. destruct (a_shown _ _ Ha _ _ Hkk) as (_ & _ & _ & Htr). apply elem_of_held. cbn [registry guarded with_transition with_registry].
      destruct Htr as [(l1 & Hl1 & Hwin)|Hh].
      + right. cbn. rewrite app_nil_r. apply Hold; [done|]. assert (l1 = l0) as -> by congruence.
        eapply Hw; [|exact Hl0|lia]. rewrite <- Ek, E1. done.
      + left. rewrite Hpend. apply elem_of_held in Hh as [?|Hx]; [done|]. by apply elem_of_nil in Hx. }
  unfold outgoing_of. destruct old as [t|].
  - case_bool_decide as Hpo.
    + pose proof (ch_focus _ _ _ _ _ _ _ _ Hc Hpo) as (_ & _ & Hw). specialize (Hw t eq_refl).
      destruct (winner_key _ _ _ (a_tok _ _ Ha) Hw) as (l & Hl & Hkl & Htl). destruct (cores_suspend (registry w) t) as (Sc & Sp & _).
      unfold suspend in *. rewrite Hl in *. cbn [fst] in *.
      assert (within [suspended (registry w) l] (values (registry w))) as Hwi.
      { intros a ->%list_elem_of_singleton. exists l. split; [apply elem_of_values; eauto|apply core_suspended]. }
      apply Hgo; try done.
      * apply copies_AInv; try done. cbn. lia.
      * by rewrite Sc.
      * intros _ t' [= <-]. cbn. rewrite Htl. by left.
      * unfold weight in *. cbn in *. rewrite map_size_insert_Some by eauto. lia.
    + unfold remove_tree. pose proof (remove_many_spec (registry w) [t] (a_tok _ _ Ha)) as Hr. destruct (remove_many _ _) as [r ls] eqn:E. cbn [fst snd] in Hr.
      pose proof (removal_sub _ _ _ _ Hr) as Hsub. apply Hgo; try done.
      * by apply (removal_AInv w [] [t]).
      * apply Hr.
      * intros a Hin. destruct (rm_removed _ _ _ _ Hr _ Hin) as (l0 & Hl0 & Ec & _). exists l0. split; [|done]. apply elem_of_values. eauto.
      * intros _ t0 [= <-] t' l Hl. assert (cores r !! t' = Some (core l)) as Hcl by (apply cores_lookup; eauto).
        rewrite (rm_cores _ _ _ _ Hr) in Hcl. destruct (leases (registry w) !! t') as [l0|]; [|done]. destruct (in_trees [t] l0) eqn:Et; [done|].
        assert (core l0 = core l) as Ec by congruence. apply core_fields in Ec as (E1 & _ & _ & _ & _ & _ & _ & E2).
        unfold in_trees in Et. apply orb_false_iff in Et as [Et1%bool_decide_eq_false Et2]. rewrite E1 in Et1. rewrite list_elem_of_singleton in Et1. split; [done|].
        intros pa Hpa. rewrite E2, Hpa in Et2. apply bool_decide_eq_false in Et2. by rewrite list_elem_of_singleton in Et2.
      * pose proof (rm_size _ _ _ _ Hr). unfold weight in *. cbn in *. rewrite (rm_pending _ _ _ _ Hr).
        destruct (ch_old _ _ _ _ _ _ _ _ Hc Hpo t eq_refl) as (l & Hl & _).
        assert (size (leases r) < size (leases (registry w)))%nat; [|lia]. assert (cores r ⊂ cores (registry w)) as Hss.
        { split; [done|]. intros Hrev. assert (cores (registry w) !! t = Some (core l)) as Hcl by (apply cores_lookup; eauto).
          eapply lookup_weaken in Hcl; [|exact Hrev]. rewrite (rm_cores _ _ _ _ Hr), Hl in Hcl. unfold in_trees in Hcl.
          rewrite bool_decide_true in Hcl; [done|]. rewrite (a_tok _ _ Ha _ _ Hl). by left. }
        apply map_subset_size in Hss. unfold cores in Hss. by rewrite !map_size_fmap in Hss.
  - apply Hgo; try done.
    + apply copies_AInv; try done; [intros a Hx; by apply elem_of_nil in Hx|]. cbn. lia.
    + intros a Hx. by apply elem_of_nil in Hx.
    + unfold weight in *. cbn in *. lia.
Qed.

Lemma reserve_Inv w env o k prio po ads pt : Inv w -> lane k = O -> Inv (reserve_with_parent w env o k prio po ads pt).1.
Proof.
  intros Hi Hk0. unfold reserve_with_parent. destruct (transition w) eqn:Et; [done|]. pose proof (stack_empty _ Hi Et) as Es.
  destruct (admission _ _ _ _ _) eqn:Ea; [done|]. apply admission_cap in Ea.
  destruct (validate_adapters _ _ _); [done|]. destruct (negb _); [done|].
  destruct (match pt with None => inr None | Some t => _ end) as [f|p] eqn:Ep; [done|].
  destruct (choose_lane _ _ _ _ _ _) as [f|[n old]] eqn:Ec; [done|]. destruct Hi as [Ha Hpl]. rewrite Es in Ha.
  apply choose_lane_spec in Ec; [|done|lia].
  assert (forall pa, p = Some pa -> parent_found w o k po pa) as Hpa.
  { intros pa ->. destruct pt as [t|]; [|done]. destruct (find_parent _ _ _ _ _ _) as [f|p'] eqn:Ef; [done|]. injection Ep as ->.
    apply find_parent_spec in Ef as (pl & H1 & H2 & -> & H4 & H5 & H6 & H7). by exists pl. }
  pose proof (outgoing_AInv w o (plugin_generation w o) k prio (SharedSwitch.game_package_owner env) ads po p n old Ha Et Hk0 Ec Hpa) as Ho.
  unfold outgoing_of in Ho.
  assert (forall r ls, AInv (guarded w r) [mkPend (KReserve (mkReservation o (plugin_generation w o) (with_lane k n) prio (SharedSwitch.game_package_owner env) ads po p)) ls None] ->
    Inv (proceed (with_transition (with_registry w r) true) env (KReserve (mkReservation o (plugin_generation w o) (with_lane k n) prio (SharedSwitch.game_package_owner env) ads po p)) ls None).1) as Hgo.
  { intros r ls Hr. apply proceed_Inv; [|done|done]. cbn [stack with_transition with_registry]. by rewrite Es. }
  destruct old as [t|]; [|by apply Hgo]. case_bool_decide.
  - destruct (suspend _ _). by apply Hgo.
  - destruct (remove_tree _ _). by apply Hgo.
Qed.

Lemma release_Inv w env o t : Inv w -> Inv (release w env o t).1.
Proof.
  intros Hi. unfold release. destruct (transition w) eqn:Et; [done|]. pose proof (stack_empty _ Hi Et) as Es. destruct (negb _); [done|].
  destruct Hi as [Ha Hpl]. rewrite Es in Ha. unfold remove_tree. pose proof (remove_many_spec (registry w) [t] (a_tok _ _ Ha)) as Hr.
  destruct (remove_many _ _) as [r ls]. apply proceed_Inv; [|done|done]. cbn [stack with_transition with_registry]. rewrite Es. by apply (removal_AInv w [] [t]).
Qed.

Lemma advance_Inv w env : Inv w -> Inv (advance_frame w env).1.
Proof.
  intros Hi. unfold advance_frame. destruct (transition w) eqn:Et; [done|]. pose proof (stack_empty _ Hi Et) as Es.
  destruct Hi as [Ha Hpl]. rewrite Es in Ha. apply proceed_Inv; [|done|done]. cbn [stack with_transition with_registry]. rewrite Es.
  assert (forall t, held w [] t -> held (guarded w (mkRegistry (leases (registry w)) [] (sat_add (frame (registry w)) 1))) [mkPend KFrame (pending (registry w)) None] t) as Hheld.
  { intros t. rewrite !elem_of_held. cbn. rewrite app_nil_r. intros [?|Hx]; [by right|]. by apply elem_of_nil in Hx. }
  eapply (AInv_shrink w); [exact Ha|..]; try done.
  - unfold pop. cbn. rewrite !app_nil_r. apply within_refl.
  - pose proof (a_weight _ _ Ha) as Hw. unfold weight, credit in *. cbn in *. lia.
  - intros p' q Hl Hk. cbn in Hl. by simplify_eq.
  - intros t k0 Hk0. split; [done|]. by apply (a_shown _ _ Ha t).
Qed.

(** ** The legacy clear *)

Lemma mint_lanes_spec q free : forall w (P : list Lease),
  PopInv P (next_token w) -> next_token w + Z.of_nat (length free) <= u64_max -> NoDup free ->
  (forall n, n ∈ free -> (n < length (q_adapters q))%nat) ->
  (forall x, x ∈ all_occs P -> same_group (o_key x) (q_key q) = true ->
     o_capacity x = length (q_adapters q) /\ o_policy x <> Focus /\ lane (o_key x) ∉ free) ->
  exists minted, (mint_lanes w q free).2 = Some minted /\
    let w' := (mint_lanes w q free).1 in
    PopInv (minted ++ P) (next_token w') /\ next_token w <= next_token w' /\ length minted = length free /\
    (forall l, l ∈ minted -> next_token w <= token l) /\
    registry w' = registry w /\ books w' = books w /\ clients w' = clients w /\ shown w' = shown w /\ transition w' = transition w /\ stack w' = stack w.
Proof.
  induction free as [|n free IH]; intros w P HP Hlt Hnd Hn Hg; cbn [mint_lanes].
  { exists []. split; [done|]. split; [done|]. split; [done|]. split; [done|]. split; [intros l Hx; by apply elem_of_nil in Hx|done]. }
  cbn [length] in Hlt. destruct (mint w) as [[t w1]|] eqn:Em; [|exfalso; unfold mint, checked_add in Em; destruct (_ <=? _) eqn:E; [done|bool_to_prop; lia]].
  apply checked_add_next in Em as (-> & Mn & Mr & Mb & Mc & Ms & Mt & Mst & _). apply NoDup_cons in Hnd as [Hni Hnd].
  destruct (lookup_lt_is_Some_2 (q_adapters q) n) as [a Ha]; [apply Hn; by left|]. rewrite Ha.
  set (l := lease_of (mkReservation (q_owner q) (q_generation q) (with_lane (q_key q) n) 0 (q_game q) (q_adapters q) Legacy None) (next_token w) a).
  destruct (IH w1 (l :: P)) as (minted & Hm & I1 & I2 & I3 & I4 & I5 & I6 & I7 & I8 & I9 & I10).
  - rewrite Mn. apply PopInv_insert; [done|done|apply Hn; by left|..].
    + intros x Hx Hgx. destruct (Hg x Hx Hgx) as (Hc & Hf & _). split; [done|]. split; [done|]. done.
    + intros _ x Hx Hk. destruct (Hg x Hx) as (_ & _ & Hl); [rewrite Hk; exact (same_group_refl (q_key q))|]. apply Hl. rewrite Hk. by left.
    + done.
  - lia.
  - done.
  - intros m Hm. apply Hn. by right.
  - intros x (b & [->|Hb]%elem_of_cons & Hx)%elem_of_all_occs Hgx.
    + apply list_elem_of_singleton in Hx as ->. done.
    + destruct (Hg x) as (G1 & G2 & G3); [apply elem_of_all_occs; eauto|done|]. split; [done|]. split; [done|]. intros Hin. apply G3. by right.
  - destruct (mint_lanes w1 q free) as [w2 o]. cbn [fst snd] in *. subst o. exists (l :: minted). split; [done|].
    split; [eapply (PopInv_within _ (minted ++ l :: P)); [apply within_subset; intros x; rewrite !elem_of_app, !elem_of_cons; tauto|apply Z.le_refl|exact I1]|].
    split; [lia|]. split; [cbn; lia|]. split; [|by rewrite I5, I6, I7, I8, I9, I10].
    intros x [->|Hx]%elem_of_cons; [done|]. specialize (I4 x Hx). lia.
Qed.

(** More to retire for the operation that holds the guard. *)
Lemma minted_AInv w w' (k : Kont) ls minted :
  AInv w [mkPend k ls None] -> (forall q, k <> KReserve q) -> PopInv (minted ++ pop w [mkPend k ls None]) (next_token w') -> next_token w <= next_token w' ->
  (forall l, l ∈ minted -> next_token w <= token l) -> registry w' = registry w -> books w' = books w -> clients w' = clients w -> shown w' = shown w ->
  transition w' = transition w -> weight w [] + Z.of_nat (length ls + length minted) <= 16384 ->
  AInv w' [mkPend k (ls ++ minted) None].
Proof.
  intros Ha Hk HP Hn Hm Er Eb Ec Es Et Hw.
  assert (pop w' [mkPend k (ls ++ minted) None] ⊆ minted ++ pop w [mkPend k ls None]) as Hpop.
  { intros x. unfold pop. rewrite !infl_cons, Er. cbn [pd_todo]. rewrite !elem_of_app. tauto. }
  assert (forall t, held w [mkPend k ls None] t -> held w' [mkPend k (ls ++ minted) None] t) as Hheld.
  { intros t. rewrite !elem_of_held, !infl_cons, Er. cbn [pd_todo]. rewrite !fmap_app, !elem_of_app. tauto. }
  destruct Ha as [A1 A2 A3 A4 A5 A6 A7 A8 A9 A10]. constructor; rewrite ?Er, ?Es, ?Et in *; try done.
  - exact (PopInv_within _ _ _ _ (within_subset _ _ Hpop) (Z.le_refl _) HP).
  - intros p q Hl Hkq. cbn in Hl. simplify_eq. by destruct (Hk q).
  - intros p q t l Hl Hkq. cbn in Hl. simplify_eq. by destruct (Hk q).
  - unfold weight, credit in *. rewrite Er. cbn in *. rewrite length_app. destruct k; lia.
  - intros t k0 Hk0. destruct (A10 t k0 Hk0) as (B1 & B2 & B3 & B4). split; [lia|]. split; [by rewrite (key_live_books w w')|]. split.
    + intros l Hl Htok. apply Hpop, elem_of_app in Hl as [Hl|Hl]; [specialize (Hm l Hl); lia|by apply B3].
    + destruct B4 as [(l & Hl & Hwin)|Hh]; [left; exists l; by rewrite Er|right; by apply Hheld].
Qed.

Lemma clear_Inv w env o k ads : Inv w -> next_token w + 64 <= u64_max -> Inv (clear_legacy w env o k ads).1.
Proof.
  intros Hi Hnt. unfold clear_legacy. destruct (transition w) eqn:Et; [done|]. pose proof (stack_empty _ Hi Et) as Es.
  destruct (admission _ _ _ _ _) eqn:Ea; [done|]. apply admission_cap in Ea. destruct (negb _); [done|]. destruct (validate_adapters _ _ _); [done|].
  destruct (pending_group _ _) eqn:Epg; [done|]. set (group := filterb _ (values (registry w))). destruct (existsb _ group) eqn:Eg; [done|].
  set (free := filterb _ (seq 0 (length ads))). destruct (_ <? _) eqn:El; [done|]. apply Z.ltb_ge in El. destruct Hi as [Ha Hpl]. rewrite Es in Ha.
  set (roots := token <$> _). pose proof (remove_many_spec (registry w) roots (a_tok _ _ Ha)) as Hr. destruct (remove_many _ _) as [r ls]. cbn [fst snd] in Hr.
  set (q := mkReservation o (plugin_generation w o) k 0 (SharedSwitch.game_package_owner env) ads Legacy None).
  set (kc := KClear k o (plugin_generation w o) : Kont).
  assert (AInv (guarded w r) [mkPend kc ls None]) as Hrm by by apply (removal_AInv w [] roots).
  rewrite existsb_none in Eg. unfold pending_group in Epg. rewrite existsb_none in Epg.
  assert (forall t l, leases (registry w) !! t = Some l -> same_group (key l) k = true -> capacity l = length ads /\ policy l <> Focus /\ lane (key l) ∉ free) as Hgl.
  { intros t l Hl Hs. assert (l ∈ group) as Hin by (apply elem_of_filterb; split; [done|]; apply elem_of_values; eauto).
    specialize (Eg l Hin). apply orb_false_iff in Eg as [Ec%negb_false_iff%Nat.eqb_eq Ep%bool_decide_eq_false]. split; [done|]. split; [done|].
    intros [Hf _]%elem_of_filterb. unfold free_lane in Hf. rewrite forallb_elem in Hf. specialize (Hf (key l) (list_elem_of_fmap_2 key _ _ Hin)).
    by rewrite Nat.eqb_refl in Hf. }
  assert (forall x, x ∈ all_occs (pop w []) -> same_group (o_key x) k = true -> o_capacity x = length ads /\ o_policy x <> Focus /\ lane (o_key x) ∉ free) as Hgo.
  { intros x (a & Hina & Hx)%elem_of_all_occs Hs. unfold pop in Hina. cbn in Hina. rewrite app_nil_r in Hina. apply elem_of_app in Hina as [[t Hin]%elem_of_values|Hin].
    - unfold occs in Hx. apply elem_of_cons in Hx as [->|Hx]; [by apply (Hgl t)|]. destruct (parent a) as [p|] eqn:Ep; [|by apply elem_of_nil in Hx].
      apply list_elem_of_singleton in Hx as ->. destruct (a_parent _ _ Ha _ _ _ Hin Ep) as (pl & Hpl' & _).
      destruct (parent_no_parent _ _ _ _ _ _ Ha Hin Ep Hpl') as (_ & E & _). rewrite E in Hs |- *. by apply (Hgl _ _ Hpl').
    - specialize (Epg a Hin). unfold names_group in Epg. apply orb_false_iff in Epg as [E1 E2]. unfold occs in Hx. apply elem_of_cons in Hx as [->|Hx]; [cbn in Hs; congruence|].
      destruct (parent a) as [p|]; [|by apply elem_of_nil in Hx]. apply list_elem_of_singleton in Hx as ->. cbn in Hs. congruence. }
  assert (within (pop (guarded w r) [mkPend kc ls None]) (pop w [])) as Hwi.
  { unfold pop. rewrite infl_cons. cbn [registry guarded with_transition with_registry pd_todo]. rewrite (rm_pending _ _ _ _ Hr).
    apply within_app; [by apply within_l, within_cores, (removal_sub _ _ _ _ Hr)|]. apply within_app; [apply within_r, within_l, within_refl|].
    apply within_app; [|intros a Hx; by apply elem_of_nil in Hx]. apply within_l. intros a Hin. destruct (rm_removed _ _ _ _ Hr _ Hin) as (l0 & Hl0 & Ec & _).
    exists l0. split; [|done]. apply elem_of_values. eauto. }
  assert (length free <= 64)%nat as Hfl by (unfold free; pose proof (filterb_length_le (free_lane (key <$> group)) (seq 0 (length ads))) as Hf; rewrite length_seq in Hf; lia).
  destruct (mint_lanes_spec q free (with_registry w r) (pop (guarded w r) [mkPend kc ls None])) as (minted & Hm & M1 & M2 & M3 & M4 & M5 & M6 & M7 & M8 & M9 & M10).
  - apply Hrm.
  - cbn. lia.
  - apply filterb_NoDup, NoDup_seq.
  - intros n [_ Hn%elem_of_seq]%elem_of_filterb. cbn. lia.
  - intros x Hx. apply Hgo. by eapply all_occs_within.
  - destruct (mint_lanes (with_registry w r) q free) as [w2 om]. cbn [fst snd] in *. subst om. apply proceed_Inv; [|cbn [stack with_transition]; rewrite M10; exact Hpl|unfold kc; done].
    cbn [stack with_transition]. rewrite M10. cbn [stack with_registry]. rewrite Es.
    apply (minted_AInv (guarded w r)); try done. pose proof (rm_size _ _ _ _ Hr). unfold weight. cbn. rewrite (rm_pending _ _ _ _ Hr). lia.
Qed.

(** ** The other steps *)

(** A lease changes without leaving its key. *)
Lemma set_core_AInv w st t l l0 :
  AInv w st -> leases (registry w) !! t = Some l0 -> core l = core l0 -> AInv (with_registry w (set_lease (registry w) t l)) st.
Proof.
  intros Ha Hl Hc. pose proof (cores_set_lease _ _ _ _ Hl Hc) as Ec.
  eapply (AInv_shrink w); [exact Ha|..]; try done.
  - cbn [registry with_registry]. by rewrite Ec.
  - cbn. intros t' l' p _ _ [pl Hpl]. symmetry in Ec. destruct (cores_eq _ _ _ _ Ec Hpl) as (x & Hx & _). by exists x.
  - unfold pop. apply within_app; [apply within_l, within_cores; cbn [registry with_registry]; by rewrite Ec|apply within_r, within_refl].
  - apply Ha.
  - apply Ha.
  - pose proof (a_weight _ _ Ha) as Hw. unfold weight in *. cbn. by rewrite map_size_insert_Some by eauto.
  - intros p' q Hp Hk. exists p'. split; [done|]. split; [done|]. split; [done|]. unfold outside, pop.
    apply within_app; [apply within_l, within_cores; cbn [registry with_registry]; by rewrite Ec|apply within_r, within_refl].
  - intros t' k0 Hk0. split; [done|]. by apply (a_shown _ _ Ha t').
  - intros t' _. by apply tracked_cores; [apply Ha|..].
Qed.

Lemma paint_Inv w o t : Inv w -> Inv (paint w o t).
Proof.
  intros Hi. unfold paint. destruct (transition w) eqn:Et; [done|]. pose proof (stack_empty _ Hi Et) as Es. destruct Hi as [Ha Hpl].
  destruct (leases (registry w) !! t) as [l|] eqn:El; [|done].
  assert (lease_state w o t = Ready \/ lease_state w o t = Active -> Inv (with_shown w (<[t := key l]> (shown w)))) as Hgo.
  { intros Hst. split; [|done]. cbn [stack with_shown]. rewrite Es in *.
    assert (live w l = true /\ winner (registry w) (key l) = Some t) as [Hlive Hw].
    { unfold lease_state, registry_state in Hst. rewrite El in Hst. destruct (live w l); [|naive_solver]. split; [done|].
      destruct (negb (bool_decide (owner l = o))); [naive_solver|]. case_bool_decide; [done|]. cbn in Hst. naive_solver. }
    pose proof (tok_lt _ _ _ _ Ha El) as Hlt. destruct Ha as [A1 A2 A3 A4 A5 A6 A7 A8 A9 A10]. constructor; try done.
    - cbn [shown with_shown]. intros t' k. rewrite lookup_insert_Some. intros [[<- <-]|[_ Hk]]; [|by apply A10].
      split; [done|]. split; [by apply andb_true_iff in Hlive as [? _]|]. split.
      + intros l' Hl' Htok. assert (core l' = core l) as Ec; [|by apply core_fields in Ec as (_ & _ & _ & -> & _)].
        apply (pop_tok _ _ A1); [done| |rewrite Htok; symmetry; by apply A2]. unfold pop. rewrite elem_of_app. left. apply elem_of_values. eauto.
      + left. by exists l. }
  destruct (lease_state w o t); try done; apply Hgo; auto.
Qed.

Lemma activate_Inv w o t e : Inv w -> Inv (step w (Activate o t e)).1.
Proof.
  intros Hi. cbn [step]. destruct (activate w o t e) as [w' b] eqn:E. cbn [fst]. assert (Inv w') as Hi'.
  { unfold activate in E. destruct (_ || _); [by simplify_eq|]. destruct (leases (registry w) !! t) as [l|] eqn:El; [|by simplify_eq].
    destruct (match parent l with Some _ => _ | None => _ end); simplify_eq; [done|]. destruct Hi as [Ha Hp]. split; [|done]. by eapply set_core_AInv. }
  destruct b; [|done]. by apply paint_Inv.
Qed.

(** The books of entities and connections moved on, and what was shown for a dead identity is forgotten. *)
Lemma books_AInv w b c st : AInv w st ->
  AInv (forget_dead (mkWorld b c (plugins w) (registry w) (next_token w) (transition w) (stack w) (shown w))) st.
Proof.
  intros Ha. set (w' := forget_dead _). assert (forall t k, shown w' !! t = Some k -> shown w !! t = Some k /\ key_live w' k = true) as Hsh.
  { intros t k. unfold w', forget_dead. cbn [shown with_shown]. rewrite map_lookup_filter_Some. by intros [? ?]. }
  eapply (AInv_shrink w); [exact Ha|..]; try done.
  - apply within_refl.
  - apply Ha.
  - apply Ha.
  - apply Ha.
  - intros p' q Hl Hk. exists p'. split; [done|]. split; [done|]. split; [done|]. apply within_refl.
Qed.

Lemma pop_reset w (st : list Pend) : pop (reset w) st = infl st.
Proof. unfold pop, reset, values. cbn [registry with_registry registry_default leases pending]. by rewrite map_to_list_empty. Qed.

Lemma reset_AInv w st : AInv w st -> (forall t, shown w !! t = None) -> AInv (reset w) st.
Proof.
  intros Ha Hs. assert (forall t, is_Some (shown (reset w) !! t) -> False) as Hno by (intros t [k Hk]; cbn in Hk; by rewrite Hs in Hk).
  eapply (AInv_shrink w); [exact Ha|..]; try done.
  - unfold reset, cores. cbn. rewrite fmap_empty. apply map_empty_subseteq.
  - rewrite pop_reset. unfold pop. apply within_r, within_r, within_refl.
  - apply Ha.
  - apply Ha.
  - pose proof (a_weight _ _ Ha) as Hw. unfold weight in *. unfold reset. cbn [registry with_registry registry_default leases pending length]. rewrite map_size_empty. lia.
  - intros p' q Hl Hk. exists p'. split; [done|]. split; [done|]. split; [done|]. unfold outside. rewrite pop_reset. unfold pop. apply within_r, within_r, within_refl.
  - intros t k Hk. exfalso. eauto.
  - intros t Ht. exfalso. eauto.
  - intros t Ht. exfalso. eauto.
Qed.

Lemma lease_return_Inv w env ok : Inv w -> Inv (engine_return w env ok).1.
Proof.
  intros Hi. unfold engine_return. destruct (stack w) as [|f st] eqn:Es; [done|]. destruct Hi as [Ha Hpl]. rewrite Es in Ha, Hpl.
  apply Forall_cons in Hpl as [Hf Hpl]. destruct (resume_retire f ok) as [res|st'].
  - pose proof (settle_fields (with_stack w st) (kont f) (now f) res) as (_ & _ & _ & _ & _ & Fs & _). apply proceed_Inv.
    + rewrite Fs. apply settle_AInv. by eapply AInv_same.
    + by rewrite Fs.
    + intros g keep Ek. left. unfold plain in Hf. by rewrite Ek in Hf.
  - split; cbn [fst].
    + eapply AInv_same; [exact Ha|done..].
    + by constructor.
Qed.

Lemma lease_settle_books w (k : Kont) l res : books (settle w k l res) = books w /\ clients (settle w k l res) = clients w.
Proof. pose proof (settle_fields w k l res). naive_solver. Qed.

Lemma retire_all_books env (k : Kont) ls : forall w fl,
  books (retire_all w env k ls fl).1 = books w /\ clients (retire_all w env k ls fl).1 = clients w.
Proof.
  induction ls as [|l ls IH]; intros w fl; cbn [retire_all]; [done|]. destruct (begin_retire w env l); [|done].
  destruct (IH (settle w k l o) (first_failure fl o)) as [-> ->]. apply lease_settle_books.
Qed.

Lemma conclude_books w (k : Kont) fl : books (conclude w k fl).1 = books w /\ clients (conclude w k fl).1 = clients w.
Proof.
  destruct k as [q| |? ? ?|[] ?|]; cbn [conclude]; try done. unfold finish_reserve. destruct fl; [done|]. destruct (mint w) as [[t w1]|] eqn:Em; [|done].
  apply checked_add_next in Em as (_ & _ & _ & E1 & E2 & _). destruct (q_adapters q !! _); [|done]. by destruct (negb _ || _).
Qed.

Lemma proceed_books w env (k : Kont) ls fl : books (proceed w env k ls fl).1 = books w /\ clients (proceed w env k ls fl).1 = clients w.
Proof.
  unfold proceed. pose proof (retire_all_books env k ls w fl) as [H1 H2]. destruct (retire_all w env k ls fl) as [w' [fl'|]]; cbn [fst] in *; [|done].
  destruct (conclude_books w' k fl') as [-> ->]. done.
Qed.

Lemma sweep_books w env (m : Lease -> bool) keep : books (sweep w env m keep).1 = books w /\ clients (sweep w env m keep).1 = clients w.
Proof.
  unfold sweep. case_bool_decide; [done|]. destruct (remove_many _ _). pose proof (proceed_books (with_transition (with_registry w r) true) env (KSweep (negb (transition w)) keep) l None) as [-> ->]. done.
Qed.

(** What a notification asks for is of dead identities. *)
Definition note_ok w (n : EntityLive.notification) : Prop :=
  match n with
  | EntityLive.SurfaceRetireEntity i e => entity_present w i e = false
  | EntityLive.SurfaceReset => forall i e, entity_present w i e = false
  | _ => True
  end.

Lemma dead_entity w l : entity_present w (index (key l)) (entity (key l)) = false -> identity_live w l = false.
Proof. intros E. unfold identity_live, key_live. by rewrite E, andb_false_r. Qed.

Lemma notified_Inv env w n : Inv w -> note_ok w n -> Inv (notified env w n) /\ books (notified env w n) = books w /\ clients (notified env w n) = clients w.
Proof.
  intros Hi Hn. destruct n as [i e|i r| | | |]; cbn [notified]; try done.
  - split; [|apply sweep_books]. apply sweep_Inv; [done|]. right. split; [done|]. intros t l _ [E1%Z.eqb_eq E2%Z.eqb_eq]%andb_true_iff.
    apply dead_entity. by rewrite E1, E2.
  - split; [|done]. destruct Hi as [Ha Hp]. split; [|done]. apply reset_AInv; [done|]. intros t. destruct (shown w !! t) as [k|] eqn:E; [|done].
    destruct (a_shown _ _ Ha _ _ E) as (_ & Hl & _). unfold key_live in Hl. by rewrite (Hn (index k) (entity k)), andb_false_r in Hl.
  - split; [|apply sweep_books]. apply sweep_Inv; [done|]. right. split; [done|]. intros t l _ Hm. by apply negb_true_iff in Hm.
Qed.

Lemma present_live w i e : EntityLive.wf (books w) -> entity_present w i e = EntityLive.is_live (books w) i e.
Proof.
  intros Hwf. unfold entity_present. pose proof (EntityLive.books_engine_serial_live (books w) i e Hwf) as Hl.
  destruct (EntityLive.engine_serial_for (books w) i e), (EntityLive.is_live (books w) i e); try done.
  - symmetry. by apply Hl.
  - by destruct (proj2 Hl eq_refl).
Qed.

Lemma entity_notes_ok b o n : EntityLive.wf b -> n ∈ (EntityLive.step b o).2 ->
  match n with
  | EntityLive.SurfaceRetireEntity i e => EntityLive.is_live (EntityLive.step b o).1 i e = false
  | EntityLive.SurfaceReset => forall i e, EntityLive.is_live (EntityLive.step b o).1 i e = false
  | _ => True
  end.
Proof.
  intros Hwf Hn. destruct n as [i e|i r| | | |]; try done.
  - eapply (SharedSwitch.entity_step_notes b o (EntityLive.SwitchEntityLifecycle i (Some e)) Hwf).
    assert (forall j (r : option Z), EntityLive.SurfaceRetireEntity i e ∈ EntityLive.retire_lifecycle j r -> EntityLive.SwitchEntityLifecycle i (Some e) ∈ EntityLive.retire_lifecycle j r) as Hr.
    { intros j r. unfold EntityLive.retire_lifecycle. destruct r as [d|]; cbn; rewrite !elem_of_cons, !elem_of_nil; [|by intros [?|[]]].
      intros [[= -> ->]|[?|[]]]; [right; by left|done]. }
    destruct o as [i0 s|i0 s|i0 s| | |ls]; cbn [EntityLive.step] in *; unfold EntityLive.on_created, EntityLive.on_spawned, EntityLive.on_deleted in *.
    + by apply Hr.
    + destruct (LiveTable.get _ i0) as [[d s0]|]; [destruct (s0 =? s)|]; by apply Hr.
    + destruct (LiveTable.get _ i0) as [[d s0]|]; [destruct (s0 =? s)|]; by apply Hr.
    + cbn in Hn. rewrite !elem_of_cons, elem_of_nil in Hn. by destruct Hn as [?|[?|[]]].
    + by apply elem_of_nil in Hn.
    + unfold EntityLive.repair_reconcile in Hn. cbn in Hn. rewrite !elem_of_cons, elem_of_nil in Hn. by destruct Hn as [?|[?|[]]].
  - apply (SharedSwitch.entity_step_notes b o EntityLive.SwitchReset Hwf).
    assert (forall j (r : option Z), EntityLive.SurfaceReset ∉ EntityLive.retire_lifecycle j r) as Hr.
    { intros j r. unfold EntityLive.retire_lifecycle. destruct r as [d|]; cbn; rewrite !elem_of_cons, elem_of_nil; [by intros [?|[?|[]]]|by intros [?|[]]]. }
    destruct o as [i0 s|i0 s|i0 s| | |ls]; cbn [EntityLive.step] in *; unfold EntityLive.on_created, EntityLive.on_spawned, EntityLive.on_deleted in *.
    + by apply Hr in Hn.
    + destruct (LiveTable.get _ i0) as [[d s0]|]; [destruct (s0 =? s)|]; by apply Hr in Hn.
    + destruct (LiveTable.get _ i0) as [[d s0]|]; [destruct (s0 =? s)|]; by apply Hr in Hn.
    + cbn. rewrite !elem_of_cons. auto.
    + by apply elem_of_nil in Hn.
    + unfold EntityLive.repair_reconcile in Hn. cbn in Hn. rewrite !elem_of_cons, elem_of_nil in Hn. by destruct Hn as [?|[?|[]]].
Qed.

Lemma notified_all_Inv env notes : forall w, Inv w -> Forall (note_ok w) notes -> Inv (foldl (notified env) w notes) /\ books (foldl (notified env) w notes) = books w /\ clients (foldl (notified env) w notes) = clients w.
Proof.
  induction notes as [|n notes IH]; intros w Hi Hn; cbn [foldl]; [done|]. apply Forall_cons in Hn as [Hn Hns].
  destruct (notified_Inv env w n Hi Hn) as (H1 & H2 & H3). destruct (IH (notified env w n) H1) as (I1 & I2 & I3); [|by rewrite I2, I3].
  eapply Forall_impl; [exact Hns|]. intros x. destruct x; cbn; unfold entity_present; by rewrite ?H2.
Qed.

Lemma entity_Inv w env o :
  Inv w -> EntityLive.wf (books w) -> LiveTable.next_id (EntityLive.live (books w)) + EntityLive.mints o <= u64_max ->
  Inv (entity_op w env o) /\ books (entity_op w env o) = (EntityLive.step (books w) o).1 /\ clients (entity_op w env o) = clients w.
Proof.
  intros Hi Hwf Hm. destruct (EntityLive.books_step_wf _ _ Hwf Hm) as (Hwf' & _ & _). pose proof (entity_notes_ok (books w) o) as Hn.
  unfold entity_op. destruct (EntityLive.step (books w) o) as [b notes]. cbn [fst snd] in *. set (w' := forget_dead _).
  assert (Inv w') as Hi' by (destruct Hi as [Ha Hp]; split; [by apply books_AInv|done]).
  destruct (notified_all_Inv env notes w' Hi') as (I1 & I2 & I3); [|by rewrite I2, I3].
  apply Forall_forall. intros n Hin. specialize (Hn n Hwf Hin). destruct n as [i e| | | | |]; cbn; try done.
  - by rewrite present_live.
  - intros i e. by rewrite present_live.
Qed.
End LeaseSteps.
End LeaseSteps.
