(* ===== verification/LeaseProperties.v ===== *)
(** What the surface leases of SurfaceLeases.v guarantee, over every sequence of steps from start-up. *)
From S2P Require Import Prelude.
From S2P Require Import Json.
From S2P Require Import Liveness.
From S2P Require Import EntityLive.
From S2P Require Import Plugin.
From S2P Require Import SharedSwitch.
From S2P Require Import SurfaceLeases.
From S2P Require Import LeaseRegistry.
From S2P Require Import LeaseInvariant.
From S2P Require Import LeaseSteps.
Import SurfaceLeases.
Import LeaseRegistry.
Import LeaseInvariant.
Import LeaseSteps.
Import Json.

Module LeaseProperties.
Section LeaseProperties.
Context {num : Type} `{JsonNumber num}.
Notation Lease := (@Lease num).
Notation Registry := (@Registry num).
Notation World := (@World num).
Notation Kont := (@Kont num).
Notation Pend := (@Pend num).
Notation Act := (@Act num).
Implicit Types (l : Lease) (r : Registry) (w : World) (a : Act).

(** ** Runs *)

Definition act_mints a : Z := match a with EntityOp o _ => EntityLive.mints o | _ => 0 end.
Fixpoint acts_mints (acts : list Act) : Z := match acts with [] => 0 | a :: acts => act_mints a + acts_mints acts end.
(** A history short enough for the 64-bit counters, as all are in practice. *)
Definition history_ok (acts : list Act) : Prop := 66 * (1 + Z.of_nat (length acts)) < u64_max /\ acts_mints acts < u64_max.

Definition next_entity w : Z := LiveTable.next_id (EntityLive.live (books w)).
Definition next_client w : Z := LiveTable.next_id (clients w).

Record Good w (n : Z) : Prop := {
  good_inv : Inv w;
  good_books : EntityLive.wf (books w);
  good_clients : LiveTable.wf (clients w);
  good_token : next_token w <= 1 + 65 * n;
  good_client : next_client w <= 1 + n;
}.

Lemma lease_act_mints_nonneg a : 0 <= act_mints a.
Proof. destruct a; cbn; try lia. destruct o; cbn; lia. Qed.

Lemma settle_token w (k : Kont) l res : next_token (settle w k l res) = next_token w.
Proof. pose proof (settle_fields w k l res). naive_solver. Qed.

Lemma retire_all_token env (k : Kont) ls : forall w fl, next_token (retire_all w env k ls fl).1 = next_token w.
Proof.
  induction ls as [|l ls IH]; intros w fl; cbn [retire_all]; [done|]. destruct (begin_retire w env l); [|done].
  rewrite IH. apply settle_token.
Qed.

Lemma mint_token w t w' : mint w = Some (t, w') -> next_token w' = next_token w + 1.
Proof. intros Hm. by apply checked_add_next in Hm as (_ & -> & _). Qed.

Lemma proceed_token w env (k : Kont) ls fl : next_token w <= next_token (proceed w env k ls fl).1 <= next_token w + 1.
Proof.
  unfold proceed. pose proof (retire_all_token env k ls w fl) as Ht. destruct (retire_all w env k ls fl) as [w' [fl'|]]; cbn [fst] in *; [|lia].
  rewrite <- Ht. destruct k as [q| |? ? ?|[] ?|]; cbn [conclude]; cbn; try lia. unfold finish_reserve. destruct fl'; cbn; [lia|].
  destruct (mint w') as [[t w1]|] eqn:Em; cbn; [|lia]. apply mint_token in Em. destruct (q_adapters q !! _); cbn; [|lia]. destruct (negb _ || _); cbn; lia.
Qed.

Lemma mint_lanes_token q free : forall w, next_token w <= next_token (mint_lanes w q free).1 <= next_token w + Z.of_nat (length free).
Proof.
  induction free as [|n free IH]; intros w; cbn [mint_lanes length]; [cbn; lia|]. destruct (mint w) as [[t w1]|] eqn:Em; [|cbn; lia]. apply mint_token in Em.
  destruct (q_adapters q !! n); [|cbn; lia]. specialize (IH w1). destruct (mint_lanes w1 q free). cbn in *. lia.
Qed.

Lemma sweep_token w env (m : Lease -> bool) keep : next_token w <= next_token (sweep w env m keep).1 <= next_token w + 1.
Proof.
  unfold sweep. case_bool_decide; [cbn; lia|]. destruct (remove_many _ _). apply (proceed_token (with_transition (with_registry w r) true)).
Qed.

(** ** Origins

    The keys of the registry after a step are keys it had before, or keys of live identities. *)
Definition regs w : list Lease := values (registry w) ++ pending (registry w).
Definition origin w w' : Prop :=
  forall x', x' ∈ regs w' -> (exists x, x ∈ regs w /\ key x = key x') \/ key_live w (key x') = true.
Definition same_live w w' : Prop := books w' = books w /\ clients w' = clients w.

Lemma origin_within w w' : within (regs w') (regs w) -> origin w w'.
Proof. intros Hw x Hx. left. destruct (Hw x Hx) as (y & Hy & E). apply core_fields in E as (_ & _ & _ & -> & _). eauto. Qed.

Lemma origin_refl w : origin w w.
Proof. apply origin_within, within_refl. Qed.

Lemma origin_trans w1 w2 w3 : origin w1 w2 -> same_live w1 w2 -> origin w2 w3 -> origin w1 w3.
Proof.
  intros H1 [Hb Hc] H2 x Hx. destruct (H2 x Hx) as [(y & Hy & <-)|Hl]; [by apply H1|]. right. by rewrite <- (key_live_books w1 w2).
Qed.

Lemma registry_origin w w' : cores (registry w') ⊆ cores (registry w) -> within (pending (registry w')) (regs w) -> origin w w'.
Proof. intros Hc Hp. apply origin_within, within_app; [by apply within_l, within_cores|done]. Qed.

Lemma settle_origin w (k : Kont) l res : origin w (settle w k l res).
Proof.
  pose proof (settle_fields w k l res) as (Fc & _). pose proof (settle_pending w k l res) as Fp. intros x [Hx|Hx]%elem_of_app.
  - left. destruct (within_cores (registry w) (registry (settle w k l res))) with (a := x) as (y & Hy & E); [by rewrite Fc|done|].
    exists y. unfold regs. rewrite elem_of_app. split; [by left|]. by apply core_fields in E as (_ & _ & _ & -> & _).
  - rewrite Fp in Hx. assert (x ∈ pending (registry w) -> exists y, y ∈ regs w /\ key y = key x) as Hold by (intros Hin; exists x; unfold regs; rewrite elem_of_app; auto).
    destruct res; [|left; auto]. destruct (identity_live w l) eqn:El; [|left; auto]. apply elem_of_push in Hx as [Hx| ->]; [left; auto|right; done].
Qed.

Lemma retire_all_origin env (k : Kont) ls : forall w fl, origin w (retire_all w env k ls fl).1.
Proof.
  induction ls as [|l ls IH]; intros w fl; cbn [retire_all]; [exact (origin_refl w)|]. destruct (begin_retire w env l) as [res|st]; [|exact (origin_refl w)].
  eapply origin_trans; [apply settle_origin|apply lease_settle_books|apply IH].
Qed.

Lemma retain_origin w keep : origin w (retain w keep).
Proof. apply registry_origin; [done|]. apply within_r, within_subset. intros x. cbn. rewrite elem_of_filterb. by intros [_ ?]. Qed.

Lemma finish_origin w q fl : origin w (finish_reserve w q fl).1.
Proof.
  unfold finish_reserve. destruct fl; [exact (origin_refl w)|]. destruct (mint w) as [[t w1]|] eqn:Em; [|exact (origin_refl w)].
  apply checked_add_next in Em as (-> & _ & Er & Eb & Ec & _). assert (origin w w1) as H1 by (apply origin_within; unfold regs; rewrite Er; apply within_refl).
  destruct (q_adapters q !! _) as [ad|]; [|done]. destruct (negb _ || _) eqn:Eg; [done|]. apply orb_false_iff in Eg as [Hl%negb_false_iff _].
  apply andb_true_iff in Hl as [Hl _]. intros x [(t & Ht)%elem_of_values|Hx]%elem_of_app; cbn [registry with_registry fst] in *.
  - cbn in Ht. apply lookup_insert_Some in Ht as [[_ <-]|[_ Ht]].
    + right. by rewrite <- (key_live_books w w1).
    + apply H1. unfold regs. rewrite elem_of_app. left. apply elem_of_values. eauto.
  - apply H1. unfold regs. rewrite elem_of_app. by right.
Qed.

Lemma conclude_origin w (k : Kont) fl : origin w (conclude w k fl).1.
Proof.
  destruct k as [q| |? ? ?|g keep|]; cbn [conclude]; try exact (origin_refl w).
  - pose proof (finish_origin w q fl) as Ho. destruct (finish_reserve w q fl). exact Ho.
  - destruct g; [exact (retain_origin (with_transition w false) keep)|exact (retain_origin w keep)].
Qed.

Lemma proceed_origin w env (k : Kont) ls fl : origin w (proceed w env k ls fl).1.
Proof.
  unfold proceed. pose proof (retire_all_origin env k ls w fl) as H1. pose proof (retire_all_books env k ls w fl) as H2.
  destruct (retire_all w env k ls fl) as [w' [fl'|]]; [|done]. eapply origin_trans; [exact H1|done|apply conclude_origin].
Qed.

Lemma start_origin w r env (k : Kont) ls fl : cores r ⊆ cores (registry w) -> within (pending r) (regs w) ->
  origin w (proceed (guarded w r) env k ls fl).1.
Proof.
  intros Hc Hp. eapply (origin_trans w (guarded w r)); [by apply registry_origin|done|apply proceed_origin].
Qed.

Lemma remove_many_sub w roots : Inv w -> cores (remove_many (registry w) roots).1 ⊆ cores (registry w) /\ pending (remove_many (registry w) roots).1 = pending (registry w).
Proof.
  intros [Ha _]. pose proof (remove_many_spec (registry w) roots (a_tok _ _ Ha)) as Hr. split; [by eapply removal_sub|apply Hr].
Qed.

Lemma pending_within w r : pending r = pending (registry w) -> within (pending r) (regs w).
Proof. intros ->. apply within_r, within_refl. Qed.

Lemma sweep_origin w env (m : Lease -> bool) keep : Inv w -> origin w (sweep w env m keep).1.
Proof.
  intros Hi. unfold sweep. case_bool_decide; [apply retain_origin|]. destruct (remove_many_sub w (token <$> filterb m (values (registry w))) Hi) as [Hs Hp].
  destruct (remove_many _ _) as [r ls]. apply start_origin; [done|by apply pending_within].
Qed.

(** A step that leaves the books of identities alone. *)
Definition calm w w' : Prop := same_live w w' /\ origin w w' /\ next_token w <= next_token w' <= next_token w + 65.

Lemma calm_refl w w' : registry w' = registry w -> books w' = books w -> clients w' = clients w -> next_token w' = next_token w -> calm w w'.
Proof. intros Er Eb Ec En. split; [done|]. split; [|lia]. apply origin_within. unfold regs. rewrite Er. apply within_refl. Qed.

Lemma calm_start w r env (k : Kont) ls fl : cores r ⊆ cores (registry w) -> within (pending r) (regs w) -> calm w (proceed (guarded w r) env k ls fl).1.
Proof.
  intros Hc Hp. split; [apply (proceed_books (guarded w r))|]. split; [by apply start_origin|]. pose proof (proceed_token (guarded w r) env k ls fl). cbn in *. lia.
Qed.

Lemma calm_sweep w env (m : Lease -> bool) keep : Inv w -> calm w (sweep w env m keep).1.
Proof. intros Hi. split; [apply sweep_books|]. split; [by apply sweep_origin|]. pose proof (sweep_token w env m keep). lia. Qed.

Lemma calm_release w env o t : Inv w -> calm w (release w env o t).1.
Proof.
  intros Hi. unfold release. destruct (transition w); [by apply calm_refl|]. destruct (negb _); [by apply calm_refl|].
  destruct (remove_many_sub w [t] Hi) as [Hs Hp]. unfold remove_tree. destruct (remove_many _ _) as [r ls]. apply calm_start; [done|by apply pending_within].
Qed.

Lemma calm_reserve w env o k prio po ads pt : Inv w -> calm w (reserve_with_parent w env o k prio po ads pt).1.
Proof.
  intros Hi. unfold reserve_with_parent. destruct (transition w); [by apply calm_refl|]. destruct (admission _ _ _ _ _); [by apply calm_refl|].
  destruct (validate_adapters _ _ _); [by apply calm_refl|]. destruct (negb _); [by apply calm_refl|].
  destruct (match pt with None => inr None | Some t => _ end); [by apply calm_refl|]. destruct (choose_lane _ _ _ _ _ _) as [f|[n old]]; [by apply calm_refl|].
  destruct old as [t|]; [|apply calm_start; [done|by apply pending_within]]. case_bool_decide.
  - destruct (cores_suspend (registry w) t) as (Hc & Hp & _). destruct (suspend _ _) as [r ls]. cbn in Hc, Hp. apply calm_start; [by rewrite Hc|by apply pending_within].
  - destruct (remove_many_sub w [t] Hi) as [Hs Hp]. unfold remove_tree. destruct (remove_many _ _) as [r ls]. apply calm_start; [done|by apply pending_within].
Qed.

Lemma calm_advance w env : calm w (advance_frame w env).1.
Proof.
  unfold advance_frame. destruct (transition w); [by apply calm_refl|]. apply calm_start; [done|]. intros x Hx. by apply elem_of_nil in Hx.
Qed.

Lemma mint_lanes_same q free : forall w, registry (mint_lanes w q free).1 = registry w /\ same_live w (mint_lanes w q free).1 /\ transition (mint_lanes w q free).1 = transition w.
Proof.
  induction free as [|n free IH]; intros w; cbn [mint_lanes]; [done|]. destruct (mint w) as [[t w1]|] eqn:Em; [|done].
  apply checked_add_next in Em as (_ & _ & Er & Eb & Ec & _ & Et & _). destruct (q_adapters q !! n); [|done]. destruct (IH w1) as (I1 & [I2 I3] & I4).
  destruct (mint_lanes w1 q free). cbn [fst] in *. unfold same_live. by rewrite I1, I2, I3, I4.
Qed.

Lemma calm_clear w env o k ads : Inv w -> calm w (clear_legacy w env o k ads).1.
Proof.
  intros Hi. unfold clear_legacy. destruct (transition w) eqn:Et; [by apply calm_refl|].
  destruct (admission _ _ _ _ _) eqn:Ea; [by apply calm_refl|]. apply admission_cap in Ea. destruct (negb _); [by apply calm_refl|].
  destruct (validate_adapters _ _ _); [by apply calm_refl|]. destruct (pending_group _ _); [by apply calm_refl|]. set (group := filterb _ (values (registry w))).
  destruct (existsb _ group); [by apply calm_refl|]. set (free := filterb _ (seq 0 (length ads))). destruct (_ <? _); [by apply calm_refl|].
  set (roots := token <$> _). destruct (remove_many_sub w roots Hi) as [Hs Hp]. destruct (remove_many _ _) as [r ls]. cbn [fst] in *.
  set (q := mkReservation _ _ _ _ _ _ _ _). pose proof (mint_lanes_same q free (with_registry w r)) as (Mr & [Mb Mc] & Mt).
  pose proof (mint_lanes_token q free (with_registry w r)) as Hn. assert (length free <= 64)%nat as Hf.
  { unfold free. pose proof (filterb_length_le (free_lane (key <$> group)) (seq 0 (length ads))) as Hl. rewrite length_seq in Hl. lia. }
  destruct (mint_lanes _ q free) as [w2 [minted|]]; cbn [fst] in *.
  - assert (origin w w2) as Ho by (apply registry_origin; rewrite Mr; [done|by apply pending_within]).
    pose proof (proceed_books (with_transition w2 true) env (KClear k o (plugin_generation w o)) (ls ++ minted) None) as [Pb Pc].
    pose proof (proceed_token (with_transition w2 true) env (KClear k o (plugin_generation w o)) (ls ++ minted) None) as Pt.
    split; [unfold same_live; by rewrite Pb, Pc|]. split; [|cbn in *; lia].
    eapply (origin_trans w (with_transition w2 true)); [exact Ho|done|apply proceed_origin].
  - split; [done|]. split; [|cbn in *; lia]. apply registry_origin; rewrite Mr; [done|by apply pending_within].
Qed.

Lemma calm_paint w o t : calm w (paint w o t).
Proof. unfold paint. destruct (transition w); [by apply calm_refl|]. destruct (leases (registry w) !! t); [|by apply calm_refl]. destruct (lease_state w o t); by apply calm_refl. Qed.

Lemma calm_trans_paint w w' o t : calm w w' -> next_token w' = next_token w -> calm w (paint w' o t).
Proof.
  intros (Hs & Ho & _) Hn. destruct (calm_paint w' o t) as ([Pb Pc] & Po & Pn). destruct Hs as [Sb Sc]. split; [unfold same_live; by rewrite Pb, Pc|].
  split; [by eapply origin_trans|lia].
Qed.

Lemma calm_activate w o t e : calm w (step w (Activate o t e)).1.
Proof.
  cbn [step]. destruct (activate w o t e) as [w' b] eqn:E. cbn [fst]. assert (calm w w' /\ next_token w' = next_token w) as [Hc Hn].
  { unfold activate in E. destruct (_ || _); [simplify_eq; split; [by apply calm_refl|done]|].
    destruct (leases (registry w) !! t) as [l|] eqn:El; [|simplify_eq; split; [by apply calm_refl|done]].
    destruct (match parent l with Some _ => _ | None => _ end); simplify_eq; [split; [by apply calm_refl|done]|]. split; [|done].
    split; [done|]. split; [|cbn; lia]. apply registry_origin; [|by apply pending_within]. cbn [registry with_registry].
    erewrite (cores_set_lease (registry w)); [done|exact El|done]. }
  destruct b; [|done]. by apply calm_trans_paint.
Qed.

Lemma calm_return w env ok : calm w (engine_return w env ok).1.
Proof.
  unfold engine_return. destruct (stack w) as [|f st]; [by apply calm_refl|]. destruct (resume_retire f ok) as [res|st']; [|by apply calm_refl].
  set (w1 := settle (with_stack w st) (kont f) (now f) res). pose proof (lease_settle_books (with_stack w st) (kont f) (now f) res) as [Sb Sc].
  pose proof (settle_token (with_stack w st) (kont f) (now f) res) as Sn. pose proof (settle_origin (with_stack w st) (kont f) (now f) res) as So.
  pose proof (proceed_books w1 env (kont f) (todo f) (first_failure (failure f) res)) as [Pb Pc].
  pose proof (proceed_token w1 env (kont f) (todo f) (first_failure (failure f) res)) as Pn. fold w1 in Sb, Sc, Sn, So.
  split; [unfold same_live; by rewrite Pb, Pc, Sb, Sc|]. split; [|cbn in *; lia].
  eapply (origin_trans w w1); [exact So|done|apply proceed_origin].
Qed.

Definition quiet_act a : Prop := match a with EntityOp _ _ | ClientOp _ => False | _ => True end.

Lemma calm_step w a : Inv w -> quiet_act a -> calm w (step w a).1.
Proof.
  intros Hi Hq. destruct a as [o k prio po ads pt env|o t env|o k ads env|o t e|o t|o env|o|s c env|r|o env|env| |ok env]; try done.
  - by apply calm_reserve.
  - by apply calm_release.
  - by apply calm_clear.
  - apply calm_activate.
  - apply calm_paint.
  - cbn [step]. destruct (client_matches w s c); [by apply calm_refl|by apply calm_sweep].
  - by apply calm_refl.
  - by apply calm_sweep.
  - apply calm_advance.
  - split; [done|]. split; [|cbn; lia]. apply registry_origin; cbn.
    + unfold cores. cbn. rewrite fmap_empty. apply map_empty_subseteq.
    + intros x Hx. by apply elem_of_nil in Hx.
  - apply calm_return.
Qed.

Lemma quiet_step_Inv w a : Inv w -> quiet_act a -> next_token w + 64 <= u64_max -> Inv (step w a).1.
Proof.
  intros Hi Hq Hn. destruct a as [o k prio po ads pt env|o t env|o k ads env|o t e|o t|o env|o|s c env|r|o env|env| |ok env]; try done.
  - by apply reserve_Inv.
  - by apply release_Inv.
  - by apply clear_Inv.
  - by apply activate_Inv.
  - by apply paint_Inv.
  - cbn [step]. destruct (client_matches w s c) eqn:E; [done|]. apply sweep_Inv; [done|]. right. split; [done|].
    intros t l _ [E1%Z.eqb_eq E2%Z.eqb_eq]%andb_true_iff. unfold identity_live, key_live. by rewrite E1, E2, E.
  - by eapply Inv_same.
  - apply sweep_Inv; [done|]. by left.
  - by apply advance_Inv.
  - destruct Hi as [Ha Hp]. split; [|done]. refine (reset_AInv (with_shown w ∅) _ _ _); [|done].
    eapply (AInv_shrink w); [exact Ha|..]; try done; try apply Ha.
    + apply within_refl.
    + intros p' q Hl Hk. exists p'. split; [done|]. split; [done|]. split; [done|]. apply within_refl.
  - by apply lease_return_Inv.
Qed.

Lemma step_Good w a n :
  Good w n -> 0 <= n -> 66 * (n + 1) < u64_max -> next_entity w + act_mints a <= u64_max ->
  Good (step w a).1 (n + 1) /\ next_entity (step w a).1 <= next_entity w + act_mints a.
Proof.
  intros [Hi Hb Hc Ht Hcl] Hn Hlt Hm. pose proof (lease_act_mints_nonneg a).
  assert (quiet_act a -> Good (step w a).1 (n + 1) /\ next_entity (step w a).1 <= next_entity w + act_mints a) as Hq.
  { intros Hq. destruct (calm_step w a Hi Hq) as ([Eb Ec] & _ & Et). split; [constructor|].
    - apply quiet_step_Inv; [done|done|lia].
    - by rewrite Eb.
    - by rewrite Ec.
    - lia.
    - unfold next_client in *. rewrite Ec. lia.
    - unfold next_entity. rewrite Eb. lia. }
  destruct a as [| | | | |o env|o| | | | | |]; try by apply Hq.
  - cbn [step fst act_mints] in *. destruct (entity_Inv w env o Hi Hb Hm) as (Hi' & Eb & Ec).
    destruct (EntityLive.books_step_wf _ _ Hb Hm) as (Hwf' & Hn' & _). split; [constructor|].
    + done.
    + by rewrite Eb.
    + by rewrite Ec.
    + assert (next_token (entity_op w env o) <= next_token w + 65) as Hx; [|lia].
      unfold entity_op. destruct (EntityLive.step (books w) o) as [b notes] eqn:Es. cbn [fst] in Eb.
      assert (length notes <= 2)%nat as Hlen.
      { assert (forall j (r : option Z), length (EntityLive.retire_lifecycle j r) <= 2)%nat as Hr by (intros j [d|]; cbn; lia).
        destruct o as [i0 s|i0 s|i0 s| | |ls]; cbn [EntityLive.step] in Es; unfold EntityLive.on_created, EntityLive.on_spawned, EntityLive.on_deleted in Es.
        - injection Es as _ <-. apply Hr.
        - destruct (LiveTable.get _ i0) as [[d s0]|]; [destruct (s0 =? s)|]; injection Es as _ <-; apply Hr.
        - destruct (LiveTable.get _ i0) as [[d s0]|]; [destruct (s0 =? s)|]; injection Es as _ <-; apply Hr.
        - injection Es as _ <-. cbn. lia.
        - injection Es as _ <-. cbn. lia.
        - injection Es as _ <-. cbn. lia. }
      assert (forall ns v, next_token (foldl (notified env) v ns) <= next_token v + Z.of_nat (length ns)) as Hf.
      { induction ns as [|x ns IH]; intros v; cbn [foldl length]; [lia|]. specialize (IH (notified env v x)).
        assert (next_token (notified env v x) <= next_token v + 1); [|lia]. destruct x; cbn [notified]; try lia; try apply sweep_token. cbn. lia. }
      specialize (Hf notes (forget_dead (mkWorld b (clients w) (plugins w) (registry w) (next_token w) (transition w) (stack w) (shown w)))). cbn in Hf. lia.
    + unfold next_client in *. rewrite Ec. lia.
    + unfold next_entity. rewrite Eb. lia.
  - cbn [step fst act_mints] in *. assert (next_client w < u64_max) as Hlc by lia. pose proof (LiveTable.live_next_mono (clients w) o Hc Hlc). split; [constructor|].
    + destruct Hi as [Ha Hp]. split; [by apply books_AInv|done].
    + done.
    + by apply LiveTable.live_step_wf.
    + cbn. lia.
    + unfold next_client in *. cbn. lia.
    + unfold next_entity in *. cbn. lia.
Qed.

Lemma run_Good acts : forall w n, Good w n -> 0 <= n -> 66 * (n + Z.of_nat (length acts) + 1) < u64_max -> next_entity w + acts_mints acts <= u64_max ->
  Good (run w acts).1 (n + Z.of_nat (length acts)).
Proof.
  induction acts as [|a acts IH]; intros w n Hg Hn Hl Hm; cbn [run length acts_mints] in *; [by rewrite Z.add_0_r|].
  assert (0 <= acts_mints acts) as Hnn by (clear; induction acts as [|b acts IH]; cbn; [lia|]; pose proof (lease_act_mints_nonneg b); lia).
  destruct (step_Good w a n Hg Hn) as [Hg' Hm']; [lia|lia|]. destruct (step w a) as [w1 rs]. cbn [fst] in *.
  specialize (IH w1 (n + 1) Hg'). destruct (run w1 acts) as [w2 rs']. cbn [fst] in *. replace (n + Z.of_nat (S (length acts))) with (n + 1 + Z.of_nat (length acts)) by lia.
  apply IH; lia.
Qed.

Lemma init_Good : Good (init : World) 0.
Proof.
  assert (values (registry (init : World)) = []) as Hv by (unfold values; cbn; by rewrite map_to_list_empty).
  assert (pop (init : World) [] = []) as Hpop by (unfold pop; by rewrite Hv).
  constructor; [split; [constructor|by constructor]|apply EntityLive.books_init_wf|by apply LiveTable.live_new_wf|cbn; lia|cbn; lia]; cbn [stack init fmap list_fmap]; try done.
  rewrite Hpop. constructor.
  - intros x y Hx. by apply elem_of_nil in Hx.
  - intros x y Hx. by apply elem_of_nil in Hx.
  - intros x Hx. by apply elem_of_nil in Hx.
  - intros x y p p' Hx. by apply elem_of_nil in Hx.
Qed.

Lemma reach_Good (acts : list Act) : history_ok acts -> Good (run init acts).1 (Z.of_nat (length acts)).
Proof.
  intros [H1 H2]. pose proof (run_Good acts init 0 init_Good) as Hr. rewrite Z.add_0_l in Hr. apply Hr; [done|lia|]. cbn. lia.
Qed.

(** ** Sweeps of dead identities *)

Lemma retire_all_dead env g keep ls : forall w fl, Forall (fun l => identity_live w l = false) ls ->
  exists sh, retire_all w env (KSweep g keep) ls fl = (with_shown w sh, Some fl).
Proof.
  induction ls as [|l ls IH]; intros w fl Hd; cbn [retire_all].
  - exists (shown w). by destruct w.
  - apply Forall_cons in Hd as [Hl Hd]. unfold begin_retire. rewrite Hl. cbn [negb]. change (settle w (KSweep g keep) l None) with (with_shown w (delete (token l) (shown w))). destruct (IH (with_shown w (delete (token l) (shown w))) (first_failure fl None) Hd) as [sh ->].
    exists sh. destruct fl; done.
Qed.

Lemma sweep_clears w env (mk : Key -> bool) keep :
  Inv w -> (forall k, mk k = true -> key_live w k = false) -> (forall x : Lease, kept w keep x = negb (mk (key x))) ->
  forall x, x ∈ regs (sweep w env (fun l => mk (key l)) keep).1 -> mk (key x) = false.
Proof.
  intros Hi Hm Hk x. unfold sweep. case_bool_decide as He.
  - cbn. unfold regs. rewrite elem_of_app. intros [[t Hx]%elem_of_values|Hx]; cbn in Hx; [by rewrite He, lookup_empty in Hx|].
    apply elem_of_filterb in Hx as [Hx _]. rewrite Hk in Hx. by apply negb_true_iff in Hx.
  - pose proof Hi as [Ha _]. set (roots := token <$> filterb (fun l => mk (key l)) (values (registry w))).
    pose proof (remove_many_spec (registry w) roots (a_tok _ _ Ha)) as Hr. destruct (remove_many (registry w) roots) as [r ls]. cbn [fst snd] in Hr.
    assert (forall t l, leases (registry w) !! t = Some l -> t ∈ roots <-> mk (key l) = true) as Hroots.
    { intros t l Hl. unfold roots. rewrite list_elem_of_fmap. split.
      - intros (y & -> & [Hy [t' Hty]%elem_of_values]%elem_of_filterb). rewrite (a_tok _ _ Ha _ _ Hty) in Hl. congruence.
      - intros Hml. exists l. split; [symmetry; by apply (a_tok _ _ Ha)|]. apply elem_of_filterb. split; [done|]. apply elem_of_values. eauto. }
    assert (Forall (fun l => identity_live (guarded w r) l = false) ls) as Hdead.
    { apply Forall_forall. intros l Hl. destruct (rm_removed _ _ _ _ Hr _ Hl) as (l0 & Hl0 & Ec & Ht). apply core_fields in Ec as (_ & _ & _ & Ek & _).
      unfold identity_live. rewrite Ek. change (key_live w (key l0) = false). unfold in_trees in Ht. apply orb_true_iff in Ht as [Ht%bool_decide_eq_true|Ht].
      - apply Hm. rewrite (a_tok _ _ Ha _ _ Hl0) in Ht. by eapply Hroots.
      - destruct (parent l0) as [p|] eqn:Ep; [|done]. apply bool_decide_eq_true in Ht. destruct (a_parent _ _ Ha _ _ _ Hl0 Ep) as (pl & Hpl & _).
        destruct (parent_no_parent _ _ _ _ _ _ Ha Hl0 Ep Hpl) as (_ & _ & I1 & I2 & I3 & I4). pose proof (Hm (key pl) (proj1 (Hroots _ _ Hpl) Ht)) as Hd.
        unfold key_live in *. by rewrite I1, I2, I3, I4 in Hd. }
    unfold proceed. change (with_transition (with_registry w r) true) with (guarded w r).
    destruct (retire_all_dead env (negb (transition w)) keep ls (guarded w r) None Hdead) as [sh ->]. cbn [conclude fst].
    assert (registry (retain (if negb (transition w) then with_transition (with_shown (guarded w r) sh) false else with_shown (guarded w r) sh) keep)
            = mkRegistry (leases r) (filterb (kept w keep) (pending r)) (frame r)) as Er.
    { unfold retain. destruct (negb (transition w)); cbn; f_equal; apply filterb_ext; intros y _; by destruct keep. }
    unfold regs. rewrite Er, elem_of_app. intros [[t Hx]%elem_of_values|Hx]; cbn in Hx.
    + assert (cores r !! t = Some (core x)) as Hc by (apply cores_lookup; eauto). rewrite (rm_cores _ _ _ _ Hr) in Hc.
      destruct (leases (registry w) !! t) as [l0|] eqn:El; [|done]. destruct (in_trees roots l0) eqn:Et; [done|].
      assert (core l0 = core x) as Ec by congruence. apply core_fields in Ec as (_ & _ & _ & <- & _). unfold in_trees in Et.
      apply orb_false_iff in Et as [Et%bool_decide_eq_false _]. rewrite (a_tok _ _ Ha _ _ El) in Et. rewrite (Hroots _ _ El) in Et. by apply not_true_iff_false.
    + apply elem_of_filterb in Hx as [Hx _]. rewrite Hk in Hx. by apply negb_true_iff in Hx.
Qed.

Lemma client_cleared w env s c : Inv w -> client_matches w s c = false ->
  forall x, x ∈ regs (clear_client w env s c).1 -> ~ (slot (key x) = s /\ client (key x) = c).
Proof.
  intros Hi Hd x Hx [E1 E2]. pose proof (sweep_clears w env (fun k => (slot k =? s) && (client k =? c)) (KeepNotClient s c) Hi) as Hc.
  assert ((slot (key x) =? s) && (client (key x) =? c) = false) as Hf; [|by rewrite E1, E2, !Z.eqb_refl in Hf].
  apply Hc; [|done|exact Hx]. intros k [K1%Z.eqb_eq K2%Z.eqb_eq]%andb_true_iff. unfold key_live. by rewrite K1, K2, Hd.
Qed.

Lemma regs_reset w : regs (reset w) = [].
Proof. pose proof (pop_reset w []) as Hp. unfold pop in Hp. unfold regs. cbn [infl] in Hp. apply app_eq_nil in Hp as [-> Hp]. apply app_eq_nil in Hp as [-> _]. done. Qed.

(** Which notifications clear a key of a dead entity. *)
Definition clears (n : EntityLive.notification) (k : Key) : Prop :=
  match n with
  | EntityLive.SurfaceRetireEntity i e => index k = i /\ entity k = e
  | EntityLive.SurfaceReset | EntityLive.SurfacePruneDead => True
  | _ => False
  end.

Lemma notified_clears env w n k : Inv w -> note_ok w n -> entity_present w (index k) (entity k) = false -> clears n k ->
  forall x, x ∈ regs (notified env w n) -> key x <> k.
Proof.
  intros Hi Hn Hd Hc x Hx Ek. destruct n as [i e| | | | |]; try done.
  - destruct Hc as [C1 C2]. pose proof (sweep_clears w env (fun k => (index k =? i) && (entity k =? e)) (KeepNotEntity i e) Hi) as Hs.
    assert ((index (key x) =? i) && (entity (key x) =? e) = false) as Hf; [|by rewrite Ek, C1, C2, !Z.eqb_refl in Hf].
    apply Hs; [|done|exact Hx]. intros k' [K1%Z.eqb_eq K2%Z.eqb_eq]%andb_true_iff. cbn in Hn. unfold key_live. by rewrite K1, K2, Hn, andb_false_r.
  - cbn [notified] in Hx. rewrite regs_reset in Hx. by apply elem_of_nil in Hx.
  - pose proof (sweep_clears w env (fun k => negb (key_live w k)) KeepLive Hi) as Hs.
    assert (negb (key_live w (key x)) = false) as Hf.
    { apply Hs; [intros k'; apply negb_true_iff|intros y; cbn; by rewrite negb_involutive|exact Hx]. }
    unfold key_live in Hf. by rewrite Ek, Hd, andb_false_r in Hf.
Qed.

Lemma notified_origin env w n : Inv w -> origin w (notified env w n).
Proof.
  intros Hi. destruct n; cbn [notified]; try exact (origin_refl w); try by apply sweep_origin.
  apply registry_origin; cbn; [unfold cores; cbn; rewrite fmap_empty; apply map_empty_subseteq|]. intros x Hx. by apply elem_of_nil in Hx.
Qed.

Lemma notified_all_keys env notes k : forall w, Inv w -> Forall (note_ok w) notes -> entity_present w (index k) (entity k) = false ->
  (forall x, x ∈ regs w -> key x <> k) \/ (exists n, n ∈ notes /\ clears n k) -> forall x, x ∈ regs (foldl (notified env) w notes) -> key x <> k.
Proof.
  induction notes as [|n notes IH]; intros w Hi Hns Hd Hor x Hx; cbn [foldl] in Hx.
  { destruct Hor as [Hno|(n & Hn & _)]; [by apply Hno|by apply elem_of_nil in Hn]. }
  apply Forall_cons in Hns as [Hn Hns]. destruct (notified_Inv env w n Hi Hn) as (Hi' & Eb & Ec).
  assert (entity_present (notified env w n) (index k) (entity k) = false) as Hd' by (unfold entity_present; by rewrite Eb).
  eapply (IH (notified env w n)); [done| |done| |exact Hx].
  - eapply Forall_impl; [exact Hns|]. intros y. destruct y; cbn; unfold entity_present; by rewrite ?Eb.
  - destruct Hor as [Hno|(m & [->|Hm]%elem_of_cons & Hc)]; [left|left|right; eauto].
    + intros y Hy Ek. destruct (notified_origin env w n Hi y Hy) as [(z & Hz & Ez)|Hl]; [by apply (Hno z Hz); congruence|].
      unfold key_live in Hl. by rewrite Ek, Hd, andb_false_r in Hl.
    + by apply notified_clears.
Qed.

(** An identity that dies in a step of the books is notified. *)
Lemma entity_dies_noted b o i e : EntityLive.wf b -> EntityLive.is_live b i e = true -> EntityLive.is_live (EntityLive.step b o).1 i e = false ->
  EntityLive.SurfaceRetireEntity i e ∈ (EntityLive.step b o).2 \/ EntityLive.SurfaceReset ∈ (EntityLive.step b o).2 \/ EntityLive.SurfacePruneDead ∈ (EntityLive.step b o).2.
Proof.
  intros Hwf Hl Hd. assert (forall b' notes, EntityLive.retire_ok b b' notes -> EntityLive.is_live b' i e = false -> EntityLive.SurfaceRetireEntity i e ∈ notes) as Hret.
  { intros b' notes [Hr _] Hb. by apply Hr. }
  destruct o as [j s|j s|j s| | |ls]; cbn [EntityLive.step] in *.
  - left. eapply Hret; [|exact Hd]. by apply (EntityLive.books_retire_insert b _ j s).
  - left. unfold EntityLive.on_spawned in *. destruct (LiveTable.get (EntityLive.live b) j) as [[d s0]|] eqn:E; [destruct (s0 =? s)|]; (eapply Hret; [|exact Hd]).
    + apply EntityLive.books_retire_none.
    + change (Some d) with (fst <$> Some (d, s0)). rewrite <- E. by apply (EntityLive.books_retire_insert b _ j s).
    + change (@None Z) with (fst <$> @None (Z * Z)). rewrite <- E. by apply (EntityLive.books_retire_insert b _ j s).
  - left. unfold EntityLive.on_deleted in *. destruct (LiveTable.get (EntityLive.live b) j) as [[d s0]|] eqn:E; [destruct (s0 =? s)|]; (eapply Hret; [|exact Hd]);
      [|apply EntityLive.books_retire_none..]. by apply (EntityLive.books_retire_remove b _ j).
  - right. left. by left.
  - cbn in Hd. unfold EntityLive.is_live in *. cbn in Hd. congruence.
  - right. right. by left.
Qed.

(** Every lease and every pending retirement is of a live entity. *)
Definition ids_live w : Prop := forall x, x ∈ regs w -> entity_present w (index (key x)) (entity (key x)) = true.

Lemma ids_live_step w a n : Good w n -> 0 <= n -> 66 * (n + 1) < u64_max -> next_entity w + act_mints a <= u64_max -> ids_live w -> ids_live (step w a).1.
Proof.
  intros Hg Hn Hlt Hm Hid. pose proof Hg as [Hi Hb Hc _ _].
  assert (quiet_act a -> ids_live (step w a).1) as Hq.
  { intros Hq x Hx. destruct (calm_step w a Hi Hq) as ([Eb Ec] & Ho & _). unfold entity_present. rewrite Eb.
    destruct (Ho x Hx) as [(y & Hy & <-)|Hl]; [by apply Hid|]. by apply andb_true_iff in Hl as [_ ?]. }
  destruct a as [| | | | |o env|o| | | | | |]; try by apply Hq.
  - cbn [step fst act_mints] in *. destruct (entity_Inv w env o Hi Hb Hm) as (_ & Eb & _). intros x Hx.
    destruct (entity_present (entity_op w env o) (index (key x)) (entity (key x))) eqn:Ep; [done|]. exfalso. revert Ep.
    destruct (EntityLive.books_step_wf _ _ Hb Hm) as (Hwf' & _ & _). intros Ep. unfold entity_present in Ep. rewrite Eb in Ep.
    pose proof (entity_notes_ok (books w) o) as Hno. pose proof (entity_dies_noted (books w) o (index (key x)) (entity (key x)) Hb) as Hdn.
    unfold entity_op in Hx. destruct (EntityLive.step (books w) o) as [b notes] eqn:Es. cbn [fst snd] in *. set (w' := forget_dead _) in Hx.
    assert (Inv w') as Hi' by (destruct Hi as [Ha Hp]; split; [by apply books_AInv|done]).
    assert (entity_present w' (index (key x)) (entity (key x)) = false) as Hd by exact Ep.
    assert (Forall (note_ok w') notes) as Hnotes.
    { apply Forall_forall. intros m Hin. specialize (Hno m Hb Hin). destruct m; cbn; try done; [|intros]; by rewrite present_live. }
    refine (notified_all_keys env notes (key x) w' Hi' Hnotes Hd _ x Hx eq_refl).
    destruct (EntityLive.is_live (books w) (index (key x)) (entity (key x))) eqn:El.
    + right. rewrite (present_live w') in Hd by done. destruct (Hdn eq_refl Hd) as [?|[?|?]]; eexists; (split; [done|done]).
    + left. intros y Hy Ek. specialize (Hid y Hy). rewrite (present_live w) in Hid by done. rewrite Ek in Hid. congruence.
  - intros x Hx. exact (Hid x Hx).
Qed.

Lemma run_app (acts acts' : list Act) : forall w, (run w (acts ++ acts')).1 = (run (run w acts).1 acts').1.
Proof.
  induction acts as [|a acts IH]; intros w; cbn [run app]; [done|]. destruct (step w a) as [w1 rs]. specialize (IH w1).
  destruct (run w1 (acts ++ acts')), (run w1 acts). exact IH.
Qed.

Lemma run_fst w a (acts : list Act) : (run w (a :: acts)).1 = (run (step w a).1 acts).1.
Proof. cbn [run]. destruct (step w a) as [w1 rs]. cbn [fst]. by destruct (run w1 acts). Qed.

Lemma lease_acts_mints_app (acts acts' : list Act) : acts_mints (acts ++ acts') = acts_mints acts + acts_mints acts'.
Proof. induction acts as [|a acts IH]; cbn; [done|]. rewrite IH. lia. Qed.
Lemma lease_acts_mints_nonneg (acts : list Act) : 0 <= acts_mints acts.
Proof. induction acts as [|a acts IH]; cbn; [lia|]. pose proof (lease_act_mints_nonneg a). lia. Qed.

Lemma run_ids acts : forall w n, Good w n -> 0 <= n -> 66 * (n + Z.of_nat (length acts) + 1) < u64_max -> next_entity w + acts_mints acts <= u64_max ->
  ids_live w -> ids_live (run w acts).1.
Proof.
  induction acts as [|a acts IH]; intros w n Hg Hn Hl Hm Hid; [done|]. rewrite run_fst. cbn [length acts_mints] in *. pose proof (lease_acts_mints_nonneg acts).
  destruct (step_Good w a n Hg Hn) as [Hg' Hm']; [lia|lia|]. apply (IH _ (n + 1)); [done|lia|lia|lia|]. eapply ids_live_step; [exact Hg|lia..|done].
Qed.

(** A connection that is over and whose leases were cleared. *)
Definition client_gone w (s c : Z) : Prop :=
  client_matches w s c = false /\ c < next_client w /\ forall x, x ∈ regs w -> ~ (slot (key x) = s /\ client (key x) = c).

Lemma client_dead_step w o s c : c < next_client w -> client_matches w s c = false -> client_matches (client_op w o) s c = false.
Proof.
  unfold client_matches. intros Hc [->|Hd]%andb_false_iff; [done|]. apply andb_false_iff. right. by apply LiveTable.live_step_dead.
Qed.

Lemma notified_all_gone env notes s c : forall w, Inv w -> Forall (note_ok w) notes -> client_matches w s c = false ->
  (forall x, x ∈ regs w -> ~ (slot (key x) = s /\ client (key x) = c)) ->
  forall x, x ∈ regs (foldl (notified env) w notes) -> ~ (slot (key x) = s /\ client (key x) = c).
Proof.
  induction notes as [|m notes IH]; intros w Hi Hns Hd Hno x Hx; cbn [foldl] in Hx; [by apply Hno|].
  apply Forall_cons in Hns as [Hm Hns]. destruct (notified_Inv env w m Hi Hm) as (Hi2 & Eb & Ec).
  apply (IH (notified env w m)); [done| | | |exact Hx].
  - eapply Forall_impl; [exact Hns|]. intros y. destruct y; cbn; unfold entity_present; by rewrite ?Eb.
  - unfold client_matches. by rewrite Ec.
  - intros y Hy [F1 F2]. destruct (notified_origin env w m Hi y Hy) as [(z & Hz & Ez)|Hl]; [apply (Hno z Hz); by rewrite Ez|].
    unfold key_live in Hl. by rewrite F1, F2, Hd in Hl.
Qed.

Lemma gone_step w a n s c : Good w n -> 0 <= n -> 66 * (n + 1) < u64_max -> next_entity w + act_mints a <= u64_max -> client_gone w s c -> client_gone (step w a).1 s c.
Proof.
  intros Hg Hn Hlt Hm (Hd & Hc & Hno). pose proof Hg as [Hi Hb Hcw _ Hcl].
  assert (forall w', same_live w w' -> origin w w' -> client_gone w' s c) as Hcalm.
  { intros w' [Eb Ec] Ho. assert (client_matches w' s c = false) as Hd' by (unfold client_matches; by rewrite Ec). split; [done|].
    split; [unfold next_client; by rewrite Ec|]. intros x Hx [E1 E2]. destruct (Ho x Hx) as [(y & Hy & Ey)|Hl]; [apply (Hno y Hy); by rewrite Ey|].
    unfold key_live in Hl. by rewrite E1, E2, Hd in Hl. }
  destruct a as [| | | | |o env|o| | | | | |]; try (match goal with |- client_gone (step w ?a).1 s c => destruct (calm_step w a Hi I) as (Hsl & Ho & _) end; by apply Hcalm).
  - cbn [step fst act_mints] in *. destruct (entity_Inv w env o Hi Hb Hm) as (_ & _ & Ec).
    assert (client_matches (entity_op w env o) s c = false) as Hd' by (unfold client_matches; by rewrite Ec). split; [done|].
    split; [unfold next_client; by rewrite Ec|]. intros x Hx [E1 E2]. revert Hx. unfold entity_op. pose proof (entity_notes_ok (books w) o) as Hns.
    destruct (EntityLive.books_step_wf _ _ Hb Hm) as (Hwf' & _ & _). destruct (EntityLive.step (books w) o) as [b notes] eqn:Es. cbn [fst snd] in *. set (w' := forget_dead _).
    assert (Inv w') as Hi' by (destruct Hi as [Ha Hp]; split; [by apply books_AInv|done]).
    assert (Forall (note_ok w') notes) as Hnotes.
    { apply Forall_forall. intros m Hin. specialize (Hns m Hb Hin). destruct m; cbn; try done; [|intros]; by rewrite present_live. }
    assert (forall y, y ∈ regs w' -> ~ (slot (key y) = s /\ client (key y) = c)) as Hno' by exact Hno.
    intros Hx. by apply (notified_all_gone env notes s c w' Hi' Hnotes Hd Hno' x Hx).
  - cbn [step fst]. split; [by apply client_dead_step|]. split; [|exact Hno]. unfold next_client in *. cbn.
    pose proof (LiveTable.live_next_mono (clients w) o Hcw ltac:(lia)). lia.
Qed.

Lemma run_gone acts s c : forall w n, Good w n -> 0 <= n -> 66 * (n + Z.of_nat (length acts) + 1) < u64_max -> next_entity w + acts_mints acts <= u64_max ->
  client_gone w s c -> client_gone (run w acts).1 s c.
Proof.
  induction acts as [|a acts IH]; intros w n Hg Hn Hl Hm Hgone; [done|]. rewrite run_fst. cbn [length acts_mints] in *. pose proof (lease_acts_mints_nonneg acts).
  destruct (step_Good w a n Hg Hn) as [Hg' Hm']; [lia|lia|]. apply (IH _ (n + 1)); [done|lia|lia|lia|]. eapply gone_step; [exact Hg|lia..|done].
Qed.

Lemma history_split (pre post : list Act) a : history_ok (pre ++ a :: post) ->
  history_ok pre /\ 66 * (Z.of_nat (length pre) + 1 + Z.of_nat (length post) + 1) < u64_max /\
  (forall w, next_entity w <= 1 + acts_mints pre -> next_entity w + act_mints a + acts_mints post <= u64_max).
Proof.
  unfold history_ok. rewrite length_app, lease_acts_mints_app. cbn [length acts_mints]. intros [H1 H2]. pose proof (lease_act_mints_nonneg a).
  pose proof (lease_acts_mints_nonneg post). split; [lia|]. split; [lia|]. lia.
Qed.

Lemma run_next acts : forall w n, Good w n -> 0 <= n -> 66 * (n + Z.of_nat (length acts) + 1) < u64_max -> next_entity w + acts_mints acts <= u64_max ->
  next_entity (run w acts).1 <= next_entity w + acts_mints acts.
Proof.
  induction acts as [|a acts IH]; intros w n Hg Hn Hl Hm; [cbn; lia|]. rewrite run_fst. cbn [length acts_mints] in *. pose proof (lease_acts_mints_nonneg acts).
  destruct (step_Good w a n Hg Hn) as [Hg' Hm']; [lia|lia|]. specialize (IH _ (n + 1) Hg' ltac:(lia) ltac:(lia) ltac:(lia)). lia.
Qed.

(** ** Properties *)

(** Lanes are exclusive. Among the leases and the pending retirements, with the parents the latter
    name: all of a group agree on the capacity and on whether they are focus leases, every lane is below
    the capacity, and two that share a lane of a group without focus leases are the same token. *)
Theorem lease_lanes_exclusive (acts : list Act) :
  history_ok acts ->
  let w := (run init acts).1 in
  (forall x y, x ∈ all_occs (regs w) -> y ∈ all_occs (regs w) ->
     (same_group (o_key x) (o_key y) = true -> o_capacity x = o_capacity y /\ (o_policy x = Focus <-> o_policy y = Focus)) /\
     (o_key x = o_key y -> o_policy x <> Focus -> o_token x = o_token y) /\
     (o_token x = o_token y -> x = y)) /\
  (forall l, l ∈ regs w -> (lane (key l) < capacity l)%nat /\ token l < next_token w).
Proof.
  intros Hh w. destruct (reach_Good acts Hh) as [[Ha _] _ _ _ _]. fold w in Ha.
  assert (regs w ⊆ pop w (pend_of <$> stack w)) as Hs by (intros x; unfold regs, pop; rewrite !elem_of_app; tauto). split.
  - intros x y Hx Hy. pose proof (all_occs_within _ _ x (within_subset _ _ Hs) Hx) as Hx'. pose proof (all_occs_within _ _ y (within_subset _ _ Hs) Hy) as Hy'.
    destruct (pop_occ _ _ (a_pop _ _ Ha) x y Hx' Hy') as (H1 & H2 & H3).
    split; [|done]. intros Hg. unfold in_group in H1. rewrite same_group_sym in Hg. destruct (H1 Hg). naive_solver.
  - intros l Hl. destruct (pop_shape _ _ (a_pop _ _ Ha) l (Hs l Hl)) as (S1 & S2 & _). done.
Qed.

(** A focus child lives with its parent. The parent of a lease is a lease of the same owner and
    identity, under the key the child names, not of focus itself and without a parent; a parent has one
    child, counting those whose retirement is pending. *)
Theorem lease_families (acts : list Act) :
  history_ok acts ->
  let w := (run init acts).1 in
  (forall t l p, leases (registry w) !! t = Some l -> parent l = Some p ->
     policy l = Focus /\ exists pl, leases (registry w) !! p_token p = Some pl /\ owner pl = owner l /\ same_identity (key pl) (key l) /\
       parent_occ p = (token pl, key pl, policy pl, capacity pl) /\ policy pl <> Focus /\ parent pl = None) /\
  (forall l1 l2 p p', l1 ∈ regs w -> l2 ∈ regs w -> parent l1 = Some p -> parent l2 = Some p' -> p_token p = p_token p' -> token l1 = token l2).
Proof.
  intros Hh w. destruct (reach_Good acts Hh) as [[Ha _] _ _ _ _]. fold w in Ha.
  assert (regs w ⊆ pop w (pend_of <$> stack w)) as Hs by (intros x; unfold regs, pop; rewrite !elem_of_app; tauto). split.
  - intros t l p Hl Hp. assert (l ∈ regs w) as Hin by (unfold regs; rewrite elem_of_app; left; apply elem_of_values; eauto).
    destruct (pop_shape _ _ (a_pop _ _ Ha) l (Hs l Hin)) as (_ & _ & Hsh). destruct (Hsh p Hp) as [(Hf & Hnf & _) _]. split; [done|].
    destruct (a_parent _ _ Ha _ _ _ Hl Hp) as (pl & Hpl & Ho). destruct (parent_no_parent _ _ _ _ _ _ Ha Hl Hp Hpl) as (Hno & Hocc & Hid).
    exists pl. split; [done|]. split; [done|]. split; [done|]. split; [done|]. split; [|done]. injection Hocc as _ _ E _. congruence.
  - intros l1 l2 p p' Hina Hinb. eapply (pop_child _ _ (a_pop _ _ Ha)); by apply Hs.
Qed.

(** C4. No presentation is lost. What may be on screen for a live identity is the winner of its key, or
    its retirement is pending, or an operation in progress is retiring it, in every state, between the
    steps of an operation and whatever runs during its engine calls. *)
Theorem lease_presentations_tracked (acts : list Act) :
  history_ok acts ->
  let w := (run init acts).1 in
  forall t k, shown w !! t = Some k ->
    key_live w k = true /\
    ((exists l, leases (registry w) !! t = Some l /\ key l = k /\ winner (registry w) k = Some t) \/
     (exists l, l ∈ pending (registry w) /\ token l = t /\ key l = k) \/
     (exists f l, f ∈ stack w /\ l ∈ now f :: todo f /\ token l = t /\ key l = k)).
Proof.
  intros Hh w t k Hk. destruct (reach_Good acts Hh) as [[Ha _] _ _ _ _]. fold w in Ha.
  destruct (a_shown _ _ Ha _ _ Hk) as (_ & Hlive & Hkey & Htr). split; [done|].
  assert (forall l, l ∈ pop w (pend_of <$> stack w) -> token l = t -> key l = k) as Hkey' by done.
  destruct Htr as [(l & Hl & Hw)|Hh'].
  - left. exists l. assert (key l = k) as Ek.
    { apply Hkey'; [|by apply (a_tok _ _ Ha)]. unfold pop. rewrite elem_of_app. left. apply elem_of_values. eauto. }
    by rewrite <- Ek.
  - right. apply list_elem_of_fmap in Hh' as (l & -> & [Hl|Hl]%elem_of_app).
    + left. exists l. split; [done|]. split; [done|]. apply Hkey'; [|done]. unfold pop. rewrite !elem_of_app. tauto.
    + right. pose proof Hl as Hl'. unfold infl in Hl. apply list_elem_of_bind in Hl as (p & Hlp & (f & -> & Hf)%list_elem_of_fmap).
      exists f, l. split; [done|]. split; [done|]. split; [done|]. apply Hkey'; [|done]. unfold pop. rewrite !elem_of_app. tauto.
Qed.

(** The registry stays within its limits and its guard is not leaked: at most 1024 leases of an owner,
    at most 16384 leases and pending retirements, and the transition flag is set exactly while an
    operation waits for an engine call. *)
Theorem lease_limits (acts : list Act) :
  history_ok acts ->
  let w := (run init acts).1 in
  (forall o, countb (fun l => bool_decide (owner l = o)) (values (registry w)) <= 1024) /\
  Z.of_nat (size (leases (registry w))) + Z.of_nat (length (pending (registry w))) <= 16384 /\
  transition w = bool_decide (stack w <> []).
Proof.
  intros Hh w. destruct (reach_Good acts Hh) as [[Ha _] _ _ _ _]. fold w in Ha. split; [apply Ha|]. split.
  - pose proof (a_weight _ _ Ha) as Hw. unfold weight in Hw. assert (forall ps : list Pend, 0 <= foldr (fun p n => credit p + n) 0 ps) as Hps; [|specialize (Hps (pend_of <$> stack w)); lia].
    induction ps as [|p ps IH]; cbn; [lia|]. unfold credit at 1. destruct (pd_kont p), (pd_failure p); lia.
  - rewrite (a_transition _ _ Ha). apply bool_decide_ext. by destruct (stack w).
Qed.

(** Leases follow identities. In every state each lease and each pending retirement is of a live
    entity; and once a connection is over and its leases were cleared, no lease and no pending retirement
    of that connection exists in any later state, whatever calls were in progress. *)
Theorem lease_identities_live (acts : list Act) :
  history_ok acts ->
  (forall x, x ∈ regs (run init acts).1 -> entity_present (run init acts).1 (index (key x)) (entity (key x)) = true) /\
  (forall pre s c env post, acts = pre ++ ClearClient s c env :: post ->
     client_matches (run init pre).1 s c = false -> c < next_client (run init pre).1 ->
     forall x, x ∈ regs (run init acts).1 -> ~ (slot (key x) = s /\ client (key x) = c)).
Proof.
  intros Hh. split.
  - pose proof Hh as [H1 H2]. apply (run_ids acts init 0 init_Good); [done|lia|cbn; lia|]. intros x Hx. unfold regs in Hx. cbn in Hx.
    apply elem_of_app in Hx as [Hx|Hx]; [|by apply elem_of_nil in Hx]. unfold values in Hx. cbn in Hx. rewrite map_to_list_empty in Hx. by apply elem_of_nil in Hx.
  - intros pre s c env post -> Hd Hc. destruct (history_split _ _ _ Hh) as (Hp & Hl & Hm).
    pose proof (reach_Good pre Hp) as Hg. assert (next_entity (run init pre).1 <= 1 + acts_mints pre) as Hne.
    { destruct Hp as [P1 P2]. pose proof (run_next pre init 0 init_Good ltac:(done) ltac:(lia) ltac:(cbn; lia)) as Hx. cbn in Hx. lia. }
    specialize (Hm _ Hne). pose proof (lease_acts_mints_nonneg post). rewrite run_app, run_fst.
    destruct (step_Good _ (ClearClient s c env) _ Hg) as [Hg' Hm']; [lia|lia|cbn in *; lia|].
    apply (run_gone post s c _ _ Hg'); [lia|lia|cbn in *; lia|]. cbn [step]. rewrite Hd.
    destruct (calm_sweep (run init pre).1 env (fun l => (slot (key l) =? s) && (client (key l) =? c)) (KeepNotClient s c)) as ([Eb Ec] & _ & _); [apply Hg|].
    split; [unfold client_matches, clear_client in *; by rewrite Ec|]. split; [unfold next_client, clear_client in *; by rewrite Ec|].
    apply client_cleared; [apply Hg|done].
Qed.

(** ** Suspension calls *)

Definition slot_ok (z : Z) : Prop := 0 <= z < u64_modulus.

Lemma arg_valid_cases kind (arg : Value num) : arg_valid kind arg = true ->
  (kind = "int" /\ exists v, as_i64 arg = Some v) \/ (kind = "bool" /\ exists b, arg = Bool b) \/
  ((kind = "string" \/ kind = "utlstring") /\ exists s, arg = String_ s /\ bounded s = true).
Proof.
  unfold arg_valid. destruct (String.eqb_spec kind "int") as [->|]; [left; split; [done|]; destruct (as_i64 arg); [eauto|done]|].
  destruct (String.eqb_spec kind "bool") as [->|]; [right; left; split; [done|]; destruct arg; try done; eauto|].
  destruct (String.eqb_spec kind "string") as [->|]; [|destruct (String.eqb_spec kind "utlstring") as [->|]; [|done]];
    right; right; (split; [auto|]); destruct arg; try done; eauto.
Qed.

Lemma marshal_total (args : list (string * Value num)) : forall gp ks strs,
  forallb (fun ka => arg_valid ka.1 ka.2) args = true -> Forall slot_ok gp -> Forall (fun s => bounded s = true) strs ->
  Z.of_nat (length strs + length args) < u64_modulus ->
  exists gp' ks' strs', marshal args gp ks strs = inr (gp', ks', strs') /\ length gp' = (length gp + length args)%nat /\
    length ks' = (length ks + length args)%nat /\ Forall slot_ok gp' /\ Forall (fun s => bounded s = true) strs'.
Proof.
  induction args as [|[kind arg] args IH]; intros gp ks strs Hv Hg Hs Hl; cbn [marshal forallb length] in *.
  { exists gp, ks, strs. split; [done|]. split; [lia|]. split; [lia|done]. }
  apply andb_true_iff in Hv as [Ha Hv]. cbn [fst snd] in Ha. apply arg_valid_cases in Ha as [[-> [v E]]|[[-> [b ->]]|[Hk (s & -> & Hb)]]].
  - cbn [String.eqb Ascii.eqb Bool.eqb]. rewrite E.
    destruct (IH (gp ++ [wrap64 v]) (ks ++ [GpScalar]) strs) as (g' & k' & s' & H1 & H2 & H3 & H4 & H5); [done|..|done|lia|].
    + apply Forall_app. split; [done|]. repeat constructor; apply wrap64_range.
    + exists g', k', s'. rewrite length_app in H2, H3. cbn in H2, H3. split; [done|]. split; [lia|]. split; [lia|done].
  - cbn [String.eqb Ascii.eqb Bool.eqb].
    destruct (IH (gp ++ [if b then 1 else 0]) (ks ++ [GpScalar]) strs) as (g' & k' & s' & H1 & H2 & H3 & H4 & H5); [done|..|done|lia|].
    + apply Forall_app. split; [done|]. repeat constructor; by destruct b.
    + exists g', k', s'. rewrite length_app in H2, H3. cbn in H2, H3. split; [done|]. split; [lia|]. split; [lia|done].
  - assert (has_nul s = false) as Hn by (unfold bounded in Hb; by apply andb_true_iff in Hb as [_ ?%negb_true_iff]).
    assert (forall kd, exists g' k' s', marshal args (gp ++ [Z.of_nat (length strs)]) (ks ++ [kd]) (strs ++ [s]) = inr (g', k', s') /\
      length g' = (length gp + S (length args))%nat /\ length k' = (length ks + S (length args))%nat /\ Forall slot_ok g' /\ Forall (fun s => bounded s = true) s') as Hgo.
    { intros kd. destruct (IH (gp ++ [Z.of_nat (length strs)]) (ks ++ [kd]) (strs ++ [s])) as (g' & k' & s' & H1 & H2 & H3 & H4 & H5); [done|..].
      - apply Forall_app. split; [done|]. repeat constructor; lia.
      - apply Forall_app. split; [done|]. by repeat constructor.
      - rewrite length_app. cbn. lia.
      - exists g', k', s'. rewrite length_app in H2, H3. cbn in H2, H3. split; [done|]. split; [lia|]. split; [lia|done]. }
    destruct Hk as [->| ->]; cbn [String.eqb Ascii.eqb Bool.eqb]; rewrite Hn; apply Hgo.
Qed.

Lemma suspension_plan_args env g (a : @Suspend num) p : suspension_plan env g a = inr p -> (1 <= length (SharedSwitch.args p) <= 8)%nat.
Proof.
  unfold suspension_plan. destruct (SharedSwitch.plan env g (s_call a)) as [q|]; [|done]. destruct (_ || _) eqn:E; [done|]. intros [= <-].
  rewrite !orb_false_iff, Nat.ltb_ge, !negb_false_iff in E. destruct E as [[[[[_ _] _] Hh%bool_decide_eq_true] Hle] _].
  destruct (SharedSwitch.args q); [done|]. cbn in *. lia.
Qed.

(** A suspension never panics and never passes the engine a malformed call: the call has one slot per
    parameter of the binding, at most eight, each within 64 bits, and its strings are bounded and hold
    no NUL. An adapter that was accepted can be suspended as long as its game package owns the bindings,
    they are as they were, the entity lives and the engine operation exists. *)
Theorem lease_suspend_exact w env l (a : @Suspend num) :
  (forall e, invoke_suspend w env l a = inl e -> e <> MarshalPanic /\ e <> InvalidString) /\
  (forall c, invoke_suspend w env l a = inr c ->
     (1 <= length (gp c) <= 8)%nat /\ length (kinds c) = length (gp c) /\ Forall slot_ok (gp c) /\ Forall (fun s => bounded s = true) (strings c)) /\
  (forall ad g, suspend_ ad = Some a -> validate_adapter env ad (Some g) = None -> game l = Some g ->
     SharedSwitch.game_package_owner env = Some g -> SharedSwitch.engine_call_invoke env = true -> identity_live w l = true ->
     exists c, invoke_suspend w env l a = inr c).
Proof.
  assert (forall p g, suspension_plan env g a = inr p -> suspension_args p a = true ->
    exists gp' ks' strs', marshal (zip (drop 1 (SharedSwitch.args p)) (s_args a)) [wrap64 (slot (key l))] [GpScalar] [] = inr (gp', ks', strs') /\
      (1 <= length gp' <= 8)%nat /\ length ks' = length gp' /\ Forall slot_ok gp' /\ Forall (fun s => bounded s = true) strs') as Hm.
  { intros p g Hp Hargs. apply suspension_plan_args in Hp. unfold suspension_args in Hargs. apply andb_true_iff in Hargs as [Hlen%Nat.eqb_eq Hargs].
    pose proof (length_zip_with pair (drop 1 (SharedSwitch.args p)) (s_args a)) as Hz. rewrite length_drop in Hz.
    destruct (marshal_total _ [wrap64 (slot (key l))] [GpScalar] [] Hargs) as (g' & k' & s' & H1 & H2 & H3 & H4 & H5); [| done| |].
    - repeat constructor; apply wrap64_range.
    - change (zip_with pair ?x ?y) with (zip x y) in Hz. rewrite Hz. cbn [length]. unfold u64_modulus. lia.
    - exists g', k', s'. change (zip_with pair ?x ?y) with (zip x y) in Hz. cbn in H2, H3. split; [done|]. rewrite H2, H3, Hz. split; [lia|]. split; [lia|done]. }
  unfold invoke_suspend. split; [|split].
  - intros e. destruct (game l) as [g|]; [|by intros [= <-]]. destruct (negb _); [by intros [= <-]|]. destruct (suspension_plan env g a) as [e0|p] eqn:Ep.
    + unfold suspension_plan in Ep. intros [= <-]. destruct (SharedSwitch.plan env g (s_call a)); [destruct (_ || _)|]; by simplify_eq.
    + destruct (suspension_args p a) eqn:Ea; cbn [negb]; [|by intros [= <-]]. destruct (EntityLive.engine_serial_for _ _ _); [|by intros [= <-]].
      destruct (negb _); [by intros [= <-]|]. destruct (Hm p g Ep Ea) as (g' & k' & s' & -> & _). done.
  - intros c. destruct (game l) as [g|]; [|done]. destruct (negb _); [done|]. destruct (suspension_plan env g a) as [e0|p] eqn:Ep; [done|].
    destruct (suspension_args p a) eqn:Ea; cbn [negb]; [|done]. destruct (EntityLive.engine_serial_for _ _ _); [|done]. destruct (negb _); [done|].
    destruct (Hm p g Ep Ea) as (g' & k' & s' & -> & H1 & H2 & H3 & H4). by intros [= <-].
  - intros ad g Hs Hv -> -> -> Hl. rewrite bool_decide_true by done. cbn [negb].
    assert (validate_suspend env g a = None) as Hvs.
    { unfold validate_adapter in Hv. rewrite Hs in Hv. destruct (capture ad) as [cp|]; [destruct (validate_capture env g cp)|]; done. }
    unfold validate_suspend in Hvs. destruct (_ || _); [done|]. destruct (suspension_plan env g a) as [e0|p] eqn:Ep; [done|].
    destruct (suspension_args p a) eqn:Ea; [|done]. cbn [negb]. apply andb_true_iff in Hl as [_ Hl]. unfold entity_present in Hl.
    destruct (EntityLive.engine_serial_for _ _ _); [|done]. destruct (Hm p g Ep Ea) as (g' & k' & s' & -> & _). by eexists.
Qed.
End LeaseProperties.
End LeaseProperties.

Module LeasePropertiesExamples.
Import LeaseProperties.
Import JsonExamples.
Notation act := (@Act num).

(** Two plugins, one entity, one client; a hide binding that takes the slot and a number. *)
Definition env : SharedSwitch.Env :=
  SharedSwitch.mkEnv (Some "g") (fun _ _ => Some (SharedSwitch.mkPlan 7 ["int"; "int"] SharedSwitch.RET_VOID [] false)) true.
Definition hud : @Adapter num := mkAdapter None (Some (mkSuspend "hide" [Number (Int 3)])).
Definition plugins2 : Registry.Registry :=
  match Registry.insert 0 Registry.new "a" with
  | Some (e, r, _) => match Registry.insert e r "b" with Some (_, r, _) => r | None => r end
  | None => Registry.new
  end.
Definition key_at (s : string) : Key := mkKey s 5 1 3 1 0.
Definition boot : list act := [PluginsChange plugins2; EntityOp (EntityLive.Created 5 100) env; ClientOp (LiveTable.Insert 3 tt)].

(** Plugin a shows its hud; plugin b takes over with a higher priority, after a's hud was hidden. *)
Definition takeover : list act :=
  boot ++ [Reserve "a" (key_at "hud") 1 Focus [hud] None env; Activate "a" 1 None; Reserve "b" (key_at "hud") 2 Focus [hud] None env].
Example takeover_waits : let w := (run init takeover).1 in
  (lease_state w "a" 1, transition w, length (stack w), (run init takeover).2) = (Waiting, true, 1%nat, [RReserve (inr (1, 0%nat)); RBool true]).
Proof. vm_compute. reflexivity. Qed.
Example takeover_done : let w := (run init (takeover ++ [Return true env])).1 in
  (lease_state w "a" 1, lease_state w "b" 2, transition w, shown w) = (Covered, Ready, false, ∅).
Proof. vm_compute. reflexivity. Qed.
(** The hide fails: b gets nothing, and the next frame hides a's hud again. *)
Example takeover_failed : let w := (run init (takeover ++ [Return false env])).1 in
  (lease_state w "a" 1, lease_state w "b" 2, length (pending (registry w)), map_to_list (shown w), length (stack (step w (AdvanceFrame env)).1))
  = (Waiting, Invalid, 1%nat, [(1, key_at "hud")], 1%nat).
Proof. vm_compute. reflexivity. Qed.

(** The owner unloads while its hud is being hidden. *)
Definition unloading : list act := takeover ++ [RemoveOwner "a" env; Return false env; Return true env].
Example unloaded_pending : let w := (run init unloading).1 in (token <$> pending (registry w), length (stack w), lease_state w "b" 2) = ([1], 0%nat, Waiting).
Proof. vm_compute. reflexivity. Qed.

Definition leaving : list act := takeover ++ [ClientOp (LiveTable.Remove 3)].
Definition left : list act := leaving ++ ClearClient 3 1 env :: [Return false env; AdvanceFrame env].

Lemma lease_lanes_exclusive_witness :
  history_ok unloading /\
  let w := (run init unloading).1 in
  (forall x y, x ∈ all_occs (regs w) -> y ∈ all_occs (regs w) ->
     (same_group (o_key x) (o_key y) = true -> o_capacity x = o_capacity y /\ (o_policy x = Focus <-> o_policy y = Focus)) /\
     (o_key x = o_key y -> o_policy x <> Focus -> o_token x = o_token y) /\
     (o_token x = o_token y -> x = y)) /\
  (forall l, l ∈ regs w -> (lane (key l) < capacity l)%nat /\ token l < next_token w).
Proof. split; [by split|]. apply (lease_lanes_exclusive unloading). by split. Defined.

Lemma lease_families_witness :
  history_ok unloading /\
  forall t l p, leases (registry (run init unloading).1) !! t = Some l -> parent l = Some p -> policy l = Focus.
Proof. split; [by split|]. intros t l p Hl Hp. by apply (proj1 (lease_families unloading (conj eq_refl eq_refl)) t l p). Defined.

Lemma lease_presentations_tracked_witness :
  history_ok takeover /\ shown (run init takeover).1 !! 1 = Some (key_at "hud") /\ key_live (run init takeover).1 (key_at "hud") = true.
Proof.
  split; [by split|]. assert (shown (run init takeover).1 !! 1 = Some (key_at "hud")) as Hs by (vm_compute; reflexivity). split; [exact Hs|].
  apply (lease_presentations_tracked takeover ltac:(by split) 1 _ Hs).
Defined.

Lemma lease_limits_witness : history_ok takeover /\ transition (run init takeover).1 = bool_decide (stack (run init takeover).1 <> []).
Proof. split; [by split|]. apply (lease_limits takeover). by split. Defined.

Lemma lease_identities_live_witness :
  history_ok left /\ client_matches (run init leaving).1 3 1 = false /\
  forall x, x ∈ regs (run init left).1 -> ~ (slot (key x) = 3 /\ client (key x) = 1).
Proof.
  split; [by split|]. assert (client_matches (run init leaving).1 3 1 = false) as Hd by (vm_compute; reflexivity). split; [exact Hd|].
  apply (proj2 (lease_identities_live left ltac:(by split)) leaving 3 1 env [Return false env; AdvanceFrame env] eq_refl Hd). vm_compute. reflexivity.
Defined.

(** The booted world's lease of plugin a can be suspended. *)
Definition one : World := (run init (boot ++ [Reserve "a" (key_at "hud") 1 Focus [hud] None env])).1.
Definition lease1 : @Lease num := mkLease 1 "a" 1 (key_at "hud") 1 (Some "g") hud Focus 1 None false None 0.
Example suspend_call : invoke_suspend one env lease1 (mkSuspend "hide" [Number (Int (-1))]) = inr (mkCall 7 5 100 [3; 18446744073709551615] [GpScalar; GpScalar] []).
Proof. vm_compute. reflexivity. Qed.
End LeasePropertiesExamples.
