(* ===== verification/EngineContract.v ===== *)
(** Engine function contracts (core/src/engine_functions/contract.rs, abi.generated.rs).

    An archive may declare engine functions: where each is found, how it is called on the machine, and
    what plugins may do with it. [parse] is the boundary that admits such a bundle. Nothing it carries
    may be trusted, so every derived fact (canonical names, stack size, fingerprint, hashes, summary) is
    recomputed. The JSON reader, the canonical printer and SHA-256 are third-party functions and
    parameters; [to_value] is written out, since the hashes are taken of it. *)
From stdpp Require Import pretty.
From S2P Require Import Prelude.
From S2P Require Import Results.
From S2P Require Import Json.
From Stdlib Require Import Ascii.
From Stdlib Require String.
Import Json.

(** The third-party functions: [Number::from], the hexadecimal digest of bytes, the canonical printer. *)
Class Digest (num : Type) := {
  from_u64 : Z -> num;
  sha256_hex : string -> string;
  canonical : Json.Value num -> string;
}.
(** [Number::from] keeps the integer. *)
Class DigestLaws (num : Type) `{JsonNumber num} `{Digest num} := {
  from_u64_exact z : 0 <= z <= u64_max -> num_as_u64 (from_u64 z) = Some z;
}.

Module EngineAbi.
Definition PLATFORM : string := "linux-x86_64-sysv".
Definition RECEIVERS : list string := ["none"; "entity"].
Definition ATOMS : list (string * Z) := [("u8", 1); ("i32", 4); ("u32", 4); ("i64", 8); ("u64", 8); ("f32", 4); ("f64", 8); ("ptr", 8)].
Definition MAX_PARAMETERS : Z := 32.
Definition MAX_CIF_ARGUMENTS : Z := 33.
Definition MAX_STACK_BYTES : Z := 256.
Definition STACK_SAFETY_BUFFER : Z := 128.
Definition GP_REGISTERS : Z := 6.
Definition SSE_REGISTERS : Z := 8.
Definition is_atom (native : string) : bool := existsb (fun a => String.eqb a.1 native) ATOMS.
End EngineAbi.

Module EngineContract.
Import EngineAbi.

(** ** Data *)
Record Projection := mkProjection { pr_id : string; pr_version : Z }.
Record Param := mkParam { name : string; native : string; projection_ : Projection; ownership : option string; mutable : list string }.
Record Returns := mkReturns { r_native : string; r_projection : Projection; r_ownership : option string }.
Record Abi := mkAbi {
  platform : string; receiver : string; fingerprint : string; stack_copy_bytes : Z; parameters : list Param; returns : Returns;
}.
Record Policy := mkPolicy {
  id : string; version : Z; p_contract_hash : string; surfaces : list string; self_call : string; suppression : string;
}.
Record StringXref := mkXref { at_ : Z; disp_off : Z; instr_len : Z; expect : string }.
Record Validator := mkValidator { prologue : option string; string_xref : option StringXref; vtable_member : option string }.
Definition validator_default : Validator := mkValidator None None None.
Inductive NormalizedTarget :=
| Signature (module_ pattern resolve derivation : string) (candidate_validate target_validate : Validator)
| Virtual (module_ class_ : string) (index : Z) (resolve derivation : string) (candidate_validate target_validate : Validator).
Record NormalizedFunction := mkFunction {
  local_name : string; canonical_id : string; contract_hash : string; target : NormalizedTarget; abi : Abi; policy : Policy; requirement : string;
}.
Record NormalizedBundle := mkBundle { schema_version : Z; owner_id : string; bundle_hash : string; functions : list NormalizedFunction }.

#[export] Instance Projection_eq_dec : EqDecision Projection.
Proof. solve_decision. Defined.
#[export] Instance Validator_eq_dec : EqDecision Validator.
Proof. assert (EqDecision StringXref) by solve_decision. solve_decision. Defined.
#[export] Instance NormalizedTarget_eq_dec : EqDecision NormalizedTarget.
Proof. solve_decision. Defined.
#[export] Instance Abi_eq_dec : EqDecision Abi.
Proof. assert (EqDecision Param) by solve_decision. assert (EqDecision Returns) by solve_decision. solve_decision. Defined.
#[export] Instance NormalizedFunction_eq_dec : EqDecision NormalizedFunction.
Proof. assert (EqDecision Policy) by solve_decision. solve_decision. Defined.

(** ** Strings *)
Definition chars (s : string) : list Ascii.ascii := Stdlib.Strings.String.list_ascii_of_string s.
Definition contains_nul (s : string) : bool := existsb (Ascii.eqb Ascii.zero) (chars s).
Definition nonempty (s : string) : bool := negb (String.eqb s "") && negb (contains_nul s).
Definition in_range (lo hi : Ascii.ascii) (c : Ascii.ascii) : bool :=
  (Ascii.nat_of_ascii lo <=? Ascii.nat_of_ascii c)%nat && (Ascii.nat_of_ascii c <=? Ascii.nat_of_ascii hi)%nat.
Definition is_ascii_alphabetic (c : Ascii.ascii) : bool := in_range "a"%char "z"%char c || in_range "A"%char "Z"%char c.
Definition is_ascii_alphanumeric (c : Ascii.ascii) : bool := is_ascii_alphabetic c || in_range "0"%char "9"%char c.
Definition is_mark (c : Ascii.ascii) : bool := Ascii.eqb c "_"%char || Ascii.eqb c "$"%char.
(** A character past ASCII is a run of bytes past ASCII, so the test may be made on bytes. *)
Definition identifier (s : string) : bool :=
  match chars s with
  | [] => false
  | x :: c =>
      (is_ascii_alphabetic x || is_mark x) && forallb (fun x => is_ascii_alphanumeric x || is_mark x) c
      && negb (existsb (String.eqb s) ["self"; "returnValue"; "constructor"; "prototype"; "__proto__"])
  end.
Definition str_lt (a b : string) : bool := negb (bool_decide (String.le b a)).
Definition mem (s : string) (l : list string) : bool := existsb (String.eqb s) l.

(** ** Targets *)
Definition is_empty (v : Validator) : bool :=
  match prologue v, string_xref v, vtable_member v with None, None, None => true | _, _, _ => false end.
Definition opt_all {A} (f : A -> bool) (o : option A) : bool := match o with Some a => f a | None => true end.
Definition i32_max : Z := 2 ^ 31 - 1.
Definition xref_ok (x : StringXref) : bool :=
  (at_ x <=? i32_max) && (0 <? instr_len x) && (instr_len x <=? i32_max) && (disp_off x + 4 <=? instr_len x)
  && nonempty (expect x) && (Z.of_nat (String.length (expect x)) <=? 256).
Definition validate_validator (v : Validator) : string + unit :=
  let* _ := require (opt_all nonempty (prologue v) && opt_all nonempty (vtable_member v)) "empty/NUL validator" in
  require (opt_all xref_ok (string_xref v)) "invalid string-xref bounds".

Definition derivation_of (resolve : string) : option string :=
  if String.eqb resolve "direct" then Some "identity"
  else if String.eqb resolve "ctor-body-xref" then Some "ctor-body-xref"
  else if String.eqb resolve "lea-disp" then Some "lea-disp"
  else if String.eqb resolve "validated-call" then Some "e8-rel32"
  else None.
Definition is_some {A} (o : option A) : bool := match o with Some _ => true | None => false end.

Definition validate_target (t : NormalizedTarget) : string + unit :=
  let* x :=
    match t with
    | Signature module_ pattern resolve derivation c t =>
        let* _ := require (nonempty pattern) "invalid pattern" in
        let* expected := ok_or (derivation_of resolve) "unsupported resolver" in
        let* _ := require (String.eqb derivation expected) "resolver/derivation mismatch" in
        let* _ := if String.eqb resolve "validated-call"
                  then require (is_some (string_xref c)) "validated-call requires candidate string-xref"
                  else require (is_empty c && negb (is_empty t)) "invalid validator stage" in
        inr (module_, c, t)
    | Virtual module_ class_ index resolve derivation c t =>
        let* _ := require (nonempty class_ && (index <? 512) && String.eqb resolve "direct" && String.eqb derivation "virtual-slot"
                           && is_empty c && is_some (prologue t)) "invalid virtual target" in
        inr (module_, c, t)
    end in
  let '(module_, candidate, target) := x in
  let* _ := require (nonempty module_) "invalid module" in
  let* _ := validate_validator candidate in
  validate_validator target.

(** ** Projections and ownership *)
Definition projection (native : string) (p : Projection) (ret : bool) : string + unit :=
  let valid :=
    if String.eqb (pr_id p) "void" then ret && String.eqb native "void"
    else if String.eqb (pr_id p) "bool" then String.eqb native "u8"
    else if mem (pr_id p) ["entity"; "entity?"; "string"; "vector"; "ptr"] then String.eqb native "ptr"
    else if mem (pr_id p) ["i32"; "u32"; "i64"; "u64"; "f32"; "f64"] then String.eqb native (pr_id p)
    else false in
  require ((pr_version p =? 1) && valid) "unsupported ABI/projection pair (host authority required for custom codecs)".

Definition copied_ownership (id : string) (owner : option string) (ret : bool) (field : string) : string + unit :=
  if mem id ["string"; "vector"] then
    let allowed := if ret then ["caller-borrowed"; "native-observed"] else ["callee-borrowed"; "callee-retained"; "native-observed"] in
    require (match owner with Some value => mem value allowed | None => false end)
      (field +:+ ": copied ownership is required and must match its direction; rebuild old copied declarations")
  else require (negb (is_some owner)) (field +:+ ": ownership is only valid for copied string/vector positions").

(** ** The machine layout *)
Record Slots := mkSlots { gp : Z; sse : Z; spill : Z }.
Definition is_float (native : string) : bool := String.eqb native "f32" || String.eqb native "f64".
Definition b2z (b : bool) : Z := if b then 1 else 0.
Definition slots_init (member : bool) : Slots := mkSlots (b2z member) 0 0.
Definition count_slot (s : Slots) (native : string) : Slots :=
  if is_float native
  then mkSlots (gp s) (sse s + 1) (if SSE_REGISTERS <=? sse s then spill s + 8 else spill s)
  else mkSlots (gp s + 1) (sse s) (if GP_REGISTERS <=? gp s then spill s + 8 else spill s).
Definition stack_of (s : Slots) : Z := Z.max STACK_SAFETY_BUFFER ((spill s + 15) / 16 * 16).

Fixpoint join (sep : string) (l : list string) : string :=
  match l with
  | [] => ""
  | [s] => s
  | s :: l => s +:+ sep +:+ join sep l
  end.
Definition fingerprint_of (receiver ret : string) (natives : list string) : string :=
  PLATFORM +:+ ":" +:+ receiver +:+ ":" +:+ ret +:+ "(" +:+ join "," natives +:+ ")".

Definition check_parameter (fid : string) (st : list string * Slots) (p : Param) : string + (list string * Slots) :=
  let* _ := require (identifier (name p) && negb (mem (name p) st.1)) "invalid/duplicate parameter name" in
  let* _ := projection (native p) (projection_ p) false in
  let* _ := copied_ownership (pr_id (projection_ p)) (ownership p) false (fid +:+ " parameter " +:+ name p) in
  let* _ := require (bool_decide (mutable p = []) || bool_decide (mutable p = ["pre"])) "invalid mutability" in
  let* _ := require (is_atom (native p)) "unsupported atom" in
  inr (name p :: st.1, count_slot st.2 (native p)).

(** ** The serialized form, of which the hashes are taken *)
Section Parse.
Context {num : Type} `{JsonNumber num} `{Digest num}.
Notation Value := (Json.Value num).

Definition hash_bytes (bytes : string) : string := sha256_hex bytes.
Definition hash (value : Value) : string := hash_bytes (canonical value).

Definition obj (fields : list (string * Value)) : Value := Object (extend [] fields).
Definition str (s : string) : Value := String_ s.
Definition uint (z : Z) : Value := Number (from_u64 z).
Definition strs (l : list string) : Value := Array (str <$> l).
(** [skip_serializing_if = "Option::is_none"] *)
Definition present (k : string) (o : option Value) : list (string * Value) := match o with Some v => [(k, v)] | None => [] end.
Definition remove (k : string) (v : Value) : Value :=
  match v with Object m => Object (filterb (fun kv => negb (String.eqb kv.1 k)) m) | v => v end.

Definition xref_value (x : StringXref) : Value :=
  obj [("at", uint (at_ x)); ("dispOff", uint (disp_off x)); ("instrLen", uint (instr_len x)); ("expect", str (expect x))].
Definition validator_value (v : Validator) : Value :=
  obj (present "prologue" (str <$> prologue v) ++ present "string-xref" (xref_value <$> string_xref v)
       ++ present "vtable-member" (str <$> vtable_member v)).
Definition target_value (t : NormalizedTarget) : Value :=
  match t with
  | Signature m p r d c t =>
      obj [("kind", str "signature"); ("module", str m); ("pattern", str p); ("resolve", str r); ("derivation", str d);
           ("candidateValidate", validator_value c); ("targetValidate", validator_value t)]
  | Virtual m cl i r d c t =>
      obj [("kind", str "virtual"); ("module", str m); ("class", str cl); ("index", uint i); ("resolve", str r); ("derivation", str d);
           ("candidateValidate", validator_value c); ("targetValidate", validator_value t)]
  end.
Definition projection_value (p : Projection) : Value := obj [("id", str (pr_id p)); ("version", uint (pr_version p))].
Definition parameter_value (p : Param) : Value :=
  obj ([("name", str (name p)); ("native", str (native p)); ("projection", projection_value (projection_ p))]
       ++ present "ownership" (str <$> ownership p) ++ [("mutable", strs (mutable p))]).
Definition returns_value (r : Returns) : Value :=
  obj ([("native", str (r_native r)); ("projection", projection_value (r_projection r))] ++ present "ownership" (str <$> r_ownership r)).
Definition abi_value (a : Abi) : Value :=
  obj [("platform", str (platform a)); ("receiver", str (receiver a)); ("fingerprint", str (fingerprint a));
       ("stackCopyBytes", uint (stack_copy_bytes a)); ("parameters", Array (parameter_value <$> parameters a)); ("returns", returns_value (returns a))].
Definition policy_value (p : Policy) : Value :=
  obj [("id", str (id p)); ("version", uint (version p)); ("contractHash", str (p_contract_hash p)); ("surfaces", strs (surfaces p));
       ("selfCall", str (self_call p)); ("suppression", str (suppression p))].
Definition function_value (f : NormalizedFunction) : Value :=
  obj [("localName", str (local_name f)); ("canonicalId", str (canonical_id f)); ("contractHash", str (contract_hash f)); ("target", target_value (target f));
       ("abi", abi_value (abi f)); ("policy", policy_value (policy f)); ("requirement", str (requirement f))].
Definition bundle_value (b : NormalizedBundle) : Value :=
  obj [("schemaVersion", uint (schema_version b)); ("ownerId", str (owner_id b)); ("bundleHash", str (bundle_hash b));
       ("functions", Array (function_value <$> functions b))].
Definition contract_value (f : NormalizedFunction) : Value := obj [("abi", abi_value (abi f)); ("policy", policy_value (policy f))].

(** What the manifest must say of the bundle. *)
Definition is_nil {A} (l : list A) : bool := match l with [] => true | _ => false end.
Definition summary_function (f : NormalizedFunction) : Value :=
  obj [("canonicalId", str (canonical_id f)); ("contractHash", str (contract_hash f)); ("surfaces", strs (surfaces (policy f)));
       ("mutates", Bool (existsb (fun p => negb (is_nil (mutable p))) (parameters (abi f))));
       ("suppresses", Bool (negb (String.eqb (suppression (policy f)) "none"))); ("requirement", str (requirement f))].
Definition summary_value (b : NormalizedBundle) : Value :=
  obj [("schemaVersion", uint 2); ("bundleHash", str (bundle_hash b)); ("functions", Array (summary_function <$> functions b))].

(** ** Policies *)
Definition has_surface (p : Policy) (s : string) : bool := mem s (surfaces p).
Definition validate_policy (p : Policy) : string + unit :=
  let surfaces_ := filterb (has_surface p) ["call"; "pre"; "post"] in
  let pre := has_surface p "pre" in
  let* _ := require (negb (is_nil surfaces_) && bool_decide (surfaces_ = surfaces p) && String.eqb (id p) "generic.v2" && (version p =? 1)
                     && String.eqb (self_call p) "bypass-own-hooks"
                     && (if pre then mem (suppression p) ["generic"; "none"] else String.eqb (suppression p) "none")) "invalid/host-only policy" in
  require (String.eqb (hash (remove "contractHash" (policy_value p))) (p_contract_hash p)) "policy hash mismatch".

(** ** Functions and bundles *)
Definition owned_as (o : option string) (kind : string) : bool := bool_decide (o = Some kind).

Definition check_rights (f : NormalizedFunction) (p : Param) : string + unit :=
  let pol := policy f in
  let text := canonical_id f +:+ " parameter " +:+ name p in
  let* _ := require (negb (owned_as (ownership p) "native-observed" && has_surface pol "call")) (text +:+ ": native-observed disallows call") in
  let* _ := require (negb (owned_as (ownership p) "native-observed" && negb (is_nil (mutable p)))) (text +:+ ": native-observed disallows PRE edits") in
  require (negb (owned_as (ownership p) "callee-borrowed" && negb (is_nil (mutable p)) && String.eqb (r_native (returns (abi f))) "ptr"))
    (text +:+ ": mutable copied pointer-return input requires callee-retained").

Definition is_member (receiver : string) : bool := String.eqb receiver "entity".
Definition check_abi (f : NormalizedFunction) : string + unit :=
  let a := abi f in
  let* _ := require (String.eqb (platform a) PLATFORM && mem (receiver a) RECEIVERS) "unsupported ABI platform/receiver" in
  let n := Z.of_nat (length (parameters a)) in
  let* _ := require ((n <=? MAX_PARAMETERS) && (n + b2z (is_member (receiver a)) <=? MAX_CIF_ARGUMENTS)) "ABI argument limit" in
  let* st := rfold (check_parameter (canonical_id f)) ([], slots_init (is_member (receiver a))) (parameters a) in
  let* _ := projection (r_native (returns a)) (r_projection (returns a)) true in
  let* _ := copied_ownership (pr_id (r_projection (returns a))) (r_ownership (returns a)) true (canonical_id f +:+ " returns") in
  let stack := stack_of st.2 in
  let* _ := require ((stack <=? MAX_STACK_BYTES) && (stack_copy_bytes a =? stack)) "stack-copy mismatch" in
  require (String.eqb (fingerprint a) (fingerprint_of (receiver a) (r_native (returns a)) (native <$> parameters a))) "ABI fingerprint mismatch".

Definition check_policy (f : NormalizedFunction) : string + unit :=
  let a := abi f in
  let p := policy f in
  let* _ := validate_policy p in
  let pre := has_surface p "pre" in
  let* _ := require (pre || forallb (fun q => is_nil (mutable q)) (parameters a)) "mutation requires pre" in
  let* _ := reach (check_rights f) (parameters a) in
  let* _ := require (negb (owned_as (r_ownership (returns a)) "native-observed" && has_surface p "call"))
              (canonical_id f +:+ " returns: native-observed disallows call") in
  let* _ := require (negb (owned_as (r_ownership (returns a)) "native-observed" && pre && negb (String.eqb (suppression p) "none")))
              (canonical_id f +:+ " returns: native-observed requires suppression:none") in
  let* _ := require (String.eqb (hash (remove "contractHash" (policy_value p))) (p_contract_hash p)) "policy hash mismatch" in
  require (String.eqb (hash (contract_value f)) (contract_hash f)) "contract hash mismatch".

(** One function, after the functions whose last name is [previous]. *)
Definition check_function (owner : string) (previous : string) (f : NormalizedFunction) : string + string :=
  let* _ := require (identifier (local_name f) && str_lt previous (local_name f)
                     && String.eqb (canonical_id f) (owner +:+ "::" +:+ local_name f)) "invalid/unsorted/duplicate function identity" in
  let* _ := require (mem (requirement f) ["optional"; "required"]) "invalid requirement" in
  let* _ := validate_target (target f) in
  let* _ := check_abi f in
  let* _ := check_policy f in
  inr (local_name f).

Definition surface_permissions : list (string * string) := [("call", "engine:calls"); ("pre", "engine:hooks"); ("post", "engine:hooks")].
Definition check_permission (b : NormalizedBundle) (permissions : list string) (sp : string * string) : string + unit :=
  if existsb (fun f => has_surface (policy f) sp.1) (functions b)
  then require (mem sp.2 permissions) "missing derived permission" else inr tt.

(** [from_str] is the derived reader of the bundle's text. *)
Definition parse (from_str : string -> string + NormalizedBundle) (text owner : string) (summary : Value) (permissions : list string)
  : string + NormalizedBundle :=
  let* b := map_err (fun e => "engine-functions.json: " +:+ e) (from_str text) in
  let* _ := require ((schema_version b =? 2) && String.eqb (owner_id b) owner && nonempty owner) "schema/owner mismatch" in
  let* _ := rfold (check_function owner) "" (functions b) in
  let* _ := require (String.eqb (hash (remove "bundleHash" (bundle_value b))) (bundle_hash b)) "bundle hash mismatch" in
  let* _ := require (value_eqb summary (summary_value b)) "manifest/member summary mismatch" in
  let* _ := reach (check_permission b permissions) surface_permissions in
  inr b.
End Parse.

(** ** Identities the host mints *)
Inductive OwnerKind := Plugin | GamePackage.
#[export] Instance OwnerKind_eq_dec : EqDecision OwnerKind.
Proof. solve_decision. Defined.
Record OwnerKey := mkOwner { o_id : string; o_generation : Z; o_kind : OwnerKind }.
#[export] Instance OwnerKey_eq_dec : EqDecision OwnerKey.
Proof. solve_decision. Defined.
Definition plugin_key (id : string) (generation : Z) : OwnerKey := mkOwner id generation Plugin.

(** [ImplementationManifestHash::new] *)
Definition is_lower_hex (c : ascii) : bool := in_range "0"%char "9"%char c || in_range "a"%char "f"%char c.
Definition manifest_hash (hash : string) : string + string :=
  let* _ := require ((String.length hash =? 64)%nat && forallb is_lower_hex (chars hash)) "implementation manifest hash must be lowercase SHA256" in
  inr hash.

(** The lifetime a package's capability shares: one cell per package, with its two phases. *)
Inductive PackageFunctionPhase := Unactivated | Active | Retired.
#[export] Instance PackageFunctionPhase_eq_dec : EqDecision PackageFunctionPhase.
Proof. solve_decision. Defined.
Record PackageFunctionLifetime := mkLifetime { l_key : OwnerKey; phase : PackageFunctionPhase; source : PackageFunctionPhase }.

(** [HostPackageOwner::mint]; [next] is the process's generation counter. *)
Definition mint (next : Z) (id : string) : string + (Z * PackageFunctionLifetime) :=
  let* _ := require (nonempty id) "invalid host package id" in
  let* next' := ok_or (checked_add next 1) "package generation exhausted" in
  inr (next', mkLifetime (mkOwner id next GamePackage) Unactivated Unactivated).
Definition is_retired (l : PackageFunctionLifetime) : bool := bool_decide (phase l = Retired) || bool_decide (source l = Retired).
Definition claim_source (l : PackageFunctionLifetime) : string + PackageFunctionLifetime :=
  let* _ := require (negb (negb (bool_decide (source l = Unactivated)) || is_retired l)) "package source already registered or retired" in
  inr (mkLifetime (l_key l) (phase l) Active).
Definition retire_source (l : PackageFunctionLifetime) : PackageFunctionLifetime := mkLifetime (l_key l) (phase l) Retired.
(** ** The System V argument registers: the i-th integer goes to the i-th general register, the i-th
    float to the i-th vector register, and what finds no register to the next eight bytes of the stack. *)
Inductive Loc := Gp (i : Z) | Sse (i : Z) | Stack (offset : Z).
#[export] Instance Loc_eq_dec : EqDecision Loc.
Proof. solve_decision. Defined.
Fixpoint assign (g x off : Z) (natives : list string) : list Loc :=
  match natives with
  | [] => []
  | n :: rest =>
      if is_float n
      then if x <? 8 then Sse x :: assign g (x + 1) off rest else Stack off :: assign g (x + 1) (off + 8) rest
      else if g <? 6 then Gp g :: assign (g + 1) x off rest else Stack off :: assign (g + 1) x (off + 8) rest
  end.
Definition is_stack (l : Loc) : bool := match l with Stack _ => true | _ => false end.
Definition locations (a : Abi) : list Loc := assign (b2z (is_member (receiver a))) 0 0 (native <$> parameters a).

Lemma spill_assign natives : forall s off,
  spill (foldl count_slot s natives) = spill s + 8 * countb is_stack (assign (gp s) (sse s) off natives).
Proof.
  induction natives as [|n l IH]; intros [g x p] off; cbn [foldl assign gp sse spill]; [unfold countb; cbn; lia|].
  unfold count_slot, SSE_REGISTERS, GP_REGISTERS; cbn [gp sse spill].
  destruct (is_float n); [destruct (Z.leb_spec 8 x), (Z.ltb_spec x 8)|destruct (Z.leb_spec 6 g), (Z.ltb_spec g 6)]; try lia;
    rewrite countb_cons; cbn [is_stack]; first [rewrite (IH _ off); cbn [gp sse spill]; lia|rewrite (IH _ (off + 8)); cbn [gp sse spill]; lia].
Qed.

(** Where a location may be, given the counters. *)
Lemma assign_bounds natives : forall g x off l, 0 <= g -> 0 <= x -> l ∈ assign g x off natives ->
  match l with
  | Gp i => g <= i < 6
  | Sse i => x <= i < 8
  | Stack o => off <= o /\ (o - off) mod 8 = 0 /\ o + 8 <= off + 8 * countb is_stack (assign g x off natives)
  end.
Proof.
  induction natives as [|n rest IH]; intros g x off l Hg Hx Hl; cbn [assign] in *; [by apply elem_of_nil in Hl|].
  destruct (is_float n); [destruct (Z.ltb_spec x 8)|destruct (Z.ltb_spec g 6)];
    (apply elem_of_cons in Hl as [->|Hl];
     [rewrite ?countb_cons; cbn [is_stack];
      repeat match goal with |- context [countb ?f ?l] => pose proof (countb_nonneg f l); generalize dependent (countb f l); intros end;
      rewrite ?Z.sub_diag; first [lia|split_and!; [lia|done|lia]]
     |apply IH in Hl; [|lia|lia]; rewrite ?countb_cons; cbn [is_stack]; destruct l as [i|i|o]; try lia;
      destruct Hl as (? & Hm & ?); split_and!; try lia;
      first [done|replace (o - off) with (o - (off + 8) + 1 * 8) by lia; by rewrite Z.mod_add by lia]]).
Qed.

Lemma assign_length natives : forall g x off, length (assign g x off natives) = length natives.
Proof. induction natives as [|n l IH]; intros g x off; cbn; [done|]. repeat case_match; cbn; by rewrite IH. Qed.

Lemma assign_NoDup natives : forall g x off, 0 <= g -> 0 <= x -> NoDup (assign g x off natives).
Proof.
  induction natives as [|n rest IH]; intros g x off Hg Hx; cbn [assign]; [constructor|].
  destruct (is_float n); [destruct (Z.ltb_spec x 8)|destruct (Z.ltb_spec g 6)];
    (constructor; [intros Hin; apply assign_bounds in Hin; lia|apply IH; lia]).
Qed.
(** ** What is admitted, without the loops *)
Section Admission.
Context {num : Type} `{JsonNumber num} `{Digest num}.

Definition param_ok (f : NormalizedFunction) (p : Param) : Prop :=
  identifier (name p) = true /\ projection (native p) (projection_ p) false = inr tt /\
  copied_ownership (pr_id (projection_ p)) (ownership p) false (canonical_id f +:+ " parameter " +:+ name p) = inr tt /\
  (mutable p = [] \/ mutable p = ["pre"]) /\ is_atom (native p) = true.
(** The stack a call needs: eight bytes for each argument without a register, in 16-byte steps, with the
    safety buffer as the least. *)
Definition frame_bytes (a : Abi) : Z := Z.max STACK_SAFETY_BUFFER ((8 * countb is_stack (locations a) + 15) / 16 * 16).

Record abi_ok (f : NormalizedFunction) : Prop := mkAbiOk {
  ao_platform : platform (abi f) = PLATFORM;
  ao_receiver : receiver (abi f) = "none" \/ receiver (abi f) = "entity";
  ao_count : Z.of_nat (length (parameters (abi f))) <= MAX_PARAMETERS;
  ao_params : forall p, p ∈ parameters (abi f) -> param_ok f p;
  ao_names : NoDup (name <$> parameters (abi f));
  ao_returns : projection (r_native (returns (abi f))) (r_projection (returns (abi f))) true = inr tt;
  ao_owned : copied_ownership (pr_id (r_projection (returns (abi f)))) (r_ownership (returns (abi f))) true (canonical_id f +:+ " returns") = inr tt;
  ao_stack : stack_copy_bytes (abi f) = frame_bytes (abi f);
  ao_fingerprint : fingerprint (abi f) = fingerprint_of (receiver (abi f)) (r_native (returns (abi f))) (native <$> parameters (abi f));
}.

Lemma mem_In s l : mem s l = true <-> s ∈ l.
Proof. unfold mem. rewrite existsb_elem. split; [intros (x & Hx & ->%String.eqb_eq); done|intros Hs; exists s; by rewrite String.eqb_refl]. Qed.

Lemma mem_not_In s l : negb (mem s l) = true <-> s ∉ l.
Proof. rewrite negb_true_iff, <- mem_In. by destruct (mem s l). Qed.

Lemma check_parameter_inr f st p st' :
  check_parameter (canonical_id f) st p = inr st' <->
  param_ok f p /\ name p ∉ st.1 /\ st' = (name p :: st.1, count_slot st.2 (native p)).
Proof.
  unfold check_parameter, param_ok. rewrite rbind_inr. split.
  - intros (u & Hu & Hk). succeeds. apply andb_true_iff in Hu as [Hid Hn]. apply mem_not_In in Hn.
    repeat match goal with u : unit |- _ => destruct u end. apply orb_true_iff in Ok1. rewrite !bool_decide_eq_true in Ok1. by subst.
  - intros ((Hid & Hp & Ho & Hm & Ha) & Hn & ->). exists tt. rewrite require_inr, Hid. split; [by apply mem_not_In|].
    rewrite Hp. cbn [rbind]. rewrite Ho. cbn [rbind]. replace (bool_decide (mutable p = []) || bool_decide (mutable p = ["pre"])) with true.
    + cbn [require rbind]. by rewrite Ha.
    + symmetry. apply orb_true_iff. by rewrite !bool_decide_eq_true.
Qed.

Lemma check_parameters_inr f l : forall st st',
  rfold (check_parameter (canonical_id f)) st l = inr st' <->
  (forall p, p ∈ l -> param_ok f p) /\ NoDup (name <$> l) /\ (forall p, p ∈ l -> name p ∉ st.1) /\
  st' = (rev (name <$> l) ++ st.1, foldl count_slot st.2 (native <$> l)).
Proof.
  induction l as [|p l IH]; intros [ns s] st'; cbn [rfold fmap list_fmap rev foldl fst snd app].
  - split; [intros [= <-]|intros (_ & _ & _ & ->)]; [|done]. split_and!; [by intros ? ?%elem_of_nil|constructor|by intros ? ?%elem_of_nil|done].
  - rewrite rbind_inr. setoid_rewrite check_parameter_inr. cbn [fst snd]. rewrite NoDup_cons. split.
    + intros (a & (Hp & Hn & ->) & Hl). apply IH in Hl as (Hok & Hnd & Hni & ->). cbn [fst snd] in *. split_and!.
      * by intros q [->|?]%elem_of_cons; auto.
      * intros (q & E & Hq)%list_elem_of_fmap. apply (Hni q Hq). rewrite E. by left.
      * done.
      * intros q [->|Hq]%elem_of_cons; [done|]. intros Hin. apply (Hni q Hq). by right.
      * by rewrite <- app_assoc.
    + intros (Hok & (Hni & Hnd) & Hns & ->). eexists. split; [split_and!; [apply Hok; by left|apply Hns; by left|done]|]. apply IH. cbn [fst snd]. split_and!.
      * intros q Hq. apply Hok. by right.
      * done.
      * intros q Hq [E|Hin]%elem_of_cons; [apply Hni; rewrite <- E; by apply list_elem_of_fmap_2|]. apply (Hns q); [by right|done].
      * by rewrite <- app_assoc.
Qed.

Lemma stack_of_frame a : stack_of (foldl count_slot (slots_init (is_member (receiver a))) (native <$> parameters a)) = frame_bytes a.
Proof. unfold stack_of, frame_bytes, locations. by rewrite (spill_assign _ _ 0). Qed.

Lemma frame_bytes_bounds a : Z.of_nat (length (parameters a)) <= MAX_PARAMETERS ->
  8 * countb is_stack (locations a) <= frame_bytes a /\ 128 <= frame_bytes a <= MAX_STACK_BYTES /\ frame_bytes a mod 16 = 0.
Proof.
  intros Hn. unfold frame_bytes, MAX_STACK_BYTES, STACK_SAFETY_BUFFER.
  assert (0 <= countb is_stack (locations a) <= 32) as Hc.
  { split; [apply countb_nonneg|]. etrans; [apply countb_le_length|]. unfold locations. rewrite assign_length, length_fmap. unfold MAX_PARAMETERS in Hn. lia. }
  revert Hc. generalize (countb is_stack (locations a)). intros k Hk.
  pose proof (Z.div_mod (8 * k + 15) 16 ltac:(lia)). pose proof (Z.mod_pos_bound (8 * k + 15) 16 ltac:(lia)).
  split_and!; [lia|lia|lia|]. destruct (Z.max_spec 128 ((8 * k + 15) / 16 * 16)) as [[_ ->]|[_ ->]]; [apply Z.mod_mul; lia|done].
Qed.

Lemma check_abi_inr f : check_abi f = inr tt <-> abi_ok f.
Proof.
  unfold check_abi. rewrite rbind_inr. split.
  - intros (u & Hu & Hk). succeeds. apply check_parameters_inr in Ok0 as (Hok & Hnd & _ & ->). bool_to_prop.
    repeat match goal with u : unit |- _ => destruct u end.
    repeat match goal with E : String.eqb _ _ = true |- _ => apply String.eqb_eq in E end.
    cbn [snd] in *. rewrite stack_of_frame in *.
    assert (receiver (abi f) ∈ RECEIVERS) as Hr by by apply mem_In. unfold RECEIVERS in Hr. rewrite !elem_of_cons, elem_of_nil in Hr.
    constructor; try done; naive_solver.
  - intros []. exists tt. rewrite require_inr. rewrite ao_platform0. split; [apply andb_true_iff; split; [done|]; apply mem_In; unfold RECEIVERS; in_list|].
    rewrite rbind_inr. exists tt. rewrite require_inr. split.
    { apply andb_true_iff. split; [by apply Z.leb_le|]. apply Z.leb_le. unfold MAX_CIF_ARGUMENTS, MAX_PARAMETERS, b2z in *. destruct (is_member _); lia. }
    rewrite rbind_inr. eexists. split; [apply check_parameters_inr; split_and!; [done..|by intros ? _ ?%elem_of_nil|done]|]. cbn [snd].
    rewrite ao_returns0. cbn [rbind]. rewrite ao_owned0. cbn [rbind]. rewrite stack_of_frame, ao_stack0, Z.eqb_refl, andb_true_r.
    destruct (frame_bytes_bounds (abi f) ao_count0) as (_ & [_ Hle] & _). apply Z.leb_le in Hle. rewrite Hle. cbn [require rbind].
    by rewrite ao_fingerprint0, String.eqb_refl.
Qed.
End Admission.
(** ** Reading serialized fields back *)
Section Fields.
Context {num : Type} `{JsonNumberLaws num} {D : Digest num} {DL : DigestLaws num}.
Notation Value := (Json.Value num).

Definition field (k : string) (v : Value) : option Value := match v with Object m => get m k | _ => None end.

Lemma field_obj l k : NoDup l.*1 -> field k (obj l) = get l k.
Proof. intros Hnd. cbn. rewrite json_get_extend by done. by destruct (get l k). Qed.

Lemma field_remove k k' (v : Value) : k' <> k -> field k' (remove k v) = field k' v.
Proof.
  intros Hne. destruct v as [| | | | |m]; try done. cbn. induction m as [|[k1 a] m IH]; [done|]. cbn.
  destruct (String.eqb_spec k1 k) as [->|]; cbn [negb]; [|cbn; by rewrite IH]. rewrite IH. by destruct (String.eqb_spec k' k).
Qed.

Lemma uint_inj a b : 0 <= a <= u64_max -> 0 <= b <= u64_max -> uint (num := num) a = uint b -> a = b.
Proof. intros Ha Hb [= E]. pose proof (from_u64_exact a Ha) as Ea. rewrite E, (from_u64_exact b Hb) in Ea. congruence. Qed.

Lemma str_inj a b : str (num := num) a = str b -> a = b.
Proof. by intros [= ->]. Qed.

Lemma map_inj_on {A B} (f : A -> B) (P : A -> Prop) (l l' : list A) :
  (forall x y, P x -> P y -> f x = f y -> x = y) -> Forall P l -> Forall P l' -> f <$> l = f <$> l' -> l = l'.
Proof.
  intros Hf Hl. revert l'. induction Hl as [|x l Hx Hl IH]; intros [|y l'] Hl' E; try done. apply Forall_cons in Hl' as [Hy Hl'].
  injection E as E1 E2. f_equal; [by apply Hf|by apply IH].
Qed.

Lemma strs_inj a b : strs (num := num) a = strs b -> a = b.
Proof. intros [= E]. revert E. apply (map_inj_on str (fun _ => True)); [intros x y _ _; apply str_inj|by apply Forall_true..]. Qed.

(** The widths of the integer fields, which the types of the program guarantee. *)
Definition u32_ok (z : Z) : Prop := 0 <= z <= u64_max.
Definition validator_width (v : Validator) : Prop :=
  match string_xref v with Some x => u32_ok (at_ x) /\ u32_ok (disp_off x) /\ u32_ok (instr_len x) | None => True end.
Definition target_width (t : NormalizedTarget) : Prop :=
  match t with
  | Signature _ _ _ _ c t => validator_width c /\ validator_width t
  | Virtual _ _ i _ _ c t => u32_ok i /\ validator_width c /\ validator_width t
  end.
Definition abi_width (a : Abi) : Prop :=
  u32_ok (stack_copy_bytes a) /\ Forall (fun p => u32_ok (pr_version (projection_ p))) (parameters a) /\ u32_ok (pr_version (r_projection (returns a))).
Definition function_width (f : NormalizedFunction) : Prop := target_width (target f) /\ abi_width (abi f) /\ u32_ok (version (policy f)).
Definition bundle_width (b : NormalizedBundle) : Prop := u32_ok (schema_version b) /\ Forall function_width (functions b).
End Fields.

(** Keys that are literals, each once. *)
Ltac literal_keys := refine (bool_decide_unpack _ _); vm_compute; exact I.

(** From equal objects, the equality of the named fields. *)
Ltac eq_field E k :=
  let F := fresh "F" in
  assert (F := f_equal (field k) E); rewrite ?field_remove in F by done;
  rewrite !field_obj in F by literal_keys;
  cbn [app get String.eqb Ascii.eqb Bool.eqb] in F.

(** Equalities of leaves from equalities of the fields that hold them. *)
Ltac leaf :=
  repeat match goal with
  | F : Some _ = Some _ |- _ => apply (inj Some) in F
  | F : str _ = str _ |- _ => apply str_inj in F
  | F : strs _ = strs _ |- _ => apply strs_inj in F
  | F : Array _ = Array _ |- _ => injection F as F
  | F : uint _ = uint _ |- _ => apply uint_inj in F; [|assumption..]
  end.

Section Injective.
Context {num : Type} `{JsonNumberLaws num} {D : Digest num} {DL : DigestLaws num}.

Lemma projection_value_inj p q : u32_ok (pr_version p) -> u32_ok (pr_version q) ->
  projection_value (num := num) p = projection_value q -> p = q.
Proof. intros Hp Hq E. unfold projection_value in E. eq_field E "id". eq_field E "version". leaf. destruct p, q. cbn in *. by subst. Qed.

Lemma xref_value_inj x y : u32_ok (at_ x) /\ u32_ok (disp_off x) /\ u32_ok (instr_len x) -> u32_ok (at_ y) /\ u32_ok (disp_off y) /\ u32_ok (instr_len y) ->
  xref_value (num := num) x = xref_value y -> x = y.
Proof.
  intros (? & ? & ?) (? & ? & ?) E. unfold xref_value in E. eq_field E "at". eq_field E "dispOff". eq_field E "instrLen". eq_field E "expect". leaf.
  destruct x, y. cbn in *. by subst.
Qed.

Lemma opt_str_inj (a b : option string) : str (num := num) <$> a = str <$> b -> a = b.
Proof. destruct a, b; cbn; try done. by intros [= ->]. Qed.

(** A field that is left out when it is [None] reads back as it was. *)
Lemma get_present k k' (o : option (Json.Value num)) l :
  get (present k o ++ l) k' = if String.eqb k' k then match o with Some v => Some v | None => get l k' end else get l k'.
Proof. destruct o; cbn; [done|]. by destruct (String.eqb k' k). Qed.

Lemma NoDup_present k (o : option (Json.Value num)) l : k ∉ l.*1 -> NoDup l.*1 -> NoDup (present k o ++ l).*1.
Proof. destruct o; cbn; [|done]. by constructor. Qed.

Lemma validator_value_inj v w : validator_width v -> validator_width w -> validator_value (num := num) v = validator_value w -> v = w.
Proof.
  intros Hv Hw E.
  assert (forall k, field k (validator_value (num := num) v) = field k (validator_value w)) as F by by rewrite E.
  assert (forall u, NoDup (present "prologue" (str (num := num) <$> prologue u) ++ present "string-xref" (xref_value <$> string_xref u)
       ++ present "vtable-member" (str <$> vtable_member u)).*1) as Hnd.
  { intros u. destruct (prologue u), (string_xref u), (vtable_member u); literal_keys. }
  pose proof (F "prologue") as F1. pose proof (F "string-xref") as F2. pose proof (F "vtable-member") as F3. clear F E.
  unfold validator_value in *. rewrite !field_obj in * by done.
  rewrite !get_present in *. cbn [String.eqb Ascii.eqb Bool.eqb] in *.
  destruct v as [p x m], w as [p' x' m']. cbn [prologue string_xref vtable_member] in *.
  assert (p = p') as ->. { apply opt_str_inj. destruct p, p'; cbn in *; try congruence; destruct x, x', m, m'; cbn in *; congruence. }
  assert (m = m') as ->. { apply opt_str_inj. destruct m, m'; cbn in *; try congruence. }
  assert (x = x') as ->; [|done]. destruct x as [x|], x' as [x'|]; cbn in *; try (destruct m'; cbn in *; congruence).
  f_equal. apply (inj Some) in F2. by apply xref_value_inj.
Qed.

Lemma target_value_inj t u : target_width t -> target_width u -> target_value (num := num) t = target_value u -> t = u.
Proof.
  intros Ht Hu E. destruct t as [m p r d c v|m cl i r d c v], u as [m' p' r' d' c' v'|m' cl' i' r' d' c' v']; cbn [target_width] in Ht, Hu;
    unfold target_value in E; eq_field E "kind"; try discriminate F;
    destruct_and?; eq_field E "module"; eq_field E "resolve"; eq_field E "derivation"; eq_field E "candidateValidate"; eq_field E "targetValidate";
    [eq_field E "pattern"|eq_field E "class"; eq_field E "index"]; leaf;
    repeat match goal with F : validator_value _ = validator_value _ |- _ => apply validator_value_inj in F; [|assumption..] end; by subst.
Qed.

Ltac projections := repeat match goal with F : projection_value _ = projection_value _ |- _ => apply projection_value_inj in F; [|assumption..] end.

Lemma parameter_value_inj p q : u32_ok (pr_version (projection_ p)) -> u32_ok (pr_version (projection_ q)) ->
  parameter_value (num := num) p = parameter_value q -> p = q.
Proof.
  intros Hp Hq E. unfold parameter_value in E. destruct p as [n t pr o mu], q as [n' t' pr' o' mu']. cbn [name native projection_ ownership mutable] in *.
  destruct o as [o|], o' as [o'|]; cbn [fmap option_fmap option_map present app] in E;
    eq_field E "ownership"; try discriminate; eq_field E "name"; eq_field E "native"; eq_field E "projection"; eq_field E "mutable"; leaf; projections; by subst.
Qed.

Lemma returns_value_inj p q : u32_ok (pr_version (r_projection p)) -> u32_ok (pr_version (r_projection q)) ->
  returns_value (num := num) p = returns_value q -> p = q.
Proof.
  intros Hp Hq E. unfold returns_value in E. destruct p as [t pr o], q as [t' pr' o']. cbn [r_native r_projection r_ownership] in *.
  destruct o as [o|], o' as [o'|]; cbn [fmap option_fmap option_map present app] in E;
    eq_field E "ownership"; try discriminate; eq_field E "native"; eq_field E "projection"; leaf; projections; by subst.
Qed.

Lemma abi_value_inj a b : abi_width a -> abi_width b -> abi_value (num := num) a = abi_value b -> a = b.
Proof.
  intros (Hs & Hps & Hr) (Hs' & Hps' & Hr') E. unfold abi_value in E. eq_field E "platform". eq_field E "receiver". eq_field E "fingerprint".
  eq_field E "stackCopyBytes". eq_field E "parameters". eq_field E "returns". leaf. apply returns_value_inj in F4; [|done..].
  apply (map_inj_on _ _ _ _ parameter_value_inj) in F3; [|done..]. destruct a, b. cbn in *. by subst.
Qed.

Lemma policy_value_inj p q : u32_ok (version p) -> u32_ok (version q) -> policy_value (num := num) p = policy_value q -> p = q.
Proof.
  intros Hp Hq E. unfold policy_value in E. eq_field E "id". eq_field E "version". eq_field E "contractHash". eq_field E "surfaces".
  eq_field E "selfCall". eq_field E "suppression". leaf. destruct p, q. cbn in *. by subst.
Qed.

Lemma function_value_inj f g : function_width f -> function_width g -> function_value (num := num) f = function_value g -> f = g.
Proof.
  intros (Ht & Ha & Hp) (Ht' & Ha' & Hp') E. unfold function_value in E. eq_field E "localName". eq_field E "canonicalId". eq_field E "contractHash".
  eq_field E "target". eq_field E "abi". eq_field E "policy". eq_field E "requirement". leaf.
  apply target_value_inj in F2; [|done..]. apply abi_value_inj in F3; [|done..]. apply policy_value_inj in F4; [|done..]. destruct f, g. cbn in *. by subst.
Qed.

(** All of a bundle but its hash. *)
Lemma bundle_content_inj b c : bundle_width b -> bundle_width c ->
  remove "bundleHash" (bundle_value (num := num) b) = remove "bundleHash" (bundle_value c) ->
  schema_version b = schema_version c /\ owner_id b = owner_id c /\ functions b = functions c.
Proof.
  intros (Hs & Hf) (Hs' & Hf') E. unfold bundle_value in E. eq_field E "schemaVersion". eq_field E "ownerId". eq_field E "functions". leaf.
  apply (map_inj_on _ _ _ _ function_value_inj) in F1; done.
Qed.
End Injective.
(** ** Accepted bundles *)
Section Accepted.
Context {num : Type} `{JsonNumberLaws num} {D : Digest num} {DL : DigestLaws num}.
Notation Value := (Json.Value num).

Record function_ok (owner : string) (f : NormalizedFunction) : Prop := mkFunctionOk {
  fo_identifier : identifier (local_name f) = true;
  fo_canonical : canonical_id f = owner +:+ "::" +:+ local_name f;
  fo_requirement : requirement f = "optional" \/ requirement f = "required";
  fo_target : validate_target (target f) = inr tt;
  fo_abi : abi_ok f;
  fo_policy : check_policy f = inr tt;
}.

Lemma check_function_inr owner prev f x : check_function owner prev f = inr x <-> function_ok owner f /\ str_lt prev (local_name f) = true /\ x = local_name f.
Proof.
  unfold check_function. rewrite rbind_inr. split.
  - intros (u & Hu & Hk). succeeds. repeat match goal with u : unit |- _ => destruct u end. bool_to_prop.
    repeat match goal with E : String.eqb _ _ = true |- _ => apply String.eqb_eq in E end. split; [|by subst].
    apply check_abi_inr in Ok1. constructor; try done. apply mem_In in Ok. rewrite !elem_of_cons, elem_of_nil in Ok. tauto.
  - intros ([] & Hlt & ->). exists tt. rewrite require_inr, fo_identifier0, Hlt, fo_canonical0, String.eqb_refl. split; [done|].
    replace (mem (requirement f) ["optional"; "required"]) with true by (symmetry; apply mem_In; in_list). cbn [require rbind].
    rewrite fo_target0. cbn [rbind]. apply check_abi_inr in fo_abi0. rewrite fo_abi0. cbn [rbind]. by rewrite fo_policy0.
Qed.

Definition lt_str (a b : string) : Prop := str_lt a b = true.
#[export] Instance lt_str_trans : Transitive lt_str.
Proof.
  unfold lt_str, str_lt. intros a b c Hab%negb_true_iff%bool_decide_eq_false Hbc%negb_true_iff%bool_decide_eq_false.
  apply negb_true_iff, bool_decide_eq_false. intros Hca. destruct (total String.le a b) as [Hle|?]; [|done]. apply Hbc. by trans a.
Qed.
Lemma lt_str_irrefl a : ~ lt_str a a.
Proof. unfold lt_str, str_lt. rewrite negb_true_iff, bool_decide_eq_false. intros Hn. by apply Hn. Qed.

Lemma check_functions_inr owner l : forall prev,
  (exists x, rfold (check_function owner) prev l = inr x) <->
  (forall f, f ∈ l -> function_ok owner f) /\ Sorted lt_str (prev :: (local_name <$> l)).
Proof.
  induction l as [|f l IH]; intros prev; cbn [rfold fmap list_fmap].
  - split; [|by exists prev]. split; [by intros ? ?%elem_of_nil|repeat constructor].
  - setoid_rewrite rbind_inr. setoid_rewrite check_function_inr. split.
    + intros (x & a & (Hf & Hlt & ->) & Hl). destruct (proj1 (IH (local_name f))) as [Hok Hs]; [by exists x|]. split.
      * by intros g [->|?]%elem_of_cons; auto.
      * constructor; [done|]. by constructor.
    + intros (Hok & Hs). apply Sorted_inv in Hs as [Hs Hh]. apply HdRel_inv in Hh.
      destruct (proj2 (IH (local_name f))) as [x Hx]; [split; [intros g Hg; apply Hok; by right|done]|].
      exists x, (local_name f). split; [split_and!; [apply Hok; by left|done..]|done].
Qed.

Record accepted (owner : string) (summary : Value) (permissions : list string) (b : NormalizedBundle) : Prop := mkAccepted {
  ac_schema : schema_version b = 2;
  ac_owner : owner_id b = owner;
  ac_nonempty : nonempty owner = true;
  ac_functions : forall f, f ∈ functions b -> function_ok owner f;
  ac_sorted : Sorted lt_str (local_name <$> functions b);
  ac_hash : hash (remove "bundleHash" (bundle_value b)) = bundle_hash b;
  ac_summary : value_eqb summary (summary_value b) = true;
  ac_calls : forall f, f ∈ functions b -> has_surface (policy f) "call" = true -> "engine:calls" ∈ permissions;
  ac_hooks : forall f, f ∈ functions b -> has_surface (policy f) "pre" = true \/ has_surface (policy f) "post" = true -> "engine:hooks" ∈ permissions;
}.

Lemma lt_empty s : identifier s = true -> lt_str "" s.
Proof. unfold identifier, lt_str. by destruct s. Qed.

Lemma check_permission_inr b permissions s p :
  check_permission b permissions (s, p) = inr tt <-> forall f, f ∈ functions b -> has_surface (policy f) s = true -> p ∈ permissions.
Proof.
  unfold check_permission. cbn [fst snd]. destruct (existsb _ _) eqn:E.
  - rewrite require_inr, mem_In. apply existsb_elem in E as (f & Hf & Hs). split; [done|]. intros Hall. by apply (Hall f).
  - split; [|done]. intros _ f Hf Hs. rewrite existsb_none in E. by rewrite (E f Hf) in Hs.
Qed.

(** A bundle is accepted exactly when its text reads as one that meets the contract: sorted identifiers,
    canonical names, valid targets and layouts, generic policies, every hash that of the content, the
    manifest's summary, and the permissions its surfaces need. *)
Theorem contract_parse_exact (from_str : string -> string + NormalizedBundle) text owner (summary : Value) permissions b :
  parse from_str text owner summary permissions = inr b <-> from_str text = inr b /\ accepted owner summary permissions b.
Proof.
  unfold parse. rewrite rbind_inr. split.
  - intros (b' & Hb & Hk). succeeds. subst b'. bool_to_prop. repeat match goal with E : String.eqb _ _ = true |- _ => apply String.eqb_eq in E end.
    destruct (proj1 (check_functions_inr owner (functions b) "")) as [Hok Hs]; [by eexists|]. apply Sorted_inv in Hs as [Hs _]. split; [done|].
    rewrite reach_inr in Ok3. unfold surface_permissions in Ok3.
    assert (forall s q, (s, q) ∈ surface_permissions -> forall f, f ∈ functions b -> has_surface (policy f) s = true -> q ∈ permissions) as Hperm.
    { intros s q Hsq. by apply check_permission_inr, Ok3. }
    constructor; try done.
    + intros f Hf. apply (Hperm "call"); [by left|done].
    + intros f Hf [Hp|Hp]; [apply (Hperm "pre" _ ltac:(by right; left) f Hf Hp)|apply (Hperm "post" _ ltac:(by right; right; left) f Hf Hp)].
  - intros [Hb []]. exists b. rewrite map_err_inr. split; [done|]. rewrite ac_schema0, ac_owner0, String.eqb_refl, ac_nonempty0. cbn [Z.eqb andb Pos.eqb require rbind].
    destruct (proj2 (check_functions_inr owner (functions b) "")) as [x Hx].
    { split; [done|]. constructor; [done|]. destruct (functions b) as [|f l]; constructor. apply lt_empty, (ac_functions0 f). by left. }
    rewrite Hx. cbn [rbind]. rewrite ac_hash0, String.eqb_refl. cbn [require rbind]. rewrite ac_summary0. cbn [require rbind].
    rewrite rbind_inr. exists tt. split; [|done]. apply reach_inr. unfold surface_permissions. intros sp.
    rewrite !elem_of_cons, elem_of_nil. intros [->|[->|[->|[]]]]; apply check_permission_inr; eauto.
Qed.

(** The call frame holds every argument. For each function of an accepted bundle the arguments have
    pairwise different places in the System V convention, a member's receiver keeping the first general
    register; those on the stack are aligned and lie within the bytes that are copied, of which there
    are at least 128, at most 256, in 16-byte steps. *)
Theorem contract_frame_fits (from_str : string -> string + NormalizedBundle) text owner (summary : Value) permissions b f :
  parse from_str text owner summary permissions = inr b -> f ∈ functions b ->
  let a := abi f in
  length (locations a) = length (parameters a) /\ NoDup (locations a) /\
  (forall l, l ∈ locations a ->
     match l with
     | Gp i => b2z (is_member (receiver a)) <= i < GP_REGISTERS
     | Sse i => 0 <= i < SSE_REGISTERS
     | Stack o => 0 <= o /\ o mod 8 = 0 /\ o + 8 <= stack_copy_bytes a
     end) /\
  STACK_SAFETY_BUFFER <= stack_copy_bytes a <= MAX_STACK_BYTES /\ stack_copy_bytes a mod 16 = 0.
Proof.
  intros Hp Hf a. apply contract_parse_exact in Hp as [_ Hacc]. destruct (fo_abi _ _ (ac_functions _ _ _ _ Hacc f Hf)).
  destruct (frame_bytes_bounds (abi f) ao_count0) as (Hall & Hb & Hm). subst a. rewrite ao_stack0.
  assert (0 <= b2z (is_member (receiver (abi f)))) by (unfold b2z; by destruct (is_member _)). unfold locations in *. split_and!; try lia.
  - by rewrite assign_length, length_fmap.
  - by apply assign_NoDup.
  - intros l Hl. apply assign_bounds in Hl; [|done..]. unfold GP_REGISTERS, SSE_REGISTERS. destruct l as [i'|i'|o]; [done..|].
    rewrite Z.sub_0_r in Hl. destruct Hl as (? & ? & ?). split_and!; [done|done|]. rewrite Z.add_0_l in *. etrans; [done|exact Hall].
  - apply Hb.
Qed.

(** The bundle hash binds the bundle. Two accepted bundles with the same hash are the same bundle, or
    two different values with the same hash are at hand. *)
Theorem contract_hash_binds (from_str : string -> string + NormalizedBundle) t1 t2 o1 o2 (s1 s2 : Value) p1 p2 b1 b2 :
  parse from_str t1 o1 s1 p1 = inr b1 -> parse from_str t2 o2 s2 p2 = inr b2 -> bundle_width b1 -> bundle_width b2 ->
  bundle_hash b1 = bundle_hash b2 ->
  b1 = b2 \/ exists v1 v2 : Value, v1 <> v2 /\ hash v1 = hash v2.
Proof.
  intros [_ H1]%contract_parse_exact [_ H2]%contract_parse_exact W1 W2 E. rewrite <- (ac_hash _ _ _ _ H1), <- (ac_hash _ _ _ _ H2) in E.
  destruct (decide (functions b1 = functions b2 /\ owner_id b1 = owner_id b2)) as [[Ef Eo]|Hne].
  - left. assert (bundle_hash b1 = bundle_hash b2) as Eh by by rewrite <- (ac_hash _ _ _ _ H1), <- (ac_hash _ _ _ _ H2).
    pose proof (ac_schema _ _ _ _ H1) as S1. pose proof (ac_schema _ _ _ _ H2) as S2. destruct b1, b2. cbn in *. by subst.
  - right. eexists _, _. split; [|exact E]. intros Ev. apply Hne. apply bundle_content_inj in Ev as (_ & ? & ?); done.
Qed.

(** ** Names *)
Lemma split_last {A} (x : A) a b a' b' : x ∉ b -> x ∉ b' -> a ++ x :: b = a' ++ x :: b' -> a = a' /\ b = b'.
Proof.
  intros Hb Hb' E. destruct (app_eq_inv _ _ _ _ E) as [(k & -> & Ek)|(k & -> & Ek)]; destruct k as [|y k]; simplify_list_eq; try done; exfalso; set_solver.
Qed.

Lemma split_first {A} (x : A) a b a' b' : x ∉ a -> x ∉ a' -> a ++ x :: b = a' ++ x :: b' -> a = a' /\ b = b'.
Proof.
  intros Ha Ha' E. destruct (app_eq_inv _ _ _ _ E) as [(k & -> & Ek)|(k & -> & Ek)]; destruct k as [|y k]; simplify_list_eq; try done; exfalso; set_solver.
Qed.

Lemma chars_app a b : chars (a +:+ b) = chars a ++ chars b.
Proof. unfold chars. induction a as [|c a IH]; [done|]. cbn. by rewrite <- IH. Qed.

Lemma chars_inj a b : chars a = chars b -> a = b.
Proof. intros E. by rewrite <- (Stdlib.Strings.String.string_of_list_ascii_of_string a), <- (Stdlib.Strings.String.string_of_list_ascii_of_string b); f_equal. Qed.
Definition separators : list ascii := [":"%char; "("%char; ","%char; ")"%char].
Definition plain (s : string) : bool := negb (String.eqb s "") && forallb (fun c => negb (existsb (Ascii.eqb c) separators)) (chars s).

Lemma plain_sep s c : plain s = true -> c ∈ separators -> c ∉ chars s.
Proof.
  unfold plain. intros [_ Hp]%andb_true_iff Hc Hin. rewrite forallb_elem in Hp. specialize (Hp c Hin). apply negb_true_iff in Hp.
  rewrite existsb_none in Hp. specialize (Hp c Hc). by rewrite Ascii.eqb_refl in Hp.
Qed.

Lemma identifier_colon s : identifier s = true -> ":"%char ∉ chars s.
Proof.
  unfold identifier. destruct (chars s) as [|x c]; [done|]. intros [[Hx Hc]%andb_true_iff _]%andb_true_iff Hin.
  apply elem_of_cons in Hin as [<-|Hin]; [by vm_compute in Hx|]. rewrite forallb_elem in Hc. by specialize (Hc _ Hin).
Qed.

Lemma canonical_inj o1 o2 l1 l2 : identifier l1 = true -> identifier l2 = true -> o1 +:+ "::" +:+ l1 = o2 +:+ "::" +:+ l2 -> o1 = o2 /\ l1 = l2.
Proof.
  intros H1%identifier_colon H2%identifier_colon E. apply (f_equal chars) in E. rewrite !chars_app in E.
  change (chars "::") with ([":"%char] ++ [":"%char]) in E. rewrite <- !app_assoc, !(app_assoc (chars _) [_]) in E. cbn [app] in E.
  apply split_last in E as [E El]; [|done..]. apply app_inj_tail in E as [E _]. split; by apply chars_inj.
Qed.

Lemma atom_plain s : is_atom s = true -> plain s = true.
Proof.
  unfold is_atom. intros (a & Ha & <-%String.eqb_eq)%existsb_elem. unfold ATOMS in Ha.
  repeat (apply elem_of_cons in Ha as [->|Ha]; [done|]). by apply elem_of_nil in Ha.
Qed.

Lemma projection_plain t p ret : projection t p ret = inr tt -> plain t = true.
Proof.
  unfold projection. rewrite require_inr. intros [_ Hv]%andb_true_iff.
  destruct (String.eqb (pr_id p) "void"); [by apply andb_true_iff in Hv as [_ ->%String.eqb_eq]|].
  destruct (String.eqb (pr_id p) "bool"); [by apply String.eqb_eq in Hv as ->|].
  destruct (mem _ ["entity"; _; _; _; _]); [by apply String.eqb_eq in Hv as ->|].
  destruct (mem _ _) eqn:Em; [|done]. apply String.eqb_eq in Hv as ->. apply mem_In in Em.
  repeat (apply elem_of_cons in Em as [->|Em]; [done|]). by apply elem_of_nil in Em.
Qed.

Lemma join_inj l : forall k, (forall s, s ∈ l -> plain s = true) -> (forall s, s ∈ k -> plain s = true) -> join "," l = join "," k -> l = k.
Proof.
  assert (forall s m, plain s = true -> join "," (s :: m) = s +:+ match m with [] => "" | _ => "," +:+ join "," m end) as Hj.
  { intros s [|x m] _; cbn; [|done]. symmetry. by apply chars_inj; rewrite chars_app, app_nil_r. }
  induction l as [|s l IH]; intros [|t k] Hl Hk E; [done| | |].
  - exfalso. rewrite Hj in E by (apply Hk; by left). pose proof (Hk t ltac:(by left)) as Ht. by destruct t.
  - exfalso. rewrite Hj in E by (apply Hl; by left). pose proof (Hl s ltac:(by left)) as Ht. by destruct s.
  - pose proof (Hl s ltac:(by left)) as Hs. pose proof (Hk t ltac:(by left)) as Ht. rewrite !Hj in E by done.
    assert (s = t /\ join "," l = join "," k) as [-> Ej].
    { apply (f_equal chars) in E. rewrite !chars_app in E.
      pose proof (plain_sep _ _ Hs ltac:(by right; right; left) : ","%char ∉ chars s) as Ns. pose proof (plain_sep _ _ Ht ltac:(by right; right; left) : ","%char ∉ chars t) as Nt.
      destruct l as [|s' l], k as [|t' k].
      - change (chars "") with (@nil ascii) in E. rewrite !app_nil_r in E. split; [by apply chars_inj|done].
      - exfalso. apply Ns. change (chars "") with (@nil ascii) in E. rewrite app_nil_r in E. rewrite E, chars_app. set_solver.
      - exfalso. apply Nt. change (chars "") with (@nil ascii) in E. rewrite app_nil_r in E. rewrite <- E, chars_app. set_solver.
      - rewrite !(chars_app ",") in E. change (chars ",") with [","%char] in E. cbn [app] in E. apply split_first in E as [E1 E2]; [|done..].
        split; by apply chars_inj. }
    f_equal. apply IH; [intros x Hx; apply Hl; by right|intros x Hx; apply Hk; by right|done].
Qed.

Lemma fingerprint_inj r r' t t' l l' : plain r = true -> plain r' = true -> plain t = true -> plain t' = true ->
  (forall s, s ∈ l -> plain s = true) -> (forall s, s ∈ l' -> plain s = true) ->
  fingerprint_of r t l = fingerprint_of r' t' l' -> r = r' /\ t = t' /\ l = l'.
Proof.
  unfold fingerprint_of. intros Hr Hr' Ht Ht' Hl Hl' E. apply (f_equal chars) in E. rewrite !chars_app in E. apply app_inv_head in E.
  change (chars ":") with [":"%char] in E. change (chars "(") with ["("%char] in E. change (chars ")") with [")"%char] in E. cbn [app] in E. injection E as E.
  apply split_first in E as [Er E]; [|apply plain_sep; [done|by left]..].
  apply split_first in E as [Et E]; [|apply plain_sep; [done|by right; left]..].
  apply app_inj_tail in E as [E _]. split_and!; [by apply chars_inj..|]. apply join_inj; [done..|by apply chars_inj].
Qed.
Lemma accepted_plain owner (summary : Value) permissions b f : accepted owner summary permissions b -> f ∈ functions b ->
  plain (receiver (abi f)) = true /\ plain (r_native (returns (abi f))) = true /\ forall s, s ∈ native <$> parameters (abi f) -> plain s = true.
Proof.
  intros Ha Hf. destruct (fo_abi _ _ (ac_functions _ _ _ _ Ha f Hf)). split_and!.
  - by destruct ao_receiver0 as [->| ->].
  - by eapply projection_plain.
  - intros s (p & -> & Hp)%list_elem_of_fmap. apply atom_plain. by apply ao_params0.
Qed.

(** Names and fingerprints say what they name. A canonical id belongs to one owner and one local name,
    and within a bundle to one function; functions with the same fingerprint have the same receiver,
    the same machine types and so the same call frame. *)
Theorem contract_identities (from_str : string -> string + NormalizedBundle) t1 t2 o1 o2 (s1 s2 : Value) p1 p2 b1 b2 f g :
  parse from_str t1 o1 s1 p1 = inr b1 -> parse from_str t2 o2 s2 p2 = inr b2 -> f ∈ functions b1 -> g ∈ functions b2 ->
  (canonical_id f = canonical_id g -> o1 = o2 /\ local_name f = local_name g /\ (b1 = b2 -> f = g)) /\
  (fingerprint (abi f) = fingerprint (abi g) ->
     receiver (abi f) = receiver (abi g) /\ r_native (returns (abi f)) = r_native (returns (abi g)) /\
     native <$> parameters (abi f) = native <$> parameters (abi g) /\
     locations (abi f) = locations (abi g) /\ stack_copy_bytes (abi f) = stack_copy_bytes (abi g)).
Proof.
  intros [_ H1]%contract_parse_exact [_ H2]%contract_parse_exact Hf Hg.
  pose proof (ac_functions _ _ _ _ H1 f Hf) as Of. pose proof (ac_functions _ _ _ _ H2 g Hg) as Og. split.
  - rewrite (fo_canonical _ _ Of), (fo_canonical _ _ Og). intros [Eo El]%canonical_inj; [|apply Of|apply Og]. split_and!; [done..|]. intros <-.
    pose proof (Sorted_StronglySorted lt_str _ (ac_sorted _ _ _ _ H1)) as Hs. clear -Hf Hg El Hs.
    induction (functions b1) as [|h l IH]; [by apply elem_of_nil in Hf|]. cbn in Hs. apply StronglySorted_inv in Hs as [Hs Hall].
    assert (forall x, x ∈ l -> local_name x = local_name h -> False) as Hno.
    { intros x Hx E. rewrite Forall_forall in Hall. apply (lt_str_irrefl (local_name h)). rewrite <- E at 2. apply Hall. by apply list_elem_of_fmap_2. }
    apply elem_of_cons in Hf as [->|Hf], Hg as [->|Hg]; [done| | |by apply IH]; exfalso; by eapply Hno.
  - intros E. destruct (accepted_plain _ _ _ _ _ H1 Hf) as (R1 & T1 & N1). destruct (accepted_plain _ _ _ _ _ H2 Hg) as (R2 & T2 & N2).
    destruct (fo_abi _ _ Of), (fo_abi _ _ Og). rewrite ao_fingerprint0, ao_fingerprint1 in E.
    apply fingerprint_inj in E as (Er & Et & En); [|done..]. rewrite ao_stack0, ao_stack1. unfold frame_bytes, locations. by rewrite Er, En.
Qed.

Lemma rights_inr f p : check_rights f p = inr tt -> ownership p = Some "native-observed" -> mutable p = [] /\ has_surface (policy f) "call" = false.
Proof.
  unfold check_rights, owned_as. intros Hr Ho. succeeds. rewrite Ho in *. rewrite bool_decide_true in * by done. cbn [andb] in *.
  bool_to_prop. split; [by destruct (mutable p)|done].
Qed.

(** No bundle grants itself more than its plugin was given. In an accepted bundle the policy of every
    function is the generic one; calling one needs the plugin's permission for engine calls, hooking one
    that for hooks; a parameter can be edited only by hooks that run before the call; and what the engine
    only shows is neither edited, nor supplied by a caller, nor replaced on return. *)
Theorem contract_rights (from_str : string -> string + NormalizedBundle) text owner (summary : Value) permissions b f :
  parse from_str text owner summary permissions = inr b -> f ∈ functions b ->
  let pol := policy f in
  id pol = "generic.v2" /\ surfaces pol <> [] /\ (forall s, s ∈ surfaces pol -> s = "call" \/ s = "pre" \/ s = "post") /\
  ("call" ∈ surfaces pol -> "engine:calls" ∈ permissions) /\ ("pre" ∈ surfaces pol \/ "post" ∈ surfaces pol -> "engine:hooks" ∈ permissions) /\
  (suppression pol <> "none" -> "pre" ∈ surfaces pol) /\
  (forall p, p ∈ parameters (abi f) ->
     (mutable p <> [] -> "pre" ∈ surfaces pol) /\
     (ownership p = Some "native-observed" -> mutable p = [] /\ "call" ∉ surfaces pol)) /\
  (r_ownership (returns (abi f)) = Some "native-observed" -> "call" ∉ surfaces pol /\ suppression pol = "none").
Proof.
  intros [_ H1]%contract_parse_exact Hf pol. subst pol. pose proof (ac_calls _ _ _ _ H1 f Hf) as Hc. pose proof (ac_hooks _ _ _ _ H1 f Hf) as Hh.
  pose proof (fo_policy _ _ (ac_functions _ _ _ _ H1 f Hf)) as Hpol. unfold check_policy, validate_policy in Hpol. succeeds. bool_to_prop.
  unfold has_surface in *. rewrite reach_inr in Ok1.
  repeat match goal with E : String.eqb _ _ = true |- _ => apply String.eqb_eq in E end.
  assert (forall s, s ∈ surfaces (policy f) <-> mem s (surfaces (policy f)) = true) as Hm by (intros; symmetry; apply mem_In).
  split_and!.
  - done.
  - intros E. by rewrite <- H7, E in H2.
  - intros s Hs. rewrite <- H7 in Hs. apply elem_of_filterb in Hs as [_ Hs]. revert Hs. rewrite !elem_of_cons, elem_of_nil. tauto.
  - by rewrite Hm.
  - by rewrite !Hm.
  - intros Hs. apply Hm. destruct (mem "pre" _); [done|]. by apply String.eqb_eq in H3.
  - intros p Hp. specialize (Ok1 p Hp). split; [|intros Ho; destruct (rights_inr _ _ Ok1 Ho) as [? Hn]; split; [done|]; rewrite Hm; unfold has_surface in Hn; congruence].
    intros Hmut. apply Hm. apply orb_true_iff in Ok0 as [?|Hall]; [done|]. rewrite forallb_elem in Hall. specialize (Hall p Hp). by destruct (mutable p).
  - intros Ho. rewrite Ho in Ok2, Ok3. unfold owned_as in Ok2, Ok3. rewrite bool_decide_true in Ok2, Ok3 by done. cbn [andb] in Ok2, Ok3.
    split; [rewrite Hm; congruence|]. destruct (mem "pre" _); [|by apply String.eqb_eq]. by apply negb_false_iff, String.eqb_eq in Ok3.
Qed.
End Accepted.
End EngineContract.

Module EngineContractExamples.
Import EngineAbi EngineContract JsonExamples.

(** A digest that keeps the text, over a printer of values. *)
Fixpoint print (v : Json.Value num) : string :=
  match v with
  | Null => "null"
  | Bool b => if b then "true" else "false"
  | Number (Int z) => pretty z
  | Number (Float _) => "float"
  | String_ s => "'" +:+ s +:+ "'"
  | Array l => "[" +:+ join "," (print <$> l) +:+ "]"
  | Object m => "{" +:+ join "," ((fun kv => kv.1 +:+ ":" +:+ print kv.2) <$> m) +:+ "}"
  end.
#[export] Instance text_digest : Digest num := {| from_u64 := Int; sha256_hex s := s; canonical := print |}.
#[export] Instance text_digest_laws : DigestLaws num.
Proof. split. intros z [H0 H1]. cbn. apply Z.leb_le in H0, H1. by rewrite H0, H1. Qed.

Definition seal (f : NormalizedFunction) : NormalizedFunction :=
  let p := policy f in
  let p := mkPolicy (id p) (version p) (hash (remove "contractHash" (policy_value p))) (surfaces p) (self_call p) (suppression p) in
  let f h := mkFunction (local_name f) (canonical_id f) h (target f) (abi f) p (requirement f) in
  f (hash (contract_value (f ""))).
Definition seal_bundle (b : NormalizedBundle) : NormalizedBundle :=
  let b h := mkBundle (schema_version b) (owner_id b) h (seal <$> functions b) in b (hash (remove "bundleHash" (bundle_value (b "")))).

Definition direct : NormalizedTarget := Signature "server" "55" "direct" "identity" validator_default (mkValidator (Some "55") None None).
Definition arg (n t : string) : Param := mkParam n t (mkProjection t 1) None ["pre"].
(** A method of seven integers and a float: the receiver and five integers fill the registers. *)
Definition hit : NormalizedFunction :=
  mkFunction "hit" "@demo/fire::hit" "" direct
    (mkAbi PLATFORM "entity" "linux-x86_64-sysv:entity:void(i32,i32,f32,i32,i64,i32,i32,i32)" 128
       [arg "a" "i32"; arg "b" "i32"; arg "c" "f32"; arg "d" "i32"; arg "e" "i64"; arg "f" "i32"; arg "g" "i32"; arg "h" "i32"]
       (mkReturns "void" (mkProjection "void" 1) None))
    (mkPolicy "generic.v2" 1 "" ["call"; "pre"] "bypass-own-hooks" "generic") "required".
Definition fire : NormalizedFunction :=
  mkFunction "fire" "@demo/fire::fire" "" direct
    (mkAbi PLATFORM "none" "linux-x86_64-sysv:none:void()" 128 [] (mkReturns "void" (mkProjection "void" 1) None))
    (mkPolicy "generic.v2" 1 "" ["call"] "bypass-own-hooks" "none") "optional".
Definition demo : NormalizedBundle := seal_bundle (mkBundle 2 "@demo/fire" "" [fire; hit]).
Definition read (_ : string) : string + NormalizedBundle := inr demo.
Definition granted : list string := ["engine:calls"; "engine:hooks"].

Example demo_accepted : parse read "" "@demo/fire" (summary_value demo) granted = inr demo.
Proof. vm_compute. reflexivity. Qed.
Example demo_needs_hooks : parse read "" "@demo/fire" (summary_value demo) ["engine:calls"] = inl "missing derived permission".
Proof. vm_compute. reflexivity. Qed.
Example demo_other_owner : parse read "" "@demo/ice" (summary_value demo) granted = inl "schema/owner mismatch".
Proof. vm_compute. reflexivity. Qed.
Example hit_places : locations (abi hit) = [Gp 1; Gp 2; Sse 0; Gp 3; Gp 4; Gp 5; Stack 0; Stack 8].
Proof. reflexivity. Qed.
Example long_names : manifest_hash "ABCD" = inl "implementation manifest hash must be lowercase SHA256".
Proof. reflexivity. Qed.

Lemma demo_parses : parse read "" "@demo/fire" (summary_value demo) granted = inr demo.
Proof. vm_compute. reflexivity. Qed.
Lemma seal_width f : function_width f -> function_width (seal f).
Proof. intros (? & ? & ?). by split_and!. Qed.
Lemma small_width z : 0 <= z <= 1000 -> u32_ok z.
Proof. unfold u32_ok, u64_max, u64_modulus. lia. Qed.
Lemma demo_width : bundle_width demo.
Proof.
  split; [by apply small_width|]. change (functions demo) with (seal <$> [fire; hit]).
  repeat apply Forall_cons_2; try apply seal_width; try apply Forall_nil_2; (split; [done|split; [|by apply small_width]]);
    (split; [by apply small_width|split; [repeat constructor; done|by apply small_width]]).
Qed.

Lemma contract_frame_fits_witness : hit ∈ [fire; hit] /\ forall f, f ∈ functions demo -> NoDup (locations (abi f)).
Proof.
  split; [by right; left|]. intros f Hf. destruct (contract_frame_fits _ _ _ _ _ _ f demo_parses Hf) as (_ & Hnd & _). exact Hnd.
Defined.

Lemma contract_hash_binds_witness :
  bundle_hash demo = bundle_hash demo /\ (demo = demo \/ exists v1 v2 : Json.Value num, v1 <> v2 /\ hash v1 = hash v2).
Proof. split; [reflexivity|]. exact (contract_hash_binds _ _ _ _ _ _ _ _ _ _ _ demo_parses demo_parses demo_width demo_width eq_refl). Defined.

Lemma contract_identities_witness :
  length (functions demo) = 2%nat /\ forall f g, f ∈ functions demo -> g ∈ functions demo -> fingerprint (abi f) = fingerprint (abi g) -> locations (abi f) = locations (abi g).
Proof.
  split; [reflexivity|]. intros f g Hf Hg E. destruct (contract_identities _ _ _ _ _ _ _ _ _ _ _ f g demo_parses demo_parses Hf Hg) as [_ Hp].
  destruct (Hp E) as (_ & _ & _ & Hl & _). exact Hl.
Defined.

Lemma contract_rights_witness : length (functions demo) = 2%nat /\ forall f, f ∈ functions demo -> id (policy f) = "generic.v2".
Proof. split; [reflexivity|]. intros f Hf. destruct (contract_rights _ _ _ _ _ _ f demo_parses Hf) as [Hid _]. exact Hid. Defined.
End EngineContractExamples.
