(* ===== verification/EngineInstance.v ===== *)
(** Functions as the host holds them (core/src/engine_functions/instance.rs, policy.rs, trusted.rs,
    provenance.rs).

    An accepted public function is lowered to a [Signature] of positions ([from_public]); a game package
    the host has verified brings its own signatures, with record layouts the community grammar has not
    ([prepare_verified_package], [decode]). The candidate of a package joins both ([merge_trusted]). The
    readers derived from the types, the digest and the authority of the package's receipt are
    parameters. *)
From S2P Require Import Prelude.
From S2P Require Import Results.
From S2P Require Import Json.
From S2P Require Import Multiplexer.
From S2P Require Import EngineContract.
Import Json.
Import EngineAbi EngineContract.

Module EngineInstance.

(** ** Records *)
Definition MAX_EXTENT : Z := 65536.
Definition MAX_FIELDS : Z := 256.
Definition u32_max : Z := 2 ^ 32 - 1.
Definition str_len (s : string) : Z := Z.of_nat (String.length s).

Record RecordField := mkField {
  f_name : string; offset_key : string; offset : Z; storage : string; f_nullable : bool; read : list string; write : list string;
}.
Record RecordLayout := mkLayout { extent : Z; alignment : Z; fields : list RecordField }.

Definition width (storage : string) : string + Z :=
  if mem storage ["bool"] then inr 1
  else if mem storage ["u16"] then inr 2
  else if mem storage ["i32"; "u32"; "f32"; "entity-handle32"] then inr 4
  else if mem storage ["i64"; "u64"; "f64"] then inr 8
  else inl "unsupported record storage".
(** The machine type and the projection a field is read as. *)
Definition field_projection (f : RecordField) : string * string :=
  if String.eqb (storage f) "bool" then ("u8", "bool")
  else if String.eqb (storage f) "u16" then ("u32", "u32")
  else if String.eqb (storage f) "entity-handle32" then ("ptr", if f_nullable f then "entity?" else "entity")
  else (storage f, storage f).

Definition is_power_of_two (z : Z) : bool := (0 <? z) && (Z.land z (z - 1) =? 0).
Definition checked_add_u32 (a b : Z) : option Z := if a + b <=? u32_max then Some (a + b) else None.
Definition read_ok (l : list string) : bool := bool_decide (l = ["pre"]) || bool_decide (l = ["post"]) || bool_decide (l = ["pre"; "post"]).

Definition check_field (r : RecordLayout) (st : list string * list (Z * Z)) (f : RecordField) : string + (list string * list (Z * Z)) :=
  let '(names, spans) := st in
  let* _ := require (negb (negb (identifier (f_name f)) || (128 <? str_len (f_name f)) || mem (f_name f) names
                           || String.eqb (offset_key f) "" || (256 <? str_len (offset_key f)) || contains_nul (offset_key f)))
              "invalid record field identity" in
  let* w := width (storage f) in
  let* end_ := ok_or (checked_add_u32 (offset f) w) "record extent overflow" in
  let* _ := require (negb (extent r <? end_)) "record field exceeds extent" in
  let* _ := require (negb ((alignment r <? w) || negb (offset f mod w =? 0))) "unaligned record field" in
  let* _ := require (negb (existsb (fun sf => (offset f <? sf.2) && (sf.1 <? end_)) spans)) "record field overlap" in
  let* _ := require (read_ok (read f)) "invalid record read phases" in
  let* _ := require (negb (negb (is_nil (write f) || bool_decide (write f = ["pre"])) || (negb (is_nil (write f)) && negb (mem "pre" (read f)))
                           || (f_nullable f && negb (String.eqb (storage f) "entity-handle32")))) "invalid record field rights/nullability" in
  inr (f_name f :: names, spans ++ [(offset f, end_)]).

Definition validate_layout (r : RecordLayout) : string + unit :=
  let* _ := require (negb ((extent r =? 0) || (MAX_EXTENT <? extent r) || negb (is_power_of_two (alignment r)) || (8 <? alignment r)
                           || negb (extent r mod alignment r =? 0) || is_nil (fields r) || (MAX_FIELDS <? Z.of_nat (length (fields r)))))
              "invalid record extent/alignment/field count" in
  let* _ := rfold (check_field r) ([], []) (fields r) in
  inr tt.

(** ** Signatures *)
Record KindVersion := mkKind { k_id : string; k_version : Z }.
Record Instance_ := mkInstance { codec_id : string; codec_version : Z; i_kind : option KindVersion; layout_hash : string; record_ : RecordLayout }.
Record Position := mkPosition {
  p_name : string; p_native : string; p_projection : Projection; p_ownership : option string; p_mutable : list string;
  p_instance : option nat; p_nullable : bool;
}.
Record ScratchSlot := mkScratch { s_name : string; s_storage : string }.
Definition MAX_SCRATCH : Z := 16.
Definition RESERVED_FRAME_NAMES : list string := ["returnValue"; "skipped"; "originalReturnValue"; "overrideReturn"; "proposedReturn"].
Definition scratch_projection (s : ScratchSlot) : string + (string * string) :=
  if String.eqb (s_storage s) "bool" then inr ("u8", "bool")
  else if mem (s_storage s) ["i32"; "u32"; "i64"; "u64"; "f32"; "f64"] then inr (s_storage s, s_storage s)
  else inl "unsupported scratch storage".
Definition hidden (p : Position) : bool := String.eqb (pr_id (p_projection p)) "native-only".
Definition is_record (p : Position) : bool := String.eqb (pr_id (p_projection p)) "borrowed-record".

Record Signature := mkSignature {
  s_platform : string; member_receiver : bool; s_receiver : option Position; s_parameters : list Position; s_returns : Position;
  s_fingerprint : string; s_stack_copy_bytes : Z; instances : list Instance_; scratch : list ScratchSlot;
}.
Record PhysicalAbi := mkPhysical { a_platform : string; a_member : bool; a_parameters : list string; a_returns : string }.
Definition physical (s : Signature) : PhysicalAbi :=
  mkPhysical (s_platform s) (member_receiver s) (p_native <$> s_parameters s) (p_native (s_returns s)).

Definition physical_slot (s : Slots) (p : string) : string + Slots :=
  let* _ := require (is_atom p) "invalid physical parameter" in inr (count_slot s p).
Definition stack_bytes (a : PhysicalAbi) : string + Z :=
  let n := Z.of_nat (length (a_parameters a)) in
  let* _ := require (negb (negb (String.eqb (a_platform a) PLATFORM) || (MAX_PARAMETERS <? n) || (MAX_CIF_ARGUMENTS <? n + b2z (a_member a))))
              "unsupported physical ABI" in
  let* _ := require (negb (negb (String.eqb (a_returns a) "void") && negb (is_atom (a_returns a)))) "invalid physical return" in
  let* s := rfold physical_slot (slots_init (a_member a)) (a_parameters a) in
  let bytes := stack_of s in
  let* _ := require (negb (MAX_STACK_BYTES <? bytes)) "physical stack limit" in
  inr bytes.
Definition physical_fingerprint (a : PhysicalAbi) : string + string :=
  let* _ := stack_bytes a in
  inr (a_platform a +:+ ":" +:+ (if a_member a then "entity" else "none") +:+ ":" +:+ a_returns a +:+ "(" +:+ join "," (a_parameters a) +:+ ")").

(** [position]: -1 is the receiver, -2 the return. *)
Definition position (s : Signature) (selector : Z) : option Position :=
  if selector =? -1 then s_receiver s
  else if selector =? -2 then Some (s_returns s)
  else if 0 <=? selector then s_parameters s !! Z.to_nat selector else None.
Definition layout (s : Signature) (selector : Z) : string + RecordLayout :=
  ok_or (p ← position s selector; i ← p_instance p; x ← instances s !! i; Some (record_ x)) "record position unavailable".
Definition borrowed (s : Signature) : bool :=
  existsb (fun p => is_record p || hidden p) (match s_receiver s with Some r => [r] | None => [] end ++ s_parameters s).

(** ** Functions *)
Record HostInstanceGrant := mkGrant { g_owner : OwnerKey; selected_hash : string; selected_bytes : string; sealed_contract : string; target_hash : string }.
Inductive Origin := PublicV2 | Trusted (g : HostInstanceGrant).
Record Function_ := mkFn {
  fn_name : string; fn_id : string; fn_hash : string; fn_target : NormalizedTarget; fn_abi : Signature; fn_policy : Policy; fn_requirement : string; origin : Origin;
}.
Definition trusted (f : Function_) : bool := match origin f with Trusted _ => true | PublicV2 => false end.
Definition host_owner (f : Function_) : option OwnerKey := match origin f with Trusted g => Some (g_owner g) | PublicV2 => None end.

Definition public_position (p : Param) : Position := mkPosition (name p) (native p) (projection_ p) (ownership p) (mutable p) None false.
Definition self_position : Position := mkPosition "self" "ptr" (mkProjection "entity" 1) None [] None false.
Definition public_signature (a : Abi) : Signature :=
  let receiver := if is_member (receiver a) then Some self_position else None in
  mkSignature (platform a) (is_some receiver) receiver (public_position <$> parameters a)
    (mkPosition "" (r_native (returns a)) (r_projection (returns a)) (r_ownership (returns a)) [] None false)
    (fingerprint a) (stack_copy_bytes a) [] [].
Definition from_public (f : NormalizedFunction) : string + Function_ :=
  let s := public_signature (abi f) in
  let* fp := physical_fingerprint (physical s) in
  let* _ := if String.eqb fp (s_fingerprint s)
            then let* bytes := stack_bytes (physical s) in require (bytes =? s_stack_copy_bytes s) "physical ABI fingerprint/stack mismatch"
            else inl "physical ABI fingerprint/stack mismatch" in
  inr (mkFn (local_name f) (canonical_id f) (contract_hash f) (target f) s (policy f) (requirement f) PublicV2).
(** ** Serialized signatures *)
Section Values.
Context {num : Type} `{JsonNumber num} `{Digest num}.
Notation Value := (Json.Value num).

Definition field_value (f : RecordField) : Value :=
  obj [("name", str (f_name f)); ("offsetKey", str (offset_key f)); ("offset", uint (offset f)); ("storage", str (storage f));
       ("nullable", Bool (f_nullable f)); ("read", strs (read f)); ("write", strs (write f))].
Definition layout_value (r : RecordLayout) : Value :=
  obj [("extent", uint (extent r)); ("alignment", uint (alignment r)); ("fields", Array (field_value <$> fields r))].
Definition layout_digest (r : RecordLayout) : string := hash (layout_value r).
Definition or_null (o : option Value) : Value := match o with Some v => v | None => Null end.
Definition instance_value (i : Instance_) : Value :=
  obj [("codecId", str (codec_id i)); ("codecVersion", uint (codec_version i));
       ("kind", or_null ((fun k => obj [("id", str (k_id k)); ("version", uint (k_version k))]) <$> i_kind i));
       ("layoutHash", str (layout_hash i)); ("record", layout_value (record_ i))].
Definition position_value (p : Position) : Value :=
  obj ([("name", str (p_name p)); ("native", str (p_native p)); ("projection", projection_value (p_projection p))]
       ++ present "ownership" (str <$> p_ownership p) ++ [("mutable", strs (p_mutable p))]
       ++ present "instance" ((fun i => uint (Z.of_nat i)) <$> p_instance p) ++ [("nullable", Bool (p_nullable p))]).
Definition scratch_value (s : ScratchSlot) : Value := obj [("name", str (s_name s)); ("storage", str (s_storage s))].
Definition signature_value (s : Signature) : Value :=
  obj ([("platform", str (s_platform s)); ("memberReceiver", Bool (member_receiver s)); ("receiver", or_null (position_value <$> s_receiver s));
        ("parameters", Array (position_value <$> s_parameters s)); ("returns", position_value (s_returns s));
        ("fingerprint", str (s_fingerprint s)); ("stackCopyBytes", uint (s_stack_copy_bytes s)); ("instances", Array (instance_value <$> instances s))]
       ++ present "scratch" (if is_nil (scratch s) then None else Some (Array (scratch_value <$> scratch s)))).

(** The public form of a lowered signature. *)
Definition public_parameter (p : Position) : Value :=
  obj ([("name", str (p_name p)); ("native", str (p_native p)); ("projection", projection_value (p_projection p)); ("mutable", strs (p_mutable p))]
       ++ present "ownership" (str <$> p_ownership p)).
Definition public_wire (s : Signature) : Value :=
  obj [("platform", str (s_platform s)); ("receiver", str (if member_receiver s then "entity" else "none")); ("fingerprint", str (s_fingerprint s));
       ("stackCopyBytes", uint (s_stack_copy_bytes s)); ("parameters", Array (public_parameter <$> s_parameters s));
       ("returns", obj ([("native", str (p_native (s_returns s))); ("projection", projection_value (p_projection (s_returns s)))]
                        ++ present "ownership" (str <$> p_ownership (s_returns s))))].

(** What a host contract seals. *)
Definition sealed_value (s : Signature) (p : Policy) (selected : string) : Value :=
  obj [("version", uint 1); ("signature", signature_value s); ("policy", policy_value p); ("selectedDataHash", str selected)].
Definition set_key (k : string) (v : Value) (o : Value) : Value := match o with Object m => Object (insert k v m) | o => o end.
Definition map_key (k : string) (f : Value -> Value) (o : Value) : Value :=
  match o with Object m => match get m k with Some v => Object (insert k (f v) m) | None => o end | o => o end.

(** The contract as the native side gets it; the text is a function of the value. *)
Definition trusted_wire (f : Function_) : string + Value :=
  match origin f with
  | PublicV2 => inl "missing host instance authority"
  | Trusted g =>
      let value := sealed_value (fn_abi f) (fn_policy f) (selected_hash g) in
      let* _ := require (negb (negb (String.eqb (hash value) (sealed_contract g)) || negb (String.eqb (fn_hash f) (sealed_contract g))
                               || negb (String.eqb (hash (target_value (fn_target f))) (target_hash g))))
                  "host instance contract/layout/target changed after admission" in
      if is_nil (scratch (fn_abi f)) then inr (set_key "contractHash" (str (sealed_contract g)) value)
      else let value := map_key "signature" (remove "scratch") value in inr (set_key "contractHash" (str (hash value)) value)
  end.

(** ** Candidates *)
Record OverrideProvenance := mkOverride { relative_path : string; o_sha256 : string }.
Inductive ValidationResult := Pending | Unavailable (reason : string).
Record LayoutProvenance := mkLayoutP { lp_codec : string; lp_version : Z; lp_hash : string }.
Record InstanceProvenance := mkInstanceP { manifest_hash_ : string; selected_data_hash : string; layouts : list LayoutProvenance }.
Record Provenance := mkProvenance {
  archive_hash : string; pv_instances : option InstanceProvenance; base_contract_hash : string; overrides : list OverrideProvenance;
  final_target_hash : string; resolver_result : ValidationResult; validator_result : ValidationResult; required : bool;
}.
Record PreparedFunction := mkPrepared { function_ : Function_; provenance : Provenance; unavailable : option string }.
Record PreparedCandidate := mkCandidate { base : option NormalizedBundle; c_owner : string; prepared : list PreparedFunction }.

Definition merge_trusted (public : option PreparedCandidate) (t : PreparedCandidate) : string + PreparedCandidate :=
  let* _ := require (negb (is_some (base t) || existsb (fun f => negb (trusted (function_ f))) (prepared t)))
              "trusted merge requires a host-verified trusted candidate" in
  match public with
  | None => inr t
  | Some p =>
      let* _ := require (negb (negb (is_some (base p)) || existsb (fun f => trusted (function_ f)) (prepared p)))
                  "trusted merge requires a public archive candidate" in
      let* _ := require (String.eqb (c_owner p) (c_owner t)) "public/trusted candidate owner mismatch" in
      let* _ := reach (fun f => require (negb (existsb (fun q => String.eqb (fn_name (function_ q)) (fn_name (function_ f))) (prepared p)))
                                  ("trusted function " +:+ fn_id (function_ f) +:+ " duplicates a public declaration")) (prepared t) in
      inr (mkCandidate (base p) (c_owner p) (prepared p ++ prepared t))
  end.

(** ** Verified packages *)
Record TrustedFunctionInput := mkInput { t_name : string; t_target : NormalizedTarget; t_signature : Signature; t_policy : Policy; t_requirement : string }.
Record SelectedLayoutData := mkSelected { bytes : string; sha256 : string }.

(** The visitor of [SelectedOffsets], over the entries of the text in order. *)
Definition offset_entry (values : gmap string Z) (kv : string * Z) : string + gmap string Z :=
  let* _ := require (negb (String.eqb kv.1 "" || (256 <? str_len kv.1) || contains_nul kv.1 || bool_decide (is_Some (values !! kv.1))))
              "invalid/duplicate selected offset key" in
  inr (<[kv.1 := kv.2]> values).
Definition selected_offsets (entries : string -> string + list (string * Z)) (text : string) : string + gmap string Z :=
  let* l := entries text in rfold offset_entry ∅ l.

Definition check_instance_field (offsets : gmap string Z) (p : Policy) (f : RecordField) : string + unit :=
  let* selected := ok_or (offsets !! offset_key f) "missing selected offsetKey" in
  let* _ := require (offset f =? selected) "stale selected field offset" in
  require (is_nil (write f) || has_surface p "pre") "record writes require PRE surface".
Definition check_instance (offsets : gmap string Z) (p : Policy) (i : Instance_) : string + unit :=
  let* _ := require (negb (negb (String.eqb (codec_id i) "borrowed-record") || negb (codec_version i =? 1) || is_some (i_kind i)))
              "unsupported registered kind/version" in
  let* _ := reach (check_instance_field offsets p) (fields (record_ i)) in
  let* _ := validate_layout (record_ i) in
  require (String.eqb (layout_hash i) (layout_digest (record_ i))) "record layout hash mismatch".

(** A position with its index, after the positions with the names [exposed]. *)
Definition check_position (canonical : string) (s : Signature) (pol : Policy) (exposed : list string) (ip : Z * Position) : string + list string :=
  let '(index, p) := ip in
  let shown := negb (index =? -2) && negb (hidden p) in
  let* _ := require (negb (shown && (negb (identifier (p_name p) || ((index =? -1) && String.eqb (p_name p) "self"))
                                     || mem (p_name p) RESERVED_FRAME_NAMES || mem (p_name p) exposed)))
              "invalid/duplicate exposed position name" in
  let exposed := if shown then p_name p :: exposed else exposed in
  let* _ :=
    if is_record p || hidden p then
      let* _ := require (negb ((index =? -2) || negb (String.eqb (p_native p) "ptr") || negb (pr_version (p_projection p) =? 1) || negb (is_nil (p_mutable p))))
                  "record/hidden direction or replacement unsupported" in
      if is_record p
      then require (negb (negb (owned_as (p_ownership p) "synchronous-record")
                          || match p_instance p with Some i => (length (instances s) <=? i)%nat | None => true end)) "record lifetime/instance unavailable"
      else require (negb (negb (owned_as (p_ownership p) "invocation-passthrough") || is_some (p_instance p) || p_nullable p)) "hidden lifetime/instance invalid"
    else
      let* _ := require (negb (is_some (p_instance p) || p_nullable p)) "unexpected instance/nullability" in
      let* _ :=
        if String.eqb (pr_id (p_projection p)) "string-indirect"
        then require (negb ((index <? 0) || negb (String.eqb (p_native p) "ptr") || negb (pr_version (p_projection p) =? 1)
                            || negb (owned_as (p_ownership p) "native-observed") || negb (is_nil (p_mutable p))))
               "string-indirect is a readonly native-observed parameter"
        else
          let* _ := projection (p_native p) (p_projection p) (index =? -2) in
          copied_ownership (pr_id (p_projection p)) (p_ownership p) (index =? -2) canonical in
      let* _ := require (negb (negb (is_nil (p_mutable p) || bool_decide (p_mutable p = ["pre"])) || (negb (is_nil (p_mutable p)) && negb (has_surface pol "pre"))))
                  "invalid position mutation" in
      let* _ := require (negb ((index =? -1) && (negb (String.eqb (p_native p) "ptr") || negb (mem (pr_id (p_projection p)) ["entity"; "entity?"])
                                                 || negb (is_nil (p_mutable p))))) "invalid receiver projection" in
      let* _ := require (negb (owned_as (p_ownership p) "native-observed" && negb (is_nil (p_mutable p)))) "native-observed position is readonly" in
      require (negb (owned_as (p_ownership p) "callee-borrowed" && negb (is_nil (p_mutable p)) && String.eqb (p_native (s_returns s)) "ptr"))
        "mutable copied input with pointer return requires callee-retained" in
  inr exposed.
Definition positions (s : Signature) : list (Z * Position) :=
  match s_receiver s with Some r => [(-1, r)] | None => [] end
  ++ imap (fun i p => (Z.of_nat i, p)) (s_parameters s) ++ [(-2, s_returns s)].
Definition check_scratch (exposed : list string) (s : ScratchSlot) : string + list string :=
  let* _ := require (negb (negb (identifier (s_name s)) || (128 <? str_len (s_name s)) || mem (s_name s) RESERVED_FRAME_NAMES || mem (s_name s) exposed))
              "invalid/duplicate scratch slot name" in
  let* _ := scratch_projection s in
  inr (s_name s :: exposed).

Definition check_input (offsets : gmap string Z) (canonical : string) (t : TrustedFunctionInput) : string + unit :=
  let s := t_signature t in
  let pol := t_policy t in
  let* _ := validate_target (t_target t) in
  let* _ := validate_policy pol in
  let* _ := require (negb (has_surface pol "call")) "record/hidden native input cannot be manufactured" in
  let* _ := require (negb (negb (Bool.eqb (member_receiver s) (is_some (s_receiver s))) || (33 <? Z.of_nat (length (instances s)))))
              "invalid physical receiver/instance count" in
  let* fp := physical_fingerprint (physical s) in
  let* _ := if String.eqb (s_fingerprint s) fp
            then let* bytes := stack_bytes (physical s) in require (s_stack_copy_bytes s =? bytes) "physical fingerprint/stack mismatch"
            else inl "physical fingerprint/stack mismatch" in
  let* _ := reach (check_instance offsets pol) (instances s) in
  let* exposed := rfold (check_position canonical s pol) [] (positions s) in
  let* _ := require (negb (MAX_SCRATCH <? Z.of_nat (length (scratch s)))) "scratch slot limit" in
  let* _ := require (negb (negb (is_nil (scratch s)) && negb (has_surface pol "pre"))) "scratch slots require PRE surface" in
  let* _ := rfold check_scratch exposed (scratch s) in
  require (negb (owned_as (p_ownership (s_returns s)) "native-observed" && negb (String.eqb (suppression pol) "none")))
    "native-observed return requires suppression:none".

Definition prepare_input (owner : OwnerKey) (manifest : string) (selected : SelectedLayoutData) (offsets : gmap string Z)
    (st : list string * list PreparedFunction) (t : TrustedFunctionInput) : string + (list string * list PreparedFunction) :=
  let '(names, fs) := st in
  let canonical := o_id owner +:+ "::" +:+ t_name t in
  let* _ := require (negb (negb (identifier (t_name t)) || mem (t_name t) names || negb (mem (t_requirement t) ["required"; "optional"])))
              "invalid trusted function identity/requirement" in
  let checked := check_input offsets canonical t in
  let* _ := if String.eqb (t_requirement t) "required" then map_err (fun e => canonical +:+ ": " +:+ e) checked else inr tt in
  let target_hash := hash (target_value (t_target t)) in
  let h := hash (sealed_value (t_signature t) (t_policy t) (sha256 selected)) in
  let f := mkFn (t_name t) canonical h (t_target t) (t_signature t) (t_policy t) (t_requirement t)
             (Trusted (mkGrant owner (sha256 selected) (bytes selected) h target_hash)) in
  let unavailable := match checked with inl e => Some e | inr _ => None end in
  let validation := match unavailable with Some e => Unavailable e | None => Pending end in
  let inst := mkInstanceP manifest (sha256 selected)
                ((fun i => mkLayoutP (codec_id i) (codec_version i) (layout_hash i)) <$> instances (t_signature t)) in
  inr (t_name t :: names,
       fs ++ [mkPrepared f (mkProvenance "" (Some inst) h [] target_hash validation validation (String.eqb (t_requirement t) "required")) unavailable]).

(** [authority] is the receipt's owner and manifest hash, [entries] the third-party reading of the text
    as the entries of a map of integers. *)
Definition prepare_verified_package (authority : string + (OwnerKey * string)) (entries : string -> string + list (string * Z))
    (inputs : list TrustedFunctionInput) (selected : SelectedLayoutData) : string + PreparedCandidate :=
  let* om := authority in
  let '(owner, manifest) := om in
  let* _ := require (negb ((256 <? Z.of_nat (length inputs)) || (1024 * 1024 <? str_len (bytes selected))
                           || negb (String.eqb (hash_bytes (bytes selected)) (sha256 selected)))) "invalid/oversized selected layout data hash" in
  let* offsets := map_err (fun e => "selected offsets: " +:+ e) (selected_offsets entries (bytes selected)) in
  let* st := rfold (prepare_input owner manifest selected offsets) ([], []) inputs in
  inr (mkCandidate None (o_id owner) st.2).
End Values.
(** ** Adapter contracts and grants *)
Record AdapterContract := mkAdapterContract { ad_id : string; ad_version : Z; ad_hash : string }.
#[export] Instance AdapterContract_eq_dec : EqDecision AdapterContract.
Proof. solve_decision. Defined.
Definition generic (p : Policy) : string + AdapterContract :=
  let* _ := require (negb (negb (String.eqb (id p) "generic.v2") || negb (version p =? 1))) "public generic adapter required" in
  inr (mkAdapterContract (id p) (version p) (p_contract_hash p)).
Inductive SubscriptionMode := Mutating | Observe.
Definition for_phase (phase : Z) (observe_only : bool) : string + SubscriptionMode :=
  if (phase =? 0) && negb observe_only then inr Mutating
  else if (phase =? 0) || (phase =? 1) then inr Observe
  else inl "invalid subscription phase".
Definition writable (m : SubscriptionMode) : bool := match m with Mutating => true | Observe => false end.
Inductive PostReturnAuthority := NoAuthority | Override.
Record HostAdapterGrant := mkHostGrant { hg_owner : OwnerKey; hg_contract : AdapterContract; hg_authority : PostReturnAuthority }.
Definition override_return (owner : OwnerKey) (c : AdapterContract) : string + HostAdapterGrant :=
  let* _ := require (negb (String.eqb (ad_id c) "" || String.eqb (ad_id c) "generic.v2" || negb (ad_version c =? 1))) "invalid host adapter contract" in
  let* _ := manifest_hash (ad_hash c) in
  inr (mkHostGrant owner c Override).
Definition belongs_to (g : HostAdapterGrant) (owner : OwnerKey) : bool := bool_decide (hg_owner g = owner).
Definition authority (g : HostAdapterGrant) (c : AdapterContract) : PostReturnAuthority :=
  if bool_decide (hg_contract g = c) then hg_authority g else NoAuthority.

(** ** The artifact of a trusted package *)
Definition MAX_ARTIFACT_BYTES : Z := 4 * 1024 * 1024.
Definition MAX_FUNCTIONS : Z := 256.
Definition MAX_NAME : Z := 128.
Record AdapterWire := mkAdapterWire { aw_id : string; aw_hash : string; post_override : bool }.
Record FunctionWire := mkFunctionWire { w_input : TrustedFunctionInput; adapter : option AdapterWire }.
Record ArtifactWire := mkArtifact {
  aw_schema : Z; aw_owner : string; aw_offsets : string; aw_offsets_sha256 : string; aw_functions : list FunctionWire;
}.
Record TrustedAdapterBinding := mkTab { tab_name : string; tab_contract : AdapterContract; tab_override : bool }.
Record TrustedArtifact := mkTrustedArtifact { inputs : list TrustedFunctionInput; selected : SelectedLayoutData; adapters : list TrustedAdapterBinding }.

Definition artifact_fail (why : string) : string := "trusted functions artifact: " +:+ why.
Definition check_adapter (contracts : gmap string (string * bool)) (n : string) (a : AdapterWire) : string + gmap string (string * bool) :=
  let* _ := require (negb (String.eqb (aw_id a) "" || (MAX_NAME <? str_len (aw_id a)) || contains_nul (aw_id a) || String.eqb (aw_id a) "generic.v2"))
              (artifact_fail (n +:+ ": invalid adapter id")) in
  let* _ := map_err (fun _ => artifact_fail (n +:+ ": adapter contractHash must be lowercase SHA256")) (manifest_hash (aw_hash a)) in
  let prior := default (aw_hash a, post_override a) (contracts !! aw_id a) in
  let* _ := require (bool_decide (prior = (aw_hash a, post_override a)))
              (artifact_fail ("adapter " +:+ aw_id a +:+ " declared with conflicting contractHash/postOverride")) in
  inr (<[aw_id a := prior]> contracts).
Definition decode_function (st : gmap string (string * bool) * list TrustedFunctionInput * list TrustedAdapterBinding) (f : FunctionWire)
  : string + (gmap string (string * bool) * list TrustedFunctionInput * list TrustedAdapterBinding) :=
  let '(contracts, ins, ads) := st in
  let n := t_name (w_input f) in
  let* _ := require (negb (MAX_NAME <? str_len n)) (artifact_fail "localName too long") in
  match adapter f with
  | None => inr (contracts, ins ++ [w_input f], ads)
  | Some a =>
      let* contracts := check_adapter contracts n a in
      inr (contracts, ins ++ [w_input f], ads ++ [mkTab n (mkAdapterContract (aw_id a) 1 (aw_hash a)) (post_override a)])
  end.
(** [from_slice] is the derived reader. *)
Definition decode {num : Type} `{Digest num} (from_slice : string -> string + ArtifactWire) (data owner : string) : string + TrustedArtifact :=
  let* _ := require (negb (MAX_ARTIFACT_BYTES <? str_len data)) (artifact_fail "byte limit exceeded") in
  let* w := map_err artifact_fail (from_slice data) in
  let* _ := require (aw_schema w =? 1) (artifact_fail "unsupported schemaVersion") in
  let* _ := require (negb (negb (String.eqb (aw_owner w) owner) || String.eqb owner "")) (artifact_fail "ownerId does not match the verified package") in
  let* _ := require (negb (MAX_FUNCTIONS <? Z.of_nat (length (aw_functions w)))) (artifact_fail "function limit exceeded") in
  let* _ := map_err (fun _ => artifact_fail "selectedOffsetsSha256 must be lowercase SHA256") (manifest_hash (aw_offsets_sha256 w)) in
  let* _ := require (String.eqb (hash_bytes (aw_offsets w)) (aw_offsets_sha256 w)) (artifact_fail "selectedOffsets hash mismatch") in
  let* st := rfold decode_function (∅, [], []) (aw_functions w) in
  inr (mkTrustedArtifact st.1.2 (mkSelected (aw_offsets w) (aw_offsets_sha256 w)) st.2).
(** The grants an activation issues: one for each adapter declared to override returns. *)
Definition grant_step (owner : OwnerKey) (st : list string * list HostAdapterGrant) (a : TrustedAdapterBinding) : string + (list string * list HostAdapterGrant) :=
  let '(granted, gs) := st in
  if tab_override a && negb (mem (ad_id (tab_contract a)) granted)
  then let* g := override_return owner (tab_contract a) in inr (ad_id (tab_contract a) :: granted, gs ++ [g])
  else inr st.
Definition grants (owner : OwnerKey) (l : list TrustedAdapterBinding) : string + list HostAdapterGrant :=
  let* st := rfold (grant_step owner) ([], []) l in inr st.2.
(** * Properties *)

(** ** Record layouts *)
Definition field_end (f : RecordField) : Z := offset f + match width (storage f) with inr w => w | inl _ => 0 end.
Definition span (f : RecordField) : Z * Z := (offset f, field_end f).
Definition apart (f g : RecordField) : Prop := field_end f <= offset g \/ field_end g <= offset f.

(** A field that fits the record: one of the known widths, within the extent, aligned, with rights that agree. *)
Definition field_ok (r : RecordLayout) (f : RecordField) : Prop :=
  identifier (f_name f) = true /\ (exists w, width (storage f) = inr w /\ (w = 1 \/ w = 2 \/ w = 4 \/ w = 8) /\
    offset f + w <= extent r /\ w <= alignment r /\ offset f mod w = 0) /\
  (write f <> [] -> "pre" ∈ read f) /\ (f_nullable f = true -> storage f = "entity-handle32").

Lemma width_values s w : width s = inr w -> w = 1 \/ w = 2 \/ w = 4 \/ w = 8.
Proof. unfold width. repeat case_match; intros E; try discriminate E; injection E as <-; lia. Qed.

Lemma check_field_inr r ns sp f st : check_field r (ns, sp) f = inr st ->
  field_ok r f /\ f_name f ∉ ns /\ (forall s, s ∈ sp -> snd s <= offset f \/ field_end f <= fst s) /\ st = (f_name f :: ns, sp ++ [span f]).
Proof.
  unfold check_field. intros Hc. succeeds. subst st. bool_to_prop.
  match goal with W : width _ = inr ?w, C : checked_add_u32 _ ?w = Some ?e |- _ => rename W into Hw, C into He; set (wd := w) in * end.
  unfold checked_add_u32 in He. destruct (_ <=? _); [|done]. injection He as He.
  assert (field_end f = offset f + wd) as Hend by (unfold field_end; by rewrite Hw).
  split; [split_and!|split_and!].
  - done.
  - exists wd. split_and!; [done|by eapply width_values|lia..].
  - intros Hwr. apply mem_In. destruct (write f); [done|]. cbn [is_nil negb andb] in *. by apply negb_false_iff.
  - intros Hn. apply String.eqb_eq. match goal with E : f_nullable f && _ = false |- _ => rewrite Hn in E; cbn in E; by apply negb_false_iff end.
  - match goal with E : mem (f_name f) ns = false |- _ => intros Hin%mem_In; by rewrite Hin in E end.
  - match goal with E : existsb _ sp = false |- _ => rewrite existsb_none in E; intros s Hs; specialize (E s Hs); apply andb_false_iff in E as [E|E]; bool_to_prop end; lia.
  - unfold span. by rewrite Hend, He.
Qed.

Lemma check_fields_inr r l st : rfold (check_field r) ([], []) l = inr st ->
  Forall (field_ok r) l /\ NoDup (f_name <$> l) /\ (forall i j f g, l !! i = Some f -> l !! j = Some g -> (i < j)%nat -> apart f g).
Proof.
  intros Hf. cut (st = (reverse (f_name <$> l), span <$> l) /\ Forall (field_ok r) l /\ NoDup (f_name <$> l) /\
    (forall i j f g, l !! i = Some f -> l !! j = Some g -> (i < j)%nat -> apart f g)); [tauto|].
  revert Hf. apply (rfold_ind _ (fun l st => st = (reverse (f_name <$> l), span <$> l) /\ Forall (field_ok r) l /\ NoDup (f_name <$> l) /\
    (forall i j f g, l !! i = Some f -> l !! j = Some g -> (i < j)%nat -> apart f g))).
  - split_and!; [done|constructor|constructor|done].
  - intros l1 x l2 a b _ (-> & Hok & Hnd & Hap) Hc. apply check_field_inr in Hc as (Hx & Hn & Hsp & ->). rewrite elem_of_reverse in Hn. split_and!.
    + rewrite !fmap_app. csimpl. by rewrite reverse_snoc.
    + apply Forall_app. split; [done|]. by constructor.
    + rewrite fmap_app. apply NoDup_app. split_and!; [done| |apply NoDup_singleton]. intros s Hs ->%list_elem_of_singleton. done.
    + intros i j f g Hi Hj Hij. apply lookup_app_Some in Hj as [Hj|[Hle Hj]].
      * rewrite lookup_app_l in Hi by (apply lookup_lt_Some in Hj; lia). by eapply Hap.
      * destruct (j - length l1)%nat as [|k] eqn:Ek; [|done]. injection Hj as <-. rewrite lookup_app_l in Hi by lia.
        destruct (Hsp (span f)) as [?|?]; [apply list_elem_of_fmap_2; by eapply list_elem_of_lookup_2|left|right]; done.
Qed.

Lemma power_of_two_small z : is_power_of_two z = true -> z <= 8 -> z = 1 \/ z = 2 \/ z = 4 \/ z = 8.
Proof.
  unfold is_power_of_two. intros [Hp Hl]%andb_true_iff Hz. apply Z.ltb_lt in Hp.
  assert (z = 1 \/ z = 2 \/ z = 3 \/ z = 4 \/ z = 5 \/ z = 6 \/ z = 7 \/ z = 8) as Hc by lia.
  repeat destruct Hc as [->|Hc]; try lia; by vm_compute in Hl.
Qed.

(** Access through a validated layout stays inside the record. Its extent is at most 65536 and a
    multiple of its alignment; every field has one of the known widths, lies within the extent and is
    aligned at any address the record may have; field names are unique, no two fields share a byte, and a
    field that can be written before the call can be read there. *)
Theorem record_layout_sound r :
  validate_layout r = inr tt -> 0 <= extent r ->
  0 < extent r <= MAX_EXTENT /\ extent r mod alignment r = 0 /\ fields r <> [] /\ NoDup (f_name <$> fields r) /\
  (forall f, f ∈ fields r -> field_ok r f /\
     forall base w, width (storage f) = inr w -> base mod alignment r = 0 -> (base + offset f) mod w = 0) /\
  (forall i j f g, fields r !! i = Some f -> fields r !! j = Some g -> i <> j -> apart f g).
Proof.
  unfold validate_layout. intros Hv H0. succeeds. bool_to_prop. apply check_fields_inr in Ok0 as (Hok & Hnd & Hap). rewrite Forall_forall in Hok.
  match goal with P : is_power_of_two _ = true, A : alignment r <= 8 |- _ => pose proof (power_of_two_small _ P A) as Hal end.
  split_and!; try lia; try done.
  - intros E. by rewrite E in *.
  - intros f Hf. split; [by apply Hok|]. intros base w Hw Hb. destruct (Hok f Hf) as (_ & (w' & Hw' & Hv' & _ & Hle & Hm) & _).
    rewrite Hw in Hw'. injection Hw' as <-. rewrite Z.add_mod, Hm, Z.add_0_r, Z.mod_mod by lia.
    assert (alignment r mod w = 0) as Ha.
    { destruct Hal as [Ea|[Ea|[Ea|Ea]]]; rewrite Ea in *; destruct Hv' as [Ew|[Ew|[Ew|Ew]]]; rewrite Ew in *; try lia; reflexivity. }
    apply Z.mod_divide; [lia|]. apply Z.mod_divide in Hb, Ha; [|lia..]. by etrans.
  - intros i j f g Hi Hj Hij. destruct (decide (i < j)%nat) as [Hlt|Hge]; [by eapply Hap|].
    destruct (Hap j i g f Hj Hi ltac:(lia)) as [?|?]; [by right|by left].
Qed.
(** ** Lowering *)
Lemma physical_slots l : forall s, (forall p, p ∈ l -> is_atom p = true) -> rfold physical_slot s l = inr (foldl count_slot s l).
Proof.
  induction l as [|p l IH]; intros s Hl; cbn [rfold foldl]; [done|]. unfold physical_slot at 1. rewrite (Hl p) by by left. cbn [require rbind].
  apply IH. intros q Hq. apply Hl. by right.
Qed.

Lemma projection_atom t p ret : projection t p ret = inr tt -> t = "void" \/ is_atom t = true.
Proof.
  unfold projection. rewrite require_inr. intros [_ Hv]%andb_true_iff.
  destruct (String.eqb (pr_id p) "void"); [apply andb_true_iff in Hv as [_ ->%String.eqb_eq]; by left|].
  destruct (String.eqb (pr_id p) "bool"); [apply String.eqb_eq in Hv as ->; by right|].
  destruct (mem _ ["entity"; _; _; _; _]); [apply String.eqb_eq in Hv as ->; by right|].
  destruct (mem _ _) eqn:Em; [|done]. apply String.eqb_eq in Hv as ->. apply mem_In in Em.
  repeat (apply elem_of_cons in Em as [->|Em]; [by right|]). by apply elem_of_nil in Em.
Qed.

Lemma public_stack f : abi_ok f -> stack_bytes (physical (public_signature (abi f))) = inr (stack_copy_bytes (abi f)).
Proof.
  intros []. unfold stack_bytes, physical, public_signature. cbn [a_platform a_member a_parameters a_returns s_platform member_receiver s_parameters s_returns p_native].
  rewrite length_fmap, length_fmap, ao_platform0, String.eqb_refl. cbn [negb orb].
  replace (is_some _) with (is_member (receiver (abi f))) by by destruct (is_member _).
  destruct (Z.ltb_spec MAX_PARAMETERS (Z.of_nat (length (parameters (abi f))))) as [?|Hle]; [lia|].
  destruct (Z.ltb_spec MAX_CIF_ARGUMENTS (Z.of_nat (length (parameters (abi f))) + b2z (is_member (receiver (abi f))))) as [Hlt|_].
  { exfalso. unfold MAX_CIF_ARGUMENTS, MAX_PARAMETERS, b2z in *. destruct (is_member _); lia. }
  cbn [orb negb require rbind]. replace (negb (String.eqb _ "void") && _) with false.
  2:{ symmetry. apply andb_false_iff. apply projection_atom in ao_returns0 as [->|Ha]; [by left|]. rewrite Ha. by right. }
  cbn [negb require rbind]. rewrite <- list_fmap_compose. change (p_native ∘ public_position) with native.
  rewrite physical_slots by (intros p (q & -> & Hq)%list_elem_of_fmap; by apply ao_params0). cbn [rbind]. rewrite stack_of_frame, ao_stack0.
  destruct (frame_bytes_bounds (abi f) ao_count0) as (_ & [_ Hb] & _). destruct (Z.ltb_spec MAX_STACK_BYTES (frame_bytes (abi f))); [lia|done].
Qed.

Section Lowering.
Context {num : Type} `{JsonNumberLaws num} {D : Digest num} {DL : DigestLaws num}.
Notation Value := (Json.Value num).

Lemma public_parameter_value p : public_parameter (num := num) (public_position p) = parameter_value p.
Proof. destruct p as [n t pr [o|] m]; reflexivity. Qed.

(** Lowering an accepted function never fails and loses nothing: the signature has the form it was
    admitted with, on the wire too, and no borrowed position or authority of the host. *)
Theorem from_public_exact (from_str : string -> string + NormalizedBundle) text owner (summary : Value) permissions b f :
  parse from_str text owner summary permissions = inr b -> f ∈ functions b ->
  exists g, from_public f = inr g /\ public_wire (num := num) (fn_abi g) = abi_value (abi f) /\ trusted g = false /\ borrowed (fn_abi g) = false /\
    stack_bytes (physical (fn_abi g)) = inr (stack_copy_bytes (abi f)) /\
    (fn_name g, fn_id g, fn_hash g, fn_target g, fn_policy g, fn_requirement g) =
    (local_name f, canonical_id f, contract_hash f, target f, policy f, requirement f).
Proof.
  intros [_ Hacc]%contract_parse_exact Hf. pose proof (fo_abi _ _ (ac_functions _ _ _ _ Hacc f Hf)) as Ha. pose proof (public_stack f Ha) as Hs.
  unfold from_public, physical_fingerprint. rewrite Hs. cbn [rbind].
  assert (receiver (abi f) = if is_member (receiver (abi f)) then "entity" else "none") as Hr by by destruct (ao_receiver _ Ha) as [->| ->].
  replace (String.eqb _ _) with true; [rewrite Z.eqb_refl; cbn [require rbind]|].
  - eexists. split; [reflexivity|]. cbn [fn_abi fn_name fn_id fn_hash fn_target fn_policy fn_requirement trusted origin]. split_and!; try done.
    + unfold public_wire, public_signature, abi_value. cbn [s_platform member_receiver s_fingerprint s_stack_copy_bytes s_parameters s_returns p_native p_projection p_ownership].
      rewrite <- list_fmap_compose. replace (if is_some _ then "entity" else "none") with (receiver (abi f)) by (rewrite Hr at 1; by destruct (is_member _)).
      do 8 f_equal. apply list_fmap_ext. intros i p _. apply public_parameter_value.
    + unfold borrowed. apply existsb_none. intros p Hp. apply elem_of_app in Hp as [Hp|Hp].
      * cbn [s_receiver public_signature] in Hp. destruct (is_member _); [by apply list_elem_of_singleton in Hp as ->|by apply elem_of_nil in Hp].
      * cbn [s_parameters public_signature] in Hp. apply list_elem_of_fmap in Hp as (q & -> & Hq). destruct (ao_params _ Ha q Hq) as (_ & Hp & _).
        unfold is_record, hidden, public_position. cbn [p_projection]. revert Hp. unfold projection. rewrite require_inr. intros [_ Hp]%andb_true_iff.
        apply orb_false_iff. split; apply not_true_iff_false; intros E%String.eqb_eq; rewrite E in Hp; by vm_compute in Hp.
  - symmetry. apply String.eqb_eq. cbn. rewrite (ao_fingerprint _ Ha), (ao_platform _ Ha). unfold fingerprint_of. rewrite Hr at 2.
    rewrite <- list_fmap_compose. change (p_native ∘ public_position) with native. by destruct (is_member _).
Qed.
End Lowering.
(** ** Verified packages *)
Definition shown (ip : Z * Position) : bool := negb (ip.1 =? -2) && negb (hidden ip.2).
Definition shown_names (l : list (Z * Position)) : list string := (fun ip => p_name ip.2) <$> filterb shown l.
Definition record_position_ok (s : Signature) (ip : Z * Position) : Prop :=
  is_record ip.2 = true -> ip.1 <> -2 /\ p_native ip.2 = "ptr" /\ p_mutable ip.2 = [] /\
    exists i x, p_instance ip.2 = Some i /\ instances s !! i = Some x.

Lemma check_position_inr canonical s pol ex ip ex' : check_position canonical s pol ex ip = inr ex' ->
  (if shown ip then p_name ip.2 ∉ ex /\ p_name ip.2 ∉ RESERVED_FRAME_NAMES /\ ex' = p_name ip.2 :: ex else ex' = ex) /\ record_position_ok s ip.
Proof.
  destruct ip as [index p]. unfold check_position. cbv zeta. rewrite rbind_inr. intros (u & Hu & Hk). apply require_inr, negb_true_iff in Hu. rewrite rbind_inr in Hk.
  destruct Hk as (v & Hv & [= <-]). unfold shown. cbn [fst snd]. split.
  - destruct (negb (index =? -2) && negb (hidden p)) eqn:E; [|done]. cbn [andb] in Hu. bool_to_prop. split_and!; [| |done]; intros Hin%mem_In; congruence.
  - intros Hr. cbn [snd] in Hr. rewrite Hr in Hv. cbn [orb] in Hv. succeeds. bool_to_prop. cbn [fst snd].
    repeat match goal with E : String.eqb _ _ = true |- _ => apply String.eqb_eq in E end. split_and!; [done|done|by destruct (p_mutable p)|].
    destruct (p_instance p) as [i|]; [|done]. exists i. destruct (instances s !! i) as [x|] eqn:Ex; [by exists x|].
    apply lookup_ge_None_1 in Ex. match goal with E : (_ <=? _)%nat = false |- _ => apply Nat.leb_gt in E; lia end.
Qed.

Lemma check_positions_inr canonical s pol l ex : rfold (check_position canonical s pol) [] l = inr ex ->
  ex = reverse (shown_names l) /\ NoDup (shown_names l) /\ (forall n, n ∈ shown_names l -> n ∉ RESERVED_FRAME_NAMES) /\ Forall (record_position_ok s) l.
Proof.
  apply (rfold_ind _ (fun l ex => ex = reverse (shown_names l) /\ NoDup (shown_names l) /\ (forall n, n ∈ shown_names l -> n ∉ RESERVED_FRAME_NAMES) /\
    Forall (record_position_ok s) l)).
  - split_and!; [done|constructor|by intros ? ?%elem_of_nil|constructor].
  - intros l1 x l2 a b _ (-> & Hnd & Hres & Hrec) [Hx Hr]%check_position_inr. unfold shown_names in *. rewrite filterb_app. cbn [filterb].
    destruct (shown x); [|rewrite app_nil_r; split_and!; [done..|]; apply Forall_app; split; [done|]; by constructor].
    destruct Hx as (Hn & Hx & ->). rewrite fmap_app. cbn [fmap list_fmap]. rewrite reverse_snoc. rewrite elem_of_reverse in Hn. split_and!.
    + done.
    + apply NoDup_app. split_and!; [done|by intros n Hin ->%list_elem_of_singleton|apply NoDup_singleton].
    + intros n [Hin| ->%list_elem_of_singleton]%elem_of_app; [by apply Hres|done].
    + apply Forall_app. split; [done|]. by constructor.
Qed.

Lemma check_scratch_inr l : forall ex ex', rfold check_scratch ex l = inr ex' ->
  NoDup (s_name <$> l) /\ (forall n, n ∈ s_name <$> l -> n ∉ ex /\ n ∉ RESERVED_FRAME_NAMES).
Proof.
  induction l as [|x l IH]; intros ex ex'; cbn [rfold fmap list_fmap]; [intros _; split; [constructor|by intros ? ?%elem_of_nil]|].
  intros (a & Hx & Hl)%rbind_inr. unfold check_scratch in Hx. succeeds. bool_to_prop. apply IH in Hl as [Hnd Hn]. split.
  - constructor; [|done]. intros Hin. apply Hn in Hin as [Hin _]. subst a. apply Hin. by left.
  - intros n [->|Hin]%elem_of_cons; [split; intros E%mem_In; congruence|]. apply Hn in Hin as [Hin Hr]. split; [|done]. intros ?. apply Hin. subst a. by right.
Qed.

Section Trusted.
Context {num : Type} `{JsonNumberLaws num} {D : Digest num} {DL : DigestLaws num}.

(** What an available function of a verified package has. *)
Record input_ok (offsets : gmap string Z) (s : Signature) (pol : Policy) : Prop := mkInputOk {
  io_call : "call" ∉ surfaces pol;
  io_instances : forall x, x ∈ instances s -> validate_layout (record_ x) = inr tt /\ layout_hash x = layout_digest (num := num) (record_ x) /\
    forall f, f ∈ fields (record_ x) -> offsets !! offset_key f = Some (offset f) /\ (write f <> [] -> "pre" ∈ surfaces pol);
  io_records : Forall (record_position_ok s) (positions s);
  io_names : NoDup (shown_names (positions s) ++ (s_name <$> scratch s));
  io_reserved : forall n, n ∈ shown_names (positions s) ++ (s_name <$> scratch s) -> n ∉ RESERVED_FRAME_NAMES;
  io_stack : stack_bytes (physical s) = inr (s_stack_copy_bytes s);
}.

Lemma check_input_inr offsets canonical t : check_input offsets canonical t = inr tt -> input_ok offsets (t_signature t) (t_policy t).
Proof.
  unfold check_input. intros Hc. succeeds.
  match goal with E : rfold (check_position _ _ _) _ _ = inr _ |- _ => apply check_positions_inr in E as (-> & Hnd & Hres & Hrec) end.
  match goal with E : rfold check_scratch _ _ = inr _ |- _ => apply check_scratch_inr in E as [Hsn Hs] end.
  match goal with E : reach (check_instance _ _) _ = inr _ |- _ => rewrite reach_inr in E; rename E into Hinst end.
  match goal with E : negb (has_surface _ "call") = true |- _ => rename E into Hcall end.
  match goal with E : (if _ then _ else _) = inr _ |- _ => destruct (String.eqb (s_fingerprint _) _); [|discriminate E]; rename E into Hst end. succeeds.
  constructor.
  - by apply mem_not_In.
  - intros x Hx. specialize (Hinst x Hx). unfold check_instance in Hinst. succeeds.
    repeat match goal with u : unit |- _ => destruct u end.
    match goal with E : reach (check_instance_field _ _) _ = inr _ |- _ => rewrite reach_inr in E; rename E into Hf end.
    split_and!; [done|by apply String.eqb_eq|]. intros f Hin. specialize (Hf f Hin). unfold check_instance_field in Hf. succeeds. bool_to_prop.
    split; [congruence|]. intros Hw. apply mem_In. destruct (write f); [done|]. done.
  - done.
  - apply NoDup_app. split_and!; [done| |done]. intros n Hn Hin. apply Hs in Hin as [Hin _]. apply Hin. by apply elem_of_reverse.
  - intros n [Hn|Hn]%elem_of_app; [by apply Hres|by apply Hs].
  - bool_to_prop. congruence.
Qed.

(** The native form of a host contract. The host seals the whole contract, scratch included; the native side
    gets what is left of it without the scratch, under the hash of exactly that. *)
Definition without_scratch (s : Signature) : Signature :=
  mkSignature (s_platform s) (member_receiver s) (s_receiver s) (s_parameters s) (s_returns s) (s_fingerprint s) (s_stack_copy_bytes s) (instances s) [].
Definition native_of (f : Function_) (selected : string) (v : Json.Value num) : Prop :=
  remove "contractHash" v = sealed_value (without_scratch (fn_abi f)) (fn_policy f) selected /\
  Json.field v "contractHash" = Some (str (hash (remove "contractHash" v))) /\
  (scratch (fn_abi f) = [] -> Json.field v "contractHash" = Some (str (fn_hash f))).
Lemma sealed_without_scratch s p h : scratch s <> [] ->
  map_key "signature" (remove (num := num) "scratch") (sealed_value s p h) = sealed_value (without_scratch s) p h.
Proof. destruct s as [? ? ? ? ? ? ? ? [|x l]]; [done|]. intros _. vm_compute. reflexivity. Qed.
Lemma with_contract_hash s p h x :
  remove "contractHash" (set_key "contractHash" x (sealed_value (num := num) s p h)) = sealed_value s p h /\
  Json.field (set_key "contractHash" x (sealed_value (num := num) s p h)) "contractHash" = Some x.
Proof. split; vm_compute; reflexivity. Qed.

(** What a package's function is after its input. *)
Definition prepared_ok (owner : OwnerKey) (selected : string) (offsets : gmap string Z) (t : TrustedFunctionInput) (p : PreparedFunction) : Prop :=
  let f := function_ p in
  host_owner f = Some owner /\ fn_id f = o_id owner +:+ "::" +:+ fn_name f /\ identifier (fn_name f) = true /\
  (fn_name f, fn_target f, fn_abi f, fn_policy f, fn_requirement f) = (t_name t, t_target t, t_signature t, t_policy t, t_requirement t) /\
  fn_hash f = hash (sealed_value (num := num) (fn_abi f) (fn_policy f) selected) /\
  (required (provenance p) = true <-> fn_requirement f = "required") /\ (required (provenance p) = true -> unavailable p = None) /\
  (unavailable p = None -> input_ok offsets (fn_abi f) (fn_policy f)) /\ (exists v, trusted_wire (num := num) f = inr v /\ native_of f selected v).

Lemma trusted_wire_native f g : origin f = Trusted g -> fn_hash f = sealed_contract g -> target_hash g = hash (num := num) (target_value (fn_target f)) ->
  sealed_contract g = hash (sealed_value (num := num) (fn_abi f) (fn_policy f) (selected_hash g)) -> exists v, trusted_wire (num := num) f = inr v /\ native_of f (selected_hash g) v.
Proof.
  intros Ho Hf Ht Hs. unfold trusted_wire. rewrite Ho. cbv zeta. rewrite Hf, Ht, <- Hs, !String.eqb_refl. cbn [negb orb require rbind].
  unfold native_of. rewrite Hf. destruct (scratch (fn_abi f)) as [|x l] eqn:Es; cbn [is_nil].
  - eexists. split; [reflexivity|]. destruct (with_contract_hash (fn_abi f) (fn_policy f) (selected_hash g) (str (sealed_contract g))) as [Hr Hc].
    rewrite Hr, Hc, <- Hs. split_and!; [|done|done]. f_equal. clear -Es. destruct (fn_abi f). cbn in Es. by subst.
  - rewrite sealed_without_scratch by (by rewrite Es). eexists. split; [reflexivity|].
    match goal with |- context [set_key "contractHash" ?y _] => destruct (with_contract_hash (without_scratch (fn_abi f)) (fn_policy f) (selected_hash g) y) as [Hr Hc] end.
    rewrite Hr, Hc. by split_and!.
Qed.
Lemma prepare_input_inr owner manifest sel offsets ns fs t st : prepare_input (num := num) owner manifest sel offsets (ns, fs) t = inr st ->
  t_name t ∉ ns /\ exists p, st = (t_name t :: ns, fs ++ [p]) /\ fn_name (function_ p) = t_name t /\ prepared_ok owner (sha256 sel) offsets t p.
Proof.
  unfold prepare_input. cbv zeta. rewrite rbind_inr. intros (u & Hu & Hk). apply require_inr, negb_true_iff in Hu. rewrite rbind_inr in Hk.
  destruct Hk as (v & Hv & [= <-]). bool_to_prop. split; [intros Hin%mem_In; congruence|]. eexists. split; [reflexivity|]. split; [done|].
  unfold prepared_ok. cbn [function_ host_owner origin g_owner fn_id fn_name fn_hash fn_target provenance required unavailable fn_requirement fn_abi fn_policy]. split_and!; try done.
  - split; intros E%String.eqb_eq; exact E.
  - intros Hr. rewrite Hr in Hv. rewrite map_err_inr in Hv. by rewrite Hv.
  - intros Hun. destruct (check_input _ _ _) as [|[]] eqn:Hc; [done|]. by eapply check_input_inr.
  - by eapply (trusted_wire_native _ (mkGrant owner (sha256 sel) (bytes sel) _ _)).
Qed.

Lemma prepare_inputs_inr owner manifest sel offsets l ns fs :
  rfold (prepare_input (num := num) owner manifest sel offsets) ([], []) l = inr (ns, fs) ->
  ns = reverse ((fun p => fn_name (function_ p)) <$> fs) /\ NoDup ((fun p => fn_name (function_ p)) <$> fs) /\
  Forall2 (prepared_ok owner (sha256 sel) offsets) l fs.
Proof.
  apply (rfold_ind _ (fun l (st : list string * list PreparedFunction) =>
    st.1 = reverse ((fun p => fn_name (function_ p)) <$> st.2) /\ NoDup ((fun p => fn_name (function_ p)) <$> st.2) /\
    Forall2 (prepared_ok owner (sha256 sel) offsets) l st.2) _ l (ns, fs)).
  - split_and!; [done|constructor|constructor].
  - intros l1 x l2 [ns1 fs1] b _ (Hns & Hnd & Hok) (Hn & p & -> & Hp & Hpok)%prepare_input_inr. cbn [fst snd] in *. subst ns1.
    rewrite elem_of_reverse in Hn. rewrite fmap_app. cbn [fmap list_fmap]. rewrite reverse_snoc, Hp. split_and!.
    + done.
    + apply NoDup_app. split_and!; [done|by intros n Hin ->%list_elem_of_singleton|apply NoDup_singleton].
    + apply Forall2_app; [done|]. constructor; [done|constructor].
Qed.

(** C29. A verified package is as verified. Its functions are the inputs in order, each belonging to the
    package, named under it once, with the target, signature, policy and requirement that were given. Its
    contract hash seals the whole contract, scratch and selected layout data included; what the native side
    is given is that contract without the scratch, which is never a native fact, under the hash of exactly
    what it receives (the same hash where there is no scratch). A required function is available; and an
    available one cannot be called by plugins, reads records only through layouts that validate, hash and
    offset for offset are those the host selected, has the stack its arguments need, and shows no name twice
    nor one of the frame's own. *)
Theorem trusted_package_sound auth entries ins sel c :
  prepare_verified_package (num := num) auth entries ins sel = inr c ->
  exists owner manifest offsets, auth = inr (owner, manifest) /\ selected_offsets entries (bytes sel) = inr offsets /\
    hash_bytes (num := num) (bytes sel) = sha256 sel /\ base c = None /\ c_owner c = o_id owner /\
    NoDup ((fun p => fn_name (function_ p)) <$> prepared c) /\ Forall2 (prepared_ok owner (sha256 sel) offsets) ins (prepared c).
Proof.
  unfold prepare_verified_package. intros Hp. succeeds. destruct a as [owner manifest]. succeeds. bool_to_prop. subst c.
  match goal with E : selected_offsets _ _ = inr ?o |- _ => exists owner, manifest, o end.
  match goal with E : rfold _ _ _ = inr ?st |- _ => rename E into Hf; destruct st as [ns fs] end. cbn [base c_owner prepared snd].
  destruct (prepare_inputs_inr _ _ _ _ _ _ _ Hf) as (_ & Hnd & Hok). split_and!; try done; by apply String.eqb_eq.
Qed.
End Trusted.
Lemma merge_trusted_names p t c : merge_trusted p t = inr c ->
  (forall q, p = Some q -> NoDup ((fun f => fn_name (function_ f)) <$> prepared q)) -> NoDup ((fun f => fn_name (function_ f)) <$> prepared t) ->
  NoDup ((fun f => fn_name (function_ f)) <$> prepared c) /\ c_owner c = c_owner t.
Proof.
  unfold merge_trusted. intros Hm Hp Ht. succeeds. destruct p as [q|]; [|by injection Hm as <-]. succeeds. subst c. cbn [prepared c_owner].
  match goal with E : reach _ _ = inr _ |- _ => rewrite reach_inr in E; rename E into Hd end. split; [|by apply String.eqb_eq].
  rewrite fmap_app. apply NoDup_app. split_and!; [by apply Hp| |done].
  intros n (f & -> & Hf)%list_elem_of_fmap (g & E & Hg)%list_elem_of_fmap. specialize (Hd g Hg). apply require_inr, negb_true_iff in Hd.
  rewrite existsb_none in Hd. specialize (Hd f Hf). cbn in Hd. by rewrite E, String.eqb_refl in Hd.
Qed.

(** One contract for each adapter id of a trusted artifact. *)
Definition agrees (contracts : gmap string (string * bool)) (ads : list TrustedAdapterBinding) : Prop :=
  forall a, a ∈ ads -> contracts !! ad_id (tab_contract a) = Some (ad_hash (tab_contract a), tab_override a) /\
    ad_version (tab_contract a) = 1 /\ ad_id (tab_contract a) <> "generic.v2".

Lemma check_adapter_inr cs n a cs' : check_adapter cs n a = inr cs' ->
  cs' = <[aw_id a := (aw_hash a, post_override a)]> cs /\ aw_id a <> "generic.v2" /\ forall v, cs !! aw_id a = Some v -> v = (aw_hash a, post_override a).
Proof.
  unfold check_adapter. intros Hc. succeeds. bool_to_prop. subst cs'. split_and!.
  - congruence.
  - by apply String.eqb_neq.
  - intros v E. by rewrite E in *.
Qed.

Lemma decode_adapters_agree l cs ins ads : rfold decode_function (∅, [], []) l = inr (cs, ins, ads) -> agrees cs ads.
Proof.
  apply (rfold_ind _ (fun _ (st : gmap string (string * bool) * list TrustedFunctionInput * list TrustedAdapterBinding) => agrees st.1.1 st.2) _ l (cs, ins, ads)).
  - by intros a ?%elem_of_nil.
  - intros l1 f l2 [[cs1 in1] ad1] b _ Hag Hd. cbn [fst snd] in Hag. unfold decode_function in Hd. succeeds. destruct (adapter f) as [a|]; [|by injection Hd as <-].
    succeeds. subst b. match goal with E : check_adapter _ _ _ = inr _ |- _ => apply check_adapter_inr in E as (-> & Hg & Hprior) end. cbn [fst snd].
    intros x [Hx| ->%list_elem_of_singleton]%elem_of_app; cbn [tab_contract ad_id ad_hash tab_override ad_version].
    + destruct (Hag x Hx) as (Hl & Hv & Hn). split; [|done]. destruct (decide (ad_id (tab_contract x) = aw_id a)) as [E|Hne]; [|by rewrite lookup_insert_ne].
      rewrite E, lookup_insert_eq. rewrite E in Hl. by rewrite (Hprior _ Hl).
    + split_and!; [by rewrite lookup_insert_eq|done..].
Qed.

Theorem trusted_adapters_agree {num : Type} `{Digest num} (from_slice : string -> string + ArtifactWire) data owner art a b :
  decode from_slice data owner = inr art -> a ∈ adapters art -> b ∈ adapters art -> ad_id (tab_contract a) = ad_id (tab_contract b) ->
  tab_contract a = tab_contract b /\ tab_override a = tab_override b.
Proof.
  unfold decode. intros Hd Ha Hb E. succeeds. subst art. cbn [adapters] in *.
  match goal with E : rfold _ _ _ = inr ?st |- _ => destruct st as [[cs ins] ads]; apply decode_adapters_agree in E; rename E into Hag end.
  destruct (Hag a Ha) as (La & Va & _), (Hag b Hb) as (Lb & Vb & _). rewrite E, Lb in La. destruct a as [? [] ?], b as [? [] ?]. cbn in *. by simplify_eq.
Qed.
End EngineInstance.

(** The generic adapter (package_adapter.rs): how the decisions of the subscribers of a function make
    one. [cursor] is what each next invocation answers. *)
Module PackageAdapter.
Import Multiplexer.
Section Adapter.
Context {V : Type}.
Record SubscriberDelivery := mkDelivery { action : HookResult; return_value : option V; frame_revision : Z }.
Inductive SuppressAction := SHandled | SStop.
Inductive PreDecision := DContinue | DChanged | DSuppress (a : SuppressAction) (v : option V).

Definition decision (d : SubscriberDelivery) : PreDecision :=
  match action d with
  | Continue => DContinue
  | Changed => DChanged
  | Handled => DSuppress SHandled (return_value d)
  | HStop => DSuppress SStop (return_value d)
  end.
Fixpoint pre_loop (best : PreDecision) (strength : HookResult) (revision : Z) (cursor : list (string + SubscriberDelivery)) : string + PreDecision :=
  match cursor with
  | [] => inr best
  | inl e :: _ => inl e
  | inr d :: cursor =>
      if frame_revision d <? revision then inl "frame revision regressed"
      else
        let '(best, strength) := if result_gt (action d) strength then (decision d, action d) else (best, strength) in
        if bool_decide (action d = HStop) then inr best else pre_loop best strength (frame_revision d) cursor
  end.
Definition pre (cursor : list (string + SubscriberDelivery)) : string + PreDecision := pre_loop DContinue Continue 0 cursor.
Fixpoint post (cursor : list (string + SubscriberDelivery)) : string + unit :=
  match cursor with
  | [] => inr tt
  | inl e :: _ => inl e
  | inr _ :: cursor => post cursor
  end.

(** The deliveries up to the first that stops. *)
Fixpoint until_stop (l : list SubscriberDelivery) : list SubscriberDelivery :=
  match l with
  | [] => []
  | d :: l => d :: if bool_decide (action d = HStop) then [] else until_stop l
  end.
(** The first delivery at least as strong as any. *)
Definition first_strongest (l : list SubscriberDelivery) (d : SubscriberDelivery) : Prop :=
  exists l1 l2, l = l1 ++ d :: l2 /\ Forall (fun x => result_rank (action x) < result_rank (action d)) l1 /\
    Forall (fun x => result_rank (action x) <= result_rank (action d)) l2.

Lemma pre_loop_inr cursor : forall best s r res, 0 <= result_rank s -> pre_loop best s r cursor = inr res ->
  exists l, (inr <$> l) `prefix_of` cursor /\ until_stop l = l /\ (length l < length cursor -> exists d, last l = Some d /\ action d = HStop)%nat /\
    ((Forall (fun x => result_rank (action x) <= result_rank s) l /\ res = best) \/
     exists d, first_strongest l d /\ result_rank s < result_rank (action d) /\ res = decision d).
Proof.
  induction cursor as [|[e|d] cursor IH]; intros best s r res Hs; cbn [pre_loop].
  - intros [= <-]. exists []. split_and!; [apply prefix_nil|done|cbn; lia|by left].
  - done.
  - destruct (frame_revision d <? r); [done|]. unfold result_gt. destruct (Z.ltb_spec (result_rank s) (result_rank (action d))) as [Hlt|Hge].
    + case_bool_decide as Hst.
      * intros [= <-]. exists [d]. split_and!; [by exists cursor|cbn; by rewrite bool_decide_true|intros _; by exists d|].
        right. exists d. split; [|done]. exists [], []. by split_and!.
      * intros Hl. apply IH in Hl as (l & [k Hp] & Hu & Hstop & Hl); [|lia]. exists (d :: l). split_and!.
        -- exists k. cbn. by rewrite Hp.
        -- cbn. by rewrite bool_decide_false, Hu.
        -- cbn. intros Hlen. destruct Hstop as (x & Hx & Hax); [lia|]. exists x. split; [by destruct l|done].
        -- right. destruct Hl as [[Hall ->]|(x & (l1 & l2 & -> & H1 & H2) & Hx & ->)].
           ++ exists d. split; [|done]. exists [], l. by split_and!.
           ++ exists x. split; [|split; [lia|done]]. exists (d :: l1), l2. split_and!; [done|by constructor|done].
    + case_bool_decide as Hst.
      * intros [= <-]. exists [d]. split_and!; [by exists cursor|cbn; by rewrite bool_decide_true|intros _; by exists d|]. left. split; [|done]. by constructor.
      * intros Hl. apply IH in Hl as (l & [k Hp] & Hu & Hstop & Hl); [|lia]. exists (d :: l). split_and!.
        -- exists k. cbn. by rewrite Hp.
        -- cbn. by rewrite bool_decide_false, Hu.
        -- cbn. intros Hlen. destruct Hstop as (x & Hx & Hax); [lia|]. exists x. split; [by destruct l|done].
        -- destruct Hl as [[Hall ->]|(x & (l1 & l2 & -> & H1 & H2) & Hx & ->)].
           ++ left. split; [|done]. by constructor.
           ++ right. exists x. split; [|done]. exists (d :: l1), l2. split_and!; [done|constructor; [lia|done]|done].
Qed.

(** The strongest decision wins, the first of equals. Subscribers are asked in order up to the first that
    stops; if none of them asks for more than to continue the call goes on, and otherwise the answer is
    that of the first subscriber whose action no other exceeds, with the return value it gave. *)
Theorem adapter_pre_strongest cursor res :
  pre cursor = inr res ->
  exists l, (inr <$> l) `prefix_of` cursor /\ until_stop l = l /\ (length l < length cursor -> exists d, last l = Some d /\ action d = HStop)%nat /\
    (Forall (fun x => action x = Continue) l /\ res = DContinue \/
     exists d, first_strongest l d /\ action d <> Continue /\ res = decision d).
Proof.
  intros (l & Hp & Hu & Hs & Hl)%pre_loop_inr; [|done]. exists l. split_and!; try done. destruct Hl as [[Hall ->]|(d & Hd & Hr & ->)].
  - left. split; [|done]. eapply Forall_impl; [exact Hall|]. intros x Hx. cbn in Hx. by destruct (action x).
  - right. exists d. split_and!; [done| |done]. intros E. rewrite E in Hr. cbn in Hr. lia.
Qed.
End Adapter.
Arguments SubscriberDelivery : clear implicits.
End PackageAdapter.

Module EngineInstanceExamples.
Import EngineAbi EngineContract EngineInstance EngineContractExamples JsonExamples.

Definition health : RecordField := mkField "health" "CTakeDamageInfo.health" 4 "i32" false ["pre"; "post"] ["pre"].
Definition attacker : RecordField := mkField "attacker" "CTakeDamageInfo.attacker" 8 "entity-handle32" true ["pre"] [].
Definition info : RecordLayout := mkLayout 16 8 [health; attacker].
Example info_valid : validate_layout info = inr tt.
Proof. vm_compute. reflexivity. Qed.
Example info_overlap : validate_layout (mkLayout 16 8 [health; mkField "half" "x" 6 "u16" false ["pre"] []]) = inl "record field overlap".
Proof. vm_compute. reflexivity. Qed.

Lemma record_layout_sound_witness : validate_layout info = inr tt /\ NoDup (f_name <$> fields info).
Proof. split; [exact info_valid|]. destruct (record_layout_sound info info_valid ltac:(discriminate)) as (_ & _ & _ & Hnd & _). exact Hnd. Defined.

Lemma from_public_exact_witness : length (functions demo) = 2%nat /\ forall f, f ∈ functions demo -> exists g, from_public f = inr g /\ trusted g = false.
Proof.
  split; [reflexivity|]. intros f Hf. destruct (from_public_exact _ _ _ _ _ _ f demo_parses Hf) as (g & Hg & _ & Ht & _). exists g. split; [exact Hg|exact Ht].
Defined.

(** A hook on damage: the receiver, a record of the attack, a scratch counter. *)
Definition damage : Signature :=
  let self := mkPosition "self" "ptr" (mkProjection "entity" 1) None [] None false in
  let rec := mkPosition "info" "ptr" (mkProjection "borrowed-record" 1) (Some "synchronous-record") [] (Some 0%nat) false in
  mkSignature PLATFORM true (Some self) [rec] (mkPosition "" "void" (mkProjection "void" 1) None [] None false)
    "linux-x86_64-sysv:entity:void(ptr)" 128 [mkInstance "borrowed-record" 1 None (layout_digest info) info] [mkScratch "seen" "i32"].
Definition hook_policy : Policy :=
  let p h := mkPolicy "generic.v2" 1 h ["pre"] "bypass-own-hooks" "none" in p (hash (remove "contractHash" (policy_value (p "")))).
Definition damage_input : TrustedFunctionInput := mkInput "damage" direct damage hook_policy "required".
Definition entries (_ : string) : string + list (string * Z) := inr [("CTakeDamageInfo.health", 4); ("CTakeDamageInfo.attacker", 8)].
Definition stale_entries (_ : string) : string + list (string * Z) := inr [("CTakeDamageInfo.health", 4); ("CTakeDamageInfo.attacker", 12)].
Definition cs2 : OwnerKey := mkOwner "@s2/cs2" 1 GamePackage.
Definition offsets_data : SelectedLayoutData := mkSelected "offsets" "offsets".
Definition verified := prepare_verified_package (inr (cs2, "manifest")) entries [damage_input] offsets_data.

Example stale_offset :
  prepare_verified_package (inr (cs2, "manifest")) stale_entries [damage_input] offsets_data = inl "@s2/cs2::damage: stale selected field offset".
Proof. vm_compute. reflexivity. Qed.
Example verified_available : (fun c => unavailable <$> prepared c) <$> (match verified with inr c => Some c | inl _ => None end) = Some [None].
Proof. vm_compute. reflexivity. Qed.

(** The function of [verified] has scratch: its native contract has none, and another hash. *)
Example native_hash_differs : (fun f => match trusted_wire (num := num) f with inr v => bool_decide (Json.str_field v "contractHash" = Some (fn_hash f)) | inl _ => true end)
  <$> (match verified with inr c => function_ <$> prepared c | inl _ => [] end) = [false].
Proof. vm_compute. reflexivity. Qed.
Lemma trusted_package_sound_witness : exists c p, verified = inr c /\ c_owner c = "@s2/cs2" /\ prepared c = [p] /\
  scratch (fn_abi (function_ p)) <> [] /\ exists v, trusted_wire (num := num) (function_ p) = inr v /\ native_of (function_ p) "offsets" v.
Proof.
  destruct verified as [e|c] eqn:E; [vm_compute in E; discriminate E|].
  destruct (trusted_package_sound _ _ _ _ _ E) as (o & m & off & Ha & _ & _ & _ & Ho & _ & Hl). injection Ha as <- <-.
  apply Forall2_cons_inv_l in Hl as (p & l & Hp & Hl & Ec). apply Forall2_nil_inv_l in Hl as ->. exists c, p.
  destruct Hp as (_ & _ & _ & Hin & _ & _ & _ & _ & Hw). split; [reflexivity|]. split; [exact Ho|]. split; [exact Ec|]. split; [|exact Hw].
  injection Hin as _ _ Habi _ _. rewrite Habi. discriminate.
Defined.

Definition zeros (c : string) : string := String.concat "" (replicate 64 c).
Definition artifact (_ : string) : string + ArtifactWire :=
  let a := Some (mkAdapterWire "damage.v1" (zeros "a") true) in
  inr (mkArtifact 1 "@s2/cs2" (zeros "0") (zeros "0") [mkFunctionWire damage_input a; mkFunctionWire damage_input a]).
Lemma trusted_adapters_agree_witness :
  exists art, decode artifact "text" "@s2/cs2" = inr art /\ forall a b, a ∈ adapters art -> b ∈ adapters art -> ad_id (tab_contract a) = ad_id (tab_contract b) -> tab_contract a = tab_contract b.
Proof.
  destruct (decode artifact "text" "@s2/cs2") as [e|art] eqn:E; [vm_compute in E; discriminate E|]. exists art. split; [reflexivity|].
  intros a b Ha Hb Hid. exact (proj1 (trusted_adapters_agree _ _ _ _ a b E Ha Hb Hid)).
Defined.

Import Multiplexer PackageAdapter.
Definition deliveries : list (string + SubscriberDelivery Z) :=
  [inr (mkDelivery Changed None 0); inr (mkDelivery Handled (Some 7) 1); inr (mkDelivery Handled (Some 8) 1); inr (mkDelivery Changed None 2)].
Lemma adapter_pre_strongest_witness : pre deliveries = inr (DSuppress SHandled (Some 7)) /\ exists l : list (SubscriberDelivery Z), until_stop l = l.
Proof.
  split; [reflexivity|]. destruct (adapter_pre_strongest deliveries _ eq_refl) as (l & _ & Hu & _). exists l. exact Hu.
Defined.
End EngineInstanceExamples.
