(* ===== verification/EngineOverrides.v ===== *)
(** Operator overrides of engine functions (core/src/engine_functions/overrides.rs).

    An operator may correct where a function is found, in files of the plugin's own override directory.
    [prepare] applies a snapshot of these files to an accepted bundle: only targets change, an override
    must name the contract it was written for and the override it supersedes, and whatever is wrong with
    one optional function's entry makes that function unavailable and nothing else. The readers derived
    from the types, the digest and the snapshot operation of the engine are parameters; what the source
    writes itself of the reading (comments, duplicate keys) is modelled. *)
From S2P Require Import Prelude.
From S2P Require Import Results.
From S2P Require Import Json.
From S2P Require Import Utf8.
From S2P Require Import EngineContract.
From S2P Require Import EngineInstance.
From Stdlib Require Import Ascii.
From Stdlib Require String.
Import Json.
Import EngineAbi EngineContract EngineInstance.

Module EngineOverrides.

Definition MAX_FILES : Z := 64.
Definition MAX_FILE_BYTES : Z := 256 * 1024.
Definition MAX_TOTAL_BYTES : Z := 4 * 1024 * 1024.
Record SnapshotRecord := mkRecord { relative_path : string; r_sha256 : string; content : string }.

(** [retained_bytes]; [capacity] and [list_bytes] are what the allocator gave. *)
Definition retained_record (capacity : string -> Z) (st : Z * Z) (r : SnapshotRecord) : string + (Z * Z) :=
  let* _ := require (negb (MAX_FILE_BYTES <? str_len (content r))) (relative_path r +:+ ": override file size limit") in
  inr (sat_add st.1 (str_len (content r)),
       sat_add (sat_add (sat_add st.2 (capacity (relative_path r))) (capacity (r_sha256 r))) (capacity (content r))).
Definition retained_bytes (capacity : string -> Z) (list_bytes : Z) (records : list SnapshotRecord) : string + Z :=
  let* _ := require (negb (MAX_FILES <? Z.of_nat (length records))) "override file count limit" in
  let* st := rfold (retained_record capacity) (0, list_bytes) records in
  let* _ := require (negb (MAX_TOTAL_BYTES <? st.1)) "override total size limit" in
  inr st.2.

(** [snapshot]: the engine's answer, and its text read as records or an error. *)
Definition snapshot (op : option (string -> option string)) (to_utf8 : string -> option string) (from_str : string -> string + (list SnapshotRecord * option string))
    (capacity : string -> Z) (list_bytes : Z) (owner : string) : string + list SnapshotRecord :=
  let* op := ok_or op "engine function override snapshot op unavailable" in
  let* _ := require (negb (contains_nul owner)) "NUL owner" in
  let* raw := ok_or (op owner) "override snapshot failed" in
  let* text := ok_or (to_utf8 raw) "invalid UTF-8 snapshot" in
  let* _ := require (negb (MAX_TOTAL_BYTES * 6 + MAX_FILES * 4096 <? str_len text)) "override snapshot size limit" in
  let* r := from_str text in
  let '(records, error) := r in
  match error with
  | Some e => inl e
  | None => let* _ := retained_bytes capacity list_bytes records in inr records
  end.

(** ** Comments *)
Definition quote : ascii := ascii_of_nat 34.
Definition newline : ascii := ascii_of_nat 10.
Definition carriage : ascii := ascii_of_nat 13.
Inductive Mode := Code | Text | Escaped | Line | Open | Block | Close.
Definition next_is (c : ascii) (l : list ascii) : bool := match l with x :: _ => Ascii.eqb x c | [] => false end.
(** What the loop makes of the byte at [i], and where it goes on. *)
Definition scan_byte (m : Mode) (c : ascii) (rest : list ascii) : ascii * Mode :=
  match m with
  | Text => (c, if Ascii.eqb c "\"%char then Escaped else if Ascii.eqb c quote then Code else Text)
  | Escaped => (c, Text)
  | Code =>
      if Ascii.eqb c quote then (c, Text)
      else if Ascii.eqb c "/"%char && next_is "/"%char rest then (" "%char, Line)
      else if Ascii.eqb c "/"%char && next_is "*"%char rest then (" "%char, Open)
      else (c, Code)
  | Line => if Ascii.eqb c newline then (c, Code) else (" "%char, Line)
  | Open => (" "%char, Block)
  | Block =>
      if Ascii.eqb c "*"%char && next_is "/"%char rest then (" "%char, Close)
      else (if Ascii.eqb c newline || Ascii.eqb c carriage then c else " "%char, Block)
  | Close => (" "%char, Code)
  end.
Fixpoint scan (m : Mode) (b : list ascii) : string + list ascii :=
  match b with
  | [] => match m with Block => inl "unterminated JSONC comment" | _ => inr [] end
  | c :: rest =>
      let '(d, m) := scan_byte m c rest in
      let* out := scan m rest in inr (d :: out)
  end.
Definition jsonc (text : string) : string + string :=
  let* out := scan Code (chars text) in
  ok_or (Utf8.from_utf8 (Stdlib.Strings.String.string_of_list_ascii out)) "invalid utf-8 sequence".

(** ** Duplicate keys *)
Section Checked.
Context {num : Type}.
Notation Value := (Json.Value num).

Definition or_else {A} (a b : option A) : option A := match a with Some _ => a | None => b end.
(** [CheckedValue]: the value with the first of each key, and the first duplicate found. The argument is
    the text's tree, with the keys of an object in order and as often as they occur. *)
Fixpoint checked (v : Value) : Value * option string :=
  match v with
  | Array l =>
      let cs := map checked l in
      (Array (map fst cs), foldl (fun d (c : Value * option string) => or_else d c.2) None cs)
  | Object m =>
      let cs := map (fun kv => (kv.1, checked kv.2)) m in
      let r := foldl (fun (st : list (string * Value) * option string) (kc : string * (Value * option string)) =>
          let d := or_else st.2 kc.2.2 in
          if contains_key st.1 kc.1 then (st.1, or_else d (Some ("duplicate key " +:+ kc.1)))
          else (Json.insert kc.1 kc.2.1 st.1, d)) ([], None) cs in
      (Object r.1, r.2)
  | v => (v, None)
  end.
Definition into_result (c : Value * option string) : string + Value :=
  match c.2 with Some reason => inl reason | None => inr c.1 end.
(** The entries of [functions], by name. *)
Definition unique_entry (fs : list (string * (Value * option string))) (kv : string * Value) : string + list (string * (Value * option string)) :=
  let* _ := require (negb (contains_key fs kv.1)) ("duplicate function name " +:+ kv.1) in
  inr (Json.insert kv.1 (checked kv.2) fs).
Definition unique_functions (entries : list (string * Value)) : string + list (string * (Value * option string)) :=
  rfold unique_entry [] entries.
End Checked.

(** ** The plugin's directory *)
Definition alphabet : list ascii := chars "ABCDEFGHIJKLMNOPQRSTUVWXYZabcdefghijklmnopqrstuvwxyz0123456789-_".
Definition letter (v : Z) : ascii := nth (Z.to_nat (Z.land v 63)) alphabet "A"%char.
(** The inner loop: at most two letters for a byte. *)
Fixpoint emit (fuel : nat) (value bits : Z) : list ascii * Z :=
  match fuel with
  | O => ([], bits)
  | S fuel =>
      if 6 <=? bits
      then let '(l, b) := emit fuel value (bits - 6) in (letter (Z.shiftr value (bits - 6)) :: l, b)
      else ([], bits)
  end.
Fixpoint encode (value bits : Z) (b : list ascii) : list ascii :=
  match b with
  | [] => if 0 <? bits then [letter (u32_wrap (Z.shiftl value (6 - bits)))] else []
  | c :: b =>
      let value := u32_wrap (Z.lor (u32_wrap (Z.shiftl value 8)) (Z.of_nat (nat_of_ascii c))) in
      let '(l, bits) := emit 3 value (bits + 8) in
      l ++ encode value bits b
  end.
Definition plugin_directory (owner : string) : string :=
  "id-" +:+ Stdlib.Strings.String.string_of_list_ascii (encode 0 0 (chars owner)).
(** ** Targets *)
Record SignatureWire := mkSignatureWire { w_kind : option string; w_module : string; w_pattern : string; w_validate : Validator; w_target_validate : option Validator }.
Record VirtualWire := mkVirtualWire { v_kind : string; v_module : string; v_class : string; v_index : Z; v_validate : Validator }.
Record Entry (V : Type) := mkEntry { e_contract_hash : string; e_target : V; e_resolve : option string; e_supersedes : option string }.
Arguments mkEntry {V}.
Arguments e_contract_hash {V}.
Arguments e_target {V}.
Arguments e_resolve {V}.
Arguments e_supersedes {V}.
Record OverrideFile (V : Type) := mkFile { schema_version : Z; owner_id : string; entries : list (string * V) }.
Arguments mkFile {V}.
Arguments schema_version {V}.
Arguments owner_id {V}.
Arguments entries {V}.

(** The readers derived from the types above, of values and of text. *)
Class Readers (num : Type) := {
  read_signature : Json.Value num -> string + SignatureWire;
  read_virtual : Json.Value num -> string + VirtualWire;
  read_entry : Json.Value num -> string + Entry (Json.Value num);
  read_file : string -> string + OverrideFile (Json.Value num);
}.

Section Prepare.
Context {num : Type} `{JsonNumber num} `{Digest num} `{Readers num}.
Notation Value := (Json.Value num).

Definition is_virtual (v : Value) : bool :=
  match v with Object m => match get m "kind" with Some (String_ k) => String.eqb k "virtual" | _ => false end | _ => false end.
Definition signature_target (t : SignatureWire) (resolve : string) : string + NormalizedTarget :=
  let* _ := require (negb (match w_kind t with Some k => negb (String.eqb k "signature") | None => false end || is_empty (w_validate t)))
              "invalid signature/empty validator" in
  let* derivation := ok_or (derivation_of resolve) "unsupported resolver" in
  let call := String.eqb resolve "validated-call" in
  let* _ := require (negb (negb call && is_some (w_target_validate t))) "targetValidate requires validated-call" in
  let* _ := require (negb (match w_target_validate t with Some v => is_empty v | None => false end)) "empty targetValidate" in
  let '(c, v) := if call then (w_validate t, default validator_default (w_target_validate t)) else (validator_default, w_validate t) in
  inr (EngineContract.Signature (w_module t) (w_pattern t) resolve derivation c v).
Definition target_of (value : Value) (resolve : option string) : string + NormalizedTarget :=
  let resolve := default "direct" resolve in
  let* t :=
    if is_virtual value
    then
      let* t := read_virtual value in
      let* _ := require (String.eqb (v_kind t) "virtual") "invalid kind" in
      inr (Virtual (v_module t) (v_class t) (v_index t) resolve "virtual-slot" validator_default (v_validate t))
    else let* t := read_signature value in signature_target t resolve in
  let* _ := validate_target t in
  inr t.

(** ** Preparation *)
Definition initial (archive_hash_ : string) (f : NormalizedFunction) : string + PreparedFunction :=
  let pv := mkProvenance archive_hash_ None (contract_hash f) [] (hash (target_value (target f))) Pending Pending (String.eqb (requirement f) "required") in
  let* g := from_public f in inr (mkPrepared g pv None).

Fixpoint split_slash (cur l : list ascii) : list (list ascii) :=
  match l with
  | [] => [rev cur]
  | c :: l => if Ascii.eqb c "/"%char then rev cur :: split_slash [] l else split_slash (c :: cur) l
  end.
Definition components (path : string) : list (list ascii) := split_slash [] (chars path).
Fixpoint starts_with (p l : list ascii) : bool :=
  match p, l with
  | [], _ => true
  | a :: p, b :: l => Ascii.eqb a b && starts_with p l
  | _ :: _, [] => false
  end.
Definition ends_with (s l : list ascii) : bool := starts_with (rev s) (rev l).
Definition dot : ascii := "."%char.
Definition bad_component (c : list ascii) : bool :=
  is_nil c || bool_decide (c = [dot]) || bool_decide (c = [dot; dot]) || existsb (Ascii.eqb "\"%char) c || existsb (Ascii.eqb Ascii.zero) c.
Definition path_ok (prefix path : string) : bool :=
  starts_with (chars prefix) (chars path) && (length (components path) =? 5)%nat && negb (existsb bad_component (components path))
  && ends_with (chars ".jsonc") (chars path).

(** [by_name]: collecting pairs into a map keeps the last index of a name. *)
Fixpoint index_of (fs : list PreparedFunction) (n : string) : option nat :=
  match fs with
  | [] => None
  | f :: fs => match index_of fs n with Some i => Some (S i) | None => if String.eqb (fn_name (function_ f)) n then Some O else None end
  end.

(** One entry of one file. *)
Definition read_override (f : PreparedFunction) (superseded : option string) (c : Value * option string) : string + NormalizedTarget :=
  let* v := into_result c in
  let* e := read_entry v in
  let* _ := require (String.eqb (e_contract_hash e) (fn_hash (function_ f))) "stale base contract hash" in
  let* _ := require (bool_decide (e_supersedes e = superseded)) "conflicting override: exact supersedes required" in
  target_of (e_target e) (e_resolve e).
Definition set_target (f : Function_) (t : NormalizedTarget) : Function_ :=
  mkFn (fn_name f) (fn_id f) (fn_hash f) t (fn_abi f) (fn_policy f) (fn_requirement f) (origin f).
Definition overridden (f : PreparedFunction) (r : SnapshotRecord) (res : string + NormalizedTarget) : PreparedFunction :=
  let p := provenance f in
  match res with
  | inr t =>
      mkPrepared (set_target (function_ f) t)
        (mkProvenance (archive_hash p) (pv_instances p) (base_contract_hash p) (overrides p ++ [mkOverride (relative_path r) (r_sha256 r)])
           (hash (target_value t)) (resolver_result p) (validator_result p) (required p)) (unavailable f)
  | inl reason => mkPrepared (function_ f) p (Some (relative_path r +:+ ": " +:+ reason))
  end.
(** [None] is the index that panics when a function is unknown. *)
Definition apply_entry (r : SnapshotRecord) (st : list PreparedFunction * gmap string string) (nc : string * (Value * option string))
  : option (list PreparedFunction * gmap string string) :=
  let '(fs, touched) := st in
  i ← index_of fs nc.1; f ← fs !! i;
  Some (<[i := overridden f r (read_override f (touched !! nc.1) nc.2)]> fs, <[nc.1 := relative_path r]> touched).
Fixpoint apply_entries (r : SnapshotRecord) (st : list PreparedFunction * gmap string string) (l : list (string * (Value * option string)))
  : option (list PreparedFunction * gmap string string) :=
  match l with
  | [] => Some st
  | nc :: l => st ← apply_entry r st nc; apply_entries r st l
  end.

Record Walk := mkWalk { w_functions : list PreparedFunction; w_touched : gmap string string; previous : string; total : Z }.
Definition apply_record (b : NormalizedBundle) (prefix : string) (st : Walk) (r : SnapshotRecord) : string + Walk :=
  let total := total st + str_len (content r) in
  let* _ := require (str_lt (previous st) (relative_path r) && path_ok prefix (relative_path r) && negb (MAX_FILE_BYTES <? str_len (content r))
                     && negb (MAX_TOTAL_BYTES <? total) && String.eqb (hash_bytes (content r)) (r_sha256 r))
              "invalid/unsorted/oversized override snapshot or hash" in
  let* text := jsonc (content r) in
  let* raw := map_err (fun e => relative_path r +:+ ": unattributable override: " +:+ e) (read_file text) in
  let* fs := map_err (fun e => relative_path r +:+ ": unattributable override: " +:+ e) (unique_functions (entries raw)) in
  let* _ := require (negb (negb (schema_version raw =? 2) || negb (String.eqb (owner_id raw) (EngineContract.owner_id b))
                           || existsb (fun nc => negb (is_some (index_of (w_functions st) nc.1))) fs)) (relative_path r +:+ ": unattributable override") in
  let* st' := ok_or (apply_entries r (w_functions st, w_touched st) fs) "panic" in
  inr (mkWalk st'.1 st'.2 (relative_path r) total).

Definition finish (f : PreparedFunction) : string + PreparedFunction :=
  match unavailable f with
  | None => inr f
  | Some reason =>
      let p := provenance f in
      let* _ := require (negb (required p)) (fn_id (function_ f) +:+ ": required function unavailable: " +:+ reason) in
      inr (mkPrepared (function_ f)
             (mkProvenance (archive_hash p) (pv_instances p) (base_contract_hash p) (overrides p) (final_target_hash p)
                (Unavailable reason) (Unavailable reason) (required p)) (Some reason))
  end.
Definition directory (b : NormalizedBundle) : string := "gamedata/plugins/" +:+ plugin_directory (EngineContract.owner_id b) +:+ "/custom/".
Definition prepare (b : NormalizedBundle) (archive_hash_ : string) (records : list SnapshotRecord) : string + PreparedCandidate :=
  let* _ := require (negb (MAX_FILES <? Z.of_nat (length records))) "override file count limit" in
  let* fs := rmap (initial archive_hash_) (functions b) in
  let* st := rfold (apply_record b (directory b)) (mkWalk fs ∅ "" 0) records in
  let* fs := rmap finish (w_functions st) in
  inr (mkCandidate (Some b) (EngineContract.owner_id b) fs).
End Prepare.
(** * Properties *)

(** ** The directory *)
Lemma letter_mod a b : letter a = letter b -> a mod 64 = b mod 64.
Proof.
  unfold letter. change 63 with (Z.ones 6). rewrite !Z.land_ones by done. change (2 ^ 6) with 64.
  pose proof (Z.mod_pos_bound a 64 ltac:(lia)) as Ha. pose proof (Z.mod_pos_bound b 64 ltac:(lia)) as Hb. revert Ha Hb.
  generalize (a mod 64) (b mod 64). intros x y Hx Hy E.
  assert (NoDup alphabet) as Hnd by (apply (bool_decide_unpack _); vm_compute; exact I).
  assert (Z.to_nat x = Z.to_nat y); [|lia]. eapply NoDup_nth; [by apply NoDup_ListNoDup|change (length alphabet) with 64%nat; lia..|done].
Qed.

Lemma byte_range c : 0 <= Z.of_nat (nat_of_ascii c) < 256.
Proof. pose proof (nat_ascii_bounded c). lia. Qed.

Definition push (value : Z) (c : ascii) : Z := u32_wrap (Z.lor (u32_wrap (Z.shiftl value 8)) (Z.of_nat (nat_of_ascii c))).
Lemma lor_byte a k : 0 <= k < 256 -> Z.lor (a * 256) k = a * 256 + k.
Proof.
  intros Hk. assert (Z.land (a * 2 ^ 8) k = 0) as Hl.
  { apply Z.bits_inj'. intros i Hi. rewrite Z.land_spec, Z.bits_0. destruct (Z.lt_ge_cases i 8) as [Hlt|Hge].
    - by rewrite Z.mul_pow2_bits_low.
    - rewrite <- (Z.mod_small k (2 ^ 8)) by done. by rewrite Z.mod_pow2_bits_high, andb_false_r. }
  change 256 with (2 ^ 8). rewrite Z.add_nocarry_lxor by done. by rewrite Z.lxor_lor.
Qed.

Lemma wrap_low z n : 0 <= n <= 32 -> u32_wrap z mod 2 ^ n = z mod 2 ^ n.
Proof. intros Hn. apply Z.mod_mod_divide. exists (2 ^ (32 - n)). rewrite <- Z.pow_add_r by lia. f_equal. lia. Qed.

(** The low bits of the accumulator, as long as no more than 32 of them are asked for. *)
Lemma push_low value c n : 0 <= n <= 32 -> push value c mod 2 ^ n = (value * 256 + Z.of_nat (nat_of_ascii c)) mod 2 ^ n.
Proof.
  intros Hn. pose proof (byte_range c) as Hc. unfold push. rewrite wrap_low, Z.shiftl_mul_pow2 by done.
  assert (u32_wrap (value * 2 ^ 8) = (value mod 2 ^ 24) * 256) as ->.
  { unfold u32_wrap. change (2 ^ 32) with (2 ^ 24 * 2 ^ 8). by rewrite Z.mul_mod_distr_r. }
  rewrite lor_byte by done. pose proof (Z.pow_pos_nonneg 2 n ltac:(done) ltac:(lia)).
  rewrite <- (Z.add_mod_idemp_l (_ * 256)), <- (Z.add_mod_idemp_l (value * 256)) by lia. f_equal. f_equal.
  rewrite <- (wrap_low (value * 256)) by done. f_equal. unfold u32_wrap. change 256 with (2 ^ 8). change (2 ^ 32) with (2 ^ 24 * 2 ^ 8). by rewrite Z.mul_mod_distr_r.
Qed.

(** Six bits of a number, from its low bits. *)
Lemma letter_bits v s : 0 <= s <= 26 -> Z.shiftr v s mod 64 = (v mod 2 ^ (s + 6)) / 2 ^ s.
Proof.
  intros Hs. rewrite Z.shiftr_div_pow2 by lia. rewrite Z.pow_add_r by lia. change (2 ^ 6) with 64.
  pose proof (Z.pow_pos_nonneg 2 s ltac:(done) ltac:(lia)). rewrite Z.rem_mul_r by lia. rewrite Z.mul_comm, Z.div_add by lia.
  rewrite (Z.div_small (v mod 2 ^ s)); [done|]. by apply Z.mod_pos_bound.
Qed.

(** A pending remainder grows by a byte: 8, 10 or 12 bits are 6 or 12 bits of letters and 2, 4 or no bits. *)
Lemma encode_cons value bits c b : bits = 0 \/ bits = 2 \/ bits = 4 ->
  encode value bits (c :: b) =
    if bits =? 4 then letter (Z.shiftr (push value c) 6) :: letter (Z.shiftr (push value c) 0) :: encode (push value c) 0 b
    else letter (Z.shiftr (push value c) (bits + 2)) :: encode (push value c) (bits + 2) b.
Proof. intros [->|[->| ->]]; reflexivity. Qed.

Lemma encode_length value bits b : bits = 0 \/ bits = 2 \/ bits = 4 -> Z.of_nat (length (encode value bits b)) = (bits + 8 * Z.of_nat (length b) + 5) / 6.
Proof.
  revert value bits. induction b as [|c b IH]; intros value bits Hb.
  - destruct Hb as [->|[->| ->]]; reflexivity.
  - rewrite encode_cons by done. destruct Hb as [->|[->| ->]]; cbn [Z.eqb Pos.eqb];
      [pose proof (IH (push value c) 2 ltac:(tauto))|pose proof (IH (push value c) 4 ltac:(tauto))|pose proof (IH (push value c) 0 ltac:(tauto))];
      cbn [length]; change (0 + 2) with 2; change (2 + 2) with 4; Z.to_euclidean_division_equations; lia.
Qed.

(** What was pending and the bytes to come can be read back. *)
Lemma encode_inj bits b : bits = 0 \/ bits = 2 \/ bits = 4 -> forall v v' b', encode v bits b = encode v' bits b' ->
  v mod 2 ^ bits = v' mod 2 ^ bits /\ b = b'.
Proof.
  intros Hb. revert bits Hb. induction b as [|c b IH]; intros bits Hb v v' b' E.
  - assert (b' = []) as ->.
    { destruct b' as [|c' b']; [done|]. exfalso. apply (f_equal (fun l => Z.of_nat (length l))) in E. rewrite !encode_length in E by done. cbn [length] in E.
      Z.to_euclidean_division_equations; lia. }
    split; [|done]. destruct Hb as [->|[->| ->]]; [by rewrite !Z.mod_1_r|..].
    + change ([letter (u32_wrap (Z.shiftl v 4))] = [letter (u32_wrap (Z.shiftl v' 4))]) in E. injection E as E%letter_mod.
      rewrite !Z.shiftl_mul_pow2 in E by done. change 64 with (2 ^ 6) in E. rewrite !wrap_low in E by done.
      change (2 ^ 6) with (2 ^ 2 * 2 ^ 4) in E. rewrite !Z.mul_mod_distr_r in E by done. lia.
    + change ([letter (u32_wrap (Z.shiftl v 2))] = [letter (u32_wrap (Z.shiftl v' 2))]) in E. injection E as E%letter_mod.
      rewrite !Z.shiftl_mul_pow2 in E by done. change 64 with (2 ^ 6) in E. rewrite !wrap_low in E by done.
      change (2 ^ 6) with (2 ^ 4 * 2 ^ 2) in E. rewrite !Z.mul_mod_distr_r in E by done. lia.
  - destruct b' as [|c' b'].
    { exfalso. apply (f_equal (fun l => Z.of_nat (length l))) in E. rewrite !encode_length in E by done. cbn [length] in E. Z.to_euclidean_division_equations; lia. }
    rewrite !encode_cons in E by done.
    assert (b = b' /\ push v c mod 2 ^ (bits + 8) = push v' c' mod 2 ^ (bits + 8)) as [-> W].
    { generalize dependent (push v' c'). generalize (push v c). intros w w' E.
      assert (forall s, 0 <= s <= 26 -> letter (Z.shiftr w s) = letter (Z.shiftr w' s) -> (w mod 2 ^ (s + 6)) / 2 ^ s = (w' mod 2 ^ (s + 6)) / 2 ^ s) as Hl.
      { intros s Hs El%letter_mod. by rewrite !letter_bits in El. }
      assert (forall m k, 0 < m -> m mod k = 0 -> 0 < k -> w mod k = w' mod k -> (w mod m) / k = (w' mod m) / k -> w mod m = w' mod m) as Hjoin.
      { intros m k Hm Hmk Hk E1 E2. rewrite (Z.div_mod (w mod m) k), (Z.div_mod (w' mod m) k), E2 by lia. f_equal.
        apply Z.mod_divide in Hmk; [|lia]. by rewrite !Z.mod_mod_divide. }
      destruct Hb as [->|[->| ->]]; cbn [Z.eqb Pos.eqb] in E; injection E as E.
      - apply IH in H as [Hw ->]; [|tauto]. split; [done|]. apply (Hjoin _ (2 ^ 2)); [done..|]. by apply (Hl 2).
      - apply IH in H as [Hw ->]; [|tauto]. split; [done|]. apply (Hjoin _ (2 ^ 4)); [done..|]. by apply (Hl 4).
      - apply IH in H0 as [_ ->]; [|tauto]. split; [done|]. apply (Hjoin _ (2 ^ 6)); [done..| |by apply (Hl 6)].
        pose proof (Hl 0 ltac:(lia) H) as H0. by rewrite !Z.div_1_r in H0. }
    rewrite !push_low in W by lia. rewrite Z.pow_add_r in W by lia. change (2 ^ 8) with 256 in W.
    pose proof (byte_range c) as Hc. pose proof (byte_range c') as Hc'. pose proof (Z.pow_pos_nonneg 2 bits ltac:(done) ltac:(lia)) as Hpos.
    assert (forall x k, 0 <= k < 256 -> (x * 256 + k) mod (2 ^ bits * 256) = (x mod 2 ^ bits) * 256 + k) as Hsplit.
    { intros x k Hk. rewrite (Z.mul_comm (2 ^ bits)), Z.rem_mul_r, Z.div_add_l by lia. rewrite (Z.add_comm (x * 256)), Z.mod_add by lia.
      rewrite (Z.mod_small k 256), (Z.div_small k 256), Z.add_0_r by lia. lia. }
    rewrite !Hsplit in W by done. split; [lia|]. f_equal. assert (nat_of_ascii c = nat_of_ascii c') as En by lia.
    by rewrite <- (ascii_nat_embedding c), En, ascii_nat_embedding.
Qed.

(** Each plugin has its own override directory: different owners have different directory names. *)
Theorem plugin_directory_injective owner owner' : plugin_directory owner = plugin_directory owner' -> owner = owner'.
Proof.
  unfold plugin_directory. intros E. apply (f_equal chars) in E. rewrite !chars_app in E. apply app_inv_head in E. unfold chars in E.
  rewrite !Stdlib.Strings.String.list_ascii_of_string_of_list_ascii in E. apply encode_inj in E as [_ E]; [|tauto]. by apply chars_inj.
Qed.
(** ** Comments *)
(** Inside a two-byte delimiter the second byte was looked at. *)
Definition fits (m : Mode) (b : list ascii) : bool := match m with Open => next_is "*"%char b | Close => next_is "/"%char b | _ => true end.
Definition blanked (c d : ascii) : Prop := d = c \/ d = " "%char /\ c <> newline.

Ltac ascii_cases :=
  repeat match goal with
  | E : _ && _ = true |- _ => apply andb_true_iff in E as [? ?]
  | E : _ || _ = false |- _ => apply orb_false_iff in E as [? ?]
  | E : Ascii.eqb _ _ = true |- _ => apply Ascii.eqb_eq in E
  | E : Ascii.eqb _ _ = false |- _ => apply Ascii.eqb_neq in E
  end.

Lemma scan_byte_out m c rest d m' : fits m (c :: rest) = true -> scan_byte m c rest = (d, m') -> blanked c d /\ fits m' rest = true.
Proof.
  destruct m; cbn [scan_byte fits next_is]; intros Hf; repeat case_match; intros [= <- <-]; ascii_cases; subst; split; try done; try (by left); right; by split.
Qed.

Lemma scan_blanked b : forall m o, fits m b = true -> scan m b = inr o -> Forall2 blanked b o.
Proof.
  induction b as [|c b IH]; intros m o Hf; cbn [scan].
  - destruct m; intros [= <-]; constructor.
  - destruct (scan_byte m c b) as [d m'] eqn:E. apply scan_byte_out in E as [Hd Hf']; [|done].
    intros (o' & Ho & [= <-])%rbind_inr. constructor; [done|]. by apply (IH m').
Qed.

(** Where stripped text goes on: what was a comment is white space. *)
Definition after (m : Mode) : Mode := match m with Text => Text | Escaped => Escaped | _ => Code end.

Lemma scan_again b : forall m o, fits m b = true -> scan m b = inr o -> scan (after m) o = inr o.
Proof.
  induction b as [|c b IH]; intros m o Hf; cbn [scan].
  - by destruct m; intros [= <-].
  - destruct (scan_byte m c b) as [d m'] eqn:E. intros (o' & Ho & [= <-])%rbind_inr.
    pose proof (scan_byte_out _ _ _ _ _ Hf E) as [Hd Hf']. pose proof (scan_blanked _ _ _ Hf' Ho) as Hb. apply IH in Ho; [|done].
    cut (scan_byte (after m) d o' = (d, after m')). { intros Hs. cbn [scan]. rewrite Hs, Ho. done. }
    assert (forall x, x <> " "%char -> next_is x b = false -> next_is x o' = false) as Hnext.
    { intros x Hx Hn. inversion Hb as [|y z b0 o0 [->|[-> _]]]; subst; [done|done|]. cbn [next_is]. apply Ascii.eqb_neq. congruence. }
    revert E. destruct m; cbn [scan_byte fits after]; repeat case_match; intros [= <- <-]; ascii_cases; subst; cbn [scan_byte after]; try done.
    all: rewrite Ascii.eqb_refl in *; cbn [andb] in *; rewrite Hnext in * by done; congruence.
Qed.

Lemma chars_of_list l : chars (Stdlib.Strings.String.string_of_list_ascii l) = l.
Proof. apply Stdlib.Strings.String.list_ascii_of_string_of_list_ascii. Qed.

(** Comments become white space and nothing else changes. The stripped text has the bytes of the original
    at the same places, except that some are blanks, never a line break: an error reported in it has the
    line and column it has in the file. It holds no comment any more: stripping it again changes nothing. *)
Theorem jsonc_strips text out : jsonc text = inr out -> Forall2 blanked (chars text) (chars out) /\ jsonc out = inr out.
Proof.
  unfold jsonc. intros Hj. succeeds. assert (chars out = a) as Ec.
  { unfold Utf8.from_utf8 in Hj. destruct (Utf8.valid_fuel _ _); [|done]. injection Hj as <-. apply chars_of_list. }
  rewrite Ec. split; [by apply (scan_blanked _ Code)|]. rewrite (scan_again _ Code _ eq_refl Ok : scan Code a = inr a). cbn [rbind]. by rewrite Hj.
Qed.

(** ** Duplicates *)
Section CheckedFacts.
Context {num : Type}.
Notation Value := (Json.Value num).
Notation Checked := (Value * option string)%type.

Lemma or_else_none {A} (a b : option A) : or_else a b = None <-> a = None /\ b = None.
Proof. destruct a; cbn; naive_solver. Qed.

Lemma first_duplicate (cs : list Checked) : forall d, foldl (fun d (c : Checked) => or_else d c.2) d cs = None <-> d = None /\ Forall (fun c => c.2 = None) cs.
Proof.
  induction cs as [|c cs IH]; intros d; cbn [foldl]; [split; [intros; by split|by intros [? _]]|]. rewrite IH, or_else_none, Forall_cons. tauto.
Qed.

Definition entry_step (st : list (string * Value) * option string) (kc : string * Checked) : list (string * Value) * option string :=
  let d := or_else st.2 kc.2.2 in
  if contains_key st.1 kc.1 then (st.1, or_else d (Some ("duplicate key " +:+ kc.1))) else (Json.insert kc.1 kc.2.1 st.1, d).

Lemma keys_insert {A} (k : string) (v : A) m x : x ∈ (Json.insert k v m).*1 <-> x = k \/ x ∈ m.*1.
Proof.
  rewrite <- !json_contains_key. unfold contains_key. rewrite json_get_insert. destruct (String.eqb_spec x k) as [->|]; [|naive_solver]. split; [by left|done].
Qed.

Lemma NoDup_insert {A} (k : string) (v : A) m : k ∉ m.*1 -> NoDup m.*1 -> NoDup (Json.insert k v m).*1.
Proof.
  induction m as [|[k' v'] m IH]; cbn; [intros; apply NoDup_singleton|]. intros [Hne Hni]%not_elem_of_cons [Hn Hnd]%NoDup_cons.
  rewrite (proj2 (String.eqb_neq k k') Hne). case_bool_decide; cbn.
  - constructor; [by apply not_elem_of_cons|by constructor].
  - constructor; [|by apply IH]. by intros [?|?]%keys_insert.
Qed.

Lemma entries_step_spec (l : list (string * Checked)) : forall m d m' d', foldl entry_step (m, d) l = (m', d') -> NoDup m.*1 ->
  NoDup m'.*1 /\ (d' = None <-> d = None /\ Forall (fun kc => kc.2.2 = None) l /\ NoDup l.*1 /\ (forall k, k ∈ l.*1 -> k ∉ m.*1)) /\
  (forall kv, kv ∈ m' -> kv ∈ m \/ exists c, (kv.1, c) ∈ l /\ kv.2 = c.1).
Proof.
  induction l as [|[k c] l IH]; intros m d m' d'; cbn [foldl].
  - intros [= <- <-] Hnd. split_and!; [done| |by left]. split; [intros ->|by intros [? _]]. split_and!; [done|constructor|constructor|by intros ? ?%elem_of_nil].
  - unfold entry_step at 2. cbn [fst snd]. destruct (contains_key m k) eqn:Ek; intros Hf Hnd.
    + apply json_contains_key in Ek. apply IH in Hf as (Hnd' & Hd & Hv); [|done]. split_and!; [done| |].
      * rewrite Hd. rewrite !or_else_none. split; [by intros ((_ & ?) & _)|]. intros (_ & _ & _ & Hk). exfalso. apply (Hk k); [by left|done].
      * intros kv [?|(c' & Hc & E)]%Hv; [by left|]. right. exists c'. split; [by right|done].
    + assert (k ∉ m.*1) as Hk by (intros Hin%json_contains_key; congruence).
      apply IH in Hf as (Hnd' & Hd & Hv); [|by apply NoDup_insert]. split_and!; [done| |].
      * rewrite Hd, or_else_none. cbn [fmap list_fmap fst]. rewrite Forall_cons, NoDup_cons. cbn [snd]. setoid_rewrite elem_of_cons. setoid_rewrite keys_insert.
        split; [intros ((? & ?) & ? & ? & Hn)|intros (? & (? & ?) & (? & ?) & Hn)]; split_and!; try done.
        -- intros Hin. by apply (Hn k Hin); left.
        -- intros k' [->|Hin]; [done|]. intros Hm. apply (Hn k' Hin). by right.
        -- intros k' Hin [->|Hm]; [done|]. apply (Hn k'); [by right|done].
      * intros kv [Hkv|(c' & Hc & E)]%Hv; [|right; exists c'; split; [by right|done]]. destruct kv as [k1 v1].
        assert (k1 = k /\ v1 = c.1 \/ (k1, v1) ∈ m) as [[-> ->]|?]; [|right; exists c; split; [by left|done]|by left].
        clear -Hkv. induction m as [|[k2 v2] m IH]; cbn in Hkv; [apply list_elem_of_singleton in Hkv; left; by simplify_eq|].
        destruct (String.eqb k k2); [apply elem_of_cons in Hkv as [?|?]; [left; by simplify_eq|right; by right]|].
        case_bool_decide; [apply elem_of_cons in Hkv as [?|?]; [left; by simplify_eq|by right]|].
        apply elem_of_cons in Hkv as [->|Hkv]; [right; by left|]. destruct (IH Hkv) as [?|?]; [by left|right; by right].
Qed.

(** Duplicate keys are found exactly. A value carries a duplicate's error exactly when some object of it,
    at any depth, has a key twice; the value kept has each key once. *)
Theorem checked_exact (v : Value) : ((checked v).2 = None <-> distinct_keys v = true) /\ distinct_keys (checked v).1 = true.
Proof.
  induction v as [| | | |l IH|m IH] using (Value_nested_ind (num := num)); try done; cbn [checked].
  - cbn [fst snd distinct_keys]. rewrite first_duplicate, Forall_map, !forallb_elem. rewrite Forall_forall in IH. split.
    + rewrite Forall_forall. split; [intros [_ Hl] x Hx; by apply IH, Hl|intros Hl; split; [done|]; intros x Hx; by apply IH, Hl].
    + intros x Hx. rewrite map_map in Hx. apply list_elem_of_In, in_map_iff in Hx as (y & <- & Hy%list_elem_of_In). by apply IH.
  - cbv zeta. change (foldl _ ([], None) ?cs) with (foldl entry_step ([], None) cs). destruct (foldl entry_step _ _) as [m' d'] eqn:E.
    apply entries_step_spec in E as (Hnd & Hd & Hv); [|constructor]. cbn [fst snd distinct_keys]. rewrite Forall_forall in IH.
    rewrite <- list_fmap_compose in Hd. change (fst ∘ _) with (fst : string * Value -> string) in Hd || idtac. split.
    + rewrite Hd, andb_true_iff, bool_decide_eq_true, forallb_elem, Forall_map, Forall_forall. cbn [snd].
      split.
      * intros (_ & Hc & Hn & _). split; [done|]. intros kv Hkv. apply IH; [done|]. by apply Hc.
      * intros [Hn Hc]. split_and!; [done| |done|by intros ? _ ?%elem_of_nil]. intros kv Hkv. by apply IH, Hc.
    + rewrite bool_decide_true by done. cbn [andb]. rewrite forallb_elem. intros kv Hkv. destruct (Hv kv Hkv) as [Hin|(c & Hc & ->)]; [by apply elem_of_nil in Hin|].
      apply list_elem_of_In, in_map_iff in Hc as (y & [= _ <-] & Hy%list_elem_of_In). by apply (IH y).
Qed.
End CheckedFacts.
(** ** Preparation *)
Section PrepareFacts.
Context {num : Type} `{JsonNumberLaws num} {D : Digest num} {DL : DigestLaws num} `{Readers num}.
Notation Value := (Json.Value num).

Lemma target_of_valid (v : Value) resolve t : target_of v resolve = inr t -> validate_target t = inr tt.
Proof. unfold target_of. intros Ht. succeeds. subst. by destruct a0. Qed.

(** What stays of a function, and what an override may have changed, after the records [rs]. *)
Record kept (dir : string) (rs : list SnapshotRecord) (f : NormalizedFunction) (p : PreparedFunction) : Prop := mkKept {
  kp_names : (fn_name (function_ p), fn_id (function_ p), fn_hash (function_ p), fn_policy (function_ p), fn_requirement (function_ p)) =
             (local_name f, canonical_id f, contract_hash f, policy f, requirement f);
  kp_abi : fn_abi (function_ p) = public_signature (abi f);
  kp_origin : trusted (function_ p) = false;
  kp_base : base_contract_hash (provenance p) = contract_hash f;
  kp_required : required (provenance p) = String.eqb (requirement f) "required";
  kp_hash : final_target_hash (provenance p) = hash (target_value (fn_target (function_ p)));
  kp_same : overrides (provenance p) = [] -> fn_target (function_ p) = target f;
  kp_valid : overrides (provenance p) <> [] -> validate_target (fn_target (function_ p)) = inr tt;
  kp_overrides : forall o, o ∈ overrides (provenance p) -> exists r, r ∈ rs /\ o = mkOverride (relative_path r) (r_sha256 r) /\
                   path_ok dir (relative_path r) = true /\ hash_bytes (content r) = r_sha256 r;
  kp_unavailable : forall e, unavailable p = Some e -> exists r why, r ∈ rs /\ e = relative_path r +:+ ": " +:+ why;
}.

Lemma kept_more dir rs rs' f p : rs ⊆ rs' -> kept dir rs f p -> kept dir rs' f p.
Proof.
  intros Hsub []. constructor; try done.
  - intros o Ho. destruct (kp_overrides0 o Ho) as (r & Hr & Hrest). exists r. split; [by apply Hsub|done].
  - intros e He. destruct (kp_unavailable0 e He) as (r & why & Hr & Hrest). exists r, why. split; [by apply Hsub|done].
Qed.

Lemma kept_overridden dir rs f p r sup (c : Value * option string) : r ∈ rs -> path_ok dir (relative_path r) = true -> hash_bytes (content r) = r_sha256 r ->
  kept dir rs f p -> kept dir rs f (overridden p r (read_override p sup c)).
Proof.
  intros Hr Hp Hh []. destruct (read_override p sup c) as [reason|t] eqn:E; cbn [overridden].
  - constructor; try done. cbn [unavailable]. intros e [= <-]. by exists r, reason.
  - unfold read_override in E. succeeds. apply target_of_valid in E. constructor; try done; cbn [function_ set_target fn_target provenance overrides].
    + by destruct (overrides _).
    + intros o [Ho| ->%list_elem_of_singleton]%elem_of_app; [by apply kp_overrides0|]. by exists r.
Qed.

Lemma Forall2_both {A B} (P Q : A -> B -> Prop) l k : Forall2 P l k /\ Forall2 Q l k -> Forall2 (fun a b => P a b /\ Q a b) l k.
Proof. intros [Hp Hq]. induction Hp as [|a b l k Ha Hp IH]; [constructor|]. apply Forall2_cons in Hq as [? ?]. constructor; [done|by apply IH]. Qed.
Lemma Forall2_insert_r {A B} (P : A -> B -> Prop) l k i (x : B) :
  Forall2 P l k -> (forall a b, l !! i = Some a -> k !! i = Some b -> P a b -> P a x) -> Forall2 P l (<[i := x]> k).
Proof.
  intros Hf Hx. apply Forall2_same_length_lookup. rewrite length_insert. split; [by apply Forall2_length in Hf|].
  intros j a b Ha Hb. destruct (decide (i = j)) as [<-|Hne].
  - assert (i < length k)%nat as Hlt by (apply lookup_lt_Some in Ha; apply Forall2_length in Hf; lia).
    rewrite list_lookup_insert_eq in Hb by done. injection Hb as <-. destruct (lookup_lt_is_Some_2 k i Hlt) as [y Hy].
    eapply Hx; [done..|]. by eapply Forall2_lookup_lr.
  - rewrite list_lookup_insert_ne in Hb by done. by eapply Forall2_lookup_lr.
Qed.

Lemma apply_entries_kept dir rs r l fs : r ∈ rs -> path_ok dir (relative_path r) = true -> hash_bytes (content r) = r_sha256 r -> forall st st',
  Forall2 (kept dir rs) fs st.1 -> apply_entries r st l = Some st' -> Forall2 (kept dir rs) fs st'.1.
Proof.
  intros Hr Hp Hh. induction l as [|[n c] l IH]; intros [ps touched] st' Hk; cbn [apply_entries]; [by intros [= <-]|].
  unfold apply_entry. cbn [fst snd]. destruct (index_of ps n) as [i|]; [|done]. cbn [mbind option_bind]. destruct (ps !! i) as [p|] eqn:Ep; [|done]. cbn [mbind option_bind].
  intros Ha. eapply IH; [|exact Ha]. cbn [fst] in *. apply Forall2_insert_r; [done|]. intros a b _ Hb Hab. rewrite Ep in Hb. injection Hb as <-. by apply kept_overridden.
Qed.

Definition names (ps : list PreparedFunction) : list string := (fun p => fn_name (function_ p)) <$> ps.
Lemma index_of_Some ps n i : index_of ps n = Some i -> exists l1 p l2, ps = l1 ++ p :: l2 /\ length l1 = i.
Proof.
  revert i. induction ps as [|f ps IH]; intros i Hi; [done|]. cbn [index_of] in Hi. destruct (index_of ps n) as [j|].
  - injection Hi as <-. destruct (IH j eq_refl) as (l1 & p & l2 & -> & <-). by exists (f :: l1), p, l2.
  - destruct (String.eqb _ n); [|done]. injection Hi as <-. by exists [], f, ps.
Qed.

Lemma index_of_names ps n : is_some (index_of ps n) = true <-> n ∈ names ps.
Proof.
  unfold names. induction ps as [|f ps IH]; cbn [index_of]; rewrite ?fmap_cons, ?elem_of_cons, ?fmap_nil, ?elem_of_nil; [by split|].
  destruct (index_of ps n) as [j|]; [split; [intros _; right; by apply IH|done]|]. destruct (String.eqb_spec (fn_name (function_ f)) n) as [<-|Hne]; cbn [is_some].
  - by split; [left|].
  - split; [done|]. intros [->|Hn]; [done|by apply IH in Hn].
Qed.

Lemma overridden_name p r res : fn_name (function_ (overridden p r res)) = fn_name (function_ p).
Proof. by destruct res. Qed.

(** The index by name is always within range: no file panics the loader. *)
Lemma apply_entries_total r l : forall st, (forall n, n ∈ l.*1 -> n ∈ names st.1) -> is_Some (apply_entries (num := num) r st l).
Proof.
  induction l as [|[n c] l IH]; intros [ps touched] Hn; cbn [apply_entries]; [done|].
  unfold apply_entry. cbn [fst snd] in *. assert (is_some (index_of ps n) = true) as Hs by (apply index_of_names, Hn; by left).
  destruct (index_of ps n) as [i|] eqn:Ei; [|done]. cbn [mbind option_bind]. apply index_of_Some in Ei as (l1 & p & l2 & -> & <-).
  rewrite list_lookup_middle by done. cbn [mbind option_bind]. apply IH. cbn [fst]. intros m Hm. rewrite insert_middle.
  assert (m ∈ names (l1 ++ p :: l2)) as Hin by (apply Hn; by right). revert Hin. unfold names. rewrite !fmap_app. cbn [fmap list_fmap]. by rewrite overridden_name.
Qed.

Lemma initial_kept h dir f p : initial (num := num) h f = inr p -> kept dir [] f p /\ archive_hash (provenance p) = h /\ unavailable p = None.
Proof.
  unfold initial, from_public. intros Hi. succeeds. subst. cbn [function_ provenance unavailable archive_hash]. split; [|done].
  constructor; try done; cbn [provenance overrides unavailable]; try done; by intros ? ?%elem_of_nil.
Qed.

Lemma finish_kept dir rs f p q : finish p = inr q -> kept dir rs f p -> kept dir rs f q /\ (required (provenance q) = true -> unavailable q = None) /\
  (forall e, unavailable q = Some e -> resolver_result (provenance q) = Unavailable e /\ validator_result (provenance q) = Unavailable e).
Proof.
  unfold finish. destruct (unavailable p) as [e|] eqn:E.
  - intros Hf Hk. succeeds. subst q. apply negb_true_iff in Ok. cbn [provenance unavailable required resolver_result validator_result]. split_and!.
    + destruct Hk. constructor; try done. cbn [unavailable]. intros e' [= <-]. by apply kp_unavailable0.
    + congruence.
    + by intros e' [= <-].
  - intros [= <-] Hk. split_and!; [done|done|]. intros e. by rewrite E.
Qed.

Lemma apply_record_kept b rs r st st' : Forall2 (kept (directory b) rs) (functions b) (w_functions st) -> apply_record b (directory b) st r = inr st' ->
  Forall2 (kept (directory b) (rs ++ [r])) (functions b) (w_functions st').
Proof.
  intros Hk Ha. unfold apply_record in Ha. succeeds. subst st'. cbn [w_functions]. bool_to_prop.
  eapply apply_entries_kept; [| | | |done]; [rewrite elem_of_app; right; by left|done|by apply String.eqb_eq|]. cbn [fst].
  eapply Forall2_impl; [exact Hk|]. intros f p. apply kept_more. set_solver.
Qed.

(** ** What the files say of one function *)
(** The entry a file has for a function: what follows from reading the whole file. *)
Definition entry_in (r : SnapshotRecord) (name : string) : option (Value * option string) :=
  match jsonc (content r) with
  | inr text => match read_file text with
                | inr raw => match unique_functions (entries raw) with inr fs => get fs name | inl _ => None end
                | inl _ => None
                end
  | inl _ => None
  end.
(** What an entry says for a function of contract hash [base], after the files before it, the last of which
    that named the function being [last]. *)
Inductive says (base : string) (last : option string) : Value * option string -> string + NormalizedTarget -> Prop :=
| says_moved v e t : read_entry v = inr e -> e_contract_hash e = base -> e_supersedes e = last -> target_of (e_target e) (e_resolve e) = inr t ->
    says base last (v, None) (inr t)
| says_duplicate v d : says base last (v, Some d) (inl d)
| says_unread v why : read_entry v = inl why -> says base last (v, None) (inl why)
| says_stale v e : read_entry v = inr e -> e_contract_hash e <> base -> says base last (v, None) (inl "stale base contract hash")
| says_conflict v e : read_entry v = inr e -> e_contract_hash e = base -> e_supersedes e <> last ->
    says base last (v, None) (inl "conflicting override: exact supersedes required")
| says_bad_target v e why : read_entry v = inr e -> e_contract_hash e = base -> e_supersedes e = last -> target_of (e_target e) (e_resolve e) = inl why ->
    says base last (v, None) (inl why).
Record Standing := mkStanding { s_target : NormalizedTarget; s_overrides : list OverrideProvenance; s_reason : option string; s_last : option string }.
(** Where a function stands after the files [rs]: each file that has an entry of its name moves it, or makes it
    unavailable, and is the one the next must supersede. *)
Inductive stands (f : NormalizedFunction) : list SnapshotRecord -> Standing -> Prop :=
| stands_first : stands f [] (mkStanding (target f) [] None None)
| stands_unnamed rs r s : stands f rs s -> entry_in r (local_name f) = None -> stands f (rs ++ [r]) s
| stands_moved rs r s c t : stands f rs s -> entry_in r (local_name f) = Some c -> says (contract_hash f) (s_last s) c (inr t) ->
    stands f (rs ++ [r]) (mkStanding t (s_overrides s ++ [mkOverride (relative_path r) (r_sha256 r)]) (s_reason s) (Some (relative_path r)))
| stands_refused rs r s c why : stands f rs s -> entry_in r (local_name f) = Some c -> says (contract_hash f) (s_last s) c (inl why) ->
    stands f (rs ++ [r]) (mkStanding (s_target s) (s_overrides s) (Some (relative_path r +:+ ": " +:+ why)) (Some (relative_path r))).

Lemma read_override_says f p last c : fn_hash (function_ p) = contract_hash f -> says (contract_hash f) last c (read_override p last c).
Proof.
  intros Hh. destruct c as [v [d|]]; cbn; [constructor|]. unfold read_override. cbn. destruct (read_entry v) as [why|e] eqn:Ee; cbn; [by constructor|].
  rewrite Hh. destruct (String.eqb_spec (e_contract_hash e) (contract_hash f)) as [Hc|Hc]; cbn; [|by eapply says_stale].
  case_bool_decide as Hs; cbn; [|by eapply says_conflict]. destruct (target_of (e_target e) (e_resolve e)) eqn:Et; [by eapply says_bad_target|by eapply says_moved].
Qed.
Definition standing_of (p : PreparedFunction) (last : option string) : Standing :=
  mkStanding (fn_target (function_ p)) (overrides (provenance p)) (unavailable p) last.
Lemma stands_entry f rs r p last c : fn_hash (function_ p) = contract_hash f -> stands f rs (standing_of p last) -> entry_in r (local_name f) = Some c ->
  stands f (rs ++ [r]) (standing_of (overridden p r (read_override p last c)) (Some (relative_path r))).
Proof.
  intros Hh Hs Hc. pose proof (read_override_says f p last c Hh) as Hsay. destruct (read_override p last c) as [why|t].
  - exact (stands_refused f rs r _ c why Hs Hc Hsay).
  - exact (stands_moved f rs r _ c t Hs Hc Hsay).
Qed.
Lemma unique_functions_NoDup (l : list (string * Value)) fs : unique_functions l = inr fs -> NoDup fs.*1.
Proof.
  intros Hu. refine (rfold_ind _ (fun _ (m : list (string * (Value * option string))) => NoDup m.*1) _ _ _ _ _ Hu); [constructor|].
  intros _ x _ m m' _ Hm E. unfold unique_entry in E. succeeds. subst m'. apply NoDup_insert; [|done]. apply negb_true_iff in Ok.
  rewrite <- json_contains_key. by rewrite Ok.
Qed.
Lemma index_of_at ps n i p : index_of ps n = Some i -> ps !! i = Some p -> fn_name (function_ p) = n.
Proof.
  revert i. induction ps as [|f ps IH]; intros i Hi Hp; [done|]. cbn [index_of] in Hi. destruct (index_of ps n) as [j|].
  - injection Hi as <-. by apply (IH j eq_refl).
  - destruct (String.eqb_spec (fn_name (function_ f)) n); [|done]. injection Hi as <-. by injection Hp as <-.
Qed.
(** One file does to each function what its own entry says, and nothing to the others. *)
Lemma apply_entries_at r l : forall ps touched ps' touched', NoDup l.*1 -> NoDup (names ps) -> apply_entries r (ps, touched) l = Some (ps', touched') ->
  length ps' = length ps /\ (forall n, touched' !! n = match get l n with Some _ => Some (relative_path r) | None => touched !! n end) /\
  forall i p, ps !! i = Some p ->
    ps' !! i = Some (match get l (fn_name (function_ p)) with Some c => overridden p r (read_override p (touched !! fn_name (function_ p)) c) | None => p end).
Proof.
  induction l as [|[n c] l IH]; intros ps touched ps' touched' Hnd Hps; cbn [apply_entries]; [intros [= <- <-]; by split_and!|].
  apply NoDup_cons in Hnd as [Hni Hnd]. unfold apply_entry. cbn [fst snd]. destruct (index_of ps n) as [i|] eqn:Ei; cbn [mbind option_bind]; [|done].
  destruct (ps !! i) as [p|] eqn:Ep; cbn [mbind option_bind]; [|done]. pose proof (index_of_at _ _ _ _ Ei Ep) as Hn.
  set (q := overridden p r _). assert (Hq : names (<[i := q]> ps) = names ps).
  { unfold names. rewrite list_fmap_insert. apply list_insert_id. rewrite list_lookup_fmap, Ep. unfold q. cbn. by rewrite overridden_name. }
  intros Ha. apply IH in Ha as (Hlen & Ht & Hf); [|done|by rewrite Hq]. rewrite length_insert in Hlen. cbn [get].
  assert (Hgn : get l n = None) by (by apply json_get_None). split_and!; [done| |].
  - intros m. rewrite Ht. destruct (String.eqb_spec m n) as [->|Hne]; [by rewrite Hgn, lookup_insert_eq|]. by rewrite lookup_insert_ne.
  - intros j p' Hj. destruct (decide (i = j)) as [<-|Hij].
    + rewrite Ep in Hj. injection Hj as <-. rewrite Hn, String.eqb_refl. rewrite (Hf i q); [|apply list_lookup_insert_eq; by eapply lookup_lt_Some].
      subst q. by rewrite overridden_name, Hn, Hgn.
    + assert (fn_name (function_ p') <> n) as Hne.
      { intros E. apply Hij. eapply (NoDup_lookup (names ps)); [done| |]; unfold names; rewrite list_lookup_fmap; [by rewrite Ep; cbn; rewrite Hn|by rewrite Hj; cbn; rewrite E]. }
      rewrite (proj2 (String.eqb_neq _ _)) by done. rewrite (Hf j p'); [|by rewrite list_lookup_insert_ne]. by rewrite lookup_insert_ne.
Qed.
Definition standing (rs : list SnapshotRecord) (touched : gmap string string) (f : NormalizedFunction) (p : PreparedFunction) : Prop :=
  fn_name (function_ p) = local_name f /\ fn_hash (function_ p) = contract_hash f /\ stands f rs (standing_of p (touched !! local_name f)).
Lemma apply_record_stands b dir rs r st st' : NoDup (local_name <$> functions b) ->
  Forall2 (standing rs (w_touched st)) (functions b) (w_functions st) -> apply_record b dir st r = inr st' ->
  Forall2 (standing (rs ++ [r]) (w_touched st')) (functions b) (w_functions st').
Proof.
  intros Hnd Hk Ha. unfold apply_record in Ha. apply rbind_inr in Ha as (u & _ & Ha). apply rbind_inr in Ha as (text & Et & Ha). apply rbind_inr in Ha as (raw & Er & Ha).
  apply rbind_inr in Ha as (fs & Ef & Ha). apply rbind_inr in Ha as (u' & _ & Ha). apply rbind_inr in Ha as ([ps touched] & Ea & Ha). injection Ha as <-.
  apply map_err_inr in Er, Ef. apply ok_or_inr in Ea. cbn [w_functions w_touched fst snd].
  assert (Hnames : names (w_functions st) = local_name <$> functions b).
  { unfold names. clear -Hk. induction Hk as [|f p fs ps (Hn & _) Hk IH]; [done|]. rewrite !fmap_cons, IH. by rewrite Hn. }
  assert (Hin : forall n, entry_in r n = get fs n) by (intros n; unfold entry_in; by rewrite Et, Er, Ef).
  apply apply_entries_at in Ea as (Hlen & Htouched & Hat); [|by eapply unique_functions_NoDup|by rewrite Hnames].
  apply Forall2_same_length_lookup. split; [rewrite Hlen; by eapply Forall2_length|]. intros i f q Hf Hq.
  assert (Hp : exists p, w_functions st !! i = Some p) by (apply lookup_lt_is_Some_2; rewrite <- Hlen; by eapply lookup_lt_Some).
  destruct Hp as [p Hp]. destruct (Forall2_lookup_lr _ _ _ _ _ _ Hk Hf Hp) as (Hn & Hh & Hs). rewrite (Hat i p Hp), Hn in Hq. injection Hq as <-.
  rewrite <- Hin. specialize (Htouched (local_name f)). rewrite <- Hin in Htouched. destruct (entry_in r (local_name f)) as [c|] eqn:Ec.
  - split_and!; [by rewrite overridden_name|by destruct (read_override _ _ _)|]. rewrite Htouched. by apply stands_entry.
  - split_and!; [done|done|]. rewrite Htouched. by apply stands_unnamed.
Qed.
Lemma finish_standing rs touched f p q : finish p = inr q -> standing rs touched f p -> exists s, stands f rs s /\
  fn_target (function_ q) = s_target s /\ overrides (provenance q) = s_overrides s /\ unavailable q = s_reason s.
Proof.
  intros Hf (_ & _ & Hs). exists (standing_of p (touched !! local_name f)). split; [done|]. unfold finish in Hf. destruct (unavailable p) as [e|] eqn:E; succeeds; subst q; cbn; by rewrite ?E.
Qed.

(** C23. Overrides move targets and nothing else. The candidate of a bundle whose function names are distinct,
    as admission requires, has its functions in order, each with the names, contract, layout and policy it
    was admitted with. Where each one stands follows from the files' entries of its own name alone, in
    order ([stands]): an entry moves the function to the valid target it gives exactly when it has no key
    twice, can be read, names the function's contract and supersedes exactly the last file that named the
    function; any other entry of its name makes it unavailable for its own reason and leaves its target.
    Every file that moved one is in the plugin's own directory and has the content of its hash. A required
    function is available. *)
Theorem overrides_contained b archive records c :
  NoDup (local_name <$> functions b) -> prepare (num := num) b archive records = inr c ->
  base c = Some b /\ c_owner c = EngineContract.owner_id b /\ Z.of_nat (length records) <= MAX_FILES /\
  Forall2 (fun f p => kept (directory b) records f p /\
    exists s, stands f records s /\ fn_target (function_ p) = s_target s /\ overrides (provenance p) = s_overrides s /\ unavailable p = s_reason s)
    (functions b) (prepared c) /\
  forall p, p ∈ prepared c -> (required (provenance p) = true -> unavailable p = None) /\
    (forall e, unavailable p = Some e -> resolver_result (provenance p) = Unavailable e).
Proof.
  intros Hnd. unfold prepare. intros Hp. succeeds. subst c. cbn [base c_owner prepared]. bool_to_prop.
  assert (Forall2 (fun f p => kept (directory b) records f p /\ standing records (w_touched a1) f p) (functions b) (w_functions a1)) as Hk.
  { apply Forall2_both. refine (rfold_ind _ (fun rs st => Forall2 (kept (directory b) rs) (functions b) (w_functions st) /\ Forall2 (standing rs (w_touched st)) (functions b) (w_functions st)) _ _ _ _ _ Ok1).
    - cbn [w_functions w_touched]. apply rmap_Forall2 in Ok0. split; (eapply Forall2_impl; [exact Ok0|]); intros f p Hi; [by apply (initial_kept archive)|].
      unfold initial, from_public in Hi. succeeds. subst. split_and!; [done|done|]. unfold standing_of. cbn. rewrite lookup_empty. apply stands_first.
    - intros l1 x l2 st st' _ [Hst Hsd] Hx. split; [by eapply apply_record_kept|by eapply apply_record_stands]. }
  apply rmap_Forall2 in Ok2.
  assert (Forall2 (fun f q => (kept (directory b) records f q /\ exists s, stands f records s /\ fn_target (function_ q) = s_target s /\ overrides (provenance q) = s_overrides s /\ unavailable q = s_reason s) /\
    (required (provenance q) = true -> unavailable q = None) /\ (forall e, unavailable q = Some e -> resolver_result (provenance q) = Unavailable e)) (functions b) a2) as Hall.
  { clear -Hk Ok2. revert Ok2. generalize a2. induction Hk as [|f p fs ps [Hkp Hsp] Hk IH]; intros qs Hq; [apply Forall2_nil_inv_l in Hq as ->; constructor|].
    apply Forall2_cons_inv_l in Hq as (q & qs' & Hq & Hqs & ->). constructor; [|by apply IH].
    pose proof (finish_standing _ _ _ _ _ Hq Hsp) as Hs. destruct (finish_kept _ _ _ _ _ Hq Hkp) as (? & ? & Hu). split_and!; [done|done|done|]. intros e He. by apply Hu. }
  split_and!; try done.
  - eapply Forall2_impl; [exact Hall|]. by intros f p (? & _).
  - intros p Hp. apply list_elem_of_lookup_1 in Hp as [i Hi]. destruct (Forall2_lookup_r _ _ _ _ _ Hall Hi) as (f & _ & _ & ? & ?). done.
Qed.
End PrepareFacts.
End EngineOverrides.

Module EngineOverridesExamples.
Import EngineAbi EngineContract EngineInstance EngineOverrides EngineContractExamples JsonExamples.

Definition nl : string := String newline "".
Definition q : string := String quote "".
Definition commented : string := "{ // port" +:+ nl +:+ q +:+ "a//b" +:+ q +:+ ": /* " +:+ nl +:+ " */ 1}".
Example commented_stripped : jsonc commented = inr ("{        " +:+ nl +:+ q +:+ "a//b" +:+ q +:+ ":    " +:+ nl +:+ "    1}").
Proof. vm_compute. reflexivity. Qed.
Example unterminated : jsonc "1 /*/" = inl "unterminated JSONC comment".
Proof. reflexivity. Qed.
Lemma jsonc_strips_witness : exists out, jsonc commented = inr out /\ jsonc out = inr out.
Proof. eexists. split; [vm_compute; reflexivity|]. eapply (jsonc_strips commented). vm_compute. reflexivity. Defined.

Example directory_of : plugin_directory "@demo/fire" = "id-QGRlbW8vZmlyZQ".
Proof. vm_compute. reflexivity. Qed.
Lemma plugin_directory_injective_witness : plugin_directory "@demo/fire" = plugin_directory ("@demo/" +:+ "fire") /\ "@demo/fire" = "@demo/" +:+ "fire".
Proof. split; [reflexivity|]. apply plugin_directory_injective. reflexivity. Defined.

Example duplicate_found : (checked (Object [("a", Null); ("b", Object [("c", Null); ("c", Null)])]) : Json.Value num * option string).2 = Some "duplicate key c".
Proof. reflexivity. Qed.

(** The readers of one file: it moves [fire] and leaves [hit]. *)
Definition moved : NormalizedTarget := EngineContract.Signature "server" "48 8B" "direct" "identity" validator_default (mkValidator (Some "48") None None).
Definition fire_hash : string := hash (contract_value (seal fire)).
#[export] Instance one_file : Readers num := {|
  read_signature _ := inr (mkSignatureWire None "server" "48 8B" (mkValidator (Some "48") None None) None);
  read_virtual _ := inl "not virtual";
  read_entry _ := inr (mkEntry (contract_hash (seal fire)) Null None None);
  read_file _ := inr (mkFile 2 "@demo/fire" [("fire", Null)]);
|}.
Definition moving : list SnapshotRecord := [mkRecord (directory demo +:+ "a.jsonc") "{}" "{}"].
Example demo_moved : (fun c => (fun p => (fn_target (function_ p), unavailable p)) <$> prepared c) <$> (match prepare demo "archive" moving with inr c => Some c | inl _ => None end)
  = Some [(moved, None); (direct, None)].
Proof. vm_compute. reflexivity. Qed.
Example demo_conflict : (fun c => unavailable <$> prepared c) <$>
  (match prepare demo "archive" (moving ++ [mkRecord (directory demo +:+ "b.jsonc") "{}" "{}"]) with inr c => Some c | inl _ => None end)
  = Some [Some (directory demo +:+ "b.jsonc: conflicting override: exact supersedes required"); None].
Proof. vm_compute. reflexivity. Qed.

Lemma overrides_contained_witness : exists c, prepare demo "archive" moving = inr c /\ base c = Some demo /\
  (fun p => (fn_target (function_ p), unavailable p)) <$> prepared c = [(moved, None); (direct, None)].
Proof.
  pose proof demo_moved as Hm. destruct (prepare demo "archive" moving) as [e|c] eqn:E; [discriminate Hm|]. exists c. split; [reflexivity|].
  assert (Hnd : NoDup (local_name <$> functions demo)) by (apply (bool_decide_unpack _); vm_compute; exact I).
  destruct (overrides_contained _ _ _ _ Hnd E) as [Hb _]. split; [exact Hb|]. by injection Hm.
Defined.
End EngineOverridesExamples.
