(* ===== verification/EngineCopies.v ===== *)
(** Copied strings and vectors of engine functions (core/src/engine_functions/copied.rs).

    [CopyLedger]: every allocation made for a copied value, and every bookkeeping reservation of a
    dispatch, holds a charge in a table of 1024 slots. [ledger] gathers the process statics: the table,
    the counter of operation ids and the stack of nested operations. An [Rc] clone shares its charge, so
    a charge ends by one [charge_drop]. The size of the table itself is the compiler's and is a
    parameter. [finish] is what the engine's answer must look like to become an owned value; the buffer's
    address and the allocator's answer are arguments. *)
From Stdlib Require Import Ascii.
From Stdlib Require String.
From S2P Require Import Prelude.
From S2P Require Import Results.
From S2P Require Import Utf8.
From S2P Require Import EngineContract.
Import EngineContract.EngineContract.
Import Utf8.Utf8.

Module CopyLedger.

Definition PROCESS : Z := 32 * 1024 * 1024.
Definition OWNER : Z := 8 * 1024 * 1024.
Definition OPERATION : Z := 8 * 1024 * 1024.
Definition OVERHEAD : Z := 256.
Definition MAX_STRING : Z := 65535.
Definition SLOT_COUNT : nat := 1024.
Definition MAX_NESTED : nat := 128.
Definition MAX_ITEMS : Z := 128.

Record Producer := mkProducer { domain : Z; digest : string; p_generation : Z }.
#[export] Instance Producer_eq_dec : EqDecision Producer.
Proof. solve_decision. Defined.
Definition engine : Producer := mkProducer 0 "" 0.

(** [n.to_le_bytes()] *)
Fixpoint to_le_bytes (width : nat) (z : Z) : string :=
  match width with
  | O => ""
  | S w => String.String (ascii_of_nat (Z.to_nat (Z.land z 255))) (to_le_bytes w (Z.shiftr z 8))
  end.
Definition domain_of (k : OwnerKind) : Z := match k with Plugin => 1 | GamePackage => 2 end.
Definition nul : string := String.String Ascii.zero "".
Definition owner_producer (sha256 : string -> string) (o : OwnerKey) : Producer :=
  let d := domain_of (o_kind o) in
  mkProducer d (sha256 ("s2script.function-copy.producer.v1" +:+ nul +:+ to_le_bytes 4 d
                        +:+ to_le_bytes 8 (Z.of_nat (String.length (o_id o))) +:+ o_id o)) (o_generation o).

Record Slot := mkSlot { s_bytes : Z; s_operation : Z; s_producer : Producer }.
Record ledger := mkLedger { slots : list (option Slot); next : Z; current : list Z }.
Definition init : ledger := mkLedger (replicate SLOT_COUNT None) 1 [].

(** [NEXT.fetch_update(checked_add)] *)
Definition fetch_next (l : ledger) : option (ledger * Z) :=
  if next l =? u64_max then None else Some (mkLedger (slots l) (next l + 1) (current l), next l).

(** [Scope]: the innermost operation is the last. *)
Definition enter (l : ledger) : ledger * (string + unit) :=
  match fetch_next l with
  | None => (l, inl "FunctionCopyBudgetExceeded: operation ids")
  | Some (l, id) =>
      if (length (current l) =? MAX_NESTED)%nat then (l, inl "FunctionCopyBudgetExceeded: nested operations")
      else (mkLedger (slots l) (next l) (current l ++ [id]), inr tt)
  end.
Definition leave (l : ledger) : ledger := mkLedger (slots l) (next l) (removelast (current l)).

Definition held (f : Slot -> bool) (l : list (option Slot)) : list Slot := filterb f (omap (fun s => s) l).
Definition total (s : list Slot) : Z := foldr (fun x n => s_bytes x + n) 0 s.
Definition of_producer (p : Producer) (s : Slot) : bool := bool_decide (s_producer s = p).
Definition of_operation (o : Z) (s : Slot) : bool := s_operation s =? o.
Definition set_slot (l : ledger) (i : nat) (s : option Slot) : ledger := mkLedger (<[i := s]> (slots l)) (next l) (current l).

Section Sized.
(** [size_of::<[Option<Slot>; 1024]>()] *)
Context (table_bytes : Z).

(** Subtractions are on [usize]. *)
Definition room_for (l : ledger) (bytes : Z) (producer : Producer) (operation : Z) : bool :=
  negb (((PROCESS - table_bytes) -%u64 total (held (fun _ => true) (slots l)) <? bytes)
        || (OWNER -%u64 total (held (of_producer producer) (slots l)) <? bytes)
        || (OPERATION -%u64 total (held (of_operation operation) (slots l)) <? bytes)
        || (MAX_ITEMS <=? Z.of_nat (length (held (of_operation operation) (slots l))))).

Definition operation_of (l : ledger) : option (ledger * Z) :=
  match last (current l) with Some id => Some (l, id) | None => fetch_next l end.
Definition acquire (l : ledger) (bytes : Z) (producer : Producer) : ledger * (string + nat) :=
  match operation_of l with
  | None => (l, inl "FunctionCopyBudgetExceeded: operation ids")
  | Some (l, operation) =>
      match checked_add bytes OVERHEAD with
      | None => (l, inl "FunctionCopyBudgetExceeded")
      | Some bytes =>
          if negb (room_for l bytes producer operation) then (l, inl "FunctionCopyBudgetExceeded: Rust transient allocation")
          else match position (fun s => bool_decide (s = None)) (slots l) with
               | None => (l, inl "FunctionCopyBudgetExceeded: Rust transient items")
               | Some i => (set_slot l i (Some (mkSlot bytes operation producer)), inr i)
               end
      end
  end.
Definition charge_drop (l : ledger) (i : nat) : ledger := set_slot l i None.

(** [Buffer::new]: [reserve] is the capacity the allocator gave, if it gave any. *)
Definition buffer_new (l : ledger) (size : Z) (producer : Producer) (reserve : option Z) : ledger * (string + nat) :=
  match acquire l size producer with
  | (l, inl e) => (l, inl e)
  | (l, inr i) =>
      match reserve with
      | None => (charge_drop l i, inl "FunctionCopyBudgetExceeded: Rust allocation")
      | Some capacity =>
          if negb (capacity =? size) then (charge_drop l i, inl "FunctionCopyBudgetExceeded: allocator capacity") else (l, inr i)
      end
  end.

Inductive op :=
| Enter | Leave
| Acquire (bytes : Z) (producer : Producer)
| Allocate (size : Z) (producer : Producer) (reserve : option Z)
| Free (i : nat).
Definition step (l : ledger) (o : op) : ledger :=
  match o with
  | Enter => (enter l).1
  | Leave => leave l
  | Acquire b p => (acquire l b p).1
  | Allocate s p r => (buffer_new l s p r).1
  | Free i => charge_drop l i
  end.
Definition op_ok (o : op) : Prop := match o with Acquire b _ | Allocate b _ _ => 0 <= b | _ => True end.
Definition run (os : list op) : ledger := foldl step init os.
End Sized.

Definition flag (projection : string) : option Z :=
  if String.eqb projection "string" || String.eqb projection "string-indirect" then Some 4
  else if String.eqb projection "vector" then Some 5 else None.
Definition max_size (flag : Z) : Z := if flag =? 4 then MAX_STRING else 12.

(** [f32::from_le_bytes(..).is_finite()]: the exponent is not all ones. *)
Definition byte_at (s : list ascii) (i : nat) : Z := match s !! i with Some c => Z.of_nat (nat_of_ascii c) | None => 0 end.
Definition f32_finite (s : list ascii) : bool :=
  negb (Z.lor (Z.shiftl (Z.land (byte_at s 3) 127) 1) (Z.shiftr (byte_at s 2) 7) =? 255).
Definition validate (flag : Z) (bytes : string) : string + unit :=
  require
    (if flag =? 4 then (Z.of_nat (String.length bytes) <=? MAX_STRING) && negb (contains_nul bytes)
                       && match from_utf8 bytes with Some _ => true | None => false end
     else if flag =? 5 then (Z.of_nat (String.length bytes) =? 12) && f32_finite (take 4 (chars bytes))
                            && f32_finite (take 4 (drop 4 (chars bytes))) && f32_finite (drop 8 (chars bytes))
     else false) "FunctionCopyInvalidValue: string/vector bytes".

(** * Properties *)
Definition room (table_bytes : Z) (l : ledger) : Prop :=
  total (held (fun _ => true) (slots l)) <= PROCESS - table_bytes /\
  (forall p, total (held (of_producer p) (slots l)) <= OWNER) /\
  (forall o, total (held (of_operation o) (slots l)) <= OPERATION /\ Z.of_nat (length (held (of_operation o) (slots l))) <= MAX_ITEMS).

Record inv (table_bytes : Z) (l : ledger) : Prop := mkInv {
  in_slots : length (slots l) = SLOT_COUNT;
  in_bytes : forall s, s ∈ held (fun _ => true) (slots l) -> 0 <= s_bytes s;
  in_room : room table_bytes l;
  in_depth : (length (current l) <= MAX_NESTED)%nat;
  in_next : 1 <= next l <= u64_max;
  in_current : forall o, o ∈ current l -> o < next l;
  in_ids : forall s, s ∈ held (fun _ => true) (slots l) -> s_operation s < next l;
}.

Lemma held_elem f l s : s ∈ held f l <-> f s = true /\ Some s ∈ l.
Proof.
  unfold held. rewrite elem_of_filterb, list_elem_of_omap. split; intros [Hf Hs]; (split; [done|]).
  - by destruct Hs as (x & Hx & ->).
  - by exists (Some s).
Qed.

Lemma held_all f l s : s ∈ held f l -> s ∈ held (fun _ => true) l.
Proof. rewrite !held_elem. naive_solver. Qed.

Lemma held_app f l1 l2 : held f (l1 ++ l2) = held f l1 ++ held f l2.
Proof. unfold held. by rewrite omap_app, filterb_app. Qed.

Lemma copies_total_app s1 s2 : total (s1 ++ s2) = total s1 + total s2.
Proof. unfold total. induction s1 as [|x s1 IH]; cbn [foldr app]; [done|]. rewrite IH. lia. Qed.

Lemma total_nonneg s : (forall x, x ∈ s -> 0 <= s_bytes x) -> 0 <= total s.
Proof.
  induction s as [|x s IH]; intros Hs; [done|]. change (total (x :: s)) with (s_bytes x + total s).
  pose proof (Hs x ltac:(by left)). specialize (IH ltac:(intros y Hy; apply Hs; by right)). lia.
Qed.

(** What storing in a place of the table does to a part of it. *)
Definition size_of (f : Slot -> bool) (s : option Slot) : Z := match s with Some s => if f s then s_bytes s else 0 | None => 0 end.
Definition count_of (f : Slot -> bool) (s : option Slot) : Z := match s with Some s => if f s then 1 else 0 | None => 0 end.

Lemma held_set f l i old s :
  l !! i = Some old ->
  total (held f (<[i := s]> l)) = total (held f l) - size_of f old + size_of f s /\
  Z.of_nat (length (held f (<[i := s]> l))) = Z.of_nat (length (held f l)) - count_of f old + count_of f s.
Proof.
  intros Hi. pose proof (lookup_lt_Some _ _ _ Hi) as Hlt. rewrite insert_take_drop by done. rewrite <- (take_drop_middle l i old Hi) at 3 6.
  rewrite !held_app, !copies_total_app, !length_app. change (s :: drop (S i) l) with ([s] ++ drop (S i) l). change (old :: drop (S i) l) with ([old] ++ drop (S i) l).
  rewrite !held_app, !copies_total_app, !length_app. unfold held at 2 5 8 11, size_of, count_of.
  destruct s as [s|], old as [old|]; cbn [omap list_omap]; cbn; repeat case_split; cbn; lia.
Qed.

Lemma held_set_elem f l i s x : x ∈ held f (<[i := s]> l) -> s = Some x \/ x ∈ held f l.
Proof.
  rewrite !held_elem. intros [Hf Hx]. apply list_elem_of_lookup in Hx as [j Hj]. destruct (decide (i = j)) as [<-|Hne].
  - apply list_lookup_insert_Some in Hj as [(_ & <- & _)|(? & _)]; [by left|done].
  - right. rewrite list_lookup_insert_ne in Hj by done. split; [done|]. by eapply list_elem_of_lookup_2.
Qed.

Lemma removelast_sublist {A} (l : list A) : sublist (removelast l) l.
Proof. induction l as [|a [|b l] IH]; [done|by constructor|]. by apply sublist_skip. Qed.

Section Budget.
Context (table_bytes : Z) (Htable : 0 <= table_bytes <= PROCESS).

Lemma copies_init_inv : inv table_bytes init.
Proof.
  assert (forall f, held f (slots init) = []) as He by (intros f; vm_compute; reflexivity).
  constructor; try done.
  - intros x Hx. rewrite He in Hx. by apply elem_of_nil in Hx.
  - split_and!; [rewrite He; cbn; lia|intros p; by rewrite He|intros o; by rewrite He].
  - cbn. lia.
  - by intros x ?%elem_of_nil.
  - intros x Hx. rewrite He in Hx. by apply elem_of_nil in Hx.
Qed.

Lemma copies_part_nonneg l f : inv table_bytes l -> 0 <= total (held f (slots l)).
Proof. intros Hi. apply total_nonneg. intros x Hx. by eapply in_bytes, held_all. Qed.

(** The subtractions of the check never wrap. *)
Lemma room_for_spec l bytes p o :
  inv table_bytes l ->
  room_for table_bytes l bytes p o = true <->
  bytes + total (held (fun _ => true) (slots l)) <= PROCESS - table_bytes /\ bytes + total (held (of_producer p) (slots l)) <= OWNER /\
  bytes + total (held (of_operation o) (slots l)) <= OPERATION /\ Z.of_nat (length (held (of_operation o) (slots l))) < MAX_ITEMS.
Proof.
  intros Hi. destruct (in_room _ _ Hi) as (Ht & Hp & Ho). specialize (Hp p). destruct (Ho o) as [Hb Hc].
  pose proof (copies_part_nonneg l (fun _ => true) Hi). pose proof (copies_part_nonneg l (of_producer p) Hi). pose proof (copies_part_nonneg l (of_operation o) Hi).
  unfold room_for. rewrite !u64_sub_small by (unfold PROCESS, OWNER, OPERATION, u64_modulus in *; lia).
  rewrite negb_true_iff, !orb_false_iff, !Z.ltb_ge, Z.leb_gt. lia.
Qed.

Lemma copies_free_inv l i : inv table_bytes l -> inv table_bytes (charge_drop l i).
Proof.
  intros Hi. destruct (slots l !! i) as [old|] eqn:E; [|unfold charge_drop, set_slot; rewrite list_insert_ge by (by apply lookup_ge_None); by destruct l].
  assert (forall f, total (held f (<[i:=None]> (slots l))) <= total (held f (slots l)) /\
                    Z.of_nat (length (held f (<[i:=None]> (slots l)))) <= Z.of_nat (length (held f (slots l)))) as Hle.
  { intros f. destruct (held_set f (slots l) i old None E) as [-> ->].
    assert (0 <= size_of f old /\ 0 <= count_of f old); [|cbn [size_of count_of]; lia].
    destruct old as [s|]; cbn; [|done]. destruct (f s); [|done]. split; [|done]. apply (in_bytes _ _ Hi). apply held_elem. split; [done|]. by eapply list_elem_of_lookup_2. }
  assert (forall f s, s ∈ held f (<[i:=None]> (slots l)) -> s ∈ held f (slots l)) as Hin by (intros f s [?|?]%held_set_elem; done).
  destruct Hi as [Hs Hb (Ht & Hp & Ho) Hd Hn Hc Hids]. constructor; cbn [charge_drop set_slot slots current next]; auto.
  - by rewrite length_insert.
  - split_and!.
    + etrans; [apply Hle|done].
    + intros p. etrans; [apply Hle|done].
    + intros o. destruct (Ho o). split; (etrans; [apply Hle|done]).
Qed.

Lemma fetch_inv l l' id : inv table_bytes l -> fetch_next l = Some (l', id) -> inv table_bytes l' /\ id < next l' /\ slots l' = slots l /\ current l' = current l.
Proof.
  unfold fetch_next. intros Hi. destruct (next l =? u64_max) eqn:E; [done|]. intros [= <- <-]. apply Z.eqb_neq in E. split; [|cbn; split_and!; [lia|done..]].
  destruct Hi as [Hs Hb Hr Hd Hn Hc Hids]. constructor; cbn; try done; [lia|intros o Ho; specialize (Hc o Ho); lia|intros s Hx; specialize (Hids s Hx); lia].
Qed.

Lemma operation_inv l l' o : inv table_bytes l -> operation_of l = Some (l', o) -> inv table_bytes l' /\ o < next l' /\ slots l' = slots l.
Proof.
  intros Hi. unfold operation_of. destruct (last (current l)) as [id|] eqn:E.
  - intros [= <- <-]. split_and!; [done| |done]. eapply in_current; [done|]. apply last_Some in E as [x ->]. rewrite elem_of_app. right. by left.
  - intros Hf. destruct (fetch_inv _ _ _ Hi Hf) as (? & ? & ? & _). done.
Qed.

Lemma position_none l i : position (fun s : option Slot => bool_decide (s = None)) l = Some i -> l !! i = Some None.
Proof. intros (l1 & x & l2 & -> & <- & Hx & _)%position_Some. apply bool_decide_eq_true in Hx as ->. by rewrite list_lookup_middle. Qed.

Lemma copies_acquire_inv l bytes p : inv table_bytes l -> 0 <= bytes -> inv table_bytes (acquire table_bytes l bytes p).1.
Proof.
  intros Hi Hb. unfold acquire. destruct (operation_of l) as [[l' o]|] eqn:Eo; [|done]. destruct (operation_inv _ _ _ Hi Eo) as (Hi' & Ho & Es). clear Hi Eo.
  unfold checked_add. destruct (bytes + OVERHEAD <=? u64_max); [|done]. destruct (room_for _ _ _ _ _) eqn:Er; cbn [negb]; [|done].
  destruct (position _ _) as [i|] eqn:Ei; [|done]. apply position_none in Ei. cbn [fst]. apply room_for_spec in Er as (Ht & Hp & Hop & Hc); [|done].
  set (s := mkSlot (bytes + OVERHEAD) o p). assert (0 <= s_bytes s) by (cbn; unfold OVERHEAD; lia).
  destruct Hi' as [Hs Hb' (Ht' & Hp' & Ho') Hd Hn Hcur Hids]. constructor; cbn [set_slot slots current next]; try done.
  - by rewrite length_insert.
  - intros x [[= <-]|Hx]%held_set_elem; [done|by apply Hb'].
  - split_and!.
    + cbn [set_slot slots]. destruct (held_set (fun _ => true) _ i None (Some s) Ei) as [-> _]. cbn [size_of]. subst s. cbn [s_bytes] in *. lia.
    + intros q. cbn [set_slot slots]. destruct (held_set (of_producer q) _ i None (Some s) Ei) as [-> _]. cbn [size_of]. specialize (Hp' q). unfold of_producer at 2. case_bool_decide as E; [|lia].
      subst s. cbn in E. subst q. cbn [s_bytes]. lia.
    + intros q. cbn [set_slot slots]. destruct (held_set (of_operation q) _ i None (Some s) Ei) as [-> ->]. destruct (Ho' q). cbn [size_of count_of]. unfold of_operation at 2 4. subst s. cbn [s_bytes s_operation].
      destruct (Z.eqb_spec o q) as [->|]; lia.
  - intros x [[= <-]|Hx]%held_set_elem; [done|by apply Hids].
Qed.

Lemma copies_step_inv l o : inv table_bytes l -> op_ok o -> inv table_bytes (step table_bytes l o).
Proof.
  intros Hi Ho. destruct o as [| |b p|n p r|i]; cbn [step].
  - unfold enter. destruct (fetch_next l) as [[l' id]|] eqn:E; [|done]. destruct (fetch_inv _ _ _ Hi E) as (Hi' & Hid & _). destruct (Nat.eqb_spec (length (current l')) MAX_NESTED) as [|Hne]; [done|].
    destruct Hi'. constructor; cbn; try done; [rewrite length_app; cbn; lia|]. intros x [?| ->%list_elem_of_singleton]%elem_of_app; [auto|done].
  - pose proof (removelast_sublist (current l)) as Hsub. pose proof (sublist_length _ _ Hsub). destruct Hi. constructor; cbn [leave slots current next]; try done; [lia|].
    intros x Hx. apply in_current0. by eapply elem_of_sublist.
  - by apply copies_acquire_inv.
  - pose proof (copies_acquire_inv l n p Hi Ho) as Ha. unfold buffer_new. destruct (acquire _ l n p) as [l' [e|i]]; [done|]. cbn [fst] in Ha.
    destruct r as [c|]; [destruct (c =? n); cbn [negb fst]; [done|]|]; by apply copies_free_inv.
  - by apply copies_free_inv.
Qed.

Lemma copies_run_inv os : Forall op_ok os -> inv table_bytes (run table_bytes os).
Proof.
  unfold run. intros Hos. assert (forall l, inv table_bytes l -> inv table_bytes (foldl (step table_bytes) l os)) as H; [|by apply H, copies_init_inv].
  induction Hos as [|o os Ho _ IH]; intros l Hl; cbn; [done|]. by apply IH, copies_step_inv.
Qed.

(** C28. The host's copies stay within their budgets. After any operations the charges together, with the
    table itself, are at most 32 MiB, those of one producer and those of one operation at most 8 MiB, an
    operation has at most 128 and at most 128 operations nest; and a request is granted exactly when its
    bytes and its overhead fit under all of these and a place is free: no subtraction wraps. *)
Theorem copy_budget_exact os bytes p l o :
  Forall op_ok os -> 0 <= bytes -> bytes + OVERHEAD <= u64_max -> operation_of (run table_bytes os) = Some (l, o) ->
  room table_bytes l /\ (length (current l) <= MAX_NESTED)%nat /\
  ((exists i, (acquire table_bytes (run table_bytes os) bytes p).2 = inr i) <->
   bytes + OVERHEAD + total (held (fun _ => true) (slots l)) <= PROCESS - table_bytes /\
   bytes + OVERHEAD + total (held (of_producer p) (slots l)) <= OWNER /\
   bytes + OVERHEAD + total (held (of_operation o) (slots l)) <= OPERATION /\
   Z.of_nat (length (held (of_operation o) (slots l))) < MAX_ITEMS /\ None ∈ slots l).
Proof.
  intros Hos Hb Hmax Eo. destruct (operation_inv _ _ _ (copies_run_inv os Hos) Eo) as (Hi & _ & _). split_and!; [apply Hi..|].
  unfold acquire. rewrite Eo. unfold checked_add. rewrite (proj2 (Z.leb_le _ _) Hmax). pose proof (room_for_spec l (bytes + OVERHEAD) p o Hi) as Hr.
  destruct (room_for _ _ _ _ _); cbn [negb].
  - destruct (proj1 Hr eq_refl) as (? & ? & ? & ?). destruct (position _ _) as [i|] eqn:Ei; cbn [snd].
    + split; [|by eexists]. intros _. repeat split; [assumption..|]. apply position_none in Ei. by eapply list_elem_of_lookup_2.
    + split; [by intros [? ?]|]. intros (_ & _ & _ & _ & Hn). apply position_None in Ei. rewrite Forall_forall in Ei. specialize (Ei _ Hn). by rewrite bool_decide_true in Ei.
  - split; [by intros [? ?]|]. intros (? & ? & ? & ? & _). exfalso. assert (false = true); [apply Hr; repeat split; assumption|discriminate].
Qed.
End Budget.
End CopyLedger.

Module EngineCopiesExamples.
Import CopyLedger.
Definition plugin : Producer := mkProducer 1 "d" 7.
Definition busy : list op := [Enter; Acquire 100 plugin; Allocate 65535 plugin (Some 65535); Free 0; Allocate 12 engine None].

Example busy_slots : held (fun _ => true) (slots (run 73728 busy)) = [mkSlot 65791 1 plugin] /\ current (run 73728 busy) = [1].
Proof. vm_compute. split; reflexivity. Qed.
Example vector_ok : validate 5 (to_le_bytes 4 1065353216 +:+ to_le_bytes 4 0 +:+ to_le_bytes 4 3212836864) = inr tt.
Proof. reflexivity. Qed.
Example vector_infinite : validate 5 (to_le_bytes 4 2139095040 +:+ to_le_bytes 4 0 +:+ to_le_bytes 4 0) = inl "FunctionCopyInvalidValue: string/vector bytes".
Proof. reflexivity. Qed.

Lemma copy_budget_exact_witness : exists i, (acquire 73728 (run 73728 busy) 500 plugin).2 = inr i.
Proof.
  apply (copy_budget_exact 73728 ltac:(unfold PROCESS; lia) busy 500 plugin (run 73728 busy) 1);
    [repeat constructor; cbn; lia|lia|unfold OVERHEAD, u64_max, u64_modulus; lia|vm_compute; reflexivity|].
  split_and!; try (vm_compute; (reflexivity || discriminate)). vm_compute. left.
Defined.
End EngineCopiesExamples.
