(* ===== verification/EngineProjection.v ===== *)
(** Values of engine functions on the wire (core/src/engine_functions/projection.rs, with the request
    kinds and frame checks of runtime.rs and the output span check of copied.rs).

    [Wire] is the 16-byte value the shim and the host exchange; an entity crosses as its index and
    engine serial and becomes a reference only through the entity books, which are an argument. [request]
    is the kind and flags a position asks for; [compatible] is when two bindings may share one target. *)
From Stdlib Require Import Ascii.
From S2P Require Import Prelude.
From S2P Require Import Results.
From S2P Require Import Liveness.
From S2P Require Import EntityLive.
From S2P Require Import EngineContract.
From S2P Require Import EngineInstance.
From S2P Require Import EngineCopies.
Import EngineContract.EngineContract.
Import EngineInstance.EngineInstance.

Module EngineProjection.

Record Wire := mkWire { kind : Z; flags : Z; reserved : Z; aux : Z; bits : Z }.
Definition blank : Wire := mkWire 0 0 0 0 0.

(** runtime.rs *)
Definition kind_of (atom : string) : string + Z :=
  if String.eqb atom "void" then inr 0 else if String.eqb atom "u8" then inr 1 else if String.eqb atom "i32" then inr 2
  else if String.eqb atom "u32" then inr 3 else if String.eqb atom "i64" then inr 4 else if String.eqb atom "u64" then inr 5
  else if String.eqb atom "f32" then inr 6 else if String.eqb atom "f64" then inr 7
  else inl ("unsupported scalar proof projection: " +:+ atom).
Definition copied_id (p : Position) : bool := is_some (CopyLedger.flag (pr_id (p_projection p))).
Definition has_copies (s : Signature) : bool := copied_id (s_returns s) || existsb copied_id (s_parameters s).

Record FrameInfo := mkInfo {
  i_version : Z; i_size : Z; frame_token : Z; native_epoch : Z; invocation_id : Z; suppressed_owner : Z; parameter_count : Z; i_flags : Z }.
Definition frame_ok (target : Z) (i : FrameInfo) (phase : Z) : bool :=
  negb ((target <=? 0) || negb (i_version i =? 1) || negb (i_size i =? 48) || (frame_token i =? 0) || (native_epoch i =? 0)
        || (invocation_id i =? 0) || (1 <? i_flags i) || (32 <? parameter_count i) || negb ((phase =? 0) || (phase =? 1))).
Definition validate_frame (target : Z) (i : FrameInfo) (phase : Z) (fingerprint : string) : string + unit :=
  let* _ := require (frame_ok target i phase) "invalid native frame metadata" in
  require (negb (contains_nul fingerprint)) "invalid fingerprint".

(** projection.rs *)
Inductive EntityProjection := Strict | Nullable.
#[export] Instance EntityProjection_eq_dec : EqDecision EntityProjection.
Proof. solve_decision. Defined.
Definition parse_entity (id : string) : option EntityProjection :=
  if String.eqb id "entity" then Some Strict else if String.eqb id "entity?" then Some Nullable else None.
Definition codec_compatible (a b : string) : bool :=
  String.eqb a b || (is_some (parse_entity a) && is_some (parse_entity b)).

Definition field_compatible (x y : RecordField) : bool := (offset x =? offset y) && String.eqb (storage x) (storage y).
Definition instance_compatible (x y : Instance_) : bool :=
  String.eqb (codec_id x) (codec_id y) && (codec_version x =? codec_version y) && negb (is_some (i_kind x)) && negb (is_some (i_kind y))
  && (extent (record_ x) =? extent (record_ y)) && (alignment (record_ x) =? alignment (record_ y))
  && (length (fields (record_ x)) =? length (fields (record_ y)))%nat
  && forallb (fun xy => field_compatible xy.1 xy.2) (zip (fields (record_ x)) (fields (record_ y))).
Definition position_compatible (a b : Signature) (x y : Position) : bool :=
  String.eqb (p_native x) (p_native y) && bool_decide (p_ownership x = p_ownership y)
  && (pr_version (p_projection x) =? pr_version (p_projection y)) && codec_compatible (pr_id (p_projection x)) (pr_id (p_projection y))
  && match p_instance x, p_instance y with
     | None, None => true
     | Some i, Some j =>
         match instances a !! i, instances b !! j with
         | Some x, Some y => instance_compatible x y
         | _, _ => false
         end
     | _, _ => false
     end.
#[export] Instance ScratchSlot_eq_dec : EqDecision ScratchSlot.
Proof. solve_decision. Defined.
Definition compatible (a b : Signature) : bool :=
  String.eqb (s_fingerprint a) (s_fingerprint b) && Bool.eqb (member_receiver a) (member_receiver b)
  && (is_nil (scratch a) || is_nil (scratch b) || bool_decide (scratch a = scratch b))
  && match s_receiver a, s_receiver b with None, None => true | Some x, Some y => position_compatible a b x y | _, _ => false end
  && (length (s_parameters a) =? length (s_parameters b))%nat
  && forallb (fun xy => position_compatible a b xy.1 xy.2) (zip (s_parameters a) (s_parameters b))
  && position_compatible a b (s_returns a) (s_returns b).

Record Owned := mkOwned { o_flags : Z; o_bytes : string; o_producer : CopyLedger.Producer }.
Inductive ProjectedValue :=
| Scalar (w : Wire)
| Copied (c : Owned)
| Entity_ (reference : option (Z * Z)) (nullable : bool)
| Pointer (address : Z).

Definition POINTER_FLAG : Z := 3.
Definition pointer_request : Wire := mkWire 8 POINTER_FLAG 0 0 0.
Definition pointer_ok (b : Z) : bool := (b =? 0) || ((65536 <=? b) && (b <? Z.shiftl 1 47)).
Definition entity_request (p : EntityProjection) : Wire := mkWire 8 (match p with Nullable => 2 | Strict => 1 end) 0 0 0.
Definition request (native projection : string) : string + Wire :=
  if String.eqb projection "ptr" then let* _ := require (String.eqb native "ptr") "pointer projection requires pointer ABI" in inr pointer_request
  else match parse_entity projection with
       | Some e => let* _ := require (String.eqb native "ptr") "entity projection requires pointer ABI" in inr (entity_request e)
       | None =>
           match CopyLedger.flag projection with
           | Some f => let* _ := require (String.eqb native "ptr") "copied projection requires pointer ABI" in inr (mkWire 8 f 0 0 0)
           | None => let* k := kind_of native in inr (mkWire k 0 0 0 0)
           end
       end.

Section Books.
Context (b : EntityLive.books).

Definition is_live (r : Z * Z) : bool := is_some (EntityLive.engine_serial_for b r.1 r.2).
Definition value (p : EntityProjection) (reference : option (Z * Z)) : string + ProjectedValue :=
  let reference := match reference with Some r => if is_live r then Some r else None | None => None end in
  let* _ := require (negb (negb (is_some reference) && bool_decide (p = Strict))) "strict entity projection is null or stale" in
  inr (Entity_ reference (bool_decide (p = Nullable))).

Definition encode (v : ProjectedValue) : string + Wire :=
  match v with
  | Scalar w => inr w
  | Copied _ => inl "copied value requires sidecar operation"
  | Pointer a => let* _ := require (pointer_ok a) "pointer value outside the user address range" in inr (mkWire 8 POINTER_FLAG 0 0 a)
  | Entity_ reference nullable =>
      let out := entity_request (if nullable then Nullable else Strict) in
      match reference ≫= fun r => (fun serial => (r.1, serial)) <$> EntityLive.engine_serial_for b r.1 r.2 with
      | Some (index, serial) => inr (mkWire 8 (flags out) 0 (u32_wrap index) (u32_wrap serial))
      | None => let* _ := require nullable "strict entity projection is null or stale" in inr (mkWire 8 (flags out) 0 u32_max 0)
      end
  end.

Definition adopt (w : Wire) (p : EntityProjection) : string + ProjectedValue :=
  let* _ := require (negb (negb (kind w =? 8) || negb (flags w =? flags (entity_request p)) || negb (reserved w =? 0) || (u32_max <? bits w)))
              "invalid entity identity transport" in
  let* reference :=
    if aux w =? u32_max then
      let* _ := require (negb (negb (bits w =? 0) || negb (bool_decide (p = Nullable)))) "invalid entity null transport" in inr None
    else
      let* _ := require (negb (i32_max <? aux w)) "entity index out of range" in
      inr ((fun id => (aux w, id)) <$> EntityLive.adopt b (aux w) (i32_wrap (bits w))) in
  value p reference.

Definition decode (w : Wire) (native projection : string) : string + ProjectedValue :=
  match parse_entity projection with
  | Some e => adopt w e
  | None =>
      if String.eqb projection "ptr" then
        let* _ := require (negb (negb (String.eqb native "ptr") || negb (kind w =? 8) || negb (flags w =? POINTER_FLAG) || negb (reserved w =? 0)
                                 || negb (aux w =? 0) || negb (pointer_ok (bits w)))) "invalid pointer projection transport" in
        inr (Pointer (bits w))
      else
        let* k := kind_of native in
        let* _ := require (negb (negb (kind w =? k) || negb (flags w =? 0) || negb (reserved w =? 0) || negb (aux w =? 0)))
                    "invalid scalar projection transport" in
        inr (Scalar w)
  end.
End Books.

(** [Buffer::finish]: [data_kept] is whether the engine left the span's address alone. *)
Record Output := mkOutput { out_version : Z; out_size : Z; data_kept : bool; capacity : Z; size : Z }.
Definition finish (producer : CopyLedger.Producer) (bytes : string) (f : Z) (w : Wire) (o : Output) : string + Owned :=
  let* _ := require (negb (negb (out_version o =? 1) || negb (out_size o =? 32) || negb (data_kept o)
                           || negb (capacity o =? Z.of_nat (String.length bytes)) || (capacity o <? size o) || negb (kind w =? 8)
                           || negb (flags w =? f) || negb (reserved w =? 0) || negb (bits w =? 0) || negb (aux w =? size o)))
              "FunctionCopyInvalidTransport: output span" in
  let bytes := String.substring 0 (Z.to_nat (size o)) bytes in
  let* _ := CopyLedger.validate f bytes in
  inr (mkOwned f bytes producer).
(** * Properties *)

(** The engine's entity indices and serials are [i32]. *)
Definition width (b : EntityLive.books) : Prop :=
  forall index id s, EntityLive.lookup b index = Some (id, s) -> 0 <= index <= i32_max /\ - 2 ^ 31 <= s < 2 ^ 31.

Lemma i32_u32 s : - 2 ^ 31 <= s < 2 ^ 31 -> i32_wrap (u32_wrap s) = s.
Proof.
  intros Hs. unfold i32_wrap, u32_wrap. rewrite Zplus_mod_idemp_l, Z.mod_small by lia. lia.
Qed.
Lemma u32_range s : 0 <= u32_wrap s <= u32_max.
Proof. unfold u32_wrap, u32_max. pose proof (Z.mod_pos_bound s (2 ^ 32) ltac:(done)). lia. Qed.

Section Live.
Context (b : EntityLive.books) (Hwf : EntityLive.wf b).

Lemma serial_lookup index id s : EntityLive.engine_serial_for b index id = Some s <-> EntityLive.lookup b index = Some (id, s).
Proof.
  rewrite EntityLive.books_engine_serial by done. destruct (EntityLive.lookup b index) as [[cur s']|]; [|done].
  destruct (Z.eqb_spec cur id) as [->|]; split; congruence.
Qed.

Lemma value_inr p r v : value b p r = inr v ->
  exists r', v = Entity_ r' (bool_decide (p = Nullable)) /\ (r' = None -> p = Nullable) /\
    forall i id, r' = Some (i, id) -> r = Some (i, id) /\ exists s, EntityLive.lookup b i = Some (id, s).
Proof.
  unfold value. intros Hv. succeeds. subst v. eexists. split; [done|]. bool_to_prop. split.
  - intros E. rewrite E in *. by destruct p.
  - intros i id. destruct r as [[i' id']|]; [|done]. unfold is_live. cbn [fst snd]. destruct (EntityLive.engine_serial_for b i' id') as [s|] eqn:Es; [|done].
    cbn. intros [= -> ->]. split; [done|]. exists s. by apply serial_lookup.
Qed.

Lemma value_live p i id s : EntityLive.lookup b i = Some (id, s) -> value b p (Some (i, id)) = inr (Entity_ (Some (i, id)) (bool_decide (p = Nullable))).
Proof. intros Hl. unfold value, is_live. cbn [fst snd]. by rewrite (proj2 (serial_lookup i id s) Hl). Qed.

(** An entity value survives the wire. A reference the host may show, live or null where the position
    allows it, is encoded, and decoding that for the same position gives the reference back. *)
Theorem projection_entity_roundtrip p id r v :
  width b -> parse_entity id = Some p -> value b p r = inr v ->
  exists w, encode b v = inr w /\ decode b w "ptr" id = inr v.
Proof.
  intros Hw Hid (r' & -> & Hnone & Hsome)%value_inr. unfold decode. rewrite Hid. destruct r' as [[i e]|].
  - destruct (Hsome _ _ eq_refl) as (_ & s & Hl). destruct (Hw _ _ _ Hl) as [Hi Hs]. unfold encode. cbn [mbind option_bind fst snd].
    rewrite (proj2 (serial_lookup i e s) Hl). cbn [fmap option_fmap option_map]. eexists. split; [done|]. unfold adopt. cbn [kind flags reserved aux bits].
    pose proof (u32_range s) as Hr. rewrite (proj2 (Z.ltb_ge _ _)) by lia. assert (u32_wrap i = i) as -> by (unfold u32_wrap; rewrite Z.mod_small; [done|unfold i32_max in Hi; lia]).
    rewrite (proj2 (Z.eqb_neq i u32_max)) by (unfold i32_max, u32_max in *; lia). rewrite (proj2 (Z.ltb_ge _ _)) by lia.
    unfold EntityLive.adopt. unfold EntityLive.lookup in Hl. rewrite Hl, i32_u32, !Z.eqb_refl by done. pose proof (value_live p _ _ _ Hl) as Hv.
    destruct p; [rewrite bool_decide_false in * by done|rewrite bool_decide_true in * by done]; exact Hv.
  - rewrite (Hnone eq_refl). cbn. by eexists.
Qed.

(** Nothing dead or out of range comes off the wire. A decoded reference is the entity the books hold now
    at that index under that serial; a decoded address is null or one user code can have; anything else is
    a scalar of the position's own kind. *)
Theorem projection_decode_sound w native id v :
  decode b w native id = inr v ->
  match v with
  | Entity_ (Some (i, e)) _ => parse_entity id <> None /\ i = aux w /\ EntityLive.lookup b i = Some (e, i32_wrap (bits w))
  | Entity_ None nullable => id = "entity?" /\ nullable = true
  | Pointer a => id = "ptr" /\ (a = 0 \/ 65536 <= a < 2 ^ 47)
  | Scalar w' => w' = w /\ kind_of native = inr (kind w) /\ flags w = 0 /\ aux w = 0
  | Copied _ => False
  end.
Proof.
  unfold decode. destruct (parse_entity id) as [p|] eqn:Hid.
  - unfold adopt. intros Hd. succeeds. match goal with E : value b p _ = inr v |- _ => apply value_inr in E as (r' & -> & Hn & Hs) end. destruct r' as [[i e]|].
    + destruct (Hs _ _ eq_refl) as [-> (s & Hl)]. split; [done|]. destruct (aux w =? u32_max); succeeds; [done|]. unfold EntityLive.adopt in *. unfold EntityLive.lookup in *.
      destruct (LiveTable.get (EntityLive.live b) (aux w)) as [[e' s']|] eqn:Eg; [|done]. destruct (Z.eqb_spec s' (i32_wrap (bits w))) as [->|]; [|done].
      simplify_eq/=. done.
    + rewrite (Hn eq_refl). split; [|done]. rewrite (Hn eq_refl) in Hid. unfold parse_entity in Hid. destruct (String.eqb id "entity"); [done|]. destruct (String.eqb_spec id "entity?"); done.
  - destruct (String.eqb_spec id "ptr") as [->|Hne]; intros Hd; succeeds; subst v; bool_to_prop.
    + split; [done|]. unfold pointer_ok in *. destruct (Z.eqb_spec (bits w) 0); [by left|right]. change (2 ^ 47) with (Z.shiftl 1 47).
      bool_to_prop. lia.
    + split_and!; [done| |done..]. congruence.
Qed.
End Live.

(** ** Sharing a target *)
Lemma codec_sym x y : codec_compatible x y = codec_compatible y x.
Proof. unfold codec_compatible. by rewrite (String.eqb_sym x y), (andb_comm (is_some (parse_entity x))). Qed.

Lemma codec_request native x y :
  codec_compatible x y = true -> request native x = request native y \/ (exists p, parse_entity x = Some p) /\ (exists p, parse_entity y = Some p).
Proof.
  unfold codec_compatible. destruct (String.eqb_spec x y) as [->|]; [by left|]. destruct (parse_entity x), (parse_entity y); cbn; try done. right. eauto.
Qed.

(** What two bindings of one target agree on at a position. *)
Definition agree (x y : option Position) : Prop :=
  match x, y with
  | Some x, Some y =>
      p_native x = p_native y /\ p_ownership x = p_ownership y /\
      (request (p_native x) (pr_id (p_projection x)) = request (p_native y) (pr_id (p_projection y)) \/
       is_some (parse_entity (pr_id (p_projection x))) = true /\ is_some (parse_entity (pr_id (p_projection y))) = true)
  | None, None => True
  | _, _ => False
  end.

Lemma position_agree a b x y : position_compatible a b x y = true -> agree (Some x) (Some y).
Proof.
  unfold position_compatible. intros Hp. bool_to_prop. split_and!; [by apply String.eqb_eq|done|].
  match goal with E : String.eqb (p_native x) _ = true |- _ => apply String.eqb_eq in E; rewrite E end.
  match goal with E : codec_compatible _ _ = true |- _ => destruct (codec_request (p_native y) _ _ E) as [|[[? ->] [? ->]]] end; [by left|by right].
Qed.

Lemma zip_forallb {A B} (f : A * B -> bool) (l : list A) (k : list B) i x y :
  forallb f (zip l k) = true -> l !! i = Some x -> k !! i = Some y -> f (x, y) = true.
Proof.
  intros Hf Hx Hy. apply (proj1 (forallb_elem _ _) Hf). apply list_elem_of_lookup. exists i. by apply lookup_zip_Some.
Qed.

(** Callbacks of different bindings may edit one frame. Compatible bindings have the same positions,
    and at each of them the same native type, the same ownership and the same request, unless both show an
    entity there: so a value staged through one is of the kind the other reads. *)
Theorem compatible_positions a b selector : compatible a b = true -> agree (position a selector) (position b selector).
Proof.
  unfold compatible. intros Hc. bool_to_prop. unfold position. destruct (selector =? -1).
  - destruct (s_receiver a), (s_receiver b); try done. by eapply position_agree.
  - destruct (selector =? -2); [by eapply position_agree|]. destruct (0 <=? selector); [|done].
    match goal with E : (_ =? _)%nat = true |- _ => apply Nat.eqb_eq in E; rename E into Hlen end.
    destruct (s_parameters a !! Z.to_nat selector) as [x|] eqn:Ex, (s_parameters b !! Z.to_nat selector) as [y|] eqn:Ey; [..|done].
    + match goal with E : forallb _ _ = true |- _ => apply (zip_forallb _ _ _ _ _ _ E Ex) in Ey end. by eapply position_agree.
    + apply lookup_lt_Some in Ex. apply lookup_ge_None in Ey. lia.
    + apply lookup_lt_Some in Ey. apply lookup_ge_None in Ex. lia.
Qed.

Lemma field_compatible_sym x y : field_compatible x y = field_compatible y x.
Proof. unfold field_compatible. by rewrite Z.eqb_sym, String.eqb_sym. Qed.

Lemma forallb_zip_sym {A} (f : A * A -> bool) (l k : list A) :
  (forall x y, f (x, y) = f (y, x)) -> forallb f (zip l k) = forallb f (zip k l).
Proof. intros Hf. revert k. induction l as [|x l IH]; intros [|y k]; cbn; [done..|]. by rewrite Hf, IH. Qed.

Lemma instance_compatible_sym x y : instance_compatible x y = instance_compatible y x.
Proof.
  unfold instance_compatible. rewrite (String.eqb_sym (codec_id x)), (Z.eqb_sym (codec_version x)), (Z.eqb_sym (extent _)), (Z.eqb_sym (alignment _)), (Nat.eqb_sym (length _)).
  rewrite (forallb_zip_sym (fun xy => field_compatible xy.1 xy.2) (fields (record_ x))) by (intros; apply field_compatible_sym).
  rewrite <- (andb_assoc _ (negb (is_some (i_kind x)))), (andb_comm (negb (is_some (i_kind x)))), andb_assoc. done.
Qed.

Lemma position_compatible_sym a b x y : position_compatible a b x y = position_compatible b a y x.
Proof.
  unfold position_compatible. rewrite String.eqb_sym, (Z.eqb_sym (pr_version _)), codec_sym. f_equal; [do 3 f_equal; apply bool_decide_ext; split; congruence|].
  destruct (p_instance x) as [i|], (p_instance y) as [j|]; try done. destruct (instances a !! i), (instances b !! j); try done. apply instance_compatible_sym.
Qed.

Lemma positions_compatible_sym a b l k :
  forallb (fun xy => position_compatible a b xy.1 xy.2) (zip l k) = forallb (fun xy => position_compatible b a xy.1 xy.2) (zip k l).
Proof. revert k. induction l as [|x l IH]; intros [|y k]; cbn; [done..|]. by rewrite position_compatible_sym, IH. Qed.

Lemma signatures_compatible_sym a b : compatible a b = compatible b a.
Proof.
  unfold compatible. rewrite String.eqb_sym, (Nat.eqb_sym (length _)), (position_compatible_sym a b (s_returns a)), positions_compatible_sym.
  assert (Bool.eqb (member_receiver a) (member_receiver b) = Bool.eqb (member_receiver b) (member_receiver a)) as -> by (by destruct (member_receiver a), (member_receiver b)).
  rewrite (orb_comm (is_nil (scratch a))). rewrite (bool_decide_ext (scratch a = scratch b) (scratch b = scratch a)) by (split; congruence).
  destruct (s_receiver a), (s_receiver b); try done. by rewrite position_compatible_sym.
Qed.
End EngineProjection.

Module EngineProjectionExamples.
Import EngineProjection.
Definition spawned : EntityLive.books := EntityLive.run EntityLive.init [EntityLive.Created 901 72].

Lemma spawned_wf : EntityLive.wf spawned.
Proof. apply EntityLive.books_run_wf; [apply EntityLive.books_init_wf|]. cbn. unfold u64_max, u64_modulus. lia. Qed.
Lemma spawned_lookup index : EntityLive.lookup spawned index = if index =? 901 then Some (1, 72) else None.
Proof.
  unfold EntityLive.lookup, LiveTable.get, spawned. cbn [EntityLive.run foldl EntityLive.step EntityLive.on_created EntityLive.live fst LiveTable.insert LiveTable.entries].
  destruct (Z.eqb_spec index 901) as [->|Hne]; [by rewrite lookup_insert_eq|rewrite lookup_insert_ne by done; apply lookup_empty].
Qed.
Lemma spawned_width : width spawned.
Proof. intros i id s. rewrite spawned_lookup. destruct (Z.eqb_spec i 901) as [->|]; [|done]. intros [= <- <-]. unfold i32_max. lia. Qed.
Lemma spawned_value : value spawned Strict (Some (901, 1)) = inr (Entity_ (Some (901, 1)) false).
Proof. exact (value_live spawned spawned_wf Strict 901 1 72 (spawned_lookup 901)). Qed.

Lemma projection_entity_roundtrip_witness :
  exists w, encode spawned (Entity_ (Some (901, 1)) false) = inr w /\ decode spawned w "ptr" "entity" = inr (Entity_ (Some (901, 1)) false).
Proof. exact (projection_entity_roundtrip spawned spawned_wf Strict "entity" _ _ spawned_width eq_refl spawned_value). Defined.

Lemma projection_decode_sound_witness : 65536 = 0 \/ 65536 <= 65536 < 2 ^ 47.
Proof. destruct (projection_decode_sound spawned spawned_wf (mkWire 8 3 0 0 65536) "ptr" "ptr" (Pointer 65536) eq_refl) as [_ H]. exact H. Defined.

Definition pos (projection : string) : Position := mkPosition "p" "ptr" (mkProjection projection 1) None [] None false.
Definition sig (projection : string) : Signature :=
  mkSignature "linux-x86_64-sysv" false None [pos projection] (pos "ptr") "f" 128 [] [].
Lemma compatible_positions_witness : agree (Some (pos "entity")) (Some (pos "entity?")).
Proof. exact (compatible_positions (sig "entity") (sig "entity?") 0 eq_refl). Defined.

(** Strict and nullable ask for different flags: callbacks of both see the same entity. *)
Example strict_and_nullable : request "ptr" "entity" <> request "ptr" "entity?".
Proof. vm_compute. discriminate. Qed.
End EngineProjectionExamples.
