(* ===== verification/EngineRegistry.v ===== *)
(** Bindings of engine functions to their owners (core/src/engine_functions/registry.rs).

    [State] gathers the statics of registry.rs with what they lean on: the plugin registry behind the
    [Ledger] interface, and the lifetimes and the generation counter of the host packages (contract.rs).
    A lifetime is an [Rc] shared by its package's handles and bindings; here it is stored under its
    generation, which is minted once. A prepared receipt is owned by its caller until it is activated or
    dropped; [receipts] holds the ones outstanding. [calls] is what was asked of the engine, in order: an
    entry [DropBinding] is the table letting go of an [Rc]; once no subscription or running dispatch holds
    it either, its own drop releases the capability (again) and the target. Preparing a target and activating a capability
    are the engine's and are arguments. Sizes kept for memory accounting are not modelled. *)
From S2P Require Import Prelude.
From S2P Require Import Results.
From S2P Require Import BTree.
From S2P Require Import ResourceLedger.
From S2P Require Import EngineContract.
From S2P Require Import EngineInstance.
Import EngineContract.EngineContract.
Import EngineInstance.EngineInstance.

Module EngineRegistry.

Record Binding := mkBinding {
  b_id : Z; b_package : option Z; b_owner : OwnerKey; b_function : Function_; b_target : option Z; b_capability : option Z;
  b_unavailable : option string; b_provenance : Provenance }.
Record PreparedBinding := mkPreparedBinding {
  pb_id : Z; pb_function : Function_; pb_target : option Z; pb_capability : option Z; pb_unavailable : option string; pb_provenance : Provenance }.
(** [PreparedOwnerReceipt], or [PreparedPackageFunctionReceipt] with its package. *)
Record Receipt := mkReceipt { intended_id : string; r_bindings : list PreparedBinding; r_package : option Z }.

Inductive Call :=
| CapabilityRelease (capability : Z)
| TargetRelease (target : Z)
| DropBinding (id : Z)
| HookAcquire (target : Z)
| HookRelease (target : Z)
| DropSubscription (id target : Z).

Record State (R : Type) := mkState {
  ledger : R; next_generation : Z; lifetimes : gmap Z PackageFunctionLifetime; next : Z;
  receipts : gmap Z Receipt; bindings : gmap Z Binding; active : gmap Z (list Z); calls : list Call }.
Arguments mkState {R}. Arguments ledger {R}. Arguments next_generation {R}. Arguments lifetimes {R}. Arguments next {R}.
Arguments receipts {R}. Arguments bindings {R}. Arguments active {R}. Arguments calls {R}.

Section Registry.
Context {R : Type} `{Ledger R}.
Notation State := (State R).

Definition set_ledger (s : State) (x : R) : State := mkState x (next_generation s) (lifetimes s) (next s) (receipts s) (bindings s) (active s) (calls s).
Definition set_lifetime (s : State) (g : Z) (l : PackageFunctionLifetime) : State :=
  mkState (ledger s) (next_generation s) (<[g := l]> (lifetimes s)) (next s) (receipts s) (bindings s) (active s) (calls s).
Definition set_next (s : State) (x : Z) : State := mkState (ledger s) (next_generation s) (lifetimes s) x (receipts s) (bindings s) (active s) (calls s).
Definition set_receipts (s : State) (x : gmap Z Receipt) : State := mkState (ledger s) (next_generation s) (lifetimes s) (next s) x (bindings s) (active s) (calls s).
Definition set_bindings (s : State) (x : gmap Z Binding) : State := mkState (ledger s) (next_generation s) (lifetimes s) (next s) (receipts s) x (active s) (calls s).
Definition set_active (s : State) (x : gmap Z (list Z)) : State := mkState (ledger s) (next_generation s) (lifetimes s) (next s) (receipts s) (bindings s) x (calls s).
Definition emit (s : State) (c : list Call) : State := mkState (ledger s) (next_generation s) (lifetimes s) (next s) (receipts s) (bindings s) (active s) (calls s ++ c).

Definition live (s : State) (o : OwnerKey) : bool := owner_is_live (ledger s) (o_id o) (o_generation o).
(** [Binding::is_live] *)
Definition binding_is_live (s : State) (b : Binding) : bool :=
  match b_package b with
  | None => live s (b_owner b)
  | Some g =>
      match lifetimes s !! g with
      | Some l => bool_decide (l_key l = b_owner b) && bool_decide (phase l = Active) && negb (bool_decide (source l = Retired))
      | None => false
      end
  end.

Definition next_id (s : State) : State * (string + Z) :=
  let id := next s in
  if id =? u64_max then (s, inl "function id exhausted") else (set_next s (id + 1), inr id).

(** The drop of a [PreparedBinding]: the capability first. *)
Definition let_go (b : PreparedBinding) : list Call :=
  match pb_capability b with Some c => [CapabilityRelease c] | None => [] end ++
  match pb_target b with Some t => [TargetRelease t] | None => [] end.
Definition drop_prepared (s : State) (bs : list PreparedBinding) : State := emit s (bs ≫= let_go).
Definition drop_receipt (s : State) (k : Z) : State :=
  match receipts s !! k with
  | Some r => drop_prepared (set_receipts s (delete k (receipts s))) (r_bindings r)
  | None => s
  end.

(** What the engine answered to the preparation of a function under a binding id: target and capability. *)
Definition Answer := Function_ -> Z -> string + (Z * option Z).

Definition host_ok (host : option PackageFunctionLifetime) (f : Function_) : bool :=
  match host_owner f with
  | None => true
  | Some owner => match host with None => false | Some h => negb (is_retired h) && bool_decide (l_key h = owner) end
  end.
Fixpoint prepare_bindings (s : State) (host : option PackageFunctionLifetime) (answer : Answer) (fs : list PreparedFunction) (acc : list PreparedBinding)
  : State * (string + list PreparedBinding) :=
  match fs with
  | [] => (s, inr acc)
  | p :: fs =>
      let f := function_ p in
      if negb (String.eqb (EngineContract.EngineContract.id (fn_policy f)) "generic.v2")
      then (drop_prepared s acc, inl "internal policy requires host adapter binding authority")
      else if negb (host_ok host f) then (drop_prepared s acc, inl "trusted instance requires exact verified package owner")
      else match next_id s with
           | (s, inl e) => (drop_prepared s acc, inl e)
           | (s, inr id) =>
               match match unavailable p with None => answer f id | Some e => inl e end with
               | inr (target, capability) =>
                   prepare_bindings s host answer fs (acc ++ [mkPreparedBinding id f (Some target) capability None (provenance p)])
               | inl e =>
                   if String.eqb (fn_requirement f) "required" then (drop_prepared s acc, inl (fn_id f +:+ ": " +:+ e))
                   else prepare_bindings s host answer fs (acc ++ [mkPreparedBinding id f None None (Some e) (provenance p)])
               end
           end
  end.
Definition prepare_owner_authorized (s : State) (intended : string) (c : PreparedCandidate) (host : option PackageFunctionLifetime) (answer : Answer)
  : State * (string + list PreparedBinding) :=
  if negb (String.eqb (c_owner c) intended) then (s, inl "prepared candidate owner mismatch")
  else prepare_bindings s host answer (prepared c) [].
(** [k] is the receipt's name here; any unused one will do. *)
Definition prepare_owner (s : State) (k : Z) (intended : string) (c : PreparedCandidate) (answer : Answer) : State * (string + unit) :=
  match prepare_owner_authorized s intended c None answer with
  | (s, inl e) => (s, inl e)
  | (s, inr bs) => (set_receipts s (<[k := mkReceipt intended bs None]> (receipts s)), inr tt)
  end.
Definition prepare_package_owner (s : State) (k g : Z) (c : PreparedCandidate) (answer : Answer) : State * (string + unit) :=
  match lifetimes s !! g with
  | None => (s, inl "no such package")
  | Some l =>
      if is_retired l || negb (bool_decide (phase l = Unactivated)) then (s, inl "package functions already activated or retired")
      else match prepare_owner_authorized s (o_id (l_key l)) c (Some l) answer with
           | (s, inl e) => (s, inl e)
           | (s, inr bs) => (set_receipts s (<[k := mkReceipt (o_id (l_key l)) bs (Some g)]> (receipts s)), inr tt)
           end
  end.

Definition record (s : State) (o : OwnerKey) (x : Resource) : State * bool :=
  let '(r, ok) := record_resource (ledger s) (o_id o) (o_generation o) x in (set_ledger s r, ok).
Definition release (s : State) (o : OwnerKey) (x : Resource) : State * bool :=
  let '(r, ok) := release_resource (ledger s) (o_id o) (o_generation o) x in (set_ledger s r, ok).
Definition release_bindings (s : State) (o : OwnerKey) (ids : list Z) : State :=
  foldl (fun s id => (release s o (FunctionBinding id)).1) s ids.

(** Record every id; on a refusal take back what was recorded, last first. *)
Fixpoint record_all (s : State) (o : OwnerKey) (done_ todo : list Z) : State * bool :=
  match todo with
  | [] => (s, true)
  | id :: todo =>
      match record s o (FunctionBinding id) with
      | (s, true) => record_all s o (done_ ++ [id]) todo
      | (s, false) => (release_bindings s o (rev done_), false)
      end
  end.
(** The first capability the engine refuses to activate for the owner. *)
Definition Activation := Z -> option string.
Fixpoint first_refused (activate : Activation) (bs : list PreparedBinding) : option string :=
  match bs with
  | [] => None
  | b :: bs => match b_ ← pb_capability b; activate b_ with Some e => Some e | None => first_refused activate bs end
  end.
Definition publish (o : OwnerKey) (package : option Z) (m : gmap Z Binding) (b : PreparedBinding) : gmap Z Binding :=
  <[pb_id b := mkBinding (pb_id b) package o (pb_function b) (pb_target b) (pb_capability b) (pb_unavailable b) (pb_provenance b)]> m.

Definition activate_owner (s : State) (k : Z) (owner : OwnerKey) (activate : Activation) : State * (string + list Z) :=
  match receipts s !! k with
  | None => (s, inl "no such receipt")
  | Some r =>
      let fail s e := (drop_receipt s k, inl e) in
      if negb (bool_decide (o_kind owner = Plugin)) || negb (String.eqb (intended_id r) (o_id owner)) then fail s "prepared candidate owner mismatch"
      else if negb (live s owner) then fail s "owner generation unavailable"
      else if existsb (fun b => bool_decide (b_owner b = owner)) (btree_values (bindings s)) then fail s "owner already activated"
      else
        let ids := pb_id <$> r_bindings r in
        match record_all s owner [] ids with
        | (s, false) => fail s "owner ledger unavailable"
        | (s, true) =>
            match first_refused activate (r_bindings r) with
            | Some e => fail (release_bindings s owner (rev ids)) e
            | None =>
                (set_receipts (set_bindings s (foldl (publish owner None) (bindings s) (r_bindings r))) (delete k (receipts s)), inr ids)
            end
        end
  end.

Definition activate_package_owner (s : State) (k g : Z) (activate : Activation) : State * (string + list Z) :=
  match receipts s !! k, lifetimes s !! g with
  | Some r, Some l =>
      let fail e := (drop_receipt s k, inl e) in
      if negb (bool_decide (r_package r = Some g)) then fail "prepared package capability mismatch"
      else if is_retired l || negb (bool_decide (phase l = Unactivated)) then fail "package functions already activated or retired"
      else match first_refused activate (r_bindings r) with
           | Some e => fail e
           | None =>
               let ids := pb_id <$> r_bindings r in
               let s := set_lifetime s g (mkLifetime (l_key l) Active (source l)) in
               let s := set_bindings s (foldl (publish (l_key l) (Some g)) (bindings s) (r_bindings r)) in
               (set_active (set_receipts s (delete k (receipts s))) (<[g := ids]> (active s)), inr ids)
           end
  | _, _ => (s, inl "no such receipt")
  end.

Definition binding (s : State) (id : Z) (owner : OwnerKey) : string + Binding :=
  ok_or (b ← bindings s !! id; if bool_decide (b_owner b = owner) && binding_is_live s b then Some b else None) "binding owner generation unavailable".
Definition named_binding (s : State) (owner : OwnerKey) (name : string) : string + Binding :=
  let* b := ok_or (find (fun b => bool_decide (b_owner b = owner) && String.eqb (fn_name (b_function b)) name) (btree_values (bindings s)))
              "undeclared engine function" in
  binding s (b_id b) owner.
(** The capability is released at once, the target with the last holder. *)
Definition drop_binding (s : State) (id : Z) : State :=
  match bindings s !! id with
  | None => s
  | Some b => emit (set_bindings s (delete id (bindings s)))
                (match b_capability b with Some c => [CapabilityRelease c] | None => [] end ++ [DropBinding id])
  end.
Definition owner_bindings (s : State) (owner : OwnerKey) : list Z :=
  b_id <$> filterb (fun b => bool_decide (b_owner b = owner)) (btree_values (bindings s)).

(** contract.rs: [HostPackageOwner::mint]. *)
Definition mint_package (s : State) (id : string) : State * (string + Z) :=
  match mint (next_generation s) id with
  | inl e => (s, inl e)
  | inr (next', l) =>
      (mkState (ledger s) next' (<[o_generation (l_key l) := l]> (lifetimes s)) (next s) (receipts s) (bindings s) (active s) (calls s),
       inr (o_generation (l_key l)))
  end.
(** [ActivePackageFunctions::drop] before and after it drops the package's subscriptions. *)
Definition retire_functions (s : State) (g : Z) : State :=
  match lifetimes s !! g with Some l => set_lifetime s g (mkLifetime (l_key l) Retired (source l)) | None => s end.
Definition drop_active (s : State) (g : Z) : State :=
  match active s !! g with
  | Some ids => foldl drop_binding (set_active s (delete g (active s))) (rev ids)
  | None => s
  end.
End Registry.
End EngineRegistry.
