(* ===== verification/RegistryInvariant.v ===== *)
(** What always holds of the bindings' registry ([EngineRegistry.State]), operation by operation.

    Every published binding is backed: a plugin's by an entry of its live ledger, a package's by the active
    functions of the package. A prepared receipt's ids are new, so nothing published or recorded meets
    them, and an id is never given twice. *)
From S2P Require Import Prelude.
From S2P Require Import Results.
From S2P Require Import BTree.
From S2P Require Import ResourceLedger.
From S2P Require Import EngineContract.
From S2P Require Import EngineInstance.
From S2P Require Import EngineRegistry.
Import EngineContract.EngineContract.
Import EngineInstance.EngineInstance.
Import EngineRegistry.EngineRegistry.

Module RegistryInvariant.
Section Inv.
Context {R : Type} `{LedgerLaws R}.
Notation State := (State R).
Implicit Types s : State.

(** A resource recorded for an owner that is live. *)
Definition owned (r : R) (o : OwnerKey) (x : Resource) : Prop :=
  o_kind o = Plugin /\ generation r (o_id o) = Some (o_generation o) /\ x ∈ held r (o_id o).

Definition binding_ok (s : State) (k : Z) (b : Binding) : Prop :=
  match b_package b with
  | None => owned (ledger s) (b_owner b) (FunctionBinding k)
  | Some g => exists l ids, lifetimes s !! g = Some l /\ l_key l = b_owner b /\ active s !! g = Some ids /\ k ∈ ids
  end.
Record reg_inv (s : State) : Prop := mkRegInv {
  ri_sound : sound (ledger s);
  ri_bindings : forall k b, bindings s !! k = Some b -> b_id b = k /\ k < next s /\ binding_ok s k b;
  ri_receipts : forall k r b, receipts s !! k = Some r -> b ∈ r_bindings r ->
                  pb_id b < next s /\ bindings s !! pb_id b = None /\ forall id, FunctionBinding (pb_id b) ∉ held (ledger s) id;
  ri_unique : forall k r, receipts s !! k = Some r -> NoDup (pb_id <$> r_bindings r);
  ri_apart : forall k k' r r' b b', receipts s !! k = Some r -> receipts s !! k' = Some r' -> k <> k' ->
               b ∈ r_bindings r -> b' ∈ r_bindings r' -> pb_id b <> pb_id b';
  ri_held : forall id k, FunctionBinding k ∈ held (ledger s) id ->
              k < next s /\ forall b, bindings s !! k = Some b -> b_package b = None /\ o_id (b_owner b) = id;
  ri_lifetimes : forall g l, lifetimes s !! g = Some l -> o_generation (l_key l) = g /\ o_kind (l_key l) = GamePackage /\ g < next_generation s;
  ri_active : forall g ids, active s !! g = Some ids -> exists l, lifetimes s !! g = Some l /\ phase l = Active /\
                forall k, k ∈ ids -> exists b, bindings s !! k = Some b /\ b_package b = Some g;
}.

Lemma binding_kind s k b : reg_inv s -> bindings s !! k = Some b ->
  match b_package b with None => o_kind (b_owner b) = Plugin | Some g => o_kind (b_owner b) = GamePackage /\ o_generation (b_owner b) = g end.
Proof.
  intros Hi Hb. destruct (ri_bindings s Hi k b Hb) as (_ & _ & Hok). unfold binding_ok in Hok. destruct (b_package b) as [g|]; [|apply Hok].
  destruct Hok as (l & ids & Hl & <- & _). by destruct (ri_lifetimes s Hi g l Hl) as (? & ? & _).
Qed.

(** ** Frames *)
Lemma reg_inv_emit s c : reg_inv s -> reg_inv (emit s c).
Proof. intros []. constructor; assumption. Qed.
Lemma reg_inv_next s n : reg_inv s -> next s <= n -> reg_inv (set_next s n).
Proof.
  intros [S B Rc U A Hd L Ac] Hn. constructor; cbn; try assumption.
  - intros k b Hb. destruct (B k b Hb) as (? & ? & ?). split_and!; [done|lia|done].
  - intros k r b Hr Hb. destruct (Rc k r b Hr Hb) as (? & ? & ?). split_and!; [lia|done|done].
  - intros id k Hk. destruct (Hd id k Hk). split; [lia|done].
Qed.
Lemma reg_inv_ledger s r' :
  reg_inv s -> sound r' -> (forall o k, owned (ledger s) o (FunctionBinding k) -> owned r' o (FunctionBinding k)) ->
  (forall id k, FunctionBinding k ∈ held r' id -> FunctionBinding k ∈ held (ledger s) id) -> reg_inv (set_ledger s r').
Proof.
  intros [S B Rc U A Hd L Ac] Hs Ho Hh. constructor; cbn; try assumption.
  - intros k b Hb. destruct (B k b Hb) as (? & ? & Hok). split_and!; [done..|]. unfold binding_ok in *. destruct (b_package b); [done|]. by apply Ho.
  - intros k r b Hr Hb. destruct (Rc k r b Hr Hb) as (? & ? & Hn). split_and!; [done..|]. intros id Hi. by eapply Hn, Hh.
  - intros id k Hk. by apply Hd, Hh.
Qed.
(** A lifetime moves on; a package whose functions are active stays so. *)
Lemma reg_inv_lifetime s g l l' :
  reg_inv s -> lifetimes s !! g = Some l -> l_key l' = l_key l -> (is_Some (active s !! g) -> phase l' = Active) -> reg_inv (set_lifetime s g l').
Proof.
  intros [S B Rc U A Hd L Ac] Hl Hk Hp. constructor; cbn; try assumption.
  - intros k b Hb. destruct (B k b Hb) as (? & ? & Hok). split_and!; [done..|]. unfold binding_ok in *. cbn. destruct (b_package b) as [g'|]; [|done].
    destruct Hok as (l1 & ids & Hl1 & Hk1 & Hids). destruct (decide (g = g')) as [<-|]; [|rewrite lookup_insert_ne by done; by exists l1, ids].
    rewrite lookup_insert_eq. exists l', ids. split_and!; [done|congruence|apply Hids..].
  - intros g' l1 [[<- <-]|[_ Hl1]]%lookup_insert_Some; [rewrite Hk; by apply L|by apply L].
  - intros g' ids Hids. destruct (decide (g = g')) as [<-|]; [|rewrite lookup_insert_ne by done; by apply (Ac _ ids)].
    destruct (Ac _ ids Hids) as (_ & _ & _ & Hb).
    rewrite lookup_insert_eq. exists l'. split_and!; [done| |done]. apply Hp. by eexists.
Qed.
Lemma reg_inv_mint s id : reg_inv s -> reg_inv (mint_package s id).1.
Proof.
  intros [S B Rc U A Hd L Ac]. unfold mint_package, mint. destruct (require _ _) as [|[]]; [by constructor|]. unfold checked_add. cbn.
  destruct (ok_or _ _) as [|n] eqn:E; [by constructor|]. apply ok_or_inr in E. cbn in *. assert (n = next_generation s + 1) as -> by (case_match; by simplify_eq).
  assert (lifetimes s !! next_generation s = None) as Hf. { destruct (_ !! next_generation s) as [l|] eqn:El; [|done]. destruct (L _ _ El) as (_ & _ & ?). lia. }
  constructor; cbn; try assumption.
  - intros k b Hb. destruct (B k b Hb) as (? & ? & Hok). split_and!; [done..|]. unfold binding_ok in *. cbn. destruct (b_package b) as [g'|]; [|done].
    destruct Hok as (l1 & ids & Hl1 & Hk1 & Hids). exists l1, ids. rewrite lookup_insert_ne by congruence. done.
  - intros g l [[<- <-]|[_ Hl]]%lookup_insert_Some; cbn; [split_and!; [done..|lia]|]. destruct (L g l Hl) as (? & ? & ?). split_and!; [done..|lia].
  - intros g ids Hg. destruct (Ac g ids Hg) as (l & Hl & Hp). exists l. split; [|done]. rewrite lookup_insert_ne by congruence. done.
Qed.

(** ** Receipts *)
Lemma next_id_inr s s' id : next_id s = (s', inr id) -> id = next s /\ s' = set_next s (next s + 1).
Proof. unfold next_id. case_match; intros; by simplify_eq. Qed.
Lemma next_id_inl s s' e : next_id s = (s', inl e) -> s' = s.
Proof. unfold next_id. case_match; intros; by simplify_eq. Qed.

Lemma emit_nil s : emit (set_next s (next s)) [] = s.
Proof. destruct s. unfold emit, set_next. cbn. by rewrite app_nil_r. Qed.

(** What preparing may change, and that the ids it gives are new. *)
Lemma prepare_bindings_spec s host answer fs acc s' r :
  prepare_bindings s host answer fs acc = (s', r) ->
  exists n c, s' = emit (set_next s n) c /\ next s <= n /\
    forall bs, r = inr bs -> exists new, bs = acc ++ new /\ NoDup (pb_id <$> new) /\ forall b, b ∈ new -> next s <= pb_id b < n.
Proof.
  revert s acc. induction fs as [|p fs IH]; intros s acc; cbn [prepare_bindings].
  { intros [= <- <-]. exists (next s), []. rewrite emit_nil. split_and!; [done|lia|]. intros bs [= <-]. exists []. rewrite app_nil_r. split_and!; [done|constructor|by intros b ?%not_elem_of_nil]. }
  assert (forall e, (drop_prepared s acc, inl e) = (s', r) -> exists n c, s' = emit (set_next s n) c /\ next s <= n /\
    forall bs, r = inr bs -> exists new, bs = acc ++ new /\ NoDup (pb_id <$> new) /\ forall b, b ∈ new -> next s <= pb_id b < n) as Hfail.
  { intros e [= <- <-]. exists (next s), (acc ≫= let_go). split_and!; [by destruct s|lia|done]. }
  case_match; [by apply Hfail|]. case_match; [by apply Hfail|]. destruct (next_id s) as [s1 [e|id]] eqn:En.
  { apply next_id_inl in En as ->. apply Hfail. }
  apply next_id_inr in En as [-> ->].
  assert (forall b, pb_id b = next s -> prepare_bindings (set_next s (next s + 1)) host answer fs (acc ++ [b]) = (s', r) -> exists n c, s' = emit (set_next s n) c /\ next s <= n /\
    forall bs, r = inr bs -> exists new, bs = acc ++ new /\ NoDup (pb_id <$> new) /\ forall b, b ∈ new -> next s <= pb_id b < n) as Hgo.
  { intros b Hid Hp. apply IH in Hp as (n & c & -> & Hn & Hbs). cbn in Hn. exists n, c. split_and!; [done|lia|]. intros bs Hr. destruct (Hbs bs Hr) as (new & -> & Hnd & Hb).
    cbn in Hb. exists (b :: new). rewrite <- app_assoc. split_and!; [done| |].
    - cbn. constructor; [|done]. rewrite Hid. intros (b' & Hb' & Hin)%list_elem_of_fmap. specialize (Hb _ Hin). lia.
    - intros b' [->|Hb']%elem_of_cons; [lia|]. specialize (Hb b' Hb'). lia. }
  destruct (match unavailable p with None => _ | Some e => inl e end) as [e|[target capability]]; [|by apply Hgo]. case_match; [|by apply Hgo].
  intros [= <- <-]. exists (next s + 1), (acc ≫= let_go). split_and!; [by destruct s|lia|done].
Qed.

Lemma reg_inv_receipt s n c k r :
  reg_inv s -> next s <= n -> receipts s !! k = None -> NoDup (pb_id <$> r_bindings r) -> (forall b, b ∈ r_bindings r -> next s <= pb_id b < n) ->
  reg_inv (set_receipts (emit (set_next s n) c) (<[k := r]> (receipts s))).
Proof.
  intros Hi Hn Hk Hu Hb. destruct (reg_inv_next s n Hi Hn) as [S B Rc U A Hd L Ac]. constructor; cbn in *; try assumption.
  - intros k' r' b [[<- <-]|[_ Hr]]%lookup_insert_Some Hin; [|by apply (Rc k' r' b)]. specialize (Hb b Hin). split_and!; [lia| |].
    + destruct (bindings s !! pb_id b) as [b'|] eqn:E; [|done]. destruct (ri_bindings s Hi _ _ E) as (_ & ? & _). lia.
    + intros id Hh. destruct (ri_held s Hi _ _ Hh). lia.
  - intros k' r' [[<- <-]|[_ Hr]]%lookup_insert_Some; [done|by eapply U].
  - intros k1 k2 r1 r2 b1 b2 [[<- <-]|[_ H1]]%lookup_insert_Some [[<- <-]|[_ H2]]%lookup_insert_Some Hne Hb1 Hb2; [done| | |by eapply (A k1 k2)].
    + destruct (ri_receipts s Hi _ _ _ H2 Hb2). specialize (Hb _ Hb1). lia.
    + destruct (ri_receipts s Hi _ _ _ H1 Hb1). specialize (Hb _ Hb2). lia.
Qed.
Lemma prepare_owner_authorized_spec s intended c host answer s' r :
  prepare_owner_authorized s intended c host answer = (s', r) ->
  exists n l, s' = emit (set_next s n) l /\ next s <= n /\
    forall bs, r = inr bs -> NoDup (pb_id <$> bs) /\ forall b, b ∈ bs -> next s <= pb_id b < n.
Proof.
  unfold prepare_owner_authorized. case_match.
  - intros [= <- <-]. exists (next s), []. rewrite emit_nil. split_and!; [done|lia|done].
  - intros Hp. apply prepare_bindings_spec in Hp as (n & l & -> & Hn & Hbs). exists n, l. split_and!; [done..|].
    intros bs Hr. by destruct (Hbs bs Hr) as (new & -> & Hu & Hb).
Qed.
Lemma reg_inv_prepare_owner s k intended c answer : reg_inv s -> receipts s !! k = None -> reg_inv (prepare_owner s k intended c answer).1.
Proof.
  intros Hi Hk. unfold prepare_owner. destruct (prepare_owner_authorized _ _ _ _ _) as [s' [e|bs]] eqn:E; apply prepare_owner_authorized_spec in E as (n & l & -> & Hn & Hbs); cbn [fst].
  - by apply reg_inv_emit, reg_inv_next.
  - destruct (Hbs bs eq_refl). by apply (reg_inv_receipt s n l).
Qed.
Lemma reg_inv_prepare_package_owner s k g c answer : reg_inv s -> receipts s !! k = None -> reg_inv (prepare_package_owner s k g c answer).1.
Proof.
  intros Hi Hk. unfold prepare_package_owner. case_match; [|done]. case_match; [done|].
  destruct (prepare_owner_authorized _ _ _ _ _) as [s' [e|bs]] eqn:E; apply prepare_owner_authorized_spec in E as (n & l & -> & Hn & Hbs); cbn [fst].
  - by apply reg_inv_emit, reg_inv_next.
  - destruct (Hbs bs eq_refl). by apply (reg_inv_receipt s n l).
Qed.
Lemma reg_inv_forget s k : reg_inv s -> reg_inv (set_receipts s (delete k (receipts s))).
Proof.
  intros [S B Rc U A Hd L Ac]. constructor; cbn; try assumption.
  - intros k' r b [_ Hr]%lookup_delete_Some. by apply (Rc k').
  - intros k' r [_ Hr]%lookup_delete_Some. by apply (U k').
  - intros k1 k2 r1 r2 b1 b2 [_ H1]%lookup_delete_Some [_ H2]%lookup_delete_Some. by apply (A k1 k2 r1 r2).
Qed.
Lemma reg_inv_drop_receipt s k : reg_inv s -> reg_inv (drop_receipt s k).
Proof. intros Hi. unfold drop_receipt. case_match; [|done]. by apply reg_inv_emit, reg_inv_forget. Qed.
Lemma drop_receipt_rows s k : lifetimes (drop_receipt s k) = lifetimes s /\ bindings (drop_receipt s k) = bindings s /\ active (drop_receipt s k) = active s /\
  ledger (drop_receipt s k) = ledger s /\ next (drop_receipt s k) = next s.
Proof. unfold drop_receipt. by case_match. Qed.

(** ** Activating *)
Lemma record_release_eq s o x : (release s o x).1 = set_ledger s (release_resource (ledger s) (o_id o) (o_generation o) x).1.
Proof. unfold release. by destruct (release_resource _ _ _ _). Qed.
(** Taking back what was recorded last leaves the ledger as it was. *)
Lemma release_bindings_spec s o ids l :
  sound (ledger s) -> generation (ledger s) (o_id o) = Some (o_generation o) -> held (ledger s) (o_id o) = l ++ (FunctionBinding <$> ids) ->
  exists r', release_bindings s o (rev ids) = set_ledger s r' /\ sound r' /\ (forall n, room (ledger s) n -> room r' n) /\
    (forall id, generation r' id = generation (ledger s) id) /\ (forall id, held r' id = if decide (id = o_id o) then l else held (ledger s) id).
Proof.
  revert s. induction ids as [|i ids IH] using rev_ind; intros s Hs Hg Hh.
  { exists (ledger s). cbn. split_and!; [by destruct s|done..|]. intros id. case_decide as Hd; [|done]. rewrite Hd, Hh. by rewrite app_nil_r. }
  rewrite rev_app_distr. cbn. rewrite record_release_eq. destruct (release_live (ledger s) (o_id o) (o_generation o) (FunctionBinding i) Hs Hg) as (r1 & -> & Hs1 & Hr1 & G1 & H1). cbn [fst].
  rewrite Hh, fmap_app, app_assoc in H1. cbn in H1. rewrite remove_last_snoc in H1.
  assert (forall id, generation r1 id = generation (ledger s) id) as G1' by (intros id; rewrite G1; case_decide as Hd; [by rewrite Hd|done]).
  destruct (IH (set_ledger s r1) Hs1) as (r' & E & Hs' & Hr' & G' & H'); [by cbn; rewrite G1'|cbn; rewrite H1; by rewrite decide_True|]. unfold release_bindings in E. rewrite E. exists r'. cbn in *.
  split_and!; [done..|auto|intros id; by rewrite G', G1'|]. intros id. rewrite H', H1. by case_decide.
Qed.
Lemma record_all_spec s o done_ todo :
  sound (ledger s) -> room (ledger s) (length todo) -> o_kind o = Plugin -> generation (ledger s) (o_id o) = Some (o_generation o) ->
  exists r', record_all s o done_ todo = (set_ledger s r', true) /\ sound r' /\ room r' 0 /\ (forall id, generation r' id = generation (ledger s) id) /\
    (forall id, held r' id = if decide (id = o_id o) then held (ledger s) id ++ (FunctionBinding <$> todo) else held (ledger s) id).
Proof.
  intros Hs Hr Hk Hg. revert s done_ Hs Hr Hg. induction todo as [|i todo IH]; intros s done_ Hs Hr Hg; cbn.
  { exists (ledger s). split_and!; [by destruct s|done..|]. intros id. case_decide; [by rewrite app_nil_r|done]. }
  destruct (record_live (ledger s) (o_id o) (o_generation o) (FunctionBinding i) (length todo) Hs Hr Hg) as (r1 & E & Hs1 & Hr1 & G1 & Hh1).
  unfold record. rewrite E. destruct (IH (set_ledger s r1) (done_ ++ [i]) Hs1 Hr1) as (r' & -> & Hs' & Hr' & G' & Hh'); cbn in *.
  { rewrite G1. by case_decide. }
  exists r'. split_and!; [done..| |].
  - intros id. rewrite G', G1. case_decide as Hd; [by rewrite Hd|done].
  - intros id. rewrite Hh', Hh1. case_decide as Hd; [|done]. by rewrite Hd, <- app_assoc.
Qed.

Definition published (o : OwnerKey) (package : option Z) (b : PreparedBinding) : Binding :=
  mkBinding (pb_id b) package o (pb_function b) (pb_target b) (pb_capability b) (pb_unavailable b) (pb_provenance b).
Lemma lookup_publish o package bs (m : gmap Z Binding) k :
  NoDup (pb_id <$> bs) ->
  forall b, foldl (publish o package) m bs !! k = Some b <->
    (exists p, p ∈ bs /\ pb_id p = k /\ b = published o package p) \/ (k ∉ pb_id <$> bs /\ m !! k = Some b).
Proof.
  revert m. induction bs as [|p bs IH]; intros m Hu b; cbn in *.
  { split; [intros; right; split; [apply not_elem_of_nil|done]|]. by intros [(p & ?%not_elem_of_nil & _)|[_ ?]]. }
  apply NoDup_cons in Hu as [Hp Hu]. rewrite (IH _ Hu). unfold publish. rewrite lookup_insert_Some. setoid_rewrite elem_of_cons. split.
  - intros [(q & ? & ? & ?)|[Hk [[<- <-]|[Hne Hm]]]]; [left; exists q; tauto|left; exists p; tauto|right; split; [|done]]. intros [?|?]; [congruence|done].
  - intros [(q & [->|Hq] & <- & ->)|[Hk Hm]]; [right; split; [done|by left]|left; by exists q|]. right. split; [tauto|]. right. split; [|done]. intros <-. tauto.
Qed.

Lemma publish_grows s k r o package :
  reg_inv s -> receipts s !! k = Some r -> bindings s ⊆ foldl (publish o package) (bindings s) (r_bindings r).
Proof.
  intros Hi Hr. apply map_subseteq_spec. intros j b Hb. rewrite lookup_publish by exact (ri_unique s Hi k r Hr). right. split; [|done].
  intros (p & -> & Hp)%list_elem_of_fmap. destruct (ri_receipts s Hi k r p Hr Hp) as (_ & Hn & _). congruence.
Qed.
(** Activation is all or nothing. *)
Lemma activate_owner_cases s k owner activate :
  sound (ledger s) -> room (ledger s) (match receipts s !! k with Some r => length (r_bindings r) | None => 0 end) ->
  match activate_owner s k owner activate with
  | (s', inl e) => exists r', s' = drop_receipt (set_ledger s r') k /\ sound r' /\ (forall id, generation r' id = generation (ledger s) id) /\ (forall id, held r' id = held (ledger s) id)
  | (s', inr ids) =>
      exists r r', receipts s !! k = Some r /\ ids = pb_id <$> r_bindings r /\ o_kind owner = Plugin /\ generation (ledger s) (o_id owner) = Some (o_generation owner) /\
        s' = set_receipts (set_bindings (set_ledger s r') (foldl (publish owner None) (bindings s) (r_bindings r))) (delete k (receipts s)) /\
        sound r' /\ (forall id, generation r' id = generation (ledger s) id) /\
        (forall id, held r' id = if decide (id = o_id owner) then held (ledger s) id ++ (FunctionBinding <$> ids) else held (ledger s) id)
  end.
Proof.
  intros Hs Hroom. unfold activate_owner.
  assert (exists r', drop_receipt s k = drop_receipt (set_ledger s r') k /\ sound r' /\ (forall id, generation r' id = generation (ledger s) id) /\ (forall id, held r' id = held (ledger s) id)) as Hfail
    by (exists (ledger s); split_and!; [by destruct s|done..]).
  destruct (receipts s !! k) as [r|] eqn:Er; [|exists (ledger s); unfold drop_receipt; cbn; rewrite Er; by destruct s].
  destruct (negb (bool_decide (o_kind owner = Plugin)) || _) eqn:Ek; [done|]. destruct (negb (live s owner)) eqn:El; [done|]. destruct (existsb _ _); [done|]. bool_to_prop.
  apply owner_is_live_true in El.
  destruct (record_all_spec s owner [] (pb_id <$> r_bindings r)) as (r1 & E & Hs1 & Hr1 & G1 & Hh1); [done|by rewrite length_fmap|done..|]. rewrite E.
  destruct (first_refused _ _); cbn [fst].
  - destruct (release_bindings_spec (set_ledger s r1) owner (pb_id <$> r_bindings r) (held (ledger s) (o_id owner)) Hs1) as (r2 & -> & Hs2 & _ & G2 & Hh2); cbn in *; [by rewrite G1|by rewrite Hh1, decide_True|].
    exists r2. split_and!; [done..|intros id; by rewrite G2|]. intros id. rewrite Hh2, Hh1. case_decide as Hd; [by rewrite Hd|done].
  - exists r, r1. by split_and!.
Qed.
Lemma reg_inv_activate_owner s k owner activate :
  reg_inv s -> room (ledger s) (match receipts s !! k with Some r => length (r_bindings r) | None => 0 end) -> reg_inv (activate_owner s k owner activate).1.
Proof.
  intros Hi Hroom. pose proof (activate_owner_cases s k owner activate (ri_sound s Hi) Hroom) as Hc. destruct (activate_owner s k owner activate) as [s' [e|ids]]; cbn [fst].
  { destruct Hc as (r' & -> & Hs & Hg & Hh). apply reg_inv_drop_receipt, reg_inv_ledger; [done..| |by intros; rewrite <- Hh]. intros o j. unfold owned. by rewrite Hg, Hh. }
  destruct Hc as (r & r' & Er & -> & Hk & Hlive & -> & Hs & Hg & Hh). pose proof Hi as [S B Rc U A Hd L Ac].
  set (m := foldl _ _ _).
  assert (forall j b, m !! j = Some b -> bindings s !! j = Some b \/ exists p, p ∈ r_bindings r /\ pb_id p = j /\ b = published owner None p) as Hm.
  { intros j b Hb. unfold m in Hb. rewrite lookup_publish in Hb by exact (U k r Er). destruct Hb as [|[_ ?]]; [by right|by left]. }
  assert (forall id j, FunctionBinding j ∈ held r' id -> FunctionBinding j ∈ held (ledger s) id \/ id = o_id owner /\ exists b, b ∈ r_bindings r /\ j = pb_id b) as Hin.
  { intros id j. rewrite Hh. case_decide as E; [|by left]. intros [?|(i & [= ->] & (b & -> & Hb)%list_elem_of_fmap)%list_elem_of_fmap]%elem_of_app; [by left|right; eauto]. }
  constructor; cbn; try assumption.
  - intros j b [Hb|(p & Hp & <- & ->)]%Hm.
    + destruct (B j b Hb) as (? & ? & Hok). split_and!; [done..|]. unfold binding_ok in *. cbn. destruct (b_package b); [done|].
      destruct Hok as (? & ? & ?). split_and!; [done|by rewrite Hg|]. rewrite Hh. case_decide; [apply elem_of_app; by left|done].
    + split_and!; [done|by apply (Rc k r p)|]. split_and!; [done|by rewrite Hg|]. cbn. rewrite Hh, decide_True by done. apply elem_of_app. right. by apply list_elem_of_fmap_2, list_elem_of_fmap_2.
  - intros j r1 b [Hne Hr1]%lookup_delete_Some Hb. destruct (Rc j r1 b Hr1 Hb) as (? & Hn & Hnh). split_and!; [done| |].
    + destruct (m !! pb_id b) as [b'|] eqn:E; [|done]. destruct (Hm _ _ E) as [|(p & Hp & He & _)]; [congruence|]. by destruct (A k j r r1 p b).
    + intros id [?|(_ & p & Hp & He)]%Hin; [by eapply Hnh|]. by destruct (A k j r r1 p b).
  - intros j r1 [_ Hr1]%lookup_delete_Some. by eapply U.
  - intros k1 k2 r1 r2 b1 b2 [_ H1]%lookup_delete_Some [_ H2]%lookup_delete_Some. by apply (A k1 k2 r1 r2).
  - intros id j [Hj|(-> & p & Hp & ->)]%Hin.
    + destruct (Hd id j Hj) as [? Hb]. split; [done|]. intros b [?|(p & Hp & <- & ->)]%Hm; [by apply Hb|]. destruct (Rc k r p Er Hp) as (_ & _ & Hx). by destruct (Hx id).
    + destruct (Rc k r p Er Hp) as (? & Hn & _). split; [done|]. intros b [?|(q & Hq & _ & ->)]%Hm; [congruence|done].
  - intros g ids Ha. destruct (Ac g ids Ha) as (l & Hl & Hp & Hids). exists l. split_and!; [done..|]. intros j Hj. destruct (Hids j Hj) as (b & Hb & Hg'). exists b. split; [|done].
    by eapply lookup_weaken, publish_grows.
Qed.

Lemma reg_inv_activate_package_owner s k g activate : reg_inv s -> reg_inv (activate_package_owner s k g activate).1.
Proof.
  intros Hi. unfold activate_package_owner. destruct (receipts s !! k) as [r|] eqn:Er; [|done]. destruct (lifetimes s !! g) as [l|] eqn:El; [|done].
  pose proof (reg_inv_drop_receipt s k Hi) as Hdrop. case_match; [done|]. destruct (is_retired l || _) eqn:Ep; [done|]. case_match; [done|]. bool_to_prop. cbn [fst].
  assert (active s !! g = None) as Ha. { destruct (active s !! g) as [ids|] eqn:E; [|done]. destruct (ri_active s Hi g ids E) as (l' & Hl' & Hp & _). congruence. }
  destruct (reg_inv_forget _ k (reg_inv_lifetime s g l (mkLifetime (l_key l) Active (source l)) Hi El eq_refl (fun _ => eq_refl))) as [S B Rc U A Hd L Ac].
  assert (forall j b, foldl (publish (l_key l) (Some g)) (bindings s) (r_bindings r) !! j = Some b -> bindings s !! j = Some b \/
            exists p, p ∈ r_bindings r /\ pb_id p = j /\ b = published (l_key l) (Some g) p) as Hm.
  { intros j b Hb. rewrite lookup_publish in Hb by exact (ri_unique s Hi k r Er). destruct Hb as [|[_ ?]]; [by right|by left]. }
  constructor; cbn in *; try assumption.
  - intros j b [Hb|(p & Hp & <- & ->)]%Hm.
    + destruct (B j b Hb) as (? & ? & Hok). split_and!; [done..|]. unfold binding_ok in *. cbn in *. destruct (b_package b) as [g'|]; [|done].
      destruct Hok as (l1 & ids & Hl1 & Hk1 & Hids & Hin). exists l1, ids. rewrite (lookup_insert_ne (active s)) by congruence. done.
    + split_and!; [done|by apply (ri_receipts s Hi k r)|]. unfold binding_ok. cbn. eexists _, _. rewrite !lookup_insert_eq. split_and!; [done..|]. by apply list_elem_of_fmap_2.
  - intros j r1 b Hr1 Hb. destruct (Rc j r1 b Hr1 Hb) as (? & Hn & Hnh). split_and!; [done| |done].
    apply lookup_delete_Some in Hr1 as [Hne Hr1]. destruct (foldl _ _ _ !! pb_id b) as [b'|] eqn:E; [|done]. destruct (Hm _ _ E) as [|(p & Hp & He & _)]; [congruence|].
    by destruct (ri_apart s Hi k j r r1 p b).
  - intros id j Hj. destruct (Hd id j Hj) as [? Hb]. split; [done|]. intros b [?|(p & Hp & <- & ->)]%Hm; [by apply Hb|].
    destruct (ri_receipts s Hi k r p Er Hp) as (_ & _ & Hx). by destruct (Hx id).
  - intros g' ids [[<- <-]|[Hne Hg]]%lookup_insert_Some; [rewrite lookup_insert_eq; eexists; split_and!; [done..|]|].
    + intros j (p & -> & Hp)%list_elem_of_fmap. exists (published (l_key l) (Some g) p). split; [|done]. rewrite lookup_publish by exact (ri_unique s Hi k r Er). left. by exists p.
    + destruct (Ac g' ids Hg) as (l' & Hl' & Hp & Hids). exists l'. split_and!; [done..|]. intros j Hj. destruct (Hids j Hj) as (b & Hb & Hg'). exists b. split; [|done].
      by eapply lookup_weaken, publish_grows.
Qed.

(** ** What the adapters lean on stays *)
Record grows (s s' : State) : Prop := mkGrows {
  gr_next : next s <= next s';
  gr_bindings : bindings s ⊆ bindings s';
  gr_owned : forall o x, owned (ledger s) o x -> owned (ledger s') o x;
  gr_lifetimes : forall g l, lifetimes s !! g = Some l -> exists l', lifetimes s' !! g = Some l' /\ l_key l' = l_key l /\ source l' = source l;
}.
Lemma grows_refl s : grows s s.
Proof. constructor; [lia|done|done|eauto]. Qed.
Lemma grows_emit s s' c : grows s s' -> grows s (emit s' c).
Proof. intros []. by constructor. Qed.
Lemma grows_mint s id : reg_inv s -> grows s (mint_package s id).1.
Proof.
  intros Hi. unfold mint_package, mint. destruct (require _ _) as [|[]]; [apply grows_refl|]. unfold checked_add. cbn.
  destruct (ok_or _ _) as [|n]; cbn; [apply grows_refl|]. constructor; cbn; [lia|done|done|]. intros g l Hl. exists l. rewrite lookup_insert_ne; [done|].
  intros <-. destruct (ri_lifetimes s Hi _ _ Hl) as (_ & _ & ?). lia.
Qed.
Lemma grows_prepare_owner s k intended c answer : grows s (prepare_owner s k intended c answer).1.
Proof.
  unfold prepare_owner. destruct (prepare_owner_authorized _ _ _ _ _) as [s' [e|bs]] eqn:E; apply prepare_owner_authorized_spec in E as (n & l & -> & Hn & _); constructor; cbn; eauto.
Qed.
Lemma grows_prepare_package_owner s k g c answer : grows s (prepare_package_owner s k g c answer).1.
Proof.
  unfold prepare_package_owner. case_match; [|apply grows_refl]. case_match; [apply grows_refl|].
  destruct (prepare_owner_authorized _ _ _ _ _) as [s' [e|bs]] eqn:E; apply prepare_owner_authorized_spec in E as (n & l & -> & Hn & _); constructor; cbn; eauto.
Qed.
Lemma grows_drop_receipt s k : grows s (drop_receipt s k).
Proof. unfold drop_receipt. case_match; [|apply grows_refl]. constructor; cbn; eauto; lia. Qed.
Lemma grows_activate_owner s k owner activate :
  reg_inv s -> room (ledger s) (match receipts s !! k with Some r => length (r_bindings r) | None => 0 end) -> grows s (activate_owner s k owner activate).1.
Proof.
  intros Hi Hroom. pose proof (activate_owner_cases s k owner activate (ri_sound s Hi) Hroom) as Hc. destruct (activate_owner s k owner activate) as [s' [e|ids]]; cbn [fst].
  - destruct Hc as (r' & -> & Hs & Hg & Hh). destruct (drop_receipt_rows (set_ledger s r') k) as (E1 & E2 & _ & E3 & E4).
    constructor; rewrite ?E1, ?E2, ?E3, ?E4; cbn; [lia|done| |eauto]. intros o x. unfold owned. by rewrite Hg, Hh.
  - destruct Hc as (r & r' & Er & -> & Hk & Hlive & -> & Hs & Hg & Hh). constructor; cbn; [lia|by eapply publish_grows| |eauto].
    intros o x (? & ? & ?). split_and!; [done|by rewrite Hg|]. rewrite Hh. case_decide; [apply elem_of_app; by left|done].
Qed.
Lemma grows_activate_package_owner s k g activate : reg_inv s -> grows s (activate_package_owner s k g activate).1.
Proof.
  intros Hi. unfold activate_package_owner. destruct (receipts s !! k) as [r|] eqn:Er; [|apply grows_refl]. destruct (lifetimes s !! g) as [l|] eqn:El; [|apply grows_refl].
  case_match; [apply grows_drop_receipt|]. case_match; [apply grows_drop_receipt|]. case_match; [apply grows_drop_receipt|].
  constructor; cbn; [lia|by eapply publish_grows|done|]. intros g' l'. destruct (decide (g = g')) as [<-|]; [rewrite lookup_insert_eq|rewrite lookup_insert_ne by done; eauto].
  intros Hl'. rewrite El in Hl'. injection Hl' as <-. by eexists.
Qed.

(** ** Withdrawing *)
Lemma drop_bindings_spec s ids : exists c, foldl drop_binding s ids = emit (set_bindings s (without_keys ids (bindings s))) c.
Proof.
  revert s. induction ids as [|i ids IH]; intros s; cbn; [exists []; unfold emit; destruct s; cbn; by rewrite app_nil_r|].
  unfold drop_binding at 2. destruct (bindings s !! i) as [b|] eqn:E.
  - destruct (IH (emit (set_bindings s (delete i (bindings s))) (match b_capability b with Some c => [CapabilityRelease c] | None => [] end ++ [DropBinding i]))) as [c ->].
    eexists. unfold emit, set_bindings, without_keys. cbn. by rewrite <- (app_assoc (calls s)).
  - destruct (IH s) as [c ->]. exists c. unfold without_keys. cbn. by rewrite delete_id.
Qed.

(** The active functions of a package go with all its bindings. *)
Lemma reg_inv_withdraw s g ids :
  reg_inv s -> active s !! g = Some ids -> reg_inv (set_active (set_bindings s (without_keys (rev ids) (bindings s))) (delete g (active s))).
Proof.
  intros [S B Rc U A Hd L Ac] Hg. constructor; cbn; try assumption.
  - intros k b Hb. rewrite lookup_without_keys in Hb. case_decide as Hk; [done|]. destruct (B k b Hb) as (? & ? & Hok). split_and!; [done..|].
    unfold binding_ok in *. cbn. destruct (b_package b) as [g'|]; [|done]. destruct Hok as (l & ids' & Hl & Hkey & Ha & Hin). exists l, ids'. split_and!; [done..| |done].
    apply lookup_delete_Some. split; [|done]. intros <-. rewrite Hg in Ha. injection Ha as <-. apply Hk. by apply list_elem_of_In, in_rev, list_elem_of_In in Hin || (apply list_elem_of_In; rewrite <- in_rev; by apply list_elem_of_In).
  - intros k r b Hr Hb. destruct (Rc k r b Hr Hb) as (? & ? & ?). split_and!; [done| |done]. rewrite lookup_without_keys. by case_decide.
  - intros id k Hk. destruct (Hd id k Hk) as [? Hb]. split; [done|]. intros b. rewrite lookup_without_keys. case_decide; [done|]. apply Hb.
  - intros g' ids' [Hne Ha]%lookup_delete_Some. destruct (Ac g' ids' Ha) as (l & Hl & Hp & Hids). exists l. split_and!; [done..|]. intros k Hk. destruct (Hids k Hk) as (b & Hb & Hg').
    exists b. rewrite lookup_without_keys. case_decide as Hin; [|done]. apply list_elem_of_In, in_rev, list_elem_of_In in Hin.
    destruct (Ac g ids Hg) as (_ & _ & _ & Hids0). destruct (Hids0 k Hin) as (b' & Hb' & Hg0). congruence.
Qed.

(** A plugin goes with its ledger and the bindings in it. *)
Lemma reg_inv_unload s id r' ids :
  reg_inv s -> sound r' ->
  (forall id', generation r' id' = if decide (id' = id) then None else generation (ledger s) id') ->
  (forall id', held r' id' = if decide (id' = id) then [] else held (ledger s) id') ->
  (forall k, FunctionBinding k ∈ held (ledger s) id <-> k ∈ ids) ->
  reg_inv (set_bindings (set_ledger s r') (without_keys ids (bindings s))).
Proof.
  intros [S B Rc U A Hd L Ac] Hs Hg Hh Hids. constructor; cbn; try assumption.
  - intros k b Hb. rewrite lookup_without_keys in Hb. case_decide as Hk; [done|]. destruct (B k b Hb) as (? & ? & Hok). split_and!; [done..|].
    unfold binding_ok in *. cbn. destruct (b_package b); [done|]. destruct Hok as (? & ? & Hin). unfold owned. rewrite Hg, Hh. case_decide as Hd'; [|done].
    destruct Hk. apply Hids. by rewrite <- Hd'.
  - intros k r b Hr Hb. destruct (Rc k r b Hr Hb) as (? & Hn & Hx). split_and!; [done|rewrite lookup_without_keys; by case_decide|]. intros id'. rewrite Hh. case_decide; [apply not_elem_of_nil|done].
  - intros id' k. rewrite Hh. case_decide; [by intros ?%not_elem_of_nil|]. intros Hk. destruct (Hd id' k Hk) as [? Hb]. split; [done|]. intros b. rewrite lookup_without_keys. case_decide; [done|]. apply Hb.
  - intros g l Ha. destruct (Ac g l Ha) as (x & Hl & Hp & Hk). exists x. split_and!; [done..|]. intros k Hin. destruct (Hk k Hin) as (b & Hb & Hb'). exists b.
    rewrite lookup_without_keys. case_decide as Hd'; [|done]. apply Hids in Hd'. destruct (Hd id k Hd') as [_ Hn]. destruct (Hn b Hb). congruence.
Qed.
End Inv.
End RegistryInvariant.
