(* ===== verification/FunctionAdapter.v ===== *)
(** Adapters and subscriptions of engine functions (core/src/v8host/function_adapter.rs), up to dispatch.

    A game package registers its source ([packages]); in the context of each plugin it is evaluated under
    a token ([tokens], [bootstraps]) through which its code registers adapters and subscribes wrappers for
    the plugin. A plugin also subscribes on its own with the generic policy. [World] gathers the statics,
    with the registry of bindings ([reg]), the plugins' phases and the entity books. The V8 context an
    operation runs in is the argument [ctx], the plugin that entered V8 [entered]; V8 functions are
    numbers. A package's receipt and its row in [packages] are one [Rc], and a generation is claimed once,
    so the row is found by generation. Conversions of JavaScript arguments are left out; what they give is
    an argument. *)
From stdpp Require Import pretty.
From S2P Require Import Prelude.
From S2P Require Import Results.
From S2P Require Import BTree.
From S2P Require Import ResourceLedger.
From S2P Require Import EntityLive.
From S2P Require Import EngineContract.
From S2P Require Import EngineInstance.
From S2P Require Import EngineProjection.
From S2P Require Import EngineRegistry.
Import EngineContract.EngineContract.
Import EngineInstance.EngineInstance.
Import EngineProjection.EngineProjection.
Import EngineRegistry.EngineRegistry.

Module FunctionAdapter.

Record PackageInstanceKey := mkInstanceKey { parent : OwnerKey; package_owner : OwnerKey }.
#[export] Instance PackageInstanceKey_eq_dec : EqDecision PackageInstanceKey.
Proof. solve_decision. Defined.
#[export] Instance SubscriptionMode_eq_dec : EqDecision SubscriptionMode.
Proof. solve_decision. Defined.
#[export] Instance PostReturnAuthority_eq_dec : EqDecision PostReturnAuthority.
Proof. solve_decision. Defined.

Record PreparedPackage := mkPackage { pk_owner : OwnerKey; pk_manifest : string; pk_grants : list HostAdapterGrant; exports_required : bool }.
(** The array behind a package's callbacks: package generation, parent, state 0 evaluating, 1 active, 2 revoked. *)
Record Token := mkToken { t_package : Z; t_parent : OwnerKey; t_state : Z }.
Record Adapter := mkAdapter {
  adp_id : Z; post_authority : PostReturnAuthority; adp_instance : PackageInstanceKey; adp_semantic : string; adp_hash : string;
  adp_pre : option Z; adp_post : option Z }.
Record ReceiverConstraint := mkReceiver { rc_index : Z; rc_id : Z; rc_epoch : Z }.
Record Subscription := mkSubscription {
  sub_id : Z; sub_owner : OwnerKey; sub_instance : option PackageInstanceKey; sub_adapter : string; sub_contract : AdapterContract;
  sub_mode : SubscriptionMode; sub_generic : bool; sub_phase : Z; sub_receiver : option ReceiverConstraint; sub_binding : Binding; sub_wrapper : Z }.
Record Decision := mkDecision { d_action : Z; d_value : option ProjectedValue }.
Record Invocation := mkInvocation {
  inv_pre : option Adapter; inv_post : option Adapter; inv_deliveries : list Decision; inv_proposal : option (ProjectedValue * Binding) }.

Record World (R : Type) := mkWorld {
  reg : State R; phases : gmap string Phase; books : EntityLive.books; packages : gmap Z PreparedPackage; tokens : gmap Z Token; bootstraps : list PackageInstanceKey; adapters : gmap Z Adapter; subs : gmap Z Subscription; semantics : gmap string string; authorized : gmap Z (OwnerKey * string * string); invocations : gmap (Z * Z) Invocation;
}.
Arguments mkWorld {R}. Arguments reg {R}. Arguments phases {R}. Arguments books {R}. Arguments packages {R}. Arguments tokens {R}. Arguments bootstraps {R}. Arguments adapters {R}. Arguments subs {R}. Arguments semantics {R}. Arguments authorized {R}. Arguments invocations {R}.

Section Adapter.
Context {R : Type} `{Ledger R}.
Notation World := (World R).

Definition set_reg (w : World) (x : State R) : World :=
  mkWorld x (phases w) (books w) (packages w) (tokens w) (bootstraps w) (adapters w) (subs w) (semantics w) (authorized w) (invocations w).
Definition set_phases (w : World) (x : gmap string Phase) : World :=
  mkWorld (reg w) x (books w) (packages w) (tokens w) (bootstraps w) (adapters w) (subs w) (semantics w) (authorized w) (invocations w).
Definition set_books (w : World) (x : EntityLive.books) : World :=
  mkWorld (reg w) (phases w) x (packages w) (tokens w) (bootstraps w) (adapters w) (subs w) (semantics w) (authorized w) (invocations w).
Definition set_packages (w : World) (x : gmap Z PreparedPackage) : World :=
  mkWorld (reg w) (phases w) (books w) x (tokens w) (bootstraps w) (adapters w) (subs w) (semantics w) (authorized w) (invocations w).
Definition set_tokens (w : World) (x : gmap Z Token) : World :=
  mkWorld (reg w) (phases w) (books w) (packages w) x (bootstraps w) (adapters w) (subs w) (semantics w) (authorized w) (invocations w).
Definition set_bootstraps (w : World) (x : list PackageInstanceKey) : World :=
  mkWorld (reg w) (phases w) (books w) (packages w) (tokens w) x (adapters w) (subs w) (semantics w) (authorized w) (invocations w).
Definition set_adapters (w : World) (x : gmap Z Adapter) : World :=
  mkWorld (reg w) (phases w) (books w) (packages w) (tokens w) (bootstraps w) x (subs w) (semantics w) (authorized w) (invocations w).
Definition set_subs (w : World) (x : gmap Z Subscription) : World :=
  mkWorld (reg w) (phases w) (books w) (packages w) (tokens w) (bootstraps w) (adapters w) x (semantics w) (authorized w) (invocations w).
Definition set_semantics (w : World) (x : gmap string string) : World :=
  mkWorld (reg w) (phases w) (books w) (packages w) (tokens w) (bootstraps w) (adapters w) (subs w) x (authorized w) (invocations w).
Definition set_authorized (w : World) (x : gmap Z (OwnerKey * string * string)) : World :=
  mkWorld (reg w) (phases w) (books w) (packages w) (tokens w) (bootstraps w) (adapters w) (subs w) (semantics w) x (invocations w).
Definition set_invocations (w : World) (x : gmap (Z * Z) Invocation) : World :=
  mkWorld (reg w) (phases w) (books w) (packages w) (tokens w) (bootstraps w) (adapters w) (subs w) (semantics w) (authorized w) x.

Definition target_of (s : Subscription) : option Z := b_target (sub_binding s).
Definition for_target (t : Z) (s : Subscription) : bool := bool_decide (target_of s = Some t).
Definition rows (w : World) : list Subscription := btree_values (subs w).
Definition adapter_rows (w : World) : list Adapter := btree_values (adapters w).
Definition ledger_of (w : World) := ledger (reg w).

(** ** Package sources *)
Definition register_package (w : World) (g : Z) (source_empty : bool) (manifest : string) (grants : list HostAdapterGrant) (exports : bool)
  : World * (string + unit) :=
  match lifetimes (reg w) !! g with
  | None => (w, inl "no such package")
  | Some l =>
      if is_some (packages w !! g) then (w, inl "package source already registered")
      else if source_empty then (w, inl "empty prepared package source")
      else match claim_source l with
           | inl e => (w, inl e)
           | inr l' => (set_packages (set_reg w (set_lifetime (reg w) g l')) (<[g := mkPackage (l_key l) manifest grants exports]> (packages w)), inr tt)
           end
  end.
Definition register_with_authorities (w : World) (g : Z) (source_empty : bool) (manifest : string) (grants : list HostAdapterGrant) (exports : bool)
  : World * (string + unit) :=
  match lifetimes (reg w) !! g with
  | None => (w, inl "no such package")
  | Some l =>
      if existsb (fun gr => negb (belongs_to gr (l_key l))) grants then (w, inl "adapter grant belongs to another package generation")
      else register_package w g source_empty manifest grants exports
  end.
(** [PreparedPackageReceipt::instance_authority] *)
Definition instance_authority (w : World) (g : Z) : string + (OwnerKey * string) :=
  ok_or (l ← lifetimes (reg w) !! g; p ← packages w !! g; if is_retired l then None else Some (pk_owner p, pk_manifest p))
    "verified package source receipt unavailable".

(** ** Identities *)
Definition current_owner (w : World) (ctx : option (string * Z)) : string + OwnerKey :=
  let* c := ok_or ctx "plugin context required" in
  let* _ := require (owner_is_live (ledger_of w) c.1 c.2) "owner generation unavailable" in
  let* _ := require (negb (bool_decide (phases w !! c.1 = Some Unloading))) "parent unloading" in
  inr (plugin_key c.1 c.2).
Definition instance (w : World) (ctx entered : option (string * Z)) (token : Z) : string + (PackageInstanceKey * PreparedPackage) :=
  let* t := ok_or (tokens w !! token) "missing host bootstrap token" in
  let* p := current_owner w ctx in
  let* _ := require (bool_decide (entered = Some (o_id p, o_generation p))) "package token used from another context" in
  let* _ := require (negb (t_state t =? 2)) "package instance revoked" in
  let* _ := require (bool_decide (p = t_parent t)) "package token belongs to another parent generation" in
  let* package := ok_or (packages w !! t_package t) "package receipt revoked" in
  let key := mkInstanceKey p (pk_owner package) in
  let* _ := require ((t_state t =? 1) || ((t_state t =? 0) && bool_decide (head (bootstraps w) = Some key))) "package instance not active" in
  inr (key, package).

(** ** Admission *)
Definition observer (generic : bool) (m : SubscriptionMode) : bool := generic && bool_decide (m = Observe).
Definition conflicts (b : Binding) (c : AdapterContract) (generic : bool) (m : SubscriptionMode) (s : Subscription) : bool :=
  bool_decide (target_of s = b_target b)
  && (negb (compatible (fn_abi (b_function (sub_binding s))) (fn_abi (b_function b)))
      || (negb (observer generic m) && negb (observer (sub_generic s) (sub_mode s)) && negb (bool_decide (sub_contract s = c)))).
Definition contract_text (c : AdapterContract) : string := " [" +:+ ad_id c +:+ " v" +:+ pretty (ad_version c) +:+ " " +:+ ad_hash c +:+ "]".
Definition validate_subscription_domain (w : World) (b : Binding) (c : AdapterContract) (generic : bool) (m : SubscriptionMode) : string + unit :=
  match find (conflicts b c generic m) (rows w) with
  | None => inr tt
  | Some s => inl ("incompatible adapter contract or projection domain: " +:+ fn_id (b_function b) +:+ contract_text c +:+ " conflicts with "
                   +:+ fn_id (b_function (sub_binding s)) +:+ contract_text (sub_contract s))
  end.
Definition authorize_binding (w : World) (g : Z) (owner : OwnerKey) (id : Z) (adapter hash : string) : World * (string + unit) :=
  match (let* p := ok_or (packages w !! g) "package receipt revoked" in
         let* _ := require (negb (bool_decide (o_kind owner = GamePackage) && negb (bool_decide (owner = pk_owner p)))) "binding belongs to another package" in
         let* b := binding (reg w) id owner in
         let* _ := require (is_some (b_target b)) "binding unavailable" in
         let* _ := manifest_hash hash in
         let* _ := require (negb (String.eqb adapter "generic.v2")) "package cannot replace public generic policy" in
         let authorization := (pk_owner p, adapter, hash) in
         let* _ := require (negb (existsb (fun s => b_id (sub_binding s) =? id) (rows w) && negb (bool_decide (authorized w !! id = Some authorization))))
                     "cannot change authorization of a subscribed binding" in
         let* _ := validate_subscription_domain w b (mkAdapterContract adapter 1 hash) false Mutating in
         inr authorization)
  with
  | inl e => (w, inl e)
  | inr a => (set_authorized w (<[id := a]> (authorized w)), inr tt)
  end.

Definition receiver_is_live (w : World) (r : ReceiverConstraint) : bool :=
  negb (rc_epoch r =? 0) && (rc_epoch r =? EntityLive.map_epoch (books w)) && is_some (EntityLive.engine_serial_for (books w) (rc_index r) (rc_id r)).
(** [receiver_constraint], the two arguments being an [i32] and an integral number if any was given. *)
Definition field_type (b : Binding) (selector : Z) : string + (string * string) :=
  let a := fn_abi (b_function b) in
  if selector =? -1 then
    ok_or (p ← s_receiver a; if hidden p then None else Some (p_native p, pr_id (p_projection p))) "receiver unavailable"
  else if selector =? -2 then inr (p_native (s_returns a), pr_id (p_projection (s_returns a)))
  else if 0 <=? selector then ok_or (p ← s_parameters a !! Z.to_nat selector; Some (p_native p, pr_id (p_projection p))) "unknown field"
  else inl "unknown field".
Definition receiver_constraint (w : World) (b : Binding) (arguments : option (Z * Z)) : string + option ReceiverConstraint :=
  match arguments with
  | None => inr None
  | Some (index, id) =>
      let* t := field_type b (-1) in
      let* _ := require (is_some (parse_entity t.2)) "live entity receiver constraint required" in
      let* _ := require (negb ((index <? 0) || (id <? 1) || (9007199254740991 <? id))) "live entity receiver constraint required" in
      let r := mkReceiver index id (EntityLive.map_epoch (books w)) in
      let* _ := require (receiver_is_live w r) "receiver constraint is stale" in
      inr (Some r)
  end.

(** [hook] is the engine's answer to acquiring a hook on the target. A failure after that releases it. *)
Definition insert_subscription (w : World) (owner : OwnerKey) (inst : option PackageInstanceKey) (b : Binding) (adapter : string) (c : AdapterContract)
    (m : SubscriptionMode) (generic : bool) (ph : Z) (receiver : option ReceiverConstraint) (wrapper : Z) (hook : option string) : World * (string + Z) :=
  match b_target b with
  | None => (w, inl "binding unavailable")
  | Some t =>
      match validate_subscription_domain w b c generic m, hook with
      | inl e, _ => (w, inl e)
      | inr _, Some e => (w, inl e)
      | inr _, None =>
          let w := set_reg w (emit (reg w) [HookAcquire t]) in
          match next_id (reg w) with
          | (_, inl e) => (set_reg w (emit (reg w) [HookRelease t]), inl e)
          | (r, inr id) =>
              match record r owner (FunctionSubscription id) with
              | (r, false) => (set_reg w (emit r [DropSubscription id t]), inl "parent ledger unavailable")
              | (r, true) =>
                  (set_subs (set_reg w r) (<[id := mkSubscription id owner inst adapter c m generic ph receiver b wrapper]> (subs w)), inr id)
              end
          end
      end
  end.

Definition surface_of (ph : Z) : string := if ph =? 0 then "pre" else "post".
(** [public_adapter] finds the built-in generic implementation. *)
Definition public_adapter (p : Policy) : string + unit :=
  require (String.eqb (EngineContract.EngineContract.id p) "generic.v2" && (version p =? 1)) "public executable adapter unavailable".
Definition subscribe_generic_binding (w : World) (owner : OwnerKey) (inst : option PackageInstanceKey) (b : Binding) (ph : Z) (observe_only : bool) (wrapper : Z)
    (hook : option string) : World * (string + Z) :=
  let p := fn_policy (b_function b) in
  match (let* m := for_phase ph observe_only in
         let* _ := require (has_surface p (surface_of ph)) "undeclared subscription surface" in
         let* c := generic p in
         let* _ := public_adapter p in
         inr (m, c)) with
  | inl e => (w, inl e)
  | inr (m, c) => insert_subscription w owner inst b (ad_id c) c m true ph None wrapper hook
  end.
Definition subscribe_generic (w : World) (ctx : option (string * Z)) (owner : OwnerKey) (id ph : Z) (observe_only : bool) (wrapper : Z) (hook : option string)
  : World * (string + Z) :=
  match (let* o := current_owner w ctx in
         let* _ := require (bool_decide (o = owner)) "subscription context owner mismatch" in
         binding (reg w) id owner) with
  | inl e => (w, inl e)
  | inr b => subscribe_generic_binding w owner None b ph observe_only wrapper hook
  end.
Definition subscribe_package_generic (w : World) (ctx entered : option (string * Z)) (token id ph : Z) (observe_only : bool) (wrapper : Z) (hook : option string)
  : World * (string + Z) :=
  match (let* i := instance w ctx entered token in
         let* b := binding (reg w) id (package_owner i.1) in inr (i.1, b)) with
  | inl e => (w, inl e)
  | inr (i, b) => subscribe_generic_binding w (parent i) (Some i) b ph observe_only wrapper hook
  end.

(** The authority of the first grant that gives one. *)
Definition granted (p : PreparedPackage) (c : AdapterContract) : PostReturnAuthority :=
  if existsb (fun g => bool_decide (authority g c = Override)) (pk_grants p) then Override else NoAuthority.
Definition js_register (w : World) (ctx entered : option (string * Z)) (token : Z) (semantic hash : string) (pre post : option Z) : World * (string + Z) :=
  match (let* i := instance w ctx entered token in
         let* _ := require (bool_decide (head (bootstraps w) = Some i.1)) "host bootstrap authority required" in
         let* _ := manifest_hash hash in
         let* _ := require (negb (String.eqb semantic "" || String.eqb semantic "generic.v2")) "reserved generic policy" in
         let* _ := require (negb (existsb (fun a => bool_decide (adp_instance a = i.1) && String.eqb (adp_semantic a) semantic) (adapter_rows w))) "duplicate package adapter" in
         let* _ := require (match semantics w !! semantic with Some h => String.eqb h hash | None => true end) "semantic contract hash conflict" in
         let* _ := require (is_some pre || is_some post) "adapter requires a synchronous callback" in
         inr i) with
  | inl e => (w, inl e)
  | inr (i, p) =>
      match next_id (reg w) with
      | (r, inl e) => (w, inl e)
      | (r, inr id) =>
          match record r (parent i) (FunctionAdapter id) with
          | (r, false) => (set_reg w r, inl "parent ledger unavailable")
          | (r, true) =>
              let a := mkAdapter id (granted p (mkAdapterContract semantic 1 hash)) i semantic hash pre post in
              (set_adapters (set_semantics (set_reg w r) (<[semantic := hash]> (semantics w))) (<[id := a]> (adapters w)), inr id)
          end
      end
  end.
(** The binding is named in the package's own functions, or is one of the plugin's by id. *)
Definition js_subscribe (w : World) (ctx entered : option (string * Z)) (token : Z) (name_or_id : string + Z) (adapter phase_name : string) (wrapper : Z)
    (receiver : option (Z * Z)) (hook : option string) : World * (string + Z) :=
  match (let* i := instance w ctx entered token in
         let* b := match name_or_id with inl name => named_binding (reg w) (package_owner i.1) name | inr id => binding (reg w) id (parent i.1) end in
         let* ph := if String.eqb phase_name "pre" then inr 0 else if String.eqb phase_name "post" then inr 1 else inl "invalid subscription phase" in
         let* _ := require (has_surface (fn_policy (b_function b)) (surface_of ph)) "undeclared subscription surface" in
         let* row := ok_or (find (fun a => bool_decide (adp_instance a = i.1) && String.eqb (adp_semantic a) adapter) (adapter_rows w)) "current package adapter unavailable" in
         let* _ := require (bool_decide (authorized w !! b_id b = Some (package_owner i.1, adapter, adp_hash row))) "host binding authorization required" in
         let* _ := require (negb ((ph =? 0) && negb (is_some (adp_pre row))) && negb ((ph =? 1) && negb (is_some (adp_post row)))) "adapter phase unimplemented" in
         let* r := receiver_constraint w b receiver in
         let* m := for_phase ph false in
         inr (i.1, b, ph, row, r, m)) with
  | inl e => (w, inl e)
  | inr (i, b, ph, row, r, m) =>
      insert_subscription w (parent i) (Some i) b adapter (mkAdapterContract adapter 1 (adp_hash row)) m false ph r wrapper hook
  end.
Definition js_package_lookup (w : World) (ctx entered : option (string * Z)) (token : Z) (name : string) : string + Binding :=
  let* i := instance w ctx entered token in
  let* _ := require (bool_decide (head (bootstraps w) = Some i.1)) "host bootstrap authority required" in
  named_binding (reg w) (package_owner i.1) name.
(** engine_functions.rs: [lookup] of a plugin. *)
Definition lookup_function (w : World) (ctx : option (string * Z)) (name : string) : string + Binding :=
  let* o := current_owner w ctx in named_binding (reg w) o name.

(** ** Teardown *)
Definition release_ (w : World) (o : OwnerKey) (x : Resource) : World := set_reg w (release (reg w) o x).1.

(** An invocation row loses the adapter of a phase no package subscription is left for; a carried proposal keeps its own. *)
Definition keep_phase (live_phase : bool) (carried : bool) (a : option Adapter) : option Adapter := if live_phase || carried then a else None.
Definition trim_invocations (target : Z) (rest : list Subscription) (m : gmap (Z * Z) Invocation) : gmap (Z * Z) Invocation :=
  let live ph := existsb (fun s => for_target target s && (sub_phase s =? ph) && negb (sub_generic s)) rest in
  let any := existsb (for_target target) rest in
  map_imap (fun k i =>
    if negb (k.1 =? target) then Some i
    else if negb any then None
    else Some (mkInvocation (keep_phase (live 0) false (inv_pre i)) (keep_phase (live 1) (is_some (inv_proposal i)) (inv_post i)) (inv_deliveries i) (inv_proposal i))) m.
Definition drop_subscription (w : World) (id : Z) : World :=
  match subs w !! id with
  | None => w
  | Some s =>
      let w := set_subs w (delete id (subs w)) in
      match target_of s with
      | None => w
      | Some t => set_reg (set_invocations w (trim_invocations t (rows w) (invocations w))) (emit (reg w) [DropSubscription id t])
      end
  end.

Definition drop_subscriptions (w : World) (ids : list Z) : World := foldl drop_subscription w ids.
Definition release_subscriptions (w : World) (o : OwnerKey) (ids : list Z) : World :=
  foldl (fun w id => drop_subscription (release_ w o (FunctionSubscription id)) id) w ids.
Definition is_adapter (id : Z) (a : option Adapter) : bool := match a with Some a => adp_id a =? id | None => false end.
Definition without (id : Z) (a : option Adapter) : option Adapter := if is_adapter id a then None else a.
Definition forget_adapter (id : Z) (rest : list Subscription) (m : gmap (Z * Z) Invocation) : gmap (Z * Z) Invocation :=
  map_imap (fun k i =>
    let removed := is_adapter id (inv_pre i) || is_adapter id (inv_post i) in
    let i := mkInvocation (without id (inv_pre i)) (without id (inv_post i)) (inv_deliveries i) (inv_proposal i) in
    if negb removed || is_some (inv_pre i) || is_some (inv_post i) || existsb (for_target k.1) rest then Some i else None) m.
Definition through (i : PackageInstanceKey) (adapter : string) (s : Subscription) : bool :=
  bool_decide (sub_instance s = Some i) && String.eqb (sub_adapter s) adapter.
Definition drop_adapter (w : World) (id : Z) : World :=
  match adapters w !! id with
  | None => w
  | Some a =>
      let w := set_adapters w (delete id (adapters w)) in
      let w := if existsb (fun b => String.eqb (adp_semantic b) (adp_semantic a)) (adapter_rows w) then w
               else set_semantics w (delete (adp_semantic a) (semantics w)) in
      let w := release_subscriptions w (parent (adp_instance a)) (sub_id <$> filterb (through (adp_instance a) (adp_semantic a)) (rows w)) in
      set_invocations w (forget_adapter id (rows w) (invocations w))
  end.
Definition release_adapters (w : World) (o : OwnerKey) (ids : list Z) : World :=
  foldl (fun w id => drop_adapter (release_ w o (FunctionAdapter id)) id) w ids.
Definition drop_instance (w : World) (i : PackageInstanceKey) : World :=
  let w := release_subscriptions w (parent i) (sub_id <$> filterb (fun s => bool_decide (sub_instance s = Some i)) (rows w)) in
  release_adapters w (parent i) (adp_id <$> filterb (fun a => bool_decide (adp_instance a = i)) (adapter_rows w)).

Definition of_package (owner : OwnerKey) (i : PackageInstanceKey) : bool := bool_decide (package_owner i = owner).
Definition package_instances (w : World) (owner : OwnerKey) : list PackageInstanceKey :=
  filterb (of_package owner) (adp_instance <$> adapter_rows w) ++ filterb (of_package owner) (omap sub_instance (rows w)).
Definition drop_package (w : World) (owner : OwnerKey) : World :=
  let g := o_generation owner in
  let w := match packages w !! g with
           | Some p => if bool_decide (pk_owner p = owner)
                       then set_packages (set_reg w (match lifetimes (reg w) !! g with Some l => set_lifetime (reg w) g (retire_source l) | None => reg w end))
                              (delete g (packages w))
                       else w
           | None => w
           end in
  let w := foldl drop_instance w (package_instances w owner) in
  set_authorized w (filter (fun kv => kv.2.1.1 <> owner) (authorized w)).
Definition drop_owner (w : World) (owner : OwnerKey) : World :=
  let w := drop_subscriptions w (sub_id <$> filterb (fun s => bool_decide (sub_owner s = owner)) (rows w)) in
  let w := foldl drop_adapter w (adp_id <$> filterb (fun a => bool_decide (parent (adp_instance a) = owner)) (adapter_rows w)) in
  set_authorized w (foldr delete (authorized w) (owner_bindings (reg w) owner)).

(** The drop of an [ActivePackageFunctions], and of a [PreparedPackageReceipt]. *)
Definition drop_functions (w : World) (g : Z) : World :=
  match active (reg w) !! g, lifetimes (reg w) !! g with
  | Some _, Some l =>
      let w := drop_package (set_reg w (retire_functions (reg w) g)) (l_key l) in
      set_reg w (drop_active (reg w) g)
  | _, _ => w
  end.
Definition drop_source (w : World) (g : Z) : World :=
  match lifetimes (reg w) !! g with Some l => drop_package w (l_key l) | None => w end.

Definition receipt_owner (w : World) (id : Z) (sub : bool) : option OwnerKey :=
  if sub then sub_owner <$> subs w !! id else (fun a => parent (adp_instance a)) <$> adapters w !! id.
Definition receipt_matches (w : World) (id : Z) (sub : bool) (i : PackageInstanceKey) : bool :=
  if sub then match subs w !! id with Some s => bool_decide (sub_instance s = Some i) | None => true end
  else match adapters w !! id with Some a => bool_decide (adp_instance a = i) | None => true end.
Definition js_dispose (w : World) (ctx entered : option (string * Z)) (token : option Z) (id : Z) (sub : bool) : World * (string + bool) :=
  match (let* _ := match token with
                   | Some t => let* i := instance w ctx entered t in require (receipt_matches w id sub i.1) "receipt package instance mismatch"
                   | None => inr tt
                   end in current_owner w ctx) with
  | inl e => (w, inl e)
  | inr o =>
      if negb (bool_decide (receipt_owner w id sub = Some o)) then (w, inr false)
      else if sub then (drop_subscription (release_ w o (FunctionSubscription id)) id, inr true)
      else (drop_adapter (release_ w o (FunctionAdapter id)) id, inr true)
  end.
(** engine_functions.rs: the public receipt's [dispose]. *)
Definition facade_dispose (w : World) (owner : OwnerKey) (id : Z) : World * bool :=
  let '(r, removed) := release (reg w) owner (FunctionSubscription id) in
  let w := set_reg w r in
  (if removed then drop_subscription w id else w, removed).

(** What a subscription's receipt shows; [status] is the engine's answer for the target. *)
Definition Status := Z -> string + Z.
Definition subscription_state (w : World) (id : Z) (owner : OwnerKey) (status : Status) : string + (string * option string) :=
  let* t := match subs w !! id with
            | Some s => if bool_decide (sub_owner s = owner) then inr (target_of s) else inl "subscription owner mismatch"
            | None => inr None
            end in
  inr match status <$> t with
      | None => ("disposed", None)
      | Some (inl e) => ("failed", Some e)
      | Some (inr z) => if z =? 1 then ("pending", None) else if z =? 2 then ("active", None)
                        else if (z =? 3) || (z =? 4) then ("disposed", None) else ("failed", Some "native hook installation failed")
      end.
Fixpoint observe (states : list (string + (string * option string))) (state : string) : string :=
  match states with
  | [] => state
  | inl _ :: _ => "failed"
  | inr (s, _) :: rest =>
      if String.eqb s "failed" then "failed" else if String.eqb s "pending" then observe rest "pending"
      else if String.eqb s "active" && negb (String.eqb state "pending") then observe rest "active" else observe rest state
  end.
Definition binding_observation (w : World) (id : Z) (status : Status) : string :=
  observe ((fun s => subscription_state w (sub_id s) (sub_owner s) status) <$> filterb (fun s => b_id (sub_binding s) =? id) (rows w)) "not-requested".

(** ** Evaluating a package for a plugin *)
Definition begin_bootstrap (w : World) (id : string) (generation g token : Z) : World :=
  match packages w !! g with
  | None => w
  | Some p =>
      set_tokens (set_bootstraps w (mkInstanceKey (plugin_key id generation) (pk_owner p) :: bootstraps w))
        (<[token := mkToken g (plugin_key id generation) 0]> (tokens w))
  end.
(** [evaluated] is whether the script ran and exported what it must. *)
Definition end_bootstrap (w : World) (ctx : option (string * Z)) (token : Z) (evaluated : bool) : World * bool :=
  match tokens w !! token, bootstraps w with
  | Some t, i :: rest =>
      let ok := evaluated && bool_decide (current_owner w ctx = inr (parent i)) in
      let w := set_tokens w (<[token := mkToken (t_package t) (t_parent t) (if ok then 1 else 2)]> (tokens w)) in
      (set_bootstraps (if ok then w else drop_instance w i) rest, ok)
  | _, _ => (w, false)
  end.

(** ** Plugins: lifecycle.rs *)
(** The arms of the disposal of a ledger that reach these tables. *)
Definition dispose_resource (w : World) (x : Resource) : World :=
  match x with
  | FunctionBinding i => set_reg w (drop_binding (reg w) i)
  | FunctionSubscription i => drop_subscription w i
  | FunctionAdapter i => drop_adapter w i
  | _ => w
  end.
Definition unload_plugin (w : World) (id : string) : World :=
  let w := drop_owner w (plugin_key id (default 0 (generation (ledger_of w) id))) in
  match unload (ledger_of w) id with
  | None => w
  | Some (r, order) =>
      let w := set_reg w (EngineRegistry.EngineRegistry.set_ledger (reg w) r) in
      let w := foldl dispose_resource w order in
      set_phases w (delete id (phases w))
  end.
Definition load_plugin (w : World) (id : string) : World :=
  match load (ledger_of w) id with
  | None => w
  | Some (r, g) => set_phases (set_reg w (EngineRegistry.EngineRegistry.set_ledger (reg w) r)) (<[id := Loading]> (phases w))
  end.

(** ** Runs *)
Definition context := option (string * Z).
Inductive Op :=
| Load (id : string) | Unload (id : string) | SetPhase (id : string) (p : Phase) | Entity (o : EntityLive.op)
| Mint (id : string)
| Register (g : Z) (source_empty : bool) (manifest : string) (grants : list HostAdapterGrant) (exports : bool)
| DropSource (g : Z)
| Prepare (k : Z) (intended : string) (c : PreparedCandidate) (answer : Answer)
| PreparePackage (k g : Z) (c : PreparedCandidate) (answer : Answer)
| DropReceipt (k : Z)
| Activate (k : Z) (owner : OwnerKey) (activate : Activation)
| ActivatePackage (k g : Z) (activate : Activation)
| DropFunctions (g : Z)
| Authorize (g : Z) (owner : OwnerKey) (id : Z) (adapter hash : string)
| BeginBootstrap (id : string) (generation g token : Z) | EndBootstrap (ctx : context) (token : Z) (evaluated : bool) | BootstrapFailed (id : string) (generation : Z)
| RegisterAdapter (ctx entered : context) (token : Z) (semantic hash : string) (pre post : option Z)
| Subscribe (ctx entered : context) (token : Z) (name_or_id : string + Z) (adapter phase_name : string) (wrapper : Z) (receiver : option (Z * Z)) (hook : option string)
| SubscribeGeneric (ctx : context) (owner : OwnerKey) (id ph : Z) (observe_only : bool) (wrapper : Z) (hook : option string)
| SubscribePackage (ctx entered : context) (token id ph : Z) (observe_only : bool) (wrapper : Z) (hook : option string)
| Dispose (ctx entered : context) (token : option Z) (id : Z) (sub : bool)
| FacadeDispose (owner : OwnerKey) (id : Z).

Definition with_reg {A} (w : World) (r : State R * A) : World := set_reg w r.1.
Definition step (w : World) (o : Op) : World :=
  match o with
  | Load id => load_plugin w id
  | Unload id => unload_plugin w id
  | SetPhase id p => set_phases w (<[id := p]> (phases w))
  | Entity o => set_books w (EntityLive.step (books w) o).1
  | Mint id => with_reg w (mint_package (reg w) id)
  | Register g e m gr x => (register_with_authorities w g e m gr x).1
  | DropSource g => drop_source w g
  | Prepare k i c a => with_reg w (prepare_owner (reg w) k i c a)
  | PreparePackage k g c a => with_reg w (prepare_package_owner (reg w) k g c a)
  | DropReceipt k => set_reg w (drop_receipt (reg w) k)
  | Activate k ow a => with_reg w (activate_owner (reg w) k ow a)
  | ActivatePackage k g a => with_reg w (activate_package_owner (reg w) k g a)
  | DropFunctions g => drop_functions w g
  | Authorize g ow id a h => (authorize_binding w g ow id a h).1
  | BeginBootstrap id g p t => begin_bootstrap w id g p t
  | EndBootstrap c t e => (end_bootstrap w c t e).1
  | BootstrapFailed id g => drop_owner w (plugin_key id g)
  | RegisterAdapter c e t n h pre post => (js_register w c e t n h pre post).1
  | Subscribe c e t ni a ph wr r h => (js_subscribe w c e t ni a ph wr r h).1
  | SubscribeGeneric c ow id ph ob wr h => (subscribe_generic w c ow id ph ob wr h).1
  | SubscribePackage c e t id ph ob wr h => (subscribe_package_generic w c e t id ph ob wr h).1
  | Dispose c e t id sub => (js_dispose w c e t id sub).1
  | FacadeDispose ow id => (facade_dispose w ow id).1
  end.

(** The loader unloads a plugin before it loads it again, and a receipt has a name of its own. *)
Definition ok_op (w : World) (o : Op) : Prop :=
  match o with
  | Load id => generation (ledger_of w) id = None
  | Prepare k _ _ _ | PreparePackage k _ _ _ => receipts (reg w) !! k = None
  | _ => True
  end.
(** The most loads and records of an operation. *)
Definition cost (w : World) (o : Op) : nat :=
  match o with
  | Activate k _ _ => match receipts (reg w) !! k with Some r => length (r_bindings r) | None => 0 end
  | Load _ | RegisterAdapter _ _ _ _ _ _ _ | Subscribe _ _ _ _ _ _ _ _ _ | SubscribeGeneric _ _ _ _ _ _ _ | SubscribePackage _ _ _ _ _ _ _ _ => 1
  | _ => 0
  end.
Definition init (r : R) : World := mkWorld (mkState r 1 ∅ 1 ∅ ∅ ∅ []) ∅ EntityLive.init ∅ ∅ [] ∅ ∅ ∅ ∅ ∅.
Inductive reachable : World -> Prop :=
| reachable_init r : sound r -> (forall id, generation r id = None /\ held r id = []) -> reachable (init r)
| reachable_step w o : reachable w -> ok_op w o -> room (ledger_of w) (cost w o) -> reachable (step w o).
End Adapter.
End FunctionAdapter.
