(* ===== verification/FunctionDispatch.v ===== *)
(** Dispatch of engine function hooks (core/src/v8host/function_adapter.rs, from the callback lease on).

    The engine calls [dispatch] before and after a hooked function. A package adapter drives its own
    subscribers through a cursor; generic subscribers follow. A callback is a [Program]: what it does
    ([Act]) in the world and overlay it finds, after what the cursor answered it; it may set fields under
    its lease, call back into the host ([Do]), or make the engine call a hooked function ([Fire]), which
    dispatches again inside. [Env] is what the engine and V8 answer, in terms of all that was asked
    before ([log]). A lease is on top of the stack exactly while its callback runs, so the stack is the
    recursion; fuel bounds the nesting of [Fire] as V8's stack does. The budget of copied values is an
    answer here. Log lines and profiling are not modelled. *)
From S2P Require Import Prelude.
From S2P Require Import Results.
From S2P Require Import BTree.
From S2P Require Import ResourceLedger.
From S2P Require Import EntityLive.
From S2P Require Import EngineContract.
From S2P Require Import EngineInstance.
From S2P Require Import EngineCopies.
From S2P Require Import EngineProjection.
From S2P Require Import EngineRegistry.
From S2P Require Import FunctionAdapter.
From S2P Require Import Multiplexer.
Import EngineContract.EngineContract.
Import EngineInstance.EngineInstance.
Import EngineProjection.EngineProjection.
Import EngineRegistry.EngineRegistry.
Import FunctionAdapter.FunctionAdapter.

Module FunctionDispatch.

(** ** Data *)
Definition StagedEdits := gmap Z (ProjectedValue * string).
Record RecordEdit := mkRecordEdit { re_binding : Binding; re_parent : OwnerKey; re_value : ProjectedValue; re_epoch : Z }.
Definition RecordEdits := gmap (Z * Z) RecordEdit.
Record RecordWriter := mkWriter { rw_binding : Binding; rw_parent : OwnerKey; rw_epoch : Z }.

(** What all parts of a dispatch share. *)
Record Cells := mkCells {
  revision : Z; edits : StagedEdits; record_edits : RecordEdits; writers : gmap Z RecordWriter; proposal : option (ProjectedValue * Binding) }.
Definition set_revision (c : Cells) (x : Z) : Cells := mkCells x (edits c) (record_edits c) (writers c) (proposal c).
Definition set_edits (c : Cells) (x : StagedEdits) : Cells := mkCells (revision c) x (record_edits c) (writers c) (proposal c).
Definition set_record_edits (c : Cells) (x : RecordEdits) : Cells := mkCells (revision c) (edits c) x (writers c) (proposal c).
Definition set_writers (c : Cells) (x : gmap Z RecordWriter) : Cells := mkCells (revision c) (edits c) (record_edits c) x (proposal c).
Definition set_proposal (c : Cells) (x : option (ProjectedValue * Binding)) : Cells := mkCells (revision c) (edits c) (record_edits c) (writers c) x.

Record Part := mkPart {
  f_target : Z; f_info : FrameInfo; f_phase : Z; p_binding : Binding; p_adapter : option Adapter; p_subs : list Subscription; p_epoch : Z }.
Record Lease := mkLease {
  l_id : Z; l_owner : OwnerKey; l_binding : Binding; l_adapter : bool; l_mode : SubscriptionMode;
  pending_edits : StagedEdits; pending_records : RecordEdits; l_epoch : Z; l_failed : bool }.
Definition set_pending (l : Lease) (x : StagedEdits) : Lease :=
  mkLease (l_id l) (l_owner l) (l_binding l) (l_adapter l) (l_mode l) x (pending_records l) (l_epoch l) (l_failed l).
Definition set_pending_records (l : Lease) (x : RecordEdits) : Lease :=
  mkLease (l_id l) (l_owner l) (l_binding l) (l_adapter l) (l_mode l) (pending_edits l) x (l_epoch l) (l_failed l).
Definition set_failed (l : Lease) : Lease :=
  mkLease (l_id l) (l_owner l) (l_binding l) (l_adapter l) (l_mode l) (pending_edits l) (pending_records l) (l_epoch l) true.

(** What a callback returned, as far as [decision] looks: the [action] is an [int32] if any; [carried] is the
    host's tag of a delivery, with whether its value is the one delivered; [value] is its conversion. *)
Inductive Returned :=
| RUndefined | RThenable | RInt (z : Z) | RProxy | ROther
| RObject (action : option Z) (carried : option (Z * Z * bool)) (value : string + ProjectedValue).
Inductive Act :=
| SetField (lease selector : Z) (value : string + ProjectedValue)
| SetRecord (lease selector field : Z) (value : string + ProjectedValue)
| OverrideReturn (lease : Z) (value : string + ProjectedValue)
| Do (o : Op)
| Fire (target : Z) (info : FrameInfo) (phase : Z).

Section Machine.
Context {R : Type} `{Ledger R}.
Notation World := (World R).

Definition Sees A := Lease -> World -> StagedEdits -> A.
Inductive Program :=
| Finish (body : Sees (list Act)) (returns : Sees (option Returned))
| Next (body : Sees (list Act)) (k : (string + option Decision) -> Program).

(** What was asked of V8 and the engine. [Called] is a callback about to run: of a subscription, or the adapter. *)
Inductive Event :=
| Called (w : World) (p : Part) (busy : list (string * Z * option Z)) (sub : option Subscription)
| Write (p : Part) (selector : Z) (v : ProjectedValue)
| WriteField (p : Part) (selector field : Z) (e : RecordEdit)
| Override_ (w : World) (p : Part) (l : Lease) (v : ProjectedValue)
| Commit (p : Part) (action : Z) (v : option ProjectedValue).
Record Env := mkEnv {
  callback : Z -> Program;
  scope_enter : list Event -> option string;
  reserve : list Event -> Z -> option string;
  deferred : list Event -> bool;
  nested : list Event -> bool;
  isolate_free : list Event -> bool;
  context_of : list Event -> string -> option Z;
  receiver_now : list Event -> Part -> Binding -> string + ProjectedValue;
  read_field : list Event -> Part -> Z -> Z -> option string;
  to_js : list Event -> ProjectedValue -> option string;
  answer_ : list Event -> Event -> option string;
}.
Context (env : Env).

Record St := mkSt { world : World; busy : list (string * Z * option Z); log : list Event }.
Definition set_world (st : St) (w : World) : St := mkSt w (busy st) (log st).
Definition set_busy (st : St) (b : list (string * Z * option Z)) : St := mkSt (world st) b (log st).
(** Ask the engine, and its answer. *)
Definition ask (st : St) (e : Event) : St * option string := (mkSt (world st) (busy st) (log st ++ [e]), answer_ env (log st) e).
Definition note (st : St) (e : Event) : St := (ask st e).1.

(** dispatch.rs: [parent_busy] *)
Definition parent_busy (st : St) (o : OwnerKey) (target : Z) : bool :=
  existsb (fun p => String.eqb p.1.1 (o_id o) && (p.1.2 =? o_generation o) && bool_decide (p.2 = Some target)) (busy st).
Definition is_active (w : World) (o : OwnerKey) : bool := bool_decide (phases w !! o_id o = Some Plugin.PluginLedger.Active).
Definition owner_live (w : World) (o : OwnerKey) : bool := live (reg w) o.
Definition has_row (w : World) (a : Adapter) : bool := is_some (adapters w !! adp_id a).
Definition has_package (w : World) (i : PackageInstanceKey) : bool := is_some (packages w !! o_generation (package_owner i)).
Definition map_now (w : World) : Z := EntityLive.map_epoch (FunctionAdapter.books w).
Definition epoch_ok (w : World) (epoch : Z) : bool := negb (epoch =? 0) && (epoch =? map_now w).
Definition is_trusted (b : Binding) : bool := trusted (b_function b).
Definition copies (b : Binding) : bool := has_copies (fn_abi (b_function b)).
Definition suppression_of (b : Binding) : string := suppression (fn_policy (b_function b)).

(** ** The lease *)
Definition SCRATCH_BASE : Z := -16.
Definition scratch_slot (b : Binding) (selector : Z) : option ScratchSlot :=
  if SCRATCH_BASE <? selector then None else scratch (fn_abi (b_function b)) !! Z.to_nat (SCRATCH_BASE - selector).
Definition bound (w : World) (b : Binding) : bool := match binding (reg w) (b_id b) (b_owner b) with inr _ => true | inl _ => false end.
(** [lease]: the callback's own lease is the one on top. *)
Definition lease_ok (st : St) (p : Part) (l : Lease) (id : Z) : bool :=
  let w := world st in
  (l_id l =? id) && bool_decide (current_owner w (Some (o_id (l_owner l), o_generation (l_owner l))) = inr (l_owner l))
  && binding_is_live (reg w) (l_binding l) && (negb (is_trusted (l_binding l)) || bound w (l_binding l))
  && (negb (is_trusted (l_binding l)) || epoch_ok w (l_epoch l))
  && match p_adapter p with Some a => has_row w a | None => true end.

Definition validate_record_edit (w : World) (e : RecordEdit) : string + unit :=
  let* _ := binding (reg w) (b_id (re_binding e)) (b_owner (re_binding e)) in
  let* _ := require (binding_is_live (reg w) (re_binding e) && owner_live w (re_parent e) && epoch_ok w (re_epoch e)) "record writer or map lifetime expired" in
  let* _ := require match re_value e with Entity_ (Some r) _ => is_live (FunctionAdapter.books w) r | _ => true end "stale record entity edit" in
  let* _ := encode (FunctionAdapter.books w) (re_value e) in
  inr tt.
(** The batch moves from the lease to the dispatch, once. *)
Definition accept_record_edits (st : St) (c : Cells) (l : Lease) : string + (Cells * Lease) :=
  let w := world st in
  let* _ := require (negb (l_failed l)) "rejected whole record edit batch" in
  let* _ := require (negb (is_trusted (l_binding l)) || epoch_ok w (l_epoch l)) "callback map lifetime expired" in
  let* _ := reach (fun kv => validate_record_edit w kv.2) (map_to_list (pending_records l)) in
  let c := if is_trusted (l_binding l) then set_writers c (<[l_id l := mkWriter (l_binding l) (l_owner l) (l_epoch l)]> (writers c)) else c in
  inr (set_record_edits c (pending_records l ∪ record_edits c), set_pending_records l ∅).

Definition stages (l : Lease) : bool :=
  copies (l_binding l) || is_trusted (l_binding l) || (negb (l_adapter l) && String.eqb (suppression_of (l_binding l)) "none").
Definition next_revision (c : Cells) : string + Z := ok_or (checked_add (revision c) 1) "frame revision exhausted".
Definition mutable_pre (b : Binding) (selector : Z) : bool :=
  (0 <=? selector) && match s_parameters (fn_abi (b_function b)) !! Z.to_nat selector with Some q => mem "pre" (p_mutable q) | None => false end.
(** [js_set] until the value is kept: staged, or to be written at once. *)
Definition check_set (st : St) (p : Part) (c : Cells) (l : Lease) (id selector : Z) (value : string + ProjectedValue) : string + (Z * ProjectedValue * bool) :=
  let* _ := require (lease_ok st p l id) "expired or suspended callback lease" in
  let scratch := is_some (scratch_slot (l_binding l) selector) in
  let* _ := require (writable (l_mode l) && (f_phase p =? 0) && (scratch || mutable_pre (l_binding l) selector)) "undeclared field mutation" in
  let* v := value in
  let* r := next_revision c in
  inr (r, v, scratch || stages l).
Definition fail_set (l : Lease) : Lease := if is_trusted (l_binding l) then set_failed l else l.
Definition js_set (st : St) (p : Part) (c : Cells) (l : Lease) (id selector : Z) (value : string + ProjectedValue) : St * Cells * Lease :=
  match check_set st p c l id selector value with
  | inl _ => (st, c, fail_set l)
  | inr (r, v, staged) =>
      let entry := (v, fn_id (b_function (l_binding l))) in
      if staged : bool then (st, set_revision c r, set_pending l (<[selector := entry]> (pending_edits l)))
      else match ask st (Write p selector v) with
           | (st, Some _) => (st, c, fail_set l)
           | (st, None) => (st, set_revision (set_edits c (<[selector := entry]> (edits c))) r, l)
           end
  end.
Definition record_row (b : Binding) (selector field : Z) : string + RecordField :=
  let* r := layout (fn_abi (b_function b)) selector in
  ok_or (if 0 <=? field then fields r !! Z.to_nat field else None) "unknown record field".
Definition check_record (st : St) (p : Part) (c : Cells) (l : Lease) (id selector field : Z) (value : string + ProjectedValue) : string + (Z * RecordEdit) :=
  let w := world st in
  let* _ := require (lease_ok st p l id) "expired or suspended callback lease" in
  let* row := record_row (l_binding l) selector field in
  let* _ := require ((f_phase p =? 0) && writable (l_mode l) && bool_decide (write row = ["pre"])) "record field is readonly" in
  let* _ := match read_field env (log st) p selector field with Some e => inl e | None => inr tt end in
  let* v := value in
  let* _ := require match v with Entity_ (Some r) _ => is_live (FunctionAdapter.books w) r | _ => true end "stale record entity value" in
  let* _ := require (negb (String.eqb (storage row) "u16") || match v with Scalar x => bits x <=? 65535 | _ => false end) "record u16 out of range" in
  let edit := mkRecordEdit (l_binding l) (l_owner l) v (l_epoch l) in
  let* _ := validate_record_edit w edit in
  let* r := next_revision c in
  inr (r, edit).
Definition record_set (st : St) (p : Part) (c : Cells) (l : Lease) (id selector field : Z) (value : string + ProjectedValue) : Cells * Lease :=
  match check_record st p c l id selector field value with
  | inl _ => (c, set_failed l)
  | inr (r, edit) => (set_revision c r, set_pending_records l (<[(selector, field) := edit]> (pending_records l)))
  end.
(** [AdapterPostReturnPermit::validate]; a package's row is found by its generation. *)
Definition permit (st : St) (p : Part) (l : Lease) (id : Z) : string + Adapter :=
  let w := world st in
  let* _ := require (lease_ok st p l id) "expired or suspended callback lease" in
  let* _ := require (l_adapter l) "expired or suspended adapter POST permit" in
  let* a := ok_or (p_adapter p) "adapter POST authority required" in
  let* _ := require ((f_phase p =? 1) && bool_decide (post_authority a = Override) && bool_decide (parent (adp_instance a) = l_owner l)
                     && owner_live w (l_owner l) && is_active w (l_owner l) && has_row w a && has_package w (adp_instance a)) "adapter POST authority revoked or unavailable" in
  let* _ := binding (reg w) (b_id (l_binding l)) (b_owner (l_binding l)) in
  let* _ := require (bool_decide (authorized w !! b_id (l_binding l) = Some (package_owner (adp_instance a), adp_semantic a, adp_hash a)))
              "adapter POST binding authorization mismatch" in
  inr a.
Definition override_return (st : St) (p : Part) (l : Lease) (id : Z) (value : string + ProjectedValue) : St :=
  match permit st p l id, value with
  | inr _, inr v => note st (Override_ (world st) p l v)
  | _, _ => st
  end.

Section Nested.
(** [dispatch] one level down. *)
Context (fire : St -> Z -> FrameInfo -> Z -> St * (string + unit)).

Definition run_act (p : Part) (x : St * Cells * Lease) (a : Act) : St * Cells * Lease :=
  let '(st, c, l) := x in
  match a with
  | SetField id selector v => js_set st p c l id selector v
  | SetRecord id selector field v => let '(c, l) := record_set st p c l id selector field v in (st, c, l)
  | OverrideReturn id v => (override_return st p l id v, c, l)
  | Do o => (set_world st (step (world st) o), c, l)
  | Fire t i ph => ((fire st t i ph).1, c, l)
  end.
Definition overlay (c : Cells) (l : Lease) : StagedEdits := pending_edits l ∪ edits c.
Definition run_body (p : Part) (x : St * Cells * Lease) (body : Sees (list Act)) : St * Cells * Lease :=
  let '(st, c, l) := x in foldl (run_act p) (st, c, l) (body l (world st) (overlay c l)).

(** ** Decisions *)
Definition none_ : Decision := mkDecision 0 None.
Definition carried_delivery (l : Lease) (deliveries : list Decision) (action : Z) (tag : Z * Z * bool) : string + Decision :=
  let '(id, index, unchanged) := tag in
  let* _ := require (l_adapter l && (l_id l =? id)) "foreign or expired host delivery" in
  let* d := ok_or (if 0 <? index then deliveries !! Z.to_nat (index - 1) else None) "expired delivery index" in
  let* _ := require ((d_action d =? action) && unchanged) "host delivery changed" in
  inr d.
Definition is_thenable (v : Returned) : bool := match v with RThenable => true | _ => false end.
Definition is_undefined (v : Returned) : bool := match v with RUndefined => true | _ => false end.
Definition suppresses (z : Z) : bool := (z =? 2) || (z =? 3).
(** The authority to propose a return is given to adapters before the call. *)
Definition decision (l : Lease) (deliveries : list Decision) (b : Binding) (phase : Z) (authority : option (string + unit)) (v : Returned)
  : string + (Decision * option ProjectedValue) :=
  let r := s_returns (fn_abi (b_function b)) in
  let* rq := request (p_native r) (pr_id (p_projection r)) in
  let void := kind rq =? 0 in
  let no_suppression := String.eqb (suppression_of b) "none" in
  if is_thenable v then inl "callback returned a promise/thenable"
  else if phase =? 1 then let* _ := require (is_undefined v) "POST callback must return void" in inr (none_, None)
  else match v with
       | RUndefined => inr (none_, None)
       | RInt z =>
           let* _ := require (negb (no_suppression && suppresses z)) "suppression:none forbids Handled/Stop" in
           let* _ := require ((z =? 0) || (z =? 1) || (void && suppresses z)) "suppression requires typed decision object" in
           inr (mkDecision z None, None)
       | RThenable | RProxy => inl "proxy decision forbidden"
       | ROther => inl "invalid adapter decision"
       | RObject action carried value =>
           let* action := ok_or action "suppression action must be an int32" in
           let proposing := match authority, carried with Some a, None => if (action =? 1) && (phase =? 0) then Some a else None | _, _ => None end in
           match proposing with
           | Some authority =>
               let* _ := authority in
               let* _ := require (negb (void || is_some (CopyLedger.flag (pr_id (p_projection r))))) "PRE return proposal requires a scalar or entity return" in
               let* v := value in
               inr (mkDecision 1 None, Some v)
           | None =>
               let* _ := require (suppresses action) "invalid suppression action" in
               let* _ := require (negb no_suppression) "suppression:none forbids suppression decision objects" in
               match carried with
               | Some tag => let* d := carried_delivery l deliveries action tag in inr (d, None)
               | None => let* v := value in inr (mkDecision action (if void then None else Some v), None)
               end
           end
       end.

(** ** A subscriber *)
Definition enter (st : St) (o : OwnerKey) (target : Z) : St := set_busy st ((o_id o, o_generation o, Some target) :: busy st).
Definition leave (st : St) : St := set_busy st (tail (busy st)).
Definition open_lease (st : St) (p : Part) (o : OwnerKey) (b : Binding) (adapter : bool) (m : SubscriptionMode) : St * (string + Lease) :=
  match next_id (reg (world st)) with
  | (r, inl e) => (st, inl e)
  | (r, inr id) => (set_world st (set_reg (world st) r), inr (mkLease id o b adapter m ∅ ∅ (p_epoch p) false))
  end.
(** A wrapper has no cursor. *)
Fixpoint run_program (p : Part) (x : St * Cells * Lease) (q : Program) : St * Cells * Lease * option Returned :=
  match q with
  | Finish body returns =>
      let '(st, c, l) := run_body p x body in (st, c, l, returns l (world st) (overlay c l))
  | Next body k => run_program p (run_body p x body) (k (inl "cursor requires adapter callback lease"))
  end.
Definition wrapper_decision (sub : Subscription) (phase : Z) (l : Lease) (returned : option Returned) : string + Decision :=
  let* v := ok_or returned "subscriber wrapper threw" in
  let* d := decision l [] (sub_binding sub) phase None v in
  let* _ := require (negb (bool_decide (sub_mode sub = Observe) && negb (d_action d.1 =? 0))) "observe-only subscriber cannot change the decision" in
  inr d.1.
Definition invoke_wrapper (st : St) (p : Part) (c : Cells) (sub : Subscription) : St * Cells * (string + Decision) :=
  match context_of env (log st) (o_id (sub_owner sub)) with
  | None => (st, c, inl "subscriber context unavailable")
  | Some _ =>
      let prior := revision c in
      match open_lease (enter st (sub_owner sub) (f_target p)) p (sub_owner sub) (sub_binding sub) false (sub_mode sub) with
      | (st, inl e) => (leave st, c, inl e)
      | (st, inr l) =>
          let st := note st (Called (world st) p (tail (busy st)) (Some sub)) in
          let '(st, c, l, returned) := run_program p (st, c, l) (callback env (sub_wrapper sub)) in
          match wrapper_decision sub (f_phase p) l returned with
          | inr d =>
              match accept_record_edits st c l with
              | inl e => (leave st, set_revision c prior, inl e)
              | inr (c, l) => (leave st, set_edits c (pending_edits l ∪ edits c), inr d)
              end
          | inl e =>
              (leave st, if copies (sub_binding sub) || String.eqb (suppression_of (sub_binding sub)) "none" then set_revision c prior else c, inl e)
          end
      end
  end.
Definition settled (r : string + Decision) : Decision := match r with inr d => d | inl _ => none_ end.

(** ** The package adapter and its cursor *)
Definition receiver_matches (st : St) (p : Part) (c : Cells) (sub : Subscription) : bool :=
  match sub_receiver sub with
  | None => true
  | Some r =>
      let b := sub_binding sub in
      receiver_is_live (world st) r
      && match field_type b (-1) with
         | inl _ => false
         | inr (_, projection) =>
             let current := match fst <$> edits c !! (-1) with
                            | Some (Entity_ reference _) =>
                                let* e := ok_or (parse_entity projection) "entity projection mismatch" in value (FunctionAdapter.books (world st)) e reference
                            | Some v => inr v
                            | None => receiver_now env (log st) p b
                            end in
             match current with inr (Entity_ (Some x) _) => bool_decide (x = (rc_index r, rc_id r)) | _ => false end
         end
  end.
Definition admissible (st : St) (p : Part) (adapter_owner : option OwnerKey) (sub : Subscription) : bool :=
  is_some (subs (world st) !! sub_id sub) && owner_live (world st) (sub_owner sub)
  && (bool_decide (adapter_owner = Some (sub_owner sub)) || negb (parent_busy st (sub_owner sub) (f_target p))).
Fixpoint next_subscriber (st : St) (p : Part) (c : Cells) (adapter_owner : OwnerKey) (rest : list Subscription) : option (Subscription * list Subscription) :=
  match rest with
  | [] => None
  | s :: rest => if admissible st p (Some adapter_owner) s && receiver_matches st p c s then Some (s, rest) else next_subscriber st p c adapter_owner rest
  end.
(** The cursor's place and what it delivered. *)
Record Cursor := mkCursor { rest_ : list Subscription; delivered : list Decision }.
Definition js_cursor (st : St) (p : Part) (c : Cells) (l : Lease) (k : Cursor) : St * Cells * Lease * Cursor * (string + option Decision) :=
  if negb (lease_ok st p l (l_id l)) then (st, c, l, k, inl "expired or suspended callback lease")
  else match accept_record_edits st c l with
       | inl e => (st, c, l, k, inl e)
       | inr (c, l) =>
           let '(c, l) := if copies (l_binding l) || is_trusted (l_binding l) then (set_edits c (pending_edits l ∪ edits c), set_pending l ∅) else (c, l) in
           match next_subscriber st p c (l_owner l) (rest_ k) with
           | None => (st, c, l, mkCursor [] (delivered k), inr None)
           | Some (s, rest) =>
               let '(st, c, r) := invoke_wrapper st p c s in
               let d := settled r in
               let k := mkCursor (if d_action d =? 3 then [] else rest) (delivered k ++ [d]) in
               (st, c, l, k, match d_value d with
                             | Some v => match to_js env (log st) v with Some e => inl e | None => inr (Some d) end
                             | None => inr (Some d)
                             end)
           end
       end.
Fixpoint run_adapter (p : Part) (x : St * Cells * Lease) (k : Cursor) (q : Program) : St * Cells * Lease * Cursor * option Returned :=
  match q with
  | Finish body returns =>
      let '(st, c, l) := run_body p x body in (st, c, l, k, returns l (world st) (overlay c l))
  | Next body next =>
      let '(st, c, l) := run_body p x body in
      let '(st, c, l, k, answer) := js_cursor st p c l k in
      run_adapter p (st, c, l) k (next answer)
  end.
Definition proposal_authority (w : World) (a : Adapter) (b : Binding) : string + unit :=
  let* _ := require (bool_decide (post_authority a = Override)) "PRE return proposal requires host override authority" in
  require (bool_decide (authorized w !! b_id b = Some (package_owner (adp_instance a), adp_semantic a, adp_hash a))) "PRE return proposal binding authorization mismatch".
Definition adapter_decision (w : World) (p : Part) (a : Adapter) (l : Lease) (deliveries : list Decision) (returned : option Returned)
  : string + (Decision * option ProjectedValue) :=
  let* v := ok_or returned "adapter threw" in
  let* d := decision l deliveries (p_binding p) (f_phase p) (if f_phase p =? 0 then Some (proposal_authority w a (p_binding p)) else None) v in
  let* _ := require (negb (is_some d.2 && negb (is_some (adp_post a)))) "PRE return proposal requires the adapter's POST callback" in
  inr d.
(** A thrown adapter leaves the revision; a refused decision takes it back only where values are copied. *)
Definition invoke_adapter (st : St) (p : Part) (c : Cells) : St * Cells * list Decision * (string + Decision) :=
  match p_adapter p with
  | None => (st, c, [], inl "package implementation required")
  | Some a =>
      match (if f_phase p =? 0 then adp_pre a else adp_post a) with
      | None => (st, c, [], inr none_)
      | Some f =>
          let o := parent (adp_instance a) in
          match context_of env (log st) (o_id o) with
          | None => (st, c, [], inl "adapter context unavailable")
          | Some _ =>
              let prior := revision c in
              let mode := if f_phase p =? 0 then Mutating else Observe in
              match open_lease (enter st o (f_target p)) p o (p_binding p) true mode with
              | (st, inl e) => (leave st, c, [], inl e)
              | (st, inr l) =>
                  let st := note st (Called (world st) p (tail (busy st)) None) in
                  let '(st, c, l, k, returned) := run_adapter p (st, c, l) (mkCursor (p_subs p) []) (callback env f) in
                  match adapter_decision (world st) p a l (delivered k) returned with
                  | inr (d, pr) =>
                      let c := match pr with Some v => set_proposal c (Some (v, p_binding p)) | None => c end in
                      match accept_record_edits st c l with
                      | inl e => (leave st, set_revision c prior, delivered k, inl e)
                      | inr (c, l) => (leave st, set_edits c (pending_edits l ∪ edits c), delivered k, inr d)
                      end
                  | inl e => (leave st, if copies (p_binding p) && is_some returned then set_revision c prior else c, delivered k, inl e)
                  end
              end
          end
      end
  end.

(** ** Generic subscribers *)
Definition to_delivery (c : Cells) (d : Decision) : PackageAdapter.SubscriberDelivery ProjectedValue :=
  PackageAdapter.mkDelivery (if d_action d =? 0 then Multiplexer.Multiplexer.Continue else if d_action d =? 1 then Multiplexer.Multiplexer.Changed
                             else if d_action d =? 2 then Multiplexer.Multiplexer.Handled else Multiplexer.Multiplexer.HStop) (d_value d) (revision c).
(** The cursor under [GenericAdapter::pre] ([stop]) or [post]: what it delivered, and whether it was left early. *)
Fixpoint generic_run (stop : bool) (st : St) (p : Part) (c : Cells) (subs_ : list Subscription) (acc : list Decision) (ds : list (string + PackageAdapter.SubscriberDelivery ProjectedValue))
  : St * Cells * list Decision * list (string + PackageAdapter.SubscriberDelivery ProjectedValue) :=
  match subs_ with
  | [] => (st, c, acc, ds)
  | s :: rest =>
      if negb (admissible st p None s) then generic_run stop st p c rest acc ds
      else
        let '(st, c, r) := invoke_wrapper st p c s in
        let d := settled r in
        let ds := ds ++ [inr (to_delivery c d)] in
        match PackageAdapter.pre ds with
        | inl _ => if stop then (st, c, acc ++ [d], ds) else generic_run stop st p c rest (acc ++ [d]) ds
        | inr _ => if stop && (d_action d =? 3) then (st, c, acc ++ [d], ds) else generic_run stop st p c rest (acc ++ [d]) ds
        end
  end.
Definition of_pre (d : PackageAdapter.PreDecision) : Decision :=
  match d with
  | PackageAdapter.DContinue => none_
  | PackageAdapter.DChanged => mkDecision 1 None
  | PackageAdapter.DSuppress PackageAdapter.SHandled v => mkDecision 2 v
  | PackageAdapter.DSuppress PackageAdapter.SStop v => mkDecision 3 v
  end.

(** ** Domains: the package's, then mutating generic ones, then observers *)
Definition in_group (g : Z) (s : Subscription) : bool :=
  if g =? 0 then negb (sub_generic s)
  else if g =? 1 then sub_generic s && bool_decide (sub_mode s = Mutating)
  else sub_generic s && bool_decide (sub_mode s = Observe).
Definition part_of (p : Part) (g : Z) (c : Cells) : Part :=
  let subs_ := filterb (in_group g) (p_subs p) in
  let carried := if (g =? 0) && (f_phase p =? 1) then snd <$> proposal c else None in
  let b := match carried with Some b => b | None => match head subs_ with Some s => sub_binding s | None => p_binding p end end in
  mkPart (f_target p) (f_info p) (f_phase p) b (p_adapter p) subs_ (p_epoch p).
Definition forced (p : Part) (g : Z) (c : Cells) : bool := (g =? 0) && (f_phase p =? 1) && is_some (p_adapter p) && is_some (proposal c).
Definition run_group (g : Z) (st : St) (p : Part) (c : Cells) : St * Cells * list Decision * (string + Decision) :=
  let part := part_of p g c in
  if g =? 0 then invoke_adapter st part c
  else if (g =? 2) || (f_phase p =? 1) then
    let '(st, c, acc, ds) := generic_run false st part c (p_subs part) [] [] in
    (st, c, acc, let* _ := PackageAdapter.post ds in inr none_)
  else
    let '(st, c, acc, ds) := generic_run true st part c (p_subs part) [] [] in
    (st, c, acc, let* d := PackageAdapter.pre ds in inr (of_pre d)).
Fixpoint run_groups (gs : list Z) (st : St) (p : Part) (c : Cells) (deliveries : list Decision) (result : Decision)
  : St * Cells * list Decision * (string + Decision) :=
  match gs with
  | [] => (st, c, deliveries, inr result)
  | g :: gs =>
      if is_nil (filterb (in_group g) (p_subs p)) && negb (forced p g c) then run_groups gs st p c deliveries result
      else match run_group g st p c with
           | (st, c, acc, inl e) => (st, c, deliveries, inl e)
           | (st, c, acc, inr d) => run_groups gs st p c (deliveries ++ acc) (if g =? 2 then result else d)
           end
  end.
Definition invoke_domains (st : St) (p : Part) (c : Cells) : St * Cells * list Decision * (string + Decision) := run_groups [0; 1; 2] st p c [] none_.

(** ** Selection *)
Definition eligible (st : St) (a : Adapter) (bypass phase target : Z) : bool :=
  let o := parent (adp_instance a) in
  is_some (if phase =? 0 then adp_pre a else adp_post a) && has_package (world st) (adp_instance a) && negb (o_generation o =? bypass)
  && owner_live (world st) o && is_active (world st) o && negb (parent_busy st o target).
Definition selected_subscriber (st : St) (target phase bypass : Z) (s : Subscription) : bool :=
  bool_decide (target_of s = Some target) && binding_is_live (reg (world st)) (sub_binding s)
  && match sub_instance s with None => true | Some i => has_package (world st) i end
  && ((phase =? 0) || (sub_phase s =? phase)) && is_active (world st) (sub_owner s) && negb (o_generation (sub_owner s) =? bypass)
  && negb (parent_busy st (sub_owner s) target).
Definition select_adapter (st : St) (subs_ : list Subscription) (bypass phase target : Z) : option Adapter :=
  find (fun a => eligible st a bypass phase target
                 && existsb (fun s => (sub_phase s =? phase) && String.eqb (sub_adapter s) (adp_semantic a)
                                      && match authorized (world st) !! b_id (sub_binding s) with Some (_, _, h) => String.eqb h (adp_hash a) | None => false end) subs_)
       (adapter_rows (world st)).
Definition invocation_at (w : World) (k : Z * Z) : option Invocation := invocations w !! k.
Definition put_invocation (st : St) (k : Z * Z) (i : Invocation) : St := set_world st (set_invocations (world st) (<[k := i]> (invocations (world st)))).
Definition take_invocation (st : St) (k : Z * Z) : St := set_world st (set_invocations (world st) (delete k (invocations (world st)))).
(** What is reserved when any subscription of the target copies values. *)
Definition bookkeeping (w : World) (target : Z) : string + option Z :=
  let rs := filterb (fun s => for_target target s) (rows w) in
  let* bytes := rfold (fun n s => ok_or (checked_add n (4 * 32 * (256 + Z.of_nat (String.length (fn_id (b_function (sub_binding s))))))) "FunctionCopyBudgetExceeded: dispatch bookkeeping") 4096 rs in
  inr (if existsb (fun s => copies (sub_binding s)) rs then Some bytes else None).

(** ** The commit *)
Definition write_all {K} (st : St) (events : list (K * (Event * string))) : St * (string + unit) :=
  foldl (fun x e => match x with
                    | (st, inl why) => (st, inl why)
                    | (st, inr _) => match ask st e.2.1 with (st, Some why) => (st, inl (e.2.2 +:+ why)) | (st, None) => (st, inr tt) end
                    end) (st, inr tt) events.
Definition native_edits (c : Cells) : list (Z * (ProjectedValue * string)) := filterb (fun kv => SCRATCH_BASE <? kv.1) (btree_to_list (edits c)).
Definition pair_le (a b : Z * Z * RecordEdit) : Prop := a.1.1 < b.1.1 \/ a.1.1 = b.1.1 /\ a.1.2 <= b.1.2.
#[export] Instance pair_le_dec a b : base.Decision (pair_le a b).
Proof. unfold pair_le. apply _. Defined.
Definition record_list (c : Cells) : list (Z * Z * RecordEdit) := merge_sort pair_le (map_to_list (record_edits c)).
Definition writer_ok (w : World) (x : RecordWriter) : string + unit :=
  let* _ := binding (reg w) (b_id (rw_binding x)) (b_owner (rw_binding x)) in
  require (binding_is_live (reg w) (rw_binding x) && owner_live w (rw_parent x) && epoch_ok w (rw_epoch x)) "record callback writer expired before commit".
Definition check_commit (w : World) (p : Part) (c : Cells) : string + unit :=
  let* _ := require (negb (is_trusted (p_binding p)) || epoch_ok w (p_epoch p)) "record dispatch map lifetime expired before commit" in
  let* _ := reach (fun kv => writer_ok w kv.2) (btree_to_list (writers c)) in
  let* _ := reach (fun kv => validate_record_edit w kv.2) (record_list c) in
  reach (fun kv => match kv.2.1 with
                   | Copied _ => inr tt
                   | v => match encode (FunctionAdapter.books w) v with inl e => inl (kv.2.2 +:+ ": " +:+ e) | inr _ => inr tt end
                   end) (native_edits c).
Definition writes (p : Part) (c : Cells) : list (Z * (Event * string)) :=
  (fun kv => (kv.1, (Write p kv.1 kv.2.1, kv.2.2 +:+ ": "))) <$> native_edits c.
Definition record_writes (p : Part) (c : Cells) : list (Z * (Event * string)) :=
  (fun kv => (kv.1.1, (WriteField p kv.1.1 kv.1.2 kv.2, ""))) <$> record_list c.
Definition commit (st : St) (p : Part) (c : Cells) (d : Decision) : St * (string + unit) :=
  match check_commit (world st) p c with
  | inl e => (st, inl e)
  | inr _ => write_all st (writes p c ++ record_writes p c ++ [(0, (Commit p (d_action d) (d_value d), fn_id (b_function (p_binding p)) +:+ ": "))])
  end.
Definition carry (st : St) (k : Z * Z) (a : option Adapter) (c : Cells) : St :=
  match proposal c, invocation_at (world st) k with
  | Some v, Some i => put_invocation st k (mkInvocation (inv_pre i) a (inv_deliveries i) (Some v))
  | _, _ => st
  end.
Definition keep_deliveries (st : St) (k : Z * Z) (ds : list Decision) : St :=
  match invocation_at (world st) k with
  | Some i => put_invocation st k (mkInvocation (inv_pre i) (inv_post i) ds (inv_proposal i))
  | None => st
  end.

(** ** [dispatch_inner] *)
Definition meta_ok (target : Z) (i : FrameInfo) (phase : Z) : bool := frame_ok target i phase.
(** Outside any callback the first subscriber's context, or the adapter's, is entered. *)
Definition enterable (st : St) (p : Part) : string + unit :=
  if nested env (log st) then inr tt
  else
    let* _ := require (isolate_free env (log st)) "synchronous host isolate unavailable" in
    let* o := ok_or match head (p_subs p) with Some s => Some (sub_owner s) | None => (fun a => parent (adp_instance a)) <$> p_adapter p end "dispatch parent unavailable" in
    let* _ := require (bool_decide (o_kind o = Plugin) && owner_live (world st) o) "dispatch parent generation unavailable" in
    let* g := ok_or (context_of env (log st) (o_id o)) "dispatch context unavailable" in
    require (g =? o_generation o) "dispatch context generation mismatch".
Definition run_dispatch (st : St) (p : Part) (k : Z * Z) (c : Cells) : St * (string + unit) :=
  match enterable st p with
  | inl e => (st, inl e)
  | inr _ =>
      match invoke_domains st p c with
      | (st, c, ds, inl e) => (st, inl e)
      | (st, c, ds, inr d) =>
          if negb (f_phase p =? 0) then (st, inr tt)
          else match commit (keep_deliveries st k ds) p c d with
               | (st, inl e) => (st, inl e)
               | (st, inr _) => (carry st k (p_adapter p) c, inr tt)
               end
      end
  end.
(** The parts of a dispatch before any callback: the selected adapter and whether the row was new. *)
Definition pick_adapter (st : St) (k : Z * Z) (info : FrameInfo) (phase : Z) (found : list Subscription) (post_state : option Invocation) : St * (string + option Adapter) :=
  if phase =? 0 then
    let pre := select_adapter st found (suppressed_owner info) 0 k.1 in
    let post := select_adapter st found (suppressed_owner info) 1 k.1 in
    let duplicate := is_some (invocation_at (world st) k) in
    let st := put_invocation st k (mkInvocation pre post [] None) in
    (st, if duplicate then inl "duplicate PRE invocation" else inr pre)
  else
    (st, inr (i ← post_state; a ← inv_post i; if has_row (world st) a && eligible st a (suppressed_owner info) 1 k.1 then Some a else None)).
(** A dropped proposal is a named refusal, unless something else failed. *)
Definition named (dropped : option string) (r : St * (string + unit)) : St * (string + unit) :=
  match r.2, dropped with inr _, Some e => (r.1, inl e) | _, _ => r end.
Definition finish_dispatch (st : St) (k : Z * Z) (info : FrameInfo) (phase : Z) (subs_ : list Subscription) (post_state : option Invocation) (a : option Adapter) : St * (string + unit) :=
  let carried := i ← post_state; inv_proposal i in
  let dropped := if is_some carried && negb (is_some a) then Some "carried PRE proposal dropped: POST adapter no longer eligible" else None in
  let forced_ := if is_some a then carried else None in
  if is_nil subs_ && negb (is_some forced_) then named dropped (st, inr tt)
  else if existsb (fun s => negb (sub_generic s)) subs_ && negb (is_some a) then (st, inl "no eligible synchronous package adapter instance")
  else if (phase =? 1) && negb (is_some post_state) then (st, inr tt)
  else
    match match head subs_ with Some s => Some (sub_binding s) | None => snd <$> forced_ end with
    | None => (st, inl "unreachable")
    | Some b =>
        if negb (binding_is_live (reg (world st)) b) then (st, inl "binding owner generation unavailable")
        else if negb (Z.of_nat (length (s_parameters (fn_abi (b_function b)))) =? parameter_count info) then (st, inl "frame parameter count mismatch")
        else if deferred env (log st) && negb (nested env (log st)) then (st, inr tt)
        else match validate_frame k.1 info phase (s_fingerprint (fn_abi (b_function b))) with
             | inl e => (st, inl e)
             | inr _ => named dropped (run_dispatch st (mkPart k.1 info phase b a subs_ (map_now (world st))) k (mkCells 0 ∅ ∅ ∅ forced_))
             end
    end.
Definition dispatch_inner (st : St) (target : Z) (info : FrameInfo) (phase : Z) : St * (string + unit) :=
  let k := (target, invocation_id info) in
  match scope_enter env (log st) with
  | Some e => (st, inl e)
  | None =>
      if negb (meta_ok target info phase) then (st, inl "invalid frame metadata")
      else
        let post_state := if phase =? 1 then invocation_at (world st) k else None in
        let st := if phase =? 1 then take_invocation st k else st in
        match (let* bytes := bookkeeping (world st) target in match bytes ≫= reserve env (log st) with Some e => inl e | None => inr tt end) with
        | inl e => (st, inl e)
        | inr _ =>
            let found := filterb (selected_subscriber st target phase (suppressed_owner info)) (rows (world st)) in
            match pick_adapter st k info phase found post_state with
            | (st, inl e) => (st, inl e)
            | (st, inr a) => finish_dispatch st k info phase (filterb (fun s => sub_phase s =? phase) found) post_state a
            end
        end
  end.
End Nested.

Fixpoint dispatch (fuel : nat) (st : St) (target : Z) (info : FrameInfo) (phase : Z) : St * (string + unit) :=
  match fuel with
  | O => (st, inl "callback stack exhausted")
  | S fuel => dispatch_inner (dispatch fuel) st target info phase
  end.
End Machine.
End FunctionDispatch.
