(* ===== verification/AdapterInvariant.v ===== *)
(** What always holds of bindings, adapters and subscriptions ([FunctionAdapter.reachable]).

    [inv] is the invariant; [torn] is what a teardown may do: take rows away, closed under the rows that
    depend on each other, and take their entries out of the ledgers. Every teardown is [torn], and a [torn]
    world keeps the invariant, so each operation's proof only adds what it inserts. *)
From S2P Require Import Prelude.
From S2P Require Import Results.
From S2P Require Import BTree.
From S2P Require Import ResourceLedger.
From S2P Require Import EntityLive.
From S2P Require Import EngineContract.
From S2P Require Import EngineInstance.
From S2P Require Import EngineProjection.
From S2P Require Import EngineRegistry.
From S2P Require Import RegistryInvariant.
From S2P Require Import FunctionAdapter.
Import EngineContract.EngineContract.
Import EngineInstance.EngineInstance.
Import EngineProjection.EngineProjection.
Import EngineRegistry.EngineRegistry.
Import RegistryInvariant.RegistryInvariant.
Import FunctionAdapter.FunctionAdapter.

Module AdapterInvariant.
Section Inv.
Context {R : Type} `{LedgerLaws R}.
Notation World := (World R).
Implicit Types w : World.

(** ** The invariant *)
Definition registered (w : World) (o : OwnerKey) : Prop := exists p, packages w !! o_generation o = Some p /\ pk_owner p = o.
Definition row_for (s : Subscription) (a : Adapter) : Prop :=
  sub_instance s = Some (adp_instance a) /\ sub_adapter s = adp_semantic a /\ sub_contract s = mkAdapterContract (adp_semantic a) 1 (adp_hash a).
Definition authorized_for (w : World) (s : Subscription) (i : PackageInstanceKey) : Prop :=
  authorized w !! b_id (sub_binding s) = Some (package_owner i, sub_adapter s, ad_hash (sub_contract s)).

(** [Q] holds of the packages that are registered. *)
Record sub_ok (Q : OwnerKey -> Prop) (w : World) (s : Subscription) : Prop := mkSubOk {
  so_owned : owned (ledger_of w) (sub_owner s) (FunctionSubscription (sub_id s));
  so_target : target_of s <> None;
  so_binding : bindings (reg w) !! b_id (sub_binding s) = Some (sub_binding s);
  so_parent : match sub_instance s with
              | None => sub_generic s = true /\ b_owner (sub_binding s) = sub_owner s
              | Some i => parent i = sub_owner s /\ Q (package_owner i) /\
                          (b_owner (sub_binding s) = package_owner i \/ b_owner (sub_binding s) = sub_owner s)
              end;
  so_generic : sub_generic s = true -> generic (fn_policy (b_function (sub_binding s))) = inr (sub_contract s);
  so_adapter : sub_generic s = false -> exists k a, adapters w !! k = Some a /\ row_for s a;
  so_authorized : sub_generic s = false -> exists i, sub_instance s = Some i /\ authorized_for w s i;
}.
Definition adapter_ok (Q : OwnerKey -> Prop) (w : World) (a : Adapter) : Prop :=
  owned (ledger_of w) (parent (adp_instance a)) (FunctionAdapter (adp_id a)) /\ Q (package_owner (adp_instance a)).
Definition exclusive (s1 s2 : Subscription) : Prop :=
  target_of s1 = target_of s2 ->
  compatible (fn_abi (b_function (sub_binding s1))) (fn_abi (b_function (sub_binding s2))) = true /\
  (observer (sub_generic s1) (sub_mode s1) = true \/ observer (sub_generic s2) (sub_mode s2) = true \/ sub_contract s1 = sub_contract s2).

Record rows_ok (Q : OwnerKey -> Prop) (w : World) : Prop := mkRowsOk {
  iv_subs : forall k s, subs w !! k = Some s -> sub_id s = k /\ k < next (reg w) /\ sub_ok Q w s;
  iv_adapters : forall k a, adapters w !! k = Some a -> adp_id a = k /\ k < next (reg w) /\ adapter_ok Q w a;
  iv_unique : forall k k' a a', adapters w !! k = Some a -> adapters w !! k' = Some a' ->
                adp_instance a = adp_instance a' -> adp_semantic a = adp_semantic a' -> k = k';
  iv_semantics : forall n h, semantics w !! n = Some h <-> exists k a, adapters w !! k = Some a /\ adp_semantic a = n /\ adp_hash a = h;
  iv_authorized : forall k p n h, authorized w !! k = Some (p, n, h) -> Q p /\
                    exists b, bindings (reg w) !! k = Some b /\ (o_kind (b_owner b) = GamePackage -> b_owner b = p);
  iv_exclusive : forall k k' s s', subs w !! k = Some s -> subs w !! k' = Some s' -> k <> k' -> exclusive s s';
}.
Definition packages_ok (w : World) : Prop :=
  forall g p, packages w !! g = Some p -> exists l, lifetimes (reg w) !! g = Some l /\ l_key l = pk_owner p /\ source l = Active.
Record inv (w : World) : Prop := mkInv {
  iv_reg : reg_inv (reg w);
  iv_packages : packages_ok w;
  iv_rows : rows_ok (registered w) w;
}.

Lemma rows_elem w s : s ∈ rows w <-> exists k, subs w !! k = Some s.
Proof. apply elem_of_btree_values. Qed.
Lemma adapter_rows_elem w a : a ∈ adapter_rows w <-> exists k, adapters w !! k = Some a.
Proof. apply elem_of_btree_values. Qed.
Lemma exclusive_sym s1 s2 : exclusive s1 s2 -> exclusive s2 s1.
Proof. unfold exclusive. intros He E. destruct (He (eq_sym E)) as [Hc Ho]. rewrite signatures_compatible_sym. naive_solver. Qed.

(** ** Teardown *)
Definition sem_ok (w : World) : Prop :=
  forall n h, semantics w !! n = Some h <-> exists k a, adapters w !! k = Some a /\ adp_semantic a = n /\ adp_hash a = h.
Definition closed (w : World) : Prop :=
  forall k s, subs w !! k = Some s -> sub_id s = k /\ (sub_generic s = false -> exists j a, adapters w !! j = Some a /\ row_for s a).
(** A resource whose row is gone. *)
Definition stale (w : World) (y : Resource) : Prop :=
  match y with FunctionSubscription k => subs w !! k = None | FunctionAdapter k => adapters w !! k = None | _ => False end.

Record torn0 (w w' : World) : Prop := mkTorn {
  to_reg : next_generation (reg w') = next_generation (reg w) /\ lifetimes (reg w') = lifetimes (reg w) /\ next (reg w') = next (reg w) /\
           receipts (reg w') = receipts (reg w) /\ bindings (reg w') = bindings (reg w) /\ active (reg w') = active (reg w);
  to_same : phases w' = phases w /\ books w' = books w /\ packages w' = packages w /\ tokens w' = tokens w /\ bootstraps w' = bootstraps w /\ authorized w' = authorized w;
  to_subs : subs w' ⊆ subs w;
  to_adapters : adapters w' ⊆ adapters w;
  to_sound : sound (ledger_of w) -> sound (ledger_of w') /\ (forall n, room (ledger_of w) n -> room (ledger_of w') n) /\
             (forall id, generation (ledger_of w') id = generation (ledger_of w) id) /\
             (forall id y, y ∈ held (ledger_of w') id -> y ∈ held (ledger_of w) id) /\
             (forall id y, y ∈ held (ledger_of w) id -> y ∈ held (ledger_of w') id \/ stale w' y);
}.
Definition torn (w w' : World) : Prop := torn0 w w' /\ (sem_ok w -> sem_ok w') /\ (closed w -> closed w').

Lemma torn0_refl w : torn0 w w.
Proof. constructor; try done. intros Hs. split_and!; try done. by left. Qed.

Lemma stale_mono w w' y : subs w' ⊆ subs w -> adapters w' ⊆ adapters w -> stale w y -> stale w' y.
Proof. intros Hs Ha. destruct y; try done; cbn; intros Hn; by eapply lookup_weaken_None. Qed.

Lemma torn0_trans w1 w2 w3 : torn0 w1 w2 -> torn0 w2 w3 -> torn0 w1 w3.
Proof.
  intros [(A1 & A2 & A3 & A4 & A5 & A6) (B1 & B2 & B3 & B4 & B5 & B6) S1 T1 L1] [(A1' & A2' & A3' & A4' & A5' & A6') (B1' & B2' & B3' & B4' & B5' & B6') S2 T2 L2].
  constructor; [split_and!; congruence..|by etrans|by etrans|]. intros Hs. destruct (L1 Hs) as (Hs2 & R1 & G1 & I1 & H1). destruct (L2 Hs2) as (Hs3 & R2 & G2 & I2 & H2).
  split_and!; [done|auto|intros id; by rewrite G2, G1|auto|]. intros id y Hy. destruct (H1 id y Hy) as [Hy'|Hst]; [auto|]. right. by eapply stale_mono.
Qed.
Lemma torn_refl w : torn w w.
Proof. split; [apply torn0_refl|done]. Qed.
Lemma torn_trans w1 w2 w3 : torn w1 w2 -> torn w2 w3 -> torn w1 w3.
Proof. intros (T1 & A1 & C1) (T2 & A2 & C2). split; [by eapply torn0_trans|auto]. Qed.
Lemma torn_fold {A} (f : World -> A -> World) l : (forall w x, torn w (f w x)) -> forall w, torn w (foldl f w l).
Proof. intros Hf. induction l as [|x l IH]; intros w; [apply torn_refl|]. cbn. eapply torn_trans; [apply Hf|apply IH]. Qed.
Lemma torn0_fold {A} (f : World -> A -> World) l : (forall w x, torn0 w (f w x)) -> forall w, torn0 w (foldl f w l).
Proof. intros Hf. induction l as [|x l IH]; intros w; [apply torn0_refl|]. cbn. eapply torn0_trans; [apply Hf|apply IH]. Qed.

Lemma subs_drop_subscription w id : subs (drop_subscription w id) = delete id (subs w).
Proof.
  unfold drop_subscription. destruct (subs w !! id) as [s|] eqn:E; [|by rewrite delete_id]. by destruct (target_of s).
Qed.
Lemma torn0_drop_subscription w id : torn0 w (drop_subscription w id).
Proof.
  unfold drop_subscription. destruct (subs w !! id) as [s|] eqn:E; [|apply torn0_refl].
  destruct (target_of s); (constructor; cbn; [done|done|apply delete_subseteq|done|]; intros Hs; split_and!; try done; by left).
Qed.
Lemma drop_subscription_adapters w id : adapters (drop_subscription w id) = adapters w /\ semantics (drop_subscription w id) = semantics w.
Proof. unfold drop_subscription. destruct (subs w !! id) as [s|]; [|done]. by destruct (target_of s). Qed.

Lemma release_eq w o x :
  release_ w o x = set_reg w (EngineRegistry.EngineRegistry.set_ledger (reg w) (release_resource (ledger_of w) (o_id o) (o_generation o) x).1).
Proof. unfold release_, release, ledger_of. by destruct (release_resource _ _ _ _). Qed.

(** Taking an entry out of the ledger is part of a teardown that drops its row. *)
Lemma torn0_release w w' o x : torn0 (release_ w o x) w' -> stale w' x -> torn0 w w'.
Proof.
  rewrite release_eq. intros [A B S T L] Hx. constructor; [exact A|exact B|exact S|exact T|]. intros Hs. cbn in L.
  destruct (release_any (ledger_of w) (o_id o) (o_generation o) x Hs) as (r & ok & E & Hs' & Hr & Hg & Hi & Hh). rewrite E in L. cbn in L.
  destruct (L Hs') as (Hs1 & R1 & G1 & I1 & H1). split_and!; [done|auto|intros id; by rewrite G1|auto|].
  intros id y Hy. destruct (decide (y = x)) as [->|Hne]; [by right|]. apply H1, Hh; [by right|done].
Qed.
Lemma torn0_release_subscription w o id : torn0 w (drop_subscription (release_ w o (FunctionSubscription id)) id).
Proof.
  apply (torn0_release _ _ o (FunctionSubscription id)); [apply torn0_drop_subscription|]. unfold stale. by rewrite subs_drop_subscription, lookup_delete_eq.
Qed.

Lemma release_subscriptions_spec w o ids :
  let w' := release_subscriptions w o ids in
  torn0 w w' /\ subs w' = without_keys ids (subs w) /\ adapters w' = adapters w /\ semantics w' = semantics w.
Proof.
  cbn. revert w. unfold release_subscriptions, without_keys. induction ids as [|i ids IH]; intros w; cbn; [by split; [apply torn0_refl|]|].
  destruct (IH (drop_subscription (release_ w o (FunctionSubscription i)) i)) as (T & -> & -> & ->).
  destruct (drop_subscription_adapters (release_ w o (FunctionSubscription i)) i) as [-> ->]. rewrite subs_drop_subscription.
  split_and!; [|by rewrite release_eq..]. by eapply torn0_trans; [apply torn0_release_subscription|].
Qed.

(** A teardown of subscriptions alone. *)
Lemma torn_subs w w' : torn0 w w' -> adapters w' = adapters w -> semantics w' = semantics w -> torn w w'.
Proof.
  intros T Ea Es. split; [done|]. split; [unfold sem_ok; by rewrite Ea, Es|]. unfold closed. rewrite Ea. intros Hc k s Hk. apply Hc. by eapply lookup_weaken, (to_subs _ _ T).
Qed.
Lemma torn_drop_subscription w id : torn w (drop_subscription w id).
Proof. destruct (drop_subscription_adapters w id). by apply torn_subs; [apply torn0_drop_subscription|..]. Qed.
Lemma torn_release_subscription w o id : torn w (drop_subscription (release_ w o (FunctionSubscription id)) id).
Proof.
  destruct (drop_subscription_adapters (release_ w o (FunctionSubscription id)) id) as [Ea Es].
  apply torn_subs; [apply torn0_release_subscription|rewrite Ea; by rewrite release_eq|rewrite Es; by rewrite release_eq].
Qed.

(** ** Dropping an adapter: its subscriptions first *)
Definition adapter_gone (w : World) (id : Z) (a : Adapter) : World :=
  let w := set_adapters w (delete id (adapters w)) in
  if existsb (fun b => String.eqb (adp_semantic b) (adp_semantic a)) (adapter_rows w) then w
  else set_semantics w (delete (adp_semantic a) (semantics w)).
Lemma drop_adapter_some w id a : adapters w !! id = Some a ->
  let w1 := adapter_gone w id a in
  let w2 := release_subscriptions w1 (parent (adp_instance a)) (sub_id <$> filterb (through (adp_instance a) (adp_semantic a)) (rows w)) in
  drop_adapter w id = set_invocations w2 (forget_adapter id (rows w2) (invocations w2)).
Proof. intros E. unfold drop_adapter, adapter_gone. rewrite E. by case_match. Qed.
Lemma adapters_drop_adapter w id : adapters (drop_adapter w id) = delete id (adapters w).
Proof.
  destruct (adapters w !! id) as [a|] eqn:E; [|unfold drop_adapter; by rewrite E, delete_id]. rewrite (drop_adapter_some w id a E). cbn.
  destruct (release_subscriptions_spec (adapter_gone w id a) (parent (adp_instance a)) (sub_id <$> filterb (through (adp_instance a) (adp_semantic a)) (rows w))) as (_ & _ & -> & _).
  unfold adapter_gone. by case_match.
Qed.
Lemma subs_drop_adapter w id a : adapters w !! id = Some a ->
  subs (drop_adapter w id) = without_keys (sub_id <$> filterb (through (adp_instance a) (adp_semantic a)) (rows w)) (subs w).
Proof.
  intros E. rewrite (drop_adapter_some w id a E). cbn.
  destruct (release_subscriptions_spec (adapter_gone w id a) (parent (adp_instance a)) (sub_id <$> filterb (through (adp_instance a) (adp_semantic a)) (rows w))) as (_ & -> & _ & _).
  unfold adapter_gone. by case_match.
Qed.
Lemma torn0_drop_adapter w id : torn0 w (drop_adapter w id).
Proof.
  destruct (adapters w !! id) as [a|] eqn:E; [|unfold drop_adapter; rewrite E; apply torn0_refl]. rewrite (drop_adapter_some w id a E). cbn.
  destruct (release_subscriptions_spec (adapter_gone w id a) (parent (adp_instance a)) (sub_id <$> filterb (through (adp_instance a) (adp_semantic a)) (rows w))) as (T & _).
  assert (torn0 w (adapter_gone w id a)) as T1.
  { unfold adapter_gone. case_match; (constructor; cbn; [done|done|done|apply delete_subseteq|]; intros Hs; split_and!; try done; by left). }
  destruct (torn0_trans _ _ _ T1 T) as [A B S T' L]. by constructor.
Qed.

Lemma sem_drop_adapter w id : sem_ok w -> sem_ok (drop_adapter w id).
Proof.
  intros Hs. destruct (adapters w !! id) as [a|] eqn:E; [|unfold drop_adapter; by rewrite E]. unfold sem_ok. rewrite adapters_drop_adapter.
  assert (semantics (drop_adapter w id) = semantics (adapter_gone w id a)) as ->.
  { rewrite (drop_adapter_some w id a E). cbn.
    by destruct (release_subscriptions_spec (adapter_gone w id a) (parent (adp_instance a)) (sub_id <$> filterb (through (adp_instance a) (adp_semantic a)) (rows w))) as (_ & _ & _ & ->). }
  intros n h. setoid_rewrite lookup_delete_Some. unfold adapter_gone.
  destruct (existsb _ _) eqn:Ex; cbn.
  - apply existsb_elem in Ex as (b & Hb & Hn%String.eqb_eq). apply adapter_rows_elem in Hb as [j Hj]. cbn in Hj. apply lookup_delete_Some in Hj as [Hji Hj].
    rewrite (Hs n h). split; [|intros (k & c & [_ Hc] & Hr); eauto]. intros (k & c & Hc & Hn' & Hh). destruct (decide (id = k)) as [<-|Hne]; [|by exists k, c].
    rewrite E in Hc. injection Hc as <-. exists j, b. split_and!; [done|done|congruence|].
    assert (semantics w !! n = Some h) as H1 by (apply Hs; eauto). assert (semantics w !! n = Some (adp_hash b)) as H2 by (apply Hs; exists j, b; split_and!; [done|congruence|done]). congruence.
  - assert (forall k c, adapters w !! k = Some c -> id <> k -> adp_semantic c <> adp_semantic a) as Ha.
    { intros k c Hc Hne En. enough (existsb (fun b => String.eqb (adp_semantic b) (adp_semantic a)) (adapter_rows (set_adapters w (delete id (adapters w)))) = true) by congruence.
      apply existsb_elem. exists c. split; [|by apply String.eqb_eq]. apply adapter_rows_elem. exists k. cbn. by apply lookup_delete_Some. }
    rewrite lookup_delete_Some, (Hs n h). split.
    + intros (Hn & k & c & Hc & Hn' & Hh). exists k, c. split_and!; try done. intros <-. rewrite E in Hc. by simplify_eq.
    + intros (k & c & [Hne Hc] & Hn & Hh). split; [|by exists k, c]. intros <-. by apply (Ha k c).
Qed.
Lemma closed_drop_adapter w id : closed w -> closed (drop_adapter w id).
Proof.
  intros Hc. destruct (adapters w !! id) as [a|] eqn:E; [|unfold drop_adapter; by rewrite E]. intros k s. rewrite adapters_drop_adapter, (subs_drop_adapter w id a E), lookup_without_keys.
  case_decide as Hin; [done|]. intros Hk. destruct (Hc k s Hk) as [Hid Hrow]. split; [done|]. intros Hg. destruct (Hrow Hg) as (j & b & Hj & Hr). exists j, b. split; [|done].
  apply lookup_delete_Some. split; [|done]. intros <-. rewrite E in Hj. injection Hj as <-. apply Hin. rewrite <- Hid. apply list_elem_of_fmap_2, elem_of_filterb. split; [|apply rows_elem; eauto].
  destruct Hr as (Hi & Hn & _). unfold through. by rewrite bool_decide_true, Hn, String.eqb_refl.
Qed.
Lemma torn_drop_adapter w id : torn w (drop_adapter w id).
Proof. split; [apply torn0_drop_adapter|]. split; [apply sem_drop_adapter|apply closed_drop_adapter]. Qed.
Lemma torn_release_adapter w o id : torn w (drop_adapter (release_ w o (FunctionAdapter id)) id).
Proof.
  destruct (torn_drop_adapter (release_ w o (FunctionAdapter id)) id) as (T & S & C). split; [|split].
  - eapply torn0_release; [exact T|]. unfold stale. by rewrite adapters_drop_adapter, lookup_delete_eq.
  - rewrite release_eq in *. exact S.
  - rewrite release_eq in *. exact C.
Qed.
Lemma torn_drop_instance w i : torn w (drop_instance w i).
Proof.
  unfold drop_instance. eapply torn_trans; [|apply torn_fold; intros; apply torn_release_adapter].
  apply torn_fold. intros. apply torn_release_subscription.
Qed.

(** ** What is gone *)
Definition keyed (w : World) : Prop :=
  (forall k s, subs w !! k = Some s -> sub_id s = k) /\ (forall k a, adapters w !! k = Some a -> adp_id a = k).
(** No row satisfies the predicates. *)
Definition none (P : Subscription -> Prop) (Q : Adapter -> Prop) (w : World) : Prop :=
  (forall k s, subs w !! k = Some s -> ~ P s) /\ (forall k a, adapters w !! k = Some a -> ~ Q a).
Lemma keyed_torn w w' : keyed w -> torn0 w w' -> keyed w'.
Proof. intros [Ks Ka] [_ _ S A _]. split; intros k x Hk; [eapply Ks|eapply Ka]; by eapply lookup_weaken. Qed.
Lemma none_torn P Q w w' : none P Q w -> torn0 w w' -> none P Q w'.
Proof. intros [Ns Na] [_ _ S A _]. split; intros k x Hk; [eapply Ns|eapply Na]; by eapply lookup_weaken. Qed.

Lemma adapters_release_adapters w o ids : adapters (release_adapters w o ids) = without_keys ids (adapters w).
Proof.
  revert w. unfold release_adapters, without_keys. induction ids as [|i ids IH]; intros w; cbn; [done|]. rewrite IH, adapters_drop_adapter. by rewrite release_eq.
Qed.
Lemma adapters_drop_adapters w ids : adapters (foldl drop_adapter w ids) = without_keys ids (adapters w).
Proof. revert w. unfold without_keys. induction ids as [|i ids IH]; intros w; cbn; [done|]. by rewrite IH, adapters_drop_adapter. Qed.
Lemma subs_drop_subscriptions w ids : subs (drop_subscriptions w ids) = without_keys ids (subs w).
Proof. revert w. unfold drop_subscriptions, without_keys. induction ids as [|i ids IH]; intros w; cbn; [done|]. by rewrite IH, subs_drop_subscription. Qed.

Lemma drop_instance_gone w i : keyed w -> none (fun s => sub_instance s = Some i) (fun a => adp_instance a = i) (drop_instance w i).
Proof.
  intros [Ks Ka]. unfold drop_instance.
  destruct (release_subscriptions_spec w (parent i) (sub_id <$> filterb (fun s => bool_decide (sub_instance s = Some i)) (rows w))) as (T & Es & Ea & _).
  set (w1 := release_subscriptions _ _ _) in *. split.
  - intros k s Hk Hi. assert (subs w1 !! k = Some s) as Hk1.
    { eapply lookup_weaken; [exact Hk|]. eapply to_subs, (torn_fold (fun w id => drop_adapter (release_ w (parent i) (FunctionAdapter id)) id)). intros; apply torn_release_adapter. }
    rewrite Es in Hk1. apply (without_keys_values _ _ _ _ _ Ks) in Hk1. by apply bool_decide_eq_false in Hk1.
  - intros k a. rewrite adapters_release_adapters. intros Hk. unfold adapter_rows in Hk. rewrite Ea in Hk. apply (without_keys_values _ _ _ _ _ Ka) in Hk. by apply bool_decide_eq_false in Hk.
Qed.
Lemma drop_instances_gone l w i : keyed w -> i ∈ l -> none (fun s => sub_instance s = Some i) (fun a => adp_instance a = i) (foldl drop_instance w l).
Proof.
  revert w. induction l as [|j l IH]; intros w Hk; [by intros ?%not_elem_of_nil|]. intros Hi%elem_of_cons. cbn.
  assert (keyed (drop_instance w j)) as Hk' by (eapply keyed_torn; [done|apply torn_drop_instance]).
  destruct (decide (i ∈ l)) as [Hl|Hl]; [by apply IH|]. destruct Hi as [->|]; [|done].
  eapply none_torn; [exact (drop_instance_gone w j Hk)|]. apply (torn_fold drop_instance). intros; apply torn_drop_instance.
Qed.
Lemma package_instances_gone w owner : keyed w ->
  none (fun s => exists i, sub_instance s = Some i /\ package_owner i = owner) (fun a => package_owner (adp_instance a) = owner)
    (foldl drop_instance w (package_instances w owner)).
Proof.
  intros Hk. assert (torn w (foldl drop_instance w (package_instances w owner))) as [T _] by (apply torn_fold; intros; apply torn_drop_instance).
  split.
  - intros k s Hs (i & Hi & Ho). destruct (drop_instances_gone (package_instances w owner) w i Hk) as [N _]; [|by apply (N k s Hs)].
    unfold package_instances. apply elem_of_app. right. apply elem_of_filterb. split; [by apply bool_decide_true|]. apply list_elem_of_omap. exists s. split; [|done].
    apply rows_elem. exists k. by eapply lookup_weaken, (to_subs _ _ T).
  - intros k a Ha Ho. destruct (drop_instances_gone (package_instances w owner) w (adp_instance a) Hk) as [_ N]; [|by apply (N k a Ha)].
    unfold package_instances. apply elem_of_app. left. apply elem_of_filterb. split; [by apply bool_decide_true|]. apply list_elem_of_fmap_2.
    apply adapter_rows_elem. exists k. by eapply lookup_weaken, (to_adapters _ _ T).
Qed.

(** [drop_owner] before it forgets the authorizations. *)
Definition owner_rows_dropped (w : World) (owner : OwnerKey) : World :=
  let w := drop_subscriptions w (sub_id <$> filterb (fun s => bool_decide (sub_owner s = owner)) (rows w)) in
  foldl drop_adapter w (adp_id <$> filterb (fun a => bool_decide (parent (adp_instance a) = owner)) (adapter_rows w)).
Lemma torn_drop_owner w owner : torn w (owner_rows_dropped w owner).
Proof. unfold owner_rows_dropped. eapply torn_trans; [|apply torn_fold; intros; apply torn_drop_adapter]. apply torn_fold. intros. apply torn_drop_subscription. Qed.
Lemma drop_owner_gone w owner : keyed w -> none (fun s => sub_owner s = owner) (fun a => parent (adp_instance a) = owner) (owner_rows_dropped w owner).
Proof.
  intros [Ks Ka]. unfold owner_rows_dropped. set (w1 := drop_subscriptions _ _).
  assert (torn w w1) as [T _] by (apply torn_fold; intros; apply torn_drop_subscription). split.
  - intros k s Hk Ho. assert (subs w1 !! k = Some s) as Hk1.
    { eapply lookup_weaken; [exact Hk|]. eapply to_subs, (torn_fold drop_adapter). intros; apply torn_drop_adapter. }
    unfold w1 in Hk1. rewrite subs_drop_subscriptions in Hk1. apply (without_keys_values _ _ _ _ _ Ks) in Hk1. by apply bool_decide_eq_false in Hk1.
  - intros k a. rewrite adapters_drop_adapters. intros Hk. apply without_keys_values in Hk; [by apply bool_decide_eq_false in Hk|].
    intros j b Hj. apply Ka. by eapply lookup_weaken, (to_adapters _ _ T).
Qed.
End Inv.
End AdapterInvariant.
