(* ===== verification/AdapterSteps.v ===== *)
(** Every operation on bindings, adapters and subscriptions keeps the invariant ([AdapterInvariant.inv]).

    Operations on the registry leave the rows what they lean on ([inv_grows]); teardown is [torn]
    ([inv_torn]); then what the admission of a subscription and the registration of an adapter insert. *)
From S2P Require Import Prelude.
From S2P Require Import Results.
From S2P Require Import BTree.
From S2P Require Import Plugin.
From S2P Require Import ResourceLedger.
From S2P Require Import EntityLive.
From S2P Require Import EngineContract.
From S2P Require Import EngineInstance.
From S2P Require Import EngineProjection.
From S2P Require Import EngineRegistry.
From S2P Require Import RegistryInvariant.
From S2P Require Import FunctionAdapter.
From S2P Require Import AdapterInvariant.
Import EngineContract.EngineContract.
Import EngineInstance.EngineInstance.
Import EngineProjection.EngineProjection.
Import EngineRegistry.EngineRegistry.
Import RegistryInvariant.RegistryInvariant.
Import FunctionAdapter.FunctionAdapter.
Import AdapterInvariant.AdapterInvariant.

Module AdapterSteps.
Section Steps.
Context {R : Type} `{LedgerLaws R}.
Notation World := (World R).
Implicit Types w : World.

Lemma rows_keyed Q w : rows_ok Q w -> keyed w.
Proof. intros Hi. split; intros k x Hk; [by destruct (iv_subs Q w Hi k x Hk)|by destruct (iv_adapters Q w Hi k x Hk)]. Qed.
Lemma rows_closed Q w : rows_ok Q w -> closed w.
Proof. intros Hi k s Hk. destruct (iv_subs Q w Hi k s Hk) as (? & _ & [_ _ _ _ _ Ha _]). by split. Qed.

Lemma rows_mono (Q Q' : OwnerKey -> Prop) w : (forall o, Q o -> Q' o) -> rows_ok Q w -> rows_ok Q' w.
Proof.
  intros Hq [S A U M Z X]. constructor; try assumption.
  - intros k s Hk. destruct (S k s Hk) as (? & ? & [O T' B P G D V]). split_and!; [done..|]. constructor; try assumption. destruct (sub_instance s); [|done]. naive_solver.
  - intros k a Hk. destruct (A k a Hk) as (? & ? & ? & ?). split_and!; [done..|]. split; auto.
  - intros k p n h Hk. destruct (Z k p n h Hk) as (? & ?). auto.
Qed.

(** The rows stay, and what they lean on. *)
Lemma rows_frame Q Q' w w' :
  rows_ok Q w -> next (reg w) <= next (reg w') -> subs w' = subs w -> adapters w' = adapters w -> semantics w' = semantics w ->
  (forall k s, subs w !! k = Some s -> owned (ledger_of w') (sub_owner s) (FunctionSubscription (sub_id s)) /\
     bindings (reg w') !! b_id (sub_binding s) = Some (sub_binding s) /\ (forall i, sub_instance s = Some i -> Q' (package_owner i)) /\
     (sub_generic s = false -> authorized w' !! b_id (sub_binding s) = authorized w !! b_id (sub_binding s))) ->
  (forall k a, adapters w !! k = Some a -> adapter_ok Q' w' a) ->
  (forall k p n h, authorized w' !! k = Some (p, n, h) -> Q' p /\
     exists b, bindings (reg w') !! k = Some b /\ (o_kind (b_owner b) = GamePackage -> b_owner b = p)) ->
  rows_ok Q' w'.
Proof.
  intros [S A U M Z X] Hn Es Ea Em Hs Ha Hz. constructor; rewrite ?Es, ?Ea, ?Em; try assumption.
  - intros k s Hk. destruct (S k s Hk) as (Hid & ? & [O T B P G D V]). destruct (Hs k s Hk) as (Ho & Hb & Hq & Hau). split_and!; [done|lia|]. constructor; try assumption.
    + destruct (sub_instance s) as [i|]; [|done]. destruct P as (? & _ & ?). split_and!; [done|by apply Hq|done].
    + by rewrite Ea.
    + intros Hg. destruct (V Hg) as (i & Hi & Hau'). exists i. split; [done|]. unfold authorized_for. by rewrite (Hau Hg).
  - intros k a Hk. destruct (A k a Hk) as (? & ? & _). split_and!; [done|lia|by eapply Ha].
Qed.
(** Nothing the rows lean on changes. *)
Lemma rows_same Q w w' :
  rows_ok Q w -> subs w' = subs w -> adapters w' = adapters w -> semantics w' = semantics w -> authorized w' = authorized w ->
  ledger_of w' = ledger_of w -> next (reg w') = next (reg w) -> bindings (reg w') = bindings (reg w) -> rows_ok Q w'.
Proof.
  intros Hi Es Ea Em Eu El En Eb. apply (rows_frame Q Q w); rewrite ?Es, ?Ea, ?Em, ?Eu, ?El, ?En, ?Eb; try done.
  - intros k s Hk. destruct (iv_subs _ w Hi k s Hk) as (_ & _ & [O T' B P G D V]). split_and!; [done..| |done]. intros i E. rewrite E in P. apply P.
  - intros k a Hk. unfold adapter_ok. rewrite El. by destruct (iv_adapters _ w Hi k a Hk) as (_ & _ & ?).
  - apply (iv_authorized _ w Hi).
Qed.
Lemma inv_grows w w' :
  inv w -> reg_inv (reg w') -> grows (reg w) (reg w') -> subs w' = subs w -> adapters w' = adapters w -> semantics w' = semantics w ->
  authorized w' = authorized w -> packages w' = packages w -> inv w'.
Proof.
  intros [Hr Hp Hi] Hr' [Gn Gb Go Gl] Es Ea Em Eu Ep. split; [done| |].
  - intros g p. rewrite Ep. intros Hg. destruct (Hp g p Hg) as (l & Hl & Hkey & Hsrc). destruct (Gl g l Hl) as (l' & Hl' & ? & ?). exists l'. split_and!; [done|congruence..].
  - apply (rows_frame (registered w) _ w); unfold registered; rewrite ?Ep, ?Eu; try done.
    + intros k s Hk. destruct (iv_subs _ w Hi k s Hk) as (_ & _ & [O T B P G D V]). split_and!; [by apply Go|by eapply lookup_weaken, Gb| |done].
      intros i Ei. rewrite Ei in P. apply P.
    + intros k a Hk. destruct (iv_adapters _ w Hi k a Hk) as (_ & _ & Ho & ?). split; [by apply Go|done].
    + intros k p n h Hk. destruct (iv_authorized _ w Hi k p n h Hk) as (? & b & Hb & Ho). split; [done|]. exists b. split; [by eapply lookup_weaken, Gb|done].
Qed.

Lemma torn_owned w w' o x : torn0 w w' -> sound (ledger_of w) -> ~ stale w' x -> owned (ledger_of w) o x -> owned (ledger_of w') o x.
Proof. intros [_ _ _ _ Hl] Hs Hst (? & ? & Hin). destruct (Hl Hs) as (_ & _ & Hg & _ & Hk). split_and!; [done|by rewrite Hg|]. by destruct (Hk _ _ Hin). Qed.

Lemma rows_torn Q w w' : sound (ledger_of w) -> rows_ok Q w -> torn w w' -> rows_ok Q w'.
Proof.
  intros Hso Hi (T & Hsem & Hcl). pose proof T as [(E1 & E2 & E3 & E4 & E5 & E6) (_ & _ & Ep & _ & _ & Eu) Hs Ha _]. pose proof Hi as [S A U M Z X].
  specialize (Hcl (rows_closed Q w Hi)). constructor.
  - intros k s Hk. destruct (S k s) as (Hid & ? & [O Tg B P G D V]); [by eapply lookup_weaken|]. split_and!; [done|by rewrite E3|]. constructor; try assumption.
    + apply (torn_owned w); try done. cbn. by rewrite Hid, Hk.
    + by rewrite E5.
    + apply (Hcl k s Hk).
    + unfold authorized_for. by rewrite Eu.
  - intros k a Hk. destruct (A k a) as (Hid & ? & [? ?]); [by eapply lookup_weaken|]. split_and!; [done|by rewrite E3|]. split; [|done]. apply (torn_owned w); try done. cbn. by rewrite Hid, Hk.
  - intros k k' a a' Hk Hk'. apply U; by eapply lookup_weaken.
  - apply Hsem. exact M.
  - rewrite Eu, E5. exact Z.
  - intros k k' s s' Hk Hk'. apply X; by eapply lookup_weaken.
Qed.
(** The registry of a torn world is the same over a ledger that may have lost entries of dropped rows. *)
Lemma reg_torn w w' s : torn0 w w' -> reg_inv s -> ledger s = ledger_of w -> reg_inv (set_ledger s (ledger_of w')).
Proof.
  intros T Hi E. pose proof T as [_ _ _ _ Hl]. destruct Hl as (Hso & _ & _ & Hincl & _); [rewrite <- E; apply Hi|]. apply reg_inv_ledger; [done..| |intros id k; rewrite E; apply Hincl].
  intros o k. rewrite E. apply torn_owned; [done|rewrite <- E; apply Hi|by intros []].
Qed.
Lemma reg_inv_eq (s s' : State R) :
  reg_inv s -> ledger s' = ledger s -> next_generation s' = next_generation s -> lifetimes s' = lifetimes s -> next s' = next s ->
  receipts s' = receipts s -> bindings s' = bindings s -> active s' = active s -> reg_inv s'.
Proof.
  destruct s, s'; cbn. intros Hi -> -> -> -> -> -> ->. destruct Hi. constructor; assumption.
Qed.
Lemma inv_torn w w' : inv w -> torn w w' -> inv w'.
Proof.
  intros [Hr Hp Hi] T. pose proof T as [T0 _]. pose proof T0 as [(E1 & E2 & E3 & E4 & E5 & E6) (_ & _ & Ep & _ & _ & Eu) Hs Ha _]. split.
  - apply (reg_inv_eq (set_ledger (reg w) (ledger_of w'))); try done. by eapply reg_torn.
  - unfold packages_ok. by rewrite Ep, E2.
  - unfold registered. rewrite Ep. eapply rows_torn; [apply Hr|done..].
Qed.

(** ** Packages leave *)
(** [drop_package] before it drops instances. *)
Definition package_retired (w : World) (owner : OwnerKey) : World :=
  let g := o_generation owner in
  match packages w !! g with
  | Some p => if bool_decide (pk_owner p = owner)
              then set_packages (set_reg w (match lifetimes (reg w) !! g with Some l => set_lifetime (reg w) g (retire_source l) | None => reg w end)) (delete g (packages w))
              else w
  | None => w
  end.
Lemma package_retired_rows w owner :
  let w' := package_retired w owner in
  subs w' = subs w /\ adapters w' = adapters w /\ semantics w' = semantics w /\ authorized w' = authorized w /\ ledger_of w' = ledger_of w /\
  next (reg w') = next (reg w) /\ bindings (reg w') = bindings (reg w) /\ active (reg w') = active (reg w).
Proof. cbn. unfold package_retired. case_match; [|done]. case_match; [|done]. by case_match. Qed.
Lemma reg_package_retired w owner : reg_inv (reg w) -> reg_inv (reg (package_retired w owner)).
Proof.
  intros Hr. unfold package_retired. case_match; [|done]. case_match; [|done]. cbn. case_match eqn:El; [|done].
  eapply reg_inv_lifetime; [done..|]. intros [ids Ha]. destruct (ri_active _ Hr _ _ Ha) as (l & Hl & Hp & _). cbn. congruence.
Qed.
Lemma packages_retired w owner : packages_ok w -> packages_ok (package_retired w owner) /\ forall o, registered (package_retired w owner) o <-> registered w o /\ o <> owner.
Proof.
  intros Hp. unfold package_retired. destruct (packages w !! o_generation owner) as [p|] eqn:E; [destruct (bool_decide _) eqn:Eb|]; bool_to_prop; subst.
  - split.
    + intros g q. cbn. intros [Hne Hq]%lookup_delete_Some. destruct (Hp g q Hq) as (l & Hl & ?). exists l. split; [|done]. cbn. case_match; [|done]. cbn. by rewrite lookup_insert_ne.
    + intros o. unfold registered. cbn. setoid_rewrite lookup_delete_Some. split.
      * intros (q & [Hne Hq] & Ho). split; [by exists q|]. by intros ->.
      * intros [(q & Hq & Ho) Hne]. exists q. split_and!; [|done..]. intros Eg. rewrite <- Eg in Hq. congruence.
  - split; [done|]. intros o. split; [|tauto]. intros Ho. split; [done|]. intros ->. destruct Ho as (q & Hq & ?). congruence.
  - split; [done|]. intros o. split; [|tauto]. intros Ho. split; [done|]. intros ->. destruct Ho as (q & Hq & ?). congruence.
Qed.

Lemma drop_package_eq w owner :
  let w1 := foldl drop_instance (package_retired w owner) (package_instances (package_retired w owner) owner) in
  drop_package w owner = set_authorized w1 (filter (fun kv => kv.2.1.1 <> owner) (authorized w1)).
Proof. reflexivity. Qed.
Lemma drop_package_torn w owner : torn (package_retired w owner) (foldl drop_instance (package_retired w owner) (package_instances (package_retired w owner) owner)).
Proof. apply torn_fold. intros. apply torn_drop_instance. Qed.

(** The rows of the package are gone, and its authorizations. *)
Lemma drop_package_rows Q w owner : sound (ledger_of w) -> rows_ok Q w ->
  rows_ok (fun o => Q o /\ o <> owner) (drop_package w owner) /\
  none (fun s => exists i, sub_instance s = Some i /\ package_owner i = owner) (fun a => package_owner (adp_instance a) = owner) (drop_package w owner).
Proof.
  intros Hs Hi. rewrite drop_package_eq. pose proof (drop_package_torn w owner) as T. set (w1 := foldl _ _ _) in *.
  destruct (package_retired_rows w owner) as (Es & Ea & Em & Eu & El & En & Eb & Eac).
  assert (rows_ok Q (package_retired w owner)) as Hi0. by by apply (rows_same Q w).
  assert (rows_ok Q w1) as Hi1 by (apply (rows_torn Q (package_retired w owner)); [by rewrite El|done..]).
  assert (none (fun s => exists i, sub_instance s = Some i /\ package_owner i = owner) (fun a => package_owner (adp_instance a) = owner) w1) as Hn
    by exact (package_instances_gone (package_retired w owner) owner (rows_keyed Q _ Hi0)).
  split; [|exact Hn]. destruct Hn as [Ns Na]. apply (rows_frame Q _ w1); try done.
  - intros k s Hk. destruct (iv_subs _ w1 Hi1 k s Hk) as (_ & _ & [O T' B P G D V]). split_and!; [done..| |].
    + intros i E. rewrite E in P. destruct P as (_ & ? & _). split; [done|]. intros Ho. apply (Ns k s Hk). by exists i.
    + intros Hg. destruct (V Hg) as (i & E & Hau). unfold authorized_for in Hau. cbn. rewrite Hau. apply map_lookup_filter_Some. split; [done|]. cbn. intros Ho. apply (Ns k s Hk). by exists i.
  - intros k a Hk. destruct (iv_adapters _ w1 Hi1 k a Hk) as (_ & _ & ? & ?). split; [done|]. split; [done|]. by apply (Na k).
  - intros k p n h [Hk Hne]%map_lookup_filter_Some. destruct (iv_authorized _ w1 Hi1 k p n h Hk) as (? & ?). by split.
Qed.

Lemma drop_package_reg w owner :
  let w0 := package_retired w owner in
  torn0 w0 (set_authorized (drop_package w owner) (authorized w0)) /\ packages (drop_package w owner) = packages w0.
Proof.
  cbn. destruct (drop_package_torn w owner) as [[A (B1 & B2 & B3 & B4 & B5 & _) C D L] _]. rewrite drop_package_eq. split; [|exact B3].
  constructor; [exact A|by split_and!|exact C|exact D|exact L].
Qed.
Lemma inv_drop_package w owner : inv w -> inv (drop_package w owner).
Proof.
  intros [Hr Hp Hi]. destruct (drop_package_reg w owner) as [T Ep]. destruct (packages_retired w owner Hp) as [Hp' Hreg].
  destruct (drop_package_rows _ w owner (ri_sound _ Hr) Hi) as [Hi' _]. pose proof T as [(E1 & E2 & E3 & E4 & E5 & E6) _ _ _ _]. split.
  - apply (reg_inv_eq (set_ledger (reg (package_retired w owner)) (ledger_of (drop_package w owner)))); try done.
    apply (reg_torn _ _ _ T); [by apply reg_package_retired|done].
  - intros g p. rewrite Ep. intros Hg. destruct (Hp' g p Hg) as (l & Hl & ?). exists l. split; [|done]. etrans; [|exact Hl]. exact (f_equal (lookup g) E2).
  - eapply rows_mono; [|exact Hi']. intros o Ho. apply Hreg in Ho. unfold registered in *. by rewrite Ep.
Qed.

Lemma registered_kind w o : reg_inv (reg w) -> packages_ok w -> registered w o -> o_kind o = GamePackage.
Proof. intros Hr Hp (p & Hg & <-). destruct (Hp _ _ Hg) as (l & Hl & <- & _). by destruct (ri_lifetimes _ Hr _ _ Hl) as (_ & ? & _). Qed.

(** The active functions of a package are dropped with its rows and its bindings. *)
Lemma drop_functions_some w g ids l :
  active (reg w) !! g = Some ids -> lifetimes (reg w) !! g = Some l ->
  exists c, drop_functions w g =
    let w1 := drop_package (set_reg w (set_lifetime (reg w) g (mkLifetime (l_key l) Retired (source l)))) (l_key l) in
    set_reg w1 (emit (set_active (set_bindings (reg w1) (without_keys (rev ids) (bindings (reg w1)))) (delete g (active (reg w1)))) c).
Proof.
  intros Ha Hl. unfold drop_functions, retire_functions. rewrite Ha, Hl. unfold drop_active.
  set (w1 := drop_package _ _). assert (active (reg w1) = active (reg w)) as ->.
  { destruct (drop_package_reg (set_reg w (set_lifetime (reg w) g (mkLifetime (l_key l) Retired (source l)))) (l_key l)) as [[(_ & _ & _ & _ & _ & E6) _ _ _ _] _].
    etrans; [exact E6|]. by destruct (package_retired_rows (set_reg w (set_lifetime (reg w) g (mkLifetime (l_key l) Retired (source l)))) (l_key l)) as (_ & _ & _ & _ & _ & _ & _ & E). }
  rewrite Ha. destruct (drop_bindings_spec (set_active (reg w1) (delete g (active (reg w)))) (rev ids)) as [c E]. exists c. cbn zeta. f_equal. exact E.
Qed.
Lemma set_lifetime_package_retired w g l l' :
  lifetimes (reg w) !! g = Some l -> o_generation (l_key l) = g -> l_key l' = l_key l ->
  exists l2, lifetimes (reg (package_retired (set_reg w (set_lifetime (reg w) g l')) (l_key l))) = <[g := l2]> (lifetimes (reg w)) /\ l_key l2 = l_key l /\
    next_generation (reg (package_retired (set_reg w (set_lifetime (reg w) g l')) (l_key l))) = next_generation (reg w) /\
    receipts (reg (package_retired (set_reg w (set_lifetime (reg w) g l')) (l_key l))) = receipts (reg w).
Proof.
  intros Hl Hg Hk. unfold package_retired. cbn. rewrite Hg. destruct (packages w !! g) as [p|]; [|by exists l']. destruct (bool_decide _); [|by exists l'].
  cbn. rewrite lookup_insert_eq. cbn. exists (retire_source l'). by rewrite insert_insert_eq.
Qed.
Lemma inv_drop_functions w g : inv w -> inv (drop_functions w g).
Proof.
  intros [Hr Hp Hi]. destruct (active (reg w) !! g) as [ids|] eqn:Ea; [|unfold drop_functions; by rewrite Ea].
  destruct (ri_active _ Hr g ids Ea) as (l & Hl & Hph & Hids). destruct (ri_lifetimes _ Hr g l Hl) as (Hgen & Hkind & _).
  destruct (drop_functions_some w g ids l Ea Hl) as [c ->]. set (wA := set_reg w _). cbn zeta.
  assert (rows_ok (registered w) wA) as HiA by by apply (rows_same _ w).
  assert (packages_ok wA) as HpA.
  { intros g' p Hg'. destruct (Hp g' p Hg') as (l1 & Hl1 & ? & ?). cbn. destruct (decide (g = g')) as [<-|]; [|rewrite lookup_insert_ne by done; eauto].
    rewrite lookup_insert_eq. rewrite Hl in Hl1. injection Hl1 as <-. by eexists. }
  destruct (drop_package_rows _ wA (l_key l) (ri_sound _ Hr) HiA) as [Hi1 [Ns Na]]. destruct (drop_package_reg wA (l_key l)) as [T Ep]. pose proof T as [(E1 & E2 & E3 & E4 & E5 & E6) _ _ _ _].
  destruct (packages_retired wA (l_key l) HpA) as [Hp' Hreg].
  destruct (package_retired_rows wA (l_key l)) as (_ & _ & _ & _ & El & En & Eb & Eac).
  set (w1 := drop_package wA (l_key l)) in *. clearbody w1.
  assert (bindings (reg w1) = bindings (reg w)) as Eb1 by (etrans; [exact E5|exact Eb]).
  assert (active (reg w1) = active (reg w)) as Ea1 by (etrans; [exact E6|exact Eac]).
  split.
  - destruct (set_lifetime_package_retired w g l (mkLifetime (l_key l) Retired (source l)) Hl Hgen eq_refl) as (l2 & El2 & Hk2 & Eng & Erc). fold wA in El2, Eng, Erc.
    pose proof (reg_inv_withdraw _ g ids Hr Ea) as Hw.
    assert (reg_inv (set_ledger (set_lifetime (set_active (set_bindings (reg w) (without_keys (rev ids) (bindings (reg w)))) (delete g (active (reg w)))) g l2) (ledger_of (set_authorized w1 (authorized (package_retired wA (l_key l))))))) as Hx.
    { apply (reg_torn _ _ _ T); [|by rewrite El]. eapply reg_inv_lifetime; [exact Hw|exact Hl|done|]. cbn. rewrite lookup_delete_eq. by intros [? ?]. }
    apply (reg_inv_eq _ _ Hx).
    + done.
    + etrans; [exact E1|exact Eng].
    + etrans; [exact E2|exact El2].
    + etrans; [exact E3|exact En].
    + etrans; [exact E4|exact Erc].
    + exact (f_equal _ Eb1).
    + exact (f_equal _ Ea1).
  - intros g' p. cbn. rewrite Ep. intros Hg'. destruct (Hp' g' p Hg') as (l1 & Hl1 & ?). exists l1. split; [|done]. etrans; [exact (f_equal (lookup g') E2)|exact Hl1].
  - assert (forall o, registered w o /\ o <> l_key l <-> registered (set_reg w1 (emit (set_active (set_bindings (reg w1) (without_keys (rev ids) (bindings (reg w1)))) (delete g (active (reg w1)))) c)) o) as Hq.
    { intros o. etrans; [symmetry; exact (Hreg o)|]. unfold registered. cbn. by rewrite Ep. }
    eapply rows_mono; [intros o; apply (Hq o)|].
    assert (forall k b, bindings (reg w) !! k = Some b -> b_owner b <> l_key l -> without_keys (rev ids) (bindings (reg w1)) !! k = Some b) as Hkeep.
    { intros k b Hb Hne. rewrite lookup_without_keys, Eb1. case_decide as Hk; [|done]. apply list_elem_of_In, in_rev, list_elem_of_In in Hk.
      destruct (Hids k Hk) as (b' & Hb' & Hpk). rewrite Hb in Hb'. injection Hb' as <-. destruct (ri_bindings _ Hr k b Hb) as (_ & _ & Hok). unfold binding_ok in Hok. rewrite Hpk in Hok.
      destruct Hok as (l' & ? & Hl' & Hkey & _). congruence. }
    apply (rows_frame _ _ w1 _ Hi1); try done.
    + intros k s Hk. destruct (iv_subs _ w1 Hi1 k s Hk) as (_ & _ & [O T' B P G D V]). split_and!; [done| | |done].
      * cbn. apply Hkeep; [by rewrite <- Eb1|]. intros Eo. destruct O as (Hkp & _). destruct (sub_instance s) as [i|].
        -- destruct P as (_ & [_ Hne] & [?|?]); congruence.
        -- destruct P as (_ & ?). congruence.
      * intros i E. rewrite E in P. apply P.
    + intros k a Hk. by destruct (iv_adapters _ w1 Hi1 k a Hk) as (_ & _ & ?).
    + intros k p n h Hk. destruct (iv_authorized _ w1 Hi1 k p n h Hk) as ([? Hne] & b & Hb & Ho). split; [done|]. exists b. split; [|done]. cbn. apply Hkeep; [by rewrite <- Eb1|].
      intros Eo. apply Hne. rewrite <- Eo, Ho; [done|]. by rewrite Eo.
Qed.

(** ** Plugins come and go *)
Lemma drop_owner_eq w o : drop_owner w o = set_authorized (owner_rows_dropped w o) (foldr delete (authorized (owner_rows_dropped w o)) (owner_bindings (reg (owner_rows_dropped w o)) o)).
Proof. reflexivity. Qed.
Lemma lookup_foldr_delete {A} (m : gmap Z A) l k : foldr delete m l !! k = if decide (k ∈ l) then None else m !! k.
Proof.
  induction l as [|i l IH]; cbn; [by rewrite decide_False by apply not_elem_of_nil|]. destruct (decide (i = k)) as [->|Hne].
  - by rewrite lookup_delete_eq, decide_True by (apply elem_of_cons; by left).
  - rewrite lookup_delete_ne, IH by done. destruct (decide (k ∈ l)) as [Hk|Hk]; [by rewrite decide_True by (apply elem_of_cons; by right)|].
    rewrite decide_False; [done|]. rewrite elem_of_cons. naive_solver.
Qed.
Lemma elem_of_owner_bindings (s : State R) o k : reg_inv s -> k ∈ owner_bindings s o <-> exists b, bindings s !! k = Some b /\ b_owner b = o.
Proof.
  intros Hr. unfold owner_bindings. rewrite list_elem_of_fmap. split.
  - intros (b & -> & [Ho%bool_decide_eq_true (j & Hj)%elem_of_btree_values]%elem_of_filterb). destruct (ri_bindings s Hr j b Hj) as (-> & _). by exists b.
  - intros (b & Hb & Ho). exists b. destruct (ri_bindings s Hr k b Hb) as (Hid & _). split; [done|]. apply elem_of_filterb. split; [by apply bool_decide_true|].
    apply elem_of_btree_values. by exists k.
Qed.

(** Authorizations of bindings no subscription leans on may go. *)
Lemma rows_authorized Q w m :
  rows_ok Q w -> m ⊆ authorized w -> (forall k s, subs w !! k = Some s -> m !! b_id (sub_binding s) = authorized w !! b_id (sub_binding s)) -> rows_ok Q (set_authorized w m).
Proof.
  intros Hi Hm Hs. apply (rows_frame Q Q w); try done.
  - intros k s Hk. destruct (iv_subs _ w Hi k s Hk) as (_ & _ & [O T' B P G D V]). split_and!; [done..| |by intros; apply (Hs k)]. intros i E. rewrite E in P. apply P.
  - intros k a Hk. by destruct (iv_adapters _ w Hi k a Hk) as (_ & _ & ?).
  - intros k p n h Hk. apply (iv_authorized _ w Hi k p n h). by eapply lookup_weaken.
Qed.
(** The owner of a subscribed binding is the subscription's owner or a game package. *)
Lemma sub_binding_owner w k s : inv w -> subs w !! k = Some s -> b_owner (sub_binding s) = sub_owner s \/ o_kind (b_owner (sub_binding s)) = GamePackage.
Proof.
  intros [Hr Hp Hi] Hk. destruct (iv_subs _ w Hi k s Hk) as (_ & _ & [O T' B P G D V]). destruct (sub_instance s) as [i|]; [|left; apply P].
  destruct P as (_ & Hq & [E|?]); [right|by left]. rewrite E. by eapply registered_kind.
Qed.
Lemma inv_drop_owner w id g : inv w -> inv (drop_owner w (plugin_key id g)).
Proof.
  intros Hi. rewrite drop_owner_eq. set (o := plugin_key id g). pose proof (drop_owner_gone w o (rows_keyed _ _ (iv_rows w Hi))) as [Ns _].
  pose proof (inv_torn w _ Hi (torn_drop_owner w o)) as Hi1. set (w1 := owner_rows_dropped w o) in *. clearbody w1. destruct Hi1 as [Hr Hp Hrows]. split; [done|exact Hp|].
  apply rows_authorized; [exact Hrows|..].
  - apply map_subseteq_spec. intros k x. rewrite lookup_foldr_delete. by case_decide.
  - intros k s Hk. rewrite lookup_foldr_delete. case_decide as Hin; [|done]. apply elem_of_owner_bindings in Hin as (b & Hb & Ho); [|done].
    destruct (iv_subs _ w1 Hrows k s Hk) as (_ & _ & [_ _ B _ _ _ _]). rewrite B in Hb. injection Hb as <-.
    destruct (sub_binding_owner w1 k s (mkInv _ Hr Hp Hrows) Hk) as [E|E]; [destruct (Ns k s Hk); congruence|]. by rewrite Ho in E.
Qed.
Lemma drop_owner_none w id g : inv w ->
  none (fun s => sub_owner s = plugin_key id g) (fun a => parent (adp_instance a) = plugin_key id g) (drop_owner w (plugin_key id g)) /\
  forall k x b, authorized (drop_owner w (plugin_key id g)) !! k = Some x -> bindings (reg (drop_owner w (plugin_key id g))) !! k = Some b -> b_owner b <> plugin_key id g.
Proof.
  intros Hi. rewrite drop_owner_eq. split; [exact (drop_owner_gone w _ (rows_keyed _ _ (iv_rows w Hi)))|].
  pose proof (iv_reg _ (inv_torn w _ Hi (torn_drop_owner w (plugin_key id g)))) as Hr. set (w1 := owner_rows_dropped w _) in *. clearbody w1.
  cbn. intros k x b. rewrite lookup_foldr_delete. case_decide as Hin; [done|]. intros _ Hb Ho. apply Hin. apply elem_of_owner_bindings; [done|]. by exists b.
Qed.

(** Disposing a ledger in order is the teardown of its rows in a world without its bindings. *)
Definition cut (ids : list Z) (w : World) : World := set_reg w (set_bindings (reg w) (without_keys ids (bindings (reg w)))).
Definition binding_ids (l : list Resource) : list Z := omap (fun x => match x with FunctionBinding i => Some i | _ => None end) l.
Lemma elem_of_binding_ids k l : k ∈ binding_ids l <-> FunctionBinding k ∈ l.
Proof.
  unfold binding_ids. rewrite list_elem_of_omap. split; [|by exists (FunctionBinding k)]. intros (x & Hx & E). by destruct x; simplify_eq.
Qed.
Lemma torn_cut w w' ids : torn w w' -> torn (cut ids w) (cut ids w').
Proof.
  intros ([(E1 & E2 & E3 & E4 & E5 & E6) B S A L] & Hs & Hc). split; [|done]. constructor; [|exact B|exact S|exact A|exact L].
  cbn. by rewrite E5.
Qed.
Lemma torn_dispose l w : torn (cut (binding_ids l) w) (foldl dispose_resource w l).
Proof.
  revert w. induction l as [|x l IH]; intros w.
  { cbn. unfold cut, without_keys. cbn. replace (set_reg _ _) with w; [apply torn_refl|]. by destruct w as [[]]. }
  cbn [foldl]. assert (forall w', torn w w' -> binding_ids (x :: l) = binding_ids l -> torn (cut (binding_ids (x :: l)) w) (foldl dispose_resource w' l)) as Hgo.
  { intros w' T ->. eapply torn_trans; [by apply torn_cut|apply IH]. }
  destruct x; cbn [dispose_resource]; try (apply Hgo; [apply torn_refl|done]).
  all: try (apply Hgo; [first [apply torn_drop_subscription|apply torn_drop_adapter]|done]).
  eapply torn_trans; [|apply IH]. unfold cut, drop_binding, without_keys. cbn. destruct (bindings (reg w) !! _) as [b|] eqn:E; cbn.
  - split; [|done]. constructor; try done. intros Hs. split_and!; try done. by left.
  - rewrite delete_id by done. apply torn_refl.
Qed.

(** A plugin's registry row goes with its ledger: [w1] has no rows of it left. *)
Lemma rows_unload w1 r' id g :
  inv w1 -> (forall id', generation r' id' = if decide (id' = id) then None else generation (ledger_of w1) id') ->
  (forall id', held r' id' = if decide (id' = id) then [] else held (ledger_of w1) id') ->
  (generation (ledger_of w1) id <> None -> generation (ledger_of w1) id = Some g) ->
  none (fun s => sub_owner s = plugin_key id g) (fun a => parent (adp_instance a) = plugin_key id g) w1 ->
  (forall k x b, authorized w1 !! k = Some x -> bindings (reg w1) !! k = Some b -> b_owner b <> plugin_key id g) ->
  rows_ok (registered w1) (cut (binding_ids (reverse (held (ledger_of w1) id))) (set_reg w1 (EngineRegistry.EngineRegistry.set_ledger (reg w1) r'))).
Proof.
  intros Hi Hg Hh Hlive [Ns Na] Hau. pose proof Hi as [Hr Hp Hrows].
  assert (forall o x, owned (ledger_of w1) o x -> o_id o = id -> o = plugin_key id g) as Hmine.
  { intros [oid og ok'] x (Hk & Hgen & _) E. cbn in *. subst. rewrite Hgen in Hlive. by injection (Hlive ltac:(done)) as <-. }
  assert (forall o x, owned (ledger_of w1) o x -> o <> plugin_key id g -> owned r' o x) as Hothers.
  { intros o x Ho Hne. destruct (decide (o_id o = id)) as [E|E]; [by destruct Hne; eapply Hmine|]. destruct Ho as (? & ? & ?). split_and!; [done|rewrite Hg; by case_decide|rewrite Hh; by case_decide]. }
  assert (forall k b, bindings (reg w1) !! k = Some b -> b_owner b <> plugin_key id g ->
            without_keys (binding_ids (reverse (held (ledger_of w1) id))) (bindings (reg w1)) !! k = Some b) as Hkeep.
  { intros k b Hb Hne. rewrite lookup_without_keys. case_decide as Hk; [|done]. rewrite elem_of_binding_ids, elem_of_reverse in Hk.
    destruct (ri_held _ Hr id k Hk) as [_ Hx]. destruct (Hx b Hb) as [Epk Eid]. destruct (ri_bindings _ Hr k b Hb) as (_ & _ & Hok). unfold binding_ok in Hok. rewrite Epk in Hok.
    destruct Hne. by eapply Hmine. }
  apply (rows_frame (registered w1) _ w1); try done.
  - intros k s Hk. destruct (iv_subs _ w1 Hrows k s Hk) as (_ & _ & [O T' B P G D V]). split_and!; [apply Hothers; [done|by apply (Ns k)]| | |done].
    + cbn. apply Hkeep; [done|]. destruct (sub_binding_owner w1 k s Hi Hk) as [E|E]; [rewrite E; by apply (Ns k)|]. intros Eo. by rewrite Eo in E.
    + intros i E. rewrite E in P. apply P.
  - intros k a Hk. destruct (iv_adapters _ w1 Hrows k a Hk) as (_ & _ & ? & ?). split; [|done]. apply Hothers; [done|by apply (Na k)].
  - intros k p n h Hk. destruct (iv_authorized _ w1 Hrows k p n h Hk) as (? & b & Hb & Ho). split; [done|]. exists b. split; [|done]. cbn. apply Hkeep; [done|by eapply Hau].
Qed.

Definition unload_owner (w : World) (id : string) : OwnerKey := plugin_key id (default 0 (generation (ledger_of w) id)).
Lemma unload_cases w id : inv w ->
  exists r', unload (ledger_of (drop_owner w (unload_owner w id))) id = Some (r', reverse (held (ledger_of (drop_owner w (unload_owner w id))) id)) /\
    let wc := cut (binding_ids (reverse (held (ledger_of (drop_owner w (unload_owner w id))) id))) (set_reg (drop_owner w (unload_owner w id)) (EngineRegistry.EngineRegistry.set_ledger (reg (drop_owner w (unload_owner w id))) r')) in
    reg_inv (reg wc) /\ rows_ok (registered (drop_owner w (unload_owner w id))) wc.
Proof.
  intros Hi. pose proof (inv_drop_owner w id (default 0 (generation (ledger_of w) id)) Hi) as Hi1. pose proof (drop_owner_none w id (default 0 (generation (ledger_of w) id)) Hi) as [Hn Hau].
  fold (unload_owner w id) in Hi1, Hn, Hau |- *.
  assert (generation (ledger_of (drop_owner w (unload_owner w id))) id = generation (ledger_of w) id) as Hg.
  { destruct (torn_drop_owner w (unload_owner w id)) as [[_ _ _ _ Hl] _]. rewrite drop_owner_eq. cbn. by apply Hl, (iv_reg w Hi). }
  unfold unload_owner in Hn, Hau. set (w1 := drop_owner w (unload_owner w id)) in *. fold (unload_owner w id) in Hn, Hau. fold w1 in Hn, Hau. clearbody w1.
  destruct (unload_live (ledger_of w1) id (ri_sound _ (iv_reg _ Hi1))) as (r' & E & Hs & _ & Hg' & Hh'). exists r'. split; [done|]. cbn zeta. split.
  - refine (reg_inv_unload (reg w1) id r' _ (iv_reg _ Hi1) Hs Hg' Hh' _). intros k. by rewrite elem_of_binding_ids, elem_of_reverse.
  - eapply rows_unload; [done..| |exact Hn|exact Hau]. rewrite Hg. destruct (generation (ledger_of w) id); [done|done].
Qed.
Lemma inv_unload w id : inv w -> inv (unload_plugin w id).
Proof.
  intros Hi. destruct (unload_cases w id Hi) as (r' & E & Hr & Hrows). unfold unload_plugin. fold (unload_owner w id). rewrite E.
  pose proof (inv_drop_owner w id (default 0 (generation (ledger_of w) id)) Hi) as [_ Hp _]. fold (unload_owner w id) in Hp.
  set (w1 := drop_owner w (unload_owner w id)) in *. clearbody w1. set (w2 := set_reg w1 _) in *.
  pose proof (torn_dispose (reverse (held (ledger_of w1) id)) w2) as T. set (w3 := foldl _ _ _) in *. clearbody w3. set (wc := cut _ w2) in *.
  pose proof T as [[(E1 & E2 & E3 & E4 & E5 & E6) (_ & _ & Ep & _) _ _ _] _].
  assert (rows_ok (registered w1) w3) as Hrows3 by (eapply rows_torn; [apply Hr|exact Hrows|exact T]). split.
  - apply (reg_inv_eq (set_ledger (reg wc) (ledger_of w3))); try done. by eapply reg_torn; [apply T|..].
  - intros g p Hg. assert (packages w1 !! g = Some p) as Hg1 by (etrans; [symmetry; exact (f_equal (lookup g) Ep)|exact Hg]). destruct (Hp g p Hg1) as (l & Hl & ?). exists l. split; [|done]. etrans; [exact (f_equal (lookup g) E2)|exact Hl].
  - eapply rows_mono; [|by apply (rows_same _ w3)]. intros o (p & Hg & Ho). exists p. split; [|done]. etrans; [exact (f_equal (lookup _) Ep)|exact Hg].
Qed.
Lemma inv_load w id : inv w -> generation (ledger_of w) id = None -> room (ledger_of w) 1 -> inv (load_plugin w id).
Proof.
  intros Hi Hn Hroom. unfold load_plugin. destruct (load_fresh (ledger_of w) id 0 (ri_sound _ (iv_reg w Hi)) Hroom Hn) as (r' & g & -> & Hs & _ & Hg & Hh).
  assert (forall o x, owned (ledger_of w) o x -> owned r' o x) as Ho.
  { intros o x (? & Hgen & ?). assert (o_id o <> id) by congruence. split_and!; [done|rewrite Hg; by case_decide|rewrite Hh; by case_decide]. }
  apply (inv_grows w); try done.
  - apply reg_inv_ledger; [apply Hi|done|auto|]. intros id' k. rewrite Hh. case_decide; [by intros ?%not_elem_of_nil|done].
  - constructor; cbn; [lia|done|done|eauto].
Qed.

(** ** What comes in *)
Lemma rows_insert_sub Q w s :
  rows_ok Q w -> subs w !! sub_id s = None -> sub_id s < next (reg w) -> sub_ok Q w s ->
  (forall k s', subs w !! k = Some s' -> exclusive s' s) -> rows_ok Q (set_subs w (<[sub_id s := s]> (subs w))).
Proof.
  intros [S A U M Z X] Hf Hn Hok Hex. constructor; cbn; try assumption.
  - intros k s' [[<- <-]|[_ Hk]]%lookup_insert_Some; [split_and!; [done..|]; destruct Hok; by constructor|]. destruct (S k s' Hk) as (? & ? & []). split_and!; [done..|]. by constructor.
  - intros k k' s1 s2 [[<- <-]|[_ H1]]%lookup_insert_Some [[<- <-]|[_ H2]]%lookup_insert_Some Hne; [done|by apply exclusive_sym, (Hex k')|by apply (Hex k)|by apply (X k k')].
Qed.
Lemma rows_insert_adapter Q w a :
  rows_ok Q w -> adapters w !! adp_id a = None -> adp_id a < next (reg w) -> adapter_ok Q w a ->
  (forall k a', adapters w !! k = Some a' -> adp_instance a' = adp_instance a -> adp_semantic a' <> adp_semantic a) ->
  (forall h, semantics w !! adp_semantic a = Some h -> h = adp_hash a) ->
  rows_ok Q (set_adapters (set_semantics w (<[adp_semantic a := adp_hash a]> (semantics w))) (<[adp_id a := a]> (adapters w))).
Proof.
  intros [S A U M Z X] Hf Hn Hok Hun Hse. constructor; cbn; try assumption.
  - intros k s Hk. destruct (S k s Hk) as (? & ? & [O T' B P G D V]). split_and!; [done..|]. constructor; try assumption.
    intros Hg. destruct (D Hg) as (j & b & Hj & Hr). exists j, b. split; [|done]. cbn. rewrite lookup_insert_ne; [done|]. intros <-. congruence.
  - intros k a' [[<- <-]|[_ Hk]]%lookup_insert_Some; [by split_and!|]. by apply A.
  - intros k k' a1 a2 [[<- <-]|[_ H1]]%lookup_insert_Some [[<- <-]|[_ H2]]%lookup_insert_Some Hi Hs; [done| | |by apply (U k k' a1 a2)].
    + by destruct (Hun k' a2 H2 (eq_sym Hi)).
    + by destruct (Hun k a1 H1 Hi).
  - intros n h. rewrite lookup_insert_Some. setoid_rewrite lookup_insert_Some. rewrite (M n h). split.
    + intros [[<- <-]|[Hne (k & b & Hk & ? & ?)]]; [exists (adp_id a), a; tauto|]. exists k, b. split_and!; [|done..]. right. split; [|done]. intros <-. congruence.
    + intros (k & b & [[<- <-]|[Hne Hk]] & Hs & Hh); [by left|]. destruct (decide (adp_semantic a = n)) as [E|E]; [left|right; split; [done|by exists k, b]].
      split; [done|]. symmetry. apply Hse. rewrite E. apply M. by exists k, b.
Qed.

Lemma record_cases (s : State R) o x : reg_inv s -> room (ledger s) 1 ->
  record s o x = (s, false) \/
  exists r', record s o x = (set_ledger s r', true) /\ generation (ledger s) (o_id o) = Some (o_generation o) /\ sound r' /\
    (forall id, generation r' id = generation (ledger s) id) /\
    (forall id, held r' id = if decide (id = o_id o) then held (ledger s) (o_id o) ++ [x] else held (ledger s) id).
Proof.
  intros Hr Hroom. unfold record. destruct (decide (generation (ledger s) (o_id o) = Some (o_generation o))) as [Hg|Hg].
  - destruct (record_live _ _ _ x 0 (ri_sound s Hr) Hroom Hg) as (r' & -> & Hs & _ & G & Hh). right. exists r'. split_and!; try done.
    intros id. rewrite G. case_decide as E; [by rewrite E|done].
  - rewrite (record_dead _ _ _ x Hg). left. by destruct s.
Qed.
(** Recording what is not a binding, under a new id. *)
Lemma inv_recorded w n r' o x :
  inv w -> next (reg w) <= n -> sound r' -> (forall k, x <> FunctionBinding k) ->
  (forall id, generation r' id = generation (ledger_of w) id) ->
  (forall id, held r' id = if decide (id = o_id o) then held (ledger_of w) (o_id o) ++ [x] else held (ledger_of w) id) ->
  inv (set_reg w (EngineRegistry.EngineRegistry.set_ledger (set_next (reg w) n) r')).
Proof.
  intros Hi Hn Hs Hx Hg Hh. assert (forall o y, owned (ledger_of w) o y -> owned r' o y) as Ho.
  { intros o' y (? & ? & ?). split_and!; [done|by rewrite Hg|]. rewrite Hh. case_decide as E; [apply elem_of_app; left; by rewrite <- E|done]. }
  apply (inv_grows w); try done.
  - apply reg_inv_ledger; [by apply reg_inv_next; [apply Hi|]|done|intros; by apply Ho|]. intros id k. rewrite Hh. cbn. case_decide as E; [|done].
    rewrite E. intros [?|Hk%list_elem_of_singleton]%elem_of_app; [done|]. by destruct (Hx k).
  - constructor; cbn; [done|done|auto|eauto].
Qed.
Lemma inv_calls w c : inv w -> inv (set_reg w (emit (reg w) c)).
Proof. intros Hi. apply (inv_grows w); try done; [apply reg_inv_emit, Hi|]. constructor; cbn; [lia|done|done|eauto]. Qed.
Lemma inv_next_calls w n c : inv w -> next (reg w) <= n -> inv (set_reg w (emit (set_next (reg w) n) c)).
Proof. intros Hi Hn. apply (inv_grows w); try done; [by apply reg_inv_emit, reg_inv_next; [apply Hi|]|]. constructor; cbn; [lia|done|done|eauto]. Qed.

Lemma conflicts_exclusive b c generic m s s' :
  conflicts b c generic m s = false -> sub_binding s' = b -> sub_contract s' = c -> sub_generic s' = generic -> sub_mode s' = m -> exclusive s s'.
Proof.
  unfold conflicts. intros Hc <- <- <- <- E. rewrite bool_decide_true in Hc by exact E. cbn in Hc. apply orb_false_iff in Hc as [Hc Ho]. apply negb_false_iff in Hc. split; [done|].
  destruct (observer (sub_generic s) _), (observer (sub_generic s') _); [by left|by left|by right; left|]. right; right. cbn in Ho. bool_to_prop. done.
Qed.
Lemma inv_insert_subscription w owner inst b adapter c m generic ph receiver wrapper hook :
  inv w -> room (ledger_of w) 1 ->
  (forall id w', subs w' = subs w -> adapters w' = adapters w -> authorized w' = authorized w -> packages w' = packages w -> bindings (reg w') = bindings (reg w) ->
     b_target b <> None -> owned (ledger_of w') owner (FunctionSubscription id) ->
     sub_ok (registered w') w' (mkSubscription id owner inst adapter c m generic ph receiver b wrapper)) ->
  o_kind owner = Plugin -> inv (insert_subscription w owner inst b adapter c m generic ph receiver wrapper hook).1.
Proof.
  intros Hi Hroom Hok Hkind. unfold insert_subscription. destruct (b_target b) as [t|] eqn:Et; [|done].
  unfold validate_subscription_domain. destruct (find _ _) eqn:Ef; [done|]. destruct hook; [done|]. cbn.
  unfold next_id. cbn. destruct (next (reg w) =? u64_max); [by apply inv_calls, inv_calls|].
  assert (reg_inv (set_next (emit (reg w) [HookAcquire t]) (next (reg w) + 1))) as Hr by (apply reg_inv_next; [apply reg_inv_emit, Hi|cbn; lia]).
  destruct (record_cases _ owner (FunctionSubscription (next (reg w))) Hr Hroom) as [->|(r' & -> & Hlive & Hs & Hg & Hh)]; cbn [fst].
  { apply (inv_next_calls (set_reg w (emit (reg w) [HookAcquire t]))); [by apply inv_calls|cbn; lia]. }
  pose proof (inv_recorded (set_reg w (emit (reg w) [HookAcquire t])) (next (reg w) + 1) r' owner (FunctionSubscription (next (reg w)))
                (inv_calls w _ Hi) ltac:(cbn; lia) Hs ltac:(done) Hg Hh) as Hi'.
  set (w1 := set_reg _ _) in Hi'. destruct Hi' as [Hr1 Hp1 Hrows1].
  split; [exact Hr1|exact Hp1|]. apply (rows_insert_sub _ w1 (mkSubscription (next (reg w)) owner inst adapter c m generic ph receiver b wrapper) Hrows1).
  - cbn. destruct (subs w !! next (reg w)) as [s|] eqn:E; [|done]. destruct (iv_subs _ w (iv_rows w Hi) _ _ E) as (_ & ? & _). lia.
  - cbn. lia.
  - apply Hok; try done. split_and!; [done|cbn; rewrite Hg; exact Hlive|]. cbn. rewrite Hh, decide_True by done. apply elem_of_app. right. by apply list_elem_of_singleton.
  - intros k s' Hk. eapply (conflicts_exclusive b c generic m); try done. eapply find_none in Ef; [exact Ef|]. apply list_elem_of_In, rows_elem. by exists k.
Qed.

Lemma binding_inr (s : State R) id o b : reg_inv s -> binding s id o = inr b -> bindings s !! b_id b = Some b /\ b_id b = id /\ b_owner b = o.
Proof.
  intros Hr Hb. unfold binding in Hb. succeeds. destruct (bindings s !! id) as [b'|] eqn:E; [|done]. cbn in Hb. case_match; [|done]. injection Hb as <-. bool_to_prop.
  destruct (ri_bindings s Hr id b' E) as (<- & _). by subst.
Qed.
Lemma named_binding_inr (s : State R) o name b : reg_inv s -> named_binding s o name = inr b -> bindings s !! b_id b = Some b /\ b_owner b = o.
Proof. intros Hr Hb. unfold named_binding in Hb. succeeds. by apply binding_inr in Hb as (? & _ & ?). Qed.
Lemma current_owner_inr w ctx o : current_owner w ctx = inr o -> o_kind o = Plugin.
Proof. unfold current_owner. intros Ho. succeeds. by subst. Qed.
Lemma instance_inr w ctx entered token i p : inv w -> instance w ctx entered token = inr (i, p) -> o_kind (parent i) = Plugin /\ registered w (package_owner i).
Proof.
  intros [Hr Hp _] Hi. unfold instance in Hi. succeeds. simplify_eq. split; [cbn; by eapply current_owner_inr|]. cbn.
  match goal with E : packages w !! _ = Some _ |- _ => rename E into Ep end. exists p. split; [|done]. destruct (Hp _ _ Ep) as (l & Hl & <- & _).
  by destruct (ri_lifetimes _ Hr _ _ Hl) as (-> & _).
Qed.

(** ** Operations of plugins and packages *)
Lemma inv_subscribe_generic_binding w owner inst b ph observe_only wrapper hook :
  inv w -> room (ledger_of w) 1 -> o_kind owner = Plugin -> bindings (reg w) !! b_id b = Some b ->
  match inst with
  | None => b_owner b = owner
  | Some i => parent i = owner /\ registered w (package_owner i) /\ b_owner b = package_owner i
  end -> inv (subscribe_generic_binding w owner inst b ph observe_only wrapper hook).1.
Proof.
  intros Hi Hroom Hk Hb Hin. unfold subscribe_generic_binding. destruct (rbind _ _) as [|[m c]] eqn:E; [done|]. succeeds. simplify_eq.
  apply inv_insert_subscription; try done. intros id w' Es Ea Eu Ep Eb Ht Ho. constructor; cbn; try done.
  - by rewrite Eb.
  - destruct inst as [i|]; [|done]. destruct Hin as (? & Hq & ?). split_and!; [done| |by left]. unfold registered in *. by rewrite Ep.
Qed.
Lemma inv_subscribe_generic w ctx owner id ph observe_only wrapper hook :
  inv w -> room (ledger_of w) 1 -> inv (subscribe_generic w ctx owner id ph observe_only wrapper hook).1.
Proof.
  intros Hi Hroom. unfold subscribe_generic. destruct (rbind _ _) as [|b] eqn:E; [done|]. succeeds. bool_to_prop. subst.
  apply binding_inr in E as (? & _ & ?); [|apply Hi]. apply inv_subscribe_generic_binding; try done. by eapply current_owner_inr.
Qed.
Lemma inv_subscribe_package_generic w ctx entered token id ph observe_only wrapper hook :
  inv w -> room (ledger_of w) 1 -> inv (subscribe_package_generic w ctx entered token id ph observe_only wrapper hook).1.
Proof.
  intros Hi Hroom. unfold subscribe_package_generic. destruct (rbind _ _) as [|[i b]] eqn:E; [done|]. succeeds. simplify_eq. destruct a as [i p].
  match goal with E : instance _ _ _ _ = _ |- _ => apply instance_inr in E as [? ?]; [|done] end.
  match goal with E : binding _ _ _ = _ |- _ => apply binding_inr in E as (? & _ & ?); [|apply Hi] end. by apply inv_subscribe_generic_binding.
Qed.

Lemma find_adapter w f a : find f (adapter_rows w) = Some a -> f a = true /\ exists k, adapters w !! k = Some a.
Proof. intros [Hin Hf]%find_some. split; [done|]. by apply adapter_rows_elem, list_elem_of_In. Qed.
Lemma inv_js_subscribe w ctx entered token ni adapter phase_name wrapper receiver hook :
  inv w -> room (ledger_of w) 1 -> inv (js_subscribe w ctx entered token ni adapter phase_name wrapper receiver hook).1.
Proof.
  intros Hi Hroom. unfold js_subscribe. destruct (rbind _ _) as [|[[[[[i b] ph] row] r] m]] eqn:E; [done|]. succeeds. simplify_eq.
  match goal with E : instance _ _ _ _ = inr ?x |- _ => destruct x as [i p]; apply instance_inr in E as [Hkind Hreg]; [|done] end. cbn [fst] in *.
  match goal with E : find _ (adapter_rows w) = Some _ |- _ => apply find_adapter in E as [Hf (j & Hj)] end. bool_to_prop.
  match goal with E : String.eqb _ _ = true |- _ => apply String.eqb_eq in E as Hsem end.
  match goal with E : match ni with _ => _ end = inr b |- _ => rename E into Eb end.
  assert (bindings (reg w) !! b_id b = Some b /\ (b_owner b = package_owner i \/ b_owner b = parent i)) as [Hb Ho].
  { destruct ni; [apply named_binding_inr in Eb as [? ?]|apply binding_inr in Eb as (? & _ & ?)]; try apply Hi; auto. }
  apply inv_insert_subscription; try done. intros id w' Es Ea Eu Ep Eb' Ht Hown. constructor; cbn; try done.
  - by rewrite Eb'.
  - split_and!; [done| |done]. unfold registered in *. by rewrite Ep.
  - intros _. exists j, row. rewrite Ea. split; [done|]. split_and!; cbn; congruence.
  - intros _. exists i. split; [done|]. unfold authorized_for. cbn. rewrite Eu. done.
Qed.

Lemma inv_js_register w ctx entered token semantic hash pre post :
  inv w -> room (ledger_of w) 1 -> inv (js_register w ctx entered token semantic hash pre post).1.
Proof.
  intros Hi Hroom. unfold js_register. destruct (rbind _ _) as [|[i p]] eqn:E; [done|]. succeeds. simplify_eq.
  match goal with E : instance _ _ _ _ = inr _ |- _ => apply instance_inr in E as [Hkind Hreg]; [|done] end. cbn [fst] in *.
  unfold next_id. destruct (next (reg w) =? u64_max); [done|]. bool_to_prop.
  match goal with E : existsb _ (adapter_rows w) = false |- _ => rewrite existsb_none in E; rename E into Hdup end.
  match goal with E : match semantics w !! _ with _ => _ end = true |- _ => rename E into Hsem end.
  assert (reg_inv (set_next (reg w) (next (reg w) + 1))) as Hr by (apply reg_inv_next; [apply Hi|lia]).
  destruct (record_cases _ (parent i) (FunctionAdapter (next (reg w))) Hr Hroom) as [->|(r' & -> & Hlive & Hs & Hg & Hh)]; cbn [fst].
  { pose proof (inv_next_calls w (next (reg w) + 1) [] Hi ltac:(lia)) as Hn. unfold emit in Hn. cbn in Hn. by rewrite app_nil_r in Hn. }
  pose proof (inv_recorded w (next (reg w) + 1) r' (parent i) (FunctionAdapter (next (reg w))) Hi ltac:(lia) Hs ltac:(done) Hg Hh) as Hi'.
  set (w1 := set_reg _ _) in *. destruct Hi' as [Hr1 Hp1 Hrows1].
  split; [exact Hr1|exact Hp1|]. apply (rows_insert_adapter _ w1 (mkAdapter (next (reg w)) (granted p (mkAdapterContract semantic 1 hash)) i semantic hash pre post) Hrows1); cbn.
  - destruct (adapters w !! next (reg w)) as [a|] eqn:E; [|done]. destruct (iv_adapters _ w (iv_rows w Hi) _ _ E) as (_ & ? & _). lia.
  - lia.
  - split; [|exact Hreg]. split_and!; [done|cbn; rewrite Hg; exact Hlive|]. cbn. rewrite Hh, decide_True by done. apply elem_of_app. right. by apply list_elem_of_singleton.
  - intros k a Hk Hin Hse. specialize (Hdup a (proj2 (adapter_rows_elem w a) (ex_intro _ k Hk))). cbn in Hdup. rewrite bool_decide_true, Hse, String.eqb_refl in Hdup by done. done.
  - intros h Eh. rewrite Eh in Hsem. by apply String.eqb_eq in Hsem.
Qed.

Lemma inv_register_package w g e manifest grants x : inv w -> inv (register_package w g e manifest grants x).1.
Proof.
  intros [Hr Hp Hi]. unfold register_package. destruct (lifetimes (reg w) !! g) as [l|] eqn:El; [|done]. destruct (packages w !! g) eqn:Ep; [done|]. cbn [is_some]. destruct e; [done|].
  destruct (claim_source l) as [|l'] eqn:Ec; [done|]. unfold claim_source in Ec. succeeds. subst l'. cbn [fst]. destruct (ri_lifetimes _ Hr g l El) as (Hgen & _ & _).
  assert (forall o, registered w o -> registered (set_packages (set_reg w (set_lifetime (reg w) g (mkLifetime (l_key l) (phase l) Active))) (<[g := mkPackage (l_key l) manifest grants x]> (packages w))) o) as Hq.
  { intros o (p & Hg & Ho). exists p. split; [|done]. cbn. rewrite lookup_insert_ne by congruence. done. }
  split.
  - eapply reg_inv_lifetime; [done|exact El|done|]. intros [ids Ha]. cbn. destruct (ri_active _ Hr g ids Ha) as (l1 & Hl1 & ? & _). congruence.
  - intros g' p. cbn. intros [[<- <-]|[Hne Hg]]%lookup_insert_Some; [rewrite lookup_insert_eq; by eexists|]. rewrite lookup_insert_ne by done. by apply Hp.
  - eapply rows_mono; [exact Hq|]. by apply (rows_same _ w).
Qed.
Lemma inv_authorize_binding w g owner id adapter hash : inv w -> inv (authorize_binding w g owner id adapter hash).1.
Proof.
  intros Hi. unfold authorize_binding. destruct (rbind _ _) as [|a] eqn:E; [done|]. succeeds. subst a. pose proof Hi as [Hr Hp Hrows].
  match goal with E : packages w !! g = Some ?p |- _ => rename E into Ep; rename p into q end.
  match goal with E : binding _ _ _ = inr ?x |- _ => apply binding_inr in E as (Hb & Hid & Ho); [|done]; rename x into b end.
  match goal with E : negb (existsb _ (rows w) && _) = true |- _ => rename E into Hsub end. apply negb_true_iff, andb_false_iff in Hsub.
  assert (registered w (pk_owner q)) as Hq. { exists q. split; [|done]. destruct (Hp _ _ Ep) as (l & Hl & <- & _). by destruct (ri_lifetimes _ Hr _ _ Hl) as (-> & _). }
  split; [exact Hr|exact Hp|]. apply (rows_frame (registered w) _ w); try done.
  - intros k s Hk. destruct (iv_subs _ w Hrows k s Hk) as (_ & _ & [O T' B P G D V]). split_and!; [done..| |]; [intros i Ei; rewrite Ei in P; apply P|].
    intros _. cbn. destruct (decide (id = b_id (sub_binding s))) as [E|]; [|by rewrite lookup_insert_ne]. rewrite E, lookup_insert_eq. destruct Hsub as [Hsub|Hsub].
    + rewrite existsb_none in Hsub. specialize (Hsub s (proj2 (rows_elem w s) (ex_intro _ k Hk))). cbn in Hsub. bool_to_prop. congruence.
    + apply negb_false_iff, bool_decide_eq_true in Hsub. rewrite <- E. by rewrite Hsub.
  - intros k a Hk. by destruct (iv_adapters _ w Hrows k a Hk) as (_ & _ & ?).
  - intros k p n h. cbn. intros [[<- E]|[_ Hk]]%lookup_insert_Some; [|by apply (iv_authorized _ w Hrows k p n h)]. injection E as <- <- <-. split; [done|]. exists b. split; [by rewrite <- Hid|].
    intros Hkind. match goal with E : negb (bool_decide (o_kind owner = GamePackage) && _) = true |- _ => rename E into Hg end.
    rewrite <- Ho, bool_decide_true in Hg by congruence. cbn in Hg. rewrite negb_involutive in Hg. by apply bool_decide_eq_true in Hg.
Qed.

Lemma inv_release_sub w o id : inv w -> inv (drop_subscription (release_ w o (FunctionSubscription id)) id).
Proof. intros Hi. eapply inv_torn; [done|apply torn_release_subscription]. Qed.
Lemma inv_js_dispose w ctx entered token id sub : inv w -> inv (js_dispose w ctx entered token id sub).1.
Proof.
  intros Hi. unfold js_dispose. destruct (rbind _ _); [done|]. destruct (negb _); [done|]. destruct sub; [by apply inv_release_sub|]. eapply inv_torn; [done|apply torn_release_adapter].
Qed.
Lemma inv_facade_dispose w owner id : inv w -> inv (facade_dispose w owner id).1.
Proof.
  intros Hi. pose proof (inv_release_sub w owner id Hi) as Hd. unfold facade_dispose. unfold release_ in Hd. destruct (release _ _ _) as [r [|]] eqn:E; cbn [fst] in *; [done|].
  unfold release in E. pose proof (iv_reg w Hi) as Hr.
  destruct (decide (generation (ledger_of w) (o_id owner) = Some (o_generation owner))) as [Hg|Hg]; [|rewrite (release_dead _ _ _ _ Hg) in E; injection E as <-; by destruct w as [[]]].
  destruct (release_live _ _ _ (FunctionSubscription id) (ri_sound _ Hr) Hg) as (r' & Er & Hs & _ & G & Hh). rewrite Er in E. injection E as <- Hx. apply bool_decide_eq_false in Hx.
  assert (forall i, held r' i = held (ledger_of w) i) as Hh'. { intros i. rewrite Hh. destruct (decide (i = o_id owner)) as [->|]; [|reflexivity]. apply PluginLedger.ledger_remove_last_not_in. exact Hx. }
  assert (forall i, generation r' i = generation (ledger_of w) i) as Hg'. { intros i. rewrite G. destruct (decide (i = o_id owner)) as [->|]; [by symmetry|reflexivity]. }
  apply (inv_grows w); try done.
  - apply reg_inv_ledger; [done..| |intros i k; by rewrite Hh']. intros o k. unfold owned. by rewrite Hg', Hh'.
  - constructor; cbn; [lia|done| |eauto]. intros o x. unfold owned. by rewrite Hg', Hh'.
Qed.
Lemma inv_other w w' : inv w -> reg w' = reg w -> subs w' = subs w -> adapters w' = adapters w -> semantics w' = semantics w -> authorized w' = authorized w -> packages w' = packages w -> inv w'.
Proof. intros Hi Er Es Ea Em Eu Ep. apply (inv_grows w); try done; rewrite Er; [apply Hi|apply grows_refl]. Qed.
Lemma inv_end_bootstrap w ctx token ok : inv w -> inv (end_bootstrap w ctx token ok).1.
Proof.
  intros Hi. unfold end_bootstrap. destruct (tokens w !! token); [|done]. destruct (bootstraps w); [done|]. cbn [fst].
  destruct (_ && _); [by apply (inv_other w)|]. match goal with |- inv (set_bootstraps (drop_instance ?x _) _) => assert (inv x) as Hx by (by apply (inv_other w)); apply (inv_other (drop_instance x p)); try done end.
  eapply inv_torn; [exact Hx|apply torn_drop_instance].
Qed.

Lemma inv_step w o : inv w -> ok_op w o -> room (ledger_of w) (cost w o) -> inv (step w o).
Proof.
  intros Hi Hok Hroom. destruct o; cbn [step ok_op cost] in *.
  - by apply inv_load.
  - by apply inv_unload.
  - by apply (inv_other w).
  - by apply (inv_other w).
  - apply (inv_grows w); try done; [apply reg_inv_mint, Hi|apply grows_mint, Hi].
  - unfold register_with_authorities. case_match; [|done]. case_match; [done|]. by apply inv_register_package.
  - unfold drop_source. case_match; [by apply inv_drop_package|done].
  - apply (inv_grows w); try done; [by apply reg_inv_prepare_owner; [apply Hi|]|apply grows_prepare_owner].
  - apply (inv_grows w); try done; [by apply reg_inv_prepare_package_owner; [apply Hi|]|apply grows_prepare_package_owner].
  - apply (inv_grows w); try done; [apply reg_inv_drop_receipt, Hi|apply grows_drop_receipt].
  - apply (inv_grows w); try done; [by apply reg_inv_activate_owner; [apply Hi|]|by apply grows_activate_owner; [apply Hi|]].
  - apply (inv_grows w); try done; [apply reg_inv_activate_package_owner, Hi|apply grows_activate_package_owner, Hi].
  - by apply inv_drop_functions.
  - by apply inv_authorize_binding.
  - unfold begin_bootstrap. case_match; [by apply (inv_other w)|done].
  - by apply inv_end_bootstrap.
  - by apply inv_drop_owner.
  - by apply inv_js_register.
  - by apply inv_js_subscribe.
  - by apply inv_subscribe_generic.
  - by apply inv_subscribe_package_generic.
  - by apply inv_js_dispose.
  - by apply inv_facade_dispose.
Qed.
Lemma inv_reachable w : reachable w -> inv w.
Proof.
  induction 1 as [r Hs Hn|w o _ IH Hok Hroom]; [|by apply inv_step].
  cbn. split; cbn; [constructor; cbn; try (by intros *; rewrite lookup_empty)| |constructor; cbn; try (by intros *; rewrite lookup_empty)].
  - done.
  - intros id k. destruct (Hn id) as [_ ->]. by intros ?%not_elem_of_nil.
  - intros g p. cbn. by rewrite lookup_empty.
  - intros n h. rewrite lookup_empty. setoid_rewrite lookup_empty. naive_solver.
Qed.
End Steps.
End AdapterSteps.
