(* ===== verification/AdapterProperties.v ===== *)
(** What bindings, adapters and subscriptions promise, in every reachable world. *)
From stdpp Require Import pretty.
From S2P Require Import Prelude.
From S2P Require Import Results.
From S2P Require Import BTree.
From S2P Require Import Liveness.
From S2P Require Import Plugin.
From S2P Require Import ResourceLedger.
From S2P Require Import EntityLive.
From S2P Require Import EngineContract.
From S2P Require Import EngineInstance.
From S2P Require Import EngineProjection.
From S2P Require Import EngineRegistry.
From S2P Require Import RegistryInvariant.
From S2P Require Import FunctionAdapter.
From S2P Require Import AdapterInvariant.
From S2P Require Import AdapterSteps.
Import EngineContract.EngineContract.
Import EngineInstance.EngineInstance.
Import EngineProjection.EngineProjection.
Import EngineRegistry.EngineRegistry.
Import RegistryInvariant.RegistryInvariant.
Import FunctionAdapter.FunctionAdapter.
Import AdapterInvariant.AdapterInvariant.
Import AdapterSteps.AdapterSteps.

Module AdapterProperties.
Section Properties.
Context {R : Type} `{LedgerLaws R}.
Notation World := (World R).
Implicit Types w : World.

(** A subscription's binding is live: a plugin's through its owner, a package's through its functions and source. *)
Lemma subscribed_live w k s : inv w -> subs w !! k = Some s -> binding_is_live (reg w) (sub_binding s) = true.
Proof.
  intros [Hr Hp Hi] Hk. destruct (iv_subs _ w Hi k s Hk) as (_ & _ & [[Hkind [Hgen _]] T' B P G D V]).
  pose proof (binding_kind _ _ _ Hr B) as Hbk. destruct (ri_bindings _ Hr _ _ B) as (_ & _ & Hok). unfold binding_ok in Hok. unfold binding_is_live, live.
  destruct (b_package (sub_binding s)) as [g|]; [|by apply owner_is_live_true, Hok].
  destruct Hok as (l & ids & Hl & Hkey & Ha & _). destruct (ri_active _ Hr g ids Ha) as (l' & Hl' & Hph & _). rewrite Hl in Hl'. injection Hl' as <-. destruct Hbk as [Hbk Hbg].
  assert (exists i, b_owner (sub_binding s) = package_owner i /\ registered w (package_owner i)) as (i & Ei & (p & Hpk & Hpo)).
  { destruct (sub_instance s) as [i|]; [destruct P as (_ & ? & [?|?]); [by exists i|congruence]|destruct P; congruence]. }
  destruct (Hp _ _ Hpk) as (l2 & Hl2 & _ & Hsrc). rewrite <- Ei, Hbg, Hl in Hl2. injection Hl2 as <-. rewrite Hl, Hph, Hsrc, !bool_decide_true by done. done.
Qed.

(** C15. Hooks of one engine function never disagree about it: two subscriptions of one target have compatible
    signatures, and unless one is a generic observer they share one adapter contract. *)
Theorem function_domains_exclusive w k k' s s' :
  reachable w -> subs w !! k = Some s -> subs w !! k' = Some s' -> k <> k' -> target_of s = target_of s' ->
  compatible (fn_abi (b_function (sub_binding s))) (fn_abi (b_function (sub_binding s'))) = true /\
  (observer (sub_generic s) (sub_mode s) = true \/ observer (sub_generic s') (sub_mode s') = true \/ sub_contract s = sub_contract s').
Proof. intros Hw Hk Hk' Hne. by apply (iv_exclusive _ _ (iv_rows w (inv_reachable w Hw)) k k'). Qed.

(** C16. Every subscription is backed: its plugin's generation is live and its ledger holds it, its binding is
    published, live and has a target; a package's subscription has the package registered, and one through a
    package adapter has the adapter's row with the contract hash it was authorized for. *)
Theorem function_rows_backed w k s :
  reachable w -> subs w !! k = Some s ->
  owned (ledger_of w) (sub_owner s) (FunctionSubscription k) /\
  bindings (reg w) !! b_id (sub_binding s) = Some (sub_binding s) /\ binding_is_live (reg w) (sub_binding s) = true /\ target_of s <> None /\
  (forall i, sub_instance s = Some i -> parent i = sub_owner s /\ registered w (package_owner i)) /\
  (sub_generic s = false -> exists i a, sub_instance s = Some i /\ a ∈ adapter_rows w /\ adp_instance a = i /\
     sub_contract s = mkAdapterContract (adp_semantic a) 1 (adp_hash a) /\
     authorized w !! b_id (sub_binding s) = Some (package_owner i, adp_semantic a, adp_hash a)).
Proof.
  intros Hw Hk. pose proof (inv_reachable w Hw) as Hi. pose proof (subscribed_live w k s Hi Hk) as Hlive.
  destruct (iv_subs _ w (iv_rows w Hi) k s Hk) as (<- & _ & [O T' B P G D V]). split_and!; try done.
  - intros i Ei. rewrite Ei in P. by destruct P as (? & ? & _).
  - intros Hg. destruct (D Hg) as (j & a & Hj & Hi' & Hs & Hc). destruct (V Hg) as (i & Ei & Ha). exists i, a. split_and!; [done|apply adapter_rows_elem; eauto|congruence|done|].
    unfold authorized_for in Ha. rewrite Ha, Hs, Hc. done.
Qed.

(** An adapter's semantic name means one contract hash across all packages and plugins, and an instance of a
    package registers it once. *)
Theorem function_semantics_agree w a a' :
  reachable w -> a ∈ adapter_rows w -> a' ∈ adapter_rows w -> adp_semantic a = adp_semantic a' ->
  adp_hash a = adp_hash a' /\ (adp_instance a = adp_instance a' -> a = a').
Proof.
  intros Hw (k & Hk)%adapter_rows_elem (k' & Hk')%adapter_rows_elem Hs. destruct (iv_rows w (inv_reachable w Hw)) as [_ _ U M _ _]. split.
  - assert (semantics w !! adp_semantic a = Some (adp_hash a)) as E1 by (apply M; eauto).
    assert (semantics w !! adp_semantic a = Some (adp_hash a')) as E2 by (apply M; exists k', a'; by split_and!). congruence.
  - intros Hin. assert (k = k') by (by eapply U). congruence.
Qed.

Lemma unload_generation w id : inv w -> generation (ledger_of (unload_plugin w id)) id = None.
Proof.
  intros Hi. destruct (unload_cases w id Hi) as (r' & E & Hr & _). unfold unload_plugin. fold (unload_owner w id). rewrite E.
  pose proof (inv_drop_owner w id (default 0 (generation (ledger_of w) id)) Hi) as Hi1. fold (unload_owner w id) in Hi1.
  destruct (unload_live _ id (ri_sound _ (iv_reg _ Hi1))) as (r2 & E2 & _ & _ & Hg & _). pose proof (eq_trans (eq_sym E) E2) as E3. injection E3 as <-. clear E2.
  set (w1 := drop_owner w (unload_owner w id)) in *. clearbody w1. set (w2 := set_reg w1 _) in *.
  destruct (torn_dispose (reverse (held (ledger_of w1) id)) w2) as [[_ _ _ _ L] _]. destruct (L (ri_sound _ Hr)) as (_ & _ & Hg' & _).
  etrans; [exact (Hg' id)|]. cbn. rewrite Hg. by case_decide.
Qed.
(** C27. Unloading a plugin leaves nothing of it behind: no subscription, no package adapter evaluated for it,
    no binding, no authorization of one. *)
Theorem function_unload_complete w id :
  reachable w ->
  (forall k s, subs (unload_plugin w id) !! k = Some s -> o_id (sub_owner s) <> id) /\
  (forall k a, adapters (unload_plugin w id) !! k = Some a -> o_id (parent (adp_instance a)) <> id) /\
  (forall k b, bindings (reg (unload_plugin w id)) !! k = Some b -> o_kind (b_owner b) = Plugin -> o_id (b_owner b) <> id) /\
  (forall k x, authorized (unload_plugin w id) !! k = Some x -> exists b, bindings (reg (unload_plugin w id)) !! k = Some b).
Proof.
  intros Hw. pose proof (inv_reachable w Hw) as Hi. pose proof (unload_generation w id Hi) as Hg. destruct (inv_unload w id Hi) as [Hr _ Hrows].
  set (w' := unload_plugin w id) in *. clearbody w'. split_and!.
  - intros k s Hk E. destruct (iv_subs _ w' Hrows k s Hk) as (_ & _ & [(_ & Hgen & _) _ _ _ _ _ _]). rewrite E in Hgen. congruence.
  - intros k a Hk E. destruct (iv_adapters _ w' Hrows k a Hk) as (_ & _ & (_ & Hgen & _) & _). rewrite E in Hgen. congruence.
  - intros k b Hk Hkind E. pose proof (binding_kind _ k b Hr Hk) as Hb. destruct (ri_bindings _ Hr k b Hk) as (_ & _ & Hok). unfold binding_ok in Hok.
    destruct (b_package b); [destruct Hb; congruence|]. destruct Hok as (_ & Hgen & _). rewrite E in Hgen. change (ledger (reg w')) with (ledger_of w') in Hgen. congruence.
  - intros k [[p n] h] Hk. destruct (iv_authorized _ w' Hrows k p n h Hk) as (_ & b & Hb & _). by exists b.
Qed.

(** Dropping the active functions of a package withdraws all of it, in every plugin: no subscription or
    adapter of its instances, no binding of its own, no authorization it gave. *)
Theorem function_withdraw_complete w g ids l :
  reachable w -> active (reg w) !! g = Some ids -> lifetimes (reg w) !! g = Some l ->
  (forall k s i, subs (drop_functions w g) !! k = Some s -> sub_instance s = Some i -> package_owner i <> l_key l) /\
  (forall k a, adapters (drop_functions w g) !! k = Some a -> package_owner (adp_instance a) <> l_key l) /\
  (forall k b, bindings (reg (drop_functions w g)) !! k = Some b -> b_owner b <> l_key l) /\
  (forall k p n h, authorized (drop_functions w g) !! k = Some (p, n, h) -> p <> l_key l).
Proof.
  intros Hw Ha Hl. pose proof (inv_reachable w Hw) as Hi. destruct (inv_drop_functions w g Hi) as [Hr' _ _]. pose proof Hi as [Hr _ Hrows].
  destruct (ri_lifetimes _ Hr g l Hl) as (Hgen & Hkind & _). destruct (drop_functions_some w g ids l Ha Hl) as [c E]. cbn zeta in E. rewrite E in *.
  set (wA := set_reg w (set_lifetime (reg w) g _)) in *.
  assert (rows_ok (registered w) wA) as HiA by by apply (rows_same _ w).
  destruct (drop_package_rows _ wA (l_key l) (ri_sound _ Hr) HiA) as [Hi1 [Ns Na]]. set (w1 := drop_package wA (l_key l)) in *. clearbody w1. split_and!.
  - intros k s i Hk Hin Ho. apply (Ns k s Hk). by exists i.
  - intros k a Hk. by apply (Na k).
  - intros k b Hk Ho. pose proof (binding_kind _ k b Hr' Hk) as Hb. destruct (ri_bindings _ Hr' k b Hk) as (_ & _ & Hok). unfold binding_ok in Hok.
    destruct (b_package b) as [g'|]; [|rewrite Ho, Hkind in Hb; done]. destruct Hb as [_ Hb]. destruct Hok as (_ & ids' & _ & _ & Hact & _). cbn in Hact.
    assert (g' = g) as -> by congruence. by rewrite lookup_delete_eq in Hact.
  - intros k p n h Hk. apply (iv_authorized _ w1 Hi1 k p n h Hk).
Qed.

(** C26. Activating a plugin's prepared functions is all or nothing: refused, no binding is published and every
    ledger holds what it held; accepted, each function is published for the owner, live, and recorded in its
    ledger in order, and nobody else's ledger or binding changed. *)
Theorem activation_all_or_nothing w k owner activate :
  reachable w -> room (ledger_of w) (cost w (Activate k owner activate)) ->
  match activate_owner (reg w) k owner activate with
  | (s', inl _) => bindings s' = bindings (reg w) /\ (forall id, held (ledger s') id = held (ledger_of w) id) /\ receipts s' !! k = None
  | (s', inr ids) =>
      exists r, receipts (reg w) !! k = Some r /\ ids = pb_id <$> r_bindings r /\
        (forall id, held (ledger s') id = if decide (id = o_id owner) then held (ledger_of w) id ++ (FunctionBinding <$> ids) else held (ledger_of w) id) /\
        (forall p, p ∈ r_bindings r -> binding s' (pb_id p) owner = inr (published owner None p)) /\
        (forall j, j ∉ ids -> bindings s' !! j = bindings (reg w) !! j)
  end.
Proof.
  intros Hw Hroom. pose proof (iv_reg w (inv_reachable w Hw)) as Hr. pose proof (activate_owner_cases (reg w) k owner activate (ri_sound _ Hr) Hroom) as Hc.
  destruct (activate_owner _ _ _ _) as [s' [e|ids]].
  - destruct Hc as (r' & -> & _ & _ & Hh). destruct (drop_receipt_rows (EngineRegistry.EngineRegistry.set_ledger (reg w) r') k) as (_ & E2 & _ & E4 & _). rewrite E2, E4. split_and!; [done|exact Hh|].
    unfold drop_receipt. cbn. destruct (receipts (reg w) !! k) eqn:E; [|exact E]. cbn. apply lookup_delete_eq.
  - destruct Hc as (r & r' & Er & -> & Hkind & Hlive & -> & Hs & Hg & Hh). exists r. split_and!; [done|done|exact Hh| |].
    + intros p Hp. unfold binding. cbn. assert (foldl (publish owner None) (bindings (reg w)) (r_bindings r) !! pb_id p = Some (published owner None p)) as ->
        by (rewrite lookup_publish by exact (ri_unique _ Hr k r Er); left; by exists p).
      cbn. rewrite bool_decide_true by done. cbn. unfold binding_is_live, live. cbn. rewrite (proj2 (owner_is_live_true r' _ _)); [done|]. by rewrite Hg.
    + intros j Hj. cbn. apply option_eq. intros b. rewrite lookup_publish by exact (ri_unique _ Hr k r Er). split; [|by right].
      intros [(p & Hp & <- & _)|[_ ?]]; [|done]. destruct Hj. by apply list_elem_of_fmap_2.
Qed.
End Properties.
End AdapterProperties.

Module AdapterExamples.
Import AdapterProperties RegistryLedger FunctionAdapter.FunctionAdapter.

Definition physical_pos (t : string) : Position := mkPosition "x" t (mkProjection t 1) None [] None false.
Definition hit_sig : Signature := mkSignature "linux-x86_64-sysv" false None [physical_pos "i32"] (physical_pos "i32") "f" 128 [] [].
Definition hit (id : string) : Function_ :=
  mkFn "hit" id "" (EngineContract.EngineContract.Signature "server" "55" "direct" "identity" validator_default validator_default) hit_sig
    (mkPolicy "generic.v2" 1 "c" ["pre"; "post"] "bypass-own-hooks" "generic") "required" PublicV2.
Definition unproven : Provenance := mkProvenance "" None "" [] "" Pending Pending true.
Definition candidate (owner : string) : PreparedCandidate := mkCandidate None owner [mkPrepared (hit (owner +:+ "::hit")) unproven None].
Definition answer : Answer := fun _ _ => inr (100, Some 9).
Definition hash : string := "0123456789abcdef0123456789abcdef0123456789abcdef0123456789abcdef".

Definition room_check (r : Registry.Registry) (n : nat) : bool :=
  (LiveTable.next_id (Registry.table r) + Z.of_nat n <=? u64_max) && (Z.of_nat (length (Registry.slots r)) + Z.of_nat n <=? 2 ^ 32 - 1) && (Z.of_nat n <=? u64_max)
  && bool_decide (map_Forall (fun _ v => PluginLedger.next_sequence v.2 + Z.of_nat n <= u64_max) (LiveTable.entries (Registry.table r))).
Lemma room_check_room r n : room_check r n = true -> r_room r n.
Proof. unfold room_check. intros Hc. bool_to_prop. split_and!; [assumption..|]. intros id g l Hl. match goal with Hf : map_Forall _ _ |- _ => exact (Hf id (g, l) Hl) end. Qed.
Lemma room_checked (w : World (Z * Registry.Registry)) n : room_check (ledger_of w).2 n = true -> room (ledger_of w) n.
Proof. exact (room_check_room _ _). Qed.
Definition ok_check (w : World (Z * Registry.Registry)) (o : Op) : bool :=
  match o with
  | Load id => negb (is_some (generation (ledger_of w) id))
  | Prepare k _ _ _ | PreparePackage k _ _ _ => negb (is_some (receipts (reg w) !! k))
  | _ => true
  end.
Fixpoint runs (w : World (Z * Registry.Registry)) (os : list Op) : option (World (Z * Registry.Registry)) :=
  match os with
  | [] => Some w
  | o :: os => if ok_check w o && room_check (ledger_of w).2 (cost w o) then runs (step w o) os else None
  end.
Lemma runs_reachable w os w' : reachable w -> runs w os = Some w' -> reachable w'.
Proof.
  revert w. induction os as [|o os IH]; intros w Hw; cbn [runs]; [by intros [= <-]|]. destruct (_ && _) eqn:E; [|done]. bool_to_prop. apply IH. constructor; [done| |by apply room_check_room].
  destruct o; try done; cbn [ok_check ok_op] in *; match goal with |- ?x = None => by destruct x end.
Qed.
Lemma start_reachable : reachable (init (0, Registry.new)).
Proof. constructor; [apply registry_room|]. intros id. split; [|]; unfold generation, held, registry_ledger; cbn; unfold Registry.generation_of, r_held, RegistryLedger.ledger_of, LiveTable.get; cbn; by rewrite lookup_empty. Qed.

Definition p_ctx : context := Some ("p", 1).
Definition pkg : OwnerKey := mkOwner "pkg" 1 GamePackage.
(** A package subscribes its adapter in the context of [p]; [p] observes the same engine function on its own. *)
Definition script : list Op :=
  [Load "p"; Mint "pkg"; Register 1 false "m" [] false; PreparePackage 1 1 (candidate "pkg") answer; ActivatePackage 1 1 (fun _ => None);
   BeginBootstrap "p" 1 1 7; RegisterAdapter p_ctx p_ctx 7 "dmg.v1" hash (Some 5) None; Authorize 1 pkg 1 "dmg.v1" hash;
   Subscribe p_ctx p_ctx 7 (inl "hit") "dmg.v1" "pre" 6 None None; EndBootstrap p_ctx 7 true;
   Prepare 2 "p" (candidate "p") answer; Activate 2 (plugin_key "p" 1) (fun _ => None);
   SubscribeGeneric p_ctx (plugin_key "p" 1) 4 1 true 8 None].
Definition played : World (Z * Registry.Registry) := default (init (0, Registry.new)) (runs (init (0, Registry.new)) script).
Example played_rows : (fun s => (sub_id s, sub_generic s, target_of s)) <$> rows played = [(3, false, Some 100); (5, true, Some 100)].
Proof. vm_compute. reflexivity. Qed.

Lemma played_reachable : reachable played.
Proof. unfold played. destruct (runs _ _) eqn:E; [by eapply runs_reachable, E; apply start_reachable|]. apply start_reachable. Qed.
Example played_subs : ((target_of <$> subs played !! 3), (target_of <$> subs played !! 5)) = (Some (Some 100), Some (Some 100)).
Proof. vm_compute. reflexivity. Qed.

Lemma function_domains_exclusive_witness :
  match subs played !! 3, subs played !! 5 with
  | Some s, Some s' => observer (sub_generic s) (sub_mode s) = true \/ observer (sub_generic s') (sub_mode s') = true \/ sub_contract s = sub_contract s'
  | _, _ => False
  end.
Proof.
  pose proof played_subs as Hp. destruct (subs played !! 3) as [s|] eqn:E; [|discriminate Hp]. destruct (subs played !! 5) as [s'|] eqn:E'; [|discriminate Hp].
  injection Hp as Ht Ht'. exact (proj2 (function_domains_exclusive played 3 5 s s' played_reachable E E' ltac:(discriminate) (eq_trans Ht (eq_sym Ht')))).
Defined.
Lemma function_rows_backed_witness : match subs played !! 3 with Some s => binding_is_live (reg played) (sub_binding s) = true | None => False end.
Proof.
  pose proof played_subs as Hp. destruct (subs played !! 3) as [s|] eqn:E; [|discriminate Hp].
  exact (proj1 (proj2 (proj2 (function_rows_backed played 3 s played_reachable E)))).
Defined.
Example played_adapters : length (adapter_rows played) = 1%nat.
Proof. vm_compute. reflexivity. Qed.
Lemma function_semantics_agree_witness : match adapter_rows played with a :: _ => adp_hash a = adp_hash a | [] => False end.
Proof.
  pose proof played_adapters as Hp. destruct (adapter_rows played) as [|a l] eqn:E; [discriminate Hp|].
  assert (a ∈ adapter_rows played) as Ha by (rewrite E; apply elem_of_cons; by left).
  exact (proj1 (function_semantics_agree played a a played_reachable Ha Ha eq_refl)).
Defined.
Example played_unloads : (rows (unload_plugin played "p"), length (btree_values (bindings (reg (unload_plugin played "p"))))) = ([], 1%nat).
Proof. vm_compute. reflexivity. Qed.
Lemma function_unload_complete_witness : reachable played /\ forall k s, subs (unload_plugin played "p") !! k = Some s -> o_id (sub_owner s) <> "p".
Proof. split; [exact played_reachable|]. exact (proj1 (function_unload_complete played "p" played_reachable)). Defined.
Example played_active : active (reg played) !! 1 = Some [1].
Proof. vm_compute. reflexivity. Qed.
Example played_lifetime : l_key <$> lifetimes (reg played) !! 1 = Some pkg.
Proof. vm_compute. reflexivity. Qed.
Lemma function_withdraw_complete_witness : active (reg played) !! 1 = Some [1] /\ forall k a, adapters (drop_functions played 1) !! k = Some a -> package_owner (adp_instance a) <> pkg.
Proof.
  split; [exact played_active|].
  pose proof played_lifetime as Hl. destruct (lifetimes (reg played) !! 1) as [l|] eqn:El; [|discriminate Hl]. injection Hl as Hl. rewrite <- Hl.
  exact (proj1 (proj2 (function_withdraw_complete played 1 [1] l played_reachable played_active El))).
Defined.
(** The observer outlives the package. *)
Example played_withdrawn : (fun s => sub_id s) <$> rows (drop_functions played 1) = [5].
Proof. vm_compute. reflexivity. Qed.
(** Just before [p] activates its own function. *)
Definition prepared_ : World (Z * Registry.Registry) := default (init (0, Registry.new)) (runs (init (0, Registry.new)) (take 11 script)).
Lemma prepared_reachable : reachable prepared_.
Proof. unfold prepared_. destruct (runs _ _) eqn:E; [by eapply runs_reachable, E; apply start_reachable|]. apply start_reachable. Qed.
Definition activation : State (Z * Registry.Registry) * (string + list Z) := activate_owner (reg prepared_) 2 (plugin_key "p" 1) (fun _ => None).
Example activation_result : activation.2 = inr [4].
Proof. vm_compute. reflexivity. Qed.
Example activation_room : room_check (ledger_of prepared_).2 (cost prepared_ (Activate 2 (plugin_key "p" 1) (fun _ => None))) = true.
Proof. vm_compute. reflexivity. Qed.
Lemma activation_all_or_nothing_witness : exists r, receipts (reg prepared_) !! 2 = Some r /\ [4] = pb_id <$> r_bindings r.
Proof.
  pose proof (activation_all_or_nothing prepared_ 2 (plugin_key "p" 1) (fun _ => None) prepared_reachable (room_checked _ _ activation_room)) as Hc. pose proof activation_result as Hr. unfold activation in Hr.
  destruct (activate_owner _ _ _ _) as [s' [e|ids]]; [discriminate Hr|]. injection Hr as Hr. destruct Hc as (r & H1 & H2 & _). exists r. split; [exact H1|]. rewrite <- Hr. exact H2.
Defined.
End AdapterExamples.
