(* ===== verification/DispatchInvariant.v ===== *)
(** What every dispatch of an engine function hook asks for is admitted ([DispatchProperties]), by induction
    on the nesting: what the engine and V8 are asked ([emits]) and what the overlay holds ([fine]). *)
From S2P Require Import Prelude.
From S2P Require Import Results.
From S2P Require Import BTree.
From S2P Require Import ResourceLedger.
From S2P Require Import EngineContract.
From S2P Require Import EngineInstance.
From S2P Require Import EngineProjection.
From S2P Require Import EngineRegistry.
From S2P Require Import RegistryInvariant.
From S2P Require Import FunctionAdapter.
From S2P Require Import FunctionDispatch.
Import EngineContract.EngineContract.
Import EngineInstance.EngineInstance.
Import EngineProjection.EngineProjection.
Import EngineRegistry.EngineRegistry.
Import RegistryInvariant.RegistryInvariant.
Import FunctionAdapter.FunctionAdapter.
Import FunctionDispatch.FunctionDispatch.

Module DispatchInvariant.
Section Invariant.
Context {R : Type} `{Ledger R}.
Notation World := (World R).
Context (env : Env (R := R)).
Notation St := (St (R := R)).
Notation Event := (Event (R := R)).

(** ** What is admitted *)
(** The bindings a part of a dispatch speaks for. *)
Definition speaks (p : Part) (b : Binding) : Prop := b = p_binding p \/ exists s, s ∈ p_subs p /\ b = sub_binding s.
Definition declared (p : Part) (selector : Z) : Prop := exists b, speaks p b /\ mutable_pre b selector = true.
Definition declared_field (p : Part) (selector field : Z) (e : RecordEdit) : Prop :=
  speaks p (re_binding e) /\ exists row, record_row (re_binding e) selector field = inr row /\ write row = ["pre"].
Definition static (p : Part) (s : Subscription) : Prop :=
  target_of s = Some (f_target p) /\ sub_phase s = f_phase p /\ o_generation (sub_owner s) <> suppressed_owner (f_info p).
Definition calls (w : World) (p : Part) (b : list (string * Z * option Z)) (s : Subscription) : Prop :=
  s ∈ p_subs p /\ static p s /\ is_some (subs w !! sub_id s) = true /\ owner_live w (sub_owner s) = true /\
  (parent_busy (mkSt w b []) (sub_owner s) (f_target p) = false \/ exists a, p_adapter p = Some a /\ parent (adp_instance a) = sub_owner s).
Definition overrides (w : World) (p : Part) (l : Lease) : Prop :=
  exists a, p_adapter p = Some a /\ l_adapter l = true /\ f_phase p = 1 /\ post_authority a = Override /\ parent (adp_instance a) = l_owner l /\
    owner_live w (l_owner l) = true /\ is_active w (l_owner l) = true /\ has_row w a = true /\ has_package w (adp_instance a) = true /\
    authorized w !! b_id (l_binding l) = Some (package_owner (adp_instance a), adp_semantic a, adp_hash a).
Definition admitted (e : Event) : Prop :=
  match e with
  | Called w p b (Some s) => calls w p b s
  | Called w p b None => exists a, p_adapter p = Some a /\ eligible (mkSt w b []) a (suppressed_owner (f_info p)) (f_phase p) (f_target p) = true
  | Write p i _ => f_phase p = 0 /\ declared p i
  | WriteField p i f e => f_phase p = 0 /\ declared_field p i f e
  | Override_ w p l _ => overrides w p l
  | Commit p a _ => f_phase p = 0 /\ 0 <= a <= 3
  end.

(** ** What a step asks for *)
Definition emits (st st' : St) : Prop := exists evs, log st' = log st ++ evs /\ Forall admitted evs /\ busy st' = busy st.
Lemma emits_refl st : emits st st.
Proof. exists []. by rewrite app_nil_r. Qed.
Lemma emits_trans a b c : emits a b -> emits b c -> emits a c.
Proof. intros (x & Ea & Fa & Ba) (y & Eb & Fb & Bb). exists (x ++ y). split_and!; [by rewrite Eb, Ea, app_assoc|by apply Forall_app|congruence]. Qed.
Lemma emits_ask st e : admitted e -> emits st (ask env st e).1.
Proof. intros He. exists [e]. by split_and!; [|repeat constructor|]. Qed.
Lemma emits_note st e : admitted e -> emits st (note env st e).
Proof. apply emits_ask. Qed.
Lemma emits_world st w : emits st (set_world st w).
Proof. exists []. cbn. by rewrite app_nil_r. Qed.

(** What the overlay and a lease hold is declared. *)
Section Body.
Context (fire : St -> Z -> FrameInfo -> Z -> St * (string + unit)) (fired : forall st t i ph, emits st (fire st t i ph).1).
Context (K : Z -> Prop) (KR : Z * Z -> RecordEdit -> Prop) (p : Part).
Context (HK : forall b i, speaks p b -> f_phase p = 0 -> mutable_pre b i = true -> K i).
Context (HS : forall i, i <= SCRATCH_BASE -> K i).
Context (HR : forall i f e, f_phase p = 0 -> declared_field p i f e -> KR (i, f) e).

Definition fine_cells (c : Cells) : Prop := (forall i, is_Some (edits c !! i) -> K i) /\ map_Forall KR (record_edits c).
Definition fine_lease (o : OwnerKey) (l : Lease) : Prop :=
  l_owner l = o /\ speaks p (l_binding l) /\ (forall i, is_Some (pending_edits l !! i) -> K i) /\ map_Forall KR (pending_records l).
Definition fine (o : OwnerKey) (x : St * Cells * Lease) : Prop := fine_cells x.1.2 /\ fine_lease o x.2.
Definition runs (o : OwnerKey) (x y : St * Cells * Lease) : Prop := fine o x -> emits x.1.1 y.1.1 /\ fine o y.

Lemma fine_insert (m : gmap Z (ProjectedValue * string)) i v : (forall j, is_Some (m !! j) -> K j) -> K i -> forall j, is_Some (<[i := v]> m !! j) -> K j.
Proof. intros Hm Hi j. destruct (decide (i = j)) as [->|]; [done|]. rewrite lookup_insert_ne by done. apply Hm. Qed.
Lemma fine_union (m n : gmap Z (ProjectedValue * string)) : (forall j, is_Some (m !! j) -> K j) -> (forall j, is_Some (n !! j) -> K j) -> forall j, is_Some ((m ∪ n) !! j) -> K j.
Proof. intros Hm Hn j. rewrite lookup_union_is_Some. intros [|]; auto. Qed.
Lemma fine_failed o l : fine_lease o l -> fine_lease o (set_failed l).
Proof. done. Qed.
Lemma fine_fail_set o l : fine_lease o l -> fine_lease o (fail_set l).
Proof. unfold fail_set. by case_match. Qed.

Lemma scratch_slot_below b i : is_some (scratch_slot b i) = true -> i <= SCRATCH_BASE.
Proof. unfold scratch_slot. destruct (Z.ltb_spec SCRATCH_BASE i); [done|lia]. Qed.

Lemma check_set_inr st c l id i v r x staged : check_set st p c l id i v = inr (r, x, staged) -> speaks p (l_binding l) ->
  f_phase p = 0 /\ K i /\ (staged = false -> mutable_pre (l_binding l) i = true).
Proof.
  unfold check_set. intros E Hb. succeeds. bool_to_prop. split_and!; [done| |].
  - match goal with Hd : _ || _ = true |- _ => apply orb_true_iff in Hd as [Hd|Hd] end; [by eapply HS, scratch_slot_below|by eapply HK].
  - intros ->. bool_to_prop. match goal with Hd : _ || _ = true |- _ => apply orb_true_iff in Hd as [Hd|Hd]; congruence end.
Qed.
Lemma js_set_runs o st c l id i v : runs o (st, c, l) (js_set env st p c l id i v).
Proof.
  intros [[Hc Hr] (Ho & Hb & Hp & Hq)]. unfold js_set. cbn [fst snd] in *. destruct (check_set st p c l id i v) as [e|[[r x] staged]] eqn:E.
  { split; [apply emits_refl|]. split; [done|]. by apply fine_fail_set. }
  apply check_set_inr in E as (Hph & Hi & Hm); [|done]. destruct staged.
  { split; [apply emits_refl|]. split; [done|]. split_and!; try done. by apply fine_insert. }
  pose proof (emits_ask st (Write p i x)) as He. destruct (ask env st (Write p i x)) as [st' [e|]]; cbn [fst snd] in *.
  - split; [apply He; split; [done|]; exists (l_binding l); auto|]. split; [done|]. by apply fine_fail_set.
  - split; [apply He; split; [done|]; exists (l_binding l); auto|]. split; [|done]. split; [by apply fine_insert|done].
Qed.
Lemma check_record_inr st c l id i f v r e : check_record env st p c l id i f v = inr (r, e) -> speaks p (l_binding l) -> KR (i, f) e.
Proof. unfold check_record. intros E Hb. succeeds. subst. bool_to_prop. apply HR; [done|]. split; [done|]. eexists. eauto. Qed.
Lemma record_set_fine o c l st id i f v : fine_cells c -> fine_lease o l -> let y := record_set env st p c l id i f v in fine_cells y.1 /\ fine_lease o y.2.
Proof.
  intros [Hc Hr] (Ho & Hb & Hp & Hq). unfold record_set. destruct (check_record env st p c l id i f v) as [e|[r e]] eqn:E; [done|].
  split; [done|]. split_and!; try done. cbn. apply map_Forall_insert_2; [|done]. by eapply check_record_inr.
Qed.
Lemma permit_inr st l id a : permit st p l id = inr a -> overrides (world st) p l.
Proof. unfold permit. intros E. succeeds. subst. bool_to_prop. subst. by exists a. Qed.
Lemma override_return_emits st l id v : emits st (override_return env st p l id v).
Proof.
  unfold override_return. destruct (permit st p l id) as [e|a] eqn:E; [apply emits_refl|]. destruct v; [apply emits_refl|].
  apply emits_note. by apply permit_inr in E.
Qed.
Lemma run_act_runs o x a : runs o x (run_act env fire p x a).
Proof.
  destruct x as [[st c] l]. destruct a as [id i v|id i f v|id v|q|t i ph]; cbn [run_act].
  - apply js_set_runs.
  - intros [Hc Hl]. pose proof (record_set_fine o c l st id i f v Hc Hl) as Hf. destruct (record_set env st p c l id i f v) as [c' l'].
    split; [apply emits_refl|exact Hf].
  - intros Hf. split; [apply override_return_emits|exact Hf].
  - intros Hf. split; [apply emits_world|exact Hf].
  - intros Hf. split; [apply fired|exact Hf].
Qed.
Lemma runs_refl o x : runs o x x.
Proof. intros Hf. split; [apply emits_refl|done]. Qed.
Lemma runs_trans o x y z : runs o x y -> runs o y z -> runs o x z.
Proof. intros Hxy Hyz Hx. destruct (Hxy Hx) as [E Hy]. destruct (Hyz Hy) as [E' Hz]. split; [by eapply emits_trans|done]. Qed.
Lemma run_body_runs o x body : runs o x (run_body env fire p x body).
Proof.
  destruct x as [[st c] l]. cbn [run_body]. generalize (body l (world st) (overlay c l)) as acts. intros acts. generalize (st, c, l) as x.
  induction acts as [|a acts IH]; intros x; cbn [foldl]; [apply runs_refl|]. eapply runs_trans; [apply run_act_runs|apply IH].
Qed.
Lemma run_program_runs o q : forall x, runs o x (run_program env fire p x q).1.
Proof.
  induction q as [body returns|body k IH]; intros x; cbn [run_program].
  - pose proof (run_body_runs o x body) as Hr. by destruct (run_body env fire p x body) as [[st c] l].
  - eapply runs_trans; [apply run_body_runs|apply IH].
Qed.
Lemma accept_fine o st c l c' l' : accept_record_edits st c l = inr (c', l') -> fine_cells c -> fine_lease o l ->
  fine_cells c' /\ fine_lease o l' /\ edits c' = edits c /\ pending_edits l' = pending_edits l.
Proof.
  unfold accept_record_edits. intros E [Hc Hr] (Ho & Hb & Hp & Hq). succeeds. subst.
  assert (Hm : forall w, map_Forall KR (pending_records l ∪ record_edits (set_writers c w))) by (intros w; by apply map_Forall_union_2).
  split_and!; [|split_and!; try done; apply map_Forall_empty| |done]; destruct (is_trusted (l_binding l)); try done; split; try done; by apply map_Forall_union_2.
Qed.
Definition ranged (r : string + Decision) : Prop := forall d, r = inr d -> 0 <= d_action d <= 3.
Lemma decision_range l ds b ph au v d pr : decision l ds b ph au v = inr (d, pr) -> 0 <= d_action d <= 3.
Proof.
  unfold decision. intros E. apply rbind_inr in E as (rq & _ & E). destruct (is_thenable v); [done|]. destruct (ph =? 1); [succeeds; by subst|].
  destruct v as [| |z| | |action carried value]; try done.
  - succeeds. by subst.
  - succeeds. subst. cbn. unfold suppresses in *. match goal with H : _ || _ || _ = true |- _ => apply orb_true_iff in H as [H|H] end; bool_to_prop;
      [match goal with H : _ || _ = true |- _ => apply orb_true_iff in H as [H|H] end; bool_to_prop; lia|].
    match goal with H : _ || _ = true |- _ => apply orb_true_iff in H as [H|H] end; bool_to_prop; lia.
  - apply rbind_inr in E as (z & _ & E). cbv zeta in E.
    destruct (match au, carried with Some a, None => if (z =? 1) && (ph =? 0) then Some a else None | _, _ => None end) as [a|]; [succeeds; by subst|].
    succeeds. assert (2 <= z <= 3) by (unfold suppresses in *; match goal with H : _ || _ = true |- _ => apply orb_true_iff in H as [H|H] end; bool_to_prop; lia).
    destruct carried as [tag|]; succeeds; subst; [|by cbn; lia]. unfold carried_delivery in *. destruct tag as [[id i] u]. succeeds. subst.
    bool_to_prop. lia.
Qed.

Lemma open_lease_inr (st : St) o b ad m st' l : open_lease st p o b ad m = (st', inr l) ->
  exists n, st' = set_world st (set_reg (world st) (EngineRegistry.set_next (reg (world st)) n)) /\ l_owner l = o /\ l_binding l = b /\ l_adapter l = ad /\ pending_edits l = ∅ /\ pending_records l = ∅.
Proof.
  unfold open_lease. destruct (next_id (reg (world st))) as [r [e|id]] eqn:E; [done|]. intros [= <- <-]. apply next_id_inr in E as [_ ->]. by eexists.
Qed.
Lemma open_lease_inl (st : St) o b ad m st' e : open_lease st p o b ad m = (st', inl e) -> st' = st.
Proof. unfold open_lease. destruct (next_id (reg (world st))) as [r [e'|id]] eqn:E; [by intros [= <- _]|done]. Qed.
Lemma fine_opened o b (l : Lease) : l_owner l = o -> l_binding l = b -> pending_edits l = ∅ -> pending_records l = ∅ -> speaks p b -> fine_lease o l.
Proof.
  intros Ho Hb Hp Hq Hs. split_and!; [done|by rewrite Hb| |rewrite Hq; apply map_Forall_empty]. intros i. rewrite Hp. unfold StagedEdits. rewrite lookup_empty. by intros [].
Qed.
(** What happens between entering and leaving a callback. *)
Lemma emits_scope (st : St) o t st' : emits (enter st o t) st' -> emits st (leave st').
Proof. intros (x & E & F & B). exists x. split_and!; [exact E|exact F|]. cbn. by rewrite B. Qed.
Lemma emits_left st o t : emits st (leave (enter st o t)).
Proof. apply (emits_scope st o t), emits_refl. Qed.
Lemma fine_commit o c l : fine_cells c -> fine_lease o l -> fine_cells (set_edits c (pending_edits l ∪ edits c)).
Proof. intros [Hc Hr] (_ & _ & Hp & _). split; [by apply fine_union|done]. Qed.
Lemma fine_revision c n : fine_cells c -> fine_cells (set_revision c n).
Proof. done. Qed.

Lemma invoke_wrapper_ok st c s : calls (world st) p (busy st) s -> fine_cells c ->
  let y := invoke_wrapper env fire st p c s in emits st y.1.1 /\ fine_cells y.1.2 /\ ranged y.2.
Proof.
  intros Hcalls Hc. unfold invoke_wrapper. destruct (context_of env (log st) (o_id (sub_owner s))); [|split_and!; [apply emits_refl|done|done]].
  destruct (open_lease _ _ _ _ _ _) as [st1 [e|l]] eqn:Eo.
  { apply open_lease_inl in Eo as ->. split_and!; [apply emits_left|done|done]. }
  apply open_lease_inr in Eo as (n & -> & Ho & Hb & Ha & Hp & Hq). cbn [tail enter set_busy set_world busy].
  set (st2 := note env _ _). assert (E2 : emits (enter st (sub_owner s) (f_target p)) st2) by (eapply emits_trans; [apply emits_world|]; apply emits_note; exact Hcalls).
  assert (Hl : fine (sub_owner s) (st2, c, l)).
  { split; [done|]. eapply fine_opened; [done..|]. right. exists s. split; [apply Hcalls|done]. }
  pose proof (run_program_runs (sub_owner s) (callback env (sub_wrapper s)) (st2, c, l) Hl) as Hrun.
  destruct (run_program env fire p (st2, c, l) _) as [[[st3 c3] l3] returned]. destruct Hrun as [E3 [Hc3 Hl3]]. cbn [fst snd] in *.
  assert (E : emits st (leave st3)) by (eapply emits_scope, emits_trans; [exact E2|exact E3]).
  destruct (wrapper_decision s (f_phase p) l3 returned) as [e|d] eqn:Ed.
  - split_and!; [exact E|by case_match|done].
  - assert (Hd : 0 <= d_action d <= 3).
    { unfold wrapper_decision in Ed. succeeds. subst. match goal with H : decision _ _ _ _ _ _ = inr ?a |- _ => destruct a; apply decision_range in H; exact H end. }
    destruct (accept_record_edits st3 c3 l3) as [e|[c4 l4]] eqn:Ea; [by split_and!|].
    apply (accept_fine (sub_owner s)) in Ea as (Hc4 & Hl4 & _); [|done..]. split_and!; [exact E|by eapply fine_commit|]. by intros ? [= <-].
Qed.
(** ** The cursors *)
Context (Hst : forall s, s ∈ p_subs p -> static p s).
Lemma admissible_calls (st : St) o s : s ∈ p_subs p -> admissible st p o s = true ->
  (forall x, o = Some x -> exists a, p_adapter p = Some a /\ parent (adp_instance a) = x) -> calls (world st) p (busy st) s.
Proof.
  intros Hs Ha Ho. unfold admissible in Ha. bool_to_prop. match goal with H : _ || _ = true |- _ => apply orb_true_iff in H as [H|H] end; bool_to_prop; split_and!; try done; try by apply Hst.
  - right. by apply Ho.
  - by left.
Qed.
Lemma next_subscriber_some (st : St) c o l s l' : next_subscriber env st p c o l = Some (s, l') ->
  admissible st p (Some o) s = true /\ s ∈ l /\ (forall x, x ∈ l' -> x ∈ l).
Proof.
  induction l as [|x l IH]; cbn [next_subscriber]; [done|]. destruct (_ && _) eqn:E.
  - intros [= -> ->]. bool_to_prop. split_and!; [done|by left|]. intros y Hy. by right.
  - intros Hn. destruct (IH Hn) as (? & ? & ?). split_and!; [done|by right|]. intros y Hy. right. auto.
Qed.
Definition fine_cursor (k : Cursor) : Prop := forall s, s ∈ rest_ k -> s ∈ p_subs p.
Definition steered (o : OwnerKey) (x y : St * Cells * Lease * Cursor) : Prop :=
  fine o x.1 -> fine_cursor x.2 -> Forall (fun d => 0 <= d_action d <= 3) (delivered x.2) ->
  emits x.1.1.1 y.1.1.1 /\ fine o y.1 /\ fine_cursor y.2 /\ Forall (fun d => 0 <= d_action d <= 3) (delivered y.2).
Lemma settled_range r : ranged r -> 0 <= d_action (settled r) <= 3.
Proof. intros Hr. destruct r as [e|d]; [cbn; lia|]. by apply Hr. Qed.

Context (a : Adapter) (Ha : p_adapter p = Some a).
Notation owner := (parent (adp_instance a)).
Lemma js_cursor_steered st c l k : steered owner (st, c, l, k) (js_cursor env fire st p c l k).1.
Proof.
  unfold steered, js_cursor. cbn [fst snd]. intros [Hc Hl] Hk Hd. cbn [fst snd] in *. destruct (negb _); [split_and!; [apply emits_refl|done..]|].
  destruct (accept_record_edits st c l) as [e|[c1 l1]] eqn:Ea; [split_and!; [apply emits_refl|done..]|].
  apply (accept_fine owner) in Ea as (Hc1 & Hl1 & _); [|done..].
  set (x := if _ : bool then _ else _). assert (Hx : fine owner (st, x.1, x.2)).
  { subst x. case_match; [|by split]. split; [by eapply fine_commit|]. destruct Hl1 as (? & ? & ? & ?). split_and!; try done. intros i. unfold StagedEdits. cbn. rewrite lookup_empty. by intros []. }
  destruct x as [c2 l2]. clear c1 l1 Hc1 Hl1. destruct Hx as [Hc2 Hl2]. cbn [fst snd] in *.
  destruct (next_subscriber env st p c2 (l_owner l2) (rest_ k)) as [[s rest]|] eqn:En.
  2: { split_and!; [apply emits_refl|done| |done]. intros s Hs. by apply not_elem_of_nil in Hs. }
  apply next_subscriber_some in En as (Had & Hs & Hrest).
  assert (Hcalls : calls (world st) p (busy st) s).
  { eapply admissible_calls; [by apply Hk|exact Had|]. intros x [= <-]. exists a. split; [done|]. symmetry. apply Hl2. }
  pose proof (invoke_wrapper_ok st c2 s Hcalls Hc2) as Hw. destruct (invoke_wrapper env fire st p c2 s) as [[st3 c3] r]. destruct Hw as (He & Hc3 & Hr). cbn [fst snd] in *.
  split_and!; [exact He|by split| |].
  - intros x. cbn. case_match; [intros Hx; by apply not_elem_of_nil in Hx|]. intros Hx. by apply Hk, Hrest.
  - apply Forall_app. split; [done|]. repeat constructor; by apply settled_range.
Qed.
Lemma run_adapter_steered q : forall x k, steered owner (x, k) (run_adapter env fire p x k q).1.
Proof.
  induction q as [body returns|body next IH]; intros x k Hf Hk Hd; cbn [run_adapter].
  - destruct (run_body_runs owner x body Hf) as [E Hf']. destruct (run_body env fire p x body) as [[st c] l]. by split_and!.
  - destruct (run_body_runs owner x body Hf) as [E Hf']. destruct (run_body env fire p x body) as [[st c] l].
    pose proof (js_cursor_steered st c l k Hf' Hk Hd) as Hj. destruct (js_cursor env fire st p c l k) as [[[[st1 c1] l1] k1] answer]. destruct Hj as (E1 & Hf1 & Hk1 & Hd1).
    destruct (IH answer (st1, c1, l1) k1 Hf1 Hk1 Hd1) as (E2 & H2). split; [|exact H2]. eapply emits_trans; [exact E|]. eapply emits_trans; [exact E1|exact E2].
Qed.
Lemma invoke_adapter_ok st c : eligible st a (suppressed_owner (f_info p)) (f_phase p) (f_target p) = true -> fine_cells c ->
  let y := invoke_adapter env fire st p c in emits st y.1.1.1 /\ fine_cells y.1.1.2 /\ Forall (fun d => 0 <= d_action d <= 3) y.1.2 /\ ranged y.2.
Proof.
  intros He Hc. unfold invoke_adapter. rewrite Ha. destruct (if f_phase p =? 0 then adp_pre a else adp_post a) as [f|]; [|split_and!; [apply emits_refl|done|constructor|by intros ? [= <-]]].
  destruct (context_of env (log st) _); [|split_and!; [apply emits_refl|done|constructor|done]].
  cbv zeta. destruct (open_lease _ _ _ _ _ _) as [st1 [e|l]] eqn:Eo.
  { apply open_lease_inl in Eo as ->. split_and!; [apply emits_left|done|constructor|done]. }
  apply open_lease_inr in Eo as (n & -> & Ho & Hb & _ & Hp & Hq). cbn [tail enter set_busy set_world busy].
  set (st2 := note env _ _). assert (E2 : emits (enter st owner (f_target p)) st2) by (eapply emits_trans; [apply emits_world|]; apply emits_note; exists a; by split).
  assert (Hl : fine owner (st2, c, l)). { split; [done|]. eapply fine_opened; [done..|]. by left. }
  pose proof (run_adapter_steered (callback env f) (st2, c, l) (mkCursor (p_subs p) []) Hl ltac:(by intros s Hs) ltac:(constructor)) as Hrun.
  destruct (run_adapter env fire p (st2, c, l) _ _) as [[[[st3 c3] l3] k3] returned]. destruct Hrun as (E3 & [Hc3 Hl3] & _ & Hd3). cbn [fst snd] in *.
  assert (E : emits st (leave st3)) by (eapply emits_scope, emits_trans; [exact E2|exact E3]).
  destruct (adapter_decision _ p a l3 _ returned) as [e|[d pr]] eqn:Ed; [split_and!; [exact E|by case_match|done|done]|].
  assert (Hd : 0 <= d_action d <= 3).
  { unfold adapter_decision in Ed. succeeds. subst. match goal with H : decision _ _ _ _ _ _ = inr (_, _) |- _ => apply decision_range in H; exact H end. }
  set (c4 := match pr with Some v => _ | None => c3 end). assert (Hc4 : fine_cells c4) by (subst c4; by destruct pr). clearbody c4.
  destruct (accept_record_edits st3 c4 l3) as [e|[c5 l5]] eqn:Ea; [by split_and!|].
  apply (accept_fine owner) in Ea as (Hc5 & Hl5 & _); [|done..]. split_and!; [exact E|by eapply fine_commit|done|]. by intros ? [= <-].
Qed.
Lemma generic_run_ok stop l : forall st c acc ds, (forall s, s ∈ l -> s ∈ p_subs p) -> fine_cells c -> Forall (fun d => 0 <= d_action d <= 3) acc ->
  let y := generic_run env fire stop st p c l acc ds in emits st y.1.1.1 /\ fine_cells y.1.1.2 /\ Forall (fun d => 0 <= d_action d <= 3) y.1.2.
Proof.
  induction l as [|s l IH]; intros st c acc ds Hin Hc Hacc; cbn [generic_run]; [split_and!; [apply emits_refl|done..]|].
  assert (Hin' : forall x, x ∈ l -> x ∈ p_subs p) by (intros x Hx; apply Hin; by right).
  destruct (admissible st p None s) eqn:Had; cbn [negb]; [|by apply IH].
  assert (Hcalls : calls (world st) p (busy st) s) by (eapply admissible_calls; [apply Hin; by left|exact Had|done]).
  pose proof (invoke_wrapper_ok st c s Hcalls Hc) as Hw. destruct (invoke_wrapper env fire st p c s) as [[st1 c1] r]. destruct Hw as (E & Hc1 & Hr). cbn [fst snd] in *.
  assert (Hacc' : Forall (fun d => 0 <= d_action d <= 3) (acc ++ [settled r])) by (apply Forall_app; split; [done|]; repeat constructor; by apply settled_range).
  assert (Hgo : forall ds', let y := generic_run env fire stop st1 p c1 l (acc ++ [settled r]) ds' in
    emits st y.1.1.1 /\ fine_cells y.1.1.2 /\ Forall (fun d => 0 <= d_action d <= 3) y.1.2).
  { intros ds'. destruct (IH st1 c1 (acc ++ [settled r]) ds' Hin' Hc1 Hacc') as (E' & H'). split; [by eapply emits_trans|exact H']. }
  destruct (PackageAdapter.pre _); [destruct stop|destruct (stop && _)]; (apply Hgo || by split_and!).
Qed.
End Body.

(** ** The parts *)
Section Groups.
Context (fire : St -> Z -> FrameInfo -> Z -> St * (string + unit)) (fired : forall st t i ph, emits st (fire st t i ph).1).
Context (p : Part) (Hst : forall s, s ∈ p_subs p -> static p s).
Definition selected (i : Z) : Prop := i <= SCRATCH_BASE \/ declared p i.
Definition selected_field (k : Z * Z) (e : RecordEdit) : Prop := declared_field p k.1 k.2 e.
Notation fine := (fine_cells selected selected_field).

Lemma part_speaks g c b : speaks (part_of p g c) b -> f_phase p = 0 -> speaks p b.
Proof.
  intros Hs Hph. unfold part_of in Hs. rewrite Hph, andb_false_r in Hs. cbn [Z.eqb] in Hs. destruct Hs as [->|(s & Hs & ->)]; cbn [p_subs p_binding] in *.
  - destruct (filterb (in_group g) (p_subs p)) as [|s l] eqn:E; cbn; [by left|]. right. exists s. split; [|done].
    assert (Hs : s ∈ filterb (in_group g) (p_subs p)) by (rewrite E; by left). by apply elem_of_filterb in Hs as [? ?].
  - right. exists s. split; [|done]. by apply elem_of_filterb in Hs as [? ?].
Qed.
Lemma part_static g c s : s ∈ p_subs (part_of p g c) -> static (part_of p g c) s.
Proof. intros Hs. cbn in Hs. apply elem_of_filterb in Hs as [? Hs]. by apply (Hst s). Qed.
Lemma part_mutable g c b i : speaks (part_of p g c) b -> f_phase (part_of p g c) = 0 -> mutable_pre b i = true -> selected i.
Proof. intros Hb Hph Hm. right. exists b. split; [|done]. by eapply part_speaks. Qed.
Lemma part_field g c i f e : f_phase (part_of p g c) = 0 -> declared_field (part_of p g c) i f e -> selected_field (i, f) e.
Proof. intros Hph [Hb Hrow]. split; [|exact Hrow]. by eapply part_speaks. Qed.
Lemma scratch_selected i : i <= SCRATCH_BASE -> selected i.
Proof. by left. Qed.

Definition ready (st : St) (g : Z) : Prop := g = 0 -> forall a, p_adapter p = Some a -> eligible st a (suppressed_owner (f_info p)) (f_phase p) (f_target p) = true.
Lemma run_group_ok g st c : ready st g -> fine c ->
  let y := run_group env fire g st p c in emits st y.1.1.1 /\ fine y.1.1.2 /\ Forall (fun d => 0 <= d_action d <= 3) y.1.2 /\ ranged y.2.
Proof.
  intros He Hc. unfold run_group. cbv zeta. destruct (Z.eqb_spec g 0) as [->|Hg].
  { destruct (p_adapter p) as [a|] eqn:Ea.
    - eapply (invoke_adapter_ok fire fired selected selected_field (part_of p 0 c) (part_mutable 0 c) scratch_selected (part_field 0 c) (part_static 0 c) a Ea); [by apply He|done].
    - unfold invoke_adapter. cbn [p_adapter part_of]. rewrite Ea. split_and!; [apply emits_refl|done|constructor|done]. }
  pose proof (fun stop => generic_run_ok fire fired selected selected_field (part_of p g c) (part_mutable g c) scratch_selected (part_field g c) (part_static g c) stop
    (p_subs (part_of p g c)) st c [] [] (fun s Hs => Hs) Hc (Forall_nil_2 _)) as Hrun. cbv zeta in Hrun.
  destruct (_ || _).
  - specialize (Hrun false). destruct (generic_run _ _ _ _ _ _ _ _ _) as [[[st1 c1] acc] ds]. destruct Hrun as (E & Hc1 & Hacc). split_and!; [done..|].
    intros d Hd. cbn in Hd. succeeds. by subst.
  - specialize (Hrun true). destruct (generic_run _ _ _ _ _ _ _ _ _) as [[[st1 c1] acc] ds]. destruct Hrun as (E & Hc1 & Hacc). split_and!; [done..|].
    intros d Hd. cbn in Hd. succeeds. subst. match goal with |- _ <= d_action (of_pre ?x) <= _ => destruct x as [| |[] v] end; cbn; lia.
Qed.
Lemma run_groups_ok gs : forall st c ds d, Forall (ready st) gs -> NoDup gs -> (gs = [] \/ head gs = Some 0 \/ 0 ∉ gs) -> fine c -> 0 <= d_action d <= 3 ->
  let y := run_groups env fire gs st p c ds d in emits st y.1.1.1 /\ fine y.1.1.2 /\ ranged y.2.
Proof.
  induction gs as [|g gs IH]; intros st c ds d He Hnd Hh Hc Hd; cbn [run_groups]; [split_and!; [apply emits_refl|done|by intros ? [= <-]]|].
  apply NoDup_cons in Hnd as [Hg Hnd]. apply Forall_cons in He as [He Hes].
  assert (H0 : 0 ∉ gs) by (destruct Hh as [?|[[= ->]|Hh]]; [done|done|]; intros ?; apply Hh; by right).
  assert (Hready : forall st', Forall (ready st') gs) by (intros st'; apply Forall_forall; intros x Hx -> ; done).
  destruct (_ && _). { apply IH; auto. }
  pose proof (run_group_ok g st c He Hc) as Hrun. cbv zeta in Hrun. destruct (run_group env fire g st p c) as [[[st1 c1] acc] [e|d1]]; destruct Hrun as (E & Hc1 & Hacc & Hr); cbn [fst snd] in *.
  { split_and!; done. }
  destruct (IH st1 c1 (ds ++ acc) (if g =? 2 then d else d1)) as (E' & H'); auto.
  - case_match; [done|by apply Hr].
  - split; [by eapply emits_trans|exact H'].
Qed.
End Groups.

(** ** The commit and the whole *)
Section Whole.
Context (fire : St -> Z -> FrameInfo -> Z -> St * (string + unit)) (fired : forall st t i ph, emits st (fire st t i ph).1).

Lemma write_all_emits {K} (es : list (K * (Event * string))) st : Forall (fun e => admitted e.2.1) es -> emits st (write_all env st es).1.
Proof.
  intros He. unfold write_all. assert (Hr : emits st (st, inr tt : string + unit).1) by apply emits_refl. revert Hr. generalize (st, inr tt : string + unit) as x.
  induction es as [|e es IH]; intros [st' r] Hr; cbn [foldl]; [exact Hr|]. apply Forall_cons in He as [He Hes]. apply (IH Hes). destruct r as [w|u]; [exact Hr|].
  pose proof (emits_ask st' e.2.1 He) as Ha. destruct (ask env st' e.2.1) as [st2 [w|]]; cbn [fst snd] in *; by eapply emits_trans.
Qed.
Lemma commit_emits st p c d : f_phase p = 0 -> fine_cells (selected p) (selected_field p) c -> 0 <= d_action d <= 3 -> emits st (commit env st p c d).1.
Proof.
  intros Hph [Hc Hr] Hd. unfold commit. destruct (check_commit _ _ _); [apply emits_refl|]. apply write_all_emits. rewrite !Forall_app. split_and!.
  - apply Forall_fmap, Forall_forall. intros [i v] Hi. unfold native_edits in Hi. apply elem_of_filterb in Hi as [Hb Hi]. apply elem_of_btree_to_list in Hi. cbn in *.
    split; [done|]. destruct (Hc i) as [Hs|Hs]; [by eexists|bool_to_prop; lia|exact Hs].
  - apply Forall_fmap, Forall_forall. intros [[i f] e] Hi. unfold record_list in Hi. rewrite merge_sort_Permutation in Hi. apply elem_of_map_to_list in Hi.
    split; [done|]. exact (Hr _ _ Hi).
  - apply Forall_singleton. by split.
Qed.

Lemma run_dispatch_emits st p k c : (forall s, s ∈ p_subs p -> static p s) -> ready p st 0 -> fine_cells (selected p) (selected_field p) c -> emits st (run_dispatch env fire st p k c).1.
Proof.
  intros Hst He Hc. unfold run_dispatch. destruct (enterable env st p); [apply emits_refl|].
  assert (Hgs : Forall (ready p st) [0; 1; 2]) by (repeat constructor; done).
  pose proof (run_groups_ok fire fired p Hst [0; 1; 2] st c [] none_ Hgs ltac:(repeat (constructor; [set_solver|]); constructor) ltac:(right; by left) Hc ltac:(cbn; lia)) as Hrun.
  cbv zeta in Hrun. unfold invoke_domains. destruct (run_groups env fire [0; 1; 2] st p c [] none_) as [[[st1 c1] ds] [e|d]]; destruct Hrun as (E & Hc1 & Hr); cbn [fst snd] in *; [exact E|].
  destruct (Z.eqb_spec (f_phase p) 0) as [Hph|]; cbn [negb]; [|exact E].
  pose proof (commit_emits (keep_deliveries st1 k ds) p c1 d Hph Hc1 (Hr d eq_refl)) as Ec. destruct (commit env _ p c1 d) as [st2 [e|ok]]; cbn [fst snd] in *.
  all: assert (Ek : emits st1 (keep_deliveries st1 k ds)) by (unfold keep_deliveries, put_invocation; case_match; [apply emits_world|apply emits_refl]).
  all: eapply emits_trans; [exact E|]; eapply emits_trans; [exact Ek|]; eapply emits_trans; [exact Ec|].
  { apply emits_refl. }
  unfold carry, put_invocation. repeat case_match; first [apply emits_world|apply emits_refl].
Qed.
Lemma fine_start p x : fine_cells (selected p) (selected_field p) (mkCells 0 ∅ ∅ ∅ x).
Proof. split; [|apply map_Forall_empty]. intros i. unfold StagedEdits. cbn. rewrite lookup_empty. by intros []. Qed.

Lemma eligible_ext (st st' : St) a bypass phase target :
  reg (world st') = reg (world st) -> phases (world st') = phases (world st) -> packages (world st') = packages (world st) -> busy st' = busy st ->
  eligible st' a bypass phase target = eligible st a bypass phase target.
Proof. unfold eligible, has_package, owner_live, is_active, parent_busy. by intros -> -> -> ->. Qed.
Lemma pick_emits st k info phase found post_state : emits st (pick_adapter st k info phase found post_state).1.
Proof. unfold pick_adapter, put_invocation. destruct (phase =? 0); [apply emits_world|apply emits_refl]. Qed.
Lemma pick_eligible st k info phase found post_state st' a : phase = 0 \/ phase = 1 -> pick_adapter st k info phase found post_state = (st', inr (Some a)) ->
  eligible st' a (suppressed_owner info) phase k.1 = true.
Proof.
  intros Hph. unfold pick_adapter. destruct (Z.eqb_spec phase 0) as [->|Hne].
  - cbv zeta. destruct (is_some (invocation_at (world st) k)); [done|]. intros [= <- Hs]. apply find_some in Hs as [_ Hs]. bool_to_prop. match goal with H : eligible _ _ _ _ _ = true |- _ => rewrite <- H end. by apply eligible_ext.
  - intros [= <- Hs]. destruct post_state as [i|]; [|done]. cbn in Hs. destruct (inv_post i) as [b|]; [|done]. cbn in Hs. destruct (_ && _) eqn:E; [|done].
    injection Hs as ->. bool_to_prop. destruct Hph as [?|Hph]; [done|]. by rewrite Hph.
Qed.
Lemma named_state o (r : St * (string + unit)) : (named o r).1 = r.1.
Proof. destruct r as [x [e|u]]; [done|]. by destruct o. Qed.
Lemma finish_emits st k info phase subs_ post_state a :
  (forall s, s ∈ subs_ -> target_of s = Some k.1 /\ sub_phase s = phase /\ o_generation (sub_owner s) <> suppressed_owner info) ->
  (forall x, a = Some x -> eligible st x (suppressed_owner info) phase k.1 = true) ->
  emits st (finish_dispatch env fire st k info phase subs_ post_state a).1.
Proof.
  intros Hs Ha. unfold finish_dispatch. cbv zeta. set (dropped := if _ && _ then Some _ else None). clearbody dropped.
  destruct (is_nil subs_ && _). { rewrite named_state. apply emits_refl. }
  destruct (existsb _ subs_ && _); [apply emits_refl|]. destruct (_ && negb (is_some post_state)); [apply emits_refl|].
  match goal with |- emits _ (match ?b with Some _ => _ | None => _ end).1 => destruct b as [bnd|] end; [|apply emits_refl].
  destruct (negb _); [apply emits_refl|]. destruct (negb _); [apply emits_refl|]. destruct (_ && negb _); [apply emits_refl|]. destruct (validate_frame _ _ _ _); [apply emits_refl|].
  rewrite named_state. apply run_dispatch_emits; [exact Hs| |apply fine_start]. intros _ x Hx. by apply Ha.
Qed.
Lemma dispatch_inner_emits st target info phase : emits st (dispatch_inner env fire st target info phase).1.
Proof.
  unfold dispatch_inner. cbv zeta. destruct (scope_enter env (log st)); [apply emits_refl|]. destruct (meta_ok target info phase) eqn:Hm; cbn [negb]; [|apply emits_refl].
  assert (Hph : phase = 0 \/ phase = 1) by (unfold meta_ok, frame_ok in Hm; bool_to_prop; match goal with H : _ || _ = true |- _ => apply orb_true_iff in H as [H|H] end; bool_to_prop; lia).
  set (post_state := if phase =? 1 then _ else None). clearbody post_state.
  set (st1 := if phase =? 1 then _ else st). assert (E1 : emits st st1) by (subst st1; unfold take_invocation; case_match; [apply emits_world|apply emits_refl]). clearbody st1.
  match goal with |- emits _ (match ?b with inl _ => _ | inr _ => _ end).1 => destruct b end; [exact E1|].
  set (found := filterb _ (rows (world st1))).
  pose proof (pick_emits st1 (target, invocation_id info) info phase found post_state) as E2.
  pose proof (pick_eligible st1 (target, invocation_id info) info phase found post_state) as He.
  destruct (pick_adapter st1 _ info phase found post_state) as [st2 [e|a]]; cbn [fst] in E2.
  { by eapply emits_trans. }
  eapply emits_trans; [exact E1|]. eapply emits_trans; [exact E2|]. apply finish_emits.
  - intros s Hs. apply elem_of_filterb in Hs as [Hp Hs]. apply elem_of_filterb in Hs as [Hs _]. unfold selected_subscriber in Hs. by bool_to_prop.
  - intros x ->. by eapply He.
Qed.
End Whole.

Lemma dispatch_emits fuel : forall st target info phase, emits st (dispatch env fuel st target info phase).1.
Proof. induction fuel as [|fuel IH]; intros st t i ph; cbn [dispatch]; [apply emits_refl|]. by apply dispatch_inner_emits. Qed.
End Invariant.
End DispatchInvariant.
