(* ===== verification/DispatchProperties.v ===== *)
(** The promises of hook dispatch ([FunctionDispatch]), over any world, engine and callbacks, and a run.

    Whatever is asked of the engine and V8 is admitted; a refused callback leaves the overlay as it was; the
    generic domain takes the first strongest decision; a commit writes everything it checked, in order, and
    the decision last. *)
From S2P Require Import Prelude.
From S2P Require Import Results.
From S2P Require Import BTree.
From S2P Require Import ResourceLedger.
From S2P Require Import EntityLive.
From S2P Require Import EngineContract.
From S2P Require Import EngineInstance.
From S2P Require Import EngineProjection.
From S2P Require Import EngineRegistry.
From S2P Require Import Multiplexer.
From S2P Require Import FunctionAdapter.
From S2P Require Import FunctionDispatch.
From S2P Require Import Plugin.
From S2P Require Import AdapterProperties.
From S2P Require Import DispatchInvariant.
Import EngineContract.EngineContract.
Import EngineInstance.EngineInstance.
Import EngineProjection.EngineProjection.
Import EngineRegistry.EngineRegistry.
Import FunctionAdapter.FunctionAdapter.
Import FunctionDispatch.FunctionDispatch.
Import DispatchInvariant.DispatchInvariant.

Module DispatchProperties.
Section Properties.
Context {R : Type} `{Ledger R}.
Context (env : Env (R := R)).
Notation St := (St (R := R)).
Notation Event := (Event (R := R)).

(** C33. Dispatch asks only for what is admitted, at any depth. A subscriber is called only while its row
    exists and its owner lives, for its own target and phase, not for the generation the call suppresses,
    and not while that plugin is already inside this hook (unless it is the adapter's own); an adapter only
    while its package, its owner and its phase allow; an engine write names a parameter the called bindings
    declare mutable, before the call; a return is overridden only by an adapter granted it on an authorized
    binding, after the call; and the stack of running plugins is left as it was. *)
Theorem hook_dispatch_admitted fuel (st : St) target info phase :
  let st' := (dispatch env fuel st target info phase).1 in
  busy st' = busy st /\ exists evs, log st' = log st ++ evs /\ Forall admitted evs.
Proof. destruct (dispatch_emits env fuel st target info phase) as (evs & E & F & B). split; [exact B|]. by exists evs. Qed.

(** ** Refusals *)
Section Refusal.
Context (fire : St -> Z -> FrameInfo -> Z -> St * (string + unit)) (p : Part).
(** What a callback of binding [b] that stages its edits may change before it is accepted: the revision, upwards. *)
Definition kept (c c' : Cells) : Prop :=
  edits c' = edits c /\ record_edits c' = record_edits c /\ writers c' = writers c /\ proposal c' = proposal c.
Lemma next_revision_inr c r : next_revision c = inr r -> r = revision c + 1.
Proof. unfold next_revision, checked_add. intros E. succeeds. by case_match; simplify_eq. Qed.
Lemma stages_binding l l' : l_binding l' = l_binding l -> l_adapter l' = l_adapter l -> stages l' = stages l.
Proof. unfold stages. by intros -> ->. Qed.

Definition stays (x y : St * Cells * Lease) : Prop :=
  l_binding y.2 = l_binding x.2 /\ l_adapter y.2 = l_adapter x.2 /\ revision x.1.2 <= revision y.1.2 /\
  (stages x.2 = true -> kept x.1.2 y.1.2).
Lemma stays_refl x : stays x x.
Proof. by split_and!. Qed.
Lemma stays_trans x y z : stays x y -> stays y z -> stays x z.
Proof.
  intros (Bx & Ax & Rx & Kx) (By & Ay & Ry & Ky). split_and!; [congruence|congruence|lia|]. intros Hs. destruct (Kx Hs) as (? & ? & ? & ?).
  rewrite <- (stages_binding x.2 y.2) in Hs by done. destruct (Ky Hs) as (? & ? & ? & ?). split_and!; congruence.
Qed.
Lemma fail_set_stays st st' c l : stays (st, c, l) (st', c, fail_set l).
Proof. unfold fail_set. destruct (is_trusted _); by split_and!. Qed.
Lemma js_set_stays st c l id i v : stays (st, c, l) (js_set env st p c l id i v).
Proof.
  unfold js_set. destruct (check_set st p c l id i v) as [e|[[r x] staged]] eqn:E; [apply fail_set_stays|].
  unfold check_set in E. apply rbind_inr in E as (u & _ & E). cbv zeta in E. succeeds. subst.
  match goal with H : next_revision _ = inr _ |- _ => apply next_revision_inr in H as -> end.
  destruct (is_some (scratch_slot (l_binding l) i) || stages l) eqn:Es; [split_and!; cbn; [done|done|lia|done]|].
  destruct (ask env st (Write p i x)) as [st' [e|]]; [apply fail_set_stays|]. split_and!; cbn; [done|done|lia|].
  intros Hs. rewrite Hs, orb_true_r in Es. done.
Qed.
Lemma run_act_stays x a : stays x (run_act env fire p x a).
Proof.
  destruct x as [[st c] l]. destruct a as [id i v|id i f v|id v|q|t i ph]; cbn [run_act]; [apply js_set_stays| |by split_and!..].
  unfold record_set. destruct (check_record env st p c l id i f v) as [e|[r e]] eqn:E; [by split_and!|]. unfold check_record in E. succeeds. subst.
  match goal with H : next_revision _ = inr _ |- _ => apply next_revision_inr in H as -> end. split_and!; cbn; [done|done|lia|done].
Qed.
Lemma run_body_stays x body : stays x (run_body env fire p x body).
Proof.
  destruct x as [[st c] l]. cbn [run_body]. generalize (body l (world st) (overlay c l)) as acts. intros acts. generalize (st, c, l) as x.
  induction acts as [|a acts IH]; intros x; cbn [foldl]; [apply stays_refl|]. eapply stays_trans; [apply run_act_stays|apply IH].
Qed.
Lemma run_program_stays q : forall x, stays x (run_program env fire p x q).1.
Proof.
  induction q as [body returns|body k IH]; intros x; cbn [run_program].
  - pose proof (run_body_stays x body) as Hr. by destruct (run_body env fire p x body) as [[st c] l].
  - eapply stays_trans; [apply run_body_stays|apply IH].
Qed.
Lemma accept_revision st c l c' l' : accept_record_edits st c l = inr (c', l') -> revision c' = revision c.
Proof. unfold accept_record_edits. intros E. succeeds. subst. by destruct (is_trusted _). Qed.
Lemma wrapper_decision_range s ph l v d : wrapper_decision s ph l v = inr d -> 0 <= d_action d <= 3.
Proof. unfold wrapper_decision. intros E. succeeds. subst. match goal with H : decision _ _ _ _ _ _ = inr ?a |- _ => destruct a; by apply decision_range in H end. Qed.

Definition staged_binding (b : Binding) : bool := copies b || is_trusted b || String.eqb (suppression_of b) "none".
Lemma invoke_wrapper_result st c s :
  let y := invoke_wrapper env fire st p c s in
  revision c <= revision y.1.2 /\ (forall d, y.2 = inr d -> 0 <= d_action d <= 3) /\
  (forall e, y.2 = inl e -> staged_binding (sub_binding s) = true -> kept c y.1.2) /\
  (forall e, y.2 = inl e -> copies (sub_binding s) || String.eqb (suppression_of (sub_binding s)) "none" = true -> revision y.1.2 = revision c).
Proof.
  unfold invoke_wrapper. destruct (context_of _ _ _); [|by split_and!]. destruct (open_lease _ _ _ _ _ _) as [st1 [e|l]] eqn:Eo; [by split_and!|].
  apply open_lease_inr in Eo as (n & -> & Ho & Hb & Ha & Hp & Hq). cbv zeta. set (st2 := note env _ _). clearbody st2.
  pose proof (run_program_stays (callback env (sub_wrapper s)) (st2, c, l)) as Hrun. destruct (run_program env fire p (st2, c, l) _) as [[[st3 c3] l3] returned].
  destruct Hrun as (B & A & Rv & Kp). cbn [fst snd] in *.
  assert (Hstage : staged_binding (sub_binding s) = true -> kept c c3).
  { intros Hs. apply Kp. unfold stages. rewrite Hb, Ha. exact Hs. }
  destruct (wrapper_decision s (f_phase p) l3 returned) as [e|d] eqn:Ed.
  - destruct (_ || _); cbn [fst snd]; split_and!; try done; try (by intros); cbn; try lia.
  - apply wrapper_decision_range in Ed. destruct (accept_record_edits st3 c3 l3) as [e|[c4 l4]] eqn:Ea; cbn [fst snd].
    + split_and!; try done.
    + apply accept_revision in Ea. split_and!; try done; [cbn; lia|]. by intros ? [= <-].
Qed.
End Refusal.

(** C17. A refused callback leaves nothing behind. When a subscriber's callback throws, answers what its phase
    or policy forbids, or hands over a record batch that does not validate, a binding whose edits are
    staged keeps the overlay of the dispatch exactly as it was: its fields, its record edits, the writers
    that vouch for them and the adapter's proposal. Where values are copied or the policy suppresses
    nothing, the revision is taken back too. *)
Theorem refused_callback_keeps_nothing fire p st c s st' c' e :
  invoke_wrapper env fire st p c s = (st', c', inl e) -> staged_binding (sub_binding s) = true ->
  edits c' = edits c /\ record_edits c' = record_edits c /\ writers c' = writers c /\ proposal c' = proposal c /\
  (copies (sub_binding s) || String.eqb (suppression_of (sub_binding s)) "none" = true -> revision c' = revision c).
Proof.
  intros E Hs. destruct (invoke_wrapper_result fire p st c s) as (_ & _ & Hk & Hr). rewrite E in *. destruct (Hk e eq_refl Hs) as (? & ? & ? & ?).
  split_and!; try done. exact (Hr e eq_refl).
Qed.

(** ** Who is heard *)
(** One subscriber's turn. Without a context for its plugin, or an id for its lease, nothing happens and it
    counts as continuing. Otherwise its own callback runs, and the log says so first, under a lease of its
    own owner and binding with nothing staged; its answer is the decision when it is one the phase and the
    policy admit and what it staged is accepted, which then is what the overlay gains; else it continues. *)
Inductive turn (fire : St -> Z -> FrameInfo -> Z -> St * (string + unit)) (p : Part) (s : Subscription) (st : St) (c : Cells) : Decision -> St -> Cells -> Prop :=
| turn_silent :
    context_of env (log st) (o_id (sub_owner s)) = None \/ next (reg (world st)) = u64_max -> turn fire p s st c none_ st c
| turn_heard w id st1 c1 l1 returned d c2 :
    w = set_reg (world st) (EngineRegistry.set_next (reg (world st)) (id + 1)) -> id = next (reg (world st)) ->
    run_program env fire p
      (mkSt w ((o_id (sub_owner s), o_generation (sub_owner s), Some (f_target p)) :: busy st) (log st ++ [Called w p (busy st) (Some s)]), c,
       mkLease id (sub_owner s) (sub_binding s) false (sub_mode s) ∅ ∅ (p_epoch p) false)
      (callback env (sub_wrapper s)) = (st1, c1, l1, returned) ->
    match wrapper_decision s (f_phase p) l1 returned, accept_record_edits st1 c1 l1 with
    | inr d', inr (c3, l3) => d = d' /\ c2 = set_edits c3 (pending_edits l3 ∪ edits c3)
    | _, _ => d = none_ /\ (staged_binding (sub_binding s) = true -> kept c c2)
    end ->
    turn fire p s st c d (mkSt (world st1) (tail (busy st1)) (log st1)) c2.
(** The subscribers of a list, from a state: passed over where they may not be called at that point, each
    after what the one before left, up to and including the first that stops. *)
Inductive heard (fire : St -> Z -> FrameInfo -> Z -> St * (string + unit)) (p : Part) : St -> Cells -> list Subscription -> list (Subscription * Decision) -> St -> Cells -> Prop :=
| heard_all st c : heard fire p st c [] [] st c
| heard_passed st c s l out st' c' : admissible st p None s = false -> heard fire p st c l out st' c' -> heard fire p st c (s :: l) out st' c'
| heard_stopped st c s l d st' c' : admissible st p None s = true -> turn fire p s st c d st' c' -> d_action d = 3 -> heard fire p st c (s :: l) [(s, d)] st' c'
| heard_on st c s l d st1 c1 out st' c' :
    admissible st p None s = true -> turn fire p s st c d st1 c1 -> d_action d <> 3 -> heard fire p st1 c1 l out st' c' ->
    heard fire p st c (s :: l) ((s, d) :: out) st' c'.

Lemma invoke_wrapper_turn fire p st c s :
  let y := invoke_wrapper env fire st p c s in turn fire p s st c (settled y.2) y.1.1 y.1.2.
Proof.
  pose proof (invoke_wrapper_result fire p st c s) as (_ & _ & Hkept & _). revert Hkept. unfold invoke_wrapper.
  destruct (context_of env (log st) (o_id (sub_owner s))) eqn:Ec; [|intros _; apply turn_silent; by left]. unfold open_lease, next_id.
  destruct (Z.eqb_spec (next (reg (world (enter st (sub_owner s) (f_target p))))) u64_max) as [Hn|Hn].
  { intros _. cbn [fst snd settled]. replace (leave (enter st (sub_owner s) (f_target p))) with st by (by destruct st). apply turn_silent. by right. }
  destruct (run_program _ _ _ _ _) as [[[st1 c1] l1] returned] eqn:Er.
  destruct (wrapper_decision s (f_phase p) l1 returned) as [e|d] eqn:Ed; [|destruct (accept_record_edits st1 c1 l1) as [e|[c3 l3]] eqn:Ea]; intros Hkept;
    (eapply (turn_heard fire p s st c _ _ st1 c1 l1 returned); [reflexivity|reflexivity|exact Er|rewrite Ed; try rewrite Ea]); [| |by split];
    (split; [reflexivity|exact (Hkept e eq_refl)]).
Qed.

(** ** The generic domain *)
Definition delivers (d : Decision) (x : PackageAdapter.SubscriberDelivery ProjectedValue) : Prop :=
  Multiplexer.result_rank (PackageAdapter.action x) = d_action d /\ PackageAdapter.return_value x = d_value d.
Lemma to_delivery_delivers c d : 0 <= d_action d <= 3 -> delivers d (to_delivery c d).
Proof.
  intros Hd. split; [|done]. unfold to_delivery. cbn. destruct (Z.eqb_spec (d_action d) 0) as [->|]; [done|]. destruct (Z.eqb_spec (d_action d) 1) as [->|]; [done|].
  destruct (Z.eqb_spec (d_action d) 2) as [->|]; [done|]. assert (d_action d = 3) as -> by lia. done.
Qed.
Fixpoint rising (r : Z) (xs : list (PackageAdapter.SubscriberDelivery ProjectedValue)) : Prop :=
  match xs with [] => True | x :: xs => r <= PackageAdapter.frame_revision x /\ rising (PackageAdapter.frame_revision x) xs end.
Lemma rising_snoc xs x : forall r, rising r xs -> r <= PackageAdapter.frame_revision x ->
  Forall (fun y => PackageAdapter.frame_revision y <= PackageAdapter.frame_revision x) xs -> rising r (xs ++ [x]).
Proof.
  induction xs as [|y xs IH]; intros r Hr Hle Hall; [by split|]. apply Forall_cons in Hall as [Hy Hall]. destruct Hr as [Hr Hrs]. split; [done|]. by apply IH.
Qed.
Lemma rising_pre xs : forall best s r, rising r xs -> exists d, PackageAdapter.pre_loop best s r (inr <$> xs) = inr d.
Proof.
  induction xs as [|x xs IH]; intros best s r Hr; cbn; [by eexists|]. destruct Hr as [Hr Hrs]. destruct (Z.ltb_spec (PackageAdapter.frame_revision x) r); [lia|].
  destruct (if Multiplexer.result_gt _ _ then _ else _) as [b t]. destruct (bool_decide _); [by eexists|]. by apply IH.
Qed.
Definition stops_last (l : list Decision) : Prop := forall l1 x l2, l = l1 ++ x :: l2 -> d_action x = 3 -> l2 = [].
Lemma no_stop_last l x : Forall (fun d => d_action d <> 3) l -> stops_last (l ++ [x]).
Proof.
  intros Hl l1 y l2 E Hy. destruct l2 as [|z l2 _] using rev_ind; [done|]. rewrite app_comm_cons, app_assoc in E. apply app_inj_tail in E as [-> ->].
  apply Forall_app in Hl as [_ Hl]. apply Forall_cons in Hl as [Hl _]. done.
Qed.

Lemma generic_run_collects fire p l : forall st c acc xs,
  Forall2 delivers acc xs -> rising 0 xs -> Forall (fun x => PackageAdapter.frame_revision x <= revision c) xs -> 0 <= revision c -> Forall (fun d => d_action d <> 3) acc ->
  exists xs' out, let y := generic_run env fire true st p c l acc (inr <$> xs) in
    y.2 = inr <$> xs' /\ Forall2 delivers y.1.2 xs' /\ rising 0 xs' /\ stops_last y.1.2 /\ y.1.2 = acc ++ out.*2 /\ heard fire p st c l out y.1.1.1 y.1.1.2.
Proof.
  induction l as [|s l IH]; intros st c acc xs Hd Hr Hle H0 Hns; cbn [generic_run].
  { exists xs, []. split_and!; try done; [|by rewrite app_nil_r|constructor]. cbn. intros l1 x l2 -> Hx. apply Forall_app in Hns as [_ Hns]. by apply Forall_cons in Hns as [Hns _]. }
  destruct (admissible st p None s) eqn:Had; cbn [negb].
  2: { destruct (IH st c acc xs Hd Hr Hle H0 Hns) as (xs' & out & H1 & H2 & H3 & H4 & H5 & H6). exists xs', out. split_and!; try done. by apply heard_passed. }
  pose proof (invoke_wrapper_result fire p st c s) as Hw. pose proof (invoke_wrapper_turn fire p st c s) as Ht. destruct (invoke_wrapper env fire st p c s) as [[st1 c1] r].
  destruct Hw as (Hrv & Hrange & _). cbn [fst snd] in *.
  assert (Hset : 0 <= d_action (settled r) <= 3) by (destruct r as [e|d]; [cbn; lia|by apply Hrange]).
  set (x := to_delivery c1 (settled r)). assert (Hx : PackageAdapter.frame_revision x = revision c1) by done.
  assert (Hd' : Forall2 delivers (acc ++ [settled r]) (xs ++ [x])) by (apply Forall2_app; [done|]; constructor; [by apply to_delivery_delivers|constructor]).
  assert (Hle' : Forall (fun y => PackageAdapter.frame_revision y <= revision c1) xs) by (eapply Forall_impl; [exact Hle|]; cbn; lia).
  assert (Hr' : rising 0 (xs ++ [x])) by (apply rising_snoc; [done|rewrite Hx; lia|by rewrite Hx]).
  assert (Hout : (inr <$> xs) ++ [inr x] = inr <$> xs ++ [x] :> list (string + _)) by (by rewrite fmap_app).
  cbv zeta. fold x. rewrite Hout. destruct (rising_pre (xs ++ [x]) PackageAdapter.DContinue Multiplexer.Continue 0 Hr') as [dd Epre]. unfold PackageAdapter.pre. rewrite Epre.
  cbn [andb]. destruct (Z.eqb_spec (d_action (settled r)) 3) as [Hs|Hs].
  { exists (xs ++ [x]), [(s, settled r)]. split_and!; try done; [by apply no_stop_last|]. by apply heard_stopped. }
  destruct (IH st1 c1 (acc ++ [settled r]) (xs ++ [x])) as (xs' & out & H1 & H2 & H3 & H4 & H5 & H6); try done; [|lia| |].
  - apply Forall_app. split; [done|]. constructor; [rewrite Hx; lia|constructor].
  - apply Forall_app. split; [done|]. by constructor.
  - exists xs', ((s, settled r) :: out). split_and!; try done; [|by apply heard_on with st1 c1]. by rewrite H5, <- app_assoc.
Qed.

(** C36. Before the call, the generic domain takes the first strongest decision. Its subscribers, those of the target that
    are generic and mutating, in the order of the dispatch, are heard one after another ([heard]): each that
    may be called when its turn comes has its callback run on what the ones before left, up to and including
    the first that stops, and the decisions delivered are exactly theirs; one refused counts as continuing.
    Whatever they do to the frame, the check that its revision never runs backwards does not fail; the call
    goes on if none asked for more than to continue, and otherwise the decision is that of the first
    subscriber none of the others exceeds, with the value it gave where it suppresses the call. *)
Theorem generic_decision_strongest fire (st : St) p c :
  f_phase p = 0 -> 0 <= revision c ->
  let y := run_group env fire 1 st p c in
  let listeners := filterb (fun s => sub_generic s && bool_decide (sub_mode s = Mutating)) (p_subs p) in
  exists d out, y.2 = inr d /\ y.1.2 = out.*2 /\ stops_last y.1.2 /\ heard fire (part_of p 1 c) st c listeners out y.1.1.1 y.1.1.2 /\
    (Forall (fun x => d_action x = 0) y.1.2 /\ d = none_ \/
     exists l1 x l2, y.1.2 = l1 ++ x :: l2 /\ Forall (fun z => d_action z < d_action x) l1 /\ Forall (fun z => d_action z <= d_action x) l2 /\
       d_action d = d_action x /\ d_action x <> 0 /\ d_value d = if suppresses (d_action x) then d_value x else None).
Proof.
  intros Hph H0. unfold run_group. cbv zeta. rewrite Hph. cbn [Z.eqb orb Pos.eqb].
  destruct (generic_run_collects fire (part_of p 1 c) (p_subs (part_of p 1 c)) st c [] [] ltac:(constructor) I ltac:(constructor) H0 ltac:(constructor)) as (xs & out & Eds & Hd & Hr & Hst & Eout & Hheard).
  destruct (generic_run _ _ _ _ _ _ _ _ _) as [[[st1 c1] acc] ds]. cbn [fst snd] in *. subst ds.
  destruct (rising_pre xs PackageAdapter.DContinue Multiplexer.Continue 0 Hr) as [res Epre]. change (PackageAdapter.pre (inr <$> xs) = inr res) in Epre. rewrite Epre. cbn.
  exists (of_pre res), out. split_and!; [done|done|done|exact Hheard|]. apply PackageAdapter.adapter_pre_strongest in Epre as (l & Hp & _ & Hlen & Hl).
  assert (l = xs) as ->.
  { destruct Hp as [k Hk]. destruct (decide (length l < length xs)%nat) as [Hlt|Hge].
    - rewrite length_fmap in Hlen. destruct (Hlen Hlt) as (x & Hx & Hs). apply last_Some in Hx as [l' ->].
      assert (exists k', xs = (l' ++ [x]) ++ k' /\ k' <> []) as (k' & -> & Hk').
      { apply fmap_app_inv in Hk as (a & b & Ha & Hb & ->). apply (inj (fmap inr)) in Ha as <-. exists b. split; [done|]. intros ->. rewrite app_nil_r in Hlt. lia. }
      rewrite <- app_assoc in Hd. apply Forall2_app_inv_r in Hd as (a & b & Ha & Hb & ->). apply Forall2_cons_inv_r in Hb as (y & b' & Hy & Hb' & ->).
      specialize (Hst a y b' eq_refl). rewrite Hst in Hb'; [by apply Forall2_nil_inv_l in Hb'|]. destruct Hy as [Hy _]. by rewrite <- Hy, Hs.
    - apply fmap_app_inv in Hk as (a & b & Ha & Hb & ->). apply (inj (fmap inr)) in Ha as <-. rewrite length_app in Hge. destruct b; [by rewrite app_nil_r|cbn in Hge; lia]. }
  destruct Hl as [[Hall ->]|(x & (l1 & l2 & -> & H1 & H2) & Hc & ->)].
  - left. split; [|done]. apply Forall_forall. intros d Hin. apply list_elem_of_lookup in Hin as [i Hi].
    destruct (Forall2_lookup_l _ _ _ _ _ Hd Hi) as (x & Hx & [Hrank _]). rewrite <- Hrank. by rewrite (proj1 (Forall_lookup _ _) Hall i x Hx).
  - right. apply Forall2_app_inv_r in Hd as (a1 & b & Ha1 & Hb & ->). apply Forall2_cons_inv_r in Hb as (y & a2 & [Hy Hv] & Ha2 & ->).
    assert (Hrel : forall P Q (m : list Decision) ms, Forall2 delivers m ms -> (forall d x, delivers d x -> P x -> Q d) -> Forall P ms -> Forall Q m).
    { intros P Q m ms Hm Hpq Hms. induction Hm as [|d z m ms Hdz Hm IH]; [constructor|]. apply Forall_cons in Hms as [? ?]. constructor; eauto. }
    exists a1, y, a2. split_and!; [done| | | | |].
    + eapply (Hrel _ _ _ _ Ha1); [|exact H1]. cbn. intros d z [Hz _]. rewrite <- Hz, <- Hy. done.
    + eapply (Hrel _ _ _ _ Ha2); [|exact H2]. cbn. intros d z [Hz _]. rewrite <- Hz, <- Hy. done.
    + rewrite <- Hy. unfold PackageAdapter.decision. by destruct (PackageAdapter.action x).
    + rewrite <- Hy. by destruct (PackageAdapter.action x).
    + rewrite <- Hy, <- Hv. unfold PackageAdapter.decision. by destruct (PackageAdapter.action x).
Qed.

(** ** The commit *)
(** What a commit looks at, in its own terms: the map epoch of what was staged is the one that is current;
    a binding is still registered to its owner, with the lives of both the entry and the copy held; a value
    can be written as it stands. *)
Definition epoch_current (w : World R) (epoch : Z) : Prop := epoch <> 0 /\ epoch = EntityLive.map_epoch (FunctionAdapter.books w).
Definition still_bound (w : World R) (b : Binding) : Prop :=
  binding_is_live (reg w) b = true /\
  exists b', bindings (reg w) !! b_id b = Some b' /\ b_owner b' = b_owner b /\ binding_is_live (reg w) b' = true.
Definition writable_value (w : World R) (v : ProjectedValue) : Prop :=
  match v with
  | Scalar _ => True
  | Pointer a => pointer_ok a = true
  | Copied _ => False
  | Entity_ None nullable => nullable = true
  | Entity_ (Some (index, id)) nullable => nullable = true \/ is_Some (EntityLive.engine_serial_for (FunctionAdapter.books w) index id)
  end.
Definition writer_valid (w : World R) (x : RecordWriter) : Prop :=
  still_bound w (rw_binding x) /\ owner_live w (rw_parent x) = true /\ epoch_current w (rw_epoch x).
Definition edit_valid (w : World R) (e : RecordEdit) : Prop :=
  still_bound w (re_binding e) /\ owner_live w (re_parent e) = true /\ epoch_current w (re_epoch e) /\ writable_value w (re_value e) /\
  match re_value e with Entity_ (Some r) _ => is_live (FunctionAdapter.books w) r = true | _ => True end.
Definition commit_valid (w : World R) (p : Part) (c : Cells) : Prop :=
  (is_trusted (p_binding p) = true -> epoch_current w (p_epoch p)) /\
  (forall id x, writers c !! id = Some x -> writer_valid w x) /\
  (forall k e, record_edits c !! k = Some e -> edit_valid w e) /\
  (forall i v f, edits c !! i = Some (v, f) -> SCRATCH_BASE < i -> (exists x, v = Copied x) \/ writable_value w v).

Lemma epoch_ok_current w e : epoch_ok w e = true <-> epoch_current w e.
Proof. unfold epoch_ok, epoch_current, map_now. rewrite andb_true_iff, negb_true_iff, Z.eqb_neq, Z.eqb_eq. done. Qed.
Lemma binding_bound w b : (exists x, binding (reg w) (b_id b) (b_owner b) = inr x) /\ binding_is_live (reg w) b = true <-> still_bound w b.
Proof.
  unfold still_bound, binding. split.
  - intros [(x & E) Hl]. split; [exact Hl|]. apply ok_or_inr in E. destruct (bindings (reg w) !! b_id b) as [b'|]; [|done]. cbn in E. exists b'.
    destruct (bool_decide _ && _) eqn:Eb; [|done]. bool_to_prop. done.
  - intros (Hl & b' & E & Ho & Hl'). split; [|exact Hl]. exists b'. rewrite E. cbn. rewrite bool_decide_eq_true_2 by done. by rewrite Hl'.
Qed.
Lemma encode_writable w v : (exists x, encode (FunctionAdapter.books w) v = inr x) <-> writable_value w v.
Proof.
  destruct v as [x|x|r n|a]; cbn.
  - split; [done|]. intros _. by eexists.
  - split; [by intros (? & ?)|done].
  - destruct r as [[index id]|]; cbn; [destruct (EntityLive.engine_serial_for _ _ _) as [z|] eqn:E; cbn|].
    + split; [intros _; right; by eexists|]. intros _. by eexists.
    + split; [intros (x & E'); apply rbind_inr in E' as (u & Hu & _); apply require_inr in Hu; by left|]. intros [->|[? ?]]; [by eexists|done].
    + split; [intros (x & E'); apply rbind_inr in E' as (u & Hu & _); by apply require_inr in Hu|]. intros ->. by eexists.
  - destruct (pointer_ok a); cbn; split; try done; [intros _; by eexists|by intros (? & ?)].
Qed.
Lemma writer_ok_valid w x : writer_ok w x = inr tt <-> writer_valid w x.
Proof.
  unfold writer_ok, writer_valid. rewrite rbind_inr, <- binding_bound, <- epoch_ok_current. setoid_rewrite require_inr. setoid_rewrite andb_true_iff. setoid_rewrite andb_true_iff. naive_solver.
Qed.
Lemma edit_ok_valid w e : validate_record_edit w e = inr tt <-> edit_valid w e.
Proof.
  unfold edit_valid. rewrite <- binding_bound, <- epoch_ok_current, <- encode_writable. split.
  - unfold validate_record_edit. intros E. succeeds. bool_to_prop. split_and!; eauto. by destruct (re_value e) as [| |[r|]|].
  - intros ([(b & Eb) Hl] & Ho & He & (x & Ex) & Hr). unfold validate_record_edit. rewrite Eb, Hl, Ho, He, Ex. cbn.
    destruct (re_value e) as [| |[r|]|]; try done. by rewrite Hr.
Qed.
Lemma elem_of_native_edits c i v f : (i, (v, f)) ∈ native_edits c <-> edits c !! i = Some (v, f) /\ SCRATCH_BASE < i.
Proof. unfold native_edits. rewrite elem_of_filterb, elem_of_btree_to_list, Z.ltb_lt. tauto. Qed.
Lemma elem_of_record_list c k e : (k, e) ∈ record_list c <-> record_edits c !! k = Some e.
Proof. unfold record_list. rewrite merge_sort_Permutation. apply elem_of_map_to_list. Qed.
Lemma check_commit_valid w p c : check_commit w p c = inr tt <-> commit_valid w p c.
Proof.
  unfold check_commit, commit_valid. rewrite rbind_inr. setoid_rewrite require_inr. setoid_rewrite rbind_inr. setoid_rewrite rbind_inr. setoid_rewrite reach_inr.
  assert (Ht : negb (is_trusted (p_binding p)) || epoch_ok w (p_epoch p) = true <-> (is_trusted (p_binding p) = true -> epoch_current w (p_epoch p))).
  { rewrite <- epoch_ok_current. destruct (is_trusted _), (epoch_ok w (p_epoch p)); cbn; naive_solver. }
  assert (Hn : forall x : Z * (ProjectedValue * string),
    match x.2.1 with Copied _ => inr tt | v => match encode (FunctionAdapter.books w) v with inl e => inl (x.2.2 +:+ ": " +:+ e) | inr _ => inr tt end end = inr tt <->
    (exists y, x.2.1 = Copied y) \/ writable_value w x.2.1).
  { intros [i [v f]]. cbn [fst snd]. pose proof (encode_writable w v) as Hv. destruct v as [|y| |]; [|split; [intros _; left; by eexists|done]|..];
      rewrite <- Hv; (destruct (encode _ _); [split; [done|by intros [(? & ?)|(? & ?)]]|split; [intros _; right; by eexists|done]]). }
  split.
  - intros (_ & H1 & _ & H2 & _ & H3 & H4). split_and!; [by apply Ht| | |].
    + intros id x Hx. apply writer_ok_valid. apply (H2 (id, x)). by apply elem_of_btree_to_list.
    + intros k e He. apply edit_ok_valid. apply (H3 (k, e)). by apply elem_of_record_list.
    + intros i v f Hi Hb. exact (proj1 (Hn (i, (v, f))) (H4 (i, (v, f)) (proj2 (elem_of_native_edits c i v f) (conj Hi Hb)))).
  - intros (H1 & H2 & H3 & H4). exists tt. split; [by apply Ht|]. exists tt. split; [|exists tt; split].
    + intros [id x] Hx%elem_of_btree_to_list. apply writer_ok_valid. by eapply H2.
    + intros [k e] He%elem_of_record_list. apply edit_ok_valid. by eapply H3.
    + intros [i [v f]] [Hi Hb]%elem_of_native_edits. exact (proj2 (Hn (i, (v, f))) (H4 i v f Hi Hb)).
Qed.

(** The order of what is asked: fields by position, then record fields by position and field, then the decision. *)
Definition asked_before (a b : Event) : Prop :=
  match a, b with
  | Write _ i _, Write _ j _ => i < j
  | Write _ _ _, (WriteField _ _ _ _ | Commit _ _ _) => True
  | WriteField _ i f _, WriteField _ j g _ => i < j \/ i = j /\ f < g
  | WriteField _ _ _ _, Commit _ _ _ => True
  | _, _ => False
  end.
(** What a commit has to ask for: every field and record field of the overlay with its value, and the decision. *)
Definition to_ask (p : Part) (c : Cells) (d : Decision) (e : Event) : Prop :=
  (exists i v f, edits c !! i = Some (v, f) /\ SCRATCH_BASE < i /\ e = Write p i v) \/
  (exists i f x, record_edits c !! (i, f) = Some x /\ e = WriteField p i f x) \/
  e = Commit p (d_action d) (d_value d).
Definition commit_events (p : Part) (c : Cells) (d : Decision) : list Event :=
  ((fun e => e.2.1) <$> writes p c) ++ ((fun e => e.2.1) <$> record_writes p c) ++ [Commit p (d_action d) (d_value d)].
Lemma native_events p c : (fun e => e.2.1) <$> writes p c = (fun kv => Write p kv.1 kv.2.1) <$> native_edits c :> list Event.
Proof. unfold writes. by rewrite <- list_fmap_compose. Qed.
Lemma record_events p c : (fun e => e.2.1) <$> record_writes p c = (fun kv => WriteField p kv.1.1 kv.1.2 kv.2) <$> record_list c :> list Event.
Proof. unfold record_writes. by rewrite <- list_fmap_compose. Qed.
Lemma commit_events_exact p c d e : e ∈ commit_events p c d <-> to_ask p c d e.
Proof.
  unfold commit_events, to_ask. rewrite native_events, record_events, !elem_of_app, list_elem_of_singleton, !list_elem_of_fmap. split.
  - intros [([i [v f]] & -> & [Hi Hb]%elem_of_native_edits)|[([[i f] x] & -> & Hx%elem_of_record_list)| ->]]; [left; eauto 10|right; left; eauto 10|by right; right].
  - intros [(i & v & f & Hi & Hb & ->)|[(i & f & x & Hx & ->)| ->]]; [left|right; left|by right; right].
    + exists (i, (v, f)). split; [done|]. by apply elem_of_native_edits.
    + exists (i, f, x). split; [done|]. by apply elem_of_record_list.
Qed.
Lemma strict_of_NoDup {A K} (key : A -> K) (le lt : A -> A -> Prop) l :
  (forall a b, le a b -> key a <> key b -> lt a b) -> StronglySorted le l -> NoDup (key <$> l) -> StronglySorted lt l.
Proof.
  intros Hlt Hs. induction Hs as [|a l Hs IH Ha]; [constructor|]. rewrite fmap_cons, NoDup_cons. intros [Hni Hnd]. constructor; [by apply IH|].
  rewrite Forall_forall in *. intros b Hb. apply Hlt; [by apply Ha|]. intros E. apply Hni. rewrite E. by apply list_elem_of_fmap_2.
Qed.
Lemma record_list_sorted c : StronglySorted (fun a b => a.1.1 < b.1.1 \/ a.1.1 = b.1.1 /\ a.1.2 < b.1.2) (record_list c).
Proof.
  apply (strict_of_NoDup fst pair_le).
  - unfold pair_le. intros [[i f] x] [[j g] y]. cbn. intros [|[-> ?]] Hne; [by left|]. right. split; [done|]. assert (f <> g) by congruence. lia.
  - assert (Transitive pair_le) by (unfold pair_le; intros ???; lia). assert (Total pair_le) by (unfold pair_le; intros ??; lia).
    apply (StronglySorted_merge_sort _).
  - unfold record_list. rewrite merge_sort_Permutation. apply NoDup_fst_map_to_list.
Qed.
Lemma commit_events_sorted p c d : StronglySorted asked_before (commit_events p c d).
Proof.
  unfold commit_events. rewrite native_events, record_events. apply StronglySorted_app. split_and!; [|eapply StronglySorted_fmap|apply StronglySorted_app; split_and!].
  - intros a b (x & -> & _)%list_elem_of_fmap [(y & -> & _)%list_elem_of_fmap| ->%list_elem_of_singleton]%elem_of_app; exact I.
  - intros a b Hab. exact Hab.
  - apply (strictly_sorted_filterb _ _ (btree_sorted (edits c))).
  - intros a b (x & -> & _)%list_elem_of_fmap ->%list_elem_of_singleton. exact I.
  - eapply StronglySorted_fmap; [|apply record_list_sorted]. intros a b Hab. exact Hab.
  - repeat constructor.
Qed.
Lemma write_all_cons {K} (e : K * (Event * string)) es (st : St) :
  write_all env st (e :: es) = match answer_ env (log st) e.2.1 with
                               | Some why => (note env st e.2.1, inl (e.2.2 +:+ why))
                               | None => write_all env (note env st e.2.1) es
                               end.
Proof.
  unfold write_all, note. cbn [foldl]. unfold ask. cbn [fst]. destruct (answer_ env (log st) e.2.1) as [why|]; [|done].
  generalize (mkSt (world st) (busy st) (log st ++ [e.2.1])) (e.2.2 +:+ why). intros x w. by induction es.
Qed.
Lemma write_all_sends {K} (es : list (K * (Event * string))) : forall (st : St),
  exists sent left, (fun e => e.2.1) <$> es = sent ++ left /\ log (write_all env st es).1 = log st ++ sent /\ world (write_all env st es).1 = world st /\
    match (write_all env st es).2 with
    | inr _ => left = []
    | inl _ => exists before e why, sent = before ++ [e] /\ answer_ env (log st ++ before) e = Some why
    end.
Proof.
  induction es as [|e es IH]; intros st; [exists [], []; by split_and!; [|cbn; rewrite app_nil_r|..]|]. rewrite write_all_cons. destruct (answer_ env (log st) e.2.1) as [why|] eqn:Ea.
  - exists [e.2.1], ((fun e => e.2.1) <$> es). split_and!; [done..|]. exists [], e.2.1, why. by rewrite app_nil_r.
  - destruct (IH (note env st e.2.1)) as (sent & left & Ees & Elog & Ew & Er). exists (e.2.1 :: sent), left.
    split_and!; [by rewrite fmap_cons, Ees|rewrite Elog; cbn; by rewrite <- app_assoc|exact Ew|]. destruct (write_all env _ es).2 as [why|u]; [|exact Er].
    destruct Er as (b & x & w & -> & Hx). exists (e.2.1 :: b), x, w. split; [done|]. rewrite <- Hx. cbn. by rewrite <- app_assoc.
Qed.

(** C40. A commit is checked whole before the engine hears of it. Unless the trusted part's map is still
    the current one, the binding of every writer and of every record edit is still registered and live with
    a live parent in the current map, every record edit and every field can be written as it stands and
    every entity of a record edit lives ([commit_valid]), nothing is asked, nothing changes and the commit
    fails. Otherwise there is one list of what is to be asked: exactly the fields above the scratch positions
    and the record fields of the overlay, each once with its staged value, and the decision, in the order of
    position, of position and field, and the decision last. What was asked is the start of that list, all of
    it exactly when the commit succeeds; on failure its last entry is what the engine refused. *)
Theorem commit_checked_and_ordered (st : St) p c d st' r :
  commit env st p c d = (st', r) ->
  (~ commit_valid (world st) p c -> st' = st /\ exists e, r = inl e) /\
  (commit_valid (world st) p c ->
     exists events sent left, (forall e, e ∈ events <-> to_ask p c d e) /\ StronglySorted asked_before events /\
       events = sent ++ left /\ log st' = log st ++ sent /\ world st' = world st /\
       match r with
       | inr _ => left = []
       | inl _ => exists before e why, sent = before ++ [e] /\ answer_ env (log st ++ before) e = Some why
       end).
Proof.
  unfold commit. rewrite <- (check_commit_valid (world st) p c). destruct (check_commit (world st) p c) as [e|[]]; intros E.
  { injection E as <- <-. split; [|done]. intros _. split; [done|]. by eexists. }
  split; [done|]. intros _. exists (commit_events p c d).
  pose proof (write_all_sends (writes p c ++ record_writes p c ++ [(0, (Commit p (d_action d) (d_value d), fn_id (b_function (p_binding p)) +:+ ": "))]) st) as (sent & left & Ees & H').
  rewrite E in H'. exists sent, left. split; [apply commit_events_exact|]. split; [apply commit_events_sorted|]. split; [|exact H'].
  rewrite <- Ees. unfold commit_events. by rewrite !fmap_app.
Qed.

(** A POST call pairs with the row its PRE left. Without one for the same target and invocation nothing is
    asked of the engine or of any callback, and nothing changes. *)
Theorem post_without_pre_is_silent fuel (st : St) target info :
  invocation_at (world st) (target, invocation_id info) = None -> (dispatch env fuel st target info 1).1 = st.
Proof.
  intros Hn. destruct fuel as [|fuel]; [done|]. cbn [dispatch]. unfold dispatch_inner. cbv zeta. destruct (scope_enter env (log st)); [done|].
  destruct (meta_ok target info 1); cbn [negb Z.eqb Pos.eqb]; [|done]. rewrite Hn.
  assert (take_invocation st (target, invocation_id info) = st) as ->.
  { unfold take_invocation, set_world. destruct st as [w b l]. cbn [world busy log] in *. f_equal. unfold set_invocations. unfold invocation_at in Hn.
    rewrite delete_id by done. by destruct w. }
  match goal with |- (match ?b with inl _ => _ | inr _ => _ end).1 = _ => destruct b end; [done|]. unfold pick_adapter. cbn [Z.eqb Pos.eqb mbind option_bind].
  unfold finish_dispatch. cbn [is_some andb negb mbind option_bind]. repeat case_match; done.
Qed.
End Properties.
End DispatchProperties.

Module DispatchExamples.
Import RegistryLedger AdapterExamples DispatchProperties FunctionDispatch.FunctionDispatch.

(** The engine takes everything; [p]'s adapter asks its cursor once and lets the call go on, its wrapper
    answers nothing and the observer, 8, is what is tried. *)
Definition quiet : Sees (R := Z * Registry.Registry) (list Act) := fun _ _ _ => [].
Definition answers (v : option Returned) : Program (R := Z * Registry.Registry) := Finish quiet (fun _ _ _ => v).
Definition adapter_program : Program (R := Z * Registry.Registry) := Next quiet (fun _ => answers (Some RUndefined)).
Definition engine (wrapper observer : Program) : Env (R := Z * Registry.Registry) :=
  mkEnv (fun f => if f =? 5 then adapter_program else if f =? 6 then wrapper else observer)
    (fun _ => None) (fun _ _ => None) (fun _ => false) (fun _ => false) (fun _ => true) (fun _ _ => Some 1) (fun _ _ _ => inl "none") (fun _ _ _ _ => None)
    (fun _ _ => None) (fun _ _ => None).
Definition call (n : Z) (phase : Z) : FrameInfo := mkInfo 1 48 1 1 n 0 1 0.
Definition start : St (R := Z * Registry.Registry) := mkSt (step played (SetPhase "p" PluginLedger.Active)) [] [].
Definition seen (e : Event (R := Z * Registry.Registry)) : string * Z :=
  match e with
  | Called _ _ _ None => ("adapter", 0)
  | Called _ _ _ (Some s) => ("subscriber", sub_id s)
  | Write _ i _ => ("write", i)
  | WriteField _ i f _ => ("field", f)
  | Override_ _ _ _ _ => ("override", 0)
  | Commit _ a _ => ("commit", a)
  end.
(** The call before and after. *)
Definition ran (wrapper observer : Program) (fuel : nat) : list (string * Z) * (string + unit) * (string + unit) :=
  let before := dispatch (engine wrapper observer) fuel start 100 (call 1 0) 0 in
  let after := dispatch (engine wrapper observer) fuel before.1 100 (call 1 0) 1 in
  (seen <$> log after.1, before.2, after.2).
(** Before, the adapter runs and its cursor calls the package's subscriber; the engine commits; after, the observer. *)
Example dispatch_order : ran (answers (Some RUndefined)) (answers (Some RUndefined)) 2 = ([("adapter", 0); ("subscriber", 3); ("commit", 0); ("subscriber", 5)], inr tt, inr tt).
Proof. vm_compute. reflexivity. Qed.
(** A subscriber that throws is passed over, as is an observer that wants to decide. *)
Example dispatch_refusals : ran (answers None) (answers (Some (RInt 3))) 2 = ([("adapter", 0); ("subscriber", 3); ("commit", 0); ("subscriber", 5)], inr tt, inr tt).
Proof. vm_compute. reflexivity. Qed.
(** The observer makes the engine call the hooked function again: its plugin is busy, so nobody is called inside. *)
Definition again : Program (R := Z * Registry.Registry) := Finish (fun _ _ _ => [Fire 100 (call 2 0) 0]) (fun _ _ _ => Some RUndefined).
Example dispatch_nested : (ran (answers (Some RUndefined)) again 3).1.1 = [("adapter", 0); ("subscriber", 3); ("commit", 0); ("subscriber", 5)].
Proof. vm_compute. reflexivity. Qed.
(** After the plugin unloads in a callback the call is committed and nobody else is called. *)
Definition unloads : Program (R := Z * Registry.Registry) := Finish (fun _ _ _ => [Do (Unload "p")]) (fun _ _ _ => Some RUndefined).
Example dispatch_unloaded : (ran unloads (answers None) 2).1.1 = [("adapter", 0); ("subscriber", 3); ("commit", 0)].
Proof. vm_compute. reflexivity. Qed.

(** Two generic subscribers of a function that suppresses: one sets its field and asks to stop, one throws. *)
Definition field_ : Position := mkPosition "x" "i32" (mkProjection "i32" 1) None ["pre"] None false.
Definition hook (suppression : string) : Function_ :=
  let f := hit "p::hit" in
  mkFn (fn_name f) (fn_id f) (fn_hash f) (fn_target f) (mkSignature "linux-x86_64-sysv" false None [field_] (physical_pos "i32") "f" 128 [] [])
    (mkPolicy "generic.v2" 1 "c" ["pre"; "post"] "bypass-own-hooks" suppression) "required" PublicV2.
Definition hook_binding (suppression : string) : Binding := mkBinding 4 None (plugin_key "p" 1) (hook suppression) (Some 100) None None unproven.
Definition listener (suppression : string) (id wrapper : Z) : Subscription :=
  mkSubscription id (plugin_key "p" 1) None "generic.v2" (mkAdapterContract "generic.v2" 1 "c") Mutating true 0 None (hook_binding suppression) wrapper.
Definition five : ProjectedValue := Scalar (mkWire 1 0 0 5 0).
Definition sets (v : option Returned) : Program (R := Z * Registry.Registry) := Finish (fun l _ _ => [SetField (l_id l) 0 (inr five)]) (fun _ _ _ => v).
Definition hooked (suppression : string) : Part := mkPart 100 (call 1 0) 0 (hook_binding suppression) None [listener suppression 3 6; listener suppression 5 8] 0.
Definition no_fire (st : St (R := Z * Registry.Registry)) (_ : Z) (_ : FrameInfo) (_ : Z) : St (R := Z * Registry.Registry) * (string + unit) := (st, inr tt).
Definition empty_cells : Cells := mkCells 7 ∅ ∅ ∅ None.


Definition refusal : St (R := Z * Registry.Registry) * Cells * (string + Decision) :=
  invoke_wrapper (engine (sets None) (answers None)) no_fire start (hooked "none") empty_cells (listener "none" 3 6).
Example refusal_result : refusal.2 = inl "subscriber wrapper threw".
Proof. vm_compute. reflexivity. Qed.
(** Accepted, the same edit is in the overlay. *)
Example acceptance_result :
  bool_decide (is_Some (edits (invoke_wrapper (engine (sets (Some RUndefined)) (answers None)) no_fire start (hooked "none") empty_cells (listener "none" 3 6)).1.2 !! 0)) = true.
Proof. vm_compute. reflexivity. Qed.
Lemma refused_callback_keeps_nothing_witness : edits refusal.1.2 = ∅ /\ revision refusal.1.2 = 7.
Proof.
  pose proof refusal_result as Hr. unfold refusal in *. destruct (invoke_wrapper _ _ _ _ _ _) as [[st' c'] [e|d]] eqn:E; [|discriminate Hr].
  destruct (refused_callback_keeps_nothing _ _ _ _ _ _ _ _ _ E eq_refl) as (He & _ & _ & _ & Hrev). split; [exact He|exact (Hrev eq_refl)].
Defined.

(** The first sets and asks to stop with a value: the second is not asked. *)
Definition stopping : Program (R := Z * Registry.Registry) := sets (Some (RObject (Some 3) None (inr five))).
Definition strongest : St (R := Z * Registry.Registry) * Cells * list Decision * (string + Decision) :=
  run_group (engine stopping (answers None)) no_fire 1 start (hooked "generic") empty_cells.
Example strongest_result : (strongest.1.2, strongest.2) = ([mkDecision 3 (Some five)], inr (mkDecision 3 (Some five))).
Proof. vm_compute. reflexivity. Qed.
Lemma generic_decision_strongest_witness :
  0 <= revision empty_cells /\
  exists d out, strongest.2 = inr d /\ strongest.1.2 = out.*2 /\
    heard (engine stopping (answers None)) no_fire (part_of (hooked "generic") 1 empty_cells) start empty_cells
      [listener "generic" 3 6; listener "generic" 5 8] out strongest.1.1.1 strongest.1.1.2.
Proof.
  split; [discriminate|].
  destruct (generic_decision_strongest (engine stopping (answers None)) no_fire start (hooked "generic") empty_cells eq_refl ltac:(discriminate)) as (d & out & Hd & Hout & _ & Hh & _).
  exists d, out. split; [exact Hd|]. split; [exact Hout|exact Hh].
Defined.

Definition committing : St (R := Z * Registry.Registry) * (string + unit) :=
  commit (engine (answers None) (answers None)) start (hooked "generic") (set_edits empty_cells {[ 0 := (five, "hit") ]}) none_.
Example commit_result : (seen <$> log committing.1, committing.2) = ([("write", 0); ("commit", 0)], inr tt).
Proof. vm_compute. reflexivity. Qed.
Lemma committing_valid : commit_valid (world start) (hooked "generic") (set_edits empty_cells {[ 0 := (five, "hit") ]}).
Proof. apply check_commit_valid. vm_compute. reflexivity. Qed.
(** A pointer that no user address can be is refused before anything is asked. *)
Definition refused_cells : Cells := set_edits empty_cells {[ 0 := (five, "hit"); 1 := (Pointer 1, "hit") ]}.
Example commit_refused : (seen <$> log (commit (engine (answers None) (answers None)) start (hooked "generic") refused_cells none_).1) = [].
Proof. vm_compute. reflexivity. Qed.
Lemma commit_checked_and_ordered_witness :
  committing.2 = inr tt /\
  exists events : list (Event (R := Z * Registry.Registry)),
    log committing.1 = log start ++ events /\ StronglySorted asked_before events /\ Write (hooked "generic") 0 five ∈ events.
Proof.
  split; [exact (f_equal snd commit_result)|]. pose proof (f_equal snd commit_result) as Hr. cbn [snd] in Hr.
  destruct committing as [st' r] eqn:E. destruct (commit_checked_and_ordered (engine (answers None) (answers None)) start (hooked "generic")
    (set_edits empty_cells {[ 0 := (five, "hit") ]}) none_ st' r E) as [_ Hc]. destruct (Hc committing_valid) as (events & sent & left & Hin & Hs & Hev & Hlog & _ & Hl).
  cbn [snd] in Hr. rewrite Hr in Hl. rewrite Hl, app_nil_r in Hev. exists events. rewrite Hev at 1. split; [exact Hlog|]. split; [exact Hs|].
  apply Hin. left. exists 0, five, "hit". split; [apply lookup_singleton_eq|]. split; reflexivity.
Defined.
Example no_invocation : invocation_at (world start) (100, 1) = None.
Proof. vm_compute. reflexivity. Qed.
Lemma post_without_pre_is_silent_witness : invocation_at (world start) (100, 1) = None /\ (dispatch (engine (answers None) (answers None)) 3 start 100 (call 1 0) 1).1 = start.
Proof. split; [exact no_invocation|]. exact (post_without_pre_is_silent (engine (answers None) (answers None)) 3 start 100 (call 1 0) no_invocation). Defined.
End DispatchExamples.
