(* ===== verification/RepairSnapshot.v ===== *)
(** The repair snapshot of a game package (core/src/game_packages/repair_snapshot.rs).

    When a package is committed, the shim hands over what the operator's custom files changed, as one
    binary packet. The bytes are external input. [decode] reads it with a [Reader] that knows its place and
    how much text and raw data it has taken; [packet] is the reference encoding, and what [decode] admits
    is shown to be exactly the packets of well-formed snapshots. The status document is printed by a
    third-party library; capacities of the allocator are not modelled. *)
From S2P Require Import Prelude.
From S2P Require Import Results.
From S2P Require Import Utf8.
From S2P Require Import Text.
From Stdlib Require Import Ascii.
From Stdlib Require String.
Import Utf8.Utf8.
Import Text.Text.

Module RepairSnapshot.

(** ** Data *)
Definition MAX_PACKET : Z := 4 * 1024 * 1024 + 256 * 1024 + 128 * 1024.
Definition MAX_RAW : Z := 4 * 1024 * 1024.
Definition MAX_METADATA : Z := 256 * 1024.
Record Effect := mkEffect { e_section : string; e_name : string; e_platform : string; e_result : string; e_validator : string; e_error : string }.
Record Repair := mkRepair { r_path : string; r_bytes : string; r_result : string; r_error : string; r_effects : list Effect }.
Record Snapshot := mkSnapshot { repairs : list Repair; custom_paths : list string }.

(** ** The reader *)
Record Reader := mkReader { input : string; at_ : Z; metadata : Z; raw : Z }.
(** [input.get(a..b)] *)
Definition slice (s : string) (a b : Z) : option string :=
  if (a <=? b) && (b <=? blen s) then Some (Stdlib.Strings.String.substring (Z.to_nat a) (Z.to_nat (b - a)) s) else None.
(** [u32::from_le_bytes] *)
Fixpoint from_le (s : string) : Z :=
  match s with EmptyString => 0 | String c s => Z.of_nat (byte c) + 256 * from_le s end.
Definition count (r : Reader) : string + (Z * Reader) :=
  let* end_ := ok_or (checked_add (at_ r) 4) "repair snapshot length overflow" in
  let* bytes := ok_or (slice (input r) (at_ r) end_) "truncated repair snapshot" in
  inr (from_le bytes, mkReader (input r) end_ (metadata r) (raw r)).
Definition field (max : Z) (is_raw : bool) (r : Reader) : string + (string * Reader) :=
  let* (n, r) := count r in
  let* _ := require (n <=? max) "repair snapshot field size limit" in
  let* total := ok_or (checked_add (if is_raw then raw r else metadata r) n) "repair snapshot length overflow" in
  let* _ := require (total <=? if is_raw then MAX_RAW else MAX_METADATA) "repair snapshot aggregate size limit" in
  let r := if is_raw then mkReader (input r) (at_ r) (metadata r) total else mkReader (input r) (at_ r) total (raw r) in
  let* end_ := ok_or (checked_add (at_ r) n) "repair snapshot length overflow" in
  let* value := ok_or (slice (input r) (at_ r) end_) "truncated repair snapshot" in
  inr (value, mkReader (input r) end_ (metadata r) (raw r)).
Definition text (max : Z) (r : Reader) : string + (string * Reader) :=
  let* (bytes, r) := field max false r in
  let* s := ok_or (from_utf8 bytes) "invalid repair snapshot UTF-8" in
  inr (s, r).

(** ** What a snapshot may hold *)
Definition safe_path (path : string) : bool :=
  match strip_prefix "custom/" path with
  | None => false
  | Some name =>
      negb (String.eqb name "") && negb (contains "/"%char name) && negb (contains "\"%char name) && negb (contains ":"%char name)
      && negb (contains Ascii.zero name) && negb (String.eqb name ".") && negb (String.eqb name "..")
      && (ends_with ".json" name || ends_with ".jsonc" name)
  end.
Definition one_of (s : string) (l : list string) : bool := existsb (String.eqb s) l.
Definition effect_ok (e : Effect) : bool :=
  negb ((negb (one_of (e_section e) ["interfaces"; "offsets"; "signatures"; "keys"; "calls"; "hooks"]) && negb (String.eqb (e_section e) "document")
         && negb (String.eqb (e_result e) "ignored"))
        || negb (one_of (e_result e) ["applied"; "invalid"; "other-platform"; "ignored"])
        || negb (one_of (e_validator e) [""; "unchanged"; "explicit"; "empty"; "carried"; "disarmed"])
        || negb (Bool.eqb (String.eqb (e_section e) "offsets" || String.eqb (e_section e) "signatures") (negb (is_empty (e_platform e))))
        || negb (Bool.eqb (String.eqb (e_result e) "invalid") (negb (is_empty (e_error e))))
        || (String.eqb (e_result e) "ignored" && (negb (is_empty (e_name e)) || negb (is_empty (e_validator e))))
        || is_empty (e_section e)
        || (String.eqb (e_section e) "document" && negb (String.eqb (e_result e) "invalid"))).
Definition results : list string := ["read-error"; "parse-error"; "empty"; "applied"; "type-error"].
Definition unparsed (result : string) : bool := one_of result ["read-error"; "parse-error"].

(** ** [decode] *)
(** [n] items in a row, each with what the ones before it left. *)
Fixpoint items {A S} (n : nat) (f : S -> Reader -> string + (A * S * Reader)) (s : S) (r : Reader) : string + (list A * S * Reader) :=
  match n with
  | O => inr ([], s, r)
  | Datatypes.S n =>
      let* (x, r) := f s r in
      let* (l, r) := items n f x.2 r in
      inr (x.1 :: l.1, l.2, r)
  end.
Definition decode_effect (path : string) (_ : unit) (r : Reader) : string + (Effect * unit * Reader) :=
  let* (section, r) := text 32 r in
  let* (name, r) := text 240 r in
  let* (platform, r) := text 64 r in
  let* (result, r) := text 32 r in
  let* (validator, r) := text 32 r in
  let* (error, r) := text 4096 r in
  let e := mkEffect section name platform result validator error in
  let* _ := require (effect_ok e) (path +:+ ": invalid repair effect") in
  inr (e, tt, r).
(** Beside the reader: the path before, and the effects so far. *)
Definition decode_repair (s : string * Z) (r : Reader) : string + (Repair * (string * Z) * Reader) :=
  let* (path, r) := text 240 r in
  let* _ := require (safe_path path && (is_empty s.1 || negb (bool_decide (String.le path s.1)))) ("invalid, duplicate or unsorted repair snapshot path: " +:+ path) in
  let* (result, r) := text 32 r in
  let* _ := require (one_of result results) (path +:+ ": invalid repair result") in
  let* (error, r) := text 4096 r in
  let* (bytes, r) := field (256 * 1024) true r in
  let* (n, r) := count r in
  let* total := ok_or (checked_add s.2 n) "repair effect count overflow" in
  let* _ := require (total <=? 4096) (path +:+ ": repair effect count limit") in
  let* (effects, r) := items (Z.to_nat n) (decode_effect path) tt r in
  let effects := effects.1 in
  let* _ := require (Bool.eqb (unparsed result || String.eqb result "type-error") (negb (is_empty error))) (path +:+ ": repair result/error mismatch") in
  let* _ := require (negb (unparsed result && negb (match effects with [] => true | _ => false end))) (path +:+ ": unparsed repair has effects") in
  let* _ := require (negb (String.eqb result "type-error" && negb (existsb (fun e => String.eqb (e_result e) "invalid") effects))) (path +:+ ": missing invalid entry") in
  inr (mkRepair path bytes result error effects, (path, total), r).
Definition decode_path (_ : unit) (r : Reader) : string + (string * unit * Reader) := let* (s, r) := text 240 r in inr (s, tt, r).
Definition parsed (x : Repair) : bool := negb (unparsed (r_result x)).
Definition decode (input_ : string) : string + Snapshot :=
  let* _ := require ((blen input_ <=? MAX_PACKET) && bool_decide (slice input_ 0 4 = Some "GCR1")) "invalid repair snapshot version or size" in
  let r := mkReader input_ 4 0 0 in
  let* (n, r) := count r in
  let* _ := require (n <=? 64) "repair snapshot file count limit" in
  let* (l, r) := items (Z.to_nat n) decode_repair ("", 0) r in
  let* (m, r) := count r in
  let* _ := require (m <=? 64) "repair applied path count limit" in
  let* (paths, r) := items (Z.to_nat m) decode_path tt r in
  let* _ := require (bool_decide (r_path <$> filterb parsed l.1 = paths.1)) "repair snapshot captured/applied identity mismatch" in
  let* _ := require (at_ r =? blen input_) "repair snapshot trailing bytes" in
  inr (mkSnapshot l.1 paths.1).
(** The repairs that replaced one named signature, in the order they were applied, with their files. *)
Definition signature_repairs (s : Snapshot) (name : string) : list (Repair * Effect) :=
  flat_map (fun x => (fun e => (x, e)) <$> filterb (fun e => String.eqb (e_section e) "signatures" && String.eqb (e_name e) name && String.eqb (e_result e) "applied") (r_effects x)) (repairs s).

(** ** The reference *)
Fixpoint to_le (n : nat) (z : Z) : string :=
  match n with O => EmptyString | S n => String (ascii_of_nat (Z.to_nat (z mod 256))) (to_le n (z / 256)) end.
Definition word (z : Z) : string := to_le 4 z.
Definition field_bytes (s : string) : string := word (blen s) +:+ s.
Definition concat_ (l : list string) : string := foldr (fun a b => a +:+ b) "" l.
Definition effect_bytes (e : Effect) : string :=
  field_bytes (e_section e) +:+ field_bytes (e_name e) +:+ field_bytes (e_platform e) +:+ field_bytes (e_result e) +:+ field_bytes (e_validator e)
  +:+ field_bytes (e_error e).
Definition repair_bytes (x : Repair) : string :=
  field_bytes (r_path x) +:+ field_bytes (r_result x) +:+ field_bytes (r_error x) +:+ field_bytes (r_bytes x) +:+ word (Z.of_nat (length (r_effects x)))
  +:+ concat_ (effect_bytes <$> r_effects x).
Definition packet (s : Snapshot) : string :=
  "GCR1" +:+ word (Z.of_nat (length (repairs s))) +:+ concat_ (repair_bytes <$> repairs s)
  +:+ word (Z.of_nat (length (custom_paths s))) +:+ concat_ (field_bytes <$> custom_paths s).

(** ** The reader against the reference *)
Lemma substring_app pre s post : Stdlib.Strings.String.substring (String.length pre) (String.length s) (pre +:+ (s +:+ post)) = s.
Proof.
  induction pre as [|x pre IH]; [|exact IH]. induction s as [|y s IH]; [by destruct post|]. exact (f_equal (String y) IH).
Qed.
Lemma split_at n t : (n <= String.length t)%nat -> exists v t', t = v +:+ t' /\ String.length v = n.
Proof.
  revert t. induction n as [|n IH]; intros t Hn; [by exists "", t|]. destruct t as [|x t]; cbn in *; [lia|]. destruct (IH t) as (v & t' & -> & Hv); [lia|].
  exists (String x v), t'. cbn. by rewrite Hv.
Qed.

(** [r] has [t] still to read. *)
Definition at_rest (r : Reader) (t : string) : Prop := exists pre, input r = pre +:+ t /\ at_ r = blen pre.
Definition fits (r : Reader) : Prop := 0 <= metadata r <= MAX_METADATA /\ 0 <= raw r <= MAX_RAW /\ blen (input r) <= MAX_PACKET.
Definition advance (r : Reader) (s : string) (dm dr : Z) : Reader := mkReader (input r) (at_ r + blen s) (metadata r + dm) (raw r + dr).
Lemma at_rest_advance r s t dm dr : at_rest r (s +:+ t) -> at_rest (advance r s dm dr) t.
Proof. intros (pre & E & A). exists (pre +:+ s). cbn. rewrite E, A, blen_app. split; [by rewrite app_assoc_s|done]. Qed.
Lemma advance_advance r s t a b c d : advance (advance r s a b) t c d = advance r (s +:+ t) (a + c) (b + d).
Proof. unfold advance. cbn. rewrite blen_app. f_equal; lia. Qed.

Lemma slice_rest r t n v : at_rest r t -> 0 <= n -> slice (input r) (at_ r) (at_ r + n) = Some v <-> exists t', t = v +:+ t' /\ blen v = n.
Proof.
  intros (pre & E & A) Hn. unfold slice. rewrite E, A, blen_app. pose proof (blen_nonneg pre). split.
  - destruct (Z.leb_spec (blen pre) (blen pre + n)); [|done]. destruct (Z.leb_spec (blen pre + n) (blen pre + blen t)) as [Hle|]; [|done]. cbn. intros [= <-].
    destruct (split_at (Z.to_nat n) t) as (w & t' & -> & Hw); [unfold blen in Hle; lia|]. exists t'.
    replace (Z.to_nat (blen pre)) with (String.length pre) by (unfold blen; lia). replace (Z.to_nat (blen pre + n - blen pre)) with (String.length w) by lia.
    rewrite substring_app. split; [done|]. unfold blen. lia.
  - intros (t' & -> & Hv). rewrite blen_app. pose proof (blen_nonneg t'). destruct (Z.leb_spec (blen pre) (blen pre + n)); [|lia].
    destruct (Z.leb_spec (blen pre + n) (blen pre + (blen v + blen t'))); [|lia]. cbn.
    replace (Z.to_nat (blen pre)) with (String.length pre) by (unfold blen; lia). replace (Z.to_nat (blen pre + n - blen pre)) with (String.length v) by (unfold blen in Hv; lia).
    by rewrite substring_app.
Qed.

Lemma byte_lt_256 c : (byte c < 256)%nat.
Proof. unfold byte. apply nat_ascii_bounded. Qed.
Lemma from_le_range s : 0 <= from_le s < 256 ^ blen s.
Proof.
  induction s as [|c s IH]; cbn [from_le]; [done|]. replace (blen (String c s)) with (1 + blen s) by (unfold blen; cbn; lia).
  rewrite Z.pow_add_r by (try lia; apply blen_nonneg). pose proof (byte_lt_256 c). lia.
Qed.
Lemma to_le_length n z : String.length (to_le n z) = n.
Proof. revert z. induction n as [|n IH]; intros z; cbn; [done|]. by rewrite IH. Qed.
Lemma to_from_le s : to_le (String.length s) (from_le s) = s.
Proof.
  induction s as [|c s IH]; cbn [to_le from_le String.length]; [done|]. pose proof (byte_lt_256 c).
  rewrite Z.mul_comm, Z_mod_plus_full, Z.mod_small by lia. rewrite Nat2Z.id. unfold byte. rewrite ascii_nat_embedding. f_equal.
  fold (byte c). rewrite Z.div_add, Z.div_small, Z.add_0_l by lia. exact IH.
Qed.
Lemma from_to_le n z : 0 <= z < 256 ^ Z.of_nat n -> from_le (to_le n z) = z.
Proof.
  revert z. induction n as [|n IH]; intros z Hz; cbn [to_le from_le]; [cbn in Hz; lia|].
  rewrite Nat2Z.inj_succ, Z.pow_succ_r in Hz by lia. rewrite IH by (split; [apply Z.div_pos; lia|apply Z.div_lt_upper_bound; lia]).
  pose proof (Z.mod_pos_bound z 256 eq_refl). unfold byte. rewrite nat_ascii_embedding by lia. rewrite Z2Nat.id by lia. pose proof (Z.div_mod z 256). lia.
Qed.
Lemma blen_word z : blen (word z) = 4.
Proof. unfold blen, word. by rewrite to_le_length. Qed.

(** [p] reads exactly what [enc] writes of the values that are [ok], taking [dm] of text and [dr] of data. *)
Record exact {A} (p : Reader -> string + (A * Reader)) (enc : A -> string) (ok : A -> Prop) (dm dr : A -> Z) : Prop := mkExact {
  ex_read r t x r' : at_rest r t -> fits r -> p r = inr (x, r') ->
    exists t', t = enc x +:+ t' /\ ok x /\ r' = advance r (enc x) (dm x) (dr x) /\ fits r';
  ex_write r t x : at_rest r (enc x +:+ t) -> fits r -> ok x -> fits (advance r (enc x) (dm x) (dr x)) ->
    p r = inr (x, advance r (enc x) (dm x) (dr x));
  ex_cost x : 0 <= dm x /\ 0 <= dr x;
}.
Lemma bind_exact {A B} (p : Reader -> string + (A * Reader)) enc ok dm dr (k : A * Reader -> string + B) r t y :
  exact p enc ok dm dr -> at_rest r t -> fits r -> rbind (p r) k = inr y ->
  exists a t', t = enc a +:+ t' /\ ok a /\ fits (advance r (enc a) (dm a) (dr a)) /\ at_rest (advance r (enc a) (dm a) (dr a)) t' /\
    k (a, advance r (enc a) (dm a) (dr a)) = inr y.
Proof.
  intros Hp Hat Hf E. apply rbind_inr in E as ([a r'] & E & Ek). destruct (ex_read _ _ _ _ _ Hp r t a r' Hat Hf E) as (t' & -> & Ho & -> & Hf').
  exists a, t'. split_and!; try done. by apply at_rest_advance.
Qed.
Lemma bind_write {A B} (p : Reader -> string + (A * Reader)) enc ok dm dr (k : A * Reader -> string + B) r t a y :
  exact p enc ok dm dr -> at_rest r (enc a +:+ t) -> fits r -> ok a -> fits (advance r (enc a) (dm a) (dr a)) ->
  (at_rest (advance r (enc a) (dm a) (dr a)) t -> k (a, advance r (enc a) (dm a) (dr a)) = inr y) -> rbind (p r) k = inr y.
Proof. intros Hp Hat Hf Ho Hf' Hk. rewrite (ex_write _ _ _ _ _ Hp r t a Hat Hf Ho Hf'). cbn. apply Hk. by apply at_rest_advance. Qed.
Lemma fits_less r e e' a b a' b' : fits r -> fits (advance r e a b) -> 0 <= a' <= a -> 0 <= b' <= b -> fits (advance r e' a' b').
Proof. unfold fits, advance. cbn. intros (? & ? & ?) (? & ? & ?) ? ?. split_and!; lia. Qed.
Lemma rest_bound r t : at_rest r t -> fits r -> 0 <= at_ r /\ at_ r + blen t <= MAX_PACKET.
Proof. intros (pre & E & A) (_ & _ & Hm). rewrite E, blen_app in Hm. pose proof (blen_nonneg pre). lia. Qed.
Lemma packet_small n : n <= 2 * MAX_PACKET -> n <= u64_max.
Proof. unfold MAX_PACKET, u64_max, u64_modulus. lia. Qed.

Lemma count_exact : exact count word (fun n => 0 <= n < 2 ^ 32) (fun _ => 0) (fun _ => 0).
Proof.
  split; [| |done].
  - intros r t n r' Hat Hf E. unfold count in E. succeeds. subst n.
    match goal with H : checked_add _ _ = Some ?a |- _ => unfold checked_add in H; destruct (_ <=? _); [|done]; injection H as <- end.
    match goal with H : slice _ _ _ = Some _ |- _ => apply (slice_rest r t) in H as (t' & -> & Hv); [|done|done] end.
    exists t'. match goal with H : blen ?v = 4 |- _ => assert (word (from_le v) = v) as -> by (unfold word; rewrite <- (to_from_le v) at 2; f_equal; unfold blen in H; lia);
      pose proof (from_le_range v) as Hrange; rewrite H in Hrange end.
    subst r'. split_and!; [done|apply Hrange|apply Hrange| |exact Hf]; unfold advance; by rewrite Hv, !Z.add_0_r.
  - intros r t n Hat Hf Hn Hf'. pose proof (rest_bound _ _ Hat Hf) as [Ha Hb]. rewrite blen_app, blen_word in Hb. pose proof (blen_nonneg t). unfold count, checked_add.
    destruct (Z.leb_spec (at_ r + 4) u64_max) as [|Hov]; [|pose proof (packet_small (at_ r + 4)); unfold MAX_PACKET in *; lia]. cbn [ok_or rbind].
    replace (slice (input r) (at_ r) (at_ r + 4)) with (Some (word n)).
    2: { symmetry. apply (slice_rest r _ 4 (word n) Hat); [lia|]. exists t. split; [done|apply blen_word]. }
    cbn [ok_or rbind]. unfold word at 1. rewrite from_to_le by (cbn; lia). unfold advance. by rewrite blen_word, !Z.add_0_r.
Qed.
Lemma field_exact max is_raw :
  exact (field max is_raw) field_bytes (fun s => blen s <= max) (fun s => if is_raw then 0 else blen s) (fun s => if is_raw then blen s else 0).
Proof.
  split.
  - intros r t s r' Hat Hf E. unfold field in E. apply (bind_exact _ _ _ _ _ _ _ _ _ count_exact Hat Hf) in E as (n & t1 & -> & Hn & Hf1 & Hat1 & E).
    cbv beta iota in E. succeeds. subst s r'. bool_to_prop.
    match goal with H : checked_add ?x n = Some ?a, H' : ?a <= _ |- _ => unfold checked_add in H; destruct (_ <=? _) in H; [|done]; injection H as <- end.
    match goal with H : checked_add _ n = Some ?a |- _ => unfold checked_add in H; destruct (_ <=? _) in H; [|done]; injection H as <- end.
    set (r1 := advance r (word n) 0 0) in *.
    match goal with H : slice _ _ _ = Some ?w |- _ => rename w into v, H into Hs end.
    assert (Hs' : slice (input r1) (at_ r1) (at_ r1 + n) = Some v) by (by destruct is_raw). apply (slice_rest r1 t1 n v Hat1) in Hs' as (t' & -> & Hv); [|lia].
    exists t'. split_and!; [unfold field_bytes; by rewrite Hv, app_assoc_s|lia| |].
    + subst r1. unfold advance, field_bytes. rewrite Hv, blen_app. destruct is_raw; cbn; f_equal; lia.
    + subst r1. unfold fits in *. unfold advance in *. destruct is_raw; cbn in *; lia.
  - intros r t s Hat Hf Hs Hf'. unfold field_bytes in Hat. rewrite app_assoc_s in Hat. pose proof (rest_bound _ _ Hat Hf) as [Ha Hb]. rewrite !blen_app, blen_word in Hb.
    pose proof (blen_nonneg t). pose proof (blen_nonneg s). unfold field.
    rewrite (ex_write _ _ _ _ _ count_exact r (s +:+ t) (blen s) Hat Hf); [|unfold MAX_PACKET in *; lia|eapply fits_less; [done|exact Hf'|destruct is_raw; lia|destruct is_raw; lia]].
    cbn [rbind]. rewrite (proj2 (Z.leb_le _ _) Hs). cbn [require rbind]. pose proof (at_rest_advance r (word (blen s)) (s +:+ t) 0 0 Hat) as Hat1. set (r1 := advance r (word (blen s)) 0 0) in *.
    assert (Hsl : slice (input r1) (at_ r1) (at_ r1 + blen s) = Some s) by (apply (slice_rest r1 _ _ _ Hat1); [lia|by exists t]).
    assert (Har : at_ r1 = at_ r + 4) by (subst r1; unfold advance; cbn [at_]; by rewrite blen_word).
    unfold checked_add. unfold fits, advance in Hf'. cbn in Hf'. destruct Hf' as (Hm & Hr & _).
    assert (Hm1 : metadata r1 = metadata r /\ raw r1 = raw r) by (subst r1; cbn; lia). destruct Hm1 as [-> ->].
    destruct is_raw.
    + rewrite (proj2 (Z.leb_le _ u64_max)) by (unfold MAX_RAW, u64_max, u64_modulus in *; lia). cbn [ok_or rbind]. rewrite (proj2 (Z.leb_le _ MAX_RAW)) by lia. cbn [require rbind at_].
      rewrite (proj2 (Z.leb_le _ u64_max)) by (unfold MAX_PACKET, u64_max, u64_modulus in *; lia). cbn [ok_or rbind input]. rewrite Hsl. cbn [ok_or rbind]. do 2 f_equal.
      unfold advance, field_bytes. rewrite blen_app, blen_word. subst r1. unfold advance. cbn [at_ metadata raw input]. rewrite blen_word. f_equal; lia.
    + rewrite (proj2 (Z.leb_le _ u64_max)) by (unfold MAX_METADATA, u64_max, u64_modulus in *; lia). cbn [ok_or rbind]. rewrite (proj2 (Z.leb_le _ MAX_METADATA)) by lia. cbn [require rbind at_].
      rewrite (proj2 (Z.leb_le _ u64_max)) by (unfold MAX_PACKET, u64_max, u64_modulus in *; lia). cbn [ok_or rbind input]. rewrite Hsl. cbn [ok_or rbind]. do 2 f_equal.
      unfold advance, field_bytes. rewrite blen_app, blen_word. subst r1. unfold advance. cbn [at_ metadata raw input]. rewrite blen_word. f_equal; lia.
  - intros s. pose proof (blen_nonneg s). destruct is_raw; lia.
Qed.
Definition text_ok (max : Z) (s : string) : Prop := blen s <= max /\ from_utf8 s = Some s.
Lemma from_utf8_same s t : from_utf8 s = Some t -> t = s.
Proof. unfold from_utf8. case_match; [by intros [= <-]|done]. Qed.
Lemma text_exact max : exact (text max) field_bytes (text_ok max) blen (fun _ => 0).
Proof.
  split.
  - intros r t s r' Hat Hf E. unfold text in E. apply (bind_exact _ _ _ _ _ _ _ _ _ (field_exact max false) Hat Hf) in E as (v & t1 & -> & Hv & Hf1 & Hat1 & E).
    cbv beta iota in E. succeeds. subst s r'. match goal with H : from_utf8 v = Some ?a |- _ => pose proof (from_utf8_same _ _ H); subst a end. by exists t1.
  - intros r t s Hat Hf [Hs Hu] Hf'. unfold text. rewrite (ex_write _ _ _ _ _ (field_exact max false) r t s Hat Hf Hs Hf'). cbn [rbind]. by rewrite Hu.
  - intros s. pose proof (blen_nonneg s). lia.
Qed.

(** Costs of a list of items. *)
Definition sumz {A} (f : A -> Z) (l : list A) : Z := foldr (fun x n => f x + n) 0 l.
Lemma sumz_nonneg {A} (f : A -> Z) l : (forall x, 0 <= f x) -> 0 <= sumz f l.
Proof. intros Hf. induction l as [|x l IH]; cbn; [done|]. pose proof (Hf x). unfold sumz in IH. lia. Qed.
Lemma advance_nil r : advance r "" 0 0 = r.
Proof. destruct r. unfold advance, blen. cbn. f_equal; lia. Qed.

Section Items.
Context {A S : Type} (f : S -> Reader -> string + (A * S * Reader)) (enc : A -> string) (ok : S -> A -> Prop) (after : S -> A -> S) (dm dr : A -> Z).
Context (inv : S -> Prop) (Hinv : forall s x, inv s -> ok s x -> inv (after s x)).
Context (Hf : forall s, inv s -> exact (f s) (fun x => enc x.1) (fun x => ok s x.1 /\ x.2 = after s x.1) (fun x => dm x.1) (fun x => dr x.1)).
Fixpoint all_ok (s : S) (l : list A) : Prop := match l with [] => True | x :: l => ok s x /\ all_ok (after s x) l end.
Lemma items_exact n : forall s, inv s -> exact (items n f s) (fun l => concat_ (enc <$> l.1)) (fun l => length l.1 = n /\ all_ok s l.1 /\ l.2 = foldl after s l.1)
  (fun l => sumz dm l.1) (fun l => sumz dr l.1).
Proof.
  induction n as [|n IH]; intros s Hs0; assert (Hcost : forall x, 0 <= dm x /\ 0 <= dr x) by (intros x; exact (ex_cost _ _ _ _ _ (Hf s Hs0) (x, s))).
  - split; [| |intros x; split; apply sumz_nonneg; apply Hcost]; cbn [items].
    + intros r t x r' Hat Hr [= <- <-]. exists t. cbn. by rewrite advance_nil.
    + intros r t [l s'] Hat Hr (Hl & _ & Hs) _. cbn in Hl, Hs. destruct l; [|done]. subst s'. cbn. by rewrite advance_nil.
  - split; [| |intros x; split; apply sumz_nonneg; apply Hcost]; cbn [items].
    + intros r t y r' Hat Hr E. apply (bind_exact _ _ _ _ _ _ _ _ _ (Hf s Hs0) Hat Hr) in E as ([x s1] & t1 & -> & [Hx Hs1] & Hr1 & Hat1 & E). cbn [fst snd] in *. subst s1.
      apply (bind_exact _ _ _ _ _ _ _ _ _ (IH (after s x) (Hinv s x Hs0 Hx)) Hat1 Hr1) in E as ([l s2] & t2 & -> & (Hl & Hok & Hs2) & Hr2 & Hat2 & E). cbn [fst snd] in *. injection E as <- <-.
      exists t2. cbn [fst snd fmap list_fmap concat_ foldr length all_ok foldl]. rewrite advance_advance in *. split; [symmetry; apply app_assoc_s|]. split; [split_and!; [by rewrite Hl|done..]|]. by split.
    + intros r t [l s'] Hat Hr (Hl & Hok & Hs) Hr'. cbn [fst snd] in *. subst s'. destruct l as [|x l]; [done|]. cbn [fst snd fmap list_fmap concat_ foldr all_ok foldl] in *. destruct Hok as [Hx Hok].
      change (foldr (λ a b, a +:+ b) "" (list_fmap A string enc l)) with (concat_ (enc <$> l)) in *. change (sumz dm (x :: l)) with (dm x + sumz dm l) in *. change (sumz dr (x :: l)) with (dr x + sumz dr l) in *.
      rewrite app_assoc_s in Hat. pose proof (sumz_nonneg dm l (fun x => proj1 (Hcost x))). pose proof (sumz_nonneg dr l (fun x => proj2 (Hcost x))). destruct (Hcost x).
      assert (Hr1 : fits (advance r (enc x) (dm x) (dr x))) by (eapply fits_less; [done|exact Hr'|lia|lia]).
      rewrite (ex_write _ _ _ _ _ (Hf s Hs0) r (concat_ (enc <$> l) +:+ t) (x, after s x) Hat Hr (conj Hx eq_refl) Hr1). cbn [rbind fst snd].
      rewrite (ex_write _ _ _ _ _ (IH (after s x) (Hinv s x Hs0 Hx)) _ t (l, foldl after (after s x) l)); cbn [rbind fst snd]; [by rewrite advance_advance|by apply at_rest_advance|done| |by rewrite advance_advance].
      cbn in Hl. split_and!; [lia|done|done].
Qed.
End Items.

(** ** Effects *)
Definition effect_meta (e : Effect) : Z := blen (e_section e) + blen (e_name e) + blen (e_platform e) + blen (e_result e) + blen (e_validator e) + blen (e_error e).
Record effect_valid (e : Effect) : Prop := mkEffectValid {
  ev_section : text_ok 32 (e_section e); ev_name : text_ok 240 (e_name e); ev_platform : text_ok 64 (e_platform e); ev_result : text_ok 32 (e_result e);
  ev_validator : text_ok 32 (e_validator e); ev_error : text_ok 4096 (e_error e); ev_ok : effect_ok e = true }.
(** Take the next field: one step of a chain that succeeded, and the chain that will. *)
Ltac read_field P Hat Hf E s :=
  let t := fresh "rest" in let Ho := fresh "Ho" in let Hf' := fresh "Hf" in let Hat' := fresh "Hat" in
  apply (bind_exact _ _ _ _ _ _ _ _ _ P Hat Hf) in E as (s & t & -> & Ho & Hf' & Hat' & E); cbv beta iota in E.
Ltac write_field P s Hat :=
  let Hat' := fresh "Hat" in
  eapply (bind_write _ _ _ _ _ _ _ _ s _ P); [exact Hat| | |rewrite ?advance_advance|intros Hat'; cbv beta iota; rewrite ?advance_advance in *].
Lemma effect_exact path u : exact (decode_effect path u) (fun x => effect_bytes x.1) (fun x => effect_valid x.1 /\ x.2 = tt) (fun x => effect_meta x.1) (fun _ => 0).
Proof.
  split.
  - intros r t x r' Hat Hf E. unfold decode_effect in E. read_field (text_exact 32) Hat Hf E s. read_field (text_exact 240) Hat0 Hf0 E n. read_field (text_exact 64) Hat1 Hf1 E p.
    read_field (text_exact 32) Hat2 Hf2 E res. read_field (text_exact 32) Hat3 Hf3 E v. read_field (text_exact 4096) Hat4 Hf4 E er. succeeds. subst x r'. rewrite !advance_advance in *.
    eexists. unfold effect_bytes, effect_meta. cbn. rewrite !app_assoc_s in *. split; [done|]. split; [split; [by constructor|done]|]. split; [f_equal; lia|done].
  - intros r t [e v] Hat Hf [[S N P Re V Er Ok] Hv] Hf'. cbn [fst snd] in *. destruct v. unfold decode_effect.
    assert (Hfit : forall s m, 0 <= m <= effect_meta e -> fits (advance r s m 0)) by (intros s m Hm; eapply fits_less; [done|exact Hf'|lia|lia]).
    pose proof (blen_nonneg (e_section e)). pose proof (blen_nonneg (e_name e)). pose proof (blen_nonneg (e_platform e)). pose proof (blen_nonneg (e_result e)).
    pose proof (blen_nonneg (e_validator e)). pose proof (blen_nonneg (e_error e)). unfold effect_bytes, effect_meta in *. rewrite !app_assoc_s in Hat.
    write_field (text_exact 32) (e_section e) Hat; [exact Hf|done|apply Hfit; lia|].
    write_field (text_exact 240) (e_name e) Hat0; [apply Hfit; lia|done|apply Hfit; lia|].
    write_field (text_exact 64) (e_platform e) Hat1; [apply Hfit; lia|done|apply Hfit; lia|].
    write_field (text_exact 32) (e_result e) Hat2; [apply Hfit; lia|done|apply Hfit; lia|].
    write_field (text_exact 32) (e_validator e) Hat3; [apply Hfit; lia|done|apply Hfit; lia|].
    write_field (text_exact 4096) (e_error e) Hat4; [apply Hfit; lia|done|apply Hfit; lia|].
    destruct e. cbn [e_section e_name e_platform e_result e_validator e_error] in *. rewrite Ok. cbn [require rbind]. rewrite !app_assoc_s. do 3 f_equal; lia.
  - intros [e v]. cbn. unfold effect_meta. pose proof (blen_nonneg (e_section e)). pose proof (blen_nonneg (e_name e)). pose proof (blen_nonneg (e_platform e)).
    pose proof (blen_nonneg (e_result e)). pose proof (blen_nonneg (e_validator e)). pose proof (blen_nonneg (e_error e)). lia.
Qed.

(** ** Repairs *)
Definition result_ok (x : Repair) : Prop :=
  one_of (r_result x) results = true /\
  (is_empty (r_error x) = false <-> unparsed (r_result x) || String.eqb (r_result x) "type-error" = true) /\
  (unparsed (r_result x) = true -> r_effects x = []) /\
  (r_result x = "type-error" -> exists e, e ∈ r_effects x /\ e_result e = "invalid").
(** [before] is the path before it and the effects so far. *)
Record repair_valid (before : string * Z) (x : Repair) : Prop := mkRepairValid {
  rv_path : text_ok 240 (r_path x); rv_safe : safe_path (r_path x) = true; rv_sorted : before.1 = "" \/ ~ String.le (r_path x) before.1;
  rv_result : text_ok 32 (r_result x); rv_error : text_ok 4096 (r_error x); rv_bytes : blen (r_bytes x) <= 256 * 1024;
  rv_total : before.2 + Z.of_nat (length (r_effects x)) <= 4096; rv_effects : Forall effect_valid (r_effects x); rv_ok : result_ok x }.
Definition after_repair (before : string * Z) (x : Repair) : string * Z := (r_path x, before.2 + Z.of_nat (length (r_effects x))).
Definition repair_meta (x : Repair) : Z := blen (r_path x) + blen (r_result x) + blen (r_error x) + sumz effect_meta (r_effects x).
Definition repair_raw (x : Repair) : Z := blen (r_bytes x).

Lemma all_ok_Forall {A} (P : A -> Prop) l u : all_ok (fun (_ : unit) => P) (fun _ _ => tt) u l <-> Forall P l.
Proof. revert u. induction l as [|x l IH]; intros u; cbn; [split; [constructor|done]|]. rewrite Forall_cons. by rewrite IH. Qed.
Lemma result_checks x :
  (one_of (r_result x) results = true /\
   Bool.eqb (unparsed (r_result x) || String.eqb (r_result x) "type-error") (negb (is_empty (r_error x))) = true /\
   negb (unparsed (r_result x) && negb (match r_effects x with [] => true | _ => false end)) = true /\
   negb (String.eqb (r_result x) "type-error" && negb (existsb (fun e => String.eqb (e_result e) "invalid") (r_effects x))) = true) <-> result_ok x.
Proof.
  unfold result_ok. rewrite eqb_true_iff, !negb_true_iff, !andb_false_iff, !negb_false_iff. repeat apply and_iff_compat_l || apply ZifyClasses.and_morph.
  all: try done.
  - destruct (unparsed _ || _), (is_empty _); cbn; naive_solver.
  - destruct (unparsed _), (r_effects x); naive_solver.
  - rewrite <- not_true_iff_false, String.eqb_eq, existsb_exists. setoid_rewrite String.eqb_eq. setoid_rewrite <- list_elem_of_In. destruct (decide (r_result x = "type-error")); naive_solver.
Qed.
Definition effects_exact path n := items_exact (decode_effect path) effect_bytes (fun (_ : unit) => effect_valid) (fun _ _ => tt) effect_meta (fun _ => 0) (fun _ => True) (fun _ _ _ _ => I) (fun u _ => effect_exact path u) n tt I.
Lemma sorted_check (before path : string) : is_empty before || negb (bool_decide (String.le path before)) = true <-> before = "" \/ ~ String.le path before.
Proof. by rewrite orb_true_iff, is_empty_true, negb_true_iff, bool_decide_eq_false. Qed.
Lemma sumz_zero {A} (l : list A) : sumz (fun _ => 0) l = 0.
Proof. induction l; cbn; [done|]. exact IHl. Qed.

Lemma repair_read before r t x r' : at_rest r t -> fits r -> decode_repair before r = inr (x, r') ->
  exists t', t = repair_bytes x.1 +:+ t' /\ (repair_valid before x.1 /\ x.2 = after_repair before x.1) /\
    r' = advance r (repair_bytes x.1) (repair_meta x.1) (repair_raw x.1) /\ fits r'.
Proof.
  intros Hat Hf E. unfold decode_repair in E.
  read_field (text_exact 240) Hat Hf E p. apply rbind_inr in E as (u1 & Hsafe & E). apply require_inr, andb_true_iff in Hsafe as [Hsafe Hsort]. apply sorted_check in Hsort. clear u1.
  read_field (text_exact 32) Hat0 Hf0 E res. apply rbind_inr in E as (u2 & Hres & E). apply require_inr in Hres. clear u2.
  read_field (text_exact 4096) Hat1 Hf1 E er. read_field (field_exact (256 * 1024) true) Hat2 Hf2 E bs. read_field count_exact Hat3 Hf3 E n.
  apply rbind_inr in E as (total & Htot & E). apply ok_or_inr in Htot. unfold checked_add in Htot. destruct (_ <=? u64_max) in Htot; [|done]. injection Htot as <-.
  apply rbind_inr in E as (u3 & Hle & E). apply require_inr, Z.leb_le in Hle. clear u3.
  read_field (effects_exact p (Z.to_nat n)) Hat4 Hf4 E l. cbv zeta in E. destruct l as [l u]. cbn [fst snd] in *. destruct Ho4 as (Hlen & Hall & _). apply all_ok_Forall in Hall.
  apply rbind_inr in E as (u4 & H1 & E). apply rbind_inr in E as (u5 & H2 & E). apply rbind_inr in E as (u6 & H3 & E). apply require_inr in H1, H2, H3. injection E as <- <-. clear u4 u5 u6.
  rewrite !advance_advance in *. cbn [fst snd]. set (x := mkRepair p bs res er l).
  assert (Hok : result_ok x) by (apply result_checks; by split_and!). assert (n = Z.of_nat (length l)) as -> by lia.
  eexists. split; [unfold repair_bytes; cbn [x r_path r_bytes r_result r_error r_effects]; rewrite ?app_assoc_s; reflexivity|].
  split; [split; [by constructor|done]|]. split; [|done]. unfold repair_bytes, repair_meta, repair_raw. cbn [x r_path r_bytes r_result r_error r_effects]. rewrite sumz_zero, ?app_assoc_s.
  f_equal; lia.
Qed.

Lemma effect_meta_nonneg e : 0 <= effect_meta e.
Proof.
  unfold effect_meta. pose proof (blen_nonneg (e_section e)). pose proof (blen_nonneg (e_name e)). pose proof (blen_nonneg (e_platform e)).
  pose proof (blen_nonneg (e_result e)). pose proof (blen_nonneg (e_validator e)). pose proof (blen_nonneg (e_error e)). lia.
Qed.
Lemma repair_costs x : 0 <= repair_meta x /\ 0 <= repair_raw x.
Proof.
  unfold repair_meta, repair_raw. pose proof (blen_nonneg (r_path x)). pose proof (blen_nonneg (r_result x)). pose proof (blen_nonneg (r_error x)). pose proof (blen_nonneg (r_bytes x)).
  pose proof (sumz_nonneg effect_meta (r_effects x) effect_meta_nonneg). lia.
Qed.
Lemma repair_write before r t x : 0 <= before.2 -> at_rest r (repair_bytes x +:+ t) -> fits r -> repair_valid before x ->
  fits (advance r (repair_bytes x) (repair_meta x) (repair_raw x)) -> decode_repair before r = inr ((x, after_repair before x), advance r (repair_bytes x) (repair_meta x) (repair_raw x)).
Proof.
  intros Hb Hat Hf [P Sf So Re Er By To Ef Ok] Hf'. unfold decode_repair.
  assert (Hfit : forall s m d, 0 <= m <= repair_meta x -> 0 <= d <= repair_raw x -> fits (advance r s m d)) by (intros s m d Hm Hd; by eapply fits_less).
  pose proof (blen_nonneg (r_path x)). pose proof (blen_nonneg (r_result x)). pose proof (blen_nonneg (r_error x)). pose proof (blen_nonneg (r_bytes x)).
  pose proof (sumz_nonneg effect_meta (r_effects x) effect_meta_nonneg). pose proof (proj2 (result_checks x) Ok) as (Hres & Heq & Hun & Hinv).
  unfold repair_bytes, repair_meta, repair_raw in *. rewrite !app_assoc_s in Hat.
  write_field (text_exact 240) (r_path x) Hat; [exact Hf|done|apply Hfit; lia|]. rewrite Sf, (proj2 (sorted_check _ _) So). cbn [andb require rbind].
  write_field (text_exact 32) (r_result x) Hat0; [apply Hfit; lia|done|apply Hfit; lia|]. rewrite Hres. cbn [require rbind].
  write_field (text_exact 4096) (r_error x) Hat1; [apply Hfit; lia|done|apply Hfit; lia|].
  write_field (field_exact (256 * 1024) true) (r_bytes x) Hat2; [apply Hfit; lia|done|apply Hfit; lia|].
  write_field count_exact (Z.of_nat (length (r_effects x))) Hat3; [apply Hfit; lia|lia|apply Hfit; lia|].
  unfold checked_add. rewrite (proj2 (Z.leb_le _ u64_max)) by (unfold u64_max, u64_modulus; lia). cbn [ok_or rbind]. rewrite (proj2 (Z.leb_le _ 4096) To). cbn [require rbind].
  write_field (effects_exact (r_path x) (Z.to_nat (Z.of_nat (length (r_effects x))))) (r_effects x, tt) Hat4;
    [apply Hfit; lia|cbn [fst snd]; split_and!; [lia|by apply all_ok_Forall|by destruct (foldl _ _ _)]|apply Hfit; cbn [fst snd]; rewrite ?sumz_zero; lia|].
  cbn [fst snd] in *. rewrite Heq, Hun, Hinv. cbn [require rbind]. destruct x as [xp xb xr xe xf]. unfold after_repair. cbn [r_path r_bytes r_result r_error r_effects] in *.
  rewrite sumz_zero, ?app_assoc_s. do 3 f_equal; lia.
Qed.
Lemma repair_exact before : 0 <= before.2 ->
  exact (decode_repair before) (fun x => repair_bytes x.1) (fun x => repair_valid before x.1 /\ x.2 = after_repair before x.1) (fun x => repair_meta x.1) (fun x => repair_raw x.1).
Proof.
  intros Hb. split.
  - intros r t x r' Hat Hf E. by apply repair_read.
  - intros r t [x s] Hat Hf [Hx Hs] Hf'. cbn [fst snd] in *. subst s. by apply (repair_write before r t x).
  - intros x. apply repair_costs.
Qed.
Definition repairs_exact n := items_exact decode_repair repair_bytes repair_valid after_repair repair_meta repair_raw (fun s => 0 <= s.2)
  (fun s x (Hs : 0 <= s.2) _ => Z.add_nonneg_nonneg _ _ Hs (Nat2Z.is_nonneg _)) repair_exact n ("", 0) ltac:(done).
Lemma path_exact u : exact (decode_path u) (fun x => field_bytes x.1) (fun x => text_ok 240 x.1 /\ x.2 = tt) (fun x => blen x.1) (fun _ => 0).
Proof.
  split.
  - intros r t x r' Hat Hf E. unfold decode_path in E. read_field (text_exact 240) Hat Hf E s. injection E as <- <-. by eexists.
  - intros r t [s v] Hat Hf [Hs _] Hf'. unfold decode_path. destruct v. by write_field (text_exact 240) s Hat.
  - intros x. pose proof (blen_nonneg x.1). lia.
Qed.
Definition paths_exact n := items_exact decode_path field_bytes (fun (_ : unit) => text_ok 240) (fun _ _ => tt) blen (fun _ => 0) (fun _ => True) (fun _ _ _ _ => I) (fun u _ => path_exact u) n tt I.

(** ** The whole packet *)
Record snapshot_valid (s : Snapshot) : Prop := mkSnapshotValid {
  sv_count : Z.of_nat (length (repairs s)) <= 64;
  sv_repairs : all_ok repair_valid after_repair ("", 0) (repairs s);
  sv_paths : custom_paths s = r_path <$> filterb parsed (repairs s);
  sv_metadata : sumz repair_meta (repairs s) + sumz blen (custom_paths s) <= MAX_METADATA;
  sv_raw : sumz repair_raw (repairs s) <= MAX_RAW;
  sv_size : blen (packet s) <= MAX_PACKET }.
Lemma start_at_rest t : at_rest (mkReader ("GCR1" +:+ t) 4 0 0) t.
Proof. by exists "GCR1". Qed.
Lemma header input_ : slice input_ 0 4 = Some "GCR1" <-> exists t, input_ = "GCR1" +:+ t.
Proof.
  pose proof (slice_rest (mkReader input_ 0 0 0) input_ 4 "GCR1") as Hs. cbn [input at_] in Hs. rewrite Hs; [|by exists ""|done]. split; [intros (t & -> & _); by exists t|intros [t ->]; by exists t].
Qed.
Lemma rest_end r t : at_rest r t -> at_ r =? blen (input r) = true -> t = "".
Proof. intros (pre & -> & ->) E. bool_to_prop. rewrite blen_app in E. destruct t; [done|]. unfold blen in E. cbn in E. lia. Qed.

Lemma decode_read input_ s : decode input_ = inr s -> snapshot_valid s /\ input_ = packet s.
Proof.
  unfold decode. intros E. apply rbind_inr in E as (u & Hh & E). apply require_inr, andb_true_iff in Hh as [Hsize Hh]. apply Z.leb_le in Hsize. apply bool_decide_eq_true in Hh. clear u.
  apply header in Hh as [t ->]. set (r0 := mkReader _ 4 0 0) in E. assert (Hat : at_rest r0 t) by apply start_at_rest.
  assert (Hf : fits r0) by (unfold fits, MAX_METADATA, MAX_RAW; cbn; lia).
  read_field count_exact Hat Hf E n. apply rbind_inr in E as (u & Hn & E). apply require_inr, Z.leb_le in Hn. clear u.
  read_field (repairs_exact (Z.to_nat n)) Hat0 Hf0 E l. destruct l as [l st]. cbn [fst snd] in *. destruct Ho0 as (Hl & Hall & _).
  read_field count_exact Hat1 Hf1 E m. apply rbind_inr in E as (u & Hm & E). apply require_inr, Z.leb_le in Hm. clear u.
  read_field (paths_exact (Z.to_nat m)) Hat2 Hf2 E ps. destruct ps as [ps u]. cbn [fst snd] in *. destruct Ho1 as (Hp & Hps & _).
  apply rbind_inr in E as (u1 & Heq & E). apply require_inr, bool_decide_eq_true in Heq. apply rbind_inr in E as (u2 & Hend & E). apply require_inr in Hend. injection E as <-.
  rewrite ?advance_advance in *. apply (rest_end _ _ Hat3) in Hend. subst. assert (n = Z.of_nat (length l)) as -> by lia. rewrite length_fmap in *.
  assert (m = Z.of_nat (length (filterb parsed l))) as -> by lia. rewrite app_nil_s in *.
  assert (Hpk : packet (mkSnapshot l (r_path <$> filterb parsed l)) = input r0) by (unfold r0; cbn [input]; unfold packet; cbn [repairs custom_paths]; by rewrite length_fmap, ?app_nil_s).
  split; [|unfold packet; cbn [repairs custom_paths]; by rewrite length_fmap]. destruct Hf3 as (Hmeta & Hraw & Hin). unfold advance in *. cbn [metadata raw input] in *. rewrite sumz_zero in *. cbn [r0 metadata raw] in Hmeta, Hraw.
  constructor; cbn [repairs custom_paths]; [lia|done|done|lia|lia|rewrite Hpk; exact Hin].
Qed.
Lemma paths_ok l before : all_ok repair_valid after_repair before l -> Forall (text_ok 240) (r_path <$> l).
Proof. revert before. induction l as [|x l IH]; intros before; cbn; [constructor|]. intros [Hx Hl]. constructor; [apply Hx|by eapply IH]. Qed.
Lemma filterb_le {A} (f : A -> bool) l : (length (filterb f l) <= length l)%nat.
Proof. induction l as [|x l IH]; cbn; [done|]. case_match; cbn; lia. Qed.
Lemma parsed_paths_ok l : Forall (text_ok 240) (r_path <$> l) -> Forall (text_ok 240) (r_path <$> filterb parsed l).
Proof. induction l as [|x l IH]; cbn; [done|]. intros Hl. apply Forall_cons in Hl as [Hx Hl]. case_match; [constructor; auto|auto]. Qed.
Lemma decode_write s : snapshot_valid s -> decode (packet s) = inr s.
Proof.
  intros [Hn Hall Hp Hm Hr Hsize]. unfold decode. rewrite (proj2 (Z.leb_le _ _) Hsize). rewrite bool_decide_true by (apply header; by eexists). cbn [andb require rbind].
  pose proof (sumz_nonneg repair_meta (repairs s) (fun x => proj1 (repair_costs x))). pose proof (sumz_nonneg repair_raw (repairs s) (fun x => proj2 (repair_costs x))).
  pose proof (sumz_nonneg blen (custom_paths s) blen_nonneg). pose proof (filterb_le parsed (repairs s)).
  set (r0 := mkReader _ 4 0 0). assert (Hf : fits r0) by (unfold fits, MAX_METADATA, MAX_RAW; cbn; unfold MAX_PACKET in *; split_and!; done).
  assert (Hfit : forall e m d, 0 <= m <= sumz repair_meta (repairs s) + sumz blen (custom_paths s) -> 0 <= d <= sumz repair_raw (repairs s) -> fits (advance r0 e m d)).
  { intros e m d Hm' Hd'. unfold fits, advance. cbn [input metadata raw r0]. split_and!; first [exact Hsize|lia]. }
  assert (Hat : at_rest r0 (word (Z.of_nat (length (repairs s))) +:+ (concat_ (repair_bytes <$> repairs s) +:+ (word (Z.of_nat (length (custom_paths s))) +:+ (concat_ (field_bytes <$> custom_paths s) +:+ ""))))).
  { rewrite app_nil_s. apply start_at_rest. }
  assert (Hin : input r0 = packet s) by done. clearbody r0.
  write_field count_exact (Z.of_nat (length (repairs s))) Hat; [exact Hf|lia|apply Hfit; lia|]. rewrite (proj2 (Z.leb_le _ _) Hn). cbn [require rbind].
  write_field (repairs_exact (Z.to_nat (Z.of_nat (length (repairs s))))) (repairs s, foldl after_repair ("", 0) (repairs s)) Hat0;
    [apply Hfit; lia|cbn [fst snd]; split_and!; [lia|done|done]|apply Hfit; cbn [fst snd]; lia|]. cbn [fst snd] in *.
  write_field count_exact (Z.of_nat (length (custom_paths s))) Hat1; [apply Hfit; lia|rewrite Hp, length_fmap; lia|apply Hfit; lia|].
  rewrite (proj2 (Z.leb_le _ 64)) by (rewrite Hp, length_fmap; lia). cbn [require rbind].
  write_field (paths_exact (Z.to_nat (Z.of_nat (length (custom_paths s))))) (custom_paths s, tt) Hat2;
    [apply Hfit; lia| |apply Hfit; cbn [fst snd]; rewrite ?sumz_zero; lia|].
  { cbn [fst snd]. split_and!; [lia| |by destruct (foldl _ _ _)]. apply all_ok_Forall. rewrite Hp. eapply parsed_paths_ok, paths_ok. exact Hall. }
  cbn [fst snd] in *. rewrite bool_decide_true by done. cbn [require rbind]. destruct Hat3 as (pre & Epre & Eat). cbn [advance input at_] in *.
  rewrite Eat, <- Hin, Epre, app_nil_s, Z.eqb_refl. cbn [require rbind]. by destruct s.
Qed.

(** C20. The packet format is exact. What [decode] admits is the encoding of a well-formed snapshot, byte for
    byte, and every well-formed snapshot within the limits is admitted: at most 64 files in increasing order
    of path, each directly in the custom directory with a JSON name, each result with its error and its
    effects in agreement, at most 4096 effects, the applied paths those of the parsed files, and nothing
    after them. *)
Theorem repair_snapshot_exact input_ s : decode input_ = inr s <-> snapshot_valid s /\ input_ = packet s.
Proof. split; [apply decode_read|]. intros [Hs ->]. by apply decode_write. Qed.
End RepairSnapshot.

Module RepairSnapshotExamples.
Import RepairSnapshot.
Definition fix_ : Effect := mkEffect "signatures" "CBaseEntity::TakeDamage" "linuxsteamrt64" "applied" "explicit" "".
Definition repaired : Repair := mkRepair "custom/damage.jsonc" "{}" "applied" "" [fix_].
Definition unreadable : Repair := mkRepair "custom/other.json" "" "read-error" "permission denied" [].
Definition taken : Snapshot := mkSnapshot [repaired; unreadable] ["custom/damage.jsonc"].
Example taken_decodes : decode (packet taken) = inr taken.
Proof. vm_compute. reflexivity. Qed.
Example taken_repairs : signature_repairs taken "CBaseEntity::TakeDamage" = [(repaired, fix_)].
Proof. vm_compute. reflexivity. Qed.
Example trailing_refused : decode (packet taken +:+ "x") = inl "repair snapshot trailing bytes".
Proof. vm_compute. reflexivity. Qed.
Example escape_refused : decode (packet (mkSnapshot [mkRepair "custom/../admins.json" "" "empty" "" []] [])) = inl "invalid, duplicate or unsorted repair snapshot path: custom/../admins.json".
Proof. vm_compute. reflexivity. Qed.
Example unsorted_refused : decode (packet (mkSnapshot [unreadable; repaired] ["custom/damage.jsonc"])) = inl "invalid, duplicate or unsorted repair snapshot path: custom/damage.jsonc".
Proof. vm_compute. reflexivity. Qed.
Example short_refused : decode "GCR1" = inl "truncated repair snapshot".
Proof. vm_compute. reflexivity. Qed.
End RepairSnapshotExamples.
