(* ===== verification/PackageManifest.v ===== *)
(** The selection of a game package (core/src/game_packages/manifest.rs).

    A deployment lists its game packages in one manifest, and the one that matches the engine and game is
    prepared from files on disk. [prepare_selection] checks the whole manifest, picks the package, resolves
    its files inside the package directory and admits bytes only with the digest the manifest names. The
    file system, the JSON readers and SHA-256 are parameters ([Files], [Deployed]); a path is the list of its
    components. The files are taken not to change while one selection reads them. *)
From S2P Require Import Prelude.
From S2P Require Import Results.
From S2P Require Import Json.
From S2P Require Import Utf8.
From S2P Require Import EngineContract.
From Stdlib Require Import Ascii.
From Stdlib Require String.
Import Json.
Import EngineContract.EngineContract.

(** What the file system answers. [canonicalize] is the path without links, if there is such a file. *)
Class Files := {
  contents : list string -> option string;
  exists_ : list string -> bool;
  canonicalize : list string -> option (list string);
  is_file : list string -> bool;
  is_dir : list string -> bool;
}.

Module PackageManifest.

(** ** Data *)
Inductive PackageError := Missing | Ambiguous (ids : list string) | InvalidManifest | InvalidPath | InvalidBootstrap | HashMismatch.
Definition code (e : PackageError) : string :=
  match e with
  | Missing => "missing" | Ambiguous _ => "ambiguous" | InvalidManifest => "invalid-manifest" | InvalidPath => "invalid-path"
  | InvalidBootstrap => "invalid-bootstrap" | HashMismatch => "hash-mismatch"
  end.
Definition candidates (e : PackageError) : list string := match e with Ambiguous ids => ids | _ => [] end.
Record Provenance := mkProvenance {
  v_engine : string; v_game : string; v_platform : string; manifest_path : list string; bootstrap_path : list string; gamedata_path : list string;
  functions_path : option (list string); trusted_path : option (list string) }.
Record Artifact := mkArtifact { a_path : string; a_sha256 : string }.
Record Match_ := mkMatch { m_engine : string; m_game : string }.

Section Selection.
Context {num : Type} `{JsonNumber num} `{Digest num} `{Files}.
Notation Value := (Json.Value num).
Record FunctionArtifact := mkFunctionArtifact { f_path : string; f_sha256 : string; f_summary : Value; f_permissions : list string }.
Record Package := mkPackage {
  pk_id : string; matcher : Match_; gamedata_owner : string; bootstrap : Artifact; gamedata : Artifact; pk_functions : option FunctionArtifact;
  trusted_functions : option Artifact }.
Record Manifest := mkManifest { schema_version : Z; packages : list Package }.
Record PreparedFunctions := mkPreparedFunctions { pf_bytes : string; pf_sha256 : string; pf_bundle_hash : string; pf_summary : Value; pf_permissions : list string }.
Record PreparedTrusted := mkPreparedTrusted { pt_bytes : string; pt_sha256 : string }.
Record PreparedSelection := mkSelection {
  s_id : string; s_gamedata_owner : string; bootstrap_bytes : string; gamedata_bytes : string; bootstrap_sha256 : string; gamedata_sha256 : string;
  s_functions : option PreparedFunctions; s_trusted : option PreparedTrusted; provenance : Provenance }.

(** The readers of the derived types and of any document, and the bytes of the digest. *)
Record Deployed := mkDeployed {
  read_manifest : string -> option Manifest; read_bundle : string -> string + NormalizedBundle; read_value : string -> option Value; sha256 : string -> list Z }.
Context (deployed : Deployed).

(** ** What a manifest may name *)
Definition is_ascii_lowercase (c : ascii) : bool := in_range "a"%char "z"%char c.
Definition is_ascii_digit (c : ascii) : bool := in_range "0"%char "9"%char c.
Definition valid_token (value : string) : bool :=
  negb (String.eqb value "") && forallb (fun c => is_ascii_lowercase c || is_ascii_digit c || Ascii.eqb c "-"%char) (chars value).
(** [str::split_once('/')] *)
Fixpoint split_once (s : string) : option (string * string) :=
  match s with
  | EmptyString => None
  | String c s => if Ascii.eqb c "/"%char then Some ("", s) else (fun p => (String c p.1, p.2)) <$> split_once s
  end.
Definition valid_id (value : string) : bool :=
  match value with
  | String c rest =>
      Ascii.eqb c "@"%char && match split_once rest with Some (scope, name) => valid_token scope && valid_token name | None => false end
  | EmptyString => false
  end.
Definition nibble (c : ascii) : option Z :=
  if in_range "0"%char "9"%char c then Some (Z.of_nat (nat_of_ascii c) - 48)
  else if in_range "a"%char "f"%char c then Some (Z.of_nat (nat_of_ascii c) - 97 + 10) else None.
Fixpoint digest_bytes (l : list ascii) : option (list Z) :=
  match l with
  | [] => Some []
  | a :: b :: l => x ← nibble a; y ← nibble b; rest ← digest_bytes l; Some (x * 16 + y :: rest)
  | [_] => Some []
  end.
Definition digest (value : string) : option (list Z) := if (String.length value =? 64)%nat then digest_bytes (chars value) else None.
(** [str::split('/')] *)
Fixpoint split_path (s : string) : list string :=
  match s with
  | EmptyString => [""]
  | String c s => if Ascii.eqb c "/"%char then "" :: split_path s else match split_path s with p :: l => String c p :: l | [] => [] end
  end.
Definition contains (c : ascii) (s : string) : bool := existsb (Ascii.eqb c) (chars s).
Definition path_parts (value : string) : PackageError + unit :=
  let* _ := require (negb (bool_decide (head (chars value) = Some "/"%char) || contains "\"%char value || contains ":"%char value)) InvalidPath in
  let parts := split_path value in
  require (negb ((length parts <? 3)%nat || negb (bool_decide (head parts = Some "game-packages"))
                 || existsb (fun p => String.eqb p "" || String.eqb p "." || String.eqb p "..") parts)) InvalidPath.

(** ** Files *)
Definition path_starts_with (path root : list string) : bool := bool_decide (root `prefix_of` path).
Definition artifact_path (root package_root : list string) (path : string) : PackageError + list string :=
  let* canonical := ok_or (canonicalize (root ++ split_path path)) InvalidPath in
  let* _ := require (path_starts_with canonical package_root && negb (bool_decide (canonical = package_root))) InvalidPath in
  let* _ := require (is_file canonical) InvalidPath in
  inr canonical.
Definition verify (bytes expected : string) : PackageError + unit :=
  let* expected := ok_or (digest expected) InvalidManifest in
  require (bool_decide (sha256 deployed bytes = expected)) HashMismatch.
Definition blen (s : string) : Z := Z.of_nat (String.length s).
Definition read_bounded (path : list string) (limit : Z) : PackageError + string :=
  let* bytes := ok_or (contents path) InvalidPath in
  let* _ := require (blen bytes <=? limit) InvalidManifest in
  inr bytes.

(** ** The manifest *)
Definition MiB : Z := 1024 * 1024.
Record Names := mkNames { ids : gset string; owners : gset string; paths : gset string }.
Definition claim_artifact (s : Names) (path sha : string) : PackageError + Names :=
  let* _ := path_parts path in
  let* _ := require (is_some (digest sha) && negb (bool_decide (path ∈ paths s))) InvalidManifest in
  inr (mkNames (ids s) (owners s) ({[path]} ∪ paths s)).
Definition is_object (v : Value) : bool := match v with Object _ => true | _ => false end.
Definition check_package (s : Names) (p : Package) : PackageError + Names :=
  let* _ := require (valid_id (pk_id p) && valid_token (gamedata_owner p) && negb (String.eqb (m_engine (matcher p)) "") && negb (String.eqb (m_game (matcher p)) "")
                     && negb (bool_decide (pk_id p ∈ ids s)) && negb (bool_decide (gamedata_owner p ∈ owners s))) InvalidManifest in
  let s := mkNames ({[pk_id p]} ∪ ids s) ({[gamedata_owner p]} ∪ owners s) (paths s) in
  let* s := rfold (fun s a => claim_artifact s (a_path a) (a_sha256 a)) s [bootstrap p; gamedata p] in
  let* s := match trusted_functions p with Some t => claim_artifact s (a_path t) (a_sha256 t) | None => inr s end in
  match pk_functions p with
  | Some f =>
      let* s := claim_artifact s (f_path f) (f_sha256 f) in
      let* _ := require (is_object (f_summary f) && (length (f_permissions f) <=? 2)%nat) InvalidManifest in
      inr s
  | None => inr s
  end.
Definition matches (engine game : string) (m : Manifest) : list Package :=
  filterb (fun p => String.eqb (m_engine (matcher p)) engine && String.eqb (m_game (matcher p)) game) (packages m).
Definition select_package (engine game : string) (m : Manifest) : PackageError + Package :=
  match matches engine game m with
  | [] => inl Missing
  | [p] => inr p
  | l => inl (Ambiguous (sort_strings (pk_id <$> l)))
  end.
Definition load_manifest (addon_root : list string) : PackageError + Manifest :=
  let path := addon_root ++ ["game-packages.json"] in
  let* bytes := match read_bounded path MiB with
                | inr bytes => inr bytes
                | inl _ => inl (if exists_ path then InvalidManifest else Missing)
                end in
  let* m := ok_or (read_manifest deployed bytes) InvalidManifest in
  let* _ := require (schema_version m =? 2) InvalidManifest in
  let* _ := rfold check_package (mkNames ∅ ∅ ∅) (packages m) in
  inr m.

(** ** The package *)
Definition has_surface_in (b : NormalizedBundle) (l : list string) : bool := existsb (fun f => existsb (fun s => mem s l) (surfaces (policy f))) (functions b).
Definition expected_permissions (b : NormalizedBundle) : list string :=
  (if has_surface_in b ["call"] then ["engine:calls"] else []) ++ (if has_surface_in b ["pre"; "post"] then ["engine:hooks"] else []).
Definition prepare_functions (id : string) (product : FunctionArtifact) (path : list string) : PackageError + PreparedFunctions :=
  let* bytes := read_bounded path (4 * MiB) in
  let* _ := verify bytes (f_sha256 product) in
  let* text := ok_or (Utf8.Utf8.from_utf8 bytes) InvalidManifest in
  let* bundle := map_err (fun _ => InvalidManifest) (parse (read_bundle deployed) text id (f_summary product) (f_permissions product)) in
  let* _ := require (bool_decide (f_permissions product = expected_permissions bundle)) InvalidManifest in
  inr (mkPreparedFunctions bytes (f_sha256 product) (bundle_hash bundle) (f_summary product) (f_permissions product)).
(** [value[key]]: null where there is none. *)
Definition index (v : Value) (key : string) : Value := match v with Object m => default Null (get m key) | _ => Null end.
Definition is_int (v : Value) (z : Z) : bool := match v with Number n => bool_decide (num_as_i64 n = Some z) | _ => false end.
Definition is_str (v : Value) (s : string) : bool := match v with String_ t => String.eqb t s | _ => false end.
Definition prepare_trusted (id : string) (product : Artifact) (path : list string) : PackageError + PreparedTrusted :=
  let* bytes := read_bounded path (4 * MiB) in
  let* _ := verify bytes (a_sha256 product) in
  let* top := ok_or (read_value deployed bytes) InvalidManifest in
  let* _ := require (is_int (index top "schemaVersion") 1 && is_str (index top "ownerId") id) InvalidManifest in
  inr (mkPreparedTrusted bytes (a_sha256 product)).
(** [(1..n).any(|i| l[..i].contains(&l[i]))] *)
Fixpoint repeated (before l : list (list string)) : bool :=
  match l with [] => false | x :: l => bool_decide (x ∈ before) || repeated (before ++ [x]) l end.
(** [Option::map(f).transpose()] *)
Definition transpose {A B} (f : A -> PackageError + B) (o : option A) : PackageError + option B :=
  match o with Some a => let* b := f a in inr (Some b) | None => inr None end.
Definition some_list {A} (o : option A) : list A := match o with Some a => [a] | None => [] end.
Definition both {A B} (a : option A) (b : option B) : option (A * B) := match a, b with Some a, Some b => Some (a, b) | _, _ => None end.
Definition prepare_selection (addon_root : list string) (engine game platform : string) : PackageError + PreparedSelection :=
  let* m := load_manifest addon_root in
  let* p := select_package engine game m in
  let* root := ok_or (canonicalize addon_root) InvalidPath in
  let* package_root := ok_or (canonicalize (root ++ ["game-packages"])) InvalidPath in
  let* _ := require (path_starts_with package_root root && negb (bool_decide (package_root = root)) && is_dir package_root) InvalidPath in
  let* bp := artifact_path root package_root (a_path (bootstrap p)) in
  let* gp := artifact_path root package_root (a_path (gamedata p)) in
  let* fp := transpose (fun f => artifact_path root package_root (f_path f)) (pk_functions p) in
  let* tp := transpose (fun t => artifact_path root package_root (a_path t)) (trusted_functions p) in
  let* _ := require (negb (repeated [] ([bp; gp] ++ some_list fp ++ some_list tp))) InvalidManifest in
  let* b := read_bounded bp (16 * MiB) in
  let* g := read_bounded gp (4 * MiB) in
  let* _ := ok_or (Utf8.Utf8.from_utf8 b) InvalidBootstrap in
  let* _ := verify b (a_sha256 (bootstrap p)) in
  let* _ := verify g (a_sha256 (gamedata p)) in
  let* f := transpose (fun x => prepare_functions (pk_id p) x.1 x.2) (both (pk_functions p) fp) in
  let* t := transpose (fun x => prepare_trusted (pk_id p) x.1 x.2) (both (trusted_functions p) tp) in
  inr (mkSelection (pk_id p) (gamedata_owner p) b g (a_sha256 (bootstrap p)) (a_sha256 (gamedata p)) f t
         (mkProvenance engine game platform (root ++ ["game-packages.json"]) bp gp fp tp)).

(** ** The manifest's names *)
Definition option_path {A} (f : A -> string) (o : option A) : list string := match o with Some a => [f a] | None => [] end.
Definition artifact_paths (p : Package) : list string :=
  [a_path (bootstrap p); a_path (gamedata p)] ++ option_path a_path (trusted_functions p) ++ option_path f_path (pk_functions p).
(** From [s] to [s'] the paths [l] were claimed. *)
Definition claimed (s s' : Names) (l : list string) : Prop :=
  ids s' = ids s /\ owners s' = owners s /\ (forall x, x ∈ paths s' <-> x ∈ l \/ x ∈ paths s) /\ NoDup l /\ (forall x, x ∈ l -> x ∉ paths s) /\
  Forall (fun x => path_parts x = inr tt) l.
Lemma claimed_nil s : claimed s s [].
Proof. split_and!; [done|done| |constructor|by intros x ?%not_elem_of_nil|constructor]. intros x. rewrite elem_of_nil. naive_solver. Qed.
Lemma claimed_app s1 s2 s3 l l' : claimed s1 s2 l -> claimed s2 s3 l' -> claimed s1 s3 (l ++ l').
Proof.
  intros (I & O & P & N & D & F) (I' & O' & P' & N' & D' & F'). split_and!; [congruence|congruence| | | |by apply Forall_app].
  - intros x. rewrite P', P, elem_of_app. tauto.
  - apply NoDup_app. split_and!; [done| |done]. intros x Hx Hx'. apply (D' x Hx'), P. by left.
  - intros x [Hx|Hx]%elem_of_app; [by apply D|]. intros Hs. apply (D' x Hx), P. by right.
Qed.
Lemma claim_inr s path sha s' : claim_artifact s path sha = inr s' -> claimed s s' [path].
Proof.
  unfold claim_artifact. intros E. apply rbind_inr in E as (u & Hp & E). destruct u. succeeds. subst s'. bool_to_prop.
  split_and!; [done|done| |apply NoDup_singleton| |by constructor].
  - intros x. cbn. rewrite elem_of_union, elem_of_singleton, list_elem_of_singleton. done.
  - intros x Hx. apply list_elem_of_singleton in Hx as ->. assumption.
Qed.
Lemma check_package_inr s p s' : check_package s p = inr s' ->
  valid_id (pk_id p) = true /\ pk_id p ∉ ids s /\ gamedata_owner p ∉ owners s /\ ids s' = {[pk_id p]} ∪ ids s /\ owners s' = {[gamedata_owner p]} ∪ owners s /\
  claimed (mkNames ({[pk_id p]} ∪ ids s) ({[gamedata_owner p]} ∪ owners s) (paths s)) s' (artifact_paths p).
Proof.
  unfold check_package. intros E. apply rbind_inr in E as (u & Hc & E). apply require_inr in Hc. bool_to_prop. cbv zeta in E. cbn [rfold] in E.
  set (s0 := mkNames _ _ _) in *. assert (Hgoal : forall s', claimed s0 s' (artifact_paths p) -> valid_id (pk_id p) = true /\ pk_id p ∉ ids s /\ gamedata_owner p ∉ owners s /\
    ids s' = {[pk_id p]} ∪ ids s /\ owners s' = {[gamedata_owner p]} ∪ owners s /\ claimed s0 s' (artifact_paths p)).
  { intros s1 Hs. pose proof Hs as (Hi & Ho & _). by split_and!. }
  apply Hgoal. clear Hgoal. clearbody s0. apply rbind_inr in E as (s3 & E1 & E). apply rbind_inr in E1 as (s1 & C1 & E1). apply rbind_inr in E1 as (s2 & C2 & E1). injection E1 as <-.
  apply claim_inr in C1, C2. unfold artifact_paths. eapply (claimed_app s0 s2); [apply (claimed_app s0 s1 s2 [_] [_] C1 C2)|].
  apply rbind_inr in E as (s4 & C4 & E). eapply (claimed_app s2 s4).
  - destruct (trusted_functions p); [by apply claim_inr in C4|]. injection C4 as <-. apply claimed_nil.
  - destruct (pk_functions p) as [f|]; [|injection E as <-; apply claimed_nil]. apply rbind_inr in E as (s5 & C5 & E). apply claim_inr in C5. apply rbind_inr in E as (u' & _ & E). by injection E as <-.
Qed.
Record names_ok (l : list Package) : Prop := mkNamesOk {
  no_ids : NoDup (pk_id <$> l); no_owners : NoDup (gamedata_owner <$> l); no_paths : NoDup (l ≫= artifact_paths);
  no_parts : Forall (fun x => path_parts x = inr tt) (l ≫= artifact_paths); no_valid : Forall (fun p => valid_id (pk_id p) = true) l }.
Lemma names_checked l s : rfold check_package (mkNames ∅ ∅ ∅) l = inr s -> names_ok l.
Proof.
  set (P := fun (l : list Package) (s : Names) => names_ok l /\ (forall x, x ∈ ids s <-> x ∈ pk_id <$> l) /\ (forall x, x ∈ owners s <-> x ∈ gamedata_owner <$> l) /\
    (forall x, x ∈ paths s <-> x ∈ l ≫= artifact_paths)). intros E. enough (P l s) as Hp by apply Hp. revert E. apply rfold_ind.
  - split; [by constructor; constructor|]. cbn. split_and!; set_solver.
  - intros l1 p l2 a b _ ([Ni No Np Fp Fv] & Hi & Ho & Hp) Hc. apply check_package_inr in Hc as (V & I & O & Ei & Eo & (_ & _ & Cp & Cn & Cd & Cf)). cbn [paths] in *.
    split; [constructor|]; rewrite ?fmap_app, ?bind_app; cbn [fmap list_fmap mbind list_bind]; rewrite ?app_nil_r.
    + apply NoDup_app. split_and!; [done| |apply NoDup_singleton]. intros x Hx Hx'. apply list_elem_of_singleton in Hx' as ->. by apply I, Hi.
    + apply NoDup_app. split_and!; [done| |apply NoDup_singleton]. intros x Hx Hx'. apply list_elem_of_singleton in Hx' as ->. by apply O, Ho.
    + apply NoDup_app. split_and!; [done| |done]. intros x Hx Hx'. by apply (Cd x Hx'), Hp.
    + by apply Forall_app.
    + apply Forall_app. split; [done|]. by constructor.
    + split_and!; intros x.
      * rewrite Ei, elem_of_union, elem_of_singleton, Hi, elem_of_app, list_elem_of_singleton. tauto.
      * rewrite Eo, elem_of_union, elem_of_singleton, Ho, elem_of_app, list_elem_of_singleton. tauto.
      * rewrite Cp, Hp, elem_of_app. tauto.
Qed.
Lemma load_manifest_inr root m : load_manifest root = inr m -> schema_version m = 2 /\ names_ok (packages m).
Proof. unfold load_manifest. intros E. cbv zeta in E. apply rbind_inr in E as (b & _ & E). succeeds. subst. bool_to_prop. split; [done|]. by eapply names_checked. Qed.

(** ** The selection *)
Lemma verify_inr bytes expected u : verify bytes expected = inr u -> digest expected = Some (sha256 deployed bytes).
Proof. unfold verify. intros E. succeeds. bool_to_prop. by subst. Qed.
Lemma read_bounded_inr path limit b : read_bounded path limit = inr b -> contents path = Some b /\ blen b <= limit.
Proof. unfold read_bounded. intros E. succeeds. bool_to_prop. by subst. Qed.
(** Strictly inside the package directory, and a file. *)
Definition inside (package_root path : list string) : Prop := package_root `prefix_of` path /\ path <> package_root /\ is_file path = true.
Lemma artifact_path_inr root pr path c : artifact_path root pr path = inr c -> canonicalize (root ++ split_path path) = Some c /\ inside pr c.
Proof. unfold artifact_path, path_starts_with. intros E. succeeds. subst. bool_to_prop. done. Qed.
Lemma repeated_false l before : repeated before l = false -> NoDup before -> NoDup (before ++ l).
Proof.
  revert before. induction l as [|x l IH]; intros before; cbn; [by rewrite app_nil_r|]. intros [Hx Hl]%orb_false_iff Hb. apply bool_decide_eq_false in Hx.
  change (x :: l) with ([x] ++ l). rewrite app_assoc. apply IH; [done|]. apply NoDup_app. split_and!; [done| |apply NoDup_singleton].
  intros y Hy Hy'. by apply list_elem_of_singleton in Hy' as ->.
Qed.
Lemma transpose_inr {A B} (f : A -> PackageError + B) o r : transpose f o = inr r ->
  match o, r with Some a, Some b => f a = inr b | None, None => True | _, _ => False end.
Proof. unfold transpose. destruct o; [|by intros [= <-]]. intros E. apply rbind_inr in E as (b & Hb & [= <-]). done. Qed.
(** The bytes of one file, with the digest its manifest entry names. *)
Definition authentic (path : list string) (limit : Z) (bytes sha : string) : Prop :=
  contents path = Some bytes /\ blen bytes <= limit /\ digest sha = Some (sha256 deployed bytes).
Definition functions_verified (p : Package) (sel : PreparedSelection) : Prop :=
  match pk_functions p, s_functions sel, functions_path (provenance sel) with
  | Some f, Some pf, Some path =>
      authentic path (4 * MiB) (pf_bytes pf) (f_sha256 f) /\
      exists b, parse (read_bundle deployed) (pf_bytes pf) (pk_id p) (f_summary f) (f_permissions f) = inr b /\ pf_bundle_hash pf = bundle_hash b /\
        pf_permissions pf = expected_permissions b /\ pf_summary pf = f_summary f
  | None, None, None => True
  | _, _, _ => False
  end.
Definition trusted_verified (p : Package) (sel : PreparedSelection) : Prop :=
  match trusted_functions p, s_trusted sel, trusted_path (provenance sel) with
  | Some t, Some pt, Some path => authentic path (4 * MiB) (pt_bytes pt) (a_sha256 t)
  | None, None, None => True
  | _, _, _ => False
  end.
Lemma prepare_functions_inr id product path pf : prepare_functions id product path = inr pf ->
  authentic path (4 * MiB) (pf_bytes pf) (f_sha256 product) /\
  exists b, parse (read_bundle deployed) (pf_bytes pf) id (f_summary product) (f_permissions product) = inr b /\ pf_bundle_hash pf = bundle_hash b /\
    pf_permissions pf = expected_permissions b /\ pf_summary pf = f_summary product.
Proof.
  unfold prepare_functions. intros E. apply rbind_inr in E as (b & Hb & E). apply rbind_inr in E as (u & Hv & E). apply rbind_inr in E as (t & Ht & E). apply ok_or_inr in Ht.
  apply rbind_inr in E as (bundle & Hp & E). apply map_err_inr in Hp. apply rbind_inr in E as (u' & He & E). apply require_inr, bool_decide_eq_true in He. injection E as <-.
  apply read_bounded_inr in Hb as [Hc Hl]. apply verify_inr in Hv. cbn. split; [by split_and!|]. exists bundle. split_and!; [|done|done|done].
  unfold Utf8.Utf8.from_utf8 in Ht. destruct (Utf8.Utf8.valid_fuel _ _) in Ht; [|done]. injection Ht as <-. exact Hp.
Qed.
Lemma prepare_trusted_inr id product path pt : prepare_trusted id product path = inr pt -> authentic path (4 * MiB) (pt_bytes pt) (a_sha256 product).
Proof.
  unfold prepare_trusted. intros E. apply rbind_inr in E as (b & Hb & E). apply rbind_inr in E as (u & Hv & E). succeeds. subst pt. apply read_bounded_inr in Hb as [Hc Hl]. apply verify_inr in Hv. by split_and!.
Qed.

(** C39. A prepared game package is what the manifest says, and nothing else matched. The manifest is well
    formed as a whole: no id, gamedata owner or path is named twice, and every path is a plain one below
    the package directory. Exactly one package names this engine and game; its files resolve, links
    included, to different files strictly inside the package directory; every byte handed on is the file's
    and has the digest of its entry; and the public functions parse under the package's own id with exactly
    the permissions their surfaces need. *)
Theorem selection_verified addon_root engine game platform sel :
  prepare_selection addon_root engine game platform = inr sel ->
  exists m p root pr,
    load_manifest addon_root = inr m /\ schema_version m = 2 /\ names_ok (packages m) /\ matches engine game m = [p] /\
    s_id sel = pk_id p /\ s_gamedata_owner sel = gamedata_owner p /\
    canonicalize addon_root = Some root /\ canonicalize (root ++ ["game-packages"]) = Some pr /\ root `prefix_of` pr /\ pr <> root /\
    (let v := provenance sel in
     let files := [bootstrap_path v; gamedata_path v] ++ some_list (functions_path v) ++ some_list (trusted_path v) in
     NoDup files /\ Forall (inside pr) files /\
     authentic (bootstrap_path v) (16 * MiB) (bootstrap_bytes sel) (a_sha256 (bootstrap p)) /\
     authentic (gamedata_path v) (4 * MiB) (gamedata_bytes sel) (a_sha256 (gamedata p))) /\
    is_Some (Utf8.Utf8.from_utf8 (bootstrap_bytes sel)) /\ functions_verified p sel /\ trusted_verified p sel.
Proof.
  unfold prepare_selection. intros E. apply rbind_inr in E as (m & Hm & E). apply rbind_inr in E as (p & Hp & E). apply rbind_inr in E as (root & Hroot & E). apply ok_or_inr in Hroot.
  apply rbind_inr in E as (pr & Hpr & E). apply ok_or_inr in Hpr. apply rbind_inr in E as (u1 & Hdir & E). apply require_inr in Hdir. unfold path_starts_with in Hdir. bool_to_prop.
  apply rbind_inr in E as (bp & Hbp & E). apply rbind_inr in E as (gp & Hgp & E). apply rbind_inr in E as (fp & Hfp & E). apply rbind_inr in E as (tp & Htp & E).
  apply rbind_inr in E as (u2 & Hd & E). apply require_inr, negb_true_iff in Hd. apply rbind_inr in E as (b & Hb & E). apply rbind_inr in E as (g & Hg & E).
  apply rbind_inr in E as (u3 & Hu & E). apply ok_or_inr in Hu. apply rbind_inr in E as (u4 & Hvb & E). apply rbind_inr in E as (u5 & Hvg & E).
  apply rbind_inr in E as (f & Hf & E). apply rbind_inr in E as (t & Ht & E). injection E as <-.
  destruct (load_manifest_inr _ _ Hm) as [Hv Hn]. apply artifact_path_inr in Hbp as [_ Hbp], Hgp as [_ Hgp]. apply read_bounded_inr in Hb as [Hb Hlb], Hg as [Hg Hlg].
  apply verify_inr in Hvb, Hvg. apply transpose_inr in Hfp, Htp, Hf, Ht. apply repeated_false in Hd; [|constructor]. cbn [app] in Hd.
  assert (Hm' : matches engine game m = [p]) by (unfold select_package in Hp; destruct (matches engine game m) as [|q [|]]; [done| |done]; by injection Hp as ->).
  exists m, p, root, pr. cbn. split_and!; try done.
  - constructor; [done|]. constructor; [done|]. apply Forall_app. split.
    + destruct (pk_functions p), fp; try done. constructor; [by apply artifact_path_inr in Hfp as [_ ?]|constructor].
    + destruct (trusted_functions p), tp; try done. constructor; [by apply artifact_path_inr in Htp as [_ ?]|constructor].
  - unfold functions_verified. cbn. destruct (pk_functions p) as [fa|], fp as [path|]; try done; cbn in Hf; destruct f as [pf|]; try done. by apply prepare_functions_inr.
  - unfold trusted_verified. cbn. destruct (trusted_functions p) as [ta|], tp as [path|]; try done; cbn in Ht; destruct t as [pt|]; try done. by apply prepare_trusted_inr in Ht.
Qed.
End Selection.
End PackageManifest.

Module PackageManifestExamples.
Import PackageManifest JsonExamples EngineContractExamples.

(** One package for a game, with a digest that repeats the length. *)
Definition hex (n : nat) : string := Stdlib.Strings.String.string_of_list_ascii (concat (repeat ["0"%char; ascii_of_nat (48 + n)] 32)).
Definition cs2 : Package (num := num) :=
  mkPackage "@s2/cs2" (mkMatch "source2" "cs2") "cs2" (mkArtifact "game-packages/cs2/boot.js" (hex 4)) (mkArtifact "game-packages/cs2/gamedata.jsonc" (hex 2)) None None.
Definition dota : Package (num := num) :=
  mkPackage "@s2/dota" (mkMatch "source2" "dota") "dota" (mkArtifact "game-packages/dota/boot.js" (hex 4)) (mkArtifact "game-packages/dota/gamedata.jsonc" (hex 2)) None None.
Definition disk : list (list string * string) :=
  [(["srv"; "game-packages.json"], "json"); (["srv"; "game-packages"; "cs2"; "boot.js"], "boot"); (["srv"; "game-packages"; "cs2"; "gamedata.jsonc"], "{}")].
Definition on_disk (p : list string) : option string := snd <$> find (fun e => bool_decide (e.1 = p)) disk.
#[local] Instance files : Files := {|
  contents := on_disk; exists_ p := is_some (on_disk p); canonicalize := Some; is_file p := is_some (on_disk p); is_dir p := negb (is_some (on_disk p)) |}.
Definition host (l : list (Package (num := num))) : Deployed (num := num) :=
  mkDeployed (fun _ => Some (mkManifest 2 l)) (fun _ => inl "none") (fun _ => None) (fun s => repeat (Z.of_nat (String.length s)) 32).
Definition select (l : list (Package (num := num))) (game : string) : PackageError + PreparedSelection :=
  prepare_selection (host l) ["srv"] "source2" game "linux".
Example selected : match select [cs2; dota] "cs2" with inr s => (s_id s, bootstrap_bytes s, gamedata_bytes s) = ("@s2/cs2", "boot", "{}") | inl _ => False end.
Proof. vm_compute. reflexivity. Qed.
Example unlisted : select [cs2] "deadlock" = inl Missing.
Proof. vm_compute. reflexivity. Qed.
Definition twin : Package (num := num) :=
  mkPackage "@s2/cs1" (mkMatch "source2" "cs2") "cs1" (mkArtifact "game-packages/cs1/boot.js" (hex 4)) (mkArtifact "game-packages/cs1/gamedata.jsonc" (hex 2)) None None.
Example ambiguous : select [cs2; twin] "cs2" = inl (Ambiguous ["@s2/cs1"; "@s2/cs2"]).
Proof. vm_compute. reflexivity. Qed.
Example escaping : path_parts "game-packages/../admins.json" = inl InvalidPath.
Proof. vm_compute. reflexivity. Qed.
Example tampered : select [mkPackage "@s2/cs2" (mkMatch "source2" "cs2") "cs2" (mkArtifact "game-packages/cs2/boot.js" (hex 5)) (gamedata cs2) None None] "cs2" = inl HashMismatch.
Proof. vm_compute. reflexivity. Qed.
Lemma selection_verified_witness : match select [cs2; dota] "cs2" with inr sel => exists p, matches "source2" "cs2" (mkManifest 2 [cs2; dota]) = [p] /\ s_id sel = pk_id p | inl _ => False end.
Proof.
  pose proof selected as Hs. destruct (select [cs2; dota] "cs2") as [e|sel] eqn:E; [done|].
  destruct (selection_verified (host [cs2; dota]) ["srv"] "source2" "cs2" "linux" sel E) as (m & p & root & pr & Hm & _ & _ & Hp & Hid & _).
  exists p. split; [|exact Hid]. assert (Hm' : load_manifest (host [cs2; dota]) ["srv"] = inr (mkManifest 2 [cs2; dota])) by (vm_compute; reflexivity).
  rewrite Hm' in Hm. injection Hm as <-. exact Hp.
Defined.
End PackageManifestExamples.
