(* ===== verification/ServerLock.v ===== *)
(** The server manifest and lockfile (core/src/server_update.rs, first half).

    [plugins.json] names the plugins a server wants, [plugins-lock.json] the files that were installed for
    them. [parse_manifest] and [parse_lock] read the documents, [serialize_lock] prints the second; the
    integrity of a file is its SHA-256 in base 64, as npm writes it. The JSON reader and printer, SHA-256 and
    the [Debug] form of a string (in error texts only) are parameters. A [BTreeMap] is the list of its entries
    in key order, a [BTreeSet] a map to [unit]. *)
From S2P Require Import Prelude.
From S2P Require Import Results.
From S2P Require Import Text.
From S2P Require Import Json.
From S2P Require Import EngineContract.
From Stdlib Require Import Ascii.
From Stdlib Require String.
Import Text.Text Json.

(** The readers and printers of the document crate, and [Debug] of a string. *)
Class Documents (num : Type) := {
  from_str : string -> string + Json.Value num;
  to_string_pretty : Json.Value num -> string;
  debug : string -> string;
}.

(** Maps in key order. *)
Module OrderedMap.
Definition before (a b : string) : Prop := String.le a b /\ a <> b.
Definition ordered {A} (m : list (string * A)) : Prop := StronglySorted before m.*1.
Definition collect {A} (l : list (string * A)) : list (string * A) := foldl (fun out kv => insert kv.1 kv.2 out) [] l.

#[export] Instance before_trans : Transitive before.
Proof.
  intros a b c [Hab Ha] [Hbc Hb]. split; [by trans b|]. intros ->. apply Ha. by apply (anti_symm String.le).
Qed.
Lemma ordered_NoDup {A} (m : list (string * A)) : ordered m -> NoDup m.*1.
Proof.
  unfold ordered. induction m.*1 as [|k l IH]; [intros _; constructor|]. rewrite StronglySorted_cons. intros [Hk Hl]. constructor; [|by apply IH].
  intros Hin. rewrite Forall_forall in Hk. by destruct (Hk k Hin).
Qed.
Lemma insert_last {A} (m : list (string * A)) k a : Forall (fun kv => before kv.1 k) m -> insert k a m = m ++ [(k, a)].
Proof.
  induction m as [|[k' a'] m IH]; [done|]. intros [[Hle Hne] Hm]%Forall_cons. cbn [insert fst] in *. destruct (String.eqb_spec k k') as [->|_]; [done|].
  rewrite bool_decide_false; [by rewrite IH|]. intros Hle'. apply Hne. by apply (anti_symm String.le).
Qed.
Lemma collect_ordered {A} (m : list (string * A)) : ordered m -> collect m = m.
Proof.
  unfold ordered, collect. induction m as [|[k a] m IH] using rev_ind; [done|]. rewrite fmap_app, StronglySorted_app. cbn. intros (Hb & Hm & _).
  rewrite foldl_app. cbn. rewrite IH by done. apply insert_last. apply Forall_forall. intros [k' a'] Hin. apply (Hb k' k); [|by left].
  apply list_elem_of_fmap. by exists (k', a').
Qed.
Lemma insert_ordered {A} (m : list (string * A)) k a : ordered m -> ordered (insert k a m).
Proof.
  unfold ordered. induction m as [|[k' a'] m IH]; cbn [insert]; [intros _; cbn; repeat constructor|]. intros Hm. pose proof Hm as Hm'. cbn in Hm'. rewrite StronglySorted_cons in Hm'. destruct Hm' as [Hk Hs].
  destruct (String.eqb_spec k k') as [->|Hne]; [exact Hm|]. case_bool_decide as Hle.
  - cbn. rewrite StronglySorted_cons. split; [|exact Hm]. constructor; [by split|]. eapply Forall_impl; [exact Hk|]. intros x Hx. by trans k'.
  - cbn. rewrite StronglySorted_cons. split; [|by apply IH]. apply Forall_forall. intros x Hx. apply list_elem_of_fmap in Hx as ([x' b] & -> & Hin). cbn.
    assert (x' = k \/ x' ∈ m.*1) as [->|Hx].
    { clear -Hin. induction m as [|[k1 a1] m IH]; cbn in Hin; [apply list_elem_of_singleton in Hin as [= -> ->]; by left|].
      destruct (String.eqb k k1); [apply elem_of_cons in Hin as [[= -> ->]|Hin]; [by left|right; right; apply list_elem_of_fmap; by exists (x', b)]|].
      destruct (bool_decide (String.le k k1)); [apply elem_of_cons in Hin as [[= -> ->]|Hin]; [by left|right; apply list_elem_of_fmap; by exists (x', b)]|].
      apply elem_of_cons in Hin as [[= -> ->]|Hin]; [right; left|]. destruct (IH Hin) as [->|Hm]; [by left|right; by right]. }
    + split; [destruct (total String.le k k') as [|]; [done|done]|congruence].
    + rewrite Forall_forall in Hk. by apply Hk.
Qed.
Lemma get_In_keys {A} (m : list (string * A)) k : is_Some (get m k) <-> k ∈ m.*1.
Proof. rewrite <- not_eq_None_Some, json_get_None. destruct (decide (k ∈ m.*1)); tauto. Qed.
End OrderedMap.

Module Integrity.
(** ** Base 64 and hexadecimal *)
Definition B64 : string := "ABCDEFGHIJKLMNOPQRSTUVWXYZabcdefghijklmnopqrstuvwxyz0123456789+/".
Definition symbol (n : Z) : ascii := nth (Z.to_nat n) (chars B64) Ascii.zero.
(** [slice::chunks(3)] *)
Fixpoint chunks3 (l : list Z) : list (list Z) :=
  match l with a :: b :: c :: l => [a; b; c] :: chunks3 l | [] => [] | l => [l] end.
Definition chunk_word (c : list Z) : Z := Z.lor (Z.lor (Z.shiftl (nth 0 c 0) 16) (Z.shiftl (nth 1 c 0) 8)) (nth 2 c 0).
Definition encode_chunk (c : list Z) : list ascii :=
  (fun i => if (i <=? length c)%nat then symbol (Z.land (Z.shiftr (chunk_word c) (18 - 6 * Z.of_nat i)) 63) else "="%char) <$> [0; 1; 2; 3]%nat.
Definition base64 (bytes : list Z) : string := of_chars (chunks3 bytes ≫= encode_chunk).
(** [acc] holds the [bits] bits not yet written. *)
Fixpoint unbase64_loop (l : list ascii) (acc bits : Z) : option (list Z) :=
  match l with
  | [] => Some []
  | c :: l =>
      d ← position (Ascii.eqb c) (chars B64);
      let acc := Z.lor (u32_wrap (Z.shiftl acc 6)) (Z.of_nat d) in
      let bits := bits + 6 in
      if 8 <=? bits then
        let bits := bits - 8 in
        rest ← unbase64_loop l (Z.land acc (Z.shiftl 1 bits - 1)) bits;
        Some (Z.shiftr acc bits mod 256 :: rest)
      else unbase64_loop l acc bits
  end.
Definition unbase64 (s : string) : option (list Z) := unbase64_loop (chars (trim_end_matches "="%char s)) 0 0.

Definition digit_value (c : ascii) : option Z :=
  if between "0"%char "9"%char c then Some (Z.of_nat (nat_of_ascii c) - 48)
  else if between "a"%char "f"%char c then Some (Z.of_nat (nat_of_ascii c) - 87)
  else if between "A"%char "F"%char c then Some (Z.of_nat (nat_of_ascii c) - 55) else None.
(** [u8::from_str_radix(_, 16)] of two characters: a leading plus is a sign. *)
Definition from_str_radix (a b : ascii) : option Z :=
  if Ascii.eqb a "+"%char then digit_value b else x ← digit_value a; y ← digit_value b; Some (x * 16 + y).
Fixpoint pairs_to_bytes (l : list ascii) : option (list Z) :=
  match l with
  | a :: b :: l => x ← from_str_radix a b; rest ← pairs_to_bytes l; Some (x :: rest)
  | _ => Some []
  end.
Definition hex_to_bytes (hex : string) : option (list Z) :=
  if Nat.even (String.length hex) then pairs_to_bytes (chars hex) else None.
Definition hex_symbol (n : Z) : ascii := nth (Z.to_nat n) (chars "0123456789abcdef") Ascii.zero.
(** [format!("{b:02x}")] of every byte. *)
Definition bytes_to_hex (bytes : list Z) : string := of_chars (bytes ≫= (fun b => [hex_symbol (b / 16); hex_symbol (b mod 16)])).

Definition integrity_from_hex (hex : string) : option string := bytes ← hex_to_bytes hex; Some ("sha256-" +:+ base64 bytes).
Definition hex_from_integrity (integrity : string) : option string :=
  rest ← strip_prefix "sha256-" integrity;
  bytes ← unbase64 rest;
  if (length bytes =? 32)%nat then Some (bytes_to_hex bytes) else None.

(** ** Encode and decode *)
Definition is_byte (z : Z) : Prop := 0 <= z < 256.
Lemma lor_add a b n : 0 <= n -> 0 <= b < 2 ^ n -> Z.lor (a * 2 ^ n) b = a * 2 ^ n + b.
Proof.
  intros Hn Hb. symmetry. rewrite Z.add_nocarry_lxor, Z.lxor_lor; [done| |]; apply Z.bits_inj'; intros i Hi; rewrite Z.land_spec, Z.bits_0;
    (destruct (Z.lt_ge_cases i n); [rewrite Z.mul_pow2_bits_low by done; done|]);
    (replace (Z.testbit b i) with false; [apply andb_false_r|]); symmetry; (destruct (Z.eq_dec b 0) as [->|]; [apply Z.bits_0|]);
    apply Z.bits_above_log2; try lia; apply Z.log2_lt_pow2; [lia|apply (Z.lt_le_trans _ (2 ^ n)); [lia|apply Z.pow_le_mono_r; lia]| |];
    try lia; apply (Z.lt_le_trans _ (2 ^ n)); [lia|apply Z.pow_le_mono_r; lia].
Qed.
Lemma mask_ones n : 2 ^ n - 1 = Z.ones n.
Proof. rewrite Z.ones_equiv. lia. Qed.
Lemma symbols_distinct : forallb (fun n => bool_decide (position (Ascii.eqb (symbol (Z.of_nat n))) (chars B64) = Some n)) (seq 0 64) = true.
Proof. vm_compute. reflexivity. Qed.
Lemma symbol_position d : 0 <= d < 64 -> position (Ascii.eqb (symbol d)) (chars B64) = Some (Z.to_nat d).
Proof.
  intros Hd. pose proof (proj1 (forallb_elem _ _) symbols_distinct (Z.to_nat d)) as H. cbv beta in H. rewrite Z2Nat.id in H by lia.
  specialize (H ltac:(apply elem_of_seq; lia)). by apply bool_decide_eq_true in H.
Qed.
Lemma no_padding : forallb (fun n => negb (Ascii.eqb "="%char (symbol (Z.of_nat n)))) (seq 0 64) = true.
Proof. vm_compute. reflexivity. Qed.
Lemma symbol_not_padding d : 0 <= d < 64 -> Ascii.eqb "="%char (symbol d) = false.
Proof.
  intros Hd. pose proof (proj1 (forallb_elem _ _) no_padding (Z.to_nat d)) as H. cbv beta in H. rewrite Z2Nat.id in H by lia.
  specialize (H ltac:(apply elem_of_seq; lia)). by apply negb_true_iff in H.
Qed.
Lemma decode_step l d acc bits : 0 <= bits <= 6 -> 0 <= acc < 2 ^ bits -> 0 <= d < 64 ->
  unbase64_loop (symbol d :: l) acc bits =
    if 2 <=? bits then rest ← unbase64_loop l ((acc * 64 + d) mod 2 ^ (bits - 2)) (bits - 2); Some ((acc * 64 + d) / 2 ^ (bits - 2) :: rest)
    else unbase64_loop l (acc * 64 + d) (bits + 6).
Proof.
  intros Hb Ha Hd. cbn [unbase64_loop]. rewrite symbol_position by done. cbn [mbind option_bind]. rewrite Z2Nat.id by lia.
  assert (Hacc : Z.lor (u32_wrap (Z.shiftl acc 6)) d = acc * 64 + d).
  { assert (2 ^ bits <= 2 ^ 6) by (apply Z.pow_le_mono_r; lia). rewrite Z.shiftl_mul_pow2 by lia. unfold u32_wrap. rewrite Z.mod_small by lia. apply (lor_add acc d 6); lia. }
  rewrite Hacc. replace (8 <=? bits + 6) with (2 <=? bits) by (destruct (Z.leb_spec 2 bits), (Z.leb_spec 8 (bits + 6)); lia). destruct (Z.leb_spec 2 bits); [|done].
  replace (bits + 6 - 8) with (bits - 2) by lia. rewrite Z.shiftl_mul_pow2, Z.mul_1_l, (mask_ones (bits - 2)), Z.land_ones by lia. rewrite Z.shiftr_div_pow2 by lia.
  rewrite (Z.mod_small _ 256); [done|]. split; [apply Z.div_pos; lia|]. apply Z.div_lt_upper_bound; [lia|].
  assert (2 ^ bits = 2 ^ (bits - 2) * 4) by (change 4 with (2 ^ 2); rewrite <- Z.pow_add_r by lia; f_equal; lia). lia.
Qed.
(** The four digits of three bytes. *)
Definition digits (a b c : Z) : list Z := [a / 4; a mod 4 * 16 + b / 16; b mod 16 * 4 + c / 64; c mod 64].
Lemma chunk_digits a b c : is_byte a -> is_byte b -> is_byte c ->
  let w := Z.lor (Z.lor (Z.shiftl a 16) (Z.shiftl b 8)) c in
  (fun i => Z.land (Z.shiftr w (18 - 6 * Z.of_nat i)) 63) <$> [0; 1; 2; 3]%nat = digits a b c.
Proof.
  intros Ha Hb Hc w. unfold is_byte in *. assert (Hw : w = a * 65536 + b * 256 + c).
  { subst w. rewrite !Z.shiftl_mul_pow2 by lia. replace (a * 2 ^ 16) with (a * 256 * 2 ^ 8) by lia. rewrite <- Z.lor_assoc, (Z.lor_comm _ c), Z.lor_assoc.
    rewrite <- Z.lor_assoc, (Z.lor_comm c). rewrite (lor_add b c 8) by lia. replace (a * 256 * 2 ^ 8) with (a * 2 ^ 16) by lia. rewrite (lor_add a _ 16) by lia. lia. }
  clearbody w. subst w.
  unfold digits. cbn [fmap list_fmap]. change 63 with (Z.ones 6). rewrite !Z.land_ones, !Z.shiftr_div_pow2 by lia.
  repeat (match goal with |- context[?x ^ ?y] => let v := eval vm_compute in (x ^ y) in change (x ^ y) with v end). rewrite Z.div_1_r.
  repeat (refine (f_equal2 cons _ _); [Z.to_euclidean_division_equations; lia|]). reflexivity.
Qed.
Lemma digits_range a b c : is_byte a -> is_byte b -> is_byte c -> Forall (fun d => 0 <= d < 64) (digits a b c).
Proof. unfold is_byte, digits. intros. repeat constructor; Z.to_euclidean_division_equations; lia. Qed.
Lemma encode_full a b c : is_byte a -> is_byte b -> is_byte c -> encode_chunk [a; b; c] = symbol <$> digits a b c.
Proof. intros Ha Hb Hc. rewrite <- (chunk_digits a b c) by done. reflexivity. Qed.
Lemma encode_two a b : is_byte a -> is_byte b -> encode_chunk [a; b] = (symbol <$> take 3 (digits a b 0)) ++ ["="%char].
Proof. intros Ha Hb. rewrite <- (chunk_digits a b 0) by (done || (unfold is_byte; lia)). reflexivity. Qed.
Lemma encode_one a : is_byte a -> encode_chunk [a] = (symbol <$> take 2 (digits a 0 0)) ++ ["="%char; "="%char].
Proof. intros Ha. rewrite <- (chunk_digits a 0 0) by (done || (unfold is_byte; lia)). reflexivity. Qed.
(** The digit [d] completes the byte [out] and leaves [acc'] of [bits'] bits. *)
Definition digit_decodes (acc bits d : Z) (out : option Z) (acc' bits' : Z) : Prop :=
  forall l, unbase64_loop (symbol d :: l) acc bits =
    match out with Some b => rest ← unbase64_loop l acc' bits'; Some (b :: rest) | None => unbase64_loop l acc' bits' end.
Lemma first_digit a : is_byte a -> digit_decodes 0 0 (a / 4) None (a / 4) 6.
Proof. unfold is_byte. intros Ha l. rewrite decode_step by (Z.to_euclidean_division_equations; lia). cbn [Z.leb Z.compare]. f_equal. Qed.
Lemma second_digit a b : is_byte a -> is_byte b -> digit_decodes (a / 4) 6 (a mod 4 * 16 + b / 16) (Some a) (b / 16) 4.
Proof.
  unfold is_byte. intros Ha Hb l. rewrite decode_step by (Z.to_euclidean_division_equations; lia). change (2 <=? 6) with true. cbv iota.
  change (6 - 2) with 4. change (2 ^ 4) with 16. replace ((a / 4 * 64 + (a mod 4 * 16 + b / 16)) mod 16) with (b / 16) by (Z.to_euclidean_division_equations; lia).
  by replace ((a / 4 * 64 + (a mod 4 * 16 + b / 16)) / 16) with a by (Z.to_euclidean_division_equations; lia).
Qed.
Lemma third_digit b c : is_byte b -> is_byte c -> digit_decodes (b / 16) 4 (b mod 16 * 4 + c / 64) (Some b) (c / 64) 2.
Proof.
  unfold is_byte. intros Hb Hc l. rewrite decode_step by (Z.to_euclidean_division_equations; lia). change (2 <=? 4) with true. cbv iota.
  change (4 - 2) with 2. change (2 ^ 2) with 4. replace ((b / 16 * 64 + (b mod 16 * 4 + c / 64)) mod 4) with (c / 64) by (Z.to_euclidean_division_equations; lia).
  by replace ((b / 16 * 64 + (b mod 16 * 4 + c / 64)) / 4) with b by (Z.to_euclidean_division_equations; lia).
Qed.
Lemma fourth_digit c : is_byte c -> digit_decodes (c / 64) 2 (c mod 64) (Some c) 0 0.
Proof.
  unfold is_byte. intros Hc l. rewrite decode_step by (Z.to_euclidean_division_equations; lia). change (2 <=? 2) with true. cbv iota.
  change (2 - 2) with 0. change (2 ^ 0) with 1. rewrite Z.mod_1_r, Z.div_1_r. by replace (c / 64 * 64 + c mod 64) with c by (Z.to_euclidean_division_equations; lia).
Qed.
Lemma decode_full a b c l : is_byte a -> is_byte b -> is_byte c ->
  unbase64_loop ((symbol <$> digits a b c) ++ l) 0 0 = rest ← unbase64_loop l 0 0; Some (a :: b :: c :: rest).
Proof.
  intros Ha Hb Hc. unfold digits. cbn [fmap list_fmap app].
  rewrite (first_digit a Ha), (second_digit a b Ha Hb), (third_digit b c Hb Hc), (fourth_digit c Hc). by destruct (unbase64_loop l 0 0).
Qed.
Definition unpadded (l : list ascii) : Prop := Forall (fun c => Ascii.eqb "="%char c = false) l.
Lemma symbols_unpadded l : Forall (fun d => 0 <= d < 64) l -> unpadded (symbol <$> l).
Proof. unfold unpadded. rewrite Forall_fmap. intros Hl. eapply Forall_impl; [exact Hl|]. intros d. apply symbol_not_padding. Qed.
Lemma base64_decodes : forall l, Forall is_byte l ->
  exists body k, chunks3 l ≫= encode_chunk = body ++ repeat "="%char k /\ unpadded body /\ unbase64_loop body 0 0 = Some l.
Proof.
  fix IH 1. intros [|a [|b [|c l]]] Hl.
  - exists [], O. split_and!; [done|constructor|done].
  - apply Forall_cons in Hl as [Ha _]. exists (symbol <$> take 2 (digits a 0 0)), 2%nat.
    split_and!; [cbn [chunks3 mbind list_bind]; rewrite encode_one, app_nil_r by done; done|apply symbols_unpadded, Forall_take, digits_range; unfold is_byte in *; lia|].
    unfold digits. cbn [take fmap list_fmap]. assert (H0 : is_byte 0) by (unfold is_byte; lia). by rewrite (first_digit a Ha), (second_digit a 0 Ha H0).
  - apply Forall_cons in Hl as [Ha Hl]. apply Forall_cons in Hl as [Hb _]. exists (symbol <$> take 3 (digits a b 0)), 1%nat.
    split_and!; [cbn [chunks3 mbind list_bind]; rewrite encode_two, app_nil_r by done; done|apply symbols_unpadded, Forall_take, digits_range; unfold is_byte in *; lia|].
    unfold digits. cbn [take fmap list_fmap]. assert (H0 : is_byte 0) by (unfold is_byte; lia). by rewrite (first_digit a Ha), (second_digit a b Ha Hb), (third_digit b 0 Hb H0).
  - apply Forall_cons in Hl as [Ha Hl]. apply Forall_cons in Hl as [Hb Hl]. apply Forall_cons in Hl as [Hc Hl]. destruct (IH l Hl) as (body & k & E & Hu & Hd).
    exists ((symbol <$> digits a b c) ++ body), k. split_and!.
    + cbn [chunks3 mbind list_bind]. rewrite encode_full by done. by rewrite <- app_assoc, <- E.
    + apply Forall_app. split; [by apply symbols_unpadded, digits_range|done].
    + rewrite decode_full by done. by rewrite Hd.
Qed.
Lemma trim_padding body k : unpadded body -> chars (trim_end_matches "="%char (of_chars (body ++ repeat "="%char k))) = body.
Proof.
  intros Hu. unfold trim_end_matches. rewrite !chars_of_chars, rev_app_distr. replace (rev (repeat "="%char k)) with (repeat "="%char k).
  2: { induction k as [|k IH]; [done|]. cbn [repeat rev]. rewrite <- IH. by rewrite <- repeat_cons. }
  induction k as [|k IH]; [|exact IH]. cbn [repeat app]. rewrite <- (rev_involutive body) at 2. f_equal.
  assert (Hr : Forall (fun c => Ascii.eqb "="%char c = false) (rev body)) by (by apply Forall_rev). destruct (rev body) as [|c r]; [done|]. apply Forall_cons in Hr as [Hc _]. cbn [dropwhile]. by rewrite Hc.
Qed.
Lemma unbase64_base64 l : Forall is_byte l -> unbase64 (base64 l) = Some l.
Proof. intros Hl. destruct (base64_decodes l Hl) as (body & k & E & Hu & Hd). unfold unbase64, base64. by rewrite E, trim_padding. Qed.
Lemma hex_pairs : forallb (fun n => bool_decide (from_str_radix (hex_symbol (Z.of_nat n / 16)) (hex_symbol (Z.of_nat n mod 16)) = Some (Z.of_nat n))) (seq 0 256) = true.
Proof. vm_compute. reflexivity. Qed.
Lemma hex_pair b : is_byte b -> from_str_radix (hex_symbol (b / 16)) (hex_symbol (b mod 16)) = Some b.
Proof.
  unfold is_byte. intros Hb. pose proof (proj1 (forallb_elem _ _) hex_pairs (Z.to_nat b)) as H. cbv beta in H. rewrite Z2Nat.id in H by lia.
  specialize (H ltac:(apply elem_of_seq; lia)). by apply bool_decide_eq_true in H.
Qed.
Lemma hex_round l : Forall is_byte l -> hex_to_bytes (bytes_to_hex l) = Some l.
Proof.
  intros Hl. unfold hex_to_bytes, bytes_to_hex. replace (Nat.even _) with true.
  - rewrite chars_of_chars. induction Hl as [|b l Hb Hl IH]; [done|]. cbn [mbind list_bind app pairs_to_bytes]. rewrite hex_pair by done. cbn. cbn in IH. by rewrite IH.
  - clear Hl. induction l as [|b l IH]; [done|]. exact IH.
Qed.
(** The text form of a digest. *)
Definition is_sha256 (hex : string) : Prop := exists l, length l = 32%nat /\ Forall is_byte l /\ hex = bytes_to_hex l.
Lemma integrity_round hex : is_sha256 hex -> exists i, integrity_from_hex hex = Some i /\ hex_from_integrity i = Some hex.
Proof.
  intros (l & Hn & Hl & ->). unfold integrity_from_hex. rewrite hex_round by done. exists ("sha256-" +:+ base64 l). split; [done|].
  unfold hex_from_integrity. rewrite strip_prefix_app. cbn [mbind option_bind]. rewrite unbase64_base64 by done. cbn [mbind option_bind]. by rewrite Hn.
Qed.
End Integrity.

Module ServerLock.
Import Integrity.

Definition DEFAULT_TIMEOUT_SECS : Z := 60.
Definition LOCKFILE_VERSION : Z := 3.
Definition PLUGINS_SUBDIR : string := "plugins".
Definition DISABLED_SUBDIR : string := "disabled".

(** [clamp] *)
Definition clamp (z lo hi : Z) : Z := if z <? lo then lo else if hi <? z then hi else z.
(** The SDK's rule and the loader's own: a bare [*.s2sp] name. *)
Definition safe_filename (name : string) : bool :=
  negb (is_empty name) && negb (String.eqb name ".") && negb (String.eqb name "..") && negb (has ".." name) && ends_with ".s2sp" name
  && forallb (fun b => is_ascii_alphanumeric b || Ascii.eqb b "."%char || Ascii.eqb b "_"%char || Ascii.eqb b "-"%char) (chars name).

(** ** Data *)
Record ServerManifest := mkManifest {
  name : string;
  dependencies : list (string * string);
  with_ : list (string * list string);
  disabled : list (string * unit);
  auto_update : bool;
  reviewed_only : bool;
  registry : option string;
  timeout : Z;  (* seconds *)
}.
Record LockedPlugin := mkLocked { l_name : string; l_version : string; l_resolved : string; l_integrity : string }.
Record Lock := mkLock {
  lk_name : string;
  root_name : string;
  lk_dependencies : list (string * string);
  lk_with : list (string * list string);
  lk_disabled : list (string * unit);
  plugins : list (string * LockedPlugin);
}.

Section Documents.
Context {num : Type} `{JsonNumber num} `{Digest num} `{Documents num}.
Notation Value := (Json.Value num).

(** [filter_map(as_str)] *)
Definition strings (l : list Value) : list string := omap as_str l.

(** ** plugins.json *)
Definition manifest_dependencies (j : Value) : string + list (string * string) :=
  match field j "dependencies" with
  | None => inr []
  | Some (Object m) =>
      rfold (fun out kv =>
        let* r := ok_or (as_str kv.2) ("plugins.json: dependency " +:+ kv.1 +:+ " must be a range string") in
        inr (insert kv.1 r out)) [] m
  | Some _ => inl ("plugins.json: " +:+ debug "dependencies" +:+ " must be an object")
  end.
Definition manifest_with (j : Value) : string + list (string * list string) :=
  match field j "with" with
  | None => inr []
  | Some w =>
      let* m := ok_or (as_object w) ("plugins.json: " +:+ debug "with" +:+ " must be an object") in
      rfold (fun out kv =>
        let* arr := ok_or (as_array kv.2) ("plugins.json: with[" +:+ kv.1 +:+ "] must be an array") in
        let* names := rmap (fun v => ok_or (as_str v) ("plugins.json: with[" +:+ kv.1 +:+ "] must hold names")) arr in
        inr (insert kv.1 names out)) [] m
  end.
Definition manifest_disabled (j : Value) (dependencies : list (string * string)) : string + list (string * unit) :=
  match field j "disabled" with
  | None => inr []
  | Some d =>
      let* arr := ok_or (as_array d) ("plugins.json: " +:+ debug "disabled" +:+ " must be an array of plugin names") in
      rfold (fun out v =>
        let* n := ok_or (as_str v) ("plugins.json: " +:+ debug "disabled" +:+ " must hold names") in
        let* _ := require (contains_key dependencies n) ("plugins.json: " +:+ debug "disabled" +:+ " names " +:+ n +:+ ", which is not in dependencies") in
        inr (insert n tt out)) [] arr
  end.
Definition parse_manifest (text fallback_name : string) : string + ServerManifest :=
  let* j := map_err (fun e => "plugins.json: " +:+ e) (from_str text) in
  let* _ := ok_or (as_object j) "plugins.json: must be a JSON object" in
  let* deps := manifest_dependencies j in
  let* w := manifest_with j in
  let* dis := manifest_disabled j deps in
  let secs := clamp (default DEFAULT_TIMEOUT_SECS (v ← field j "updateTimeoutSeconds"; as_u64 v)) 5 600 in
  let named := match str_field j "name" with Some n => if is_empty n then fallback_name else n | None => fallback_name end in
  inr (mkManifest named deps w dis
    (negb (bool_decide ((v ← field j "autoUpdate"; as_bool v) = Some false)))
    (bool_decide ((v ← field j "reviewedOnly"; as_bool v) = Some true))
    (str_field j "registry") secs).

(** ** plugins-lock.json *)
Definition lock_root (lock : Lock) (raw : Value) : Lock :=
  mkLock (lk_name lock) (default "" (str_field raw "name"))
    (match d ← field raw "dependencies"; as_object d with
     | Some d => foldl (fun out kv => insert kv.1 (default "" (as_str kv.2)) out) (lk_dependencies lock) d
     | None => lk_dependencies lock end)
    (match w ← field raw "with"; as_object w with
     | Some w => foldl (fun out kv => insert kv.1 (match as_array kv.2 with Some a => strings a | None => [] end) out) (lk_with lock) w
     | None => lk_with lock end)
    (match d ← field raw "disabled"; as_array d with
     | Some d => foldl (fun out n => insert n tt out) [] (strings d)
     | None => lk_disabled lock end)
    (plugins lock).
(** The file name of a key, below [plugins/] or [plugins/disabled/]. *)
Definition key_file (key : string) : option string :=
  (fun f => default f (strip_prefix "disabled/" f)) <$> strip_prefix "plugins/" key.
Definition lock_entry (lock : Lock) (key : string) (raw : Value) : string + Lock :=
  if is_empty key then inr (lock_root lock raw)
  else
    match key_file key, str_field raw "name", str_field raw "version", str_field raw "resolved", str_field raw "integrity" with
    | Some file, Some n, Some v, Some r, Some i =>
        if safe_filename file
        then inr (mkLock (lk_name lock) (root_name lock) (lk_dependencies lock) (lk_with lock) (lk_disabled lock) (insert key (mkLocked n v r i) (plugins lock)))
        else inl ("plugins-lock.json: malformed entry " +:+ debug key)
    | _, _, _, _, _ => inl ("plugins-lock.json: malformed entry " +:+ debug key)
    end.
Definition parse_lock (text : string) : string + Lock :=
  let* j := map_err (fun e => "plugins-lock.json: " +:+ e) (from_str text) in
  let* _ := require (bool_decide ((v ← field j "lockfileVersion"; as_u64 v) = Some LOCKFILE_VERSION)) "plugins-lock.json: lockfileVersion must be 3" in
  let* packages := ok_or (v ← field j "packages"; as_object v) ("plugins-lock.json: no " +:+ debug "packages") in
  rfold (fun lock kv => lock_entry lock kv.1 kv.2) (mkLock (default "" (str_field j "name")) "" [] [] [] []) packages.

(** The document as it is printed, its members in the order they are written. *)
Definition str_map (m : list (string * string)) : Value := Object ((fun kv => (kv.1, String_ kv.2)) <$> m).
Definition with_map (m : list (string * list string)) : Value := Object ((fun kv => (kv.1, Array (String_ <$> kv.2))) <$> m).
Definition root_value (lock : Lock) : Value :=
  Object ([("name", String_ (root_name lock)); ("dependencies", str_map (lk_dependencies lock))]
    ++ (match lk_with lock with [] => [] | w => [("with", with_map w)] end)
    ++ (match lk_disabled lock with [] => [] | d => [("disabled", Array (String_ <$> d.*1))] end)).
Definition plugin_value (p : LockedPlugin) : Value :=
  Object [("name", String_ (l_name p)); ("version", String_ (l_version p)); ("resolved", String_ (l_resolved p)); ("integrity", String_ (l_integrity p))].
Definition packages_value (lock : Lock) : Value := Object (("", root_value lock) :: ((fun kv => (kv.1, plugin_value kv.2)) <$> plugins lock)).
Definition lock_value (lock : Lock) : Value :=
  Object [("name", String_ (lk_name lock)); ("lockfileVersion", Number (from_u64 LOCKFILE_VERSION)); ("requires", Bool true); ("packages", packages_value lock)].
Definition newline : string := String (ascii_of_nat 10) "".
Definition serialize_lock (lock : Lock) : string := to_string_pretty (lock_value lock) +:+ newline.

(** ** Reading back *)
(** A document as a reader returns it: every object in key order. *)
Fixpoint norm (v : Value) : Value :=
  match v with
  | Array l => Array (norm <$> l)
  | Object m => Object (OrderedMap.collect ((fun kv => (kv.1, norm kv.2)) <$> m))
  | v => v
  end.
(** A lock of this program: maps in order, and every key names a plain file below [plugins/]. *)
Record lock_valid (l : Lock) : Prop := mkLockValid {
  lv_dependencies : OrderedMap.ordered (lk_dependencies l);
  lv_with : OrderedMap.ordered (lk_with l);
  lv_disabled : OrderedMap.ordered (lk_disabled l);
  lv_plugins : OrderedMap.ordered (plugins l);
  lv_keys : Forall (fun kv => exists f, key_file kv.1 = Some f /\ safe_filename f = true) (plugins l) }.

Lemma get_collect {A} (m : list (string * A)) k : NoDup m.*1 -> get (OrderedMap.collect m) k = get m k.
Proof. intros Hn. change (OrderedMap.collect m) with (extend [] m). rewrite json_get_extend by done. cbn. by destruct (get m k). Qed.
Lemma get_fmap {A B} (f : A -> B) (m : list (string * A)) k : get ((fun kv => (kv.1, f kv.2)) <$> m) k = f <$> get m k.
Proof. induction m as [|[k' a] m IH]; cbn; [done|]. by destruct (String.eqb k k'). Qed.
Lemma keys_fmap {A B} (f : A -> B) (m : list (string * A)) : ((fun kv => (kv.1, f kv.2)) <$> m).*1 = m.*1.
Proof. rewrite <- list_fmap_compose. done. Qed.
Lemma norm_field m k : NoDup m.*1 -> field (norm (Object m)) k = norm <$> get m k.
Proof. intros Hn. unfold field. cbn. rewrite get_collect by (by rewrite keys_fmap). apply get_fmap. Qed.
Lemma collect_norm {A} (f : A -> Value) (m : list (string * A)) : OrderedMap.ordered m ->
  norm (Object ((fun kv => (kv.1, f kv.2)) <$> m)) = Object ((fun kv => (kv.1, norm (f kv.2))) <$> m).
Proof.
  intros Hm. cbn. f_equal. rewrite <- list_fmap_compose. apply OrderedMap.collect_ordered. unfold OrderedMap.ordered in *.
  rewrite <- list_fmap_compose. exact Hm.
Qed.
Lemma foldl_fmap_ {A B C} (f : C -> B -> C) (g : A -> B) c l : foldl f c (g <$> l) = foldl (fun c a => f c (g a)) c l.
Proof. revert c. induction l as [|x l IH]; intros c; cbn; [done|]. apply IH. Qed.
Lemma foldl_ext_ {A C} (f g : C -> A -> C) c l : (forall c a, f c a = g c a) -> foldl f c l = foldl g c l.
Proof. intros E. revert c. induction l as [|x l IH]; intros c; cbn; [done|]. rewrite E. apply IH. Qed.
Lemma norm_strings (l : list string) : strings (norm <$> (String_ <$> l)) = l.
Proof. induction l as [|x l IH]; [done|]. unfold strings in *. cbn. by rewrite IH. Qed.
Lemma root_keys l : NoDup (match root_value l with Object m => m.*1 | _ => [] end).
Proof. unfold root_value. destruct (lk_with l), (lk_disabled l); cbn; apply (bool_decide_unpack _); vm_compute; exact I. Qed.
Lemma root_field l k : field (norm (root_value l)) k = norm <$> (match root_value l with Object m => get m k | _ => None end).
Proof. pose proof (root_keys l) as Hn. unfold root_value in *. by apply norm_field. Qed.
Lemma root_back n l : lock_valid l ->
  lock_root (mkLock n "" [] [] [] []) (norm (root_value l)) = mkLock n (root_name l) (lk_dependencies l) (lk_with l) (lk_disabled l) [].
Proof.
  intros [Hd Hw Hs Hp Hk]. unfold lock_root, str_field. rewrite !root_field. unfold root_value. cbn [get String.eqb Ascii.eqb Bool.eqb lk_name lk_dependencies lk_with lk_disabled plugins].
  f_equal.
  - cbn [app get String.eqb Ascii.eqb Bool.eqb]. cbn [fmap option_fmap option_map mbind option_bind]. unfold str_map. rewrite collect_norm by done. cbn [as_object].
    rewrite foldl_fmap_. cbn [fst snd norm as_str default]. by apply OrderedMap.collect_ordered.
  - destruct (lk_with l) as [|w0 w] eqn:E; [destruct (lk_disabled l); reflexivity|]. rewrite <- E in *. cbn [app get String.eqb Ascii.eqb Bool.eqb]. cbn [fmap option_fmap option_map mbind option_bind].
    unfold with_map. rewrite (collect_norm (fun x => Array (String_ <$> x))) by done. cbn [as_object]. rewrite foldl_fmap_. rewrite <- (OrderedMap.collect_ordered (lk_with l)) at 2 by done.
    unfold OrderedMap.collect. apply foldl_ext_. intros c [k x]. cbn [fst snd norm as_array]. by rewrite norm_strings.
  - destruct (lk_disabled l) as [|d0 d] eqn:E; [by destruct (lk_with l)|]. rewrite <- E in *. 
    replace (get _ "disabled") with (Some (Array (num := num) (String_ <$> (lk_disabled l).*1))) by (by destruct (lk_with l)).
    cbn [fmap option_fmap option_map mbind option_bind norm as_array]. rewrite norm_strings. rewrite <- (OrderedMap.collect_ordered (lk_disabled l)) at 2 by done.
    unfold OrderedMap.collect. rewrite foldl_fmap_. apply foldl_ext_. by intros c [k []].
Qed.
Lemma plugins_back n r d w s (l done_ : list (string * LockedPlugin)) :
  Forall (fun kv => exists f, key_file kv.1 = Some f /\ safe_filename f = true) l ->
  rfold (fun lock kv => lock_entry lock kv.1 kv.2) (mkLock n r d w s done_) ((fun kv => (kv.1, norm (plugin_value kv.2))) <$> l) =
  inr (mkLock n r d w s (foldl (fun out kv => insert kv.1 kv.2 out) done_ l)).
Proof.
  revert done_. induction l as [|[k [a b c e]] l IH]; intros done_ Hl; [done|]. apply Forall_cons in Hl as [(f & Hf & Hs) Hl]. cbn [fmap list_fmap rfold foldl fst snd] in *.
  unfold lock_entry. destruct (is_empty k) eqn:Ek; [apply is_empty_true in Ek as ->; done|]. rewrite Hf. unfold plugin_value, str_field.
  rewrite !norm_field by (apply (bool_decide_unpack _); vm_compute; exact I). cbn. rewrite Hs. cbn. by apply IH.
Qed.
Lemma packages_norm l : lock_valid l -> norm (packages_value l) = Object (("", norm (root_value l)) :: ((fun kv => (kv.1, norm (plugin_value kv.2))) <$> plugins l)).
Proof.
  intros [Hd Hw Hs Hp Hk]. unfold packages_value. cbn [norm]. f_equal. cbn [fmap list_fmap fst snd]. rewrite <- list_fmap_compose. apply OrderedMap.collect_ordered.
  unfold OrderedMap.ordered in *. cbn. rewrite <- list_fmap_compose. rewrite StronglySorted_cons. split; [|exact Hp].
  apply Forall_fmap. eapply Forall_impl; [exact Hk|]. intros [k p] (f & Hf & _). cbn [fst compose] in *. split; [by destruct k|]. intros E. cbn in E. by rewrite <- E in Hf.
Qed.
Lemma lock_back l : lock_valid l -> num_as_u64 (from_u64 LOCKFILE_VERSION) = Some LOCKFILE_VERSION ->
  from_str (serialize_lock l) = inr (norm (lock_value l)) -> parse_lock (serialize_lock l) = inr l.
Proof.
  intros Hv Hn E. unfold parse_lock. rewrite E. cbn [map_err rbind].
  assert (Hf : forall k, field (norm (lock_value l)) k = norm <$> (match lock_value l with Object m => get m k | _ => None end)).
  { intros k. apply norm_field. apply (bool_decide_unpack _). vm_compute. exact I. }
  unfold str_field. rewrite !Hf. unfold lock_value. cbn [get String.eqb Ascii.eqb Bool.eqb fmap option_fmap option_map mbind option_bind norm as_u64]. rewrite Hn.
  rewrite bool_decide_true by done. cbn [require rbind]. rewrite packages_norm by done. cbn [as_object ok_or rbind as_str default rfold fst snd].
  unfold lock_entry at 1. cbn [is_empty String.eqb]. cbn [rbind]. rewrite root_back by done. rewrite plugins_back by apply Hv. 
  change (foldl _ [] (plugins l)) with (OrderedMap.collect (plugins l)). rewrite OrderedMap.collect_ordered by apply Hv. by destruct l.
Qed.

(** ** What is read is valid *)
Lemma foldl_ordered {A B} (f : A -> string * B) (m : list (string * B)) l :
  OrderedMap.ordered m -> OrderedMap.ordered (foldl (fun out x => insert (f x).1 (f x).2 out) m l).
Proof. revert m. induction l as [|x l IH]; intros m Hm; [done|]. cbn. by apply IH, OrderedMap.insert_ordered. Qed.
Lemma lock_root_valid l raw : lock_valid l -> lock_valid (lock_root l raw).
Proof.
  intros [Hd Hw Hs Hp Hk]. unfold lock_root. split; cbn; try done; repeat case_match; try done.
  - by apply (foldl_ordered (fun kv => (kv.1, default "" (as_str kv.2)))).
  - by apply (foldl_ordered (fun kv : string * Value => (kv.1, match as_array kv.2 with Some a => strings a | None => [] end))).
  - apply (foldl_ordered (fun n => (n, tt))). constructor.
Qed.
Lemma key_insert {A} (P : string * A -> Prop) k a (m : list (string * A)) : P (k, a) -> Forall P m -> Forall P (insert k a m).
Proof.
  intros Ha Hm. induction m as [|[k' a'] m IH]; cbn [insert]; [by constructor|]. apply Forall_cons in Hm as [Hk Hm].
  destruct (String.eqb k k'); [by constructor|]. case_bool_decide; [by repeat constructor|]. constructor; [done|by apply IH].
Qed.
Lemma lock_entry_valid l key raw l' : lock_valid l -> lock_entry l key raw = inr l' -> lock_valid l'.
Proof.
  intros Hv. unfold lock_entry. destruct (is_empty key); [intros [= <-]; by apply lock_root_valid|].
  destruct (key_file key) as [file|] eqn:Hf; [|done]. repeat (destruct (str_field raw _); [|done]). destruct (safe_filename file) eqn:Hs; [|done]. intros [= <-].
  destruct Hv as [Hd Hw Hdis Hp Hk]. split; cbn; try done; [by apply OrderedMap.insert_ordered|]. apply key_insert; [by exists file|done].
Qed.
Lemma parse_lock_valid text l : parse_lock text = inr l -> lock_valid l.
Proof.
  unfold parse_lock. intros E. succeeds. revert E. apply (rfold_ind _ (fun _ l => lock_valid l)).
  - split; cbn; try constructor.
  - intros l1 kv l2 la lb _ Ha Hb. by eapply lock_entry_valid.
Qed.

(** C30. The lockfile is read as it was written. Whatever [parse_lock] accepts is a lock of this program: its
    maps are in key order and each key names a plain file in [plugins/] or [plugins/disabled/]. Printing such
    a lock and reading it again gives the same lock, where the reader returns the printed document with its
    members sorted; and a digest written as an integrity is read back as the digest. *)
Theorem server_lock_roundtrip l hex :
  lock_valid l -> is_sha256 hex -> num_as_u64 (from_u64 LOCKFILE_VERSION) = Some LOCKFILE_VERSION ->
  from_str (serialize_lock l) = inr (norm (lock_value l)) ->
  parse_lock (serialize_lock l) = inr l /\ (forall text l', parse_lock text = inr l' -> lock_valid l') /\
  exists i, integrity_from_hex hex = Some i /\ hex_from_integrity i = Some hex.
Proof. intros Hv Hh Hn E. split_and!; [by apply lock_back|apply parse_lock_valid|by apply integrity_round]. Qed.
End Documents.
End ServerLock.

Module ServerLockExamples.
Import Integrity ServerLock JsonExamples EngineContractExamples.

Definition rtv : LockedPlugin := mkLocked "@edge/rtv" "1.2.3" "https://www.s2script.com/rtv" "sha256-LCa0a2j/xo/5m0U8HTBBNBNCLXBkg7+g+YpeiGJm564=".
Definition core : LockedPlugin := mkLocked "@edge/jailbreak-core" "2.1.0" "https://www.s2script.com/core" "sha256-47DEQpj8HBSa+/TImW+5JCeuQeRkm5NMpJWZG3hSuFU=".
Definition fixture : Lock :=
  mkLock "my-server" "my-server" [("@edge/jailbreak", "^2.0.0"); ("@edge/rtv", "^1.2.0")] [("@edge/jailbreak", ["@edge/jailbreak-gangperks"])]
    [("@edge/rtv", tt)] [("plugins/_edge_jailbreak-core.s2sp", core); ("plugins/disabled/_edge_rtv.s2sp", rtv)].
(** A reader that knows the printed lock. *)
#[local] Instance documents : Documents num := {|
  from_str _ := inr (norm (lock_value fixture)); to_string_pretty _ := "{}"; debug s := s |}.
Example integrity_of_fixture : hex_from_integrity (l_integrity core) = Some "e3b0c44298fc1c149afbf4c8996fb92427ae41e4649b934ca495991b7852b855".
Proof. vm_compute. reflexivity. Qed.
Example integrity_back : integrity_from_hex "e3b0c44298fc1c149afbf4c8996fb92427ae41e4649b934ca495991b7852b855" = Some (l_integrity core).
Proof. vm_compute. reflexivity. Qed.
Example signed_hex : hex_to_bytes "+f" = Some [15].
Proof. vm_compute. reflexivity. Qed.
Example names : safe_filename <$> ["_edge_rtv.s2sp"; "../rtv.s2sp"; "a/b.s2sp"; ".s2sp"; "rtv.s2sp.s2s-tmp"] = [true; false; false; true; false].
Proof. vm_compute. reflexivity. Qed.
Example outside : lock_entry fixture "configs/admins.json" (plugin_value core) = inl "plugins-lock.json: malformed entry configs/admins.json".
Proof. vm_compute. reflexivity. Qed.
Lemma fixture_valid : lock_valid fixture.
Proof.
  split; try (apply (bool_decide_unpack _); vm_compute; exact I). repeat constructor; cbn; [by exists "_edge_jailbreak-core.s2sp"|by exists "_edge_rtv.s2sp"].
Qed.
Lemma server_lock_roundtrip_witness :
  parse_lock (serialize_lock fixture) = inr fixture /\
  exists i, integrity_from_hex (bytes_to_hex (repeat 7 32)) = Some i /\ hex_from_integrity i = Some (bytes_to_hex (repeat 7 32)).
Proof.
  destruct (server_lock_roundtrip fixture (bytes_to_hex (repeat 7 32)) fixture_valid) as (Hp & _ & Hi).
  - exists (repeat 7 32). split_and!; [reflexivity| |reflexivity]. repeat constructor; done.
  - reflexivity.
  - reflexivity.
  - split; [exact Hp|exact Hi].
Defined.
End ServerLockExamples.
