(* ===== verification/ServerUpdate.v ===== *)
(** The update of the installed plugins (core/src/server_update.rs, second part).

    [resolve_targets] asks the registry which files the manifest needs, [stage] brings the ones that changed
    next to their places, [commit] renames them in, prunes what the old lock owned and writes the new lock.
    The files are a map from paths relative to the addon root to bytes. What the registry answers may depend
    on everything asked before; whether an operation on a file fails is a parameter of the path ([Disk]), and
    a failed write may leave anything at its path. Nobody else changes the files of the addon meanwhile. *)
From S2P Require Import Prelude.
From S2P Require Import Results.
From S2P Require Import Utf8.
From S2P Require Import Text.
From S2P Require Import Json.
From S2P Require Import EngineContract.
From S2P Require Import ServerLock.
From stdpp Require Import pretty.
From Stdlib Require Import Ascii.
From Stdlib Require String.
Import Text.Text Json Integrity ServerLock.ServerLock.

(** The registry over the network, and the URL and document parsers. *)
Class Registry (num : Type) := {
  answer : list (string * bool) -> string -> bool -> string + (Z * string);
  url_host : string -> option string;
  from_slice : string -> string + Json.Value num;
}.
(** Which operations on files fail; a failed write says what is at its path then. *)
Class Disk := {
  readable : string -> bool;
  mkdir_error : string -> option string;
  write_error : string -> string -> option (string * option string);
  rename_error : string -> string -> option string;
  remove_error : string -> option string;
}.

Local Open Scope Z_scope.

Module ServerUpdate.

(** ** State *)
Record World := mkWorld { files : gmap string string; asked : list (string * bool) }.
Definition M (A : Type) : Type := effect World string A.

Definition MAX_S2SP_BYTES : Z := 32 * 1024 * 1024.
Definition STAGE_SUFFIX : string := ".s2s-tmp".
Definition MANIFEST_FILE : string := "plugins.json".
Definition LOCK_FILE : string := "plugins-lock.json".
Definition DEFAULT_REGISTRY : string := "https://www.s2script.com".

Record Target := mkTarget { t_name : string; t_version : string; filename : string; url : string; t_sha256 : string; t_disabled : bool }.
(** The path under [plugins/], and the key of the lock, which is the path under the addon root. *)
Definition rel (t : Target) : string := if t_disabled t then DISABLED_SUBDIR +:+ "/" +:+ filename t else filename t.
Definition key (t : Target) : string := PLUGINS_SUBDIR +:+ "/" +:+ rel t.
Definition parent (t : Target) : string := if t_disabled t then PLUGINS_SUBDIR +:+ "/" +:+ DISABLED_SUBDIR else PLUGINS_SUBDIR.
(** Where a download waits: beside its place. *)
Definition stage_path (t : Target) : string := key t +:+ STAGE_SUFFIX.
Record Rename := mkRename { from : string; to : string; what : string; r_staged : bool }.
Record Staged := mkStaged { renames : list Rename; lock : Lock; kept : Z }.

Section Update.
Context {num : Type} `{JsonNumber num} `{Digest num} `{Documents num} `{Registry num} `{Disk}.
Notation Value := (Json.Value num).

(** ** Requests *)
Definition get_url (u : string) (auth : bool) : M (Z * string) := fun w => (answer (asked w) u auth, mkWorld (files w) (asked w ++ [(u, auth)])).
Definition upper_hex (n : Z) : ascii := nth (Z.to_nat n) (chars "0123456789ABCDEF") Ascii.zero.
Definition enc (s : string) : string :=
  of_chars (chars s ≫= (fun b =>
    if is_ascii_alphanumeric b || Ascii.eqb b "-"%char || Ascii.eqb b "_"%char || Ascii.eqb b "."%char || Ascii.eqb b "~"%char then [b]
    else let n := Z.of_nat (nat_of_ascii b) in ["%"%char; upper_hex (n / 16); upper_hex (n mod 16)])).
Definition plan_url (registry name range : string) (w : option (list string)) : string :=
  let u := trim_end_matches "/"%char registry +:+ "/api/v1/plan?name=" +:+ enc name +:+ "&range=" +:+ enc range in
  match w with Some ((_ :: _) as l) => u +:+ "&with=" +:+ enc (join "," l) | _ => u end.
Definition error_detail (body : string) : string :=
  let said := match from_slice body with
              | inr v => x ← match field v "message" with Some m => Some m | None => field v "error" end; as_str x
              | inl _ => None end in
  default (Utf8.Utf8.from_utf8_lossy (Stdlib.Strings.String.substring 0 (Nat.min (String.length body) 200) body)) said.

(** ** Resolve *)
Notation Chosen := (list (string * (Target * string))).
Definition read_entry (m : ServerManifest) (root : string) (root_disabled : bool) (chosen : Chosen) (e : Value) : string + Chosen :=
  match str_field e "name", str_field e "version", str_field e "filename", str_field e "url" with
  | Some n, Some version, Some file, Some u =>
      let* sha := ok_or (str_field e "sha256") ("refusing " +:+ n +:+ "@" +:+ version +:+ ": registry did not provide a sha256") in
      let* _ := require (safe_filename file) ("refusing " +:+ n +:+ "@" +:+ version +:+ ": unsafe filename " +:+ debug file) in
      let review := default "" (str_field e "reviewState") in
      let* _ := require (negb (reviewed_only m && negb (String.eqb review "reviewed"))) ("reviewedOnly: refusing unreviewed plugin " +:+ n +:+ "@" +:+ version) in
      match Json.get chosen n with
      | Some (prior, r) =>
          let* _ := require (String.eqb (t_version prior) version) ("version conflict for " +:+ n +:+ ": " +:+ t_version prior +:+ " vs " +:+ version) in
          inr (Json.insert n (mkTarget (t_name prior) (t_version prior) (filename prior) (url prior) (t_sha256 prior) (t_disabled prior && root_disabled), r) chosen)
      | None => inr (Json.insert n (mkTarget n version file u sha root_disabled, review) chosen)
      end
  | _, _, _, _ => inl ("plan " +:+ root +:+ ": malformed install entry")
  end.
Definition resolve_one (m : ServerManifest) (registry : string) (chosen : Chosen) (dep : string * string) : M Chosen :=
  let '(name, range) := dep in
  let root_disabled := contains_key (disabled m) name in
  do (status, body) := get_url (plan_url registry name range (Json.get (with_ m) name)) true in
  do _ := lift (require (status =? 200) ("plan " +:+ name +:+ "@" +:+ range +:+ ": HTTP " +:+ pretty status +:+ ": " +:+ error_detail body)) in
  do plan := lift (map_err (fun e => "plan " +:+ name +:+ ": " +:+ e) (from_slice body)) in
  do _ := lift (match x ← field plan "errors"; as_array x with
                | Some ((_ :: _) as errs) => inl ("plan " +:+ name +:+ "@" +:+ range +:+ ": " +:+ join "; " (strings errs))
                | _ => inr tt end) in
  lift (rfold (read_entry m name root_disabled) chosen (default [] (x ← field plan "install"; as_array x))).
(** [sort_by] on the file name, stable. *)
Fixpoint place (t : Target) (l : list Target) : list Target :=
  match l with [] => [t] | u :: l' => if bool_decide (String.le (filename t) (filename u)) then t :: l else u :: place t l' end.
Definition by_filename (l : list Target) : list Target := foldr place [] l.
Fixpoint check_windows (l : list Target) : string + unit :=
  match l with
  | a :: (b :: _) as l' =>
      if String.eqb (filename a) (filename b) then inl (t_name a +:+ " and " +:+ t_name b +:+ " resolve to the same file " +:+ filename a)
      else check_windows l'
  | _ => inr tt
  end.
Definition resolve_targets (m : ServerManifest) (registry : string) : M (list Target) :=
  do chosen := mfold (resolve_one m registry) [] (dependencies m) in
  let out := by_filename ((fun kv => kv.2.1) <$> chosen) in
  do _ := lift (check_windows out) in
  lift (inr out).

(** ** Files *)
Definition read (f : gmap string string) (p : string) : option string := if readable p then f !! p else None.
Definition file_sha (f : gmap string string) (p : string) : option string := sha256_hex <$> read f p.
Definition write (p bytes : string) (f : gmap string string) : option string * gmap string string :=
  match write_error p bytes with
  | None => (None, <[p := bytes]> f)
  | Some (e, remains) => (Some e, match remains with Some b => <[p := b]> f | None => delete p f end)
  end.
Definition rename (a b : string) (f : gmap string string) : option string * gmap string string :=
  match f !! a, rename_error a b with
  | Some bytes, None => (None, <[b := bytes]> (delete a f))
  | Some _, Some e => (Some e, f)
  | None, _ => (Some "No such file or directory (os error 2)", f)
  end.
Definition remove_file (p : string) (f : gmap string string) : bool * gmap string string :=
  match f !! p, remove_error p with Some _, None => (true, delete p f) | _, _ => (false, f) end.

(** ** Stage *)
Definition discard (s : Staged) (f : gmap string string) : gmap string string :=
  foldl (fun f r => (remove_file (from r) f).2) f (filterb r_staged (renames s)).
Definition push_rename (r : Rename) (s : Staged) : Staged := mkStaged (renames s ++ [r]) (lock s) (kept s).
Definition moved_from (f : gmap string string) (old : option Lock) (t : Target) : option string :=
  fst <$> find (fun kv => negb (String.eqb kv.1 (key t)) && String.eqb (l_name kv.2) (t_name t) && bool_decide (file_sha f kv.1 = Some (t_sha256 t)))
    (match old with Some l => plugins l | None => [] end).
Definition stage_one (registry_host : option string) (old : option Lock) (s : Staged) (t : Target) : M Staged :=
  do integrity := lift (ok_or (integrity_from_hex (t_sha256 t)) (t_name t +:+ ": bad sha256 " +:+ t_sha256 t)) in
  let l := lock s in
  let s := mkStaged (renames s)
    (mkLock (lk_name l) (root_name l) (lk_dependencies l) (lk_with l) (lk_disabled l)
       (Json.insert (key t) (mkLocked (t_name t) (t_version t) (url t) integrity) (plugins l))) (kept s) in
  fun w =>
  if bool_decide (file_sha (files w) (key t) = Some (t_sha256 t)) then (inr (mkStaged (renames s) (lock s) (kept s + 1)), w)
  else match moved_from (files w) old t with
  | Some a =>
      let verb := if t_disabled t then "disabled" else "enabled" in
      (inr (push_rename (mkRename a (key t) (verb +:+ " " +:+ t_name t +:+ "@" +:+ t_version t) false) s), w)
  | None =>
      let auth := match registry_host with Some h => bool_decide (url_host (url t) = Some h) | None => false end in
      (do (status, bytes) := get_url (url t) auth in
       do _ := lift (require (status =? 200) ("download " +:+ t_name t +:+ "@" +:+ t_version t +:+ ": HTTP " +:+ pretty status +:+ ": " +:+ error_detail bytes)) in
       do _ := lift (require (blen bytes <=? MAX_S2SP_BYTES) ("download " +:+ t_name t +:+ "@" +:+ t_version t +:+ ": larger than " +:+ pretty MAX_S2SP_BYTES +:+ " bytes")) in
       let got := sha256_hex bytes in
       do _ := lift (require (String.eqb got (t_sha256 t)) ("sha256 mismatch for " +:+ t_name t +:+ "@" +:+ t_version t +:+ ": expected " +:+ t_sha256 t +:+ ", got " +:+ got)) in
       do _ := lift (match mkdir_error (parent t) with Some e => inl (parent t +:+ ": " +:+ e) | None => inr tt end) in
       fun w =>
       match write (stage_path t) bytes (files w) with
       | (Some e, f) => (inl (stage_path t +:+ ": " +:+ e), mkWorld f (asked w))
       | (None, f) => (inr (push_rename (mkRename (stage_path t) (key t) ("installed " +:+ t_name t +:+ "@" +:+ t_version t +:+ " -> " +:+ rel t) true) s), mkWorld f (asked w))
       end) w
  end.
Fixpoint stage_loop (host : option string) (old : option Lock) (s : Staged) (l : list Target) (w : World) : (string * Staged + Staged) * World :=
  match l with
  | [] => (inr s, w)
  | t :: l => match stage_one host old s t w with (inl e, w) => (inl (e, s), w) | (inr s, w) => stage_loop host old s l w end
  end.
Definition new_lock (m : ServerManifest) : Lock := mkLock (name m) (name m) (dependencies m) (with_ m) (disabled m) [].
Definition stage (m : ServerManifest) (targets : list Target) (host : option string) (old : option Lock) : M Staged := fun w =>
  match stage_loop host old (mkStaged [] (new_lock m) 0) targets w with
  | (inr s, w) => (inr s, w)
  | (inl (e, s), w) => (inl e, mkWorld (discard s (files w)) (asked w))
  end.

(** ** Commit *)
Record Report := mkReport { log : list string; installed : Z; moved : Z; removed : Z }.
Definition add_line (line : string) (r : Report) : Report := mkReport (log r ++ [line]) (installed r) (moved r) (removed r).
Definition commit_rename (x : gmap string string * Report) (r : Rename) : gmap string string * Report :=
  let '(f, out) := x in
  match rename (from r) (to r) f with
  | (None, f) =>
      let out := if r_staged r then mkReport (log out) (installed out + 1) (moved out) (removed out) else mkReport (log out) (installed out) (moved out + 1) (removed out) in
      (f, add_line ("[update] " +:+ what r) out)
  | (Some e, f) => (f, add_line ("WARN: [update] could not finish " +:+ debug (what r) +:+ ": " +:+ e) out)
  end.
Definition commit_prune (new : Lock) (x : gmap string string * Report) (kv : string * LockedPlugin) : gmap string string * Report :=
  let '(f, out) := x in
  let '(k, p) := kv in
  if contains_key (plugins new) k then (f, out)
  else match file_sha f k with
  | None => (f, out)
  | Some have =>
      if bool_decide (Some have = hex_from_integrity (l_integrity p)) then
        match remove_file k f with
        | (true, f) => (f, add_line ("[update] removed " +:+ l_name p +:+ "@" +:+ l_version p +:+ " (" +:+ k +:+ ")")
                             (mkReport (log out) (installed out) (moved out) (removed out + 1)))
        | (false, f) => (f, out)
        end
      else (f, add_line ("WARN: [update] left " +:+ k +:+ " in place — it no longer matches the lock, so it was changed by hand") out)
  end.
Definition commit_lock (new : Lock) (x : gmap string string * Report) : gmap string string * Report :=
  let '(f, out) := x in
  let text := serialize_lock new in
  if bool_decide (read f LOCK_FILE = Some text) then (f, out)
  else
    let tmp := LOCK_FILE +:+ STAGE_SUFFIX in
    let '(e, f) := write tmp text f in
    let '(e, f) := match e with Some _ => (e, f) | None => rename tmp LOCK_FILE f end in
    (f, match e with Some e => add_line ("WARN: [update] could not write plugins-lock.json: " +:+ e) out | None => out end).
Definition summary (s : Staged) (r : Report) : string :=
  "[update] plugins: " +:+ pretty (installed r) +:+ " installed, " +:+ pretty (kept s) +:+ " up to date, " +:+ pretty (removed r) +:+ " removed"
  +:+ (if 0 <? moved r then ", " +:+ pretty (moved r) +:+ " enabled/disabled" else "").
Definition old_plugins (old : option Lock) : list (string * LockedPlugin) := match old with Some l => plugins l | None => [] end.
Definition commit (s : Staged) (old : option Lock) (f : gmap string string) : gmap string string * list string :=
  let x := foldl commit_rename (f, mkReport [] 0 0 0) (renames s) in
  let x := foldl (commit_prune (lock s)) x (old_plugins old) in
  let '(f, out) := commit_lock (lock s) x in
  (f, log out ++ [summary s out]).

(** ** Start *)
Record UpdateConfig := mkConfig { manifest : ServerManifest; old_lock : option Lock; cfg_registry : string }.
(** [root_file_name] is the name of the addon directory, if it has one in Unicode. *)
Definition load_config (root_file_name env_registry : option string) (f : gmap string string) : string + option UpdateConfig :=
  match x ← read f MANIFEST_FILE; Utf8.Utf8.from_utf8 x with
  | None => inr None
  | Some text =>
      let* m := parse_manifest text (default "server" root_file_name) in
      if negb (auto_update m) || match dependencies m with [] => true | _ => false end then inr None
      else
        let* l := match x ← read f LOCK_FILE; Utf8.Utf8.from_utf8 x with
                  | Some t => let* l := parse_lock t in inr (Some l)
                  | None => inr None
                  end in
        let registry := match env_registry, registry m with Some r, _ => r | None, Some r => r | None, None => DEFAULT_REGISTRY end in
        inr (Some (mkConfig m l registry))
  end.
(** What the task of the update does before its commit point. *)
Definition prepare (cfg : UpdateConfig) : M Staged :=
  do targets := resolve_targets (manifest cfg) (cfg_registry cfg) in
  stage (manifest cfg) targets (url_host (cfg_registry cfg)) (old_lock cfg).
End Update.
End ServerUpdate.
