(* ===== verification/UpdateProperties.v ===== *)
(** What an update may change (over ServerUpdate.v).

    The file operations one by one, what the stage leaves, the commit as a whole, and the theorems. *)
From S2P Require Import Prelude.
From S2P Require Import Results.
From S2P Require Import Utf8.
From S2P Require Import Text.
From S2P Require Import Json.
From S2P Require Import EngineContract.
From S2P Require Import ServerLock.
From S2P Require Import ServerUpdate.
From Stdlib Require Import Ascii.
From Stdlib Require String.
Import Text.Text Json Integrity ServerLock.ServerLock ServerUpdate.ServerUpdate.
Local Open Scope Z_scope.

Module UpdateProperties.

(** ** Paths *)
Definition temporary (p : string) : Prop := exists a, p = a +:+ STAGE_SUFFIX.
Definition safe (t : Target) : Prop := safe_filename (filename t) = true.
Lemma substring_all s : Stdlib.Strings.String.substring 0 (String.length s) s = s.
Proof. induction s as [|c s IH]; [done|]. exact (f_equal (String c) IH). Qed.
Lemma ends_with_split suffix s : ends_with suffix s = true -> exists a, s = a +:+ suffix.
Proof.
  unfold ends_with. intros [Hl He]%andb_true_iff. apply Nat.leb_le in Hl. apply String.eqb_eq in He.
  exists (Stdlib.Strings.String.substring 0 (String.length s - String.length suffix) s). rewrite <- He at 2.
  remember (String.length suffix) as k eqn:E. clear E He suffix. revert k Hl. induction s as [|c s IH]; intros k Hl; [by destruct k|]. cbn [String.length] in *.
  destruct (decide (k = S (String.length s))) as [->|Hne].
  - rewrite Nat.sub_diag. symmetry. exact (substring_all (String c s)).
  - replace (S (String.length s) - k)%nat with (S (String.length s - k)) by lia. cbn [Stdlib.Strings.String.substring]. exact (f_equal (String c) (IH k ltac:(lia))).
Qed.
Lemma suffix_clash a b : a +:+ STAGE_SUFFIX <> b +:+ ".s2sp".
Proof. intros E. apply (f_equal (fun s => rev (chars s))) in E. rewrite !chars_app_s, !rev_app_distr in E. discriminate E. Qed.
Lemma safe_plugin t : safe t -> exists a, filename t = a +:+ ".s2sp".
Proof. unfold safe, safe_filename. intros Hs. bool_to_prop. by apply ends_with_split. Qed.
Lemma safe_no_slash n : safe_filename n = true -> contains "/"%char n = false.
Proof.
  unfold safe_filename, contains. intros Hs. bool_to_prop. apply existsb_none. intros c Hc.
  match goal with H : forallb _ _ = true |- _ => pose proof (proj1 (forallb_elem _ _) H c Hc) as Hok end.
  destruct (Ascii.eqb_spec "/"%char c) as [<-|]; [discriminate Hok|done].
Qed.
Lemma key_split t : exists d, key t = d +:+ filename t.
Proof. unfold key, rel. destruct (t_disabled t); [exists "plugins/disabled/"|exists "plugins/"]; reflexivity. Qed.
Lemma key_not_temporary t : safe t -> ~ temporary (key t).
Proof. intros (a & Ha)%safe_plugin (b & Hb). destruct (key_split t) as [d Hd]. rewrite Hd, Ha, <- app_assoc_s in Hb. by apply (suffix_clash b (d +:+ a)). Qed.
Lemma key_path t : key t = "plugins/" +:+ rel t.
Proof. reflexivity. Qed.
Lemma rel_disabled t : t_disabled t = true -> rel t = "disabled/" +:+ filename t.
Proof. unfold rel. by intros ->. Qed.
Lemma rel_enabled t : t_disabled t = false -> rel t = filename t.
Proof. unfold rel. by intros ->. Qed.
Lemma no_slash_prefix n : safe_filename n = true -> strip_prefix "disabled/" n = None.
Proof.
  intros Hn. apply safe_no_slash in Hn. destruct (strip_prefix "disabled/" n) eqn:E; [|done]. apply strip_prefix_Some in E. by rewrite E, contains_app in Hn.
Qed.
Lemma key_file_key t : safe t -> key_file (key t) = Some (filename t).
Proof.
  intros Ht. unfold key_file. rewrite key_path, strip_prefix_app. cbn [fmap option_fmap option_map].
  destruct (t_disabled t) eqn:E; [rewrite rel_disabled, strip_prefix_app by done; done|]. by rewrite rel_enabled, no_slash_prefix.
Qed.
Lemma key_inj t u : safe t -> safe u -> key t = key u -> filename t = filename u.
Proof. intros Ht Hu E. apply (f_equal key_file) in E. rewrite !key_file_key in E by done. by injection E. Qed.
Lemma owned_not_temporary k f : key_file k = Some f -> safe_filename f = true -> ~ temporary k.
Proof.
  unfold key_file. intros E Hs (b & Hb). destruct (strip_prefix "plugins/" k) as [r|] eqn:Ek; [|done]. apply strip_prefix_Some in Ek. cbn in E. injection E as E.
  assert (exists d, k = d +:+ f) as [d Hd].
  { destruct (strip_prefix "disabled/" r) as [r'|] eqn:Er; cbn in E; subst f; [|exists "plugins/"; exact Ek]. apply strip_prefix_Some in Er. subst r. exists "plugins/disabled/". by rewrite Ek. }
  destruct (safe_plugin (mkTarget "" "" f "" "" false) Hs) as [a Ha]. cbn in Ha. rewrite Hb, Ha, <- app_assoc_s in Hd. by apply suffix_clash in Hd.
Qed.
Lemma lock_file_not_temporary : ~ temporary LOCK_FILE.
Proof. intros (a & E). apply (f_equal (fun s => rev (chars s))) in E. rewrite !chars_app_s, !rev_app_distr in E. discriminate E. Qed.
Lemma lock_file_not_key t : key t <> LOCK_FILE.
Proof. unfold key. intros E. discriminate E. Qed.
Lemma lock_file_not_owned f : key_file LOCK_FILE = Some f -> False.
Proof. done. Qed.

Section Update.
Context {num : Type} `{JsonNumber num} `{Digest num} `{Documents num} `{Registry num} `{Disk}.
Notation Files := (gmap string string).
Implicit Types f : Files.

(** ** Single operations *)
Lemma write_other q p b f : q <> p -> (write p b f).2 !! q = f !! q.
Proof. intros Hne. unfold write. destruct (write_error p b) as [[e [r|]]|]; cbn; by rewrite ?lookup_insert_ne, ?lookup_delete_ne. Qed.
Lemma write_done p b f g : write p b f = (None, g) -> g = <[p := b]> f.
Proof. unfold write. destruct (write_error p b) as [[e r]|]; [done|]. by intros [= <-]. Qed.
Lemma rename_other q a b f : q <> a -> q <> b -> (rename a b f).2 !! q = f !! q.
Proof. intros Ha Hb. unfold rename. destruct (f !! a), (rename_error a b); cbn; by rewrite ?lookup_insert_ne, ?lookup_delete_ne. Qed.
Lemma remove_other q p f : q <> p -> (remove_file p f).2 !! q = f !! q.
Proof. intros Hne. unfold remove_file. destruct (f !! p), (remove_error p); cbn; by rewrite ?lookup_delete_ne. Qed.
Lemma discard_other q s f : (forall r, r ∈ renames s -> r_staged r = true -> from r <> q) -> discard s f !! q = f !! q.
Proof.
  unfold discard. intros Hr. assert (Hr' : forall r, r ∈ filterb r_staged (renames s) -> from r <> q) by (intros r [Hs Hin]%elem_of_filterb; by apply Hr).
  clear Hr. revert f Hr'. induction (filterb r_staged (renames s)) as [|r l IH]; intros f Hr; [done|]. cbn. rewrite IH by (intros r' Hin; apply Hr; by right).
  apply remove_other. intros ->. apply (Hr r); [by left|done].
Qed.

(** ** The renames of a commit *)
Definition outcome f f' (r : Rename) : Prop :=
  (f' !! to r = f !! from r /\ f' !! from r = None /\ is_Some (f !! from r)) \/
  (f' !! to r = f !! to r /\ f' !! from r = f !! from r /\ (f !! from r = None \/ is_Some (rename_error (from r) (to r)))).
Lemma commit_rename_files f out r : (commit_rename (f, out) r).1 = (rename (from r) (to r) f).2.
Proof. unfold commit_rename. by destruct (rename (from r) (to r) f) as [[e|] f']. Qed.
Lemma rename_outcome f r : from r <> to r -> outcome f (rename (from r) (to r) f).2 r.
Proof.
  intros Hne. unfold outcome, rename. destruct (f !! from r) as [b|] eqn:E; [|right; cbn; rewrite E; by split_and!; [| |left]].
  destruct (rename_error (from r) (to r)) eqn:Er; cbn; [right; split_and!; [done|done|right; by eexists]|].
  left. rewrite lookup_insert_eq, lookup_insert_ne, lookup_delete_eq by done. split_and!; [done|done|by eexists].
Qed.
Lemma renames_exact l : forall x, NoDup (to <$> l) -> NoDup (from <$> l) -> (forall r r', r ∈ l -> r' ∈ l -> from r <> to r') ->
  let f' := (foldl commit_rename x l).1 in
  (forall p, p ∉ to <$> l -> p ∉ from <$> l -> f' !! p = x.1 !! p) /\ (forall r, r ∈ l -> outcome x.1 f' r).
Proof.
  induction l as [|r l IH]; intros [f out] Ht Hf Hd; [split; [done|]; by intros r ?%elem_of_nil|]. cbn [foldl fmap list_fmap] in *.
  apply NoDup_cons in Ht as [Ht0 Ht], Hf as [Hf0 Hf]. pose proof (commit_rename_files f out r) as E. destruct (commit_rename (f, out) r) as [g out'] eqn:Ec. cbn [fst] in E.
  destruct (IH (g, out') Ht Hf) as [Hother Hin]; [intros; apply Hd; by right|]. cbn [fst] in *. split.
  - intros p Hp Hq. apply not_elem_of_cons in Hp as [Hp Hp'], Hq as [Hq Hq']. rewrite Hother by done. subst g. by apply rename_other.
  - assert (Hrt : from r ∉ to <$> l).
    { intros (r' & E' & Hr')%list_elem_of_fmap. by apply (Hd r r'); [left|right|]. }
    assert (Htf : to r ∉ from <$> l).
    { intros (r' & E' & Hr')%list_elem_of_fmap. apply (Hd r' r); [by right|left|done]. }
    intros r' [->|Hr']%elem_of_cons.
    + pose proof (rename_outcome f r) as Ho. rewrite <- E in Ho. unfold outcome in *. rewrite !Hother by done. apply Ho. apply (Hd r r); left.
    + assert (from r' <> from r) by (intros E'; apply Hf0; rewrite <- E'; by apply list_elem_of_fmap_2).
      assert (to r' <> to r) by (intros E'; apply Ht0; rewrite <- E'; by apply list_elem_of_fmap_2).
      assert (from r' <> to r) by (apply Hd; [by right|left]). assert (to r' <> from r) by (intros E'; apply (Hd r r'); [left|by right|done]).
      pose proof (Hin r' Hr') as Ho. unfold outcome in *. subst g. rewrite !rename_other in Ho by done. exact Ho.
Qed.

(** ** The prune *)
Definition prunable (new : Lock) f (l : list (string * LockedPlugin)) (p : string) : Prop :=
  exists e have, (p, e) ∈ l /\ contains_key (plugins new) p = false /\ file_sha f p = Some have /\ hex_from_integrity (l_integrity e) = Some have.
Lemma file_sha_ext f g p : f !! p = g !! p -> file_sha f p = file_sha g p.
Proof. unfold file_sha, read. by intros ->. Qed.
Lemma file_sha_none f p : f !! p = None -> file_sha f p = None.
Proof. unfold file_sha, read. intros ->. by destruct (readable p). Qed.
Lemma prune_step new f out k e p : (commit_prune new (f, out) (k, e)).1 !! p = f !! p \/
  (p = k /\ (commit_prune new (f, out) (k, e)).1 !! p = None /\ prunable new f [(k, e)] p).
Proof.
  unfold commit_prune. destruct (contains_key (plugins new) k) eqn:Ek; [by left|]. destruct (file_sha f k) as [have|] eqn:Es; [|by left].
  case_bool_decide as Hi; [|by left]. destruct (remove_file k f) as [b g] eqn:Er.
  destruct (decide (p = k)) as [->|Hne].
  - destruct b; [|left; unfold remove_file in Er; destruct (f !! k) eqn:Ef, (remove_error k); by simplify_eq/=].
    right. unfold remove_file in Er. destruct (f !! k) eqn:Ef, (remove_error k); try done. simplify_eq. cbn. rewrite lookup_delete_eq.
    split_and!; [done|done|]. exists e, have. split_and!; [by left|done|done|done].
  - left. pose proof (remove_other p k f Hne) as Ho. rewrite Er in Ho. by destruct b.
Qed.
Lemma prune_exact new l : forall x p, let f' := (foldl (commit_prune new) x l).1 in
  f' !! p = x.1 !! p \/ (f' !! p = None /\ prunable new x.1 l p).
Proof.
  induction l as [|[k e] l IH]; intros [f out] p; [by left|]. cbn [foldl]. destruct (commit_prune new (f, out) (k, e)) as [g out'] eqn:Ec.
  pose proof (prune_step new f out k e p) as Hs. rewrite Ec in Hs. cbn [fst] in Hs. specialize (IH (g, out') p). cbn [fst] in *. cbn zeta in *.
  assert (Hmore : forall e', (p, e') ∈ l \/ (p, e') ∈ [(k, e)] -> (p, e') ∈ (k, e) :: l) by (intros e'; rewrite !elem_of_cons, elem_of_nil; tauto).
  destruct IH as [IH|[IH (e' & have & Hin & Hk & Hs' & Hi)]].
  - destruct Hs as [Hs|(-> & Hs & e' & have & Hin & Hk & Hs' & Hi)]; [left; by rewrite IH|]. right. rewrite IH. split; [done|]. exists e', have. split_and!; try done. apply Hmore. by right.
  - destruct Hs as [Hs|(-> & Hs & _)]; [|by rewrite (file_sha_none _ _ Hs) in Hs'].
    right. split; [done|]. exists e', have. rewrite (file_sha_ext f g) by done. split_and!; try done. apply Hmore. by left.
Qed.
Lemma commit_lock_other new x p : p <> LOCK_FILE -> p <> LOCK_FILE +:+ STAGE_SUFFIX -> (commit_lock new x).1 !! p = x.1 !! p.
Proof.
  intros Hl Ht. unfold commit_lock. destruct x as [f out]. case_bool_decide; [done|]. pose proof (write_other p (LOCK_FILE +:+ STAGE_SUFFIX) (serialize_lock new) f Ht) as Hw.
  destruct (write _ _ f) as [[e|] g]; cbn in *; [done|]. pose proof (rename_other p (LOCK_FILE +:+ STAGE_SUFFIX) LOCK_FILE g Ht Hl) as Hr. destruct (rename _ _ g); cbn in *. by rewrite Hr.
Qed.
Lemma commit_files s old f :
  (commit s old f).1 = (commit_lock (lock s) (foldl (commit_prune (lock s)) (foldl commit_rename (f, mkReport [] 0 0 0) (renames s)) (old_plugins old))).1.
Proof. unfold commit. by destruct (commit_lock _ _). Qed.

(** ** Requests and temporaries *)
Definition same_files (f g : Files) : Prop := forall p, ~ temporary p -> g !! p = f !! p.
(** The registry's token goes with a plan request, or to the registry's own host. *)
Definition allowed (m : ServerManifest) (registry : string) (x : string * bool) : Prop :=
  x.2 = true ->
  (exists n range, (n, range) ∈ dependencies m /\ x.1 = plan_url registry n range (Json.get (with_ m) n)) \/
  (exists h, url_host registry = Some h /\ url_host x.1 = Some h).
Definition to_registry (registry : string) (x : string * bool) : Prop := x.2 = true -> exists h, url_host registry = Some h /\ url_host x.1 = Some h.
Definition quiet (P : string * bool -> Prop) (w w' : World) : Prop :=
  same_files (files w) (files w') /\ exists l, asked w' = asked w ++ l /\ Forall P l.
#[local] Instance quiet_refl P : Reflexive (quiet P).
Proof. intros w. split; [done|]. exists []. rewrite app_nil_r. by split. Qed.
#[local] Instance quiet_trans P : Transitive (quiet P).
Proof.
  intros w1 w2 w3 [F1 (l1 & A1 & P1)] [F2 (l2 & A2 & P2)]. split; [intros p Hp; by rewrite F2, F1|]. exists (l1 ++ l2). rewrite A2, A1, app_assoc. split; [done|by apply Forall_app].
Qed.
Definition quietly {A} P (m : M A) : Prop := forall w, quiet P w (m w).2.
Lemma lift_quietly {A} P (r : string + A) : quietly P (lift r).
Proof. intros w. reflexivity. Qed.
Lemma bind_quietly {A B} P (m : M A) (k : A -> M B) : quietly P m -> (forall a, quietly P (k a)) -> quietly P (bind m k).
Proof. intros Hm Hk w. unfold bind. specialize (Hm w). destruct (m w) as [[e|a] w1]; cbn in *; [done|]. etrans; [exact Hm|apply Hk]. Qed.
Lemma get_quietly P u auth : P (u, auth) -> quietly P (get_url u auth).
Proof. intros Hp w. split; [done|]. exists [(u, auth)]. cbn. split; [done|by repeat constructor]. Qed.
Lemma mfold_quietly {A S} P (f : S -> A -> M S) l : forall s, (forall s a, a ∈ l -> quietly P (f s a)) -> quietly P (mfold f s l).
Proof.
  induction l as [|x l IH]; intros s Hf; [apply lift_quietly|]. cbn. apply bind_quietly; [apply Hf; by left|]. intros s'. apply IH. intros s'' a Ha. apply Hf. by right.
Qed.
Lemma resolve_quietly m registry : quietly (allowed m registry) (resolve_targets m registry).
Proof.
  unfold resolve_targets. apply bind_quietly; [|intros; apply bind_quietly; intros; apply lift_quietly].
  apply mfold_quietly. intros chosen [n range] Hin. apply bind_quietly; [apply get_quietly; intros _; left; by exists n, range|]. intros [status body].
  repeat (apply bind_quietly; [apply lift_quietly|intros]). apply lift_quietly.
Qed.

(** ** What is resolved *)
Record targets_ok (l : list Target) : Prop := mkTargetsOk {
  to_files : NoDup (filename <$> l); to_names : NoDup (t_name <$> l); to_safe : Forall safe l }.
Definition entry_ok (kv : string * (Target * string)) : Prop := t_name kv.2.1 = kv.1 /\ safe kv.2.1.
Definition chosen_ok (c : list (string * (Target * string))) : Prop := OrderedMap.ordered c /\ Forall entry_ok c.
Lemma read_entry_ok m root dis c e c' : chosen_ok c -> read_entry m root dis c e = inr c' -> chosen_ok c'.
Proof.
  intros [Ho He]. unfold read_entry. repeat (destruct (str_field e _); [|done]). intros E. apply rbind_inr in E as (sha & _ & E). apply rbind_inr in E as (u1 & Hs & E). apply require_inr in Hs.
  cbv zeta in E. apply rbind_inr in E as (u2 & _ & E). destruct (Json.get c s) as [[prior rev]|] eqn:Eg.
  - apply rbind_inr in E as (u3 & _ & E). injection E as <-. apply json_get_In in Eg. rewrite Forall_forall in He. destruct (He _ Eg) as [Hn Hsafe]. cbn in Hn, Hsafe.
    split; [by apply OrderedMap.insert_ordered|]. apply key_insert; [by split|by apply Forall_forall].
  - injection E as <-. split; [by apply OrderedMap.insert_ordered|]. apply key_insert; [by split|done].
Qed.
Lemma resolve_one_ok m registry c dep w c' w' : chosen_ok c -> resolve_one m registry c dep w = (inr c', w') -> chosen_ok c'.
Proof.
  destruct dep as [n range]. intros Hc E. apply bind_inr in E as ([status body] & w1 & _ & E). apply bind_inr in E as (u1 & w2 & _ & E). apply bind_inr in E as (plan & w3 & _ & E).
  apply bind_inr in E as (u2 & w4 & _ & E). apply lift_eq in E. injection E as E _. symmetry in E. revert E. apply (rfold_ind _ (fun _ => chosen_ok)); [done|].
  intros l1 x l2 a b _ Ha. by apply read_entry_ok.
Qed.
Lemma place_perm t l : place t l ≡ₚ t :: l.
Proof. induction l as [|u l IH]; cbn; [done|]. case_bool_decide; [done|]. rewrite IH. by constructor. Qed.
Lemma by_filename_perm l : by_filename l ≡ₚ l.
Proof. induction l as [|t l IH]; [done|]. cbn. rewrite place_perm. by constructor. Qed.
Definition le_file (a b : Target) : Prop := String.le (filename a) (filename b).
#[local] Instance le_file_trans : Transitive le_file.
Proof. intros a b c. unfold le_file. by etrans. Qed.
Lemma place_sorted t l : StronglySorted le_file l -> StronglySorted le_file (place t l).
Proof.
  induction l as [|u l IH]; cbn; [repeat constructor|]. intros Hs. pose proof Hs as Hs'. rewrite StronglySorted_cons in Hs'. destruct Hs' as [Hu Hl]. case_bool_decide as Hle; rewrite StronglySorted_cons.
  - split; [|exact Hs]. constructor; [done|]. eapply Forall_impl; [exact Hu|]. intros x. by apply (le_file_trans t u x).
  - split; [|by apply IH]. rewrite place_perm. constructor; [|done]. unfold le_file. destruct (total String.le (filename t) (filename u)); [done|done].
Qed.
Lemma by_filename_sorted l : StronglySorted le_file (by_filename l).
Proof. induction l as [|t l IH]; [constructor|]. by apply place_sorted. Qed.
Lemma windows_distinct l : StronglySorted le_file l -> check_windows l = inr tt -> NoDup (filename <$> l).
Proof.
  induction l as [|a l IH]; [intros; constructor|]. rewrite StronglySorted_cons. intros [Ha Hl]. destruct l as [|b l]; [intros _; apply NoDup_singleton|]. cbn [check_windows].
  destruct (String.eqb_spec (filename a) (filename b)) as [|Hne]; [done|]. intros Hc. cbn. constructor; [|by apply IH].
  intros [E|(c & E & Hc')%list_elem_of_fmap]%elem_of_cons; [done|]. rewrite StronglySorted_cons in Hl. destruct Hl as [Hb _]. rewrite Forall_forall in Hb. apply Hne.
  apply Forall_cons in Ha as [Hab _]. apply (anti_symm String.le); [exact Hab|]. rewrite E. exact (Hb c Hc').
Qed.
Lemma resolve_ok m registry w l w' : resolve_targets m registry w = (inr l, w') -> targets_ok l.
Proof.
  unfold resolve_targets. intros E. apply bind_inr in E as (c & w1 & Ec & E). apply bind_inr in E as (u & w2 & Eu & E). apply lift_eq in Eu, E. destruct u. simplify_eq.
  assert (chosen_ok c) as [Ho He].
  { revert Ec. apply (mfold_ind _ (fun _ => chosen_ok)); [split; [constructor|constructor]|]. intros l1 x l2 a b w3 w4 _. by apply resolve_one_ok. }
  split.
  - apply windows_distinct; [apply by_filename_sorted|done].
  - rewrite by_filename_perm. rewrite <- list_fmap_compose. replace (t_name ∘ (fun kv : string * (Target * string) => kv.2.1) <$> c) with c.*1; [by apply OrderedMap.ordered_NoDup|].
    apply list_fmap_ext. intros i kv Hkv. apply list_elem_of_lookup_2 in Hkv. rewrite Forall_forall in He. symmetry. by apply He.
  - rewrite by_filename_perm. apply Forall_fmap. eapply Forall_impl; [exact He|]. by intros kv [_ ?].
Qed.

(** ** What is staged *)
Section Staging.
Context (f0 : Files) (m : ServerManifest) (registry : string) (old : option Lock).
Context (old_valid : match old with Some l => lock_valid l | None => True end).
Notation host := (url_host registry).

Definition staged_rename (t : Target) (fw : Files) (r : Rename) : Prop := from r = stage_path t /\ exists b, fw !! from r = Some b /\ sha256_hex b = t_sha256 t.
Definition moved_rename (t : Target) (r : Rename) : Prop :=
  exists e, (from r, e) ∈ old_plugins old /\ l_name e = t_name t /\ from r <> key t /\ file_sha f0 (from r) = Some (t_sha256 t).
Definition rename_ok (targets : list Target) (fw : Files) (r : Rename) : Prop :=
  exists t, t ∈ targets /\ to r = key t /\ if r_staged r then staged_rename t fw r else moved_rename t r.
Definition locked_as (t : Target) (p : LockedPlugin) : Prop := l_name p = t_name t /\ l_version p = t_version t /\ integrity_from_hex (t_sha256 t) = Some (l_integrity p).
Record staged_ok (done_ : list Target) (s : Staged) (fw : Files) : Prop := mkStagedOk {
  so_lock : exists l, lock s = mkLock (name m) (name m) (dependencies m) (with_ m) (disabled m) l;
  so_ordered : OrderedMap.ordered (plugins (lock s));
  so_plugins : Forall (fun kv => exists t, t ∈ done_ /\ kv.1 = key t /\ locked_as t kv.2) (plugins (lock s));
  so_keys : forall t, t ∈ done_ -> key t ∈ (plugins (lock s)).*1;
  so_files : same_files f0 fw;
  so_renames : Forall (rename_ok done_ fw) (renames s);
  so_to : NoDup (to <$> renames s);
  so_from : NoDup (from <$> renames s);
  so_place : forall t, t ∈ done_ -> key t ∈ to <$> renames s \/ file_sha f0 (key t) = Some (t_sha256 t) }.

Lemma old_keys : NoDup (old_plugins old).*1.
Proof. destruct old as [l|]; [|constructor]. apply OrderedMap.ordered_NoDup, old_valid. Qed.
Lemma old_not_temporary k e : (k, e) ∈ old_plugins old -> ~ temporary k.
Proof.
  destruct old as [l|]; [|by intros ?%elem_of_nil]. intros Hin. pose proof (lv_keys l old_valid) as Hk. rewrite Forall_forall in Hk. destruct (Hk _ Hin) as (file & Hf & Hs).
  by eapply owned_not_temporary.
Qed.
Lemma stage_path_temporary t : temporary (stage_path t).
Proof. by exists (key t). Qed.
Lemma stage_path_inj t u : safe t -> safe u -> stage_path t = stage_path u -> filename t = filename u.
Proof. intros Ht Hu E. apply key_inj; [done|done|]. by apply app_cancel_r in E. Qed.
Lemma insert_keys {A} k (a : A) l : forall x, x ∈ (Json.insert k a l).*1 <-> x = k \/ x ∈ l.*1.
Proof.
  intros x. rewrite <- !OrderedMap.get_In_keys, json_get_insert. destruct (String.eqb_spec x k) as [->|Hne]; [|tauto]. split; [by left|by eexists].
Qed.
Lemma moved_from_Some fw t a : same_files f0 fw -> moved_from fw old t = Some a ->
  exists e, (a, e) ∈ old_plugins old /\ l_name e = t_name t /\ a <> key t /\ file_sha f0 a = Some (t_sha256 t).
Proof.
  unfold moved_from. fold (old_plugins old). intros Hf E. destruct (find _ _) as [[k e]|] eqn:Ef; [|done]. injection E as <-. apply find_some in Ef as [Hin Hb]. apply list_elem_of_In in Hin.
  bool_to_prop. repeat match goal with H : String.eqb _ _ = true |- _ => apply String.eqb_eq in H | H : String.eqb _ _ = false |- _ => apply String.eqb_neq in H end.
  exists e. cbn in *. split_and!; try done. rewrite <- (file_sha_ext fw f0); [done|]. apply Hf. by eapply old_not_temporary.
Qed.

(** What [rename_ok] forgets about the target list and keeps of the files. *)
Lemma rename_ok_mono l l' fw fw' r : l ⊆ l' -> (forall t, t ∈ l -> fw' !! stage_path t = fw !! stage_path t) -> rename_ok l fw r -> rename_ok l' fw' r.
Proof.
  intros Hl Hf (t & Ht & Hto & Hr). exists t. split_and!; [by apply Hl|done|]. destruct (r_staged r); [|done]. destruct Hr as (E & b & Hb & Hs). split; [done|]. exists b. by rewrite E, Hf, <- E.
Qed.
Lemma new_to done_ t fw s : targets_ok (done_ ++ [t]) -> Forall (rename_ok done_ fw) (renames s) -> key t ∉ to <$> renames s.
Proof.
  intros [Hf _ Hsafe] Hr (r & E & Hin)%list_elem_of_fmap. rewrite Forall_forall in Hr. destruct (Hr r Hin) as (u & Hu & Hto & _). rewrite Hto in E.
  rewrite Forall_app, Forall_singleton in Hsafe. destruct Hsafe as [Hsd Hst]. rewrite Forall_forall in Hsd. apply key_inj in E; [|done|by apply Hsd].
  rewrite fmap_app, NoDup_app in Hf. destruct Hf as (_ & Hn & _). apply (Hn (filename u)); [by apply list_elem_of_fmap_2|]. rewrite <- E. by left.
Qed.
Lemma new_from done_ t fw s r : targets_ok (done_ ++ [t]) -> Forall (rename_ok done_ fw) (renames s) -> from r = stage_path t \/ moved_rename t r ->
  from r ∉ from <$> renames s.
Proof.
  intros [Hf Hnames Hsafe] Hr Hnew (r' & E & Hin)%list_elem_of_fmap. rewrite Forall_forall in Hr. destruct (Hr r' Hin) as (u & Hu & _ & Hr').
  rewrite Forall_app, Forall_singleton in Hsafe. destruct Hsafe as [Hsd Hst]. rewrite Forall_forall in Hsd. rewrite fmap_app, NoDup_app in Hf, Hnames. destruct Hf as (_ & Hn & _), Hnames as (_ & Hn' & _).
  destruct Hnew as [Et|(e & He & Hne & _ & _)], (r_staged r').
  - destruct Hr' as [Eu _]. rewrite Et, Eu in E. apply stage_path_inj in E; [|done|by apply Hsd]. apply (Hn (filename u)); [by apply list_elem_of_fmap_2|]. rewrite <- E. by left.
  - destruct Hr' as (e & He & _). apply old_not_temporary in He. apply He. rewrite <- E, Et. apply stage_path_temporary.
  - destruct Hr' as [Eu _]. apply old_not_temporary in He. apply He. rewrite E, Eu. apply stage_path_temporary.
  - destruct Hr' as (e' & He' & Hne' & _). rewrite E in He. pose proof old_keys as Hk. pose proof (json_get_NoDup _ _ _ Hk He) as G. rewrite (json_get_NoDup _ _ _ Hk He') in G. injection G as <-.
    apply (Hn' (t_name u)); [by apply list_elem_of_fmap_2|]. rewrite <- Hne', Hne. by left.
Qed.

Definition with_entry (s : Staged) (t : Target) (i : string) : Lock :=
  let l := lock s in
  mkLock (lk_name l) (root_name l) (lk_dependencies l) (lk_with l) (lk_disabled l) (Json.insert (key t) (mkLocked (t_name t) (t_version t) (url t) i) (plugins l)).
(** The lock's part of the invariant after the entry of [t]. *)
Lemma entry_ok_ done_ t s fw i rs k :
  staged_ok done_ s fw -> integrity_from_hex (t_sha256 t) = Some i ->
  forall fw', same_files f0 fw' -> Forall (rename_ok (done_ ++ [t]) fw') rs -> NoDup (to <$> rs) -> NoDup (from <$> rs) ->
  (forall u, u ∈ done_ ++ [t] -> key u ∈ to <$> rs \/ file_sha f0 (key u) = Some (t_sha256 u)) ->
  staged_ok (done_ ++ [t]) (mkStaged rs (with_entry s t i) k) fw'.
Proof.
  intros [(l & El) Ho Hp Hk Hf Hr Ht Hfr Hpl] Hi fw' Hf' Hr' Ht' Hfr' Hpl'. split; try done; unfold with_entry; cbn.
  - rewrite El. cbn. by eexists.
  - by apply OrderedMap.insert_ordered.
  - apply key_insert; [exists t; split_and!; [apply elem_of_app; right; by left|done|by split_and!]|]. eapply Forall_impl; [exact Hp|]. intros kv (u & Hu & Hrest). exists u. split; [apply elem_of_app; by left|done].
  - intros u [Hu|Hu%list_elem_of_singleton]%elem_of_app; apply insert_keys; [right; by apply Hk|left; by subst].
Qed.
Lemma place_old (P : Target -> Prop) done_ t : (forall u, u ∈ done_ -> P u) -> P t -> forall u, u ∈ done_ ++ [t] -> P u.
Proof. intros Hd Ht u [Hu|Hu%list_elem_of_singleton]%elem_of_app; [by apply Hd|by subst]. Qed.
Lemma stage_keeps done_ t s fw i k :
  staged_ok done_ s fw -> integrity_from_hex (t_sha256 t) = Some i -> file_sha fw (key t) = Some (t_sha256 t) -> safe t ->
  staged_ok (done_ ++ [t]) (mkStaged (renames s) (with_entry s t i) k) fw.
Proof.
  intros Hs Hi Hfile Hsafe. pose proof Hs as [El Ho Hp Hk Hf Hr Ht Hfr Hpl]. eapply entry_ok_; try done.
  - eapply Forall_impl; [exact Hr|]. intros r. by apply rename_ok_mono; [set_solver|].
  - apply place_old; [exact Hpl|]. right. rewrite <- Hfile. apply file_sha_ext. symmetry. by apply Hf, key_not_temporary.
Qed.
Lemma stage_pushes done_ t s fw i k r fw' :
  staged_ok done_ s fw -> integrity_from_hex (t_sha256 t) = Some i -> targets_ok (done_ ++ [t]) ->
  to r = key t -> (if r_staged r then staged_rename t fw' r else moved_rename t r) -> same_files f0 fw' -> (forall p, p <> stage_path t -> fw' !! p = fw !! p) ->
  staged_ok (done_ ++ [t]) (push_rename r (mkStaged (renames s) (with_entry s t i) k)) fw'.
Proof.
  intros Hs Hi Hok Hto Hr' Hf' Hother. pose proof Hs as [El Ho Hp Hk Hf Hr Ht Hfr Hpl]. unfold push_rename. cbn. eapply entry_ok_; try done.
  - apply Forall_app. split; [|apply Forall_singleton; exists t; split_and!; [apply elem_of_app; right; by left|done|done]].
    eapply Forall_impl; [exact Hr|]. intros x. apply rename_ok_mono; [set_solver|]. intros u Hu. apply Hother. intros E.
    destruct Hok as [Hfn _ Hsafe]. rewrite Forall_app, Forall_singleton in Hsafe. destruct Hsafe as [Hsd Hst]. rewrite Forall_forall in Hsd. apply stage_path_inj in E; [|by apply Hsd|done].
    rewrite fmap_app, NoDup_app in Hfn. destruct Hfn as (_ & Hn & _). apply (Hn (filename u)); [by apply list_elem_of_fmap_2|]. rewrite E. by left.
  - rewrite fmap_app, NoDup_app. split_and!; [done| |apply NoDup_singleton]. intros x Hx Hx'%list_elem_of_singleton. subst x. rewrite Hto in Hx. by eapply new_to.
  - rewrite fmap_app, NoDup_app. split_and!; [done| |apply NoDup_singleton]. intros x Hx Hx'%list_elem_of_singleton. subst x. revert Hx. eapply new_from; [done|exact Hr|].
    destruct (r_staged r); [left; apply Hr'|by right].
  - apply place_old; [|left; rewrite fmap_app; apply elem_of_app; right; cbn; rewrite Hto; by left].
    intros u Hu. destruct (Hpl u Hu); [left; rewrite fmap_app; apply elem_of_app; by left|by right].
Qed.

Lemma same_files_write t b fw : same_files f0 fw -> same_files f0 (write (stage_path t) b fw).2.
Proof. intros Hf p Hp. rewrite write_other; [by apply Hf|]. intros ->. apply Hp, stage_path_temporary. Qed.
(** One target: the invariant with it, or an error and only temporaries touched. *)
Definition step_ok (done_ : list Target) (w : World) (r : (string + Staged) * World) : Prop :=
  match r with (inr s', w') => staged_ok done_ s' (files w') | (inl _, w') => same_files f0 (files w') end /\
  exists l, asked r.2 = asked w ++ l /\ Forall (to_registry registry) l.
Lemma stage_one_ok done_ t s w : targets_ok (done_ ++ [t]) -> staged_ok done_ s (files w) -> step_ok (done_ ++ [t]) w (stage_one host old s t w).
Proof.
  intros Hok Hs. pose proof (so_files _ _ _ Hs) as Hf. assert (Hquiet : exists l, asked w = asked w ++ l /\ Forall (to_registry registry) l) by (exists []; by rewrite app_nil_r).
  unfold stage_one, bind at 1, lift at 1. destruct (integrity_from_hex (t_sha256 t)) as [i|] eqn:Ei; cbn [ok_or]; [|by split]. cbv zeta. cbn [renames lock kept].
  assert (Hsafe : safe t) by (destruct Hok as [_ _ Hsafe]; rewrite Forall_app, Forall_singleton in Hsafe; apply Hsafe).
  case_bool_decide as Hfile; [split; [|exact Hquiet]; by apply (stage_keeps done_ t s)|].
  destruct (moved_from (files w) old t) as [a|] eqn:Em.
  { split; [|exact Hquiet]. eapply stage_pushes; [exact Hs|done|done|done| |done|done]. cbn. destruct (moved_from_Some _ _ _ Hf Em) as (e & He & Hn & Hne & Hsha). by exists e. }
  set (auth := match host with Some h => bool_decide (url_host (url t) = Some h) | None => false end). unfold bind, get_url. cbn [asked files].
  assert (Hasked : exists l, asked w ++ [(url t, auth)] = asked w ++ l /\ Forall (to_registry registry) l).
  { exists [(url t, auth)]. split; [done|]. apply Forall_singleton. unfold to_registry. cbn. subst auth. destruct host as [h|]; [|done]. intros Hh%bool_decide_eq_true. by exists h. }
  destruct (answer _ _ _) as [e|[status body]]; [by split|]. unfold lift. destruct (require (status =? 200) _); [by split|].
  destruct (require (blen body <=? _) _); [by split|]. destruct (require (String.eqb (sha256_hex body) _) _) as [|ok] eqn:Er; [by split|]. apply require_inr, String.eqb_eq in Er.
  destruct (mkdir_error (parent t)); [by split|]. cbn [files asked]. pose proof (same_files_write t body (files w) Hf) as Hw. destruct (write _ body (files w)) as [[e|] g] eqn:Ew; cbn [files asked] in *; [by split|].
  split; [|exact Hasked]. apply write_done in Ew as ->. eapply stage_pushes; [exact Hs|done|done|done| |done|].
  - cbn. split; [done|]. exists body. cbn. by rewrite lookup_insert_eq.
  - intros p Hp. by apply lookup_insert_ne.
Qed.
Lemma targets_ok_prefix l l' : targets_ok (l ++ l') -> targets_ok l.
Proof. intros [Hf Hn Hs]. rewrite fmap_app, NoDup_app in Hf, Hn. apply Forall_app in Hs. split; [apply Hf|apply Hn|apply Hs]. Qed.
Lemma discard_temporary done_ s fw : staged_ok done_ s fw -> forall fw', same_files f0 fw' -> same_files f0 (discard s fw').
Proof.
  intros Hs fw' Hf p Hp. rewrite discard_other; [by apply Hf|]. intros r Hin Hst. pose proof (so_renames _ _ _ Hs) as Hr. rewrite Forall_forall in Hr.
  destruct (Hr r Hin) as (t & _ & _ & Hr'). rewrite Hst in Hr'. destruct Hr' as [-> _]. intros <-. apply Hp, stage_path_temporary.
Qed.
Lemma stage_loop_ok l : forall done_ s w, targets_ok (done_ ++ l) -> staged_ok done_ s (files w) ->
  match stage_loop host old s l w with
  | (inr s', w') => staged_ok (done_ ++ l) s' (files w')
  | (inl (_, s'), w') => same_files f0 (discard s' (files w'))
  end /\ exists q, asked (stage_loop host old s l w).2 = asked w ++ q /\ Forall (to_registry registry) q.
Proof.
  induction l as [|t l IH]; intros done_ s w Hok Hs; cbn [stage_loop]; [rewrite app_nil_r; split; [done|]; exists []; by rewrite app_nil_r|].
  replace (done_ ++ t :: l) with ((done_ ++ [t]) ++ l) in * by (by rewrite <- app_assoc). destruct (stage_one_ok done_ t s w) as [S1 (q1 & A1 & P1)]; [by eapply targets_ok_prefix|done|].
  destruct (stage_one host old s t w) as [[e|s1] w1]; cbn [snd] in *; [split; [by eapply discard_temporary|by exists q1]|].
  destruct (IH (done_ ++ [t]) s1 w1 Hok S1) as [S2 (q2 & A2 & P2)]. split; [exact S2|]. exists (q1 ++ q2). rewrite A2, A1, app_assoc. split; [done|by apply Forall_app].
Qed.
Lemma stage_ok targets w : targets_ok targets -> same_files f0 (files w) ->
  match stage m targets host old w with (inr s, w') => staged_ok targets s (files w') | (inl _, w') => same_files f0 (files w') end /\
  exists q, asked (stage m targets host old w).2 = asked w ++ q /\ Forall (to_registry registry) q.
Proof.
  intros Hok Hf. unfold stage. destruct (stage_loop_ok targets [] (mkStaged [] (new_lock m) 0) w Hok) as [S1 S2].
  - split; cbn; [by eexists|constructor|constructor|by intros u Hu%elem_of_nil|exact Hf|constructor|constructor|constructor|by intros u Hu%elem_of_nil].
  - destruct (stage_loop _ _ _ _ _) as [[[e s]|s] w']; cbn in *; by split.
Qed.
End Staging.

Definition config_ok (cfg : UpdateConfig) : Prop := match old_lock cfg with Some l => lock_valid l | None => True end.
Lemma load_config_ok name env f cfg : load_config name env f = inr (Some cfg) -> config_ok cfg.
Proof.
  unfold load_config, config_ok. destruct (x ← read f MANIFEST_FILE; Utf8.Utf8.from_utf8 x) as [text|]; [|done]. intros E. apply rbind_inr in E as (m & _ & E). destruct (_ || _); [done|].
  apply rbind_inr in E as (l & El & E). injection E as <-. cbn. destruct (x ← read f LOCK_FILE; Utf8.Utf8.from_utf8 x) as [t|]; [|by injection El as <-].
  apply rbind_inr in El as (l' & El & E). injection E as <-. by eapply parse_lock_valid.
Qed.
Lemma prepare_ok cfg w : config_ok cfg ->
  match prepare cfg w with
  | (inr s, w') => exists targets, targets_ok targets /\ staged_ok (files w) (manifest cfg) (old_lock cfg) targets s (files w')
  | (inl _, w') => same_files (files w) (files w')
  end /\ exists q, asked (prepare cfg w).2 = asked w ++ q /\ Forall (allowed (manifest cfg) (cfg_registry cfg)) q.
Proof.
  intros Hc. unfold prepare, bind. pose proof (resolve_quietly (manifest cfg) (cfg_registry cfg) w) as [Hf (q1 & A1 & P1)]. pose proof (resolve_ok (manifest cfg) (cfg_registry cfg) w) as Hok.
  destruct (resolve_targets _ _ w) as [[e|targets] w1]; cbn [snd] in *; [split; [done|by exists q1]|]. specialize (Hok targets w1 eq_refl).
  destruct (stage_ok (files w) (manifest cfg) (cfg_registry cfg) (old_lock cfg) Hc targets w1 Hok Hf) as [S2 (q2 & A2 & P2)].
  split; [destruct (stage _ _ _ _ w1) as [[e|s] w2]; [done|by exists targets]|]. exists (q1 ++ q2). rewrite A2, A1, app_assoc. split; [done|]. apply Forall_app. split; [done|].
  eapply Forall_impl; [exact P2|]. intros x Hx Hauth. right. by apply Hx.
Qed.

(** ** The commit of what was staged *)
(** No file that moves is also the place of another plugin. *)
Definition no_swap (s : Staged) : Prop := forall r, r ∈ renames s -> r_staged r = false -> from r ∉ (plugins (lock s)).*1.
(** [e] locks bytes with the digest of [b]. *)
Definition holds (e : LockedPlugin) (b : string) : Prop := integrity_from_hex (sha256_hex b) = Some (l_integrity e).
(** What may become of the file at [p] from [f] to [f'] between two locks: nothing, the locked bytes, or it is removed
    as the old lock's own, unchanged since, or as moved to the place of the same plugin. *)
Definition owned_change (f f' : Files) (old : option Lock) (new : Lock) (p : string) : Prop :=
  f' !! p = f !! p \/
  (exists e b, (p, e) ∈ plugins new /\ f' !! p = Some b /\ holds e b) \/
  (f' !! p = None /\ p ∉ (plugins new).*1 /\ exists e b, (p, e) ∈ old_plugins old /\ f !! p = Some b /\
    (hex_from_integrity (l_integrity e) = Some (sha256_hex b) \/
     exists k e', (k, e') ∈ plugins new /\ l_name e' = l_name e /\ f' !! k = Some b /\ holds e' b)).

(** The same where places may change hands too: a place of the new lock may then hold the bytes of another
    plugin of it, and a place the old lock owned may be empty. *)
Definition contained_change (f f' : Files) (old : option Lock) (new : Lock) (p : string) : Prop :=
  f' !! p = f !! p \/
  (exists k e b, p ∈ (plugins new).*1 /\ (k, e) ∈ plugins new /\ f' !! p = Some b /\ holds e b) \/
  (f' !! p = None /\ exists e b, (p, e) ∈ old_plugins old /\ f !! p = Some b /\
    (p ∉ (plugins new).*1 /\ hex_from_integrity (l_integrity e) = Some (sha256_hex b) \/
     exists k e', (k, e') ∈ plugins new /\ l_name e' = l_name e /\ holds e' b)).

Section Commit.
Context (f : Files) (m : ServerManifest) (old : option Lock) (targets : list Target) (s : Staged) (fw : Files).
Context (old_ok : match old with Some l => lock_valid l | None => True end).
Context (Ht : targets_ok targets) (Hs : staged_ok f m old targets s fw) (Hn : no_swap s).
Let f1 : Files := (foldl commit_rename (fw, mkReport [] 0 0 0) (renames s)).1.
Let f2 : Files := (foldl (commit_prune (lock s)) (foldl commit_rename (fw, mkReport [] 0 0 0) (renames s)) (old_plugins old)).1.
Let f3 : Files := (commit s old fw).1.

Lemma target_unique t u : t ∈ targets -> u ∈ targets -> key t = key u -> t = u.
Proof.
  intros Hin Hin' E. destruct Ht as [Hf _ Hsafe]. rewrite Forall_forall in Hsafe. apply key_inj in E; [|by apply Hsafe|by apply Hsafe].
  apply list_elem_of_lookup in Hin as [i Hi], Hin' as [j Hj]. assert (i = j) as ->; [|congruence].
  apply (NoDup_lookup _ i j (filename t) Hf); rewrite list_lookup_fmap; [by rewrite Hi|by rewrite Hj, E].
Qed.
Lemma target_entry t : t ∈ targets -> exists e, (key t, e) ∈ plugins (lock s) /\ l_name e = t_name t /\ integrity_from_hex (t_sha256 t) = Some (l_integrity e).
Proof.
  intros Hin. pose proof (so_keys _ _ _ _ _ _ Hs t Hin) as Hk. apply list_elem_of_fmap in Hk as ([k e] & E & He). cbn in E. subst k. exists e. split; [done|].
  pose proof (so_plugins _ _ _ _ _ _ Hs) as Hp. rewrite Forall_forall in Hp. destruct (Hp _ He) as (u & Hu & Eu & Hn' & _ & Hi). cbn in *. apply target_unique in Eu as ->; done.
Qed.
Lemma rename_split r : r ∈ renames s -> exists t, t ∈ targets /\ to r = key t /\ if r_staged r then staged_rename t fw r else moved_rename f old t r.
Proof. intros Hr. pose proof (so_renames _ _ _ _ _ _ Hs) as Hall. rewrite Forall_forall in Hall. by apply Hall. Qed.
Lemma froms_not_tos r r' : r ∈ renames s -> r' ∈ renames s -> from r <> to r'.
Proof.
  intros Hr Hr'. destruct (rename_split r Hr) as (t & Hin & _ & Hk), (rename_split r' Hr') as (t' & Hin' & -> & _). destruct (r_staged r) eqn:Er.
  - destruct Hk as [-> _]. intros E. destruct Ht as [_ _ Hsafe]. rewrite Forall_forall in Hsafe. apply (key_not_temporary t'); [by apply Hsafe|]. rewrite <- E. apply stage_path_temporary.
  - intros E. apply (Hn r Hr Er). rewrite E. by apply (so_keys _ _ _ _ _ _ Hs).
Qed.
(** The bytes a rename takes along are the target's. *)
Lemma rename_bytes r t : r ∈ renames s -> t ∈ targets -> to r = key t -> exists b, fw !! from r = Some b /\ sha256_hex b = t_sha256 t.
Proof.
  intros Hr Hin Hto. destruct (rename_split r Hr) as (u & Hu & Hto' & Hk). rewrite Hto in Hto'. apply target_unique in Hto' as ->; [|done|done]. destruct (r_staged r).
  - destruct Hk as (_ & b & Hb & Hsha). by exists b.
  - destruct Hk as (e & He & _ & _ & Hsha). assert (Hfw : file_sha fw (from r) = Some (t_sha256 u)).
    { rewrite <- Hsha. apply file_sha_ext. apply (so_files _ _ _ _ _ _ Hs). by eapply old_not_temporary. }
    unfold file_sha, read in Hfw. destruct (readable _); [|done]. destruct (fw !! from r) as [b|]; [|done]. exists b. split; [done|]. by injection Hfw.
Qed.
Lemma after_renames : (forall p, p ∉ to <$> renames s -> p ∉ from <$> renames s -> f1 !! p = fw !! p) /\ (forall r, r ∈ renames s -> outcome fw f1 r).
Proof. apply (renames_exact (renames s) (fw, mkReport [] 0 0 0)); [apply (so_to _ _ _ _ _ _ Hs)|apply (so_from _ _ _ _ _ _ Hs)|exact froms_not_tos]. Qed.
Lemma after_prune p : f2 !! p = f1 !! p \/ (f2 !! p = None /\ prunable (lock s) f1 (old_plugins old) p).
Proof. apply (prune_exact (lock s) (old_plugins old) (foldl commit_rename (fw, mkReport [] 0 0 0) (renames s)) p). Qed.
Lemma locked_not_pruned p : p ∈ (plugins (lock s)).*1 -> f2 !! p = f1 !! p.
Proof. intros Hp. destruct (after_prune p) as [|[_ (e & have & _ & Hk & _)]]; [done|]. apply json_contains_key in Hp. congruence. Qed.
Lemma after_commit p : ~ temporary p -> p <> LOCK_FILE -> f3 !! p = f2 !! p.
Proof. intros Hp Hl. subst f3 f2. rewrite commit_files. apply commit_lock_other; [done|]. intros ->. apply Hp. by exists LOCK_FILE. Qed.

Lemma commit_changes p : ~ temporary p -> p <> LOCK_FILE -> owned_change f f3 old (lock s) p.
Proof.
  intros Hp Hl. unfold owned_change. rewrite after_commit by done. pose proof (so_files _ _ _ _ _ _ Hs p Hp) as Hfw. destruct after_renames as [Hother Hin].
  assert (Hsame : f1 !! p = f !! p -> f2 !! p = f !! p \/ (f2 !! p = None /\ p ∉ (plugins (lock s)).*1 /\ exists e b, (p, e) ∈ old_plugins old /\ f !! p = Some b /\
    hex_from_integrity (l_integrity e) = Some (sha256_hex b))).
  { intros E. destruct (after_prune p) as [->|[E2 (e & have & He & Hk & Hsha & Hi)]]; [by left|]. right. split_and!; [done| |].
    - intros Hc%json_contains_key. congruence.
    - rewrite (file_sha_ext f1 f) in Hsha by done. unfold file_sha, read in Hsha. destruct (readable p); [|done]. destruct (f !! p) as [b|]; [|done]. cbn in Hsha. exists e, b. split_and!; [done|done|].
      injection Hsha as <-. exact Hi. }
  destruct (decide (p ∈ to <$> renames s)) as [(r & -> & Hr)%list_elem_of_fmap|Hto].
  { destruct (rename_split r Hr) as (t & Htin & Hto & _). destruct (target_entry t Htin) as (e & He & _ & Hi). destruct (Hin r Hr) as [(E & _ & _)|(E & _ & _)].
    - right. left. destruct (rename_bytes r t Hr Htin Hto) as (b & Hb & Hsha). exists e, b. rewrite Hto in *. split_and!; [done| |unfold holds; by rewrite Hsha].
      rewrite locked_not_pruned by (by apply (so_keys _ _ _ _ _ _ Hs)). by rewrite E.
    - left. rewrite locked_not_pruned; [by rewrite E|]. rewrite Hto. by apply (so_keys _ _ _ _ _ _ Hs). }
  destruct (decide (p ∈ from <$> renames s)) as [(r & -> & Hr)%list_elem_of_fmap|Hfrom].
  { destruct (rename_split r Hr) as (t & Htin & Htk & Hk). destruct (r_staged r) eqn:Er; [destruct Hk as [Hk _]; destruct Hp; rewrite Hk; apply stage_path_temporary|].
    destruct Hk as (e & He & Hname & Hne & Hsha). destruct (Hin r Hr) as [(E1 & E2 & _)|(_ & E & _)].
    - right. right. assert (f2 !! from r = None) as -> by (destruct (after_prune (from r)) as [->|[-> _]]; done). split_and!; [done|by apply Hn|].
      destruct (rename_bytes r t Hr Htin Htk) as (b & Hb & Hsha'). exists e, b. split_and!; [done|by rewrite <- Hfw|]. right. destruct (target_entry t Htin) as (e' & He' & Hn' & Hi). exists (key t), e'.
      assert (Hkey : key t ∈ (plugins (lock s)).*1) by (by apply (so_keys _ _ _ _ _ _ Hs)). split_and!; [done|congruence| |unfold holds; by rewrite Hsha'].
      destruct Ht as [_ _ Hsafe]. rewrite Forall_forall in Hsafe. rewrite after_commit by (try apply lock_file_not_key; by apply key_not_temporary, Hsafe). rewrite locked_not_pruned by done. by rewrite <- Htk, E1.
    - destruct Hsame as [E3|(E3 & Hk & e' & b & He' & Hb & Hi)]; [by rewrite E|by left|]. right. right. split_and!; [done|done|]. exists e', b. split_and!; [done|done|by left]. }
  destruct Hsame as [E3|(E3 & Hk & e' & b & He' & Hb & Hi)]; [by rewrite Hother|by left|]. right. right. split_and!; [done|done|]. exists e', b. split_and!; [done|done|by left].
Qed.

(** When no operation fails, everything locked is there. *)
Context (Hread : forall p, readable p = true) (Hren : forall a b, rename_error a b = None).
Lemma renamed r : r ∈ renames s -> f1 !! to r = fw !! from r /\ f1 !! from r = None.
Proof.
  intros Hr. destruct after_renames as [_ Hin]. destruct (Hin r Hr) as [(E1 & E2 & _)|(_ & _ & [E|[e E]])]; [done| |by rewrite Hren in E].
  destruct (rename_split r Hr) as (t & Htin & Htk & _). destruct (rename_bytes r t Hr Htin Htk) as (b & Hb & _). congruence.
Qed.
Lemma in_place t : t ∈ targets -> exists b, f3 !! key t = Some b /\ sha256_hex b = t_sha256 t.
Proof.
  intros Hin. assert (Hkey : key t ∈ (plugins (lock s)).*1) by (by apply (so_keys _ _ _ _ _ _ Hs)). assert (Hsafe : safe t) by (destruct Ht as [_ _ Hsafe]; rewrite Forall_forall in Hsafe; by apply Hsafe).
  rewrite after_commit by (try apply lock_file_not_key; by apply key_not_temporary). rewrite locked_not_pruned by done.
  destruct (decide (key t ∈ to <$> renames s)) as [(r & E & Hr)%list_elem_of_fmap|Hto].
  { destruct (rename_bytes r t Hr Hin) as (b & Hb & Hsha); [done|]. exists b. rewrite E. by rewrite (proj1 (renamed r Hr)). }
  destruct (so_place _ _ _ _ _ _ Hs t Hin) as [|Hsha]; [done|]. assert (Hfrom : key t ∉ from <$> renames s).
  { intros (r & E & Hr)%list_elem_of_fmap. destruct (rename_split r Hr) as (u & Hu & _ & Hk). destruct (r_staged r) eqn:Er.
    - destruct Hk as [Hk _]. apply (key_not_temporary t Hsafe). rewrite E, Hk. apply stage_path_temporary.
    - apply (Hn r Hr Er). by rewrite <- E. }
  rewrite (proj1 after_renames) by done. rewrite (so_files _ _ _ _ _ _ Hs) by (by apply key_not_temporary).
  unfold file_sha, read in Hsha. rewrite Hread in Hsha. destruct (f !! key t) as [b|]; [|done]. exists b. split; [done|]. by injection Hsha.
Qed.
Lemma staged_gone r : r ∈ renames s -> from r <> LOCK_FILE -> from r <> LOCK_FILE +:+ STAGE_SUFFIX -> f3 !! from r = None.
Proof.
  intros Hr Hl Hl'. subst f3. rewrite commit_files, commit_lock_other by done. fold f2. destruct (after_prune (from r)) as [->|[-> _]]; [apply (renamed r Hr)|done].
Qed.
End Commit.

(** Whatever the places, what a commit may change. *)
Section AnyCommit.
Context (f : Files) (m : ServerManifest) (old : option Lock) (targets : list Target) (s : Staged) (fw : Files).
Context (old_ok : match old with Some l => lock_valid l | None => True end).
Context (Ht : targets_ok targets) (Hs : staged_ok f m old targets s fw).
Definition so_far (g : Files) : Prop :=
  forall p, (temporary p -> g !! p = fw !! p \/ g !! p = None) /\ (~ temporary p -> contained_change f g old (lock s) p).
Lemma moved_source r t : moved_rename f old t r -> t ∈ targets -> exists e b, (from r, e) ∈ old_plugins old /\ f !! from r = Some b /\ sha256_hex b = t_sha256 t /\
  exists k e', (k, e') ∈ plugins (lock s) /\ l_name e' = l_name e /\ holds e' b.
Proof.
  intros (e & He & Hname & _ & Hsha) Hin. unfold file_sha, read in Hsha. destruct (readable _); [|done]. destruct (f !! from r) as [b|] eqn:Ef; [|done]. injection Hsha as Hsha.
  destruct (target_entry f m old targets s fw Ht Hs t Hin) as (e' & He' & Hn & Hi). exists e, b. split_and!; [done|done|done|]. exists (key t), e'. split_and!; [done|congruence|]. unfold holds. by rewrite Hsha.
Qed.
Lemma rename_so_far r x : r ∈ renames s -> so_far x.1 -> so_far (commit_rename x r).1.
Proof.
  destruct x as [g out]. intros Hr Hg. rewrite commit_rename_files. cbn [fst] in *. unfold rename. destruct (g !! from r) as [b|] eqn:Eb; [|exact Hg]. destruct (rename_error _ _); [exact Hg|]. cbn [snd].
  destruct (rename_split f m old targets s fw Hs r Hr) as (t & Hin & Hto & Hk). destruct (target_entry f m old targets s fw Ht Hs t Hin) as (e & He & Hn & Hi).
  assert (Hkey : to r ∈ (plugins (lock s)).*1) by (rewrite Hto; by apply (so_keys _ _ _ _ _ _ Hs)).
  assert (Hsafe : ~ temporary (to r)) by (rewrite Hto; destruct Ht as [_ _ Hsafe]; rewrite Forall_forall in Hsafe; by apply key_not_temporary, Hsafe).
  assert (Hheld : exists k e', (k, e') ∈ plugins (lock s) /\ holds e' b).
  { destruct (rename_bytes f m old targets s fw old_ok Ht Hs r t Hr Hin Hto) as (b0 & Hb0 & Hsha). assert (Hown : b = b0 -> exists k e', (k, e') ∈ plugins (lock s) /\ holds e' b) by (intros ->; exists (key t), e; split; [done|]; unfold holds; by rewrite Hsha).
    destruct (r_staged r).
    - destruct Hk as [Efrom _]. destruct (proj1 (Hg (from r))) as [E|E]; [rewrite Efrom; apply stage_path_temporary|apply Hown; congruence|congruence].
    - pose proof Hk as (eo & Heo & _). assert (Hft : ~ temporary (from r)) by (by eapply old_not_temporary). destruct (proj2 (Hg (from r)) Hft) as [E|[(k & e' & b' & _ & He' & E & Hh)|(E & _)]]; [|exists k, e'; split; congruence|congruence].
      apply Hown. pose proof (so_files _ _ _ _ _ _ Hs (from r) Hft). congruence. }
  intros p. destruct (decide (p = to r)) as [->|Hpt].
  { split; [done|]. intros _. destruct Hheld as (k & e' & He' & Hh). right. left. exists k, e', b. rewrite lookup_insert_eq. done. }
  rewrite lookup_insert_ne by done. destruct (decide (p = from r)) as [->|Hpf].
  - rewrite lookup_delete_eq. split; [by right|]. intros Hft. destruct (r_staged r) eqn:Er; [destruct Hk as [Hk _]; destruct Hft; rewrite Hk; apply stage_path_temporary|].
    destruct (moved_source r t Hk Hin) as (eo & bo & Heo & Ebo & _ & Hnew). right. right. rewrite lookup_insert_ne, lookup_delete_eq by done. split; [done|]. exists eo, bo. split_and!; [done|done|by right].
  - rewrite lookup_delete_ne by done. destruct (Hg p) as [Hg1 Hg2]. split; [exact Hg1|]. intros Hp. specialize (Hg2 Hp). unfold contained_change in *. by rewrite lookup_insert_ne, lookup_delete_ne.
Qed.
Lemma renames_so_far l x : (forall r, r ∈ l -> r ∈ renames s) -> so_far x.1 -> so_far (foldl commit_rename x l).1.
Proof. revert x. induction l as [|r l IH]; intros x Hl Hx; [done|]. cbn. apply IH; [intros r' Hr'; apply Hl; by right|]. apply rename_so_far; [apply Hl; by left|done]. Qed.
Lemma commit_contained p : ~ temporary p -> p <> LOCK_FILE -> contained_change f (commit s old fw).1 old (lock s) p.
Proof.
  intros Hp Hl. set (f1 := (foldl commit_rename (fw, mkReport [] 0 0 0) (renames s)).1).
  assert (Hso : so_far f1). { apply renames_so_far; [done|]. intros q. split; [by left|]. intros Hq. left. by apply (so_files _ _ _ _ _ _ Hs). }
  pose proof (proj2 (Hso p) Hp) as Hc. rewrite commit_files. unfold contained_change in *. rewrite commit_lock_other by (try done; intros ->; apply Hp; by exists LOCK_FILE).
  destruct (prune_exact (lock s) (old_plugins old) (foldl commit_rename (fw, mkReport [] 0 0 0) (renames s)) p) as [E|[E (e & have & He & Hk & Hsha & Hi)]]; cbn zeta in E; rewrite E; [exact Hc|]. fold f1 in Hsha.
  assert (Hni : p ∉ (plugins (lock s)).*1) by (intros Hin%json_contains_key; congruence).
  destruct Hc as [Hc|[(k & e' & b & Hin & _)|(Hc & _)]]; [|done|by rewrite (file_sha_none _ _ Hc) in Hsha].
  rewrite (file_sha_ext f1 f) in Hsha by done. unfold file_sha, read in Hsha. destruct (readable p); [|done]. destruct (f !! p) as [b|]; [|done]. injection Hsha as <-.
  right. right. split; [done|]. exists e, b. split_and!; [done|done|left; done].
Qed.
End AnyCommit.

Lemma prune_complete new l : (forall p, remove_error p = None) -> forall x p e have,
  (p, e) ∈ l -> contains_key (plugins new) p = false -> file_sha x.1 p = Some have -> hex_from_integrity (l_integrity e) = Some have ->
  (foldl (commit_prune new) x l).1 !! p = None.
Proof.
  intros Hrm. induction l as [|[k e'] l IH]; intros [f out] p e have Hin Hk Hsha Hi; [by apply elem_of_nil in Hin|]. cbn [foldl].
  assert (Hgone : forall g o, g !! p = None -> (foldl (commit_prune new) (g, o) l).1 !! p = None) by (intros g o E; destruct (prune_exact new l (g, o) p) as [->|[-> _]]; done).
  pose proof (prune_step new f out k e' p) as Hs. destruct (commit_prune new (f, out) (k, e')) as [g o] eqn:Ec. cbn [fst] in *.
  destruct Hs as [Hs|(_ & Hs & _)]; [|by apply Hgone]. apply elem_of_cons in Hin as [[= -> ->]|Hin].
  - unfold commit_prune in Ec. rewrite Hk, Hsha, bool_decide_true in Ec by done. unfold remove_file in Ec. rewrite Hrm in Ec. destruct (f !! k) eqn:Ef; [|by rewrite (file_sha_none _ _ Ef) in Hsha].
    injection Ec as <- _. apply Hgone. apply lookup_delete_eq.
  - apply (IH (g, o) p e have Hin Hk); [|done]. cbn. by rewrite <- (file_sha_ext f g) by done.
Qed.
Lemma commit_lock_written new x : (forall p b, write_error p b = None) -> (forall a b, rename_error a b = None) -> (forall p, readable p = true) ->
  (commit_lock new x).1 !! LOCK_FILE = Some (serialize_lock new).
Proof.
  intros Hw Hr Hread. unfold commit_lock. destruct x as [f out]. case_bool_decide as E; [unfold read in E; by rewrite Hread in E|]. unfold write. rewrite Hw. unfold rename. rewrite lookup_insert_eq, Hr. cbn. apply lookup_insert_eq.
Qed.
Lemma rfold_ordered {A B} (g : list (string * B) -> A -> string + list (string * B)) l out :
  (forall a x b, OrderedMap.ordered a -> g a x = inr b -> OrderedMap.ordered b) -> rfold g [] l = inr out -> OrderedMap.ordered out.
Proof. intros Hg. apply (rfold_ind _ (fun _ => OrderedMap.ordered)); [constructor|]. intros l1 x l2 a b _. apply Hg. Qed.
Lemma parse_manifest_ordered text fallback m : parse_manifest text fallback = inr m ->
  OrderedMap.ordered (dependencies m) /\ OrderedMap.ordered (with_ m) /\ OrderedMap.ordered (disabled m).
Proof.
  unfold parse_manifest. intros E. apply rbind_inr in E as (j & _ & E). apply rbind_inr in E as (o & _ & E). apply rbind_inr in E as (d & Ed & E). apply rbind_inr in E as (w & Ew & E).
  apply rbind_inr in E as (dis & Edis & E). injection E as <-. cbn. split_and!.
  - unfold manifest_dependencies in Ed. destruct (field j "dependencies") as [[]|]; try done; [|injection Ed as <-; constructor]. revert Ed. apply rfold_ordered.
    intros a x b Ha Hb. succeeds. subst b. by apply OrderedMap.insert_ordered.
  - unfold manifest_with in Ew. destruct (field j "with") as [v|]; [|injection Ew as <-; constructor]. apply rbind_inr in Ew as (mm & _ & Ew). revert Ew. apply rfold_ordered.
    intros a x b Ha Hb. succeeds. subst b. by apply OrderedMap.insert_ordered.
  - unfold manifest_disabled in Edis. destruct (field j "disabled") as [v|]; [|injection Edis as <-; constructor]. apply rbind_inr in Edis as (arr & _ & Edis). revert Edis. apply rfold_ordered.
    intros a x b Ha Hb. succeeds. subst b. by apply OrderedMap.insert_ordered.
Qed.
Lemma load_config_manifest name env f cfg : load_config name env f = inr (Some cfg) ->
  OrderedMap.ordered (dependencies (manifest cfg)) /\ OrderedMap.ordered (with_ (manifest cfg)) /\ OrderedMap.ordered (disabled (manifest cfg)).
Proof.
  unfold load_config. destruct (x ← read f MANIFEST_FILE; Utf8.Utf8.from_utf8 x) as [text|]; [|done]. intros E. apply rbind_inr in E as (m & Em & E). destruct (_ || _); [done|].
  apply rbind_inr in E as (l & El & E). injection E as <-. cbn. by eapply parse_manifest_ordered.
Qed.

(** ** The theorems *)

(** C21. An update that has read its documents changes only what it may. Whatever the registry answers and whichever file operations fail,
    an update that gives up leaves every file as it was, its own temporaries apart, and so does staging. Its
    commit leaves every file alone that neither lock names; a file it does change gets bytes whose digest
    some plugin of the new lock has, at a place of that lock, or is removed: then the old lock owned it, and
    it held the bytes the old lock recorded, or bytes of the digest the same plugin has in the new lock. When
    moreover no moved file leaves a place that the new lock gives to another plugin ([no_swap]), the bytes at
    each changed place are those of its own plugin, and what was moved is at its plugin's new place. *)
Theorem update_changes_owned name env f cfg :
  load_config name env f = inr (Some cfg) ->
  match prepare cfg (mkWorld f []) with
  | (inl _, w) => same_files f (files w)
  | (inr s, w) =>
      let f' := (commit s (old_lock cfg) (files w)).1 in
      same_files f (files w) /\
      (forall p, ~ temporary p -> p <> LOCK_FILE -> contained_change f f' (old_lock cfg) (lock s) p) /\
      (no_swap s -> forall p, ~ temporary p -> p <> LOCK_FILE -> owned_change f f' (old_lock cfg) (lock s) p)
  end.
Proof.
  intros Hl. pose proof (load_config_ok _ _ _ _ Hl) as Hc. destruct (prepare_ok cfg (mkWorld f []) Hc) as [Hp _]. destruct (prepare cfg (mkWorld f [])) as [[e|s] w]; [done|].
  destruct Hp as (targets & Ht & Hs). cbv zeta. split; [apply (so_files _ _ _ _ _ _ Hs)|]. split.
  - intros p Hp Hpl. by apply (commit_contained f (manifest cfg) (old_lock cfg) targets s (files w)).
  - intros Hn p Hp Hpl. by apply (commit_changes f (manifest cfg) (old_lock cfg) targets s (files w)).
Qed.

(** A commit puts everything in place. When no file operation fails, after the commit each plugin of the
    new lock is at its path with the digest the lock gives, the lockfile holds that lock, which reads back,
    nothing staged is left over, and a file that only the old lock names is gone unless its bytes are not
    the recorded ones. *)
Theorem update_in_place name env f cfg s w :
  load_config name env f = inr (Some cfg) -> prepare cfg (mkWorld f []) = (inr s, w) -> no_swap s ->
  (forall p, readable p = true) -> (forall a b, rename_error a b = None) -> (forall p b, write_error p b = None) -> (forall p, remove_error p = None) ->
  (forall b, is_sha256 (sha256_hex b)) ->
  let f' := (commit s (old_lock cfg) (files w)).1 in
  (forall k e, (k, e) ∈ plugins (lock s) -> exists b, f' !! k = Some b /\ hex_from_integrity (l_integrity e) = Some (sha256_hex b)) /\
  (forall k e b, (k, e) ∈ old_plugins (old_lock cfg) -> k ∉ (plugins (lock s)).*1 -> f' !! k = Some b -> hex_from_integrity (l_integrity e) <> Some (sha256_hex b)) /\
  (forall r, r ∈ renames s -> r_staged r = true -> f' !! from r = None) /\
  lock_valid (lock s) /\ lk_dependencies (lock s) = dependencies (manifest cfg) /\ f' !! LOCK_FILE = Some (serialize_lock (lock s)).
Proof.
  intros Hl Hp Hn Hread Hren Hwr Hrm Hsha f'. pose proof (load_config_ok _ _ _ _ Hl) as Hc. destruct (prepare_ok cfg (mkWorld f []) Hc) as [Hok _]. rewrite Hp in Hok. destruct Hok as (targets & Ht & Hs).
  pose proof (so_plugins _ _ _ _ _ _ Hs) as Hpl. rewrite Forall_forall in Hpl. split_and!.
  - intros k e He. destruct (Hpl _ He) as (t & Hin & Ek & _ & _ & Hi). cbn in Ek, Hi. subst k.
    destruct (in_place f (manifest cfg) (old_lock cfg) targets s (files w) Hc Ht Hs Hn Hread Hren t Hin) as (b & Hb & Hbs). exists b. split; [done|].
    destruct (integrity_round (sha256_hex b) (Hsha b)) as (i & Hi' & Hr). rewrite Hbs, Hi in Hi'. injection Hi' as <-. exact Hr.
  - intros k e b He Hk Hb Hi. assert (Hkt : ~ temporary k) by (by eapply old_not_temporary). assert (Hkl : k <> LOCK_FILE).
    { intros ->. pose proof Hc as Hv. unfold config_ok in Hv. unfold old_plugins in He. destruct (old_lock cfg) as [l|]; [|by apply elem_of_nil in He].
      pose proof (lv_keys l Hv) as Hall. rewrite Forall_forall in Hall. destruct (Hall _ He) as (file & Hf & _). by apply lock_file_not_owned in Hf. }
    unfold f' in Hb. rewrite (after_commit (old_lock cfg)) in Hb by done. pose proof (after_prune (old_lock cfg) s (files w) k) as Ha.
    rewrite (prune_complete (lock s) _ Hrm _ k e (sha256_hex b) He) in Hb; [done| | |done].
    + destruct (contains_key (plugins (lock s)) k) eqn:E; [|done]. by apply json_contains_key in E.
    + destruct Ha as [Ha|[Ha _]]; [|by rewrite Ha in Hb]. rewrite Ha in Hb. unfold file_sha, read. by rewrite Hread, Hb.
  - intros r Hr Hst. destruct (rename_split f (manifest cfg) (old_lock cfg) targets s (files w) Hs r Hr) as (t & Htin & _ & Hk). rewrite Hst in Hk. destruct Hk as [Hk _].
    apply (staged_gone f (manifest cfg) (old_lock cfg) targets s (files w) Hc Ht Hs Hn Hren r Hr); rewrite Hk.
    + intros E. apply lock_file_not_temporary. rewrite <- E. apply stage_path_temporary.
    + intros E. apply app_cancel_r in E. by apply lock_file_not_key in E.
  - destruct (load_config_manifest _ _ _ _ Hl) as (Hd & Hw & Hdis). destruct (so_lock _ _ _ _ _ _ Hs) as [l El]. split; [by rewrite El|by rewrite El|by rewrite El|apply (so_ordered _ _ _ _ _ _ Hs)|].
    apply Forall_forall. intros [k e] He. destruct (Hpl _ He) as (t & Hin & Ek & _). cbn in *. subst k. exists (filename t). destruct Ht as [_ _ Hsafe]. rewrite Forall_forall in Hsafe. split; [by apply key_file_key, Hsafe|by apply Hsafe].
  - destruct (so_lock _ _ _ _ _ _ Hs) as [l El]. by rewrite El.
  - unfold f'. rewrite commit_files. by apply commit_lock_written.
Qed.

(** The registry token stays with the registry. Whatever is answered, a request that carries the token is
    a plan request to the configured registry for a dependency of the manifest, or goes to a URL whose host is
    the registry's. *)
Theorem update_token_confined name env f cfg u :
  load_config name env f = inr (Some cfg) -> (u, true) ∈ asked (prepare cfg (mkWorld f [])).2 ->
  (exists n range, (n, range) ∈ dependencies (manifest cfg) /\ u = plan_url (cfg_registry cfg) n range (Json.get (with_ (manifest cfg)) n)) \/
  (exists h, url_host (cfg_registry cfg) = Some h /\ url_host u = Some h).
Proof.
  intros Hl Hin. destruct (prepare_ok cfg (mkWorld f []) (load_config_ok _ _ _ _ Hl)) as [_ (q & A & P)]. rewrite A in Hin. cbn in Hin. rewrite Forall_forall in P. by apply (P _ Hin).
Qed.
End Update.
End UpdateProperties.

Module UpdateExamples.
Import UpdateProperties JsonExamples.

(** A digest of 32 bytes, documents and a registry known by their texts. *)
Definition padded (s : string) : list Z := take 32 ((fun c => Z.of_nat (nat_of_ascii c)) <$> chars s) ++ repeat 0 (32 - length (take 32 (chars s))).
#[local] Instance digest : Digest num := {| from_u64 := Int; sha256_hex s := bytes_to_hex (padded s); canonical _ := "" |}.
Definition entry (n file bytes : string) : Json.Value num :=
  Object [("filename", String_ file); ("name", String_ n); ("sha256", String_ (sha256_hex bytes)); ("url", String_ ("https://cdn/" +:+ n)); ("version", String_ "1.0.0")].
Definition plan (l : list (Json.Value num)) : Json.Value num := Object [("install", Array l)].
Definition locked (n bytes : string) : LockedPlugin := mkLocked n "1.0.0" ("https://cdn/" +:+ n) (default "" (integrity_from_hex (sha256_hex bytes))).
Definition texts (deps dis : list string) (l : Lock) (s : string) : string + Json.Value num :=
  if String.eqb s "manifest" then inr (Object [("dependencies", Object ((fun n => (n, String_ "^1.0.0")) <$> deps)); ("disabled", Array (String_ <$> dis))])
  else if String.eqb s "lock" then inr (norm (lock_value l)) else inl "no document".
Definition host_of (u : string) : option string := if starts_with "https://cdn/" u then Some "cdn" else Some "www.s2script.com".
Definition registry_with (l : list (Json.Value num)) : Registry num := {|
  answer _ u _ := if starts_with "https://cdn/" u then inr (200, "bytes of " +:+ Stdlib.Strings.String.substring 12 1 u) else inr (200, "plan");
  url_host := host_of; from_slice _ := inr (plan l) |}.
Definition works : Disk := {| readable _ := true; mkdir_error _ := None; write_error _ _ := None; rename_error _ _ := None; remove_error _ := None |}.
Definition documents_with (deps dis : list string) (l : Lock) : Documents num := {| from_str := texts deps dis l; to_string_pretty _ := "printed"; debug s := s |}.
Lemma sha256_hex_is_sha256 b : is_sha256 (sha256_hex b).
Proof.
  exists (padded b). unfold padded. split_and!; [rewrite length_app, repeat_length, !length_take, length_fmap; lia| |done]. apply Forall_app. split.
  - apply Forall_take, Forall_fmap, Forall_forall. intros c _. unfold is_byte. cbn. pose proof (nat_ascii_bounded c). lia.
  - apply Forall_forall. intros x Hx. apply list_elem_of_In, repeat_spec in Hx as ->. unfold is_byte. lia.
Qed.

(** [p] was disabled since the last lock, needs [q], and [r] is no longer wanted. *)
Section Usual.
Definition before : Lock := mkLock "server" "server" [("p", "^1.0.0")] [] [] [("plugins/p.s2sp", locked "p" "bytes of p"); ("plugins/r.s2sp", locked "r" "bytes of r")].
Definition disk : gmap string string :=
  {["plugins.json" := "manifest"; "plugins-lock.json" := "lock"; "plugins/p.s2sp" := "bytes of p"; "plugins/r.s2sp" := "bytes of r"; "plugins/mine.s2sp" := "mine"]}.
#[local] Instance usual_documents : Documents num := documents_with ["p"] ["p"] before.
#[local] Instance usual_registry : Registry num := registry_with [entry "p" "p.s2sp" "bytes of p"; entry "q" "q.s2sp" "bytes of q"].
#[local] Instance usual_disk : Disk := works.
Definition config : UpdateConfig := match load_config None None disk with inr (Some c) => c | _ => mkConfig (mkManifest "" [] [] [] false false None 0) None "" end.
Definition updated : gmap string string := match prepare config (mkWorld disk []) with (inr s, w) => (commit s (old_lock config) (files w)).1 | (inl _, w) => files w end.
Example after_update : (fun p => updated !! p) <$> ["plugins/p.s2sp"; "plugins/disabled/p.s2sp"; "plugins/disabled/q.s2sp"; "plugins/r.s2sp"; "plugins/mine.s2sp"; "plugins-lock.json"]
  = [None; Some "bytes of p"; Some "bytes of q"; None; Some "mine"; Some ("printed" +:+ newline)].
Proof. vm_compute. reflexivity. Qed.
Example asked_for : asked (prepare config (mkWorld disk [])).2 = [("https://www.s2script.com/api/v1/plan?name=p&range=%5E1.0.0", true); ("https://cdn/q", false)].
Proof. vm_compute. reflexivity. Qed.
Definition staged : Staged := match prepare config (mkWorld disk []) with (inr s, _) => s | (inl _, _) => mkStaged [] before 0 end.
Definition prepared : World := (prepare config (mkWorld disk [])).2.
Lemma config_loaded : load_config None None disk = inr (Some config).
Proof. vm_compute. reflexivity. Qed.
Lemma config_prepared : prepare config (mkWorld disk []) = (inr staged, prepared).
Proof. vm_compute. reflexivity. Qed.
Lemma staged_no_swap : no_swap staged.
Proof.
  intros r Hr Hst Hin. assert (Hb : forallb (fun r => r_staged r || negb (contains_key (plugins (lock staged)) (from r))) (renames staged) = true) by (vm_compute; reflexivity).
  pose proof (proj1 (forallb_elem _ _) Hb r Hr) as Hc. cbv beta in Hc. rewrite Hst in Hc. apply json_contains_key in Hin. by rewrite Hin in Hc.
Qed.
Lemma update_changes_owned_witness : same_files disk (files prepared) /\ owned_change disk updated (old_lock config) (lock staged) "plugins/r.s2sp".
Proof.
  pose proof (update_changes_owned None None disk config config_loaded) as Ht. rewrite config_prepared in Ht. destruct Ht as (Hf & _ & Hc). split; [exact Hf|].
  unfold updated. rewrite config_prepared. apply Hc; [exact staged_no_swap| |done]. apply (owned_not_temporary _ "r.s2sp"); reflexivity.
Defined.
Lemma update_in_place_witness : updated !! LOCK_FILE = Some (serialize_lock (lock staged)) /\
  forall k e, (k, e) ∈ plugins (lock staged) -> exists b, updated !! k = Some b /\ hex_from_integrity (l_integrity e) = Some (sha256_hex b).
Proof.
  destruct (update_in_place None None disk config staged prepared config_loaded config_prepared staged_no_swap) as (Hp & _ & _ & _ & _ & Hl); try (intros; reflexivity); [exact sha256_hex_is_sha256|].
  unfold updated. rewrite config_prepared. split; [exact Hl|exact Hp].
Defined.
Lemma update_token_confined_witness :
  exists n range, (n, range) ∈ dependencies (manifest config) /\ "https://www.s2script.com/api/v1/plan?name=p&range=%5E1.0.0" = plan_url (cfg_registry config) n range (Json.get (with_ (manifest config)) n).
Proof.
  destruct (update_token_confined None None disk config "https://www.s2script.com/api/v1/plan?name=p&range=%5E1.0.0" config_loaded) as [Hp|(h & Hh & Hu)]; [rewrite asked_for; left|exact Hp|].
  vm_compute in Hh, Hu. exists "p", "^1.0.0". split; [left|reflexivity].
Defined.
End Usual.

(** The places of two plugins change hands: [p] moves out of a file that [q] takes. *)
Section Swap.
Definition one : Lock := mkLock "server" "server" [("p", "^1.0.0")] [] [] [("plugins/a.s2sp", locked "p" "bytes of p")].
Definition swap_disk : gmap string string := {["plugins.json" := "manifest"; "plugins-lock.json" := "lock"; "plugins/a.s2sp" := "bytes of p"]}.
#[local] Instance swap_documents : Documents num := documents_with ["p"] [] one.
#[local] Instance swap_registry : Registry num := registry_with [entry "p" "b.s2sp" "bytes of p"; entry "q" "a.s2sp" "bytes of q"].
#[local] Instance swap_works : Disk := works.
Definition swap_config : UpdateConfig := match load_config None None swap_disk with inr (Some c) => c | _ => config end.
Example swapped :
  match prepare swap_config (mkWorld swap_disk []) with
  | (inr s, w) => let f := (commit s (old_lock swap_config) (files w)).1 in
      ((fun kv => (kv.1, l_name kv.2)) <$> plugins (lock s), f !! "plugins/a.s2sp", f !! "plugins/b.s2sp") =
      ([("plugins/a.s2sp", "q"); ("plugins/b.s2sp", "p")], None, Some "bytes of q")
  | (inl _, _) => False
  end.
Proof. vm_compute. reflexivity. Qed.
End Swap.

(** The rename of a new version under a new file name fails: the old version is pruned all the same. *)
Section Refused.
Definition p1 : Lock := mkLock "server" "server" [("p", "^1.0.0")] [] [] [("plugins/p-1.s2sp", locked "p" "old bytes")].
Definition refused_disk : gmap string string := {["plugins.json" := "manifest"; "plugins-lock.json" := "lock"; "plugins/p-1.s2sp" := "old bytes"]}.
#[local] Instance refused_documents : Documents num := documents_with ["p"] [] p1.
#[local] Instance refused_registry : Registry num := registry_with [entry "p" "p-2.s2sp" "bytes of p"].
#[local] Instance refuses : Disk := {| readable _ := true; mkdir_error _ := None; write_error _ _ := None; rename_error _ b := if String.eqb b LOCK_FILE then None else Some "in use"; remove_error _ := None |}.
Definition refused_config : UpdateConfig := match load_config None None refused_disk with inr (Some c) => c | _ => config end.
Example nothing_left :
  match prepare refused_config (mkWorld refused_disk []) with
  | (inr s, w) => let f := (commit s (old_lock refused_config) (files w)).1 in (f !! "plugins/p-1.s2sp", f !! "plugins/p-2.s2sp", f !! LOCK_FILE) = (None, None, Some ("printed" +:+ newline))
  | (inl _, _) => False
  end.
Proof. vm_compute. reflexivity. Qed.
End Refused.
End UpdateExamples.
