(* ===== verification/UpdateGate.v ===== *)
(** The startup gate (core/src/server_update.rs, the gate and the task).

    The update runs as a task beside the game thread. They share its [Phase] under a lock, and the loader
    holds its first scan while the gate says so. A [Step] is one critical section or one file operation of
    either side: the task prepares, then decides under the lock whether it may commit, then works the commit
    off one file operation at a time; the game thread polls at any moment of a clock. Other users of the
    addon's files are left out; the console operations share one more flag ([try_begin_op]). *)
From S2P Require Import Prelude.
From S2P Require Import Results.
From S2P Require Import Text.
From S2P Require Import Json.
From S2P Require Import EngineContract.
From S2P Require Import ServerLock.
From S2P Require Import ServerUpdate.
From S2P Require Import UpdateProperties.
From Stdlib Require Import Ascii.
From Stdlib Require String.
Import Text.Text Json ServerLock.ServerLock ServerUpdate.ServerUpdate UpdateProperties.
Local Open Scope Z_scope.

Module UpdateGate.

Inductive Phase := Running | Committing | Done (lines : list string) | Abandoned.
(** The gate with its deadline, and the phase it shares with the task. *)
Record Gate := mkGate { phase : Phase; gate : option Z }.

Definition first_scan_wait (g : Gate) (now : Z) : option Z :=
  deadline ← gate g;
  match phase g with
  | Running => Some (Z.max 0 (deadline - now))
  | Committing => Some 0
  | Done _ | Abandoned => None
  end.
Definition timed_out : string := "WARN: [update] timed out — loading the installed plugins; nothing was changed".
(** The answer, the lines logged and the gate after. *)
Definition holds_first_scan (g : Gate) (now : Z) : bool * list string * Gate :=
  match gate g with
  | None => (false, [], g)
  | Some deadline =>
      match phase g with
      | Running => if now <? deadline then (true, [], g) else (false, [timed_out], mkGate Abandoned None)
      | Committing => (true, [], g)
      | Done lines => (false, lines, mkGate (Done []) None)
      | Abandoned => (false, [], mkGate Abandoned None)
      end
  end.
(** The slot of the console operations: the flag, and whether an operation may start. *)
Definition try_begin_op (g : Gate) (busy : bool) : (string + unit) * bool :=
  match gate g with
  | Some _ => (inl "the startup plugin update is still running — try again in a moment", busy)
  | None => (if busy then inl "another `sm plugins` registry operation is still running" else inr tt, true)
  end.

Section Machine.
Context {num : Type} `{JsonNumber num} `{Digest num} `{Documents num} `{Registry num} `{Disk}.
Context (cfg : UpdateConfig).
Notation Files := (gmap string string).

(** One file operation of a commit, and what is left of it. *)
Inductive Action := Move (r : Rename) | Prune (kv : string * LockedPlugin) | WriteLock.
Definition actions (s : Staged) (old : option Lock) : list Action := (Move <$> renames s) ++ (Prune <$> old_plugins old) ++ [WriteLock].
Definition act (new : Lock) (x : Files * Report) (a : Action) : Files * Report :=
  match a with Move r => commit_rename x r | Prune kv => commit_prune new x kv | WriteLock => commit_lock new x end.
Inductive Task :=
| Preparing
| Prepared (outcome : string + Staged)
| Acting (s : Staged) (left_ : list Action) (r : Report)
| Finished.
Record State := mkState { shared : Gate; task : Task; world : World; now : Z; scans : list Files; lines : list string }.
Definition start (w : World) (t : Z) : State := mkState (mkGate Running (Some (t + timeout (manifest cfg)))) Preparing w t [] [].
Definition set_phase (g : Gate) (p : Phase) : Gate := mkGate p (gate g).
Definition is_running (p : Phase) : bool := match p with Running => true | _ => false end.
Definition not_updated (e : string) : string := "WARN: [update] plugins not updated: " +:+ e +:+ " — loading the installed ones".

(** The task's next critical section, [None] when it has ended. *)
Definition task_step (st : State) : option State :=
  let g := shared st in
  let w := world st in
  match task st with
  | Preparing => let '(r, w) := prepare cfg w in Some (mkState g (Prepared r) w (now st) (scans st) (lines st))
  | Prepared (inl e) =>
      Some (mkState (if is_running (phase g) then set_phase g (Done [not_updated e]) else g) Finished w (now st) (scans st) (lines st))
  | Prepared (inr s) =>
      if is_running (phase g)
      then Some (mkState (set_phase g Committing) (Acting s (actions s (old_lock cfg)) (mkReport [] 0 0 0)) w (now st) (scans st) (lines st))
      else Some (mkState g Finished (mkWorld (discard s (files w)) (asked w)) (now st) (scans st) (lines st))
  | Acting s (a :: l) r =>
      let '(f, r) := act (lock s) (files w, r) a in Some (mkState g (Acting s l r) (mkWorld f (asked w)) (now st) (scans st) (lines st))
  | Acting s [] r => Some (mkState (set_phase g (Done (log r ++ [summary s r]))) Finished w (now st) (scans st) (lines st))
  | Finished => None
  end.
(** The game thread polls; when nothing holds it, it scans what is there. *)
Definition poll (st : State) : State :=
  let '(holds, out, g) := holds_first_scan (shared st) (now st) in
  mkState g (task st) (world st) (now st) (if holds : bool then scans st else scans st ++ [files (world st)]) (lines st ++ out).
Inductive Step : State -> State -> Prop :=
| step_task st st' : task_step st = Some st' -> Step st st'
| step_poll st : Step st (poll st)
| step_time st t : now st <= t -> Step st (mkState (shared st) (task st) (world st) t (scans st) (lines st)).

(** ** The invariant *)
Lemma act_commit s old f : (foldl (act (lock s)) (f, mkReport [] 0 0 0) (actions s old)).1 = (commit s old f).1.
Proof.
  rewrite commit_files. unfold actions. rewrite !foldl_app. cbn [foldl act]. do 2 f_equal.
  assert (E1 : forall l x, foldl (act (lock s)) x (Move <$> l) = foldl commit_rename x l) by (induction l as [|r l IH]; intros x; [done|cbn; apply IH]).
  assert (E2 : forall l x, foldl (act (lock s)) x (Prune <$> l) = foldl (commit_prune (lock s)) x l) by (induction l as [|kv l IH]; intros x; [done|cbn; apply IH]).
  by rewrite E1, E2.
Qed.
Section Invariant.
Context (w0 : World) (Hc : config_ok cfg).
Definition committed (f : Files) : Prop := exists s w, prepare cfg w0 = (inr s, w) /\ f = (commit s (old_lock cfg) (files w)).1.
Definition idle (g : Gate) : Prop := phase g = Running \/ phase g = Abandoned.
Definition task_ok (st : State) : Prop :=
  match task st with
  | Preparing => idle (shared st) /\ world st = w0
  | Prepared r => idle (shared st) /\ prepare cfg w0 = (r, world st)
  | Acting s l r => phase (shared st) = Committing /\ exists w done_, prepare cfg w0 = (inr s, w) /\ actions s (old_lock cfg) = done_ ++ l /\
      foldl (act (lock s)) (files w, mkReport [] 0 0 0) done_ = (files (world st), r)
  | Finished => (phase (shared st) = Abandoned /\ same_files (files w0) (files (world st))) \/
      ((exists lines, phase (shared st) = Done lines) /\ (same_files (files w0) (files (world st)) \/ committed (files (world st))))
  end.
(** While the task may still swap files the gate is up and nothing was scanned. *)
Definition gate_ok (st : State) : Prop :=
  match phase (shared st) with
  | Running | Committing => is_Some (gate (shared st)) /\ scans st = []
  | Done _ => True
  | Abandoned => gate (shared st) = None
  end.
Record inv (st : State) : Prop := mkInv {
  iv_task : task_ok st;
  iv_gate : gate_ok st;
  iv_held : is_Some (gate (shared st)) -> scans st = [];
  iv_scans : Forall (fun g => same_files g (files (world st)) /\ (same_files (files w0) g \/ committed g)) (scans st) }.

#[local] Instance same_files_refl : Reflexive same_files.
Proof. by intros f p _. Qed.
#[local] Instance same_files_trans : Transitive same_files.
Proof. intros f g h F G p Hp. by rewrite G, F. Qed.
Lemma prepared_same r w : prepare cfg w0 = (r, w) -> same_files (files w0) (files w).
Proof.
  intros E. destruct (prepare_ok cfg w0 Hc) as [Hp _]. rewrite E in Hp. destruct r as [e|s]; [exact Hp|]. destruct Hp as (targets & _ & Hs). apply (so_files _ _ _ _ _ _ Hs).
Qed.
Lemma discarded_same s w : prepare cfg w0 = (inr s, w) -> same_files (files w0) (discard s (files w)).
Proof.
  intros E. destruct (prepare_ok cfg w0 Hc) as [Hp _]. rewrite E in Hp. destruct Hp as (targets & _ & Hs).
  by eapply discard_temporary; [exact Hs|apply (so_files _ _ _ _ _ _ Hs)].
Qed.
(** Scans made while nothing was committed still see the same files. *)
Lemma scans_move (l : list Files) f f' : Forall (fun g => same_files g f /\ (same_files (files w0) g \/ committed g)) l -> same_files f f' ->
  Forall (fun g => same_files g f' /\ (same_files (files w0) g \/ committed g)) l.
Proof. intros Hl Hf. eapply Forall_impl; [exact Hl|]. intros g [Hg Hor]. split; [by etrans|done]. Qed.
Lemma idle_gate st : gate_ok st -> idle (shared st) -> (phase (shared st) = Running /\ is_Some (gate (shared st)) /\ scans st = []) \/ (phase (shared st) = Abandoned /\ gate (shared st) = None).
Proof. unfold gate_ok. intros Hg [E|E]; rewrite E in Hg; [left|right]; by destruct Hg. Qed.
Lemma inv_task st st' : inv st -> task_step st = Some st' -> inv st'.
Proof.
  intros [Ht Hg Hh Hs] E. unfold task_step in E. unfold task_ok in Ht. destruct (task st) as [|r|s l r|] eqn:Etask.
  - destruct Ht as [Hi Hw]. destruct (prepare cfg (world st)) as [r w] eqn:Ep. injection E as <-. rewrite Hw in Ep, Hs. split; [by split|done|done|].
    cbn. eapply scans_move; [exact Hs|]. by eapply prepared_same.
  - destruct Ht as [Hi Hp]. pose proof (prepared_same _ _ Hp) as Hsame. destruct (idle_gate st Hg Hi) as [(Er & Hgate & Hsc)|[Ea Hgate]].
    + rewrite Er in E. cbn in E. destruct r as [e|s]; injection E as <-.
      * split; cbn; [right; split; [by eexists|by left]|done|by rewrite Hsc|by rewrite Hsc; constructor].
      * split; cbn; [split; [done|]; exists (world st), []; by split_and!|done|by rewrite Hsc|by rewrite Hsc; constructor].
    + rewrite Ea in E. cbn in E. destruct r as [e|s]; injection E as <-.
      * split; cbn; [left; by split|unfold gate_ok; cbn; by rewrite Ea|done|done].
      * pose proof (discarded_same s (world st) Hp) as Hd. split; cbn; [left; by split|unfold gate_ok; cbn; by rewrite Ea|done|]. eapply scans_move; [exact Hs|].
        intros p Hpt. by rewrite Hd, Hsame.
  - destruct Ht as [Hph (w & done_ & Hp & Hsplit & Hf)]. unfold gate_ok in Hg. rewrite Hph in Hg. destruct Hg as [Hgate Hsc]. destruct l as [|a l].
    + injection E as <-. rewrite app_nil_r in Hsplit. split; cbn; [right; split; [by eexists|]; right; exists s, w; split; [done|]; by rewrite <- act_commit, Hsplit, Hf|done|by rewrite Hsc|by rewrite Hsc; constructor].
    + destruct (act (lock s) (files (world st), r) a) as [f r'] eqn:Ea. injection E as <-. split; cbn; [|unfold gate_ok; cbn; by rewrite Hph|by rewrite Hsc|by rewrite Hsc; constructor].
      split; [done|]. exists w, (done_ ++ [a]). split_and!; [done|by rewrite <- app_assoc|]. by rewrite foldl_app, Hf.
  - done.
Qed.
Lemma scan_allowed st : inv st -> (holds_first_scan (shared st) (now st)).1.1 = false ->
  same_files (files w0) (files (world st)) \/ committed (files (world st)).
Proof.
  intros [Ht Hg Hh Hs] Hf. unfold task_ok in Ht. destruct (task st) as [|r|s l r|].
  - destruct Ht as [_ ->]. by left.
  - left. eapply prepared_same. apply Ht.
  - destruct Ht as [Hph _]. unfold gate_ok in Hg. rewrite Hph in Hg. destruct Hg as [[d Hd] _]. unfold holds_first_scan in Hf. by rewrite Hd, Hph in Hf.
  - destruct Ht as [[_ ?]|[_ ?]]; [by left|done].
Qed.
Lemma inv_poll st : inv st -> inv (poll st).
Proof.
  intros Hi. pose proof (scan_allowed st Hi) as Hscan. destruct Hi as [Ht Hg Hh Hs]. unfold poll, holds_first_scan in *. destruct (gate (shared st)) as [d|] eqn:Ed.
  - assert (Hsc : scans st = []) by (apply Hh; by eexists). rewrite Hsc in *. unfold gate_ok in Hg. destruct (phase (shared st)) eqn:Eph.
    + destruct (now st <? d); [split; cbn; [exact Ht|unfold gate_ok; cbn; by rewrite Eph, Ed|done|constructor]|]. specialize (Hscan eq_refl).
      split; cbn; [|done|by intros [? ?]|constructor; [by split|constructor]].
      unfold task_ok in *. cbn. destruct (task st); [split; [by right|apply Ht]|split; [by right|apply Ht]| |]; [destruct Ht as [? _]; congruence|]. destruct Ht as [[? _]|[[? ?] _]]; congruence.
    + split; cbn; [exact Ht|unfold gate_ok; cbn; by rewrite Eph, Ed|done|constructor].
    + specialize (Hscan eq_refl). split; cbn; [|done|by intros [? ?]|constructor; [by split|constructor]].
      unfold task_ok in *. cbn. destruct (task st); [destruct Ht as [[?|?] _]; congruence|destruct Ht as [[?|?] _]; congruence|destruct Ht as [? _]; congruence|].
      destruct Ht as [[? _]|[_ ?]]; [congruence|]. right. split; [by eexists|done].
    + congruence.
  - specialize (Hscan eq_refl). split; cbn; [exact Ht| |by rewrite Ed; intros [? ?]|].
    { unfold gate_ok in *. cbn. destruct (phase (shared st)); try done; destruct Hg as [[? ?] _]; congruence. }
    apply Forall_app. split; [done|]. constructor; [by split|constructor].
Qed.
Lemma gate_inv_step st st' : inv st -> Step st st' -> inv st'.
Proof. intros Hi Hst. revert Hi. destruct Hst as [x y E|x|x t E]; intros Hi; [by eapply inv_task|by apply inv_poll|]. destruct Hi as [Ht Hg Hh Hs]. by split; [exact Ht|exact Hg|exact Hh|exact Hs]. Qed.
Lemma inv_start t : inv (start w0 t).
Proof. split; cbn; [split; [by left|done]|split; [by eexists|done]|done|constructor]. Qed.
Lemma gate_inv_reachable t st : rtc Step (start w0 t) st -> inv st.
Proof. intros Hr. remember (start w0 t) as st0 eqn:E. assert (Hi : inv st0) by (subst; apply inv_start). clear E. induction Hr as [|x y z Hxy _ IH]; [done|]. apply IH. by eapply gate_inv_step. Qed.
End Invariant.

(** The task alone. *)
Fixpoint task_steps (n : nat) (st : State) : State :=
  match n with O => st | S n => match task_step st with Some st' => task_steps n st' | None => st end end.
(** The file operations a poll may still wait for, and the end of the commit. *)
Definition remaining (st : State) : nat := match task st with Acting _ l _ => S (length l) | _ => O end.
Lemma commit_ends s l : forall r st, task st = Acting s l r -> exists out w,
  task_steps (S (length l)) st = mkState (set_phase (shared st) (Done out)) Finished w (now st) (scans st) (lines st).
Proof.
  induction l as [|a l IH]; intros r st E; cbn [length task_steps]; unfold task_step; rewrite E; [by do 2 eexists|].
  destruct (act (lock s) (files (world st), r) a) as [f r']. destruct (IH r' (mkState (shared st) (Acting s l r') (mkWorld f (asked (world st))) (now st) (scans st) (lines st)) eq_refl) as (out & w & E').
  cbn [length task_steps] in E'. exists out, w. exact E'.
Qed.
Lemma released w0 (Hc : config_ok cfg) st d n : inv w0 st -> gate (shared st) = Some d -> d <= n -> (holds_first_scan (shared (task_steps (remaining st) st)) n).1.1 = false.
Proof.
  intros [Ht Hg Hh Hs] Hd Hn. unfold remaining. destruct (task st) as [|r|s l r|] eqn:E.
  - unfold task_ok in Ht. rewrite E in Ht. cbn. unfold holds_first_scan. rewrite Hd. destruct Ht as [[->| ->] _]; [|done]. by destruct (Z.ltb_spec n d); [lia|].
  - unfold task_ok in Ht. rewrite E in Ht. cbn. unfold holds_first_scan. rewrite Hd. destruct Ht as [[->| ->] _]; [|done]. by destruct (Z.ltb_spec n d); [lia|].
  - destruct (commit_ends s l r st E) as (out & w & ->). cbn. unfold holds_first_scan. cbn. by rewrite Hd.
  - unfold task_ok in Ht. rewrite E in Ht. cbn. unfold holds_first_scan. rewrite Hd. destruct Ht as [[-> _]|[[out ->] _]]; done.
Qed.

(** C37. The loader never sees a half-swapped directory. However the update and the game thread interleave,
    whenever a poll lets the loader scan, the plugins are as they were before the update or as its complete
    commit leaves them; no later step of the update changes a file that was scanned, its temporaries apart; a
    timed-out update commits nothing. And the hold ends: from the deadline on a poll waits at most for the
    file operations left of a commit that has begun. *)
Theorem update_gate_exact name env w0 t st :
  load_config name env (files w0) = inr (Some cfg) -> rtc Step (start w0 t) st ->
  (forall g, g ∈ scans st -> same_files g (files (world st)) /\ (same_files (files w0) g \/ committed w0 g)) /\
  (phase (shared st) = Abandoned -> same_files (files w0) (files (world st))) /\
  (forall d n, gate (shared st) = Some d -> d <= n -> (holds_first_scan (shared (task_steps (remaining st) st)) n).1.1 = false).
Proof.
  intros Hl Hr. pose proof (load_config_ok _ _ _ _ Hl) as Hc. pose proof (gate_inv_reachable w0 Hc t st Hr) as Hi. split_and!.
  - apply Forall_forall. apply (iv_scans _ _ Hi).
  - intros Ha. pose proof (iv_task _ _ Hi) as Ht. unfold task_ok in Ht. destruct (task st) as [|r|s l r|].
    + destruct Ht as [_ ->]. by intros p _.
    + by eapply prepared_same, Ht.
    + destruct Ht as [? _]. congruence.
    + destruct Ht as [[_ ?]|[[? ?] _]]; [done|congruence].
  - intros d n Hd Hn. by eapply released.
Qed.
End Machine.
End UpdateGate.

Module UpdateGateExamples.
Import UpdateGate UpdateExamples.

Section Runs.
#[local] Existing Instances digest usual_documents usual_registry usual_disk.
(** What happens next: the task, a poll, or time passes. *)
Inductive Turn := T | P | At_ (t : Z).
Definition turn (st : State) (x : Turn) : State :=
  match x with
  | T => default st (task_step config st)
  | P => poll st
  | At_ t => mkState (shared st) (task st) (world st) (Z.max t (now st)) (scans st) (lines st)
  end.
Lemma turn_steps l : forall st, rtc (Step config) st (foldl turn st l).
Proof.
  induction l as [|x l IH]; intros st; [done|]. cbn. destruct x; cbn.
  - destruct (task_step config st) eqn:E; [|apply IH]. eapply rtc_l; [by apply step_task|apply IH].
  - eapply rtc_l; [by apply step_poll|apply IH].
  - eapply rtc_l; [apply step_time|apply IH]. lia.
Qed.
Definition first : State := start config (mkWorld disk []) 0.
(** Polls while the commit is under way wait; the first that does not sees all of it. *)
Definition finished : State := foldl turn first [P; T; P; T; P; T; P; T; P; T; P; T; P; T; P; T; P].
Example finished_in_time : (length (scans finished), phase (shared finished)) = (1%nat, Done []).
Proof. vm_compute. reflexivity. Qed.
Definition late : State := foldl turn first [P; At_ 60; P; T; P; T; P].
Example too_late : (phase (shared late), (fun f => f !! "plugins/r.s2sp") <$> scans late, lines late) =
  (Abandoned, [Some "bytes of r"; Some "bytes of r"; Some "bytes of r"], [timed_out]).
Proof. vm_compute. reflexivity. Qed.
Lemma update_gate_exact_witness :
  (forall g, g ∈ scans finished -> same_files g (files (world finished)) /\ (same_files disk g \/ committed config (mkWorld disk []) g)) /\
  (holds_first_scan (shared (task_steps config (remaining (foldl turn first [T; T])) (foldl turn first [T; T]))) 60).1.1 = false.
Proof.
  split; [apply (update_gate_exact config None None (mkWorld disk []) 0 finished config_loaded (turn_steps _ first))|].
  destruct (update_gate_exact config None None (mkWorld disk []) 0 (foldl turn first [T; T]) config_loaded (turn_steps _ first)) as (_ & _ & Hr). apply (Hr 60); [vm_compute; reflexivity|lia].
Defined.

(** The hold timed out while the update was still downloading: a console operation may start, since the gate
    is gone. It stages [q]; the update then stages the same file and, abandoned, discards it; the operation's
    commit finds nothing to move, and writes a lock that names it. *)
Definition abandoned : State := foldl turn first [At_ 60; P].
Definition op_prepared : (string + Staged) * World := prepare config (world abandoned).
Definition after_discard : State := foldl turn (mkState (shared abandoned) (task abandoned) op_prepared.2 60 [] []) [T; T].
Example console_race :
  ((try_begin_op (shared abandoned) false).1,
   match op_prepared.1 with
   | inr s => let f := (commit s (old_lock config) (files (world after_discard))).1 in
       (f !! "plugins/disabled/q.s2sp", contains_key (plugins (lock s)) "plugins/disabled/q.s2sp", f !! LOCK_FILE)
   | inl _ => (None, false, None)
   end) = (inr tt, (None, true, Some ("printed" +:+ newline))).
Proof. vm_compute. reflexivity. Qed.
End Runs.
End UpdateGateExamples.
