(* ===== verification/ServerConsole.v ===== *)
(** The console operations on plugins (core/src/server_update.rs, last part).

    [sm plugins install|update|enable|disable|remove|outdated] edit plugins.json and bring the installed files
    in line through the same resolve, stage and commit as the startup update. Dependencies that were not
    named stay pinned to the locked version. The addon's files, the registry and the documents are those of
    ServerUpdate.v; the thread an operation runs on, and the queue of its report lines, are left out. *)
From S2P Require Import Prelude.
From S2P Require Import Results.
From S2P Require Import Utf8.
From S2P Require Import Text.
From S2P Require Import Json.
From S2P Require Import EngineContract.
From S2P Require Import ServerLock.
From S2P Require Import ServerUpdate.
From S2P Require Import UpdateProperties.
From Stdlib Require Import Ascii.
From Stdlib Require String.
Import Text.Text Json ServerLock.ServerLock ServerUpdate.ServerUpdate UpdateProperties.
Local Open Scope Z_scope.

Module ServerConsole.

Inductive Op :=
| Install (names with_names : list string) (to_disabled : bool)
| Enable (names : list string)
| Disable (names : list string)
| Update (names : list string)
| Remove (names : list string)
| Outdated.

(** ** Text *)
(** [str::rfind], the prefix before and the suffix after the last one. *)
Fixpoint rsplit (c : ascii) (s : string) : option (string * string) :=
  match s with
  | EmptyString => None
  | String d s' =>
      match rsplit c s' with
      | Some (a, b) => Some (String d a, b)
      | None => if Ascii.eqb c d then Some ("", s') else None
      end
  end.
(** [name@range]: a leading [@] is part of the name. *)
Definition split_spec (spec : string) : string * option string :=
  match rsplit "@"%char spec with
  | Some (String _ _ as n, range) => (n, if is_empty range then None else Some range)
  | _ => (spec, None)
  end.
(** [str::split] of a character. *)
Fixpoint split_on (c : ascii) (s : string) : list string :=
  match s with
  | EmptyString => [""]
  | String d s' => if Ascii.eqb c d then "" :: split_on c s' else match split_on c s' with p :: l => String d p :: l | [] => [] end
  end.
Definition caret (version : string) : string :=
  let core := until (fun c => Ascii.eqb c "-"%char || Ascii.eqb c "+"%char) version in
  let parts := split_on "."%char core in
  if (length parts =? 3)%nat && forallb (fun p => negb (is_empty p) && forallb is_ascii_digit (chars p)) parts then "^" +:+ version else version.
(** [str::replace] of a non-empty pattern. *)
Fixpoint replace_from (p r : string) (skip : nat) (s : string) : string :=
  match s with
  | EmptyString => ""
  | String c s' =>
      match skip with
      | S skip => replace_from p r skip s'
      | O => if starts_with p s then r +:+ replace_from p r (String.length p - 1) s' else String c (replace_from p r O s')
      end
  end.
Definition replace (p r s : string) : string := replace_from p r O s.
(** [{:<n}]: the width counts characters. *)
Definition width (s : string) : nat := length (filterb (fun c => negb (Utf8.Utf8.is_cont c)) (chars s)).
Definition pad (n : nat) (s : string) : string := s +:+ of_chars (repeat " "%char (n - width s)).
Fixpoint trim_start_matches_fuel (fuel : nat) (p s : string) : string :=
  match fuel with O => s | S fuel => match strip_prefix p s with Some r => trim_start_matches_fuel fuel p r | None => s end end.
Definition trim_start_matches (p s : string) : string := trim_start_matches_fuel (String.length s) p s.

Section Console.
Context {num : Type} `{JsonNumber num} `{Digest num} `{Documents num} `{Registry num} `{Disk}.
Notation Value := (Json.Value num).

Definition parse_op (json : string) : string + Op :=
  let* j := map_err (fun e => "bad request: " +:+ e) (from_str json) in
  let list_ k := match v ← field j k; as_array v with Some a => strings a | None => [] end in
  match str_field j "op" with
  | Some "install" => inr (Install (list_ "names") (list_ "with") (bool_decide ((v ← field j "disabled"; as_bool v) = Some true)))
  | Some "enable" => inr (Enable (list_ "names"))
  | Some "disable" => inr (Disable (list_ "names"))
  | Some "update" => inr (Update (list_ "names"))
  | Some "remove" => inr (Remove (list_ "names"))
  | Some "outdated" => inr Outdated
  | other => inl ("unknown plugins operation " +:+ match other with Some o => "Some(" +:+ debug o +:+ ")" | None => "None" end)
  end.

(** ** Pins *)
Definition pinned_range (lock : option Lock) (unpinned : string -> bool) (name range : string) : string :=
  if unpinned name then range
  else match lock with
  | None => range
  | Some l =>
      if negb (bool_decide (Json.get (lk_dependencies l) name = Some range)) then range
      else match find (fun kv => String.eqb (l_name kv.2) name) (plugins l) with Some kv => l_version kv.2 | None => range end
  end.
Definition with_dependencies (m : ServerManifest) (d : list (string * string)) : ServerManifest :=
  mkManifest (name m) d (with_ m) (disabled m) (auto_update m) (reviewed_only m) (registry m) (timeout m).
Definition pinned (m : ServerManifest) (lock : option Lock) (unpinned : string -> bool) : ServerManifest :=
  with_dependencies m ((fun kv => (kv.1, pinned_range lock unpinned kv.1 kv.2)) <$> dependencies m).

(** ** plugins.json *)
Definition remove_key {A} (k : string) (m : list (string * A)) : list (string * A) := filterb (fun kv => negb (String.eqb kv.1 k)) m.
Definition set_or_remove (k : string) (absent : bool) (v : Value) (m : Json.Map num) : Json.Map num := if absent then remove_key k m else Json.insert k v m.
Definition edited (raw : Json.Map num) (m : ServerManifest) : Json.Map num :=
  let raw := Json.insert "name" (String_ (name m)) raw in
  let raw := Json.insert "dependencies" (str_map (dependencies m)) raw in
  let raw := set_or_remove "with" (match with_ m with [] => true | _ => false end) (with_map (with_ m)) raw in
  let raw := set_or_remove "disabled" (match disabled m with [] => true | _ => false end) (Array (String_ <$> (disabled m).*1)) raw in
  if contains_key raw "autoUpdate" then raw else Json.insert "autoUpdate" (Bool true) raw.
Definition known_order : list string := ["name"; "dependencies"; "with"; "disabled"; "autoUpdate"; "reviewedOnly"; "updateTimeoutSeconds"; "registry"].
Definition in_order (raw : Json.Map num) : Json.Map num :=
  omap (fun k => (fun v => (k, v)) <$> Json.get raw k) known_order ++ filterb (fun kv => negb (existsb (String.eqb kv.1) known_order)) raw.
Fixpoint members (l : Json.Map num) : string :=
  match l with
  | [] => ""
  | (k, v) :: l =>
      "  " +:+ to_string_pretty (String_ k) +:+ ": " +:+ replace newline (newline +:+ "  ") (to_string_pretty v)
      +:+ (match l with [] => "" | _ => "," end) +:+ newline +:+ members l
  end.
Definition render (raw : Json.Map num) : string := "{" +:+ newline +:+ members (in_order raw) +:+ "}" +:+ newline.
Definition read_text (f : gmap string string) (p : string) : option string := x ← read f p; Utf8.Utf8.from_utf8 x.
Definition write_manifest (m : ServerManifest) : M unit := fun w =>
  match (match read_text (files w) MANIFEST_FILE with
         | Some t => match from_str t with inr (Object o) => inr o | inr _ => inl (MANIFEST_FILE +:+ ": invalid type") | inl e => inl (MANIFEST_FILE +:+ ": " +:+ e) end
         | None => inr [] end) with
  | inl e => (inl e, w)
  | inr raw =>
      let tmp := MANIFEST_FILE +:+ STAGE_SUFFIX in
      let '(e, f) := write tmp (render (edited raw m)) (files w) in
      let '(e, f) := match e with Some _ => (e, f) | None => rename tmp MANIFEST_FILE f end in
      (match e with Some e => inl (MANIFEST_FILE +:+ ": " +:+ e) | None => inr tt end, mkWorld f (asked w))
  end.

(** ** The operations *)
(** [Err] of an async call handled by its caller. *)
Definition attempt {A} (m : M A) : M (string + A) := fun w => let '(r, w) := m w in (inr r, w).
Definition resolve_version (registry name range : string) : M string :=
  do (status, body) := get_url (replace "/api/v1/plan?" "/api/v1/resolve?" (plan_url registry name range None)) true in
  do _ := lift (require (status =? 200) (error_detail body)) in
  do v := lift (from_slice body) in
  lift (ok_or (str_field v "version") "no version").
Definition row (a b c d : string) : string := pad 32 a +:+ " " +:+ pad 12 b +:+ " " +:+ pad 12 c +:+ " " +:+ d.
Definition outdated_row (lock : option Lock) (registry : string) (lines : list string) (dep : string * string) : M (list string) :=
  let '(n, range) := dep in
  let current := match find (fun kv => String.eqb (l_name kv.2) n) (old_plugins lock) with Some kv => l_version kv.2 | None => "missing" end in
  do wanted := attempt (resolve_version registry n range) in
  let wanted := match wanted with inr v => v | inl e => "(" +:+ e +:+ ")" end in
  do latest := attempt (resolve_version registry n "*") in
  let latest := match latest with inr v => v | inl _ => "-" end in
  let mark := if String.eqb current wanted && String.eqb wanted latest then "  (up to date)" else "" in
  lift (inr (lines ++ [row n current wanted latest +:+ mark])).
Definition outdated (m : ServerManifest) (lock : option Lock) (registry : string) : M (list string) :=
  do lines := mfold (outdated_row lock registry) [row "Plugin" "Current" "Wanted" "Latest"] (dependencies m) in
  lift (inr (lines ++ match dependencies m with [] => ["no plugins in plugins.json"] | _ => [] end)).

Definition set_with (m : ServerManifest) (w : list (string * list string)) : ServerManifest :=
  mkManifest (name m) (dependencies m) w (disabled m) (auto_update m) (reviewed_only m) (registry m) (timeout m).
Definition set_disabled (m : ServerManifest) (d : list (string * unit)) : ServerManifest :=
  mkManifest (name m) (dependencies m) (with_ m) d (auto_update m) (reviewed_only m) (registry m) (timeout m).
Definition missing (n : string) : string := n +:+ " is not in plugins.json".
(** One name of an install: the manifest, the names given without a range, all names. *)
Definition install_one (with_names : list string) (to_disabled : bool) (x : ServerManifest * list string * list string) (spec : string) : ServerManifest * list string * list string :=
  let '(m, bare, out) := x in
  let '(n, range) := split_spec spec in
  let bare := match range with None => bare ++ [n] | Some _ => bare end in
  let m := with_dependencies m (Json.insert n (default "*" range) (dependencies m)) in
  let m := match with_names with [] => m | _ => set_with m (Json.insert n with_names (with_ m)) end in
  let m := if to_disabled : bool then set_disabled m (Json.insert n tt (disabled m)) else m in
  (m, bare, out ++ [n]).
(** The edited manifest, the bare names and the names whose range is free. *)
Definition edit (op : Op) (m : ServerManifest) : string + (ServerManifest * list string * list string) :=
  match op with
  | Install names with_names to_disabled =>
      let* _ := require (match names with [] => false | _ => true end) "usage: sm plugins install <name>[@range] [...]" in
      let* _ := require (match with_names with [] => true | _ => (length names =? 1)%nat end) "--with applies to exactly one bundle" in
      inr (foldl (install_one with_names to_disabled) (m, [], []) names)
  | Update names =>
      let* _ := reach (fun n => require (contains_key (dependencies m) n) (missing n)) names in
      inr (m, [], match names with [] => (dependencies m).*1 | _ => names end)
  | Enable names | Disable names =>
      let enable := match op with Enable _ => true | _ => false end in
      let* _ := require (match names with [] => false | _ => true end) ("usage: sm plugins " +:+ (if enable : bool then "enable" else "disable") +:+ " <name> [...]") in
      let* m := rfold (fun m n =>
        let* _ := require (contains_key (dependencies m) n) (missing n) in
        inr (set_disabled m (if enable : bool then remove_key n (disabled m) else Json.insert n tt (disabled m)))) m names in
      inr (m, [], [])
  | Remove names =>
      let* _ := require (match names with [] => false | _ => true end) "usage: sm plugins remove <name> [...]" in
      let* m := rfold (fun m n =>
        let* _ := require (contains_key (dependencies m) n) (missing n) in
        inr (set_disabled (set_with (with_dependencies m (remove_key n (dependencies m))) (remove_key n (with_ m))) (remove_key n (disabled m)))) m names in
      inr (m, [], [])
  | Outdated => inr (m, [], [])
  end.
(** A bare name records the caret of the version it got. *)
Definition record_bare (targets : list Target) (m : ServerManifest) (n : string) : ServerManifest :=
  match find (fun t => String.eqb (t_name t) n) targets with
  | Some t => with_dependencies m (Json.insert n (caret (t_version t)) (dependencies m))
  | None => m
  end.
Definition is_install (op : Op) : bool := match op with Install _ _ _ => true | _ => false end.
Definition is_update (op : Op) : bool := match op with Update _ => true | _ => false end.
Definition op_manifest (root_file_name : option string) (root : string) (op : Op) (f : gmap string string) : string + ServerManifest :=
  match read_text f MANIFEST_FILE with
  | Some text => parse_manifest text (default "server" root_file_name)
  | None =>
      if is_install op then parse_manifest "{}" "s2script-server"
      else inl ("no plugins.json in " +:+ root +:+ " — add a plugin with `sm plugins install <name>` first")
  end.
Definition op_lock (f : gmap string string) : string + option Lock :=
  match read_text f LOCK_FILE with Some t => let* l := parse_lock t in inr (Some l) | None => inr None end.
Definition op_registry (env_registry : option string) (m : ServerManifest) : string :=
  match env_registry, registry m with Some r, _ => r | None, Some r => r | None, None => DEFAULT_REGISTRY end.
Definition shown (line : string) : string := trim_start_matches "[update] " (trim_start_matches "WARN: " line).
(** Up to the commit: the manifest to write and what is staged. *)
Definition op_stage (op : Op) (m : ServerManifest) (lock : option Lock) (registry : string) : M (ServerManifest * Staged) :=
  do (m, bare, changed) := lift (edit op m) in
  do targets := resolve_targets (pinned m lock (fun n => existsb (String.eqb n) changed)) registry in
  let m := foldl (record_bare targets) m bare in
  do s := stage m targets (url_host registry) lock in
  lift (inr (m, s)).
Definition run_op (root_file_name env_registry : option string) (root : string) (op : Op) : M (list string) := fun w =>
  (do m := lift (op_manifest root_file_name root op (files w)) in
   do lock := lift (op_lock (files w)) in
   let registry := op_registry env_registry m in
   match op with
   | Outdated => outdated m lock registry
   | _ =>
       do (m, s) := op_stage op m lock registry in
       fun w =>
       let '(f, log) := commit s lock (files w) in
       (do _ := if is_update op then lift (inr tt) else write_manifest m in lift (inr (shown <$> log))) (mkWorld f (asked w))
   end) w.

(** ** What an operation may do *)
Notation Files := (gmap string string).




End Console.
End ServerConsole.

Module ServerConsoleExamples.
Import ServerConsole UpdateExamples JsonExamples.

Example specs : split_spec <$> ["@edge/rtv"; "@edge/rtv@^1.2"; "rtv@"; "rtv@1@2"] = [("@edge/rtv", None); ("@edge/rtv", Some "^1.2"); ("rtv", None); ("rtv@1", Some "2")].
Proof. vm_compute. reflexivity. Qed.
Example carets : caret <$> ["1.2.3"; "1.2.3-beta.1"; "1.2"; "latest"] = ["^1.2.3"; "^1.2.3-beta.1"; "1.2"; "latest"].
Proof. vm_compute. reflexivity. Qed.
Example plan_url_with : plan_url "https://r.test/" "@edge/jb" "^2.0.0" (Some ["@edge/a"; "@edge/b"]) = "https://r.test/api/v1/plan?name=%40edge%2Fjb&range=%5E2.0.0&with=%40edge%2Fa%2C%40edge%2Fb".
Proof. vm_compute. reflexivity. Qed.
Example resolve_url : replace "/api/v1/plan?" "/api/v1/resolve?" "https://r/api/v1/plan?name=x" = "https://r/api/v1/resolve?name=x".
Proof. vm_compute. reflexivity. Qed.
Example padded_row : row "rtv" "1.0.0" "1.1.0" "2.0.0" = "rtv                              1.0.0        1.1.0        2.0.0".
Proof. vm_compute. reflexivity. Qed.

Section Usual.
#[local] Existing Instances digest usual_documents usual_registry usual_disk.
(** Enabling [p] asks for its locked version, and its dependency [q] for whatever the registry plans. *)
Definition enabled := run_op (num := num) None None "/srv" (Enable ["p"]) (mkWorld disk []).
Example enabled_asked : asked enabled.2 = [("https://www.s2script.com/api/v1/plan?name=p&range=1.0.0", true); ("https://cdn/q", false)].
Proof. vm_compute. reflexivity. Qed.
Example enable_unknown : (run_op (num := num) None None "/srv" (Enable ["z"]) (mkWorld disk [])).1 = inl "z is not in plugins.json".
Proof. vm_compute. reflexivity. Qed.
End Usual.
End ServerConsoleExamples.
