(* ===== verification/JsNumber.v ===== *)
(** Numbers between the host and JavaScript, which has only [f64]: the casts of the language and the checks
    the natives of core/src/v8host.rs and core/src/memory.rs make on what arrives. *)
From S2P Require Import Prelude.
From S2P Require Import Json.
From Stdlib Require Import SpecFloat.
Local Open Scope Z_scope.

Module JsNumber.

Definition magnitude (m : positive) (e : Z) : Z := if 0 <=? e then Zpos m * 2 ^ e else Zpos m / 2 ^ (- e).
(** [f64::trunc] of a finite number. *)
Definition trunc (f : f64) : Z := match f with S754_finite s m e => if s then - magnitude m e else magnitude m e | _ => 0 end.
(** [fract() == 0.0] *)
Definition is_integral (f : f64) : bool :=
  match f with S754_zero _ => true | S754_finite _ m e => (0 <=? e) || (Zpos m mod 2 ^ (- e) =? 0) | _ => false end.
Definition is_finite (f : f64) : bool := match f with S754_zero _ | S754_finite _ _ _ => true | _ => false end.
Definition f64_leb (a b : f64) : bool := SFleb a b.
(** [as] an integer type: toward zero, saturating. *)
Definition as_int (lo hi : Z) (f : f64) : Z :=
  match f with
  | S754_nan => 0
  | S754_infinity s => if s then lo else hi
  | _ => Z.max lo (Z.min hi (trunc f))
  end.
Definition as_u64 : f64 -> Z := as_int 0 u64_max.
Definition as_i32 : f64 -> Z := as_int (- 2 ^ 31) (2 ^ 31 - 1).
(** [as f32]: to the nearest, ties to even. *)
Definition as_f32 (f : f64) : f64 :=
  match f with S754_finite s m e => binary_normalize 24 128 (if s then Zneg m else Zpos m) e s | x => x end.

(** [f32::from_bits] as [f64]. *)
Definition f32_from_bits (n : Z) : f64 :=
  let sign := Z.testbit n 31 in
  let e := Z.land (Z.shiftr n 23) 255 in
  let m := Z.land n (2 ^ 23 - 1) in
  if e =? 255 then (if m =? 0 then S754_infinity sign else S754_nan)
  else
    let m := if e =? 0 then m else m + 2 ^ 23 in
    binary_normalize 53 1024 (if sign then - m else m) (Z.max e 1 - 150) sign.

(** A [u64] as [f64] as [u64]: 53 bits are kept, ties to even. *)
Definition round_even (n unit : Z) : Z :=
  let q := n / unit in
  let r := n mod unit in
  (if (2 * r <? unit) || ((2 * r =? unit) && Z.even q) then q else q + 1) * unit.
Definition through_number (n : Z) : Z := let k := Z.log2 n - 52 in if k <=? 0 then n else Z.min u64_max (round_even n (2 ^ k)).
Lemma through_number_exact n : 0 <= n < 2 ^ 53 -> through_number n = n.
Proof.
  intros Hn. unfold through_number. cbv zeta. rewrite (proj2 (Z.leb_le _ _)); [done|]. destruct (Z.eq_dec n 0) as [->|]; [by vm_compute|].
  pose proof (Z.log2_lt_pow2 n 53 ltac:(lia)). lia.
Qed.

Definition NULL_PAGE : f64 := f64_of_Z 65536.
Definition USER_TOP : f64 := f64_of_Z (2 ^ 47).
(** memory.rs, [checked]: the address, when [size] bytes at it can be in user space. *)
Definition checked (addr : f64) (size : Z) : option Z :=
  if negb (f64_leb NULL_PAGE addr) || negb (is_integral addr) || f64_ltb USER_TOP (SFadd 53 1024 addr (f64_of_Z size)) then None else Some (as_u64 addr).
(** [js_ent_id] of what [number_value] gave: 0 is no entity. *)
Definition js_ent_id (n : option f64) : Z :=
  let n := default (S754_zero false) n in
  if negb (is_finite n) || f64_ltb n (f64_of_Z 1) || f64_ltb (f64_of_Z (2 ^ 53)) n || negb (is_integral n) then 0 else as_u64 n.
(** [as i32] of an [i64], [as u64] of an [i64]. *)
Definition i64_as_i32 (n : Z) : Z := i32_wrap n.
Definition i64_as_u64 (n : Z) : Z := wrap64 n.

Example integers : (as_i32 (f64_of_Z (-7)), as_u64 (f64_of_Z (2 ^ 60)), is_integral (f64_of_Z 12345)) = (-7, 2 ^ 60, true).
Proof. vm_compute. reflexivity. Qed.
Example halves : (trunc (SFdiv 53 1024 (f64_of_Z (-7)) (f64_of_Z 2)), is_integral (SFdiv 53 1024 (f64_of_Z 7) (f64_of_Z 2))) = (-3, false).
Proof. vm_compute. reflexivity. Qed.
Example addresses : (fun a => checked a 4) <$> [f64_of_Z 65535; f64_of_Z 65536; f64_of_Z (2 ^ 47 - 4); f64_of_Z (2 ^ 47 - 3); S754_nan] = [None; Some 65536; Some (2 ^ 47 - 4); None; None].
Proof. vm_compute. reflexivity. Qed.
Example too_big_for_f32 : as_f32 (f64_of_Z (2 ^ 200)) = S754_infinity false.
Proof. vm_compute. reflexivity. Qed.
Example bits : f32_from_bits 1065353216 = f64_of_Z 1 /\ f32_from_bits (2 ^ 31) = S754_zero true.
Proof. vm_compute. done. Qed.
Example not_exact : through_number (2 ^ 53 + 1) = 2 ^ 53 /\ through_number (2 ^ 53 + 3) = 2 ^ 53 + 4.
Proof. vm_compute. done. Qed.
End JsNumber.
