(* ===== verification/GamedataCalls.v ===== *)
(** Engine calls a plugin declares (core/src/gamedata_calls.rs).

    A plugin's gamedata.json names functions of the engine: where each is found and which arguments it
    takes. [fill_owner] admits them one by one, a bad one being kept with the reason ([Degraded]);
    [prepare] is the gate of one, [flatten_decl] lifts what depends on the platform into it. The shim is a
    parameter ([Shim]): its answers may depend on everything asked before, and the trace [asked] of the
    requests is the state the gates are run in. A descriptor's strings cross to the shim as C strings. *)
From S2P Require Import Prelude.
From S2P Require Import Results.
From S2P Require Import Utf8.
From S2P Require Import Text.
From S2P Require Import Json.
From S2P Require Import Interfaces.
From stdpp Require Import pretty.
From Stdlib Require Import Ascii.
From Stdlib Require String.
Import Text.Text Json.
Local Open Scope Z_scope.

(** The parser and printer of the document crate. *)
Class Printing (num : Type) := {
  from_str : string -> string + Json.Value num;
  to_string : Json.Value num -> string;
}.

Module Shim.
(** What the shim is asked to resolve: the strings of a target and its index. *)
Record Request := mkRequest {
  rq_kind : string; rq_module : string; rq_pattern : string; rq_resolve : string; rq_class : string; rq_index : Z; rq_validate : string }.
Inductive Ask :=
| Resolve (rq : Request) (id : Z)
| Address (call_id addr : Z)
| BindInterface (call_id : Z) (name : string) (slot id : Z)
| Install (hook_id shape addr rc : Z)
| Reset.
(** The operations the shim has, with what they answer after a trace: a code and the bytes left in the
    buffer for a reason. *)
Class Ops := {
  engine_call_resolve : list Ask -> option (Request -> Z * string);
  engine_call_address : list Ask -> option (Z -> Z);
  engine_call_bind_interface : list Ask -> option (Z -> string -> Z -> Z * string);
  hook_install : list Ask -> option (Z -> Z -> Z -> Z * string);
}.
(** [reason_string]: up to the terminator, decoded and trimmed. *)
Definition reason_string (buf : string) : string :=
  of_chars (Semver.trim (chars (Utf8.Utf8.from_utf8_lossy (until (fun c => Ascii.eqb c zero) buf)))).
Definition said (buf instead : string) : string := let text := reason_string buf in if is_empty text then instead else text.
(** [CString::new] *)
Definition cstring (v : string) : string + string := if contains zero v then inl "descriptor string contains an interior NUL" else inr v.
(** [i32::try_from(n).ok()] *)
Definition to_i32 (n : Z) : option Z := if (- 2 ^ 31 <=? n) && (n <? 2 ^ 31) then Some n else None.
End Shim.

Module GamedataCalls.
Import Shim.
Definition quote : string := String (ascii_of_nat 34) EmptyString.
Notation E := (effect (list Ask) string).

Definition RESERVED_OWNER_PREFIX : string := "game-package:".
Definition reserved_owner_id (package : string) : string := RESERVED_OWNER_PREFIX +:+ package.
Definition is_reserved_owner (id : string) : bool := starts_with RESERVED_OWNER_PREFIX id.
Definition PLATFORM : string := "linuxsteamrt64".

(** ** Arguments and results *)
Definition GP_SCALAR : Z := 0.
Definition GP_ENTITY : Z := 1.
Definition GP_STRING : Z := 2.
Definition GP_VECTOR : Z := 3.
Definition GP_UTLSTRING : Z := 4.
Definition MAX_GP_ARGS : Z := 9.
Definition MAX_FP_ARGS : Z := 8.
Definition MAX_VIA_HOPS : Z := 4.

Definition ret_code (returns : string) : option Z :=
  match returns with
  | "void" => Some 0 | "bool" => Some 1 | "int" => Some 2 | "float" => Some 3 | "entity" => Some 4 | "ptr" => Some 5 | "utlstringlist" => Some 6
  | _ => None
  end%string.
Definition gp_kind_of (arg : string) : option Z :=
  match arg with
  | "bool" | "int" | "ptr" => Some GP_SCALAR
  | "entity" => Some GP_ENTITY
  | "string" => Some GP_STRING
  | "utlstring" => Some GP_UTLSTRING
  | "vector" => Some GP_VECTOR
  | _ => None
  end%string.
(** The kind bytes of the integer slots and the number of float slots. *)
Definition classify_args (args : list string) : list Z * Z :=
  foldl (fun '(gp_kinds, fp_count) a =>
    if String.eqb a "float" then (gp_kinds, fp_count + 1)
    else match gp_kind_of a with Some k => (gp_kinds ++ [k], fp_count) | None => (gp_kinds, fp_count) end) ([], 0) args.

Record ViaHop := mkHop { class : string; field_ : string; embedded : bool }.
Record InvokePlan := mkPlan { call_id : Z; args : list string; ret : Z; via : list ViaHop; receiverless : bool; interface : option Z }.
Inductive Descriptor := Ready (plan : InvokePlan) (via_miss : option String.string) | Degraded (reason : string).
(** [CallRegistry] and [GAME_PACKAGE_OWNER]. *)
Notation Registry := (gmap (string * string) Descriptor).
Record Calls := mkCalls { calls : Registry; game_package_owner : option string }.

Section Declared.
Context {num : Type} `{JsonNumber num} `{Printing num} `{Ops}.
Notation Value := (Json.Value num).

(** ** One descriptor *)
Definition nonempty_str (v : Value) (k : string) : option string := s ← str_field v k; if is_empty s then None else Some s.
Definition via_hop (h : Value) : string + ViaHop :=
  let* embedded := match field h "embedded" with
                   | None => inr false
                   | Some (Bool b) => inr b
                   | Some _ => inl "receiver.via hop 'embedded' must be a boolean" end in
  match nonempty_str h "class", nonempty_str h "field" with
  | Some c, Some f => inr (mkHop c f embedded)
  | _, _ => inl "receiver.via hop must be {class, field} with two non-empty strings"
  end.
Definition parse_via (v : Value) : string + list ViaHop :=
  let* hops := match v with Array a => rmap via_hop a | _ => let* h := via_hop v in inr [h] end in
  let n := Z.of_nat (length hops) in
  let* _ := require (negb (n =? 0)) "receiver.via must name at least one hop" in
  let* _ := require (n <=? MAX_VIA_HOPS) ("receiver.via has " +:+ pretty n +:+ " hops (at most " +:+ pretty MAX_VIA_HOPS +:+ ")") in
  let* _ := require (forallb embedded (take (length hops - 1) hops)) ("receiver.via: only the last hop may be a pointer hop; mark the others " +:+ quote +:+ "embedded" +:+ quote +:+ ": true") in
  inr hops.

Definition ask {A} (a : Ask) (r : string + A) : E A := fun l => (r, l ++ [a]).
Definition resolve_target (target : Value) : E Z := fun l =>
  (do func := lift (ok_or (engine_call_resolve l) "engine op unavailable") in
   let s k := cstring (default "" (str_field target k)) in
   do kind := lift (s "kind") in
   do module := lift (s "module") in
   do pattern := lift (s "pattern") in
   do resolve := lift (s "resolve") in
   do class_name := lift (s "class") in
   do validate := lift (cstring (default "" (to_string <$> field target "validate"))) in
   let index := default (-1) (v ← field target "index"; n ← as_i64 v; to_i32 n) in
   let rq := mkRequest kind module pattern resolve class_name index validate in
   let '(id, buf) := func rq in
   ask (Resolve rq id) (if id <? 0 then inl (said buf "descriptor did not resolve") else inr id)) l.
Definition bind_interface (call_id : Z) (name : string) (target : Value) : E Z := fun l =>
  (do func := lift (ok_or (engine_call_bind_interface l) "engine op unavailable (interface receivers)") in
   let slot := if bool_decide (str_field target "kind" = Some "vtable") then default (-1) (v ← field target "index"; n ← as_i64 v; to_i32 n) else -1 in
   let '(id, buf) := func call_id name slot in
   ask (BindInterface call_id name slot id) (if id <? 0 then inl (said buf "interface receiver did not bind") else inr id)) l.

(** [as_array], a value that is no string counting as the empty one. *)
Definition str_list (v : Value) (k : string) : list string :=
  match x ← field v k; as_array x with Some a => (fun x => default "" (as_str x)) <$> a | None => [] end.
Definition check_arg (a : string) : string + unit :=
  require (String.eqb a "float" || match gp_kind_of a with Some _ => true | None => false end) ("unknown arg kind '" +:+ a +:+ "'").
(** The receiver: the name of its interface, whether there is none to pass, the way to the sub-object. *)
Definition receiver_of (decl : Value) : string + (option string * bool * list ViaHop) :=
  let receiver := field decl "receiver" in
  let rkind := default "entity" (r ← receiver; str_field r "kind") in
  let* _ := require (String.eqb rkind "entity" || String.eqb rkind "none" || String.eqb rkind "interface") ("unsupported receiver kind '" +:+ rkind +:+ "'") in
  let v := r ← receiver; field r "via" in
  let* _ := require (String.eqb rkind "entity" || match v with None => true | _ => false end) ("receiver.kind '" +:+ rkind +:+ "' cannot carry a 'via' sub-object hop") in
  let* interface_name :=
    if String.eqb rkind "interface" then
      let n := default "" (r ← receiver; str_field r "name") in
      let* _ := require (negb (is_empty n)) "receiver.kind 'interface' needs a 'name' (the interface version string)" in
      let* c := cstring n in inr (Some c)
    else inr None in
  let* via := match v with Some v => parse_via v | None => inr [] end in
  inr (interface_name, negb (String.eqb rkind "entity"), via).
Definition prepare (decl_json : string) (ops_available : bool) : E InvokePlan :=
  do _ := lift (require ops_available "engine op unavailable") in
  do decl := lift (map_err (fun e => "malformed descriptor: " +:+ e) (from_str decl_json)) in
  do (interface_name, receiverless, via) := lift (receiver_of decl) in
  let args := str_list decl "args" in
  do _ := lift (reach check_arg args) in
  let '(gp_kinds, fp_count) := classify_args args in
  let n := Z.of_nat (length gp_kinds) in
  do _ := lift (require (n <=? MAX_GP_ARGS) ("too many integer-class args (" +:+ pretty n +:+ " > " +:+ pretty MAX_GP_ARGS +:+ ")")) in
  do _ := lift (require (fp_count <=? MAX_FP_ARGS) ("too many float args (" +:+ pretty fp_count +:+ " > " +:+ pretty MAX_FP_ARGS +:+ ")")) in
  let returns := default "void" (str_field decl "returns") in
  do code := lift (ok_or (ret_code returns) ("unknown return kind '" +:+ returns +:+ "'")) in
  do target := lift (ok_or (field decl "target") "descriptor has no target") in
  do id := resolve_target target in
  do interface := match interface_name with
                  | Some name => do i := bind_interface id name target in lift (inr (Some i))
                  | None => lift (inr None) end in
  lift (inr (mkPlan id args code via receiverless interface)).

(** [for key in keys { if let Some(v) = spec.get(key) { target.insert(key, v) } }] *)
Definition lift_keys (keys : list string) (spec : Value) (target : Json.Map num) : Json.Map num :=
  foldl (fun t k => match field spec k with Some v => Json.insert k v t | None => t end) target keys.
Definition flatten_target (target : Json.Map num) (signatures : option (Json.Map num)) : string + Json.Map num :=
  let kind := default "" (v ← get target "kind"; as_str v) in
  if String.eqb kind "signature" then
    let already_inline := match v ← get target "pattern"; as_str v with Some p => negb (is_empty p) | None => false end in
    if already_inline then inr target
    else
      let name := default "" (v ← get target "name"; as_str v) in
      let* _ := require (negb (is_empty name)) "signature target has no name" in
      let* spec := ok_or (m ← signatures; v ← get m name; field v PLATFORM) ("no '" +:+ PLATFORM +:+ "' entry for signature '" +:+ name +:+ "'") in
      let target := lift_keys ["module"; "pattern"; "resolve"] spec target in
      inr (if contains_key target "validate" then target else lift_keys ["validate"] spec target)
  else if String.eqb kind "vtable" then
    let* plat := ok_or (get target PLATFORM) ("vtable target has no '" +:+ PLATFORM +:+ "' entry") in
    inr (lift_keys ["index"; "validate"] plat target)
  else inl ("unknown target kind '" +:+ kind +:+ "'").
Definition flatten (decl : Value) (signatures : option (Json.Map num)) : string + Value :=
  match decl with
  | Object m =>
      let* target := ok_or (v ← get m "target"; as_object v) "descriptor has no target" in
      let* target := flatten_target target signatures in
      inr (Object (Json.insert "target" (Object target) m))
  | _ => inl "descriptor has no target"
  end.
Definition flatten_decl (decl : Value) (signatures : option (Json.Map num)) : string + string :=
  let* out := flatten decl signatures in inr (to_string out).

(** ** The registry *)
Definition register (registry : Registry) (plugin_id call_name decl_json : string) (ops_available : bool) (l : list Ask) : Registry * list Ask :=
  let '(r, l) := prepare decl_json ops_available l in
  (<[(plugin_id, call_name) := match r with inr plan => Ready plan None | inl reason => Degraded reason end]> registry, l).
Definition degrade (registry : Registry) (plugin_id call_name reason : string) : Registry := <[(plugin_id, call_name) := Degraded reason]> registry.
Definition section (gd : Value) (k : string) : option (Json.Map num) := v ← field gd k; as_object v.
Definition fill_one (owner_id : string) (declared : Json.Map num) (signatures : option (Json.Map num)) (ops_available : bool)
    (s : Registry * list Ask) (name : string) : Registry * list Ask :=
  match flatten_decl (default Null (get declared name)) signatures with
  | inr decl => register s.1 owner_id name decl ops_available s.2
  | inl reason => (degrade s.1 owner_id name reason, s.2)
  end.
Definition fill_owner (registry : Registry) (owner_id : string) (gd : Value) (l : list Ask) : Registry * list Ask :=
  match section gd "calls" with
  | None => (registry, l)
  | Some declared =>
      let ops_available := match engine_call_resolve l with Some _ => true | None => false end in
      foldl (fill_one owner_id declared (section gd "signatures") ops_available) (registry, l) (sort_strings declared.*1)
  end.
Definition register_owner (registry : Registry) (owner_id gamedata_json : string) (l : list Ask) : Registry * list Ask :=
  match from_str gamedata_json with inr gd => fill_owner registry owner_id gd l | inl _ => (registry, l) end.
Definition set_calls (c : Calls) (r : Registry) : Calls := mkCalls r (game_package_owner c).
Definition register_plugin (c : Calls) (plugin_id gamedata_json : string) (l : list Ask) : Calls * list Ask :=
  if is_reserved_owner plugin_id then (c, l)
  else let '(r, l) := register_owner (calls c) plugin_id gamedata_json l in (set_calls c r, l).
Definition drop_plugin (c : Calls) (plugin_id : string) : Calls := set_calls c (filter (fun kv => kv.1.1 <> plugin_id) (calls c)).
Definition prepare_game_package (owner : string) (gd : Value) (l : list Ask) : Registry * list Ask := fill_owner ∅ owner gd l.
(** [extend]: what was staged wins. *)
Definition commit_game_package (c : Calls) (owner : string) (staged : Registry) : Calls := mkCalls (staged ∪ calls c) (Some owner).
Definition clear_game_package (c : Calls) (owner : string) : Calls :=
  let c := drop_plugin c owner in
  if bool_decide (game_package_owner c = Some owner) then mkCalls (calls c) None else c.
End Declared.

(** ** What the natives ask *)
Definition plan_of (c : Calls) (plugin_id name : string) : option InvokePlan :=
  match calls c !! (plugin_id, name) with Some (Ready plan _) => Some plan | _ => None end.
Definition call_id_of (c : Calls) (plugin_id name : string) : option Z := call_id <$> plan_of c plugin_id name.
Definition is_ready (c : Calls) (plugin_id name : string) : bool := match call_id_of c plugin_id name with Some _ => true | None => false end.
Definition is_receiverless (c : Calls) (plugin_id name : string) : bool := match plan_of c plugin_id name with Some p => receiverless p | None => false end.
Definition status (c : Calls) (plugin_id name : string) : string :=
  match calls c !! (plugin_id, name) with
  | None => "not declared in this plugin's gamedata"
  | Some (Degraded reason) => reason
  | Some (Ready _ (Some reason)) => reason
  | Some (Ready _ None) => "available"
  end.
Definition set_via_miss (c : Calls) (plugin_id name : string) (reason : option string) : Calls :=
  match calls c !! (plugin_id, name) with
  | Some (Ready plan _) => set_calls c (<[(plugin_id, name) := Ready plan reason]> (calls c))
  | _ => c
  end.
End GamedataCalls.
