(* ===== verification/GamedataHooks.v ===== *)
(** Engine hooks a plugin declares (core/src/gamedata_hooks.rs).

    The inbound sibling of GamedataCalls.v: a descriptor of gamedata.json names a function of the engine to
    detour. [prepare] is the gate of one descriptor; its last step gives the hook one of the shim's 64
    slots ([allocate_slot]), and the first subscriber has the detour installed ([subscribe]). Slots outlive
    their owner: a detour is never removed before the core goes. [World] gathers the tables of both modules
    and the trace of what the shim was asked; [step] is one call from the rest of the core. Log lines are
    not modelled. *)
From S2P Require Import Prelude.
From S2P Require Import Results.
From S2P Require Import Text.
From S2P Require Import Json.
From S2P Require Import GamedataCalls.
From stdpp Require Import pretty.
From Stdlib Require Import Ascii.
From Stdlib Require String.
Import Text.Text Json Shim.
Local Open Scope Z_scope.

Module GamedataHooks.

Definition MAX_HOOKS : Z := 64.
Definition SHAPES : list (string * Z) := [("this_void", 0); ("this_f32_i32_i32_i32", 1); ("this_f32_i32_i64_i64", 2)].
Definition shape_id (name : string) : option Z := get SHAPES name.

Record HookPlan := mkHookPlan { hook_id : Z; shape : Z; params : list string; writable : list bool; receiver : option string; ctx_ns : string }.
Inductive Descriptor :=
| Ready (plan : HookPlan) (addr : Z) (bypass_with miss : option string)
| Degraded (reason : string).
Record Slot := mkSlot { s_id : Z; s_shape : Z; s_addr : Z; installed : bool }.
Notation Key := (string * string)%type (only parsing).
Notation Registry := (gmap (string * string) Descriptor).
Notation Slots := (gmap (string * string) Slot).
(** The statics of gamedata_calls.rs and gamedata_hooks.rs, and the trace. *)
Record World := mkWorld { declared : GamedataCalls.Calls; hooks : Registry; slots : Slots; reported : gset (string * string); asked : list Ask }.
Definition set_hooks (w : World) (r : Registry) : World := mkWorld (declared w) r (slots w) (reported w) (asked w).
(** What registering may change besides the registry. *)
Notation Staging := (Slots * list Ask)%type.

Definition is_ascii_alphabetic (c : ascii) : bool := between "A"%char "Z"%char c || between "a"%char "z"%char c.
Definition is_plain_ident (s : string) : bool :=
  match chars s with
  | [] => false
  | c :: _ => (is_ascii_alphabetic c || Ascii.eqb c "_"%char) && forallb (fun c => is_ascii_alphanumeric c || Ascii.eqb c "_"%char) (chars s)
  end.

(** ** Slots *)
(** [0..n] *)
Definition range (n : Z) : list Z := Z.of_nat <$> seq 0 (Z.to_nat n).
Definition used (m : Slots) : list Z := (fun kv => s_id kv.2) <$> map_to_list m.
Definition fresh_slot (m : Slots) (key : string * string) (shape addr : Z) : (string + Z) * Slots :=
  match find (fun c => negb (existsb (Z.eqb c) (used m))) (range MAX_HOOKS) with
  | None => (inl ("no free hook slot (this build installs at most " +:+ pretty MAX_HOOKS +:+ ")"), m)
  | Some id => (inr id, <[key := mkSlot id shape addr false]> m)
  end.
Definition allocate_slot (m : Slots) (owner name : string) (shape addr : Z) : (string + Z) * Slots :=
  match m !! (owner, name) with
  | Some existing =>
      if (s_shape existing =? shape) && (s_addr existing =? addr) then (inr (s_id existing), m)
      else if negb (installed existing) then (inr (s_id existing), <[(owner, name) := mkSlot (s_id existing) shape addr false]> m)
      else fresh_slot m (owner, name) shape addr
  | None => fresh_slot m (owner, name) shape addr
  end.

Section Declared.
Context {num : Type} `{JsonNumber num} `{Printing num} `{Ops}.
Notation Value := (Json.Value num).
Notation E := (effect (list Ask) string).
Notation M := (effect (gmap (string * string) Slot * list Ask) string).

(** ** The engine's side *)
Definition resolve_via_engine (target : Value) : E Z :=
  do call_id := GamedataCalls.resolve_target target in
  do addr_of := (fun l => (ok_or (engine_call_address l) "engine op unavailable", l)) in
  let addr := addr_of call_id in
  GamedataCalls.ask (Address call_id addr) (if addr =? 0 then inl "resolved descriptor has no address" else inr addr).
Definition install_via_engine (hook_id shape addr : Z) : E unit := fun l =>
  (do func := lift (ok_or (hook_install l) "engine op unavailable") in
   let '(rc, buf) := func hook_id shape addr in
   GamedataCalls.ask (Install hook_id shape addr rc) (if rc =? 0 then inr tt else inl (said buf "detour install refused"))) l.

(** ** One descriptor *)
Definition path2 (v : Value) (a b : string) : option Value := x ← field v a; field x b.
Definition check_ctx (decl : Value) : string + string :=
  let* ctx := ok_or (v ← path2 decl "expose" "ctx"; as_str v) "descriptor has no 'expose.ctx' (nothing could subscribe to it)" in
  let* _ := require (is_plain_ident ctx) ("'expose.ctx' must be a plain identifier, got '" +:+ ctx +:+ "'") in
  inr ctx.
Definition check_shape (decl : Value) : string + Z :=
  let* name := ok_or (str_field decl "shape") "descriptor has no 'shape'" in
  ok_or (shape_id name) ("unknown hook shape '" +:+ name +:+ "' (this build compiles thunks for: " +:+ join ", " SHAPES.*1 +:+ ")").
Definition has_validate (decl : Value) : bool :=
  match v ← path2 decl "target" "validate"; as_object v with Some (_ :: _) => true | _ => false end.
Definition check_bypass (decl : Value) (call_names : list string) : string + option string :=
  match field decl "bypassWith" with
  | None => inr None
  | Some v =>
      let* s := ok_or (as_str v) "'bypassWith' must be a call name" in
      let* _ := require (existsb (String.eqb s) call_names) ("'bypassWith' names '" +:+ s +:+ "', which is not a 'calls' descriptor in this owner's gamedata") in
      inr (Some s)
  end.
Definition check_param (params : list string) (p : string) : string + unit :=
  let* _ := require (is_plain_ident p) ("param name '" +:+ p +:+ "' is not a plain identifier") in
  require (length (filterb (String.eqb p) params) <=? 1)%nat ("param name '" +:+ p +:+ "' is declared more than once").
Definition check_params (decl : Value) : string + (list string * list bool) :=
  let params := GamedataCalls.str_list decl "params" in
  let* _ := reach (check_param params) params in
  let mutables := GamedataCalls.str_list decl "mutable" in
  let* _ := reach (fun m => require (existsb (String.eqb m) params) ("'mutable' names '" +:+ m +:+ "', which is not one of this hook's params")) mutables in
  inr (params, (fun p => existsb (String.eqb p) mutables) <$> params).
Definition check_receiver (decl : Value) (params : list string) : string + option string :=
  let receiver := field decl "receiver" in
  let rkind := default "none" (r ← receiver; str_field r "kind") in
  if String.eqb rkind "none" then inr None
  else if String.eqb rkind "entity" then
    let* as_name := ok_or (r ← receiver; str_field r "as") "receiver.kind 'entity' needs an 'as' name to surface it under" in
    let* _ := require (is_plain_ident as_name) ("receiver 'as' must be a plain identifier, got '" +:+ as_name +:+ "'") in
    let* _ := require (negb (existsb (String.eqb as_name) params)) ("receiver 'as' name '" +:+ as_name +:+ "' collides with a param name") in
    inr (Some as_name)
  else inl ("unsupported receiver kind '" +:+ rkind +:+ "'").
(** The checks that need no engine: the plan but for its slot, the target, the call that bypasses. *)
Definition check (decl_json : string) (call_names : list string) : string + (Z -> HookPlan) * Z * Value * option string :=
  let* decl := map_err (fun e => "malformed descriptor: " +:+ e) (from_str decl_json) in
  let* ctx_ns := check_ctx decl in
  let* shape := check_shape decl in
  let* _ := require (has_validate decl) "a hook target MUST carry a non-empty 'validate' (a wrong detour address overwrites the prologue of whatever is actually there)" in
  let* bypass_with := check_bypass decl call_names in
  let* (params, writable) := check_params decl in
  let* receiver := check_receiver decl params in
  let* target := ok_or (field decl "target") "descriptor has no target" in
  inr ((fun id => mkHookPlan id shape params writable receiver ctx_ns), shape, target, bypass_with).
Definition prepare (owner_id hook_name decl_json : string) (call_names : list string) : M (HookPlan * Z * option string) :=
  do (plan, shape, target, bypass_with) := lift (check decl_json call_names) in
  do addr := (fun s => let '(r, l) := resolve_via_engine target s.2 in (r, (s.1, l))) in
  do id := (fun s => let '(r, m) := allocate_slot s.1 owner_id hook_name shape addr in (r, (m, s.2))) in
  lift (inr (plan id, addr, bypass_with)).

(** ** The registry *)
Definition fill_one (owner_id : string) (entries : Json.Map num) (signatures : option (Json.Map num)) (call_names : list string)
    (s : Registry * Staging) (name : string) : Registry * Staging :=
  match GamedataCalls.flatten_decl (default Null (get entries name)) signatures with
  | inl reason => (<[(owner_id, name) := Degraded reason]> s.1, s.2)
  | inr decl =>
      let '(r, st) := prepare owner_id name decl call_names s.2 in
      (<[(owner_id, name) := match r with inr (plan, addr, bypass_with) => Ready plan addr bypass_with None | inl reason => Degraded reason end]> s.1, st)
  end.
Definition call_names (gd : Value) : list string := match GamedataCalls.section gd "calls" with Some m => m.*1 | None => [] end.
Definition fill_owner (registry : Registry) (owner_id : string) (gd : Value) (st : Staging) : Registry * Staging :=
  match GamedataCalls.section gd "hooks" with
  | None => (registry, st)
  | Some entries => foldl (fill_one owner_id entries (GamedataCalls.section gd "signatures") (call_names gd)) (registry, st) (sort_strings entries.*1)
  end.
Definition register_owner (w : World) (owner_id gamedata_json : string) : World :=
  match from_str gamedata_json with
  | inl _ => w
  | inr gd => let '(r, (m, l)) := fill_owner (hooks w) owner_id gd (slots w, asked w) in mkWorld (declared w) r m (reported w) l
  end.
Definition register_plugin (w : World) (plugin_id gamedata_json : string) : World :=
  if GamedataCalls.is_reserved_owner plugin_id then w else register_owner w plugin_id gamedata_json.

(** [PreparedGameHooks]: dropping it gives back the slots it reserved. *)
Definition prepare_game_package (w : World) (owner : string) (gd : Value) : Registry * World :=
  let '(r, (m, l)) := fill_owner ∅ owner gd (slots w, asked w) in (r, mkWorld (declared w) (hooks w) m (reported w) l).
Definition drop_staged (w : World) (owner : string) : World :=
  mkWorld (declared w) (hooks w) (filter (fun kv => kv.1.1 <> owner \/ installed kv.2 = true) (slots w)) (reported w) (asked w).
Definition commit_game_package (w : World) (staged : Registry) : World := set_hooks w (staged ∪ hooks w).

Definition drop_owner (w : World) (owner_id : string) : World :=
  mkWorld (declared w) (filter (fun kv => kv.1.1 <> owner_id) (hooks w)) (slots w) (filter (fun k => k.1 <> owner_id) (reported w)) (asked w).

(** ** What the natives and the dispatch ask *)
Definition status (w : World) (owner_id name : string) : string :=
  match hooks w !! (owner_id, name) with
  | None => "not declared in this owner's gamedata"
  | Some (Degraded reason) => reason
  | Some (Ready _ _ _ (Some reason)) => reason
  | Some (Ready _ _ _ None) => "available"
  end.
Definition plan (w : World) (owner_id name : string) : option HookPlan :=
  match hooks w !! (owner_id, name) with Some (Ready plan _ _ _) => Some plan | _ => None end.
Definition hook_for_id (w : World) (id : Z) : option (string * string) :=
  fst <$> find (fun kv => (s_id kv.2 =? id) && installed kv.2) (map_to_list (slots w)).
Definition is_installed (w : World) (key : string * string) : bool := match slots w !! key with Some s => installed s | None => false end.
Definition note_miss (w : World) (owner_id name : string) (reason : option string) : World :=
  match hooks w !! (owner_id, name) with
  | Some (Ready plan addr bypass_with _) => set_hooks w (<[(owner_id, name) := Ready plan addr bypass_with reason]> (hooks w))
  | _ => w
  end.
Definition mark_installed (w : World) (key : string * string) : World :=
  match slots w !! key with
  | Some s => mkWorld (declared w) (hooks w) (<[key := mkSlot (s_id s) (s_shape s) (s_addr s) true]> (slots w)) (reported w) (asked w)
  | None => w
  end.
Definition subscribe (w : World) (owner_id name : string) : World * (string + unit) :=
  match hooks w !! (owner_id, name) with
  | Some (Ready plan addr _ _) =>
      if is_installed w (owner_id, name) then (w, inr tt)
      else
        let '(r, l) := install_via_engine (hook_id plan) (shape plan) addr (asked w) in
        let w := mkWorld (declared w) (hooks w) (slots w) (reported w) l in
        match r with
        | inr _ => (note_miss (mark_installed w (owner_id, name)) owner_id name None, inr tt)
        | inl reason => (note_miss w owner_id name (Some reason), inl reason)
        end
  | _ => (w, inl (status w owner_id name))
  end.
Definition REENTRANT : string :=
  "a dispatch was SKIPPED because the detour fired re-entrantly — core already held the isolate borrow, so no handler could run and the engine call proceeded UNHOOKED. Some JS→engine path reaches this function without arming its bypass latch (only the hook's own 'bypassWith' descriptor arms it). Reported once per hook.".
Definition note_reentrant_skip (w : World) (owner_id name : string) : World :=
  if bool_decide ((owner_id, name) ∈ reported w) then w
  else note_miss (mkWorld (declared w) (hooks w) (slots w) ({[(owner_id, name)]} ∪ reported w) (asked w)) owner_id name (Some REENTRANT).
Definition bypass_id (w : World) (owner_id call_name : string) (kv : string * string * Descriptor) : option Z :=
  let '(o, n, d) := kv in
  if negb (String.eqb o owner_id) then None
  else match d with
  | Ready plan _ bypass_with _ =>
      if bool_decide (bypass_with = Some call_name) && is_installed w (o, n) then Some (hook_id plan) else None
  | Degraded _ => None
  end.
Definition bypass_ids_for_call (w : World) (owner_id call_name : string) : list Z := omap (bypass_id w owner_id call_name) (map_to_list (hooks w)).
(** The core forgets its half, and the shim, at the same time, its own. *)
Definition reset_all (w : World) : World := mkWorld (declared w) ∅ ∅ ∅ (asked w ++ [Reset]).

(** ** What the core does with both modules *)
Inductive Op :=
| RegisterPlugin (id gamedata_json : string)
| UnloadPlugin (id : string)
| CommitPackage (id : string) (gd : Value) (prepared : bool)
| ClearPackage (id : string)
| Subscribe (owner name : string)
| NoteMiss (owner name : string) (reason : option string)
| ReentrantSkip (owner name : string)
| SetViaMiss (plugin_id name : string) (reason : option string)
| ResetAll.
Definition set_declared (w : World) (c : GamedataCalls.Calls) (l : list Ask) : World := mkWorld c (hooks w) (slots w) (reported w) l.
(** loader.rs, [begin_load_prepared]; lifecycle.rs, [teardown]; game_packages, [commit] and [clear]. *)
Definition load_gamedata (w : World) (id gamedata_json : string) : World :=
  let '(c, l) := GamedataCalls.register_plugin (declared w) id gamedata_json (asked w) in
  register_plugin (set_declared w c l) id gamedata_json.
Definition teardown (w : World) (id : string) : World := drop_owner (set_declared w (GamedataCalls.drop_plugin (declared w) id) (asked w)) id.
(** [prepared]: whether what else the commit of a package prepares succeeds. *)
Definition commit_package (w : World) (id : string) (gd : Value) (prepared : bool) : World :=
  let owner := GamedataCalls.reserved_owner_id id in
  match GamedataCalls.game_package_owner (declared w) with
  | Some _ => w
  | None =>
      let '(calls, l) := GamedataCalls.prepare_game_package owner gd (asked w) in
      let '(staged, w) := prepare_game_package (set_declared w (declared w) l) owner gd in
      if prepared then commit_game_package (set_declared w (GamedataCalls.commit_game_package (declared w) owner calls) (asked w)) staged
      else drop_staged w owner
  end.
Definition clear_package (w : World) (id : string) : World :=
  let owner := GamedataCalls.reserved_owner_id id in
  drop_owner (set_declared w (GamedataCalls.clear_game_package (declared w) owner) (asked w)) owner.
Definition step (w : World) (op : Op) : World :=
  match op with
  | RegisterPlugin id json => load_gamedata w id json
  | UnloadPlugin id => teardown w id
  | CommitPackage id gd prepared => commit_package w id gd prepared
  | ClearPackage id => clear_package w id
  | Subscribe owner name => (subscribe w owner name).1
  | NoteMiss owner name reason => note_miss w owner name reason
  | ReentrantSkip owner name => note_reentrant_skip w owner name
  | SetViaMiss plugin_id name reason => set_declared w (GamedataCalls.set_via_miss (declared w) plugin_id name reason) (asked w)
  | ResetAll => reset_all w
  end.
Definition init : World := mkWorld (GamedataCalls.mkCalls ∅ None) ∅ ∅ ∅ [].
Definition run (ops : list Op) : World := foldl step init ops.
End Declared.
End GamedataHooks.
