(* ===== verification/GamedataProperties.v ===== *)
(** What declared engine calls and hooks promise, over every sequence of calls from start-up.

    [inv] is the invariant of [GamedataHooks.World]; [queries] says that an effect only adds questions to
    the trace, never a patch or a reset. *)
From S2P Require Import Prelude.
From S2P Require Import Results.
From S2P Require Import Text.
From S2P Require Import Json.
From S2P Require Import ServerLock.
From S2P Require Import GamedataCalls.
From S2P Require Import GamedataHooks.
From Stdlib Require Import Ascii.
From Stdlib Require String.
Import Text.Text Json Shim GamedataHooks.
Local Open Scope Z_scope.

Module GamedataProperties.

(** ** Specifications *)
(** A plan of a call fits the call frame of the shim. *)
Definition init_ {A} (l : list A) : list A := take (length l - 1) l.
Record call_ok (p : GamedataCalls.InvokePlan) : Prop := {
  co_id : 0 <= GamedataCalls.call_id p;
  co_args : Forall (fun a => a = "float" \/ is_Some (GamedataCalls.gp_kind_of a)) (GamedataCalls.args p);
  co_gp : Z.of_nat (length (GamedataCalls.classify_args (GamedataCalls.args p)).1) <= 9;
  co_fp : (GamedataCalls.classify_args (GamedataCalls.args p)).2 <= 8;
  co_ret : 0 <= GamedataCalls.ret p <= 6;
  co_via : (length (GamedataCalls.via p) <= 4)%nat /\ Forall (fun h => GamedataCalls.embedded h = true) (init_ (GamedataCalls.via p));
  co_receiver : (GamedataCalls.via p <> [] -> GamedataCalls.receiverless p = false) /\ (is_Some (GamedataCalls.interface p) -> GamedataCalls.receiverless p = true);
}.
(** A plan of a hook can be spelled in the generated bindings, and its shape has a thunk. *)
Record hook_ok (p : HookPlan) : Prop := {
  ho_shape : shape p ∈ SHAPES.*2;
  ho_idents : Forall (fun s => is_plain_ident s = true) (ctx_ns p :: params p);
  ho_distinct : NoDup (params p);
  ho_parallel : length (writable p) = length (params p);
  ho_receiver : forall r, receiver p = Some r -> is_plain_ident r = true /\ r ∉ params p;
}.

Section Gamedata.
Context {num : Type} `{JsonNumber num} `{Printing num} `{Ops}.
Notation Value := (Json.Value num).
Notation World := GamedataHooks.World.

(** An address is vetted when the shim gave it for a target it was told how to validate. *)
Definition validated (rq : Request) : Prop := exists x m, rq_validate rq = to_string (Object (x :: m)).
Definition vetted (l : list Ask) (addr : Z) : Prop :=
  exists l1 rq id l2, l = l1 ++ Resolve rq id :: Address id addr :: l2 /\ 0 <= id /\ addr <> 0 /\ validated rq.
(** A slot is patched when the shim installed its detour and was not reset since. *)
Definition patched (l : list Ask) (s : Slot) : Prop :=
  exists l1 l2, l = l1 ++ Install (s_id s) (s_shape s) (s_addr s) 0 :: l2 /\ Reset ∉ l2.

(** ** Effects that only ask *)
Definition query (a : Ask) : Prop := match a with Install _ _ _ _ | Reset => False | _ => True end.
Definition asks (l l' : list Ask) : Prop := exists q, l' = l ++ q /\ Forall query q.
#[local] Instance asks_refl : Reflexive asks.
Proof. intros l. exists []. by rewrite app_nil_r. Qed.
#[local] Instance asks_trans : Transitive asks.
Proof. intros l1 l2 l3 (q1 & -> & F1) (q2 & -> & F2). exists (q1 ++ q2). rewrite app_assoc. split; [done|]. by apply Forall_app. Qed.
Definition queries {A} (m : effect (list Ask) string A) : Prop := forall l, asks l (m l).2.
Lemma lift_queries {A} (r : string + A) : queries (lift r).
Proof. intros l. done. Qed.
Lemma bind_queries {A B} (m : effect (list Ask) string A) (k : A -> effect (list Ask) string B) : queries m -> (forall a, queries (k a)) -> queries (bind m k).
Proof. intros Hm Hk l. rewrite bind_case. specialize (Hm l). destruct (m l) as [[e|a] l1]; [done|]. etrans; [exact Hm|apply Hk]. Qed.
Lemma ask_queries {A} a (r : string + A) : query a -> queries (GamedataCalls.ask a r).
Proof. intros Hq l. exists [a]. split; [done|]. by constructor. Qed.
Lemma here_queries {A} (m : list Ask -> effect (list Ask) string A) : (forall l, queries (m l)) -> queries (fun l => m l l).
Proof. intros Hm l. apply Hm. Qed.
Ltac queries := repeat match goal with
  | |- queries (lift _) => apply lift_queries
  | |- queries (GamedataCalls.ask _ _) => apply ask_queries; exact I
  | |- queries (bind _ _) => apply bind_queries; [|intros ?]
  | |- queries (let '(_, _) := ?x in _) => destruct x
  | |- queries (match ?x with Some _ => _ | None => _ end) => destruct x
  end.

Lemma resolve_queries target : queries (GamedataCalls.resolve_target target).
Proof. apply (here_queries (fun l => do func := lift (ok_or (engine_call_resolve l) _) in _)). intros l. queries. Qed.
Lemma bind_interface_queries id name target : queries (GamedataCalls.bind_interface id name target).
Proof. apply (here_queries (fun l => do func := lift (ok_or (engine_call_bind_interface l) _) in _)). intros l. queries. Qed.
Lemma prepare_queries json ops : queries (GamedataCalls.prepare json ops).
Proof. unfold GamedataCalls.prepare. queries; [apply resolve_queries|apply bind_interface_queries]. Qed.
Lemma via_engine_queries target : queries (resolve_via_engine target).
Proof. unfold resolve_via_engine. apply bind_queries; [apply resolve_queries|intros id]. apply bind_queries; [intros l; done|intros f]. cbv zeta. queries. Qed.

Lemma target_resolve_ok target l id l' : GamedataCalls.resolve_target target l = (inr id, l') ->
  exists rq, l' = l ++ [Resolve rq id] /\ 0 <= id /\ rq_validate rq = default "" (to_string <$> field target "validate").
Proof.
  unfold GamedataCalls.resolve_target. intros E. runs. destruct (a _) as [i buf]. unfold GamedataCalls.ask in E. injection E as E <-.
  destruct (Z.ltb_spec i 0); [done|]. injection E as ->. eexists. split; [reflexivity|]. split; [done|]. cbn.
  match goal with Hv : inr _ = cstring _ |- _ => revert Hv end. unfold cstring. by destruct (contains zero _); intros [= ->].
Qed.
Lemma via_engine_ok target l addr l' : resolve_via_engine target l = (inr addr, l') ->
  exists rq id, l' = l ++ [Resolve rq id; Address id addr] /\ 0 <= id /\ addr <> 0 /\ rq_validate rq = default "" (to_string <$> field target "validate").
Proof.
  unfold resolve_via_engine. intros E. apply bind_inr in E as (id & l1 & E1 & E). apply target_resolve_ok in E1 as (rq & -> & Hid & Hv).
  apply bind_inr in E as (f & l2 & E2 & E). injection E2 as E2 <-. cbv zeta in E. unfold GamedataCalls.ask in E. injection E as E <-.
  destruct (Z.eqb_spec (f id) 0); [done|]. injection E as <-. exists rq, id. rewrite <- app_assoc. by split_and!.
Qed.

Lemma asks_patched l l' s : asks l l' -> patched l s -> patched l' s.
Proof.
  intros (q & -> & Hq) (l1 & l2 & -> & Hr). exists l1, (l2 ++ q). rewrite <- app_assoc. split; [done|]. intros [?|Hin]%elem_of_app; [done|].
  rewrite Forall_forall in Hq. by apply Hq in Hin.
Qed.
Lemma vetted_app l q addr : vetted l addr -> vetted (l ++ q) addr.
Proof. intros (l1 & rq & id & l2 & -> & Hv). exists l1, rq, id, (l2 ++ q). rewrite <- app_assoc. by split. Qed.
Lemma asks_vetted l l' addr : asks l l' -> vetted l addr -> vetted l' addr.
Proof. intros (q & -> & _). apply vetted_app. Qed.

(** ** Calls *)
Lemma ret_code_range returns z : GamedataCalls.ret_code returns = Some z -> 0 <= z <= 6.
Proof. unfold GamedataCalls.ret_code. intros E. repeat case_match; try discriminate; injection E as <-; lia. Qed.
Lemma parse_via_ok (v : Value) hops : GamedataCalls.parse_via v = inr hops -> hops <> [] /\ (length hops <= 4)%nat /\ Forall (fun h => GamedataCalls.embedded h = true) (init_ hops).
Proof.
  unfold GamedataCalls.parse_via. intros E. cbv zeta in E. succeeds. subst. match goal with Hn : negb _ = true, Hl : (_ <=? _) = true, Hf : forallb _ _ = true |- _ => rename Hn into Hne, Hl into Hle, Hf into Hall end.
  split_and!.
  - intros ->. done.
  - unfold GamedataCalls.MAX_VIA_HOPS in Hle. lia.
  - apply Forall_forall. intros h Hin. rewrite forallb_forall in Hall. by apply Hall, list_elem_of_In.
Qed.
Lemma receiver_ok (decl : Value) name receiverless via : GamedataCalls.receiver_of decl = inr (name, receiverless, via) ->
  ((length via <= 4)%nat /\ Forall (fun h => GamedataCalls.embedded h = true) (init_ via)) /\
  (via <> [] -> receiverless = false) /\ (is_Some name -> receiverless = true).
Proof.
  unfold GamedataCalls.receiver_of. intros E. cbv zeta in E. set (rk := default "entity" _) in E. set (v := mbind _ _) in E. succeeds.
  subst a1 receiverless a2.
  assert (Hvia : (length via <= 4)%nat /\ Forall (fun h => GamedataCalls.embedded h = true) (init_ via)).
  { destruct v as [v|]; [by apply parse_via_ok in Ok2 as (_ & ?)|]. injection Ok2 as <-. split; [cbn; lia|constructor]. }
  split; [exact Hvia|]. split.
  - intros Hne. destruct v as [v|]; [|exfalso; apply Hne; congruence]. rewrite orb_false_r in Ok0. by rewrite Ok0.
  - intros [n ->]. destruct (String.eqb_spec rk "interface") as [->|]; [done|discriminate].
Qed.
Lemma call_prepare_ok json ops l plan l' : GamedataCalls.prepare json ops l = (inr plan, l') -> call_ok plan /\ exists rq, Resolve rq (GamedataCalls.call_id plan) ∈ l'.
Proof.
  unfold GamedataCalls.prepare. intros E. runs. destruct a1 as [[name receiverless] via]. runs. destruct (GamedataCalls.classify_args _) as [gp fp] eqn:Ec. runs.
  match goal with Hr : GamedataCalls.resolve_target _ _ = _ |- _ => apply target_resolve_ok in Hr as (rq & -> & Hid & _) end.
  repeat match goal with Hq : inr _ = _ |- _ => symmetry in Hq end. succeeds.
  match goal with Hr : GamedataCalls.receiver_of _ = _ |- _ => apply receiver_ok in Hr as (Hv & Hs & Hi) end.
  match goal with Hr : reach _ _ = _ |- _ => rewrite reach_inr in Hr; rename Hr into Hargs end.
  match goal with Hr : GamedataCalls.ret_code _ = _ |- _ => apply ret_code_range in Hr as Hret end.
  assert (Hint : (is_Some a7 -> is_Some name) /\ asks (l ++ [Resolve rq a6]) w4).
  { destruct name as [n|]; [|apply lift_eq in Hm8; injection Hm8 as -> ->; split; [intros [? E]; discriminate E|done]]. split; [done|].
    apply bind_inr in Hm8 as (i & l1 & Hb & Hm8). apply lift_eq in Hm8. injection Hm8 as _ ->.
    pose proof (bind_interface_queries a6 n a5 (l ++ [Resolve rq a6])) as Hq. by rewrite Hb in Hq. }
  destruct Hint as [Hint (q & -> & _)]. split; [|exists rq; cbn; set_solver]. apply Z.leb_le in Hm3, Hm4. constructor; cbn -[GamedataCalls.classify_args]; try done.
  - apply Forall_forall. intros x Hx. specialize (Hargs x Hx). apply require_inr in Hargs. destruct (String.eqb_spec x "float"); [by left|]. right. by destruct (GamedataCalls.gp_kind_of x).
  - by rewrite Ec.
  - by rewrite Ec.
  - split; [done|]. intros Hs'. apply Hi. by apply Hint.
Qed.

(** Every call of the registry is bound to something the shim resolved. *)
Definition calls_ok (r : gmap (string * string) GamedataCalls.Descriptor) (l : list Ask) : Prop :=
  forall k p miss, r !! k = Some (GamedataCalls.Ready p miss) -> call_ok p /\ exists rq, Resolve rq (GamedataCalls.call_id p) ∈ l.
Lemma asks_calls r l l' : (exists q, l' = l ++ q) -> calls_ok r l -> calls_ok r l'.
Proof. intros (q & ->) Hr k p miss Hk. destruct (Hr k p miss Hk) as [Hp (rq & Hin)]. split; [done|]. exists rq. by apply elem_of_app; left. Qed.
Lemma calls_insert r l k d : calls_ok r l -> (forall p miss, d = GamedataCalls.Ready p miss -> call_ok p /\ exists rq, Resolve rq (GamedataCalls.call_id p) ∈ l) -> calls_ok (<[k := d]> r) l.
Proof. intros Hr Hd k' p miss. rewrite lookup_insert_Some. intros [[<- E]|[_ E]]; [by eapply Hd|by eapply Hr]. Qed.
Lemma calls_sub r r' l : (forall k p miss, r' !! k = Some (GamedataCalls.Ready p miss) -> r !! k = Some (GamedataCalls.Ready p miss)) -> calls_ok r l -> calls_ok r' l.
Proof. intros Hs Hr k p miss Hk. by eapply Hr, Hs. Qed.
(** One name: its row is written, no other; the trace only grows by questions. *)
Lemma call_fill_one owner entries sigs ops s name : calls_ok s.1 s.2 ->
  let s' := GamedataCalls.fill_one owner entries sigs ops s name in
  calls_ok s'.1 s'.2 /\ asks s.2 s'.2 /\ is_Some (s'.1 !! (owner, name)) /\ (forall k, k <> (owner, name) -> s'.1 !! k = s.1 !! k).
Proof.
  intros Hr. destruct s as [r l]. cbn [fst snd] in *. unfold GamedataCalls.fill_one. destruct (GamedataCalls.flatten_decl _ _) as [reason|decl].
  - unfold GamedataCalls.degrade. cbn. split_and!; [by apply calls_insert|done|by rewrite lookup_insert_eq|]. intros k Hk. by rewrite lookup_insert_ne.
  - unfold GamedataCalls.register. cbn [fst snd]. pose proof (prepare_queries decl ops l) as Hq. destruct (GamedataCalls.prepare decl ops l) as [p l'] eqn:E. cbn in *. split_and!; [|done|by rewrite lookup_insert_eq|].
    + apply calls_insert; [destruct Hq as (q & -> & _); eapply asks_calls; [by eexists|done]|]. intros p' miss Hd. destruct p as [e|p]; [done|]. injection Hd as -> _. by apply call_prepare_ok in E.
    + intros k Hk. by rewrite lookup_insert_ne.
Qed.
Lemma call_fill_loop owner entries sigs ops names : forall s, calls_ok s.1 s.2 ->
  let s' := foldl (GamedataCalls.fill_one owner entries sigs ops) s names in
  calls_ok s'.1 s'.2 /\ asks s.2 s'.2 /\ (forall n, n ∈ names -> is_Some (s'.1 !! (owner, n))) /\ (forall k, k ∉ (pair owner) <$> names -> s'.1 !! k = s.1 !! k) /\
  (forall k, is_Some (s.1 !! k) -> is_Some (s'.1 !! k)).
Proof.
  induction names as [|n names IH]; intros s Hs; [cbn; split_and!; try done; intros ? Hin; by apply elem_of_nil in Hin|]. cbn [foldl].
  destruct (call_fill_one owner entries sigs ops s n Hs) as (C1 & A1 & I1 & K1). destruct (IH _ C1) as (C2 & A2 & I2 & K2 & M2).
  split_and!; [done|by etrans| | |].
  - intros m [->|Hm]%elem_of_cons; [by apply M2|by apply I2].
  - intros k. csimpl. intros Hk. apply not_elem_of_cons in Hk as [Hne Hk]. by rewrite K2, K1.
  - intros k Hk. apply M2. destruct (decide (k = (owner, n))) as [->|Hne]; [done|]. by rewrite K1.
Qed.
Lemma call_fill r owner gd l : calls_ok r l ->
  let s := GamedataCalls.fill_owner r owner gd l in
  calls_ok s.1 s.2 /\ asks l s.2 /\ (forall n, n ∈ call_names gd -> is_Some (s.1 !! (owner, n))) /\ (forall k, k.1 <> owner -> s.1 !! k = r !! k) /\
  (forall k, is_Some (r !! k) -> is_Some (s.1 !! k)).
Proof.
  intros Hr. unfold GamedataCalls.fill_owner, call_names. destruct (GamedataCalls.section gd "calls") as [entries|]; [|cbn; split_and!; try done; intros ? Hin; by apply elem_of_nil in Hin].
  cbv zeta. destruct (call_fill_loop owner entries (GamedataCalls.section gd "signatures") (match engine_call_resolve l with Some _ => true | None => false end) (sort_strings entries.*1) (r, l) Hr) as (C2 & A2 & I2 & K2 & M2).
  split_and!; try done.
  - intros n Hn. apply I2. by rewrite sort_strings_perm.
  - intros k Hk. apply K2. intros (n & -> & _)%list_elem_of_fmap. done.
Qed.

(** ** Slots *)
Record slots_ok (m : gmap (string * string) Slot) (l : list Ask) : Prop := {
  so_range : forall k s, m !! k = Some s -> 0 <= s_id s < MAX_HOOKS;
  so_inj : forall k k' s s', m !! k = Some s -> m !! k' = Some s' -> s_id s = s_id s' -> k = k';
  so_patched : forall k s, m !! k = Some s -> installed s = true -> patched l s;
}.
Lemma slots_asks m l l' : asks l l' -> slots_ok m l -> slots_ok m l'.
Proof. intros Ha [Hr Hi Hp]. split; try done. intros k s Hk Hs. eapply asks_patched; [done|by eapply Hp]. Qed.
Lemma slots_sub m m' l : (forall k s, m' !! k = Some s -> m !! k = Some s) -> slots_ok m l -> slots_ok m' l.
Proof. intros Hs [Hr Hi Hp]. split; intros; eauto. Qed.
(** A slot that is not installed yet, under an id nobody else holds. *)
Lemma slots_insert m l k s : slots_ok m l -> 0 <= s_id s < MAX_HOOKS -> (forall k' s', m !! k' = Some s' -> k' <> k -> s_id s' <> s_id s) ->
  (installed s = true -> patched l s) -> slots_ok (<[k := s]> m) l.
Proof.
  intros [Hr Hi Hp] Hid Hnew Hins. split.
  - intros k' s'. rewrite lookup_insert_Some. intros [[<- <-]|[_ E]]; [done|by eapply Hr].
  - intros k1 k2 s1 s2. rewrite !lookup_insert_Some. intros [[<- <-]|[N1 E1]] [[<- <-]|[N2 E2]] E; [done| | |by eapply Hi].
    + by destruct (Hnew _ _ E2 ltac:(done)).
    + by destruct (Hnew _ _ E1 ltac:(done)).
  - intros k' s'. rewrite lookup_insert_Some. intros [[<- <-]|[_ E]]; [done|by eapply Hp].
Qed.
Lemma range_elem n z : z ∈ range n <-> 0 <= z < n.
Proof.
  unfold range. rewrite list_elem_of_fmap. setoid_rewrite elem_of_seq. split; [intros (i & -> & ?); lia|]. intros Hz. exists (Z.to_nat z). split; lia.
Qed.
Lemma used_elem m k s : m !! k = Some s -> s_id s ∈ used m.
Proof. intros Hk. apply list_elem_of_fmap. exists (k, s). split; [done|]. by apply elem_of_map_to_list. Qed.
(** A slot that was not installed is pointed elsewhere; an installed one gives way to another id. *)
Definition moved (s s' : Slot) : Prop := installed s' = false /\ if installed s then s_id s' <> s_id s else s_id s' = s_id s.
(** What giving a slot does: the other rows stay, the row has the id, and what was there is kept or moved. *)
Definition gives (m m' : gmap (string * string) Slot) (k : string * string) (sh addr : Z) (r : string + Z) : Prop :=
  (forall k', k' <> k -> m' !! k' = m !! k') /\
  match r with
  | inl _ => m' = m
  | inr id => exists s, m' !! k = Some s /\ s_id s = id /\ s_shape s = sh /\ s_addr s = addr
  end /\
  (forall s, m !! k = Some s -> m' !! k = Some s \/ exists s', m' !! k = Some s' /\ moved s s').
Lemma fresh_slot_ok m l k sh addr : slots_ok m l -> (forall s, m !! k = Some s -> installed s = true) -> let '(r, m') := fresh_slot m k sh addr in slots_ok m' l /\ gives m m' k sh addr r.
Proof.
  intros Hm Hi. unfold fresh_slot. destruct (find _ _) as [id|] eqn:E; [|by split_and!; [|split_and!; auto]].
  apply find_some in E as [Hin Hn]. apply list_elem_of_In, range_elem in Hin. apply negb_true_iff in Hn.
  assert (Hfree : forall k' s', m !! k' = Some s' -> s_id s' <> id).
  { intros k' s' Hk <-. apply used_elem in Hk. apply not_true_iff_false in Hn. destruct Hn. apply existsb_exists. exists (s_id s'). split; [by apply list_elem_of_In|apply Z.eqb_refl]. }
  split; [apply slots_insert; [done|done|intros k' s' Hk _; by eapply Hfree|done]|]. split_and!.
  - intros k' Hk. by rewrite lookup_insert_ne.
  - eexists. by rewrite lookup_insert_eq.
  - intros s Hs. right. eexists. rewrite lookup_insert_eq. split; [done|]. split; [done|]. specialize (Hi s Hs). rewrite Hi. cbn. intros ->. by apply (Hfree _ _ Hs).
Qed.
Lemma allocate_slot_ok m l o n sh addr : slots_ok m l -> let '(r, m') := allocate_slot m o n sh addr in slots_ok m' l /\ gives m m' (o, n) sh addr r.
Proof.
  intros Hm. unfold allocate_slot. destruct (m !! (o, n)) as [s|] eqn:E; [|apply fresh_slot_ok; [done|by rewrite E]].
  destruct ((s_shape s =? sh) && (s_addr s =? addr)) eqn:Et.
  - apply andb_true_iff in Et as [<-%Z.eqb_eq <-%Z.eqb_eq]. split; [done|]. split_and!; [done|by exists s|]. intros s' Hs. by left.
  - destruct (installed s) eqn:Ei; cbn [negb]; [apply fresh_slot_ok; [done|]; rewrite E; by intros s' [= <-]|]. split.
    + apply slots_insert; [done|exact (so_range _ _ Hm _ _ E)| |done]. intros k' s' Hk Hne Heq. apply Hne. exact (so_inj _ _ Hm _ _ _ _ Hk E Heq).
    + split_and!; [intros k' Hk; by rewrite lookup_insert_ne|eexists; by rewrite lookup_insert_eq|]. intros s' Hs. right. eexists. rewrite lookup_insert_eq. split; [done|].
      assert (s' = s) as -> by congruence. split; [done|]. by rewrite Ei.
Qed.

(** ** Hooks *)
(** A row of the registry: its slot is the one its plan names, its address was vetted. *)
Definition row_ok (m : gmap (string * string) Slot) (l : list Ask) (k : string * string) (d : Descriptor) : Prop :=
  match d with
  | Ready p addr _ _ => (exists s, m !! k = Some s /\ s_id s = hook_id p /\ s_shape s = shape p /\ s_addr s = addr) /\ hook_ok p /\ vetted l addr
  | Degraded _ => True
  end.
Definition rows_ok (r : gmap (string * string) Descriptor) (m : gmap (string * string) Slot) (l : list Ask) : Prop := forall k d, r !! k = Some d -> row_ok m l k d.
Lemma row_change m m' l l' k d : (exists q, l' = l ++ q) -> m' !! k = m !! k -> row_ok m l k d -> row_ok m' l' k d.
Proof. intros (q & ->) Hm. destruct d as [p addr b miss|]; [|done]. cbn. rewrite Hm. intros (Hs & Hp & Hv). split_and!; [done|done|by apply vetted_app]. Qed.
Lemma asks_grows l l' : asks l l' -> exists q, l' = l ++ q.
Proof. intros (q & -> & _). by exists q. Qed.

Lemma existsb_In s l : existsb (String.eqb s) l = true <-> s ∈ l.
Proof. rewrite existsb_exists. setoid_rewrite String.eqb_eq. rewrite list_elem_of_In. split; [by intros (x & ? & ->)|by exists s]. Qed.
Lemma filterb_once (l : list string) : (forall x, x ∈ l -> (length (filterb (String.eqb x) l) <= 1)%nat) -> NoDup l.
Proof.
  induction l as [|x l IH]; intros Hl; constructor.
  - intros Hin. specialize (Hl x ltac:(by left)). cbn in Hl. rewrite String.eqb_refl in Hl. cbn in Hl.
    assert (x ∈ filterb (String.eqb x) l) as Hf by (apply elem_of_filterb; split; [apply String.eqb_refl|done]). destruct (filterb _ l); [by apply elem_of_nil in Hf|cbn in Hl; lia].
  - apply IH. intros y Hy. specialize (Hl y ltac:(by right)). cbn in Hl. destruct (String.eqb y x); cbn in Hl; lia.
Qed.
Lemma check_params_ok (decl : Value) ps ws : check_params decl = inr (ps, ws) -> Forall (fun s => is_plain_ident s = true) ps /\ NoDup ps /\ length ws = length ps.
Proof.
  unfold check_params. intros E. succeeds. subst ps ws. rewrite length_fmap. rewrite reach_inr in Ok.
  assert (Hp : forall x, x ∈ GamedataCalls.str_list decl "params" -> is_plain_ident x = true /\ (length (filterb (String.eqb x) (GamedataCalls.str_list decl "params")) <= 1)%nat).
  { intros x Hx. specialize (Ok x Hx). unfold check_param in Ok. succeeds. split; [done|]. by apply Nat.leb_le. }
  split_and!; [|apply filterb_once; intros x Hx; by apply Hp|done]. apply Forall_forall. intros x Hx. by apply Hp.
Qed.
Lemma check_ok json names plan sh target bypass : check json names = inr (plan, sh, target, bypass) ->
  (forall id, hook_ok (plan id) /\ hook_id (plan id) = id /\ shape (plan id) = sh) /\ (exists x m, field target "validate" = Some (Object (x :: m))) /\
  (forall c, bypass = Some c -> c ∈ names).
Proof.
  unfold check. intros E. apply rbind_inr in E as (decl & _ & E). apply rbind_inr in E as (ctx & Ectx & E). apply rbind_inr in E as (sh' & Esh & E).
  apply rbind_inr in E as (u & Eval & E). apply rbind_inr in E as (b & Eb & E). apply rbind_inr in E as ([ps ws] & Ep & E). apply rbind_inr in E as (rc & Er & E).
  apply rbind_inr in E as (tg & Et & E). injection E as <- <- <- <-. apply require_inr in Eval. apply ok_or_inr in Et. apply check_params_ok in Ep as (Hi & Hd & Hl).
  split_and!.
  - intros id. split; [|done]. split; cbn; try done.
    + unfold check_shape in Esh. succeeds. apply json_get_In in Esh. exact (list_elem_of_fmap_2 snd _ _ Esh).
    + constructor; [|done]. unfold check_ctx in Ectx. succeeds. by subst.
    + unfold check_receiver in Er. cbv zeta in Er. intros r ->. destruct (String.eqb _ "none"); [done|]. destruct (String.eqb _ "entity"); [|done]. succeeds. subst.
      split; [done|]. intros Hin%existsb_In. match goal with Hn : negb _ = true |- _ => by rewrite Hin in Hn end.
  - unfold has_validate, path2 in Eval. rewrite Et in Eval. cbn in Eval. destruct (field tg "validate") as [v|]; [|done]. destruct v as [| | | | |[|x m]]; try done. by exists x, m.
  - intros c ->. unfold check_bypass in Eb. destruct (field decl "bypassWith"); [|done]. succeeds. subst. by apply existsb_In.
Qed.
Lemma hook_prepare_ok o n json names m l : slots_ok m l ->
  let '(r, (m', l')) := prepare o n json names (m, l) in
  slots_ok m' l' /\ asks l l' /\ (forall k, k <> (o, n) -> m' !! k = m !! k) /\
  (forall s, m !! (o, n) = Some s -> m' !! (o, n) = Some s \/ exists s', m' !! (o, n) = Some s' /\ moved s s') /\
  (forall p addr b miss, r = inr (p, addr, b) -> row_ok m' l' (o, n) (Ready p addr b miss) /\ (forall c, b = Some c -> c ∈ names)).
Proof.
  intros Hm. unfold prepare. rewrite bind_case. unfold lift at 1. destruct (check json names) as [e|[[[plan sh] target] bypass]] eqn:Ec; [split_and!; try done; by left|].
  rewrite bind_case. cbn [fst snd]. pose proof (via_engine_queries target l) as Hq. destruct (resolve_via_engine target l) as [[e|addr] l1] eqn:Ev; cbn [snd] in Hq.
  { split_and!; try done; [by eapply slots_asks|by left]. }
  rewrite bind_case. cbn [fst snd]. pose proof (allocate_slot_ok m l1 o n sh addr ltac:(by eapply slots_asks)) as Ha. destruct (allocate_slot m o n sh addr) as [[e|id] m'] eqn:Ea.
  { destruct Ha as [Ho (K & -> & S)]. by split_and!. }
  destruct Ha as [Ho (K & R & S)]. unfold lift. split_and!; try done. intros p a b miss [= <- <- <-].
  apply check_ok in Ec as (Hp & (x & om & Hval) & Hb). split; [|done]. destruct (Hp id) as (Hok & Hid & Hsh). cbn [row_ok]. rewrite Hid, Hsh. split_and!; [done|done|].
  apply via_engine_ok in Ev as (rq & cid & -> & ? & ? & Hrq). exists l, rq, cid, []. split_and!; [done..|]. exists x, om. rewrite Hrq. by rewrite Hval.
Qed.

(** What registering an owner's hooks does to the rows [r] and the slots [m]. *)
Record fills (owner : string) (names : list string) (r r' : gmap (string * string) Descriptor) (m m' : gmap (string * string) Slot) (l l' : list Ask) : Prop := {
  fl_slots : slots_ok m' l';
  fl_asks : asks l l';
  fl_keep : forall k, k.1 <> owner -> r' !! k = r !! k /\ m' !! k = m !! k;
  fl_moved : forall k s, m !! k = Some s -> m' !! k = Some s \/ exists s', m' !! k = Some s' /\ moved s s';
  fl_rows : rows_ok r m l -> rows_ok r' m' l';
  fl_bypass : forall k p a c miss, r' !! k = Some (Ready p a (Some c) miss) -> (k.1 = owner /\ c ∈ names) \/ r !! k = Some (Ready p a (Some c) miss);
}.
Lemma fills_refl owner names r m l : slots_ok m l -> fills owner names r r m m l l.
Proof. intros Hm. split; try done; [intros k s Hs; by left|intros; by right]. Qed.
Lemma fills_trans owner names r1 r2 r3 m1 m2 m3 l1 l2 l3 : fills owner names r1 r2 m1 m2 l1 l2 -> fills owner names r2 r3 m2 m3 l2 l3 -> fills owner names r1 r3 m1 m3 l1 l3.
Proof.
  intros [S1 A1 K1 F1 R1 B1] [S2 A2 K2 F2 R2 B2]. split; [done|by etrans| | |intros Hr; by apply R2, R1|].
  - intros k Hk. destruct (K1 k Hk) as [<- <-]. by apply K2.
  - intros k s Hk. destruct (F1 k s Hk) as [Hk2|(s2 & Hk2 & Hu2 & Hid2)]; [by apply F2|]. right. destruct (F2 k s2 Hk2) as [Hk3|(s3 & Hk3 & Hu3 & Hid3)]; [by exists s2|].
    exists s3. split; [done|]. split; [done|]. rewrite Hu2 in Hid3. by rewrite Hid3.
  - intros k p a c miss Hk. destruct (B2 _ _ _ _ _ Hk) as [?|Hk2]; [by left|]. exact (B1 _ _ _ _ _ Hk2).
Qed.
Lemma hook_fill_one owner entries sigs names s name : slots_ok s.2.1 s.2.2 ->
  let s' := fill_one owner entries sigs names s name in fills owner names s.1 s'.1 s.2.1 s'.2.1 s.2.2 s'.2.2.
Proof.
  destruct s as [r [m l]]. cbn [fst snd]. intros Hm. unfold fill_one. destruct (GamedataCalls.flatten_decl _ _) as [reason|decl]; cbn [fst snd].
  - split; try done.
    + intros k Hk. split; [|done]. rewrite lookup_insert_ne; [done|]. by intros <-.
    + intros k s Hs. by left.
    + intros Hr k d. rewrite lookup_insert_Some. intros [[<- <-]|[_ E]]; [done|by apply Hr].
    + intros k p a c miss. rewrite lookup_insert_Some. intros [[<- E]|[_ E]]; [done|by right].
  - pose proof (hook_prepare_ok owner name decl names m l Hm) as Hp. destruct (prepare owner name decl names (m, l)) as [res [m' l']]. destruct Hp as (Hs & Ha & K & S & R). cbn [fst snd].
    split; try done.
    + intros k Hk. split; [rewrite lookup_insert_ne; [done|by intros <-]|]. apply K. by intros ->.
    + intros k s Hk. destruct (decide (k = (owner, name))) as [->|Hne]; [by apply S|left; by rewrite K].
    + intros Hr k d. rewrite lookup_insert_Some. intros [[<- <-]|[Hne E]].
      * destruct res as [e|[[p a] b]]; [done|]. by apply R.
      * eapply row_change; [by apply asks_grows|by apply K|by apply Hr].
    + intros k p a c miss. rewrite lookup_insert_Some. intros [[<- E]|[_ E]]; [left; split; [done|]|by right].
      destruct res as [e|[[p' a'] b]]; [done|]. injection E as -> -> -> _. by destruct (R p a (Some c) None eq_refl) as [_ ?]; auto.
Qed.
Lemma hook_fill_loop owner entries sigs names ks : forall s, slots_ok s.2.1 s.2.2 ->
  let s' := foldl (fill_one owner entries sigs names) s ks in fills owner names s.1 s'.1 s.2.1 s'.2.1 s.2.2 s'.2.2.
Proof.
  induction ks as [|n ks IH]; intros s Hs; cbn [foldl]; [by apply fills_refl|]. pose proof (hook_fill_one owner entries sigs names s n Hs) as H1'. eapply fills_trans; [exact H1'|]. apply IH. apply H1'.
Qed.
Lemma hook_fill owner gd r m l : slots_ok m l -> let s := fill_owner r owner gd (m, l) in fills owner (call_names gd) r s.1 m s.2.1 l s.2.2.
Proof.
  intros Hm. unfold fill_owner. destruct (GamedataCalls.section gd "hooks") as [entries|]; [|by apply fills_refl].
  exact (hook_fill_loop owner entries (GamedataCalls.section gd "signatures") (call_names gd) (sort_strings entries.*1) (r, (m, l)) Hm).
Qed.

(** ** The invariant *)
Definition install_ok (l1 : list Ask) (id sh addr : Z) : Prop := 0 <= id < MAX_HOOKS /\ sh ∈ SHAPES.*2 /\ vetted l1 addr.
Definition installs_ok (l : list Ask) : Prop := forall l1 id sh addr rc l2, l = l1 ++ Install id sh addr rc :: l2 -> install_ok l1 id sh addr.
Notation reserved := GamedataCalls.is_reserved_owner.
Record inv (w : World) : Prop := {
  iv_calls : calls_ok (GamedataCalls.calls (declared w)) (asked w);
  iv_slots : slots_ok (slots w) (asked w);
  iv_rows : rows_ok (hooks w) (slots w) (asked w);
  iv_bypass : forall o n p a c miss, hooks w !! (o, n) = Some (Ready p a (Some c) miss) -> is_Some (GamedataCalls.calls (declared w) !! (o, c));
  iv_owner : forall o n d, hooks w !! (o, n) = Some d -> reserved o = true -> GamedataCalls.game_package_owner (declared w) = Some o;
  iv_asked : installs_ok (asked w);
}.
Lemma snoc_split {A} (l l1 l2 : list A) x y : l ++ [x] = l1 ++ y :: l2 -> (l2 = [] /\ l = l1 /\ x = y) \/ exists l2', l2 = l2' ++ [x] /\ l = l1 ++ y :: l2'.
Proof.
  destruct l2 as [|z l2 _] using rev_ind; intros E.
  - left. apply app_inj_tail in E as [-> ->]. done.
  - right. exists l2. change (y :: l2 ++ [z]) with ((y :: l2) ++ [z]) in E. rewrite app_assoc in E. apply app_inj_tail in E as [-> ->]. done.
Qed.
Lemma installs_snoc l a : installs_ok l -> (forall id sh addr rc, a = Install id sh addr rc -> install_ok l id sh addr) -> installs_ok (l ++ [a]).
Proof. intros Hl Ha l1 id sh addr rc l2 E. apply snoc_split in E as [(_ & -> & E)|(l2' & -> & E)]; [by eapply Ha|by eapply Hl]. Qed.
Lemma installs_asks l l' : asks l l' -> installs_ok l -> installs_ok l'.
Proof.
  intros (q & -> & Hq). revert Hq. induction q as [|a q IH] using rev_ind; [by rewrite app_nil_r|]. intros [Hq Ha]%Forall_app Hl. rewrite app_assoc. apply installs_snoc; [by apply IH|].
  apply Forall_inv in Ha. by intros id sh addr rc ->.
Qed.
Lemma rows_asks r m l l' : (exists q, l' = l ++ q) -> rows_ok r m l -> rows_ok r m l'.
Proof. intros Hq Hr k d Hk. eapply row_change; [done..|by apply Hr]. Qed.
Lemma gamedata_inv_init : inv init.
Proof.
  split; cbn [init declared hooks slots asked GamedataCalls.calls GamedataCalls.game_package_owner].
  - intros k p miss Hk. by rewrite lookup_empty in Hk.
  - split; [intros k s Hk|intros k k' s s' Hk|intros k s Hk]; by rewrite lookup_empty in Hk.
  - intros k d Hk. by rewrite lookup_empty in Hk.
  - intros o n p a c miss Hk. by rewrite lookup_empty in Hk.
  - intros o n d Hk. by rewrite lookup_empty in Hk.
  - intros l1 id sh addr rc l2 E. by destruct l1.
Qed.
(** Rows may go, and be annotated. *)
Lemma inv_sub w w' :
  inv w -> asked w' = asked w -> slots w' = slots w ->
  (forall k p miss, GamedataCalls.calls (declared w') !! k = Some (GamedataCalls.Ready p miss) -> exists miss', GamedataCalls.calls (declared w) !! k = Some (GamedataCalls.Ready p miss')) ->
  (forall k p a b miss, hooks w' !! k = Some (Ready p a b miss) -> exists miss', hooks w !! k = Some (Ready p a b miss')) ->
  (forall o n p a c miss, hooks w' !! (o, n) = Some (Ready p a (Some c) miss) -> is_Some (GamedataCalls.calls (declared w) !! (o, c)) -> is_Some (GamedataCalls.calls (declared w') !! (o, c))) ->
  (forall o n d, hooks w' !! (o, n) = Some d -> reserved o = true -> GamedataCalls.game_package_owner (declared w') = Some o) -> inv w'.
Proof.
  intros [C S R B O A] Ea Es Hc Hh Hb Ho. split; rewrite ?Ea, ?Es; try done.
  - intros k p miss Hk. destruct (Hc k p miss Hk) as [miss' Hk']. by eapply C.
  - intros k d Hk. destruct d as [p a b miss|]; [|done]. destruct (Hh k p a b miss Hk) as [miss' Hk']. exact (R k _ Hk').
  - intros o n p a c miss Hk. eapply Hb; [done|]. destruct (Hh _ _ _ _ _ Hk) as [miss' Hk']. by eapply B.
Qed.
Lemma inv_note_miss w o n reason : inv w -> inv (note_miss w o n reason).
Proof.
  intros Hi. unfold note_miss. destruct (hooks w !! (o, n)) as [[p a b miss|]|] eqn:E; try done. apply (inv_sub w); try done.
  - intros k p' miss' Hk. by eexists.
  - intros k p' a' b' miss'. cbn. rewrite lookup_insert_Some. intros [[<- [= <- <- <- _]]|[_ Hk]]; by eexists.
  - intros o' n' d. cbn. rewrite lookup_insert_Some. intros [[[= <- <-] _]|[_ Hk]]; by eapply (iv_owner _ Hi).
Qed.

Lemma gamedata_inv_load w id json : inv w -> inv (load_gamedata w id json).
Proof.
  intros [C S R B O A]. unfold load_gamedata, GamedataCalls.register_plugin, register_plugin. destruct (reserved id) eqn:Er; [by destruct w|].
  unfold GamedataCalls.register_owner, register_owner. destruct (from_str json) as [e|gd]; [by destruct w as [[? ?] ? ? ? ?]|].
  pose proof (call_fill (GamedataCalls.calls (declared w)) id gd (asked w) C) as Hc. destruct (GamedataCalls.fill_owner _ id gd (asked w)) as [r l1]. destruct Hc as (C1 & A1 & I1 & K1 & M1).
  cbn [set_declared hooks slots asked declared reported fst snd] in *. pose proof (hook_fill id gd (hooks w) (slots w) l1 (slots_asks _ _ _ A1 S)) as Hf.
  destruct (fill_owner (hooks w) id gd (slots w, l1)) as [r' [m' l2]]. destruct Hf as [S2 A2 K2 _ R2 B2]. cbn [fst snd] in *. split; cbn [declared hooks slots asked GamedataCalls.set_calls GamedataCalls.calls GamedataCalls.game_package_owner].
  - eapply asks_calls; [by apply asks_grows|done].
  - done.
  - apply R2. by eapply rows_asks; [apply asks_grows|].
  - intros o n p a c miss Hk. destruct (B2 _ _ _ _ _ Hk) as [[Ho Hin]|Hk']; [cbn in Ho; subst o; by apply I1|]. apply M1. by eapply B.
  - intros o n d Hk Ho. apply (O o n d); [|done]. rewrite <- (proj1 (K2 (o, n) ltac:(cbn; intros ->; congruence))). done.
  - eapply installs_asks; [|done]. by etrans.
Qed.
Lemma reserved_reserved id : reserved (GamedataCalls.reserved_owner_id id) = true.
Proof. unfold GamedataCalls.is_reserved_owner, GamedataCalls.reserved_owner_id, starts_with. by rewrite strip_prefix_app. Qed.
Lemma inv_commit w id gd prepared : inv w -> inv (commit_package w id gd prepared).
Proof.
  intros Hi. pose proof Hi as [C S R B O A]. unfold commit_package. cbv zeta. set (owner := GamedataCalls.reserved_owner_id id). destruct (GamedataCalls.game_package_owner (declared w)) as [o'|] eqn:Eo; [done|].
  assert (Hother : forall k d, hooks w !! k = Some d -> k.1 <> owner).
  { intros [o n] d Hk Hko. cbn in Hko. subst o. pose proof (O owner n d Hk (reserved_reserved id)) as E. discriminate E. }
  unfold GamedataCalls.prepare_game_package. assert (C0 : calls_ok ∅ (asked w)) by (intros k p miss Hk; by rewrite lookup_empty in Hk).
  pose proof (call_fill ∅ owner gd (asked w) C0) as Hc. destruct (GamedataCalls.fill_owner ∅ owner gd (asked w)) as [r l1]. destruct Hc as (C1 & A1 & I1 & K1 & _).
  unfold prepare_game_package. cbn [set_declared hooks slots asked declared reported fst snd] in *. pose proof (hook_fill owner gd ∅ (slots w) l1 (slots_asks _ _ _ A1 S)) as Hf.
  destruct (fill_owner ∅ owner gd (slots w, l1)) as [r' [m' l2]]. destruct Hf as [S2 A2 K2 _ R2 B2]. cbn [fst snd] in *.
  assert (A12 : asks (asked w) l2) by by etrans.
  assert (Hold : forall k d, hooks w !! k = Some d -> row_ok m' l2 k d).
  { intros k d Hk. eapply row_change; [by apply asks_grows| |by apply R]. by apply K2, (Hother k d). }
  assert (R0 : rows_ok ∅ (slots w) l1) by (intros k d Hk; by rewrite lookup_empty in Hk). specialize (R2 R0).
  destruct prepared; split; cbn [declared hooks slots asked commit_game_package drop_staged set_hooks set_declared GamedataCalls.commit_game_package GamedataCalls.calls GamedataCalls.game_package_owner].
  - intros k p miss [Hk|[_ Hk]]%lookup_union_Some_raw; [by eapply asks_calls; [apply asks_grows; exact A2|exact C1|]|by eapply asks_calls; [apply asks_grows; exact A12|exact C|]].
  - done.
  - intros k d [Hk|[_ Hk]]%lookup_union_Some_raw; [by apply R2|by apply Hold].
  - intros o n p a c miss [Hk|[_ Hk]]%lookup_union_Some_raw; apply lookup_union_is_Some.
    + left. destruct (B2 _ _ _ _ _ Hk) as [[Ho Hin]|Hk']; [cbn in Ho; subst o; by apply I1|by rewrite lookup_empty in Hk'].
    + right. by eapply B.
  - intros o n d [Hk|[_ Hk]]%lookup_union_Some_raw Ho.
    + destruct (decide (o = owner)) as [->|Hne]; [done|]. rewrite (proj1 (K2 (o, n) Hne)), lookup_empty in Hk. discriminate Hk.
    + pose proof (O o n d Hk Ho) as E. congruence.
  - by eapply installs_asks.
  - eapply asks_calls; [by apply asks_grows|done].
  - eapply slots_sub; [|exact S2]. intros k s Hk. by apply map_lookup_filter_Some in Hk as [? _].
  - intros k d Hk. eapply row_change; [exists []; by rewrite app_nil_r| |by apply Hold]. cbn. pose proof (Hother k d Hk) as Hne.
    destruct (m' !! k) as [s|] eqn:E; [apply map_lookup_filter_Some; split; [done|by left]|apply map_lookup_filter_None; by left].
  - done.
  - intros o n d Hk Ho. pose proof (O o n d Hk Ho) as E. congruence.
  - by eapply installs_asks.
Qed.

(** An owner goes: its rows of both registries are dropped. *)
Lemma inv_drop w owner c :
  inv w -> (forall k d, c.(GamedataCalls.calls) !! k = Some d -> GamedataCalls.calls (declared w) !! k = Some d) ->
  (forall k, k.1 <> owner -> is_Some (GamedataCalls.calls (declared w) !! k) -> is_Some (GamedataCalls.calls c !! k)) ->
  (forall o, o <> owner -> GamedataCalls.game_package_owner (declared w) = Some o -> GamedataCalls.game_package_owner c = Some o) ->
  inv (drop_owner (set_declared w c (asked w)) owner).
Proof.
  intros Hi Hc Hk Ho. apply (inv_sub w); try done; cbn [drop_owner set_declared hooks declared].
  - intros k p miss Hp. eexists. by apply Hc.
  - intros k p a b miss Hp%map_lookup_filter_Some. destruct Hp as [Hp _]. by eexists.
  - intros o n p a b miss [Hp Hne]%map_lookup_filter_Some. by apply Hk.
  - intros o n d [Hp Hne]%map_lookup_filter_Some Hr. apply Ho; [done|]. by eapply (iv_owner _ Hi).
Qed.
Lemma inv_teardown w id : inv w -> inv (teardown w id).
Proof.
  intros Hi. unfold teardown. apply inv_drop; [done|..]; cbn.
  - intros k d Hk%map_lookup_filter_Some. by destruct Hk.
  - intros k Hne [d Hk]. exists d. by apply map_lookup_filter_Some.
  - done.
Qed.
Lemma inv_clear w id : inv w -> inv (clear_package w id).
Proof.
  intros Hi. unfold clear_package. cbv zeta. set (owner := GamedataCalls.reserved_owner_id id). apply inv_drop; [done|..]; unfold GamedataCalls.clear_game_package; cbv zeta.
  - intros k d. case_bool_decide; cbn; intros Hk%map_lookup_filter_Some; by destruct Hk.
  - intros k Hne [d Hk]. exists d. case_bool_decide; cbn; by apply map_lookup_filter_Some.
  - intros o Hne Hg. case_bool_decide as E; [|done]. cbn in E. congruence.
Qed.
Lemma inv_subscribe w o n : inv w -> inv (subscribe w o n).1.
Proof.
  intros Hi. pose proof Hi as [C S R B O A]. unfold subscribe. destruct (hooks w !! (o, n)) as [[p a b miss|]|] eqn:E; [|done|done].
  destruct (is_installed w (o, n)) eqn:Ei; [done|]. destruct (R _ _ E) as ((s & Hs & Hid & Hsh & Ha) & Hp & Hv).
  unfold install_via_engine. rewrite bind_case. unfold lift at 1. destruct (hook_install (asked w)) as [f|]; cbn [ok_or].
  2:{ cbn [fst]. apply inv_note_miss. by destruct w. }
  destruct (f _ _ _) as [rc buf]. unfold GamedataCalls.ask. set (a0 := Install (hook_id p) (shape p) a rc).
  assert (Hnew : installs_ok (asked w ++ [a0])).
  { apply installs_snoc; [done|]. intros id sh addr rc' [= <- <- <- _]. split; [rewrite <- Hid; exact (so_range _ _ S _ _ Hs)|]. split; [apply Hp|exact Hv]. }
  assert (Hpat : forall s, patched (asked w) s -> patched (asked w ++ [a0]) s).
  { intros s' (l1 & l2 & El & Hr). exists l1, (l2 ++ [a0]). rewrite El, <- app_assoc. split; [done|]. set_solver. }
  assert (Hslots : slots_ok (slots w) (asked w ++ [a0])) by (split; [exact (so_range _ _ S)|exact (so_inj _ _ S)|intros k s' Hk Hins; apply Hpat; exact (so_patched _ _ S _ _ Hk Hins)]).
  assert (Hinv : inv (mkWorld (declared w) (hooks w) (slots w) (reported w) (asked w ++ [a0]))).
  { split; try done; cbn; [by eapply asks_calls; [eexists|]|by eapply rows_asks; [eexists|]]. }
  destruct (Z.eqb_spec rc 0) as [->|]; cbn [fst]; apply inv_note_miss; [|exact Hinv].
  unfold mark_installed. cbn [slots declared hooks reported asked]. rewrite Hs. destruct Hinv as [C' S' R' B' O' A']. split; try done; cbn in *.
  - apply slots_insert; [done|exact (so_range _ _ S _ _ Hs)| |].
    + intros k' s' Hk Hne Heq. apply Hne. exact (so_inj _ _ S _ _ _ _ Hk Hs Heq).
    + intros _. exists (asked w), []. cbn. rewrite Hid, Hsh, Ha. split; [done|]. apply not_elem_of_nil.
  - intros k d Hk. destruct d as [p' a' b' miss'|]; [|done]. destruct (R' k _ Hk) as ((s' & Hs' & Hx) & Hp' & Hv'). split_and!; [|done|done].
    destruct (decide (k = (o, n))) as [->|Hne]; [|exists s'; by rewrite lookup_insert_ne]. assert (s' = s) as -> by congruence. eexists. by rewrite lookup_insert_eq.
Qed.
Lemma gamedata_inv_step w op : inv w -> inv (step w op).
Proof.
  intros Hi. destruct op; cbn [step].
  - by apply gamedata_inv_load.
  - by apply inv_teardown.
  - by apply inv_commit.
  - by apply inv_clear.
  - by apply inv_subscribe.
  - by apply inv_note_miss.
  - unfold note_reentrant_skip. case_bool_decide; [done|]. apply inv_note_miss. by destruct Hi; split.
  - apply (inv_sub w); try done; cbn [set_declared declared]; unfold GamedataCalls.set_via_miss.
    + intros k p miss. destruct (GamedataCalls.calls (declared w) !! _) as [[p0 miss0|]|] eqn:E; [|by eexists..]. cbn. rewrite lookup_insert_Some. intros [[<- [= <- _]]|[_ Hk]]; by eexists.
    + intros k p a b miss Hk. by eexists.
    + intros o n p a c miss _ Hs. destruct (GamedataCalls.calls (declared w) !! (plugin_id, name)) as [[p0 miss0|]|] eqn:E; try done. cbn. destruct (decide ((o, c) = (plugin_id, name))) as [->|Hne]; [by rewrite lookup_insert_eq|by rewrite lookup_insert_ne].
    + intros o n d Hk Hr. pose proof (iv_owner _ Hi _ _ _ Hk Hr). by destruct (GamedataCalls.calls (declared w) !! _) as [[p0 miss0|]|].
  - destruct Hi as [C S R B O A]. split; cbn.
    + by eapply asks_calls; [eexists|].
    + split; [intros k s Hk|intros k k' s s' Hk|intros k s Hk]; by rewrite lookup_empty in Hk.
    + intros k d Hk. by rewrite lookup_empty in Hk.
    + intros o n p a c miss Hk. by rewrite lookup_empty in Hk.
    + intros o n d Hk. by rewrite lookup_empty in Hk.
    + by apply installs_snoc.
Qed.
Lemma gamedata_inv_run ops : inv (run ops).
Proof. unfold run. generalize gamedata_inv_init. generalize init. induction ops as [|op ops IH]; intros w Hw; [done|]. cbn. by apply IH, gamedata_inv_step. Qed.

(** ** Lookups *)
Lemma hook_for_id_spec w id k : inv w -> hook_for_id w id = Some k <-> exists s, slots w !! k = Some s /\ s_id s = id /\ installed s = true.
Proof.
  intros Hi. unfold hook_for_id. rewrite fmap_Some. split.
  - intros ([k' s] & Hf & ->). apply find_some in Hf as [Hin Hb]. apply list_elem_of_In, elem_of_map_to_list in Hin. apply andb_true_iff in Hb as [Hid%Z.eqb_eq Hs]. by exists s.
  - intros (s & Hk & Hid & Hs). destruct (find _ _) as [[k' s']|] eqn:Hf.
    + apply find_some in Hf as [Hin Hb]. apply list_elem_of_In, elem_of_map_to_list in Hin. apply andb_true_iff in Hb as [Hid'%Z.eqb_eq _]. cbn in Hid'.
      exists (k', s'). split; [done|]. cbn. exact (so_inj _ _ (iv_slots _ Hi) _ _ _ _ Hk Hin ltac:(congruence)).
    + exfalso. pose proof (find_none _ _ Hf (k, s)) as Hn. cbn in Hn. rewrite Hid, Z.eqb_refl, Hs in Hn. discriminate Hn. by apply list_elem_of_In, elem_of_map_to_list.
Qed.
Lemma bypass_id_spec w o c k d id : bypass_id w o c (k, d) = Some id <->
  k.1 = o /\ exists p a miss s, d = Ready p a (Some c) miss /\ id = hook_id p /\ slots w !! k = Some s /\ installed s = true.
Proof.
  destruct k as [o' n]. unfold bypass_id. destruct (String.eqb_spec o' o) as [->|Hne]; cbn [negb fst]; [|split; [done|by intros [? _]]].
  destruct d as [p a b miss|]; [|split; [done|by intros (_ & ? & ? & ? & ? & ? & _)]]. unfold is_installed. split.
  - case_bool_decide as Hb; [|done]. subst b. cbn [andb]. destruct (slots w !! (o, n)) as [s|] eqn:E; [|done]. destruct (installed s) eqn:Ei; [|done]. intros [= <-]. split; [done|]. by exists p, a, miss, s.
  - intros (_ & p' & a' & miss' & s & [= -> -> -> ->] & -> & Hs & Hi). rewrite bool_decide_eq_true_2 by done. by rewrite Hs, Hi.
Qed.
Lemma bypass_elem w o c id : inv w -> id ∈ bypass_ids_for_call w o c <->
  exists n p a miss, hooks w !! (o, n) = Some (Ready p a (Some c) miss) /\ hook_for_id w id = Some (o, n).
Proof.
  intros Hi. unfold bypass_ids_for_call. rewrite list_elem_of_omap. setoid_rewrite (hook_for_id_spec w id _ Hi). split.
  - intros ([[o' n] d] & Hin & Hb). apply elem_of_map_to_list in Hin. apply bypass_id_spec in Hb as (Ho & p & a & miss & s & -> & -> & Hs & Hins). cbn in Ho. subst o'.
    exists n, p, a, miss. split; [done|]. exists s. split_and!; try done. destruct (iv_rows _ Hi _ _ Hin) as ((s' & Hs' & Hid & _) & _). congruence.
  - intros (n & p & a & miss & Hk & s & Hs & Hid & Hins). exists ((o, n), Ready p a (Some c) miss). split; [by apply elem_of_map_to_list|]. apply bypass_id_spec. split; [done|].
    exists p, a, miss, s. split_and!; try done. destruct (iv_rows _ Hi _ _ Hk) as ((s' & Hs' & Hid' & _) & _). congruence.
Qed.

(** ** Installed slots stay *)
Lemma slots_note_miss w o n reason : slots (note_miss w o n reason) = slots w.
Proof. unfold note_miss. by destruct (hooks w !! (o, n)) as [[]|]. Qed.
Lemma fills_frozen owner names r r' m m' l l' k s : fills owner names r r' m m' l l' -> m !! k = Some s -> installed s = true ->
  m' !! k = Some s \/ (owner = k.1 /\ forall s', m' !! k = Some s' -> s_id s' <> s_id s /\ installed s' = false).
Proof.
  intros [_ _ K M _ _] Hk Hins. destruct (decide (k.1 = owner)) as [Ho|Hne]; [|left; by rewrite (proj2 (K k Hne))].
  destruct (M k s Hk) as [?|(s' & Hs' & Hu & Hid)]; [by left|]. right. split; [done|]. rewrite Hins in Hid. intros s'' Hs''. assert (s'' = s') as -> by congruence. done.
Qed.
Lemma load_frozen w k s id json : inv w -> slots w !! k = Some s -> installed s = true ->
  slots (load_gamedata w id json) !! k = Some s \/ (id = k.1 /\ forall s', slots (load_gamedata w id json) !! k = Some s' -> s_id s' <> s_id s /\ installed s' = false).
Proof.
  intros [C S _ _ _ _] Hk Hins. unfold load_gamedata, GamedataCalls.register_plugin, register_plugin. destruct (reserved id); [by left|].
  unfold GamedataCalls.register_owner, register_owner. destruct (from_str json) as [e|gd]; [by left|].
  pose proof (call_fill (GamedataCalls.calls (declared w)) id gd (asked w) C) as Hc. destruct (GamedataCalls.fill_owner _ id gd (asked w)) as [r l1]. destruct Hc as (_ & A1 & _).
  cbn [set_declared hooks slots asked declared reported fst snd] in *. pose proof (hook_fill id gd (hooks w) (slots w) l1 (slots_asks _ _ _ A1 S)) as Hf.
  destruct (fill_owner (hooks w) id gd (slots w, l1)) as [r' [m' l2]]. exact (fills_frozen _ _ _ _ _ _ _ _ _ _ Hf Hk Hins).
Qed.
Lemma commit_frozen w k s id gd prepared : inv w -> slots w !! k = Some s -> installed s = true ->
  let w' := commit_package w id gd prepared in
  slots w' !! k = Some s \/ (GamedataCalls.reserved_owner_id id = k.1 /\ forall s', slots w' !! k = Some s' -> s_id s' <> s_id s /\ installed s' = false).
Proof.
  intros [C S _ _ _ _] Hk Hins. unfold commit_package. cbv zeta. set (owner := GamedataCalls.reserved_owner_id id). destruct (GamedataCalls.game_package_owner (declared w)) as [o'|]; [by left|].
  unfold GamedataCalls.prepare_game_package. assert (C0 : calls_ok ∅ (asked w)) by (intros k' p miss Hk'; by rewrite lookup_empty in Hk').
  pose proof (call_fill ∅ owner gd (asked w) C0) as Hc. destruct (GamedataCalls.fill_owner ∅ owner gd (asked w)) as [r l1]. destruct Hc as (_ & A1 & _).
  unfold prepare_game_package. cbn [set_declared hooks slots asked declared reported fst snd] in *. pose proof (hook_fill owner gd ∅ (slots w) l1 (slots_asks _ _ _ A1 S)) as Hf.
  destruct (fill_owner ∅ owner gd (slots w, l1)) as [r' [m' l2]]. pose proof (fills_frozen _ _ _ _ _ _ _ _ _ _ Hf Hk Hins) as Hfr. cbn [fst snd] in Hfr.
  destruct prepared; cbn [slots commit_game_package set_hooks set_declared drop_staged]; [exact Hfr|]. destruct Hfr as [Hs|[Ho Hs]].
  - left. apply map_lookup_filter_Some. split; [done|by right].
  - right. split; [done|]. intros s' [Hs' _]%map_lookup_filter_Some. by apply Hs.
Qed.
Lemma subscribe_frozen w o n k s : slots w !! k = Some s -> installed s = true -> slots (subscribe w o n).1 !! k = Some s.
Proof.
  intros Hk Hins. unfold subscribe. destruct (hooks w !! (o, n)) as [[p a b miss|]|]; [|done|done]. destruct (is_installed w (o, n)) eqn:Ei; [done|].
  destruct (install_via_engine _ _ _ _) as [[e|u] l]; cbn [fst]; rewrite slots_note_miss; [done|]. unfold mark_installed. cbn [slots].
  destruct (slots w !! (o, n)) as [s'|] eqn:E; [|done]. cbn. rewrite lookup_insert_ne; [done|]. intros <-. unfold is_installed in Ei. rewrite E in Ei. congruence.
Qed.

(** ** Properties *)

(** C14. Every hook slot is one of the shim's 64, no two share an id, and one marked installed was patched at
    its address and shape since the last reset; the plan of an available hook is its slot's, has a thunk and
    spells plain identifiers; and a dispatch from the engine finds exactly the hook of its installed slot. *)
Theorem hook_slots_exact (ops : list (Op (num := num))) :
  let w := run ops in
  (forall k s, slots w !! k = Some s -> 0 <= s_id s < MAX_HOOKS /\ (installed s = true -> patched (asked w) s)) /\
  (forall k k' s s', slots w !! k = Some s -> slots w !! k' = Some s' -> s_id s = s_id s' -> k = k') /\
  (forall k p a c miss, hooks w !! k = Some (Ready p a c miss) -> hook_ok p /\ exists s, slots w !! k = Some s /\ s_id s = hook_id p /\ s_shape s = shape p /\ s_addr s = a) /\
  (forall id k, hook_for_id w id = Some k <-> exists s, slots w !! k = Some s /\ s_id s = id /\ installed s = true).
Proof.
  intros w. pose proof (gamedata_inv_run ops) as Hi. fold w in Hi. split_and!.
  - intros k s Hk. split; [exact (so_range _ _ (iv_slots _ Hi) _ _ Hk)|exact (so_patched _ _ (iv_slots _ Hi) _ _ Hk)].
  - exact (so_inj _ _ (iv_slots _ Hi)).
  - intros k p a c miss Hk. by destruct (iv_rows _ Hi _ _ Hk) as (Hs & Hp & _).
  - intros id k. by apply hook_for_id_spec.
Qed.

(** C18. The shim is asked to patch only an address it resolved before, from a target that says how to validate
    it, with an id it has and a shape there is a thunk for. *)
Theorem hook_install_validated (ops : list (Op (num := num))) l1 id sh addr rc l2 :
  asked (run ops) = l1 ++ Install id sh addr rc :: l2 -> 0 <= id < MAX_HOOKS /\ sh ∈ SHAPES.*2 /\ vetted l1 addr.
Proof. intros E. exact (iv_asked _ (gamedata_inv_run ops) _ _ _ _ _ _ E). Qed.

(** Which calls may point the hooks of an owner elsewhere. *)
Definition registers (op : Op (num := num)) (owner : string) : Prop :=
  match op with RegisterPlugin id _ => id = owner | CommitPackage id _ _ => GamedataCalls.reserved_owner_id id = owner | _ => False end.

(** C19. An installed slot is never pointed elsewhere. Short of a reset it stays as it is until its own owner
    registers again; a hook that then resolves elsewhere gets another id, not installed, or none at all. *)
Theorem hook_slot_frozen (ops : list (Op (num := num))) op k s :
  let w := run ops in
  slots w !! k = Some s -> installed s = true -> op <> ResetAll ->
  slots (step w op) !! k = Some s \/ (registers op k.1 /\ forall s', slots (step w op) !! k = Some s' -> s_id s' <> s_id s /\ installed s' = false).
Proof.
  intros w Hk Hins Hop. pose proof (gamedata_inv_run ops) as Hi. fold w in Hi. clearbody w. destruct op; cbn [step registers]; try (by left).
  - exact (load_frozen w k s id gamedata_json Hi Hk Hins).
  - exact (commit_frozen w k s id gd prepared Hi Hk Hins).
  - left. by apply subscribe_frozen.
  - left. by rewrite slots_note_miss.
  - left. unfold note_reentrant_skip. case_bool_decide; [done|]. by rewrite slots_note_miss.
Qed.

(** C32. A call of an owner arms exactly the latches of that owner's hooks that name it and are installed, each
    once; the detour of such a latch dispatches to the hook it belongs to; and the call it bypasses for is
    declared by the same owner. *)
Theorem hook_bypass_exact (ops : list (Op (num := num))) owner call :
  let w := run ops in
  NoDup (bypass_ids_for_call w owner call) /\
  (forall id, id ∈ bypass_ids_for_call w owner call <->
     exists n p a miss, hooks w !! (owner, n) = Some (Ready p a (Some call) miss) /\ hook_for_id w id = Some (owner, n)) /\
  (bypass_ids_for_call w owner call <> [] -> is_Some (GamedataCalls.calls (declared w) !! (owner, call))).
Proof.
  intros w. pose proof (gamedata_inv_run ops) as Hi. fold w in Hi. split_and!.
  - apply NoDup_omap_inj; [apply NoDup_map_to_list|]. intros [k1 d1] [k2 d2] id H1' H2' E1 E2. apply elem_of_map_to_list in H1', H2'.
    apply bypass_id_spec in E1 as (_ & p1 & a1 & m1 & s1 & -> & -> & Hs1 & _). apply bypass_id_spec in E2 as (_ & p2 & a2 & m2 & s2 & -> & Eid & Hs2 & _).
    destruct (iv_rows _ Hi _ _ H1') as ((t1 & Ht1 & Hid1 & _) & _). destruct (iv_rows _ Hi _ _ H2') as ((t2 & Ht2 & Hid2 & _) & _).
    assert (k1 = k2) as -> by (eapply (so_inj _ _ (iv_slots _ Hi)); [done..|congruence]). congruence.
  - intros id. by apply bypass_elem.
  - intros Hne. destruct (bypass_ids_for_call w owner call) as [|id l] eqn:E; [done|].
    assert (id ∈ bypass_ids_for_call w owner call) as Hin by (rewrite E; by left). apply bypass_elem in Hin as (n & p & a & miss & Hk & _); [|done]. exact (iv_bypass _ Hi _ _ _ _ _ _ Hk).
Qed.

(** Every available engine call is bound to a target the shim resolved and fits its call frame: known
    arguments, at most 9 in integer slots and 8 in float slots, a known result, a receiver reached by at most
    four hops of which only the last follows a pointer, and none at all for a static or an interface call. *)
Theorem call_plans_fit (ops : list (Op (num := num))) k p miss :
  GamedataCalls.calls (declared (run ops)) !! k = Some (GamedataCalls.Ready p miss) -> call_ok p /\ exists rq, Resolve rq (GamedataCalls.call_id p) ∈ asked (run ops).
Proof. exact (iv_calls _ (gamedata_inv_run ops) k p miss). Qed.

(** ** Lifting *)
Notation Map := (list (string * Value)).
Lemma insert_same (m : Map) k v : OrderedMap.ordered m -> get m k = Some v -> Json.insert k v m = m.
Proof.
  unfold OrderedMap.ordered. induction m as [|[k' v'] m IH]; [done|]. intros Hm Hg. cbn in Hm, Hg |- *. apply StronglySorted_inv in Hm as [Hm Hk].
  destruct (String.eqb_spec k k') as [->|Hne]; [congruence|]. rewrite bool_decide_false; [by rewrite IH|]. intros Hle. apply json_get_In, (list_elem_of_fmap_2 fst) in Hg.
  rewrite Forall_forall in Hk. destruct (Hk _ Hg) as [Hle' Hne']. apply Hne'. by apply (anti_symm String.le).
Qed.
Lemma get_lift_keys keys (spec : Value) (t : Map) k :
  get (GamedataCalls.lift_keys keys spec t) k = match (if decide (k ∈ keys) then field spec k else None) with Some v => Some v | None => get t k end.
Proof.
  revert t. induction keys as [|k0 keys IH]; intros t; cbn; [by rewrite decide_False by apply not_elem_of_nil|].
  unfold GamedataCalls.lift_keys in IH. rewrite IH. destruct (decide (k ∈ keys)) as [Hin|Hni].
  - rewrite decide_True by (by right). destruct (field spec k) as [v|] eqn:E; [done|]. destruct (field spec k0) as [v0|] eqn:E0; [|done]. rewrite json_get_insert. destruct (String.eqb_spec k k0); congruence.
  - destruct (decide (k = k0)) as [->|Hne].
    + rewrite decide_True by (by left). destruct (field spec k0) as [v|]; [|done]. by rewrite json_get_insert, String.eqb_refl.
    + rewrite decide_False by (rewrite not_elem_of_cons; done). destruct (field spec k0); [|done]. rewrite json_get_insert. by destruct (String.eqb_spec k k0).
Qed.
Lemma lift_keys_ordered keys (spec : Value) (t : Map) : OrderedMap.ordered t -> OrderedMap.ordered (GamedataCalls.lift_keys keys spec t).
Proof. revert t. induction keys as [|k keys IH]; intros t Ht; cbn; [done|]. apply IH. destruct (field spec k); [by apply OrderedMap.insert_ordered|done]. Qed.
Lemma lift_keys_same keys (spec : Value) (t : Map) :
  OrderedMap.ordered t -> (forall k v, k ∈ keys -> field spec k = Some v -> get t k = Some v) -> GamedataCalls.lift_keys keys spec t = t.
Proof.
  intros Ht. induction keys as [|k keys IH]; intros Hk; cbn; [done|]. destruct (field spec k) as [v|] eqn:E.
  - rewrite (insert_same t k v Ht) by (apply Hk; [by left|done]). apply IH. intros k' v' Hin. apply Hk. by right.
  - apply IH. intros k' v' Hin. apply Hk. by right.
Qed.
(** The keys that say where to look are not among the lifted ones. *)
Lemma lift_keys_other keys (spec : Value) (t : Map) k : k ∉ keys -> get (GamedataCalls.lift_keys keys spec t) k = get t k.
Proof. intros Hk. rewrite get_lift_keys. by rewrite decide_False. Qed.
Lemma lift_keys_twice keys (spec : Value) (t : Map) : OrderedMap.ordered t ->
  GamedataCalls.lift_keys keys spec (GamedataCalls.lift_keys keys spec t) = GamedataCalls.lift_keys keys spec t.
Proof. intros Ht. apply lift_keys_same; [by apply lift_keys_ordered|]. intros k v Hin Hv. rewrite get_lift_keys, decide_True by done. by rewrite Hv. Qed.

Definition str_at (t : Map) (k : string) : option string := v ← get t k; as_str v.
(** [validate] is lifted only where there is none. *)
Definition with_validate (spec : Value) (t : Map) : Map := if contains_key t "validate" then t else GamedataCalls.lift_keys ["validate"] spec t.
Lemma with_validate_twice (spec : Value) (t : Map) : OrderedMap.ordered t -> with_validate spec (with_validate spec t) = with_validate spec t.
Proof.
  intros Ht. unfold with_validate at 2 3. destruct (contains_key t "validate") eqn:E1; [unfold with_validate; by rewrite E1|].
  unfold with_validate. destruct (contains_key (GamedataCalls.lift_keys ["validate"] spec t) "validate"); [done|]. by apply lift_keys_twice.
Qed.
Lemma flatten_target_signature (t : Map) signatures : default "" (str_at t "kind") = "signature" ->
  GamedataCalls.flatten_target t signatures =
  (if match str_at t "pattern" with Some p => negb (is_empty p) | None => false end then inr t
   else
     let name := default "" (str_at t "name") in
     let* _ := require (negb (is_empty name)) "signature target has no name" in
     let* spec := ok_or (m ← signatures; v ← get m name; field v GamedataCalls.PLATFORM) ("no '" +:+ GamedataCalls.PLATFORM +:+ "' entry for signature '" +:+ name +:+ "'") in
     inr (with_validate spec (GamedataCalls.lift_keys ["module"; "pattern"; "resolve"] spec t))).
Proof. intros E. unfold GamedataCalls.flatten_target. unfold str_at in *. by rewrite E. Qed.
Lemma flatten_signature_idempotent (t t' : Map) signatures : OrderedMap.ordered t -> default "" (str_at t "kind") = "signature" ->
  GamedataCalls.flatten_target t signatures = inr t' -> OrderedMap.ordered t' /\ GamedataCalls.flatten_target t' signatures = inr t'.
Proof.
  intros Ht Ek E. pose proof E as E0. rewrite flatten_target_signature in E by done. destruct (match str_at t "pattern" with Some p => _ | None => _ end) eqn:Ein; [injection E as <-; by split|]. clear E0. cbv zeta in E.
  apply rbind_inr in E as (u & Hname & E). apply rbind_inr in E as (spec & Hspec & E). injection E as <-. set (t1 := GamedataCalls.lift_keys ["module"; "pattern"; "resolve"] spec t). assert (Ht1 : OrderedMap.ordered t1) by by apply lift_keys_ordered.
  assert (Hget : forall k, k <> "validate" -> get (with_validate spec t1) k = get t1 k).
  { intros k Hk. unfold with_validate. destruct (contains_key t1 "validate"); [done|]. apply lift_keys_other. rewrite list_elem_of_singleton. done. }
  assert (Hsame : forall k, k ∉ ["module"; "pattern"; "resolve"; "validate"] -> str_at (with_validate spec t1) k = str_at t k).
  { intros k Hk. unfold str_at. rewrite Hget by set_solver. subst t1. by rewrite lift_keys_other by set_solver. }
  assert (Hord : OrderedMap.ordered (with_validate spec t1)) by (unfold with_validate; destruct (contains_key t1 "validate"); [done|by apply lift_keys_ordered]).
  split; [done|]. rewrite flatten_target_signature by (rewrite Hsame; [done|]; cbv; set_solver). destruct (match str_at (with_validate spec t1) "pattern" with Some p => _ | None => _ end); [done|].
  cbv zeta. rewrite Hsame by (cbv; set_solver). rewrite Hname. cbn [rbind]. rewrite Hspec. cbn [rbind]. f_equal.
  rewrite (lift_keys_same ["module"; "pattern"; "resolve"]); [|done|].
  - by apply with_validate_twice.
  - intros k v Hin Hv. rewrite Hget by (intros ->; set_solver). subst t1. rewrite get_lift_keys, decide_True by done. by rewrite Hv.
Qed.
Lemma flatten_target_idempotent (t t' : Map) signatures : OrderedMap.ordered t ->
  GamedataCalls.flatten_target t signatures = inr t' -> OrderedMap.ordered t' /\ GamedataCalls.flatten_target t' signatures = inr t'.
Proof.
  intros Ht E. destruct (String.eqb_spec (default "" (str_at t "kind")) "signature") as [Es|Es]; [by eapply flatten_signature_idempotent|].
  unfold GamedataCalls.flatten_target in *. fold (str_at t "kind") in E. destruct (String.eqb_spec (default "" (str_at t "kind")) "signature"); [done|].
  destruct (String.eqb_spec (default "" (str_at t "kind")) "vtable") as [Ev|]; [|done]. apply rbind_inr in E as (plat & Hp & E).
  assert (t' = GamedataCalls.lift_keys ["index"; "validate"] plat t) as -> by congruence. split; [by apply lift_keys_ordered|]. cbv zeta. rewrite lift_keys_other by (cbv; set_solver). fold (str_at t "kind"). rewrite Ev. cbn [String.eqb Ascii.eqb Bool.eqb].
  rewrite lift_keys_other by (cbv; set_solver). rewrite Hp. cbn [rbind]. by rewrite lift_keys_twice.
Qed.

(** Lifting the details of the platform into a declaration is idempotent: under the same signatures, one
    that was already flattened comes back unchanged. *)
Theorem flatten_idempotent (m : Map) (t : Map) signatures (out : Value) :
  OrderedMap.ordered m -> get m "target" = Some (Object t) -> OrderedMap.ordered t ->
  GamedataCalls.flatten (Object m) signatures = inr out -> GamedataCalls.flatten out signatures = inr out.
Proof.
  intros Hm Hg Ht E. unfold GamedataCalls.flatten in E. rewrite Hg in E. cbn in E. apply rbind_inr in E as (t' & Et & E). injection E as <-.
  destruct (flatten_target_idempotent t t' signatures Ht Et) as [_ Et']. cbn. rewrite json_get_insert, String.eqb_refl. cbn. rewrite Et'. cbn. do 2 f_equal.
  apply insert_same; [by apply OrderedMap.insert_ordered|]. by rewrite json_get_insert, String.eqb_refl.
Qed.
End Gamedata.
End GamedataProperties.

Module GamedataExamples.
Import JsonExamples GamedataProperties.

(** Documents by name. *)
Definition target (pattern : string) : Json.Value num :=
  Object [("kind", String_ "signature"); ("pattern", String_ pattern); ("validate", Object [("prologue", String_ "55")])].
Definition hook (pattern : string) : Json.Value num :=
  Object [("bypassWith", String_ "end"); ("expose", Object [("ctx", String_ "round")]); ("mutable", Array [String_ "delay"]);
          ("params", Array [String_ "delay"; String_ "reason"]); ("shape", String_ "this_f32_i32_i32_i32"); ("target", target pattern)].
Definition call : Json.Value num := Object [("args", Array [String_ "float"; String_ "int"; String_ "entity"]); ("target", target "90 90 90")].
Definition gamedata (pattern : string) : Json.Value num := Object [("calls", Object [("end", call)]); ("hooks", Object [("onEnd", hook pattern)])].
Definition documents : list (string * Json.Value num) :=
  [("old", gamedata "55"); ("new", gamedata "55 48"); ("other", gamedata "55 48 89"); ("h1", hook "55"); ("h2", hook "55 48"); ("h3", hook "55 48 89"); ("c", call);
   ("v", Object [("prologue", String_ "55")])].
#[export] Instance printing : Printing num := {
  from_str s := match get documents s with Some v => inr v | None => inl "expected value" end;
  to_string v := match find (fun kv => value_eqb kv.2 v) documents with Some kv => kv.1 | None => "?" end;
}.
(** A shim with one place per pattern, and one detour per id and per place. *)
Definition refuses (id addr : Z) (a : Ask) : bool :=
  match a with Install id' _ addr' 0 => negb (Bool.eqb (id =? id') (addr =? addr')) | _ => false end.
#[export] Instance ops : Ops := {
  engine_call_resolve _ := Some (fun rq => (Z.of_nat (String.length (rq_pattern rq)), ""));
  engine_call_address _ := Some (fun id => 4096 * id);
  engine_call_bind_interface _ := Some (fun _ _ _ => (0, ""));
  hook_install l := Some (fun id _ addr => if existsb (refuses id addr) l then (1, "hook id is already installed on a different target") else (0, ""));
}.

(** Loaded and subscribed; the second subscriber asks for nothing. *)
Definition installed_ops : list (Op (num := num)) := [RegisterPlugin "p" "old"; Subscribe "p" "onEnd"; Subscribe "p" "onEnd"].
Example installed_once : (filterb (fun a => match a with Install _ _ _ _ => true | _ => false end) (asked (run installed_ops)), slots (run installed_ops) !! ("p", "onEnd"))
  = ([Install 0 1 8192 0], Some (mkSlot 0 1 8192 true)).
Proof. vm_compute. reflexivity. Qed.
Example armed : bypass_ids_for_call (run installed_ops) "p" "end" = [0].
Proof. vm_compute. reflexivity. Qed.
Example plan_of_call : GamedataCalls.plan_of (declared (run installed_ops)) "p" "end" = Some (GamedataCalls.mkPlan 8 ["float"; "int"; "entity"] 0 [] false None).
Proof. vm_compute. reflexivity. Qed.

(** The plugin is updated and its hook moves: it gets id 1, and id 0 counts as free although its detour stays.
    The next hook of any plugin is given id 0, and the shim refuses it for good. *)
Definition moved_ops : list (Op (num := num)) :=
  installed_ops ++ [UnloadPlugin "p"; RegisterPlugin "p" "new"; Subscribe "p" "onEnd"; RegisterPlugin "q" "other"; Subscribe "q" "onEnd"].
Example orphaned_id : (status (run moved_ops) "p" "onEnd", status (run moved_ops) "q" "onEnd", slots (run moved_ops) !! ("q", "onEnd"))
  = ("available", "hook id is already installed on a different target", Some (mkSlot 0 1 32768 false)).
Proof. vm_compute. reflexivity. Qed.

Lemma hook_install_validated_witness : 0 <= 0 < MAX_HOOKS /\ 1 ∈ SHAPES.*2 /\ vetted [Resolve (mkRequest "signature" "" "90 90 90" "" "" (-1) "v") 8; Resolve (mkRequest "signature" "" "55" "" "" (-1) "v") 2; Address 2 8192] 8192.
Proof. apply (hook_install_validated installed_ops _ 0 1 8192 0 []). vm_compute. reflexivity. Defined.
Lemma hook_slot_frozen_witness : slots (step (run installed_ops) (RegisterPlugin "p" "new")) !! ("p", "onEnd") = Some (mkSlot 0 1 8192 true) \/
  (registers (num := num) (RegisterPlugin "p" "new") "p" /\ forall s', slots (step (run installed_ops) (RegisterPlugin "p" "new")) !! ("p", "onEnd") = Some s' -> s_id s' <> 0 /\ installed s' = false).
Proof. apply (hook_slot_frozen installed_ops (RegisterPlugin "p" "new") ("p", "onEnd") (mkSlot 0 1 8192 true)); [vm_compute; reflexivity|reflexivity|discriminate]. Defined.
Lemma hook_bypass_exact_witness : is_Some (GamedataCalls.calls (declared (run installed_ops)) !! ("p", "end")).
Proof. apply (hook_bypass_exact installed_ops "p" "end"). vm_compute. discriminate. Defined.
Lemma hook_slots_exact_witness : exists s, slots (run installed_ops) !! ("p", "onEnd") = Some s /\ s_id s = 0 /\ installed s = true.
Proof. apply (hook_slots_exact installed_ops). vm_compute. reflexivity. Defined.
Lemma call_plans_fit_witness : call_ok (GamedataCalls.mkPlan 8 ["float"; "int"; "entity"] 0 [] false None) /\ exists rq, Resolve rq 8 ∈ asked (run installed_ops).
Proof. apply (call_plans_fit installed_ops ("p", "end") (GamedataCalls.mkPlan 8 ["float"; "int"; "entity"] 0 [] false None) None). vm_compute. reflexivity. Defined.
End GamedataExamples.
