(* ===== verification/HookDispatch.v ===== *)
(** Dispatch of the hooks plugins declare (core/src/v8host.rs, "Declarative inbound hooks").

    The detour of a slot calls [dispatch_hook] with the frame of its arguments, which dies when it returns.
    Each subscriber gets a view of the frame: accessors that carry the index of a parameter and the epoch of
    the dispatch. A handler may keep a view, and may make the engine call another hooked function. The
    machine at the end lets JavaScript use any view it was ever given, between any two steps of the
    dispatches under way. The shim's accessors are a parameter ([Frames]); [touched] is what they were
    asked. The handlers themselves, and whether the isolate is free, are those of Dispatch.v. *)
From S2P Require Import Prelude.
From S2P Require Import Results.
From S2P Require Import Text.
From S2P Require Import Json.
From S2P Require Import Multiplexer.
From S2P Require Import Channels.
From S2P Require Import Liveness.
From S2P Require Import EntityLive.
From S2P Require Import Dispatch.
From S2P Require Import JsNumber.
From S2P Require Import GamedataCalls.
From S2P Require Import GamedataHooks.
From S2P Require Import GamedataProperties.
From stdpp Require Import pretty.
From Stdlib Require Import Ascii SpecFloat.
From Stdlib Require String.
Import Text.Text Json Shim JsNumber GamedataHooks.
Local Open Scope Z_scope.

Module Frame.
(** What the shim was asked about a frame, and what for which parameter. *)
Inductive Touch :=
| ReadF32 (frame idx : Z)
| ReadI32 (frame idx : Z)
| WriteF32 (frame idx : Z) (value : f64)
| WriteI32 (frame idx value : Z).
Definition frame_of (t : Touch) : Z := match t with ReadF32 f _ | ReadI32 f _ | WriteF32 f _ _ | WriteI32 f _ _ => f end.
Definition idx_of (t : Touch) : Z := match t with ReadF32 _ i | ReadI32 _ i | WriteF32 _ i _ | WriteI32 _ i _ => i end.
Definition is_write (t : Touch) : bool := match t with WriteF32 _ _ _ | WriteI32 _ _ _ => true | _ => false end.
(** The shim's accessors, where it has them: a value, or a code. *)
Class Frames := {
  hook_read_f32 : list Touch -> option (Z -> Z -> option f64);
  hook_read_i32 : list Touch -> option (Z -> Z -> option Z);
  hook_write_f32 : list Touch -> option (Z -> Z -> f64 -> Z);
  hook_write_i32 : list Touch -> option (Z -> Z -> Z -> Z);
  hook_receiver_handle : list Touch -> option (Z -> option Z);
}.
End Frame.

Module HookDispatch.
Import Frame.

Record ActiveHook := mkActive { view : Z; owner : string; name : string; epoch : Z }.
(** An accessor property: the index and the epoch in its data, and whether it has a setter. *)
Record Accessor := mkAccessor { a_idx : Z; a_epoch : Z; a_setter : bool }.
Record HookView := mkView { accessors : list Accessor; v_receiver : option (string * option (Z * Z)) }.
Inductive HookAccess := Live (h : ActiveHook) | Dead | Rebound (h : ActiveHook).

Section Natives.
Context {Fn : Type} `{Ops} `{Frames}.

(** The statics of this part. *)
Record Hooks := mkHooks {
  tables : World; mux : Channels.Channels Fn; books : EntityLive.books; active : option ActiveHook; hook_epoch : Z; touched : list Touch }.
Definition set_tables (h : Hooks) (w : World) : Hooks := mkHooks w (mux h) (books h) (active h) (hook_epoch h) (touched h).
Definition set_active (h : Hooks) (a : option ActiveHook) : Hooks := mkHooks (tables h) (mux h) (books h) a (hook_epoch h) (touched h).
Definition touch (h : Hooks) (t : list Touch) : Hooks := mkHooks (tables h) (mux h) (books h) (active h) (hook_epoch h) (touched h ++ t).
Definition miss (h : Hooks) (a : ActiveHook) (reason : string) : Hooks := set_tables h (note_miss (tables h) (owner a) (name a) (Some reason)).

Definition hook_key (owner name : string) : string := owner +:+ String zero name.
Definition hook_owner_id (w : World) (arg : string) : string :=
  let reserved := GamedataCalls.reserved_owner_id arg in
  if bool_decide (GamedataCalls.game_package_owner (declared w) = Some reserved) then reserved else arg.

(** ** Subscribing *)
(** The handler, its plugin with its generation, and the id of the subscription come from the context. *)
Definition subscribe_hook (versions : Z) (h : Hooks) (owner name who : string) (generation sub_id : Z) (f : Fn) : Z * Hooks :=
  let '(versions, m, _) := Channels.subscribe versions (mux h) (hook_key owner name) sub_id who generation f in
  (versions, mkHooks (subscribe (tables h) owner name).1 m (books h) (active h) (hook_epoch h) (touched h)).
Definition s2_hook_on (versions : Z) (h : Hooks) (owner_arg name who : string) (generation sub_id : Z) (f : Fn) : Z * Hooks :=
  subscribe_hook versions h (hook_owner_id (tables h) owner_arg) name who generation sub_id f.
Definition s2_engine_hook_on (versions : Z) (h : Hooks) (name who : string) (generation sub_id : Z) (f : Fn) : Z * Hooks :=
  subscribe_hook versions h who name who generation sub_id f.
Definition s2_engine_hook_ready (h : Hooks) (who name : string) : bool := String.eqb (status (tables h) who name) "available".

(** ** Views *)
Definition hook_access (h : Hooks) (a : Accessor) : HookAccess :=
  match active h with
  | None => Dead
  | Some live => if epoch live =? a_epoch a then Live live else Rebound live
  end.
Definition rebound_reason (idx : Z) (what : string) : string :=
  "a hook view from a FINISHED dispatch tried to " +:+ what +:+ " param #" +:+ pretty idx +:+
  " of this one — the view is block-scoped and the access was REFUSED (holding one past its handler would read or write another hook's live arguments, past its own 'mutable' list)".
(** The value and whether it is a float: the first reader whose class it is. *)
Definition hook_param_read (h : Hooks) (frame idx : Z) : Hooks * option (f64 * bool) :=
  let '(h, r) := match hook_read_f32 (touched h) with Some f => (touch h [ReadF32 frame idx], f frame idx) | None => (h, None) end in
  match r with
  | Some v => (h, Some (v, true))
  | None =>
      let '(h, r) := match hook_read_i32 (touched h) with Some f => (touch h [ReadI32 frame idx], f frame idx) | None => (h, None) end in
      (h, (fun v => (f64_of_Z v, false)) <$> r)
  end.
(** [None] is [undefined]. *)
Definition s2_hook_param_get (h : Hooks) (a : Accessor) : Hooks * option f64 :=
  match hook_access h a with
  | Dead => (h, None)
  | Rebound live => (miss h live (rebound_reason (a_idx a) "read"), None)
  | Live live =>
      let '(h, r) := hook_param_read h (view live) (a_idx a) in
      match r with
      | Some (v, _) => (h, Some v)
      | None => (miss h live ("param #" +:+ pretty (a_idx a) +:+ " could not be read from the arg view (a stale binding, or a shape with no such param) — handlers see `undefined`, never a 0"), None)
      end
  end.
Definition F32_MAX : f64 := f64_of_Z (2 ^ 128 - 2 ^ 104).
(** What a value is written as, when the parameter can hold it. *)
Definition writable_as (is_float : bool) (value : f64) : bool :=
  if is_float then is_finite value && negb (f64_ltb F32_MAX (SFabs value))
  else f64_leb (f64_of_Z (- 2 ^ 31)) value && f64_leb value (f64_of_Z (2 ^ 31 - 1)).
Definition write_back (h : Hooks) (frame idx : Z) (is_float : bool) (value : f64) : Hooks * option Z :=
  if negb (writable_as is_float value) then (h, None)
  else if is_float then
    match hook_write_f32 (touched h) with Some f => (touch h [WriteF32 frame idx (as_f32 value)], Some (f frame idx (as_f32 value))) | None => (h, None) end
  else
    match hook_write_i32 (touched h) with Some f => (touch h [WriteI32 frame idx (as_i32 value)], Some (f frame idx (as_i32 value))) | None => (h, None) end.
Definition s2_hook_param_set (h : Hooks) (a : Accessor) (value : f64) : Hooks :=
  match hook_access h a with
  | Dead => h
  | Rebound live => miss h live (rebound_reason (a_idx a) "write")
  | Live live =>
      let '(h, r) := hook_param_read h (view live) (a_idx a) in
      let '(h, ok) := match r with Some (_, is_float) => write_back h (view live) (a_idx a) is_float value | None => (h, None) end in
      if bool_decide (ok = Some 0) then h
      else miss h live ("param #" +:+ pretty (a_idx a) +:+ " could not be written back to the arg view (a stale binding, or a value the param's class cannot represent — which is REFUSED, never coerced) — the engine will see the ORIGINAL value")
  end.
Definition decode_handle (handle : Z) : Z * Z := (Z.land handle (Z.shiftl 1 EntityLive.HANDLE_ENTRY_BITS - 1), Z.shiftr handle EntityLive.HANDLE_ENTRY_BITS).
(** The epoch travels in a JavaScript number. *)
Definition build_accessors (p : HookPlan) (epoch : Z) : list Accessor :=
  imap (fun i _ => mkAccessor (Z.of_nat i) (through_number epoch) (default false (writable p !! i))) (params p).
Definition build_hook_view (h : Hooks) (p : HookPlan) (frame epoch : Z) : HookView :=
  let live :=
    f ← hook_receiver_handle (touched h);
    handle ← f frame;
    let '(index, serial) := decode_handle handle in
    id ← EntityLive.adopt (books h) index serial; Some (index, id) in
  mkView (build_accessors p epoch) ((fun r => (r, live)) <$> receiver p).

(** ** The dispatch *)
(** Up to the fan-out: why nothing runs, or the plan, the subscribers and what to restore. *)
Definition enter_hook (h : Hooks) (hook_id frame : Z) : Hooks + (HookPlan * list (string * Z * Fn) * Hooks * option ActiveHook) :=
  match hook_for_id (tables h) hook_id with
  | None => inl h
  | Some (o, n) =>
      let same := match active h with Some a => String.eqb (owner a) o && String.eqb (name a) n | None => false end in
      if same then inl (set_tables h (note_reentrant_skip (tables h) o n))
      else match plan (tables h) o n with
      | None => inl h
      | Some p =>
          match Channels.snapshot (mux h) (hook_key o n) with
          | [] => inl h
          | snap =>
              let e := wrap64 (hook_epoch h + 1) in
              inr (p, snap, mkHooks (tables h) (mux h) (books h) (Some (mkActive frame o n e)) e (touched h), active h)
          end
      end
  end.
(** After it: the frame before is active again, and a fan-out in which nobody could run is reported. *)
Definition leave_hook (h : Hooks) (prev : option ActiveHook) (o n : string) (d : Dispatch.Delivery) : Hooks :=
  let h := set_active h prev in
  match d with Dispatch.Deferred => set_tables h (note_reentrant_skip (tables h) o n) | Dispatch.Delivered => h end.
End Natives.
Arguments Hooks : clear implicits.

Section Dispatching.
Context {Fn : Type} `{Ops} `{Frames}.
Notation Host := (Dispatch.Host (St := Hooks Fn)).
Context (owner_is_live : Host -> string -> Z -> bool) (has_context : Host -> string -> bool) (call : Host -> Fn -> HookView -> Host * Dispatch.Outcome).
Definition set_rest (host : Host) (h : Hooks Fn) : Host :=
  Dispatch.mkHost (Dispatch.busy_parents host) (Dispatch.dispatch_epoch host) (Dispatch.depth host) (Dispatch.deferring host) (Dispatch.paused_native host) (Dispatch.isolate host) h.
(** 0 is Continue. *)
Definition dispatch_hook (host : Host) (hook_id frame : Z) : Host * Z :=
  match enter_hook (Dispatch.rest host) hook_id frame with
  | inl h => (set_rest host h, 0)
  | inr (p, snap, h, prev) =>
      match active h with
      | None => (host, 0)
      | Some a =>
          let '(host, (result, d)) :=
            Dispatch.fan_out_inner owner_is_live has_context call (set_rest host h) snap Dispatch.AtStop
              (fun host => Some (build_hook_view (Dispatch.rest host) p frame (epoch a))) in
          (set_rest host (leave_hook (Dispatch.rest host) prev (owner a) (name a) d), Multiplexer.result_rank result)
      end
  end.
End Dispatching.

(** ** The machine *)
Section Machine.
Context {num Fn : Type} `{JsonNumber num} `{Printing num} `{Ops} `{Frames}.

(** A dispatch under way: what is active in it, its plan, and what it restores. *)
Record Running := mkRunning { r_active : ActiveHook; r_plan : HookPlan; r_prev : option ActiveHook }.
(** An accessor JavaScript has, and the dispatch it was built for. *)
Record Held := mkHeld { h_accessor : Accessor; h_epoch : Z; h_view : Z; h_plan : HookPlan }.
Record State := mkState { host : Hooks Fn; stack : list Running; held : list Held }.

Inductive step : State -> State -> Prop :=
(** The engine calls a hooked function; nothing runs, or the subscribers are about to. *)
| Step_skip h s v id frame h' : enter_hook h id frame = inl h' -> step (mkState h s v) (mkState h' s v)
| Step_enter h s v id frame p snap h' prev a : enter_hook h id frame = inr (p, snap, h', prev) -> active h' = Some a ->
    step (mkState h s v) (mkState h' (mkRunning a p prev :: s) v)
(** The innermost dispatch builds the view of its next subscriber. *)
| Step_view h r s v : step (mkState h (r :: s) v)
    (mkState h (r :: s) (v ++ ((fun a => mkHeld a (epoch (r_active r)) (view (r_active r)) (r_plan r)) <$>
       accessors (build_hook_view h (r_plan r) (view (r_active r)) (epoch (r_active r))))))
| Step_leave h r s v d : step (mkState h (r :: s) v) (mkState (leave_hook h (r_prev r) (owner (r_active r)) (name (r_active r)) d) s v)
(** JavaScript uses an accessor it has. *)
| Step_get h s v a : a ∈ v -> step (mkState h s v) (mkState (s2_hook_param_get h (h_accessor a)).1 s v)
| Step_set h s v a value : a ∈ v -> a_setter (h_accessor a) = true -> step (mkState h s v) (mkState (s2_hook_param_set h (h_accessor a) value) s v)
(** Anything else the core does. *)
| Step_tables h s v (op : Op (num := num)) : step (mkState h s v) (mkState (set_tables h (GamedataHooks.step (tables h) op)) s v)
| Step_subscribers h s v m b : step (mkState h s v) (mkState (mkHooks (tables h) m b (active h) (hook_epoch h) (touched h)) s v).

(** Runs from start-up in which fewer than 2^53 dispatches entered. *)
Inductive reachable : State -> Prop :=
| Reach_start m b : reachable (mkState (mkHooks init m b None 0 []) [] [])
| Reach_step s s' : reachable s -> step s s' -> hook_epoch (host s') < 2 ^ 53 -> reachable s'.

(** ** What an access touches *)
(** Only the live frame, only its own parameter, a write only through a setter. *)
Definition touches (h h' : Hooks Fn) (P : Touch -> Prop) : Prop := exists q, touched h' = touched h ++ q /\ Forall P q.
Definition same_scope (h h' : Hooks Fn) : Prop := active h' = active h /\ hook_epoch h' = hook_epoch h.
Lemma touches_refl h P : touches h h P.
Proof. exists []. by rewrite app_nil_r. Qed.
Lemma touches_trans h1 h2 h3 P : touches h1 h2 P -> touches h2 h3 P -> touches h1 h3 P.
Proof. intros (q1 & E1 & F1) (q2 & E2 & F2). exists (q1 ++ q2). rewrite E2, E1, app_assoc. split; [done|]. by apply Forall_app. Qed.
Lemma touches_touch h (P : Touch -> Prop) t : P t -> touches h (touch h [t]) P.
Proof. intros Ht. exists [t]. split; [done|]. by constructor. Qed.
Definition reads (frame idx : Z) (t : Touch) : Prop := frame_of t = frame /\ idx_of t = idx /\ is_write t = false.
Lemma param_read_touches h frame idx : let '(h', _) := hook_param_read h frame idx in touches h h' (reads frame idx) /\ same_scope h h'.
Proof.
  unfold hook_param_read. assert (Hf : let '(h1, r) := match hook_read_f32 (touched h) with Some f => (touch h [ReadF32 frame idx], f frame idx) | None => (h, None) end in touches h h1 (reads frame idx) /\ same_scope h h1).
  { destruct (hook_read_f32 (touched h)); [split; [by apply touches_touch|done]|split; [apply touches_refl|done]]. }
  destruct (match hook_read_f32 (touched h) with Some f => _ | None => _ end) as [h1 r]. destruct Hf as [T1 S1]. destruct r as [v|]; [done|].
  destruct (hook_read_i32 (touched h1)) as [f|]; [|done]. split; [|done]. eapply touches_trans; [exact T1|]. by apply touches_touch.
Qed.
Definition confined (frame idx : Z) (setter : bool) (t : Touch) : Prop := frame_of t = frame /\ idx_of t = idx /\ (is_write t = true -> setter = true).
Lemma reads_confined h h' frame idx setter : touches h h' (reads frame idx) -> touches h h' (confined frame idx setter).
Proof. intros (q & E & F). exists q. split; [done|]. eapply Forall_impl; [exact F|]. intros t (? & ? & Hw). split_and!; [done|done|congruence]. Qed.
Lemma write_back_touches h frame idx b v : let '(h', _) := write_back h frame idx b v in touches h h' (confined frame idx true) /\ same_scope h h'.
Proof.
  unfold write_back. destruct (negb _); [split; [apply touches_refl|done]|].
  destruct b; [destruct (hook_write_f32 (touched h))|destruct (hook_write_i32 (touched h))]; (split; [|done]); first [apply touches_refl|by apply touches_touch].
Qed.
(** Nothing is touched unless the dispatch an accessor names is the one that is live. *)
Definition accesses (h h' : Hooks Fn) (a : Accessor) (setter : bool) : Prop :=
  same_scope h h' /\
  (touched h' = touched h \/ exists live, active h = Some live /\ epoch live = a_epoch a /\ touches h h' (confined (view live) (a_idx a) setter)).
Lemma param_get_accesses h a : accesses h (s2_hook_param_get h a).1 a false.
Proof.
  unfold s2_hook_param_get, hook_access. destruct (active h) as [live|] eqn:E; [|split; [done|by left]].
  destruct (Z.eqb_spec (epoch live) (a_epoch a)) as [He|]; [|split; [done|by left]]. pose proof (param_read_touches h (view live) (a_idx a)) as Hr.
  destruct (hook_param_read h (view live) (a_idx a)) as [h1 r]. destruct Hr as [T S]. apply (reads_confined _ _ _ _ false) in T.
  destruct r as [[v b]|]; cbn [fst]; (split; [by destruct S|right; exists live; split_and!; done]).
Qed.
Lemma param_set_accesses h a value : accesses h (s2_hook_param_set h a value) a true.
Proof.
  unfold s2_hook_param_set, hook_access. destruct (active h) as [live|] eqn:E; [|split; [done|by left]].
  destruct (Z.eqb_spec (epoch live) (a_epoch a)) as [He|]; [|split; [done|by left]]. pose proof (param_read_touches h (view live) (a_idx a)) as Hr.
  destruct (hook_param_read h (view live) (a_idx a)) as [h1 r]. destruct Hr as [T [S1 S2]]. apply (reads_confined _ _ _ _ true) in T.
  assert (Hw : let '(h2, ok) := match r with Some (_, is_float) => write_back h1 (view live) (a_idx a) is_float value | None => (h1, None) end in
               touches h h2 (confined (view live) (a_idx a) true) /\ same_scope h h2).
  { destruct r as [[v b]|]; [|done]. pose proof (write_back_touches h1 (view live) (a_idx a) b value) as Hb. destruct (write_back _ _ _ _ _) as [h2 ok].
    destruct Hb as [T' [S1' S2']]. split; [by eapply touches_trans|]. split; congruence. }
  destruct (match r with Some (_, is_float) => _ | None => _ end) as [h2 ok]. destruct Hw as [T' S']. case_bool_decide; (split; [exact S'|right; exists live; split_and!; done]).
Qed.

(** ** The invariant *)
Definition held_ok (a : Held) : Prop :=
  a_epoch (h_accessor a) = h_epoch a /\
  exists i, a_idx (h_accessor a) = Z.of_nat i /\ (i < length (params (h_plan a)))%nat /\ a_setter (h_accessor a) = default false (writable (h_plan a) !! i).
Record minv (s : State) : Prop := {
  mi_active : active (host s) = r_active <$> head (stack s);
  mi_prev : forall l1 r l2, stack s = l1 ++ r :: l2 -> r_prev r = r_active <$> head l2;
  mi_bound : 0 <= hook_epoch (host s) < 2 ^ 53;
  mi_epochs : forall r, r ∈ stack s -> 0 < epoch (r_active r) <= hook_epoch (host s);
  mi_distinct : forall r r', r ∈ stack s -> r' ∈ stack s -> epoch (r_active r) = epoch (r_active r') -> r = r';
  mi_held : forall a, a ∈ held s -> held_ok a /\ h_epoch a <= hook_epoch (host s);
  mi_own : forall a r, a ∈ held s -> r ∈ stack s -> epoch (r_active r) = h_epoch a -> view (r_active r) = h_view a /\ r_plan r = h_plan a;
}.
Lemma minv_host h h' s v : same_scope h h' -> minv (mkState h s v) -> minv (mkState h' s v).
Proof. intros [Ha He] []. split; cbn in *; rewrite ?Ha, ?He; done. Qed.
Lemma enter_hook_inr (h : Hooks Fn) id frame p snap h' prev : enter_hook h id frame = inr (p, snap, h', prev) ->
  prev = active h /\ hook_epoch h' = wrap64 (hook_epoch h + 1) /\ exists o n, active h' = Some (mkActive frame o n (hook_epoch h')).
Proof.
  unfold enter_hook. destruct (hook_for_id (tables h) id) as [[o n]|]; [|done]. cbv zeta. destruct (match active h with Some a => _ | None => _ end); [done|].
  destruct (plan (tables h) o n); [|done]. destruct (Channels.snapshot _ _); [done|]. intros [= <- <- <- <-]. split_and!; [done|done|]. by exists o, n.
Qed.
Lemma enter_hook_inl (h : Hooks Fn) id frame h' : enter_hook h id frame = inl h' -> same_scope h h'.
Proof.
  unfold enter_hook. destruct (hook_for_id (tables h) id) as [[o n]|]; [|by intros [= <-]]. cbv zeta. destruct (match active h with Some a => _ | None => _ end); [by intros [= <-]|].
  destruct (plan (tables h) o n); [|by intros [= <-]]. destruct (Channels.snapshot _ _); [by intros [= <-]|done].
Qed.
Lemma build_accessors_ok p e a : a ∈ build_accessors p e -> 0 <= e < 2 ^ 53 ->
  a_epoch a = e /\ exists i, a_idx a = Z.of_nat i /\ (i < length (params p))%nat /\ a_setter a = default false (writable p !! i).
Proof.
  intros (i & x & -> & Hx)%elem_of_lookup_imap He. split; [by apply through_number_exact|]. exists i. split_and!; try done. by eapply lookup_lt_Some.
Qed.

Lemma minv_enter h s v a p prev h' :
  minv (mkState h s v) -> active h' = Some a -> prev = active h -> hook_epoch h' = hook_epoch h + 1 -> epoch a = hook_epoch h' -> hook_epoch h' < 2 ^ 53 ->
  minv (mkState h' (mkRunning a p prev :: s) v).
Proof.
  intros [A P B E D V O] Ha Hp He Hea Hb. cbn in *. assert (Hlt : forall r, r ∈ s -> epoch (r_active r) < epoch a) by (intros r Hr; pose proof (E r Hr); lia).
  split; cbn; try done.
  - intros [|r0 l1] r l2 Es; cbn in Es.
    + injection Es as <- <-. cbn. congruence.
    + injection Es as <- ->. by eapply P.
  - lia.
  - intros r [->|Hr]%elem_of_cons; cbn; [lia|]. pose proof (E r Hr). lia.
  - intros r r' [->|Hr]%elem_of_cons [->|Hr']%elem_of_cons; cbn; intros Heq; [done| | |by apply D].
    + pose proof (Hlt r' Hr'). lia.
    + pose proof (Hlt r Hr). lia.
  - intros x Hx. destruct (V x Hx). split; [done|lia].
  - intros x r Hx [->|Hr]%elem_of_cons; cbn; intros Heq; [|by apply O]. destruct (V x Hx). lia.
Qed.
Lemma minv_leave h h' r s v : minv (mkState h (r :: s) v) -> active h' = r_prev r -> hook_epoch h' = hook_epoch h -> minv (mkState h' s v).
Proof.
  intros [A P B E D V O] Ha He. cbn in *. split; cbn; rewrite ?He; try done.
  - rewrite Ha. exact (P [] r s eq_refl).
  - intros l1 r0 l2 ->. exact (P (r :: l1) r0 l2 eq_refl).
  - intros r' Hr. apply E. by right.
  - intros r1 r2 Hr1 Hr2. apply D; by right.
  - intros x r' Hx Hr. apply O; [done|by right].
Qed.
Lemma minv_view h r s v : minv (mkState h (r :: s) v) ->
  minv (mkState h (r :: s) (v ++ ((fun a => mkHeld a (epoch (r_active r)) (view (r_active r)) (r_plan r)) <$> build_accessors (r_plan r) (epoch (r_active r))))).
Proof.
  intros [A P B E D V O]. cbn in *. pose proof (E r ltac:(by left)) as Er. split; cbn; try done.
  - intros x [Hx|Hx]%elem_of_app; [by apply V|]. apply list_elem_of_fmap in Hx as (a & -> & Ha). split; [|cbn; lia]. by apply build_accessors_ok in Ha; [|lia].
  - intros x r' [Hx|Hx]%elem_of_app Hr Heq; [by apply O|]. apply list_elem_of_fmap in Hx as (a & -> & Ha). cbn in *. by rewrite (D r' r Hr ltac:(by left) Heq).
Qed.
Lemma minv_step s s' : minv s -> step s s' -> hook_epoch (host s') < 2 ^ 53 -> minv s'.
Proof.
  intros Hi Hs. destruct Hs as [h s v id frame h' E|h s v id frame p snap h' prev a E Ha|h r s v|h r s v d|h s v a Hin|h s v a value Hin Hset|h s v op|h s v m b]; cbn [host]; intros Hb.
  - eapply minv_host; [by eapply enter_hook_inl|done].
  - destruct (enter_hook_inr _ _ _ _ _ _ _ E) as (Hp & He & o & n & Ha'). pose proof (mi_bound _ Hi) as Hbound. cbn in Hbound. rewrite wrap64_small in He by (unfold u64_max, u64_modulus; lia).
    eapply minv_enter; try done. assert (a = mkActive frame o n (hook_epoch h')) as -> by congruence. done.
  - by apply minv_view.
  - eapply minv_leave; [exact Hi|by destruct d|by destruct d].
  - eapply minv_host; [|exact Hi]. apply param_get_accesses.
  - eapply minv_host; [|exact Hi]. apply param_set_accesses.
  - by eapply minv_host; [|exact Hi].
  - by eapply minv_host; [|exact Hi].
Qed.
Lemma minv_reachable s : reachable s -> minv s.
Proof.
  induction 1 as [m b|s s' Hr IH Hs Hb]; [|by eapply minv_step]. split; cbn; try done.
  - intros l1 r l2 E. by destruct l1.
  - intros r Hr. by apply elem_of_nil in Hr.
  - intros r r' Hr. by apply elem_of_nil in Hr.
  - intros x Hx. by apply elem_of_nil in Hx.
  - intros x r Hx. by apply elem_of_nil in Hx.
Qed.

(** C13. A view reaches only the frame of the dispatch it was built for. However dispatches nest and wherever
    a handler kept a view, an accessor touches the shim's frames only while its own dispatch is the innermost
    one, and then only that dispatch's frame, at an index the hook declares; and it writes there only if the
    hook declares that parameter mutable. *)
Theorem hook_view_confined (s : State) a h' :
  reachable s -> a ∈ held s ->
  h' = (s2_hook_param_get (host s) (h_accessor a)).1 \/ (a_setter (h_accessor a) = true /\ exists value, h' = s2_hook_param_set (host s) (h_accessor a) value) ->
  exists i, a_idx (h_accessor a) = Z.of_nat i /\ (i < length (params (h_plan a)))%nat /\
    (touched h' = touched (host s) \/
     (exists r, head (stack s) = Some r /\ epoch (r_active r) = h_epoch a /\ view (r_active r) = h_view a) /\
     touches (host s) h' (fun t => frame_of t = h_view a /\ idx_of t = Z.of_nat i /\ (is_write t = true -> writable (h_plan a) !! i = Some true))).
Proof.
  intros Hr Ha Hh. pose proof (minv_reachable s Hr) as Hi. destruct (mi_held _ Hi a Ha) as [(Hep & i & Hidx & Hlt & Hset) _]. exists i. split_and!; [done|done|].
  assert (Hacc : accesses (host s) h' (h_accessor a) (a_setter (h_accessor a))).
  { destruct Hh as [->|(Hw & value & ->)]; [|rewrite Hw; apply param_set_accesses]. destruct (param_get_accesses (host s) (h_accessor a)) as [S [T|(live & Hl & He & q & T & F)]]; (split; [done|]); [by left|right].
    exists live. split_and!; [done|done|]. exists q. split; [done|]. eapply Forall_impl; [exact F|]. intros t (? & ? & Hw). split_and!; [done|done|]. intros Ht. by apply Hw in Ht. }
  destruct Hacc as [_ [T|(live & Hl & He & q & T & F)]]; [by left|right]. rewrite (mi_active _ Hi) in Hl. destruct (stack s) as [|r l] eqn:Es; [done|]. cbn in Hl. injection Hl as <-.
  assert (Hown : view (r_active r) = h_view a /\ r_plan r = h_plan a) by (apply (mi_own _ Hi); [done|rewrite Es; by left|congruence]). destruct Hown as [Hview _].
  split; [exists r; split_and!; [done|congruence|done]|]. exists q. split; [done|]. eapply Forall_impl; [exact F|]. intros t (Hf & Hx & Hw). split_and!; [congruence|congruence|].
  intros Ht. apply Hw in Ht. rewrite Hset in Ht. by destruct (writable (h_plan a) !! i) as [[]|].
Qed.
End Machine.
Arguments State : clear implicits.
End HookDispatch.

Module HookDispatchExamples.
Import Frame HookDispatch JsonExamples GamedataExamples.

(** A frame with a float and an integer. *)
#[export] Instance frames : Frames := {
  hook_read_f32 _ := Some (fun _ i => if i =? 0 then Some (f64_of_Z 3) else None);
  hook_read_i32 _ := Some (fun _ i => if i =? 1 then Some 5 else None);
  hook_write_f32 _ := Some (fun _ i _ => if i =? 0 then 0 else -1);
  hook_write_i32 _ := Some (fun _ i _ => if i =? 1 then 0 else -1);
  hook_receiver_handle _ := None;
}.
(** Two plugins hook the end of a round, each with one subscriber. *)
Definition both_ops : list (Op (num := num)) := installed_ops ++ [RegisterPlugin "q" "other"; Subscribe "q" "onEnd"].
Definition subscribers : Channels.Channels Z :=
  let '(vs, m) := Channels.new 0 in
  let '(vs, m, _) := Channels.subscribe vs m (hook_key "p" "onEnd") 1 "p" 1 7 in
  let '(_, m, _) := Channels.subscribe vs m (hook_key "q" "onEnd") 2 "q" 1 8 in m.
(** Books without entities, and without the long mirror. *)
Definition no_entities : EntityLive.books := {| EntityLive.map_epoch := 1; EntityLive.live := Liveness.LiveTable.new 1; EntityLive.flat := []; EntityLive.repair_armed := false |}.
Definition ready : Hooks Z := mkHooks (run both_ops) subscribers no_entities None 0 [].
Definition entered (h : Hooks Z) (id frame : Z) : option (Hooks Z) := match enter_hook h id frame with inr (_, _, h, _) => Some h | inl _ => None end.

(** A hook does not nest in itself, but does with another one in between. *)
Example same_hook_skips : (h ← entered ready 0 100; entered h 0 200) = None.
Proof. vm_compute. reflexivity. Qed.
Example same_hook_nests : active <$> (h ← entered ready 0 100; h ← entered h 1 200; entered h 0 300) = Some (Some (mkActive 300 "p" "onEnd" 3)).
Proof. vm_compute. reflexivity. Qed.
(** A name with the separator in it makes the channels of two plugins one. *)
Example keys_meet : hook_key "a" ("b" +:+ String zero "c") = hook_key ("a" +:+ String zero "b") "c".
Proof. reflexivity. Qed.

(** An accessor of the outer dispatch is refused while the inner one runs, and works again after it. *)
Definition outer : Hooks Z := default ready (entered ready 0 100).
Definition inner : Hooks Z := default ready (entered outer 1 200).
Definition delay_of_outer : Accessor := mkAccessor 0 1 true.
Example refused : let '(h, v) := s2_hook_param_get inner delay_of_outer in (touched h, v, s2_engine_hook_ready h "q" "onEnd") = ([], None, false).
Proof. vm_compute. reflexivity. Qed.
Example works_again : touched (s2_hook_param_set (leave_hook inner (active outer) "q" "onEnd" Dispatch.Delivered) delay_of_outer (f64_of_Z 4)) = [ReadF32 100 0; WriteF32 100 0 (as_f32 (f64_of_Z 4))].
Proof. vm_compute. reflexivity. Qed.
Example does_not_fit : touched (s2_hook_param_set outer (mkAccessor 1 1 true) (f64_of_Z (2 ^ 31))) = [ReadF32 100 1; ReadI32 100 1].
Proof. vm_compute. reflexivity. Qed.

Definition round_plan : HookPlan := mkHookPlan 0 1 ["delay"; "reason"] [true; false] None "round".
Definition delay_held : Held := mkHeld delay_of_outer 1 100 round_plan.
Notation State := (State Z).
Definition empty_mux : Channels.Channels Z := (Channels.new 0).2.
Definition in_handler : State := mkState outer [mkRunning (mkActive 100 "p" "onEnd" 1) round_plan None] [delay_held; mkHeld (mkAccessor 1 1 false) 1 100 round_plan].
Lemma reachable_run ops : reachable (num := num) (mkState (mkHooks (run ops) empty_mux no_entities None 0 []) [] []).
Proof.
  unfold run. assert (Hgen : forall w, reachable (num := num) (mkState (mkHooks w empty_mux no_entities None 0 []) [] []) ->
    reachable (num := num) (mkState (mkHooks (foldl GamedataHooks.step w ops) empty_mux no_entities None 0 []) [] [])); [|apply Hgen, Reach_start].
  induction ops as [|op ops IH]; intros w Hw; [done|]. cbn [foldl]. apply IH. eapply Reach_step; [exact Hw|apply Step_tables|vm_compute; reflexivity].
Qed.
Lemma reachable_subscribed w : reachable (num := num) (mkState (mkHooks w empty_mux no_entities None 0 []) [] []) -> reachable (num := num) (mkState (mkHooks w subscribers no_entities None 0 []) [] []).
Proof.
  intros Hr. eapply Reach_step; [exact Hr| |vm_compute; reflexivity].
  exact (Step_subscribers (mkHooks w empty_mux no_entities None 0 []) [] [] subscribers no_entities).
Qed.
Lemma enter_outer : enter_hook ready 0 100 = inr (round_plan, [("p", 1, 7)], outer, None).
Proof. vm_compute. reflexivity. Qed.
Lemma in_handler_reachable : reachable (num := num) in_handler.
Proof.
  assert (Hready : reachable (num := num) (mkState ready [] [])) by exact (reachable_subscribed _ (reachable_run both_ops)).
  assert (Hin : reachable (num := num) (mkState outer [mkRunning (mkActive 100 "p" "onEnd" 1) round_plan None] [])).
  { eapply Reach_step; [exact Hready|apply (Step_enter ready [] [] 0 100 round_plan [("p", 1, 7)] outer None); [exact enter_outer|vm_compute; reflexivity]|vm_compute; reflexivity]. }
  eapply Reach_step; [exact Hin|exact (Step_view outer (mkRunning (mkActive 100 "p" "onEnd" 1) round_plan None) [] [])|vm_compute; reflexivity].
Qed.
Definition written : Hooks Z := s2_hook_param_set outer delay_of_outer (f64_of_Z 4).
Lemma hook_view_confined_witness :
  exists i, a_idx delay_of_outer = Z.of_nat i /\ (i < 2)%nat /\
    (touched written = touched outer \/
     (exists r, head (stack in_handler) = Some r /\ epoch (r_active r) = 1 /\ view (r_active r) = 100) /\
     touches outer written (fun t => frame_of t = 100 /\ idx_of t = Z.of_nat i /\ (is_write t = true -> [true; false] !! i = Some true))).
Proof.
  apply (hook_view_confined (num := num) in_handler delay_held); [exact in_handler_reachable|by left|right]. split; [reflexivity|]. by exists (f64_of_Z 4).
Defined.
End HookDispatchExamples.
