(* ===== verification/CallInvoke.v ===== *)
(** Engine calls from JavaScript (core/src/v8host.rs, [engine_call_invoke_for] and what it uses).

    [enter_call] is the native up to the moment the shim's function runs: the receiver, the offset of its
    sub-object, the arguments put into the two register sequences, the latches of the hooks that must not
    fire for this call. [leave_call] disarms them and converts the result. V8 is a parameter ([V8]): a
    conversion may run JavaScript, which may call any native, so it is a function on the whole state; so is
    the engine's function ([Engine]). The latches and the frame checks are the shim's (shim/src). *)
From S2P Require Import Prelude.
From S2P Require Import Results.
From S2P Require Import Utf8.
From S2P Require Import Text.
From S2P Require Import Json.
From S2P Require Import Liveness.
From S2P Require Import EntityLive.
From S2P Require Import ServerConsole.
From S2P Require Import JsNumber.
From S2P Require Import GamedataCalls.
From S2P Require Import GamedataHooks.
From S2P Require Import GamedataProperties.
From S2P Require Import Multiplexer.
From S2P Require Import Channels.
From S2P Require Import Dispatch.
From S2P Require Import HookDispatch.
From stdpp Require Import pretty.
From Stdlib Require Import Ascii SpecFloat.
From Stdlib Require String.
Import Text.Text Json Shim JsNumber GamedataHooks.
Local Open Scope Z_scope.

Module Offsets.
(** core/src/schema.rs: offsets that were found, and keys already warned about. *)
Record OffsetCache := mkOffsets { hits : gmap (string * string) Z; warned : gset (string * string) }.
Definition new : OffsetCache := mkOffsets ∅ ∅.
(** [raw]: what the schema answers now. *)
Definition resolve (c : OffsetCache) (class field : string) (raw : string -> string -> Z) : OffsetCache * Z :=
  match hits c !! (class, field) with
  | Some off => (c, off)
  | None =>
      let off := raw class field in
      (if 0 <=? off then mkOffsets (<[(class, field) := off]> (hits c)) (warned c) else mkOffsets (hits c) ({[(class, field)]} ∪ warned c), off)
  end.
Lemma offset_kept c class field raw c' off : resolve c class field raw = (c', off) -> 0 <= off -> forall raw', resolve c' class field raw' = (c', off).
Proof.
  unfold resolve. destruct (hits c !! (class, field)) as [o|] eqn:E; [intros [= <- <-] _ raw'; by rewrite E|].
  intros [= <- <-] Hoff raw'. rewrite (proj2 (Z.leb_le _ _) Hoff). cbn. by rewrite lookup_insert_eq.
Qed.
End Offsets.

Module Latches.
(** shim/src/hook_dispatch.cpp: one latch per slot, cleared by whoever takes it. *)
Definition S2_HOOK_MAX : Z := 64.
Definition in_range (id : Z) : bool := (0 <=? id) && (id <? S2_HOOK_MAX).
Definition arm (l : gset Z) (id : Z) : gset Z := if in_range id then {[id]} ∪ l else l.
Definition take (l : gset Z) (id : Z) : bool * gset Z := if in_range id then (bool_decide (id ∈ l), l ∖ {[id]}) else (false, l).
Definition disarm (l : gset Z) (id : Z) : gset Z := (take l id).2.
End Latches.

Module CallInvoke.

(** The state the native and whatever it runs share. [nest]: the natives that are inside the engine. *)
Record Host := mkHost { tables : World; books : EntityLive.books; offsets : Offsets.OffsetCache; latches : gset Z; nest : list Z }.
Definition set_tables (h : Host) (w : World) : Host := mkHost w (books h) (offsets h) (latches h) (nest h).
Definition set_offsets (h : Host) (c : Offsets.OffsetCache) : Host := mkHost (tables h) (books h) c (latches h) (nest h).
Definition set_latches (h : Host) (l : gset Z) : Host := mkHost (tables h) (books h) (offsets h) l (nest h).
Definition set_nest (h : Host) (n : list Z) : Host := mkHost (tables h) (books h) (offsets h) (latches h) n.

(** What the shim's function is given. *)
Record Call := mkCall {
  c_call_id : Z; c_index : Z; c_serial : Z; c_subobj_off : Z; c_subobj_deref : Z;
  c_gp : list Z; c_kinds : list Z; c_fp : list f64; c_strs : list string; c_vecs : list f64; c_ret : Z }.

(** Values of JavaScript and what V8 does with them; [None] is a thrown exception, or no such property. *)
Class V8 (V : Type) := {
  undefined : V;
  is_null_or_undefined : V -> bool;
  boolean_value : V -> bool;
  get_index : V -> Z -> Host -> Host * option V;
  number_value : V -> Host -> Host * option f64;
  integer_value : V -> Host -> Host * option Z;
  to_rust_string_lossy : V -> Host -> Host * string;
  obj_prop : V -> string -> Host -> Host * option V;
  make_ptr : f64 -> Host -> Host * option V;
  new_string : string -> option V;
}.
(** The operations of the shim, where it has them. *)
Class Engine := {
  schema_offset : option (string -> string -> Z);
  engine_call_invoke : option (Call -> Host -> Host * (Z * Z));
  engine_call_take_strings : option (Host -> option Z -> Z * string);
  has_arm_bypass : bool;
  has_disarm_bypass : bool;
}.
(** What JavaScript gets back. *)
Inductive Returned {V : Type} :=
| Null
| Undefined
| Boolean (b : bool)
| Int32 (n : Z)
| Double (f : f64)
| EntityRef (index id : Z)
| Value (v : V)
| Strings (l : list V).
Arguments Returned : clear implicits.

Definition RECEIVER_INTERFACE : Z := -2.
Definition INVALID_ENTITY_HANDLE : Z := 4294967295.
Definition STRINGLIST_NULL : Z := u64_max.
Definition NO_ENTITY : Z := u64_max.
Definition MAX_NEST : nat := 8.

Section Native.
Context {V : Type} `{V8 V} `{Engine}.
Notation Args := (effect Host unit).
(** What cannot fail, and an early return. *)
Definition run {A} (f : Host -> Host * A) : Args A := fun h => let '(h, a) := f h in (inr a, h).
Definition done_unless (ok : bool) : Args unit := lift (require ok tt).
Definition some {A} (o : option A) : Args A := lift (ok_or o tt).

(** ** Entities and offsets *)
Definition js_ent_id (v : V) (h : Host) : Host * Z := let '(h, n) := number_value v h in (h, JsNumber.js_ent_id n).
Definition ent_op_serial (idx_arg id_arg : V) (h : Host) : Host * option (Z * Z) :=
  let '(h, i) := integer_value idx_arg h in
  let index := i64_as_i32 (default (-1) i) in
  let '(h, id) := js_ent_id id_arg h in
  (h, serial ← EntityLive.engine_serial_for (books h) index id; Some (index, serial)).
Definition pack (index serial : Z) : Z := Z.lor (Z.shiftl (u32_wrap index) 32) (u32_wrap serial).
(** [.and_then] on a value that may be missing. *)
Definition and_then {A} (v : option V) (f : V -> Host -> Host * option A) (h : Host) : Host * option A := match v with Some v => f v h | None => (h, None) end.
Definition pack_entity_arg (v : V) (h : Host) : Host * Z :=
  let '(h, idx_v) := obj_prop v "index" h in
  let '(h, i) := and_then idx_v integer_value h in
  let index := i64_as_i32 (default (-1) i) in
  let '(h, id_v) := obj_prop v "id" h in
  let '(h, id) := match id_v with Some x => js_ent_id x h | None => (h, 0) end in
  (h, match EntityLive.engine_serial_for (books h) index id with Some serial => pack index serial | None => NO_ENTITY end).
Definition live_raw (class field : string) : Z :=
  match schema_offset with
  | None => -1
  | Some func => if contains zero class || contains zero field then -1 else func class field
  end.
Definition schema_offset_cached (class field : string) (h : Host) : Host * Z :=
  let '(c, off) := Offsets.resolve (offsets h) class field live_raw in (set_offsets h c, off).
Definition set_via_miss (pid name : string) (reason : option string) (h : Host) : Host :=
  set_tables h (GamedataHooks.set_declared (tables h) (GamedataCalls.set_via_miss (declared (tables h)) pid name reason) (asked (tables h))).

(** ** The receiver *)
Definition receiver (p : GamedataCalls.InvokePlan) (self_index self_id : V) : Args (Z * Z) :=
  match GamedataCalls.interface p with
  | Some iface => lift (inr (RECEIVER_INTERFACE, iface))
  | None => if GamedataCalls.receiverless p then lift (inr (-1, 0)) else do r := run (ent_op_serial self_index self_id) in some r
  end.
Definition hop_offset (pid name : string) (total : Z) (hop : GamedataCalls.ViaHop) : Args Z :=
  do off := run (schema_offset_cached (GamedataCalls.class hop) (GamedataCalls.field_ hop)) in
  if off <? 0 then
    fun h => (inl tt, set_via_miss pid name (Some ("receiver sub-object offset " +:+ GamedataCalls.class hop +:+ "::" +:+ GamedataCalls.field_ hop +:+ " unresolved (schema resolves at map-live)")) h)
  else lift (inr (total + off)).
Definition sub_object (pid name : string) (p : GamedataCalls.InvokePlan) : Args (Z * Z) :=
  match GamedataCalls.via p with
  | [] => lift (inr (-1, 0))
  | via =>
      do total := mfold (hop_offset pid name) 0 via in
      do total := some (to_i32 total) in
      do _ := run (fun h => (set_via_miss pid name None h, tt)) in
      lift (inr (total, if match last via with Some h => GamedataCalls.embedded h | None => false end then 0 else 1))
  end.

(** ** The arguments *)
Record Slots := mkSlots { gp : list Z; gp_kind : list Z; fp : list f64; strs : list string; vecs : list f64 }.
Definition push (s : Slots) (v k : Z) : Slots := mkSlots (gp s ++ [v]) (gp_kind s ++ [k]) (fp s) (strs s) (vecs s).
Definition number_of (v : V) (key : string) (h : Host) : Host * f64 :=
  let '(h, x) := obj_prop v key h in
  let '(h, n) := and_then x number_value h in
  (h, as_f32 (default (S754_zero false) n)).
Definition is_zero (f : f64) : bool := match f with S754_zero _ => true | _ => false end.
Definition address_of (v : V) : Args f64 :=
  if is_null_or_undefined v then lift (inr (S754_zero false))
  else
    do a := run (obj_prop v "address") in
    do n := run (and_then a number_value) in
    some n.
Definition marshal_value (s : Slots) (kind : string) (v : V) : Args Slots :=
  match kind with
  | "float" => do x := run (number_value v) in lift (inr (mkSlots (gp s) (gp_kind s) (fp s ++ [default (S754_zero false) x]) (strs s) (vecs s)))
  | "bool" => lift (inr (push s (if boolean_value v then 1 else 0) GamedataCalls.GP_SCALAR))
  | "int" => do x := run (integer_value v) in lift (inr (push s (i64_as_u64 (default 0 x)) GamedataCalls.GP_SCALAR))
  | "entity" => do x := run (pack_entity_arg v) in lift (inr (push s x GamedataCalls.GP_ENTITY))
  | "ptr" =>
      do addr := address_of v in
      do _ := done_unless (is_zero addr || match checked addr 0 with Some _ => true | None => false end) in
      lift (inr (push s (as_u64 addr) GamedataCalls.GP_SCALAR))
  | "string" | "utlstring" =>
      do t := run (to_rust_string_lossy v) in
      do c := lift (map_err (fun _ => tt) (cstring t)) in
      let s := mkSlots (gp s) (gp_kind s) (fp s) (strs s ++ [c]) (vecs s) in
      lift (inr (push s (Z.of_nat (length (strs s)) - 1) (if String.eqb kind "utlstring" then GamedataCalls.GP_UTLSTRING else GamedataCalls.GP_STRING)))
  | "vector" =>
      do x := run (number_of v "x") in
      do y := run (number_of v "y") in
      do z := run (number_of v "z") in
      let s := mkSlots (gp s) (gp_kind s) (fp s) (strs s) (vecs s ++ [x; y; z]) in
      lift (inr (push s (Z.of_nat (length (vecs s)) / 3 - 1) GamedataCalls.GP_VECTOR))
  | _ => lift (inl tt)
  end%string.
(** [js_args]: the fourth argument, if it is an array. *)
Definition marshal_one (js_args : option V) (s : Z * Slots) (kind : string) : Args (Z * Slots) :=
  do x := run (and_then js_args (fun a => get_index a s.1)) in
  do slots := marshal_value s.2 kind (default undefined x) in
  lift (inr (s.1 + 1, slots)).
Definition marshal (js_args : option V) (args : list string) : Args Slots :=
  do s := mfold (marshal_one js_args) (0, mkSlots [] [] [] [] []) args in lift (inr s.2).

(** ** The call *)
Definition bypass_ops : bool := has_arm_bypass && has_disarm_bypass.
(** Everything before the engine's function runs: what it is given, and the latches armed for it. *)
Definition enter_call (owner : option string) (name : string) (self_index self_id : V) (js_args : option V) : Args (Call * list Z) := fun h =>
  (do pid := some owner in
   do plan := some (GamedataCalls.plan_of (declared (tables h)) pid name) in
   do (index, serial) := receiver plan self_index self_id in
   do (off, deref) := sub_object pid name plan in
   do s := marshal js_args (GamedataCalls.args plan) in
   do _ := some engine_call_invoke in
   fun h =>
     let bypass_ids := bypass_ids_for_call (tables h) pid name in
     let c := mkCall (GamedataCalls.call_id plan) index serial off deref (gp s) (gp_kind s) (fp s) (strs s) (vecs s) (GamedataCalls.ret plan) in
     (inr (c, bypass_ids), if bypass_ops then set_latches h (foldl Latches.arm (latches h) bypass_ids) else h)) h.
(** nest.rs: [info] identifies the native while the engine runs. *)
Definition with_outbound {R} (info : Z) (f : Host -> Host * R) (h : Host) : Host * R :=
  if (length (nest h) <? MAX_NEST)%nat then
    let '(h, r) := f (set_nest h (nest h ++ [info])) in (set_nest h (removelast (nest h)), r)
  else f h.
Definition disarm_all (ids : list Z) (h : Host) : Host := if bypass_ops then set_latches h (foldl Latches.disarm (latches h) ids) else h.
Definition fill (n : Z) (bytes : string) : list ascii := take (Z.to_nat n) (chars bytes ++ repeat zero (Z.to_nat n)).
Definition take_strings (ret : Z) : Args (Returned V) := fun h =>
  (do _ := done_unless (negb (ret =? STRINGLIST_NULL)) in
   do take := some engine_call_take_strings in
   let '(need, _) := take h None in
   do _ := done_unless (0 <=? need) in
   let '(got, bytes) := take h (Some need) in
   do _ := done_unless ((need =? 0) || (got =? need)) in
   let parts := if need =? 0 then [] else ServerConsole.split_on zero (of_chars (removelast (fill need bytes))) in
   do _ := done_unless (Z.of_nat (length parts) =? ret) in
   do items := some (mapM (fun p => new_string (Utf8.Utf8.from_utf8_lossy p)) parts) in
   lift (inr (Strings items))) h.
(** What the code of a result means; a failure is [null]. *)
Definition convert (code ret : Z) : Args (Returned V) := fun h =>
  match code with
  | 0 => (inr Undefined, h)
  | 1 => (inr (Boolean (negb (ret =? 0))), h)
  | 2 => (inr (Int32 (i32_wrap ret)), h)
  | 3 => (inr (Double (f32_from_bits (u32_wrap ret))), h)
  | 4 =>
      if u32_wrap ret =? INVALID_ENTITY_HANDLE then (inl tt, h)
      else
        let '(i, s) := HookDispatch.decode_handle (u32_wrap ret) in
        match EntityLive.adopt (books h) i s with Some id => (inr (EntityRef i id), h) | None => (inl tt, h) end
  | 5 =>
      if (ret =? 0) || match checked (f64_of_Z ret) 0 with Some _ => true | None => false end then
        (do p := run (make_ptr (f64_of_Z ret)) in do p := some p in lift (inr (Value p))) h
      else (inl tt, h)
  | 6 => take_strings ret h
  | _ => (inl tt, h)
  end.
(** The engine's function, between the two halves of the latch, and what comes after it. *)
Definition perform (info : Z) (c : Call) (bypass_ids : list Z) : Args Z :=
  do func := some engine_call_invoke in
  do (ok, ret) := run (with_outbound info (func c)) in
  do _ := run (fun h => (disarm_all bypass_ids h, tt)) in
  do _ := done_unless (negb (ok =? 0)) in
  lift (inr ret).
Definition engine_call_invoke_for (info : Z) (owner : option string) (name : string) (self_index self_id : V) (js_args : option V) (h : Host) : Host * Returned V :=
  let '(r, h) :=
    (do (c, bypass_ids) := enter_call owner name self_index self_id js_args in
     do ret := perform info c bypass_ids in
     convert (c_ret c) ret) h in
  (h, match r with inr v => v | inl _ => Null end).

(** ** The other natives *)
(** The owner of a plugin's natives is its context's; of the game package's, the package. *)
Definition game_call_owner (h : Host) : option string := GamedataCalls.game_package_owner (declared (tables h)).
Definition engine_call_ready_for (h : Host) (owner : option string) (name : string) : bool :=
  match owner with Some pid => GamedataCalls.is_ready (declared (tables h)) pid name | None => false end.
Definition engine_call_receiverless_for (h : Host) (owner : option string) (name : string) : bool :=
  match owner with Some pid => GamedataCalls.is_receiverless (declared (tables h)) pid name | None => false end.
Definition engine_call_status_for (h : Host) (owner : option string) (name no_owner_reason : string) : string :=
  match owner with Some pid => GamedataCalls.status (declared (tables h)) pid name | None => no_owner_reason end.
Definition s2_game_call_invoke (info : Z) (name : string) (self_index self_id : V) (js_args : option V) (h : Host) : Host * Returned V :=
  engine_call_invoke_for info (game_call_owner h) name self_index self_id js_args h.
End Native.

(** ** The frame (shim/src/engine_calls.cpp) *)
(** Whether [S2_EngineCallInvoke] gets past its checks of the frame: the return kind, the counts and the slots. The
    address of the id and the receiver are the engine's to resolve, before and after these, and are left out. *)
Definition slot_accepted (gp_count : Z) (gk : Z * Z) : bool :=
  let '(v, k) := gk in
  if (k =? 0) || (k =? 1) then true
  else if (k =? 2) || (k =? 3) || (k =? 4) then v <? gp_count
  else false.
Definition frame_accepted (c : Call) : bool :=
  let gp_count := Z.of_nat (length (c_gp c)) in
  (0 <=? c_ret c) && (c_ret c <=? 6) && (gp_count <=? 9) && (Z.of_nat (length (c_fp c)) <=? 8) && forallb (slot_accepted gp_count) (zip (c_gp c) (c_kinds c)).
End CallInvoke.

Module CallInvokeProperties.
Import GamedataProperties CallInvoke.

Section Properties.
Context {V : Type} `{V8 V} `{Engine}.
Notation Args := (effect Host unit).
Notation Plan := GamedataCalls.InvokePlan.
Notation classify := GamedataCalls.classify_args.

(** ** Specifications *)
(** What a slot of a kind holds: a number, or the place of an indirect payload. *)
Definition slot_ok (strs : list string) (vecs : list f64) (v k : Z) : Prop :=
  0 <= v /\
  (k = GamedataCalls.GP_SCALAR \/ k = GamedataCalls.GP_ENTITY \/
   ((k = GamedataCalls.GP_STRING \/ k = GamedataCalls.GP_UTLSTRING) /\ v < Z.of_nat (length strs)) \/
   (k = GamedataCalls.GP_VECTOR /\ 3 * v + 3 <= Z.of_nat (length vecs))).
(** The receiver the shim is given: an interface, nobody, or what the books answered for the entity. *)
Definition receiver_ok (p : Plan) (self_index self_id : V) (h : Host) (index serial : Z) : Prop :=
  match GamedataCalls.interface p with
  | Some iface => index = RECEIVER_INTERFACE /\ serial = iface
  | None => if GamedataCalls.receiverless p then index = -1 /\ serial = 0 else (ent_op_serial self_index self_id h).2 = Some (index, serial)
  end.
(** A call fits the frame its plan was admitted with. *)
Record frame_sound (p : Plan) (c : Call) : Prop := {
  fs_id : c_call_id c = GamedataCalls.call_id p;
  fs_ret : c_ret c = GamedataCalls.ret p;
  fs_kinds : c_kinds c = (classify (GamedataCalls.args p)).1;
  fs_fp : Z.of_nat (length (c_fp c)) = (classify (GamedataCalls.args p)).2;
  fs_slots : Forall2 (slot_ok (c_strs c) (c_vecs c)) (c_gp c) (c_kinds c);
  fs_strs : Forall (fun t => contains zero t = false) (c_strs c);
  fs_room : exists n, length (c_vecs c) = (3 * n)%nat /\ (length (c_strs c) + n <= length (c_gp c))%nat;
  fs_subobj : if decide (GamedataCalls.via p = []) then c_subobj_off c = -1 else 0 <= c_subobj_off c < 2 ^ 31;
}.

(** ** Arguments *)
Definition arg_kinds : list string := ["float"; "bool"; "int"; "ptr"; "entity"; "string"; "utlstring"; "vector"].
Lemma known_kind a : a = "float" \/ is_Some (GamedataCalls.gp_kind_of a) -> a ∈ arg_kinds.
Proof. intros [->|[k Hk]]; [by left|]. unfold GamedataCalls.gp_kind_of in Hk. repeat case_match; try discriminate; unfold arg_kinds; set_solver. Qed.
Lemma classify_snoc l a : classify (l ++ [a]) =
  (if String.eqb a "float" then ((classify l).1, (classify l).2 + 1)
   else match GamedataCalls.gp_kind_of a with Some k => ((classify l).1 ++ [k], (classify l).2) | None => classify l end).
Proof.
  unfold classify. rewrite foldl_app. cbn [foldl]. destruct (foldl _ _ l) as [g f]. destruct (String.eqb a "float"); [done|]. by destruct (GamedataCalls.gp_kind_of a).
Qed.
Record marshalled (args : list string) (s : Slots) : Prop := {
  ms_kinds : gp_kind s = (classify args).1;
  ms_fp : Z.of_nat (length (fp s)) = (classify args).2;
  ms_slots : Forall2 (slot_ok (strs s) (vecs s)) (gp s) (gp_kind s);
  ms_strs : Forall (fun t => contains zero t = false) (strs s);
  ms_room : exists n, length (vecs s) = (3 * n)%nat /\ (length (strs s) + n <= length (gp s))%nat;
}.
Lemma slot_ok_grow ss ss' vs vs' v k : slot_ok ss vs v k -> slot_ok (ss ++ ss') (vs ++ vs') v k.
Proof. unfold slot_ok. rewrite !length_app. intros (Hv & Hk). split; [done|]. destruct Hk as [->|[->|[[Hk Hl]|[-> Hl]]]]; [by left|right; by left|right; right; left; split; [done|lia]|right; right; right; split; [done|lia]]. Qed.
(** One more slot, with the payload it may need. *)
Lemma marshalled_push args s kind v k ss vs :
  marshalled args s -> String.eqb kind "float" = false -> GamedataCalls.gp_kind_of kind = Some k ->
  slot_ok (strs s ++ ss) (vecs s ++ vs) v k -> Forall (fun t => contains zero t = false) ss ->
  (exists n, length vs = (3 * n)%nat /\ (length ss + n <= 1)%nat) ->
  marshalled (args ++ [kind]) (push (mkSlots (gp s) (gp_kind s) (fp s) (strs s ++ ss) (vecs s ++ vs)) v k).
Proof.
  intros [K F S T (n & Hn & Hr)] Hf Hk Hs Ht (m & Hm & Hmr). split; cbn; rewrite ?classify_snoc, ?Hf, ?Hk; cbn.
  - by rewrite K.
  - done.
  - apply Forall2_app; [|by constructor]. eapply Forall2_impl; [exact S|]. intros v' k'. apply slot_ok_grow.
  - by apply Forall_app.
  - exists (n + m)%nat. rewrite !length_app. cbn. lia.
Qed.
Lemma marshalled_scalar args s kind v k :
  marshalled args s -> String.eqb kind "float" = false -> GamedataCalls.gp_kind_of kind = Some k ->
  k = GamedataCalls.GP_SCALAR \/ k = GamedataCalls.GP_ENTITY -> 0 <= v -> marshalled (args ++ [kind]) (push s v k).
Proof.
  intros Hs Hf Hk Hkk Hv. pose proof (marshalled_push args s kind v k [] [] Hs Hf Hk) as Hp. rewrite !app_nil_r in Hp. destruct s. apply Hp; [|by apply Forall_nil|exists 0%nat; split; [done|cbn; lia]].
  split; [done|]. tauto.
Qed.
(** A string is the last of the strings, a vector the last of the triples. *)
Lemma marshalled_text args s kind k t :
  marshalled args s -> String.eqb kind "float" = false -> GamedataCalls.gp_kind_of kind = Some k ->
  k = GamedataCalls.GP_STRING \/ k = GamedataCalls.GP_UTLSTRING -> contains zero t = false ->
  marshalled (args ++ [kind]) (push (mkSlots (gp s) (gp_kind s) (fp s) (strs s ++ [t]) (vecs s)) (Z.of_nat (length (strs s ++ [t])) - 1) k).
Proof.
  intros Hs Hf Hk Hkk Ht. rewrite <- (app_nil_r (vecs s)). apply marshalled_push; try done; [|by repeat constructor|exists 0%nat; split; [done|cbn; lia]].
  split; rewrite length_app; cbn; [lia|]. right. right. left. split; [done|lia].
Qed.
Lemma marshalled_vector args s x y z :
  marshalled args s ->
  marshalled (args ++ ["vector"]) (push (mkSlots (gp s) (gp_kind s) (fp s) (strs s) (vecs s ++ [x; y; z])) (Z.of_nat (length (vecs s ++ [x; y; z])) / 3 - 1) GamedataCalls.GP_VECTOR).
Proof.
  intros Hs. destruct (ms_room _ _ Hs) as (n & Hn & _). rewrite <- (app_nil_r (strs s)). apply marshalled_push; try done; [|exists 1%nat; split; [done|cbn; lia]].
  rewrite length_app. cbn [length]. replace (Z.of_nat (length (vecs s) + 3)) with ((Z.of_nat n + 1) * 3) by lia. rewrite Z.div_mul by done.
  split; [lia|]. right. right. right. split; [done|]. rewrite length_app. cbn [length]. lia.
Qed.
Lemma run_inr {A} (f : Host -> Host * A) h a h' : run f h = (inr a, h') -> f h = (h', a).
Proof. unfold run. destruct (f h). congruence. Qed.
Lemma pack_entity_nonneg v h : 0 <= (pack_entity_arg v h).2.
Proof.
  unfold pack_entity_arg. destruct (obj_prop v "index" h) as [h1 iv]. destruct (and_then iv integer_value h1) as [h2 i]. destruct (obj_prop v "id" h2) as [h3 idv].
  destruct (match idv with Some x => js_ent_id x h3 | None => (h3, 0) end) as [h4 id]. cbn [snd]. destruct (EntityLive.engine_serial_for _ _ _); [|by vm_compute].
  unfold pack. apply Z.lor_nonneg. split; [apply Z.shiftl_nonneg|]; apply Z.mod_pos_bound; lia.
Qed.
Lemma as_u64_nonneg f : 0 <= as_u64 f.
Proof. unfold as_u64, as_int. destruct f as [| [] | |]; try lia; by vm_compute. Qed.
Lemma cstring_inr s c : cstring s = inr c -> c = s /\ contains zero s = false.
Proof. unfold cstring. destruct (contains zero s); [done|]. by intros [= <-]. Qed.
Lemma marshal_value_ok args s kind v h s' h' :
  kind ∈ arg_kinds -> marshalled args s -> marshal_value s kind v h = (inr s', h') -> marshalled (args ++ [kind]) s'.
Proof.
  intros Hin Hs E. unfold arg_kinds in Hin. rewrite !elem_of_cons in Hin. destruct Hin as [->|[->|[->|[->|[->|[->|[->|[->|Hin]]]]]]]]; [..|by apply elem_of_nil in Hin]; cbn [marshal_value] in E; runs.
  - destruct Hs as [K F S T R]. split; rewrite ?classify_snoc; cbn; try done. rewrite length_app. cbn. lia.
  - apply marshalled_scalar; try done; [by left|]. by destruct (boolean_value v).
  - apply marshalled_scalar; try done; [by left|]. by apply Z.mod_pos_bound.
  - apply marshalled_scalar; try done; [by left|]. apply as_u64_nonneg.
  - apply marshalled_scalar; try done; [by right|]. apply run_inr in Hm. rewrite <- (f_equal snd Hm : _ = a). apply pack_entity_nonneg.
  - symmetry in Hm0. succeeds. apply cstring_inr in Hm0 as [-> Hz]. exact (marshalled_text args s "string" _ a Hs eq_refl eq_refl (or_introl eq_refl) Hz).
  - symmetry in Hm0. succeeds. apply cstring_inr in Hm0 as [-> Hz]. exact (marshalled_text args s "utlstring" _ a Hs eq_refl eq_refl (or_intror eq_refl) Hz).
  - by apply marshalled_vector.
Qed.
Lemma marshal_ok js args s h h' : Forall (fun a => a ∈ arg_kinds) args -> marshal js args h = (inr s, h') -> marshalled args s.
Proof.
  intros Hk E. unfold marshal in E. runs. revert Hm. apply (mfold_ind _ (fun l st => marshalled l st.2)).
  - split; cbn; [done..|by apply Forall2_nil|by apply Forall_nil|by exists 0%nat].
  - intros l1 x l2 [i s1] b w1 w2 -> Hs E. unfold marshal_one in E. runs. eapply marshal_value_ok; [|exact Hs|done]. rewrite Forall_app, Forall_cons in Hk. tauto.
Qed.

(** ** The receiver and its sub-object *)
Lemma receiver_given p si sid h i s h' : receiver p si sid h = (inr (i, s), h') -> receiver_ok p si sid h i s.
Proof.
  unfold receiver, receiver_ok. destruct (GamedataCalls.interface p); [by intros [= -> ->]|]. destruct (GamedataCalls.receiverless p); [by intros [= -> ->]|].
  intros E. runs. apply run_inr in Hm. unfold some in E. apply lift_eq in E. injection E as E _. symmetry in E. apply ok_or_inr in E. by rewrite Hm.
Qed.
Lemma hop_offset_nonneg pid name total hop h t h' : 0 <= total -> hop_offset pid name total hop h = (inr t, h') -> 0 <= t.
Proof. intros Ht E. unfold hop_offset in E. runs. destruct (a <? 0) eqn:Ea; [done|]. runs. lia. Qed.
Lemma sub_object_given pid name p h off deref h' : sub_object pid name p h = (inr (off, deref), h') ->
  if decide (GamedataCalls.via p = []) then off = -1 else 0 <= off < 2 ^ 31.
Proof.
  unfold sub_object. destruct (GamedataCalls.via p) as [|hop via]; [by intros [= <- <-]|]. intros E. rewrite decide_False by done. runs.
  apply (mfold_ind _ (fun _ t => 0 <= t)) in Hm; [|done|intros l1 x l2 x1 b w3 w4 _; apply hop_offset_nonneg].
  unfold some in Hm0. apply lift_eq in Hm0. injection Hm0 as E _. symmetry in E. apply ok_or_inr in E. unfold to_i32 in E. case_match eqn:Er; [|done]. injection E as <-. lia.
Qed.

(** ** The latches *)
Lemma armed_all ids l id : id ∈ foldl Latches.arm l ids <-> id ∈ l \/ (id ∈ ids /\ Latches.in_range id = true).
Proof.
  revert l. induction ids as [|i ids IH]; intros l; cbn; [set_solver|]. rewrite IH. unfold Latches.arm. destruct (Latches.in_range i) eqn:Ei; rewrite ?elem_of_union, ?elem_of_singleton, elem_of_cons.
  - destruct (decide (id = i)) as [->|]; tauto.
  - destruct (decide (id = i)) as [->|]; [|tauto]. rewrite Ei. intuition discriminate.
Qed.
Lemma disarmed_all ids l id : id ∈ foldl Latches.disarm l ids <-> id ∈ l /\ ~ (id ∈ ids /\ Latches.in_range id = true).
Proof.
  revert l. induction ids as [|i ids IH]; intros l; cbn; [set_solver|]. rewrite IH. unfold Latches.disarm, Latches.take. destruct (Latches.in_range i) eqn:Ei; cbn; rewrite ?elem_of_difference, ?elem_of_singleton, elem_of_cons.
  - destruct (decide (id = i)) as [->|]; tauto.
  - destruct (decide (id = i)) as [->|]; [|tauto]. rewrite Ei. intuition discriminate.
Qed.
(** ** Entering and leaving *)
Lemma frame_fits p c : call_ok p -> frame_sound p c -> frame_accepted c = true.
Proof.
  intros Hp Hc. pose proof (co_ret _ Hp) as Hr. pose proof (co_gp _ Hp) as Hg. pose proof (co_fp _ Hp) as Hf. pose proof (fs_slots _ _ Hc) as Hs. pose proof (Forall2_length _ _ _ Hs) as Hl.
  rewrite <- (fs_kinds _ _ Hc), <- Hl in Hg. rewrite <- (fs_fp _ _ Hc) in Hf. rewrite <- (fs_ret _ _ Hc) in Hr. destruct (fs_room _ _ Hc) as (n & Hn & Hroom).
  unfold frame_accepted. cbv zeta. rewrite !andb_true_iff. split_and!; try lia. apply forallb_forall. intros [v k] Hin%list_elem_of_In%list_elem_of_lookup. destruct Hin as [i Hi].
  apply lookup_zip_with_Some in Hi as (v' & k' & [= <- <-] & Hv & Hk). destruct (Forall2_lookup_lr _ _ _ _ _ _ Hs Hv Hk) as [_ [->|[->|[[[->| ->] Hlt]|[-> Hlt]]]]]; unfold slot_accepted; cbn; try done; lia.
Qed.
Lemma enter_call_inr owner name si sid js h c ids h' : enter_call owner name si sid js h = (inr (c, ids), h') ->
  exists pid p miss h1, owner = Some pid /\ GamedataCalls.calls (declared (tables h)) !! (pid, name) = Some (GamedataCalls.Ready p miss) /\
    receiver_ok p si sid h (c_index c) (c_serial c) /\ (Forall (fun a => a ∈ arg_kinds) (GamedataCalls.args p) -> frame_sound p c) /\
    ids = bypass_ids_for_call (tables h1) pid name /\ h' = (if bypass_ops then set_latches h1 (foldl Latches.arm (latches h1) ids) else h1).
Proof.
  unfold enter_call. intros E. apply bind_inr in E as (pid & h0 & E0 & E). apply lift_eq in E0. injection E0 as E0 ->. symmetry in E0. apply ok_or_inr in E0.
  apply bind_inr in E as (p & h0 & E1 & E). apply lift_eq in E1. injection E1 as E1 ->. symmetry in E1. apply ok_or_inr in E1. unfold GamedataCalls.plan_of in E1.
  apply bind_inr in E as ([index serial] & h2 & Er & E). apply bind_inr in E as ([off deref] & h3 & Eo & E). apply bind_inr in E as (s & h4 & Es & E). apply bind_inr in E as (func & h5 & Ef & E).
  apply lift_eq in Ef. injection Ef as _ ->. injection E as <- <- <-. destruct (GamedataCalls.calls (declared (tables h)) !! (pid, name)) as [[p' miss|]|] eqn:Ep; [|done|done]. injection E1 as ->.
  exists pid, p, miss, h4. split_and!; [done|done|by eapply receiver_given| |done|done]. intros Hk. apply marshal_ok in Es as [K F S T R]; [|done]. apply sub_object_given in Eo. by split.
Qed.
Lemma perform_clears info c ids h r h' : bypass_ops = true -> is_Some engine_call_invoke -> perform info c ids h = (r, h') ->
  forall id, id ∈ ids -> Latches.in_range id = true -> id ∉ latches h'.
Proof.
  intros Hb [func Hf] E id Hin Hr. unfold perform in E. rewrite Hf in E. cbn in E. rewrite bind_case in E. unfold some, run in E. cbn in E.
  destruct (with_outbound info (func c) h) as [h1 [ok ret]]. rewrite !bind_case in E. cbn in E. assert (Hl : latches h' = foldl Latches.disarm (latches h1) ids).
  { unfold disarm_all in E. rewrite Hb in E. unfold done_unless in E. destruct (negb (ok =? 0)); cbn in E; by injection E as _ <-. }
  rewrite Hl, disarmed_all. tauto.
Qed.

(** ** Properties *)
Section Runs.
Context {num : Type} `{JsonNumber num} `{Printing num} `{Ops}.
Lemma bypass_in_range (ops : list (Op (num := num))) owner call id :
  let w := GamedataHooks.run ops in id ∈ bypass_ids_for_call w owner call -> Latches.in_range id = true.
Proof.
  intros w Hin. pose proof (gamedata_inv_run ops) as Hi. fold w in Hi. apply bypass_elem in Hin as (n & p & a & miss & _ & Hid); [|done].
  apply (hook_for_id_spec w id _ Hi) in Hid as (s & Hs & <- & _). pose proof (so_range _ _ (iv_slots _ Hi) _ _ Hs) as Hr. unfold Latches.in_range, Latches.S2_HOOK_MAX, MAX_HOOKS in *. lia.
Qed.

(** C31. What the shim's call function is given fits the frame its descriptor was admitted with: a target it
    resolved itself, the receiver of the plan, exactly the plan's slots, each with a number or the place of a
    payload that is there, and strings without a terminator inside; the shim refuses none of it. Whatever
    JavaScript did while its values were converted, the latches of the hooks the call bypasses are armed when
    the function starts, and none of them is when it is over, however it ends. *)
Theorem call_frame_sound (ops ops' : list (Op (num := num))) owner name si sid js h c ids h' :
  tables h = GamedataHooks.run ops -> tables h' = GamedataHooks.run ops' ->
  enter_call owner name si sid js h = (inr (c, ids), h') ->
  exists pid p miss, owner = Some pid /\ GamedataCalls.calls (declared (tables h)) !! (pid, name) = Some (GamedataCalls.Ready p miss) /\
    (exists rq, Resolve rq (c_call_id c) ∈ asked (tables h)) /\ receiver_ok p si sid h (c_index c) (c_serial c) /\ frame_sound p c /\ frame_accepted c = true /\
    ids = bypass_ids_for_call (tables h') pid name /\
    (bypass_ops = true -> forall id, id ∈ ids -> id ∈ latches h' /\ forall info r h'', perform info c ids h' = (r, h'') -> is_Some engine_call_invoke -> id ∉ latches h'').
Proof.
  intros Ht Ht' E. apply enter_call_inr in E as (pid & p & miss & h1 & -> & Hp & Hrec & Hs & Hids & Hh).
  destruct (iv_calls _ (gamedata_inv_run ops) (pid, name) p miss) as [Hc (rq & Hrq)]; [by rewrite <- Ht|].
  assert (Hf : frame_sound p c) by (apply Hs; eapply Forall_impl; [exact (co_args _ Hc)|]; intros a; apply known_kind).
  exists pid, p, miss. split_and!; try done.
  - exists rq. by rewrite (fs_id _ _ Hf), Ht.
  - by eapply frame_fits.
  - rewrite Hids. subst h'. by destruct bypass_ops.
  - intros Hb id Hin. assert (Hr : Latches.in_range id = true).
    { apply (bypass_in_range ops' pid name). rewrite <- Ht', Hh. rewrite Hids in Hin. by destruct bypass_ops. }
    split; [rewrite Hh, Hb; cbn; apply armed_all; by right|]. intros info r h'' Hperf Hfunc. by eapply perform_clears.
Qed.
End Runs.

(** An entity argument arrives as the index and the serial the books gave. *)
Definition unpack (v : Z) : Z * Z := (i32_wrap (Z.shiftr v 32), i32_wrap (Z.land v (2 ^ 32 - 1))).
Lemma pack_unpack index serial : - 2 ^ 31 <= index < 2 ^ 31 -> - 2 ^ 31 <= serial < 2 ^ 31 -> unpack (pack index serial) = (index, serial).
Proof.
  intros Hi Hs. unfold unpack, pack. assert (Hlow : 0 <= u32_wrap serial < 2 ^ 32) by by apply Z.mod_pos_bound. assert (Hhigh : 0 <= u32_wrap index < 2 ^ 32) by by apply Z.mod_pos_bound.
  rewrite Z.shiftr_lor, Z.shiftr_shiftl_l, Z.sub_diag, Z.shiftl_0_r by lia. rewrite (Z.shiftr_div_pow2 (u32_wrap serial)), Z.div_small, Z.lor_0_r by lia.
  change (2 ^ 32 - 1) with (Z.ones 32). rewrite Z.land_ones by lia. assert (Hmod : Z.lor (Z.shiftl (u32_wrap index) 32) (u32_wrap serial) mod 2 ^ 32 = u32_wrap serial).
  { rewrite <- Z.land_ones, Z.land_lor_distr_l, !Z.land_ones, Z.shiftl_mul_pow2, Z.mod_mul, Z.lor_0_l, Z.mod_small by lia. done. }
  rewrite Hmod. unfold i32_wrap, u32_wrap. f_equal; rewrite Zplus_mod_idemp_l, Z.mod_small by lia; lia.
Qed.
End Properties.
End CallInvokeProperties.

Module CallInvokeExamples.
Import JsonExamples GamedataProperties GamedataExamples CallInvoke CallInvokeProperties.

(** Values without getters. *)
Inductive Js := JNum (f : f64) | JText (s : string) | JObj (l : list (string * Js)) | JArr (l : list Js) | JNothing.
#[export] Instance v8 : V8 Js := {
  undefined := JNothing;
  is_null_or_undefined v := match v with JNothing => true | _ => false end;
  boolean_value v := match v with JNothing => false | _ => true end;
  get_index v i h := (h, match v with JArr l => l !! Z.to_nat i | _ => None end);
  number_value v h := (h, match v with JNum f => Some f | _ => None end);
  integer_value v h := (h, match v with JNum f => Some (trunc f) | _ => None end);
  to_rust_string_lossy v h := (h, match v with JText s => s | _ => "?" end);
  obj_prop v k h := (h, match v with JObj l => get l k | _ => None end);
  make_ptr f h := (h, Some (JNum f));
  new_string s := Some (JText s);
}.
(** An engine that does nothing; the list it leaves behind has two strings. *)
Definition two_strings : string := "a" +:+ String zero ("bc" +:+ String zero "").
#[export] Instance engine : Engine := {
  schema_offset := Some (fun _ f => if String.eqb f "m_far" then 2 ^ 31 - 1 else if String.eqb f "m_near" then 16 else -1);
  engine_call_invoke := Some (fun _ h => (h, (1, 0)));
  engine_call_take_strings := Some (fun _ cap => (5, match cap with Some _ => two_strings | None => "" end));
  has_arm_bypass := true;
  has_disarm_bypass := true;
}.
Definition num_of (z : Z) : Js := JNum (f64_of_Z z).
(** One entity: index 0, id 1, serial 7. *)
Definition one_entity : EntityLive.books := {| EntityLive.map_epoch := 1; EntityLive.live := Liveness.LiveTable.new 1; EntityLive.flat := [(1, 7)]; EntityLive.repair_armed := false |}.
Definition start : Host := mkHost (GamedataHooks.run installed_ops) one_entity Offsets.new ∅ [].
Definition js_args : option Js := Some (JArr [num_of 5; num_of (-2); JObj [("index", num_of 0); ("id", num_of 1)]]).
Definition given : Call := mkCall 8 0 7 (-1) 0 [2 ^ 64 - 2; 7] [0; 1] [f64_of_Z 5] [] [] 0.
Definition entered : Host := set_latches start {[0]}.
Lemma enters : enter_call (Some "p") "end" (num_of 0) (num_of 1) js_args start = (inr (given, [0]), entered).
Proof. vm_compute. reflexivity. Qed.
Example answers : let '(h, r) := engine_call_invoke_for 1 (Some "p") "end" (num_of 0) (num_of 1) js_args start in (latches h, nest h, r) = (∅, [], Undefined).
Proof. vm_compute. reflexivity. Qed.
(** The same call again from inside the engine: the inner one clears the latch of the outer one. *)
Example nested_clears : (let '(r, h) := enter_call (Some "p") "end" (num_of 0) (num_of 1) js_args entered in
  match r with inr (c, ids) => Latches.take (latches (perform 1 c ids h).2) 0 | inl _ => (true, ∅) end) = (false, ∅).
Proof. vm_compute. reflexivity. Qed.
(** A stale receiver, an id that is not a whole number, an address no plugin may have. *)
Example stale_receiver : (engine_call_invoke_for 1 (Some "p") "end" (num_of 0) (num_of 2) js_args start).2 = Null.
Proof. vm_compute. reflexivity. Qed.
Example refused_address : (marshal (Some (JArr [JObj [("address", num_of 4096)]])) ["ptr"] start).1 = inl ().
Proof. vm_compute. reflexivity. Qed.
Example payloads : rbind (marshal (Some (JArr [JText "x"; JObj []; JText "y"])) ["string"; "vector"; "utlstring"] start).1 (fun s => inr (gp s, gp_kind s, strs s)) = inr ([0; 0; 1], [2; 3; 4], ["x"; "y"]).
Proof. vm_compute. reflexivity. Qed.
(** A path of two embedded hops whose sum leaves [i32] makes no call. *)
Definition far_plan : GamedataCalls.InvokePlan :=
  GamedataCalls.mkPlan 8 [] 0 [GamedataCalls.mkHop "C" "m_far" true; GamedataCalls.mkHop "C" "m_near" true] false None.
Example too_far : (sub_object "p" "end" far_plan start).1 = inl ().
Proof. vm_compute. reflexivity. Qed.
Example strings_back : (convert 6 2 start).1 = inr (Strings [JText "a"; JText "bc"]) /\ (convert (V := Js) 6 3 start).1 = inl ().
Proof. vm_compute. done. Qed.

Lemma call_frame_sound_witness : frame_accepted given = true /\ c_kinds given = [0; 1] /\ 0 ∈ latches entered /\ 0 ∉ latches (perform 1 given [0] entered).2.
Proof.
  destruct (call_frame_sound installed_ops installed_ops (Some "p") "end" (num_of 0) (num_of 1) js_args start given [0] entered eq_refl eq_refl enters)
    as (pid & p & miss & _ & _ & _ & _ & _ & Hf & _ & Hl).
  destruct (Hl eq_refl 0 ltac:(by left)) as [Hin Hout]. split; [exact Hf|]. split; [reflexivity|]. split; [exact Hin|].
  apply (Hout 1 (perform 1 given [0] entered).1 _ (surjective_pairing _)). by eexists.
Defined.
End CallInvokeExamples.
